(* ===== verification/_CoqProject ===== *)
-Q . S2P
Prelude.v
CString.v
OffloadBundle.v
UrUtil.v
DeviceSelector.v
LoaderLib.v
Validation.v
PoolManager.v
DisjointPoolConfig.v
AdapterRegistry.v
StreamQueue.v
CommandListCache.v
EventPool.v
NativeCpu.v
SanitizerCommon.v
AsanShadow.v
AsanInterceptor.v
BatchedQueue.v
BatchedWaiting.v
OutOfOrderQueue.v
OutOfOrderProps.v
UsmAsync.v
FlatMemory.v
AsanBuffer.v
AsanBufferProofs.v
AsanBufferCommands.v
AsanBufferHandles.v
AsanBufferProps.v
CudaMemory.v
CudaMemoryProofs.v
CudaFill.v
CudaCommands.v
CudaMemoryProps.v
L0Memory.v
L0MemoryProofs.v
L0MemoryCommands.v
L0MemoryHandles.v
L0MemoryOrder.v
L0MemoryProps.v
