(* ===== verification/Prelude.v ===== *)
(** * Unified Runtime: a verification library

    Unified Runtime (oneapi-src/unified-runtime) is the C++ layer between the
    SYCL runtime and the drivers of accelerators.  A _loader_ finds _adapters_
    (one per backend: Level Zero, CUDA, HIP, OpenCL, native CPU, ...), puts
    _layers_ (validation, tracing, sanitizers) in front of them and forwards the
    calls of the application.  The library models the parts of it that have
    logic of their own: what is generated from the specification or only
    forwards to a driver is left out (see the end).

    ** How the code is modelled

    Functions are shallow embeddings named like the C++ functions.  State that
    the code changes is passed explicitly, with a small error monad or
    sum-valued results where it returns codes or throws; [outcome] below has
    returned values, exceptions and undefined behaviour, so that a theorem
    "never [Undefined]" excludes assertion failures, out-of-range accesses and
    null dereferences.  Handles and addresses are [Z]; [u32] and [u64] wrap
    machine integers where the code computes with them.  Strings of the C++
    library are lists of characters (CString.v).  Drivers, allocators, the
    environment, the file system and the clock are parameters: a type class per
    component gives their answers, usually by the number of the call, with the
    documented behaviour the code relies on as its laws; a concrete instance in
    each witness shows that the laws can hold.  Concurrent components are step
    relations: a section under a lock is one step, and so is each access to an
    atomic variable outside of the locks (the counters of the native CPU thread
    pool).  Undefined initial values (flags and statistics without initialiser)
    are parameters of the model.

    ** The files

    - Prelude.v (this file): result codes ([ur_result_t]), [outcome], machine
      integers, lemmas on lists and sums, tactics and hints.
    - CString.v: strings and streams of the C++ library as the parsers use them.
    - OffloadBundle.v: common/offload_bundle_parser.{hpp,cpp}: finding the binary of
      a target in a bundle.
    - UrUtil.v: common/ur_util.{hpp,cpp}: parsing of environment variables
      (module [Env]), arithmetic and string helpers ([Util]) and [AtomicSingleton]
      ([Rc]), the reference-counted singleton of the loader and the layers.
    - DeviceSelector.v: loader/ur_lib.cpp, [urDeviceGetSelected]: the
      ONEAPI_DEVICE_SELECTOR language, from the text to the devices written.
    - LoaderLib.v: loader/ur_lib.{hpp,cpp}: configuration objects, [urLoaderInit],
      [urLoaderTearDown] and the order in which layers come up.
    - AdapterRegistry.v: loader/ur_adapter_registry.hpp, ur_loader.cpp: which
      adapter libraries are tried, on which paths, in which order.
    - Validation.v: loader/layers/validation: reference counts of handles (leak
      and lifetime checks), bounds checks of enqueued commands.
    - PoolManager.v, DisjointPoolConfig.v: ur/ur.hpp and common/ur_pool_manager.hpp
      (pools by descriptor), common/umf_pools (the settings text of the pools).
    - StreamQueue.v: common/cuda-hip/stream_queue.hpp: the streams of CUDA and
      HIP queues.
    - FlatMemory.v: byte addresses, copies and kernels, for all kinds of buffers.
    - CudaMemory.v, CudaMemoryProofs.v, CudaFill.v, CudaCommands.v,
      CudaMemoryProps.v: buffers of the CUDA adapter (cuda/memory.{hpp,cpp}, the
      buffer commands of cuda/enqueue.cpp): copies per device, migration, maps
      and kernel launches, against arrays of bytes.
    - L0Memory.v, L0MemoryProofs.v, L0MemoryCommands.v, L0MemoryHandles.v,
      L0MemoryOrder.v, L0MemoryProps.v: buffers of the second Level Zero adapter
      (level_zero/v2/memory.{hpp,cpp}, the buffer commands of
      command_list_manager.cpp): integrated, discrete and shared buffers and
      sub-buffers, commands that run later, maps and write-back, against arrays
      of bytes with mapped ranges.
    - CommandListCache.v, EventPool.v, BatchedQueue.v, BatchedWaiting.v,
      OutOfOrderQueue.v, OutOfOrderProps.v, UsmAsync.v:
      the second Level Zero adapter (level_zero/v2): recycled command lists,
      events and their providers and pools, the batched queue, wait lists over
      several queues, the out-of-order queue on its four in-order lists with the
      choice of a queue class (queue_create.cpp), and memory freed and reused in
      stream order.
    - NativeCpu.v: native_cpu/threadpool.hpp, enqueue.cpp: the worker threads, the
      partition of kernel ranges over them, rectangular copies.
    - SanitizerCommon.v, AsanShadow.v, AsanInterceptor.v: loader/layers/sanitizer:
      address arithmetic and options, the shadow memory of CPU and GPU devices
      behind one interface (class [ShadowMemory]), and the allocations of the
      address sanitizer with redzones, release checks and quarantine.
    - AsanBuffer.v, AsanBufferProofs.v, AsanBufferCommands.v, AsanBufferHandles.v,
      AsanBufferProps.v: the buffers the address sanitizer puts in the place of the
      adapter's (asan_buffer.{hpp,cpp}, the memory functions of asan_ddi.cpp): one
      allocation per device, migration, sub-buffers, commands, maps.

    BatchedQueue.v uses the command list cache, BatchedWaiting.v the batched
    queue, AsanBuffer.v the allocations of AsanInterceptor.v (the proofs relate the
    two through the live regions of its invariant), AsanInterceptor.v the records
    of AsanShadow.v, LoaderLib.v [Rc] and [Env]; the out-of-order queue is created over the cache and the event pool,
    which is proved over any provider (class [EventProvider]); both providers are
    shown to be one.

    ** What is shown

    - Refinements of an abstract description: device selection, loader life
      cycle, leak checking, pool manager, buffers of two adapters and of the
      address sanitizer as byte arrays, both shadow memories, event providers, and
      the batched queue (while the control calls of the driver succeed and no host
      tasks are enqueued, the driver receives exactly the accepted commands in
      order).  The doc comment of each theorem names the uses it leaves out, with
      the example that shows what the code does there.
    - Safety over all reachable states: singletons are not destroyed twice,
      command lists, events, pools and memory are not lent twice, lists the
      driver may still run are not reused, barriers order streams and the lists
      of the out-of-order queue, reused memory is ordered after its free, no chunk
      of the sanitizer is handed back twice.
    - Progress and termination: workers drain the pool, batched queues that wait
      for each other and the lists of an out-of-order queue do not deadlock (unless
      an event of another queue that they wait for never completes), stream
      selection and page mapping end, the selector always answers, copies between
      different buffers return.
    - Functional behaviour on every branch, error results included, and round
      trips of the parsers with a printer of the documented grammar; the bundle
      parser also on arbitrary bytes, the pool settings on every documented text.
    - Theorems whose name says what goes wrong (for instance
      [unmap_frees_pending_source], [migration_overtakes_pending]) evaluate the model on an
      input where the code does not do what it means to.

    Each theorem with hypotheses has a lemma [..._witness] that applies it to a
    concrete input.

    ** Fuel and bounds

    Loops of the code that are not structural take fuel: the page loop of the
    GPU shadow gets one unit per page of the range ([pages_fuel], shown enough),
    a normal event provider retries its allocation once (fuel 2: a new pool is
    never empty), the search for a stream visits each stream once ([S] of their
    number), and releasing a CUDA sub-buffer releases a parent that has none
    (depth 2); a Level Zero sub-buffer has a parent with a smaller handle, so that
    its handle bounds the chain of parents, and so does a sanitizer buffer; a walk
    over a bundle gets a unit per byte and one more; the lists of an out-of-order
    queue have [pending] operations to run, one of which ends with each unit.
    Where fuel could run out the model gives [Undefined], and the theorems
    exclude it.

    ** Not modelled

    - Generated code (ur_ldrddi.cpp, ur_libapi.cpp, ur_api.cpp, ur_print.hpp,
      ur_trcddi.cpp, the intercept functions of ur_valddi.cpp, the mock adapter):
      one pattern repeated for several hundred functions.
    - The OpenCL and offload adapters, and the device, platform, program and
      kernel queries of all adapters: translation of driver results.
    - Events, command buffers and images of CUDA and HIP, HIP memory objects.
    - Of the second Level Zero adapter: the in-order immediate queue, command
      buffers, images, IPC, rectangular copies, kernels and graphs; of the first
      one everything.
    - Of the address sanitizer: programs, kernels and launches, the events of the
      buffer commands and its locks; the memory and thread sanitizers, reports,
      backtraces, the logger.
    - Timing: profiling timestamps and latency tracking.

    ** Plan

    Next: the private shadow of the address sanitizer, then the thread sanitizer's
    shadow and the rectangular copies of the second Level Zero adapter. *)
From stdpp Require Import base numbers list gmap fin_maps strings sorting relations.
From Stdlib Require Import Ascii.

(** ** Result codes ([ur_result_t], include/unified-runtime/ur_api.h) *)

Inductive ur_result_t :=
  | UR_RESULT_SUCCESS
  | UR_RESULT_ERROR_INVALID_OPERATION
  | UR_RESULT_ERROR_INVALID_QUEUE_PROPERTIES
  | UR_RESULT_ERROR_INVALID_QUEUE
  | UR_RESULT_ERROR_INVALID_VALUE
  | UR_RESULT_ERROR_INVALID_CONTEXT
  | UR_RESULT_ERROR_INVALID_PLATFORM
  | UR_RESULT_ERROR_INVALID_BINARY
  | UR_RESULT_ERROR_INVALID_PROGRAM
  | UR_RESULT_ERROR_INVALID_SAMPLER
  | UR_RESULT_ERROR_INVALID_BUFFER_SIZE
  | UR_RESULT_ERROR_INVALID_MEM_OBJECT
  | UR_RESULT_ERROR_INVALID_EVENT
  | UR_RESULT_ERROR_INVALID_EVENT_WAIT_LIST
  | UR_RESULT_ERROR_MISALIGNED_SUB_BUFFER_OFFSET
  | UR_RESULT_ERROR_INVALID_WORK_GROUP_SIZE
  | UR_RESULT_ERROR_COMPILER_NOT_AVAILABLE
  | UR_RESULT_ERROR_PROFILING_INFO_NOT_AVAILABLE
  | UR_RESULT_ERROR_DEVICE_NOT_FOUND
  | UR_RESULT_ERROR_INVALID_DEVICE
  | UR_RESULT_ERROR_DEVICE_LOST
  | UR_RESULT_ERROR_DEVICE_REQUIRES_RESET
  | UR_RESULT_ERROR_DEVICE_IN_LOW_POWER_STATE
  | UR_RESULT_ERROR_DEVICE_PARTITION_FAILED
  | UR_RESULT_ERROR_INVALID_DEVICE_PARTITION_COUNT
  | UR_RESULT_ERROR_INVALID_WORK_ITEM_SIZE
  | UR_RESULT_ERROR_INVALID_WORK_DIMENSION
  | UR_RESULT_ERROR_INVALID_KERNEL_ARGS
  | UR_RESULT_ERROR_INVALID_KERNEL
  | UR_RESULT_ERROR_INVALID_KERNEL_NAME
  | UR_RESULT_ERROR_INVALID_KERNEL_ARGUMENT_INDEX
  | UR_RESULT_ERROR_INVALID_KERNEL_ARGUMENT_SIZE
  | UR_RESULT_ERROR_INVALID_KERNEL_ATTRIBUTE_VALUE
  | UR_RESULT_ERROR_INVALID_IMAGE_SIZE
  | UR_RESULT_ERROR_INVALID_IMAGE_FORMAT_DESCRIPTOR
  | UR_RESULT_ERROR_MEM_OBJECT_ALLOCATION_FAILURE
  | UR_RESULT_ERROR_INVALID_PROGRAM_EXECUTABLE
  | UR_RESULT_ERROR_UNINITIALIZED
  | UR_RESULT_ERROR_OUT_OF_HOST_MEMORY
  | UR_RESULT_ERROR_OUT_OF_DEVICE_MEMORY
  | UR_RESULT_ERROR_OUT_OF_RESOURCES
  | UR_RESULT_ERROR_PROGRAM_BUILD_FAILURE
  | UR_RESULT_ERROR_PROGRAM_LINK_FAILURE
  | UR_RESULT_ERROR_UNSUPPORTED_VERSION
  | UR_RESULT_ERROR_UNSUPPORTED_FEATURE
  | UR_RESULT_ERROR_INVALID_ARGUMENT
  | UR_RESULT_ERROR_INVALID_NULL_HANDLE
  | UR_RESULT_ERROR_HANDLE_OBJECT_IN_USE
  | UR_RESULT_ERROR_INVALID_NULL_POINTER
  | UR_RESULT_ERROR_INVALID_SIZE
  | UR_RESULT_ERROR_UNSUPPORTED_SIZE
  | UR_RESULT_ERROR_UNSUPPORTED_ALIGNMENT
  | UR_RESULT_ERROR_INVALID_SYNCHRONIZATION_OBJECT
  | UR_RESULT_ERROR_INVALID_ENUMERATION
  | UR_RESULT_ERROR_UNSUPPORTED_ENUMERATION
  | UR_RESULT_ERROR_UNSUPPORTED_IMAGE_FORMAT
  | UR_RESULT_ERROR_INVALID_NATIVE_BINARY
  | UR_RESULT_ERROR_INVALID_GLOBAL_NAME
  | UR_RESULT_ERROR_FUNCTION_ADDRESS_NOT_AVAILABLE
  | UR_RESULT_ERROR_INVALID_GROUP_SIZE_DIMENSION
  | UR_RESULT_ERROR_INVALID_GLOBAL_WIDTH_DIMENSION
  | UR_RESULT_ERROR_PROGRAM_UNLINKED
  | UR_RESULT_ERROR_OVERLAPPING_REGIONS
  | UR_RESULT_ERROR_INVALID_HOST_PTR
  | UR_RESULT_ERROR_INVALID_USM_SIZE
  | UR_RESULT_ERROR_OBJECT_ALLOCATION_FAILURE
  | UR_RESULT_ERROR_ADAPTER_SPECIFIC
  | UR_RESULT_ERROR_LAYER_NOT_PRESENT
  | UR_RESULT_ERROR_IN_EVENT_LIST_EXEC_STATUS
  | UR_RESULT_ERROR_DEVICE_NOT_AVAILABLE
  | UR_RESULT_ERROR_INVALID_SPEC_ID
  | UR_RESULT_ERROR_INVALID_GRAPH
  | UR_RESULT_ERROR_GRAPH_CAPTURE_UNSUPPORTED
  | UR_RESULT_ERROR_GRAPH_CAPTURE_INVALIDATED
  | UR_RESULT_ERROR_GRAPH_CAPTURE_MERGE_ATTEMPT
  | UR_RESULT_ERROR_COMMAND_LIST_NOT_CAPTURING
  | UR_RESULT_ERROR_GRAPH_UNJOINED_FORKS
  | UR_RESULT_ERROR_GRAPH_INTERNAL_EVENT
  | UR_RESULT_ERROR_INVALID_COMMAND_BUFFER_EXP
  | UR_RESULT_ERROR_INVALID_COMMAND_BUFFER_SYNC_POINT_EXP
  | UR_RESULT_ERROR_INVALID_COMMAND_BUFFER_SYNC_POINT_WAIT_LIST_EXP
  | UR_RESULT_ERROR_INVALID_COMMAND_BUFFER_COMMAND_HANDLE_EXP
  | UR_RESULT_ERROR_UNKNOWN
  | UR_RESULT_FORCE_UINT32.

#[export] Instance ur_result_t_eq_dec : EqDecision ur_result_t.
Proof. solve_decision. Defined.

(** ** C++ control flow: values, exceptions and undefined behaviour

    [Ret a] is normal completion, [Throw e] an exception that propagates, and
    [Undefined] marks an execution the C++ standard gives no meaning to (an
    out-of-range [operator[]], a violated precondition of the library). *)

Inductive exn :=
  | std_invalid_argument
  | std_out_of_range
  | std_bad_alloc
  | exn_ur_result (r : ur_result_t)
  | exn_other.

#[export] Instance exn_eq_dec : EqDecision exn.
Proof. solve_decision. Defined.

Inductive outcome (A : Type) :=
  | Ret (a : A)
  | Throw (e : exn)
  | Undefined.
Arguments Ret {A} a.
Arguments Throw {A} e.
Arguments Undefined {A}.

#[export] Instance outcome_eq_dec `{EqDecision A} : EqDecision (outcome A).
Proof. solve_decision. Defined.

#[export] Instance outcome_ret : MRet outcome := @Ret.
#[export] Instance outcome_bind : MBind outcome := λ A B f m,
  match m with Ret a => f a | Throw e => Throw e | Undefined => Undefined end.
#[export] Instance outcome_fmap : FMap outcome := λ A B f m,
  match m with Ret a => Ret (f a) | Throw e => Throw e | Undefined => Undefined end.

(** [try { m } catch (...) { h }] *)
Definition try_catch {A} (m : outcome A) (h : exn → outcome A) : outcome A :=
  match m with Throw e => h e | m => m end.

Lemma outcome_bind_ret {A B} (m : outcome A) (f : A → outcome B) b :
  m ≫= f = Ret b ↔ ∃ a, m = Ret a ∧ f a = Ret b.
Proof. destruct m; simpl; naive_solver. Qed.

Lemma outcome_bind_assoc {A B C} (m : outcome A) (f : A → outcome B) (g : B → outcome C) :
  (m ≫= f) ≫= g = m ≫= (λ a, f a ≫= g).
Proof. by destruct m. Qed.

(** ** Machine integers

    A [w]-bit unsigned integer is the [Z] of its value; [wrap w] is the
    reduction modulo [2^w] that C++ unsigned arithmetic performs. *)

Declare Scope ur_scope.
Delimit Scope ur_scope with ur.

Definition wrap (w x : Z) : Z := x `mod` 2 ^ w.
Definition u32 (x : Z) : Z := wrap 32 x.
Definition u64 (x : Z) : Z := wrap 64 x.
Definition UINT32_MAX : Z := 2 ^ 32 - 1.
Definition SIZE_MAX : Z := 2 ^ 64 - 1.

Notation "x ⊕ y" := (u64 (x + y)) (at level 50, left associativity) : ur_scope.
Notation "x ⊖ y" := (u64 (x - y)) (at level 50, left associativity) : ur_scope.
Notation "x ⊗ y" := (u64 (x * y)) (at level 40, left associativity) : ur_scope.

(** The values of an unsigned [w]-bit object. *)
Definition in_u32 (x : Z) : Prop := (0 ≤ x < 2 ^ 32)%Z.
Definition in_u64 (x : Z) : Prop := (0 ≤ x < 2 ^ 64)%Z.

#[export] Instance in_u32_dec x : Decision (in_u32 x).
Proof. unfold in_u32. apply _. Defined.
#[export] Instance in_u64_dec x : Decision (in_u64 x).
Proof. unfold in_u64. apply _. Defined.

Create HintDb ur_int.

Section ints.
Local Open Scope Z_scope.

Lemma u64_range x : in_u64 (u64 x).
Proof. unfold in_u64, u64, wrap. apply Z.mod_pos_bound. lia. Qed.
Lemma u32_range x : in_u32 (u32 x).
Proof. unfold in_u32, u32, wrap. apply Z.mod_pos_bound. lia. Qed.
Lemma u64_small x : in_u64 x → u64 x = x.
Proof. unfold in_u64, u64, wrap. intros. by apply Z.mod_small. Qed.
Lemma u32_small x : in_u32 x → u32 x = x.
Proof. unfold in_u32, u32, wrap. intros. by apply Z.mod_small. Qed.
Lemma u64_idemp x : u64 (u64 x) = u64 x.
Proof. apply u64_small, u64_range. Qed.
Lemma u32_idemp x : u32 (u32 x) = u32 x.
Proof. apply u32_small, u32_range. Qed.
Lemma u64_add_l x y : u64 (u64 x + y) = u64 (x + y).
Proof. unfold u64, wrap. by rewrite Z.add_mod_idemp_l by lia. Qed.
Lemma u64_add_r x y : u64 (x + u64 y) = u64 (x + y).
Proof. unfold u64, wrap. by rewrite Z.add_mod_idemp_r by lia. Qed.
Lemma u32_sub_small x y : 0 ≤ y ≤ x → x < 2 ^ 32 → u32 (x - y) = x - y.
Proof. intros. apply u32_small. unfold in_u32. lia. Qed.
Lemma u64_sub_small x y : 0 ≤ y ≤ x → x < 2 ^ 64 → u64 (x - y) = x - y.
Proof. intros. apply u64_small. unfold in_u64. lia. Qed.
End ints.

#[export] Hint Resolve u64_range u32_range : ur_int.
#[export] Hint Rewrite u64_idemp u32_idemp u64_add_l u64_add_r : ur_int.

(** ** Automation *)

(** Turns the boolean tests the code is written with into propositions. *)
Ltac bool_to_prop :=
  repeat match goal with
  | H : _ && _ = true |- _ => apply andb_true_iff in H as [? ?]
  | H : _ || _ = false |- _ => apply orb_false_iff in H as [? ?]
  | H : negb _ = true |- _ => apply negb_true_iff in H
  | H : negb _ = false |- _ => apply negb_false_iff in H
  | H : (_ <? _)%Z = true |- _ => apply Z.ltb_lt in H
  | H : (_ <? _)%Z = false |- _ => apply Z.ltb_ge in H
  | H : (_ <=? _)%Z = true |- _ => apply Z.leb_le in H
  | H : (_ <=? _)%Z = false |- _ => apply Z.leb_gt in H
  | H : (_ =? _)%Z = true |- _ => apply Z.eqb_eq in H
  | H : (_ =? _)%Z = false |- _ => apply Z.eqb_neq in H
  | H : (_ >? _)%Z = true |- _ => rewrite Z.gtb_lt in H
  | H : (_ >? _)%Z = false |- _ => rewrite Z.gtb_ltb in H; apply Z.ltb_ge in H
  | H : (_ >=? _)%Z = true |- _ => rewrite Z.geb_leb in H; apply Z.leb_le in H
  | H : (_ >=? _)%Z = false |- _ => rewrite Z.geb_leb in H; apply Z.leb_gt in H
  | H : bool_decide _ = true |- _ => apply bool_decide_eq_true in H
  | H : bool_decide _ = false |- _ => apply bool_decide_eq_false in H
  | H : (_ <? _)%nat = true |- _ => apply Nat.ltb_lt in H
  | H : (_ <? _)%nat = false |- _ => apply Nat.ltb_ge in H
  | H : (_ =? _)%nat = true |- _ => apply Nat.eqb_eq in H
  | H : (_ =? _)%nat = false |- _ => apply Nat.eqb_neq in H
  | H : Is_true ?b |- _ => apply Is_true_true in H
  end.

(** Case analysis on every [if] and [match] scrutinee, tests as propositions. *)
Ltac cases := repeat (case_match || case_decide); bool_to_prop; simplify_eq/=.

(** Inverts a monadic computation known to return normally. *)
Ltac inv_ret :=
  repeat match goal with
  | H : _ ≫= _ = Ret _ |- _ => apply outcome_bind_ret in H as (? & ? & ?)
  | H : Ret _ = Ret _ |- _ => injection H as H; subst
  | H : mret _ = Ret _ |- _ => injection H as H; subst
  | H : Throw _ = Ret _ |- _ => discriminate H
  | H : Undefined = Ret _ |- _ => discriminate H
  end.

(** ** Generic lemmas shared by the components *)

Section lists.
Context {A : Type}.
Implicit Types l k : list A.

Lemma take_drop_app_split l k : take (length l) (l ++ k) = l ∧ drop (length l) (l ++ k) = k.
Proof. split; [apply take_app_length | apply drop_app_length]. Qed.

Lemma last_snoc_inv l x : last l = Some x → ∃ k, l = k ++ [x].
Proof. intros H. apply last_Some in H. exact H. Qed.

Lemma filter_all (P : A → Prop) `{∀ x, Decision (P x)} l :
  (∀ x, x ∈ l → P x) → filter P l = l.
Proof.
  induction l as [|x l IH]; [done|]. intros HP. rewrite filter_cons_True by (apply HP; left).
  f_equal. apply IH. intros y Hy. apply HP. by right.
Qed.

Lemma filter_none (P : A → Prop) `{∀ x, Decision (P x)} l :
  (∀ x, x ∈ l → ¬ P x) → filter P l = [].
Proof.
  induction l as [|x l IH]; [done|]. intros HP. rewrite filter_cons_False by (apply HP; left).
  apply IH. intros y Hy. apply HP. by right.
Qed.

Lemma filter_sublist (P : A → Prop) `{∀ x, Decision (P x)} l : filter P l `sublist_of` l.
Proof.
  induction l as [|x l IH]; [constructor|]. rewrite filter_cons. case_decide; by constructor.
Qed.

Lemma Forall_impl_in (P Q : A → Prop) l :
  Forall P l → (∀ x, x ∈ l → P x → Q x) → Forall Q l.
Proof. rewrite !Forall_forall. intros HP HPQ x Hx. by apply HPQ, HP. Qed.

Lemma NoDup_fmap_filter {B} (f : A → B) (P : A → Prop) `{∀ x, Decision (P x)} l :
  NoDup (f <$> l) → NoDup (f <$> filter P l).
Proof.
  induction l as [|x l IH]; [done|]. rewrite fmap_cons, NoDup_cons.
  intros [Hx Hl]. rewrite filter_cons. case_decide; [|by apply IH].
  rewrite fmap_cons, NoDup_cons. split; [|by apply IH].
  intros Hin. apply Hx. apply list_elem_of_fmap in Hin as (y & -> & Hy).
  apply list_elem_of_filter in Hy as [_ Hy]. by apply list_elem_of_fmap_2.
Qed.
End lists.

Lemma fmap_bind {A B C} (f : B → C) (g : A → list B) l :
  f <$> (l ≫= g) = l ≫= (λ x, f <$> g x).
Proof. induction l as [|x l IH]; [done|]. rewrite !bind_cons, fmap_app. by f_equal. Qed.

Lemma fmap_filter_fst {A B} (P : A → Prop) `{∀ x, Decision (P x)} (l : list (A * B)) :
  (filter (λ p, P p.1) l).*1 = filter P l.*1.
Proof.
  induction l as [|[a b] l IH]; [done|]. rewrite fmap_cons, !filter_cons. simpl.
  case_decide; simpl; by rewrite <-IH.
Qed.

Lemma bind_bind {A B C} (f : A → list B) (g : B → list C) l :
  (l ≫= f) ≫= g = l ≫= (λ x, f x ≫= g).
Proof. induction l as [|x l IH]; [done|]. by rewrite !bind_cons, bind_app, IH. Qed.

Lemma bind_of_fmap {A B C} (f : A → B) (g : B → list C) l : (f <$> l) ≫= g = l ≫= (λ x, g (f x)).
Proof. induction l as [|x l IH]; [done|]. by rewrite fmap_cons, !bind_cons, IH. Qed.

(** Three nested loops that compute an injective function repeat nothing. *)
Lemma elem_of_loop3 {A} (f : Z → Z → Z → A) a b c x :
  x ∈ (seqZ 0 a ≫= λ i, seqZ 0 b ≫= λ j, f i j <$> seqZ 0 c) ↔
  ∃ i j k, (0 ≤ i < a)%Z ∧ (0 ≤ j < b)%Z ∧ (0 ≤ k < c)%Z ∧ x = f i j k.
Proof.
  split.
  - intros (i & Hx & Hi)%list_elem_of_bind. apply list_elem_of_bind in Hx as (j & Hx & Hj).
    apply list_elem_of_fmap in Hx as (k & -> & Hk). apply elem_of_seqZ in Hi, Hj, Hk.
    exists i, j, k. split_and!; done || lia.
  - intros (i & j & k & Hi & Hj & Hk & ->). apply list_elem_of_bind. exists i. split; [|apply elem_of_seqZ; lia].
    apply list_elem_of_bind. exists j. split; [|apply elem_of_seqZ; lia].
    apply list_elem_of_fmap. exists k. split; [done|apply elem_of_seqZ; lia].
Qed.

Lemma NoDup_loop3 {A} (f : Z → Z → Z → A) a b c :
  (∀ i j k i' j' k', (0 ≤ i < a)%Z → (0 ≤ j < b)%Z → (0 ≤ k < c)%Z →
     (0 ≤ i' < a)%Z → (0 ≤ j' < b)%Z → (0 ≤ k' < c)%Z → f i j k = f i' j' k' → i = i' ∧ j = j' ∧ k = k') →
  NoDup (seqZ 0 a ≫= λ i, seqZ 0 b ≫= λ j, f i j <$> seqZ 0 c).
Proof.
  intros Hf. apply NoDup_bind; [| |apply NoDup_seqZ].
  - intros i i' x Hi Hi' Hx Hx'. apply elem_of_seqZ in Hi, Hi'.
    apply list_elem_of_bind in Hx as (j & (k & -> & Hk)%list_elem_of_fmap & Hj).
    apply list_elem_of_bind in Hx' as (j' & (k' & E & Hk')%list_elem_of_fmap & Hj').
    apply elem_of_seqZ in Hj, Hj', Hk, Hk'. apply Hf in E as (? & _ & _); done || lia.
  - intros i Hi. apply elem_of_seqZ in Hi. apply NoDup_bind; [| |apply NoDup_seqZ].
    + intros j j' x Hj Hj' (k & -> & Hk)%list_elem_of_fmap (k' & E & Hk')%list_elem_of_fmap.
      apply elem_of_seqZ in Hj, Hj', Hk, Hk'. apply Hf in E as (_ & ? & _); done || lia.
    + intros j Hj. apply elem_of_seqZ in Hj. apply NoDup_fmap_2_strong; [|apply NoDup_seqZ].
      intros k k' Hk Hk' E. apply elem_of_seqZ in Hk, Hk'. apply Hf in E as (_ & _ & ?); done || lia.
Qed.

(** Changing an entry of a map that is known. *)
Lemma alter_some `{Countable K} {A} (f : A → A) (k : K) x (m : gmap K A) : m !! k = Some x → alter f k m = <[k := f x]> m.
Proof.
  intros Hx. apply map_eq. intros j. destruct (decide (j = k)) as [->|].
  - by rewrite lookup_alter_eq, Hx, lookup_insert_eq.
  - by rewrite lookup_alter_ne, lookup_insert_ne.
Qed.

(** Invariants of a step relation hold of every reachable state. *)
Lemma rtc_invariant {S} (R : relation S) (I : S → Prop) :
  (∀ s s', I s → R s s' → I s') → ∀ s s', rtc R s s' → I s → I s'.
Proof. intros Hstep s s' Hs. induction Hs; eauto. Qed.
