(* ===== verification/CString.v ===== *)
(** * [std::string], number parsing and [std::map<std::string, V>]

    The parts of the C++ standard library the parsers of the loader and of the
    pool configuration rely on.  A string is the list of its characters, a
    position is a [nat], and [std::string::npos] is [None].  An ordered map
    with string keys is an association list kept in the order of
    [std::less<std::string>], because the device selector iterates over it. *)
From stdpp Require Import base numbers list strings sorting sets.
From Stdlib Require Import Ascii.
From S2P Require Import Prelude.

Abbreviation cstr := (list ascii).
Definition lit (s : String.string) : cstr := String.list_ascii_of_string s.

(** ** Characters ("C" locale) *)

Definition chr (c : ascii) : Z := Z.of_N (N_of_ascii c).
Definition isdigit (c : ascii) : bool := (48 <=? chr c)%Z && (chr c <=? 57)%Z.
Definition isupper (c : ascii) : bool := (65 <=? chr c)%Z && (chr c <=? 90)%Z.
Definition isspace (c : ascii) : bool :=
  (chr c =? 32)%Z || ((9 <=? chr c)%Z && (chr c <=? 13)%Z).
Definition tolower (c : ascii) : ascii :=
  if isupper c then ascii_of_N (N_of_ascii c + 32) else c.
Definition dquote : ascii := ascii_of_nat 34.
Definition squote : ascii := ascii_of_nat 39.

(** ** Searching and slicing *)

Fixpoint find_char (c : ascii) (s : cstr) : option nat :=
  match s with
  | [] => None
  | x :: s' => if decide (x = c) then Some 0 else S <$> find_char c s'
  end.

(** [s.find(c, start)] *)
Definition find_from (c : ascii) (s : cstr) (start : nat) : option nat :=
  (λ i, start + i) <$> find_char c (drop start s).

(** [s.substr(pos, n)] for [pos <= s.size()] *)
Definition substr (s : cstr) (pos n : nat) : cstr := take n (drop pos s).

Fixpoint starts_with (p s : cstr) : bool :=
  match p, s with
  | [], _ => true
  | x :: p', y :: s' => bool_decide (x = y) && starts_with p' s'
  | _ :: _, [] => false
  end.

(** [s.find(p, 0)] for a string [p] *)
Fixpoint find_str (p s : cstr) : option nat :=
  if starts_with p s then Some 0
  else match s with [] => None | _ :: s' => S <$> find_str p s' end.
Definition find_str_from (p s : cstr) (start : nat) : option nat :=
  if length s <? start then None else (λ i, start + i) <$> find_str p (drop start s).

Definition has_char (c : ascii) (s : cstr) : bool := bool_decide (c ∈ s).
Definition count_char (c : ascii) (s : cstr) : nat := length (filter (c =.) s).

(** [while (std::getline(ss, tok, delim))]: a last empty token is not produced. *)
Fixpoint getline_all_aux (delim : ascii) (cur : cstr) (s : cstr) : list cstr :=
  match s with
  | [] => match cur with [] => [] | _ => [rev cur] end
  | c :: s' =>
      if decide (c = delim) then rev cur :: getline_all_aux delim [] s'
      else getline_all_aux delim (c :: cur) s'
  end.
Definition getline_all (delim : ascii) (s : cstr) : list cstr := getline_all_aux delim [] s.

(** ** Numbers *)

(** [s.find_first_not_of("0123456789") == npos] *)
Definition only_digits (s : cstr) : bool := forallb isdigit s.

Definition digits_value (s : cstr) : Z := foldl (λ a c, 10 * a + (chr c - 48))%Z 0%Z s.

Fixpoint take_digits (s : cstr) : cstr :=
  match s with [] => [] | c :: s' => if isdigit c then c :: take_digits s' else [] end.
Fixpoint skip_spaces (s : cstr) : cstr :=
  match s with [] => [] | c :: s' => if isspace c then skip_spaces s' else s end.

(** [std::stoi]: blanks, an optional sign, then the longest run of digits;
    no digit is [std::invalid_argument], a value outside [int] is
    [std::out_of_range]. *)
Definition stoi (s : cstr) : outcome Z :=
  let s := skip_spaces s in
  let '(neg, s) := match s with
    | c :: s' => if decide (c = "-"%char) then (true, s')
                 else if decide (c = "+"%char) then (false, s') else (false, s)
    | [] => (false, []) end in
  let ds := take_digits s in
  if decide (ds = []) then Throw std_invalid_argument
  else let v := (if neg : bool then - digits_value ds else digits_value ds)%Z in
       if (- 2 ^ 31 <=? v)%Z && (v <? 2 ^ 31)%Z then Ret v else Throw std_out_of_range.

(** [std::stoul] on a string of digits ([unsigned long] is 64-bit). *)
Definition stoul_digits (s : cstr) : outcome Z :=
  if decide (s = []) then Throw std_invalid_argument
  else if (digits_value s <=? SIZE_MAX)%Z then Ret (digits_value s) else Throw std_out_of_range.

Lemma digits_value_nonneg ds : only_digits ds = true → (0 <= digits_value ds)%Z.
Proof.
  intros E. unfold digits_value.
  assert (∀ a, 0 <= a → 0 <= foldl (λ a c, 10 * a + (chr c - 48)) a ds)%Z as H; [|by apply H].
  revert E. induction ds as [|c ds IH]; intros E a Ha; [done|]. simpl in *.
  apply andb_true_iff in E as [Hc Hds]. apply IH; [done|]. unfold isdigit in Hc. bool_to_prop. lia.
Qed.

(** ** [std::map<std::string, V>] *)

(** [std::less<std::string>]: lexicographic on unsigned characters. *)
Fixpoint str_ltb (a b : cstr) : bool :=
  match a, b with
  | _, [] => false
  | [], _ :: _ => true
  | x :: a', y :: b' => (chr x <? chr y)%Z || ((chr x =? chr y)%Z && str_ltb a' b')
  end.
Definition str_lt (a b : cstr) : Prop := str_ltb a b = true.

Section strmap.
Context {V : Type}.
Fixpoint map_find (k : cstr) (m : list (cstr * V)) : option V :=
  match m with
  | [] => None
  | (k', v) :: m' => if decide (k = k') then Some v else map_find k m'
  end.
(** [m[k] = v] *)
Fixpoint map_insert (k : cstr) (v : V) (m : list (cstr * V)) : list (cstr * V) :=
  match m with
  | [] => [(k, v)]
  | (k', v') :: m' =>
      if decide (k = k') then (k, v) :: m'
      else if str_ltb k k' then (k, v) :: m
      else (k', v') :: map_insert k v m'
  end.
End strmap.

(** The representation invariant: keys strictly increasing. *)
Definition map_sorted {V} (m : list (cstr * V)) : Prop := StronglySorted str_lt m.*1.

(** ** Lemmas *)

Create HintDb cstring.

Lemma chr_inj c d : chr c = chr d → c = d.
Proof.
  intros H. rewrite <-(ascii_N_embedding c), <-(ascii_N_embedding d).
  f_equal. unfold chr in H. lia.
Qed.

Lemma find_char_None c s : find_char c s = None ↔ c ∉ s.
Proof.
  induction s as [|x s IH]; simpl; [split; [intros _ H; by inversion H|done]|].
  rewrite not_elem_of_cons. case_decide; [split; [done|naive_solver]|].
  rewrite fmap_None, IH. naive_solver.
Qed.

Lemma find_char_app c s t : c ∉ s → find_char c (s ++ c :: t) = Some (length s).
Proof.
  induction s as [|x s IH]; simpl; [by rewrite decide_True|].
  intros [? ?]%not_elem_of_cons. rewrite decide_False by done. by rewrite IH.
Qed.

Lemma find_char_Some c s i :
  find_char c s = Some i → ∃ l r, s = l ++ c :: r ∧ length l = i ∧ c ∉ l.
Proof.
  revert i. induction s as [|x s IH]; intros i; simpl; [done|].
  case_decide; [intros [= <-]; subst; exists [], s; split_and!; [done..|by apply not_elem_of_nil]|].
  intros (j & Hj & ->)%fmap_Some. destruct (IH _ Hj) as (l & r & -> & <- & Hl).
  exists (x :: l), r. split_and!; [done..|]. apply not_elem_of_cons. done.
Qed.

Lemma has_char_spec c s : has_char c s = true ↔ c ∈ s.
Proof. apply bool_decide_eq_true. Qed.
Lemma has_char_false c s : has_char c s = false ↔ c ∉ s.
Proof. apply bool_decide_eq_false. Qed.

Lemma starts_with_spec p s : starts_with p s = true ↔ ∃ t, s = p ++ t.
Proof.
  revert s. induction p as [|x p IH]; intros s; simpl; [split; [by exists s|done]|].
  destruct s as [|y s]; [split; [done|by intros (? & ?)]|].
  rewrite andb_true_iff, bool_decide_eq_true, IH. naive_solver.
Qed.

(** [find] succeeds exactly on the substrings. *)
Lemma find_str_is_Some p s : is_Some (find_str p s) ↔ ∃ l r, s = l ++ p ++ r.
Proof.
  induction s as [|y s IH]; cbn [find_str].
  - destruct (starts_with p []) eqn:E.
    + apply starts_with_spec in E as [t E]. split; [intros _; by exists [], t|by eexists].
    + split; [by intros [? ?]|]. intros (l & r & E'). destruct l, p; try done.
  - destruct (starts_with p (y :: s)) eqn:E.
    + apply starts_with_spec in E as [t E]. split; [intros _; by exists [], t|by eexists].
    + rewrite fmap_is_Some, IH. split; [intros (l & r & ->); by exists (y :: l), r|].
      intros ([|z l] & r & E'); [|injection E' as -> ->; by exists l, r].
      assert (starts_with p (y :: s) = true) as E2 by (apply starts_with_spec; by exists r). congruence.
Qed.

(** Tokens joined by a delimiter, the inverse of [getline_all]. *)
Fixpoint join (d : ascii) (toks : list cstr) : cstr :=
  match toks with [] => [] | [t] => t | t :: ts => t ++ d :: join d ts end.

Lemma getline_aux_app d cur t s :
  d ∉ t → getline_all_aux d cur (t ++ s) = getline_all_aux d (rev t ++ cur) s.
Proof.
  revert cur. induction t as [|x t IH]; intros cur; simpl; [done|].
  intros [? ?]%not_elem_of_cons. rewrite decide_False by done.
  rewrite IH by done. by rewrite <-app_assoc.
Qed.

Lemma getline_all_join d toks :
  Forall (λ t, d ∉ t) toks → last toks ≠ Some [] → getline_all d (join d toks) = toks.
Proof.
  unfold getline_all. induction toks as [|t [|t' ts] IH]; intros Hd Hl; [done|..].
  - simpl. inversion Hd; subst. rewrite <-(app_nil_r t) at 1.
    rewrite getline_aux_app by done. simpl. rewrite app_nil_r.
    destruct (rev t) eqn:E; [|by rewrite <-E, rev_involutive].
    apply (f_equal (@rev ascii)) in E. rewrite rev_involutive in E. by subst.
  - inversion Hd; subst. cbn [join]. rewrite getline_aux_app by done.
    cbn [getline_all_aux]. rewrite decide_True by done.
    rewrite app_nil_r, rev_involutive. f_equal. by apply IH.
Qed.

Lemma getline_aux_Forall d cur s :
  d ∉ cur → Forall (λ t, d ∉ t) (getline_all_aux d cur s).
Proof.
  assert (Hrev : ∀ l : cstr, d ∉ l → d ∉ rev l).
  { intros l Hl Hin. apply Hl. rewrite list_elem_of_In in *. by apply in_rev. }
  revert cur. induction s as [|x s IH]; intros cur Hc; simpl.
  - destruct cur; [constructor|]. repeat constructor. by apply Hrev.
  - case_decide.
    + constructor; [by apply Hrev|]. apply IH, not_elem_of_nil.
    + apply IH. apply not_elem_of_cons. naive_solver.
Qed.

Lemma getline_all_no_delim d s : Forall (λ t, d ∉ t) (getline_all d s).
Proof. apply getline_aux_Forall, not_elem_of_nil. Qed.

(** [str_lt] is a strict total order. *)
Lemma str_lt_irrefl a : ¬ str_lt a a.
Proof.
  unfold str_lt. induction a as [|x a IH]; simpl; [done|].
  rewrite Z.ltb_irrefl, Z.eqb_refl. simpl. done.
Qed.

Lemma str_lt_trans a b c : str_lt a b → str_lt b c → str_lt a c.
Proof.
  unfold str_lt. revert b c. induction a as [|x a IH]; intros [|y b] [|z c]; simpl; try done.
  rewrite !orb_true_iff, !andb_true_iff, !Z.ltb_lt, !Z.eqb_eq.
  intros [?|[? ?]] [?|[? ?]]; [lia..|]. right. split; [lia|]. by eapply IH.
Qed.

Lemma str_lt_trichotomy a b : str_lt a b ∨ a = b ∨ str_lt b a.
Proof.
  unfold str_lt. revert b. induction a as [|x a IH]; intros [|y b]; simpl; auto.
  rewrite !orb_true_iff, !andb_true_iff, !Z.ltb_lt, !Z.eqb_eq.
  destruct (Z.lt_trichotomy (chr x) (chr y)) as [?|[E|?]]; [auto| |auto].
  destruct (IH b) as [?|[->|?]]; [auto| |auto].
  right; left. f_equal. by apply chr_inj.
Qed.

#[export] Instance str_lt_transitive : Transitive str_lt.
Proof. intros a b c. apply str_lt_trans. Qed.
#[export] Instance str_lt_irreflexive : Irreflexive str_lt.
Proof. intros a. apply str_lt_irrefl. Qed.

Section strmap_facts.
Context {V : Type}.
Implicit Types (m : list (cstr * V)) (k : cstr).

Lemma map_find_None k m : map_find k m = None ↔ k ∉ m.*1.
Proof.
  induction m as [|[k' v] m IH]; simpl; [split; [intros _; apply not_elem_of_nil|done]|].
  rewrite not_elem_of_cons. case_decide; [split; [done|naive_solver]|]. rewrite IH. naive_solver.
Qed.

Lemma map_find_insert_eq k v m : map_find k (map_insert k v m) = Some v.
Proof.
  induction m as [|[k' v'] m IH]; simpl; [by rewrite decide_True|].
  repeat case_decide; subst; simpl; [by rewrite decide_True..|].
  case_match; simpl; [by rewrite decide_True|]. by rewrite decide_False.
Qed.

Lemma map_find_insert_ne k k' v m : k ≠ k' → map_find k' (map_insert k v m) = map_find k' m.
Proof.
  intros Hne. induction m as [|[k0 v0] m IH]; simpl; [by rewrite decide_False|].
  case_decide; subst; simpl.
  - by rewrite !(decide_False (P:=k' = k0)) by done.
  - case_match; simpl; [by rewrite (decide_False (P:=k' = k)) by done|].
    case_decide; [done|apply IH].
Qed.

Lemma map_insert_keys k v m x : x ∈ (map_insert k v m).*1 ↔ x = k ∨ x ∈ m.*1.
Proof.
  induction m as [|[k' v'] m IH]; simpl; [set_solver|].
  case_decide; subst; simpl; [set_solver|].
  case_match; simpl; [set_solver|]. rewrite elem_of_cons, IH. set_solver.
Qed.

Lemma map_insert_sorted k v m : map_sorted m → map_sorted (map_insert k v m).
Proof.
  unfold map_sorted. induction m as [|[k' v'] m IH]; simpl; [repeat constructor|].
  intros Hs. inversion Hs as [|? ? Hm Hall]; subst.
  case_decide; subst; simpl; [done|]. case_match eqn:E; simpl.
  - constructor; [done|]. constructor; [done|].
    eapply Forall_impl; [exact Hall|]. intros x Hx. by eapply str_lt_trans.
  - constructor; [by apply IH|]. apply Forall_forall. intros x Hx.
    apply map_insert_keys in Hx as [->|Hx]; [|by eapply Forall_forall in Hall].
    destruct (str_lt_trichotomy k k') as [?|[?|?]]; [|done..].
    unfold str_lt in *. congruence.
Qed.

Lemma map_sorted_NoDup m : map_sorted m → NoDup m.*1.
Proof.
  unfold map_sorted. induction 1 as [|x l Hs IH Hall]; [constructor|].
  constructor; [|done]. intros Hin. eapply Forall_forall in Hall; [|done].
  by apply str_lt_irrefl in Hall.
Qed.

Lemma map_find_elem k v m : NoDup m.*1 → (k, v) ∈ m → map_find k m = Some v.
Proof.
  induction m as [|[k' v'] m IH]; simpl; [intros _ H; by inversion H|].
  intros [Hk Hn]%NoDup_cons Hin. apply elem_of_cons in Hin as [[= <- <-]|Hin];
    [by rewrite decide_True|]. rewrite decide_False; [by apply IH|].
  intros <-. apply Hk. by apply (list_elem_of_fmap_2 fst) in Hin.
Qed.

(** Inserting in increasing key order appends. *)
Lemma map_insert_snoc k v m :
  Forall (λ k', str_lt k' k) m.*1 → map_insert k v m = m ++ [(k, v)].
Proof.
  induction m as [|[k' v'] m IH]; simpl; [done|]. intros H. inversion H as [|? ? Hlt Hm]; subst.
  rewrite decide_False by (intros ->; by apply str_lt_irrefl in Hlt).
  case_match eqn:E; [|by rewrite IH].
  exfalso. apply (str_lt_irrefl k). by eapply str_lt_trans.
Qed.
End strmap_facts.

#[export] Hint Resolve map_insert_sorted map_sorted_NoDup getline_all_no_delim : cstring.
