(* ===== verification/OffloadBundle.v ===== *)
(** * Offload bundles (common/offload_bundle_parser.{hpp,cpp})

    A bundle holds device binaries for several targets: a magic string, the
    number of entries, for each entry the place of its object and its id, and
    the objects.  Addresses are flat 64-bit values that wrap around, and a read
    outside of the buffer is [Undefined].  Integers are stored in the order of a
    little endian host. *)
From stdpp Require Import base numbers list strings.
From Stdlib Require Import Ascii.
From S2P Require Import Prelude CString.
Local Open Scope Z_scope.

Module OffloadBundle.

Definition Magic : cstr := lit "__CLANG_OFFLOAD_BUNDLE__"%string.

Record BundleEntry := { ObjectOffset : Z; ObjectSize : Z; EntryIdSize : Z }.

(** Offsets in the packed structures. *)
Definition offset_EntryCount : Z := 24.
Definition offset_FirstEntry : Z := 32.
Definition offset_ObjectSize : Z := 8.
Definition offset_EntryIdSize : Z := 16.
Definition offset_EntryIdStart : Z := 24.

Fixpoint le_value (s : cstr) : Z :=
  match s with [] => 0 | c :: s => chr c + 256 * le_value s end.

Section parser.
Context (Buff : Z) (data : cstr).

Definition Length : Z := Z.of_nat (length data).
Definition Limit : Z := u64 (Buff + Length).

(** The bytes at an address. *)
Definition read (p n : Z) : outcome cstr :=
  if (Buff <=? p) && (p + n <=? Buff + Length) && (0 <=? n)
  then Ret (substr data (Z.to_nat (p - Buff)) (Z.to_nat n)) else Undefined.
Definition read_u64 (p : Z) : outcome Z := le_value <$> read p 8.

(** [HipOffloadBundleParser::load]: whether there is a parser. *)
Definition load : bool := bool_decide (find_str Magic data = Some 0%nat).

(** [str.compare(str.size() - sv.size(), npos, sv) == 0] *)
Definition ends_with (str sv : cstr) : bool :=
  (length sv <=? length str)%nat && bool_decide (drop (length str - length sv) str = sv).

Definition read_entry (CurrentEntry : Z) : outcome BundleEntry :=
  off ← read_u64 CurrentEntry;
  size ← read_u64 (CurrentEntry + offset_ObjectSize);
  ids ← read_u64 (CurrentEntry + offset_EntryIdSize);
  mret {| ObjectOffset := off; ObjectSize := size; EntryIdSize := ids |}.

Definition matches (SearchTargetId EntryId : cstr) : bool :=
  bool_decide (find_str (lit "hip"%string) EntryId = Some 0%nat) && ends_with EntryId SearchTargetId.

(** The loop over the entries; the fuel is one more than the bytes that are left. *)
Fixpoint search (fuel : nat) (SearchTargetId : cstr) (EntryCount I CurrentEntry : Z) : outcome (option BundleEntry) :=
  match fuel with
  | O => Undefined
  | S fuel =>
      if I <? EntryCount then
        let EntryBytes := u64 (CurrentEntry + offset_EntryIdStart) in
        if EntryBytes >? Limit then Ret None else
        ids ← read_u64 (CurrentEntry + offset_EntryIdSize);
        if u64 (EntryBytes + ids) >? Limit then Ret None else
        EntryId ← read EntryBytes ids;
        if matches SearchTargetId EntryId then Some <$> read_entry CurrentEntry
        else search fuel SearchTargetId EntryCount (I + 1) (u64 (EntryBytes + ids))
      else Ret None
  end.

Definition containsBundle (SearchTargetId : cstr) : outcome (option BundleEntry) :=
  if u64 (Buff + offset_FirstEntry) >? Limit then Ret None else
  EntryCount ← read_u64 (Buff + offset_EntryCount);
  search (S (length data)) SearchTargetId EntryCount 0 (Buff + offset_FirstEntry).

(** The result, and what is written to [OutBinary] and [OutLength]. *)
Definition extract (SearchTargetId : cstr) : outcome (ur_result_t * option (Z * Z)) :=
  e ← containsBundle SearchTargetId;
  match e with
  | Some e =>
      let OutBinary := u64 (Buff + ObjectOffset e) in
      let OutLength := ObjectSize e in
      mret (if u64 (OutBinary + OutLength) <=? Limit then UR_RESULT_SUCCESS else UR_RESULT_ERROR_INVALID_PROGRAM,
            Some (OutBinary, OutLength))
  | None => mret (UR_RESULT_ERROR_INVALID_PROGRAM, None)
  end.
End parser.

(** ** The documented layout *)

Fixpoint le (n : nat) (v : Z) : cstr :=
  match n with O => [] | S n => ascii_of_N (Z.to_N (v `mod` 256)) :: le n (v / 256) end.

Definition encode_entry (off : Z) (id object : cstr) : cstr :=
  le 8 off ++ le 8 (Z.of_nat (length object)) ++ le 8 (Z.of_nat (length id)) ++ id.

(** Entries one after the other, their objects one after the other from [off]. *)
Fixpoint encode_entries (off : Z) (l : list (cstr * cstr)) : cstr :=
  match l with
  | [] => []
  | (id, object) :: l => encode_entry off id object ++ encode_entries (off + Z.of_nat (length object)) l
  end.
Definition entries_size (l : list (cstr * cstr)) : nat := length (encode_entries 0 l).
Definition encode (l : list (cstr * cstr)) : cstr :=
  Magic ++ le 8 (Z.of_nat (length l)) ++
  encode_entries (offset_FirstEntry + Z.of_nat (entries_size l)) l ++ concat l.*2.
End OffloadBundle.

Module OffloadBundleProps.
Import OffloadBundle.

(** ** Encoding of integers *)

Lemma length_le n v : length (le n v) = n.
Proof. revert v. induction n; intros v; simpl; auto. Qed.

Lemma chr_ascii v : 0 ≤ v < 256 → chr (ascii_of_N (Z.to_N v)) = v.
Proof. intros Hv. unfold chr. rewrite N_ascii_embedding by lia. lia. Qed.

Lemma chr_range c : 0 ≤ chr c < 256.
Proof. unfold chr. pose proof (N_ascii_bounded c). lia. Qed.

Lemma le_value_le n v : 0 ≤ v < 256 ^ Z.of_nat n → le_value (le n v) = v.
Proof.
  revert v. induction n as [|n IH]; intros v Hv; cbn [le le_value]; [change (256 ^ Z.of_nat 0) with 1 in Hv; lia|].
  rewrite Nat2Z.inj_succ, Z.pow_succ_r in Hv by lia.
  rewrite chr_ascii by (by apply Z.mod_pos_bound). rewrite IH.
  - pose proof (Z.div_mod v 256). lia.
  - split; [apply Z.div_pos; lia|apply Z.div_lt_upper_bound; lia].
Qed.

Lemma le_value_range s : 0 ≤ le_value s < 256 ^ Z.of_nat (length s).
Proof.
  induction s as [|c s IH]; [done|]. cbn [le_value length]. rewrite Nat2Z.inj_succ, Z.pow_succ_r by lia.
  pose proof (chr_range c). lia.
Qed.

(** ** Reading *)

Section parser.
Context (Buff : Z) (data : cstr).

Lemma read_ret p n s : read Buff data p n = Ret s →
  Buff ≤ p ∧ p + n ≤ Buff + Length data ∧ 0 ≤ n ∧ s = substr data (Z.to_nat (p - Buff)) (Z.to_nat n) ∧ Z.of_nat (length s) = n.
Proof.
  unfold read. destruct (_ && _) eqn:E; [|done]. intros [= <-]. bool_to_prop. split_and!; try done.
  unfold substr. rewrite length_take, length_drop. unfold Length in *. lia.
Qed.
Lemma read_inside p n : Buff ≤ p → 0 ≤ n → p + n ≤ Buff + Length data → ∃ s, read Buff data p n = Ret s.
Proof.
  intros. unfold read. rewrite (proj2 (Z.leb_le _ _)), (proj2 (Z.leb_le _ _)), (proj2 (Z.leb_le _ _)) by lia. by eexists.
Qed.

(** What is at an offset between two other parts of the buffer. *)
Lemma read_part a s b : data = a ++ s ++ b → read Buff data (Buff + Z.of_nat (length a)) (Z.of_nat (length s)) = Ret s.
Proof.
  intros E. assert (Length data = Z.of_nat (length a) + Z.of_nat (length s) + Z.of_nat (length b)) as El.
  { unfold Length. rewrite E, !length_app. lia. }
  unfold read. rewrite (proj2 (Z.leb_le _ _)), (proj2 (Z.leb_le _ _)), (proj2 (Z.leb_le _ _)) by lia. simpl.
  f_equal. unfold substr. rewrite E. replace (Z.to_nat (Buff + Z.of_nat (length a) - Buff)) with (length a) by lia. rewrite Nat2Z.id.
  by rewrite drop_app_length, take_app_length.
Qed.
Lemma read_u64_part a v b : data = a ++ le 8 v ++ b → in_u64 v → read_u64 Buff data (Buff + Z.of_nat (length a)) = Ret v.
Proof.
  intros E Hv. pose proof (read_part _ _ _ E) as Hr. rewrite length_le in Hr. unfold read_u64.
  change 8 with (Z.of_nat 8). rewrite Hr. simpl. f_equal. by apply (le_value_le 8).
Qed.
Lemma read_u64_ret p v : read_u64 Buff data p = Ret v → Buff ≤ p ∧ p + 8 ≤ Buff + Length data ∧ in_u64 v.
Proof.
  unfold read_u64. destruct (read Buff data p 8) as [s| |] eqn:E; try done. intros [= <-].
  apply read_ret in E as (? & ? & _ & _ & El). split_and!; [done|done|]. pose proof (le_value_range s) as Hr.
  replace (Z.of_nat (length s)) with 8 in Hr. exact Hr.
Qed.

(** ** Reading back what the layout describes *)

(** The entry of the first id that matches. *)
Fixpoint first_entry (off : Z) (t : cstr) (l : list (cstr * cstr)) : option BundleEntry :=
  match l with
  | [] => None
  | (id, object) :: l =>
      if matches t id
      then Some {| ObjectOffset := off; ObjectSize := Z.of_nat (length object); EntryIdSize := Z.of_nat (length id) |}
      else first_entry (off + Z.of_nat (length object)) t l
  end.

Lemma length_encode_entry off id object : length (encode_entry off id object) = (24 + length id)%nat.
Proof. unfold encode_entry. rewrite !length_app, !length_le. lia. Qed.

Context (HBuff : 0 ≤ Buff) (Hend : Buff + Length data + 24 < 2 ^ 64).

Lemma Limit_eq : Limit Buff data = Buff + Length data.
Proof. unfold Limit. apply u64_small. unfold in_u64, Length in *. lia. Qed.

Lemma entry_fields a off id object b :
  data = a ++ encode_entry off id object ++ b → in_u64 off → in_u64 (Z.of_nat (length object)) →
  let p := Buff + Z.of_nat (length a) in
  read_entry Buff data p =
    Ret {| ObjectOffset := off; ObjectSize := Z.of_nat (length object); EntryIdSize := Z.of_nat (length id) |} ∧
  read_u64 Buff data (p + offset_EntryIdSize) = Ret (Z.of_nat (length id)) ∧
  read Buff data (p + offset_EntryIdStart) (Z.of_nat (length id)) = Ret id.
Proof.
  intros E Hoff Hobj p. unfold encode_entry in E.
  assert (in_u64 (Z.of_nat (length id))) as Hid.
  { unfold in_u64, Length in *. rewrite E, !length_app in Hend. lia. }
  set (o := le 8 off) in *. set (z := le 8 (Z.of_nat (length object))) in *. set (i := le 8 (Z.of_nat (length id))) in *.
  assert (∀ x v b', data = (a ++ x) ++ le 8 v ++ b' → in_u64 v →
    read_u64 Buff data (p + Z.of_nat (length x)) = Ret v) as Hr.
  { intros x v b' E' Hv. unfold p. rewrite <-Z.add_assoc, <-Nat2Z.inj_add, <-length_app. by eapply read_u64_part. }
  pose proof (Hr [] off (z ++ i ++ id ++ b)) as H0. pose proof (Hr o (Z.of_nat (length object)) (i ++ id ++ b)) as H1.
  pose proof (Hr (o ++ z) (Z.of_nat (length id)) (id ++ b)) as H2.
  pose proof (read_part (a ++ o ++ z ++ i) id b) as H3.
  assert (length o = 8 ∧ length z = 8 ∧ length i = 8)%nat as (Lo & Lz & Li) by (unfold o, z, i; by rewrite !length_le).
  rewrite <-!app_assoc in *. rewrite !length_app, ?Lo, ?Lz, ?Li in *. simpl in H0, H1, H2, H3. rewrite Z.add_0_r in H0.
  specialize (H0 E Hoff). specialize (H1 E Hobj). specialize (H2 E Hid). specialize (H3 E).
  split_and!.
  - unfold read_entry, offset_ObjectSize, offset_EntryIdSize. change 8 with (Z.of_nat 8). change 16 with (Z.of_nat 16).
    rewrite H0. simpl. rewrite H1. simpl. by rewrite H2.
  - exact H2.
  - rewrite <-H3. f_equal. unfold p, offset_EntryIdStart. lia.
Qed.

(** The loop over well-formed entries finds the first that matches. *)
Lemma search_entries t l : ∀ a off b fuel EntryCount I,
  data = a ++ encode_entries off l ++ b → 0 ≤ off → off + Z.of_nat (length (concat l.*2)) < 2 ^ 64 →
  EntryCount = I + Z.of_nat (length l) → (length (encode_entries off l) < fuel)%nat →
  search Buff data fuel t EntryCount I (Buff + Z.of_nat (length a)) = Ret (first_entry off t l).
Proof.
  induction l as [|[id object] l IH]; intros a off b fuel EntryCount I E Hoff Hobj -> Hf; (destruct fuel as [|fuel]; [lia|]).
  { cbn [search length first_entry]. by rewrite (proj2 (Z.ltb_ge _ _)) by lia. }
  cbn [encode_entries] in E, Hf. rewrite length_app, length_encode_entry in Hf. cbn [fmap list_fmap concat snd] in Hobj.
  rewrite length_app in Hobj. rewrite <-app_assoc in E.
  destruct (entry_fields a off id object (encode_entries (off + Z.of_nat (length object)) l ++ b) E) as (He & Hi & Hr);
    [unfold in_u64; lia..|].
  assert (Z.of_nat (length a) + 24 + Z.of_nat (length id) ≤ Length data) as Hl.
  { unfold Length. rewrite E, !length_app, length_encode_entry. lia. }
  cbn [search first_entry]. rewrite (proj2 (Z.ltb_lt _ _)) by (simpl length; lia).
  unfold offset_EntryIdStart in *. rewrite Limit_eq, (u64_small (_ + 24)) by (unfold in_u64; lia).
  rewrite Z.gtb_ltb, (proj2 (Z.ltb_ge _ _)), Hi by lia. cbn [mbind outcome_bind].
  rewrite u64_small, Z.gtb_ltb, (proj2 (Z.ltb_ge _ _)), Hr by (unfold in_u64; lia). cbn [mbind outcome_bind].
  destruct (matches t id); [by rewrite He|].
  replace (Buff + Z.of_nat (length a) + 24 + Z.of_nat (length id)) with
    (Buff + Z.of_nat (length (a ++ encode_entry off id object)))
    by (rewrite length_app, length_encode_entry; lia).
  apply (IH _ _ b); [by rewrite <-app_assoc|lia|lia|simpl length; lia|lia].
Qed.

(** What it means to be found. *)
Lemma first_entry_spec t l : ∀ off e, first_entry off t l = Some e →
  ∃ l1 id object l2, l = l1 ++ (id, object) :: l2 ∧ List.find (λ x, matches t x.1) l = Some (id, object) ∧
    ObjectOffset e = off + Z.of_nat (length (concat l1.*2)) ∧ ObjectSize e = Z.of_nat (length object).
Proof.
  induction l as [|[id object] l IH]; intros off e; [done|]. cbn [first_entry List.find fst].
  destruct (matches t id) eqn:Em; [intros [= <-]; exists [], id, object, l; simpl; split_and!; done || lia|].
  intros (l1 & id' & o' & l2 & -> & Hf & Ho & Hs)%IH. exists ((id, object) :: l1), id', o', l2.
  split_and!; [done|done| |done]. rewrite Ho, fmap_cons. cbn [concat snd]. rewrite length_app. lia.
Qed.
Lemma first_entry_None t l : ∀ off, first_entry off t l = None → List.find (λ x, matches t x.1) l = None.
Proof.
  induction l as [|[id object] l IH]; intros off; [done|]. cbn [first_entry List.find fst].
  destruct (matches t id); [done|apply IH].
Qed.
End parser.

Lemma length_encode_entries off off' l : length (encode_entries off l) = length (encode_entries off' l).
Proof.
  revert off off'. induction l as [|[id o] l IH]; intros off off'; [done|]. cbn [encode_entries].
  rewrite !length_app, !length_encode_entry. f_equal. apply IH.
Qed.

Lemma length_encode l : length (encode l) = (32 + entries_size l + length (concat l.*2))%nat.
Proof.
  unfold encode. rewrite !length_app, length_le. unfold entries_size.
  rewrite (length_encode_entries _ 0). change (length Magic) with 24%nat. lia.
Qed.

Lemma length_entries_ge off l : (length l ≤ length (encode_entries off l))%nat.
Proof.
  revert off. induction l as [|[id o] l IH]; intros off; [done|]. cbn [encode_entries].
  rewrite length_app, length_encode_entry. specialize (IH (off + Z.of_nat (length o))). simpl. lia.
Qed.

(** C36: Round trip: of a bundle in the documented layout, wherever it lies in
    memory, [extract] gives the object of the first entry whose id starts with
    "hip" and ends with the target, byte for byte, and an error when there is
    none; and [load] accepts the bundle. *)
Theorem extract_encode Buff l t :
  0 ≤ Buff → Buff + Z.of_nat (length (encode l)) + 24 < 2 ^ 64 →
  load (encode l) = true ∧
  match List.find (λ x, matches t x.1) l with
  | Some (id, object) => ∃ p,
      extract Buff (encode l) t = Ret (UR_RESULT_SUCCESS, Some (p, Z.of_nat (length object))) ∧
      read Buff (encode l) p (Z.of_nat (length object)) = Ret object
  | None => extract Buff (encode l) t = Ret (UR_RESULT_ERROR_INVALID_PROGRAM, None)
  end.
Proof.
  intros HB He. assert (Length (encode l) = Z.of_nat (length (encode l))) as HL by done.
  pose proof (length_encode l) as Hlen. split.
  { unfold load. apply bool_decide_eq_true. unfold encode.
    assert (∀ s, starts_with Magic (Magic ++ s) = true) as Hs by (intros s; apply starts_with_spec; by eexists).
    destruct (Magic ++ _) as [|c s] eqn:E; [done|]. cbn [find_str]. by rewrite <-E, Hs. }
  set (base := offset_FirstEntry + Z.of_nat (entries_size l)).
  assert (containsBundle Buff (encode l) t = Ret (first_entry base t l)) as Hc.
  { unfold containsBundle. rewrite Limit_eq by lia. unfold offset_FirstEntry. rewrite u64_small by (unfold in_u64; lia).
    rewrite Z.gtb_ltb, (proj2 (Z.ltb_ge _ _)) by lia.
    assert (read_u64 Buff (encode l) (Buff + offset_EntryCount) = Ret (Z.of_nat (length l))) as ->.
    { apply (read_u64_part Buff (encode l) Magic _ (encode_entries base l ++ concat l.*2)); [done|].
      pose proof (length_entries_ge 0 l). unfold entries_size in *. unfold in_u64. lia. }
    cbn [mbind outcome_bind].
    apply (search_entries Buff (encode l) ltac:(lia) ltac:(lia) t l (Magic ++ le 8 (Z.of_nat (length l))) base (concat l.*2)).
    - unfold encode. by rewrite <-app_assoc.
    - unfold base, offset_FirstEntry. lia.
    - unfold base, offset_FirstEntry. lia.
    - lia.
    - rewrite (length_encode_entries _ 0). fold (entries_size l). lia. }
  destruct (first_entry base t l) as [e|] eqn:Ef.
  - destruct (first_entry_spec t l base e Ef) as (l1 & id & o & l2 & El & -> & Ho & Hs).
    exists (Buff + ObjectOffset e). unfold extract. rewrite Hc. cbn [mbind outcome_bind]. rewrite Limit_eq, Ho, Hs by lia.
    assert (concat l.*2 = concat l1.*2 ++ o ++ concat l2.*2) as Hcl.
    { by rewrite El, fmap_app, fmap_cons, concat_app. }
    rewrite Hcl, !length_app in Hlen. unfold base, offset_FirstEntry in *.
    rewrite (u64_small (Buff + _)), u64_small, (proj2 (Z.leb_le _ _)) by (unfold in_u64; lia). split; [done|].
    pose proof (read_part Buff (encode l) (Magic ++ le 8 (Z.of_nat (length l)) ++
      encode_entries (offset_FirstEntry + Z.of_nat (entries_size l)) l ++ concat l1.*2) o (concat l2.*2)) as Hr.
    rewrite <-Hr.
    + f_equal. rewrite !length_app, length_le, (length_encode_entries _ 0 l). fold (entries_size l).
      change (length Magic) with 24%nat. lia.
    + unfold encode. by rewrite Hcl, <-!app_assoc.
  - rewrite (first_entry_None t l base Ef). unfold extract. by rewrite Hc.
Qed.

(** ** Any bytes at all *)

Section any_bytes.
Context (Buff : Z) (data : cstr) (t : cstr).

(** The entries the loop visits from [cur]: each starts where the id of the one
    before ends, and the ids before it are in the buffer and do not match. *)
Inductive visited : Z → nat → Z → Prop :=
  | visited_first cur : visited cur 0 cur
  | visited_next cur v id i p :
      read_u64 Buff data (cur + offset_EntryIdSize) = Ret v →
      read Buff data (cur + offset_EntryIdStart) v = Ret id → matches t id = false →
      visited (cur + offset_EntryIdStart + v) i p → visited cur (S i) p.

(** What the entry at [p] can be: its id size carries the address of the end of
    the id beyond the address space; its id is the one looked for. *)
Definition wraps_at (p : Z) : Prop :=
  ∃ v, read_u64 Buff data (p + offset_EntryIdSize) = Ret v ∧ 2 ^ 64 ≤ p + offset_EntryIdStart + v.
Definition matches_at (p : Z) : Prop :=
  ∃ v id, read_u64 Buff data (p + offset_EntryIdSize) = Ret v ∧
    read Buff data (p + offset_EntryIdStart) v = Ret id ∧ matches t id = true.

(** An entry of the table, of those that the header counts. *)
Definition table_entry (p : Z) : Prop :=
  ∃ c i, read_u64 Buff data (Buff + offset_EntryCount) = Ret c ∧ Z.of_nat i < c ∧
    visited (Buff + offset_FirstEntry) i p.

Context (HB : 0 ≤ Buff) (He : Buff + Length data + 32 < 2 ^ 64).

Lemma read_u64_inside p : Buff ≤ p → p + 8 ≤ Buff + Length data → ∃ v, read_u64 Buff data p = Ret v ∧ in_u64 v.
Proof.
  intros. destruct (read_inside Buff data p 8) as [s Hs]; [lia..|].
  assert (read_u64 Buff data p = Ret (le_value s)) as E by (unfold read_u64; by rewrite Hs).
  exists (le_value s). split; [done|]. by apply read_u64_ret in E as (_ & _ & ?).
Qed.

(** The entries visited after the first are those visited from where it ends. *)
Lemma visited_inv cur i p v id :
  visited cur i p → read_u64 Buff data (cur + offset_EntryIdSize) = Ret v →
  read Buff data (cur + offset_EntryIdStart) v = Ret id →
  (i = 0%nat ∧ p = cur) ∨
  ∃ j, i = S j ∧ matches t id = false ∧ visited (cur + offset_EntryIdStart + v) j p.
Proof.
  intros Hv E1 E2. destruct Hv as [|cur v' id' i p E3 E4 ? ?]; [by left|]. right.
  rewrite E3 in E1. injection E1 as ->. rewrite E4 in E2. injection E2 as ->. by exists i.
Qed.

(** What the loop answers from [cur], with [I] entries before it: it fails on an
    overflow, stops at the first match, or finds none. *)
Definition answers (c I cur : Z) (r : outcome (option BundleEntry)) : Prop :=
  match r with
  | Undefined => ∃ i p, visited cur i p ∧ I + Z.of_nat i < c ∧ wraps_at p
  | Throw _ => False
  | Ret r =>
      (∀ i p, visited cur i p → I + Z.of_nat i < c → ¬ wraps_at p) ∧
      match r with
      | None => ∀ i p, visited cur i p → I + Z.of_nat i < c → ¬ matches_at p
      | Some e => ∃ i p, visited cur i p ∧ I + Z.of_nat i < c ∧ matches_at p ∧ read_entry Buff data p = Ret e
      end
  end.

(** An entry whose id is not in the buffer is the last one visited. *)
Lemma answers_end c I cur :
  ¬ wraps_at cur →
  (∀ v id, read_u64 Buff data (cur + offset_EntryIdSize) = Ret v →
     read Buff data (cur + offset_EntryIdStart) v ≠ Ret id) →
  answers c I cur (Ret None).
Proof.
  intros Hw Hid. assert (∀ i p, visited cur i p → p = cur) as Hp.
  { intros i p Hv. destruct Hv as [|? v id ? ? E1 E2]; [done|]. by destruct (Hid v id E1). }
  split; intros i p ->%Hp _; [done|]. intros (v & id & E1 & E2 & _). by destruct (Hid v id E1).
Qed.

Lemma answers_match c I cur v id e :
  I < c → ¬ wraps_at cur → read_u64 Buff data (cur + offset_EntryIdSize) = Ret v →
  read Buff data (cur + offset_EntryIdStart) v = Ret id → matches t id = true → read_entry Buff data cur = Ret e →
  answers c I cur (Ret (Some e)).
Proof.
  intros HI Hw Ev Hid Em Er. split.
  - intros i p Hi _. destruct (visited_inv _ _ _ _ _ Hi Ev Hid) as [[_ ->]|(? & _ & Ef & _)]; [done|congruence].
  - exists 0%nat, cur. split; [constructor|]. split; [lia|]. split; [by exists v, id|done].
Qed.

Lemma answers_next c I cur v id r :
  ¬ wraps_at cur → read_u64 Buff data (cur + offset_EntryIdSize) = Ret v →
  read Buff data (cur + offset_EntryIdStart) v = Ret id → matches t id = false →
  answers c (I + 1) (cur + offset_EntryIdStart + v) r → answers c I cur r.
Proof.
  intros Hw Ev Hid Em Hr.
  assert (¬ matches_at cur) as Hm by (intros (v' & id' & E1 & E2 & E3); congruence).
  assert (∀ P : Z → Prop, ¬ P cur →
    (∀ i p, visited (cur + offset_EntryIdStart + v) i p → I + 1 + Z.of_nat i < c → ¬ P p) →
    ∀ i p, visited cur i p → I + Z.of_nat i < c → ¬ P p) as Hall.
  { intros P Hc Hn i p Hi Hlt. destruct (visited_inv _ _ _ _ _ Hi Ev Hid) as [[_ ->]|(j & -> & _ & Hj)]; [done|].
    apply (Hn j p Hj). lia. }
  assert (∀ i p, visited (cur + offset_EntryIdStart + v) i p → visited cur (S i) p) as Hback
    by (intros; by eapply visited_next).
  destruct r as [[e|]| |]; [| |done|].
  - destruct Hr as [Hn (i & p & Hi & Hlt & Hp)]. split; [by apply Hall|].
    exists (S i), p. split; [by apply Hback|]. split; [lia|done].
  - destruct Hr. split; by apply Hall.
  - destruct Hr as (i & p & Hi & Hlt & Hp). exists (S i), p. split; [by apply Hback|]. split; [lia|done].
Qed.

Lemma search_total c fuel : ∀ I cur,
  Buff ≤ cur ≤ Buff + Length data → Z.of_nat fuel > Buff + Length data - cur →
  answers c I cur (search Buff data fuel t c I cur).
Proof.
  induction fuel as [|fuel IH]; intros I cur Hc Hf; [lia|]. cbn [search].
  destruct (I <? c) eqn:EI; bool_to_prop; [|split; intros; exfalso; lia].
  rewrite Limit_eq by lia. rewrite (u64_small (cur + _)) by (unfold offset_EntryIdStart, in_u64; lia).
  destruct (_ >? _) eqn:E1; bool_to_prop.
  { apply answers_end.
    - intros (v & E%read_u64_ret & _). unfold offset_EntryIdStart, offset_EntryIdSize in *. lia.
    - intros v id E%read_u64_ret. unfold offset_EntryIdStart, offset_EntryIdSize in *. lia. }
  destruct (read_u64_inside (cur + offset_EntryIdSize)) as (v & Ev & Hv);
    [unfold offset_EntryIdStart, offset_EntryIdSize in *; lia..|]. unfold in_u64 in Hv. rewrite Ev. cbn [mbind outcome_bind].
  destruct (decide (2 ^ 64 ≤ cur + offset_EntryIdStart + v)) as [Hw|Hw].
  { assert (u64 (cur + offset_EntryIdStart + v) = cur + offset_EntryIdStart + v - 2 ^ 64) as ->
      by (unfold u64; symmetry; apply (Z.mod_unique_pos _ _ 1); lia).
    destruct (_ >? _) eqn:E2; bool_to_prop; [unfold Length in *; lia|].
    unfold read at 1. rewrite (proj2 (Z.leb_gt _ (Buff + Length data))), andb_false_r by lia.
    exists 0%nat, cur. split; [constructor|]. split; [lia|by exists v]. }
  assert (¬ wraps_at cur) as Hnw by (intros (v' & E & ?); rewrite Ev in E; by injection E as <-).
  rewrite u64_small by (unfold offset_EntryIdStart, in_u64 in *; lia).
  destruct (cur + offset_EntryIdStart + v >? _) eqn:E2; bool_to_prop.
  { apply answers_end; [done|]. intros v' id E. rewrite Ev in E. injection E as <-. intros E%read_ret. lia. }
  destruct (read_inside Buff data (cur + offset_EntryIdStart) v) as [id Hid]; [unfold offset_EntryIdStart in *; lia..|].
  rewrite Hid. cbn [mbind outcome_bind]. destruct (matches t id) eqn:Em.
  - destruct (read_u64_inside cur) as (o & Eo & _); [unfold offset_EntryIdStart in *; lia..|].
    destruct (read_u64_inside (cur + offset_ObjectSize)) as (z & Ez & _); [unfold offset_EntryIdStart, offset_ObjectSize in *; lia..|].
    assert (read_entry Buff data cur = Ret {| ObjectOffset := o; ObjectSize := z; EntryIdSize := v |}) as Er
      by (unfold read_entry; by rewrite Eo, Ez, Ev).
    rewrite Er. by eapply answers_match.
  - eapply answers_next; [done..|]. apply IH; unfold offset_EntryIdStart in *; lia.
Qed.
End any_bytes.

(** C37: Whatever the bytes of the buffer and the count in its header, [extract]
    returns after at most one step for each byte and reads only inside the
    buffer, except exactly when one of the entries it visits has an id size
    that, added to its address, overflows.  Otherwise it gives the offset and
    size read from an entry of the table whose id matches, and succeeds when the
    end of the object, added up in 64 bits, is not after the end of the buffer:
    unless the sum overflows, exactly when the object lies in the buffer.
    Without such an entry it fails and writes nothing. *)
Theorem extract_total Buff data t :
  0 ≤ Buff → Buff + Length data + 32 < 2 ^ 64 →
  (extract Buff data t = Undefined ∧ ∃ p, table_entry Buff data t p ∧ wraps_at Buff data p) ∨
  (¬ (∃ p, table_entry Buff data t p ∧ wraps_at Buff data p) ∧
   ∃ r out, extract Buff data t = Ret (r, out) ∧
     match out with
     | None => r = UR_RESULT_ERROR_INVALID_PROGRAM ∧ ∀ p, table_entry Buff data t p → ¬ matches_at Buff data t p
     | Some (object, n) => ∃ p off,
         table_entry Buff data t p ∧ matches_at Buff data t p ∧
         read_u64 Buff data p = Ret off ∧ read_u64 Buff data (p + offset_ObjectSize) = Ret n ∧
         object = u64 (Buff + off) ∧
         r = (if u64 (object + n) <=? Buff + Length data then UR_RESULT_SUCCESS else UR_RESULT_ERROR_INVALID_PROGRAM) ∧
         (Buff + off + n < 2 ^ 64 → r = UR_RESULT_SUCCESS ↔ ∃ s, read Buff data (Buff + off) n = Ret s)
     end).
Proof.
  intros HB He. unfold extract, containsBundle. rewrite Limit_eq by lia.
  rewrite u64_small by (unfold offset_FirstEntry, in_u64, Length in *; lia). destruct (_ >? _) eqn:E; bool_to_prop.
  { assert (∀ p, ¬ table_entry Buff data t p) as Hn
      by (intros p (c & i & Hc%read_u64_ret & _); unfold offset_EntryCount, offset_FirstEntry in *; lia).
    right. split; [by intros (p & Hp%Hn & _)|]. eexists _, _. split; [reflexivity|]. split; [done|]. by intros p Hp%Hn. }
  destruct (read_u64_inside Buff data (Buff + offset_EntryCount)) as (c & Ec & _);
    [unfold offset_EntryCount, offset_FirstEntry in *; lia..|].
  rewrite Ec. cbn [mbind outcome_bind].
  assert (∀ p, table_entry Buff data t p ↔ ∃ i, Z.of_nat i < c ∧ visited Buff data t (Buff + offset_FirstEntry) i p) as Ht.
  { intros p. unfold table_entry. rewrite Ec. split; [intros (? & i & [= <-] & ? & ?); eauto|intros (i & ? & ?); eauto]. }
  assert (answers Buff data t c 0 (Buff + offset_FirstEntry)
    (search Buff data (S (length data)) t c 0 (Buff + offset_FirstEntry))) as Hs
    by (apply search_total; unfold Length, offset_FirstEntry in *; lia).
  destruct (search _ _ _ _ _ _ _) as [[e|]| |]; [| |done|].
  - destruct Hs as [Hn (i & p & Hi & Hlt & Hm & Hr)].
    right. split; [intros (p' & (j & ? & ?)%Ht & Hw); by apply (Hn j p')|]. cbn [mbind outcome_bind].
    eexists _, _. split; [reflexivity|]. unfold read_entry in Hr. inv_ret. simpl.
    match goal with H : read_u64 Buff data p = Ret ?o |- _ => exists p, o end.
    split; [apply Ht; by exists i|]. do 5 (split; [done|]).
    intros Hsum.
    repeat match goal with H : read_u64 _ _ _ = Ret _ |- _ => apply read_u64_ret in H as (_ & _ & H) end. unfold in_u64 in *.
    rewrite (u64_small (Buff + _)), u64_small by (unfold in_u64; lia). destruct (_ <=? _) eqn:El; bool_to_prop.
    + split; [intros _; apply read_inside; lia|done].
    + split; [done|]. intros [s Hs%read_ret]. lia.
  - destruct Hs as [Hn Hm]. right. split; [intros (p & (i & ? & ?)%Ht & Hw); by apply (Hn i p)|].
    eexists _, _. split; [reflexivity|]. split; [done|]. intros p (i & ? & ?)%Ht. by apply (Hm i p).
  - destruct Hs as (i & p & Hi & Hlt & Hw). left. split; [done|]. exists p. split; [apply Ht; by exists i|done].
Qed.

(** An object at an offset that carries the sum around the address space is
    accepted, far outside of the buffer. *)
Definition far_object : cstr :=
  Magic ++ le 8 1 ++ le 8 (2 ^ 64 - 4096) ++ le 8 4096 ++ le 8 3 ++ lit "hip"%string.
Theorem extract_out_of_bounds :
  extract 65536 far_object (lit "hip"%string) = Ret (UR_RESULT_SUCCESS, Some (61440, 4096)) ∧ 61440 < 65536.
Proof. split; [vm_compute; reflexivity|lia]. Qed.

(** An id size that overflows gets past the check of the end. *)
Definition wrapping_id : cstr := Magic ++ le 8 1 ++ le 8 0 ++ le 8 0 ++ le 8 (2 ^ 64 - 1) ++ lit "hip"%string.
Theorem id_size_overflow : containsBundle 65536 wrapping_id (lit "hip"%string) = Undefined.
Proof. vm_compute. reflexivity. Qed.

(** ** Witnesses *)

Definition sample : list (cstr * cstr) :=
  [(lit "host-x86_64"%string, []); (lit "hipv4-amdgcn-amd-amdhsa--gfx90a"%string, lit "first"%string);
   (lit "hipv4-amdgcn-amd-amdhsa--gfx1030"%string, lit "second one"%string)].

Lemma extract_encode_witness : ∃ p,
  extract 4096 (encode sample) (lit "gfx1030"%string) = Ret (UR_RESULT_SUCCESS, Some (p, 10)) ∧
  read 4096 (encode sample) p 10 = Ret (lit "second one"%string).
Proof. exact (proj2 (extract_encode 4096 sample (lit "gfx1030"%string) ltac:(lia) ltac:(vm_compute; reflexivity))). Defined.

(** The bundle without its last byte: the last object is found, but not whole. *)
Definition truncated : cstr := removelast (encode sample).

Lemma extract_total_witness : ∃ p off,
  table_entry 4096 truncated (lit "gfx1030"%string) p ∧ read_u64 4096 truncated p = Ret off ∧
  fst <$> extract 4096 truncated (lit "gfx1030"%string) = Ret UR_RESULT_ERROR_INVALID_PROGRAM ∧
  (4096 + off + 10 < 2 ^ 64 → ¬ ∃ s, read 4096 truncated (4096 + off) 10 = Ret s).
Proof.
  assert (∃ p, extract 4096 truncated (lit "gfx1030"%string) = Ret (UR_RESULT_ERROR_INVALID_PROGRAM, Some (p, 10))) as [q Eq]
    by (eexists; vm_compute; reflexivity).
  destruct (extract_total 4096 truncated (lit "gfx1030"%string)) as [[E _]|(_ & r & out & E & H)];
    [lia|vm_compute; reflexivity|by rewrite E in Eq|].
  rewrite Eq in E. injection E as <- <-. destruct H as (p & off & Ht & _ & Hoff & _ & _ & _ & H).
  exists p, off. split; [exact Ht|]. split; [exact Hoff|]. split; [by rewrite Eq|].
  intros Hs He. by apply (H Hs) in He.
Defined.
End OffloadBundleProps.
