(* ===== verification/UrUtil.v ===== *)
(** * Shared utilities: source/common/ur_util.hpp and ur_util.cpp

    Environment-variable parsers ([getenv_tobool], [getenv_to_unsigned],
    [getenv_to_vec], [getenv_to_map]), [exceptionToResult],
    [multiplyWithOverflowCheck], hashing, buffer flags, and the reference
    counted singleton ([Rc], [AtomicSingleton]) that owns the loader state.
    An environment variable is [None] when [getenv] returns a null pointer. *)
From stdpp Require Import base numbers list strings sorting sets relations pretty.
From Stdlib Require Import Ascii.
From S2P Require Import Prelude CString.

(** ** Environment variables *)
Module Env.

(** A variable set to the empty string counts as unset. *)
Definition ur_getenv (env : option cstr) : option cstr :=
  match env with Some (c :: s) => Some (c :: s) | _ => None end.

Definition getenv_tobool (env : option cstr) (def : bool) : bool :=
  match ur_getenv env with
  | Some s =>
      let s := tolower <$> s in
      bool_decide (s ∈ [lit "y"; lit "yes"; lit "t"; lit "true"; lit "1"])
  | None => def
  end.

(** [std::optional<uint64_t>] built from the [int] of [std::stoi]; every
    exception is swallowed. *)
Definition getenv_to_unsigned (env : option cstr) : option Z :=
  match ur_getenv env with
  | Some s => match stoi s with Ret v => Some (u64 v) | _ => None end
  | None => None
  end.

Definition is_quoted (s : cstr) : bool :=
  (2 <=? length s) &&
  ((bool_decide (head s = Some squote) && bool_decide (last s = Some squote)) ||
   (bool_decide (head s = Some dquote) && bool_decide (last s = Some dquote))).
Definition is_empty (s : cstr) : bool := match s with [] => true | _ => false end.
(** [value.substr(1, value.length() - 2)] *)
Definition unquote (s : cstr) : cstr := substr s 1 (length s - 2).

Definition vec_value (value : cstr) : outcome cstr :=
  if is_empty value ||
     (negb (is_quoted value) && (has_char ":" value || has_char ";" value))
  then Throw std_invalid_argument
  else Ret (if is_quoted value then unquote value else value).

Definition getenv_to_vec (env : option cstr) : outcome (option (list cstr)) :=
  match ur_getenv env with
  | None => Ret None
  | Some s => values ← mapM vec_value (getline_all "," s); Ret (Some values)
  end.

Abbreviation EnvVarMap := (list (cstr * list cstr)).

(** The inner loop of [getenv_to_map]: [pos] and [start] walk over [values]. *)
Fixpoint values_loop (fuel : nat) (values : cstr) (start : nat) (acc : list cstr)
    : outcome (list cstr) :=
  match fuel with
  | O => Undefined
  | S fuel =>
      let pos := find_from "," values start in
      if bool_decide (is_Some pos) || (start <? length values) then
        let pos := default (length values) pos in
        let value := substr values start (pos - start) in
        if is_empty value || (has_char ":" value && negb (is_quoted value))
        then Throw std_invalid_argument
        else
          let value := if is_quoted value then unquote value else value in
          values_loop fuel values (S pos) (acc ++ [value])
      else Ret acc
  end.

(** One [key:value,...] pair of the outer loop. *)
Definition map_step (reject_empty allow_duplicate lower : bool)
    (map : EnvVarMap) (key_value : cstr) : outcome EnvVarMap :=
  if reject_empty && negb (has_char ":" key_value) then Throw std_invalid_argument else
  match find_char ":" key_value with
  | None => Throw std_invalid_argument
  | Some colon_pos =>
      let key := take colon_pos key_value in
      let values := drop (S colon_pos) key_value in
      if is_empty key || (reject_empty && is_empty values) ||
         (bool_decide (is_Some (map_find key map)) && negb allow_duplicate)
      then Throw std_invalid_argument else
      let key := if lower then tolower <$> key else key in
      values_vec ← values_loop (S (length values)) values 0 [];
      Ret (match map_find key map with
           | Some old => map_insert key (old ++ values_vec) map
           | None => map_insert key values_vec map
           end)
  end.

Fixpoint map_loop (re ad lo : bool) (map : EnvVarMap) (toks : list cstr) : outcome EnvVarMap :=
  match toks with
  | [] => Ret map
  | t :: toks => map ← map_step re ad lo map t; map_loop re ad lo map toks
  end.

Definition getenv_to_map (reject_empty allow_duplicate lower : bool) (env : option cstr)
    : outcome (option EnvVarMap) :=
  match ur_getenv env with
  | None => Ret None
  | Some s => map ← map_loop reject_empty allow_duplicate lower [] (getline_all ";" s);
              Ret (Some map)
  end.

End Env.

(** ** Small helpers *)
Module Util.
Local Open Scope Z_scope.

Definition combine_hashes (seed : Z) (hashes : list Z) : Z := foldl Z.lxor seed hashes.

Definition exceptionToResult (e : option exn) : ur_result_t :=
  match e with
  | None => UR_RESULT_SUCCESS
  | Some std_bad_alloc => UR_RESULT_ERROR_OUT_OF_HOST_MEMORY
  | Some (exn_ur_result r) => r
  | Some _ => UR_RESULT_ERROR_UNKNOWN
  end.

(** The GCC/Clang branch: [__builtin_mul_overflow] stores the wrapped product
    and returns whether it was inexact. *)
Definition builtin_mul_overflow (a b : Z) : bool * Z := (SIZE_MAX <? a * b, u64 (a * b)).

Definition multiplyWithOverflowCheck (a b c : Z) : Z :=
  if (a =? 0) || (b =? 0) || (c =? 0) then 0 else
  let '(o1, p1) := builtin_mul_overflow a b in
  if o1 then SIZE_MAX else
  let '(o2, p2) := builtin_mul_overflow p1 c in
  if o2 then SIZE_MAX else p2.

(** The MSVC branch: the overflow tests divide. *)
Definition multiplyWithOverflowCheck_msvc (a b c : Z) : Z :=
  if (a =? 0) || (b =? 0) || (c =? 0) then 0 else
  if b >? SIZE_MAX / a then SIZE_MAX else
  let p := u64 (a * b) in
  if c >? SIZE_MAX / p then SIZE_MAX else u64 (p * c).

(** [std::string::rfind('@')], then the two pieces; the second keeps the '@'. *)
Definition rfind_char (c : ascii) (s : cstr) : option nat :=
  (λ i, length s - 1 - i)%nat <$> find_char c (rev s).
Definition splitMetadataName (s : cstr) : cstr * cstr :=
  match rfind_char "@" s with
  | None => (s, [])
  | Some p => (substr s 0 p, substr s p (length s))
  end.

(** The digit loop of [groupDigits]; [n] is [digits.size()]. *)
Fixpoint groupDigits_loop (n i : nat) (digits : cstr) : cstr :=
  match digits with
  | [] => []
  | c :: ds => c :: (if negb (i =? n - 1)%nat && ((n - i - 1) mod 3 =? 0)%nat then [squote] else [])
                 ++ groupDigits_loop n (S i) ds
  end.
Definition to_string (n : Z) : cstr := lit (pretty n).
Definition groupDigits (numeric : Z) : cstr :=
  let number := to_string numeric in
  let sign := if numeric >=? 0 then [] else lit "-" in
  let digits := substr number (length sign) (length number - length sign) in
  sign ++ groupDigits_loop (length digits) 0 digits.

Definition UR_MEM_FLAG_READ_WRITE : Z := 1.
Definition UR_MEM_FLAG_WRITE_ONLY : Z := 2.
Definition UR_MEM_FLAG_READ_ONLY : Z := 4.
Definition UR_MEM_FLAG_USE_HOST_POINTER : Z := 8.
Definition UR_MEM_FLAG_ALLOC_HOST_POINTER : Z := 16.
Definition UR_MEM_FLAG_ALLOC_COPY_HOST_POINTER : Z := 32.
Definition UR_MAP_FLAG_READ : Z := 1.
Definition UR_MAP_FLAG_WRITE : Z := 2.
Definition UR_MAP_FLAG_WRITE_INVALIDATE_REGION : Z := 4.

Definition flag (x m : Z) : bool := negb (Z.land x m =? 0).
Definition subBufferFlagsAreLegal (parent child : Z) : bool :=
  if flag child (Z.lor UR_MEM_FLAG_ALLOC_COPY_HOST_POINTER
                   (Z.lor UR_MEM_FLAG_ALLOC_HOST_POINTER UR_MEM_FLAG_USE_HOST_POINTER)) then false
  else if flag parent UR_MEM_FLAG_WRITE_ONLY
          && flag child (Z.lor UR_MEM_FLAG_READ_WRITE UR_MEM_FLAG_READ_ONLY) then false
  else if flag parent UR_MEM_FLAG_READ_ONLY
          && flag child (Z.lor UR_MEM_FLAG_READ_WRITE UR_MEM_FLAG_WRITE_ONLY) then false
  else true.

Definition isPointerAlignedTo (Alignment Ptr : Z) : bool :=
  (Alignment =? 0) || (Ptr `mod` Alignment =? 0).

End Util.

(** ** Reference-counted singleton *)
Module Rc.
Local Open Scope Z_scope.

(** [ptr] names the current object; [next] and [deleted] are ghost: the number
    of objects created so far and the ones already destroyed, oldest first. *)
Record t := mk { ptr : option nat; refcount : Z; next : nat; deleted : list nat }.

Definition init : t := mk None 0 0 [].

Definition get_or_create (refcounted : bool) (rc : t) : nat * t :=
  let r := if refcounted then u64 (refcount rc + 1) else refcount rc in
  match ptr rc with
  | Some p => (p, mk (Some p) r (next rc) (deleted rc))
  | None => (next rc, mk (Some (next rc)) r (S (next rc)) (deleted rc))
  end.

(** The deleter destroys the object it is given. *)
Definition release (rc : t) : Z * t :=
  if refcount rc <=? 0 then (-1, rc) else
  let r := refcount rc - 1 in
  if r =? 0 then (0, mk None r (next rc) (deleted rc ++ option_list (ptr rc)))
  else (0, mk (ptr rc) r (next rc) (deleted rc)).

Definition forceDelete (rc : t) : t :=
  mk None 0 (next rc) (deleted rc ++ option_list (ptr rc)).

(** [AtomicSingleton]: the operations that change the state run under the
    spinlock, so an execution of any number of threads is a sequence of these
    steps.  [get_direct] first reads the pointer without the lock; the locked
    [get_or_create(false)] that follows a null read runs in whatever state the
    other threads have left by then. *)
Definition get (rc : t) : nat * t := get_or_create true rc.
Definition get_direct (rc_read rc_locked : t) : nat * t :=
  match ptr rc_read with Some p => (p, rc_locked) | None => get_or_create false rc_locked end.

Inductive step (rc : t) : t → Prop :=
  | step_get : step rc (get rc).2
  | step_get_direct rc_read : step rc (get_direct rc_read rc).2
  | step_release : step rc (release rc).2
  | step_forceDelete : step rc (forceDelete rc).

End Rc.

(** ** The list parsers *)
Module EnvFacts.
Import Env.

Lemma is_quoted_quote v : is_quoted (dquote :: v ++ [dquote]) = true.
Proof.
  unfold is_quoted. apply andb_true_intro; split.
  - apply Nat.leb_le. rewrite length_cons, length_app. simpl. lia.
  - apply orb_true_intro; right. apply andb_true_intro; split; apply bool_decide_eq_true_2; [done|].
    by rewrite app_comm_cons, last_snoc.
Qed.

Lemma unquote_quote v : unquote (dquote :: v ++ [dquote]) = v.
Proof.
  unfold unquote, substr. simpl. rewrite length_app. simpl.
  replace (length v + 1 - 1) with (length v) by lia. apply take_app_length.
Qed.

(** What the inner loop does to one comma-separated value. *)
Definition check_value (value : cstr) : outcome cstr :=
  if is_empty value || (has_char ":" value && negb (is_quoted value))
  then Throw std_invalid_argument
  else Ret (if is_quoted value then unquote value else value).

Lemma drop_getline_step d s start :
  (bool_decide (is_Some (find_from d s start)) || (start <? length s)) = true →
  let pos := default (length s) (find_from d s start) in
  getline_all d (drop start s) =
    substr s start (pos - start) :: getline_all d (drop (S pos) s) ∧
  start < S pos.
Proof.
  intros Hc pos. unfold pos, find_from in *. clear pos.
  destruct (find_char d (drop start s)) as [i|] eqn:E; simpl in *.
  - apply find_char_Some in E as (l & r & E & <- & Hl). split; [|lia].
    unfold substr. rewrite E. replace (start + length l - start) with (length l) by lia.
    rewrite take_app_length. unfold getline_all at 1.
    rewrite getline_aux_app by done. simpl. rewrite decide_True by done.
    rewrite app_nil_r, rev_involutive. f_equal. unfold getline_all. f_equal.
    replace (S (start + length l)) with (start + S (length l)) by lia.
    rewrite <-drop_drop, E, <-(app_nil_l r) at 1. rewrite cons_middle, app_assoc.
    rewrite drop_app_length'; [done|]. rewrite length_app. simpl. lia.
  - apply Nat.ltb_lt in Hc. apply find_char_None in E. split; [|lia].
    rewrite (drop_ge s (S (length s))) by lia.
    unfold substr. rewrite take_ge by (rewrite length_drop; lia).
    change (getline_all d []) with (@nil cstr). change [drop start s] with ([drop start s] : list cstr).
    apply (getline_all_join d [drop start s]).
    + by constructor.
    + simpl. intros [= Hd]. apply (f_equal length) in Hd. rewrite length_drop in Hd. simpl in Hd. lia.
Qed.

(** With enough fuel the loop is the traversal of the comma-separated values:
    it terminates, and never reads out of range. *)
Lemma values_loop_spec fuel values start acc :
  length values - start < fuel →
  values_loop fuel values start acc =
    app acc <$> mapM check_value (getline_all "," (drop start values)).
Proof.
  revert start acc. induction fuel as [|fuel IH]; intros start acc Hf; [lia|].
  cbn [values_loop]. destruct (_ || _) eqn:Hc.
  - assert (start < length values) as Hlt.
    { apply orb_true_iff in Hc as [Hc|Hc]; [|by apply Nat.ltb_lt].
      apply bool_decide_eq_true in Hc as [i Hi]. unfold find_from in Hi.
      apply fmap_Some in Hi as (j & Hj & _).
      destruct (decide (start < length values)); [done|].
      rewrite drop_ge in Hj by lia. done. }
    destruct (drop_getline_step _ _ _ Hc) as [-> Hpos]. cbn [mapM].
    set (pos := default _ _) in *. set (value := substr _ _ _).
    unfold check_value at 2. destruct (is_empty value || _); [done|]. cbn [mbind outcome_bind].
    rewrite IH by lia. destruct (mapM _ _) as [vs| |]; simpl; [|done..].
    by rewrite <-app_assoc.
  - apply orb_false_iff in Hc as [Hc1 Hc2]. apply Nat.ltb_ge in Hc2.
    rewrite drop_ge by lia. simpl. by rewrite app_nil_r.
Qed.

Lemma values_loop_top values :
  values_loop (S (length values)) values 0 [] = mapM check_value (getline_all "," values).
Proof.
  rewrite values_loop_spec, drop_0 by lia. by destruct (mapM _ _).
Qed.

Lemma mapM_ret {A B} (f : A → outcome B) (g : A → B) l :
  Forall (λ x, f x = Ret (g x)) l → mapM f l = Ret (g <$> l).
Proof. induction 1 as [|x l Hx Hl IH]; simpl; [done|]. by rewrite Hx, IH. Qed.

Lemma mapM_length {A B} (f : A → outcome B) l k : mapM f l = Ret k → length k = length l.
Proof.
  revert k. induction l as [|x l IH]; simpl; intros k H; inv_ret; simpl; [done|]. f_equal. by apply IH.
Qed.

Lemma mapM_never_undefined {A B} (f : A → outcome B) l :
  (∀ x, f x ≠ Undefined) → mapM f l ≠ Undefined.
Proof.
  intros Hf. induction l as [|x l IH]; simpl; [done|].
  specialize (Hf x). by destruct (f x), (mapM f l).
Qed.

(** *** Printing, the inverse of parsing *)

(** A value is written between double quotes when it is empty, already looks
    quoted, or holds a colon. *)
Definition print_value (v : cstr) : cstr :=
  if is_empty v || has_char ":" v || has_char ";" v || is_quoted v
  then dquote :: v ++ [dquote] else v.
Definition print_pair (kv : cstr * list cstr) : cstr :=
  kv.1 ++ ":"%char :: join "," (print_value <$> kv.2).
Definition print_map (m : EnvVarMap) : cstr := join ";" (print_pair <$> m).

Definition value_ok (v : cstr) : Prop := ","%char ∉ v ∧ ";"%char ∉ v.
Definition pair_ok (kv : cstr * list cstr) : Prop :=
  kv.1 ≠ [] ∧ ":"%char ∉ kv.1 ∧ ";"%char ∉ kv.1 ∧
  kv.2 ≠ [] ∧ Forall value_ok kv.2.

Lemma print_value_nonempty v : print_value v ≠ [].
Proof. unfold print_value. by destruct v; simpl; try case_match. Qed.

Lemma print_value_chars d v : d ≠ dquote → d ∉ v → d ∉ print_value v.
Proof. unfold print_value. case_match; set_solver. Qed.

Lemma check_print_value v : check_value (print_value v) = Ret v.
Proof.
  unfold print_value. destruct (_ || _) eqn:E.
  - unfold check_value. rewrite is_quoted_quote, unquote_quote, andb_false_r. done.
  - unfold check_value. repeat apply orb_false_iff in E as [E ?].
    repeat match goal with H : _ = false |- _ => rewrite H; clear H end. done.
Qed.

Lemma vec_print_value v : vec_value (print_value v) = Ret v.
Proof.
  unfold print_value. destruct (_ || _) eqn:E.
  - unfold vec_value. by rewrite is_quoted_quote, unquote_quote.
  - unfold vec_value. repeat apply orb_false_iff in E as [E ?].
    repeat match goal with H : _ = false |- _ => rewrite H; clear H end. done.
Qed.

Lemma getline_print_values d vs :
  d ≠ dquote → Forall (λ v, d ∉ v) vs →
  getline_all d (join d (print_value <$> vs)) = print_value <$> vs.
Proof.
  intros Hd Hvs. apply getline_all_join.
  - apply Forall_fmap. eapply Forall_impl; [exact Hvs|]. intros v Hv. by apply print_value_chars.
  - rewrite fmap_last. intros (v & _ & Hv)%fmap_Some. by apply (print_value_nonempty v).
Qed.

Lemma mapM_print f vs : (∀ v, f (print_value v) = Ret v) → mapM f (print_value <$> vs) = Ret vs.
Proof.
  intros Hf. induction vs as [|v vs IH]; [done|]. rewrite fmap_cons. cbn [mapM].
  rewrite Hf. cbn [mbind outcome_bind]. by rewrite IH.
Qed.

Lemma join_chars d d' toks :
  d ≠ d' → Forall (λ t, d ∉ t) toks → d ∉ join d' toks.
Proof.
  intros Hd. induction toks as [|t [|t' ts] IH]; simpl; intros H; inversion H; subst;
    [set_solver|done|]. apply not_elem_of_app. split; [done|].
  apply not_elem_of_cons. split; [done|by apply IH].
Qed.

Lemma join_nonempty d toks : toks ≠ [] → Forall (λ t, t ≠ []) toks → join d toks ≠ [].
Proof.
  destruct toks as [|t [|t' ts]]; [done|..]; intros _ H; inversion H; subst; [done|].
  cbn [join]. by destruct t.
Qed.

(** Parsing one printed pair inserts it. *)
Lemma map_step_print re ad m kv :
  pair_ok kv → map_find kv.1 m = None →
  map_step re ad false m (print_pair kv) = Ret (map_insert kv.1 kv.2 m).
Proof.
  destruct kv as [k vs]. intros (Hk & Hk1 & Hk2 & Hvs & Hok) Hf. simpl in *.
  unfold map_step, print_pair. cbn [fst snd].
  assert (has_char ":" (k ++ ":"%char :: join "," (print_value <$> vs)) = true) as ->
    by (apply has_char_spec; set_solver).
  rewrite andb_false_r. cbn [negb]. rewrite find_char_app by done.
  rewrite take_app_length, cons_middle, app_assoc, drop_app_length'
    by (rewrite length_app; simpl; lia).
  assert (is_empty k = false) as -> by by destruct k.
  assert (is_empty (join "," (print_value <$> vs)) = false) as ->.
  { destruct (join _ _) eqn:E; [|done]. exfalso. revert E. apply join_nonempty; [by destruct vs|].
    apply Forall_fmap, Forall_true. apply print_value_nonempty. }
  rewrite Hf, andb_false_r. cbn [orb bool_decide].
  rewrite bool_decide_eq_false_2 by (by intros [? ?]). cbn [andb].
  rewrite values_loop_top, getline_print_values, mapM_print;
    [done|apply check_print_value|done|].
  eapply Forall_impl; [exact Hok|]. by intros v [??].
Qed.

Lemma map_loop_print re ad ps m :
  Forall pair_ok ps → NoDup ps.*1 → (∀ k, k ∈ ps.*1 → map_find k m = None) →
  map_loop re ad false m (print_pair <$> ps) = Ret (foldl (λ m kv, map_insert kv.1 kv.2 m) m ps).
Proof.
  revert m. induction ps as [|[k vs] ps IH]; intros m Hok Hn Hm; simpl; [done|].
  inversion Hok; subst. rewrite fmap_cons, NoDup_cons in Hn. destruct Hn as [Hk Hn].
  rewrite map_step_print by (try done; apply Hm; set_solver). simpl. apply IH; [done..|].
  intros k' Hk'. rewrite map_find_insert_ne by (intros ->; done). apply Hm. set_solver.
Qed.

Lemma foldl_insert_find k ps m :
  NoDup ps.*1 →
  map_find k (foldl (λ m kv, map_insert kv.1 kv.2 m) m ps) =
    match map_find k ps with Some v => Some v | None => map_find k (m : EnvVarMap) end.
Proof.
  revert m. induction ps as [|[k' v'] ps IH]; intros m; simpl; [done|].
  rewrite NoDup_cons. intros [Hk Hn]. rewrite IH by done. case_decide; subst.
  - apply map_find_None in Hk. rewrite Hk. apply map_find_insert_eq.
  - case_match; [done|]. by apply map_find_insert_ne.
Qed.

Lemma foldl_insert_sorted ps (m : EnvVarMap) :
  map_sorted m → map_sorted (foldl (λ m kv, map_insert kv.1 kv.2 m) m ps).
Proof. revert m. induction ps as [|p ps IH]; simpl; auto with cstring. Qed.

End EnvFacts.

(** ** Properties of the parsers *)
Module EnvProps.
Import Env EnvFacts.

(** What [getenv_to_map] promises about a parsed map. *)
Definition env_map_wf (reject_empty : bool) (m : EnvVarMap) : Prop :=
  map_sorted m ∧ Forall (λ kv, kv.1 ≠ [] ∧ (reject_empty = true → kv.2 ≠ [])) m.

Lemma getline_all_nonempty d s : s ≠ [] → getline_all d s ≠ [].
Proof.
  destruct s as [|c s]; [done|]. intros _. unfold getline_all. simpl. case_decide; [done|].
  assert (∀ s cur, cur ≠ [] → getline_all_aux d cur s ≠ []) as H'; [|by apply H'].
  clear. induction s as [|c s IH]; intros [|x cur] Hc; simpl; try done. case_decide; [done|]. by apply IH.
Qed.

Lemma map_insert_Forall {V} (P : cstr * V → Prop) k v (m : list (cstr * V)) :
  Forall P m → P (k, v) → Forall P (map_insert k v m).
Proof.
  intros Hm Hp. induction Hm as [|[k' v'] m H Hm IH]; simpl; [by constructor|].
  repeat case_decide; [by constructor|]. case_match; by repeat constructor.
Qed.

Lemma map_find_Forall {V} (P : cstr * V → Prop) k v (m : list (cstr * V)) :
  Forall P m → map_find k m = Some v → P (k, v).
Proof.
  induction 1 as [|[k' v'] m H Hm IH]; simpl; [done|]. case_decide; [|done]. by intros [= <-]; subst.
Qed.

Lemma check_value_outcome v : check_value v = Throw std_invalid_argument ∨ ∃ x, check_value v = Ret x.
Proof. unfold check_value. case_match; eauto. Qed.

Lemma mapM_outcome {A B} (f : A → outcome B) (e : exn) l :
  (∀ x, f x = Throw e ∨ ∃ y, f x = Ret y) → mapM f l = Throw e ∨ ∃ k, mapM f l = Ret k.
Proof.
  intros Hf. induction l as [|x l IH]; simpl; [eauto|].
  destruct (Hf x) as [->|[y ->]]; simpl; [eauto|].
  destruct IH as [->|[k ->]]; simpl; eauto.
Qed.

Lemma map_step_outcome re ad lo m t :
  env_map_wf re m →
  map_step re ad lo m t = Throw std_invalid_argument ∨
  ∃ m', map_step re ad lo m t = Ret m' ∧ env_map_wf re m'.
Proof.
  intros [Hs Hm]. unfold map_step. case_match; [eauto|].
  destruct (find_char ":" t) as [i|] eqn:Hi; [|eauto]. case_match eqn:Hc; [eauto|].
  apply orb_false_iff in Hc as [[Hk Hv]%orb_false_iff _].
  rewrite values_loop_top. set (values := drop (S i) t) in *.
  destruct (mapM_outcome check_value std_invalid_argument (getline_all "," values))
    as [->|[vs Hvs]]; [apply check_value_outcome|by left|].
  right. rewrite Hvs. cbn [mbind outcome_bind]. set (k := if lo then _ else _).
  assert (k ≠ []) as Hk'.
  { unfold k. destruct (take i t); [done|]. by destruct lo. }
  assert (re = true → vs ≠ []) as Hvs'.
  { intros ->. intros ->. apply mapM_length in Hvs. symmetry in Hvs. apply nil_length_inv in Hvs.
    apply (getline_all_nonempty "," values); [|done]. intros E. by rewrite E in Hv. }
  assert (∀ w, (re = true → w ≠ []) → env_map_wf re (map_insert k w m)) as Hins.
  { intros w Hw. split; [by apply map_insert_sorted|]. by apply map_insert_Forall. }
  destruct (map_find k m) as [old|] eqn:Hold; eexists; (split; [done|]); apply Hins; [|done].
  apply (map_find_Forall _ _ _ _ Hm) in Hold as [_ Hold]. intros E. specialize (Hold E).
  by destruct old.
Qed.

Lemma map_loop_outcome re ad lo m ts :
  env_map_wf re m →
  map_loop re ad lo m ts = Throw std_invalid_argument ∨
  ∃ m', map_loop re ad lo m ts = Ret m' ∧ env_map_wf re m'.
Proof.
  revert m. induction ts as [|t ts IH]; intros m Hm; [right; exists m; split; [done|exact Hm]|].
  cbn [map_loop]. destruct (map_step_outcome re ad lo m t Hm) as [->|(m' & -> & Hm')]; [by left|].
  by apply IH.
Qed.

(** [getenv_to_map] always finishes and has exactly three outcomes: no map
    when the variable is unset or empty, [std::invalid_argument], or a map
    whose keys are non-empty and strictly ordered, and whose value lists are
    non-empty when [reject_empty] is set.  In particular the position loop over
    the values never reads out of range, whatever the variable holds. *)
Theorem getenv_to_map_total re ad lo env :
  match getenv_to_map re ad lo env with
  | Ret None => env = None ∨ env = Some []
  | Ret (Some m) => env_map_wf re m
  | Throw e => e = std_invalid_argument
  | Undefined => False
  end.
Proof.
  unfold getenv_to_map, ur_getenv. destruct env as [[|c s]|]; [by auto| |by auto].
  assert (env_map_wf re []) as H0 by (split; constructor).
  by destruct (map_loop_outcome re ad lo [] (getline_all ";" (c :: s)) H0)
    as [->|(m' & -> & Hm')].
Qed.

Lemma getenv_to_map_outcome_defined re ad lo env : getenv_to_map re ad lo env ≠ Undefined.
Proof.
  unfold getenv_to_map. destruct (ur_getenv env) as [s|]; [|done].
  assert (env_map_wf re []) as H0 by (split; constructor).
  by destruct (map_loop_outcome re ad lo [] (getline_all ";" s) H0) as [->|(m' & -> & Hm')].
Qed.

(** C35: round trip: printing any list of distinct non-empty keys with non-empty
    lists of values (quoting the values that need it) and parsing the text with
    [getenv_to_map], under the default policy and under [allow_duplicate],
    gives back a map that binds every key to its list of values and nothing
    else, sorted by key. *)
Theorem getenv_to_map_roundtrip re ad ps :
  ps ≠ [] → Forall pair_ok ps → NoDup ps.*1 →
  ∃ m, getenv_to_map re ad false (Some (print_map ps)) = Ret (Some m) ∧
       map_sorted m ∧ ∀ k, map_find k m = map_find k ps.
Proof.
  intros Hne Hok Hn. eexists. split; [|split].
  - unfold getenv_to_map.
    assert (Forall (λ t : cstr, ";"%char ∉ t) (print_pair <$> ps)) as Hd.
    { apply Forall_fmap. eapply Forall_impl; [exact Hok|]. intros [k vs] (_ & _ & Hk & _ & Hvs).
      unfold print_pair. simpl in *. apply not_elem_of_app. split; [done|].
      apply not_elem_of_cons. split; [done|]. apply join_chars; [done|].
      apply Forall_fmap. eapply Forall_impl; [exact Hvs|]. intros v [_ Hv].
      by apply print_value_chars. }
    assert (Forall (λ t : cstr, t ≠ []) (print_pair <$> ps)) as Hnil.
    { apply Forall_fmap, Forall_true. intros [[|??] ?]; done. }
    assert (print_map ps ≠ []) as Hp by (apply join_nonempty; [by destruct ps|done]).
    replace (ur_getenv _) with (Some (print_map ps)) by by destruct (print_map ps).
    unfold print_map. rewrite getline_all_join; [|done|].
    + rewrite map_loop_print; [done..|]. intros k _. done.
    + intros (l & E)%last_Some. rewrite E, Forall_app in Hnil.
      destruct Hnil as [_ H]. inversion H; subst. done.
  - apply foldl_insert_sorted. constructor.
  - intros k. rewrite foldl_insert_find by done. by destruct (map_find k ps).
Qed.

Lemma getenv_to_map_roundtrip_witness :
  let ps := [(lit "host", [lit "1"; lit "4K"]); (lit "device", [lit "a:b"])] in
  print_map ps = lit "host:1,4K;device:" ++ [dquote] ++ lit "a:b" ++ [dquote] ∧
  ∃ m, getenv_to_map true false false (Some (print_map ps)) = Ret (Some m) ∧
       map_sorted m ∧ ∀ k, map_find k m = map_find k ps.
Proof.
  intros ps. split; [by vm_compute|]. apply (getenv_to_map_roundtrip true false ps).
  - done.
  - unfold ps, pair_ok, value_ok.
    repeat (apply Forall_cons; split); try apply Forall_nil; repeat split; try done;
      simpl; rewrite ?Forall_cons, ?Forall_nil; vm_compute; set_solver.
  - unfold ps. simpl. apply NoDup_cons; split; [|apply NoDup_singleton].
    intros H. apply list_elem_of_singleton in H. done.
Defined.

End EnvProps.

(** ** Properties of the helpers *)
Module UtilProps.
Import Util.
Local Open Scope Z_scope.

Lemma mul_overflow_step a b : 0 < a → 0 <= b → (b >? SIZE_MAX / a) = (SIZE_MAX <? a * b).
Proof.
  intros Ha Hb. rewrite Z.gtb_ltb. apply eq_true_iff_eq. rewrite !Z.ltb_lt.
  pose proof (Z.div_mod SIZE_MAX a ltac:(lia)). pose proof (Z.mod_pos_bound SIZE_MAX a Ha).
  split; intros; nia.
Qed.

(** [multiplyWithOverflowCheck] returns the exact product of three [size_t]
    values when it is representable and [SIZE_MAX] when it is not, and the
    branch compiled with MSVC, which tests by division, computes the same. *)
Theorem multiplyWithOverflowCheck_spec a b c :
  in_u64 a → in_u64 b → in_u64 c →
  multiplyWithOverflowCheck a b c =
    (if decide (in_u64 (a * b * c)) then a * b * c else SIZE_MAX) ∧
  multiplyWithOverflowCheck_msvc a b c = multiplyWithOverflowCheck a b c.
Proof.
  unfold in_u64. intros Ha Hb Hc. unfold multiplyWithOverflowCheck, multiplyWithOverflowCheck_msvc.
  destruct ((a =? 0) || (b =? 0) || (c =? 0)) eqn:Hz.
  { assert (a * b * c = 0) as -> by (rewrite !orb_true_iff, !Z.eqb_eq in Hz; nia).
    by rewrite decide_True by lia. }
  bool_to_prop. rewrite mul_overflow_step by lia. cbn [builtin_mul_overflow].
  destruct (SIZE_MAX <? a * b) eqn:Eab; bool_to_prop; unfold SIZE_MAX in *.
  { rewrite decide_False by nia. done. }
  rewrite (u64_small (a * b)) by (unfold in_u64; nia).
  rewrite mul_overflow_step by nia. unfold SIZE_MAX.
  destruct (2 ^ 64 - 1 <? a * b * c) eqn:Eabc; bool_to_prop.
  { by rewrite decide_False by lia. }
  rewrite u64_small by (unfold in_u64; nia). by rewrite decide_True by nia.
Qed.

Lemma multiplyWithOverflowCheck_spec_witness :
  multiplyWithOverflowCheck (2 ^ 32) (2 ^ 31) 2 = SIZE_MAX ∧
  multiplyWithOverflowCheck_msvc (2 ^ 32) (2 ^ 31) 2 = SIZE_MAX ∧
  multiplyWithOverflowCheck (2 ^ 32) (2 ^ 31) 1 = 2 ^ 63.
Proof.
  destruct (multiplyWithOverflowCheck_spec (2 ^ 32) (2 ^ 31) 2) as [E1 E2];
    [unfold in_u64; lia..|].
  split; [|split].
  - rewrite E1. by vm_compute.
  - rewrite E2, E1. by vm_compute.
  - by vm_compute.
Defined.

(** The two pieces of a metadata name put it together again, and the second
    starts at the last '@'. *)
Lemma splitMetadataName_app s : let '(a, b) := splitMetadataName s in a ++ b = s.
Proof.
  unfold splitMetadataName. destruct (rfind_char _ _) as [p|] eqn:E; [|apply app_nil_r].
  unfold substr. rewrite drop_0, (take_ge (drop p s)) by (rewrite length_drop; lia).
  apply take_drop.
Qed.

(** Only separators are added. *)
Lemma groupDigits_loop_digits n i (ds : cstr) :
  squote ∉ ds → filter (λ c, c ≠ squote) (groupDigits_loop n i ds) = ds.
Proof.
  revert i. induction ds as [|c ds IH]; intros i; [done|]. intros [Hc H]%not_elem_of_cons.
  cbn [groupDigits_loop]. rewrite filter_cons_True by done. f_equal. rewrite filter_app, IH by done.
  by case_match.
Qed.

Example groupDigits_example : groupDigits (-1234567) = lit "-1'234'567".
Proof. by vm_compute. Qed.

End UtilProps.

(** ** Properties of the singleton *)
Module RcProps.
Import Rc.
Local Open Scope Z_scope.

(** No object is destroyed twice, the current one is alive, and a positive
    count implies that there is one. *)
Record inv (rc : t) : Prop := {
  inv_count : in_u64 (refcount rc);
  inv_ptr : 0 < refcount rc → is_Some (ptr rc);
  inv_nodup : NoDup (deleted rc ++ option_list (ptr rc));
  inv_fresh : ∀ p, p ∈ deleted rc ++ option_list (ptr rc) → (p < next rc)%nat;
}.

Lemma inv_init : inv init.
Proof. split; simpl; [unfold in_u64; lia|lia|constructor|by intros ? ?%not_elem_of_nil]. Qed.

Lemma inv_get_or_create b rc : inv rc → inv (get_or_create b rc).2.
Proof.
  intros [Hc Hp Hn Hf]. unfold get_or_create.
  assert (in_u64 (if b then u64 (refcount rc + 1) else refcount rc)) by (destruct b; auto with ur_int).
  destruct (ptr rc) as [p|]; split; simpl in *; eauto; rewrite ?app_nil_r in *.
  - apply NoDup_app. split_and!; [done| |apply NoDup_singleton].
    intros p Hin ->%list_elem_of_singleton. apply Hf in Hin. lia.
  - intros p [Hin|Hin%list_elem_of_singleton]%elem_of_app; [apply Hf in Hin; lia|lia].
Qed.

Lemma inv_release rc : inv rc → inv (release rc).2.
Proof.
  intros [Hc Hp Hn Hf]. unfold release, in_u64 in *.
  repeat case_match; bool_to_prop; split; simpl; rewrite ?app_nil_r; unfold in_u64; auto with lia.
Qed.

Lemma inv_step rc rc' : inv rc → step rc rc' → inv rc'.
Proof.
  intros Hi []; [by apply inv_get_or_create| |by apply inv_release|].
  - unfold get_direct. case_match; [done|]. by apply inv_get_or_create.
  - destruct Hi as [Hc Hp Hn Hf]. split; simpl; rewrite ?app_nil_r; auto; [unfold in_u64; lia|lia].
Qed.

(** C12: safety of the reference-counted loader context: after any interleaving
    of [get], [get_direct], [release] and [forceDelete] by any number of
    threads, no object has been destroyed twice, the object a caller gets is
    never one that has been destroyed, and [release] never hands its deleter a
    null pointer: the last reference destroys exactly the current object. *)
Theorem AtomicSingleton_safe rc :
  rtc step init rc →
  NoDup (deleted rc) ∧ (get rc).1 ∉ deleted rc ∧ ptr (get rc).2 = Some (get rc).1 ∧
  (0 < refcount rc →
     ∃ p, ptr rc = Some p ∧ (release rc).1 = 0 ∧
       (refcount rc = 1 → ptr (release rc).2 = None ∧ deleted (release rc).2 = deleted rc ++ [p])
       ∧ (1 < refcount rc → ptr (release rc).2 = Some p ∧ deleted (release rc).2 = deleted rc)).
Proof.
  intros Hr. assert (inv rc) as [Hc Hp Hn Hf]
    by (eapply rtc_invariant; [apply inv_step|done|apply inv_init]).
  split_and!.
  - by apply NoDup_app in Hn as [? _].
  - unfold get, get_or_create. destruct (ptr rc) as [p|] eqn:E; simpl in *.
    + apply NoDup_app in Hn as (_ & Hn & _). intros Hin. apply (Hn _ Hin). set_solver.
    + intros Hin. specialize (Hf (next rc)). rewrite app_nil_r in Hf. apply Hf in Hin. lia.
  - unfold get, get_or_create. by destruct (ptr rc).
  - intros Hpos. destruct (Hp Hpos) as [p E]. exists p. split; [done|].
    unfold release. destruct (refcount rc <=? 0) eqn:H0; bool_to_prop; [lia|].
    destruct (refcount rc - 1 =? 0) eqn:H1; bool_to_prop; simpl; rewrite ?E;
      split_and!; try done; lia.
Qed.

Lemma AtomicSingleton_safe_witness :
  let rc := mk (Some 1%nat) 1 2 [0%nat] in
  rtc step init rc ∧ (get rc).1 ∉ deleted rc ∧ deleted (release rc).2 = [0; 1]%nat.
Proof.
  set (rc := mk (Some 1%nat) 1 2 [0%nat]). intros rc'. unfold rc'. clear rc'.
  assert (rtc step init rc) as Hr.
  { eapply rtc_l; [apply step_get|]. eapply rtc_l; [apply step_release|].
    eapply rtc_l; [apply step_get|]. apply rtc_refl. }
  destruct (AtomicSingleton_safe rc Hr) as (_ & H1 & _ & H2).
  split; [done|]. split; [done|]. destruct H2 as (p & E & _ & H & _); [simpl; lia|].
  injection E as <-. by destruct (H eq_refl) as [_ ->].
Defined.

End RcProps.
