(* ===== verification/DeviceSelector.v ===== *)
(** * Device selection: [urDeviceGetSelected] (source/loader/ur_lib.cpp)

    [ONEAPI_DEVICE_SELECTOR] is parsed into accept and discard filters, the
    devices of a platform are enumerated down to sub-sub-devices through the
    adapter's dispatch table (class [DeviceDdi], the code behind it being the
    adapter that happens to be loaded), discard filters are applied, and accept
    filters pick what is left, each device at most once.  [Select] is the code,
    [SelectSpec] the declarative selection it implements. *)
From stdpp Require Import base numbers list strings sorting sets.
From Stdlib Require Import Ascii.
From S2P Require Import Prelude CString UrUtil.
Local Open Scope Z_scope.

(** ** The dispatch table of the adapter

    Handles are numbers, 0 the null handle; [None] is any result other than
    [UR_RESULT_SUCCESS].  A query for [n] handles returns the ones it wrote. *)
Class DeviceDdi := {
  urPlatformGetInfo_backend : Z → option Z;
  urPlatformGetInfo_adapter : Z → option Z;
  urPlatformGet_count : Z → option Z;
  urPlatformGet : Z → Z → option (list Z);
  urDeviceGet_count : Z → option Z;
  urDeviceGet : Z → Z → option (list Z);
  urDeviceGetInfo_type : Z → option Z;
  urDevicePartition_count : Z → option Z;
  urDevicePartition : Z → Z → option (list Z);
}.

Module Select.
Import Env.

Definition UR_BACKEND_UNKNOWN := 0.
Definition UR_BACKEND_LEVEL_ZERO := 1.
Definition UR_BACKEND_OPENCL := 2.
Definition UR_BACKEND_CUDA := 3.
Definition UR_BACKEND_HIP := 4.
Definition UR_BACKEND_NATIVE_CPU := 5.
Definition UR_BACKEND_OFFLOAD := 256.

Definition UR_DEVICE_TYPE_DEFAULT := 1.
Definition UR_DEVICE_TYPE_ALL := 2.
Definition UR_DEVICE_TYPE_GPU := 3.
Definition UR_DEVICE_TYPE_CPU := 4.
Definition UR_DEVICE_TYPE_FPGA := 5.
Definition UR_DEVICE_TYPE_MCA := 6.
Definition UR_DEVICE_TYPE_VPU := 7.
Definition UR_DEVICE_TYPE_CUSTOM := 8.

Definition adapters : list (Z * cstr) :=
  [(UR_BACKEND_UNKNOWN, lit "*"); (UR_BACKEND_LEVEL_ZERO, lit "level_zero");
   (UR_BACKEND_OPENCL, lit "opencl"); (UR_BACKEND_CUDA, lit "cuda");
   (UR_BACKEND_HIP, lit "hip"); (UR_BACKEND_NATIVE_CPU, lit "native_cpu");
   (UR_BACKEND_OFFLOAD, lit "offload")].

(** Argument checks, in the order of the code; [None] passes. *)
Definition check_args (hPlatform DeviceType NumEntries : Z) (phDevices pNumDevices : bool)
    : option ur_result_t :=
  if hPlatform =? 0 then Some UR_RESULT_ERROR_INVALID_NULL_HANDLE else
  if (0 <? NumEntries) && negb phDevices then Some UR_RESULT_ERROR_INVALID_NULL_POINTER else
  if (NumEntries =? 0) && negb pNumDevices then Some UR_RESULT_ERROR_INVALID_SIZE else
  if bool_decide (DeviceType ∈ [UR_DEVICE_TYPE_ALL; UR_DEVICE_TYPE_GPU; UR_DEVICE_TYPE_DEFAULT;
       UR_DEVICE_TYPE_CPU; UR_DEVICE_TYPE_FPGA; UR_DEVICE_TYPE_MCA; UR_DEVICE_TYPE_CUSTOM])
  then None else Some UR_RESULT_ERROR_INVALID_ENUMERATION.

Inductive DevicePartLevel := ROOT | SUB | SUBSUB.
#[export] Instance DevicePartLevel_eq_dec : EqDecision DevicePartLevel.
Proof. solve_decision. Defined.

(** [DeviceIdTypeALL] is [ULONG_MAX]. *)
Definition DeviceIdTypeALL : Z := 2 ^ 64 - 1.

Record DeviceSpec := {
  level : DevicePartLevel; hwType : Z; rootId : Z; subId : Z; subsubId : Z; urDeviceHandle : Z }.

Definition getRootHardwareType (input : cstr) : Z :=
  let lowerInput := tolower <$> input in
  if bool_decide (lowerInput = lit "cpu") then UR_DEVICE_TYPE_CPU else
  if bool_decide (lowerInput = lit "gpu") then UR_DEVICE_TYPE_GPU else
  if bool_decide (lowerInput = lit "fpga") then UR_DEVICE_TYPE_FPGA else UR_DEVICE_TYPE_ALL.

Definition getDeviceId (input : cstr) : outcome Z :=
  if only_digits input then stoul_digits input else Ret DeviceIdTypeALL.

(** ** Filter strings *)

(** The position loop that looks for a star-dot that does not start
    star-dot-star. *)
Fixpoint bad_wildcard_loop (fuel : nat) (s : cstr) (pos : nat) : outcome bool :=
  match fuel with
  | O => Undefined
  | S fuel =>
      match find_str_from (lit "*.") s pos with
      | None => Ret false
      | Some pos =>
          if bool_decide (substr s pos 3 = lit "*.*") then bad_wildcard_loop fuel s (pos + 2)
          else Ret true
      end
  end.
Definition bad_wildcard (s : cstr) : outcome bool := bad_wildcard_loop (S (length s)) s 0.

Fixpoint find_if {A} (p : A → outcome bool) (l : list A) : outcome bool :=
  match l with
  | [] => Ret false
  | x :: l => b ← p x; if b : bool then Ret true else find_if p l
  end.

(** [root], [root.sub] or [root.sub.subsub]. *)
Definition parse_filter (filterString : cstr) : outcome DeviceSpec :=
  match find_char "." filterString with
  | Some locationDot1 =>
      let firstPart := substr filterString 0 locationDot1 in
      let hardwareType := getRootHardwareType firstPart in
      firstDeviceId ← getDeviceId firstPart;
      let locationDot2 := find_from "." filterString (S locationDot1) in
      let secondPart := substr filterString (S locationDot1)
        (match locationDot2 with
         | None => length filterString
         | Some locationDot2 => locationDot2 - locationDot1 end)%nat in
      secondDeviceId ← getDeviceId secondPart;
      match locationDot2 with
      | Some locationDot2 =>
          let thirdPart := drop (S locationDot2) filterString in
          thirdDeviceId ← getDeviceId thirdPart;
          Ret {| level := SUBSUB; hwType := hardwareType; rootId := firstDeviceId;
                 subId := secondDeviceId; subsubId := thirdDeviceId; urDeviceHandle := 0 |}
      | None =>
          Ret {| level := SUB; hwType := hardwareType; rootId := firstDeviceId;
                 subId := secondDeviceId; subsubId := 0; urDeviceHandle := 0 |}
      end
  | None =>
      let hardwareType := getRootHardwareType filterString in
      firstDeviceId ← getDeviceId filterString;
      Ret {| level := ROOT; hwType := hardwareType; rootId := firstDeviceId;
             subId := 0; subsubId := 0; urDeviceHandle := 0 |}
  end.

Record Filters := { acceptDeviceList : list DeviceSpec; discardDeviceList : list DeviceSpec;
                    deviceIdsInUse : bool }.

Definition push_filter (discard : bool) (fs : Filters) (spec : DeviceSpec) : Filters :=
  let used := deviceIdsInUse fs || negb (rootId spec =? DeviceIdTypeALL) in
  if discard
  then {| acceptDeviceList := acceptDeviceList fs;
          discardDeviceList := discardDeviceList fs ++ [spec]; deviceIdsInUse := used |}
  else {| acceptDeviceList := acceptDeviceList fs ++ [spec];
          discardDeviceList := discardDeviceList fs; deviceIdsInUse := used |}.

Fixpoint push_filters (discard : bool) (fs : Filters) (filterStrings : list cstr) : outcome Filters :=
  match filterStrings with
  | [] => Ret fs
  | s :: ss => spec ← parse_filter s; push_filters discard (push_filter discard fs spec) ss
  end.

(** What the loop does with one term, before its filter strings are parsed:
    return an error, skip the term, or parse it. *)
Inductive term_action := TermError (r : ur_result_t) | TermSkip | TermParse (discard : bool).

Definition check_backend (platformBackend : Z) (backend : cstr) : outcome term_action :=
  match backend with
  | [] => Ret TermSkip
  | c :: rest =>
      let discard := bool_decide (c = "!"%char) in
      match if discard then rest else backend with
      | [] => Undefined (* backend.front() of an empty string *)
      | (c :: _) as backend =>
          if bool_decide (c = "*"%char) then Ret (TermParse discard) else
          match list_find (λ p, p.2 = backend) adapters with
          | None => Ret (TermError UR_RESULT_ERROR_INVALID_VALUE)
          | Some (_, p) => if p.1 =? platformBackend then Ret (TermParse discard) else Ret TermSkip
          end
      end
  end.

Definition check_filter_strings (discard : bool) (ss : list cstr) : outcome term_action :=
  if bool_decide (ss = []) then Ret (TermError UR_RESULT_ERROR_INVALID_VALUE) else
  if existsb is_empty ss then Ret TermSkip else
  if existsb (λ s, 2 <? Z.of_nat (count_char "." s)) ss
  then Ret (TermError UR_RESULT_ERROR_INVALID_VALUE) else
  bad ← find_if bad_wildcard ss;
  Ret (if bad : bool then TermError UR_RESULT_ERROR_INVALID_VALUE else TermParse discard).

Definition parse_term (platformBackend : Z) (fs : Filters) (term : cstr * list cstr)
    : outcome (ur_result_t + Filters) :=
  a ← check_backend platformBackend term.1;
  a ← (match a with TermParse discard => check_filter_strings discard term.2 | a => Ret a end);
  match a with
  | TermError r => Ret (inl r)
  | TermSkip => Ret (inr fs)
  | TermParse discard => inr <$> push_filters discard fs term.2
  end.

Fixpoint parse_terms (platformBackend : Z) (fs : Filters) (mapODS : EnvVarMap)
    : outcome (ur_result_t + Filters) :=
  match mapODS with
  | [] => Ret (inr fs)
  | t :: ts =>
      r ← parse_term platformBackend fs t;
      match r with inl e => Ret (inl e) | inr fs => parse_terms platformBackend fs ts end
  end.

Definition no_filters : Filters :=
  {| acceptDeviceList := []; discardDeviceList := []; deviceIdsInUse := false |}.
Definition accept_all : DeviceSpec :=
  {| level := ROOT; hwType := UR_DEVICE_TYPE_ALL; rootId := DeviceIdTypeALL;
     subId := 0; subsubId := 0; urDeviceHandle := 0 |}.

(** ** Matching and selecting *)

Definition ApplyFilter (filter device : DeviceSpec) : bool :=
  if rootId filter =? DeviceIdTypeALL then
    (hwType filter =? hwType device) || (hwType filter =? UR_DEVICE_TYPE_ALL)
  else if negb (rootId filter =? rootId device) then false
  else if bool_decide (level filter = ROOT) then true
  else if subId filter =? DeviceIdTypeALL then true
  else if negb (subId filter =? subId device) then false
  else if bool_decide (level filter = SUB) then true
  else if subsubId filter =? DeviceIdTypeALL then true
  else subsubId filter =? subsubId device.

Record Devices := { rootDevices : list DeviceSpec; subDevices : list DeviceSpec;
                    subSubDevices : list DeviceSpec }.

Definition at_level (l : DevicePartLevel) (d : Devices) : list DeviceSpec :=
  match l with ROOT => rootDevices d | SUB => subDevices d | SUBSUB => subSubDevices d end.
Definition set_level (l : DevicePartLevel) (v : list DeviceSpec) (d : Devices) : Devices :=
  match l with
  | ROOT => {| rootDevices := v; subDevices := subDevices d; subSubDevices := subSubDevices d |}
  | SUB => {| rootDevices := rootDevices d; subDevices := v; subSubDevices := subSubDevices d |}
  | SUBSUB => {| rootDevices := rootDevices d; subDevices := subDevices d; subSubDevices := v |}
  end.

(** [v.erase(std::remove_if(v.begin(), v.end(), p), v.end())] *)
Definition erase_if (p : DeviceSpec → bool) (v : list DeviceSpec) : list DeviceSpec :=
  filter (λ d, p d = false) v.

Definition apply_discard (d : Devices) (discard : DeviceSpec) : Devices :=
  set_level (level discard) (erase_if (ApplyFilter discard) (at_level (level discard) d)) d.

(** The predicate of the accept pass also pushes the handle it matches. *)
Definition apply_accept (st : Devices * list Z) (accept : DeviceSpec) : Devices * list Z :=
  let '(d, selectedDevices) := st in
  let v := at_level (level accept) d in
  (set_level (level accept) (erase_if (ApplyFilter accept) v) d,
   selectedDevices ++ (urDeviceHandle <$> filter (λ x, ApplyFilter accept x = true) v)).

Definition select_devices (fs : Filters) (d : Devices) : list Z :=
  (foldl apply_accept (foldl apply_discard d (discardDeviceList fs), []) (acceptDeviceList fs)).2.

(** ** Enumeration *)

(** A vector of [n] null handles into which a query wrote [l]. *)
Definition handle_vector (n : Z) (l : list Z) : list Z :=
  take (Z.to_nat n) (l ++ replicate (Z.to_nat n) 0).

(** [std::transform] with a counter, from [id] on. *)
Fixpoint number_devices (mk : Z → Z → DeviceSpec) (id : Z) (handles : list Z) : list DeviceSpec :=
  match handles with
  | [] => []
  | h :: hs => mk id h :: number_devices mk (u64 (id + 1)) hs
  end.

Section enumerate.
Context `{DeviceDdi}.

(** The devices of the platforms listed before [hPlatform]. *)
Fixpoint count_earlier (hPlatform : Z) (platforms : list Z) (startIdCount : Z) : ur_result_t + Z :=
  match platforms with
  | [] => inr startIdCount
  | p :: ps =>
      if p =? hPlatform then inr startIdCount else
      match urDeviceGet_count p with
      | None => inl UR_RESULT_ERROR_INVALID_PLATFORM
      | Some n => count_earlier hPlatform ps (u32 (startIdCount + n))
      end
  end.

Definition get_startIdCount (deviceIdsInUse : bool) (hPlatform : Z) : ur_result_t + Z :=
  if negb deviceIdsInUse then inr 0 else
  match urPlatformGetInfo_adapter hPlatform with
  | None => inl UR_RESULT_ERROR_INVALID_PLATFORM
  | Some adapter =>
      match urPlatformGet_count adapter with
      | None => inl UR_RESULT_ERROR_INVALID_PLATFORM
      | Some n =>
          match urPlatformGet adapter n with
          | None => inl UR_RESULT_ERROR_INVALID_PLATFORM
          | Some l => count_earlier hPlatform (handle_vector n l) 0
          end
      end
  end.

Definition root_spec (id h : Z) : DeviceSpec :=
  {| level := ROOT; hwType := default UR_DEVICE_TYPE_DEFAULT (urDeviceGetInfo_type h);
     rootId := id; subId := DeviceIdTypeALL; subsubId := DeviceIdTypeALL; urDeviceHandle := h |}.

Definition keep_type (DeviceType : Z) (d : DeviceSpec) : bool :=
  (DeviceType =? UR_DEVICE_TYPE_ALL) || (DeviceType =? UR_DEVICE_TYPE_DEFAULT)
  || (DeviceType =? hwType d).

Definition get_roots (deviceIdsInUse : bool) (hPlatform DeviceType : Z)
    : ur_result_t + list DeviceSpec :=
  match urDeviceGet_count hPlatform with
  | None => inl UR_RESULT_ERROR_DEVICE_NOT_FOUND
  | Some n =>
      match urDeviceGet hPlatform n with
      | None => inl UR_RESULT_ERROR_DEVICE_NOT_FOUND
      | Some l =>
          match get_startIdCount deviceIdsInUse hPlatform with
          | inl r => inl r
          | inr start =>
              inr (erase_if (λ d, negb (keep_type DeviceType d))
                     (number_devices root_spec start (handle_vector n l)))
          end
      end
  end.

(** Partitions [h]; the error codes of the lambdas passed to [std::for_each]
    are dropped, so a device that cannot be partitioned contributes nothing. *)
Definition partition (h : Z) : list Z :=
  match urDevicePartition_count h with
  | None => []
  | Some n => match urDevicePartition h n with None => [] | Some l => handle_vector n l end
  end.

Definition sub_specs (device : DeviceSpec) : list DeviceSpec :=
  number_devices (λ id h,
    {| level := SUB; hwType := hwType device; rootId := rootId device; subId := id;
       subsubId := DeviceIdTypeALL; urDeviceHandle := h |}) 0 (partition (urDeviceHandle device)).

Definition subsub_specs (device : DeviceSpec) : list DeviceSpec :=
  number_devices (λ id h,
    {| level := SUBSUB; hwType := hwType device; rootId := rootId device; subId := subId device;
       subsubId := id; urDeviceHandle := h |}) 0 (partition (urDeviceHandle device)).

Definition enumerate (roots : list DeviceSpec) : Devices :=
  let subs := roots ≫= sub_specs in
  {| rootDevices := roots; subDevices := subs; subSubDevices := subs ≫= subsub_specs |}.

(** ** The entry point *)

(** The return code, the handles written to [phDevices] and the value written
    to [*pNumDevices]. *)
Record output := { ret : ur_result_t; written : list Z; num : option Z }.
Definition fail (r : ur_result_t) : output := {| ret := r; written := []; num := None |}.

Definition write_output (NumEntries : Z) (pNumDevices : bool) (selectedDevices : list Z) : output :=
  let size := Z.of_nat (length selectedDevices) in
  if NumEntries =? 0 then
    {| ret := UR_RESULT_SUCCESS; written := []; num := Some (u32 size) |}
  else
    let numToCopy := Z.min NumEntries size in
    {| ret := if pNumDevices then UR_RESULT_ERROR_ADAPTER_SPECIFIC else UR_RESULT_SUCCESS;
       written := take (Z.to_nat numToCopy) selectedDevices;
       num := if pNumDevices then Some (u32 numToCopy) else None |}.

Definition urDeviceGetSelected (ODS : option cstr) (hPlatform DeviceType NumEntries : Z)
    (phDevices pNumDevices : bool) : outcome output :=
  match check_args hPlatform DeviceType NumEntries phDevices pNumDevices with
  | Some r => Ret (fail r)
  | None =>
  match getenv_to_map false false true ODS with
  | Undefined => Undefined
  | Throw _ => Ret (fail UR_RESULT_ERROR_INVALID_VALUE)
  | Ret maybeEnvVarMap =>
  let mapODS := default [(lit "*", [lit "*"])] maybeEnvVarMap in
  match urPlatformGetInfo_backend hPlatform with
  | None => Ret (fail UR_RESULT_ERROR_INVALID_PLATFORM)
  | Some platformBackend =>
  fs ← parse_terms platformBackend no_filters mapODS;
  match fs with
  | inl r => Ret (fail r)
  | inr fs =>
  if bool_decide (acceptDeviceList fs = []) && bool_decide (discardDeviceList fs = [])
  then Ret (fail UR_RESULT_SUCCESS) else
  let fs := if bool_decide (acceptDeviceList fs = [])
            then push_filter false fs accept_all else fs in
  match get_roots (deviceIdsInUse fs) hPlatform DeviceType with
  | inl r => Ret (fail r)
  | inr roots =>
      Ret (write_output NumEntries pNumDevices (select_devices fs (enumerate roots)))
  end end end end end.

(** The exported function (ur_libapi.cpp) turns exceptions into result codes. *)
Definition api_urDeviceGetSelected (ODS : option cstr) (hPlatform DeviceType NumEntries : Z)
    (phDevices pNumDevices : bool) : outcome output :=
  try_catch (urDeviceGetSelected ODS hPlatform DeviceType NumEntries phDevices pNumDevices)
    (λ e, Ret (fail (Util.exceptionToResult (Some e)))).

End enumerate.
End Select.

(** ** What selection means *)
Module SelectSpec.
Import Select.

Definition matches (f d : DeviceSpec) : Prop := ApplyFilter f d = true.

#[export] Instance matches_dec f d : Decision (matches f d).
Proof. unfold matches. apply _. Defined.

(** Some filter of the list is for this level and matches the device. *)
Definition covered (fs : list DeviceSpec) (l : DevicePartLevel) (d : DeviceSpec) : Prop :=
  ∃ f, f ∈ fs ∧ level f = l ∧ matches f d.

#[export] Instance covered_dec fs l d : Decision (covered fs l d).
Proof.
  destruct (decide (Exists (λ f, level f = l ∧ matches f d) fs)) as [H|H];
    rewrite Exists_exists in H; [by left|by right].
Defined.

(** The devices of level [l] no discard filter removes. *)
Definition kept (fs : Filters) (D : Devices) (l : DevicePartLevel) : list DeviceSpec :=
  filter (λ d, ¬ covered (discardDeviceList fs) l d) (at_level l D).

(** Accept filters in order, each picking the kept devices of its level it
    matches and that no earlier filter of the list [done] has picked. *)
Fixpoint picks (kept : DevicePartLevel → list DeviceSpec) (done accepts : list DeviceSpec)
    : list Z :=
  match accepts with
  | [] => []
  | a :: accepts =>
      (urDeviceHandle <$>
        filter (λ d, ¬ covered done (level a) d ∧ matches a d) (kept (level a)))
      ++ picks kept (done ++ [a]) accepts
  end.

Definition all_devices (D : Devices) : list DeviceSpec :=
  rootDevices D ++ subDevices D ++ subSubDevices D.
Definition handles (D : Devices) : list Z := urDeviceHandle <$> all_devices D.

End SelectSpec.

Module SelectFacts.
Import Select SelectSpec.

Lemma at_level_set_level l l' v D :
  at_level l (set_level l' v D) = if decide (l = l') then v else at_level l D.
Proof. by destruct l, l'. Qed.

Lemma covered_nil l d : ¬ covered [] l d.
Proof. intros (f & H & _). by apply elem_of_nil in H. Qed.

Lemma covered_app fs gs l d : covered (fs ++ gs) l d ↔ covered fs l d ∨ covered gs l d.
Proof. unfold covered. set_solver. Qed.

Lemma covered_singleton f l d : covered [f] l d ↔ level f = l ∧ matches f d.
Proof. unfold covered. set_solver. Qed.

Lemma filter_filter_iff {A} (P Q R : A → Prop) `{∀ x, Decision (P x), ∀ x, Decision (Q x),
    ∀ x, Decision (R x)} (l : list A) :
  (∀ x, R x ↔ P x ∧ Q x) → filter P (filter Q l) = filter R l.
Proof. intros HR. rewrite list_filter_filter. apply list_filter_iff. intros x. by rewrite HR. Qed.

Lemma at_level_discards l ds D :
  at_level l (foldl apply_discard D ds) = filter (λ d, ¬ covered ds l d) (at_level l D).
Proof.
  induction ds as [|f ds IH] using rev_ind.
  - simpl. rewrite filter_all; [done|]. intros. apply covered_nil.
  - rewrite foldl_app. cbn [foldl]. unfold apply_discard at 1. rewrite at_level_set_level.
    case_decide as Hl; subst.
    + unfold erase_if. rewrite IH. apply filter_filter_iff. intros d.
      rewrite covered_app, covered_singleton. unfold matches.
      destruct (ApplyFilter f d); naive_solver.
    + rewrite IH. apply list_filter_iff. intros d. rewrite covered_app, covered_singleton. naive_solver.
Qed.

Lemma accepts_spec K done accepts D sel :
  (∀ l, at_level l D = filter (λ d, ¬ covered done l d) (K l)) →
  (foldl apply_accept (D, sel) accepts).2 = sel ++ picks K done accepts.
Proof.
  revert done D sel. induction accepts as [|a accepts IH]; intros done D sel HD;
    [by rewrite app_nil_r|].
  cbn [foldl picks]. unfold apply_accept at 2. rewrite (IH (done ++ [a])), <-app_assoc.
  - f_equal. f_equal. f_equal. rewrite HD. apply filter_filter_iff. unfold matches. naive_solver.
  - intros l. rewrite at_level_set_level. case_decide; subst.
    + unfold erase_if. rewrite HD. apply filter_filter_iff. intros d.
      rewrite covered_app, covered_singleton. unfold matches.
      destruct (ApplyFilter a d); naive_solver.
    + rewrite HD. apply list_filter_iff. intros d. rewrite covered_app, covered_singleton.
      naive_solver.
Qed.

Lemma select_devices_picks fs D : select_devices fs D = picks (kept fs D) [] (acceptDeviceList fs).
Proof.
  unfold select_devices. rewrite (accepts_spec (kept fs D) []); [done|].
  intros l. rewrite at_level_discards. symmetry. apply filter_all. intros. apply covered_nil.
Qed.

Lemma elem_of_picks K done accepts h :
  h ∈ picks K done accepts ↔
  ∃ l d, d ∈ K l ∧ h = urDeviceHandle d ∧ covered accepts l d ∧ ¬ covered done l d.
Proof.
  revert done. induction accepts as [|a accepts IH]; intros done; cbn [picks].
  - split; [by intros ?%elem_of_nil|]. intros (l & d & _ & _ & Hc & _). by apply covered_nil in Hc.
  - rewrite elem_of_app, IH, list_elem_of_fmap.
    setoid_rewrite list_elem_of_filter. setoid_rewrite covered_app.
    setoid_rewrite covered_singleton.
    assert (∀ l d, covered (a :: accepts) l d ↔ (level a = l ∧ matches a d) ∨ covered accepts l d)
      as Hc by (intros; rewrite <-covered_singleton, <-covered_app; done).
    setoid_rewrite Hc. split.
    + intros [(d & -> & [? ?] & ?)|(l & d & ?)]; naive_solver.
    + intros (l & d & Hk & -> & [[<- Hm]|Hm] & Hd); [naive_solver|].
      destruct (decide (level a = l ∧ matches a d)) as [[<- ?]|]; naive_solver.
Qed.

Lemma handle_level_unique D l l' d d' :
  NoDup (handles D) → d ∈ at_level l D → d' ∈ at_level l' D →
  urDeviceHandle d = urDeviceHandle d' → l = l' ∧ d = d'.
Proof.
  unfold handles, all_devices. rewrite !fmap_app, !NoDup_app.
  intros (N1 & H1 & N2 & H2 & N3) Hd Hd' He.
  assert (∀ v : list DeviceSpec, NoDup (urDeviceHandle <$> v) → d ∈ v → d' ∈ v → d = d') as Hin.
  { clear -He. induction v as [|x v IH]; [by intros _ ?%elem_of_nil|].
    rewrite fmap_cons, NoDup_cons, !elem_of_cons. intros [Hx Hv] [->|Hd] [->|Hd']; auto; exfalso.
    - apply Hx. rewrite He. by apply list_elem_of_fmap_2.
    - apply Hx. rewrite <-He. by apply list_elem_of_fmap_2. }
  apply (list_elem_of_fmap_2 urDeviceHandle) in Hd as Fd, Hd' as Fd'.
  destruct l, l'; simpl in *; rewrite ?He in *; try (split; [done|eauto]; fail); exfalso; set_solver.
Qed.

Lemma picks_NoDup D K done accepts :
  NoDup (handles D) → (∀ l, K l `sublist_of` at_level l D) → NoDup (picks K done accepts).
Proof.
  intros HD HK. revert done. induction accepts as [|a accepts IH]; intros done; cbn [picks];
    [constructor|].
  apply NoDup_app. split_and!; [| |apply IH].
  - apply NoDup_fmap_filter. eapply sublist_NoDup; [|apply fmap_sublist, HK].
    clear -HD. unfold handles, all_devices in HD. rewrite !fmap_app, !NoDup_app in HD.
    destruct (level a); naive_solver.
  - intros h Hh Hp. apply list_elem_of_fmap in Hh as (d & -> & [[_ Hm] Hd]%list_elem_of_filter).
    apply elem_of_picks in Hp as (l & d' & Hd' & He & _ & Hn).
    destruct (handle_level_unique D (level a) l d d' HD) as [<- <-];
      [by eapply elem_of_sublist|by eapply elem_of_sublist|done|].
    apply Hn, covered_app. right. by apply covered_singleton.
Qed.

End SelectFacts.

(** ** Properties *)
Module SelectProps.
Import Select SelectSpec SelectFacts Env.

(** C24: refinement: the erase-and-collect passes over the device vectors compute
    the declarative selection: accept filters in order, each contributing the
    devices of its own level that it matches, that no discard filter of that
    level matches and that no earlier accept filter has taken.  So a device is
    selected exactly when some accept filter and no discard filter covers it,
    whatever the order of the terms, and no handle is selected twice. *)
Theorem select_devices_spec fs D :
  select_devices fs D = picks (kept fs D) [] (acceptDeviceList fs) ∧
  (∀ h, h ∈ select_devices fs D ↔
     ∃ l d, d ∈ at_level l D ∧ h = urDeviceHandle d ∧
       covered (acceptDeviceList fs) l d ∧ ¬ covered (discardDeviceList fs) l d) ∧
  (NoDup (handles D) → NoDup (select_devices fs D)).
Proof.
  rewrite select_devices_picks. split_and!; [done| |].
  - intros h. rewrite elem_of_picks. unfold kept. setoid_rewrite list_elem_of_filter.
    split.
    + intros (l & d & [? ?] & ? & ? & _). eauto 10.
    + intros (l & d & ? & ? & ? & ?). exists l, d. split_and!; try done. apply covered_nil.
  - intros HD. apply (picks_NoDup D); [done|]. intros l. apply filter_sublist.
Qed.

(** *** Parsing filter strings *)

Definition numeral (s : cstr) : Prop := s ≠ [] ∧ only_digits s = true ∧ digits_value s < 2 ^ 64.

Lemma only_digits_no c s : only_digits s = true → isdigit c = false → c ∉ s.
Proof.
  intros H Hc Hin. unfold only_digits in H. rewrite forallb_forall in H.
  apply list_elem_of_In, H in Hin. congruence.
Qed.

Lemma getDeviceId_numeral s : numeral s → getDeviceId s = Ret (digits_value s).
Proof.
  intros (Hn & Hd & Hv). unfold getDeviceId, stoul_digits. rewrite Hd, decide_False by done.
  assert ((digits_value s <=? SIZE_MAX) = true) as -> by (unfold SIZE_MAX; lia). done.
Qed.

Lemma getRootHardwareType_numeral s : numeral s → getRootHardwareType s = UR_DEVICE_TYPE_ALL.
Proof.
  intros (Hn & Hd & _). destruct s as [|c s]; [done|]. unfold only_digits in Hd. simpl in Hd.
  apply andb_true_iff in Hd as [Hd _]. unfold getRootHardwareType.
  assert (∀ x w, isdigit x = false → tolower <$> c :: s ≠ x :: w) as Hne.
  { intros x w Hx [= Hc _]. unfold tolower in Hc. destruct (isupper c) eqn:Hu; [|congruence].
    unfold isupper, isdigit in *. bool_to_prop. lia. }
  rewrite !bool_decide_eq_false_2; [done|..]; by apply Hne.
Qed.

Lemma parse_filter_root s : numeral s →
  ∃ f, parse_filter s = Ret f ∧ level f = ROOT ∧ rootId f = digits_value s.
Proof.
  intros Hs. unfold parse_filter.
  assert (find_char "." s = None) as ->
    by (apply find_char_None, only_digits_no; [apply Hs|done]).
  rewrite getDeviceId_numeral by done. by eexists.
Qed.

Lemma find_char_numeral s t : numeral s → find_char "." (s ++ "."%char :: t) = Some (length s).
Proof. intros (_ & H & _). apply find_char_app. by apply only_digits_no. Qed.

Lemma drop_S_app {A} (s t : list A) x : drop (S (length s)) (s ++ x :: t) = t.
Proof. rewrite cons_middle, app_assoc. apply drop_app_length'. rewrite length_app. simpl. lia. Qed.

(** what numeric filter strings mean to the parser: [a] names root device
    [a], [a.b] sub-device [b] of it; but in [a.b.c] the middle part is cut one
    character too long, so it is read as a wildcard: the filter matches
    sub-sub-devices of every sub-device of root [a]. *)
Theorem parse_filter_numeric a b c :
  numeral a → numeral b → numeral c →
  parse_filter a = Ret {| level := ROOT; hwType := UR_DEVICE_TYPE_ALL; rootId := digits_value a;
                          subId := 0; subsubId := 0; urDeviceHandle := 0 |} ∧
  parse_filter (a ++ "."%char :: b) =
    Ret {| level := SUB; hwType := UR_DEVICE_TYPE_ALL; rootId := digits_value a;
           subId := digits_value b; subsubId := 0; urDeviceHandle := 0 |} ∧
  ∃ f, parse_filter (a ++ "."%char :: b ++ "."%char :: c) = Ret f ∧ level f = SUBSUB ∧
    subId f = DeviceIdTypeALL ∧ subsubId f = digits_value c ∧
    (digits_value a ≠ DeviceIdTypeALL →
     ∀ d, ApplyFilter f d = true ↔ rootId d = digits_value a).
Proof.
  intros Ha Hb Hc. unfold parse_filter.
  assert (find_char "." a = None) as ->
    by (apply find_char_None, only_digits_no; [apply Ha|done]).
  assert (find_char "." b = None) as Eb
    by (apply find_char_None, only_digits_no; [apply Hb|done]).
  rewrite !find_char_numeral by done. unfold find_from, substr.
  rewrite !drop_S_app, !drop_0, !take_app_length, !getRootHardwareType_numeral,
    !getDeviceId_numeral by done.
  cbn [mbind outcome_bind]. rewrite find_char_numeral, Eb by done. cbn [fmap option_fmap option_map].
  rewrite (take_ge b) by (rewrite length_app; simpl; lia).
  rewrite getDeviceId_numeral by done. split_and!; [done..|].
  replace (S (length a) + length b - length a)%nat with (length b + 1)%nat by lia.
  rewrite take_app_add. change (take 1 _) with ["."%char].
  assert (only_digits (b ++ ["."%char]) = false) as Hf.
  { destruct (only_digits (b ++ _)) eqn:E; [|done].
    apply (only_digits_no "."%char) in E; [set_solver|done]. }
  assert (getDeviceId (b ++ ["."%char]) = Ret DeviceIdTypeALL) as Hs
    by (unfold getDeviceId; by rewrite Hf).
  rewrite Hs. cbn [mbind outcome_bind].
  assert (drop (S (S (length a) + length b)) (a ++ "."%char :: b ++ "."%char :: c) = c) as ->.
  { replace (S (S (length a) + length b)) with (S (length a) + S (length b))%nat by lia.
    by rewrite <-drop_drop, !drop_S_app. }
  rewrite getDeviceId_numeral by done. eexists. split; [done|]. split_and!; [done..|].
  intros Hne d. unfold ApplyFilter. simpl. rewrite (proj2 (Z.eqb_neq _ _) Hne).
  destruct (digits_value a =? rootId d) eqn:E; simpl; bool_to_prop; naive_solver.
Qed.

Lemma parse_filter_numeric_witness :
  (∃ f, parse_filter (lit "1.2.3") = Ret f ∧ subId f = DeviceIdTypeALL) ∧
  parse_filter (lit "1.2") =
    Ret {| level := SUB; hwType := UR_DEVICE_TYPE_ALL; rootId := 1; subId := 2;
           subsubId := 0; urDeviceHandle := 0 |}.
Proof.
  destruct (parse_filter_numeric (lit "1") (lit "2") (lit "3")) as (_ & H2 & f & H3 & _ & H4 & _);
    [by split_and!; vm_compute..|].
  split; [exists f; split; [exact H3|exact H4]|exact H2].
Defined.

(** *** Totality *)

Lemma find_str_from_bound p s pos i :
  p ≠ [] → find_str_from p s pos = Some i → (pos <= i < length s)%nat.
Proof.
  intros Hp. unfold find_str_from. case_match; [done|]. intros (j & Hj & ->)%fmap_Some.
  enough (j < length (drop pos s))%nat by (rewrite length_drop in *; lia).
  clear -Hp Hj. revert j Hj. induction (drop pos s) as [|x l IH]; intros j; cbn [find_str].
  - destruct p; done.
  - case_match; [intros [= <-]; simpl; lia|]. intros (k & Hk & ->)%fmap_Some.
    apply IH in Hk. simpl. lia.
Qed.

Lemma bad_wildcard_total s : ∃ b, bad_wildcard s = Ret b.
Proof.
  unfold bad_wildcard. generalize 0%nat as pos.
  assert (∀ fuel pos, (length s - pos < fuel)%nat → ∃ b, bad_wildcard_loop fuel s pos = Ret b);
    [|intros; eauto with lia].
  induction fuel as [|fuel IH]; intros pos Hf; [lia|]. cbn [bad_wildcard_loop].
  destruct (find_str_from _ s pos) as [i|] eqn:E; [|eauto].
  apply find_str_from_bound in E; [|done]. case_match; [|eauto]. apply IH. lia.
Qed.

Lemma find_if_total {A} (p : A → outcome bool) l :
  (∀ x, ∃ b, p x = Ret b) → ∃ b, find_if p l = Ret b.
Proof.
  intros Hp. induction l as [|x l [b IH]]; simpl; [eauto|].
  destruct (Hp x) as [[] ->]; simpl; eauto.
Qed.

(** A computation that may throw but whose behaviour is defined. *)
Definition defined {A} (m : outcome A) : Prop := m ≠ Undefined.

Lemma defined_bind {A B} (m : outcome A) (f : A → outcome B) :
  defined m → (∀ a, m = Ret a → defined (f a)) → defined (m ≫= f).
Proof. unfold defined. destruct m; simpl; eauto. Qed.

Lemma getDeviceId_defined s : defined (getDeviceId s).
Proof. unfold getDeviceId, stoul_digits, defined. by cases. Qed.

Lemma parse_filter_defined s : defined (parse_filter s).
Proof.
  unfold parse_filter. case_match; repeat (apply defined_bind; [apply getDeviceId_defined|intros ? _]);
    [|done]. case_match; [|done]. by apply defined_bind; [apply getDeviceId_defined|].
Qed.

Lemma push_filters_defined b fs ss : defined (push_filters b fs ss).
Proof.
  revert fs. induction ss as [|s ss IH]; intros fs; [done|].
  apply defined_bind; [apply parse_filter_defined|]. intros. apply IH.
Qed.

Lemma check_filter_strings_defined b ss : defined (check_filter_strings b ss).
Proof.
  unfold check_filter_strings. repeat (case_match; [done|]).
  destruct (find_if_total bad_wildcard ss bad_wildcard_total) as [? ->]. done.
Qed.

Lemma parse_terms_defined be fs m :
  lit "!" ∉ m.*1 → defined (parse_terms be fs m).
Proof.
  revert fs. induction m as [|[k ss] m IH]; intros fs; [done|].
  rewrite fmap_cons, not_elem_of_cons. intros [Hk Hm]. simpl in Hk. cbn [parse_terms].
  apply defined_bind; [|intros [?|?] _; [done|by apply IH]]. unfold parse_term.
  apply defined_bind.
  - unfold check_backend, defined. cbn [fst]. destruct k as [|c k]; [done|].
    destruct (decide (c = "!"%char)) as [->|Hc];
      [rewrite bool_decide_eq_true_2 by done|rewrite bool_decide_eq_false_2 by done].
    + destruct k as [|c k]; [done|]. by repeat case_match.
    + by repeat case_match.
  - intros a _. apply defined_bind.
    + destruct a; [done..|apply check_filter_strings_defined].
    + intros [] _; [done..|]. pose proof (push_filters_defined discard fs ss) as Hp.
      unfold defined in *. simpl. by destruct (push_filters _ _ _).
Qed.

Section total.
Context `{DeviceDdi}.

Lemma write_output_length n b sel :
  0 ≤ n → Z.of_nat (length (written (write_output n b sel))) ≤ n.
Proof. intros. unfold write_output. case_match; bool_to_prop; simpl; [lia|]. rewrite length_take. lia. Qed.

(** totality and buffer bounds of the exported [urDeviceGetSelected]: unless
    the selector has a term whose key is a lone exclamation mark (whose
    backend name is empty, and [backend.front()] has no meaning), the call
    returns a result code, whatever the selector text, the arguments and the
    answers of the adapter, and it never writes more than [NumEntries] handles. *)
Theorem urDeviceGetSelected_total ODS hPlatform DeviceType NumEntries ph pn :
  0 ≤ NumEntries →
  (∀ m, getenv_to_map false false true ODS = Ret (Some m) → lit "!" ∉ m.*1) →
  ∃ out, api_urDeviceGetSelected ODS hPlatform DeviceType NumEntries ph pn = Ret out ∧
    Z.of_nat (length (written out)) ≤ NumEntries.
Proof.
  intros Hn HODS. unfold api_urDeviceGetSelected, urDeviceGetSelected.
  pose proof (EnvProps.getenv_to_map_outcome_defined false false true ODS) as Hdef.
  case_match; [eexists; split; [done|simpl; lia]|].
  destruct (getenv_to_map _ _ _ ODS) as [om| |]; [|eexists; split; [done|simpl; lia]|done].
  case_match; [|eexists; split; [done|simpl; lia]].
  assert (lit "!" ∉ (default [(lit "*", [lit "*"])] om).*1) as Hk.
  { destruct om as [m|]; [by apply HODS|]. intros Hin. apply list_elem_of_singleton in Hin. discriminate Hin. }
  pose proof (parse_terms_defined z no_filters _ Hk) as Hp. unfold defined in Hp.
  destruct (parse_terms _ _ _) as [[r|fs]| |]; simpl; [| |eexists; split; [done|simpl; lia]|done].
  - eexists; split; [done|simpl; lia].
  - case_match; [eexists; split; [done|simpl; lia]|].
    case_match; eexists; (split; [done|]); [simpl; lia|]. by apply write_output_length.
Qed.

(** *** The default selection *)

Lemma number_devices_handles mk id hs :
  (∀ i h, urDeviceHandle (mk i h) = h) → urDeviceHandle <$> number_devices mk id hs = hs.
Proof.
  intros Hmk. revert id. induction hs as [|h hs IH]; intros id; simpl; [done|]. by rewrite Hmk, IH.
Qed.

Lemma number_devices_filter mk (p : DeviceSpec → bool) (P : Z → Prop) `{∀ h, Decision (P h)} id hs :
  (∀ i h, urDeviceHandle (mk i h) = h) → (∀ i h, p (mk i h) = false ↔ P h) →
  urDeviceHandle <$> erase_if p (number_devices mk id hs) = filter P hs.
Proof.
  intros Hmk HP. unfold erase_if. revert id. induction hs as [|h hs IH]; intros id; [done|].
  cbn [number_devices]. rewrite !filter_cons. specialize (HP id h).
  repeat case_decide; try tauto; [|by rewrite IH]. rewrite fmap_cons, Hmk. f_equal. apply IH.
Qed.

Lemma handle_vector_full hs : handle_vector (Z.of_nat (length hs)) hs = hs.
Proof. unfold handle_vector. rewrite Nat2Z.id. apply take_app_length. Qed.

(** Devices of the requested type; ALL and DEFAULT request every device. *)
Definition of_type (T h : Z) : Prop :=
  T = UR_DEVICE_TYPE_ALL ∨ T = UR_DEVICE_TYPE_DEFAULT ∨ urDeviceGetInfo_type h = Some T.
#[local] Instance of_type_dec T h : Decision (of_type T h) := _.

Lemma parse_terms_default be :
  parse_terms be no_filters [(lit "*", [lit "*"])] = Ret (inr (push_filter false no_filters accept_all)).
Proof. reflexivity. Qed.

Lemma select_accept_all D :
  select_devices (push_filter false no_filters accept_all) D = urDeviceHandle <$> rootDevices D.
Proof.
  unfold select_devices, apply_accept. simpl. f_equal. apply filter_all. intros d _.
  unfold ApplyFilter. simpl. apply orb_true_r.
Qed.

(** default behaviour: when the selector variable is unset, a call with
    valid arguments selects the root devices of the requested type, in the
    adapter's order: with [NumEntries = 0] their number is reported, otherwise
    the first [NumEntries] of them are written (and if [pNumDevices] is given
    too, the number written, with the code ADAPTER_SPECIFIC). *)
Theorem urDeviceGetSelected_default be p T N ph pn hs :
  check_args p T N ph pn = None →
  urPlatformGetInfo_backend p = Some be →
  urDeviceGet_count p = Some (Z.of_nat (length hs)) →
  urDeviceGet p (Z.of_nat (length hs)) = Some hs →
  let sel := filter (of_type T) hs in
  api_urDeviceGetSelected None p T N ph pn = Ret
    (if decide (N = 0)
     then {| ret := UR_RESULT_SUCCESS; written := []; num := Some (u32 (Z.of_nat (length sel))) |}
     else {| ret := if pn then UR_RESULT_ERROR_ADAPTER_SPECIFIC else UR_RESULT_SUCCESS;
             written := take (Z.to_nat N) sel;
             num := if pn then Some (u32 (Z.min N (Z.of_nat (length sel)))) else None |}).
Proof.
  intros Hc Hb Hn Hg sel. unfold api_urDeviceGetSelected, urDeviceGetSelected.
  rewrite Hc, Hb. cbn [getenv_to_map ur_getenv default]. rewrite parse_terms_default.
  cbn [mbind outcome_bind]. unfold get_roots. rewrite Hn, Hg, handle_vector_full.
  rewrite bool_decide_eq_false_2 by done. cbn [andb negb deviceIdsInUse push_filter].
  change (get_startIdCount _ p) with (@inr ur_result_t Z 0). cbv iota beta.
  rewrite select_accept_all.
  unfold enumerate. cbn [rootDevices].
  rewrite (number_devices_filter _ _ (of_type T)); [|done|].
  - fold sel. unfold write_output. destruct (decide (N = 0)) as [->|Hne]; [done|].
    rewrite (proj2 (Z.eqb_neq N 0) Hne). unfold try_catch. do 2 f_equal.
    destruct (Z.min_spec N (Z.of_nat (length sel))) as [[_ ->]|[? ->]]; [done|].
    rewrite Nat2Z.id, !take_ge; [done|lia..].
  - intros i h. unfold keep_type, root_spec, of_type. cbn [hwType].
    rewrite negb_false_iff, !orb_true_iff, !Z.eqb_eq. unfold UR_DEVICE_TYPE_DEFAULT.
    destruct (urDeviceGetInfo_type h); simpl; naive_solver.
Qed.

End total.

(** A platform 1 with a CPU (handle 10) and two GPUs (11 and 12), of which the
    first has two sub-devices. *)
Definition two_gpus : DeviceDdi := {|
  urPlatformGetInfo_backend := λ p, if p =? 1 then Some UR_BACKEND_LEVEL_ZERO else None;
  urPlatformGetInfo_adapter := λ _, Some 1;
  urPlatformGet_count := λ _, Some 1;
  urPlatformGet := λ _ n, Some (take (Z.to_nat n) [1]);
  urDeviceGet_count := λ _, Some 3;
  urDeviceGet := λ _ n, Some (take (Z.to_nat n) [10; 11; 12]);
  urDeviceGetInfo_type := λ h, Some (if h =? 10 then UR_DEVICE_TYPE_CPU else UR_DEVICE_TYPE_GPU);
  urDevicePartition_count := λ h, if h =? 11 then Some 2 else Some 0;
  urDevicePartition := λ h n, Some (take (Z.to_nat n) [21; 22]) |}.

Lemma urDeviceGetSelected_default_witness :
  @api_urDeviceGetSelected two_gpus None 1 UR_DEVICE_TYPE_GPU 1 true false =
    Ret {| ret := UR_RESULT_SUCCESS; written := [11]; num := None |}.
Proof.
  rewrite (@urDeviceGetSelected_default two_gpus UR_BACKEND_LEVEL_ZERO _ _ _ _ _ [10; 11; 12]);
    [|reflexivity..]. vm_compute. reflexivity.
Defined.

Lemma urDeviceGetSelected_total_witness :
  let ods := Some (lit "level_zero:1,11111111111111111111111111") in
  ∃ out, @api_urDeviceGetSelected two_gpus ods 1 UR_DEVICE_TYPE_ALL 2 true false = Ret out ∧
    Z.of_nat (length (written out)) ≤ 2 ∧ ret out = UR_RESULT_ERROR_UNKNOWN.
Proof.
  intros ods. destruct (@urDeviceGetSelected_total two_gpus ods 1 UR_DEVICE_TYPE_ALL 2 true false)
    as (out & E & H).
  - done.
  - intros m Hm. vm_compute in Hm. injection Hm as <-. intros Hin.
    apply list_elem_of_singleton in Hin. discriminate Hin.
  - exists out. split; [done|]. split; [done|]. vm_compute in E. by injection E as <-.
Defined.

(** With the variable set to a filter for another backend the call succeeds
    without reporting a number of devices at all. *)
Example other_backend_reports_nothing :
  @api_urDeviceGetSelected two_gpus (Some (lit "cuda:*")) 1 UR_DEVICE_TYPE_ALL 0 false true =
    Ret {| ret := UR_RESULT_SUCCESS; written := []; num := None |}.
Proof. reflexivity. Qed.

Lemma select_devices_spec_witness :
  let D := @enumerate two_gpus (number_devices (@root_spec two_gpus) 0 [10; 11; 12]) in
  NoDup (handles D) ∧
  ∃ fs, parse_terms UR_BACKEND_LEVEL_ZERO no_filters
          [(lit "!*", [lit "2"]); (lit "*", [lit "gpu"; lit "*"; lit "1.*"])] = Ret (inr fs) ∧
    select_devices fs D = [11; 10; 21; 22] ∧ NoDup (select_devices fs D).
Proof.
  intros D. assert (NoDup (handles D)) as HD by (vm_compute; repeat constructor; set_solver).
  split; [exact HD|]. eexists. split; [vm_compute; reflexivity|].
  split; [vm_compute; reflexivity|].
  apply (proj2 (proj2 (select_devices_spec _ _))), HD.
Defined.

End SelectProps.
