(* ===== verification/LoaderLib.v ===== *)
(** * The loader library context (source/loader/ur_lib.cpp, ur_lib.hpp)

    Loader configuration objects, [urLoaderInit] and [urLoaderTearDown] over the
    reference-counted context of [UrUtil.Rc], the one-time initialisation
    ([std::call_once]) and the bring-up and tear-down of the layers.  The store
    of configuration objects is explicit, so a use after the last release is
    visible, and so is the spinlock of the singleton, which an exception thrown
    by the context's constructor leaves locked. *)
From stdpp Require Import base numbers list gmap strings sets.
From Stdlib Require Import Ascii.
From S2P Require Import Prelude CString UrUtil.
Local Open Scope Z_scope.

(** What the loader gets from the environment, from the adapters and from the
    layers: the value of [UR_ENABLE_LAYERS], the result of loading adapters
    (with or without the mock) and of filling the dispatch tables, and the
    number of compiled-in layers with the result of each one's [init]. *)
Class LoaderEnv := {
  env_layers : option cstr;
  loader_init : bool → ur_result_t;
  ddi_init : ur_result_t;
  n_layers : nat;
  layer_init : nat → gset cstr → ur_result_t;
}.

Module Lib.

(** [ur_loader_config_handle_t_] *)
Record config := { enabledLayers : gset cstr; refCount : Z; codeloc : Z * Z; enableMock : bool }.

(** [context_t]: [once] records that [initOnce] has fired. *)
Record context := { once : bool; enabledLayerNames : gset cstr; codelocData : Z * Z }.

Inductive event :=
  | ELoaderInit (mock : bool)
  | EDdiInit
  | ELayerInit (i : nat) (names : gset cstr)
  | ELayerTearDown (i : nat)
  | ELayerDestroy (i : nat)
  | ELoaderDelete
  | EContextDelete.

(** [locked] is the spinlock of the singleton, [trace] the calls the loader
    has made to its parts. *)
Record lib := {
  locked : bool; rc : Rc.t; ctxs : gmap nat context;
  configs : gmap nat config; next_config : nat; trace : list event }.

Definition fresh : lib :=
  {| locked := false; rc := Rc.init; ctxs := ∅; configs := ∅; next_config := 0; trace := [] |}.

Definition set_locked b s : lib := {| locked := b; rc := rc s; ctxs := ctxs s;
  configs := configs s; next_config := next_config s; trace := trace s |}.
Definition set_rc r s : lib := {| locked := locked s; rc := r; ctxs := ctxs s;
  configs := configs s; next_config := next_config s; trace := trace s |}.
Definition set_ctxs c s : lib := {| locked := locked s; rc := rc s; ctxs := c;
  configs := configs s; next_config := next_config s; trace := trace s |}.
Definition set_configs c n s : lib := {| locked := locked s; rc := rc s; ctxs := ctxs s;
  configs := c; next_config := n; trace := trace s |}.
Definition log es s : lib := {| locked := locked s; rc := rc s; ctxs := ctxs s;
  configs := configs s; next_config := next_config s; trace := trace s ++ es |}.

(** A call returns, spins forever on the lock, or touches a freed object. *)
Inductive run (A : Type) := Done (a : A) (s : lib) | Spins | UseAfterFree.
Arguments Done {A}.
Arguments Spins {A}.
Arguments UseAfterFree {A}.

(** ** Configuration objects *)

Definition urLoaderConfigCreate (phLoaderConfig : bool) (s : lib)
    : run (ur_result_t * option nat) :=
  if negb phLoaderConfig then Done (UR_RESULT_ERROR_INVALID_NULL_POINTER, None) s else
  let h := next_config s in
  Done (UR_RESULT_SUCCESS, Some h)
    (set_configs (<[h := {| enabledLayers := ∅; refCount := 1; codeloc := (0, 0);
                            enableMock := false |}]> (configs s)) (S h) s).

(** Every other entry point checks the handle and then dereferences it. *)
Definition with_config (h : option nat) (s : lib) (f : nat → config → run ur_result_t)
    : run ur_result_t :=
  match h with
  | None => Done UR_RESULT_ERROR_INVALID_NULL_HANDLE s
  | Some h => match configs s !! h with None => UseAfterFree | Some c => f h c end
  end.

Definition store_config (h : nat) (c : config) (s : lib) : lib :=
  set_configs (<[h := c]> (configs s)) (next_config s) s.

Definition urLoaderConfigRetain (h : option nat) (s : lib) : run ur_result_t :=
  with_config h s (λ h c,
    Done UR_RESULT_SUCCESS (store_config h
      {| enabledLayers := enabledLayers c; refCount := u32 (refCount c + 1);
         codeloc := codeloc c; enableMock := enableMock c |} s)).

Definition urLoaderConfigRelease (h : option nat) (s : lib) : run ur_result_t :=
  with_config h s (λ h c,
    let r := u32 (refCount c - 1) in
    if r =? 0 then Done UR_RESULT_SUCCESS (set_configs (delete h (configs s)) (next_config s) s)
    else Done UR_RESULT_SUCCESS (store_config h
      {| enabledLayers := enabledLayers c; refCount := r;
         codeloc := codeloc c; enableMock := enableMock c |} s)).

Definition urLoaderConfigSetCodeLocationCallback (h : option nat) (pfnCodeloc pUserData : Z)
    (s : lib) : run ur_result_t :=
  with_config h s (λ h c,
    if pfnCodeloc =? 0 then Done UR_RESULT_ERROR_INVALID_NULL_POINTER s else
    Done UR_RESULT_SUCCESS (store_config h
      {| enabledLayers := enabledLayers c; refCount := refCount c;
         codeloc := (pfnCodeloc, pUserData); enableMock := enableMock c |} s)).

Definition urLoaderConfigSetMockingEnabled (h : option nat) (enable : bool) (s : lib)
    : run ur_result_t :=
  with_config h s (λ h c,
    Done UR_RESULT_SUCCESS (store_config h
      {| enabledLayers := enabledLayers c; refCount := refCount c;
         codeloc := codeloc c; enableMock := enable |} s)).

(** [availableLayers()]: every name followed by a semicolon, the last one
    popped. *)
Definition validation_names : list cstr :=
  [lit "UR_LAYER_FULL_VALIDATION"; lit "UR_LAYER_PARAMETER_VALIDATION";
   lit "UR_LAYER_LEAK_CHECKING"; lit "UR_LAYER_BOUNDS_CHECKING"; lit "UR_LAYER_LIFETIME_VALIDATION"].
Definition sanitizer_names : list cstr :=
  [lit "UR_LAYER_ASAN"; lit "UR_LAYER_MSAN"; lit "UR_LAYER_TSAN"].
Definition join_names (names : list cstr) : cstr :=
  let s := names ≫= (λ n, n ++ [";"%char]) in take (length s - 1) s.
Definition availableLayers (tracing : list cstr) (sanitizer : bool) : cstr :=
  join_names (validation_names ++ tracing ++ (if sanitizer then sanitizer_names else [])).

Definition urLoaderConfigEnableLayer (available : cstr) (h : option nat) (pLayerName : option cstr)
    (s : lib) : run ur_result_t :=
  with_config h s (λ h c,
    match pLayerName with
    | None => Done UR_RESULT_ERROR_INVALID_NULL_POINTER s
    | Some name =>
        match find_str name available with
        | None => Done UR_RESULT_ERROR_LAYER_NOT_PRESENT s
        | Some _ => Done UR_RESULT_SUCCESS (store_config h
            {| enabledLayers := {[name]} ∪ enabledLayers c; refCount := refCount c;
               codeloc := codeloc c; enableMock := enableMock c |} s)
        end
    end).

(** [urLoaderConfigGetInfo]: the bytes written to [pPropValue] (here the text
    or the count) and the value of [*pPropSizeRet]. *)
Inductive config_info := INFO_AVAILABLE_LAYERS | INFO_REFERENCE_COUNT | INFO_OTHER.
Inductive info_value := InfoString (s : cstr) | InfoCount (n : Z).
Definition urLoaderConfigGetInfo (available : cstr) (h : option nat) (propName : config_info)
    (propSize : Z) (pPropValue pPropSizeRet : bool) (s : lib)
    : run (ur_result_t * option info_value * option Z) :=
  match h with
  | None => Done (UR_RESULT_ERROR_INVALID_NULL_HANDLE, None, None) s
  | Some h =>
    if negb pPropValue && negb pPropSizeRet
    then Done (UR_RESULT_ERROR_INVALID_NULL_POINTER, None, None) s else
    match propName with
    | INFO_AVAILABLE_LAYERS =>
        let size := Z.of_nat (length available) + 1 in
        let out := if pPropSizeRet then Some size else None in
        if pPropValue then
          if negb (propSize =? size) then Done (UR_RESULT_ERROR_INVALID_SIZE, None, out) s
          else Done (UR_RESULT_SUCCESS, Some (InfoString available), out) s
        else Done (UR_RESULT_SUCCESS, None, out) s
    | INFO_REFERENCE_COUNT =>
        match configs s !! h with
        | None => UseAfterFree
        | Some c =>
            let out := if pPropSizeRet then Some 4 else None in
            if pPropValue then
              if negb (propSize =? 4) then Done (UR_RESULT_ERROR_INVALID_SIZE, None, out) s
              else Done (UR_RESULT_SUCCESS, Some (InfoCount (refCount c)), out) s
            else Done (UR_RESULT_SUCCESS, None, out) s
        end
    | INFO_OTHER => Done (UR_RESULT_ERROR_INVALID_ENUMERATION, None, None) s
    end
  end.

(** ** The context *)
Section context.
Context `{LoaderEnv}.

(** [context_t::context_t], [parseEnvEnabledLayers] *)
Definition parseEnvEnabledLayers : outcome (gset cstr) :=
  v ← Env.getenv_to_vec env_layers; Ret (list_to_set (default [] v)).

(** [AtomicSingleton::get]: the count is incremented before the constructor
    runs, and the lock is released only if it does not throw. *)
Definition context_get (s : lib) : run (exn + nat) :=
  if locked s then Spins else
  match Rc.ptr (rc s) with
  | Some p => Done (inr p) (set_rc (Rc.get (rc s)).2 s)
  | None =>
      match parseEnvEnabledLayers with
      | Ret names =>
          let '(p, rc') := Rc.get (rc s) in
          Done (inr p) (set_ctxs (<[p := {| once := false; enabledLayerNames := names;
                                            codelocData := (0, 0) |}]> (ctxs s)) (set_rc rc' s))
      | Throw e =>
          Done (inl e) (set_locked true
            (set_rc (Rc.mk None (u64 (Rc.refcount (rc s) + 1)) (Rc.next (rc s)) (Rc.deleted (rc s))) s))
      | Undefined => UseAfterFree
      end
  end.

(** [initLayers]: in order, up to the first failure. *)
Fixpoint initLayers (names : gset cstr) (i n : nat) : ur_result_t * list event :=
  match n with
  | O => (UR_RESULT_SUCCESS, [])
  | S n =>
      let r := layer_init i names in
      if bool_decide (r = UR_RESULT_SUCCESS)
      then let '(r, es) := initLayers names (S i) n in (r, ELayerInit i names :: es)
      else (r, [ELayerInit i names])
  end.

(** [tearDownLayers]: in reverse order. *)
Fixpoint tearDownLayers (n : nat) : list event :=
  match n with O => [] | S n => ELayerTearDown n :: ELayerDestroy n :: tearDownLayers n end.

(** The adapters are loaded, then the dispatch tables filled. *)
Definition init_start (mock : bool) : ur_result_t * list event :=
  let r := loader_init mock in
  if bool_decide (r = UR_RESULT_SUCCESS) then (ddi_init, [ELoaderInit mock; EDdiInit])
  else (r, [ELoaderInit mock]).
Definition init_layers_phase (start : ur_result_t * list event) (names : gset cstr)
    : ur_result_t * list event :=
  if bool_decide (start.1 = UR_RESULT_SUCCESS) && negb (bool_decide (names = ∅))
  then let '(r, es) := initLayers names 0 n_layers in (r, start.2 ++ es)
  else start.

(** [context_t::Init]; [std::set::merge] moves out of the configuration the
    names the context does not have yet. *)
Definition Init (h : option nat) (p : nat) (ctx : context) (s : lib) : run ur_result_t :=
  match (match h with None => Some None | Some h => Some <$> configs s !! h end) with
  | None => UseAfterFree
  | Some c =>
      let mock := match c with Some c => enableMock c | None => false end in
      let start := init_start mock in
      let '(ctx, s) := match h, c with
        | Some h, Some c =>
            ({| once := true; enabledLayerNames := enabledLayerNames ctx ∪ enabledLayers c;
                codelocData := codeloc c |},
             store_config h {| enabledLayers := enabledLayers c ∩ enabledLayerNames ctx;
                               refCount := refCount c; codeloc := codeloc c;
                               enableMock := enableMock c |} s)
        | _, _ => ({| once := true; enabledLayerNames := enabledLayerNames ctx;
                      codelocData := codelocData ctx |}, s)
        end in
      let '(r, es) := init_layers_phase start (enabledLayerNames ctx) in
      Done r (log es (set_ctxs (<[p := ctx]> (ctxs s)) s))
  end.

Definition UR_DEVICE_INIT_FLAGS_MASK : Z := 4294967264.

(** The exported [urLoaderInit]. *)
Definition urLoaderInit (device_flags : Z) (h : option nat) (s : lib) : run ur_result_t :=
  if negb (Z.land UR_DEVICE_INIT_FLAGS_MASK device_flags =? 0)
  then Done UR_RESULT_ERROR_INVALID_ENUMERATION s else
  match context_get s with
  | Spins => Spins
  | UseAfterFree => UseAfterFree
  | Done (inl e) s => Done (Util.exceptionToResult (Some e)) s
  | Done (inr p) s =>
      match ctxs s !! p with
      | None => UseAfterFree
      | Some ctx => if once ctx then Done UR_RESULT_SUCCESS s else Init h p ctx s
      end
  end.

Definition urLoaderTearDown (s : lib) : run ur_result_t :=
  if locked s then Spins else
  let '(ret, rc') := Rc.release (rc s) in
  let s' := set_rc rc' s in
  if ret =? 0 then
    match Rc.ptr (rc s), Rc.ptr rc' with
    | Some p, None => (* the last reference: the deleter runs *)
        Done UR_RESULT_SUCCESS
          (log (tearDownLayers n_layers ++ [ELoaderDelete; EContextDelete])
             (set_ctxs (delete p (ctxs s')) s'))
    | _, _ => Done UR_RESULT_SUCCESS s'
    end
  else Done UR_RESULT_ERROR_UNINITIALIZED s'.

End context.
End Lib.

Module LibFacts.
Import Lib.

Section facts.
Context `{LoaderEnv}.

(** Runs [f] [n] times, as long as it reports success. *)
Fixpoint all_succeed (n : nat) (f : lib → run ur_result_t) (s : lib) : option lib :=
  match n with
  | O => Some s
  | S n => match f s with Done UR_RESULT_SUCCESS s' => all_succeed n f s' | _ => None end
  end.

(** Initialised with [n] references to the context object [p]. *)
Definition up (n : Z) (p : nat) (s : lib) : Prop :=
  locked s = false ∧ Rc.ptr (rc s) = Some p ∧ Rc.refcount (rc s) = n ∧
  ∃ ctx, ctxs s !! p = Some ctx ∧ once ctx = true.

(** No context: never initialised, or torn down as often as initialised. *)
Definition down (s : lib) : Prop :=
  locked s = false ∧ Rc.ptr (rc s) = None ∧ Rc.refcount (rc s) = 0.

Lemma init_again n p h s :
  up n p s → 0 <= n < SIZE_MAX →
  ∃ s', urLoaderInit 0 h s = Done UR_RESULT_SUCCESS s' ∧ up (n + 1) p s' ∧
        trace s' = trace s ∧ configs s' = configs s.
Proof.
  intros (Hl & Hp & Hr & ctx & Hc & Ho) Hn. unfold urLoaderInit, context_get.
  rewrite Hl, Hp. cbn -[Rc.get]. rewrite Hc, Ho. eexists. split; [done|].
  split; [|done]. unfold up, Rc.get, Rc.get_or_create. rewrite Hp. simpl. split_and!; eauto.
  rewrite Hr, u64_small; [done|]. unfold in_u64, SIZE_MAX in *. lia.
Qed.

Lemma teardown_again n p s :
  up n p s → 1 < n →
  ∃ s', urLoaderTearDown s = Done UR_RESULT_SUCCESS s' ∧ up (n - 1) p s' ∧ trace s' = trace s.
Proof.
  intros (Hl & Hp & Hr & ctx & Hc & Ho) Hn. unfold urLoaderTearDown, Rc.release.
  rewrite Hl, Hr. destruct (n <=? 0) eqn:E; bool_to_prop; [lia|].
  destruct (n - 1 =? 0) eqn:E'; bool_to_prop; [lia|]. simpl. rewrite Hp.
  eexists. split; [done|]. split; [|done]. unfold up. simpl. split_and!; eauto.
Qed.

Lemma teardown_last p s :
  up 1 p s →
  ∃ s', urLoaderTearDown s = Done UR_RESULT_SUCCESS s' ∧ down s' ∧ ctxs s' = delete p (ctxs s) ∧
    trace s' = trace s ++ tearDownLayers n_layers ++ [ELoaderDelete; EContextDelete].
Proof.
  intros (Hl & Hp & Hr & ctx & Hc & Ho). unfold urLoaderTearDown, Rc.release.
  rewrite Hl, Hr. simpl. rewrite Hp. eexists. split; [done|]. by split_and!.
Qed.

Lemma teardown_down s :
  down s → ∃ s', urLoaderTearDown s = Done UR_RESULT_ERROR_UNINITIALIZED s' ∧ down s' ∧ trace s' = trace s.
Proof.
  intros (Hl & Hp & Hr). unfold urLoaderTearDown, Rc.release. rewrite Hl, Hr. simpl.
  eexists. split; [done|]. by split_and!.
Qed.

Lemma inits_again k n p h s :
  up n p s → 0 <= n → n + Z.of_nat k <= SIZE_MAX →
  ∃ s', all_succeed k (urLoaderInit 0 h) s = Some s' ∧ up (n + Z.of_nat k) p s' ∧ trace s' = trace s.
Proof.
  revert n s. induction k as [|k IH]; intros n s Hu Hn Hk.
  { exists s. rewrite Z.add_0_r. done. }
  destruct (init_again n p h s Hu) as (s1 & E & Hu1 & Ht & _); [lia|]. cbn [all_succeed]. rewrite E.
  destruct (IH (n + 1) s1 Hu1) as (s2 & E2 & Hu2 & Ht2); [lia..|].
  exists s2. split; [done|]. split; [|congruence].
  replace (n + Z.of_nat (S k)) with (n + 1 + Z.of_nat k) by lia. done.
Qed.

Lemma teardowns_again k n p s :
  up n p s → Z.of_nat k < n →
  ∃ s', all_succeed k urLoaderTearDown s = Some s' ∧ up (n - Z.of_nat k) p s' ∧ trace s' = trace s.
Proof.
  revert n s. induction k as [|k IH]; intros n s Hu Hk.
  { exists s. rewrite Z.sub_0_r. done. }
  destruct (teardown_again n p s Hu) as (s1 & E & Hu1 & Ht); [lia|]. cbn [all_succeed]. rewrite E.
  destruct (IH (n - 1) s1 Hu1) as (s2 & E2 & Hu2 & Ht2); [lia..|].
  exists s2. split; [done|]. split; [|congruence].
  replace (n - Z.of_nat (S k)) with (n - 1 - Z.of_nat k) by lia. done.
Qed.

(** The layers come up in order; all but the last one that was tried did. *)
Lemma initLayers_spec names i n :
  ∃ j, (j <= n)%nat ∧ (initLayers names i n).2 = (λ i, ELayerInit i names) <$> seq i j ∧
    (∀ l, (i <= l)%nat → (S l < i + j)%nat → layer_init l names = UR_RESULT_SUCCESS) ∧
    ((initLayers names i n).1 = UR_RESULT_SUCCESS → j = n).
Proof.
  revert i. induction n as [|n IH]; intros i; simpl; [exists 0%nat; naive_solver lia|].
  destruct (IH (S i)) as (j & Hj & E & Hl & Hr). case_match eqn:Hb; bool_to_prop.
  - destruct (initLayers names (S i) n) as [r es]. simpl in *. exists (S j).
    split_and!; [lia|by rewrite E| |intros; f_equal; auto].
    intros l Hl1 Hl2. destruct (decide (l = i)) as [->|]; [done|]. apply Hl; lia.
  - exists 1%nat. split_and!; [lia|done|intros; lia|done].
Qed.

(** The result of the first [urLoaderInit] and the calls it makes: nothing runs
    after a failure, and the layers only run when some name is enabled. *)
Definition first_run (mock : bool) (names : gset cstr) : ur_result_t * list event :=
  if decide (loader_init mock ≠ UR_RESULT_SUCCESS) then (loader_init mock, [ELoaderInit mock]) else
  if decide (ddi_init ≠ UR_RESULT_SUCCESS ∨ names = ∅) then (ddi_init, [ELoaderInit mock; EDdiInit])
  else ((initLayers names 0 n_layers).1,
        ELoaderInit mock :: EDdiInit :: (initLayers names 0 n_layers).2).

Lemma init_phases mock names : init_layers_phase (init_start mock) names = first_run mock names.
Proof.
  unfold init_layers_phase, init_start, first_run.
  repeat (case_decide || case_bool_decide); simpl in *; try naive_solver.
  by destruct (initLayers names 0 n_layers).
Qed.

Definition config_of (h : option nat) (s : lib) : option (option config) :=
  match h with None => Some None | Some h => Some <$> configs s !! h end.
Definition mock_of (c : option config) : bool := match c with Some c => enableMock c | None => false end.
Definition layers_of (c : option config) : gset cstr :=
  match c with Some c => enabledLayers c | None => ∅ end.

Lemma first_init h c names s :
  down s → parseEnvEnabledLayers = Ret names → config_of h s = Some c →
  let '(r, es) := first_run (mock_of c) (names ∪ layers_of c) in
  ∃ s', urLoaderInit 0 h s = Done r s' ∧ up 1 (Rc.next (rc s)) s' ∧ trace s' = trace s ++ es.
Proof.
  intros (Hl & Hp & Hr) Hn Hc. unfold urLoaderInit, context_get.
  rewrite Hl, Hp, Hn. cbn [Z.land Z.eqb negb]. unfold Rc.get, Rc.get_or_create. rewrite Hp, Hr.
  simpl ctxs. rewrite lookup_insert_eq. cbn [once]. unfold Init. simpl configs.
  fold (config_of h s). rewrite Hc.
  assert (∃ cx sx, match h, c with
    | Some h, Some c => _ | _, _ => _ end = (cx, sx) ∧ enabledLayerNames cx = names ∪ layers_of c ∧
    once cx = true ∧ locked sx = false ∧ trace sx = trace s ∧
    rc sx = Rc.mk (Some (Rc.next (rc s))) 1 (S (Rc.next (rc s))) (Rc.deleted (rc s)))
    as (cx & sx & -> & E1 & E2 & E3 & E4 & E5).
  { destruct h, c; simpl in Hc; try (apply fmap_Some in Hc as (? & ? & ?)); simplify_eq;
      do 2 eexists; (split; [reflexivity|]); split_and!; simpl; try done; set_solver. }
  rewrite E1. unfold mock_of. rewrite init_phases. destruct (first_run _ _) as [r es].
  eexists. split; [done|]. split; [|by simpl; rewrite E4].
  split_and!; simpl; rewrite ?E5; try done. exists cx. by rewrite lookup_insert_eq.
Qed.

End facts.
End LibFacts.

Module LibProps.
Import Lib LibFacts.

Section props.
Context `{LoaderEnv}.

(** C26: life cycle of the loader, with a well-formed UR_ENABLE_LAYERS (a
    malformed one is [malformed_layers_deadlock] below): from a state without a
    context, the first [urLoaderInit] loads adapters, fills the tables and
    brings up the layers (stopping at the first failure, whose code it
    returns); [k] more calls (fewer than 2^64 - 1) report success and do nothing else; [k] calls of [urLoaderTearDown] only
    drop references, and the last one tears the layers down in reverse order,
    each once, then the adapters, then the context; one more call reports
    UNINITIALIZED and leaves a state from which the loader can start again. *)
Theorem loader_lifecycle s h h' c names k :
  down s → parseEnvEnabledLayers = Ret names → config_of h s = Some c →
  Z.of_nat k < SIZE_MAX →
  let '(r, es) := first_run (mock_of c) (names ∪ layers_of c) in
  ∃ s1 s2 s3 s4 s5,
    urLoaderInit 0 h s = Done r s1 ∧ trace s1 = trace s ++ es ∧
    all_succeed k (urLoaderInit 0 h') s1 = Some s2 ∧ trace s2 = trace s1 ∧
    all_succeed k urLoaderTearDown s2 = Some s3 ∧ trace s3 = trace s1 ∧
    urLoaderTearDown s3 = Done UR_RESULT_SUCCESS s4 ∧
    trace s4 = trace s1 ++ tearDownLayers n_layers ++ [ELoaderDelete; EContextDelete] ∧
    urLoaderTearDown s4 = Done UR_RESULT_ERROR_UNINITIALIZED s5 ∧ trace s5 = trace s4 ∧ down s5.
Proof.
  intros Hd Hn Hc Hk. pose proof (first_init h c names s Hd Hn Hc) as Hf.
  destruct (first_run _ _) as [r es]. destruct Hf as (s1 & E1 & U1 & T1).
  destruct (inits_again k 1 _ h' s1 U1) as (s2 & E2 & U2 & T2); [lia..|].
  destruct (teardowns_again k _ _ s2 U2) as (s3 & E3 & U3 & T3); [lia|].
  replace (1 + Z.of_nat k - Z.of_nat k) with 1 in U3 by lia.
  destruct (teardown_last _ s3 U3) as (s4 & E4 & D4 & _ & T4).
  destruct (teardown_down s4 D4) as (s5 & E5 & D5 & T5).
  exists s1, s2, s3, s4, s5. split_and!; (done || congruence).
Qed.

(** a malformed [UR_ENABLE_LAYERS] makes the first [urLoaderInit] return
    UNKNOWN (the exception of the context's constructor), and because the
    constructor ran under the singleton's spinlock, which only its normal
    return releases, every later [urLoaderInit] and [urLoaderTearDown] spins
    forever. *)
Theorem malformed_layers_deadlock s h e :
  down s → Env.getenv_to_vec env_layers = Throw e →
  ∃ s', urLoaderInit 0 h s = Done UR_RESULT_ERROR_UNKNOWN s' ∧
    (∀ h', urLoaderInit 0 h' s' = Spins) ∧ urLoaderTearDown s' = Spins.
Proof.
  intros (Hl & Hp & Hr) He.
  assert (e = std_invalid_argument) as ->.
  { unfold Env.getenv_to_vec in He. destruct (Env.ur_getenv _) as [v|]; [|done].
    destruct (EnvProps.mapM_outcome Env.vec_value std_invalid_argument (getline_all "," v))
      as [E|[k E]]; [|by rewrite E in He; injection He as <-|by rewrite E in He].
    intros x. unfold Env.vec_value. case_match; eauto. }
  unfold urLoaderInit, context_get. rewrite Hl, Hp. unfold parseEnvEnabledLayers. rewrite He.
  eexists. split; [reflexivity|]. done.
Qed.

End props.

(** [urLoaderConfigEnableLayer] on a live configuration accepts a name
    exactly when it is a substring of the joined list of available layers
    (so also the empty name, or a piece of a name), adds it to the set of
    enabled layers, and otherwise reports LAYER_NOT_PRESENT and changes
    nothing. *)
Theorem enableLayer_substring available s h c name :
  configs s !! h = Some c →
  (∃ s', urLoaderConfigEnableLayer available (Some h) (Some name) s = Done UR_RESULT_SUCCESS s' ∧
     (∃ c', configs s' !! h = Some c' ∧ enabledLayers c' = {[name]} ∪ enabledLayers c) ∧
     ∃ l r, available = l ++ name ++ r)
  ∨ (urLoaderConfigEnableLayer available (Some h) (Some name) s =
       Done UR_RESULT_ERROR_LAYER_NOT_PRESENT s ∧ ¬ ∃ l r, available = l ++ name ++ r).
Proof.
  intros Hc. unfold urLoaderConfigEnableLayer, with_config. rewrite Hc.
  pose proof (find_str_is_Some name available) as Hs. destruct (find_str name available) as [i|] eqn:E.
  - left. eexists. split; [done|]. split; [|by apply Hs]. eexists. simpl.
    by rewrite lookup_insert_eq.
  - right. split; [done|]. by intros [? ?]%Hs.
Qed.

(** Witnesses: a loader with two layers, the second of which fails to start. *)
Definition two_layers : LoaderEnv := {|
  env_layers := Some (lit "UR_LAYER_TRACING");
  loader_init := λ _, UR_RESULT_SUCCESS; ddi_init := UR_RESULT_SUCCESS; n_layers := 2;
  layer_init := λ i _, if decide (i = 1%nat) then UR_RESULT_ERROR_LAYER_NOT_PRESENT
                       else UR_RESULT_SUCCESS |}.

Lemma loader_lifecycle_witness :
  let names : gset cstr := {[lit "UR_LAYER_TRACING"]} in
  @parseEnvEnabledLayers two_layers = Ret names ∧
  ∃ s1, @urLoaderInit two_layers 0 None fresh = Done UR_RESULT_ERROR_LAYER_NOT_PRESENT s1 ∧
    trace s1 = [ELoaderInit false; EDdiInit; ELayerInit 0 names; ELayerInit 1 names] ∧
    ∃ s2, @all_succeed 3 (@urLoaderInit two_layers 0 None) s1 = Some s2.
Proof.
  intros names. assert (@parseEnvEnabledLayers two_layers = Ret names) as Hn by (vm_compute; reflexivity).
  split; [exact Hn|].
  pose proof (@loader_lifecycle two_layers fresh None None None names 3) as Hl.
  assert (down fresh) as Hd by (by vm_compute).
  specialize (Hl Hd Hn eq_refl ltac:(unfold SIZE_MAX; lia)).
  replace (first_run _ _) with (UR_RESULT_ERROR_LAYER_NOT_PRESENT,
    [ELoaderInit false; EDdiInit; ELayerInit 0 names; ELayerInit 1 names]) in Hl by (vm_compute; reflexivity).
  destruct Hl as (s1 & s2 & _ & _ & _ & E1 & T1 & E2 & _).
  exists s1. split; [exact E1|]. split; [exact T1|]. exists s2. exact E2.
Defined.

Definition bad_layers : LoaderEnv := {|
  env_layers := Some (lit "UR_LAYER_TRACING,,x");
  loader_init := λ _, UR_RESULT_SUCCESS; ddi_init := UR_RESULT_SUCCESS; n_layers := 2;
  layer_init := λ _ _, UR_RESULT_SUCCESS |}.

Lemma malformed_layers_deadlock_witness :
  ∃ s', @urLoaderInit bad_layers 0 None fresh = Done UR_RESULT_ERROR_UNKNOWN s' ∧
    @urLoaderInit bad_layers 0 None s' = Spins.
Proof.
  destruct (@malformed_layers_deadlock bad_layers fresh None std_invalid_argument)
    as (s' & E & H1 & _); [done|by vm_compute|].
  exists s'. split; [exact E|]. apply H1.
Defined.

Lemma enableLayer_substring_witness :
  let c := {| enabledLayers := ∅; refCount := 1; codeloc := (0, 0); enableMock := false |} in
  let s := set_configs {[0%nat := c]} 1 fresh in
  ∃ s', urLoaderConfigEnableLayer (availableLayers [] false) (Some 0%nat) (Some (lit "LAYER_FULL")) s
        = Done UR_RESULT_SUCCESS s'.
Proof.
  intros c s. destruct (enableLayer_substring (availableLayers [] false) s 0 c (lit "LAYER_FULL"))
    as [(s' & E & _)|[E _]]; [by vm_compute|by exists s'|]. exfalso. by vm_compute in E.
Defined.

(** A second life of the loader with the same configuration object: the first
    one has moved the layer names out of it. *)
Example second_init_loses_layers :
  let c := {| enabledLayers := {[lit "UR_LAYER_ASAN"]}; refCount := 1; codeloc := (0, 0);
              enableMock := false |} in
  let s := set_configs {[0%nat := c]} 1 fresh in
  match @urLoaderInit (Build_LoaderEnv None (λ _, UR_RESULT_SUCCESS) UR_RESULT_SUCCESS 1
          (λ _ _, UR_RESULT_SUCCESS)) 0 (Some 0%nat) s with
  | Done _ s' => enabledLayers <$> configs s' !! 0%nat = Some ∅
  | _ => False
  end.
Proof. by vm_compute. Qed.

End LibProps.
