(* ===== verification/Validation.v ===== *)
(** * The validation layer (source/loader/layers/validation)

    [LeakCheck] is the reference accounting of ur_leak_check.hpp, [Bounds] the
    bounds checks of ur_validation_layer.cpp, [Init] the feature switches of
    the layer's [init].  Handles are numbers; a handle's C++ type is the number
    of its type index. *)
From stdpp Require Import base numbers list gmap sets strings fin_maps fin_map_dom.
From Stdlib Require Import Ascii.
From S2P Require Import Prelude CString LoaderLib.
Local Open Scope Z_scope.

(** ** Reference accounting *)
Module LeakCheck.

Inductive update := CREATE_OR_INCREASE | CREATE | INCREASE | DECREASE.

Inductive message :=
  | AlreadyExists (h : Z)
  | RetainNonexistent (h : Z)
  | ReleaseNonexistent (h : Z)
  | CountChanged (h n : Z)
  | Retained (h n : Z).

(** [counts] maps a handle to its reference count and type. *)
Record ctx := { counts : gmap Z (Z * nat); adapterCount : Z }.
Definition init : ctx := {| counts := ∅; adapterCount := 0 |}.

Definition logInvalidReferences (m : gmap Z (Z * nat)) : list message :=
  (λ e, Retained e.1 e.2.1) <$> map_to_list m.

(** The part of [updateRefCount] after the switch: the entry of [h] has just
    become [(n, ty)]. *)
Definition finish_update (h n : Z) (ty : nat) (adapters : Z) (msgs : list message) (c : ctx)
    : ctx * list message :=
  let m := <[h := (n, ty)]> (counts c) in
  let m := if n =? 0 then delete h m else m in
  let msgs := msgs ++ [CountChanged h n] in
  if adapters =? 0 then ({| counts := ∅; adapterCount := adapters |}, msgs ++ logInvalidReferences m)
  else ({| counts := m; adapterCount := adapters |}, msgs).

Definition updateRefCount (h : Z) (ty : nat) (type : update) (isAdapterHandle : bool) (c : ctx)
    : ctx * list message :=
  match type, counts c !! h with
  | CREATE_OR_INCREASE, None =>
      finish_update h 1 ty (if isAdapterHandle then adapterCount c + 1 else adapterCount c) [] c
  | CREATE_OR_INCREASE, Some (n, t) => finish_update h (n + 1) t (adapterCount c) [] c
  | CREATE, None => finish_update h 1 ty (adapterCount c) [] c
  | CREATE, Some _ => (c, [AlreadyExists h])
  | INCREASE, None => (c, [RetainNonexistent h])
  | INCREASE, Some (n, t) => finish_update h (n + 1) t (adapterCount c) [] c
  | DECREASE, e =>
      let '(n, t) := match e with None => (-1, ty) | Some (n, t) => (n - 1, t) end in
      finish_update h n t
        (if negb (n <? 0) && (n =? 0) && isAdapterHandle then adapterCount c - 1 else adapterCount c)
        (if n <? 0 then [ReleaseNonexistent h] else []) c
  end.

Definition createRefCount h ty := updateRefCount h ty CREATE false.
Definition incrementRefCount h ty isAdapterHandle := updateRefCount h ty INCREASE isAdapterHandle.
Definition decrementRefCount h ty isAdapterHandle := updateRefCount h ty DECREASE isAdapterHandle.
Definition createOrIncrementRefCount h ty isAdapterHandle :=
  updateRefCount h ty CREATE_OR_INCREASE isAdapterHandle.

Definition isReferenceValid (h : Z) (ty : nat) (c : ctx) : bool :=
  match counts c !! h with
  | None => false
  | Some (n, t) => if n <? 1 then false else (t =? ty)%nat
  end.

End LeakCheck.

(** ** Bounds checks *)
Module Bounds.
Local Open Scope ur_scope.

(** The answer of an adapter query: its code and the value it stored. *)
Abbreviation query := (ur_result_t * Z)%type.

(** [RETURN_ON_FAILURE], as compiled without assertions. *)
Definition return_on_failure (r : ur_result_t) (k : ur_result_t) : ur_result_t :=
  if bool_decide (r = UR_RESULT_ERROR_UNSUPPORTED_ENUMERATION) ||
     bool_decide (r = UR_RESULT_ERROR_UNSUPPORTED_FEATURE) then UR_RESULT_SUCCESS
  else if negb (bool_decide (r = UR_RESULT_SUCCESS)) then r else k.

Definition bounds_buffer (mem_size : query) (offset size : Z) : ur_result_t :=
  return_on_failure mem_size.1
    (if mem_size.2 <? size ⊕ offset then UR_RESULT_ERROR_INVALID_SIZE else UR_RESULT_SUCCESS).

Record rect := { x : Z; y : Z; z : Z }.

Definition bounds_rect (mem_size : query) (offset region : rect) : ur_result_t :=
  return_on_failure mem_size.1
    (if (mem_size.2 <=? x offset) || (mem_size.2 <=? y offset) || (mem_size.2 <=? z offset)
     then UR_RESULT_ERROR_INVALID_SIZE
     else if mem_size.2 <? (x region ⊕ x offset) ⊗ (y region ⊕ y offset) ⊗ (z region ⊕ z offset)
     then UR_RESULT_ERROR_INVALID_SIZE else UR_RESULT_SUCCESS).

Definition UR_USM_TYPE_UNKNOWN := 0.

Definition bounds_usm (queue_context usm_type alloc_size : query) (offset size : Z) : ur_result_t :=
  return_on_failure queue_context.1
    (return_on_failure usm_type.1
       (if usm_type.2 =? UR_USM_TYPE_UNKNOWN then UR_RESULT_SUCCESS else
        return_on_failure alloc_size.1
          (if alloc_size.2 <? size ⊕ offset then UR_RESULT_ERROR_INVALID_SIZE
           else UR_RESULT_SUCCESS))).

Definition boundsImage (width height depth : query) (origin region : rect) : ur_result_t :=
  return_on_failure width.1
    (if width.2 <? x region ⊕ x origin then UR_RESULT_ERROR_INVALID_SIZE else
     return_on_failure height.1
       (let h := if height.2 =? 0 then 1 else height.2 in
        if h <? y region ⊕ y origin then UR_RESULT_ERROR_INVALID_SIZE else
        return_on_failure depth.1
          (let d := if depth.2 =? 0 then 1 else depth.2 in
           if d <? z region ⊕ z origin then UR_RESULT_ERROR_INVALID_SIZE
           else UR_RESULT_SUCCESS))).

End Bounds.

(** ** Feature switches *)
Module Init.

Definition nameFullValidation := lit "UR_LAYER_FULL_VALIDATION".
Definition nameParameterValidation := lit "UR_LAYER_PARAMETER_VALIDATION".
Definition nameBoundsChecking := lit "UR_LAYER_BOUNDS_CHECKING".
Definition nameLeakChecking := lit "UR_LAYER_LEAK_CHECKING".
Definition nameLifetimeValidation := lit "UR_LAYER_LIFETIME_VALIDATION".

Record features := {
  enableParameterValidation : bool; enableBoundsChecking : bool;
  enableLeakChecking : bool; enableLifetimeValidation : bool }.

(** The switches, and whether the entry points of the layer are installed in
    the dispatch table. *)
Definition validation_init (enabledLayerNames : gset cstr) : features * bool :=
  let on name := bool_decide (name ∈ enabledLayerNames) in
  let f :=
    if on nameFullValidation
    then {| enableParameterValidation := true; enableBoundsChecking := true;
            enableLeakChecking := true; enableLifetimeValidation := true |}
    else {| enableParameterValidation := on nameParameterValidation;
            enableBoundsChecking := on nameBoundsChecking;
            enableLeakChecking := on nameLeakChecking || on nameLifetimeValidation;
            enableLifetimeValidation := on nameLifetimeValidation |} in
  (f, enableParameterValidation f || enableLeakChecking f || enableLifetimeValidation f).

End Init.

(** ** The accounting a client of the layer expects *)
Module LeakSpec.
Import LeakCheck.

(** What the application does with handles; adapters have type 0. A call of
    [urAdapterGet] or [urDeviceGet] is an operation for each handle it returns. *)
Inductive op :=
  | AdapterGet (h : Z)
  | DeviceGet (h : Z) (ty : nat)
  | Create (h : Z) (ty : nat)
  | Retain (h : Z)
  | Release (h : Z).

Definition is_adapter (t : nat) : bool := (t =? 0)%nat.
Abbreviation refs := (gmap Z (Z * nat)).

Definition adapters (m : refs) : refs := filter (λ e, e.2.2 = 0%nat) m.
Definition nadapters (m : refs) : Z := Z.of_nat (size (adapters m)).

(** One honest operation on the references the application holds, and the
    references it thereby leaks: dropping the last adapter leaks the rest. *)
Inductive step (m : refs) : op → refs → list message → Prop :=
  | step_get_new h :
      m !! h = None → step m (AdapterGet h) (<[h := (1, 0%nat)]> m) []
  | step_get h n :
      m !! h = Some (n, 0%nat) → step m (AdapterGet h) (<[h := (n + 1, 0%nat)]> m) []
  | step_device_new h t :
      m !! h = None → t ≠ 0%nat → 0 < nadapters m → step m (DeviceGet h t) (<[h := (1, t)]> m) []
  | step_device h n t :
      m !! h = Some (n, t) → t ≠ 0%nat → step m (DeviceGet h t) (<[h := (n + 1, t)]> m) []
  | step_create h t :
      m !! h = None → t ≠ 0%nat → 0 < nadapters m → step m (Create h t) (<[h := (1, t)]> m) []
  | step_retain h n t :
      m !! h = Some (n, t) → step m (Retain h) (<[h := (n + 1, t)]> m) []
  | step_release h n t :
      m !! h = Some (n, t) → 1 < n → step m (Release h) (<[h := (n - 1, t)]> m) []
  | step_release_last h t :
      m !! h = Some (1, t) → 0 < nadapters (delete h m) → step m (Release h) (delete h m) []
  | step_release_adapter h :
      m !! h = Some (1, 0%nat) → nadapters (delete h m) = 0 →
      step m (Release h) ∅ (logInvalidReferences (delete h m)).

Inductive steps : refs → list op → refs → list message → Prop :=
  | steps_nil m : steps m [] m []
  | steps_cons m o m' r ops m'' r' :
      step m o m' r → steps m' ops m'' r' → steps m (o :: ops) m'' (r ++ r').

(** The calls the intercepted entry points make. *)
Definition perform (o : op) (c : ctx) : ctx * list message :=
  let ty h := match counts c !! h with Some (_, t) => t | None => 0%nat end in
  match o with
  | AdapterGet h => createOrIncrementRefCount h 0 true c
  | DeviceGet h t => createOrIncrementRefCount h t false c
  | Create h t => createRefCount h t c
  | Retain h => incrementRefCount h (ty h) (is_adapter (ty h)) c
  | Release h => decrementRefCount h (ty h) (is_adapter (ty h)) c
  end.

Fixpoint run (ops : list op) (c : ctx) : ctx * list message :=
  match ops with
  | [] => (c, [])
  | o :: ops => let '(c, ms) := perform o c in let '(c, ms') := run ops c in (c, ms ++ ms')
  end.

(** The messages that report something wrong. *)
Definition is_error (m : message) : bool := match m with CountChanged _ _ => false | _ => true end.
Definition errors (ms : list message) : list message := filter (λ m, is_error m = true) ms.

(** The layer's state represents the references held. *)
Definition rep (m : refs) (c : ctx) : Prop :=
  counts c = m ∧ adapterCount c = nadapters m ∧
  map_Forall (λ _ e, 0 < e.1) m ∧ (nadapters m = 0 → m = ∅).

Lemma errors_app ms ms' : errors (ms ++ ms') = errors ms ++ errors ms'.
Proof. apply filter_app. Qed.

Lemma errors_reports m : errors (logInvalidReferences m) = logInvalidReferences m.
Proof.
  apply filter_all. intros x Hx. unfold logInvalidReferences in Hx.
  by apply list_elem_of_fmap in Hx as (e & -> & _).
Qed.

Lemma nadapters_insert_new m h n t :
  m !! h = None → nadapters (<[h := (n, t)]> m) = nadapters m + (if decide (t = 0%nat) then 1 else 0).
Proof.
  intros Hh. unfold nadapters, adapters. case_decide as Ht; subst.
  - rewrite map_filter_insert_True by done. rewrite map_size_insert_None; [lia|].
    apply map_lookup_filter_None. by left.
  - rewrite map_filter_insert_False by done. rewrite delete_id by done. lia.
Qed.

Lemma nadapters_insert_same m h n n' t :
  m !! h = Some (n, t) → nadapters (<[h := (n', t)]> m) = nadapters m.
Proof.
  intros Hh. unfold nadapters, adapters. destruct (decide (t = 0%nat)) as [->|Ht].
  - rewrite map_filter_insert_True by done. rewrite map_size_insert_Some; [done|].
    exists (n, 0%nat). by apply map_lookup_filter_Some.
  - rewrite map_filter_insert_False by done. f_equal. f_equal.
    rewrite map_filter_delete, delete_id; [done|]. apply map_lookup_filter_None. right. naive_solver.
Qed.

Lemma nadapters_delete m h n t :
  m !! h = Some (n, t) → nadapters (delete h m) = nadapters m - (if decide (t = 0%nat) then 1 else 0).
Proof.
  intros Hh. rewrite <-(insert_delete_id m h (n, t)) at 2 by done.
  rewrite nadapters_insert_new by apply lookup_delete_eq. lia.
Qed.

Lemma nadapters_pos m h n t : m !! h = Some (n, t) → t = 0%nat → 0 < nadapters m.
Proof.
  intros Hh ->. pose proof (nadapters_delete m h n 0 Hh) as H. rewrite decide_True in H by done.
  unfold nadapters in *. lia.
Qed.

(** Every honest operation simulates: the represented references stay equal and
    the only errors logged are the leaks of the specification. *)
Lemma perform_refines m o m' r c :
  step m o m' r → rep m c →
  ∃ c' ms, perform o c = (c', ms) ∧ rep m' c' ∧ errors ms = r.
Proof.
  intros Hs (Hc & Ha & Hp & Hn).
  assert (∀ h n t, m !! h = Some (n, t) → 0 < n ∧ 0 < nadapters m) as Hpos.
  { intros h n t Hh. split; [by apply (Hp h (n, t))|].
    destruct (decide (nadapters m = 0)) as [E|]; [|unfold nadapters in *; lia].
    rewrite (Hn E) in Hh. by rewrite lookup_empty in Hh. }
  assert (∀ h n t m' ms, 0 < n → m' = <[h := (n, t)]> m → 0 < nadapters m' → errors ms = [] →
    ∃ c' ms', finish_update h n t (nadapters m') ms c = (c', ms') ∧ rep m' c' ∧ errors ms' = []) as Hfin.
  { intros h n t m1 ms Hpn -> Hm1 Hms. unfold finish_update.
    rewrite (proj2 (Z.eqb_neq n 0)), (proj2 (Z.eqb_neq (nadapters _) 0)) by lia.
    do 2 eexists. split; [done|]. rewrite errors_app, Hms. split; [|done].
    unfold rep. simpl. rewrite Hc. split_and!; [done|done| |lia].
    apply map_Forall_insert_2; [done|exact Hp]. }
  destruct Hs as [h Hh|h n Hh|h t Hh Ht Hpa|h n t Hh Ht|h t Hh Ht Hpa|h n t Hh|h n t Hh Hlt|h t Hh Hpa|h Hh Hz];
    cbn [perform]; unfold createOrIncrementRefCount, createRefCount, incrementRefCount, decrementRefCount,
    updateRefCount; rewrite Hc, Hh, Ha.
  - pose proof (nadapters_insert_new m h 1 0 Hh) as E. rewrite decide_True in E by done.
    rewrite <-E. apply Hfin; [done..| |done]. unfold nadapters in *. lia.
  - destruct (Hpos _ _ _ Hh). rewrite <-(nadapters_insert_same m h n (n + 1) 0 Hh).
    apply Hfin; [lia|done| |done]. by rewrite (nadapters_insert_same m h n).
  - pose proof (nadapters_insert_new m h 1 t Hh) as E. rewrite decide_False in E by done.
    rewrite Z.add_0_r in E. rewrite <-E. apply Hfin; [done..|lia|done].
  - destruct (Hpos _ _ _ Hh). rewrite <-(nadapters_insert_same m h n (n + 1) t Hh).
    apply Hfin; [lia|done| |done]. by rewrite (nadapters_insert_same m h n).
  - pose proof (nadapters_insert_new m h 1 t Hh) as E. rewrite decide_False in E by done.
    rewrite Z.add_0_r in E. rewrite <-E. apply Hfin; [done..|lia|done].
  - destruct (Hpos _ _ _ Hh). rewrite <-(nadapters_insert_same m h n (n + 1) t Hh).
    apply Hfin; [lia|done| |done]. by rewrite (nadapters_insert_same m h n).
  - destruct (Hpos _ _ _ Hh). rewrite (proj2 (Z.ltb_ge (n - 1) 0)), (proj2 (Z.eqb_neq (n - 1) 0)) by lia.
    cbn [negb andb]. rewrite <-(nadapters_insert_same m h n (n - 1) t Hh).
    apply Hfin; [lia|done| |done]. by rewrite (nadapters_insert_same m h n).
  - pose proof (nadapters_delete m h 1 t Hh) as E. simpl. unfold finish_update, is_adapter. simpl.
    rewrite Hc, delete_insert_eq.
    replace (if (t =? 0)%nat then nadapters m - 1 else nadapters m) with (nadapters (delete h m))
      by (rewrite E; case_decide; case_match; bool_to_prop; lia).
    rewrite (proj2 (Z.eqb_neq _ 0)) by lia. do 2 eexists. split; [done|]. split; [|done].
    split_and!; [done|done| |simpl; lia]. by apply map_Forall_delete.
  - pose proof (nadapters_delete m h 1 0 Hh) as E. rewrite decide_True in E by done.
    simpl. unfold finish_update. simpl. rewrite Hc, delete_insert_eq.
    rewrite (proj2 (Z.eqb_eq (nadapters m - 1) 0)) by lia. do 2 eexists. split; [done|].
    split; [split_and!; simpl; [done|change (nadapters ∅) with 0; lia|apply map_Forall_empty|done]|].
    apply (errors_reports (delete h m)).
Qed.

End LeakSpec.

Module ValidationProps.
Import LeakCheck LeakSpec.

(** C25: refinement: on any sequence of honest operations (adapters and devices
    got, other objects created, handles retained and released; no release or
    retain of a handle that is not held, devices got and objects created while an
    adapter is held) the layer's reference table is exactly the set of references
    the application holds, [isReferenceValid] answers accordingly, and the only
    errors logged are, at each release of the last adapter, the references still
    held then: only adapters keep the table alive. *)
Theorem leak_check_refines ops m r :
  steps ∅ ops m r →
  ∃ c ms, run ops init = (c, ms) ∧ counts c = m ∧ errors ms = r ∧
    ∀ h t, isReferenceValid h t c = true ↔ ∃ n, m !! h = Some (n, t).
Proof.
  assert (∀ m0 c0, steps m0 ops m r → rep m0 c0 →
    ∃ c ms, run ops c0 = (c, ms) ∧ rep m c ∧ errors ms = r) as Hrun.
  { induction ops as [|o ops IH] in m, r |- *; intros m0 c0 Hs Hr; inversion Hs; subst.
    { by exists c0, []. }
    destruct (perform_refines _ _ _ _ _ ltac:(done) Hr) as (c1 & ms1 & E1 & Hr1 & <-).
    destruct (IH m r' m' c1) as (c2 & ms2 & E2 & Hr2 & <-); [done..|].
    exists c2, (ms1 ++ ms2). cbn [run]. rewrite E1, E2. rewrite errors_app. done. }
  intros Hs. destruct (Hrun ∅ init) as (c & ms & E & (Hc & _ & Hp & _) & He); [done|by repeat split|].
  exists c, ms. split_and!; [done..|]. intros h t. unfold isReferenceValid. rewrite Hc.
  destruct (m !! h) as [[n t']|] eqn:Hh; [|naive_solver]. apply Hp in Hh as Hn. simpl in Hn.
  rewrite (proj2 (Z.ltb_ge n 1)) by lia. rewrite Nat.eqb_eq. naive_solver.
Qed.

Lemma leak_check_refines_witness :
  let ops := [AdapterGet 1; DeviceGet 5 2; Create 7 3; Retain 7; Release 5; Retain 1; Release 1; Release 1] in
  ∃ c ms, run ops init = (c, ms) ∧ counts c = ∅ ∧ errors ms = [Retained 7 2].
Proof.
  intros ops. destruct (leak_check_refines ops ∅ [Retained 7 2]) as (c & ms & E & Hc & He & _).
  - apply (steps_cons _ _ {[1 := (1, 0%nat)]} [] _ _ [Retained 7 2]); [by apply step_get_new|].
    eapply (steps_cons _ _ _ [] _ _ [Retained 7 2]); [by apply step_device_new|].
    eapply (steps_cons _ _ _ [] _ _ [Retained 7 2]); [by apply step_create|].
    eapply (steps_cons _ _ _ [] _ _ [Retained 7 2]); [by eapply step_retain|].
    eapply (steps_cons _ _ _ [] _ _ [Retained 7 2]); [by eapply step_release_last|].
    eapply (steps_cons _ _ _ [] _ _ [Retained 7 2]); [by eapply step_retain|].
    eapply (steps_cons _ _ _ [] _ _ [Retained 7 2]); [by eapply step_release|].
    apply (steps_cons _ _ ∅ [Retained 7 2] _ _ []); [|constructor].
    match goal with |- step ?m _ _ _ =>
      replace [Retained 7 2] with (logInvalidReferences (delete 1 m)) by (by vm_compute) end.
    apply (step_release_adapter _ 1); by vm_compute.
  - by exists c, ms.
Defined.

(** A release of a handle that is not held poisons it: the entry stays, with a
    negative count, and the next object created at the address is refused. *)
Example release_unknown_poisons :
  let '(c, _) := run [AdapterGet 1; Release 7; Create 7 3] init in
  isReferenceValid 7 3 c = false ∧ counts c !! 7 = Some (-1, 0%nat).
Proof. by vm_compute. Qed.

Section bounds.
Import Bounds.

(** bounds checks: when the adapter answers the size queries and no sum
    wraps, the buffer, USM and image checks accept exactly the accesses inside
    the object (an image dimension of 0 counting as 1); an unsupported query
    accepts everything, and any other failing query is returned. *)
Theorem bounds_spec size width height depth offset n (origin region : rect) :
  0 <= offset → 0 <= n → offset + n < 2 ^ 64 →
  0 <= x origin → 0 <= x region → x origin + x region < 2 ^ 64 →
  0 <= y origin → 0 <= y region → y origin + y region < 2 ^ 64 →
  0 <= z origin → 0 <= z region → z origin + z region < 2 ^ 64 →
  let ok := UR_RESULT_SUCCESS in
  bounds_buffer (ok, size) offset n =
    (if decide (offset + n <= size) then ok else UR_RESULT_ERROR_INVALID_SIZE) ∧
  bounds_usm (ok, 0) (ok, 1) (ok, size) offset n = bounds_buffer (ok, size) offset n ∧
  boundsImage (ok, width) (ok, height) (ok, depth) origin region =
    (if decide (x origin + x region <= width ∧
                y origin + y region <= (if decide (height = 0) then 1 else height) ∧
                z origin + z region <= (if decide (depth = 0) then 1 else depth))
     then ok else UR_RESULT_ERROR_INVALID_SIZE) ∧
  ∀ r v, r ≠ ok → bounds_buffer (r, v) offset n =
    (if decide (r = UR_RESULT_ERROR_UNSUPPORTED_ENUMERATION ∨ r = UR_RESULT_ERROR_UNSUPPORTED_FEATURE)
     then ok else r).
Proof.
  intros Ho Hn Hs Hx1 Hx2 Hx Hy1 Hy2 Hy Hz1 Hz2 Hz ok.
  unfold bounds_buffer, bounds_usm, boundsImage, return_on_failure. simpl.
  rewrite !u64_small by (unfold in_u64; lia). split_and!.
  - case_decide; case_match; bool_to_prop; done || lia.
  - done.
  - destruct (decide (height = 0)) as [->|Hh]; [simpl|rewrite (proj2 (Z.eqb_neq height 0)) by done];
      (destruct (decide (depth = 0)) as [->|Hd]; [simpl|rewrite (proj2 (Z.eqb_neq depth 0)) by done]);
      case_decide; repeat case_match; bool_to_prop; done || lia.
  - intros r v Hr. repeat (case_decide || case_bool_decide); simpl; naive_solver.
Qed.

Lemma bounds_spec_witness :
  bounds_buffer (UR_RESULT_SUCCESS, 64) 60 4 = UR_RESULT_SUCCESS ∧
  boundsImage (UR_RESULT_SUCCESS, 8) (UR_RESULT_SUCCESS, 0) (UR_RESULT_SUCCESS, 0)
    {| x := 4; y := 0; z := 0 |} {| x := 5; y := 1; z := 1 |} = UR_RESULT_ERROR_INVALID_SIZE.
Proof.
  destruct (bounds_spec 64 8 0 0 60 4 {| x := 4; y := 0; z := 0 |} {| x := 5; y := 1; z := 1 |})
    as (H1 & _ & H2 & _); [simpl; lia..|].
  split; [rewrite H1|rewrite H2]; by vm_compute.
Defined.

(** The sum is taken modulo [2^64]: a range far outside the buffer passes. *)
Example bounds_wraps :
  bounds_buffer (UR_RESULT_SUCCESS, 64) (2 ^ 63) (2 ^ 63 + 8) = UR_RESULT_SUCCESS.
Proof. by vm_compute. Qed.

End bounds.

(** feature switches: full validation turns everything on, lifetime
    validation turns leak checking on, and the layer hooks the dispatch table
    exactly when parameter, leak or lifetime checking is on, so enabling
    bounds checking alone sets its switch but installs nothing. *)
Theorem validation_init_spec names :
  let '(f, hooked) := Init.validation_init names in
  let full := Init.nameFullValidation ∈ names in
  (Init.enableBoundsChecking f = true ↔ full ∨ Init.nameBoundsChecking ∈ names) ∧
  (Init.enableParameterValidation f = true ↔ full ∨ Init.nameParameterValidation ∈ names) ∧
  (Init.enableLifetimeValidation f = true ↔ full ∨ Init.nameLifetimeValidation ∈ names) ∧
  (Init.enableLeakChecking f = true ↔
     full ∨ Init.nameLeakChecking ∈ names ∨ Init.nameLifetimeValidation ∈ names) ∧
  (hooked = true ↔ full ∨ Init.nameParameterValidation ∈ names ∨
     Init.nameLeakChecking ∈ names ∨ Init.nameLifetimeValidation ∈ names).
Proof.
  unfold Init.validation_init. case_bool_decide as Hf; simpl; [tauto|].
  rewrite !orb_true_iff, !bool_decide_eq_true. tauto.
Qed.

(** With only [UR_LAYER_BOUNDS_CHECKING], nothing is hooked. *)
Example bounds_only_not_hooked :
  let '(f, hooked) := Init.validation_init {[Init.nameBoundsChecking]} in
  Init.enableBoundsChecking f = true ∧ hooked = false.
Proof. by vm_compute. Qed.

End ValidationProps.
