(* ===== verification/PoolManager.v ===== *)
(** * USM pool descriptors and the pool manager
    (source/common/ur_pool_manager.hpp)

    Pools are keyed by descriptors compared up to the native handle of their
    device, so that sub-devices sharing a native handle share a pool.  The
    native handle of a device comes from the adapter (class [NativeHandles]).
    Descriptor equality is an equivalence the hash respects, which is what the
    [std::unordered_map] of the manager relies on: the map is modelled by its
    contents, searched with that equality. *)
From stdpp Require Import base numbers list sets.
From S2P Require Import Prelude UrUtil.
Local Open Scope Z_scope.

(** [urDeviceGetNativeHandle] of the adapter, and [std::hash] of the integers
    and pointers a descriptor holds. *)
Class NativeHandles := {
  getNativeHandle : Z → ur_result_t * Z;
  std_hash : Z → Z;
}.

Module Pool.

Definition UR_USM_TYPE_HOST := 1.
Definition UR_USM_TYPE_DEVICE := 2.
Definition UR_USM_TYPE_SHARED := 3.

Record pool_descriptor := {
  poolHandle : Z; hContext : Z; hDevice : Z; type : Z; deviceReadOnly : bool }.

Definition isSharedAllocationReadOnlyOnDevice (d : pool_descriptor) : bool :=
  (type d =? UR_USM_TYPE_SHARED) && deviceReadOnly d.
Definition supportsResidentDevices (d : pool_descriptor) : bool := type d =? UR_USM_TYPE_DEVICE.

Definition createFromDevices (poolHandle hContext : Z) (devices : list Z) : list pool_descriptor :=
  {| poolHandle := poolHandle; hContext := hContext; hDevice := 0;
     type := UR_USM_TYPE_HOST; deviceReadOnly := false |} ::
  (devices ≫= λ device,
    [{| poolHandle := poolHandle; hContext := hContext; hDevice := device;
        type := UR_USM_TYPE_DEVICE; deviceReadOnly := false |};
     {| poolHandle := poolHandle; hContext := hContext; hDevice := device;
        type := UR_USM_TYPE_SHARED; deviceReadOnly := false |};
     {| poolHandle := poolHandle; hContext := hContext; hDevice := device;
        type := UR_USM_TYPE_SHARED; deviceReadOnly := true |}]).

Section manager.
Context `{NativeHandles}.

(** The native handle a descriptor is compared by; a failing query throws its
    code. *)
Definition native (d : pool_descriptor) : outcome Z :=
  if hDevice d =? 0 then Ret 0 else
  let '(r, n) := getNativeHandle (hDevice d) in
  if bool_decide (r = UR_RESULT_SUCCESS) then Ret n else Throw (exn_ur_result r).

(** [operator==] *)
Definition desc_eq (lhs rhs : pool_descriptor) : outcome bool :=
  lhsNative ← native lhs;
  rhsNative ← native rhs;
  Ret ((lhsNative =? rhsNative) && (type lhs =? type rhs) &&
       eqb (isSharedAllocationReadOnlyOnDevice lhs) (isSharedAllocationReadOnlyOnDevice rhs) &&
       (poolHandle lhs =? poolHandle rhs)).

(** [std::hash<pool_descriptor>] *)
Definition desc_hash (d : pool_descriptor) : outcome Z :=
  n ← native d;
  Ret (Util.combine_hashes 0
    [std_hash (type d); std_hash n;
     std_hash (if isSharedAllocationReadOnlyOnDevice d then 1 else 0); std_hash (poolHandle d)]).

(** [descToPoolMap]; pools are numbers. *)
Abbreviation desc_to_pool_map := (list (pool_descriptor * Z)).

Fixpoint find_entry (m : desc_to_pool_map) (d : pool_descriptor) : outcome (option Z) :=
  match m with
  | [] => Ret None
  | (d', p) :: m => b ← desc_eq d' d; if b : bool then Ret (Some p) else find_entry m d
  end.

Definition find (m : desc_to_pool_map) (d : pool_descriptor) : outcome (option Z) :=
  _ ← desc_hash d; find_entry m d.

Definition addPool (m : desc_to_pool_map) (d : pool_descriptor) (p : Z)
    : outcome (ur_result_t * desc_to_pool_map) :=
  e ← find m d;
  Ret (match e with
       | Some _ => (UR_RESULT_ERROR_INVALID_ARGUMENT, m)
       | None => (UR_RESULT_SUCCESS, (d, p) :: m)
       end).

Definition getPool (m : desc_to_pool_map) (d : pool_descriptor) : outcome (option Z) := find m d.

(** [create]: adds every pool of a map, or fails with nothing. *)
Fixpoint create_loop (m : desc_to_pool_map) (ds : desc_to_pool_map)
    : outcome (ur_result_t * desc_to_pool_map) :=
  match ds with
  | [] => Ret (UR_RESULT_SUCCESS, m)
  | (d, p) :: ds =>
      rm ← addPool m d p;
      if bool_decide (rm.1 = UR_RESULT_SUCCESS) then create_loop rm.2 ds else Ret (rm.1, [])
  end.
Definition create := create_loop [].

(** [forEachPool]: stops at the first pool the callback refuses; the result is
    the pools it was called on. *)
Fixpoint forEachPool (func : Z → bool) (m : desc_to_pool_map) : list Z :=
  match m with
  | [] => []
  | (_, p) :: m => if func p then p :: forEachPool func m else [p]
  end.

End manager.
End Pool.

Module PoolFacts.
Import Pool.

Section facts.
Context `{NativeHandles}.

(** A descriptor whose native handle can be obtained. *)
Definition valid (d : pool_descriptor) : Prop := ∃ n, native d = Ret n.

(** What two descriptors have in common when they denote the same pool. *)
Definition key (d : pool_descriptor) : option (Z * Z * bool * Z) :=
  match native d with
  | Ret n => Some (n, type d, isSharedAllocationReadOnlyOnDevice d, poolHandle d)
  | _ => None
  end.
Definition desc_equiv (a b : pool_descriptor) : Prop := key a = key b.

#[export] Instance desc_equiv_dec a b : Decision (desc_equiv a b).
Proof. unfold desc_equiv. apply _. Defined.
#[export] Instance desc_equiv_equivalence : Equivalence desc_equiv.
Proof. unfold desc_equiv. split; red; congruence. Qed.

Lemma desc_eq_spec a b : valid a → valid b → desc_eq a b = Ret (bool_decide (desc_equiv a b)).
Proof.
  intros [na Ha] [nb Hb]. unfold desc_eq. rewrite Ha, Hb. simpl. f_equal.
  apply eq_true_iff_eq. rewrite bool_decide_eq_true, !andb_true_iff, !Z.eqb_eq, eqb_true_iff.
  unfold desc_equiv, key. rewrite Ha, Hb.
  split; [by intros [[[-> ->] ->] ->]|by intros [= -> -> -> ->]].
Qed.

#[export] Instance desc_hash_proper : Proper (desc_equiv ==> eq) (λ d, match desc_hash d with Ret h => Some h | _ => None end).
Proof.
  intros a b. unfold desc_equiv, key, desc_hash.
  destruct (native a), (native b); simpl; try done. by intros [= -> -> -> ->].
Qed.

Lemma valid_hash d : valid d → ∃ h, desc_hash d = Ret h.
Proof. intros [n Hn]. unfold desc_hash. rewrite Hn. eauto. Qed.

(** The descriptors of a map are valid and denote different pools. *)
Definition map_ok (m : list (pool_descriptor * Z)) : Prop :=
  Forall (λ e, valid e.1) m ∧ NoDup ((λ e, key e.1) <$> m).

Lemma find_entry_spec m d p :
  map_ok m → valid d →
  find_entry m d = Ret (snd <$> (head (filter (λ e, desc_equiv e.1 d) m))) ∧
  (find_entry m d = Ret (Some p) ↔ ∃ d', (d', p) ∈ m ∧ desc_equiv d' d).
Proof.
  intros [Hv Hn] Hd. induction m as [|[d' p'] m IH]; simpl.
  { split; [done|]. split; [done|]. by intros (? & ?%elem_of_nil & _). }
  inversion Hv; subst. rewrite fmap_cons, NoDup_cons in Hn. destruct Hn as [Hk Hn]. simpl in *.
  rewrite desc_eq_spec by done. simpl. rewrite filter_cons. simpl.
  setoid_rewrite elem_of_cons. case_bool_decide as He.
  - rewrite decide_True by done. split; [done|]. split; [intros [= ->]; eauto|].
    intros (d2 & [[= -> ->]|Hin] & Heq); [done|]. exfalso. apply Hk.
    apply list_elem_of_fmap. exists (d2, p). split; [|done]. simpl. by rewrite He, <-Heq.
  - rewrite decide_False by done. destruct IH as [E1 E2]; [done..|]. split; [done|].
    rewrite E2. naive_solver.
Qed.

Lemma find_spec m d : valid d → find m d = find_entry m d.
Proof. intros [h Hh]%valid_hash. unfold find. by rewrite Hh. Qed.

Lemma addPool_new m d p :
  map_ok m → valid d → (∀ e, e ∈ m → ¬ desc_equiv e.1 d) →
  addPool m d p = Ret (UR_RESULT_SUCCESS, (d, p) :: m) ∧ map_ok ((d, p) :: m).
Proof.
  intros Hm Hd Hne. unfold addPool. rewrite find_spec by done.
  destruct (find_entry_spec m d p Hm Hd) as [-> _].
  rewrite filter_none by done. split; [done|]. destruct Hm as [Hv Hn].
  split; [by constructor|]. rewrite fmap_cons. apply NoDup_cons. split; [|done].
  intros (e & He & Hin)%list_elem_of_fmap. by apply (Hne e).
Qed.

Lemma addPool_exists m d p e :
  map_ok m → valid d → e ∈ m → desc_equiv e.1 d →
  addPool m d p = Ret (UR_RESULT_ERROR_INVALID_ARGUMENT, m).
Proof.
  intros Hm Hd He Heq. unfold addPool. rewrite find_spec by done.
  destruct e as [d' q]. destruct (find_entry_spec m d q Hm Hd) as [_ [_ H2]].
  rewrite H2 by (by exists d'). done.
Qed.

(** Adding pools for pairwise different descriptors succeeds. *)
Lemma create_loop_spec ds m :
  map_ok m → Forall (λ e, valid e.1) ds → NoDup ((λ e, key e.1) <$> (ds ++ m)) →
  create_loop m ds = Ret (UR_RESULT_SUCCESS, rev ds ++ m) ∧ map_ok (rev ds ++ m).
Proof.
  revert m. induction ds as [|[d p] ds IH]; intros m Hm Hv Hn; [done|].
  inversion Hv; subst. simpl in Hn. apply NoDup_cons in Hn as [Hk Hn].
  destruct (addPool_new m d p) as [E Hm']; [done..| |].
  { intros e He Heq. apply Hk. apply list_elem_of_fmap. exists e. split; [done|]. set_solver. }
  cbn [create_loop]. rewrite E. simpl. rewrite <-app_assoc. apply IH; [done..|].
  fold (fmap (M:=list) (λ e : pool_descriptor * Z, key e.1)) in Hn, Hk.
  rewrite Permutation_app_swap_app. simpl. by apply NoDup_cons.
Qed.

Lemma createFromDevices_valid ph hc ds :
  Forall (λ d, d = 0 ∨ (getNativeHandle d).1 = UR_RESULT_SUCCESS) ds →
  Forall valid (createFromDevices ph hc ds).
Proof.
  intros Hds. apply Forall_cons. split; [by exists 0|]. apply Forall_bind.
  eapply Forall_impl; [exact Hds|]. intros d Hd.
  assert (∀ t b, valid {| poolHandle := ph; hContext := hc; hDevice := d; type := t; deviceReadOnly := b |})
    as Hv; [|by repeat constructor].
  intros t b. unfold valid, native. simpl. case_match eqn:E; [by eexists|]. bool_to_prop.
  destruct Hd as [|Hd]; [done|]. destruct (getNativeHandle d) as [r n]. simpl in Hd. subst.
  by eexists.
Qed.

(** The descriptors created for devices with different native handles denote
    different pools. *)
Lemma createFromDevices_keys ph hc ds :
  Forall (λ d, d ≠ 0 ∧ (getNativeHandle d).1 = UR_RESULT_SUCCESS) ds →
  NoDup ((λ d, (getNativeHandle d).2) <$> ds) →
  NoDup (key <$> createFromDevices ph hc ds).
Proof.
  intros Hds Hn.
  assert (Hkey : ∀ d t b, d ≠ 0 ∧ (getNativeHandle d).1 = UR_RESULT_SUCCESS →
    key {| poolHandle := ph; hContext := hc; hDevice := d; type := t; deviceReadOnly := b |}
    = Some ((getNativeHandle d).2, t, (t =? UR_USM_TYPE_SHARED) && b, ph)).
  { intros d t b [Hd E]. unfold key, native. simpl. rewrite (proj2 (Z.eqb_neq d 0)) by done.
    destruct (getNativeHandle d) as [r n]. simpl in *. by subst. }
  unfold createFromDevices. rewrite fmap_cons, fmap_bind.
  apply NoDup_cons. split.
  - intros (d & Hin & Hd)%list_elem_of_bind. rewrite Forall_forall in Hds. apply Hds in Hd.
    rewrite !fmap_cons, !(Hkey d) in Hin by done. revert Hin. unfold key. simpl. set_solver.
  - induction ds as [|d ds IH]; [constructor|]. inversion Hds as [|? ? Hd Hds']; subst.
    rewrite fmap_cons, NoDup_cons in Hn. destruct Hn as [Hnd Hn]. rewrite bind_cons.
    rewrite !fmap_cons, !Hkey by done. apply NoDup_app. split; [|split; [|by apply IH]].
    + repeat (apply NoDup_cons; split; [set_solver|]). constructor.
    + intros k Hk (d' & Hin & Hd')%list_elem_of_bind. apply Hnd.
      rewrite Forall_forall in Hds'. rewrite !fmap_cons, !Hkey in Hin by auto.
      apply list_elem_of_fmap. exists d'. split; [|done]. set_solver.
Qed.

End facts.
End PoolFacts.

Module PoolProps.
Import Pool PoolFacts.

Section props.
Context `{NativeHandles}.

(** C34: the pool manager is a finite map from descriptors up to equivalence
    (same native device handle, type, device-read-only sharing and parent
    pool; equal descriptors have equal hashes): adding a pool for a descriptor
    equivalent to a known one is refused and changes nothing, any other is
    added; afterwards every descriptor equivalent to the new one finds the
    new pool and every other descriptor finds what it found before. *)
Theorem pool_manager_map m d p :
  map_ok m → valid d →
  (∀ d', valid d' → desc_eq d d' = Ret (bool_decide (desc_equiv d d')) ∧
     (desc_equiv d d' → desc_hash d = desc_hash d')) ∧
  ((∃ q, getPool m d = Ret (Some q) ∧ addPool m d p = Ret (UR_RESULT_ERROR_INVALID_ARGUMENT, m)) ∨
   (getPool m d = Ret None ∧ ∃ m', addPool m d p = Ret (UR_RESULT_SUCCESS, m') ∧ map_ok m' ∧
      ∀ d', valid d' →
        getPool m' d' = if decide (desc_equiv d d') then Ret (Some p) else getPool m d')).
Proof.
  intros Hm Hd. split.
  { intros d' Hd'. split; [by apply desc_eq_spec|]. intros He. apply desc_hash_proper in He.
    destruct (valid_hash d Hd) as [? E1], (valid_hash d' Hd') as [? E2]. rewrite E1, E2 in *. congruence. }
  destruct (decide (Exists (λ e, desc_equiv e.1 d) m)) as [He|He].
  - left. apply Exists_exists in He as ([d' q] & Hin & He). exists q. split.
    + unfold getPool. rewrite find_spec by done. apply find_entry_spec; [done..|]. by exists d'.
    + by eapply addPool_exists.
  - right. assert (∀ e, e ∈ m → ¬ desc_equiv e.1 d) as Hne
      by (intros e Hin Heq; apply He, Exists_exists; eauto).
    destruct (addPool_new m d p Hm Hd Hne) as [E Hm']. split.
    { unfold getPool. rewrite find_spec by done.
      destruct (find_entry_spec m d p Hm Hd) as [-> _]. by rewrite filter_none. }
    eexists. split; [done|]. split; [done|]. intros d' Hd'. unfold getPool.
    rewrite !find_spec by done. cbn [find_entry]. rewrite desc_eq_spec by done. simpl.
    by case_bool_decide; case_decide.
Qed.

(** the descriptors of a context whose devices have distinct native handles
    denote pairwise different pools: [create] accepts one pool per descriptor
    (one for the host, three per device), and [getPool] then finds for each
    descriptor exactly its own pool. *)
Theorem createFromDevices_manager ph hc devices (pools : list Z) :
  Forall (λ d, d ≠ 0 ∧ (getNativeHandle d).1 = UR_RESULT_SUCCESS) devices →
  NoDup ((λ d, (getNativeHandle d).2) <$> devices) →
  let ds := createFromDevices ph hc devices in
  length pools = length ds →
  length ds = (1 + 3 * length devices)%nat ∧
  ∃ m, create (zip ds pools) = Ret (UR_RESULT_SUCCESS, m) ∧
    ∀ i d p, ds !! i = Some d → pools !! i = Some p → getPool m d = Ret (Some p).
Proof.
  intros Hds Hn ds Hl.
  assert (Forall valid ds) as Hv.
  { apply createFromDevices_valid. eapply Forall_impl; [exact Hds|]. naive_solver. }
  split.
  { unfold ds, createFromDevices. rewrite length_cons. f_equal. clear.
    induction devices as [|x l IH]; [done|]. rewrite bind_cons, length_app, IH. simpl. lia. }
  assert ((λ e, key e.1) <$> zip ds pools = key <$> ds) as Hz.
  { trans (key <$> (zip ds pools).*1); [by rewrite <-list_fmap_compose|].
    f_equal. apply fst_zip. lia. }
  destruct (create_loop_spec (zip ds pools) []) as [E Hm].
  - split; constructor.
  - apply Forall_forall. intros [d q] Hin. simpl. apply elem_of_zip_l in Hin.
    rewrite Forall_forall in Hv. by apply Hv.
  - rewrite app_nil_r, Hz. by apply createFromDevices_keys.
  - exists (rev (zip ds pools) ++ []). split; [done|]. intros i d p Hi Hp.
    assert (valid d) by (rewrite Forall_forall in Hv; apply Hv; by eapply list_elem_of_lookup_2).
    unfold getPool. rewrite find_spec by done. apply find_entry_spec; [done..|].
    exists d. split; [|done]. rewrite app_nil_r. apply list_elem_of_In, in_rev, list_elem_of_In.
    rewrite rev_involutive. apply list_elem_of_lookup. exists i. apply lookup_zip_Some. done.
Qed.

End props.

(** Two devices with handles 5 and 6 and natives 50 and 60; 7 shares 60. *)
Definition three_devices : NativeHandles := {|
  getNativeHandle := λ d, (UR_RESULT_SUCCESS, if d =? 5 then 50 else 60);
  std_hash := λ x, x |}.

Lemma pool_manager_map_witness :
  let dev h := {| poolHandle := 1; hContext := 2; hDevice := h; type := UR_USM_TYPE_DEVICE;
                  deviceReadOnly := false |} in
  ∃ m, @addPool three_devices [(dev 5, 100)] (dev 6) 101 = Ret (UR_RESULT_SUCCESS, m) ∧
       @getPool three_devices m (dev 7) = Ret (Some 101).
Proof.
  intros dev. assert (∀ h, @valid three_devices (dev h)) as Hv.
  { intros h. unfold valid, native. simpl. case_match; eauto. }
  assert (@map_ok three_devices [(dev 5, 100)]) as Hm.
  { split; [apply Forall_singleton, Hv|]. by apply NoDup_singleton. }
  destruct (@pool_manager_map three_devices _ (dev 6) 101 Hm (Hv 6))
    as [_ [(q & E & _)|(_ & m & E & _ & Hg)]]; [by vm_compute in E|].
  exists m. split; [exact E|]. rewrite (Hg (dev 7) (Hv 7)). by vm_compute.
Defined.

Lemma createFromDevices_manager_witness :
  ∃ m, @create three_devices (zip (createFromDevices 1 2 [5; 6]) [0; 1; 2; 3; 4; 5; 6])
       = Ret (UR_RESULT_SUCCESS, m).
Proof.
  destruct (@createFromDevices_manager three_devices 1 2 [5; 6] [0; 1; 2; 3; 4; 5; 6])
    as (_ & m & E & _); [by repeat constructor| |done|by exists m].
  apply NoDup_cons. split; [by intros ?%list_elem_of_singleton|apply NoDup_singleton].
Defined.

End PoolProps.
