(* ===== verification/DisjointPoolConfig.v ===== *)
(** * The disjoint pool configuration parser
    (source/common/umf_pools/disjoint_pool_config_parser.cpp)

    The settings string [EnableBuffers;MaxPoolSize;memtypelimits...] of the
    memory pools.  The lambdas of [parseDisjointPoolConfig] become functions of
    the string they consume and of the setting they may change.  The flag
    [ParamWasSet], which the code declares without a value, starts as the
    parameter [garbage]. *)
From stdpp Require Import base numbers list strings sets.
From Stdlib Require Import Ascii.
From S2P Require Import Prelude CString.
Local Open Scope Z_scope.

Module PoolConfig.

Definition KB (x : Z) : Z := x * 1024.
Definition MB (x : Z) : Z := x * 1024 * 1024.
Definition GB (x : Z) : Z := x * 1024 * 1024 * 1024.

Inductive DisjointPoolMemType := Host | Device | Shared | SharedReadOnly.
#[export] Instance DisjointPoolMemType_eq_dec : EqDecision DisjointPoolMemType.
Proof. solve_decision. Defined.

(** [umf_disjoint_pool_config_t]; the limits object is common to all. *)
Record config := {
  SlabMinSize : Z; MaxPoolableSize : Z; Capacity : Z; MinBucketSize : Z; PoolTrace : Z }.

(** [Configs[DisjointPoolMemType::All]], one element per memory type. *)
Record configs := { c_host : config; c_device : config; c_shared : config; c_read_only : config }.
Definition at_type (c : configs) (M : DisjointPoolMemType) : config :=
  match M with
  | Host => c_host c | Device => c_device c | Shared => c_shared c | SharedReadOnly => c_read_only c
  end.
Definition tabulate (f : DisjointPoolMemType → config) : configs :=
  {| c_host := f Host; c_device := f Device; c_shared := f Shared; c_read_only := f SharedReadOnly |}.
Definition update (M : DisjointPoolMemType) (f : config → config) (c : configs) : configs :=
  tabulate (λ M', if decide (M' = M) then f (at_type c M') else at_type c M').

Record DisjointPoolAllConfigs := { EnableBuffers : Z; MaxSize : Z; Configs : configs }.

(** The constructor. *)
Definition default_configs (trace : Z) : configs :=
  {| c_host := {| MinBucketSize := 256; MaxPoolableSize := MB 2; Capacity := 4;
                  SlabMinSize := KB 64; PoolTrace := trace |};
     c_device := {| MinBucketSize := 512; MaxPoolableSize := MB 4; Capacity := 4;
                    SlabMinSize := KB 64; PoolTrace := trace |};
     c_shared := {| MinBucketSize := 512; MaxPoolableSize := 0; Capacity := 0;
                    SlabMinSize := MB 2; PoolTrace := trace |};
     c_read_only := {| MinBucketSize := 512; MaxPoolableSize := MB 4; Capacity := 4;
                       SlabMinSize := MB 2; PoolTrace := trace |} |}.

(** [Param[i]]: position [size()] holds the terminating null character, any
    other position outside the string is undefined. *)
Definition char_at (s : cstr) (i : Z) : outcome ascii :=
  if i <? 0 then Undefined else
  match s !! Z.to_nat i with
  | Some c => Ret c
  | None => if i =? Z.of_nat (length s) then Ret zero else Undefined
  end.

(** One suffix test of [GetValue]: drops the character and sets the factor. *)
Definition suffix (Param : cstr) (c : ascii) (mult : Z) (st : Z * Z) : outcome (Z * Z) :=
  x ← char_at Param (st.1 - 1);
  Ret (if decide (tolower x = c) then (st.1 - 1, mult) else st).

Definition GetValue (Param : cstr) (Length : Z) (Setting : Z) : outcome Z :=
  st ← suffix Param "k"%char (KB 1) (Length, 1);
  st ← suffix Param "m"%char (MB 1) st;
  st ← suffix Param "g"%char (GB 1) st;
  let TheNumber := substr Param 0 (Z.to_nat st.1) in
  if only_digits TheNumber then n ← stoi TheNumber; Ret (u64 (n * st.2)) else Ret Setting.

(** Consumes one comma-separated parameter of [Params]; returns the rest, the
    setting, [ParamWasSet] and whether there are more. *)
Definition ParamParser (Params : cstr) (Setting : Z) (ParamWasSet : bool)
    : outcome (cstr * Z * bool * bool) :=
  if bool_decide (Params = []) then Ret (Params, Setting, false, false) else
  match find_char "," Params with
  | Some Pos =>
      if (0 <? Z.of_nat Pos) then
        v ← GetValue Params (Z.of_nat Pos) Setting;
        Ret (drop (S Pos) Params, v, true, true)
      else Ret (drop (S Pos) Params, Setting, ParamWasSet, true)
  | None =>
      v ← GetValue Params (Z.of_nat (length Params)) Setting;
      Ret (Params, v, true, false)
  end.

Definition set_max v c := {| SlabMinSize := SlabMinSize c; MaxPoolableSize := v;
  Capacity := Capacity c; MinBucketSize := MinBucketSize c; PoolTrace := PoolTrace c |}.
Definition set_capacity v c := {| SlabMinSize := SlabMinSize c; MaxPoolableSize := MaxPoolableSize c;
  Capacity := v; MinBucketSize := MinBucketSize c; PoolTrace := PoolTrace c |}.
Definition set_slab v c := {| SlabMinSize := v; MaxPoolableSize := MaxPoolableSize c;
  Capacity := Capacity c; MinBucketSize := MinBucketSize c; PoolTrace := PoolTrace c |}.

Definition set_trace v c := {| SlabMinSize := SlabMinSize c; MaxPoolableSize := MaxPoolableSize c;
  Capacity := Capacity c; MinBucketSize := MinBucketSize c; PoolTrace := v |}.

(** One of the three stages of [MemParser]: parse into the setting of [LM] and,
    without a memory type, copy it to every configuration. *)
Definition mem_stage (get : config → Z) (set : Z → config → config)
    (memType : option DisjointPoolMemType) (Params : cstr) (ParamWasSet : bool) (c : configs)
    : outcome (cstr * bool * bool * configs) :=
  let LM := default Host memType in
  '(Params, v, ParamWasSet, More) ← ParamParser Params (get (at_type c LM)) ParamWasSet;
  let c := update LM (set v) c in
  Ret (Params, ParamWasSet, More,
       if ParamWasSet && bool_decide (memType = None) then tabulate (λ M, set v (at_type c M)) else c).

Definition MemParser (garbage : bool) (memType : option DisjointPoolMemType) (Params : cstr)
    (c : configs) : outcome configs :=
  '(Params, was_set, More, c) ← mem_stage MaxPoolableSize set_max memType Params garbage c;
  if negb More then Ret c else
  '(Params, was_set, More, c) ← mem_stage Capacity set_capacity memType Params was_set c;
  if negb More then Ret c else
  '(_, _, _, c) ← mem_stage SlabMinSize set_slab memType Params was_set c;
  Ret c.

(** [MemTypeParser]: the prefix selects the memory type. *)
Definition mem_type (Params : cstr) : option DisjointPoolMemType * nat :=
  if starts_with (lit "host:") Params then (Some Host, 5%nat)
  else if starts_with (lit "device:") Params then (Some Device, 7%nat)
  else if starts_with (lit "shared:") Params then (Some Shared, 7%nat)
  else if starts_with (lit "read_only_shared:") Params then (Some SharedReadOnly, 17%nat)
  else (None, 0%nat).
Definition MemTypeParser (garbage : bool) (Params : cstr) (c : configs) : outcome configs :=
  let '(M, Pos) := mem_type Params in MemParser garbage M (drop Pos Params) c.

Record state := { buffers : Z; buffers_set : bool; max : Z; max_set : bool; cfgs : configs }.

(** [Param.empty() || isdigit(Param[0])] *)
Definition numeric (Param : cstr) : bool := match Param with [] => true | c :: _ => isdigit c end.

(** The body of the main loop, on one semicolon-separated parameter. *)
Definition parse_param (garbage : bool) (Param : cstr) (st : state) : outcome state :=
  if negb (buffers_set st) && numeric Param then
    v ← (if bool_decide (Param = []) then Ret (buffers st)
         else GetValue Param (Z.of_nat (length Param)) (buffers st));
    Ret {| buffers := v; buffers_set := true; max := max st; max_set := max_set st; cfgs := cfgs st |}
  else if negb (max_set st) && numeric Param then
    v ← (if bool_decide (Param = []) then Ret (max st)
         else GetValue Param (Z.of_nat (length Param)) (max st));
    Ret {| buffers := buffers st; buffers_set := buffers_set st; max := v; max_set := true;
           cfgs := cfgs st |}
  else
    c ← MemTypeParser garbage Param (cfgs st);
    Ret {| buffers := buffers st; buffers_set := buffers_set st; max := max st;
           max_set := max_set st; cfgs := c |}.

(** The [while (true)] over the positions [Start] and [End]. *)
Fixpoint main_loop (fuel : nat) (garbage : bool) (config : cstr) (Start : nat) (st : state)
    : outcome state :=
  match fuel with
  | O => Undefined
  | S fuel =>
      let End := find_from ";" config Start in
      let Param := substr config Start (default (length config) End - Start) in
      st ← parse_param garbage Param st;
      match End with
      | None => Ret st
      | Some End => main_loop fuel garbage config (S End) st
      end
  end.

Definition parseDisjointPoolConfig (garbage : bool) (config : cstr) (trace : Z)
    : outcome DisjointPoolAllConfigs :=
  st ← main_loop (S (length config)) garbage config 0
         {| buffers := 1; buffers_set := false; max := SIZE_MAX; max_set := false;
            cfgs := default_configs 0 |};
  Ret {| EnableBuffers := buffers st; MaxSize := max st;
         Configs := tabulate (λ M, set_trace trace (at_type (cfgs st) M)) |}.

Definition parseDisjointPoolConfigOptional (garbage : bool) (config : cstr) (trace : Z)
    : outcome (option DisjointPoolAllConfigs) :=
  c ← parseDisjointPoolConfig garbage config trace;
  Ret (if EnableBuffers c =? 0 then None else Some c).

End PoolConfig.

(** ** The documented grammar *)
Module PoolConfigSpec.
Import PoolConfig.

(** A number with an optional K, M or G, in either case; it fits when it is an
    [int] before the suffix is applied. *)
Inductive unit_suffix := UNone | UK | UM | UG.
Definition unit_text (lower : bool) (u : unit_suffix) : cstr :=
  match u with
  | UNone => []
  | UK => lit (if lower then "k" else "K")
  | UM => lit (if lower then "m" else "M")
  | UG => lit (if lower then "g" else "G")
  end.
Definition unit_value (u : unit_suffix) : Z :=
  match u with UNone => 1 | UK => 2 ^ 10 | UM => 2 ^ 20 | UG => 2 ^ 30 end.
Record num := { digits : cstr; unit_of : unit_suffix; lower : bool }.
Definition num_text (n : num) : cstr := digits n ++ unit_text (lower n) (unit_of n).
Definition num_value (n : num) : Z := digits_value (digits n) * unit_value (unit_of n).
Definition num_ok (n : num) : Prop := digits n ≠ [] ∧ only_digits (digits n) = true.
Definition num_fits (n : num) : bool := digits_value (digits n) <? 2 ^ 31.
Definition opt_text (o : option num) : cstr := match o with Some n => num_text n | None => [] end.
Definition opt_ok (o : option num) : Prop := match o with Some n => num_ok n | None => True end.
Definition opt_fits (o : option num) : bool := match o with Some n => num_fits n | None => true end.
Definition opt_value (d : Z) (o : option num) : Z := match o with Some n => num_value n | None => d end.

(** [[<memtype>:][MaxPoolableSize][,[Capacity][,SlabMinSize]]]: the limits up to
    the last comma, each of them possibly left out. *)
Record entry := { e_type : option DisjointPoolMemType; e_limits : list (option num) }.
Definition limit (e : entry) (i : nat) : option num := mjoin (e_limits e !! i).
Definition tag (M : option DisjointPoolMemType) : cstr :=
  match M with
  | None => [] | Some Host => lit "host:" | Some Device => lit "device:"
  | Some Shared => lit "shared:" | Some SharedReadOnly => lit "read_only_shared:"
  end.
Definition entry_text (e : entry) : cstr := tag (e_type e) ++ join "," (opt_text <$> e_limits e).
Definition entry_ok (e : entry) : Prop :=
  Forall opt_ok (e_limits e) ∧ (1 ≤ length (e_limits e) ≤ 3)%nat.
Definition entry_fits (e : entry) : bool := forallb opt_fits (e_limits e).

(** Where the code departs from the documentation: a limit that an entry without
    memory type leaves out before a comma is copied from the host's settings to
    every type, when an earlier limit of the entry was given or the flag
    [ParamWasSet], which has no initial value, happened to be set. *)
Definition copied (garbage : bool) (e : entry) (i : nat) : bool :=
  bool_decide (e_type e = None) && bool_decide (limit e i = None) && bool_decide (S i < length (e_limits e))%nat &&
  (garbage || existsb (λ o, bool_decide (is_Some o)) (take i (e_limits e))).

(** What an entry means: it sets the given limits of its memory type, or of
    every one; the others stay, but for the copies above. *)
Definition apply_entry (garbage : bool) (c : configs) (e : entry) : configs :=
  tabulate (λ M,
    let k := at_type c M in
    let new i (get : config → Z) :=
      if copied garbage e i then get (at_type c Host) else opt_value (get k) (limit e i) in
    if decide (e_type e = None ∨ e_type e = Some M)
    then {| MaxPoolableSize := new 0%nat MaxPoolableSize; Capacity := new 1%nat Capacity;
            SlabMinSize := new 2%nat SlabMinSize;
            MinBucketSize := MinBucketSize k; PoolTrace := PoolTrace k |}
    else k).

(** [[EnableBuffers][;[MaxPoolSize][;memtypelimits]...]] *)
Record settings := { s_buffers : option num; s_rest : option (option num * list entry) }.
Definition s_max (s : settings) : option num := mjoin (fst <$> s_rest s).
Definition s_entries (s : settings) : list entry := default [] (snd <$> s_rest s).
Definition params (s : settings) : list cstr :=
  opt_text (s_buffers s) ::
  match s_rest s with Some (ms, es) => opt_text ms :: (entry_text <$> es) | None => [] end.
Definition settings_text (s : settings) : cstr := join ";" (params s).
Definition settings_ok (s : settings) : Prop :=
  opt_ok (s_buffers s) ∧ opt_ok (s_max s) ∧ Forall entry_ok (s_entries s).
Definition settings_fit (s : settings) : bool :=
  opt_fits (s_buffers s) && opt_fits (s_max s) && forallb entry_fits (s_entries s).

End PoolConfigSpec.

Module PoolConfigFacts.
Import PoolConfig PoolConfigSpec.

Lemma digit_not_letter (c : ascii) : isdigit c = true → tolower c = c ∧ chr c <= 57.
Proof.
  unfold isdigit, tolower, isupper. intros H. bool_to_prop.
  destruct (_ && _) eqn:E; bool_to_prop; [lia|]. done.
Qed.

Lemma digit_tolower_ne c (x : ascii) : isdigit c = true → 57 < chr x → tolower c ≠ x.
Proof. intros [-> H]%digit_not_letter Hx ->. lia. Qed.

Lemma only_digits_Forall s : only_digits s = true ↔ Forall (λ c, isdigit c = true) s.
Proof. unfold only_digits. rewrite forallb_forall, Forall_forall. by setoid_rewrite list_elem_of_In. Qed.

Lemma num_last n : num_ok n → ∃ ds d, digits n = ds ++ [d] ∧ isdigit d = true.
Proof.
  intros (Hn & Hd). destruct (exists_last Hn) as (ds & d & E). exists ds, d. split; [done|].
  apply only_digits_Forall in Hd. rewrite E in Hd. apply Forall_app in Hd as [_ H]. by inversion H.
Qed.

(** Number texts hold no delimiter and start with a digit. *)
Lemma num_text_no c n : num_ok n → isdigit c = false → c ∉ lit "KMGkmg" → c ∉ num_text n.
Proof.
  intros (_ & Hd%only_digits_Forall) Hc Hu [Hin|Hin]%elem_of_app.
  - rewrite Forall_forall in Hd. apply Hd in Hin. congruence.
  - apply Hu. destruct (unit_of n), (lower n); simpl in *; set_solver.
Qed.

Lemma opt_text_no c o : opt_ok o → isdigit c = false → c ∉ lit "KMGkmg" → c ∉ opt_text o.
Proof. destruct o; simpl; [apply num_text_no|]. intros _ _ _. apply not_elem_of_nil. Qed.

Lemma num_text_cons n : num_ok n → ∃ c s, num_text n = c :: s ∧ isdigit c = true.
Proof.
  intros (Hn & Hd%only_digits_Forall). unfold num_text. destruct (digits n) as [|c s]; [done|].
  inversion Hd; subst. by exists c, (s ++ unit_text (lower n) (unit_of n)).
Qed.

Lemma take_digits_only s : only_digits s = true → take_digits s = s.
Proof.
  intros H%only_digits_Forall. induction H as [|c s Hc Hs IH]; [done|]. simpl. by rewrite Hc, IH.
Qed.

Lemma stoi_digits s : s ≠ [] → only_digits s = true →
  stoi s = if digits_value s <? 2 ^ 31 then Ret (digits_value s) else Throw std_out_of_range.
Proof.
  intros Hs Hd. pose proof (digits_value_nonneg s Hd) as H0. unfold stoi.
  destruct s as [|c s]; [done|].
  assert (isdigit c = true) as Hc by (apply only_digits_Forall in Hd; by inversion Hd).
  assert (skip_spaces (c :: s) = c :: s) as ->.
  { cbn [skip_spaces]. assert (isspace c = false) as ->; [|done].
    unfold isspace, isdigit in *. bool_to_prop. apply orb_false_iff. split; lia. }
  assert (c ≠ "-"%char ∧ c ≠ "+"%char) as [H1 H2]
    by (split; intros ->; by vm_compute in Hc).
  rewrite !decide_False by done. rewrite take_digits_only by done. cbv iota.
  rewrite decide_False by done.
  by rewrite (proj2 (Z.leb_le (- 2 ^ 31) (digits_value (c :: s)))) by lia.
Qed.

Lemma char_at_app s c t : char_at (s ++ c :: t) (Z.of_nat (length s)) = Ret c.
Proof.
  unfold char_at. rewrite (proj2 (Z.ltb_ge _ 0)), Nat2Z.id by lia.
  by rewrite list_lookup_middle.
Qed.

Lemma suffix_match s c t x m st :
  st.1 = Z.of_nat (length s) + 1 → tolower c = x →
  suffix (s ++ c :: t) x m st = Ret (Z.of_nat (length s), m).
Proof.
  intros E Hx. unfold suffix. rewrite E, Z.add_simpl_r, char_at_app. simpl. by rewrite decide_True.
Qed.

Lemma suffix_skip s c t x m st :
  st.1 = Z.of_nat (length s) + 1 → tolower c ≠ x → suffix (s ++ c :: t) x m st = Ret st.
Proof.
  intros E Hx. unfold suffix. rewrite E, Z.add_simpl_r, char_at_app. simpl. by rewrite decide_False.
Qed.

Definition unit_char (u : unit_suffix) : ascii :=
  match u with UNone => zero | UK => "k"%char | UM => "m"%char | UG => "g"%char end.
Lemma unit_text_char l u : u ≠ UNone → ∃ c, unit_text l u = [c] ∧ tolower c = unit_char u.
Proof. by destruct u, l; try done; intros _; eexists. Qed.

(** A number is read, or is not an [int]. *)
Definition checked {A} (fits : bool) (x : A) : outcome A := if fits then Ret x else Throw std_out_of_range.

Lemma GetValue_num n rest v :
  num_ok n → GetValue (num_text n ++ rest) (Z.of_nat (length (num_text n))) v = checked (num_fits n) (num_value n).
Proof.
  intros Hn. destruct (num_last n Hn) as (ds & d & Ed & Hd). destruct Hn as (Hne & Hod).
  pose proof (digits_value_nonneg _ Hod) as H0.
  assert (∀ x : ascii, 57 < chr x → tolower d ≠ x) as Hdx by (intros; by apply digit_tolower_ne).
  assert (Hfin : ∀ m t, 0 <= m <= 2 ^ 30 →
    (let TheNumber := substr (digits n ++ t) 0 (Z.to_nat (Z.of_nat (length ds) + 1)) in
     if only_digits TheNumber then k ← stoi TheNumber; Ret (u64 (k * m)) else Ret v)
    = checked (num_fits n) (digits_value (digits n) * m)).
  { intros m t Hm. unfold substr. rewrite drop_0, take_app_length'
      by (rewrite Ed, length_app; simpl; lia).
    cbv zeta. rewrite Hod, stoi_digits by done. unfold checked, num_fits.
    destruct (_ <? _) eqn:Hv; [|done]. bool_to_prop. simpl. rewrite u64_small; [done|]. unfold in_u64. nia. }
  assert (Z.of_nat (length (digits n)) = Z.of_nat (length ds) + 1) as E2 by (rewrite Ed, length_app; simpl; lia).
  unfold num_text, num_value, GetValue. rewrite <-app_assoc. set (st := (_, 1) : Z * Z).
  destruct (unit_of n) eqn:Eu.
  { cbn [unit_text unit_value app] in *.
    assert (st.1 = Z.of_nat (length ds) + 1) as E1 by (unfold st; rewrite app_nil_r; exact E2).
    rewrite Ed, <-app_assoc. cbn [app].
    do 3 (rewrite suffix_skip by (done || by apply Hdx); cbn [mbind outcome_bind]).
    rewrite E1. specialize (Hfin 1 rest). rewrite Ed, <-app_assoc in Hfin. by apply Hfin. }
  all: destruct (unit_text_char (lower n) (unit_of n)) as (c & Ec & Hc); [by rewrite Eu|]; rewrite Eu in Ec, Hc;
    unfold st; rewrite Ec; clear st; set (st := (_, 1) : Z * Z); cbn [unit_value unit_char app] in *;
    assert (st.1 = Z.of_nat (length (digits n)) + 1) as E1 by (unfold st; rewrite length_app; simpl; lia).
  - rewrite suffix_match by done. cbn [mbind outcome_bind]. rewrite E2.
    specialize (Hfin (2 ^ 10) (c :: rest)). rewrite Ed, <-app_assoc in *. cbn [app] in *.
    do 2 (rewrite suffix_skip by (done || by apply Hdx); cbn [mbind outcome_bind]). by apply Hfin.
  - rewrite suffix_skip by (done || by rewrite Hc). cbn [mbind outcome_bind].
    rewrite suffix_match by done. cbn [mbind outcome_bind]. rewrite E2.
    specialize (Hfin (2 ^ 20) (c :: rest)). rewrite Ed, <-app_assoc in *. cbn [app] in *.
    rewrite suffix_skip by (done || by apply Hdx); cbn [mbind outcome_bind]. by apply Hfin.
  - do 2 (rewrite suffix_skip by (done || by rewrite Hc); cbn [mbind outcome_bind]).
    rewrite suffix_match by done. cbn [mbind outcome_bind]. rewrite E2. by apply (Hfin (2 ^ 30) (c :: rest)).
Qed.

Lemma opt_text_nil o : opt_ok o → opt_text o = [] → o = None.
Proof. destruct o as [n|]; [|done]. simpl. intros (c & s & -> & _)%num_text_cons. done. Qed.

Lemma ParamParser_more o r v w :
  opt_ok o →
  ParamParser (opt_text o ++ ","%char :: r) v w =
    checked (opt_fits o) (r, opt_value v o, bool_decide (is_Some o) || w, true).
Proof.
  intros Ho. unfold ParamParser. rewrite bool_decide_eq_false_2 by by destruct (opt_text o).
  rewrite find_char_app by (apply opt_text_no; [done..|vm_compute; set_solver]).
  assert (drop (S (length (opt_text o))) (opt_text o ++ ","%char :: r) = r) as ->
    by (rewrite cons_middle, app_assoc; apply drop_app_length'; rewrite length_app; simpl; lia).
  destruct o as [n|]; [|done]. cbn [opt_text opt_fits].
  destruct (num_text_cons n Ho) as (c & s & E & _).
  assert ((0 <? Z.of_nat (length (num_text n))) = true) as -> by (rewrite E; done).
  rewrite GetValue_num by done. by destruct (num_fits n).
Qed.

Lemma ParamParser_last o v w :
  opt_ok o →
  ParamParser (opt_text o) v w =
    checked (opt_fits o) (opt_text o, opt_value v o, bool_decide (is_Some o), false).
Proof.
  intros Ho. unfold ParamParser. destruct o as [n|]; [|done]. cbn [opt_text opt_fits].
  destruct (num_text_cons n Ho) as (c & s & E & _).
  rewrite bool_decide_eq_false_2 by by rewrite E.
  assert (find_char "," (num_text n) = None) as ->
    by (apply find_char_None, num_text_no; [done..|vm_compute; set_solver]).
  pose proof (GetValue_num n [] v Ho) as G. rewrite app_nil_r in G. rewrite G. by destruct (num_fits n).
Qed.

(** The limits given for a type, or for every type, are set. *)
Lemma mem_limits garbage e c :
  entry_ok e →
  MemParser garbage (e_type e) (join "," (opt_text <$> e_limits e)) c =
  checked (entry_fits e) (apply_entry garbage c e).
Proof.
  intros [Ho Hl]. destruct e as [M ls]. unfold entry_fits. cbn [e_type e_limits] in *.
  unfold MemParser, mem_stage. destruct ls as [|a [|b [|d [|]]]]; simpl in Hl; try lia; clear Hl;
    rewrite ?Forall_cons in Ho; destruct_and? Ho; cbn [fmap list_fmap join forallb].
  - rewrite ParamParser_last by done. destruct (opt_fits a); [|done]. cbn.
    destruct c as [[] [] [] []], M as [[]|], a, garbage; done.
  - rewrite ParamParser_more by done. destruct (opt_fits a); [|done]. cbn -[ParamParser].
    rewrite ParamParser_last by done. destruct (opt_fits b); [|done]. cbn.
    destruct c as [[] [] [] []], M as [[]|], a, b, garbage; done.
  - rewrite ParamParser_more by done. destruct (opt_fits a); [|done]. cbn -[ParamParser].
    rewrite ParamParser_more by done. destruct (opt_fits b); [|done]. cbn -[ParamParser].
    rewrite ParamParser_last by done. destruct (opt_fits d); [|done]. cbn.
    destruct c as [[] [] [] []], M as [[]|], a, b, d, garbage; done.
Qed.

Lemma elem_of_join c d ts : c ≠ d → Forall (λ t : cstr, c ∉ t) ts → c ∉ join d ts.
Proof.
  intros Hc. induction 1 as [|t ts Ht Hts IH]; [apply not_elem_of_nil|]. destruct ts as [|t' ts]; [done|].
  change (join d (t :: t' :: ts)) with (t ++ d :: join d (t' :: ts)).
  by rewrite not_elem_of_app, not_elem_of_cons.
Qed.

Lemma limits_no c e : entry_ok e → isdigit c = false → c ∉ lit "KMGkmg," → c ∉ join "," (opt_text <$> e_limits e).
Proof.
  intros [Ho _] Hc Hu. apply elem_of_join; [intros ->; apply Hu; vm_compute; set_solver|].
  apply Forall_fmap. eapply Forall_impl; [exact Ho|]. intros o Hok. simpl.
  apply opt_text_no; [done..|]. clear -Hu. vm_compute in *. set_solver.
Qed.

Lemma starts_with_missing c p s : c ∈ p → c ∉ s → starts_with p s = false.
Proof.
  intros Hp Hs. destruct (starts_with p s) eqn:E; [|done]. apply starts_with_spec in E as [t ->]. set_solver.
Qed.

Lemma mem_type_entry e : entry_ok e → mem_type (entry_text e) = (e_type e, length (tag (e_type e))).
Proof.
  intros He. unfold mem_type, entry_text. destruct (e_type e) as [[]|]; [by cbn..|]. cbn [tag app].
  assert (":"%char ∉ join "," (opt_text <$> e_limits e)) as Hc by (apply limits_no; [done..|vm_compute; set_solver]).
  by rewrite !(starts_with_missing ":"%char) by (exact Hc || (vm_compute; set_solver)).
Qed.

Lemma MemTypeParser_entry garbage e c :
  entry_ok e → MemTypeParser garbage (entry_text e) c = checked (entry_fits e) (apply_entry garbage c e).
Proof.
  intros He. unfold MemTypeParser. rewrite mem_type_entry by done. unfold entry_text.
  rewrite drop_app_length. by apply mem_limits.
Qed.

Lemma numeric_opt_text o : opt_ok o → numeric (opt_text o) = true.
Proof. destruct o as [n|]; [|done]. intros (c & s & E & Hc)%num_text_cons. simpl. by rewrite E. Qed.

Lemma opt_GetValue o v :
  opt_ok o →
  (if bool_decide (opt_text o = []) then Ret v
   else GetValue (opt_text o) (Z.of_nat (length (opt_text o))) v) = checked (opt_fits o) (opt_value v o).
Proof.
  intros Ho. case_bool_decide as E; [by rewrite (opt_text_nil o)|].
  destruct o as [n|]; [|done]. pose proof (GetValue_num n [] v Ho) as G. by rewrite app_nil_r in G.
Qed.

Lemma parse_param_buffers garbage o st :
  opt_ok o → buffers_set st = false →
  parse_param garbage (opt_text o) st =
    checked (opt_fits o) {| buffers := opt_value (buffers st) o; buffers_set := true; max := max st;
                            max_set := max_set st; cfgs := cfgs st |}.
Proof.
  intros Ho Hb. unfold parse_param. rewrite Hb, numeric_opt_text by done.
  cbn [negb andb]. rewrite (opt_GetValue o _ Ho). by destruct (opt_fits o).
Qed.

Lemma parse_param_max garbage o st :
  opt_ok o → buffers_set st = true → max_set st = false →
  parse_param garbage (opt_text o) st =
    checked (opt_fits o) {| buffers := buffers st; buffers_set := buffers_set st; max := opt_value (max st) o;
                            max_set := true; cfgs := cfgs st |}.
Proof.
  intros Ho Hb Hm. unfold parse_param. rewrite Hb, Hm, numeric_opt_text by done.
  cbn [negb andb]. rewrite (opt_GetValue o _ Ho). by destruct (opt_fits o).
Qed.

Fixpoint param_loop (garbage : bool) (Params : list cstr) (st : state) : outcome state :=
  match Params with
  | [] => Ret st
  | p :: ps => st ← parse_param garbage p st; param_loop garbage ps st
  end.

(** The position loop visits the semicolon-separated parameters, an empty last
    one included, and its fuel is enough. *)
Lemma main_loop_spec fuel garbage pre ts st :
  ts ≠ [] → Forall (λ t : cstr, ";"%char ∉ t) ts → (length (join ";" ts) < fuel)%nat →
  main_loop fuel garbage (pre ++ join ";" ts) (length pre) st = param_loop garbage ts st.
Proof.
  revert fuel pre st. induction ts as [|t ts IH]; intros fuel pre st Hne Hts Hf; [done|].
  destruct fuel as [|fuel]; [lia|]. inversion Hts; subst. cbn [main_loop param_loop].
  unfold find_from, substr. rewrite !drop_app_length.
  destruct ts as [|t' ts]; [cbn [join] in *|change (join ";" (t :: t' :: ts)) with (t ++ ";"%char :: join ";" (t' :: ts)) in *].
  - rewrite (proj2 (find_char_None _ _)) by done. cbn [fmap option_fmap option_map default].
    rewrite length_app. replace (length pre + length t - length pre)%nat with (length t) by lia.
    rewrite take_ge by done. by destruct (parse_param _ _ _).
  - rewrite find_char_app by done. cbn [fmap option_fmap option_map default]. unfold id.
    replace (length pre + length t - length pre)%nat with (length t) by lia.
    rewrite take_app_length. destruct (parse_param _ t _) as [st'| |]; [|done..].
    cbn [mbind outcome_bind].
    specialize (IH fuel (pre ++ t ++ [";"%char]) st').
    replace (length (pre ++ t ++ [";"%char])) with (S (length pre + length t)) in IH
      by (rewrite !length_app; simpl; lia).
    rewrite <-!app_assoc in IH. apply IH; [done..|].
    rewrite length_app, length_cons in Hf. lia.
Qed.

Lemma entries_loop garbage es st :
  Forall entry_ok es → buffers_set st = true → max_set st = true →
  param_loop garbage (entry_text <$> es) st =
  checked (forallb entry_fits es)
    {| buffers := buffers st; buffers_set := true; max := max st; max_set := true;
       cfgs := foldl (apply_entry garbage) (cfgs st) es |}.
Proof.
  intros Hes. revert st. induction Hes as [|e es He Hes IH]; intros st Hb Hm; cbn [fmap list_fmap param_loop].
  { destruct st; simpl in *. by subst. }
  unfold parse_param. rewrite Hb, Hm, MemTypeParser_entry by done. cbn [negb andb forallb foldl].
  destruct (entry_fits e); [|done]. cbn [checked mbind outcome_bind]. by rewrite IH.
Qed.

Lemma params_no_semicolon s : settings_ok s → Forall (λ t : cstr, ";"%char ∉ t) (params s).
Proof.
  intros (H1 & H2 & H3). unfold params, s_max, s_entries in *.
  assert (∀ o, opt_ok o → ";"%char ∉ opt_text o) as Ho
    by (intros; apply opt_text_no; [done..|vm_compute; set_solver]).
  apply Forall_cons. split; [by apply Ho|]. destruct (s_rest s) as [[ms es]|]; [|constructor]. simpl in H2, H3.
  apply Forall_cons. split; [by apply Ho|]. apply Forall_fmap. eapply Forall_impl; [exact H3|].
  intros e He. unfold entry_text. simpl. rewrite not_elem_of_app. split.
  - destruct (e_type e) as [[]|]; vm_compute; set_solver.
  - apply limits_no; [done..|vm_compute; set_solver].
Qed.

End PoolConfigFacts.

Module PoolConfigProps.
Import PoolConfig PoolConfigSpec PoolConfigFacts.

(** C38: the settings grammar: of every text of the documented form (optional
    EnableBuffers and MaxPoolSize, then any number of entries with or without a
    memory type, with any of their limits left out), the parser makes exactly
    the documented settings: given values replace the defaults of the code, in
    order, so the right-most wins.  It does so without an access out of range,
    and with two departures: a number above the maximal [int] makes
    [std::out_of_range] leave the parser, and in an entry without memory type a
    limit left out before a comma is copied from the host's to every type when
    an earlier limit was given or the uninitialised flag happened to be set
    ([copied]). *)
Theorem parse_settings garbage trace s :
  settings_ok s →
  parseDisjointPoolConfig garbage (settings_text s) trace =
    if settings_fit s then
      Ret {| EnableBuffers := opt_value 1 (s_buffers s); MaxSize := opt_value SIZE_MAX (s_max s);
             Configs := let c := foldl (apply_entry garbage) (default_configs 0) (s_entries s) in
                        tabulate (λ M, set_trace trace (at_type c M)) |}
    else Throw std_out_of_range.
Proof.
  intros Hs. pose proof (params_no_semicolon s Hs) as Hn. destruct Hs as (H1 & H2 & H3).
  unfold parseDisjointPoolConfig, settings_text.
  pose proof (main_loop_spec (S (length (join ";" (params s)))) garbage [] (params s)) as Hl.
  rewrite app_nil_l in Hl. rewrite Hl by (done || lia). clear Hl Hn.
  unfold params, settings_fit, s_max, s_entries in *. cbn [param_loop].
  rewrite parse_param_buffers by done. destruct (opt_fits (s_buffers s)); [|done]. cbn [checked mbind outcome_bind].
  destruct (s_rest s) as [[ms es]|]; [|done]. cbn [fmap option_fmap option_map mjoin option_join fst snd default] in *.
  cbn [param_loop]. rewrite parse_param_max by done. destruct (opt_fits ms); [|done]. cbn [checked mbind outcome_bind].
  unfold id in *. rewrite entries_loop by done. by destruct (forallb entry_fits es).
Qed.

Lemma parse_settings_witness :
  let n s u := Some {| digits := lit s; unit_of := u; lower := false |} in
  let s last := {| s_buffers := n "1" UNone;
    s_rest := Some (n "32" UM,
      [{| e_type := Some Host; e_limits := [n "1" UM; None; n "64" UK] |};
       {| e_type := None; e_limits := [None; n last UNone] |}]) |} in
  settings_text (s "2") = lit "1;32M;host:1M,,64K;,2" ∧
  parseDisjointPoolConfig true (settings_text (s "4294967296")) 0 = Throw std_out_of_range ∧
  ∃ c, parseDisjointPoolConfig true (settings_text (s "2")) 0 = Ret c ∧ MaxSize c = 32 * 2 ^ 20 ∧
    Capacity (at_type (Configs c) Shared) = 2 ∧ MaxPoolableSize (at_type (Configs c) Shared) = 2 ^ 20.
Proof.
  intros n s.
  assert (∀ d, d = "2"%string ∨ d = "4294967296"%string → settings_ok (s d)) as Hok.
  { intros d Hd. split_and!; [done..|]. repeat (apply Forall_cons; split); [..|constructor];
      (split; [|simpl; lia]); repeat (apply Forall_cons; split); by destruct Hd as [-> | ->]. }
  split; [by vm_compute|]. split.
  - rewrite (parse_settings true 0 (s "4294967296")) by (apply Hok; by right). by vm_compute.
  - eexists. split; [rewrite (parse_settings true 0 (s "2")) by (apply Hok; by left); vm_compute; reflexivity|].
    by vm_compute.
Defined.

(** error behaviour of the limits: without a memory type, an omitted
    capacity is not left alone: the flag of the first parameter is stale, and
    the host's capacity is copied to every memory type (so that shared pools,
    not pooled by default, become pooled). *)
Theorem omitted_capacity_overwrites garbage m sl c :
  num_ok m → num_ok sl → num_fits m = true → num_fits sl = true →
  let e := {| e_type := None; e_limits := [Some m; None; Some sl] |} in
  ∃ c', MemTypeParser garbage (entry_text e) c = Ret c' ∧
    ∀ M, Capacity (at_type c' M) = Capacity (at_type c Host).
Proof.
  intros Hm Hs Em Es e. assert (entry_ok e) as He by (split; [by repeat (apply Forall_cons; split)|simpl; lia]).
  eexists. rewrite MemTypeParser_entry by done. unfold entry_fits. simpl. rewrite Em, Es.
  split; [reflexivity|]. by destruct garbage; intros [].
Qed.

Lemma omitted_capacity_overwrites_witness :
  ∃ c', MemTypeParser false (lit "1M,,64K") (default_configs 0) = Ret c' ∧
    Capacity (at_type c' Shared) = 4.
Proof.
  destruct (omitted_capacity_overwrites false {| digits := lit "1"; unit_of := UM; lower := false |}
    {| digits := lit "64"; unit_of := UK; lower := false |} (default_configs 0)) as (c' & E & H); [done..|].
  exists c'. split; [exact E|]. by rewrite H.
Defined.

(** A bare suffix makes [GetValue] read before the start of the string, and a
    number that is not an [int] makes it throw. *)
Example bare_suffix : parseDisjointPoolConfig false (lit ";;host:k") 0 = Undefined.
Proof. by vm_compute. Qed.
Example large_number : parseDisjointPoolConfig false (lit ";4294967296") 0 = Throw std_out_of_range.
Proof. by vm_compute. Qed.

End PoolConfigProps.
