(* ===== verification/AdapterRegistry.v ===== *)
(** * Choosing and loading adapters (source/loader/ur_adapter_registry.hpp,
    ur_manifests.hpp, ur_loader.cpp)

    The pre-filter that [ONEAPI_DEVICE_SELECTOR] puts on the known adapters, the
    search paths of each adapter library, and the loading loop of
    [context_t::init].  The file system and the dynamic linker are the class
    [Platform]; a path is its text. *)
From stdpp Require Import base numbers list strings sets sorting.
From Stdlib Require Import Ascii.
From S2P Require Import Prelude CString UrUtil DeviceSelector.
Local Open Scope Z_scope.

Class Platform := {
  getenv : cstr → option cstr;
  fs_exists : cstr → bool;
  getLoaderLibPath : option cstr;
  (** [LibLoader::loadAdapterLibrary] returns a handle. *)
  loadAdapterLibrary : cstr → bool;
}.

Module Registry.
Import Env Select.

(** ** Manifests *)

Record ur_adapter_manifest := {
  name : cstr; library : cstr; backend : Z; device_types : list Z }.

(** [MAKE_LIBRARY_NAME(name, 0)] on Linux. *)
Definition MAKE_LIBRARY_NAME (n : cstr) : cstr := lit "lib" ++ n ++ lit ".so.0".

Definition manifest (n : cstr) (b : Z) (ds : list Z) : ur_adapter_manifest :=
  {| name := n; library := MAKE_LIBRARY_NAME (lit "ur_adapter_" ++ n); backend := b;
     device_types := ds |}.

Definition ur_adapter_manifests : list ur_adapter_manifest :=
  [manifest (lit "opencl") UR_BACKEND_OPENCL
     [UR_DEVICE_TYPE_CPU; UR_DEVICE_TYPE_GPU; UR_DEVICE_TYPE_FPGA; UR_DEVICE_TYPE_MCA;
      UR_DEVICE_TYPE_VPU; UR_DEVICE_TYPE_CUSTOM];
   manifest (lit "cuda") UR_BACKEND_CUDA [UR_DEVICE_TYPE_GPU];
   manifest (lit "hip") UR_BACKEND_HIP [UR_DEVICE_TYPE_GPU];
   manifest (lit "level_zero") UR_BACKEND_LEVEL_ZERO
     [UR_DEVICE_TYPE_CPU; UR_DEVICE_TYPE_GPU; UR_DEVICE_TYPE_FPGA; UR_DEVICE_TYPE_MCA;
      UR_DEVICE_TYPE_VPU];
   manifest (lit "level_zero_v2") UR_BACKEND_LEVEL_ZERO
     [UR_DEVICE_TYPE_CPU; UR_DEVICE_TYPE_GPU; UR_DEVICE_TYPE_FPGA; UR_DEVICE_TYPE_MCA;
      UR_DEVICE_TYPE_VPU];
   manifest (lit "native_cpu") UR_BACKEND_NATIVE_CPU [UR_DEVICE_TYPE_CPU];
   manifest (lit "offload") UR_BACKEND_OFFLOAD [UR_DEVICE_TYPE_CPU; UR_DEVICE_TYPE_GPU]].

(** ** Filter terms *)

Record FilterTerm := { term_backend : cstr; devices : list cstr }.

Definition backendNameMap : list (cstr * Z) :=
  [(lit "opencl", UR_BACKEND_OPENCL); (lit "level_zero", UR_BACKEND_LEVEL_ZERO);
   (lit "cuda", UR_BACKEND_CUDA); (lit "hip", UR_BACKEND_HIP);
   (lit "native_cpu", UR_BACKEND_NATIVE_CPU); (lit "offload", UR_BACKEND_OFFLOAD)].
Definition deviceTypeMap : list (cstr * Z) :=
  [(lit "cpu", UR_DEVICE_TYPE_CPU); (lit "gpu", UR_DEVICE_TYPE_GPU); (lit "fpga", UR_DEVICE_TYPE_FPGA)].

(** [s.front()] of an empty string is undefined. *)
Definition front (s : cstr) : outcome ascii :=
  match s with [] => Undefined | c :: _ => Ret c end.

Definition matchesBackend (t : FilterTerm) (match_backend : Z) : outcome bool :=
  c ← front (term_backend t);
  Ret (if decide (c = "*"%char) then true else
       match map_find (term_backend t) backendNameMap with
       | None => false
       | Some b => b =? match_backend
       end).

Fixpoint matchesDevices (devices : list cstr) (match_device : Z) : outcome bool :=
  match devices with
  | [] => Ret false
  | deviceString :: devices =>
      c ← front deviceString;
      if bool_decide (c = "*"%char) || isdigit c then Ret true else
      match map_find deviceString deviceTypeMap with
      | None => matchesDevices devices match_device
      | Some d => if d =? match_device then Ret true else matchesDevices devices match_device
      end
  end.

Definition matches (t : FilterTerm) (b d : Z) : outcome bool :=
  mb ← matchesBackend t b;
  if mb : bool then matchesDevices (devices t) d else Ret false.

(** [std::any_of] *)
Definition any_of {A} (p : A → outcome bool) (l : list A) : outcome bool := find_if p l.

(** ** The pre-filter *)

Definition legal_backend (k : cstr) : bool :=
  bool_decide (k = lit "*") || bool_decide (k = lit "!*") ||
  existsb (λ m, bool_decide (k = name m) || bool_decide (k = "!"%char :: name m))
    ur_adapter_manifests.

(** A term, its polarity and its lower-case backend. *)
Definition make_term (t : cstr * list cstr) : option (bool * FilterTerm) :=
  match t.1 with
  | [] => None
  | c :: rest =>
      let positive := negb (bool_decide (c = "!"%char)) in
      Some (positive, {| term_backend := tolower <$> (if positive then t.1 else rest);
                         devices := t.2 |})
  end.

Definition default_ods : EnvVarMap := [(lit "*", [lit "*"])].
Definition all_term : FilterTerm := {| term_backend := lit "*"; devices := [lit "*"] |}.

(** The selector as the pre-filter sees it. *)
Definition ods_terms (ods : option cstr) : list (bool * FilterTerm) :=
  let mapODS := match getenv_to_map false true false ods with
                | Ret (Some m) => m | _ => default_ods end in
  let mapODS := if forallb (λ e, legal_backend e.1) mapODS then mapODS else default_ods in
  omap make_term mapODS.

Definition positive_terms (ts : list (bool * FilterTerm)) : list FilterTerm :=
  let p := snd <$> filter (λ t, t.1 = true) ts in
  if bool_decide (p = []) then [all_term] else p.
Definition negative_terms (ts : list (bool * FilterTerm)) : list FilterTerm :=
  snd <$> filter (λ t, t.1 = false) ts.

(** [std::set<std::string>::insert] *)
Definition set_insert (k : cstr) (s : list (cstr * unit)) : list (cstr * unit) := map_insert k tt s.

(** Some positive filter and no negative filter matches. *)
Definition selected (pos neg : list FilterTerm) (b d : Z) : outcome bool :=
  p ← any_of (λ f, matches f b d) pos;
  if p : bool then n ← any_of (λ f, matches f b d) neg; Ret (negb n) else Ret false.

(** The device loop and the manifest loop. *)
Fixpoint filter_devices (pos neg : list FilterTerm) (m : ur_adapter_manifest) (ds : list Z)
    (adapterNames : list (cstr * unit)) : outcome (list (cstr * unit)) :=
  match ds with
  | [] => Ret adapterNames
  | d :: ds =>
      ok ← selected pos neg (backend m) d;
      filter_devices pos neg m ds
        (if ok : bool then set_insert (library m) adapterNames else adapterNames)
  end.

Fixpoint filter_manifests (pos neg : list FilterTerm) (ms : list ur_adapter_manifest)
    (adapterNames : list (cstr * unit)) : outcome (list (cstr * unit)) :=
  match ms with
  | [] => Ret adapterNames
  | m :: ms =>
      names ← filter_devices pos neg m (device_types m) adapterNames;
      filter_manifests pos neg ms names
  end.

Definition getFilteredAdapterNames (ods : option cstr) : outcome (list cstr) :=
  let ts := ods_terms ods in
  names ← filter_manifests (positive_terms ts) (negative_terms ts) ur_adapter_manifests [];
  Ret (names.*1).

(** ** Paths *)

Definition is_absolute (p : cstr) : bool := match p with "/"%char :: _ => true | _ => false end.
(** [p / q] *)
Definition path_append (p q : cstr) : cstr :=
  if is_absolute q then q
  else if bool_decide (p = []) || bool_decide (last p = Some "/"%char) then p ++ q
  else p ++ "/"%char :: q.

(** [path.filename()] and its [extension()]. *)
Definition filename (p : cstr) : cstr :=
  match find_char "/" (rev p) with None => p | Some i => drop (length p - i) p end.
Definition extension (f : cstr) : cstr :=
  if bool_decide (f = lit ".") || bool_decide (f = lit "..") then [] else
  match find_char "." (rev f) with
  | None => []
  | Some i => if decide (S i = length f) then [] else drop (length f - S i) f
  end.

Section platform.
Context `{Platform}.

(** ** The registry *)

Record AdapterRegistry := {
  adaptersLoadPaths : list (list cstr); forceLoaded : bool; staticLoadedAdapters : list cstr }.

Definition getEnvAdapterSearchPaths : option (list cstr) :=
  match getenv_to_vec (getenv (lit "UR_ADAPTERS_SEARCH_PATH")) with
  | Ret ps =>
      let paths := filter (λ p, fs_exists p = true) (default [] ps) in
      if bool_decide (paths = []) then None else Some paths
  | _ => None
  end.

Definition load_paths (search : option (list cstr)) (loaderLibPath : option cstr)
    (loader_dir_first : bool) (adapterName : cstr) : list cstr :=
  let os := [adapterName] in
  let lib := match loaderLibPath with Some p => [path_append p adapterName] | None => [] end in
  ((λ p, path_append p adapterName) <$> default [] search)
  ++ (if loader_dir_first then lib ++ os else os ++ lib).

Definition discoverKnownAdapters (loader_dir_first : bool) : outcome (list (list cstr)) :=
  let loaderPreFilter := getenv_tobool (getenv (lit "UR_LOADER_PRELOAD_FILTER")) true in
  let paths (adapterNames : list cstr) :=
    load_paths getEnvAdapterSearchPaths getLoaderLibPath loader_dir_first <$> adapterNames in
  let all : list cstr := (foldl (λ s m, set_insert (library m) s) [] ur_adapter_manifests).*1 in
  adapterNames ← (if loaderPreFilter
                  then getFilteredAdapterNames (getenv (lit "ONEAPI_DEVICE_SELECTOR"))
                  else Ret all);
  Ret (paths adapterNames).

(** The constructor. *)
Definition construct (loader_dir_first : bool) : outcome AdapterRegistry :=
  match getenv_to_vec (getenv (lit "UR_ADAPTERS_FORCE_LOAD")) with
  | Ret (Some paths) =>
      let paths := filter (λ p, extension (filename p) ≠ lit ".a" ∧ fs_exists p = true) paths in
      Ret {| adaptersLoadPaths := (λ p, [p]) <$> paths;
             forceLoaded := negb (bool_decide (paths = [])); staticLoadedAdapters := [] |}
  | _ =>
      paths ← discoverKnownAdapters loader_dir_first;
      Ret {| adaptersLoadPaths := paths; forceLoaded := false; staticLoadedAdapters := [] |}
  end.

Definition contains (name path : cstr) : bool := bool_decide (is_Some (find_str name path)).
Definition markAdapterAsStaticallyLoaded (n : cstr) (r : AdapterRegistry) : AdapterRegistry :=
  {| adaptersLoadPaths := adaptersLoadPaths r; forceLoaded := forceLoaded r;
     staticLoadedAdapters := n :: staticLoadedAdapters r |}.
Definition isStaticallyLoaded (r : AdapterRegistry) (path : cstr) : bool :=
  existsb (λ n, contains n path) (staticLoadedAdapters r).
Definition includesAdapter (r : AdapterRegistry) (n : cstr) : bool :=
  existsb (existsb (contains n)) (adaptersLoadPaths r).

Definition mockAdapterName : cstr := MAKE_LIBRARY_NAME (lit "ur_adapter_mock").
Definition enableMock (r : AdapterRegistry) : AdapterRegistry :=
  {| adaptersLoadPaths :=
       [mockAdapterName :: match getLoaderLibPath with
                           | Some p => [path_append p mockAdapterName] | None => [] end];
     forceLoaded := true; staticLoadedAdapters := staticLoadedAdapters r |}.

(** ** [context_t::init]: static adapters, then the first loadable path of
    every registered adapter. *)

Inductive platform_source := StaticAdapter (n : cstr) | Library (path : cstr).

Fixpoint load_static (statics : list cstr) (r : AdapterRegistry) (platforms : list platform_source)
    : AdapterRegistry * list platform_source :=
  match statics with
  | [] => (r, platforms)
  | n :: ns =>
      if includesAdapter r n
      then load_static ns (markAdapterAsStaticallyLoaded n r) (platforms ++ [StaticAdapter n])
      else load_static ns r platforms
  end.

Fixpoint load_first (paths : list cstr) : list platform_source :=
  match paths with
  | [] => []
  | p :: ps => if loadAdapterLibrary p then [Library p] else load_first ps
  end.

Definition skip_adapter (r : AdapterRegistry) (paths : list cstr) : bool :=
  match paths with [] => false | p :: _ => isStaticallyLoaded r p end.

Fixpoint load_dynamic (r : AdapterRegistry) (adapters : list (list cstr)) : list platform_source :=
  match adapters with
  | [] => []
  | paths :: rest =>
      (if skip_adapter r paths then [] else load_first paths) ++ load_dynamic r rest
  end.

(** [statics]: the adapters linked into the loader, in the order of the code.
    The second result is [intercept_enabled]. *)
Definition context_init (statics : list cstr) (r : AdapterRegistry)
    : list platform_source * bool :=
  let '(r, platforms) := if forceLoaded r then (r, []) else load_static statics r [] in
  let platforms := platforms ++ load_dynamic r (adaptersLoadPaths r) in
  (platforms, getenv_tobool (getenv (lit "UR_ENABLE_LOADER_INTERCEPT")) false
              || (1 <? Z.of_nat (length platforms))).

End platform.
End Registry.

(** ** What the pre-filter means *)
Module RegistrySpec.
Import Env Select Registry.

(** A wildcard or an index matches every device type, a type name its type. *)
Definition device_matches (s : cstr) (d : Z) : Prop :=
  (∃ c r, s = c :: r ∧ (c = "*"%char ∨ isdigit c = true)) ∨ map_find s deviceTypeMap = Some d.
Definition backend_matches (k : cstr) (b : Z) : Prop :=
  head k = Some "*"%char ∨ map_find k backendNameMap = Some b.
Definition term_matches (t : FilterTerm) (b d : Z) : Prop :=
  backend_matches (term_backend t) b ∧ ∃ s, s ∈ devices t ∧ device_matches s d.

Definition term_ok (t : FilterTerm) : Prop := term_backend t ≠ [] ∧ Forall (λ s, s ≠ []) (devices t).

(** The terms select a device type of a manifest. *)
Definition wanted (pos neg : list FilterTerm) (m : ur_adapter_manifest) (d : Z) : Prop :=
  (∃ t, t ∈ pos ∧ term_matches t (backend m) d) ∧ ¬ ∃ t, t ∈ neg ∧ term_matches t (backend m) d.

End RegistrySpec.

Module RegistryFacts.
Import Env Select Registry RegistrySpec.

(** [reflects m P]: the computation returns whether [P] holds. *)
Definition reflects (m : outcome bool) (P : Prop) : Prop := ∃ b, m = Ret b ∧ (b = true ↔ P).

Lemma matchesBackend_spec t b :
  term_backend t ≠ [] → reflects (matchesBackend t b) (backend_matches (term_backend t) b).
Proof.
  intros Hne. unfold matchesBackend, backend_matches, reflects.
  destruct (term_backend t) as [|c k] eqn:E; [done|]. cbn [front mbind outcome_bind head].
  eexists. split; [done|]. destruct (decide (c = "*"%char)) as [->|Hc]; [naive_solver|].
  destruct (map_find _ _); [rewrite Z.eqb_eq|]; naive_solver.
Qed.

Lemma matchesDevices_spec ss d :
  Forall (λ s, s ≠ []) ss → reflects (matchesDevices ss d) (∃ s, s ∈ ss ∧ device_matches s d).
Proof.
  unfold reflects. induction 1 as [|s ss Hs Hss (b & IH & Hb)]; cbn [matchesDevices].
  { exists false. split; [done|]. split; [done|]. by intros (? & ?%elem_of_nil & _). }
  destruct s as [|c r]; [done|]. cbn [front mbind outcome_bind].
  setoid_rewrite elem_of_cons.
  assert (∀ P : Prop, P ↔ (∃ s, (s = c :: r ∨ s ∈ ss) ∧ device_matches s d) → True) as _ by done.
  assert ((∃ s, (s = c :: r ∨ s ∈ ss) ∧ device_matches s d) ↔
          device_matches (c :: r) d ∨ b = true) as Heq by (rewrite Hb; naive_solver).
  destruct (bool_decide (c = "*"%char) || isdigit c) eqn:Hc.
  - exists true. split; [done|]. rewrite Heq. split; [|done]. intros _. left. left. exists c, r.
    apply orb_true_iff in Hc as [Hc|Hc]; bool_to_prop; auto.
  - apply orb_false_iff in Hc as [Hc1 Hc2]. bool_to_prop.
    assert (device_matches (c :: r) d ↔ map_find (c :: r) deviceTypeMap = Some d) as Hd.
    { unfold device_matches. split; [|by right]. intros [(c' & r' & [= -> ->] & [?|?])|?]; congruence. }
    destruct (map_find (c :: r) deviceTypeMap) as [d'|].
    + destruct (d' =? d) eqn:E; bool_to_prop; [exists true|exists b]; (split; [done|]);
        rewrite Heq, Hd; naive_solver.
    + exists b. split; [done|]. rewrite Heq, Hd. naive_solver.
Qed.

Lemma matches_spec t b d : term_ok t → reflects (matches t b d) (term_matches t b d).
Proof.
  intros [Hb Hd]. unfold matches, term_matches.
  destruct (matchesBackend_spec t b Hb) as ([] & -> & Hmb); cbn [mbind outcome_bind].
  - destruct (matchesDevices_spec (devices t) d Hd) as (b' & -> & Hmd). exists b'.
    split; [done|]. rewrite Hmd. naive_solver.
  - exists false. split; [done|]. naive_solver.
Qed.

Lemma any_of_spec ts b d :
  Forall term_ok ts →
  reflects (any_of (λ f, matches f b d) ts) (∃ t, t ∈ ts ∧ term_matches t b d).
Proof.
  unfold any_of, reflects. induction 1 as [|t ts Ht Hts (b' & IH & Hb')]; cbn [find_if].
  { exists false. split; [done|]. split; [done|]. by intros (? & ?%elem_of_nil & _). }
  setoid_rewrite elem_of_cons. destruct (matches_spec t b d Ht) as ([] & -> & Hm); cbn [mbind outcome_bind].
  - exists true. split; [done|]. naive_solver.
  - exists b'. split; [done|]. rewrite Hb'. naive_solver.
Qed.

Lemma selected_spec pos neg m d :
  Forall term_ok pos → Forall term_ok neg →
  reflects (selected pos neg (backend m) d) (wanted pos neg m d).
Proof.
  intros Hp Hn. unfold selected, wanted, reflects.
  destruct (any_of_spec pos (backend m) d Hp) as (p & -> & Hpp).
  destruct (any_of_spec neg (backend m) d Hn) as (n & En & Hnn). cbn [mbind outcome_bind].
  destruct p; [rewrite En|]; eexists; (split; [done|]); destruct n; simpl; tauto || naive_solver.
Qed.

Lemma filter_devices_spec pos neg m ds acc :
  Forall term_ok pos → Forall term_ok neg → map_sorted acc →
  ∃ acc', filter_devices pos neg m ds acc = Ret acc' ∧ map_sorted acc' ∧
    ∀ L, L ∈ acc'.*1 ↔ L ∈ acc.*1 ∨ (L = library m ∧ ∃ d, d ∈ ds ∧ wanted pos neg m d).
Proof.
  intros Hp Hn. revert acc. induction ds as [|d ds IH]; intros acc Ha; cbn [filter_devices].
  { exists acc. split; [done|]. split; [done|]. intros L. split; [auto|].
    by intros [?|(_ & ? & ?%elem_of_nil & _)]. }
  destruct (selected_spec pos neg m d Hp Hn) as (ok & -> & Hok). cbn [mbind outcome_bind].
  setoid_rewrite elem_of_cons.
  destruct (IH (if ok then set_insert (library m) acc else acc)) as (acc' & -> & Hs & HL).
  { destruct ok; [by apply map_insert_sorted|done]. }
  exists acc'. split; [done|]. split; [done|]. intros L. rewrite HL.
  destruct ok; [unfold set_insert; rewrite map_insert_keys|]; naive_solver.
Qed.

Lemma filter_manifests_spec pos neg ms acc :
  Forall term_ok pos → Forall term_ok neg → map_sorted acc →
  ∃ acc', filter_manifests pos neg ms acc = Ret acc' ∧ map_sorted acc' ∧
    ∀ L, L ∈ acc'.*1 ↔ L ∈ acc.*1 ∨
      ∃ m d, m ∈ ms ∧ L = library m ∧ d ∈ device_types m ∧ wanted pos neg m d.
Proof.
  intros Hp Hn. revert acc. induction ms as [|m ms IH]; intros acc Ha; cbn [filter_manifests].
  { exists acc. split; [done|]. split; [done|]. intros L. split; [auto|].
    by intros [?|(? & ? & ?%elem_of_nil & _)]. }
  destruct (filter_devices_spec pos neg m (device_types m) acc) as (acc1 & -> & H1 & HL1); [done..|].
  cbn [mbind outcome_bind]. destruct (IH acc1 H1) as (acc' & -> & Hs & HL).
  exists acc'. split; [done|]. split; [done|]. intros L. rewrite HL, HL1.
  setoid_rewrite elem_of_cons. naive_solver.
Qed.

Lemma legal_backend_lower k : legal_backend k = true → k ≠ [] ∧
  ∀ r, k = "!"%char :: r → r ≠ [].
Proof.
  unfold legal_backend. rewrite !orb_true_iff, existsb_exists. intros [[H|H]|(m & Hm & H)].
  - bool_to_prop. by subst.
  - bool_to_prop. subst. split; [done|]. by intros r [= <-].
  - rewrite orb_true_iff, !bool_decide_eq_true in H.
    assert (∀ n : cstr, head n ≠ Some "!"%char → n ≠ [] → (k = n ∨ k = "!"%char :: n) →
      k ≠ [] ∧ ∀ r, k = "!"%char :: r → r ≠ []) as Hk.
    { intros n Hh Hn [-> | ->]; (split; [done|]); intros r E; [by subst|by injection E as <-]. }
    apply (Hk (name m)); [| |exact H]; clear -Hm;
      repeat (destruct Hm as [<-|Hm]; [done|]); by destruct Hm.
Qed.

Lemma ods_terms_backend ods t : t ∈ ods_terms ods → term_backend t.2 ≠ [].
Proof.
  unfold ods_terms. set (m := match getenv_to_map _ _ _ _ with Ret (Some m) => m | _ => _ end).
  intros ([k ss] & Hin & Hm)%list_elem_of_omap.
  assert (legal_backend k = true) as Hk.
  { destruct (forallb _ m) eqn:E; [|by apply list_elem_of_singleton in Hin as [= -> ->]].
    rewrite forallb_forall in E. apply list_elem_of_In, E in Hin. done. }
  apply legal_backend_lower in Hk as [Hk Hr]. unfold make_term in Hm. simpl in Hm.
  destruct k as [|c r]; [done|]. injection Hm as <-. simpl. case_bool_decide; [|done].
  subst. specialize (Hr r eq_refl). by destruct r.
Qed.

End RegistryFacts.

Module RegistryProps.
Import Env Select Registry RegistrySpec RegistryFacts.

(** meaning of the pre-filter: unless the selector names an empty device
    string (whose first character does not exist), the pre-filter succeeds and
    keeps, sorted and without repetition, exactly the adapter libraries of
    which some device type is matched by a positive term (every device, when
    there is none) and by no negative term; a malformed selector or one with
    an unknown backend counts as the selector of everything. *)
Theorem prefilter_spec ods :
  let ts := ods_terms ods in
  Forall (λ t, Forall (λ s, s ≠ []) (devices t.2)) ts →
  ∃ names, getFilteredAdapterNames ods = Ret names ∧ StronglySorted str_lt names ∧
    ∀ L, L ∈ names ↔ ∃ m d, m ∈ ur_adapter_manifests ∧ L = library m ∧ d ∈ device_types m ∧
      wanted (positive_terms ts) (negative_terms ts) m d.
Proof.
  intros ts Hts.
  assert (Hok : ∀ b, Forall term_ok (snd <$> filter (λ t, t.1 = b) ts)).
  { intros b. apply Forall_fmap, Forall_forall. intros t Ht%list_elem_of_filter. destruct Ht as [_ Ht].
    split; [by eapply ods_terms_backend|]. rewrite Forall_forall in Hts. by apply Hts. }
  assert (Forall term_ok (positive_terms ts)) as Hp.
  { unfold positive_terms. case_bool_decide; [|apply Hok]. by repeat constructor. }
  destruct (filter_manifests_spec _ _ ur_adapter_manifests [] Hp (Hok false)) as (acc & E & Hs & HL);
    [constructor|].
  unfold getFilteredAdapterNames. fold ts. unfold negative_terms. rewrite E.
  exists acc.*1. split; [done|]. split; [done|]. intros L. rewrite HL.
  split; [by intros [?%elem_of_nil|?]|by right].
Qed.

Lemma prefilter_spec_witness :
  ∃ names, getFilteredAdapterNames (Some (lit "cuda:gpu;level_zero:0;!level_zero:fpga")) = Ret names ∧
    lit "libur_adapter_cuda.so.0" ∈ names ∧ length names = 3%nat.
Proof.
  destruct (prefilter_spec (Some (lit "cuda:gpu;level_zero:0;!level_zero:fpga"))) as (names & E & _ & HL).
  - vm_compute. repeat constructor; done.
  - exists names. split; [exact E|]. split.
    + apply HL. exists (manifest (lit "cuda") UR_BACKEND_CUDA [UR_DEVICE_TYPE_GPU]), UR_DEVICE_TYPE_GPU.
      split; [unfold ur_adapter_manifests; right; by left|]. split; [done|]. split; [by left|].
      split.
      * eexists. split; [vm_compute; by left|]. split; [by right|]. eexists. split; [by left|]. by right.
      * intros (t & Ht & [[Hb|Hb] _]); vm_compute in Ht; apply list_elem_of_singleton in Ht;
          subst; by vm_compute in Hb.
    + vm_compute in E. by injection E as <-.
Defined.

(** *** The pre-filter and the device selector *)

(** The root filters of the documented grammar. *)
Definition root_filter (s : cstr) : Prop :=
  s = lit "*" ∨ SelectProps.numeral s ∨ s ∈ [lit "cpu"; lit "gpu"; lit "fpga"].

(** the pre-filter against the selector it approximates: a device that the
    selector's filter [s] matches is of a type that the pre-filter matches
    with [s], so positive terms load every adapter the selector can use; for
    filters that are not indices the two agree.  For an index, the pre-filter
    matches every type, also of devices the selector's filter does not match,
    so a negative term with an index drops adapters whose other devices the
    selector would keep. *)
Theorem prefilter_approximates s :
  root_filter s →
  ∃ f, parse_filter s = Ret f ∧ level f = ROOT ∧
    (∀ d, ApplyFilter f d = true → matchesDevices [s] (hwType d) = Ret true) ∧
    (¬ SelectProps.numeral s → ∀ d, matchesDevices [s] (hwType d) = Ret true → ApplyFilter f d = true) ∧
    (SelectProps.numeral s → rootId f ≠ DeviceIdTypeALL →
       ∀ d, rootId d ≠ rootId f → matchesDevices [s] (hwType d) = Ret true ∧ ApplyFilter f d = false).
Proof.
  intros [->|[Hs|Hs]].
  - eexists. split; [by vm_compute|]. split_and!; [done|done| |].
    + intros _ d _. unfold ApplyFilter. simpl. by rewrite orb_true_r.
    + intros (_ & H & _). by vm_compute in H.
  - destruct (SelectProps.parse_filter_root s Hs) as (f & E & Hl & Hr).
    assert (∀ T, matchesDevices [s] T = Ret true) as Hm.
    { intros T. destruct Hs as (Hne & Hd & _). destruct s as [|c s]; [done|].
      unfold only_digits in Hd. simpl in Hd. apply andb_true_iff in Hd as [Hc _]. simpl.
      by rewrite Hc, orb_true_r. }
    exists f. split_and!; [done..| | |].
    + intros d _. apply Hm.
    + by intros [].
    + intros _ Hne d Hd. split; [apply Hm|]. unfold ApplyFilter.
      rewrite (proj2 (Z.eqb_neq _ _) Hne). by rewrite (proj2 (Z.eqb_neq (rootId f) (rootId d))).
  - assert (Hname : ∀ f T, f = {| level := ROOT; hwType := T; rootId := DeviceIdTypeALL; subId := 0;
                                 subsubId := 0; urDeviceHandle := 0 |} → T ≠ UR_DEVICE_TYPE_ALL →
      (∀ d, matchesDevices [s] d = Ret (T =? d)) →
      ∀ d, ApplyFilter f d = true ↔ matchesDevices [s] (hwType d) = Ret true).
    { intros f T -> HT Hm d. rewrite Hm. unfold ApplyFilter. cbn [rootId hwType].
      rewrite Z.eqb_refl, (proj2 (Z.eqb_neq T UR_DEVICE_TYPE_ALL) HT), orb_false_r.
      split; [intros E; by rewrite E|by intros [=]]. }
    assert (∃ T, T ≠ UR_DEVICE_TYPE_ALL ∧ (∀ d, matchesDevices [s] d = Ret (T =? d)) ∧
      parse_filter s = Ret {| level := ROOT; hwType := T; rootId := DeviceIdTypeALL; subId := 0;
                              subsubId := 0; urDeviceHandle := 0 |} ∧ ¬ SelectProps.numeral s)
      as (T & HT & Hm & E & Hn).
    { repeat (apply elem_of_cons in Hs as [->|Hs]); [..|by apply elem_of_nil in Hs];
        [exists UR_DEVICE_TYPE_CPU|exists UR_DEVICE_TYPE_GPU|exists UR_DEVICE_TYPE_FPGA];
        (split_and!; [done| |by vm_compute|intros (_ & H & _); by vm_compute in H]);
        intros d; unfold lit; cbn [String.list_ascii_of_string matchesDevices front mbind outcome_bind];
        match goal with |- context [if ?b then _ else _] => replace b with false by (by vm_compute) end;
        match goal with |- context [map_find ?s ?m] =>
          let r := eval vm_compute in (map_find s m) in replace (map_find s m) with r by (by vm_compute) end;
        unfold UR_DEVICE_TYPE_CPU, UR_DEVICE_TYPE_GPU, UR_DEVICE_TYPE_FPGA; cbv beta iota;
        by destruct (_ =? d). }
    eexists. split; [exact E|]. specialize (Hname _ T eq_refl HT Hm).
    split; [done|]. split; [intros d; apply Hname|]. split; [intros _ d; apply Hname|].
    intros H. by apply Hn in H.
Qed.

Lemma prefilter_approximates_witness :
  ∃ f, parse_filter (lit "0") = Ret f ∧
    matchesDevices [lit "0"] UR_DEVICE_TYPE_GPU = Ret true ∧
    ApplyFilter f {| level := ROOT; hwType := UR_DEVICE_TYPE_GPU; rootId := 1; subId := 0;
                     subsubId := 0; urDeviceHandle := 7 |} = false.
Proof.
  destruct (prefilter_approximates (lit "0")) as (f & E & _ & _ & _ & H).
  { right; left. by split_and!. }
  exists f. split; [exact E|]. vm_compute in E. injection E as <-.
  apply (H ltac:(by split_and!) ltac:(done)
           {| level := ROOT; hwType := UR_DEVICE_TYPE_GPU; rootId := 1; subId := 0;
              subsubId := 0; urDeviceHandle := 7 |}). done.
Defined.

(** Discarding one device of a backend drops the whole backend. *)
Example negative_index_drops_adapter :
  (λ names, bool_decide (lit "libur_adapter_cuda.so.0" ∈ names)) <$>
    getFilteredAdapterNames (Some (lit "!cuda:1")) = Ret false.
Proof. by vm_compute. Qed.

(** *** Loading *)
Section loading.
Context `{Platform}.

Lemma load_first_spec paths :
  load_first paths = match list_find (λ p, loadAdapterLibrary p = true) paths with
                     | Some (_, p) => [Library p] | None => [] end.
Proof.
  induction paths as [|p ps IH]; [done|]. simpl.
  destruct (loadAdapterLibrary p) eqn:E; [done|]. rewrite IH. by destruct (list_find _ ps) as [[]|].
Qed.


End loading.

Definition test_platform : Platform := {|
  getenv := λ v, if decide (v = lit "ONEAPI_DEVICE_SELECTOR") then Some (lit "level_zero:gpu")
                 else if decide (v = lit "UR_ADAPTERS_SEARCH_PATH") then Some (lit "/opt/ur,/none")
                 else None;
  fs_exists := λ p, bool_decide (p = lit "/opt/ur");
  getLoaderLibPath := Some (lit "/usr/lib");
  loadAdapterLibrary := λ p, bool_decide (p ∈ [lit "/opt/ur/libur_adapter_level_zero.so.0";
    lit "/usr/lib/libur_adapter_level_zero_v2.so.0"; lit "libur_adapter_level_zero_v2.so.0"]) |}.


(** A statically linked level_zero adapter also hides the dynamic
    level_zero_v2, whose file name contains its name. *)
Example static_name_is_substring :
  let r := {| adaptersLoadPaths := [[lit "libur_adapter_level_zero_v2.so.0"]];
              forceLoaded := false; staticLoadedAdapters := [] |} in
  isStaticallyLoaded (markAdapterAsStaticallyLoaded (lit "ur_adapter_level_zero") r)
    (lit "libur_adapter_level_zero_v2.so.0") = true.
Proof. by vm_compute. Qed.

End RegistryProps.
