(* ===== verification/StreamQueue.v ===== *)
(** * Stream queues of the CUDA and HIP adapters
    (source/common/cuda-hip/stream_queue.hpp, adapters/cuda/queue.cpp,
    adapters/cuda/enqueue.cpp, adapters/cuda/event.hpp)

    An out-of-order queue over in-order streams: round-robin selection with
    delayed streams, reuse of the stream of a dependency, synchronisation of the
    streams used since the last one, and barriers.  The fields of the code that
    come in a compute and a transfer version are the record [side]; streams and
    events of the back end are numbers, and what the queue asks the back end to
    do is appended to [log]. *)
From stdpp Require Import base numbers list sets sorting relations.
From S2P Require Import Prelude.
Local Open Scope Z_scope.

Module StreamQueue.

(** Calls of the back end. *)
Inductive call :=
  | StreamCreate (s : Z)
  | EventCreate (e : Z)
  | EventRecord (e s : Z)
  | StreamWaitEvent (s e : Z)
  | StreamSynchronize (s : Z).

(** [ComputeStreams], [NumComputeStreams], [ComputeStreamIndex],
    [LastSyncComputeStreams], [ComputeAppliedBarrier], and the transfer ones. *)
Record side := {
  Streams : list Z; NumStreams : Z; StreamIndex : Z; LastSync : Z; AppliedBarrier : list bool }.

Record queue := {
  compute : side; transfer : side; DelayCompute : list bool;
  BarrierEvent : option Z; BarrierTmpEvent : option Z;
  fresh : Z; log : list call }.

Definition side_init (n : nat) : side :=
  {| Streams := replicate n 0; NumStreams := 0; StreamIndex := 0; LastSync := 0;
     AppliedBarrier := replicate n false |}.

(** The constructor; [CS] and [TS] are the template parameters. *)
Definition make_queue (IsOutOfOrder : bool) (CS TS : nat) : queue :=
  let n := if IsOutOfOrder then CS else 1%nat in
  {| compute := side_init n; transfer := side_init (if IsOutOfOrder then TS else 0%nat);
     DelayCompute := replicate n false; BarrierEvent := None; BarrierTmpEvent := None;
     fresh := 1; log := [] |}.

(** The constructor from a native handle. *)
Definition make_native (stream : Z) : queue :=
  {| compute := {| Streams := [stream]; NumStreams := 1; StreamIndex := 0; LastSync := 0;
                   AppliedBarrier := [false] |};
     transfer := side_init 0; DelayCompute := [false];
     BarrierEvent := None; BarrierTmpEvent := None; fresh := stream + 1; log := [] |}.

Definition set_compute (s : side) (q : queue) : queue :=
  {| compute := s; transfer := transfer q; DelayCompute := DelayCompute q;
     BarrierEvent := BarrierEvent q; BarrierTmpEvent := BarrierTmpEvent q; fresh := fresh q; log := log q |}.
Definition set_transfer (s : side) (q : queue) : queue :=
  {| compute := compute q; transfer := s; DelayCompute := DelayCompute q;
     BarrierEvent := BarrierEvent q; BarrierTmpEvent := BarrierTmpEvent q; fresh := fresh q; log := log q |}.
Definition set_delay (d : list bool) (q : queue) : queue :=
  {| compute := compute q; transfer := transfer q; DelayCompute := d;
     BarrierEvent := BarrierEvent q; BarrierTmpEvent := BarrierTmpEvent q; fresh := fresh q; log := log q |}.
Definition add_log (cs : list call) (q : queue) : queue :=
  {| compute := compute q; transfer := transfer q; DelayCompute := DelayCompute q;
     BarrierEvent := BarrierEvent q; BarrierTmpEvent := BarrierTmpEvent q; fresh := fresh q;
     log := log q ++ cs |}.

Definition size (s : side) : Z := Z.of_nat (length (Streams s)).

(** Element [i] of a vector; outside of it the access is undefined. *)
Definition at_ {A} (v : list A) (i : Z) : outcome A :=
  match v !! Z.to_nat i with Some x => Ret x | None => Undefined end.

(** Creates the next stream while not all of them exist. *)
Definition create_stream (s : side) (new : Z) : side * list call :=
  if NumStreams s <? size s then
    ({| Streams := <[Z.to_nat (NumStreams s) := new]> (Streams s); NumStreams := u32 (NumStreams s + 1);
        StreamIndex := StreamIndex s; LastSync := LastSync s; AppliedBarrier := AppliedBarrier s |},
     [StreamCreate new])
  else (s, []).

Definition bump_fresh (q : queue) : queue :=
  {| compute := compute q; transfer := transfer q; DelayCompute := DelayCompute q;
     BarrierEvent := BarrierEvent q; BarrierTmpEvent := BarrierTmpEvent q; fresh := fresh q + 1; log := log q |}.

Definition create_compute (q : queue) : queue :=
  let '(s, cs) := create_stream (compute q) (fresh q) in
  bump_fresh (add_log cs (set_compute s q)).
Definition create_transfer (q : queue) : queue :=
  let '(s, cs) := create_stream (transfer q) (fresh q) in
  bump_fresh (add_log cs (set_transfer s q)).

Definition next_index (s : side) : side :=
  {| Streams := Streams s; NumStreams := NumStreams s; StreamIndex := u32 (StreamIndex s + 1);
     LastSync := LastSync s; AppliedBarrier := AppliedBarrier s |}.

(** [computeStreamWaitForBarrierIfNeeded] and its transfer counterpart. *)
Definition wait_for_barrier (ev : option Z) (stream StreamI : Z) (s : side)
    : outcome (side * list call) :=
  match ev with
  | None => Ret (s, [])
  | Some e =>
      applied ← at_ (AppliedBarrier s) StreamI;
      Ret (if applied : bool then (s, []) else
        ({| Streams := Streams s; NumStreams := NumStreams s; StreamIndex := StreamIndex s;
            LastSync := LastSync s;
            AppliedBarrier := <[Z.to_nat StreamI := true]> (AppliedBarrier s) |},
         [StreamWaitEvent stream e]))
  end.
Definition compute_wait (stream StreamI : Z) (q : queue) : outcome queue :=
  '(s, cs) ← wait_for_barrier (BarrierEvent q) stream StreamI (compute q);
  Ret (add_log cs (set_compute s q)).
Definition transfer_wait (stream StreamI : Z) (q : queue) : outcome queue :=
  '(s, cs) ← wait_for_barrier (BarrierEvent q) stream StreamI (transfer q);
  Ret (add_log cs (set_transfer s q)).

(** The [while (true)] of [getNextComputeStream]: skips delayed streams. *)
Fixpoint next_loop (fuel : nat) (q : queue) : outcome (Z * Z * queue) :=
  match fuel with
  | O => Undefined
  | S fuel =>
      let q := create_compute q in
      let Token := StreamIndex (compute q) in
      let q := set_compute (next_index (compute q)) q in
      if size (compute q) =? 0 then Undefined else
      let StreamI := Token `mod` size (compute q) in
      delayed ← at_ (DelayCompute q) StreamI;
      if delayed : bool
      then next_loop fuel (set_delay (<[Z.to_nat StreamI := false]> (DelayCompute q)) q)
      else Ret (Token, StreamI, q)
  end.

(** Returns the stream, its token and the queue. *)
Definition getNextComputeStream (q : queue) : outcome (Z * Z * queue) :=
  '(Token, StreamI, q) ← next_loop (S (length (DelayCompute q))) q;
  res ← at_ (Streams (compute q)) StreamI;
  q ← compute_wait res StreamI q;
  Ret (res, Token, q).

Definition hasBeenSynchronized (StreamToken : Z) (q : queue) : bool :=
  if StreamToken =? UINT32_MAX then false else StreamToken <? LastSync (compute q).

Definition canReuseStream (StreamToken : Z) (q : queue) : bool :=
  if StreamToken =? UINT32_MAX then false else
  let IsLastCommand := u32 (StreamIndex (compute q) - StreamToken) <=? size (compute q) in
  IsLastCommand && negb (hasBeenSynchronized StreamToken q).

(** An event of a wait list: whether it belongs to this queue, its compute
    stream token, its stream, its number and whether it is an interop event. *)
Record event := { ev_this : bool; ev_token : Z; ev_stream : Z; ev_id : Z; ev_interop : bool }.

(** The overload with a wait list. *)
Fixpoint getNextComputeStream_deps (EventWaitList : list event) (q : queue)
    : outcome (Z * Z * queue) :=
  match EventWaitList with
  | [] => getNextComputeStream q
  | e :: es =>
      if ev_this e && canReuseStream (ev_token e) q then
        if (length (DelayCompute q) =? 0)%nat then Undefined else
        let StreamI := ev_token e `mod` Z.of_nat (length (DelayCompute q)) in
        let q := set_delay (<[Z.to_nat StreamI := true]> (DelayCompute q)) q in
        q ← compute_wait (ev_stream e) StreamI q;
        Ret (ev_stream e, ev_token e, q)
      else getNextComputeStream_deps es q
  end.

Definition getNextTransferStream (q : queue) : outcome (Z * queue) :=
  if size (transfer q) =? 0 then
    '(s, _, q) ← getNextComputeStream q; Ret (s, q)
  else
    let q := create_transfer q in
    let StreamI := StreamIndex (transfer q) `mod` size (transfer q) in
    let q := set_transfer (next_index (transfer q)) q in
    Result ← at_ (Streams (transfer q)) StreamI;
    q ← transfer_wait Result StreamI q;
    Ret (Result, q).

(** ** Synchronisation *)

(** The indices from [Start] up to [Stop]. *)
Definition range (Start Stop : Z) : list Z :=
  (λ i, Start + Z.of_nat i) <$> seq 0 (Z.to_nat (Stop - Start)).

(** [End] of [syncStreams], and the indices it visits, in order. *)
Definition sync_end (s : side) : Z := if NumStreams s <? size s then NumStreams s else StreamIndex s.
Definition sync_indices (s : side) : list Z :=
  let Size := size s in
  let Start := LastSync s in
  let End := sync_end s in
  if Size <=? u32 (End - Start) then range 0 Size else
  let Start := Start `mod` Size in
  let End := End `mod` Size in
  if Start <=? End then range Start End else range Start Size ++ range 0 End.

Definition set_last_sync (ResetUsed : bool) (s : side) : side :=
  if ResetUsed then
    {| Streams := Streams s; NumStreams := NumStreams s; StreamIndex := StreamIndex s;
       LastSync := sync_end s; AppliedBarrier := AppliedBarrier s |}
  else s.

(** [syncStreams]: the streams [F] is called on, and the queue. *)
Definition syncStreams (ResetUsed : bool) (q : queue) : outcome (list Z * queue) :=
  let idx := sync_indices (compute q) in
  cs ← mapM (at_ (Streams (compute q))) idx;
  let q := set_delay (foldl (λ d i, <[Z.to_nat i := false]> d) (DelayCompute q) idx)
             (set_compute (set_last_sync ResetUsed (compute q)) q) in
  if size (transfer q) =? 0 then Ret (cs, q) else
  ts ← mapM (at_ (Streams (transfer q))) (sync_indices (transfer q));
  Ret (cs ++ ts, set_transfer (set_last_sync ResetUsed (transfer q)) q).

(** The created streams: [forEachStream] and [allOf] visit these. *)
Definition created (s : side) : list Z := take (Z.to_nat (Z.min (size s) (NumStreams s))) (Streams s).
Definition forEachStream (q : queue) : list Z := created (compute q) ++ created (transfer q).
Definition allOf (F : Z → bool) (q : queue) : bool :=
  forallb F (created (compute q)) && forallb F (created (transfer q)).

(** [urQueueFinish] *)
Definition urQueueFinish (q : queue) : outcome queue :=
  '(ss, q) ← syncStreams true q; Ret (add_log (StreamSynchronize <$> ss) q).

(** ** Barriers *)

Definition ensure_barrier_event (q : queue) : Z * queue :=
  match BarrierEvent q with
  | Some e => (e, q)
  | None => (fresh q, {| compute := compute q; transfer := transfer q; DelayCompute := DelayCompute q;
      BarrierEvent := Some (fresh q); BarrierTmpEvent := BarrierTmpEvent q; fresh := fresh q + 1;
      log := log q ++ [EventCreate (fresh q)] |})
  end.
Definition ensure_tmp_event (q : queue) : Z * queue :=
  match BarrierTmpEvent q with
  | Some e => (e, q)
  | None => (fresh q, {| compute := compute q; transfer := transfer q; DelayCompute := DelayCompute q;
      BarrierEvent := BarrierEvent q; BarrierTmpEvent := Some (fresh q); fresh := fresh q + 1;
      log := log q ++ [EventCreate (fresh q)] |})
  end.

Definition clear_applied (s : side) : side :=
  {| Streams := Streams s; NumStreams := NumStreams s; StreamIndex := StreamIndex s;
     LastSync := LastSync s; AppliedBarrier := (λ _, false) <$> AppliedBarrier s |}.

(** [forLatestEvents]: newest first within a stream, one event per stream
    (interop events are never merged). *)
Definition event_le (a b : event) : Prop :=
  ev_stream a < ev_stream b ∨ (ev_stream a = ev_stream b ∧ ev_id b ≤ ev_id a).
#[export] Instance event_le_dec a b : Decision (event_le a b).
Proof. unfold event_le. apply _. Defined.

Fixpoint latest_loop (first : bool) (LastSeenStream : Z) (Events : list event) : list event :=
  match Events with
  | [] => []
  | e :: es =>
      if negb first && negb (ev_interop e) && (ev_stream e =? LastSeenStream)
      then latest_loop false LastSeenStream es
      else e :: latest_loop false (ev_stream e) es
  end.
Definition forLatestEvents (EventWaitList : list event) : list event :=
  match EventWaitList with
  | [e] => [e]
  | es => latest_loop true 0 (merge_sort event_le es)
  end.

(** [urEnqueueEventsWaitWithBarrier]: returns the stream that carries the
    barrier; [ev_synced] tells of each event whether its queue has already
    synchronised with it, and [ev_native] its native event. *)
Definition urEnqueueEventsWaitWithBarrier (ev_synced : event → bool) (ev_native : event → Z)
    (phEventWaitList : list event) (q : queue) : outcome (Z * queue) :=
  '(CuStream, _, q) ← getNextComputeStream_deps phEventWaitList q;
  let '(barrier, q) := ensure_barrier_event q in
  q ← (if decide (phEventWaitList = []) then
         let '(tmp, q) := ensure_tmp_event q in
         '(ss, q) ← syncStreams false q;
         Ret (add_log (ss ≫= λ s, if decide (CuStream = s) then [] else
                                  [EventRecord tmp s; StreamWaitEvent CuStream tmp]) q)
       else
         Ret (add_log (forLatestEvents phEventWaitList ≫= λ e,
                if ev_synced e then [] else [StreamWaitEvent CuStream (ev_native e)]) q));
  let q := add_log [EventRecord barrier CuStream] q in
  let q := set_compute (clear_applied (compute q)) q in
  let q := set_transfer (clear_applied (transfer q)) q in
  Ret (CuStream, q).

End StreamQueue.

Module StreamQueueFacts.
Import StreamQueue.

(** Between 0 and all streams have been created, one per token handed out as
    long as some are missing; the last synchronisation is not in the future. *)
Record side_ok (s : side) : Prop := {
  so_num : 0 ≤ NumStreams s ≤ size s;
  so_next : NumStreams s < size s → NumStreams s = StreamIndex s;
  so_sync : 0 ≤ LastSync s ≤ StreamIndex s;
  so_range : StreamIndex s < 2 ^ 32 ∧ size s < 2 ^ 32;
  so_applied : length (AppliedBarrier s) = length (Streams s);
}.

(** The stream token [t] stands for. *)
Definition slot (s : side) (t : Z) : option Z := Streams s !! Z.to_nat (t `mod` size s).

Lemma sync_end_index s : side_ok s → sync_end s = StreamIndex s.
Proof. intros [? Hn]. unfold sync_end. case_match; bool_to_prop; auto. Qed.

Lemma elem_of_range a b i : i ∈ range a b ↔ a ≤ i < b.
Proof.
  unfold range. rewrite list_elem_of_fmap. setoid_rewrite elem_of_seq. split.
  - intros (k & -> & Hk). lia.
  - intros H. exists (Z.to_nat (i - a)). lia.
Qed.

(** Fewer than [n] consecutive numbers [S .. E-1], taken modulo [n], are an
    interval or wrap around once. *)
Lemma mod_window n S E t :
  0 < n → S ≤ t < E → E - S < n →
  (S `mod` n ≤ E `mod` n → S `mod` n ≤ t `mod` n < E `mod` n) ∧
  (E `mod` n < S `mod` n → S `mod` n ≤ t `mod` n < n ∨ 0 ≤ t `mod` n < E `mod` n).
Proof.
  intros Hn Ht HE.
  pose proof (Z.div_mod S n ltac:(lia)) as HS. pose proof (Z.div_mod E n ltac:(lia)) as HE'.
  pose proof (Z.div_mod t n ltac:(lia)) as Ht'. pose proof (Z.mod_pos_bound S n Hn) as HS2.
  pose proof (Z.mod_pos_bound E n Hn) as HE2. pose proof (Z.mod_pos_bound t n Hn) as Ht2.
  assert (S / n ≤ t / n ≤ E / n) as [Q1 Q2] by (split; apply Z.div_le_mono; lia).
  revert HS HE' Ht' HS2 HE2 Ht2 Q1 Q2. generalize (S / n) (E / n) (t / n) (S `mod` n) (E `mod` n) (t `mod` n).
  intros qs qe qt rs re rt HS HE' Ht' HS2 HE2 Ht2 Q1 Q2.
  assert (qe - qs ≤ 1) as Q by nia. split; intros Hr.
  - assert (qe = qs) as -> by nia. assert (qt = qs) as -> by lia. lia.
  - assert (qe = qs + 1) as -> by nia. assert (qt = qs ∨ qt = qs + 1) as [-> | ->] by lia; lia.
Qed.

Lemma sync_indices_spec s :
  side_ok s → 0 < size s →
  (∀ i, i ∈ sync_indices s → 0 ≤ i < NumStreams s) ∧
  (∀ t, LastSync s ≤ t < StreamIndex s → t `mod` size s ∈ sync_indices s).
Proof.
  intros Hs Hpos. pose proof (sync_end_index s Hs) as He. destruct Hs as [Hn Hx Hl Hr _].
  unfold sync_indices. rewrite He, u32_small by (unfold in_u32; lia).
  set (n := size s) in *. set (S := LastSync s) in *. set (E := StreamIndex s) in *.
  pose proof (Z.mod_pos_bound S n Hpos). pose proof (Z.mod_pos_bound E n Hpos).
  assert (∀ t, 0 ≤ t `mod` n < n) as Hm by (intros; by apply Z.mod_pos_bound).
  destruct (n <=? E - S) eqn:H1; bool_to_prop.
  { split; [intros i; rewrite elem_of_range; lia|]. intros t _. rewrite elem_of_range. apply Hm. }
  assert (NumStreams s < n → E `mod` n = E ∧ S `mod` n = S) as Hsmall
    by (intros; rewrite !Z.mod_small; lia).
  destruct (S `mod` n <=? E `mod` n) eqn:H2; bool_to_prop.
  - split; intros i; rewrite elem_of_range; [lia|]. intros Hi. by apply mod_window.
  - split; intros i; rewrite elem_of_app, !elem_of_range; [lia|].
    intros Hi. destruct (mod_window n S E i) as [_ Hw]; [done..|]. by apply Hw.
Qed.

(** One round: create a stream if some is missing, then take the next token. *)
Definition advance (s : side) (new : Z) : side := next_index (create_stream s new).1.

Lemma advance_ok s new :
  side_ok s → 0 < size s → StreamIndex s + 1 < 2 ^ 32 →
  side_ok (advance s new) ∧ size (advance s new) = size s ∧
  StreamIndex (advance s new) = StreamIndex s + 1 ∧ LastSync (advance s new) = LastSync s ∧
  AppliedBarrier (advance s new) = AppliedBarrier s ∧
  StreamIndex s `mod` size s < NumStreams (advance s new) ∧
  (∀ t, 0 ≤ t < StreamIndex s → slot (advance s new) t = slot s t).
Proof.
  intros [Hn Hx Hl Hr Ha] Hp Hi. unfold advance, create_stream.
  pose proof (Z.mod_pos_bound (StreamIndex s) (size s) Hp) as Hmod.
  assert (u32 (StreamIndex s + 1) = StreamIndex s + 1) as Eu by (apply u32_small; unfold in_u32; lia).
  destruct (NumStreams s <? size s) eqn:E; bool_to_prop; simpl.
  - specialize (Hx E). assert (u32 (NumStreams s + 1) = NumStreams s + 1) as En
      by (apply u32_small; unfold in_u32; lia).
    unfold slot, size, next_index in *. simpl. rewrite !length_insert, Eu, En.
    split_and!; try done; [split; unfold size; simpl; rewrite ?length_insert; (done || lia)| |].
    + rewrite Z.mod_small; lia.
    + intros t Ht. apply list_lookup_insert_ne. rewrite Z.mod_small by lia. lia.
  - unfold slot, size, next_index in *. simpl. rewrite Eu. split_and!; try done; [|lia].
    split; unfold size; simpl; (done || lia).
Qed.

Definition count_true (d : list bool) : nat := length (filter (λ b, b = true) d).

Lemma count_true_insert d i : d !! i = Some true → (S (count_true (<[i:=false]> d)) = count_true d)%nat.
Proof.
  unfold count_true. revert i. induction d as [|b d IH]; intros [|i]; simpl; try done.
  - intros [= ->]. done.
  - intros Hi. specialize (IH i Hi). rewrite !filter_cons. case_decide; simpl; lia.
Qed.

Lemma count_true_le d : (count_true d ≤ length d)%nat.
Proof. apply length_filter. Qed.

(** [q'] comes from [q]: tokens handed out before still name their streams. *)
Record evolves (q q' : queue) : Prop := {
  ev_compute : side_ok (compute q'); ev_transfer : side_ok (transfer q');
  ev_csize : size (compute q') = size (compute q); ev_tsize : size (transfer q') = size (transfer q);
  ev_csync : LastSync (compute q') = LastSync (compute q);
  ev_tsync : LastSync (transfer q') = LastSync (transfer q);
  ev_cindex : StreamIndex (compute q) ≤ StreamIndex (compute q');
  ev_tindex : StreamIndex (transfer q) ≤ StreamIndex (transfer q');
  ev_cslot : ∀ t, 0 ≤ t < StreamIndex (compute q) → slot (compute q') t = slot (compute q) t;
  ev_tslot : ∀ t, 0 ≤ t < StreamIndex (transfer q) → slot (transfer q') t = slot (transfer q) t;
  ev_delay : length (DelayCompute q') = length (DelayCompute q);
}.

Definition queue_ok (q : queue) : Prop :=
  side_ok (compute q) ∧ side_ok (transfer q) ∧ 0 < size (compute q) ∧
  length (DelayCompute q) = length (Streams (compute q)).

Lemma evolves_refl q : queue_ok q → evolves q q.
Proof. intros (? & ? & ? & ?). by split. Qed.

Lemma evolves_trans q1 q2 q3 : evolves q1 q2 → evolves q2 q3 → evolves q1 q3.
Proof.
  intros H1 H2. destruct H1, H2. split; try congruence; try lia; try done.
  - intros t Ht. rewrite ev_cslot1 by lia. auto.
  - intros t Ht. rewrite ev_tslot1 by lia. auto.
Qed.

Lemma evolves_ok q q' : queue_ok q → evolves q q' → queue_ok q'.
Proof.
  intros (_ & _ & ? & ?) []. unfold queue_ok, size in *. split_and!; try done; lia.
Qed.

(** The indices have room for another round of every stream. *)
Definition no_wrap (q : queue) : Prop :=
  StreamIndex (compute q) + size (compute q) + 1 < UINT32_MAX ∧
  StreamIndex (transfer q) + 1 < UINT32_MAX.

Lemma at_Some {A} (v : list A) i x : v !! Z.to_nat i = Some x → at_ v i = Ret x.
Proof. unfold at_. by intros ->. Qed.

Lemma at_in_range {A} (v : list A) i : 0 ≤ i < Z.of_nat (length v) → ∃ x, v !! Z.to_nat i = Some x.
Proof. intros Hi. apply lookup_lt_is_Some. lia. Qed.

(** The queue after one round of the selection loop. *)
Definition round (q : queue) : queue :=
  let q := create_compute q in set_compute (next_index (compute q)) q.

Lemma round_compute q : compute (round q) = advance (compute q) (fresh q).
Proof. unfold round, create_compute, advance. by destruct (create_stream _ _). Qed.

Lemma round_frame q :
  transfer (round q) = transfer q ∧ DelayCompute (round q) = DelayCompute q ∧
  BarrierEvent (round q) = BarrierEvent q ∧ BarrierTmpEvent (round q) = BarrierTmpEvent q.
Proof. unfold round, create_compute. by destruct (create_stream _ _). Qed.

Lemma next_loop_unfold fuel q :
  next_loop (S fuel) q =
    (if size (compute (round q)) =? 0 then Undefined else
     let Token := StreamIndex (compute (create_compute q)) in
     let StreamI := Token `mod` size (compute (round q)) in
     delayed ← at_ (DelayCompute (round q)) StreamI;
     if delayed : bool
     then next_loop fuel (set_delay (<[Z.to_nat StreamI := false]> (DelayCompute (round q))) (round q))
     else Ret (Token, StreamI, round q)).
Proof. reflexivity. Qed.

Lemma create_compute_index q : StreamIndex (compute (create_compute q)) = StreamIndex (compute q).
Proof. unfold create_compute, create_stream. by destruct (_ <? _). Qed.

Lemma round_evolves q :
  queue_ok q → StreamIndex (compute q) + 1 < 2 ^ 32 →
  evolves q (round q) ∧ StreamIndex (compute (round q)) = StreamIndex (compute q) + 1 ∧
  StreamIndex (compute q) `mod` size (compute q) < NumStreams (compute (round q)).
Proof.
  intros (Hc & Ht & Hp & Hd) Hi.
  destruct (advance_ok (compute q) (fresh q)) as (H1 & H2 & H3 & H4 & H5 & H6 & H7); [done..|].
  destruct (round_frame q) as (E1 & E2 & E3 & E4). rewrite round_compute.
  split; [|done]. split; rewrite ?round_compute, ?E1, ?E2; try done; lia.
Qed.

(** The loop ends: every round that does not select a stream clears a delay. *)
Lemma next_loop_ok fuel q :
  queue_ok q → (count_true (DelayCompute q) < fuel)%nat →
  StreamIndex (compute q) + Z.of_nat fuel < 2 ^ 32 →
  ∃ t i q', next_loop fuel q = Ret (t, i, q') ∧ evolves q q' ∧
    i = t `mod` size (compute q) ∧ StreamIndex (compute q) ≤ t ∧
    StreamIndex (compute q') = t + 1 ∧ t < StreamIndex (compute q) + Z.of_nat fuel ∧
    i < NumStreams (compute q') ∧ BarrierEvent q' = BarrierEvent q ∧
    transfer q' = transfer q.
Proof.
  revert q. induction fuel as [|fuel IH]; intros q Hq Hc Hi; [lia|].
  destruct (round_evolves q Hq) as (He & Hidx & Hnum); [lia|].
  destruct (round_frame q) as (E1 & E2 & E3 & E4).
  pose proof Hq as (Hcs & Hts & Hp & Hd).
  rewrite next_loop_unfold, create_compute_index. pose proof (ev_csize _ _ He) as Hsz. rewrite Hsz.
  rewrite (proj2 (Z.eqb_neq _ 0)) by lia. cbv zeta. set (i := StreamIndex (compute q) `mod` size (compute q)) in *.
  assert (0 ≤ i < size (compute q)) as Hi' by (by apply Z.mod_pos_bound).
  destruct (at_in_range (DelayCompute (round q)) i) as [b Hb].
  { rewrite E2, Hd. exact Hi'. }
  rewrite (at_Some _ _ _ Hb). cbn [mbind outcome_bind]. destruct b.
  - set (q1 := set_delay _ _).
    assert (evolves q q1) as He1.
    { destruct He. split; try done. simpl. by rewrite length_insert. }
    assert (StreamIndex (compute q1) = StreamIndex (compute q) + 1) as Hi1 by done.
    destruct (IH q1) as (t & j & q' & E & He' & Hj & Hle & Hix & Hlt & Hn & Hb' & Htr).
    + by eapply evolves_ok.
    + unfold q1. cbn [set_delay DelayCompute]. rewrite E2 in *. apply count_true_insert in Hb. lia.
    + lia.
    + exists t, j, q'. split_and!; try done; [by eapply evolves_trans| | | | |].
      * by rewrite Hj, (ev_csize _ _ He1).
      * lia.
      * lia.
      * rewrite Hb'. exact E3.
      * rewrite Htr. exact E1.
  - exists (StreamIndex (compute q)), i, (round q). split_and!; try done; lia.
Qed.

Lemma compute_wait_ok q s i :
  queue_ok q → 0 ≤ i < size (compute q) →
  ∃ q', compute_wait s i q = Ret q' ∧ evolves q q' ∧
    StreamIndex (compute q') = StreamIndex (compute q) ∧ Streams (compute q') = Streams (compute q) ∧
    NumStreams (compute q') = NumStreams (compute q) ∧
    BarrierEvent q' = BarrierEvent q ∧ transfer q' = transfer q.
Proof.
  intros Hq Hi. unfold compute_wait, wait_for_barrier.
  pose proof Hq as ([Hn Hx Hl Hr Ha] & Ht & Hp & Hd).
  destruct (BarrierEvent q) as [e|] eqn:Eb.
  - destruct (at_in_range (AppliedBarrier (compute q)) i) as [b Hb].
    { rewrite Ha. exact Hi. }
    rewrite (at_Some _ _ _ Hb). cbn [mbind outcome_bind].
    destruct b; eexists; (split; [reflexivity|]); simpl; (split; [|done]); split; try done; simpl.
    split; try done. simpl. by rewrite length_insert.
  - eexists. split; [reflexivity|]. simpl. split; [|done]. by destruct (evolves_refl q Hq); split.
Qed.

Lemma getNextComputeStream_ok q :
  queue_ok q → no_wrap q →
  ∃ s t q', getNextComputeStream q = Ret (s, t, q') ∧ evolves q q' ∧
    StreamIndex (compute q) ≤ t < StreamIndex (compute q') ∧ slot (compute q') t = Some s ∧
    t `mod` size (compute q) < NumStreams (compute q') ∧
    transfer q' = transfer q ∧ BarrierEvent q' = BarrierEvent q.
Proof.
  intros Hq [Hw _]. pose proof Hq as (Hc & Ht & Hp & Hd). unfold getNextComputeStream.
  destruct (next_loop_ok (S (length (DelayCompute q))) q) as
    (t & i & q1 & E & He & Hi & Hle & Hix & Hlt & Hn & Hb & Htr); [done| | |].
  { pose proof (count_true_le (DelayCompute q)). lia. }
  { unfold UINT32_MAX, size in *. lia. }
  rewrite E. cbn [mbind outcome_bind]. pose proof (evolves_ok _ _ Hq He) as Hq1.
  pose proof (ev_csize _ _ He) as Hsz.
  assert (0 ≤ i < size (compute q1)) as Hi' by (rewrite Hi, Hsz; by apply Z.mod_pos_bound).
  destruct (at_in_range (Streams (compute q1)) i) as [s Hs]; [exact Hi'|].
  rewrite (at_Some _ _ _ Hs). cbn [mbind outcome_bind].
  destruct (compute_wait_ok q1 s i Hq1 Hi') as (q2 & E2 & He2 & Hx2 & Hs2 & Hn2 & Hb2 & Ht2). rewrite E2.
  exists s, t, q2. split; [done|]. split; [exact (evolves_trans _ _ _ He He2)|].
  split; [lia|]. split_and!; [|lia|congruence|congruence].
  unfold slot, size in *. rewrite Hs2, Hsz, <-Hi. done.
Qed.

(** An event of this queue carries the token it was enqueued with. *)
Definition event_ok (q : queue) (e : event) : Prop :=
  ev_this e = true → ev_token e = UINT32_MAX ∨
    (0 ≤ ev_token e < StreamIndex (compute q) ∧ slot (compute q) (ev_token e) = Some (ev_stream e)).

Lemma canReuse_true q t :
  queue_ok q → 0 ≤ t < StreamIndex (compute q) → canReuseStream t q = true →
  LastSync (compute q) ≤ t ∧ StreamIndex (compute q) - t ≤ size (compute q).
Proof.
  intros ([Hn Hx Hl Hr Ha] & _) Ht. unfold canReuseStream, hasBeenSynchronized.
  rewrite u32_small by (unfold in_u32; lia). destruct (t =? UINT32_MAX); [done|].
  intros [H1 H2]%andb_true_iff. bool_to_prop. done.
Qed.

Lemma set_delay_evolves q d :
  queue_ok q → length d = length (DelayCompute q) → evolves q (set_delay d q).
Proof. intros Hq Hd. destruct (evolves_refl q Hq). by split. Qed.

Lemma getNextComputeStream_deps_ok es q :
  queue_ok q → no_wrap q → Forall (event_ok q) es →
  ∃ s t q', getNextComputeStream_deps es q = Ret (s, t, q') ∧ evolves q q' ∧
    LastSync (compute q) ≤ t < StreamIndex (compute q') ∧ slot (compute q') t = Some s ∧
    transfer q' = transfer q ∧ BarrierEvent q' = BarrierEvent q.
Proof.
  intros Hq Hw. induction 1 as [|e es He Hes IH]; cbn [getNextComputeStream_deps].
  { destruct (getNextComputeStream_ok q Hq Hw) as (s & t & q' & E & Hev & Ht & Hs & _ & Htr & Hb).
    destruct Hq as ([? ? ? ? ?] & _). exists s, t, q'. split_and!; try done; lia. }
  destruct (ev_this e && canReuseStream (ev_token e) q) eqn:Hr; [|exact IH].
  apply andb_true_iff in Hr as [Hth Hr].
  destruct (He Hth) as [Hm|[Ht Hs]]; [by rewrite Hm in Hr|].
  destruct (canReuse_true q _ Hq Ht Hr) as [Hl _].
  pose proof Hq as (Hc & _ & Hp & Hd).
  rewrite (proj2 (Nat.eqb_neq _ 0)) by (unfold size in Hp; lia).
  assert (Z.of_nat (length (DelayCompute q)) = size (compute q)) as -> by (unfold size; lia).
  set (q1 := set_delay _ q).
  assert (evolves q q1) as He1 by (apply set_delay_evolves; [done|apply length_insert]).
  destruct (compute_wait_ok q1 (ev_stream e) (ev_token e `mod` size (compute q)))
    as (q2 & E & He2 & Hx2 & Hs2 & Hn2 & Hb2 & Ht2);
    [by eapply evolves_ok|by apply Z.mod_pos_bound|].
  rewrite E. exists (ev_stream e), (ev_token e), q2. split; [done|].
  split; [exact (evolves_trans _ _ _ He1 He2)|]. split; [rewrite Hx2; simpl; lia|].
  split; [|by split]. unfold slot, size in *. by rewrite Hs2.
Qed.

Lemma getNextTransferStream_ok q :
  queue_ok q → no_wrap q →
  ∃ s q', getNextTransferStream q = Ret (s, q') ∧ evolves q q' ∧
    ((∃ t, LastSync (compute q) ≤ t < StreamIndex (compute q') ∧ slot (compute q') t = Some s) ∨
     (∃ t, LastSync (transfer q) ≤ t < StreamIndex (transfer q') ∧ slot (transfer q') t = Some s)).
Proof.
  intros Hq Hw. unfold getNextTransferStream. destruct (size (transfer q) =? 0) eqn:Hz; bool_to_prop.
  { destruct (getNextComputeStream_ok q Hq Hw) as (s & t & q' & E & Hev & Ht & Hs & _).
    rewrite E. destruct Hq as ([? ? ? ? ?] & _). exists s, q'. split; [done|]. split; [done|].
    left. exists t. split; [lia|done]. }
  pose proof Hq as (Hc & Ht & Hp & Hd). destruct Hw as [_ Hw].
  assert (0 < size (transfer q)) as Hpt by (unfold size in *; lia).
  destruct (advance_ok (transfer q) (fresh q)) as (H1 & H2 & H3 & H4 & H5 & H6 & H7);
    [done..|unfold UINT32_MAX in *; lia|].
  set (q1 := set_transfer (next_index (transfer (create_transfer q))) (create_transfer q)).
  assert (transfer q1 = advance (transfer q) (fresh q) ∧ compute q1 = compute q ∧
          DelayCompute q1 = DelayCompute q ∧ StreamIndex (transfer (create_transfer q)) = StreamIndex (transfer q) ∧
          size (transfer (create_transfer q)) = size (transfer q))
    as (E1 & E2 & E3 & E4 & E5).
  { unfold q1, create_transfer, advance, create_stream, size.
    destruct (_ <? _); simpl; rewrite ?length_insert; done. }
  rewrite E4, E5. fold q1. cbv zeta.
  set (i := StreamIndex (transfer q) `mod` size (transfer q)) in *.
  assert (0 ≤ i < size (transfer q)) as Hi by (by apply Z.mod_pos_bound).
  assert (evolves q q1) as He1.
  { split; rewrite ?E1, ?E2, ?E3; try done; lia. }
  destruct (at_in_range (Streams (transfer q1)) i) as [s Hs].
  { rewrite E1. fold (size (advance (transfer q) (fresh q))). by rewrite H2. }
  rewrite (at_Some _ _ _ Hs). cbn [mbind outcome_bind]. unfold transfer_wait, wait_for_barrier.
  assert (Hfin : ∀ q2, side_ok (transfer q2) → Streams (transfer q2) = Streams (transfer q1) →
    StreamIndex (transfer q2) = StreamIndex (transfer q1) → LastSync (transfer q2) = LastSync (transfer q1) →
    compute q2 = compute q1 → DelayCompute q2 = DelayCompute q1 →
    evolves q q2 ∧ ∃ t, LastSync (transfer q) ≤ t < StreamIndex (transfer q2) ∧ slot (transfer q2) t = Some s).
  { intros q2 F0 F1 F2 F3 F4 F5. split.
    - apply (evolves_trans _ q1); [done|]. destruct He1.
      split; unfold slot, size in *; rewrite ?F1, ?F2, ?F3, ?F4, ?F5; done || lia.
    - exists (StreamIndex (transfer q)). destruct Ht as [? ? ? ? ?]. rewrite F2, E1. split; [lia|].
      unfold slot, size in *. rewrite F1. rewrite <-Hs. f_equal. f_equal. unfold i. rewrite E1. by rewrite H2. }
  destruct (BarrierEvent q1) as [e|].
  - destruct (at_in_range (AppliedBarrier (transfer q1)) i) as [b Hb].
    { rewrite E1, H5. destruct Ht as [? ? ? ? ->]. exact Hi. }
    rewrite (at_Some _ _ _ Hb). cbn [mbind outcome_bind].
    pose proof (ev_transfer _ _ He1) as [? ? ? ? Hal].
    destruct b; eexists _, _; (split; [reflexivity|]);
      (edestruct Hfin as [? ?]; [| | | | | |split; [eassumption|by right]]; try done).
    split; simpl; try done. by rewrite length_insert.
  - eexists _, _. split; [reflexivity|].
    edestruct Hfin as [? ?]; [| | | | | |split; [eassumption|by right]]; try done.
    apply (ev_transfer _ _ He1).
Qed.

Lemma mapM_at {A} (v : list A) l :
  (∀ i, i ∈ l → 0 ≤ i < Z.of_nat (length v)) →
  ∃ ss, mapM (at_ v) l = Ret ss ∧ ∀ s, s ∈ ss ↔ ∃ i, i ∈ l ∧ v !! Z.to_nat i = Some s.
Proof.
  induction l as [|i l IH]; intros Hl.
  { exists []. split; [done|]. intros s. split; [by intros ?%elem_of_nil|]. by intros (? & ?%elem_of_nil & _). }
  destruct (at_in_range v i) as [x Hx]; [apply Hl; left|].
  destruct IH as (ss & E & Hs); [intros; apply Hl; by right|].
  exists (x :: ss). cbn [mapM]. rewrite (at_Some _ _ _ Hx). cbn [mbind outcome_bind]. rewrite E.
  split; [done|]. intros s. rewrite elem_of_cons, Hs. setoid_rewrite elem_of_cons.
  split; [intros [-> | (j & ? & ?)]; eauto|]. intros (j & [-> | ?] & ?); [left; congruence|eauto].
Qed.

(** A stream in use since the last resetting synchronisation. *)
Definition covered (q : queue) (s : Z) : Prop :=
  (∃ t, LastSync (compute q) ≤ t < StreamIndex (compute q) ∧ slot (compute q) t = Some s) ∨
  (∃ t, LastSync (transfer q) ≤ t < StreamIndex (transfer q) ∧ slot (transfer q) t = Some s).

Lemma covered_evolves q q' s : queue_ok q → evolves q q' → covered q s → covered q' s.
Proof.
  intros ([_ _ Hc _ _] & [_ _ Ht _ _] & _) [] [(t & Hr & Hs)|(t & Hr & Hs)].
  - left. exists t. rewrite ev_cslot0 by lia. split; [lia|done].
  - right. exists t. rewrite ev_tslot0 by lia. split; [lia|done].
Qed.

Lemma sync_side (v : side) :
  side_ok v → 0 < size v →
  ∃ ss, mapM (at_ (Streams v)) (sync_indices v) = Ret ss ∧ (∀ s, s ∈ ss → s ∈ created v) ∧
    ∀ t s, LastSync v ≤ t < StreamIndex v → slot v t = Some s → s ∈ ss.
Proof.
  intros Hv Hp. destruct (sync_indices_spec v Hv Hp) as [H1 H2]. pose proof Hv as [Hn _ _ _ _].
  destruct (mapM_at (Streams v) (sync_indices v)) as (ss & E & Hs).
  { intros i Hi. apply H1 in Hi. unfold size in *. lia. }
  exists ss. split; [done|]. split.
  - intros s (i & Hi & Hs')%Hs. unfold created. apply list_elem_of_lookup. exists (Z.to_nat i).
    apply H1 in Hi. rewrite lookup_take_lt by lia. done.
  - intros t s Ht Hst. apply Hs. exists (t `mod` size v). split; [by apply H2|done].
Qed.

Lemma set_last_sync_ok r v :
  side_ok v → side_ok (set_last_sync r v) ∧ size (set_last_sync r v) = size v ∧
  (∀ t, slot (set_last_sync r v) t = slot v t) ∧
  StreamIndex (set_last_sync r v) = StreamIndex v ∧
  LastSync (set_last_sync r v) = if r then StreamIndex v else LastSync v.
Proof.
  intros Hv. pose proof (sync_end_index v Hv) as He. destruct Hv as [? ? ? ? ?].
  destruct r; simpl; [|by split_and!]. unfold size, slot. simpl. split_and!; try done.
  split; unfold size in *; simpl; rewrite ?He; try done. lia.
Qed.

Lemma foldl_insert_length {A} (x : A) (d : list A) l :
  length (foldl (λ d i, <[Z.to_nat i := x]> d) d l) = length d.
Proof. revert d. induction l as [|i l IH]; intros d; simpl; [done|]. by rewrite IH, length_insert. Qed.

(** [syncStreams] stays in range, visits every stream in use and only streams
    that have been created. *)
Lemma syncStreams_ok r q :
  queue_ok q →
  ∃ ss q', syncStreams r q = Ret (ss, q') ∧ queue_ok q' ∧
    (∀ s, covered q s → s ∈ ss) ∧ (∀ s, s ∈ ss → s ∈ forEachStream q) ∧
    StreamIndex (compute q') = StreamIndex (compute q) ∧
    StreamIndex (transfer q') = StreamIndex (transfer q) ∧
    size (compute q') = size (compute q) ∧ (r = false → ∀ s, covered q s → covered q' s).
Proof.
  intros Hq. pose proof Hq as (Hc & Ht & Hp & Hd). unfold syncStreams.
  destruct (sync_side (compute q) Hc Hp) as (cs & -> & Hcin & Hcs). cbn [mbind outcome_bind].
  destruct (set_last_sync_ok r (compute q) Hc) as (C1 & C2 & C3 & C4 & C5).
  set (q1 := set_delay _ _). change (transfer q1) with (transfer q).
  assert (length (DelayCompute q1) = length (Streams (compute q1))) as Hd1.
  { unfold q1. simpl. rewrite foldl_insert_length. unfold size in C2. lia. }
  destruct (size (transfer q) =? 0) eqn:Hz; bool_to_prop.
  - exists cs, q1. split; [done|]. split; [|split; [|split; [|split; [|split; [|split]]]]]; try done.
    + split_and!; try done. simpl. by rewrite C2.
    + intros s [(t & Hr & Hs)|(t & Hr & Hs)]; [by eapply Hcs|]. exfalso.
      unfold slot, size in *. by destruct (Streams (transfer q)).
    + intros s Hs. apply elem_of_app. left. by apply Hcin.
    + intros -> s [(t & Hr & Hs)|(t & Hr & Hs)]; [left|right]; exists t; simpl; by rewrite ?C3.
  - assert (0 < size (transfer q)) as Hpt by (unfold size in *; lia).
    destruct (sync_side (transfer q) Ht Hpt) as (ts & -> & Htin & Hts). cbn [mbind outcome_bind].
    destruct (set_last_sync_ok r (transfer q) Ht) as (T1 & T2 & T3 & T4 & T5).
    eexists _, _. split; [reflexivity|]. split; [|split; [|split; [|split; [|split; [|split]]]]]; try done.
    + split_and!; try done. simpl. by rewrite C2.
    + intros s Hs. apply elem_of_app. destruct Hs as [(t & Hr & Hs)|(t & Hr & Hs)]; eauto.
    + intros s [Hs|Hs]%elem_of_app; apply elem_of_app; auto.
    + intros -> s [(t & Hr & Hs)|(t & Hr & Hs)]; [left|right]; exists t; simpl; by rewrite ?C3, ?T3.
Qed.

(** [q'] is a usable queue in which the streams in use are still known to be. *)
Definition keeps (q q' : queue) : Prop :=
  queue_ok q → queue_ok q' ∧ ∀ s, covered q s → covered q' s.

Lemma keeps_trans q1 q2 q3 : keeps q1 q2 → keeps q2 q3 → keeps q1 q3.
Proof. intros H1 H2 Hq. destruct (H1 Hq) as [Hq2 Hc]. destruct (H2 Hq2). auto. Qed.

Lemma keeps_fields q q' :
  compute q' = compute q → transfer q' = transfer q → DelayCompute q' = DelayCompute q → keeps q q'.
Proof. intros E1 E2 E3. unfold keeps, queue_ok, covered. by rewrite E1, E2, E3. Qed.

Lemma clear_applied_ok s : side_ok s → side_ok (clear_applied s).
Proof. intros []. split; try done. simpl. by rewrite length_fmap. Qed.

Lemma keeps_clear q :
  keeps q (set_transfer (clear_applied (transfer q)) (set_compute (clear_applied (compute q)) q)).
Proof. intros (H1 & H2 & H3 & H4). split; [|done]. split_and!; try done; by apply clear_applied_ok. Qed.

Lemma keeps_ensure_barrier q : keeps q (ensure_barrier_event q).2.
Proof. apply keeps_fields; unfold ensure_barrier_event; by case_match. Qed.

Lemma keeps_ensure_tmp q : keeps q (ensure_tmp_event q).2.
Proof. apply keeps_fields; unfold ensure_tmp_event; by case_match. Qed.

Lemma keeps_sync q ss q' : syncStreams false q = Ret (ss, q') → keeps q q'.
Proof.
  intros E Hq. destruct (syncStreams_ok false q Hq) as (ss1 & q1 & E1 & Hq1 & _ & _ & _ & _ & _ & Hc).
  rewrite E1 in E. injection E as _ <-. auto.
Qed.

(** A barrier is one more use of the stream it runs on. *)
Lemma barrier_keeps sy na es q Cu q' :
  queue_ok q → no_wrap q → Forall (event_ok q) es →
  urEnqueueEventsWaitWithBarrier sy na es q = Ret (Cu, q') →
  queue_ok q' ∧ covered q' Cu ∧ ∀ s, covered q s → covered q' s.
Proof.
  intros Hq Hw Hes. unfold urEnqueueEventsWaitWithBarrier.
  destruct (getNextComputeStream_deps_ok es q Hq Hw Hes) as (Cu1 & t & q1 & -> & He & Ht & Hs & _).
  cbn [mbind outcome_bind]. pose proof (evolves_ok _ _ Hq He) as Hq1.
  assert (covered q1 Cu1) as HCu by (left; exists t; by rewrite (ev_csync _ _ He)).
  assert (∀ s, covered q s → covered q1 s) as Hc1 by (intros s; by apply covered_evolves).
  pose proof (keeps_ensure_barrier q1) as K. destruct (ensure_barrier_event q1) as [b q2]. simpl in K.
  intros (q4 & E4 & E)%outcome_bind_ret. injection E as <- <-.
  match goal with |- queue_ok ?q' ∧ _ => assert (keeps q1 q') as K' end;
    [|destruct (K' Hq1) as [? Hc]; split_and!; auto].
  eapply keeps_trans; [exact K|]. clear -E4. apply (keeps_trans _ q4).
  - case_decide; [|injection E4 as <-; by apply keeps_fields].
    pose proof (keeps_ensure_tmp q2) as K. destruct (ensure_tmp_event q2) as [tmp q3]. simpl in K.
    apply outcome_bind_ret in E4 as ([ss q5] & E5 & [= <-]). eapply keeps_trans; [exact K|].
    eapply keeps_trans; [by eapply keeps_sync|by apply keeps_fields].
  - apply (keeps_trans _ (add_log [EventRecord b Cu1] q4)); [by apply keeps_fields|exact (keeps_clear (add_log _ q4))].
Qed.

#[export] Instance event_le_trans : Transitive event_le.
Proof. unfold event_le. intros a b c. lia. Qed.
#[export] Instance event_le_total : Total event_le.
Proof. unfold event_le. intros a b. lia. Qed.

Lemma latest_loop_covers l first ls e :
  StronglySorted event_le l → e ∈ l →
  (∃ e', e' ∈ latest_loop first ls l ∧ ev_stream e' = ev_stream e ∧ ev_id e ≤ ev_id e') ∨
  (first = false ∧ ev_stream e = ls).
Proof.
  intros Hl. revert first ls. induction Hl as [|x l Hl IH Hx]; intros first ls He; [by apply elem_of_nil in He|].
  cbn [latest_loop]. case_match eqn:Hskip.
  - bool_to_prop. apply elem_of_cons in He as [-> | He]; [by right|]. specialize (IH false ls He) as [?|[_ ?]]; auto.
  - left. apply elem_of_cons in He as [-> | He]; [exists x; split; [left|lia]|].
    destruct (IH false (ev_stream x) He) as [(e' & Hin & ? & ?)|[_ Hs]].
    + exists e'. split; [by right|done].
    + exists x. split; [left|]. rewrite Forall_forall in Hx. specialize (Hx e He). unfold event_le in Hx. lia.
Qed.

Lemma latest_loop_elem l first ls e : e ∈ latest_loop first ls l → e ∈ l.
Proof.
  revert first ls. induction l as [|x l IH]; intros first ls; cbn [latest_loop]; [done|].
  case_match; rewrite ?elem_of_cons; naive_solver.
Qed.

Lemma latest_loop_streams l ls :
  StronglySorted event_le l → (∀ e, e ∈ l → ev_interop e = false ∧ ls ≤ ev_stream e) →
  NoDup (ev_stream <$> latest_loop false ls l) ∧ ∀ e, e ∈ latest_loop false ls l → ls < ev_stream e.
Proof.
  intros Hl. revert ls. induction Hl as [|x l Hl IH Hx]; intros ls Hls; cbn [latest_loop].
  { split; [constructor|]. by intros e ?%elem_of_nil. }
  destruct (Hls x) as [Hi Hle]; [left|]. rewrite Hi. simpl.
  destruct (ev_stream x =? ls) eqn:E; bool_to_prop.
  { apply IH. intros e He. apply Hls. by right. }
  destruct (IH (ev_stream x)) as [Hn Hlt].
  { intros e He. split; [apply Hls; by right|]. rewrite Forall_forall in Hx. specialize (Hx e He).
    unfold event_le in Hx. lia. }
  rewrite fmap_cons, NoDup_cons. split; [split; [|done]|].
  - intros (e & He & Hin)%list_elem_of_fmap. specialize (Hlt e Hin). lia.
  - intros e [-> | Hin]%elem_of_cons; [lia|]. specialize (Hlt e Hin). lia.
Qed.

End StreamQueueFacts.

Module StreamQueueProps.
Import StreamQueue StreamQueueFacts.

(** What happens to a queue and to the list of streams handed out since the
    last [urQueueFinish]; indices that would wrap are excluded by [no_wrap]. *)
Inductive step : queue * list Z → queue * list Z → Prop :=
  | step_next q p s t q' :
      no_wrap q → getNextComputeStream q = Ret (s, t, q') → step (q, p) (q', s :: p)
  | step_deps q p es s t q' :
      no_wrap q → Forall (event_ok q) es → getNextComputeStream_deps es q = Ret (s, t, q') →
      step (q, p) (q', s :: p)
  | step_transfer q p s q' :
      no_wrap q → getNextTransferStream q = Ret (s, q') → step (q, p) (q', s :: p)
  | step_sync q p r ss q' :
      syncStreams r q = Ret (ss, q') → step (q, p) (q', if r then [] else p)
  | step_finish q p q' :
      urQueueFinish q = Ret q' → step (q, p) (q', [])
  | step_barrier q p sy na es Cu q' :
      no_wrap q → Forall (event_ok q) es →
      urEnqueueEventsWaitWithBarrier sy na es q = Ret (Cu, q') → step (q, p) (q', Cu :: p).

Definition step_inv (qp : queue * list Z) : Prop :=
  queue_ok qp.1 ∧ ∀ s, s ∈ qp.2 → covered qp.1 s.

Lemma step_inv_step qp qp' : step_inv qp → step qp qp' → step_inv qp'.
Proof.
  intros [Hq Hp] Hs.
  assert (Hext : ∀ q q' p s, queue_ok q → (∀ s, s ∈ p → covered q s) → evolves q q' → covered q' s →
    step_inv (q', s :: p)).
  { intros q q' p s Hq' Hp' He Hs'. split; [by eapply evolves_ok|].
    cbn [snd fst]. intros s' [-> | Hin]%elem_of_cons; [exact Hs'|]. eapply covered_evolves; eauto. }
  destruct Hs as [q p s t q' Hw E|q p es s t q' Hw Hes E|q p s q' Hw E|q p r ss q' E
    |q p q' E|q p sy na es Cu q' Hw Hes E]; simpl in *.
  - destruct (getNextComputeStream_ok q Hq Hw) as (s' & t' & q1 & E1 & He & Ht & Hs & _).
    rewrite E1 in E; injection E as; subst. apply (Hext q _ _ _ Hq Hp He). left. exists t. pose proof (ev_csync _ _ He) as ->.
    destruct Hq as ([? ? ? ? ?] & _). split; [lia|done].
  - destruct (getNextComputeStream_deps_ok es q Hq Hw Hes) as (s' & t' & q1 & E1 & He & Ht & Hs & _).
    rewrite E1 in E; injection E as; subst. apply (Hext q _ _ _ Hq Hp He). left. exists t. by pose proof (ev_csync _ _ He) as ->.
  - destruct (getNextTransferStream_ok q Hq Hw) as (s' & q1 & E1 & He & Hs). rewrite E1 in E; injection E as; subst.
    apply (Hext q _ _ _ Hq Hp He). unfold covered. by rewrite (ev_csync _ _ He), (ev_tsync _ _ He).
  - destruct (syncStreams_ok r q Hq) as (ss' & q1 & E1 & Hq1 & _ & _ & _ & _ & _ & Hc).
    rewrite E1 in E; injection E as; subst. split; [done|]. simpl. destruct r; [by intros ? ?%elem_of_nil|]. intros s Hs. eauto.
  - destruct (syncStreams_ok true q Hq) as (ss & q1 & E1 & Hq1 & _). unfold urQueueFinish in E.
    rewrite E1 in E. injection E as <-. split; [done|]. by intros ? ?%elem_of_nil.
  - destruct (barrier_keeps sy na es q Cu q' Hq Hw Hes E) as (Hq' & HCu & Hc). split; [done|].
    cbn [snd fst]. intros s [-> | Hs]%elem_of_cons; auto.
Qed.

Lemma make_queue_inv ooo CS TS :
  (0 < CS)%nat → Z.of_nat CS < 2 ^ 32 → Z.of_nat TS < 2 ^ 32 → step_inv (make_queue ooo CS TS, []).
Proof.
  intros Hc H1 H2. assert (∀ n, Z.of_nat n < 2 ^ 32 → side_ok (side_init n)) as Hs.
  { intros n Hn. split; unfold size; simpl; rewrite ?length_replicate; lia. }
  split; [|by intros ? ?%elem_of_nil]. destruct ooo; split_and!; simpl;
    rewrite ?length_replicate; try done; try apply Hs; unfold size; simpl; rewrite ?length_replicate; lia.
Qed.

Lemma make_native_inv s : step_inv (make_native s, []).
Proof. split; [|by intros ? ?%elem_of_nil]. by split_and!; simpl; repeat split. Qed.

(** What the two constructors make: a queue of its own streams, or one on a
    native stream. *)
Definition new_queue (q : queue) : Prop :=
  (∃ ooo CS TS, (0 < CS)%nat ∧ Z.of_nat CS < 2 ^ 32 ∧ Z.of_nat TS < 2 ^ 32 ∧ q = make_queue ooo CS TS) ∨
  ∃ s, q = make_native s.

Lemma reached_queue_inv q0 qp : new_queue q0 → rtc step (q0, []) qp → step_inv qp.
Proof.
  intros Hn Hr. eapply rtc_invariant; [apply step_inv_step|exact Hr|].
  destruct Hn as [(? & ? & ? & ? & ? & ? & ->)|[? ->]]; [by apply make_queue_inv|apply make_native_inv].
Qed.

(** C28: termination and safety of stream selection, one call at a time and
    without failing driver calls: in every state that a queue from either
    constructor can reach while its 32-bit indices have room for a round of the
    streams before the maximum ([no_wrap]; see [wrapped_token_is_reused] below
    for what happens later), the round-robin loop with its delayed streams ends (each
    round that does not select clears a delay), reads no vector out of range,
    and returns a stream that exists, under a fresh token that names it; with a
    wait list of events of this queue the same holds, the token then being one
    of the current synchronisation period. *)
Theorem stream_selection q0 q p es :
  new_queue q0 → rtc step (q0, []) (q, p) → no_wrap q → Forall (event_ok q) es →
  (∃ s t q', getNextComputeStream q = Ret (s, t, q') ∧
     StreamIndex (compute q) ≤ t < StreamIndex (compute q') ∧ slot (compute q') t = Some s ∧
     t `mod` size (compute q) < NumStreams (compute q')) ∧
  (∃ s t q', getNextComputeStream_deps es q = Ret (s, t, q') ∧
     LastSync (compute q) ≤ t < StreamIndex (compute q') ∧ slot (compute q') t = Some s).
Proof.
  intros Hn Hr Hw Hes. destruct (reached_queue_inv _ _ Hn Hr) as [Hq _]. simpl in Hq.
  destruct (getNextComputeStream_ok q Hq Hw) as (s & t & q' & E & _ & Ht & Hs & Hlt & _).
  destruct (getNextComputeStream_deps_ok es q Hq Hw Hes) as (s' & t' & q1 & E1 & _ & Ht' & Hs' & _).
  split; [exists s, t, q'|exists s', t', q1]; done.
Qed.

(** C27: completeness of synchronisation, one call at a time and without failing
    driver calls: in every state that a queue from
    either constructor can reach, all streams having been handed out before the
    32-bit indices come to their last round ([no_wrap]; after it a stream can
    be missed, [wrapped_token_is_reused] below), [syncStreams] visits every
    compute and transfer stream that has been handed out, fresh or reused,
    since the last resetting synchronisation, and no stream that has not been
    created; so after [urQueueFinish] all of them are synchronised. *)
Theorem sync_complete q0 q p r :
  new_queue q0 → rtc step (q0, []) (q, p) →
  ∃ ss q', syncStreams r q = Ret (ss, q') ∧ (∀ s, s ∈ p → s ∈ ss) ∧
    (∀ s, s ∈ ss → s ∈ forEachStream q) ∧
    urQueueFinish q = (if r then Ret (add_log (StreamSynchronize <$> ss) q') else urQueueFinish q).
Proof.
  intros Hn Hr. destruct (reached_queue_inv _ _ Hn Hr) as [Hq Hp]. simpl in *.
  destruct (syncStreams_ok r q Hq) as (ss & q1 & E & Hq1 & Hcov & Hin & _).
  exists ss, q1. split; [done|]. split; [auto|]. split; [done|].
  destruct r; [|done]. unfold urQueueFinish. by rewrite E.
Qed.

(** reuse is exact: the stream of a command may be reused exactly when no
    later token has been handed out for the same stream and the command has
    not been covered by a resetting synchronisation. *)
Theorem canReuse_exact q t :
  queue_ok q → 0 ≤ t < StreamIndex (compute q) → t < UINT32_MAX →
  canReuseStream t q = true ↔
  LastSync (compute q) ≤ t ∧
  ∀ t', t < t' < StreamIndex (compute q) → t' `mod` size (compute q) ≠ t `mod` size (compute q).
Proof.
  intros ([Hn Hx Hl Hr Ha] & _ & Hp & _) Ht Hm. unfold canReuseStream, hasBeenSynchronized.
  rewrite u32_small by (unfold in_u32; lia). rewrite (proj2 (Z.eqb_neq t UINT32_MAX)) by lia.
  rewrite andb_true_iff, negb_true_iff, Z.leb_le, Z.ltb_ge. split.
  - intros [H1 H2]. split; [done|]. intros t' Ht' E.
    pose proof (Z.div_mod t (size (compute q)) ltac:(lia)).
    pose proof (Z.div_mod t' (size (compute q)) ltac:(lia)).
    assert (t `div` size (compute q) < t' `div` size (compute q)) by nia. nia.
  - intros [H1 H2]. split; [|done]. apply Z.nlt_ge. intros Hlt.
    apply (H2 (t + size (compute q))); [lia|].
    rewrite <-Z.add_mod_idemp_r, Z.mod_same, Z.add_0_r by lia. done.
Qed.

(** a barrier on all work: its stream records and waits for an event on every
    other stream handed out since the last resetting synchronisation, then
    records the barrier event; every stream selected next first waits for
    that event. *)
Theorem barrier_orders q0 q p synced native :
  new_queue q0 → rtc step (q0, []) (q, p) → no_wrap q →
  ∃ Cu q' b tmp ss pre, urEnqueueEventsWaitWithBarrier synced native [] q = Ret (Cu, q') ∧
    BarrierEvent q' = Some b ∧
    log q' = pre ++ (ss ≫= λ s, if decide (Cu = s) then [] else
                                 [EventRecord tmp s; StreamWaitEvent Cu tmp]) ++ [EventRecord b Cu] ∧
    (∀ s, s ∈ p → s ∈ ss) ∧
    ∀ s i q'', 0 ≤ i < size (compute q') → compute_wait s i q' = Ret q'' →
      log q'' = log q' ++ [StreamWaitEvent s b].
Proof.
  intros Hn Hr Hw. destruct (reached_queue_inv _ _ Hn Hr) as [Hq Hp]. simpl in *.
  unfold urEnqueueEventsWaitWithBarrier. cbn [getNextComputeStream_deps].
  destruct (getNextComputeStream_ok q Hq Hw) as (Cu & t & q1 & E1 & He1 & _). rewrite E1.
  cbn [mbind outcome_bind].
  set (b := (ensure_barrier_event q1).1). set (q2 := (ensure_barrier_event q1).2).
  set (tmp := (ensure_tmp_event q2).1). set (q3 := (ensure_tmp_event q2).2).
  replace (ensure_barrier_event q1) with (b, q2) by (by unfold b, q2; destruct (ensure_barrier_event q1)).
  rewrite decide_True by done.
  replace (ensure_tmp_event q2) with (tmp, q3) by (by unfold tmp, q3; destruct (ensure_tmp_event q2)).
  assert (compute q3 = compute q1 ∧ transfer q3 = transfer q1 ∧ DelayCompute q3 = DelayCompute q1 ∧
          BarrierEvent q3 = Some b) as (F1 & F2 & F3 & F4).
  { unfold q3, ensure_tmp_event, q2, b, ensure_barrier_event.
    destruct (BarrierEvent q1) eqn:?; simpl; destruct (BarrierTmpEvent q1); done. }
  assert (queue_ok q3) as Hq3.
  { pose proof (evolves_ok _ _ Hq He1) as Hq1. unfold queue_ok in *. by rewrite F1, F2, F3. }
  destruct (syncStreams_ok false q3 Hq3) as (ss & q4 & E4 & Hq4 & Hcov & _). rewrite E4.
  cbn [mbind outcome_bind].
  assert (BarrierEvent q4 = Some b) as Hb4.
  { rewrite <-F4. clear -E4. unfold syncStreams in E4.
    destruct (mapM _ (sync_indices (compute q3))); [|done..]. cbn [mbind outcome_bind] in E4.
    case_match; [by simplify_eq/=|]. simpl in E4.
    destruct (mapM _ (sync_indices (transfer q3))); [|done..]. by simplify_eq/=. }
  eexists Cu, _, b, tmp, ss, (log q4). split; [reflexivity|]. split; [done|].
  split; [simpl; by rewrite <-app_assoc|]. split.
  - intros s Hs. apply Hcov. apply Hp in Hs. apply (covered_evolves q q1 s Hq He1) in Hs.
    unfold covered in *. by rewrite F1, F2.
  - intros s i q'' Hi. unfold compute_wait, wait_for_barrier. simpl. rewrite Hb4. cbn [mbind outcome_bind].
    destruct Hq4 as ([_ _ _ _ Ha] & _). unfold size in Hi. simpl in Hi.
    destruct (at_in_range ((λ _ : bool, false) <$> AppliedBarrier (compute q4)) i) as [x Hx];
      [rewrite length_fmap, Ha; exact Hi|].
    rewrite (at_Some _ _ _ Hx). cbn [mbind outcome_bind].
    apply list_lookup_fmap_Some in Hx as (? & -> & _). by intros [= <-].
Qed.

(** waiting for the latest events is waiting for all of them: on in-order
    streams it is enough to wait for one event of each stream; the events
    [forLatestEvents] calls back for are among the given ones, every given event
    has one of its stream that is at least as new among them, and when none is
    an interop event there is exactly one per stream. *)
Theorem latest_events_cover es :
  (∀ e, e ∈ forLatestEvents es → e ∈ es) ∧
  (∀ e, e ∈ es → ∃ e', e' ∈ forLatestEvents es ∧ ev_stream e' = ev_stream e ∧ ev_id e ≤ ev_id e') ∧
  ((∀ e, e ∈ es → ev_interop e = false) → NoDup (ev_stream <$> forLatestEvents es)).
Proof.
  assert (forLatestEvents es = latest_loop true 0 (merge_sort event_le es)) as ->.
  { destruct es as [|e [|e' es]]; done. }
  pose proof (merge_sort_Permutation event_le es) as HP.
  pose proof (StronglySorted_merge_sort event_le es) as HS. split_and!.
  - intros e He%latest_loop_elem. by rewrite HP in He.
  - intros e He. rewrite <-HP in He. by destruct (latest_loop_covers _ true 0 e HS He) as [|[? _]].
  - intros Hi. assert (∀ e, e ∈ merge_sort event_le es → ev_interop e = false) as Hi'.
    { intros e He. apply Hi. by rewrite <-HP. }
    destruct HS as [|x l HS Hx]; simpl; [constructor|].
    destruct (latest_loop_streams l (ev_stream x) HS) as [Hn Hlt].
    { intros e He. split; [apply Hi'; by right|]. rewrite Forall_forall in Hx. specialize (Hx e He).
      unfold event_le in Hx. lia. }
    apply NoDup_cons. split; [|done].
    intros (e & He & Hin)%list_elem_of_fmap. specialize (Hlt e Hin). lia.
Qed.

(** Three streams of four are in use, the second one reused. *)
Definition ev0 : event :=
  {| ev_this := true; ev_token := 1; ev_stream := 2; ev_id := 1; ev_interop := false |}.
Definition sample_queue : queue := make_queue true 4 2.
Lemma new_sample_queue : new_queue sample_queue.
Proof. left. exists true, 4%nat, 2%nat. split_and!; (done || lia). Qed.
Lemma reachable_example :
  ∃ q, rtc step (sample_queue, []) (q, [2; 3; 2; 1]) ∧ no_wrap q ∧ event_ok q ev0 ∧
       DelayCompute q !! 1%nat = Some true.
Proof.
  eexists. split.
  - do 3 (eapply rtc_l; [eapply step_next; [by vm_compute|by vm_compute]|]).
    eapply rtc_l; [|apply rtc_refl].
    apply (step_deps _ _ [ev0] 2 1); [by vm_compute| |by vm_compute].
    constructor; [|constructor]. intros _. right. by vm_compute.
  - split; [by vm_compute|]. split; [|by vm_compute]. intros _. right. by vm_compute.
Qed.

Lemma stream_selection_witness :
  ∃ q, DelayCompute q !! 1%nat = Some true ∧ ∃ s t q', getNextComputeStream q = Ret (s, t, q').
Proof.
  destruct reachable_example as (q & Hr & Hw & He & Hd). exists q. split; [exact Hd|].
  destruct (stream_selection sample_queue q [2; 3; 2; 1] [ev0]) as [(s & t & q' & E & _) _];
    [exact new_sample_queue|exact Hr|exact Hw|by constructor|].
  exists s, t, q'. exact E.
Defined.

Lemma sync_complete_witness :
  ∃ q ss q', syncStreams true q = Ret (ss, q') ∧ 3 ∈ ss.
Proof.
  destruct reachable_example as (q & Hr & _ & _ & _).
  destruct (sync_complete sample_queue q [2; 3; 2; 1] true) as (ss & q' & E & Hin & _); [exact new_sample_queue|exact Hr|].
  exists q, ss, q'. split; [exact E|]. apply Hin. right. by left.
Defined.

Lemma canReuse_exact_witness :
  ∃ q, canReuseStream 1 q = true ∧ LastSync (compute q) ≤ 1.
Proof.
  pose (q := match getNextComputeStream (make_queue true 2 0) with
             | Ret (_, _, q) => match getNextComputeStream q with Ret (_, _, q) => q | _ => make_native 0 end
             | _ => make_native 0 end).
  exists q. assert (canReuseStream 1 q = true) as E by by vm_compute. split; [exact E|].
  apply (canReuse_exact q 1); [|by vm_compute|by vm_compute|exact E].
  unfold queue_ok. split; [by split; vm_compute|]. split; [by split; vm_compute|]. by vm_compute.
Defined.

Lemma barrier_orders_witness :
  ∃ q Cu q', urEnqueueEventsWaitWithBarrier (λ _, false) ev_stream [] q = Ret (Cu, q').
Proof.
  destruct reachable_example as (q & Hr & Hw & _ & _).
  destruct (barrier_orders sample_queue q [2; 3; 2; 1] (λ _, false) ev_stream)
    as (Cu & q' & b & tmp & ss & pre & E & _); [exact new_sample_queue|exact Hr|exact Hw|].
  exists q, Cu, q'. exact E.
Defined.

Lemma latest_events_cover_witness :
  let e i := {| ev_this := true; ev_token := i; ev_stream := 2; ev_id := i; ev_interop := false |} in
  forLatestEvents [e 1; e 3; e 2] = [e 3] ∧
  ∃ e', e' ∈ forLatestEvents [e 1; e 3; e 2] ∧ ev_stream e' = 2 ∧ 2 ≤ ev_id e'.
Proof.
  intros e. split; [reflexivity|].
  destruct (latest_events_cover [e 1; e 3; e 2]) as (_ & Hc & _).
  apply (Hc (e 2)). right. right. left.
Defined.

(** When the 32-bit index has wrapped, a token from before the last
    synchronisation still compares above it, so its stream is reused although
    the next synchronisation will not visit it. *)
Example wrapped_token_is_reused :
  let s := {| Streams := [1; 2; 3; 4]; NumStreams := 4; StreamIndex := 1; LastSync := 1;
              AppliedBarrier := [false; false; false; false] |} in
  let q := {| compute := s; transfer := side_init 0; DelayCompute := [false; false; false; false];
              BarrierEvent := None; BarrierTmpEvent := None; fresh := 5; log := [] |} in
  canReuseStream (2 ^ 32 - 2) q = true ∧ sync_indices s = [].
Proof. by vm_compute. Qed.

End StreamQueueProps.
