(* ===== verification/CommandListCache.v ===== *)
(** * Command list cache of the Level Zero v2 adapter
    (adapters/level_zero/v2/command_list_cache.{hpp,cpp})

    Command lists are created by the driver, lent out with a deleter that puts
    them back under the descriptor they were requested with, and reused for a
    matching descriptor.  The driver, [std::hash] and what the hash table compares
    before it calls [operator==] are parameters; the cache is the list of its
    (key, stack) entries. *)
From stdpp Require Import base numbers list relations.
From S2P Require Import Prelude UrUtil.
Local Open Scope Z_scope.

(** [supported_extensions_descriptor_t] *)
Record supported_extensions_descriptor_t := {
  ZeCopyOffloadExtensionSupported : bool; ZeMutableCmdListExtentionSupported : bool;
  ZeCopyOffloadQueueFlagSupported : bool; ZeCopyOffloadListFlagSupported : bool }.

Record command_list_desc_t := {
  IsInOrder : bool; Ordinal : Z; CopyOffloadEnable : bool; Mutable : bool }.

Record immediate_command_list_descriptor_t := {
  imm_ZeDevice : Z; imm_IsInOrder : bool; imm_Ordinal : Z; imm_CopyOffloadEnabled : bool;
  imm_Mode : Z; imm_Priority : Z; imm_Index : option Z }.

Record regular_command_list_descriptor_t := {
  reg_ZeDevice : Z; reg_IsInOrder : bool; reg_Ordinal : Z; reg_CopyOffloadEnabled : bool;
  reg_Mutable : bool }.

Inductive command_list_descriptor_t :=
  | Imm (d : immediate_command_list_descriptor_t)
  | Reg (d : regular_command_list_descriptor_t).

#[export] Instance command_list_descriptor_t_eq_dec : EqDecision command_list_descriptor_t.
Proof.
  assert (EqDecision immediate_command_list_descriptor_t) by solve_decision.
  assert (EqDecision regular_command_list_descriptor_t) by solve_decision. solve_decision.
Defined.

(** What the driver is asked for: the fields of [ze_command_queue_desc_t] and
    [ze_command_list_desc_t] that the code sets, flags by name, and the chain of
    extension structures. *)
Inductive ext := OffloadExt (copyOffloadEnabled : bool) | MutableExt.
Record ze_desc := {
  immediate : bool; device : Z; ordinal : Z; mode : Z; priority : Z; index : Z;
  IN_ORDER : bool; EXPLICIT_ONLY : bool; COPY_OFFLOAD_HINT : bool; pNext : list ext }.

Inductive zecall :=
  | CommandListCreate (d : ze_desc)
  | CommandListReset (h : Z)
  | CommandListDestroy (h : Z).

(** The driver: the error a call returns, if any, after a history of calls, and
    the handle a creation returns; [std::hash]; the environment variable; and
    which keys the hash table compares, given what it holds and the hash codes of
    the key it looks for and of one it holds.  A table may compare the codes or,
    as the standard allows, only the buckets they fall into; equal codes fall
    into one. *)
Class ZeDriver := {
  ze_error : list zecall → zecall → option ur_result_t;
  ze_new_handle : list zecall → Z;
  std_hash : Z → Z;
  std_hash_optional : option Z → Z;
  same_bucket : list command_list_descriptor_t → Z → Z → bool;
  same_bucket_refl keys h : same_bucket keys h h = true;
  ForceDisableCopyOffload : bool;
  supported : supported_extensions_descriptor_t }.

Definition entry : Type := command_list_descriptor_t * list Z.
Record state := { ZeCommandListCache : list entry; zelog : list zecall }.

Module CommandListCache.

Definition log_call (c : zecall) (s : state) : state :=
  {| ZeCommandListCache := ZeCommandListCache s; zelog := zelog s ++ [c] |}.
Definition set_cache (m : list entry) (s : state) : state :=
  {| ZeCommandListCache := m; zelog := zelog s |}.

(** [operator==] of the two descriptors, and of the variant. *)
Definition immediate_eq (l rhs : immediate_command_list_descriptor_t) : bool :=
  (imm_ZeDevice l =? imm_ZeDevice rhs) && bool_decide (imm_IsInOrder l = imm_IsInOrder rhs) &&
  (imm_Mode l =? imm_Mode rhs) && (imm_Priority l =? imm_Priority rhs) &&
  bool_decide (imm_Index l = imm_Index rhs).
Definition regular_eq (l rhs : regular_command_list_descriptor_t) : bool :=
  (reg_ZeDevice l =? reg_ZeDevice rhs) && (reg_Ordinal l =? reg_Ordinal rhs) &&
  bool_decide (reg_IsInOrder l = reg_IsInOrder rhs) && bool_decide (reg_Mutable l = reg_Mutable rhs).
Definition descriptor_eq (l r : command_list_descriptor_t) : bool :=
  match l, r with
  | Imm a, Imm b => immediate_eq a b
  | Reg a, Reg b => regular_eq a b
  | _, _ => false
  end.

Definition CopyOffloadEnabled (d : command_list_descriptor_t) : bool :=
  match d with Imm d => imm_CopyOffloadEnabled d | Reg d => reg_CopyOffloadEnabled d end.
Definition is_imm (d : command_list_descriptor_t) : bool := if d is Imm _ then true else false.

Section cache.
Context `{ZeDriver}.

(** [command_list_descriptor_hash_t] *)
Definition descriptor_hash (d : command_list_descriptor_t) : Z :=
  match d with
  | Imm d => Util.combine_hashes 0 [std_hash (imm_ZeDevice d); std_hash (imm_Ordinal d);
      std_hash (Z.b2z (imm_IsInOrder d)); std_hash (imm_Mode d); std_hash (imm_Priority d);
      std_hash_optional (imm_Index d)]
  | Reg d => Util.combine_hashes 0 [std_hash (reg_ZeDevice d); std_hash (Z.b2z (reg_IsInOrder d));
      std_hash (reg_Ordinal d); std_hash (Z.b2z (reg_Mutable d))]
  end.

(** Two keys are the same for a table with these [keys]. *)
Definition key_match (keys : list command_list_descriptor_t) (d k : command_list_descriptor_t) : bool :=
  same_bucket keys (descriptor_hash d) (descriptor_hash k) && descriptor_eq k d.

(** [unordered_map::find], as the entries before, the entry and those after. *)
Fixpoint find_in (keys : list command_list_descriptor_t) (d : command_list_descriptor_t) (m : list entry)
    : option (list entry * entry * list entry) :=
  match m with
  | [] => None
  | e :: m =>
      if key_match keys d e.1 then Some ([], e, m)
      else '(l, x, r) ← find_in keys d m; Some (e :: l, x, r)
  end.
Definition find (d : command_list_descriptor_t) (m : list entry) : option (list entry * entry * list entry) :=
  find_in m.*1 d m.

(** [requestedCopyOffload], after the two checks. *)
Definition requestedCopyOffload (desc : command_list_descriptor_t) : bool :=
  let r := CopyOffloadEnabled desc in
  let r := if ForceDisableCopyOffload && r then false else r in
  if negb (ZeCopyOffloadExtensionSupported supported) && r then false else r.

Definition immediate_ze_desc (offload : bool) (d : immediate_command_list_descriptor_t) : ze_desc :=
  let hint := offload && ZeCopyOffloadQueueFlagSupported supported in
  {| immediate := true; device := imm_ZeDevice d; ordinal := imm_Ordinal d; mode := imm_Mode d;
     priority := imm_Priority d; index := default 0 (imm_Index d);
     IN_ORDER := imm_IsInOrder d; EXPLICIT_ONLY := bool_decide (is_Some (imm_Index d));
     COPY_OFFLOAD_HINT := hint; pNext := if hint then [] else [OffloadExt offload] |}.
Definition regular_ze_desc (offload : bool) (d : regular_command_list_descriptor_t) : ze_desc :=
  let hint := offload && ZeCopyOffloadListFlagSupported supported in
  {| immediate := false; device := reg_ZeDevice d; ordinal := reg_Ordinal d; mode := 0;
     priority := 0; index := 0; IN_ORDER := reg_IsInOrder d; EXPLICIT_ONLY := false;
     COPY_OFFLOAD_HINT := hint;
     pNext := (if hint then [] else [OffloadExt offload]) ++
              (if reg_Mutable d then [MutableExt] else []) |}.

(** The request [createCommandList] makes of the driver, or its exception. *)
Definition create_request (desc : command_list_descriptor_t) : outcome ze_desc :=
  let offload := requestedCopyOffload desc in
  match desc with
  | Imm d => Ret (immediate_ze_desc offload d)
  | Reg d =>
      if negb (ZeMutableCmdListExtentionSupported supported) && reg_Mutable d
      then Throw (exn_ur_result UR_RESULT_ERROR_UNSUPPORTED_FEATURE)
      else Ret (regular_ze_desc offload d)
  end.

Definition createCommandList (desc : command_list_descriptor_t) (s : state) : outcome Z * state :=
  match create_request desc with
  | Ret d =>
      let s' := log_call (CommandListCreate d) s in
      match ze_error (zelog s) (CommandListCreate d) with
      | Some e => (Throw (exn_ur_result e), s')
      | None => (Ret (ze_new_handle (zelog s)), s')
      end
  | Throw e => (Throw e, s)
  | Undefined => (Undefined, s)
  end.

(** [getCommandList]; when the reset fails the handle is destroyed on unwinding. *)
Definition getCommandList (desc : command_list_descriptor_t) (s : state) : outcome Z * state :=
  match find desc (ZeCommandListCache s) with
  | None => createCommandList desc s
  | Some (_, (_, []), _) => (Undefined, s)
  | Some (l, (k, h :: hs), r) =>
      let s1 := set_cache (l ++ (if decide (hs = []) then [] else [(k, hs)]) ++ r) s in
      if is_imm desc then (Ret h, s1) else
      let s2 := log_call (CommandListReset h) s1 in
      match ze_error (zelog s1) (CommandListReset h) with
      | Some e => (Throw (exn_ur_result e), log_call (CommandListDestroy h) s2)
      | None => (Ret h, s2)
      end
  end.

Definition addCommandList (desc : command_list_descriptor_t) (cmdList : Z) (s : state) : state :=
  match find desc (ZeCommandListCache s) with
  | None => set_cache ((desc, [cmdList]) :: ZeCommandListCache s) s
  | Some (l, (k, hs), r) => set_cache (l ++ (k, cmdList :: hs) :: r) s
  end.

(** The handle given out, and the descriptor its deleter returns it under. *)
Definition getImmediateCommandList (ZeDevice : Z) (ListDesc : command_list_desc_t)
    (Mode Priority : Z) (Index : option Z) (s : state) : outcome (Z * command_list_descriptor_t) * state :=
  let Desc := Imm {| imm_ZeDevice := ZeDevice; imm_IsInOrder := IsInOrder ListDesc;
    imm_Ordinal := Ordinal ListDesc; imm_CopyOffloadEnabled := CopyOffloadEnable ListDesc;
    imm_Mode := Mode; imm_Priority := Priority; imm_Index := Index |} in
  let '(r, s) := getCommandList Desc s in ((λ h, (h, Desc)) <$> r, s).
Definition getRegularCommandList (ZeDevice : Z) (ListDesc : command_list_desc_t) (s : state)
    : outcome (Z * command_list_descriptor_t) * state :=
  let Desc := Reg {| reg_ZeDevice := ZeDevice; reg_IsInOrder := IsInOrder ListDesc;
    reg_Ordinal := Ordinal ListDesc; reg_CopyOffloadEnabled := CopyOffloadEnable ListDesc;
    reg_Mutable := Mutable ListDesc |} in
  let '(r, s) := getCommandList Desc s in ((λ h, (h, Desc)) <$> r, s).

Definition count_lists (p : command_list_descriptor_t → bool) (s : state) : nat :=
  foldr (λ e n, ((if p e.1 then length e.2 else 0) + n)%nat) 0%nat (ZeCommandListCache s).
Definition getNumImmediateCommandLists : state → nat := count_lists is_imm.
Definition getNumRegularCommandLists : state → nat := count_lists (λ d, negb (is_imm d)).
End cache.

End CommandListCache.

Module CommandListCacheFacts.
Import CommandListCache.

(** The descriptor without the field that takes no part in matching. *)
Definition modulo_offload (d : command_list_descriptor_t) : command_list_descriptor_t :=
  match d with
  | Imm d => Imm {| imm_ZeDevice := imm_ZeDevice d; imm_IsInOrder := imm_IsInOrder d;
      imm_Ordinal := imm_Ordinal d; imm_CopyOffloadEnabled := false; imm_Mode := imm_Mode d;
      imm_Priority := imm_Priority d; imm_Index := imm_Index d |}
  | Reg d => Reg {| reg_ZeDevice := reg_ZeDevice d; reg_IsInOrder := reg_IsInOrder d;
      reg_Ordinal := reg_Ordinal d; reg_CopyOffloadEnabled := false; reg_Mutable := reg_Mutable d |}
  end.

(** The handles of the cache. *)
Definition cached (m : list entry) : list Z := m ≫= snd.

Lemma lxor_inj_r a b c : Z.lxor a c = Z.lxor b c → a = b.
Proof.
  intros E. rewrite <-(Z.lxor_0_r a), <-(Z.lxor_0_r b), <-(Z.lxor_nilpotent c).
  by rewrite <-!Z.lxor_assoc, E.
Qed.
Lemma lxor_inj_l a b c : Z.lxor c a = Z.lxor c b → a = b.
Proof. rewrite !(Z.lxor_comm c). apply lxor_inj_r. Qed.

Section facts.
Context `{ZeDriver}.

Lemma descriptor_eq_spec d k : descriptor_eq d k = true ↔ match d, k with
  | Imm d, Imm k => imm_ZeDevice d = imm_ZeDevice k ∧ imm_IsInOrder d = imm_IsInOrder k ∧ imm_Mode d = imm_Mode k ∧
      imm_Priority d = imm_Priority k ∧ imm_Index d = imm_Index k
  | Reg d, Reg k => reg_ZeDevice d = reg_ZeDevice k ∧ reg_Ordinal d = reg_Ordinal k ∧
      reg_IsInOrder d = reg_IsInOrder k ∧ reg_Mutable d = reg_Mutable k
  | _, _ => False end.
Proof.
  destruct d as [d|d], k as [k|k]; simpl; unfold immediate_eq, regular_eq; try done;
    rewrite !andb_true_iff, ?Z.eqb_eq, ?bool_decide_eq_true; tauto.
Qed.
Lemma descriptor_eq_refl d : descriptor_eq d d = true.
Proof. apply descriptor_eq_spec. by destruct d. Qed.
Lemma descriptor_eq_sym d k : descriptor_eq d k = true → descriptor_eq k d = true.
Proof. rewrite !descriptor_eq_spec. destruct d, k; naive_solver. Qed.
Lemma descriptor_eq_trans d k x : descriptor_eq d k = true → descriptor_eq k x = true → descriptor_eq d x = true.
Proof. rewrite !descriptor_eq_spec. destruct d, k, x; intuition congruence. Qed.

(** A table that compares hash codes, and a hash that separates. *)
Definition exact_hash : Prop :=
  (∀ keys x y, same_bucket keys x y = true → x = y) ∧ ∀ x y, std_hash x = std_hash y → x = y.
(** What descriptors have in common whose lists are exchanged for each other:
    they are equal for [operator==], which leaves out copy offload and the ordinal
    of immediate lists; the latter is told apart by an exact hash. *)
Definition same_kind (d k : command_list_descriptor_t) : Prop :=
  descriptor_eq d k = true ∧ (exact_hash → modulo_offload d = modulo_offload k).
#[export] Instance same_kind_equiv : Equivalence same_kind.
Proof.
  split.
  - intros d. split; [apply descriptor_eq_refl|done].
  - intros d k [H1 H2]. split; [by apply descriptor_eq_sym|intros He; by rewrite H2].
  - intros d k x [H1 H2] [H3 H4]. split; [by eapply descriptor_eq_trans|intros He; by rewrite H2, H4].
Qed.

Lemma key_match_refl keys d : key_match keys d d = true.
Proof. unfold key_match. by rewrite same_bucket_refl, descriptor_eq_refl. Qed.

(** Matching keys are of the same kind. *)
Lemma key_match_kind keys d k : key_match keys d k = true → same_kind d k.
Proof.
  unfold key_match. intros [Hb He]%andb_true_iff. apply descriptor_eq_sym in He. split; [done|].
  intros [Hbucket Hinj]. apply Hbucket in Hb.
  destruct d as [d|d], k as [k|k]; simpl in He; try done;
    destruct d, k; unfold immediate_eq, regular_eq in He; simpl in *; bool_to_prop; subst; [|done].
  assert (imm_Ordinal0 = imm_Ordinal1) as ->; [|done].
  unfold Util.combine_hashes in Hb. simpl in Hb. do 4 apply lxor_inj_r in Hb.
  by apply lxor_inj_l, Hinj in Hb.
Qed.

Lemma find_in_Some keys d m l e r :
  find_in keys d m = Some (l, e, r) →
  m = l ++ e :: r ∧ key_match keys d e.1 = true ∧ Forall (λ x, key_match keys d x.1 = false) l.
Proof.
  revert l. induction m as [|x m IH]; intros l; simpl; [done|].
  destruct (key_match keys d x.1) eqn:E; [by intros [= <- <- <-]|].
  destruct (find_in keys d m) as [[[l' e'] r']|]; [|done]. intros [= <- -> ->].
  destruct (IH _ eq_refl) as (-> & ? & ?). by repeat constructor.
Qed.
Lemma find_Some d m l e r :
  find d m = Some (l, e, r) →
  m = l ++ e :: r ∧ key_match m.*1 d e.1 = true ∧ Forall (λ x, key_match m.*1 d x.1 = false) l.
Proof. apply find_in_Some. Qed.
Lemma find_kind d m l e r : find d m = Some (l, e, r) → m = l ++ e :: r ∧ same_kind d e.1.
Proof. intros (-> & Hm & _)%find_Some. split; [done|by eapply key_match_kind]. Qed.

Lemma find_in_hit keys d l e r :
  key_match keys d e.1 = true → Forall (λ x, key_match keys d x.1 = false) l →
  find_in keys d (l ++ e :: r) = Some (l, e, r).
Proof.
  intros He. induction 1 as [|x l Hx _ IH]; simpl; [by rewrite He|]. by rewrite Hx, IH.
Qed.

(** The command lists the driver has created and not destroyed, with what they
    were created for, computed from the calls. *)
Definition live_step (pre : list zecall) (c : zecall) (acc : list (Z * ze_desc)) : list (Z * ze_desc) :=
  match c with
  | CommandListCreate d =>
      if ze_error pre c is None then (ze_new_handle pre, d) :: acc else acc
  | CommandListReset _ => acc
  | CommandListDestroy h => filter (λ p, p.1 ≠ h) acc
  end.
Definition live (log : list zecall) : list (Z * ze_desc) :=
  (foldl (λ p c, (p.1 ++ [c], live_step p.1 c p.2)) ([], []) log).2.

Lemma live_snoc log c : live (log ++ [c]) = live_step log c (live log).
Proof.
  unfold live. rewrite foldl_app. simpl. f_equal. clear c.
  induction log as [|c log IH] using rev_ind; [done|]. rewrite foldl_app. simpl. by rewrite IH.
Qed.

(** Whom a list belongs to: its creation request is the one [createCommandList]
    makes for an allowed descriptor of the kind of [k]. *)
Definition made_for (allowed : command_list_descriptor_t → Prop) (log : list zecall)
    (h : Z) (k : command_list_descriptor_t) : Prop :=
  ∃ d req, allowed d ∧ same_kind d k ∧ create_request d = Ret req ∧
    (h, req) ∈ live log.

(** The state of a cache and the lists lent out, with their deleters' descriptors. *)
Record cache_inv allowed (s : state) (lent : list (Z * command_list_descriptor_t)) : Prop := {
  ci_owned : (live (zelog s)).*1 ≡ₚ cached (ZeCommandListCache s) ++ lent.*1;
  ci_nodup : NoDup (live (zelog s)).*1;
  ci_stacks : Forall (λ e, e.2 ≠ []) (ZeCommandListCache s);
  ci_cached : ∀ k hs h, (k, hs) ∈ ZeCommandListCache s → h ∈ hs → made_for allowed (zelog s) h k;
  ci_lent : ∀ h d, (h, d) ∈ lent → made_for allowed (zelog s) h d;
}.

Lemma made_for_equiv allowed log h k k' :
  same_kind k k' → made_for allowed log h k → made_for allowed log h k'.
Proof. intros E (d & req & ? & ? & ? & ?). exists d, req. split_and!; try done. by etrans. Qed.

Lemma made_for_mono allowed log log' h k :
  (∀ p, p ∈ live log → p.1 = h → p ∈ live log') → made_for allowed log h k → made_for allowed log' h k.
Proof. intros Hl (d & req & ? & ? & ? & ?). exists d, req. split_and!; auto. Qed.

Lemma cached_app l r : cached (l ++ r) = cached l ++ cached r.
Proof. unfold cached. by rewrite bind_app. Qed.

(** A handle the driver returns is not one it still owns. *)
Definition driver_fresh : Prop := ∀ log, ze_new_handle log ∉ (live log).*1.

Lemma inv_live_eq allowed s s' lent :
  live (zelog s') = live (zelog s) → ZeCommandListCache s' = ZeCommandListCache s →
  cache_inv allowed s lent → cache_inv allowed s' lent.
Proof.
  intros E1 E2 []. split; rewrite ?E1, ?E2; auto.
  - intros k hs h Hk Hh. eapply made_for_mono; [|by eapply ci_cached0]. by rewrite E1.
  - intros h d Hd. eapply made_for_mono; [|by eapply ci_lent0]. by rewrite E1.
Qed.

Lemma create_inv allowed d s lent r s' :
  driver_fresh → allowed d → cache_inv allowed s lent → createCommandList d s = (r, s') →
  match r with Ret h => cache_inv allowed s' ((h, d) :: lent) | Throw _ => cache_inv allowed s' lent
             | Undefined => False end.
Proof.
  intros Hf Ha Hi. unfold createCommandList.
  destruct (create_request d) as [req|e|] eqn:Er; [|by intros [= <- <-]|].
  2: { exfalso. destruct d; simpl in Er; [done|]. by destruct (_ && _). }
  destruct (ze_error _ _) as [e|] eqn:Ee; intros [= <- <-].
  { apply (inv_live_eq _ s); [|done|exact Hi]. simpl. rewrite live_snoc. simpl. by rewrite Ee. }
  assert (live (zelog s ++ [CommandListCreate req]) = (ze_new_handle (zelog s), req) :: live (zelog s)) as El.
  { rewrite live_snoc. simpl. by rewrite Ee. }
  destruct Hi. split; simpl; rewrite ?El; try done.
  - rewrite fmap_cons, ci_owned0. apply Permutation_middle.
  - rewrite fmap_cons. apply NoDup_cons. split; [apply Hf|done].
  - intros k hs h Hk Hh. eapply made_for_mono; [|by eapply ci_cached0].
    intros p Hp _. rewrite El. by right.
  - intros h k [[= -> ->]|Hk]%elem_of_cons.
    + exists d, req. rewrite El. split_and!; try done. left.
    + eapply made_for_mono; [|by eapply ci_lent0]. intros p Hp _. rewrite El. by right.
Qed.

(** Taking the top of a matching stack. *)
Lemma pop_inv allowed d s lent (l : list entry) k h hs (r : list entry) :
  cache_inv allowed s lent → ZeCommandListCache s = l ++ (k, h :: hs) :: r → same_kind d k →
  cache_inv allowed (set_cache (l ++ (if decide (hs = []) then [] else [(k, hs)]) ++ r) s) ((h, d) :: lent).
Proof.
  intros [] Hc Hm.
  assert (∀ k' hs', (k', hs') ∈ l ++ (if decide (hs = []) then [] else [(k, hs)]) ++ r →
    (k', hs') ∈ ZeCommandListCache s ∨ (k' = k ∧ hs' = hs ∧ hs ≠ [])) as Hsub.
  { intros k' hs'. rewrite Hc, !elem_of_app, elem_of_cons. case_decide as Hn.
    - rewrite elem_of_nil. naive_solver.
    - rewrite list_elem_of_singleton. naive_solver. }
  split; simpl; try done.
  - rewrite ci_owned0, Hc. case_decide as Hn; [subst hs|];
      unfold cached; rewrite !bind_app; simpl; solve_Permutation.
  - apply Forall_forall. intros [k' hs'] [Hin|(-> & -> & ?)]%Hsub; [|done].
    rewrite Forall_forall in ci_stacks0. exact (ci_stacks0 _ Hin).
  - intros k' hs' h' [Hin|(-> & -> & _)]%Hsub Hh; [by eapply ci_cached0|].
    apply (ci_cached0 k (h :: hs)); [|by right]. rewrite Hc. apply elem_of_app. right. left.
  - intros h' d' [[= -> ->]|Hd]%elem_of_cons; [|auto].
    eapply made_for_equiv; [symmetry; exact Hm|]. apply (ci_cached0 k (h :: hs)); [|left].
    rewrite Hc. apply elem_of_app. right. left.
Qed.

Lemma destroy_inv allowed s lent h d :
  cache_inv allowed s ((h, d) :: lent) → cache_inv allowed (log_call (CommandListDestroy h) s) lent.
Proof.
  intros []. rewrite fmap_cons, <-Permutation_middle in ci_owned0. simpl in ci_owned0.
  pose proof ci_nodup0 as Hn. rewrite ci_owned0 in Hn. apply NoDup_cons in Hn as [Hh Hn].
  assert (∀ log, live (log ++ [CommandListDestroy h]) = filter (λ p, p.1 ≠ h) (live log)) as El
    by (intros; by rewrite live_snoc).
  assert (∀ h' k, h' ∈ cached (ZeCommandListCache s) ++ lent.*1 → made_for allowed (zelog s) h' k →
    made_for allowed (zelog s ++ [CommandListDestroy h]) h' k) as Hm.
  { intros h' k Hin. apply made_for_mono. intros p Hp <-. rewrite El. apply list_elem_of_filter.
    split; [by intros <-|done]. }
  split; simpl; rewrite ?El; try done.
  - transitivity (filter (λ x, x ≠ h) (live (zelog s)).*1); [by rewrite <-(fmap_filter_fst (λ x, x ≠ h))|].
    rewrite ci_owned0, filter_cons_False by naive_solver.
    rewrite filter_all; [done|]. by intros x Hx ->.
  - by apply NoDup_fmap_filter.
  - intros k hs h' Hk Hh'. apply Hm; [|by eapply ci_cached0]. apply elem_of_app. left.
    unfold cached. apply list_elem_of_bind. by exists (k, hs).
  - intros h' k Hk. apply Hm; [|by apply ci_lent0; right]. apply elem_of_app. right.
    apply list_elem_of_fmap. by exists (h', k).
Qed.

(** [getCommandList] lends a list made for the descriptor, or throws. *)
Lemma getCommandList_inv allowed d s lent r s' :
  driver_fresh → allowed d →
  cache_inv allowed s lent → getCommandList d s = (r, s') →
  match r with Ret h => cache_inv allowed s' ((h, d) :: lent) | Throw _ => cache_inv allowed s' lent
             | Undefined => False end.
Proof.
  intros Hf Ha Hi. unfold getCommandList.
  destruct (find d (ZeCommandListCache s)) as [[[l [k hs]] rest]|] eqn:Hfd; [|by apply create_inv].
  apply find_kind in Hfd as (Hc & Hm). simpl in Hm. destruct hs as [|h hs].
  { exfalso. pose proof (ci_stacks _ _ _ Hi) as Hs. rewrite Hc, Forall_app, Forall_cons in Hs.
    by destruct Hs as (_ & ? & _). }
  pose proof (pop_inv allowed d s lent l k h hs rest Hi Hc Hm) as Hp.
  set (s1 := set_cache _ s) in *. destruct (is_imm d); [by intros [= <- <-]|].
  assert (cache_inv allowed (log_call (CommandListReset h) s1) ((h, d) :: lent)) as Hr.
  { apply (inv_live_eq _ s1); [|done|done]. simpl. by rewrite live_snoc. }
  destruct (ze_error _ _) as [e|]; intros [= <- <-]; [by apply (destroy_inv _ _ _ h d)|done].
Qed.

(** The deleter of a lent list puts it back. *)
Lemma addCommandList_inv allowed d h s l r :
  cache_inv allowed s (l ++ (h, d) :: r) → cache_inv allowed (addCommandList d h s) (l ++ r).
Proof.
  intros Hi. pose proof Hi as [].
  assert (made_for allowed (zelog s) h d) as Hd by (apply ci_lent0, elem_of_app; right; left).
  assert (∀ h d, (h, d) ∈ l ++ r → made_for allowed (zelog s) h d) as Hl.
  { intros h' d' Hin. apply ci_lent0. rewrite elem_of_app, elem_of_cons in *. naive_solver. }
  rewrite fmap_app, fmap_cons in ci_owned0. simpl in ci_owned0. unfold addCommandList.
  destruct (find d (ZeCommandListCache s)) as [[[lc [k hs]] rc]|] eqn:Hfd; split; simpl; try done.
  - apply find_Some in Hfd as (Hc & _). rewrite ci_owned0, Hc, !cached_app, fmap_app. unfold cached. simpl.
    solve_Permutation.
  - apply find_Some in Hfd as (Hc & _). rewrite Hc, Forall_app, Forall_cons in ci_stacks0.
    rewrite Forall_app, Forall_cons. naive_solver.
  - apply find_kind in Hfd as (Hc & Hm). simpl in Hm.
    intros k' hs' h' Hk Hh. rewrite Hc in ci_cached0.
    setoid_rewrite elem_of_app in ci_cached0. setoid_rewrite elem_of_cons in ci_cached0.
    apply elem_of_app in Hk as [Hk|[[= -> ->]|Hk]%elem_of_cons]; [by eauto 6| |by eauto 7].
    apply elem_of_cons in Hh as [-> | Hh]; [by eapply made_for_equiv|]. eapply ci_cached0; eauto.
  - rewrite ci_owned0, fmap_app. unfold cached. simpl. solve_Permutation.
  - by constructor.
  - intros k hs h' [[= -> ->]|Hk]%elem_of_cons Hh; [|by eapply ci_cached0].
    by apply list_elem_of_singleton in Hh as ->.
Qed.

End facts.
End CommandListCacheFacts.

Module CommandListCacheProps.
Import CommandListCache CommandListCacheFacts.

Section props.
Context `{ZeDriver}.

(** Requests and returns of command lists; [off] fixes [CopyOffloadEnable] of
    every request when it is given. *)
Inductive step (off : option bool) : relation (state * list (Z * command_list_descriptor_t)) :=
  | step_immediate s lent dev ld mode prio idx r s' :
      (∀ b, off = Some b → CopyOffloadEnable ld = b) →
      getImmediateCommandList dev ld mode prio idx s = (r, s') →
      step off (s, lent) (s', match r with Ret p => p :: lent | _ => lent end)
  | step_regular s lent dev ld r s' :
      (∀ b, off = Some b → CopyOffloadEnable ld = b) →
      getRegularCommandList dev ld s = (r, s') →
      step off (s, lent) (s', match r with Ret p => p :: lent | _ => lent end)
  | step_release s l h d r :
      step off (s, l ++ (h, d) :: r) (addCommandList d h s, l ++ r).

Definition empty_cache : state := {| ZeCommandListCache := []; zelog := [] |}.

Definition allowed (off : option bool) (d : command_list_descriptor_t) : Prop :=
  ∀ b, off = Some b → CopyOffloadEnabled d = b.

Definition sys_inv off (x : state * list (Z * command_list_descriptor_t)) : Prop :=
  cache_inv (allowed off) x.1 x.2 ∧ ∀ h d, (h, d) ∈ x.2 → allowed off d.

Lemma get_step off d s lent (r : outcome Z) s' :
  driver_fresh → allowed off d → sys_inv off (s, lent) →
  getCommandList d s = (r, s') →
  sys_inv off (s', match (λ h, (h, d)) <$> r with Ret p => p :: lent | _ => lent end).
Proof.
  intros Hf Ha [Hi Hl] E. pose proof (getCommandList_inv _ d s lent r s' Hf Ha Hi E) as Hr.
  destruct r; simpl; [|by split|done]. split; [done|]. simpl.
  intros h' d' [[= -> ->]|Hd]%elem_of_cons; [done|by eapply Hl].
Qed.

Lemma cache_inv_step off x x' :
  driver_fresh → sys_inv off x → step off x x' → sys_inv off x'.
Proof.
  intros Hf Hx Hs. revert Hx.
  destruct Hs as [s lent dev ld mode prio idx r s' Ha E|s lent dev ld r s' Ha E|s l h d r]; intros Hx.
  1: unfold getImmediateCommandList in E. 2: unfold getRegularCommandList in E.
  1,2: destruct (getCommandList _ s) as [r0 s0] eqn:E0; injection E as <- <-;
    (eapply get_step; [exact Hf| |exact Hx|exact E0]; exact Ha).
  destruct Hx as [Hi Hl]. split; [by apply (addCommandList_inv _ d h s l r)|].
  intros h' d' Hin. apply (Hl h'). simpl in *. rewrite elem_of_app, elem_of_cons in *. naive_solver.
Qed.

Lemma sys_inv_init off : sys_inv off (empty_cache, []).
Proof.
  split; [|by intros ? ? ?%elem_of_nil]. split; simpl; try done; try constructor.
  - intros k hs h ?%elem_of_nil. done.
  - intros h d ?%elem_of_nil. done.
Qed.

Lemma count_lists_total s :
  (getNumImmediateCommandLists s + getNumRegularCommandLists s)%nat = length (cached (ZeCommandListCache s)).
Proof.
  unfold getNumImmediateCommandLists, getNumRegularCommandLists, count_lists, cached.
  induction (ZeCommandListCache s) as [|[k hs] m IH]; [done|].
  rewrite bind_cons, length_app, <-IH. simpl. destruct (is_imm k); simpl; lia.
Qed.

(** C29: safety of the command list cache, in every state reachable by requests
    and returns, drivers that fail included, for any hash and any hash table
    that finds what it should, provided only that the driver does not return the
    handle of a list it still owns.  No list is lent twice or both lent and
    cached, cached and lent lists are exactly those the driver has created and
    not destroyed, the counts add up, and the cached stack a request pops is
    never empty.  Every lent list was created with exactly the driver request of
    a descriptor that [operator==] takes for the one asked for, which leaves out
    copy offload and, for immediate lists, the ordinal.  If the table compares
    hash codes and the hash separates, the ordinal agrees as well, and it is
    the same descriptor when, as in the adapter, every request enables copy
    offload. *)
Theorem command_list_cache_safe off s lent :
  driver_fresh → rtc (step off) (empty_cache, []) (s, lent) →
  NoDup (cached (ZeCommandListCache s) ++ lent.*1) ∧
  (live (zelog s)).*1 ≡ₚ cached (ZeCommandListCache s) ++ lent.*1 ∧
  (getNumImmediateCommandLists s + getNumRegularCommandLists s)%nat = length (cached (ZeCommandListCache s)) ∧
  (∀ d, (getCommandList d s).1 ≠ Undefined) ∧
  (∀ h d, (h, d) ∈ lent → ∃ d' req, create_request d' = Ret req ∧ (h, req) ∈ live (zelog s) ∧
     descriptor_eq d' d = true ∧
     (exact_hash → modulo_offload d' = modulo_offload d ∧ (∀ b, off = Some b → d' = d))).
Proof.
  intros Hf Hr.
  assert (sys_inv off (s, lent)) as [Hi Ha]
    by (eapply rtc_invariant; [intros ? ?; by apply cache_inv_step|done|apply sys_inv_init]).
  pose proof Hi as []. simpl in *. split; [by rewrite <-ci_owned0|]. split; [done|].
  split; [apply count_lists_total|]. split.
  - intros d E. destruct (getCommandList d s) as [r s'] eqn:Eg. simpl in E. subst r.
    assert (cache_inv (λ _, True) s lent) as Hi'.
    { split; try done.
      - intros k hs h Hk Hh. destruct (ci_cached0 k hs h Hk Hh) as (d' & req & _ & ?). by exists d', req.
      - intros h k Hk. destruct (ci_lent0 h k Hk) as (d' & req & _ & ?). by exists d', req. }
    exact (getCommandList_inv _ d s lent Undefined s' Hf I Hi' Eg).
  - intros h d Hd. destruct (ci_lent0 h d Hd) as (d' & req & Ha' & [He Hm] & Hreq & Hin).
    exists d', req. split_and!; try done. intros Hx. specialize (Hm Hx). split; [done|].
    intros b ->. specialize (Ha h d Hd b eq_refl). specialize (Ha' b eq_refl).
    destruct d' as [[]|[]], d as [[]|[]]; simplify_eq/=; done.
Qed.

Lemma offload_chain (o f : bool) :
  OffloadExt true ∈ (if o && f then [] else [OffloadExt o]) ↔ o = true ∧ f = false.
Proof.
  destruct o, f; simpl; rewrite ?elem_of_nil, ?list_elem_of_singleton; intuition congruence.
Qed.
Lemma mutable_chain x (m : bool) : x ∈ (if m then [MutableExt] else []) ↔ m = true ∧ x = MutableExt.
Proof. destruct m; rewrite ?elem_of_nil, ?list_elem_of_singleton; intuition congruence. Qed.

(** what the driver is asked for: creating a list makes no driver call and
    throws UNSUPPORTED_FEATURE for a mutable list without driver support, and
    otherwise makes one creation call, in which copy offload is on exactly when
    it is requested, not disabled by the environment and supported, by the flag
    where that is supported and else by the extension structure; the explicit
    index flag is set exactly when an index is given, and the mutable
    extension is chained exactly for mutable lists. *)
Theorem createCommandList_spec d s :
  let offload := CopyOffloadEnabled d && negb ForceDisableCopyOffload &&
                 ZeCopyOffloadExtensionSupported supported in
  let flag := if is_imm d then ZeCopyOffloadQueueFlagSupported supported
              else ZeCopyOffloadListFlagSupported supported in
  let is_mutable := match d with Imm _ => false | Reg d => reg_Mutable d end in
  if is_mutable && negb (ZeMutableCmdListExtentionSupported supported)
  then createCommandList d s = (Throw (exn_ur_result UR_RESULT_ERROR_UNSUPPORTED_FEATURE), s)
  else ∃ req,
    createCommandList d s =
      (match ze_error (zelog s) (CommandListCreate req) with
       | Some e => Throw (exn_ur_result e) | None => Ret (ze_new_handle (zelog s)) end,
       log_call (CommandListCreate req) s) ∧
    immediate req = is_imm d ∧
    COPY_OFFLOAD_HINT req = offload && flag ∧
    (OffloadExt true ∈ pNext req ↔ offload = true ∧ flag = false) ∧
    (EXPLICIT_ONLY req = true ↔ ∃ d' i, d = Imm d' ∧ imm_Index d' = Some i ∧ index req = i) ∧
    (MutableExt ∈ pNext req ↔ is_mutable = true).
Proof.
  assert (Ho : requestedCopyOffload d = CopyOffloadEnabled d && negb ForceDisableCopyOffload &&
                 ZeCopyOffloadExtensionSupported supported).
  { unfold requestedCopyOffload. by destruct (CopyOffloadEnabled d), ForceDisableCopyOffload,
      (ZeCopyOffloadExtensionSupported supported). }
  intros offload flag is_mutable. unfold createCommandList. fold offload in Ho.
  destruct d as [d|d]; simpl in is_mutable |- *.
  - exists (immediate_ze_desc (requestedCopyOffload (Imm d)) d).
    split; [by destruct (ze_error _ _)|]. simpl. rewrite Ho.
    change (ZeCopyOffloadQueueFlagSupported supported) with flag. clearbody offload flag.
    split_and!; try done.
    + apply offload_chain.
    + rewrite bool_decide_eq_true. split; [intros [i Hi]; exists d, i; by rewrite Hi|].
      intros (d' & i & [= <-] & -> & _). by eexists.
    + split; [|done]. by destruct (offload && flag); [intros ?%elem_of_nil|intros ?%list_elem_of_singleton].
  - subst is_mutable. rewrite (andb_comm (reg_Mutable d)).
    destruct (negb (ZeMutableCmdListExtentionSupported supported) && reg_Mutable d); [done|].
    exists (regular_ze_desc (requestedCopyOffload (Reg d)) d).
    split; [by destruct (ze_error _ _)|]. simpl. rewrite Ho.
    change (ZeCopyOffloadListFlagSupported supported) with flag. clearbody offload flag. split_and!; try done.
    + rewrite elem_of_app, offload_chain, mutable_chain. split; [|by left]. by intros [?|[_ ?]].
    + split; [done|]. by intros (? & ? & ? & _).
    + rewrite elem_of_app, mutable_chain. split; [|by right].
      intros [Hm|[? _]]; [|done]. by destruct (offload && flag); [apply elem_of_nil in Hm|apply list_elem_of_singleton in Hm].
Qed.

(** returning a list and requesting the same kind again gives that list
    back and leaves the cache as it was; an immediate list is reused as it is,
    a regular one is reset first, and destroyed when the reset fails. *)
Theorem return_then_request d h s :
  Forall (λ e, e.2 ≠ []) (ZeCommandListCache s) →
  getCommandList d (addCommandList d h s) =
    if is_imm d then (Ret h, s) else
    match ze_error (zelog s) (CommandListReset h) with
    | Some e => (Throw (exn_ur_result e), log_call (CommandListDestroy h) (log_call (CommandListReset h) s))
    | None => (Ret h, log_call (CommandListReset h) s)
    end.
Proof.
  intros Hs.
  assert (∃ l k hs r, find d (ZeCommandListCache (addCommandList d h s)) = Some (l, (k, h :: hs), r) ∧
    zelog (addCommandList d h s) = zelog s ∧
    l ++ (if decide (hs = []) then [] else [(k, hs)]) ++ r = ZeCommandListCache s) as (l & k & hs & r & E1 & E2 & E3).
  { unfold addCommandList. destruct (find d (ZeCommandListCache s)) as [[[l [k hs]] r]|] eqn:E; simpl.
    - apply find_Some in E as (Hc & Hm & Hl). exists l, k, hs, r.
      split_and!; [|done|].
      { unfold find. assert ((l ++ (k, h :: hs) :: r).*1 = (ZeCommandListCache s).*1) as -> by (by rewrite Hc, !fmap_app).
        by apply find_in_hit. }
      rewrite Hc, Forall_app, Forall_cons in Hs. destruct Hs as (_ & Hn & _).
      by rewrite decide_False, Hc by done.
    - exists [], d, [], (ZeCommandListCache s). unfold find. simpl. by rewrite key_match_refl. }
  unfold getCommandList. rewrite E1, E3. unfold set_cache, log_call. simpl. rewrite E2.
  destruct (is_imm d); [by destruct s|]. by destruct (ze_error _ _).
Qed.

End props.

(** A driver that never fails and numbers its handles. *)
#[local] Instance counting_driver : ZeDriver := {|
  ze_error := λ _ _, None; ze_new_handle := λ log, Z.of_nat (length log);
  std_hash := λ x, x; std_hash_optional := λ o, default (-3333) o;
  same_bucket := λ _, Z.eqb; same_bucket_refl := λ _, Z.eqb_refl;
  ForceDisableCopyOffload := false;
  supported := {| ZeCopyOffloadExtensionSupported := true; ZeMutableCmdListExtentionSupported := false;
                  ZeCopyOffloadQueueFlagSupported := true; ZeCopyOffloadListFlagSupported := true |} |}.

Lemma counting_driver_exact : exact_hash.
Proof. split; [intros keys x y E; by apply Z.eqb_eq|done]. Defined.
Lemma counting_driver_fresh : driver_fresh.
Proof.
  intros log Hin. assert (∀ p, p ∈ live log → p.1 < Z.of_nat (length log)) as Hlt.
  { clear Hin. induction log as [|c log IH] using rev_ind; [by intros ? ?%elem_of_nil|].
    intros p. rewrite live_snoc, length_app. simpl. destruct c; simpl.
    - intros [-> | Hp]%elem_of_cons; simpl; [lia|]. specialize (IH p Hp). lia.
    - intros Hp. specialize (IH p Hp). lia.
    - intros [_ Hp]%list_elem_of_filter. specialize (IH p Hp). lia. }
  apply list_elem_of_fmap in Hin as (p & Heq & Hp). specialize (Hlt p Hp). simpl in Heq. lia.
Qed.

Definition in_order (o : Z) (offload : bool) : command_list_desc_t :=
  {| IsInOrder := true; Ordinal := o; CopyOffloadEnable := offload; Mutable := false |}.

Lemma command_list_cache_safe_witness :
  ∃ s h d, rtc (step (Some true)) (empty_cache, []) (s, [(h, d)]) ∧
    ∃ req, create_request d = Ret req ∧ (h, req) ∈ live (zelog s).
Proof.
  pose (r1 := getImmediateCommandList 7 (in_order 0 true) 1 0 None empty_cache).
  assert (rtc (step (Some true)) (empty_cache, [])
    (r1.2, match r1.1 with Ret p => [p] | _ => [] end)) as Hr.
  { eapply rtc_l; [|apply rtc_refl]. apply (step_immediate _ _ _ 7 (in_order 0 true) 1 0 None); [by intros b [= <-]|].
    by destruct r1 eqn:E. }
  destruct (command_list_cache_safe (Some true) _ _ counting_driver_fresh Hr)
    as (_ & _ & _ & _ & Hl).
  eexists _, _, _. split; [exact Hr|].
  destruct (Hl _ _ ltac:(left)) as (d' & req & Hreq & Hin & _ & Hd). exists req.
  rewrite <-(proj2 (Hd counting_driver_exact) true eq_refl). split; [exact Hreq|exact Hin].
Defined.

Lemma return_then_request_witness :
  let d := Imm {| imm_ZeDevice := 7; imm_IsInOrder := true; imm_Ordinal := 0; imm_CopyOffloadEnabled := true;
                  imm_Mode := 1; imm_Priority := 0; imm_Index := None |} in
  getCommandList d (addCommandList d 5 empty_cache) = (Ret 5, empty_cache).
Proof. intros d. rewrite (return_then_request d 5 empty_cache); [reflexivity|constructor]. Defined.

(** A list created without copy offload is handed to a request that asks for it. *)
Example copy_offload_ignored :
  let '(r1, s1) := getImmediateCommandList 7 (in_order 0 false) 1 0 None empty_cache in
  match r1 with
  | Ret (h, d) =>
      let s2 := addCommandList d h s1 in
      let '(r2, s3) := getImmediateCommandList 7 (in_order 0 true) 1 0 None s2 in
      zelog s3 = zelog s1 ∧ fst <$> r2 = Ret h
  | _ => False
  end.
Proof. by vm_compute. Qed.

(** A table that compares buckets, here with a single one: a list made for one
    queue group is lent for another. *)
Definition one_bucket : ZeDriver := {|
  ze_error := λ _ _, None; ze_new_handle := λ log, Z.of_nat (length log);
  std_hash := λ x, x; std_hash_optional := λ o, default (-3333) o;
  same_bucket := λ _ _ _, true; same_bucket_refl := λ _ _, eq_refl;
  ForceDisableCopyOffload := false; supported := supported |}.
Example other_ordinal_lent :
  let '(r1, s1) := getImmediateCommandList (H := one_bucket) 7 (in_order 0 true) 1 0 None empty_cache in
  match r1 with
  | Ret (h, d) =>
      let s2 := addCommandList (H := one_bucket) d h s1 in
      let '(r2, s3) := getImmediateCommandList (H := one_bucket) 7 (in_order 1 true) 1 0 None s2 in
      zelog s3 = zelog s1 ∧ fst <$> r2 = Ret h
  | _ => False
  end.
Proof. by vm_compute. Qed.

(** Descriptors that [operator==] takes for equal and the hash does not. *)
Example equal_descriptors_with_different_hashes :
  let d o := Imm {| imm_ZeDevice := 7; imm_IsInOrder := true; imm_Ordinal := o; imm_CopyOffloadEnabled := true;
                    imm_Mode := 1; imm_Priority := 0; imm_Index := None |} in
  descriptor_eq (d 0) (d 1) = true ∧ descriptor_hash (d 0) ≠ descriptor_hash (d 1).
Proof. by vm_compute. Qed.

End CommandListCacheProps.
