(* ===== verification/EventPool.v ===== *)
(** * Event pools and providers of the Level Zero v2 adapter
    (adapters/level_zero/v2/event_pool.{hpp,cpp}, event_pool_cache.{hpp,cpp},
    event_provider*.{hpp,cpp}, event.{hpp,cpp})

    Three layers: providers that make driver events and take them back, pools
    that keep reference-counted events on top of a provider, and a cache of
    pools per device and flags.  The provider is the class [EventProvider] with
    the laws [ProviderLaws], which both providers of the adapter satisfy; the
    pool is verified against the laws.  Driver handles are numbered in order of
    creation; whether a driver call fails is a parameter. *)
From stdpp Require Import base numbers list sets sorting relations.
From S2P Require Import Prelude.
Local Open Scope Z_scope.

Definition EVENT_FLAGS_COUNTER : Z := 0.
Definition EVENT_FLAGS_PROFILING_ENABLED : Z := 1.
Definition EVENT_FLAGS_IPC : Z := 2.
Definition EVENT_FLAGS_IPC_IMPORTED : Z := 3.
Definition EVENT_FLAGS_USED_BITS : Z := 3.
Definition EVENTS_BURST : nat := 64.

(** The bit [UR_BIT(b)] of the flags. *)
Definition has_flag (flags b : Z) : bool := Z.testbit flags b.

Inductive queue_type := QUEUE_REGULAR | QUEUE_IMMEDIATE.
#[export] Instance queue_type_eq_dec : EqDecision queue_type.
Proof. solve_decision. Defined.

(** Driver calls, with the flags the code sets. *)
Inductive evcall :=
  | CounterBasedEventCreate (kernel_timestamp ipc immediate non_immediate : bool)
  | EventPoolCreate (kernel_timestamp : bool) (counter_based : option (bool * bool))
  | EventCreate (index : nat).

Class EventDriver := { ev_error : list evcall → evcall → option ur_result_t }.

(** What a provider does: [allocate] gives an event handle together with the
    target [D] of its deleter, and [give_back] is that deleter. *)
Class EventProvider (P D : Type) := {
  allocate : P → outcome (Z * D) * P;
  give_back : Z * D → P → P;
  eventFlags : P → Z }.

(** The contract of a provider, with the events it has handed out. *)
Class ProviderLaws (P D : Type) `{EventProvider P D} := {
  p_inv : P → list (Z * D) → Prop;
  p_nodup p out : p_inv p out → NoDup out.*1;
  p_perm p out out' : out ≡ₚ out' → p_inv p out → p_inv p out';
  p_allocate p out :
    p_inv p out →
    match allocate p with
    | (Ret e, p') => p_inv p' (e :: out)
    | (Throw _, p') => p_inv p' out
    | (Undefined, _) => False
    end;
  p_give_back p e out : p_inv p (e :: out) → p_inv (give_back e p) out;
  p_flags_allocate p out : p_inv p out → eventFlags (allocate p).2 = eventFlags p;
  p_flags_give_back p e : eventFlags (give_back e p) = eventFlags p }.

(** ** Counter-based provider *)

Module CounterProvider.

(** [freelist] with the back of the vector first; [next] numbers the handles. *)
Record provider_counter := {
  queueType : queue_type; flags : Z; freelist : list Z; next : Z; calls : list evcall }.

Definition set_freelist (l : list Z) (p : provider_counter) : provider_counter :=
  {| queueType := queueType p; flags := flags p; freelist := l; next := next p; calls := calls p |}.
Definition log_call (c : evcall) (p : provider_counter) : provider_counter :=
  {| queueType := queueType p; flags := flags p; freelist := freelist p; next := next p;
     calls := calls p ++ [c] |}.
Definition create_event (p : provider_counter) : provider_counter :=
  {| queueType := queueType p; flags := flags p; freelist := next p :: freelist p;
     next := next p + 1; calls := calls p |}.

Definition createZeFlags (q : queue_type) (flags : Z) : evcall :=
  CounterBasedEventCreate (has_flag flags EVENT_FLAGS_PROFILING_ENABLED)
    (has_flag flags EVENT_FLAGS_IPC) (bool_decide (q = QUEUE_IMMEDIATE)) true.

Definition pop (p : provider_counter) : outcome (Z * unit) * provider_counter :=
  match freelist p with
  | h :: l => (Ret (h, tt), set_freelist l p)
  | [] => (Undefined, p)
  end.

Definition counter_allocate `{EventDriver} (p : provider_counter) : outcome (Z * unit) * provider_counter :=
  if decide (freelist p = []) then
    let c := createZeFlags (queueType p) (flags p) in
    let p' := log_call c p in
    match ev_error (calls p) c with
    | Some e => (Throw (exn_ur_result e), p')
    | None => pop (create_event p')
    end
  else pop p.

#[global] Instance provider_counter_provider `{EventDriver} : EventProvider provider_counter unit := {|
  allocate := counter_allocate;
  give_back := λ e p, set_freelist (e.1 :: freelist p) p;
  eventFlags := flags |}.

End CounterProvider.

(** ** Pool-based provider *)

Module NormalProvider.

(** A [provider_pool]: its address and its free events, the back first. *)
Record provider_pool := { pool_id : Z; freelist : list Z }.

(** [pools] in vector order. *)
Record provider_normal := {
  queueType : queue_type; flags : Z; pools : list provider_pool; next : Z; calls : list evcall }.

Definition set_pools (l : list provider_pool) (p : provider_normal) : provider_normal :=
  {| queueType := queueType p; flags := flags p; pools := l; next := next p; calls := calls p |}.
Definition log_call (c : evcall) (p : provider_normal) : provider_normal :=
  {| queueType := queueType p; flags := flags p; pools := pools p; next := next p; calls := calls p ++ [c] |}.
Definition bump (p : provider_normal) : provider_normal :=
  {| queueType := queueType p; flags := flags p; pools := pools p; next := next p + 1; calls := calls p |}.

Section driver.
Context `{EventDriver}.

(** One driver call that may fail; a success uses up a number. *)
Definition call (c : evcall) (p : provider_normal) : outcome Z * provider_normal :=
  match ev_error (calls p) c with
  | Some e => (Throw (exn_ur_result e), log_call c p)
  | None => (Ret (next p), bump (log_call c p))
  end.

(** The loop of the [provider_pool] constructor over [freelist[i]]. *)
Fixpoint create_events (n : nat) (i : nat) (p : provider_normal) : outcome (list Z) * provider_normal :=
  match n with
  | O => (Ret [], p)
  | S n =>
      match call (EventCreate i) p with
      | (Ret h, p) =>
          match create_events n (S i) p with
          | (Ret hs, p) => (Ret (hs ++ [h]), p)
          | r => r
          end
      | (Throw e, p) => (Throw e, p)
      | (Undefined, p) => (Undefined, p)
      end
  end.

Definition pool_call (p : provider_normal) : evcall :=
  EventPoolCreate (has_flag (flags p) EVENT_FLAGS_PROFILING_ENABLED)
    (if has_flag (flags p) EVENT_FLAGS_COUNTER
     then Some (bool_decide (queueType p = QUEUE_IMMEDIATE), true) else None).

Definition createProviderPool (p : provider_normal) : outcome provider_pool * provider_normal :=
  match call (pool_call p) p with
  | (Ret id, p) =>
      match create_events EVENTS_BURST 0 p with
      | (Ret hs, p) => (Ret {| pool_id := id; freelist := hs |}, p)
      | (Throw e, p) => (Throw e, p)
      | (Undefined, p) => (Undefined, p)
      end
  | (Throw e, p) => (Throw e, p)
  | (Undefined, p) => (Undefined, p)
  end.

Definition emplace_pool (p : provider_normal) : outcome unit * provider_normal :=
  match createProviderPool p with
  | (Ret pool, p) => (Ret tt, set_pools (pools p ++ [pool]) p)
  | (Throw e, p) => (Throw e, p)
  | (Undefined, p) => (Undefined, p)
  end.

Definition nfree (x : provider_pool) : nat := length (freelist x).
Definition nfree_le (a b : provider_pool) : Prop := (nfree a ≤ nfree b)%nat.
#[global] Instance nfree_le_dec a b : Decision (nfree_le a b).
Proof. unfold nfree_le. apply _. Defined.

(** [pools.back()->allocate()], [None] when the pool is empty. *)
Definition back_allocate (p : provider_normal) : option ((Z * Z) * provider_normal) :=
  x ← last (pools p);
  match freelist x with
  | [] => None
  | h :: l =>
      Some ((h, pool_id x),
        set_pools (take (pred (length (pools p))) (pools p) ++
                   [{| pool_id := pool_id x; freelist := l |}]) p)
  end.

(** [allocate], which calls itself after adding a pool. *)
Fixpoint normal_allocate (fuel : nat) (p : provider_normal) : outcome (Z * Z) * provider_normal :=
  match fuel with
  | O => (Undefined, p)
  | S fuel =>
      let '(r, p) := (if decide (pools p = []) then emplace_pool p else (Ret tt, p)) in
      match r with
      | Ret _ =>
          match back_allocate p with
          | Some (e, p) => (Ret e, p)
          | None =>
              let p := set_pools (merge_sort nfree_le (pools p)) p in
              match back_allocate p with
              | Some (e, p) => (Ret e, p)
              | None =>
                  match emplace_pool p with
                  | (Ret _, p) => normal_allocate fuel p
                  | (Throw e, p) => (Throw e, p)
                  | (Undefined, p) => (Undefined, p)
                  end
              end
          end
      | Throw e => (Throw e, p)
      | Undefined => (Undefined, p)
      end
  end.

(** The deleter pushes the event onto the free list of the pool it captured. *)
Definition pool_give_back (e : Z * Z) (p : provider_normal) : provider_normal :=
  set_pools ((λ x, if pool_id x =? e.2 then {| pool_id := pool_id x; freelist := e.1 :: freelist x |} else x)
             <$> pools p) p.

End driver.

#[global] Instance provider_normal_provider `{EventDriver} : EventProvider provider_normal Z := {|
  allocate := normal_allocate 2;
  give_back := pool_give_back;
  eventFlags := flags |}.

End NormalProvider.

(** ** Choice of the provider *)

Inductive any_provider :=
  | Counter (p : CounterProvider.provider_counter)
  | Normal (p : NormalProvider.provider_normal).

#[export] Instance provider_provider `{EventDriver} : EventProvider any_provider (unit + Z) := {|
  allocate := λ p, match p with
    | Counter p => let '(r, p) := allocate p in ((λ e, (e.1, inl e.2)) <$> r, Counter p)
    | Normal p => let '(r, p) := allocate p in ((λ e, (e.1, inr e.2)) <$> r, Normal p)
    end;
  give_back := λ e p, match p, e.2 with
    | Counter p, inl d => Counter (give_back (e.1, d) p)
    | Normal p, inr d => Normal (give_back (e.1, d) p)
    | p, _ => p
    end;
  eventFlags := λ p, match p with Counter p => eventFlags p | Normal p => eventFlags p end |}.

Definition new_counter (q : queue_type) (flags : Z) : CounterProvider.provider_counter :=
  {| CounterProvider.queueType := q; CounterProvider.flags := flags; CounterProvider.freelist := [];
     CounterProvider.next := 0; CounterProvider.calls := [] |}.
Definition new_normal (q : queue_type) (flags : Z) : NormalProvider.provider_normal :=
  {| NormalProvider.queueType := q; NormalProvider.flags := flags; NormalProvider.pools := [];
     NormalProvider.next := 0; NormalProvider.calls := [] |}.

(** [createProvider]; [counter_available] tells whether the constructor of the
    counter provider succeeds. *)
Definition createProvider (counter_available : bool) (q : queue_type) (flags : Z) : any_provider :=
  if has_flag flags EVENT_FLAGS_COUNTER && counter_available
  then Counter (new_counter q flags) else Normal (new_normal q flags).

(** ** The pool of events *)

Module EventPool.

(** An event of a pool: the handle it owns, and the fields its operations
    touch ([hQueue] is 0 for null). *)
Record ur_event {D : Type} := {
  hZeEvent : Z * D; RefCount : Z; hQueue : Z; batchGeneration : option Z;
  adjustedEventEndTimestamp : Z; timestampRecorded : bool }.
Arguments ur_event D : clear implicits.

(** [freelist] holds indices into [events], the back of the vector first;
    [resets] are the events [zeEventHostReset] was called on. *)
Record event_pool {P D : Type} := {
  provider : P; events : list (ur_event D); freelist : list nat; resets : list Z }.
Arguments event_pool P D : clear implicits.

Section pool.
Context {P D : Type} `{EventProvider P D}.

Definition new_event (e : Z * D) : ur_event D :=
  {| hZeEvent := e; RefCount := 1; hQueue := 0; batchGeneration := None;
     adjustedEventEndTimestamp := 0; timestampRecorded := false |}.

Definition set_event (i : nat) (f : ur_event D → ur_event D) (s : event_pool P D) : event_pool P D :=
  {| provider := provider s; events := alter f i (events s); freelist := freelist s; resets := resets s |}.
Definition set_freelist (l : list nat) (s : event_pool P D) : event_pool P D :=
  {| provider := provider s; events := events s; freelist := l; resets := resets s |}.
Definition set_provider (p : P) (s : event_pool P D) : event_pool P D :=
  {| provider := p; events := events s; freelist := freelist s; resets := resets s |}.

Definition set_refs (n : Z) (e : ur_event D) : ur_event D :=
  {| hZeEvent := hZeEvent e; RefCount := n; hQueue := hQueue e; batchGeneration := batchGeneration e;
     adjustedEventEndTimestamp := adjustedEventEndTimestamp e; timestampRecorded := timestampRecorded e |}.
Definition setBatch (b : option Z) (e : ur_event D) : ur_event D :=
  {| hZeEvent := hZeEvent e; RefCount := RefCount e; hQueue := hQueue e; batchGeneration := b;
     adjustedEventEndTimestamp := adjustedEventEndTimestamp e; timestampRecorded := timestampRecorded e |}.
(** [setQueue], which also resets the profiling data. *)
Definition setQueue (q : Z) (e : ur_event D) : ur_event D :=
  {| hZeEvent := hZeEvent e; RefCount := RefCount e; hQueue := q; batchGeneration := batchGeneration e;
     adjustedEventEndTimestamp := 0; timestampRecorded := false |}.
Definition retain_event (e : ur_event D) : ur_event D := set_refs (u32 (RefCount e + 1)) e.

(** One round of the loop that fills an empty free list. *)
Definition add_event (e : Z * D) (s : event_pool P D) : event_pool P D :=
  {| provider := provider s; events := events s ++ [new_event e];
     freelist := length (events s) :: freelist s; resets := resets s |}.

Fixpoint fill (n : nat) (s : event_pool P D) : outcome unit * event_pool P D :=
  match n with
  | O => (Ret tt, s)
  | S n =>
      let '(r, p) := allocate (provider s) in
      let s := set_provider p s in
      match r with
      | Ret e => fill n (add_event e s)
      | Throw x => (Throw x, s)
      | Undefined => (Undefined, s)
      end
  end.

(** [event_pool::allocate] *)
Definition pool_allocate (s : event_pool P D) : outcome nat * event_pool P D :=
  let '(r, s) := (if decide (freelist s = []) then fill EVENTS_BURST s else (Ret tt, s)) in
  match r with
  | Ret _ => match freelist s with
             | [] => (Undefined, s)
             | i :: l => (Ret i, set_freelist l s)
             end
  | Throw x => (Throw x, s)
  | Undefined => (Undefined, s)
  end.

(** [ur_event_handle_t_::reset] *)
Definition reset (i : nat) (s : event_pool P D) : event_pool P D :=
  let s := set_event i (setBatch None) s in
  if has_flag (eventFlags (provider s)) EVENT_FLAGS_COUNTER then s else
  {| provider := provider s; events := events s; freelist := freelist s;
     resets := resets s ++ (match events s !! i with Some e => [(hZeEvent e).1] | None => [] end) |}.

(** [event_pool::free] *)
Definition free (i : nat) (s : event_pool P D) : event_pool P D :=
  let s := reset i s in
  set_event i retain_event (set_freelist (i :: freelist s) s).

Definition retain (i : nat) (s : event_pool P D) : event_pool P D := set_event i retain_event s.

(** [ur_event_handle_t_::release] of a pooled event. *)
Definition release (i : nat) (s : event_pool P D) : event_pool P D :=
  let s := set_event i (λ e, set_refs (u32 (RefCount e - 1)) e) s in
  match events s !! i with
  | Some e => if RefCount e =? 0 then free i s else s
  | None => s
  end.

(** [createEventIfRequested], [createEvent] and [createEventAndRetain]:
    the event used by the queue, if any. *)
Definition createEvent (queue : Z) (s : event_pool P D) : outcome nat * event_pool P D :=
  match pool_allocate s with
  | (Ret i, s) => (Ret i, set_event i (setQueue queue) s)
  | (Throw x, s) => (Throw x, s)
  | (Undefined, s) => (Undefined, s)
  end.
Definition createEventIfRequested (requested : bool) (queue : Z) (s : event_pool P D)
    : outcome (option nat) * event_pool P D :=
  if requested then let '(r, s) := createEvent queue s in (Some <$> r, s) else (Ret None, s).
Definition createEventOrReuseIfRequested (phEvent : option (option nat)) (queue : Z) (s : event_pool P D)
    : outcome (option nat) * event_pool P D :=
  match phEvent with
  | None => (Ret None, s)
  | Some None => let '(r, s) := createEvent queue s in (Some <$> r, s)
  | Some (Some i) => (Ret (Some i), set_event i (setQueue queue) s)
  end.
Definition createEventAndRetain (requested : bool) (queue : Z) (s : event_pool P D)
    : outcome nat * event_pool P D :=
  match createEvent queue s with
  | (Ret i, s) => (Ret i, if requested then retain i s else s)
  | r => r
  end.

(** [allocateDetached]: the handle leaves the provider for good. *)
Definition allocateDetached (s : event_pool P D) : outcome Z * event_pool P D :=
  let '(r, p) := allocate (provider s) in (fst <$> r, set_provider p s).

Definition new_pool (p : P) : event_pool P D :=
  {| provider := p; events := []; freelist := []; resets := [] |}.
End pool.

End EventPool.

(** ** The cache of pools *)

Module PoolCache.

(** A pool in the cache is known by its address and what it was created for. *)
Record pool := { pool_ptr : Z; pool_device : Z; pool_flags : Z }.
Record event_pool_cache := { pools : list (list pool); next : Z }.

Definition make_cache (max_devices : nat) : event_pool_cache :=
  {| pools := replicate (max_devices * 2 ^ Z.to_nat EVENT_FLAGS_USED_BITS)%nat []; next := 0 |}.

Definition index (device flags : Z) : Z :=
  Z.lor flags (u64 (Z.shiftl device EVENT_FLAGS_USED_BITS)).

(** [borrow]: null for a descriptor out of range, else the last cached pool of
    the descriptor or a new one, if [providerCreate] does not throw. *)
Definition borrow (providerCreate : Z → Z → option exn) (id flags : Z) (c : event_pool_cache)
    : outcome (option pool) * event_pool_cache :=
  let i := Z.to_nat (index id flags) in
  match pools c !! i with
  | None => (Ret None, c)
  | Some vec =>
      match vec with
      | p :: vec => (Ret (Some p), {| pools := <[i := vec]> (pools c); next := next c |})
      | [] =>
          match providerCreate id flags with
          | Some e => (Throw e, c)
          | None => (Ret (Some {| pool_ptr := next c; pool_device := id; pool_flags := flags |}),
                     {| pools := <[i := []]> (pools c); next := next c + 1 |})
          end
      end
  end.

(** The deleter of a borrowed pool. *)
Definition give_back (id flags : Z) (p : pool) (c : event_pool_cache) : event_pool_cache :=
  {| pools := alter (cons p) (Z.to_nat (index id flags)) (pools c); next := next c |}.

End PoolCache.

Module ProviderFacts.

Lemma NoDup_app_cons_l {A} (x : A) l k : NoDup (l ++ x :: k) ↔ NoDup (x :: l ++ k).
Proof. by rewrite <-Permutation_middle. Qed.

Section counter.
Import CounterProvider.
Context `{EventDriver}.

Definition counter_inv (p : provider_counter) (out : list (Z * unit)) : Prop :=
  NoDup (freelist p ++ out.*1) ∧ ∀ h, h ∈ freelist p ++ out.*1 → h < next p.

#[export] Instance provider_counter_laws : ProviderLaws provider_counter unit.
Proof.
  refine {| p_inv := counter_inv |}.
  - intros p out [Hn _]. by apply NoDup_app in Hn as (_ & _ & ?).
  - intros p out out' E [Hn Hlt]. split; [by rewrite <-E|]. intros h. rewrite <-E. apply Hlt.
  - intros p out Hi. change (allocate p) with (counter_allocate p). unfold counter_allocate, pop.
    assert (∀ p, counter_inv p out → ∀ h l, freelist p = h :: l →
      counter_inv (set_freelist l p) ((h, tt) :: out)) as Hpop.
    { clear. intros p [Hn Hlt] h l E. rewrite E in *. split; simpl.
      - by apply NoDup_app_cons_l.
      - intros h'. rewrite <-Permutation_middle. apply Hlt. }
    case_decide as Hf; [|destruct (freelist p) as [|h l] eqn:E; [done|by apply Hpop]].
    destruct (ev_error _ _); [done|]. simpl. apply (Hpop (create_event (log_call _ p))); [|done].
    destruct Hi as [Hn Hlt]. split; simpl.
    + apply NoDup_cons. split; [|done]. intros Hin. specialize (Hlt _ Hin). lia.
    + intros h [-> | Hin]%elem_of_cons; [lia|]. specialize (Hlt h Hin). lia.
  - intros p [h d] out [Hn Hlt]. split; simpl in *; [by apply NoDup_app_cons_l in Hn|].
    intros h' Hh. apply Hlt. by rewrite <-Permutation_middle.
  - intros p out _. simpl. unfold counter_allocate, pop. case_decide.
    + by destruct (ev_error _ _).
    + by destruct (freelist p).
  - done.
Defined.
End counter.

Section normal.
Import NormalProvider.
Context `{EventDriver}.

Definition frees (l : list provider_pool) : list Z := l ≫= freelist.

Record normal_inv (p : provider_normal) (out : list (Z * Z)) : Prop := {
  ni_nodup : NoDup (frees (pools p) ++ out.*1);
  ni_next : ∀ h, h ∈ frees (pools p) ++ out.*1 ++ (pool_id <$> pools p) → h < next p;
  ni_ids : NoDup (pool_id <$> pools p);
  ni_out : ∀ e, e ∈ out → e.2 ∈ (pool_id <$> pools p);
}.

Definition fresh_in (p p' : provider_normal) (h : Z) : Prop := next p ≤ h < next p'.

Lemma call_spec c p :
  let '(r, p') := call c p in
  pools p' = pools p ∧ flags p' = flags p ∧ next p ≤ next p' ∧
  match r with Ret h => fresh_in p p' h | Throw _ => True | Undefined => False end.
Proof. unfold call, fresh_in. destruct (ev_error _ _); simpl; split_and!; try done; lia. Qed.

Lemma create_events_spec n i p :
  let '(r, p') := create_events n i p in
  pools p' = pools p ∧ flags p' = flags p ∧ next p ≤ next p' ∧
  match r with
  | Ret hs => length hs = n ∧ NoDup hs ∧ Forall (fresh_in p p') hs
  | Throw _ => True | Undefined => False end.
Proof.
  revert i p. induction n as [|n IH]; intros i p; cbn [create_events];
    [split_and!; (done || constructor)|].
  pose proof (call_spec (EventCreate i) p) as Hc.
  destruct (call _ p) as [[h| |] p1]; destruct Hc as (E1 & F1 & L1 & Hh); [|by split_and!|done].
  specialize (IH (S i) p1). destruct (create_events n (S i) p1) as [[hs| |] p2];
    destruct IH as (E2 & F2 & L2 & Hhs); [|split_and!; try congruence; try done; lia|done].
  destruct Hhs as (Hlen & Hn & Hf). unfold fresh_in in *. rewrite Forall_forall in Hf.
  split_and!; try congruence; try lia.
  - rewrite length_app, Hlen. simpl. lia.
  - apply NoDup_app. split_and!; [done| |apply NoDup_singleton].
    intros x Hx ->%list_elem_of_singleton. specialize (Hf h Hx). lia.
  - apply Forall_forall. intros x [Hx| ->%list_elem_of_singleton]%elem_of_app; [|lia].
    specialize (Hf x Hx). lia.
Qed.

Lemma emplace_pool_spec p :
  let '(r, p') := emplace_pool p in
  flags p' = flags p ∧ next p ≤ next p' ∧
  match r with
  | Ret _ => ∃ x, pools p' = pools p ++ [x] ∧ length (freelist x) = EVENTS_BURST ∧
      NoDup (freelist x) ∧ Forall (fresh_in p p') (pool_id x :: freelist x)
  | Throw _ => pools p' = pools p | Undefined => False end.
Proof.
  unfold emplace_pool, createProviderPool.
  pose proof (call_spec (pool_call p) p) as Hc.
  destruct (call _ p) as [[id| |] p1]; destruct Hc as (E1 & F1 & L1 & Hh); [|by split_and!|done].
  pose proof (create_events_spec EVENTS_BURST 0 p1) as He.
  destruct (create_events _ _ p1) as [[hs| |] p2]; destruct He as (E2 & F2 & L2 & Hhs);
    [|split_and!; try congruence; lia|done].
  split_and!; simpl; try congruence; try lia. destruct Hhs as (Hl & Hn & Hf). unfold fresh_in in *.
  eexists. split; [by rewrite E2, E1|]. split_and!; try done. simpl. constructor; [lia|].
  eapply Forall_impl; [exact Hf|]. simpl. lia.
Qed.

Lemma frees_app l k : frees (l ++ k) = frees l ++ frees k.
Proof. unfold frees. by rewrite bind_app. Qed.

Lemma emplace_pool_inv p out :
  normal_inv p out →
  let '(r, p') := emplace_pool p in normal_inv p' out.
Proof.
  intros []. pose proof (emplace_pool_spec p) as Hs. destruct (emplace_pool p) as [r p'].
  destruct Hs as (_ & Hle & Hs). assert (∀ h, h ∈ frees (pools p) ++ out.*1 ++ (pool_id <$> pools p) → h < next p')
    as Hlt by (intros h Hh; specialize (ni_next0 h Hh); lia).
  destruct r as [_| |]; [|split; by rewrite ?Hs|done].
  destruct Hs as (x & Hp & _ & Hn & [Hid Hf]%Forall_cons). rewrite Forall_forall in Hf. unfold fresh_in in *.
  assert (frees [x] = freelist x) as Hx by (unfold frees; simpl; by rewrite app_nil_r).
  split; rewrite Hp, ?frees_app, ?fmap_app, ?Hx.
  - rewrite <-app_assoc, (Permutation_app_comm (freelist x)), app_assoc. apply NoDup_app. split_and!; try done.
    intros h Hh Hin. specialize (Hf h Hin). assert (h < next p); [|lia]. apply ni_next0.
    rewrite !elem_of_app in *. naive_solver.
  - intros h. rewrite !elem_of_app. simpl. rewrite list_elem_of_singleton. intros Hh.
    destruct Hh as [[Hh|Hh]|[Hh|[Hh| ->]]]; [|specialize (Hf h Hh); lia| | |lia];
      apply Hlt; rewrite !elem_of_app; auto.
  - apply NoDup_app. split_and!; [done| |apply NoDup_singleton]. intros h Hh ->%list_elem_of_singleton.
    assert (pool_id x < next p); [|lia]. apply ni_next0. rewrite !elem_of_app. auto.
  - intros e He. apply elem_of_app. left. auto.
Qed.

Lemma permute_inv p out l : l ≡ₚ pools p → normal_inv p out → normal_inv (set_pools l p) out.
Proof.
  intros Hl []. assert (frees l ≡ₚ frees (pools p)) as Hf by (unfold frees; by rewrite Hl).
  split; simpl; rewrite ?Hf, ?Hl; try done.
  - intros h Hh. apply ni_next0. by rewrite Hf, Hl in Hh.
  - intros e He. rewrite Hl. auto.
Qed.

Lemma back_allocate_spec p e p' :
  back_allocate p = Some (e, p') →
  ∃ l x h hs, pools p = l ++ [x] ∧ freelist x = h :: hs ∧ e = (h, pool_id x) ∧
    p' = set_pools (l ++ [{| pool_id := pool_id x; freelist := hs |}]) p.
Proof.
  unfold back_allocate. intros (x & Hx & Hb)%bind_Some. apply last_Some in Hx as [l Hl].
  destruct (freelist x) as [|h hs] eqn:E; [done|]. simplify_eq. exists l, x, h, hs. split_and!; try done.
  rewrite Hl, length_app. simpl. rewrite Nat.add_1_r. simpl. by rewrite take_app_length.
Qed.

Lemma back_allocate_inv p out e p' :
  normal_inv p out → back_allocate p = Some (e, p') → normal_inv p' (e :: out).
Proof.
  intros [] (l & x & h & hs & Hl & Hx & -> & ->)%back_allocate_spec.
  assert (frees (pools p) ≡ₚ h :: frees (l ++ [{| pool_id := pool_id x; freelist := hs |}])) as Hp.
  { rewrite Hl, !frees_app. unfold frees at 2 4. simpl. rewrite Hx, !app_nil_r. by rewrite <-Permutation_middle. }
  assert (pool_id <$> l ++ [{| pool_id := pool_id x; freelist := hs |}] = pool_id <$> pools p) as Hi
    by (by rewrite Hl, !fmap_app).
  split; cbn [set_pools pools next]; rewrite ?Hi, ?fmap_cons; try done.
  - apply NoDup_app_cons_l. by rewrite Hp in ni_nodup0.
  - intros h' Hh. apply ni_next0. rewrite Hp. revert Hh. cbn [fst snd].
    rewrite !elem_of_app, !elem_of_cons. tauto.
  - intros e [-> | He]%elem_of_cons; [|auto]. simpl. rewrite Hl, fmap_app. apply elem_of_app. right. left.
Qed.

Lemma back_allocate_last p l x :
  pools p = l ++ [x] → freelist x ≠ [] → ∃ e p', back_allocate p = Some (e, p').
Proof.
  intros Hp Hx. unfold back_allocate. rewrite Hp, last_snoc. simpl. destruct (freelist x); [done|eauto].
Qed.

(** With a free event in the last pool, allocation takes it. *)
Lemma normal_allocate_hit fuel p e p' :
  back_allocate p = Some (e, p') → normal_allocate (S fuel) p = (Ret e, p').
Proof.
  intros Hb. cbn [normal_allocate]. rewrite decide_False, Hb; [done|].
  intros E. unfold back_allocate in Hb. by rewrite E in Hb.
Qed.

Lemma normal_allocate_spec p out :
  normal_inv p out →
  let '(r, p') := normal_allocate 2 p in
  flags p' = flags p ∧
  match r with Ret e => normal_inv p' (e :: out) | Throw _ => normal_inv p' out | Undefined => False end.
Proof.
  intros Hi. set (n := 1%nat). cbn [normal_allocate].
  assert (∀ p1, normal_inv p1 out → flags p1 = flags p → 
    match emplace_pool p1 with (Ret _, p2) => ∃ e p3, back_allocate p2 = Some (e, p3) ∧ flags p3 = flags p ∧
        normal_inv p3 (e :: out)
      | (Throw _, p2) => normal_inv p2 out ∧ flags p2 = flags p | _ => False end) as Hemp.
  { intros p1 H1 F1. pose proof (emplace_pool_spec p1) as Hs. pose proof (emplace_pool_inv p1 out H1) as Hi2.
    destruct (emplace_pool p1) as [[[]| |] p2]; destruct Hs as (Hf & _ & Hs); [|by rewrite Hf|done].
    destruct Hs as (x & Hp & Hl & _). destruct (back_allocate_last p2 _ x Hp) as (e & p3 & Hb);
      [by destruct (freelist x)|].
    exists e, p3. split; [done|]. split; [|by eapply back_allocate_inv].
    apply back_allocate_spec in Hb as (? & ? & ? & ? & _ & _ & _ & ->). simpl. congruence. }
  case_decide as Hp0.
  { specialize (Hemp p Hi eq_refl). destruct (emplace_pool p) as [[[]| |] p2]; [| |done].
    - destruct Hemp as (e & p3 & -> & ?). done.
    - by destruct Hemp. }
  destruct (back_allocate p) as [[e p1]|] eqn:Hb.
  { split; [|by eapply back_allocate_inv]. by apply back_allocate_spec in Hb as (? & ? & ? & ? & _ & _ & _ & ->). }
  set (ps := set_pools _ p).
  assert (normal_inv ps out) as Hs by (apply permute_inv; [apply merge_sort_Permutation|done]).
  destruct (back_allocate ps) as [[e p1]|] eqn:Hb2.
  { split; [|by eapply back_allocate_inv]. by apply back_allocate_spec in Hb2 as (? & ? & ? & ? & _ & _ & _ & ->). }
  specialize (Hemp ps Hs eq_refl). destruct (emplace_pool ps) as [[[]| |] p2]; [| |done].
  - destruct Hemp as (e & p3 & Hb3 & ?). unfold n. by rewrite (normal_allocate_hit 0 p2 e p3 Hb3).
  - by destruct Hemp.
Qed.

Lemma pool_give_back_inv p e out : normal_inv p (e :: out) → normal_inv (pool_give_back e p) out.
Proof.
  intros []. rewrite fmap_cons in *.
  assert (e.2 ∈ (pool_id <$> pools p)) as (x & He & Hx)%list_elem_of_fmap by (apply ni_out0; left).
  set (f := λ x, if pool_id x =? e.2 then {| pool_id := pool_id x; freelist := e.1 :: freelist x |} else x).
  assert (∀ k : list provider_pool, (∀ y, y ∈ k → pool_id y ≠ e.2) → f <$> k = k) as Hid.
  { induction k as [|y k IH]; intros Hk; [done|]. rewrite fmap_cons, IH by (intros; apply Hk; by right).
    f_equal. unfold f. rewrite (proj2 (Z.eqb_neq _ _)); [done|]. apply Hk. left. }
  apply list_elem_of_split in Hx as (l1 & l2 & Hp).
  assert (f <$> pools p = l1 ++ {| pool_id := pool_id x; freelist := e.1 :: freelist x |} :: l2) as Hf.
  { pose proof ni_ids0 as Hnd. rewrite Hp, (fmap_app pool_id), fmap_cons in Hnd.
    apply NoDup_app_cons_l, NoDup_cons in Hnd as [Hnin _].
    assert (∀ y, y ∈ l1 ++ l2 → pool_id y ≠ e.2) as Hne.
    { intros y Hy E. apply Hnin. rewrite <-fmap_app. apply list_elem_of_fmap. exists y. split; [congruence|done]. }
    setoid_rewrite elem_of_app in Hne. rewrite Hp, (fmap_app f), fmap_cons, !Hid by auto.
    f_equal. f_equal. unfold f.
    by rewrite <-He, Z.eqb_refl. }
  assert (frees (f <$> pools p) ≡ₚ e.1 :: frees (pools p)) as Hfr.
  { rewrite Hf, Hp, !frees_app. unfold frees. simpl. solve_Permutation. }
  assert (pool_id <$> (f <$> pools p) = pool_id <$> pools p) as Hids by (by rewrite Hf, Hp, !fmap_app).
  unfold pool_give_back. fold f. split; cbn [set_pools pools next]; rewrite ?Hids, ?Hfr; try done.
  - by apply NoDup_app_cons_l in ni_nodup0.
  - intros h Hh. apply ni_next0. rewrite Hfr in Hh. revert Hh. rewrite !elem_of_app, !elem_of_cons. tauto.
  - intros e' He'. apply ni_out0. by right.
Qed.

#[export] Instance provider_normal_laws : ProviderLaws provider_normal Z.
Proof.
  refine {| p_inv := normal_inv |}.
  - intros p out []. by apply NoDup_app in ni_nodup0 as (_ & _ & ?).
  - intros p out out' E []. split; try done.
    + by rewrite <-E.
    + intros h. rewrite <-E. apply ni_next0.
    + intros e. rewrite <-E. apply ni_out0.
  - intros p out Hi. pose proof (normal_allocate_spec p out Hi) as Hs.
    change (allocate p) with (normal_allocate 2 p). destruct (normal_allocate 2 p) as [[e|e|] p']; by destruct Hs.
  - intros p e out Hi. by apply pool_give_back_inv.
  - intros p out Hi. pose proof (normal_allocate_spec p out Hi) as Hs.
    change (allocate p) with (normal_allocate 2 p). destruct (normal_allocate 2 p) as [r p']. by destruct Hs.
  - done.
Defined.
End normal.

Section sum.
Context `{EventDriver}.

Definition provider_inv (p : any_provider) (out : list (Z * (unit + Z))) : Prop :=
  match p with
  | Counter p => ∃ o, out ≡ₚ prod_map id inl <$> o ∧ p_inv p o
  | Normal p => ∃ o, out ≡ₚ prod_map id inr <$> o ∧ p_inv p o
  end.

Lemma allocate_Counter p :
  allocate (Counter p) = let '(r, p') := allocate p in (prod_map id inl <$> r, Counter p').
Proof. reflexivity. Qed.
Lemma allocate_Normal p :
  allocate (Normal p) = let '(r, p') := allocate p in (prod_map id inr <$> r, Normal p').
Proof. reflexivity. Qed.

#[export] Instance provider_laws : ProviderLaws any_provider (unit + Z).
Proof.
  refine {| p_inv := provider_inv |}.
  - intros [p|p] out (o & E & Ho%p_nodup); rewrite E, <-list_fmap_compose; exact Ho.
  - intros [p|p] out out' E (o & E' & Ho); exists o; by rewrite <-E.
  - intros [p|p] out (o & E & Ho); pose proof (p_allocate p o Ho) as Ha.
    + rewrite allocate_Counter. destruct (allocate p) as [[e| |] p']; simpl; [|by exists o|done].
      exists (e :: o). split; [|done]. by rewrite E.
    + rewrite allocate_Normal. destruct (allocate p) as [[e| |] p']; simpl; [|by exists o|done].
      exists (e :: o). split; [|done]. by rewrite E.
  - intros [p|p] e out (o & E & Ho).
    + assert (e ∈ prod_map id inl <$> o) as ([h d] & -> & Hin)%list_elem_of_fmap by (rewrite <-E; left).
      apply elem_of_Permutation in Hin as [o' Ho']. rewrite Ho', fmap_cons in E. apply Permutation_cons_inv in E.
      exists o'. split; [done|]. apply p_give_back. by apply (p_perm _ o).
    + assert (e ∈ prod_map id inr <$> o) as ([h d] & -> & Hin)%list_elem_of_fmap by (rewrite <-E; left).
      apply elem_of_Permutation in Hin as [o' Ho']. rewrite Ho', fmap_cons in E. apply Permutation_cons_inv in E.
      exists o'. split; [done|]. apply p_give_back. by apply (p_perm _ o).
  - intros [p|p] out (o & _ & Ho).
    + rewrite allocate_Counter. pose proof (p_flags_allocate p o Ho) as F. by destruct (allocate p).
    + rewrite allocate_Normal. pose proof (p_flags_allocate p o Ho) as F. by destruct (allocate p).
  - by intros [p|p] [h [d|d]].
Defined.
End sum.
End ProviderFacts.

Module EventPoolFacts.
Import EventPool.

Section facts.
Context {P D : Type} `{ProviderLaws P D}.
Implicit Types s : event_pool P D.

(** References to [i] among those held. *)
Definition refs_to (i : nat) (held : list nat) : nat := length (filter (λ j, j = i) held).

(** An event is on the free list with the one reference of the pool, and no
    batch, or it is held, by as many references as it counts. *)
Definition event_ok (held : list nat) (l : list nat) (i : nat) (e : ur_event D) : Prop :=
  (i ∈ l ∧ i ∉ held ∧ RefCount e = 1 ∧ batchGeneration e = None) ∨
  (i ∉ l ∧ i ∈ held ∧ RefCount e = Z.of_nat (refs_to i held)).

(** [held] are the references clients hold, [det] the events given away for good. *)
Record pool_inv s (held : list nat) (det : list (Z * D)) : Prop := {
  pi_provider : p_inv (provider s) ((hZeEvent <$> events s) ++ det);
  pi_free : NoDup (freelist s);
  pi_events : ∀ i e, events s !! i = Some e → event_ok held (freelist s) i e;
  pi_dom : ∀ i, i ∈ freelist s ++ held → (i < length (events s))%nat;
  pi_bound : Z.of_nat (length held) < 2 ^ 32 - 1;
}.

Lemma refs_to_cons i j held :
  refs_to i (j :: held) = (if decide (j = i) then S (refs_to i held) else refs_to i held).
Proof. unfold refs_to. rewrite filter_cons. by case_decide. Qed.

Lemma refs_to_none i held : i ∉ held → refs_to i held = 0%nat.
Proof. intros Hi. unfold refs_to. by rewrite filter_none by (intros j Hj ->; done). Qed.

Lemma refs_to_pos i held : i ∈ held → (0 < refs_to i held)%nat.
Proof.
  intros (l & r & ->)%list_elem_of_split. unfold refs_to. rewrite filter_app, filter_cons_True by done.
  rewrite length_app. simpl. lia.
Qed.

Lemma refs_to_le i held : (refs_to i held ≤ length held)%nat.
Proof. apply length_filter. Qed.

Lemma refs_to_perm i held held' : held ≡ₚ held' → refs_to i held = refs_to i held'.
Proof. intros E. unfold refs_to. by rewrite E. Qed.

(** Changing one event in fields other than the handle keeps the provider's view. *)
Lemma alter_handles (f : ur_event D → ur_event D) (i : nat) (l : list (ur_event D)) :
  (∀ e, hZeEvent (f e) = hZeEvent e) → hZeEvent <$> alter f i l = hZeEvent <$> l.
Proof.
  intros Hf. apply list_eq. intros j. rewrite !list_lookup_fmap, list_lookup_alter.
  case_decide as Hij; [subst j|done]. destruct (l !! i); simpl; by rewrite ?Hf.
Qed.

Lemma add_event_inv s held det e :
  pool_inv (set_provider (provider s) s) held (e :: det) → pool_inv (add_event e s) held det.
Proof.
  intros []. simpl in *. split; simpl; try done.
  - eapply p_perm; [|exact pi_provider0]. rewrite fmap_app, <-app_assoc. simpl. done.
  - apply NoDup_cons. split; [|done]. intros Hin.
    specialize (pi_dom0 (length (events s))). rewrite elem_of_app in pi_dom0. specialize (pi_dom0 (or_introl Hin)). lia.
  - intros i x [Hx|[Hi Hx]]%lookup_app_Some.
    + destruct (pi_events0 i x Hx) as [(? & ? & ?)|(? & ? & ?)].
      * left. split; [by right|done].
      * right. split; [|done]. apply lookup_lt_Some in Hx. intros [->|?]%elem_of_cons; [lia|done].
    + apply list_lookup_singleton_Some in Hx as [Hi0 <-]. left.
      assert (i = length (events s)) as -> by lia. split; [left|]. split; [|done].
      intros Hin. specialize (pi_dom0 (length (events s))). rewrite elem_of_app in pi_dom0.
      specialize (pi_dom0 (or_intror Hin)). lia.
  - intros i. rewrite length_app. simpl. intros [->|Hi]%elem_of_cons; [lia|]. specialize (pi_dom0 i Hi). lia.
Qed.

Lemma fill_inv n s held det :
  pool_inv s held det →
  let '(r, s') := fill n s in
  pool_inv s' held det ∧ eventFlags (provider s') = eventFlags (provider s) ∧
  match r with Ret _ => length (freelist s') = (n + length (freelist s))%nat
             | Throw _ => True | Undefined => False end.
Proof.
  revert s. induction n as [|n IH]; intros s Hi; cbn [fill]; [by split_and!|].
  pose proof (p_allocate _ _ (pi_provider _ _ _ Hi)) as Ha. destruct Hi as [Hp Hf He Hd Hb].
  destruct (allocate (provider s)) as [[e|x|] p'] eqn:Ea; [| |done].
  - assert (pool_inv (add_event e (set_provider p' s)) held det) as Hi'.
    { apply add_event_inv. split; try done. simpl. eapply p_perm; [|exact Ha]. by rewrite <-Permutation_middle. }
    specialize (IH _ Hi'). destruct (fill n _) as [r s']. destruct IH as (? & Hfl & Hr). split; [done|].
    pose proof (p_flags_allocate _ _ Hp) as F1. rewrite Ea in F1. simpl in *. split; [congruence|].
    destruct r; try done. rewrite Hr. simpl. lia.
  - pose proof (p_flags_allocate _ _ Hp) as F1. rewrite Ea in F1. by split_and!.
Qed.

(** Taking the last entry of the free list. *)
Lemma take_free_inv s held det i l :
  pool_inv s held det → freelist s = i :: l → Z.of_nat (length held) + 1 < 2 ^ 32 - 1 →
  pool_inv (set_freelist l s) (i :: held) det ∧ i ∉ held ∧
  ∃ e, events s !! i = Some e ∧ batchGeneration e = None.
Proof.
  intros [Hp Hf He Hd Hb] El Hlen. rewrite El in *. apply NoDup_cons in Hf as [Hil Hf].
  destruct (lookup_lt_is_Some_2 (events s) i) as [e Hei]; [apply Hd; left|].
  destruct (He i e Hei) as [(_ & Hih & Hr & Hbt)|(Hn & _)]; [|exfalso; apply Hn; left].
  split; [|by eauto]. split; simpl; try done; [| |lia].
  - intros j x Hx. unfold event_ok. rewrite refs_to_cons, elem_of_cons. case_decide as Hij.
    + subst j. right. rewrite refs_to_none by done. simplify_eq. split_and!; auto.
    + destruct (He j x Hx) as [(Hin & ?)|(Hn & ?)].
      * left. apply elem_of_cons in Hin as [->|Hin]; [done|]. naive_solver.
      * right. rewrite elem_of_cons in Hn. naive_solver.
  - intros j. rewrite elem_of_app, elem_of_cons. intros Hj. apply Hd. rewrite elem_of_app, elem_of_cons. tauto.
Qed.

Lemma pool_allocate_inv s held det :
  pool_inv s held det → Z.of_nat (length held) + 1 < 2 ^ 32 - 1 →
  let '(r, s') := pool_allocate s in
  eventFlags (provider s') = eventFlags (provider s) ∧
  match r with
  | Ret i => pool_inv s' (i :: held) det ∧ i ∉ held ∧ ∃ e, events s' !! i = Some e ∧ batchGeneration e = None
  | Throw _ => pool_inv s' held det | Undefined => False end.
Proof.
  intros Hi Hl. unfold pool_allocate.
  assert (∀ s1, pool_inv s1 held det → eventFlags (provider s1) = eventFlags (provider s) → freelist s1 ≠ [] →
    let '(r, s') := match freelist s1 with [] => (Undefined, s1) | i :: l => (Ret i, set_freelist l s1) end in
    eventFlags (provider s') = eventFlags (provider s) ∧
    match r with
    | Ret i => pool_inv s' (i :: held) det ∧ i ∉ held ∧ ∃ e, events s' !! i = Some e ∧ batchGeneration e = None
    | Throw _ => pool_inv s' held det | Undefined => False end) as Hpop.
  { intros s1 H1 F1 Hn. destruct (freelist s1) as [|i l] eqn:El; [done|]. split; [done|].
    by apply (take_free_inv s1). }
  case_decide as Hf; [|by apply Hpop].
  pose proof (fill_inv EVENTS_BURST s held det Hi) as Hfill.
  destruct (fill EVENTS_BURST s) as [[[]| |] s1]; destruct Hfill as (H1 & F1 & Hr); [|done|done].
  apply Hpop; [done|done|]. intros E. rewrite E in Hr. done.
Qed.

Lemma event_ok_perm held held' l i e : held ≡ₚ held' → event_ok held l i e → event_ok held' l i e.
Proof. intros E. unfold event_ok. by rewrite (refs_to_perm i _ _ E), E. Qed.

Lemma pool_inv_perm s held held' det : held ≡ₚ held' → pool_inv s held det → pool_inv s held' det.
Proof.
  intros E []. split; try done.
  - intros i e He. eapply event_ok_perm; eauto.
  - intros i. rewrite <-E. apply pi_dom0.
  - by rewrite <-E.
Qed.

(** Updates of one event, and of the references held to it. *)
Lemma set_event_inv s held held' det i f :
  (∀ e, hZeEvent (f e) = hZeEvent e) →
  (∀ e, events s !! i = Some e → event_ok held' (freelist s) i (f e)) →
  (∀ j x, j ≠ i → event_ok held (freelist s) j x → event_ok held' (freelist s) j x) →
  (∀ j, j ∈ held' → j ∈ held) → Z.of_nat (length held') < 2 ^ 32 - 1 →
  pool_inv s held det → pool_inv (set_event i f s) held' det.
Proof.
  intros Hf Hi Hj Hh Hb [Hp Hn He Hd _]. split; simpl; try done.
  - by rewrite alter_handles.
  - intros j x. rewrite list_lookup_alter. case_decide as Hij; [subst j|].
    + destruct (events s !! i) as [e|] eqn:Ee; [|done]. intros [= <-]. by apply Hi.
    + intros Hx. apply Hj; auto.
  - intros j. rewrite length_alter, elem_of_app. intros [?|?%Hh]; apply Hd, elem_of_app; auto.
Qed.

Lemma event_ok_held held l i e :
  event_ok held l i e → i ∈ held → i ∉ l ∧ RefCount e = Z.of_nat (refs_to i held).
Proof. intros [(_ & ? & _)|(? & _ & ?)] ?; done. Qed.

Lemma set_held_inv s held det i f :
  (∀ e, hZeEvent (f e) = hZeEvent e ∧ RefCount (f e) = RefCount e) → i ∈ held →
  pool_inv s held det → pool_inv (set_event i f s) held det.
Proof.
  intros Hf Hih Hi. apply (set_event_inv _ held); try done; [intros; apply Hf| |apply Hi].
  intros e He. destruct (event_ok_held held (freelist s) i e) as [Hl Hr]; [by apply (pi_events _ _ _ Hi)|done|].
  right. destruct (Hf e) as [_ ->]. done.
Qed.

(** Fewer or more references to [i] do not matter to another event. *)
Lemma event_ok_other i j held l x : j ≠ i → event_ok (i :: held) l j x ↔ event_ok held l j x.
Proof.
  intros Hij. unfold event_ok. rewrite refs_to_cons, decide_False by done. rewrite elem_of_cons. naive_solver.
Qed.

Lemma retain_inv s held det i :
  i ∈ held → Z.of_nat (length held) + 1 < 2 ^ 32 - 1 →
  pool_inv s held det → pool_inv (retain i s) (i :: held) det.
Proof.
  intros Hih Hl Hi. apply (set_event_inv _ held); try done.
  - intros e He. destruct (event_ok_held held (freelist s) i e) as [Hn Hr]; [by apply (pi_events _ _ _ Hi)|done|].
    right. split_and!; [done|left|]. simpl. rewrite Hr, refs_to_cons, decide_True by done.
    pose proof (refs_to_le i held). rewrite u32_small by (unfold in_u32; lia). lia.
  - intros j x Hj. by apply event_ok_other.
  - intros j [-> | Hj]%elem_of_cons; done.
  - simpl. lia.
Qed.

Lemma reset_frame i s :
  provider (reset i s) = provider s ∧ freelist (reset i s) = freelist s ∧
  events (reset i s) = alter (setBatch None) i (events s).
Proof. unfold reset. by case_match. Qed.

Lemma release_inv s held det i :
  pool_inv s (i :: held) det → pool_inv (release i s) held det.
Proof.
  intros Hi. pose proof Hi as [Hp Hn He Hd Hb]. simpl in Hb.
  destruct (lookup_lt_is_Some_2 (events s) i) as [e Hei].
  { apply Hd, elem_of_app. right. left. }
  destruct (event_ok_held (i :: held) (freelist s) i e) as [Hnl Hr]; [by apply He|left|].
  rewrite refs_to_cons, decide_True in Hr by done. pose proof (refs_to_le i held).
  unfold release. set (dec := λ e, set_refs (u32 (RefCount e - 1)) e).
  assert (events (set_event i dec s) !! i = Some (dec e)) as Hd'
    by (simpl; by rewrite list_lookup_alter_eq, Hei).
  rewrite Hd'. unfold dec at 1. simpl RefCount. rewrite Hr, u32_small by (unfold in_u32; lia).
  assert (Z.of_nat (S (refs_to i held)) - 1 = Z.of_nat (refs_to i held)) as Hdec by lia. rewrite Hdec.
  destruct (Z.of_nat (refs_to i held) =? 0) eqn:E0; bool_to_prop.
  - assert (i ∉ held) as Hih by (intros Hin%refs_to_pos; lia).
    unfold free. destruct (reset_frame i (set_event i dec s)) as (F1 & F2 & F3).
    set (s1 := reset i _) in *. split.
    + simpl. rewrite F1, F3. simpl. by rewrite !alter_handles.
    + simpl. rewrite F2. by apply NoDup_cons.
    + intros j x. simpl. rewrite F3. simpl. destruct (decide (i = j)) as [<-|Hij].
      * rewrite !list_lookup_alter_eq, Hei. intros [= <-]. left. rewrite F2. split_and!; [left|done| |done].
        simpl. by rewrite Hr, Hdec, E0.
      * rewrite !list_lookup_alter_ne by done. intros Hx. rewrite F2. simpl.
        specialize (He j x Hx). rewrite (event_ok_other i) in He by done. unfold event_ok in *.
        rewrite !elem_of_cons. naive_solver.
    + simpl. rewrite F2, F3. simpl. intros j. rewrite !length_alter, elem_of_cons, elem_of_app.
      intros Hj. apply Hd. rewrite elem_of_app, elem_of_cons. naive_solver.
    + lia.
  - apply (set_event_inv _ (i :: held)); try done; [| | |lia].
    + intros x Hx. simplify_eq. right. split_and!; [done| |].
      * destruct (decide (i ∈ held)) as [?|Hni]; [done|]. apply refs_to_none in Hni. lia.
      * unfold dec. simpl. rewrite Hr, u32_small by (unfold in_u32; lia). lia.
    + intros j x Hj. by rewrite (event_ok_other i).
    + intros j Hj. by right.
Qed.

End facts.
End EventPoolFacts.

Module EventPoolProps.
Import EventPool EventPoolFacts ProviderFacts.

Section pool.
Context {P D : Type} `{ProviderLaws P D}.

(** Requests for events, uses and releases of them; [held] are the references
    that users and queues hold, fewer than the counters can count. *)
Inductive step : relation (event_pool P D * list nat) :=
  | step_create s held requested q r s' :
      Z.of_nat (length held) + 2 < 2 ^ 32 - 1 →
      createEventAndRetain requested q s = (r, s') →
      step (s, held) (s', match r with Ret i => (if requested then [i; i] else [i]) ++ held | _ => held end)
  | step_create_or_reuse s held ph q r s' :
      Z.of_nat (length held) + 2 < 2 ^ 32 - 1 → (∀ i, ph = Some (Some i) → i ∈ held) →
      createEventOrReuseIfRequested ph q s = (r, s') →
      step (s, held) (s', match ph, r with Some None, Ret (Some i) => i :: held | _, _ => held end)
  | step_detached s held r s' : allocateDetached s = (r, s') → step (s, held) (s', held)
  | step_batch s held i b : i ∈ held → step (s, held) (set_event i (setBatch (Some b)) s, held)
  | step_retain s held i :
      i ∈ held → Z.of_nat (length held) + 2 < 2 ^ 32 - 1 → step (s, held) (retain i s, i :: held)
  | step_release s l i r : step (s, l ++ i :: r) (release i s, l ++ r).

Definition sys_inv (x : event_pool P D * list nat) : Prop := ∃ det, pool_inv x.1 x.2 det.

Lemma createEvent_inv q s held det :
  pool_inv s held det → Z.of_nat (length held) + 1 < 2 ^ 32 - 1 →
  let '(r, s') := createEvent q s in
  match r with
  | Ret i => pool_inv s' (i :: held) det ∧ i ∉ held ∧ ∃ e, events s' !! i = Some e ∧
      RefCount e = 1 ∧ hQueue e = q ∧ batchGeneration e = None ∧
      adjustedEventEndTimestamp e = 0 ∧ timestampRecorded e = false
  | Throw _ => pool_inv s' held det | Undefined => False end.
Proof.
  intros Hi Hl. unfold createEvent. pose proof (pool_allocate_inv s held det Hi Hl) as Ha.
  destruct (pool_allocate s) as [[i| |] s1]; destruct Ha as [_ Ha]; [|done|done].
  destruct Ha as (H1 & Hn & e & He & Hb). split; [apply set_held_inv; [done|left|done]|]. split; [done|].
  exists (setQueue q e). simpl. rewrite list_lookup_alter_eq, He. split_and!; try done.
  destruct (event_ok_held (i :: held) (freelist s1) i e) as [_ ->]; [by apply (pi_events _ _ _ H1)|left|].
  by rewrite refs_to_cons, decide_True, refs_to_none.
Qed.

Lemma pool_inv_step x x' : sys_inv x → step x x' → sys_inv x'.
Proof.
  intros Hx Hs. revert Hx. destruct Hs as [s held rq q r s' Hl E|s held ph q r s' Hl Hph E|s held r s' E
    |s held i b Hi|s held i Hi Hl|s l i r]; intros [det Hx]; simpl in Hx.
  - pose proof (createEvent_inv q s held det Hx ltac:(lia)) as Hc. unfold createEventAndRetain in E.
    destruct (createEvent q s) as [[i|e|] s1]; [|injection E as <- <-; by exists det|done].
    destruct Hc as (H1 & _). injection E as <- <-. exists det. destruct rq; [|done].
    apply retain_inv; [left|simpl; lia|done].
  - unfold createEventOrReuseIfRequested in E. destruct ph as [[i|]|]; [| |injection E as <- <-; by exists det].
    + injection E as <- <-. exists det. apply set_held_inv; [done|by apply Hph|done].
    + pose proof (createEvent_inv q s held det Hx ltac:(lia)) as Hc.
      destruct (createEvent q s) as [[i|e|] s1]; [|injection E as <- <-; by exists det|done].
      destruct Hc as (H1 & _). injection E as <- <-. by exists det.
  - unfold allocateDetached in E. pose proof (p_allocate _ _ (pi_provider _ _ _ Hx)) as Ha.
    destruct Hx as [Hp Hn He Hd Hb]. destruct (allocate (provider s)) as [[e|e|] p']; [| |done];
      injection E as <- <-; [exists (e :: det)|exists det]; split; try done.
    eapply p_perm; [|exact Ha]. apply Permutation_middle.
  - exists det. by apply set_held_inv.
  - exists det. apply retain_inv; [done|lia|done].
  - exists det. apply release_inv. eapply pool_inv_perm; [|exact Hx]. by rewrite <-Permutation_middle.
Qed.

Lemma new_pool_inv p : p_inv p [] → sys_inv (new_pool p, []).
Proof.
  intros Hp. exists []. split; simpl; try done; [constructor|]. by intros i ?%elem_of_nil.
Qed.

(** C10: safety of the event pool, over any provider that fulfils the contract
    and with driver failures: events own distinct driver handles; an event is
    either free, with the one reference of the pool and outside of any batch,
    or held, with exactly as many references as it counts; a request never
    reads an empty free list, and hands out an event nobody holds, with one
    reference, the given queue, no batch and no timestamp; releasing the last
    reference frees the event, and resets it on the host unless it is
    counter-based. *)
Theorem event_pool_safe p s held :
  p_inv p [] → rtc step (new_pool p, []) (s, held) →
  NoDup ((λ e, (hZeEvent e).1) <$> events s) ∧
  (∀ i e, events s !! i = Some e → event_ok held (freelist s) i e) ∧
  (∀ q, Z.of_nat (length held) + 2 < 2 ^ 32 - 1 →
    match createEvent q s with
    | (Ret i, s') => i ∉ held ∧ ∃ e, events s' !! i = Some e ∧ RefCount e = 1 ∧ hQueue e = q ∧
        batchGeneration e = None ∧ adjustedEventEndTimestamp e = 0 ∧ timestampRecorded e = false
    | (Throw _, _) => True
    | (Undefined, _) => False
    end) ∧
  (∀ i e, refs_to i held = 1%nat → events s !! i = Some e →
    freelist (release i s) = i :: freelist s ∧
    resets (release i s) = resets s ++
      (if has_flag (eventFlags (provider s)) EVENT_FLAGS_COUNTER then [] else [(hZeEvent e).1])).
Proof.
  intros Hp Hr. assert (sys_inv (s, held)) as [det Hi]
    by (eapply rtc_invariant; [apply pool_inv_step|done|by apply new_pool_inv]).
  simpl in Hi. split_and!.
  - pose proof (p_nodup _ _ (pi_provider _ _ _ Hi)) as Hn. rewrite fmap_app, <-list_fmap_compose in Hn.
    by apply NoDup_app in Hn as [? _].
  - apply Hi.
  - intros q Hl. pose proof (createEvent_inv q s held det Hi ltac:(lia)) as Hc.
    destruct (createEvent q s) as [[i| |] s']; naive_solver.
  - intros i e Hr1 He. destruct (event_ok_held held (freelist s) i e) as [_ Hrc]; [by apply Hi| |].
    { destruct (decide (i ∈ held)) as [?|Hn]; [done|]. apply refs_to_none in Hn. lia. }
    unfold release. set (dec := λ e, set_refs (u32 (RefCount e - 1)) e).
    assert (events (set_event i dec s) !! i = Some (dec e)) as Hd'
      by (simpl; by rewrite list_lookup_alter_eq, He).
    assert (RefCount (dec e) = 0) as Hz by (unfold dec; simpl; by rewrite Hrc, Hr1).
    rewrite Hd', Hz. unfold free, reset. cbn [provider set_event Z.eqb].
    destruct (has_flag (eventFlags (provider s)) EVENT_FLAGS_COUNTER); simpl; [by rewrite app_nil_r|].
    by rewrite !list_lookup_alter_eq, He.
Qed.
End pool.

Section providers.
Context `{EventDriver}.

(** Allocations and returns of a provider, with the events outstanding. *)
Inductive provider_step : relation (any_provider * list (Z * (unit + Z))) :=
  | ps_allocate p out r p' :
      allocate p = (r, p') → provider_step (p, out) (p', match r with Ret e => e :: out | _ => out end)
  | ps_give_back p l e r : provider_step (p, l ++ e :: r) (give_back e p, l ++ r).

Lemma createProvider_inv b q flags : p_inv (createProvider b q flags) [].
Proof.
  unfold createProvider. destruct (_ && _); exists []; (split; [done|]).
  - split; [constructor|]. by intros h ?%elem_of_nil.
  - split; simpl; try constructor; by intros ? ?%elem_of_nil.
Qed.

(** C11: both event providers fulfil the contract pools rely on: whatever is
    allocated and returned, and whether or not driver calls fail, the events
    outstanding are distinct, the provider keeps its flags, and allocation
    ends, with an event or an exception: after adding a pool it takes an event
    of that pool. *)
Theorem provider_contract available q flags p out :
  rtc provider_step (createProvider available q flags, []) (p, out) →
  NoDup out.*1 ∧ eventFlags p = flags ∧ (allocate p).1 ≠ Undefined ∧
  ∀ e p', allocate p = (Ret e, p') → e.1 ∉ out.*1.
Proof.
  intros Hr. set (I := λ x : any_provider * list (Z * (unit + Z)), p_inv x.1 x.2 ∧ eventFlags x.1 = flags).
  assert (I (p, out)) as [Hi Hf].
  { eapply (rtc_invariant provider_step I); [|exact Hr|].
    - intros x x' Hx Hs. revert Hx. destruct Hs as [p1 out1 r p' E|p1 l e r]; intros [Hx Hfl]; cbn [fst snd] in Hx, Hfl.
      + pose proof (p_allocate p1 out1 Hx) as Ha. pose proof (p_flags_allocate p1 out1 Hx) as Hfa.
        rewrite E in Ha, Hfa. cbn [snd] in Hfa. split; [|cbn [fst]; congruence]. by destruct r.
      + split; cbn [fst snd]; [|by rewrite p_flags_give_back]. apply p_give_back.
        eapply p_perm; [|exact Hx]. by rewrite <-Permutation_middle.
    - split; [apply createProvider_inv|]. unfold createProvider. cbn [fst]. by destruct (_ && _). }
  cbn [fst snd] in Hi, Hf. pose proof (p_allocate p out Hi) as Ha. split; [by eapply p_nodup|]. split; [done|]. split.
  - by destruct (allocate p) as [[] ?].
  - intros e p' E. rewrite E in Ha. apply p_nodup in Ha. rewrite fmap_cons in Ha. by apply NoDup_cons in Ha as [? _].
Qed.

Import NormalProvider.

Lemma create_events_calls n i p :
  (∀ l c, ev_error l c = None) →
  ∃ hs p', create_events n i p = (Ret hs, p') ∧ calls p' = calls p ++ (EventCreate <$> seq i n).
Proof.
  intros Hok. revert i p. induction n as [|n IH]; intros i p; cbn [create_events].
  { exists [], p. by rewrite app_nil_r. }
  unfold call. rewrite Hok. destruct (IH (S i) (bump (log_call (EventCreate i) p))) as (hs & p' & -> & Hc).
  eexists _, _. split; [done|]. rewrite Hc. simpl. by rewrite <-app_assoc.
Qed.

Lemma back_allocate_calls p e p' : back_allocate p = Some (e, p') → calls p' = calls p.
Proof. by intros (? & ? & ? & ? & _ & _ & _ & ->)%back_allocate_spec. Qed.

(** After the sort, the last pool has the most free events. *)
Lemma sort_last_free x l :
  x ∈ l → freelist x ≠ [] → ∃ l' y, merge_sort nfree_le l = l' ++ [y] ∧ freelist y ≠ [].
Proof.
  intros Hx Hn. assert (x ∈ merge_sort nfree_le l) as Hx' by (by rewrite merge_sort_Permutation).
  destruct (last (merge_sort nfree_le l)) as [y|] eqn:Hl;
    [|apply last_None in Hl; rewrite Hl in Hx'; by apply elem_of_nil in Hx'].
  apply last_Some in Hl as [l' Hl]. exists l', y. split; [done|].
  assert (Transitive nfree_le) by (intros a b c; unfold nfree_le; lia).
  assert (Total nfree_le) by (intros a b; unfold nfree_le; lia).
  pose proof (StronglySorted_merge_sort nfree_le l) as Hss. rewrite Hl in Hss, Hx'.
  apply elem_of_app in Hx' as [Hx'| ->%list_elem_of_singleton]; [|done].
  apply StronglySorted_app in Hss as (Hle & _). specialize (Hle x y Hx' ltac:(left)).
  unfold nfree_le, nfree in Hle. destruct (freelist y); [|done]. destruct (freelist x); [done|]. simpl in Hle. lia.
Qed.

Lemma frees_nonempty l : frees l ≠ [] → ∃ x, x ∈ l ∧ freelist x ≠ [].
Proof.
  intros Hfr. destruct (frees l) as [|h hs] eqn:E; [done|].
  assert (h ∈ frees l) as Hin by (rewrite E; left). unfold frees in Hin.
  apply list_elem_of_bind in Hin as (x & Hh & Hx). exists x. split; [done|].
  intros E'. rewrite E' in Hh. by apply elem_of_nil in Hh.
Qed.

Lemma back_allocate_none l p : frees l = [] → back_allocate (set_pools l p) = None.
Proof.
  intros Hl. destruct (back_allocate _) as [[e p']|] eqn:Hb; [|done].
  apply back_allocate_spec in Hb as (l1 & x & h & hs & Hp & Hx & _). simpl in Hp. rewrite Hp, frees_app in Hl.
  unfold frees in Hl. simpl in Hl. rewrite Hx in Hl. by apply app_nil in Hl as [_ ?].
Qed.

Lemma emplace_pool_calls p :
  (∀ l c, ev_error l c = None) →
  ∃ p2 e p3, emplace_pool p = (Ret tt, p2) ∧ back_allocate p2 = Some (e, p3) ∧
    calls p3 = calls p ++ pool_call p :: (EventCreate <$> seq 0 EVENTS_BURST).
Proof.
  intros Hok. pose proof (emplace_pool_spec p) as Hs. revert Hs.
  unfold emplace_pool, createProviderPool, call. rewrite Hok.
  destruct (create_events_calls EVENTS_BURST 0 (bump (log_call (pool_call p) p)) Hok) as (hs & p2 & -> & Hc).
  intros (_ & _ & x & Hp & Hl & _).
  destruct (back_allocate_last _ _ x Hp) as (e & p3 & Hb); [by destruct (freelist x)|].
  eexists _, e, p3. split; [done|]. split; [exact Hb|]. rewrite (back_allocate_calls _ _ _ Hb). simpl.
  rewrite Hc. simpl. by rewrite <-app_assoc.
Qed.

(** the normal provider creates driver events only when it has none free: as
    long as some pool has a free event, allocation returns one without any
    driver call, and else it creates one pool of 64 events. *)
Theorem normal_provider_bursts p :
  (frees (pools p) ≠ [] → ∃ e p', allocate p = (Ret e, p') ∧ calls p' = calls p) ∧
  (frees (pools p) = [] → (∀ l c, ev_error l c = None) →
   ∃ e p', allocate p = (Ret e, p') ∧
     calls p' = calls p ++ pool_call p :: (EventCreate <$> seq 0 EVENTS_BURST)).
Proof.
  change (allocate p) with (normal_allocate 2 p). split.
  - intros (x & Hx & Hn)%frees_nonempty. destruct (back_allocate p) as [[e p']|] eqn:Hb.
    { exists e, p'. split; [by apply normal_allocate_hit|by eapply back_allocate_calls]. }
    destruct (sort_last_free x (pools p) Hx Hn) as (l' & y & Hl & Hy).
    destruct (back_allocate_last (set_pools (merge_sort nfree_le (pools p)) p) l' y Hl Hy) as (e & p' & Hb2).
    exists e, p'. split; [|by rewrite (back_allocate_calls _ _ _ Hb2)]. cbn [normal_allocate].
    rewrite decide_False by (intros E; rewrite E in Hx; by apply elem_of_nil in Hx). by rewrite Hb, Hb2.
  - intros Hfr Hok. cbn [normal_allocate]. case_decide as Hp0.
    { destruct (emplace_pool_calls p Hok) as (p2 & e & p3 & -> & -> & ?). eauto. }
    destruct (emplace_pool_calls (set_pools (merge_sort nfree_le (pools p)) p) Hok) as (p2 & e & p3 & E & Hb & ?).
    exists e, p3. split; [|done].
    assert (frees (merge_sort nfree_le (pools p)) = []) as Hfs.
    { apply Permutation_nil_r. rewrite <-Hfr. unfold frees. by rewrite merge_sort_Permutation. }
    pose proof (back_allocate_none _ p Hfr) as Hn1.
    replace (set_pools (pools p) p) with p in Hn1 by (by destruct p).
    rewrite Hn1, (back_allocate_none _ _ Hfs), E. rewrite decide_False, Hb; [done|].
    intros E'. unfold back_allocate in Hb. by rewrite E' in Hb.
Qed.
End providers.

(** A driver whose calls all succeed. *)
#[local] Instance willing_driver : EventDriver := {| ev_error := λ _ _, None |}.

Definition some_pool : any_provider := createProvider false QUEUE_IMMEDIATE 1.

Lemma event_pool_safe_witness :
  ∃ s, rtc step (new_pool some_pool, []) (s, [63%nat; 63%nat]) ∧
    ∃ e, events s !! 63%nat = Some e ∧ RefCount e = 2.
Proof.
  pose (r := createEventAndRetain true 7 (new_pool some_pool)).
  assert (rtc step (new_pool some_pool, []) (r.2, [63%nat; 63%nat])) as Hr.
  { eapply rtc_l; [|apply rtc_refl].
    exact (step_create _ [] true 7 r.1 r.2 ltac:(done) (surjective_pairing r)). }
  destruct (event_pool_safe some_pool r.2 [63%nat; 63%nat] (createProvider_inv _ _ _) Hr) as (_ & He & _).
  exists r.2. split; [exact Hr|]. destruct (events r.2 !! 63%nat) as [e|] eqn:E; [|vm_compute in E; discriminate E].
  exists e. split; [reflexivity|]. destruct (He 63%nat e E) as [(_ & Hn & _)|(_ & _ & Hc)]; [|exact Hc].
  exfalso. apply Hn. left.
Defined.

Lemma provider_contract_witness :
  ∃ p e, rtc provider_step (some_pool, []) (p, [e]) ∧ NoDup [e.1] ∧ eventFlags p = 1.
Proof.
  pose (r := allocate some_pool).
  assert (∃ e, r.1 = Ret e) as [e He] by (eexists; by vm_compute).
  assert (rtc provider_step (some_pool, []) (r.2, [e])) as Hr.
  { eapply rtc_l; [|apply rtc_refl]. pose proof (ps_allocate some_pool [] r.1 r.2 (surjective_pairing r)) as Hs.
    rewrite He in Hs. exact Hs. }
  destruct (provider_contract false QUEUE_IMMEDIATE 1 r.2 [e] Hr) as (Hn & Hf & _).
  exists r.2, e. split; [exact Hr|]. split; [exact Hn|exact Hf].
Defined.

Lemma normal_provider_bursts_witness :
  ∃ e p e2 p2, allocate (new_normal QUEUE_IMMEDIATE 1) = (Ret e, p) ∧
    length (NormalProvider.calls p) = 65%nat ∧
    allocate p = (Ret e2, p2) ∧ NormalProvider.calls p2 = NormalProvider.calls p.
Proof.
  destruct (proj2 (normal_provider_bursts (new_normal QUEUE_IMMEDIATE 1)) ltac:(reflexivity) ltac:(reflexivity))
    as (e & p & E & Hc).
  assert (frees (NormalProvider.pools p) ≠ []) as Hf.
  { assert (p = (allocate (new_normal QUEUE_IMMEDIATE 1)).2) as -> by (by rewrite E). by vm_compute. }
  destruct (proj1 (normal_provider_bursts p) Hf) as (e2 & p2 & E2 & Hc2).
  exists e, p, e2, p2. split; [exact E|]. split; [by rewrite Hc|]. split; [exact E2|exact Hc2].
Defined.

End EventPoolProps.

Module PoolCacheProps.
Import PoolCache.

(** Borrowing and returning pools; [lent] are the pools out, with the
    descriptors their deleters captured. *)
Inductive step (create : Z → Z → option exn) : relation (event_pool_cache * list (Z * Z * pool)) :=
  | step_borrow c lent id flags r c' :
      0 ≤ flags < 2 ^ EVENT_FLAGS_USED_BITS → 0 ≤ id < 2 ^ 32 →
      borrow create id flags c = (r, c') →
      step create (c, lent) (c', match r with Ret (Some p) => (id, flags, p) :: lent | _ => lent end)
  | step_return c l id flags p r :
      step create (c, l ++ (id, flags, p) :: r) (give_back id flags p c, l ++ r).

Definition valid_descriptor (id flags : Z) : Prop :=
  0 ≤ flags < 2 ^ EVENT_FLAGS_USED_BITS ∧ 0 ≤ id < 2 ^ 32.

Lemma index_small id flags : valid_descriptor id flags → index id flags = id * 8 + flags.
Proof.
  unfold index, valid_descriptor, EVENT_FLAGS_USED_BITS. intros [Hf Hi].
  assert (Z.land (Z.shiftl id 3) flags = 0) as Hl.
  { apply Z.bits_inj'. intros n Hn. rewrite Z.land_spec, Z.bits_0.
    destruct (decide (n < 3)); [by rewrite Z.shiftl_spec_low|].
    rewrite (Z.bits_above_log2 flags), andb_false_r; [done|lia|].
    destruct (decide (flags = 0)) as [->|]; [simpl; lia|]. apply Z.log2_lt_pow2; [lia|].
    eapply Z.lt_le_trans; [apply Hf|]. apply Z.pow_le_mono_r; lia. }
  rewrite u64_small, Z.lor_comm, <-Z.add_nocarry_lor by (done || rewrite Z.shiftl_mul_pow2 by lia; unfold in_u64; lia).
  rewrite Z.shiftl_mul_pow2 by lia. lia.
Qed.

Lemma index_inj id flags id' flags' :
  valid_descriptor id flags → valid_descriptor id' flags' →
  index id flags = index id' flags' → id = id' ∧ flags = flags'.
Proof.
  intros H1 H2. rewrite !index_small by done. unfold valid_descriptor, EVENT_FLAGS_USED_BITS in *.
  change (2 ^ 3) with 8 in *. lia.
Qed.

Record cache_inv (max_devices : nat) (c : event_pool_cache) (lent : list (Z * Z * pool)) : Prop := {
  ci_size : length (pools c) = (max_devices * 8)%nat;
  ci_slots : ∀ i vec p, pools c !! i = Some vec → p ∈ vec →
    valid_descriptor (pool_device p) (pool_flags p) ∧ Z.of_nat i = index (pool_device p) (pool_flags p);
  ci_lent : ∀ id flags p, (id, flags, p) ∈ lent →
    valid_descriptor id flags ∧ id < Z.of_nat max_devices ∧ pool_device p = id ∧ pool_flags p = flags;
  ci_ptrs : NoDup (pool_ptr <$> (concat (pools c) ++ lent.*2));
  ci_next : ∀ p, p ∈ concat (pools c) ++ lent.*2 → pool_ptr p < next c;
}.

Lemma concat_insert {A} (l : list (list A)) i v w :
  l !! i = Some v → ∃ r, concat l ≡ₚ v ++ r ∧ concat (<[i := w]> l) ≡ₚ w ++ r.
Proof.
  intros Hi. exists (concat (take i l) ++ concat (drop (S i) l)).
  rewrite insert_take_drop by (by apply lookup_lt_Some in Hi).
  rewrite <-(take_drop_middle l i v Hi) at 1. rewrite !concat_app. simpl. split; solve_Permutation.
Qed.

Lemma slot_exists max_devices c lent id flags :
  cache_inv max_devices c lent → valid_descriptor id flags →
  is_Some (pools c !! Z.to_nat (index id flags)) ↔ id < Z.of_nat max_devices.
Proof.
  intros [] Hv. rewrite lookup_lt_is_Some, ci_size0, index_small by done.
  destruct Hv. unfold EVENT_FLAGS_USED_BITS in *. change (2 ^ 3) with 8 in *. lia.
Qed.

(** Replacing the contents of one slot, where the pools move to or from [lent]. *)
Lemma set_slot_inv m c lent lent' i v w n :
  cache_inv m c lent → pools c !! i = Some v →
  (∀ p, p ∈ w → valid_descriptor (pool_device p) (pool_flags p) ∧
                Z.of_nat i = index (pool_device p) (pool_flags p)) →
  (∀ id flags p, (id, flags, p) ∈ lent' →
    valid_descriptor id flags ∧ id < Z.of_nat m ∧ pool_device p = id ∧ pool_flags p = flags) →
  next c ≤ n →
  (w ++ lent'.*2 ≡ₚ v ++ lent.*2 ∨
   ∃ p, pool_ptr p = next c ∧ next c < n ∧ w ++ lent'.*2 ≡ₚ p :: v ++ lent.*2) →
  cache_inv m {| pools := <[i := w]> (pools c); next := n |} lent'.
Proof.
  intros [] Hi Hw Hl Hn Hp. destruct (concat_insert _ i v w Hi) as (r & E1 & E2).
  assert (∃ ps, concat (<[i := w]> (pools c)) ++ lent'.*2 ≡ₚ ps ++ concat (pools c) ++ lent.*2 ∧
    NoDup (pool_ptr <$> ps ++ concat (pools c) ++ lent.*2) ∧ ∀ p, p ∈ ps → pool_ptr p < n) as (ps & Ep & Hnd & Hps).
  { assert (concat (<[i := w]> (pools c)) ++ lent'.*2 ≡ₚ r ++ (w ++ lent'.*2)) as F1
      by (rewrite E2; solve_Permutation).
    assert (concat (pools c) ++ lent.*2 ≡ₚ r ++ (v ++ lent.*2)) as F2 by (rewrite E1; solve_Permutation).
    destruct Hp as [Hp|(p & Hpp & Hlt & Hp)].
    - exists []. split; [|split; [done|by intros ? ?%elem_of_nil]]. simpl. by rewrite F1, F2, Hp.
    - exists [p]. split; [|split].
      + rewrite F1, F2, Hp. simpl. solve_Permutation.
      + simpl. apply NoDup_cons. split; [|done]. intros (x & Hx & Hin%ci_next0)%list_elem_of_fmap. lia.
      + intros x ->%list_elem_of_singleton. lia. }
  split; cbn [pools next]; try done.
  - by rewrite length_insert.
  - intros j vec p Hj Hin. apply list_lookup_insert_Some in Hj as [(-> & <- & _)|(? & Hj)]; [auto|by eapply ci_slots0].
  - by rewrite Ep.
  - intros p. rewrite Ep. intros [Hin|Hin]%elem_of_app; [auto|]. specialize (ci_next0 p Hin). lia.
Qed.

Lemma borrow_inv create m c lent id flags :
  cache_inv m c lent → valid_descriptor id flags →
  match borrow create id flags c with
  | (Ret None, c') => c' = c ∧ Z.of_nat m ≤ id
  | (Ret (Some p), c') => cache_inv m c' ((id, flags, p) :: lent)
  | (Throw e, c') => c' = c ∧ create id flags = Some e
  | (Undefined, _) => False
  end.
Proof.
  intros Hi Hv. pose proof (slot_exists m c lent id flags Hi Hv) as Hs. unfold borrow.
  assert (Z.of_nat (Z.to_nat (index id flags)) = index id flags) as Hix
    by (rewrite index_small by done; destruct Hv; lia).
  destruct (pools c !! Z.to_nat (index id flags)) as [[|p vec]|] eqn:E.
  - destruct (create id flags) as [e|] eqn:Ec; [done|].
    apply (set_slot_inv m c lent _ _ [] []); try done; [by intros ? ?%elem_of_nil| |lia|].
    + intros id' flags' p [[= -> -> ->]|Hin]%elem_of_cons; [|by apply (ci_lent _ _ _ Hi)].
      split_and!; try done. by apply Hs.
    + right. eexists. split; [|split; [|simpl; reflexivity]]; [done|lia].
  - assert (∀ x, x ∈ p :: vec → valid_descriptor (pool_device x) (pool_flags x) ∧
      Z.of_nat (Z.to_nat (index id flags)) = index (pool_device x) (pool_flags x)) as Hx
      by (intros x; by apply (ci_slots _ _ _ Hi)).
    destruct (Hx p ltac:(left)) as [Hp Hpi]. rewrite Hix in Hpi. apply index_inj in Hpi as [E1 E2]; [|done..].
    apply (set_slot_inv m c lent _ _ (p :: vec) vec); try done.
    + intros x Hin. apply Hx. by right.
    + intros id' flags' x [[= -> -> ->]|Hin]%elem_of_cons; [|by apply (ci_lent _ _ _ Hi)].
      split_and!; try done. by apply Hs.
    + left. simpl. by rewrite Permutation_middle.
  - split; [done|]. apply Z.nlt_ge. intros Hlt. apply Hs in Hlt as [? ?]. done.
Qed.

Lemma give_back_inv m c l id flags p r :
  cache_inv m c (l ++ (id, flags, p) :: r) → cache_inv m (give_back id flags p c) (l ++ r).
Proof.
  intros Hi. destruct (ci_lent _ _ _ Hi id flags p) as (Hv & Hlt & Hd & Hf); [apply elem_of_app; right; left|].
  destruct (proj2 (slot_exists m c _ id flags Hi Hv) Hlt) as [vec Hvec].
  assert (Z.of_nat (Z.to_nat (index id flags)) = index id flags) as Hix
    by (rewrite index_small by done; destruct Hv; lia).
  unfold give_back. assert (alter (cons p) (Z.to_nat (index id flags)) (pools c) =
    <[Z.to_nat (index id flags) := p :: vec]> (pools c)) as ->.
  { apply list_eq. intros j. rewrite list_lookup_alter. case_decide as Hj; [subst j|by rewrite list_lookup_insert_ne].
    rewrite Hvec, list_lookup_insert_eq; [done|]. by apply lookup_lt_Some in Hvec. }
  apply (set_slot_inv m c (l ++ (id, flags, p) :: r) _ _ vec (p :: vec)); try done.
  - intros x [->|Hx]%elem_of_cons; [by rewrite Hd, Hf|]. by apply (ci_slots _ _ _ Hi _ vec).
  - intros id' flags' x Hx. apply (ci_lent _ _ _ Hi). rewrite elem_of_app, elem_of_cons in *. tauto.
  - left. rewrite !fmap_app, fmap_cons. simpl. solve_Permutation.
Qed.

Lemma make_cache_inv m : cache_inv m (make_cache m) [].
Proof.
  assert (concat (pools (make_cache m)) = []) as E.
  { unfold make_cache. cbn [pools]. induction (m * _)%nat; [done|]. simpl. done. }
  split; rewrite ?E; try (by constructor); try (by intros ? ? ? ?%elem_of_nil); try (by intros ? ?%elem_of_nil).
  - unfold make_cache. cbn [pools]. rewrite length_replicate. done.
  - intros i vec p Hi Hp. apply lookup_replicate in Hi as [-> _]. by apply elem_of_nil in Hp.
Qed.

(** the pool cache never mixes pools up: in every state reachable by
    borrowing and returning, a request for a device and flags yields null
    exactly when the device is out of range, an exception only if creating
    a pool throws, and else a pool that was created for exactly that device
    and those flags and that nobody else has borrowed; all pools, cached or
    lent, are distinct. *)
Theorem event_pool_cache_safe create m c lent id flags :
  rtc (step create) (make_cache m, []) (c, lent) → valid_descriptor id flags →
  NoDup (pool_ptr <$> (concat (pools c) ++ lent.*2)) ∧
  match borrow create id flags c with
  | (Ret None, c') => c' = c ∧ Z.of_nat m ≤ id
  | (Ret (Some p), _) => id < Z.of_nat m ∧ pool_device p = id ∧ pool_flags p = flags ∧
      pool_ptr p ∉ (pool_ptr <$> lent.*2)
  | (Throw e, c') => c' = c ∧ create id flags = Some e
  | (Undefined, _) => False
  end.
Proof.
  intros Hr Hv. set (I := λ x : event_pool_cache * list (Z * Z * pool), cache_inv m x.1 x.2).
  assert (I (c, lent)) as Hi.
  { eapply (rtc_invariant (step create) I); [|exact Hr|apply make_cache_inv].
    intros x x' Hx Hs. revert Hx. destruct Hs as [c1 lent1 id1 flags1 r c' H1 H2 E|]; unfold I; cbn [fst snd]; intros Hx.
    - pose proof (borrow_inv create m c1 lent1 id1 flags1 Hx (conj H1 H2)) as Hb. rewrite E in Hb.
      destruct r as [[p|]| |]; [done|by destruct Hb as [-> _]|by destruct Hb as [-> _]|done].
    - by apply give_back_inv. }
  split; [apply Hi|]. pose proof (borrow_inv create m c lent id flags Hi Hv) as Hb.
  destruct (borrow create id flags c) as [[[p|]| |] c']; try done.
  destruct (ci_lent _ _ _ Hb id flags p ltac:(left)) as (_ & Hlt & Hd & Hf). split_and!; try done.
  pose proof (ci_ptrs _ _ _ Hb) as Hn. rewrite fmap_app in Hn. apply NoDup_app in Hn as (_ & _ & Hn).
  by apply NoDup_cons in Hn as [? _].
Qed.

Lemma event_pool_cache_safe_witness :
  ∃ c p, (borrow (λ _ _, None) 1 3 c).1 = Ret (Some p) ∧ pool_ptr p = 1 ∧ pool_device p = 1 ∧ pool_flags p = 3.
Proof.
  pose (b := borrow (λ _ _, None) 1 3 (make_cache 2)).
  assert (∃ p0, b.1 = Ret (Some p0)) as [p0 E0] by (eexists; by vm_compute).
  assert (rtc (step (λ _ _, None)) (make_cache 2, []) (b.2, [(1, 3, p0)])) as Hr.
  { eapply rtc_l; [|apply rtc_refl].
    pose proof (step_borrow (λ _ _, None) (make_cache 2) [] 1 3 b.1 b.2 ltac:(by vm_compute) ltac:(by vm_compute)
      (surjective_pairing b)) as Hs. rewrite E0 in Hs. exact Hs. }
  destruct (event_pool_cache_safe (λ _ _, None) 2 b.2 [(1, 3, p0)] 1 3 Hr ltac:(by vm_compute)) as [_ Hb].
  exists b.2. destruct (borrow (λ _ _, None) 1 3 b.2) as [[[p|]| |] c'] eqn:E;
    [|vm_compute in E; discriminate E|vm_compute in E; discriminate E|destruct Hb].
  destruct Hb as (_ & Hd & Hf & _). exists p. split; [reflexivity|]. split; [|split; assumption].
  vm_compute in E. by injection E as <- _.
Defined.

End PoolCacheProps.
