(* ===== verification/NativeCpu.v ===== *)
(** * Kernel launches of the native CPU adapter
    (adapters/native_cpu/enqueue.cpp, threadpool.hpp, nativecpu_state.hpp)

    A launch checks its arguments, splits the work-groups into one range per
    thread and schedules a task per range on a pool of worker threads.  Module
    [ThreadPool] models the workers and the calls of other threads as a step
    relation, one load of a counter or locked section at a time, with tasks that
    may wait for earlier ones; [Launch] the checks, the partition and
    the work-items a task runs; [Rect] the rectangular buffer copies. *)
From stdpp Require Import base numbers list gmap sorting relations.
From S2P Require Import Prelude.
Local Open Scope Z_scope.

Module ThreadPool.

(** What the thread of a worker is doing; [Ended] is between the end of a task
    and the decrement of the counter. *)
Inductive phase := Waiting | Executing (task : nat) | Ended | Exited.

(** [worker_thread]; tasks are numbered in the order they are enqueued. *)
Record worker_thread := {
  m_isRunning : bool; m_tasks : list nat; m_numTasks : Z; m_phase : phase }.

Definition new_worker : worker_thread :=
  {| m_isRunning := true; m_tasks := []; m_numTasks := 0; m_phase := Waiting |}.

(** [worker_thread::schedule], under the mutex of the worker. *)
Definition worker_schedule (task : nat) (w : worker_thread) : worker_thread :=
  {| m_isRunning := m_isRunning w; m_tasks := m_tasks w ++ [task];
     m_numTasks := m_numTasks w + 1; m_phase := m_phase w |}.

Definition stop (w : worker_thread) : worker_thread :=
  {| m_isRunning := false; m_tasks := m_tasks w; m_numTasks := m_numTasks w; m_phase := m_phase w |}.

Definition set_phase (p : phase) (w : worker_thread) : worker_thread :=
  {| m_isRunning := m_isRunning w; m_tasks := m_tasks w; m_numTasks := m_numTasks w; m_phase := p |}.
Definition take_task (task : nat) (rest : list nat) (w : worker_thread) : worker_thread :=
  {| m_isRunning := m_isRunning w; m_tasks := rest; m_numTasks := m_numTasks w; m_phase := Executing task |}.
Definition finish_task (w : worker_thread) : worker_thread := set_phase Ended w.
Definition count_down (w : worker_thread) : worker_thread :=
  {| m_isRunning := m_isRunning w; m_tasks := m_tasks w; m_numTasks := m_numTasks w - 1; m_phase := Waiting |}.

(** [simple_thread_pool::num_pending_tasks] while nothing else happens. *)
Definition num_pending_tasks (pool : list worker_thread) : Z :=
  foldl (λ n w, n + m_numTasks w) 0 pool.

(** [std::min_element] while nothing else happens: the first worker with the
    fewest tasks. *)
Fixpoint min_index (i best : nat) (n : Z) (l : list worker_thread) : nat :=
  match l with
  | [] => best
  | w :: l => if m_numTasks w <? n then min_index (S i) i (m_numTasks w) l else min_index (S i) best n l
  end.
Definition best_worker (pool : list worker_thread) : nat :=
  match pool with [] => 0%nat | w :: l => min_index 1 0 (m_numTasks w) l end.

(** A call of [simple_thread_pool::schedule] that is looking for the best worker:
    the worker to look at next, the best one so far, and the counter of the
    former once it is read. *)
Record call := { c_next : nat; c_best : nat; c_read : option Z }.
Definition new_call : call := {| c_next := 1; c_best := 0; c_read := None |}.
(** One load of a counter; every comparison makes two. *)
Definition look (pool : list worker_thread) (c : call) : option call :=
  w ← pool !! c_next c;
  match c_read c with
  | None => Some {| c_next := c_next c; c_best := c_best c; c_read := Some (m_numTasks w) |}
  | Some n =>
      b ← pool !! c_best c;
      Some {| c_next := S (c_next c);
              c_best := if n <? m_numTasks b then c_next c else c_best c; c_read := None |}
  end.
Fixpoint looks (n : nat) (pool : list worker_thread) (c : call) : option call :=
  match n with O => Some c | S n => c ← look pool c; looks n pool c end.

(** The end of the call. *)
Definition schedule (task best : nat) (pool : list worker_thread) : list worker_thread :=
  alter (worker_schedule task) best pool.

(** A call of [wait_for_all_pending_tasks] that is adding counters up, and how
    many tasks had been scheduled when it began. *)
Record waiter := { w_next : nat; w_sum : Z; w_before : nat }.

Definition simple_thread_pool (numThreads : nat) : list worker_thread := replicate numThreads new_worker.

(** The pool, the calls in progress, how many tasks have been enqueued, and those
    that have finished. *)
Record sys := {
  pool : list worker_thread; calls : list call; waiters : list waiter; scheduled : nat; finished : list nat }.

Definition update (i : nat) (w : worker_thread) (s : sys) : sys :=
  {| pool := <[i := w]> (pool s); calls := calls s; waiters := waiters s; scheduled := scheduled s;
     finished := finished s |}.
Definition set_calls (l : list call) (s : sys) : sys :=
  {| pool := pool s; calls := l; waiters := waiters s; scheduled := scheduled s; finished := finished s |}.
Definition set_waiters (l : list waiter) (s : sys) : sys :=
  {| pool := pool s; calls := calls s; waiters := l; scheduled := scheduled s; finished := finished s |}.

(** The steps of worker threads: the loop body of the thread function. A task
    finishes once the tasks it waits for ([deps]) have. *)
Inductive run (deps : nat → list nat) : relation sys :=
  | run_take s i w t ts :
      pool s !! i = Some w → m_phase w = Waiting → m_tasks w = t :: ts →
      run deps s (update i (take_task t ts w) s)
  | run_finish s i w t :
      pool s !! i = Some w → m_phase w = Executing t → (∀ d, d ∈ deps t → d ∈ finished s) →
      run deps s {| pool := <[i := finish_task w]> (pool s); calls := calls s; waiters := waiters s;
                    scheduled := scheduled s; finished := finished s ++ [t] |}
  | run_count s i w :
      pool s !! i = Some w → m_phase w = Ended → run deps s (update i (count_down w) s)
  | run_exit s i w :
      pool s !! i = Some w → m_phase w = Waiting → m_isRunning w = false → m_tasks w = [] →
      run deps s (update i (set_phase Exited w) s).

(** Those, and the calls of other threads, one access to a counter or to the state
    under a mutex at a time: scheduling on a live pool, waiting for the pending
    tasks, and [stop], when no task is being scheduled. *)
Inductive step (deps : nat → list nat) : relation sys :=
  | step_run s s' : run deps s s' → step deps s s'
  | step_begin s :
      Forall (λ w, m_isRunning w = true) (pool s) → step deps s (set_calls (calls s ++ [new_call]) s)
  | step_look s k c c' :
      calls s !! k = Some c → look (pool s) c = Some c' → step deps s (set_calls (<[k := c']> (calls s)) s)
  | step_schedule s k c :
      calls s !! k = Some c → c_next c = length (pool s) →
      step deps s {| pool := schedule (scheduled s) (c_best c) (pool s); calls := delete k (calls s);
                     waiters := waiters s; scheduled := S (scheduled s); finished := finished s |}
  | step_wait s :
      step deps s (set_waiters (waiters s ++ [{| w_next := 0; w_sum := 0; w_before := scheduled s |}]) s)
  | step_read s k x w :
      waiters s !! k = Some x → pool s !! w_next x = Some w →
      step deps s (set_waiters (<[k := {| w_next := S (w_next x); w_sum := w_sum x + m_numTasks w;
                                          w_before := w_before x |}]> (waiters s)) s)
  | step_again s k x :
      waiters s !! k = Some x → w_next x = length (pool s) → 0 < w_sum x →
      step deps s (set_waiters (<[k := {| w_next := 0; w_sum := 0; w_before := w_before x |}]> (waiters s)) s)
  | step_stop s i w : calls s = [] → pool s !! i = Some w → step deps s (update i (stop w) s).

Definition initial (numThreads : nat) : sys :=
  {| pool := simple_thread_pool numThreads; calls := []; waiters := []; scheduled := 0; finished := [] |}.

End ThreadPool.

Module ThreadPoolFacts.
Import ThreadPool.

(** The tasks a worker has not finished, the one being executed first. *)
Definition pending (w : worker_thread) : list nat :=
  match m_phase w with Executing t => t :: m_tasks w | _ => m_tasks w end.
(** A task that has ended and is still counted. *)
Definition ending (w : worker_thread) : nat := match m_phase w with Ended => 1 | _ => 0 end.
Definition endings (p : list worker_thread) : nat := foldr (λ w n, ending w + n)%nat 0%nat p.

Record worker_ok (w : worker_thread) : Prop := {
  wo_num : m_numTasks w = Z.of_nat (length (pending w) + ending w);
  wo_sorted : StronglySorted lt (pending w);
  wo_exited : m_phase w = Exited → m_tasks w = [] ∧ m_isRunning w = false;
}.

Record pool_inv (p : list worker_thread) (n : nat) (fin : list nat) : Prop := {
  pi_workers : Forall worker_ok p;
  pi_tasks : (p ≫= pending) ++ fin ≡ₚ seq 0 n;
}.

Definition call_ok (size : nat) (c : call) : Prop := (c_best c < c_next c ≤ size)%nat.
(** The workers read so far without finding any task have none of those that had
    been scheduled when the wait began. *)
Record waiter_ok (p : list worker_thread) (n : nat) (x : waiter) : Prop := {
  wt_next : (w_next x ≤ length p)%nat;
  wt_sum : 0 ≤ w_sum x;
  wt_before : (w_before x ≤ n)%nat;
  wt_read : w_sum x = 0 → ∀ i w t, (i < w_next x)%nat → p !! i = Some w → t ∈ pending w → (w_before x ≤ t)%nat;
}.

Record sys_inv (s : sys) : Prop := {
  si_pool : pool_inv (pool s) (scheduled s) (finished s);
  si_size : (0 < length (pool s))%nat;
  si_calls : Forall (call_ok (length (pool s))) (calls s);
  si_running : calls s ≠ [] → Forall (λ w, m_isRunning w = true) (pool s);
  si_waiters : Forall (waiter_ok (pool s) (scheduled s)) (waiters s);
}.

Lemma num_pending_sum l n :
  foldl (λ n w, n + m_numTasks w) n l = n + foldr (λ w n, m_numTasks w + n) 0 l.
Proof. revert n. induction l as [|w l IH]; intros n; simpl; [lia|]. rewrite IH. lia. Qed.

Lemma num_pending_length l :
  Forall worker_ok l → num_pending_tasks l = Z.of_nat (length (l ≫= pending) + endings l).
Proof.
  intros Hl. unfold num_pending_tasks. rewrite num_pending_sum. induction Hl as [|w l [Hw _ _] _ IH]; [done|].
  rewrite bind_cons, length_app. simpl. lia.
Qed.

(** Replacing one worker. *)
Lemma insert_pending (l : list worker_thread) i w w' :
  l !! i = Some w →
  ∃ r, (l ≫= pending) ≡ₚ pending w ++ r ∧ (<[i := w']> l ≫= pending) ≡ₚ pending w' ++ r.
Proof.
  intros Hi. exists ((take i l ≫= pending) ++ (drop (S i) l ≫= pending)).
  rewrite insert_take_drop by (by apply lookup_lt_Some in Hi).
  rewrite <-(take_drop_middle l i w Hi) at 1. rewrite !bind_app, !bind_cons. split; solve_Permutation.
Qed.

(** The tasks [extra] leave a worker for the finished ones, or join it. *)
Lemma replace_worker p n fin i w w' extra out n' :
  pool_inv p n fin → p !! i = Some w → worker_ok w' →
  pending w' ++ extra ≡ₚ pending w ++ out → out ++ seq 0 n ≡ₚ seq 0 n' →
  pool_inv (<[i := w']> p) n' (fin ++ extra).
Proof.
  intros [Hw Ht] Hi Hw' Hp Hn. destruct (insert_pending p i w w' Hi) as (r & E1 & E2).
  split; [by apply Forall_insert|]. rewrite E2, <-Hn, <-Ht, E1.
  transitivity ((pending w' ++ extra) ++ r ++ fin); [solve_Permutation|].
  rewrite Hp. solve_Permutation.
Qed.

Lemma min_index_spec i best n l pre :
  length pre = i → (best < i)%nat → (∃ w, pre !! best = Some w ∧ m_numTasks w = n) →
  (∀ w, w ∈ pre → n ≤ m_numTasks w) →
  ∃ w, (pre ++ l) !! min_index i best n l = Some w ∧ ∀ w', w' ∈ pre ++ l → m_numTasks w ≤ m_numTasks w'.
Proof.
  revert i best n pre. induction l as [|x l IH]; intros i best n pre Hi Hb (w & Hw & Hn) Hm; cbn [min_index].
  { exists w. rewrite app_nil_r. split; [done|]. intros w' Hw'. rewrite Hn. auto. }
  assert (pre ++ x :: l = (pre ++ [x]) ++ l) as -> by (by rewrite <-app_assoc).
  case_match eqn:E; bool_to_prop; apply IH; rewrite ?length_app; simpl; try lia.
  - exists x. split; [|done]. rewrite lookup_app_r, Hi, Nat.sub_diag by lia. done.
  - intros w' [Hw'| ->%list_elem_of_singleton]%elem_of_app; [|lia]. specialize (Hm w' Hw'). lia.
  - exists w. split; [|done]. rewrite lookup_app_l by lia. done.
  - intros w' [Hw'| ->%list_elem_of_singleton]%elem_of_app; [auto|lia].
Qed.

Lemma best_worker_spec l :
  l ≠ [] → ∃ w, l !! best_worker l = Some w ∧ ∀ w', w' ∈ l → m_numTasks w ≤ m_numTasks w'.
Proof.
  destruct l as [|x l]; [done|]. intros _. apply (min_index_spec 1 0 (m_numTasks x) l [x]); [done|lia|by exists x|].
  by intros w ->%list_elem_of_singleton.
Qed.

Lemma sorted_snoc (l : list nat) n :
  StronglySorted lt l → (∀ x, x ∈ l → (x < n)%nat) → StronglySorted lt (l ++ [n]).
Proof.
  intros Hl Hn. apply StronglySorted_app. split; [|split; [done|by repeat constructor]].
  intros x y Hx ->%list_elem_of_singleton. auto.
Qed.

(** A call that nothing interferes with chooses what [min_element] does. *)
Lemma looks_alone l : ∀ pre best b, (pre ++ l) !! best = Some b →
  looks (2 * length l) (pre ++ l) {| c_next := length pre; c_best := best; c_read := None |} =
    Some {| c_next := length (pre ++ l); c_best := min_index (length pre) best (m_numTasks b) l; c_read := None |}.
Proof.
  induction l as [|w l IH]; intros pre best b Hb; [by rewrite app_nil_r|].
  assert ((pre ++ w :: l) !! length pre = Some w) as Hw by by rewrite lookup_app_r, Nat.sub_diag.
  replace (2 * length (w :: l))%nat with (S (S (2 * length l))) by (simpl; lia).
  cbn [looks]. unfold look. cbn [c_next c_read c_best]. rewrite Hw. simpl. rewrite Hw. simpl. rewrite Hb. simpl.
  assert (pre ++ w :: l = (pre ++ [w]) ++ l) as E by by rewrite <-app_assoc. rewrite E in *.
  replace (S (length pre)) with (length (pre ++ [w])) by (rewrite length_app; simpl; lia).
  rewrite <-(Nat.add_0_r (length l)), Nat.add_0_r. destruct (m_numTasks w <? m_numTasks b).
  - by rewrite <-(IH (pre ++ [w]) (length pre) w Hw).
  - by rewrite <-(IH (pre ++ [w]) best b Hb).
Qed.

Lemma best_worker_alone p : p ≠ [] →
  looks (2 * (length p - 1)) p new_call = Some {| c_next := length p; c_best := best_worker p; c_read := None |}.
Proof.
  destruct p as [|w l]; [done|]. intros _. simpl length. replace (S (length l) - 1)%nat with (length l) by lia.
  by apply (looks_alone l [w] 0%nat w).
Qed.

Lemma pending_lt p n fin w t : pool_inv p n fin → w ∈ p → t ∈ pending w → (t < n)%nat.
Proof.
  intros [_ Ht] Hw Hin. assert (t ∈ seq 0 n) as Hs; [|apply elem_of_seq in Hs; lia].
  rewrite <-Ht. apply elem_of_app. left. apply list_elem_of_bind. eauto.
Qed.

Lemma alter_insert {A} (f : A → A) (l : list A) i x : l !! i = Some x → alter f i l = <[i := f x]> l.
Proof.
  intros Hx. apply list_eq. intros j. rewrite list_lookup_alter. case_decide as Hj; [subst j|by rewrite list_lookup_insert_ne].
  rewrite Hx, list_lookup_insert_eq; [done|]. by apply lookup_lt_Some in Hx.
Qed.

(** How the pool changes while calls are in progress. *)
Definition evolves (p p' : list worker_thread) (n : nat) : Prop :=
  length p' = length p ∧
  ∀ i w', p' !! i = Some w' → ∃ w, p !! i = Some w ∧ ∀ t, t ∈ pending w' → t ∈ pending w ∨ (n ≤ t)%nat.

Lemma insert_evolves p i w w' n : p !! i = Some w →
  (∀ t, t ∈ pending w' → t ∈ pending w ∨ (n ≤ t)%nat) → evolves p (<[i := w']> p) n.
Proof.
  intros Hi Ht. split; [by rewrite length_insert|]. intros j x.
  rewrite list_lookup_insert_Some. intros [(<- & <- & _)|[_ Hj]]; [by exists w|]. exists x. auto.
Qed.

(** Preservation when the pool changes. *)
Lemma sys_inv_pool s p' cs n' fin' :
  sys_inv s → evolves (pool s) p' (scheduled s) → pool_inv p' n' fin' → (scheduled s ≤ n')%nat → cs ⊆ calls s →
  (cs ≠ [] → Forall (λ w, m_isRunning w = true) p') →
  sys_inv {| pool := p'; calls := cs; waiters := waiters s; scheduled := n'; finished := fin' |}.
Proof.
  intros [Hp Hz Hc Hr Hw] [El Ev] Hp' Hn Hcs Hr'. split; simpl; [done|lia| |done|].
  - rewrite El. apply Forall_forall. intros c Hin. rewrite Forall_forall in Hc. auto.
  - eapply Forall_impl; [exact Hw|]. intros x [H1 H2 H3 H4]. split; [lia|done|lia|]. intros Hx i w' t Hi Hl Ht.
    destruct (Ev i w' Hl) as (w & Hlw & Hpend). destruct (Hpend t Ht) as [?|?]; [by eapply H4|lia].
Qed.

Lemma running_insert s i w w' : sys_inv s → pool s !! i = Some w → m_isRunning w' = m_isRunning w →
  calls s ≠ [] → Forall (λ w, m_isRunning w = true) (<[i := w']> (pool s)).
Proof.
  intros Hs Hi E Hc. pose proof (si_running s Hs Hc) as Hr. apply Forall_insert; [done|].
  rewrite E. by eapply (Forall_lookup_1 _ _ _ _ Hr).
Qed.

Lemma schedule_inv s k c : sys_inv s → calls s !! k = Some c → c_next c = length (pool s) →
  sys_inv {| pool := schedule (scheduled s) (c_best c) (pool s); calls := delete k (calls s);
             waiters := waiters s; scheduled := S (scheduled s); finished := finished s |}.
Proof.
  intros Hs Hk Hnext. pose proof (Forall_lookup_1 _ _ _ _ (si_calls s Hs) Hk) as Hc. unfold call_ok in Hc.
  destruct (lookup_lt_is_Some_2 (pool s) (c_best c)) as [w Hw]; [lia|].
  assert (calls s ≠ []) as Hne by by intros E; rewrite E in Hk.
  unfold schedule. rewrite (alter_insert _ _ _ _ Hw).
  assert (pending (worker_schedule (scheduled s) w) = pending w ++ [scheduled s]) as Ep
    by (unfold pending; simpl; by destruct (m_phase w)).
  pose proof (Forall_lookup_1 _ _ _ _ (pi_workers _ _ _ (si_pool s Hs)) Hw) as [Hn Hss Hex].
  pose proof (Forall_lookup_1 _ _ _ _ (si_running s Hs Hne) Hw) as Hrun. simpl in Hrun.
  apply sys_inv_pool; [done| | |lia| |].
  - apply (insert_evolves _ _ w); [done|]. rewrite Ep. intros t [?| ->%list_elem_of_singleton]%elem_of_app; [by left|by right].
  - rewrite <-(app_nil_r (finished s)).
    apply (replace_worker _ (scheduled s) _ _ w _ [] [scheduled s]); [apply Hs|done| |by rewrite Ep, app_nil_r|].
    + split.
      * rewrite Ep, length_app. unfold ending in *. simpl. lia.
      * rewrite Ep. apply sorted_snoc; [done|]. intros x. eapply pending_lt; [apply Hs|]. by eapply list_elem_of_lookup_2.
      * simpl. intros E. destruct (Hex E). congruence.
    + rewrite Permutation_app_comm, <-seq_S. done.
  - intros x. rewrite delete_take_drop. intros [Hx|Hx]%elem_of_app; [by eapply subseteq_take|by eapply subseteq_drop].
  - intros _. by apply (running_insert s _ w).
Qed.

Lemma run_pool_inv deps s s' : run deps s s' → sys_inv s → pool_inv (pool s') (scheduled s') (finished s').
Proof.
  intros Hr Hs. pose proof (si_pool s Hs) as Hp. destruct Hr as [s i w t ts Hi Hph Ht|s i w t Hi Hph Hd|s i w Hi Hph|s i w Hi Hph Hr Ht].
  all: pose proof (Forall_lookup_1 _ _ _ _ (pi_workers _ _ _ Hp) Hi) as [Hn Hss Hex]; unfold pending, ending in Hn, Hss; rewrite Hph in *.
  all: simpl; try rewrite <-(app_nil_r (finished s)).
  - apply (replace_worker _ (scheduled s) _ i w _ [] []); [done|done| | |done].
    + rewrite Ht in *. by split.
    + unfold pending. simpl. by rewrite Hph, Ht.
  - rewrite app_nil_r. apply (replace_worker _ (scheduled s) _ i w _ [t] []); [done|done| | |done].
    + apply StronglySorted_inv in Hss as [Hss _]. split; [|done|done]. unfold pending, ending. simpl in *. lia.
    + unfold pending. simpl. rewrite Hph, app_nil_r. by rewrite Permutation_app_comm.
  - apply (replace_worker _ (scheduled s) _ i w _ [] []); [done|done| | |done].
    + split; [|done|done]. unfold pending, ending. simpl. lia.
    + unfold pending. simpl. by rewrite Hph.
  - apply (replace_worker _ (scheduled s) _ i w _ [] []); [done|done| | |done].
    + split; [|done|done]. unfold pending, ending. simpl. lia.
    + unfold pending. simpl. by rewrite Hph.
Qed.

Lemma run_inv deps s s' : sys_inv s → run deps s s' → sys_inv s'.
Proof.
  intros Hs Hr. pose proof (run_pool_inv deps s s' Hr Hs) as Hp. destruct Hr as [s i w t ts Hi Hph Ht|s i w t Hi Hph Hd|s i w Hi Hph|s i w Hi Hph Hr Ht].
  all: apply sys_inv_pool; [done| |exact Hp|done|done|by apply (running_insert s _ w)].
  all: apply (insert_evolves _ _ w); [done|]; intros t'; unfold pending; simpl; rewrite Hph; auto.
  - rewrite Ht. auto.
  - intros ?. left. by right.
Qed.

Lemma look_ok p c c' : call_ok (length p) c → look p c = Some c' → call_ok (length p) c'.
Proof.
  unfold look, call_ok. intros Hc. destruct (p !! c_next c) as [w|] eqn:Hw; simpl; [|done].
  apply lookup_lt_Some in Hw. destruct (c_read c); [|by intros [= <-]].
  destruct (p !! c_best c); simpl; [|done]. intros [= <-]. simpl. case_match; lia.
Qed.

(** Reading one more counter. *)
Lemma counter_read_ok p n x w : Forall worker_ok p → waiter_ok p n x → p !! w_next x = Some w →
  waiter_ok p n {| w_next := S (w_next x); w_sum := w_sum x + m_numTasks w; w_before := w_before x |}.
Proof.
  intros Hp [H1 H2 H3 H4] Hw. pose proof (Forall_lookup_1 _ _ _ _ Hp Hw) as [Hn _ _].
  split; simpl; [by apply lookup_lt_Some in Hw|lia|done|]. intros Hz i w' t Hi Hw' Ht.
  destruct (decide (i = w_next x)) as [->|Hne]; [|apply (H4 ltac:(lia) i w' t); done || lia].
  rewrite Hw in Hw'. injection Hw' as <-. assert (length (pending w) = 0)%nat as Hnil by lia.
  apply nil_length_inv in Hnil. rewrite Hnil in Ht. by apply elem_of_nil in Ht.
Qed.

Lemma step_inv deps s s' : sys_inv s → step deps s s' → sys_inv s'.
Proof.
  intros Hs Hst. destruct Hst as [s s' Hr|s Hr|s k c c' Hk Hc|s k c Hk Hc|s|s k x w Hk Hw|s k x Hk Hx Hsum|s i w Hc Hi].
  - by eapply run_inv.
  - destruct Hs as [Hp Hz Hc Hr' Hw]. split; simpl; [done|done| |done|done]. apply Forall_app. split; [done|].
    apply Forall_singleton. unfold call_ok. simpl. lia.
  - pose proof Hs as [Hp Hz Hcs Hr Hw]. split; simpl; [done|done| | |done].
    + apply Forall_insert; [done|]. eapply look_ok; [|done]. by eapply (Forall_lookup_1 _ _ _ _ Hcs).
    + intros _. apply Hr. by intros E; rewrite E in Hk.
  - by apply schedule_inv.
  - destruct Hs as [Hp Hz Hcs Hr Hw]. split; simpl; [done..|]. apply Forall_app. split; [done|].
    apply Forall_singleton. split; simpl; lia.
  - pose proof Hs as [Hp Hz Hcs Hr Hws]. split; simpl; [done..|]. apply Forall_insert; [done|].
    apply counter_read_ok; [apply Hp| |done]. by eapply (Forall_lookup_1 _ _ _ _ Hws).
  - pose proof Hs as [Hp Hz Hcs Hr Hws]. split; simpl; [done..|]. apply Forall_insert; [done|].
    pose proof (Forall_lookup_1 _ _ _ _ Hws Hk) as []. split; simpl; [lia|done|done|lia].
  - apply sys_inv_pool; [done| | |done|done|by rewrite Hc].
    + apply (insert_evolves _ _ w); [done|]. intros t Ht. left. exact Ht.
    + rewrite <-(app_nil_r (finished s)). apply (replace_worker _ (scheduled s) _ i w _ [] []); [apply Hs|done| |done|done].
      pose proof (Forall_lookup_1 _ _ _ _ (pi_workers _ _ _ (si_pool s Hs)) Hi) as [? ? Hex].
      split; [done|done|]. simpl. intros E. by destruct (Hex E).
Qed.

Lemma initial_inv n : (0 < n)%nat → sys_inv (initial n).
Proof.
  intros Hn. split; simpl; [|by unfold simple_thread_pool; rewrite length_replicate|constructor|done|constructor]. split.
  - apply Forall_replicate. split; simpl; [done|constructor|done].
  - clear Hn. rewrite app_nil_r. induction n; simpl; [done|]. done.
Qed.

(** The oldest unfinished task is at the head of its worker, and what it waits
    for has finished. *)
Lemma oldest_pending p n fin : pool_inv p n fin → (0 < length (p ≫= pending))%nat →
  ∃ t w i, p !! i = Some w ∧ head (pending w) = Some t ∧ ∀ d, (d < t)%nat → d ∈ fin.
Proof.
  intros [Hw Ht] Hpos. set (P := p ≫= pending) in *.
  assert (∃ t, t ∈ P ∧ ∀ t', t' ∈ P → (t ≤ t')%nat) as (t & Hin & Hmin).
  { destruct P as [|x l]; [simpl in Hpos; lia|]. clear. induction l as [|y l IH] in x |- *.
    - exists x. split; [left|]. by intros t' ->%list_elem_of_singleton.
    - destruct (IH y) as (t & Htin & Hle). destruct (decide (x ≤ t)%nat) as [Hx|Hx].
      + exists x. split; [left|]. intros t' [->|Hin']%elem_of_cons; [done|]. specialize (Hle t' Hin'). lia.
      + exists t. split; [by right|]. intros t' [->|Hin']%elem_of_cons; [lia|auto]. }
  assert (∀ d, (d < t)%nat → d ∈ fin) as Hfin.
  { intros d Hd. assert (t ∈ seq 0 n) as Hts by (rewrite <-Ht; apply elem_of_app; by left).
    apply elem_of_seq in Hts. assert (d ∈ seq 0 n) as Hds by (apply elem_of_seq; lia).
    rewrite <-Ht in Hds. apply elem_of_app in Hds as [Hds|]; [|done]. specialize (Hmin d Hds). lia. }
  apply list_elem_of_bind in Hin as (w & Hin & Hwin). apply list_elem_of_lookup_1 in Hwin as [i Hi].
  pose proof (Forall_lookup_1 _ _ _ _ Hw Hi) as [_ Hss _]. exists t, w, i. split_and!; [done| |done].
  destruct (pending w) as [|x l] eqn:E; [by apply elem_of_nil in Hin|]. simpl. f_equal.
  apply elem_of_cons in Hin as [->|Hin]; [done|].
  apply StronglySorted_inv in Hss as [_ Hlt]. rewrite Forall_forall in Hlt. specialize (Hlt t Hin).
  assert (x ∈ P) as Hx; [|specialize (Hmin x Hx); lia]. apply list_elem_of_bind. exists w. rewrite E.
  split; [left|by eapply list_elem_of_lookup_2].
Qed.

Lemma endings_ended p : (0 < endings p)%nat → ∃ i w, p !! i = Some w ∧ m_phase w = Ended.
Proof.
  induction p as [|w p IH]; simpl; [lia|]. intros Hp. destruct (m_phase w) eqn:E; unfold ending in Hp; rewrite E in Hp.
  3: by exists 0%nat, w.
  all: destruct IH as (i & x & ? & ?); [lia|by exists (S i), x].
Qed.

Lemma run_progress deps s :
  sys_inv s → (∀ t d, d ∈ deps t → (d < t)%nat) → 0 < num_pending_tasks (pool s) →
  ∃ s', run deps s s'.
Proof.
  intros Hs Hdeps Hpos. pose proof (si_pool s Hs) as Hp. pose proof (pi_workers _ _ _ Hp) as Hw.
  rewrite (num_pending_length _ Hw) in Hpos. destruct (decide (0 < endings (pool s))%nat) as [He|He].
  { destruct (endings_ended _ He) as (i & w & Hi & Hph). eexists. by eapply run_count. }
  destruct (oldest_pending _ _ _ Hp) as (t & w & i & Hi & Hhead & Hfin); [lia|].
  pose proof (Forall_lookup_1 _ _ _ _ Hw Hi) as [_ _ Hex].
  unfold pending in Hhead. destruct (m_phase w) as [|x| |] eqn:Hph.
  - destruct (m_tasks w) as [|x ts] eqn:Hts; [done|]. eexists. by eapply run_take.
  - injection Hhead as ->. eexists. eapply run_finish; [done|done|]. intros d Hd. apply Hfin. by apply Hdeps.
  - destruct (m_tasks w) as [|x ts] eqn:Hts; [done|]. exfalso. apply He. clear -Hi Hph. revert i Hi.
    induction (pool s) as [|y p IH]; intros [|i] Hi; simplify_eq/=; unfold ending; [rewrite Hph; lia|]. specialize (IH i Hi). lia.
  - destruct (Hex eq_refl) as [E _]. by rewrite E in Hhead.
Qed.

End ThreadPoolFacts.

Module ThreadPoolProps.
Import ThreadPool ThreadPoolFacts.

Lemma reachable_inv deps n s : (0 < n)%nat → rtc (step deps) (initial n) s → sys_inv s.
Proof.
  intros Hn Hr. apply (rtc_invariant (step deps) sys_inv (step_inv deps) _ _ Hr). by apply initial_inv.
Qed.

(** C8: the thread pool runs every task once: in every reachable state, with
    any interleaving of the loads of concurrent [schedule] and
    [wait_for_all_pending_tasks] calls, the enqueueing of tasks, the workers and
    stops (a pool is stopped when no task is being scheduled), finished tasks
    were scheduled and finish once; the counter of a worker is the number of its
    unfinished tasks, and one more between the end of a task and its decrement,
    so the counters add up to the unfinished tasks and the ended ones; when
    [wait_for_all_pending_tasks] has added the counters up to zero, all tasks
    scheduled before the call have finished, although it reads them one after
    the other; a worker only exits with an empty queue after [stop]; a task goes
    to a worker that exists and runs, which is one with the fewest tasks if
    nothing happens while the counters are compared. *)
Theorem thread_pool_safe deps n s :
  (0 < n)%nat → rtc (step deps) (initial n) s →
  NoDup (finished s) ∧ (∀ t, t ∈ finished s → (t < scheduled s)%nat) ∧
  (∀ w, w ∈ pool s → m_numTasks w = Z.of_nat (length (pending w) + ending w)) ∧
  num_pending_tasks (pool s) = Z.of_nat (scheduled s) - Z.of_nat (length (finished s)) + Z.of_nat (endings (pool s)) ∧
  (∀ x, x ∈ waiters s → w_next x = length (pool s) → w_sum x = 0 → ∀ t, (t < w_before x)%nat → t ∈ finished s) ∧
  (∀ w, w ∈ pool s → m_phase w = Exited → m_tasks w = [] ∧ m_isRunning w = false) ∧
  (∀ c, c ∈ calls s → ∃ w, pool s !! c_best c = Some w ∧ m_isRunning w = true) ∧
  (∃ w, looks (2 * (length (pool s) - 1)) (pool s) new_call =
          Some {| c_next := length (pool s); c_best := best_worker (pool s); c_read := None |} ∧
     pool s !! best_worker (pool s) = Some w ∧ ∀ w', w' ∈ pool s → m_numTasks w ≤ m_numTasks w').
Proof.
  intros Hn Hr. destruct (reachable_inv deps n s Hn Hr) as [[Hw Ht] Hz Hc Hrun Hx].
  pose proof (NoDup_seq 0 (scheduled s)) as Hnd. rewrite <-Ht in Hnd. apply NoDup_app in Hnd as (_ & _ & Hnd).
  pose proof (num_pending_length _ Hw) as Hnum.
  assert (length (seq 0 (scheduled s)) = scheduled s) as Hl by apply length_seq.
  rewrite <-Ht, length_app in Hl. assert (pool s ≠ []) as Hne by (by destruct (pool s); [simpl in Hz; lia|]).
  rewrite Forall_forall in Hw. rewrite Forall_forall in Hc. rewrite Forall_forall in Hx. split_and!; [done| | |lia| | | |].
  - intros t Hin. assert (t ∈ seq 0 (scheduled s)) as Hs; [|apply elem_of_seq in Hs; lia].
    rewrite <-Ht. apply elem_of_app. by right.
  - intros w Hin. by destruct (Hw w Hin).
  - intros x Hin Hnext Hsum t Hlt. destruct (Hx x Hin) as [_ _ Hb Hread]. rewrite Hnext in Hread.
    assert (t ∈ seq 0 (scheduled s)) as Hs by (apply elem_of_seq; lia).
    rewrite <-Ht in Hs. apply elem_of_app in Hs as [Hs|]; [|done].
    apply list_elem_of_bind in Hs as (w & Hp & Hin'). apply list_elem_of_lookup_1 in Hin' as [i Hi].
    pose proof (Hread Hsum i w t (lookup_lt_Some _ _ _ Hi) Hi Hp). lia.
  - intros w Hin. by destruct (Hw w Hin).
  - intros c Hin. pose proof (Hc c Hin) as Hcc. unfold call_ok in Hcc.
    destruct (lookup_lt_is_Some_2 (pool s) (c_best c)) as [w Hi]; [lia|]. exists w. split; [done|].
    assert (calls s ≠ []) as Hcs by (intros E; rewrite E in Hin; by apply elem_of_nil in Hin).
    exact (Forall_lookup_1 _ _ _ _ (Hrun Hcs) Hi).
  - destruct (best_worker_spec _ Hne) as (w & ? & ?). exists w. split; [by apply best_worker_alone|done].
Qed.

(** Steps a worker can still make without new calls. *)
Definition worker_measure (w : worker_thread) : nat :=
  (3 * length (m_tasks w) +
   match m_phase w with Waiting => 1 | Executing _ => 3 | Ended => 2 | Exited => 0 end)%nat.
Definition measure (s : sys) : nat := foldr (λ w n, (worker_measure w + n)%nat) 0%nat (pool s).

Lemma measure_insert l i w w' :
  l !! i = Some w → (worker_measure w' < worker_measure w)%nat →
  (foldr (λ w n, (worker_measure w + n)%nat) 0%nat (<[i := w']> l) <
   foldr (λ w n, (worker_measure w + n)%nat) 0%nat l)%nat.
Proof.
  revert i. induction l as [|x l IH]; intros [|i] Hi Hm; simplify_eq/=; [lia|].
  specialize (IH i Hi Hm). lia.
Qed.

Lemma run_measure deps s s' : run deps s s' → (measure s' < measure s)%nat.
Proof.
  intros [s0 i w t ts Hi Hp Ht|s0 i w t Hi Hp Hd|s0 i w Hi Hp|s0 i w Hi Hp Hr Ht]; unfold measure, update; simpl;
    apply (measure_insert _ i w); try done; unfold worker_measure; simpl; rewrite ?Hp, ?Ht; simpl; lia.
Qed.

(** C9: liveness of the thread pool: when tasks only wait for tasks scheduled
    before them, as enqueued commands do, no deadlock is possible although
    waiting blocks a worker and its queue: left alone, every execution from
    every reachable state is finite, and ends with every scheduled task
    finished. *)
Theorem thread_pool_drains deps n s :
  (0 < n)%nat → (∀ t d, d ∈ deps t → (d < t)%nat) → rtc (step deps) (initial n) s →
  sn (run deps) s ∧
  ∀ s', rtc (run deps) s s' → nf (run deps) s' →
    num_pending_tasks (pool s') = 0 ∧ finished s' ≡ₚ seq 0 (scheduled s).
Proof.
  intros Hn Hd Hr. pose proof (reachable_inv deps n s Hn Hr) as Hs. split.
  - clear -s. remember (measure s) as k eqn:Hk. revert s Hk. induction k as [k IH] using lt_wf_ind.
    intros s ->. constructor. intros s' Hrun. eapply IH; [by apply run_measure in Hrun|done].
  - intros s' Hrun Hnf.
    assert (sys_inv s' ∧ scheduled s' = scheduled s) as [Hs' Hsch].
    { apply (rtc_invariant (run deps) (λ x, sys_inv x ∧ scheduled x = scheduled s)) with s; [|done|done].
      intros x y [Hx Ex] Hxy. split; [by eapply run_inv|]. rewrite <-Ex. by destruct Hxy. }
    pose proof (si_pool s' Hs') as [Hw Ht]. assert (num_pending_tasks (pool s') = 0) as Hz.
    { pose proof (num_pending_length _ Hw) as Hl. destruct (decide (0 < num_pending_tasks (pool s'))) as [Hp|]; [|lia].
      exfalso. apply Hnf. by apply (run_progress deps s'). }
    split; [done|]. rewrite <-Hsch, <-Ht. rewrite (num_pending_length _ Hw) in Hz.
    destruct (pool s' ≫= pending); [done|simpl in Hz; lia].
Qed.

(** Two workers and two calls that look at the counters at the same time: both
    choose the first worker. The second task waits for the first. *)
Definition after_previous (t : nat) : list nat := match t with O => [] | S t => [t] end.

Lemma two_scheduled : ∃ s, rtc (step after_previous) (initial 2) s ∧ scheduled s = 2%nat ∧ finished s = [] ∧
  m_tasks <$> pool s = [[0%nat; 1%nat]; []] ∧ endings (pool s) = 0%nat.
Proof.
  eexists. split; [|split; [|split; [|split]]].
  - do 2 (eapply rtc_l; [apply step_begin; by repeat constructor|]).
    do 2 (eapply rtc_l; [by eapply (step_look _ _ 0)|]). do 2 (eapply rtc_l; [by eapply (step_look _ _ 1)|]).
    do 2 (eapply rtc_l; [by eapply (step_schedule _ _ 0)|]). apply rtc_refl.
  - reflexivity.
  - reflexivity.
  - reflexivity.
  - reflexivity.
Qed.

Lemma thread_pool_safe_witness :
  ∃ s, rtc (step after_previous) (initial 2) s ∧ num_pending_tasks (pool s) = 2.
Proof.
  destruct two_scheduled as (s & Hr & Hn & Hf & Hq & He). exists s. split; [exact Hr|].
  destruct (thread_pool_safe after_previous 2 s ltac:(lia) Hr) as (_ & _ & _ & Hp & _).
  rewrite Hp, Hn, Hf, He. reflexivity.
Defined.

Lemma thread_pool_drains_witness :
  ∃ s, rtc (step after_previous) (initial 2) s ∧ sn (run after_previous) s.
Proof.
  destruct two_scheduled as (s & Hr & _). exists s. split; [exact Hr|].
  apply (thread_pool_drains after_previous 2 s); [lia| |exact Hr].
  intros [|t] d Hd; [by apply elem_of_nil in Hd|]. apply list_elem_of_singleton in Hd as ->. lia.
Defined.

End ThreadPoolProps.

Module Launch.

(** A [std::array<size_t, 3>]. *)
Record RangeT := { d0 : Z; d1 : Z; d2 : Z }.
Definition range_of (f : nat → Z) : RangeT := {| d0 := f 0%nat; d1 := f 1%nat; d2 := f 2%nat |}.
Definition at_ (r : RangeT) (i : nat) : Z := match i with O => d0 r | 1%nat => d1 r | _ => d2 r end.

Record NDRDescT := { WorkDim : nat; GlobalOffset : RangeT; GlobalSize : RangeT; LocalSize : RangeT }.

(** The constructor; the arguments are arrays of [WorkDim] elements or null. *)
Definition make_ndr (WorkDim : nat) (offset : option (list Z)) (size : list Z) (local : option (list Z)) : NDRDescT :=
  let LocalSize0 := if (0 <? WorkDim)%nat then match local with Some l => nth 0 l 0 | None => 1 end else 0 in
  {| WorkDim := WorkDim;
     GlobalOffset := range_of (λ I, if (I <? WorkDim)%nat
       then match offset with Some o => nth I o 0 | None => 0 end else 0);
     GlobalSize := range_of (λ I, if (I <? WorkDim)%nat then nth I size 0 else 1);
     LocalSize := range_of (λ I, if (I <? WorkDim)%nat
       then match local with Some l => nth I l 0 | None => 1 end
       else if LocalSize0 =? 0 then 0 else 1) |}.

(** [__builtin_umulll_overflow]: the wrapped product and whether it overflowed. *)
Definition umulll_overflow (a b : Z) : bool * Z := (2 ^ 64 <=? a * b, u64 (a * b)).

(** Constraints of a kernel. *)
Record kernel := {
  getReqdWGSize : option RangeT; getMaxWGSize : option RangeT; getMaxLinearWGSize : option Z }.

(** A launch property: whether its [stype] is the launch properties', and flags. *)
Record launch_property := { stype_ok : bool; prop_flags : Z }.

(** The check of the property chain. *)
Definition check_properties (props : list launch_property) : option ur_result_t :=
  if match props with p :: _ => negb (prop_flags p =? 0) | [] => false end
  then Some UR_RESULT_ERROR_UNSUPPORTED_FEATURE
  else if forallb stype_ok props then None else Some UR_RESULT_ERROR_UNSUPPORTED_FEATURE.

(** The loop over the dimensions of the local size, [None] for an error. *)
Fixpoint check_local (dims : list nat) (k : kernel) (local : list Z) (TotalNumWIs : Z) : option Z :=
  match dims with
  | [] => Some TotalNumWIs
  | Dim :: dims =>
      let l := nth Dim local 0 in
      let TotalNumWIs := u64 (TotalNumWIs * l) in
      if match getReqdWGSize k with Some r => negb (l =? at_ r Dim) | None => false end then None else
      if match getMaxWGSize k with Some m => at_ m Dim <? l | None => false end then None else
      check_local dims k local TotalNumWIs
  end.

Definition check_work_group (k : kernel) (workDim : nat) (local : option (list Z)) : option ur_result_t :=
  match local with
  | None => None
  | Some local =>
      match check_local (seq 0 workDim) k local 1 with
      | None => Some UR_RESULT_ERROR_INVALID_WORK_GROUP_SIZE
      | Some TotalNumWIs =>
          if match getMaxLinearWGSize k with Some m => m <? TotalNumWIs | None => false end
          then Some UR_RESULT_ERROR_INVALID_WORK_GROUP_SIZE else None
      end
  end.

(** A scheduled task: the group it starts at with its linear index, and the
    linear index it stops at. *)
Record task := { rangeStart : Z * Z * Z * Z; rangeEnd : Z }.

(** [n mod d] and [n / d] are only evaluated with the group counts non-zero. *)
Fixpoint schedule_loop (threads : nat) (t numWGPerThread remainderWG numWG0 numWG1 : Z)
    (start : Z * Z * Z * Z) : list task :=
  match threads with
  | O => []
  | S threads =>
      let e := u64 (start.2 + numWGPerThread + (if t <? remainderWG then 1 else 0)) in
      if e =? start.2 then [] else
      let rangeEnd := (e `mod` numWG0, (e `div` numWG0) `mod` numWG1, e `div` u64 (numWG0 * numWG1), e) in
      {| rangeStart := start; rangeEnd := e |} ::
        schedule_loop threads (t + 1) numWGPerThread remainderWG numWG0 numWG1 rangeEnd
  end.

(** [urEnqueueKernelLaunch], up to events: an error, or the tasks scheduled;
    division by zero has no defined result. *)
Definition urEnqueueKernelLaunch (numParallelThreads : nat) (hQueue hKernel : bool) (k : kernel)
    (workDim : Z) (offset : option (list Z)) (size : list Z) (local : option (list Z))
    (props : list launch_property) : outcome (ur_result_t + NDRDescT * list task) :=
  match check_properties props with
  | Some e => Ret (inl e)
  | None =>
    if negb hQueue then Ret (inl UR_RESULT_ERROR_INVALID_NULL_HANDLE) else
    if negb hKernel then Ret (inl UR_RESULT_ERROR_INVALID_NULL_HANDLE) else
    if negb (workDim >? 0) then Ret (inl UR_RESULT_ERROR_INVALID_WORK_DIMENSION) else
    if negb (workDim <? 4) then Ret (inl UR_RESULT_ERROR_INVALID_WORK_DIMENSION) else
    let workDim := Z.to_nat workDim in
    if nth 0 size 0 =? 0 then Ret (inl UR_RESULT_ERROR_UNSUPPORTED_FEATURE) else
    match check_work_group k workDim local with
    | Some e => Ret (inl e)
    | None =>
        let ndr := make_ndr workDim offset size local in
        let G := GlobalSize ndr in let L := LocalSize ndr in
        let '(o1, numWI) := umulll_overflow (d0 G) (d1 G) in
        let '(o2, numWI) := umulll_overflow numWI (d2 G) in
        if o1 || o2 then Ret (inl UR_RESULT_ERROR_OUT_OF_RESOURCES) else
        if (d0 L =? 0) || (d1 L =? 0) || (d2 L =? 0) then Undefined else
        let numWG0 := d0 G `div` d0 L in
        let numWG1 := d1 G `div` d1 L in
        let numWG2 := d2 G `div` d2 L in
        let numWG := u64 (u64 (numWG0 * numWG1) * numWG2) in
        if (numParallelThreads =? 0)%nat then Undefined else
        let T := Z.of_nat numParallelThreads in
        let numWGPerThread := numWG `div` T in
        let remainderWG := u64 (numWG - numWGPerThread * T) in
        Ret (inr (ndr, schedule_loop numParallelThreads 0 numWGPerThread remainderWG numWG0 numWG1 (0, 0, 0, 0)))
    end
  end.

(** The groups a task visits, [n] of them from [(g0, g1, g2)]. *)
Fixpoint group_loop (n : nat) (numWG0 numWG1 g0 g1 g2 : Z) : list (Z * Z * Z) :=
  match n with
  | O => []
  | S n =>
      (g0, g1, g2) ::
      (if g0 + 1 =? numWG0 then
         if g1 + 1 =? numWG1 then group_loop n numWG0 numWG1 0 0 (g2 + 1)
         else group_loop n numWG0 numWG1 0 (g1 + 1) g2
       else group_loop n numWG0 numWG1 (g0 + 1) g1 g2)
  end.
Definition task_groups (ndr : NDRDescT) (t : task) : list (Z * Z * Z) :=
  let '(g0, g1, g2, g3) := rangeStart t in
  group_loop (Z.to_nat (rangeEnd t - g3)) (d0 (GlobalSize ndr) `div` d0 (LocalSize ndr))
    (d1 (GlobalSize ndr) `div` d1 (LocalSize ndr)) g0 g1 g2.

(** What [state::update] puts into the state the kernel is called with. *)
Record state := { MWorkGroup_id : Z * Z * Z; MLocal_id : Z * Z * Z; MGlobal_id : Z * Z * Z }.
Definition state_update (ndr : NDRDescT) (g : Z * Z * Z) (l0 l1 l2 : Z) : state :=
  let L := LocalSize ndr in let O := GlobalOffset ndr in
  let '(g0, g1, g2) := g in
  {| MWorkGroup_id := g; MLocal_id := (l0, l1, l2);
     MGlobal_id := (u64 (d0 L * g0 + l0 + d0 O), u64 (d1 L * g1 + l1 + d1 O), u64 (d2 L * g2 + l2 + d2 O)) |}.

(** The three loops over the work-items of a group. *)
Definition group_items (ndr : NDRDescT) (g : Z * Z * Z) : list state :=
  seqZ 0 (d2 (LocalSize ndr)) ≫= λ l2,
  seqZ 0 (d1 (LocalSize ndr)) ≫= λ l1,
  (λ l0, state_update ndr g l0 l1 l2) <$> seqZ 0 (d0 (LocalSize ndr)).

(** The kernel calls of a task, in order. *)
Definition task_items (ndr : NDRDescT) (t : task) : list state := task_groups ndr t ≫= group_items ndr.

End Launch.

Module LaunchFacts.
Import Launch.

(** The group with linear index [n]. *)
Definition coords (W0 W1 n : Z) : Z * Z * Z := (n `mod` W0, (n `div` W0) `mod` W1, n `div` (W0 * W1)).

Lemma succ_mod_div n d :
  0 < d → 0 ≤ n →
  if n `mod` d + 1 =? d then (n + 1) `mod` d = 0 ∧ (n + 1) `div` d = n `div` d + 1
  else (n + 1) `mod` d = n `mod` d + 1 ∧ (n + 1) `div` d = n `div` d.
Proof.
  intros Hd Hn. pose proof (Z.div_mod n d ltac:(lia)) as E. pose proof (Z.mod_pos_bound n d Hd).
  destruct (n `mod` d + 1 =? d) eqn:Eq; bool_to_prop.
  - split; [symmetry; apply (Z.mod_unique_pos _ _ (n `div` d + 1))|
            symmetry; apply (Z.div_unique_pos _ _ _ 0)]; lia.
  - split; [symmetry; apply (Z.mod_unique_pos _ _ (n `div` d))|
            symmetry; apply (Z.div_unique_pos _ _ _ (n `mod` d + 1))]; lia.
Qed.

(** The nested increments of the loop advance to the next linear index. *)
Lemma group_loop_coords W0 W1 k n :
  0 < W0 → 0 < W1 → 0 ≤ n →
  group_loop k W0 W1 (n `mod` W0) ((n `div` W0) `mod` W1) (n `div` (W0 * W1)) =
  coords W0 W1 <$> seqZ n (Z.of_nat k).
Proof.
  intros H0 H1. revert n. induction k as [|k IH]; intros n Hn; [done|].
  rewrite seqZ_cons by lia. rewrite fmap_cons. cbn [group_loop]. f_equal.
  replace (Z.pred (Z.of_nat (S k))) with (Z.of_nat k) by lia. rewrite <-(IH (Z.succ n)) by lia.
  unfold Z.succ. pose proof (succ_mod_div n W0 H0 Hn) as Hs.
  assert (0 ≤ n `div` W0) as Hq by (apply Z.div_pos; lia).
  pose proof (succ_mod_div (n `div` W0) W1 H1 Hq) as Hs1.
  rewrite <-!Z.div_div by lia.
  destruct (n `mod` W0 + 1 =? W0); destruct Hs as [-> ->]; [|done].
  destruct ((n `div` W0) `mod` W1 + 1 =? W1); by destruct Hs1 as [-> ->].
Qed.

(** The linear index thread [t] starts at. *)
Definition first_index (q r t : Z) : Z := t * q + Z.min t r.

Definition of_coords (W0 W1 n : Z) : Z * Z * Z * Z := (coords W0 W1 n, n).

(** The tasks of the threads from [t] on visit the groups from where thread [t]
    starts to the last one, in order, and differ by at most one group. *)
Lemma schedule_loop_spec ndr W0 W1 q r total threads t :
  W0 = d0 (GlobalSize ndr) `div` d0 (LocalSize ndr) →
  W1 = d1 (GlobalSize ndr) `div` d1 (LocalSize ndr) →
  0 ≤ q → 0 ≤ r → 0 ≤ t → (r = 0 ∨ r < t + Z.of_nat threads) →
  (0 < total → 0 < W0 ∧ 0 < W1) → W0 * W1 < 2 ^ 64 → total < 2 ^ 64 → 0 ≤ W0 → 0 ≤ W1 →
  total = first_index q r (t + Z.of_nat threads) →
  let tasks := schedule_loop threads t q r W0 W1 (of_coords W0 W1 (first_index q r t)) in
  tasks ≫= task_groups ndr = coords W0 W1 <$> seqZ (first_index q r t) (total - first_index q r t) ∧
  Forall (λ x, q ≤ rangeEnd x - (rangeStart x).2 ≤ q + 1 ∧ 0 < rangeEnd x - (rangeStart x).2) tasks.
Proof.
  intros E0 E1 Hq Hr. revert t. induction threads as [|n IH]; intros t Ht Hrt Hw Hb Htot HW0 HW1 Hlast; cbn [schedule_loop].
  { rewrite Z.add_0_r in Hlast. subst total. rewrite Z.sub_diag. done. }
  assert (first_index q r (t + 1) = first_index q r t + q + (if t <? r then 1 else 0)) as Hstep.
  { unfold first_index. destruct (t <? r) eqn:E; bool_to_prop; lia. }
  assert (first_index q r (t + 1) ≤ total) as Hle.
  { subst total. unfold first_index. nia. }
  assert (0 ≤ first_index q r t) as Hpos by (unfold first_index; nia).
  cbn [of_coords snd]. rewrite <-Hstep, u64_small by (unfold in_u64; case_match; lia).
  destruct (first_index q r (t + 1) =? first_index q r t) eqn:E; bool_to_prop.
  - assert (q = 0 ∧ r ≤ t) as [-> Hrle] by (destruct (t <? r) eqn:?; bool_to_prop; lia).
    assert (total = first_index 0 r t) as -> by (subst total; unfold first_index; lia).
    rewrite Z.sub_diag. done.
  - assert (first_index q r t < first_index q r (t + 1)) as Hlt by (destruct (t <? r); lia).
    destruct (Hw ltac:(lia)) as [P0 P1]. rewrite u64_small by (unfold in_u64; nia).
    specialize (IH (t + 1) ltac:(lia) ltac:(lia) Hw Hb Htot HW0 HW1 ltac:(rewrite Hlast; f_equal; lia)).
    destruct IH as [IH1 IH2]. unfold of_coords, coords in IH1, IH2. split.
    + rewrite bind_cons, IH1. unfold task_groups at 1. cbn [rangeStart rangeEnd of_coords coords].
      rewrite <-E0, <-E1, group_loop_coords by lia. rewrite Z2Nat.id by lia.
      rewrite <-fmap_app. f_equal.
      replace (total - first_index q r t) with
        ((first_index q r (t + 1) - first_index q r t) + (total - first_index q r (t + 1))) by lia.
      rewrite seqZ_app by lia. do 2 f_equal. lia.
    + constructor; [|exact IH2]. simpl. destruct (t <? r); lia.
Qed.

End LaunchFacts.

Module LaunchProps.
Import Launch LaunchFacts.

Definition array_ok (l : list Z) : Prop := Forall in_u64 l.

Lemma nth_in_u64 i l : array_ok l → in_u64 (nth i l 0).
Proof.
  intros Hl. revert i. induction Hl as [|x l Hx _ IH]; intros [|i]; simpl; auto; unfold in_u64; lia.
Qed.

Definition range_ok (r : RangeT) : Prop := in_u64 (d0 r) ∧ in_u64 (d1 r) ∧ in_u64 (d2 r).

Lemma make_ndr_ok dim offset size local :
  array_ok size → (∀ l, local = Some l → array_ok l) → (∀ o, offset = Some o → array_ok o) →
  let ndr := make_ndr dim offset size local in
  range_ok (GlobalSize ndr) ∧ range_ok (LocalSize ndr) ∧ range_ok (GlobalOffset ndr).
Proof.
  intros Hs Hl Ho ndr. assert (in_u64 0 ∧ in_u64 1) as [H0 H1] by (unfold in_u64; lia).
  split_and!; split_and!; simpl; repeat case_match; subst; auto using nth_in_u64.
Qed.

(** What an accepted launch has computed. *)
Lemma launch_inr T q h k dim offset size local props ndr tasks :
  array_ok size → (∀ l, local = Some l → array_ok l) → (∀ o, offset = Some o → array_ok o) →
  urEnqueueKernelLaunch T q h k dim offset size local props = Ret (inr (ndr, tasks)) →
  let G := GlobalSize ndr in let L := LocalSize ndr in
  let W0 := d0 G `div` d0 L in let W1 := d1 G `div` d1 L in let W2 := d2 G `div` d2 L in
  range_ok G ∧ range_ok L ∧ range_ok (GlobalOffset ndr) ∧
  0 < d0 L ∧ 0 < d1 L ∧ 0 < d2 L ∧ d0 G * d1 G < 2 ^ 64 ∧ d0 G * d1 G * d2 G < 2 ^ 64 ∧ 0 < d0 G ∧ (0 < T)%nat ∧
  tasks = schedule_loop T 0 (u64 (u64 (W0 * W1) * W2) `div` Z.of_nat T)
    (u64 (u64 (u64 (W0 * W1) * W2) - u64 (u64 (W0 * W1) * W2) `div` Z.of_nat T * Z.of_nat T)) W0 W1 (0, 0, 0, 0).
Proof.
  intros Hs Hl Ho. unfold urEnqueueKernelLaunch, umulll_overflow.
  destruct (check_properties props); [done|]. destruct q, h; try done. simpl negb. cbv iota.
  destruct (negb (dim >? 0)) eqn:D0; [done|]. destruct (negb (dim <? 4)) eqn:D1; [done|]. bool_to_prop.
  destruct (nth 0 size 0 =? 0) eqn:E0; [done|]. destruct (check_work_group _ _ _); [done|].
  pose proof (make_ndr_ok (Z.to_nat dim) offset size local Hs Hl Ho) as (HG & HL & HO).
  assert (d0 (GlobalSize (make_ndr (Z.to_nat dim) offset size local)) = nth 0 size 0) as Hg0.
  { simpl. destruct (0 <? Z.to_nat dim)%nat eqn:E; bool_to_prop; [done|lia]. }
  revert HG HL HO Hg0. set (n := make_ndr _ _ _ _). intros HG HL HO Hg0.
  destruct (_ || _) eqn:Hov; [done|]. bool_to_prop. destruct (_ || _) eqn:Hz; [done|]. bool_to_prop.
  destruct (T =? 0)%nat eqn:HT; [done|]. bool_to_prop. intros [= <- <-].
  unfold range_ok, in_u64 in *. pose proof (nth_in_u64 0 size Hs) as Hn0. unfold in_u64 in Hn0.
  rewrite u64_small in * by (unfold in_u64; nia).
  split_and!; try done; try lia.
Qed.

Lemma div_mul_le a b : 0 ≤ a → 0 < b → a `div` b * b ≤ a ∧ 0 ≤ a `div` b ≤ a.
Proof.
  intros Ha Hb. pose proof (Z.div_mod a b ltac:(lia)). pose proof (Z.mod_pos_bound a b Hb).
  pose proof (Z.div_pos a b Ha Hb). nia.
Qed.

Lemma schedule_loop_length n t q r W0 W1 st : (length (schedule_loop n t q r W0 W1 st) ≤ n)%nat.
Proof.
  revert t st. induction n as [|n IH]; intros t st; simpl; [lia|].
  case_match; simpl; [lia|]. apply le_n_S, IH.
Qed.

(** The group counts are bounded by the global sizes. *)
Lemma groups_bound ndr :
  range_ok (GlobalSize ndr) → 0 < d0 (LocalSize ndr) → 0 < d1 (LocalSize ndr) → 0 < d2 (LocalSize ndr) →
  d0 (GlobalSize ndr) * d1 (GlobalSize ndr) < 2 ^ 64 →
  d0 (GlobalSize ndr) * d1 (GlobalSize ndr) * d2 (GlobalSize ndr) < 2 ^ 64 →
  let W0 := d0 (GlobalSize ndr) `div` d0 (LocalSize ndr) in
  let W1 := d1 (GlobalSize ndr) `div` d1 (LocalSize ndr) in
  let W2 := d2 (GlobalSize ndr) `div` d2 (LocalSize ndr) in
  (0 ≤ W0 ∧ 0 ≤ W1 ∧ 0 ≤ W2) ∧ W0 * W1 < 2 ^ 64 ∧ W0 * W1 * W2 < 2 ^ 64.
Proof.
  intros (G0 & G1 & G2) L0 L1 L2 H1 H2 W0 W1 W2. unfold in_u64 in *.
  destruct (div_mul_le (d0 (GlobalSize ndr)) (d0 (LocalSize ndr))) as [_ B0]; [lia..|].
  destruct (div_mul_le (d1 (GlobalSize ndr)) (d1 (LocalSize ndr))) as [_ B1]; [lia..|].
  destruct (div_mul_le (d2 (GlobalSize ndr)) (d2 (LocalSize ndr))) as [_ B2]; [lia..|].
  fold W0 in B0. fold W1 in B1. fold W2 in B2.
  assert (W0 * W1 ≤ d0 (GlobalSize ndr) * d1 (GlobalSize ndr)) by (apply Z.mul_le_mono_nonneg; lia).
  assert (W0 * W1 * W2 ≤ d0 (GlobalSize ndr) * d1 (GlobalSize ndr) * d2 (GlobalSize ndr))
    by (apply Z.mul_le_mono_nonneg; nia). lia.
Qed.

Lemma launch_groups T q h k dim offset size local props ndr tasks :
  array_ok size → (∀ l, local = Some l → array_ok l) → (∀ o, offset = Some o → array_ok o) →
  urEnqueueKernelLaunch T q h k dim offset size local props = Ret (inr (ndr, tasks)) →
  let W0 := d0 (GlobalSize ndr) `div` d0 (LocalSize ndr) in
  let W1 := d1 (GlobalSize ndr) `div` d1 (LocalSize ndr) in
  let W2 := d2 (GlobalSize ndr) `div` d2 (LocalSize ndr) in
  tasks ≫= task_groups ndr = coords W0 W1 <$> seqZ 0 (W0 * W1 * W2) ∧
  Forall (λ t, (W0 * W1 * W2) `div` Z.of_nat T ≤ rangeEnd t - (rangeStart t).2 ≤ (W0 * W1 * W2) `div` Z.of_nat T + 1 ∧
               0 < rangeEnd t - (rangeStart t).2) tasks ∧
  (length tasks ≤ T)%nat.
Proof.
  intros Hs Hl Ho E W0 W1 W2.
  destruct (launch_inr T q h k dim offset size local props ndr tasks Hs Hl Ho E)
    as (HG & HL & _ & L0 & L1 & L2 & Hov1 & Hov & G0 & HT & Ht).
  fold W0 W1 W2 in Ht. unfold range_ok, in_u64 in HG, HL.
  destruct (groups_bound ndr) as (B & B01 & Bt); [done..|]. fold W0 W1 W2 in B, B01, Bt.
  assert (0 ≤ W0 * W1 ∧ 0 ≤ W0 * W1 * W2) as [P1 P2] by (split; repeat apply Z.mul_nonneg_nonneg; lia).
  rewrite (u64_small (W0 * W1)), (u64_small (W0 * W1 * W2)) in Ht by (unfold in_u64; lia).
  set (total := W0 * W1 * W2) in *. set (Z_T := Z.of_nat T) in *.
  pose proof (Z.div_mod total Z_T ltac:(lia)) as Hdm. pose proof (Z.mod_pos_bound total Z_T ltac:(lia)) as Hmod.
  assert (0 ≤ total `div` Z_T) as Hq by (apply Z.div_pos; lia).
  rewrite u64_small in Ht by (unfold in_u64; nia).
  set (q0 := total `div` Z_T) in *. set (r := total - q0 * Z_T) in *.
  destruct (schedule_loop_spec ndr W0 W1 q0 r total T 0) as [H1 H2]; try done; try lia.
  { unfold first_index. unfold r. lia. }
  assert (of_coords W0 W1 (first_index q0 r 0) = (0, 0, 0, 0)) as E0.
  { unfold of_coords, coords. replace (first_index q0 r 0) with 0 by (unfold first_index, r; lia).
    by rewrite !Zdiv_0_l, !Zmod_0_l. }
  rewrite E0, <-Ht in H1, H2. replace (first_index q0 r 0) with 0 in H1 by (unfold first_index, r; lia).
  rewrite Z.sub_0_r in H1. split; [exact H1|]. split; [exact H2|].
  subst tasks. apply schedule_loop_length.
Qed.

(** C31: the work-groups of a launch are partitioned over the threads: the
    ranges of the scheduled tasks, one after the other, visit every group
    exactly once in linear order (dimension 0 fastest), whatever the number of
    threads; each task has the same number of groups as the others or one
    more, none is empty, and there are at most as many tasks as threads. *)
Theorem launch_partitions T q h k dim offset size local props ndr tasks :
  array_ok size → (∀ l, local = Some l → array_ok l) → (∀ o, offset = Some o → array_ok o) →
  urEnqueueKernelLaunch T q h k dim offset size local props = Ret (inr (ndr, tasks)) →
  let W0 := d0 (GlobalSize ndr) `div` d0 (LocalSize ndr) in
  let W1 := d1 (GlobalSize ndr) `div` d1 (LocalSize ndr) in
  let W2 := d2 (GlobalSize ndr) `div` d2 (LocalSize ndr) in
  tasks ≫= task_groups ndr = coords W0 W1 <$> seqZ 0 (W0 * W1 * W2) ∧
  Forall (λ t, (W0 * W1 * W2) `div` Z.of_nat T ≤ rangeEnd t - (rangeStart t).2 ≤ (W0 * W1 * W2) `div` Z.of_nat T + 1 ∧
               0 < rangeEnd t - (rangeStart t).2) tasks ∧
  (length tasks ≤ T)%nat.
Proof. apply launch_groups. Qed.

(** The [n]-th of [d*e] positions, as a quotient and a remainder. *)
Lemma coords_bounds W0 W1 W2 n :
  0 ≤ n < W0 * W1 * W2 → 0 ≤ W0 → 0 ≤ W1 → 0 ≤ W2 →
  let '(g0, g1, g2) := coords W0 W1 n in
  0 ≤ g0 < W0 ∧ 0 ≤ g1 < W1 ∧ 0 ≤ g2 < W2 ∧ n = g0 + W0 * (g1 + W1 * g2).
Proof.
  intros Hn H0 H1 H2. assert (0 < W0 ∧ 0 < W1) as [P0 P1] by nia. unfold coords.
  pose proof (Z.mod_pos_bound n W0 P0). pose proof (Z.mod_pos_bound (n `div` W0) W1 P1).
  pose proof (Z.div_mod n W0 ltac:(lia)) as E1. pose proof (Z.div_mod (n `div` W0) W1 ltac:(lia)) as E2.
  rewrite <-Z.div_div by lia. split_and!; try lia.
  - apply Z.div_pos; [apply Z.div_pos; lia|lia].
  - apply Z.div_lt_upper_bound; [lia|]. apply Z.div_lt_upper_bound; [lia|]. lia.
Qed.

Lemma elem_of_group_items ndr g x :
  x ∈ group_items ndr g ↔
  ∃ l2 l1 l0, 0 ≤ l2 < d2 (LocalSize ndr) ∧ 0 ≤ l1 < d1 (LocalSize ndr) ∧ 0 ≤ l0 < d0 (LocalSize ndr) ∧
    x = state_update ndr g l0 l1 l2.
Proof. apply (elem_of_loop3 (λ l2 l1 l0, state_update ndr g l0 l1 l2)). Qed.

(** The global index of an item of a group within range, without wrap-around. *)
Lemma global_id_small L O G g l :
  in_u64 O → O + G ≤ 2 ^ 64 → 0 < L → 0 ≤ g < G `div` L → 0 ≤ l < L →
  u64 (L * g + l + O) = O + (L * g + l) ∧ L * g + l < G.
Proof.
  unfold in_u64. intros HO HG HL Hg Hl. assert (L * (G `div` L) ≤ G) by (apply Z.mul_div_le; lia).
  assert (L * g + l < G) by nia. split; [|done]. rewrite u64_small by (unfold in_u64; nia). lia.
Qed.

Lemma split_unique L g l g' l' :
  0 ≤ l < L → 0 ≤ l' < L → L * g + l = L * g' + l' → g = g' ∧ l = l'.
Proof.
  intros Hl Hl' E. assert (g = g') as ->; [|lia].
  rewrite (Z.div_unique (L * g + l) L g l) at 1 by lia. rewrite E.
  symmetry. apply (Z.div_unique _ L g' l'); lia.
Qed.

Lemma coords_of W0 W1 g0 g1 g2 :
  0 ≤ g0 < W0 → 0 ≤ g1 < W1 → coords W0 W1 (g0 + W0 * (g1 + W1 * g2)) = (g0, g1, g2).
Proof.
  intros H0 H1. unfold coords. rewrite <-Z.div_div by lia.
  assert ((g0 + W0 * (g1 + W1 * g2)) `div` W0 = g1 + W1 * g2) as ->
    by (symmetry; apply (Z.div_unique _ W0 _ g0); lia).
  assert ((g0 + W0 * (g1 + W1 * g2)) `mod` W0 = g0) as ->
    by (symmetry; apply (Z.mod_unique _ W0 (g1 + W1 * g2)); lia).
  assert ((g1 + W1 * g2) `div` W1 = g2) as -> by (symmetry; apply (Z.div_unique _ W1 _ g1); lia).
  assert ((g1 + W1 * g2) `mod` W1 = g1) as -> by (symmetry; apply (Z.mod_unique _ W1 g2); lia). done.
Qed.

Section items.
Context (ndr : NDRDescT).
Abbreviation G := (GlobalSize ndr).
Abbreviation L := (LocalSize ndr).
Abbreviation O := (GlobalOffset ndr).
Abbreviation W0 := (d0 G `div` d0 L).
Abbreviation W1 := (d1 G `div` d1 L).
Abbreviation W2 := (d2 G `div` d2 L).
Context (L0 : 0 < d0 L) (L1 : 0 < d1 L) (L2 : 0 < d2 L).
Context (P : 0 ≤ W0 ∧ 0 ≤ W1 ∧ 0 ≤ W2).
Context (O_ok : range_ok O).
Context (B0 : d0 O + d0 G ≤ 2 ^ 64) (B1 : d1 O + d1 G ≤ 2 ^ 64) (B2 : d2 O + d2 G ≤ 2 ^ 64).

(** All items of the launch, group after group. *)
Definition all_items : list state := (coords W0 W1 <$> seqZ 0 (W0 * W1 * W2)) ≫= group_items ndr.

Lemma elem_of_all_items x :
  x ∈ all_items ↔ ∃ n l2 l1 l0, 0 ≤ n < W0 * W1 * W2 ∧ 0 ≤ l2 < d2 L ∧ 0 ≤ l1 < d1 L ∧ 0 ≤ l0 < d0 L ∧
    x = state_update ndr (coords W0 W1 n) l0 l1 l2.
Proof.
  unfold all_items. split.
  - intros (g & Hx & (n & -> & Hn)%list_elem_of_fmap)%list_elem_of_bind. apply elem_of_seqZ in Hn.
    apply elem_of_group_items in Hx as (l2 & l1 & l0 & ? & ? & ? & ->). exists n, l2, l1, l0. split_and!; done || lia.
  - intros (n & l2 & l1 & l0 & Hn & ? & ? & ? & ->). apply list_elem_of_bind. exists (coords W0 W1 n). split.
    + apply elem_of_group_items. exists l2, l1, l0. done.
    + apply list_elem_of_fmap. exists n. split; [done|apply elem_of_seqZ; lia].
Qed.

Lemma item_global n l2 l1 l0 :
  0 ≤ n < W0 * W1 * W2 → 0 ≤ l2 < d2 L → 0 ≤ l1 < d1 L → 0 ≤ l0 < d0 L →
  let '(g0, g1, g2) := coords W0 W1 n in
  n = g0 + W0 * (g1 + W1 * g2) ∧
  MGlobal_id (state_update ndr (coords W0 W1 n) l0 l1 l2) =
    (d0 O + (d0 L * g0 + l0), d1 O + (d1 L * g1 + l1), d2 O + (d2 L * g2 + l2)) ∧
  d0 L * g0 + l0 < d0 G ∧ d1 L * g1 + l1 < d1 G ∧ d2 L * g2 + l2 < d2 G ∧ 0 ≤ g0 ∧ 0 ≤ g1 ∧ 0 ≤ g2.
Proof.
  intros Hn H2 H1 H0. destruct P as (P0 & P1 & P2), O_ok as (O0 & O1 & O2).
  pose proof (coords_bounds W0 W1 W2 n Hn P0 P1 P2) as Hc.
  destruct (coords W0 W1 n) as [[g0 g1] g2]. destruct Hc as (C0 & C1 & C2 & En).
  destruct (global_id_small (d0 L) (d0 O) (d0 G) g0 l0) as [E0 F0]; [done..|].
  destruct (global_id_small (d1 L) (d1 O) (d1 G) g1 l1) as [E1 F1]; [done..|].
  destruct (global_id_small (d2 L) (d2 O) (d2 G) g2 l2) as [E2 F2]; [done..|].
  split; [done|]. split; [|lia]. unfold state_update. cbn [MGlobal_id]. by rewrite E0, E1, E2.
Qed.

Lemma all_items_NoDup : NoDup all_items.
Proof.
  destruct P as (P0 & P1 & P2). unfold all_items. apply NoDup_bind.
  - intros g g' x _ _ (? & ? & ? & _ & _ & _ & ->)%elem_of_group_items (? & ? & ? & _ & _ & _ & E)%elem_of_group_items.
    apply (f_equal MWorkGroup_id) in E. by destruct g as [[??]?], g' as [[??]?].
  - intros [[g0 g1] g2] _. apply (NoDup_loop3 (λ l2 l1 l0, state_update ndr (g0, g1, g2) l0 l1 l2)).
    intros i j k i' j' k' _ _ _ _ _ _ E. apply (f_equal MLocal_id) in E. simpl in E. by simplify_eq.
  - apply NoDup_fmap_2_strong; [|apply NoDup_seqZ]. intros n n' Hn Hn' E. apply elem_of_seqZ in Hn, Hn'.
    pose proof (coords_bounds W0 W1 W2 n ltac:(lia) P0 P1 P2) as Hc.
    pose proof (coords_bounds W0 W1 W2 n' ltac:(lia) P0 P1 P2) as Hc'.
    rewrite E in Hc. destruct (coords W0 W1 n') as [[g0 g1] g2]. lia.
Qed.

Lemma global_ids_NoDup : NoDup (MGlobal_id <$> all_items).
Proof.
  apply NoDup_fmap_2_strong; [|apply all_items_NoDup].
  intros x y (n & l2 & l1 & l0 & Hn & H2 & H1 & H0 & ->)%elem_of_all_items
    (n' & k2 & k1 & k0 & Hn' & K2 & K1 & K0 & ->)%elem_of_all_items E.
  pose proof (item_global n l2 l1 l0 Hn H2 H1 H0) as Hi.
  pose proof (item_global n' k2 k1 k0 Hn' K2 K1 K0) as Hi'.
  destruct (coords W0 W1 n) as [[g0 g1] g2], (coords W0 W1 n') as [[h0 h1] h2].
  destruct Hi as (_ & E1 & _), Hi' as (_ & E2 & _). rewrite E1, E2 in E. injection E as F0 F1 F2.
  destruct (split_unique (d0 L) g0 l0 h0 k0) as [-> ->]; [lia..|].
  destruct (split_unique (d1 L) g1 l1 h1 k1) as [-> ->]; [lia..|].
  destruct (split_unique (d2 L) g2 l2 h2 k2) as [-> ->]; [lia..|]. done.
Qed.

Lemma global_ids_range i0 i1 i2 :
  (d0 L | d0 G) → (d1 L | d1 G) → (d2 L | d2 G) →
  (i0, i1, i2) ∈ (MGlobal_id <$> all_items) ↔
    d0 O ≤ i0 < d0 O + d0 G ∧ d1 O ≤ i1 < d1 O + d1 G ∧ d2 O ≤ i2 < d2 O + d2 G.
Proof.
  intros D0 D1 D2. split.
  - intros (x & E & (n & l2 & l1 & l0 & Hn & H2 & H1 & H0 & ->)%elem_of_all_items)%list_elem_of_fmap.
    pose proof (item_global n l2 l1 l0 Hn H2 H1 H0) as Hi. destruct (coords W0 W1 n) as [[g0 g1] g2].
    destruct Hi as (_ & Ei & ? & ? & ? & ? & ? & ?). rewrite Ei in E. injection E as -> -> ->. nia.
  - intros (R0 & R1 & R2).
    assert (Hsplit : ∀ d g o i, 0 < d → (d | g) → o ≤ i < o + g → 0 ≤ (i - o) `div` d < g `div` d ∧
      0 ≤ (i - o) `mod` d < d ∧ d * ((i - o) `div` d) + (i - o) `mod` d = i - o).
    { intros d g o i Hd [w ->] Hi. rewrite Z.div_mul by lia. split_and!.
      - apply Z.div_pos; lia.
      - apply Z.div_lt_upper_bound; lia.
      - by apply Z.mod_pos_bound.
      - by apply Z.mod_pos_bound.
      - symmetry. apply Z.div_mod. lia. }
    destruct (Hsplit (d0 L) (d0 G) (d0 O) i0 L0 D0 R0) as (A0 & M0 & S0).
    destruct (Hsplit (d1 L) (d1 G) (d1 O) i1 L1 D1 R1) as (A1 & M1 & S1).
    destruct (Hsplit (d2 L) (d2 G) (d2 O) i2 L2 D2 R2) as (A2 & M2 & S2). clear Hsplit.
    set (g0 := (i0 - d0 O) `div` d0 L) in *. set (g1 := (i1 - d1 O) `div` d1 L) in *.
    set (g2 := (i2 - d2 O) `div` d2 L) in *.
    set (n := g0 + W0 * (g1 + W1 * g2)).
    assert (0 ≤ n < W0 * W1 * W2) as Hn.
    { unfold n. generalize dependent W0; intros w0; generalize dependent W1; intros w1; generalize dependent W2; intros w2.
      intros. split; [nia|]. assert (g1 + w1 * g2 + 1 ≤ w1 * w2) by nia. nia. }
    apply list_elem_of_fmap.
    exists (state_update ndr (coords W0 W1 n) ((i0 - d0 O) `mod` d0 L) ((i1 - d1 O) `mod` d1 L) ((i2 - d2 O) `mod` d2 L)).
    split; [|apply elem_of_all_items; eexists _, _, _, _; done].
    pose proof (item_global n _ _ _ Hn M2 M1 M0) as Hi. 
    assert (coords W0 W1 n = (g0, g1, g2)) as Ec by (by apply coords_of). rewrite Ec in Hi |- *.
    destruct Hi as (_ & Ei & _). rewrite Ei. repeat f_equal; lia.
Qed.
End items.

(** C30: every work-item runs exactly once: when the local sizes divide the
    global sizes and no global index overflows, the kernel calls of all
    scheduled tasks together have pairwise different global indices, and these
    are exactly the indices of the range, offset included. *)
Theorem launch_covers_items T q h k dim offset size local props ndr tasks :
  array_ok size → (∀ l, local = Some l → array_ok l) → (∀ o, offset = Some o → array_ok o) →
  urEnqueueKernelLaunch T q h k dim offset size local props = Ret (inr (ndr, tasks)) →
  let G := GlobalSize ndr in let L := LocalSize ndr in let O := GlobalOffset ndr in
  (d0 L | d0 G) → (d1 L | d1 G) → (d2 L | d2 G) →
  d0 O + d0 G ≤ 2 ^ 64 → d1 O + d1 G ≤ 2 ^ 64 → d2 O + d2 G ≤ 2 ^ 64 →
  NoDup (MGlobal_id <$> (tasks ≫= task_items ndr)) ∧
  ∀ i0 i1 i2, (i0, i1, i2) ∈ (MGlobal_id <$> (tasks ≫= task_items ndr)) ↔
    d0 O ≤ i0 < d0 O + d0 G ∧ d1 O ≤ i1 < d1 O + d1 G ∧ d2 O ≤ i2 < d2 O + d2 G.
Proof.
  intros Hs Hl Ho E G L O D0 D1 D2 B0 B1 B2.
  destruct (launch_inr T q h k dim offset size local props ndr tasks Hs Hl Ho E)
    as (HG & HL & HO & L0 & L1 & L2 & Hov1 & Hov & G0 & HT & Ht).
  destruct (launch_groups T q h k dim offset size local props ndr tasks Hs Hl Ho E) as (Hg & _ & _).
  destruct (groups_bound ndr) as (B & _ & _); [done..|].
  change (tasks ≫= task_items ndr) with (tasks ≫= λ t, task_groups ndr t ≫= group_items ndr).
  rewrite <-bind_bind, Hg. split; [by apply global_ids_NoDup|].
  intros i0 i1 i2. by apply global_ids_range.
Qed.

(** the work-group checks of a launch: without a local size nothing is
    checked; with one, the launch passes exactly when every dimension equals
    the required size and does not exceed the maximal one, where the kernel
    has them, and the product of the dimensions, as a 64-bit number, does not
    exceed the maximal linear size; otherwise the error is
    INVALID_WORK_GROUP_SIZE. *)
Theorem check_work_group_spec k dim local :
  (check_work_group k dim None = None) ∧
  (check_work_group k dim (Some local) = None ↔
    (∀ i, (i < dim)%nat →
      (∀ r, getReqdWGSize k = Some r → nth i local 0 = at_ r i) ∧
      (∀ m, getMaxWGSize k = Some m → nth i local 0 ≤ at_ m i)) ∧
    (∀ m, getMaxLinearWGSize k = Some m →
      foldl (λ n i, u64 (n * nth i local 0)) 1 (seq 0 dim) ≤ m)) ∧
  (check_work_group k dim (Some local) = None ∨
   check_work_group k dim (Some local) = Some UR_RESULT_ERROR_INVALID_WORK_GROUP_SIZE).
Proof.
  split; [done|]. unfold check_work_group.
  assert (Hc : ∀ dims n,
    match check_local dims k local n with
    | Some t => t = foldl (λ n i, u64 (n * nth i local 0)) n dims ∧
        ∀ i, i ∈ dims → (∀ r, getReqdWGSize k = Some r → nth i local 0 = at_ r i) ∧
                        (∀ m, getMaxWGSize k = Some m → nth i local 0 ≤ at_ m i)
    | None => ∃ i, i ∈ dims ∧ ¬ ((∀ r, getReqdWGSize k = Some r → nth i local 0 = at_ r i) ∧
                        (∀ m, getMaxWGSize k = Some m → nth i local 0 ≤ at_ m i))
    end).
  { induction dims as [|x dims IH]; intros n; cbn [check_local foldl]; [split; [done|by intros ? ?%elem_of_nil]|].
    destruct (match getReqdWGSize k with Some r => _ | None => false end) eqn:E1.
    { exists x. split; [left|]. intros [Hr _]. destruct (getReqdWGSize k) as [r|]; [|done].
      rewrite (Hr r eq_refl), Z.eqb_refl in E1. done. }
    destruct (match getMaxWGSize k with Some m => _ | None => false end) eqn:E2.
    { exists x. split; [left|]. intros [_ Hm]. destruct (getMaxWGSize k) as [m|]; [|done].
      specialize (Hm m eq_refl). bool_to_prop. lia. }
    specialize (IH (u64 (n * nth x local 0))). destruct (check_local _ _ _ _).
    - destruct IH as [-> IH]. split; [done|]. intros i [->|Hi]%elem_of_cons; [|by apply IH]. split.
      + intros r Hr. rewrite Hr in E1. by bool_to_prop.
      + intros m Hm. rewrite Hm in E2. by bool_to_prop.
    - destruct IH as (i & Hi & Hn). exists i. split; [by right|done]. }
  specialize (Hc (seq 0 dim) 1). destruct (check_local _ _ _ _) as [t|].
  - destruct Hc as [-> Hc]. split.
    + destruct (getMaxLinearWGSize k) as [m|]; [destruct (m <? _) eqn:E; bool_to_prop|]; split; try done.
      * intros [_ Hm]. specialize (Hm m eq_refl). lia.
      * intros _. split; [intros i Hi; apply Hc, elem_of_seq; lia|]. by intros m' [= <-].
      * intros _. split; [intros i Hi; apply Hc, elem_of_seq; lia|]. done.
    + destruct (match getMaxLinearWGSize k with Some m => _ | None => false end); auto.
  - split; [|by right]. split; [done|]. intros [Hd _]. destruct Hc as (i & Hi & Hn).
    apply elem_of_seq in Hi. exfalso. apply Hn, Hd. lia.
Qed.

(** A 2x3 grid of groups of 4x1 items on four threads. *)
Definition free_kernel : kernel :=
  {| getReqdWGSize := None; getMaxWGSize := None; getMaxLinearWGSize := Some 1024 |}.
Definition example_launch :=
  urEnqueueKernelLaunch 4 true true free_kernel 2 (Some [10; 0]) [8; 3] (Some [4; 1]) [].

Lemma example_arrays : array_ok [8; 3] ∧ (∀ l, Some [4; 1] = Some l → array_ok l) ∧
  (∀ o, Some [10; 0] = Some o → array_ok o).
Proof.
  split_and!; [|intros l [= <-]|intros l [= <-]]; repeat constructor; by unfold in_u64.
Qed.

Lemma launch_partitions_witness :
  ∃ ndr tasks, example_launch = Ret (inr (ndr, tasks)) ∧
    tasks ≫= task_groups ndr = [(0, 0, 0); (1, 0, 0); (0, 1, 0); (1, 1, 0); (0, 2, 0); (1, 2, 0)] ∧
    (length tasks ≤ 4)%nat.
Proof.
  destruct example_arrays as (Hs & Hl & Ho).
  destruct example_launch as [[e|[ndr tasks]]| |] eqn:E; try (vm_compute in E; discriminate E).
  destruct (launch_partitions 4 true true free_kernel 2 _ _ _ [] ndr tasks Hs Hl Ho E) as (Hg & _ & Hn).
  exists ndr, tasks. split; [reflexivity|]. split; [|exact Hn]. rewrite Hg.
  vm_compute in E. injection E as <- _. reflexivity.
Defined.

Lemma launch_covers_items_witness :
  ∃ ndr tasks, example_launch = Ret (inr (ndr, tasks)) ∧
    (17, 2, 0) ∈ (MGlobal_id <$> (tasks ≫= task_items ndr)).
Proof.
  destruct example_arrays as (Hs & Hl & Ho).
  destruct example_launch as [[e|[ndr tasks]]| |] eqn:E; try (vm_compute in E; discriminate E).
  exists ndr, tasks. split; [reflexivity|].
  assert (ndr = make_ndr 2 (Some [10; 0]) [8; 3] (Some [4; 1])) as -> by (vm_compute in E; by injection E as <- _).
  apply (launch_covers_items 4 true true free_kernel 2 _ _ _ [] _ tasks Hs Hl Ho E);
    [by exists 2|by exists 3|by exists 1|by vm_compute..].
Defined.

Lemma check_work_group_spec_witness :
  check_work_group free_kernel 2 (Some [4; 1]) = None ∧
  foldl (λ n i, u64 (n * nth i [4; 1] 0)) 1 (seq 0 2) ≤ 1024.
Proof.
  split; [reflexivity|].
  destruct (check_work_group_spec free_kernel 2 [4; 1]) as (_ & Hc & _).
  apply (proj2 (proj1 Hc eq_refl) 1024 eq_refl).
Defined.

(** A local size whose product wraps to zero passes the linear check. *)
Example linear_size_wraps :
  check_work_group free_kernel 2 (Some [2 ^ 32; 2 ^ 32]) = None.
Proof. by vm_compute. Qed.

(** With a local size that does not divide the global one, the launch succeeds
    and the last work-items do not run. *)
Example remainder_items_dropped :
  match urEnqueueKernelLaunch 4 true true free_kernel 1 None [5] (Some [2]) [] with
  | Ret (inr (ndr, tasks)) => length (tasks ≫= task_items ndr) = 4%nat
  | _ => False
  end.
Proof. by vm_compute. Qed.

End LaunchProps.

(** ** Rectangular copies *)

Module Rect.

Record ur_rect := { x : Z; y : Z; z : Z }.
Record ur_rect_region_t := { width : Z; height : Z; depth : Z }.

Definition mem : Type := Z → Z.
Definition store (m : mem) (a v : Z) : mem := λ b, if b =? a then v else m b.

(** [(d + z) * SlicePitch + (h + y) * RowPitch + w + x] *)
Definition origin (o : ur_rect) (RowPitch SlicePitch : Z) (p : Z * Z * Z) : Z :=
  let '(w, h, d) := p in u64 ((d + z o) * SlicePitch + (h + y o) * RowPitch + w + x o).

Definition row_pitch (pitch : Z) (r : ur_rect_region_t) : Z := if pitch =? 0 then width r else pitch.
Definition slice_pitch (pitch row : Z) (r : ur_rect_region_t) : Z := if pitch =? 0 then u64 (row * height r) else pitch.

(** The points of the three loops, in order. *)
Definition points (r : ur_rect_region_t) : list (Z * Z * Z) :=
  seqZ 0 (width r) ≫= λ w, seqZ 0 (height r) ≫= λ h, (λ d, (w, h, d)) <$> seqZ 0 (depth r).

Definition copy (to from : Z * Z * Z → Z) (dst src : mem) (ps : list (Z * Z * Z)) : mem :=
  foldl (λ m p, store m (to p) (src (from p))) dst ps.

(** [MemBufferReadWriteRect_impl]: the buffer and host memories afterwards. *)
Definition MemBufferReadWriteRect_impl (IsRead : bool) (BufferOffset HostOffset : ur_rect)
    (region : ur_rect_region_t) (BufferRowPitch BufferSlicePitch HostRowPitch HostSlicePitch : Z)
    (Buff DstMem : mem) : mem * mem :=
  let BufferRowPitch := row_pitch BufferRowPitch region in
  let BufferSlicePitch := slice_pitch BufferSlicePitch BufferRowPitch region in
  let HostRowPitch := row_pitch HostRowPitch region in
  let HostSlicePitch := slice_pitch HostSlicePitch HostRowPitch region in
  let buff_origin := origin BufferOffset BufferRowPitch BufferSlicePitch in
  let host_origin := origin HostOffset HostRowPitch HostSlicePitch in
  if IsRead then (Buff, copy host_origin buff_origin DstMem Buff (points region))
  else (copy buff_origin host_origin Buff DstMem (points region), DstMem).

End Rect.

Module RectProps.
Import Rect.

Lemma elem_of_points r w h d :
  (w, h, d) ∈ points r ↔ 0 ≤ w < width r ∧ 0 ≤ h < height r ∧ 0 ≤ d < depth r.
Proof.
  unfold points. rewrite (elem_of_loop3 (λ w h d, (w, h, d))). split.
  - by intros (? & ? & ? & ? & ? & ? & [= -> -> ->]).
  - intros (? & ? & ?). by exists w, h, d.
Qed.

Lemma copy_outside to from dst src ps a :
  (∀ p, p ∈ ps → to p ≠ a) → copy to from dst src ps a = dst a.
Proof.
  unfold copy. revert dst. induction ps as [|p ps IH]; intros dst Hp; simpl; [done|].
  rewrite IH by (intros q Hq; apply Hp; by right). unfold store.
  rewrite (proj2 (Z.eqb_neq _ _)); [done|]. intros ->. by apply (Hp p); [left|].
Qed.

Lemma copy_inside to from dst src ps p :
  (∀ p q, p ∈ ps → q ∈ ps → to p = to q → p = q) → p ∈ ps →
  copy to from dst src ps (to p) = src (from p).
Proof.
  unfold copy. revert dst. induction ps as [|q ps IH]; intros dst Hinj Hp; [by apply elem_of_nil in Hp|].
  simpl. destruct (decide (p ∈ ps)) as [Hin|Hin].
  - apply IH; [|done]. intros a b Ha Hb. apply Hinj; by right.
  - apply elem_of_cons in Hp as [->|]; [|done].
    change (copy to from (store dst (to q) (src (from q))) src ps (to q) = src (from q)).
    rewrite copy_outside; [unfold store; by rewrite Z.eqb_refl|].
    intros a Ha E. apply Hin. rewrite <-(Hinj a q); [done|by right|left|done].
Qed.

(** Rows do not overlap, slices do not overlap, and the last byte of the region
    has a 64-bit address. *)
Record layout_ok (o : ur_rect) (row slice : Z) (r : ur_rect_region_t) : Prop := {
  lo_offset : 0 ≤ x o ∧ 0 ≤ y o ∧ 0 ≤ z o;
  lo_row : width r ≤ row; lo_slice : row * height r ≤ slice;
  lo_bound : (depth r + z o) * slice + (height r + y o) * row + width r + x o < 2 ^ 64;
}.

Lemma origin_inj o row slice r p q :
  layout_ok o row slice r → p ∈ points r → q ∈ points r →
  origin o row slice p = origin o row slice q → p = q.
Proof.
  intros [(Ox & Oy & Oz) Hrow Hsl Hb]. destruct p as [[w h] d], q as [[w' h'] d']. rewrite !elem_of_points.
  intros (Hw & Hh & Hd) (Hw' & Hh' & Hd'). unfold origin.
  assert (0 ≤ row) as Hr0 by lia. assert (0 ≤ slice) as Hs0 by nia.
  assert (∀ a b c, 0 ≤ a < width r → 0 ≤ b < height r → 0 ≤ c < depth r →
    in_u64 ((c + z o) * slice + (b + y o) * row + a + x o)) as Hin.
  { intros a b c Ha Hb' Hc. unfold in_u64.
    assert ((c + z o) * slice ≤ (depth r + z o) * slice) by (apply Z.mul_le_mono_nonneg_r; lia).
    assert ((b + y o) * row ≤ (height r + y o) * row) by (apply Z.mul_le_mono_nonneg_r; lia).
    assert (0 ≤ (c + z o) * slice) by (apply Z.mul_nonneg_nonneg; lia).
    assert (0 ≤ (b + y o) * row) by (apply Z.mul_nonneg_nonneg; lia). lia. }
  rewrite !u64_small by (by apply Hin). intros E.
  assert (slice * d + (row * h + w) = slice * d' + (row * h' + w')) as E1 by lia.
  assert (∀ a b, 0 ≤ a < width r → 0 ≤ b < height r → 0 ≤ row * b + a < slice) as Hlt.
  { intros a b Ha Hb'. assert (row * (b + 1) ≤ row * height r) by (apply Z.mul_le_mono_nonneg_l; lia).
    assert (0 ≤ row * b) by (apply Z.mul_nonneg_nonneg; lia). lia. }
  destruct (LaunchProps.split_unique slice d (row * h + w) d' (row * h' + w')) as [-> E2]; [by apply Hlt..|done|].
  destruct (LaunchProps.split_unique row h w h' w') as [-> ->]; [lia..|]. done.
Qed.

(** the rectangular copy: when the rows and slices of the destination do not
    overlap and it fits the address space, every byte of the region is the
    source's byte at the corresponding place, whatever the layout of the
    source, every other byte of the destination is unchanged, and so is the
    source; for reads the host is the destination, for writes the buffer. *)
Theorem rect_copy_spec (IsRead : bool) bo ho region brp bsp hrp hsp buff host :
  let brp' := row_pitch brp region in let bsp' := slice_pitch bsp brp' region in
  let hrp' := row_pitch hrp region in let hsp' := slice_pitch hsp hrp' region in
  let to := if IsRead then origin ho hrp' hsp' else origin bo brp' bsp' in
  let from := if IsRead then origin bo brp' bsp' else origin ho hrp' hsp' in
  let '(buff', host') := MemBufferReadWriteRect_impl IsRead bo ho region brp bsp hrp hsp buff host in
  let '(src, src', dst, dst') := if IsRead then (buff, buff', host, host') else (host, host', buff, buff') in
  (if IsRead then layout_ok ho hrp' hsp' region else layout_ok bo brp' bsp' region) →
  src' = src ∧
  (∀ w h d, 0 ≤ w < width region → 0 ≤ h < height region → 0 ≤ d < depth region →
     dst' (to (w, h, d)) = src (from (w, h, d))) ∧
  (∀ a, (∀ w h d, 0 ≤ w < width region → 0 ≤ h < height region → 0 ≤ d < depth region → to (w, h, d) ≠ a) →
     dst' a = dst a).
Proof.
  intros brp' bsp' hrp' hsp' to from. unfold MemBufferReadWriteRect_impl.
  assert (∀ o row slice f dst src, layout_ok o row slice region →
    (∀ w h d, 0 ≤ w < width region → 0 ≤ h < height region → 0 ≤ d < depth region →
      copy (origin o row slice) f dst src (points region) (origin o row slice (w, h, d)) = src (f (w, h, d))) ∧
    (∀ a, (∀ w h d, 0 ≤ w < width region → 0 ≤ h < height region → 0 ≤ d < depth region →
      origin o row slice (w, h, d) ≠ a) → copy (origin o row slice) f dst src (points region) a = dst a)) as Hc.
  { intros o row slice f dst src Hlo. split.
    - intros w h d Hw Hh Hd. apply copy_inside; [|by apply elem_of_points]. intros p q. by apply origin_inj.
    - intros a Ha. apply copy_outside. intros [[w h] d] (? & ? & ?)%elem_of_points. by apply Ha. }
  destruct IsRead; intros Hlo; (split; [done|]); by apply Hc.
Qed.

(** A read of a 2x2x1 region of a buffer of rows of four bytes into packed rows. *)
Lemma rect_copy_spec_witness :
  let region := {| width := 2; height := 2; depth := 1 |} in
  let zero := {| x := 0; y := 0; z := 0 |} in
  let o := {| x := 1; y := 1; z := 0 |} in
  (MemBufferReadWriteRect_impl true o zero region 4 0 0 0 (λ a, 100 + a) (λ _, 0)).2 3 = 110.
Proof.
  intros region zero o.
  destruct (rect_copy_spec true o zero region 4 0 0 0 (λ a, 100 + a) (λ _, 0)) as (_ & Hin & _).
  { by split; vm_compute. }
  exact (Hin 1 1 0 ltac:(by vm_compute) ltac:(by vm_compute) ltac:(by vm_compute)).
Defined.

End RectProps.
