(* ===== verification/SanitizerCommon.v ===== *)
(** * Address arithmetic and options of the sanitizer layer
    (loader/layers/sanitizer/sanitizer_common)

    Module [Arith] holds the rounding functions of sanitizer_common.hpp on
    64-bit addresses, with the power-of-two rounding by bit smearing; [Options]
    the parsing of the option variable (sanitizer_options.cpp and
    sanitizer_options_impl.hpp) on top of [Env.getenv_to_map].  A failed [assert]
    and undefined behaviour are [Undefined], [die] is [Throw exn_other]. *)
From stdpp Require Import base numbers list strings.
From Stdlib Require Import Ascii.
From S2P Require Import Prelude CString UrUtil.
Local Open Scope Z_scope.
Local Open Scope ur_scope.

Module Arith.

Definition lnot64 (x : Z) : Z := SIZE_MAX - x.

Definition IsPowerOfTwo (x : Z) : bool := (Z.land x (x ⊖ 1) =? 0) && negb (x =? 0).

Definition smear (w x : Z) : Z := Z.lor x (Z.shiftr x w).

Definition RoundUpToPowerOfTwo_body (x : Z) : Z :=
  let x := x ⊖ 1 in
  let x := smear 1 x in
  let x := smear 2 x in
  let x := smear 4 x in
  let x := smear 8 x in
  let x := smear 16 x in
  let x := smear 32 x in
  x ⊕ 1.
Definition RoundUpToPowerOfTwo (x : Z) : outcome Z :=
  if x =? 0 then Ret 1
  else let x := RoundUpToPowerOfTwo_body x in
       if IsPowerOfTwo x then Ret x else Undefined.

Definition RoundUpTo (Size boundary : Z) : Z :=
  Z.land (Size ⊕ boundary ⊖ 1) (lnot64 (boundary ⊖ 1)).
Definition RoundDownTo (x boundary : Z) : Z := Z.land x (lnot64 (boundary ⊖ 1)).
Definition IsAligned (a alignment : Z) : bool := Z.land a (alignment ⊖ 1) =? 0.

(** [16 << rz_log] is a shift of an [int]. *)
Definition RZLog2Size (rz_log : Z) : outcome Z :=
  if rz_log <? 27 then Ret (Z.shiftl 16 rz_log) else Undefined.

(** [log2] of a power of two is exact. *)
Definition RZSize2Log (rz_size : Z) : outcome Z :=
  if (16 <=? rz_size) && IsPowerOfTwo rz_size then
    let res := Z.log2 rz_size - 4 in
    size ← RZLog2Size res;
    if rz_size =? size then Ret res else Undefined
  else Undefined.

Definition rz_log (user_requested_size : Z) : Z :=
  if user_requested_size <=? 64 - 16 then 0
  else if user_requested_size <=? 128 - 32 then 1
  else if user_requested_size <=? 512 - 64 then 2
  else if user_requested_size <=? 4096 - 128 then 3
  else if user_requested_size <=? 2 ^ 14 - 256 then 4
  else if user_requested_size <=? 2 ^ 15 - 512 then 5
  else if user_requested_size <=? 2 ^ 16 - 1024 then 6
  else 7.
Definition ComputeRZLog (user_requested_size min_size : Z) : outcome Z :=
  min_log ← RZSize2Log min_size;
  Ret (rz_log user_requested_size `max` min_log).

Definition AlignTo (Value Align : Z) : outcome Z :=
  if Align =? 0 then Undefined else Ret (u64 ((Value ⊕ Align ⊖ 1) / Align * Align)).

Definition local_redzone_size (Size : Z) : Z :=
  if Size <=? 4 then 16
  else if Size <=? 16 then 32
  else if Size <=? 128 then Size ⊕ 32
  else if Size <=? 512 then Size ⊕ 64
  else if Size <=? 4096 then Size ⊕ 128
  else Size ⊕ 256.
Definition GetSizeAndRedzoneSizeForLocal (Size Granularity Alignment : Z) : outcome Z :=
  AlignTo (local_redzone_size Size `max` (2 ⊗ Granularity)) Alignment.

End Arith.

Module Options.
Import Env Arith.

(** [std::stoul]: blanks, an optional sign, the longest run of digits; a minus
    sign negates the value modulo [2^64]. *)
Definition stoul (s : cstr) : outcome Z :=
  let s := skip_spaces s in
  let '(neg, s) := match s with
    | c :: s' => if decide (c = "-"%char) then (true, s')
                 else if decide (c = "+"%char) then (false, s') else (false, s)
    | [] => (false, []) end in
  let ds := take_digits s in
  if decide (ds = []) then Throw std_invalid_argument
  else if digits_value ds <=? SIZE_MAX then
    Ret (if neg : bool then u64 (- digits_value ds) else digits_value ds)
  else Throw std_out_of_range.

Definition die {A} : outcome A := Throw exn_other.

(** [KV->second.front()], undefined on an empty vector *)
Definition front (v : list cstr) : outcome cstr :=
  match v with x :: _ => Ret x | [] => Undefined end.

Definition IsTrue (s : cstr) : bool := bool_decide (s = lit "1" ∨ s = lit "true").
Definition IsFalse (s : cstr) : bool := bool_decide (s = lit "0" ∨ s = lit "false").

Definition ParseBool (map : EnvVarMap) (Name : cstr) (Result : bool) : outcome bool :=
  match map_find Name map with
  | None => Ret Result
  | Some v =>
      ValueStr ← front v;
      let ValueStr := tolower <$> ValueStr in
      if IsTrue ValueStr then Ret true
      else if IsFalse ValueStr then Ret false
      else die
  end.

Definition starts_with_minus (s : cstr) : bool :=
  match s with c :: _ => bool_decide (c = "-"%char) | [] => false end.

Definition ParseUint64 (map : EnvVarMap) (Name : cstr) (Result Min Max : Z) : outcome Z :=
  match map_find Name map with
  | None => Ret Result
  | Some v =>
      ValueStr ← front v;
      try_catch
        (if starts_with_minus ValueStr then Throw std_out_of_range
         else Value ← stoul ValueStr;
              Ret (if Value <? Min then Min else if Max <? Value then Max else Value))
        (λ _, die)
  end.

Record SanitizerOptions := {
  Debug : bool; MinRZSize : Z; MaxQuarantineSizeMB : Z; DetectLocals : bool;
  DetectPrivates : bool; PrintStats : bool; DetectKernelArguments : bool;
  DetectLeaks : bool; HaltOnError : bool; Recover : bool;
  MsanCheckHostAndSharedUSM : bool
}.

Definition defaults : SanitizerOptions := {|
  Debug := false; MinRZSize := 16; MaxQuarantineSizeMB := 8; DetectLocals := true;
  DetectPrivates := true; PrintStats := false; DetectKernelArguments := true;
  DetectLeaks := true; HaltOnError := true; Recover := false;
  MsanCheckHostAndSharedUSM := true |}.

Definition Parse (map : EnvVarMap) (o : SanitizerOptions) : outcome SanitizerOptions :=
  debug ← ParseBool map (lit "debug") (Debug o);
  args ← ParseBool map (lit "detect_kernel_arguments") (DetectKernelArguments o);
  locals ← ParseBool map (lit "detect_locals") (DetectLocals o);
  privates ← ParseBool map (lit "detect_privates") (DetectPrivates o);
  stats ← ParseBool map (lit "print_stats") (PrintStats o);
  leaks ← ParseBool map (lit "detect_leaks") (DetectLeaks o);
  halt ← ParseBool map (lit "halt_on_error") (HaltOnError o);
  recover ← ParseBool map (lit "recover") (Recover o);
  msan ← ParseBool map (lit "msan_check_host_and_shared_usm") (MsanCheckHostAndSharedUSM o);
  quarantine ← ParseUint64 map (lit "quarantine_size_mb") (MaxQuarantineSizeMB o) 0 UINT32_MAX;
  redzone ← ParseUint64 map (lit "redzone") (MinRZSize o) 16 SIZE_MAX;
  redzone ← (if IsPowerOfTwo redzone then Ret redzone else RoundUpToPowerOfTwo redzone);
  Ret {| Debug := debug; MinRZSize := redzone; MaxQuarantineSizeMB := quarantine;
         DetectLocals := locals; DetectPrivates := privates; PrintStats := stats;
         DetectKernelArguments := args; DetectLeaks := leaks; HaltOnError := halt;
         Recover := recover; MsanCheckHostAndSharedUSM := msan |}.

Definition Init (env : option cstr) (o : SanitizerOptions) : outcome SanitizerOptions :=
  match getenv_to_map true false false env with
  | Throw std_invalid_argument => die
  | Throw e => Throw e
  | Undefined => Undefined
  | Ret None => Ret o
  | Ret (Some map) => Parse map o
  end.

Example Init_example :
  Init (Some (lit "redzone:100;quarantine_size_mb:0;halt_on_error:FALSE")) defaults =
  Ret {| Debug := false; MinRZSize := 128; MaxQuarantineSizeMB := 0; DetectLocals := true;
         DetectPrivates := true; PrintStats := false; DetectKernelArguments := true;
         DetectLeaks := true; HaltOnError := false; Recover := false;
         MsanCheckHostAndSharedUSM := true |}.
Proof. vm_compute. reflexivity. Qed.

End Options.

Module ArithFacts.
Import Arith.

Lemma ones_pow k : 0 ≤ k → 2 ^ k - 1 = Z.ones k.
Proof. intros. rewrite Z.ones_equiv. lia. Qed.

Lemma pow2_lt k n : 0 ≤ k < n → 2 ^ k < 2 ^ n.
Proof. intros. apply Z.pow_lt_mono_r; lia. Qed.

Lemma pow2_in_u64 k : 0 ≤ k < 64 → in_u64 (2 ^ k).
Proof. intros. split; [apply Z.pow_nonneg; lia|by apply pow2_lt]. Qed.

Lemma pow2_pred k : 0 ≤ k < 64 → (2 ^ k) ⊖ 1 = 2 ^ k - 1.
Proof.
  intros Hk. pose proof (pow2_in_u64 k Hk) as [? ?]. assert (0 < 2 ^ k) by (apply Z.pow_pos_nonneg; lia).
  apply u64_small. unfold in_u64. lia.
Qed.

(** Masking with [~(2^k - 1)] clears the low [k] bits. *)
Lemma land_mask x k : in_u64 x → 0 ≤ k < 64 → Z.land x (lnot64 (2 ^ k - 1)) = x - x `mod` 2 ^ k.
Proof.
  intros [Hx Hx'] Hk. unfold lnot64, SIZE_MAX.
  replace (2 ^ 64 - 1 - (2 ^ k - 1)) with (Z.shiftl (Z.ones (64 - k)) k).
  2: { rewrite Z.shiftl_mul_pow2, Z.ones_equiv by lia.
       rewrite <-Z.sub_1_r, Z.mul_sub_distr_r, <-Z.pow_add_r by lia.
       replace (64 - k + k) with 64 by lia. lia. }
  replace (x - x `mod` 2 ^ k) with (Z.shiftl (Z.shiftr x k) k).
  2: { rewrite Z.shiftl_mul_pow2, Z.shiftr_div_pow2 by lia.
       pose proof (Z.div_mod x (2 ^ k) ltac:(lia)). lia. }
  apply Z.bits_inj'. intros n Hn. rewrite Z.land_spec, !Z.shiftl_spec by lia.
  destruct (decide (n < k)).
  - rewrite !(Z.testbit_neg_r _ (n - k)) by lia. apply andb_false_r.
  - rewrite Z.shiftr_spec by lia. replace (n - k + k) with n by lia.
    destruct (decide (n < 64)).
    + rewrite Z.ones_spec_low by lia. apply andb_true_r.
    + replace x with (x `mod` 2 ^ 64) by (by apply Z.mod_small).
      rewrite Z.mod_pow2_bits_high by lia. done.
Qed.

Lemma RoundDownTo_pow2 x k : in_u64 x → 0 ≤ k < 64 → RoundDownTo x (2 ^ k) = x - x `mod` 2 ^ k.
Proof. intros. unfold RoundDownTo. by rewrite pow2_pred, land_mask. Qed.

(** Without overflow, rounding up gives the least multiple that is not below. *)
Lemma RoundUpTo_pow2 x k :
  0 ≤ x → 0 ≤ k < 64 → x + 2 ^ k - 1 < 2 ^ 64 →
  RoundUpTo x (2 ^ k) = (x + 2 ^ k - 1) - (x + 2 ^ k - 1) `mod` 2 ^ k.
Proof.
  intros Hx Hk Hb. unfold RoundUpTo. rewrite pow2_pred by done.
  assert (0 < 2 ^ k) by (apply Z.pow_pos_nonneg; lia).
  assert (x ⊕ 2 ^ k ⊖ 1 = x + 2 ^ k - 1) as ->.
  { unfold u64, wrap. rewrite Zminus_mod_idemp_l. apply Z.mod_small. lia. }
  apply land_mask; [split; lia|done].
Qed.

Lemma RoundUpTo_spec x k :
  0 ≤ x → 0 ≤ k < 64 → x + 2 ^ k - 1 < 2 ^ 64 →
  x ≤ RoundUpTo x (2 ^ k) < x + 2 ^ k ∧ RoundUpTo x (2 ^ k) `mod` 2 ^ k = 0.
Proof.
  intros Hx Hk Hb. rewrite RoundUpTo_pow2 by done.
  assert (0 < 2 ^ k) by (apply Z.pow_pos_nonneg; lia).
  pose proof (Z.mod_pos_bound (x + 2 ^ k - 1) (2 ^ k) ltac:(lia)). split; [lia|].
  by rewrite Zminus_mod_idemp_r, Z.sub_diag, Z.mod_0_l by lia.
Qed.

Lemma RoundUpTo_id x k : in_u64 x → 0 ≤ k < 64 → x + 2 ^ k - 1 < 2 ^ 64 →
  x `mod` 2 ^ k = 0 → RoundUpTo x (2 ^ k) = x.
Proof.
  intros [Hx ?] Hk Hb Hm. rewrite RoundUpTo_pow2 by done.
  assert (0 < 2 ^ k) by (apply Z.pow_pos_nonneg; lia).
  replace (x + 2 ^ k - 1) with (x + (2 ^ k - 1)) by lia.
  rewrite <-Z.add_mod_idemp_l, Hm by lia. rewrite Z.add_0_l, (Z.mod_small (2 ^ k - 1)) by lia. lia.
Qed.

Lemma IsAligned_pow2 a k : 0 ≤ k < 64 → IsAligned a (2 ^ k) = bool_decide (a `mod` 2 ^ k = 0).
Proof.
  intros Hk. unfold IsAligned. rewrite pow2_pred, ones_pow, Z.land_ones by lia.
  case_bool_decide; [by apply Z.eqb_eq|by apply Z.eqb_neq].
Qed.

Lemma IsPowerOfTwo_spec x : in_u64 x → IsPowerOfTwo x = true ↔ ∃ k, 0 ≤ k < 64 ∧ x = 2 ^ k.
Proof.
  intros [Hx Hx']. unfold IsPowerOfTwo. rewrite andb_true_iff, negb_true_iff, Z.eqb_eq, Z.eqb_neq.
  split.
  - intros [Hl Hn]. assert (0 < x) as Hp by lia. pose proof (Z.log2_spec x Hp) as [Hlo Hhi].
    pose proof (Z.log2_nonneg x). exists (Z.log2 x). split.
    { split; [done|]. apply Z.log2_lt_pow2; done. }
    rewrite u64_small in Hl by (unfold in_u64; lia).
    destruct (decide (x = 2 ^ Z.log2 x)) as [|Hne]; [done|].
    assert (Z.log2 (x - 1) = Z.log2 x) as E by (apply Z.log2_unique; lia).
    assert (Z.testbit (Z.land x (x - 1)) (Z.log2 x) = true) as Ht.
    { rewrite Z.land_spec, Z.bit_log2 by done. rewrite <-E at 1. apply Z.bit_log2.
      assert (0 < 2 ^ Z.log2 x) by (apply Z.pow_pos_nonneg; lia). lia. }
    by rewrite Hl, Z.bits_0 in Ht.
  - intros (k & Hk & ->). assert (0 < 2 ^ k) by (apply Z.pow_pos_nonneg; lia). split; [|lia].
    rewrite pow2_pred, ones_pow, Z.land_ones by lia. by apply Z.mod_same; lia.
Qed.

(** ** Bit smearing

    [smeared w m x]: a bit of [x] is set exactly when one of the [w] bits of [m]
    from that position upwards is. *)
Definition smeared (w m x : Z) : Prop :=
  ∀ n, 0 ≤ n → Z.testbit x n = true ↔ ∃ j, n ≤ j < n + w ∧ Z.testbit m j = true.

Lemma smeared_id m : smeared 1 m m.
Proof.
  intros n Hn. split; [intros H; exists n; split; [lia|done]|].
  intros (j & Hj & H). by replace n with j by lia.
Qed.

Lemma smeared_double w m x : 0 ≤ w → smeared w m x → smeared (w + w) m (smear w x).
Proof.
  intros Hw Hx n Hn. unfold smear. rewrite Z.lor_spec, Z.shiftr_spec, orb_true_iff by lia.
  rewrite (Hx n), (Hx (n + w)) by lia. split.
  - intros [(j & Hj & H)|(j & Hj & H)]; exists j; (split; [lia|done]).
  - intros (j & Hj & H). destruct (decide (j < n + w)); [left|right]; exists j; (split; [lia|done]).
Qed.

Lemma smeared_full m x : 0 < m < 2 ^ 64 → smeared 64 m x → x = Z.ones (Z.log2 m + 1).
Proof.
  intros Hm Hx. pose proof (Z.log2_nonneg m). assert (Z.log2 m < 64) by (apply Z.log2_lt_pow2; lia).
  apply Z.bits_inj'. intros n Hn. destruct (decide (n < Z.log2 m + 1)).
  - rewrite Z.ones_spec_low by lia. apply Hx; [done|]. exists (Z.log2 m).
    split; [lia|]. apply Z.bit_log2. lia.
  - rewrite Z.ones_spec_high by lia. apply not_true_iff_false. intros (j & Hj & H')%Hx; [|done].
    rewrite Z.bits_above_log2 in H' by lia. done.
Qed.

Lemma RoundUpToPowerOfTwo_body_ones x : 1 < x < 2 ^ 64 →
  RoundUpToPowerOfTwo_body x = u64 (2 ^ (Z.log2 (x - 1) + 1)).
Proof.
  intros Hx. unfold RoundUpToPowerOfTwo_body. rewrite (u64_small (x - 1)) by (unfold in_u64; lia).
  rewrite (smeared_full (x - 1) (smear 32 _)); [|lia|].
  - rewrite Z.ones_equiv. f_equal. lia.
  - apply (smeared_double 32), (smeared_double 16), (smeared_double 8), (smeared_double 4),
      (smeared_double 2), (smeared_double 1), smeared_id; lia.
Qed.

Lemma RoundUpToPowerOfTwo_le x : 0 ≤ x ≤ 2 ^ 63 →
  ∃ k, 0 ≤ k < 64 ∧ RoundUpToPowerOfTwo x = Ret (2 ^ k) ∧ x ≤ 2 ^ k ∧
     ∀ j, 0 ≤ j → x ≤ 2 ^ j → 2 ^ k ≤ 2 ^ j.
Proof.
  intros Hx. unfold RoundUpToPowerOfTwo.
  destruct (Z.eqb_spec x 0) as [->|]; [|destruct (decide (x = 1)) as [->|]].
  - exists 0. split_and!; [lia..|done|lia|]. intros j Hj _. apply Z.pow_le_mono_r; lia.
  - exists 0. split_and!; [lia..|by vm_compute|lia|]. intros j Hj _. apply Z.pow_le_mono_r; lia.
  - rewrite RoundUpToPowerOfTwo_body_ones by lia.
    pose proof (Z.log2_spec (x - 1) ltac:(lia)) as [Hlo Hhi]. pose proof (Z.log2_nonneg (x - 1)).
    assert (Z.log2 (x - 1) < 63) by (apply Z.log2_lt_pow2; lia).
    assert (in_u64 (2 ^ (Z.log2 (x - 1) + 1))) as Hk by (apply pow2_in_u64; lia).
    rewrite u64_small by done.
    rewrite (proj2 (IsPowerOfTwo_spec _ Hk)) by (eexists; split; [|done]; lia).
    exists (Z.log2 (x - 1) + 1). split_and!; [lia..|done| |].
    + rewrite Z.add_1_r. lia.
    + intros j Hj Hle. apply Z.pow_le_mono_r; [lia|].
      destruct (decide (Z.log2 (x - 1) + 1 ≤ j)) as [|Hlt]; [done|].
      assert (2 ^ j ≤ 2 ^ Z.log2 (x - 1)) by (apply Z.pow_le_mono_r; lia). lia.
Qed.

Lemma RoundUpToPowerOfTwo_gt x : 2 ^ 63 < x < 2 ^ 64 → RoundUpToPowerOfTwo x = Undefined.
Proof.
  intros Hx. unfold RoundUpToPowerOfTwo. destruct (Z.eqb_spec x 0) as [->|]; [lia|].
  rewrite RoundUpToPowerOfTwo_body_ones by lia.
  assert (Z.log2 (x - 1) = 63) as -> by (apply Z.log2_unique; lia). by vm_compute.
Qed.

End ArithFacts.

(** ** Properties of the address arithmetic *)
Module ArithProps.
Import Arith ArithFacts.

(** [RoundUpToPowerOfTwo], which fills the bits below the highest one with
    six shifts and ors, computes the least power of two that is not below its
    argument, for every argument up to [2^63]; above, it wraps to 0 and its
    assertion fails. *)
Theorem RoundUpToPowerOfTwo_spec x (Hx : in_u64 x) :
  (x ≤ 2 ^ 63 → ∃ k, 0 ≤ k < 64 ∧ RoundUpToPowerOfTwo x = Ret (2 ^ k) ∧ x ≤ 2 ^ k ∧
     ∀ j, 0 ≤ j → x ≤ 2 ^ j → 2 ^ k ≤ 2 ^ j) ∧
  (2 ^ 63 < x → RoundUpToPowerOfTwo x = Undefined).
Proof.
  destruct Hx. split; intros; [by apply RoundUpToPowerOfTwo_le|by apply RoundUpToPowerOfTwo_gt].
Qed.

Lemma RoundUpToPowerOfTwo_spec_witness :
  (∃ k, 0 ≤ k < 64 ∧ RoundUpToPowerOfTwo 100 = Ret (2 ^ k) ∧ 100 ≤ 2 ^ k ∧
     ∀ j, 0 ≤ j → 100 ≤ 2 ^ j → 2 ^ k ≤ 2 ^ j) ∧
  RoundUpToPowerOfTwo (2 ^ 63 + 1) = Undefined.
Proof.
  split.
  - apply (RoundUpToPowerOfTwo_spec 100); [|lia]. split; lia.
  - apply (RoundUpToPowerOfTwo_spec (2 ^ 63 + 1)); [|lia]. split; lia.
Defined.

Lemma RZLog2Size_pow2 l : 0 ≤ l < 27 → RZLog2Size l = Ret (2 ^ (l + 4)).
Proof.
  intros Hl. unfold RZLog2Size. rewrite (proj2 (Z.ltb_lt _ _)) by lia.
  by rewrite Z.shiftl_mul_pow2, Z.pow_add_r, Z.mul_comm by lia.
Qed.

Lemma RZSize2Log_pow2 k : 4 ≤ k < 31 → RZSize2Log (2 ^ k) = Ret (k - 4).
Proof.
  intros Hk. unfold RZSize2Log. assert (2 ^ 4 ≤ 2 ^ k) by (apply Z.pow_le_mono_r; lia).
  rewrite (proj2 (Z.leb_le _ _)) by lia.
  rewrite (proj2 (IsPowerOfTwo_spec (2 ^ k) (pow2_in_u64 k ltac:(lia)))) by (exists k; split; [lia|done]).
  simpl. rewrite Z.log2_pow2, RZLog2Size_pow2 by lia. simpl.
  replace (k - 4 + 4) with k by lia. by rewrite Z.eqb_refl.
Qed.

Lemma rz_log_range s : 0 ≤ rz_log s ≤ 7.
Proof. unfold rz_log. repeat case_match; lia. Qed.

Lemma ComputeRZLog_pow2 s k : 4 ≤ k < 31 →
  ComputeRZLog s (2 ^ k) = Ret (rz_log s `max` (k - 4)) ∧ 0 ≤ rz_log s `max` (k - 4) < 27.
Proof.
  intros Hk. unfold ComputeRZLog. rewrite RZSize2Log_pow2 by done. pose proof (rz_log_range s).
  split; [done|lia].
Qed.

(** A local argument with its redzone is aligned and leaves room for both. *)
Lemma GetSizeAndRedzoneSizeForLocal_spec s g a :
  0 ≤ s < 2 ^ 62 → 0 ≤ g < 2 ^ 62 → 0 < a < 2 ^ 62 →
  ∃ n, GetSizeAndRedzoneSizeForLocal s g a = Ret n ∧ n `mod` a = 0 ∧ s + 12 ≤ n ∧ 2 * g ≤ n.
Proof.
  intros Hs Hg Ha. unfold GetSizeAndRedzoneSizeForLocal, AlignTo.
  destruct (Z.eqb_spec a 0); [lia|]. rewrite (u64_small (2 * g)) by (unfold in_u64; lia).
  assert (s + 12 ≤ local_redzone_size s < 2 ^ 62 + 256) as Hl.
  { unfold local_redzone_size. repeat case_match; bool_to_prop;
      rewrite ?(u64_small (s + _)) by (unfold in_u64; lia); lia. }
  set (m := _ `max` _). assert (s + 12 ≤ m < 2 ^ 63 ∧ 2 * g ≤ m) as [Hm ?] by lia. clearbody m.
  rewrite (u64_small (m + a)), (u64_small (m + a - 1)) by (unfold in_u64; lia).
  pose proof (Z.div_mod (m + a - 1) a ltac:(lia)). pose proof (Z.mod_pos_bound (m + a - 1) a ltac:(lia)).
  rewrite u64_small by (unfold in_u64; lia). eexists. split; [done|].
  split; [by apply Z.mod_mul|]. lia.
Qed.

End ArithProps.

(** ** Properties of the option parser *)
Module OptionsProps.
Import Env EnvProps Arith ArithFacts ArithProps Options.

Lemma front_of_map m k v : env_map_wf true m → map_find k m = Some v → ∃ x, front v = Ret x.
Proof.
  intros [_ Hm] Hk. apply (map_find_Forall _ _ _ _ Hm) in Hk as [_ Hk]. simpl in Hk.
  destruct v; [by destruct (Hk eq_refl)|]. by eexists.
Qed.

Lemma ParseBool_outcome m k d :
  env_map_wf true m → ParseBool m k d = die ∨ ∃ b, ParseBool m k d = Ret b.
Proof.
  intros Hm. unfold ParseBool. destruct (map_find k m) as [v|] eqn:E; [|eauto].
  destruct (front_of_map m k v Hm E) as [x ->]. simpl. repeat case_match; eauto.
Qed.

Lemma take_digits_digits s : only_digits (take_digits s) = true.
Proof. induction s as [|c s IH]; [done|]. simpl. destruct (isdigit c) eqn:E; [|done]. simpl. by rewrite E. Qed.

Lemma stoul_range s x : stoul s = Ret x → in_u64 x.
Proof.
  unfold stoul. destruct (match skip_spaces s with [] => _ | _ => _ end) as [neg s'].
  case_decide; [done|]. pose proof (digits_value_nonneg _ (take_digits_digits s')) as Hd.
  destruct (Z.leb_spec (digits_value (take_digits s')) SIZE_MAX) as [Hl|]; [|done].
  intros [= <-]. unfold SIZE_MAX in Hl. destruct neg; [apply u64_range|split; lia].
Qed.

Lemma ParseUint64_outcome m k d lo hi :
  env_map_wf true m → lo ≤ d ≤ hi → lo ≤ hi →
  ParseUint64 m k d lo hi = die ∨ ∃ x, ParseUint64 m k d lo hi = Ret x ∧ lo ≤ x ≤ hi.
Proof.
  intros Hm Hd Hlh. unfold ParseUint64. destruct (map_find k m) as [v|] eqn:E; [|eauto].
  destruct (front_of_map m k v Hm E) as [x ->]. cbn [mbind outcome_bind].
  destruct (starts_with_minus x); [by left|].
  destruct (stoul x) as [y|e|] eqn:Es; simpl; [|by left|].
  - right. eexists. split; [done|]. repeat case_match; bool_to_prop; lia.
  - exfalso. revert Es. unfold stoul. destruct (match skip_spaces x with [] => _ | _ => _ end) as [neg s'].
    repeat case_match; done.
Qed.

Lemma redzone_outcome r : 16 ≤ r ≤ SIZE_MAX →
  (if IsPowerOfTwo r then Ret r else RoundUpToPowerOfTwo r) = Undefined ∧ 2 ^ 63 < r ∨
  ∃ k, 4 ≤ k < 64 ∧ (if IsPowerOfTwo r then Ret r else RoundUpToPowerOfTwo r) = Ret (2 ^ k) ∧ r ≤ 2 ^ k.
Proof.
  unfold SIZE_MAX. intros Hr.
  assert (∀ k, 0 ≤ k → r ≤ 2 ^ k → 4 ≤ k) as H4.
  { intros k Hk Hle. apply (Z.pow_le_mono_r_iff 2); lia. }
  destruct (IsPowerOfTwo r) eqn:E.
  - apply IsPowerOfTwo_spec in E as (k & Hk & ->); [|split; lia]. right. exists k.
    split_and!; [apply H4; lia|lia|done|lia].
  - destruct (decide (r ≤ 2 ^ 63)).
    + right. destruct (RoundUpToPowerOfTwo_le r) as (k & Hk & -> & Hle & _); [lia|].
      exists k. split_and!; [apply H4; lia|lia|done|lia].
    + left. split; [|lia]. apply RoundUpToPowerOfTwo_gt. lia.
Qed.

(** C40: parsing the sanitizer options either dies with a diagnostic or gives
    options whose redzone is a power of two of at least 16 bytes and whose
    quarantine size is at most [UINT32_MAX]; an unset variable gives the
    defaults.  The one undefined outcome is a redzone above [2^63]. *)
Theorem Init_spec env :
  match Init env defaults with
  | Ret o => (∃ k, 4 ≤ k < 64 ∧ MinRZSize o = 2 ^ k) ∧ 0 ≤ MaxQuarantineSizeMB o ≤ UINT32_MAX ∧
             (env = None ∨ env = Some [] → o = defaults)
  | Throw e => e = exn_other
  | Undefined => ∃ m r, getenv_to_map true false false env = Ret (Some m) ∧
             ParseUint64 m (lit "redzone") 16 16 SIZE_MAX = Ret r ∧ 2 ^ 63 < r
  end.
Proof.
  unfold Init, getenv_to_map, ur_getenv. destruct env as [[|c s]|].
  1, 3: split_and!; [by exists 4|unfold UINT32_MAX; simpl; lia..|done].
  destruct (map_loop_outcome true false false [] (getline_all ";" (c :: s))) as [->|(m & E & Hm)];
    [by repeat constructor|done|]. rewrite E. cbn [mbind outcome_bind]. unfold Parse, defaults.
  cbn [Debug MinRZSize MaxQuarantineSizeMB DetectLocals DetectPrivates PrintStats
    DetectKernelArguments DetectLeaks HaltOnError Recover MsanCheckHostAndSharedUSM].
  repeat match goal with |- context [ParseBool ?m ?k ?d] =>
    destruct (ParseBool_outcome m k d Hm) as [->|[? ->]]; [done|] end.
  cbn [mbind outcome_bind].
  destruct (ParseUint64_outcome m (lit "quarantine_size_mb") 8 0 UINT32_MAX Hm)
    as [->|(q & -> & Hq)]; [unfold UINT32_MAX; lia..|done|].
  destruct (ParseUint64_outcome m (lit "redzone") 16 16 SIZE_MAX Hm)
    as [->|(r & Er & Hr)]; [unfold SIZE_MAX; lia..|done|]. rewrite Er. cbn [mbind outcome_bind].
  destruct (redzone_outcome r Hr) as [[-> H]|(k & Hk & -> & _)]; simpl.
  - by exists m, r.
  - split_and!; [by exists k|lia..|]. by intros [?|?].
Qed.

End OptionsProps.
