(* ===== verification/AsanShadow.v ===== *)
(** * Shadow memory of the address sanitizer layer
    (loader/layers/sanitizer/asan: asan_shadow.cpp, asan_interceptor.cpp)

    Module [Alloc] holds the allocation records and the magic values of the
    shadow bytes.  The class [ShadowMemory] is the abstract base class the
    interceptor is written against, [ShadowMemoryLaws] what it promises;
    [Interceptor.enqueueAllocInfo] and [updateShadowMemory] are modelled and
    proved against that interface.  Modules [CPU] and [GPU] are the two
    implementations with the address mappings of the three device types, and
    [CPUFacts], [GPUFacts] discharge the laws.  [LocalShadow] is the buffer that
    shadows work-group local memory. *)
From stdpp Require Import base numbers list gmap.
From S2P Require Import Prelude SanitizerCommon.
Import Arith ArithFacts.
Local Open Scope Z_scope.
Local Open Scope ur_scope.

(** Linear arithmetic with divisions and remainders by constants. *)
Ltac lia_div := Z.to_euclidean_division_equations; lia.

Definition ASAN_SHADOW_SCALE : Z := 4.
Definition ASAN_SHADOW_GRANULARITY : Z := Z.shiftl 1 ASAN_SHADOW_SCALE.

Module Alloc.

Inductive AllocType :=
  UNKNOWN | DEVICE_USM | SHARED_USM | HOST_USM | MEM_BUFFER | DEVICE_GLOBAL | EXPORTABLE_MEM.

#[export] Instance AllocType_eq_dec : EqDecision AllocType.
Proof. solve_decision. Defined.

(** Contexts and devices are handles; a null device is [None].  The stack traces
    are only printed. *)
Record AllocInfo := {
  AllocBegin : Z; UserBegin : Z; UserEnd : Z; AllocSize : Z;
  Type_ : AllocType; IsReleased : bool; Context : nat; Device : option nat
}.

Definition getRedzoneSize (AI : AllocInfo) : Z := AllocSize AI ⊖ (UserEnd AI ⊖ UserBegin AI).

(** The value of an [int8_t] with these bits. *)
Definition int8 (x : Z) : Z := if x <? 128 then x else x - 256.

Definition kUsmDeviceRedzoneMagic := int8 0x81.
Definition kUsmHostRedzoneMagic := int8 0x82.
Definition kUsmSharedRedzoneMagic := int8 0x83.
Definition kMemBufferRedzoneMagic := int8 0x84.
Definition kDeviceGlobalRedzoneMagic := int8 0x85.
Definition kNullPointerRedzoneMagic := int8 0x86.
Definition kExportableMemRedzoneMagic := int8 0x87.
Definition kUsmDeviceDeallocatedMagic := int8 0x91.
Definition kUsmHostDeallocatedMagic := int8 0x92.
Definition kUsmSharedDeallocatedMagic := int8 0x93.
Definition kMemBufferDeallocatedMagic := int8 0x94.
Definition kExportableMemDeallocatedMagic := int8 0x95.
Definition kUnknownMagic := int8 0xff.
Definition kZeroMagic := 0.

(** The two [switch]es of [enqueueAllocInfo]; their default cases assert. *)
Definition deallocated_magic (t : AllocType) : outcome Z :=
  match t with
  | HOST_USM => Ret kUsmHostDeallocatedMagic
  | DEVICE_USM => Ret kUsmDeviceDeallocatedMagic
  | SHARED_USM => Ret kUsmSharedDeallocatedMagic
  | MEM_BUFFER => Ret kMemBufferDeallocatedMagic
  | EXPORTABLE_MEM => Ret kExportableMemDeallocatedMagic
  | _ => Undefined
  end.
Definition redzone_magic (t : AllocType) : outcome Z :=
  match t with
  | HOST_USM => Ret kUsmHostRedzoneMagic
  | DEVICE_USM => Ret kUsmDeviceRedzoneMagic
  | SHARED_USM => Ret kUsmSharedRedzoneMagic
  | MEM_BUFFER => Ret kMemBufferRedzoneMagic
  | DEVICE_GLOBAL => Ret kDeviceGlobalRedzoneMagic
  | EXPORTABLE_MEM => Ret kExportableMemRedzoneMagic
  | _ => Undefined
  end.

Lemma deallocated_magic_negative t v : deallocated_magic t = Ret v → v < 0.
Proof. destruct t; intros [= <-]; by vm_compute. Qed.
Lemma redzone_magic_negative t v : redzone_magic t = Ret v → v < 0.
Proof. destruct t; intros [= <-]; by vm_compute. Qed.

End Alloc.
Import Alloc.

(** ** The interface *)

(** A call that returns a [ur_result_t] and changes a state. *)
Definition M (S : Type) : Type := S → outcome (ur_result_t * S).

(** [UR_CALL(m); k] *)
Definition UR_CALL {S} (m k : M S) : M S := λ s,
  '(r, s') ← m s; if decide (r = UR_RESULT_SUCCESS) then k s' else Ret (r, s').
Definition success {S} : M S := λ s, Ret (UR_RESULT_SUCCESS, s).
(** The value of a [switch] whose default asserts. *)
Definition with_value {S} (v : outcome Z) (k : Z → M S) : M S := λ s, x ← v; k x s.

(** [shadow_byte] is what a kernel reads at a shadow address, [None] when the
    address is not backed by memory. *)
Class ShadowMemory (S : Type) := {
  MemToShadow : S → Z → Z;
  EnqueuePoisonShadow : Z → Z → Z → M S;
  shadow_byte : S → Z → option Z
}.

Definition shadow_at {S : Type} `{!ShadowMemory S} (s : S) (a : Z) : option Z := shadow_byte s (MemToShadow s a).

(** A range of addresses that lies in one of the regions the device's shadow
    is laid out for is [covered]. *)
Class ShadowMemoryLaws (S : Type) `{!ShadowMemory S} := {
  shadow_wf : S → Prop;
  covered : Z → Z → Prop;
  covered_bounds p n : covered p n → 0 ≤ p ∧ 0 ≤ n ∧ p + n ≤ 2 ^ 64;
  covered_sub p n q m : covered p n → p ≤ q → 0 ≤ m → q + m ≤ p + n → covered q m;
  MemToShadow_linear s p n a : shadow_wf s → covered p n → p ≤ a < p + n →
    MemToShadow s a = MemToShadow s p + (a / 16 - p / 16);
  MemToShadow_inj s a b : shadow_wf s → covered a 1 → covered b 1 →
    MemToShadow s a = MemToShadow s b → a / 16 = b / 16;
  EnqueuePoisonShadow_law p n v s : shadow_wf s → covered p n →
    ∃ r s', EnqueuePoisonShadow p n v s = Ret (r, s') ∧ shadow_wf s' ∧
      (∀ a, MemToShadow s' a = MemToShadow s a) ∧
      (∀ q b, shadow_byte s q = Some b →
         ¬ (0 < n ∧ MemToShadow s p ≤ q ≤ MemToShadow s (p + n - 1)) → shadow_byte s' q = Some b) ∧
      (r = UR_RESULT_SUCCESS → 0 < n →
         ∀ q, MemToShadow s p ≤ q ≤ MemToShadow s (p + n - 1) → shadow_byte s' q = Some v)
}.

(** ** The interceptor's use of the shadow *)
Module Interceptor.
Section interceptor.
Context {S : Type} `{!ShadowMemory S}.

Definition enqueueAllocInfo (AI : AllocInfo) : M S :=
  if IsReleased AI then
    with_value (deallocated_magic (Type_ AI)) (λ ShadowByte,
      UR_CALL (EnqueuePoisonShadow (AllocBegin AI) (AllocSize AI) ShadowByte) success)
  else
    UR_CALL (EnqueuePoisonShadow (AllocBegin AI) (AllocSize AI) kZeroMagic)
    (if UserEnd AI =? AllocBegin AI ⊕ AllocSize AI then success
     else
       let TailBegin := RoundUpTo (UserEnd AI) ASAN_SHADOW_GRANULARITY in
       let TailEnd := AllocBegin AI ⊕ AllocSize AI in
       UR_CALL
         (if TailBegin =? UserEnd AI then success
          else let Value := UserEnd AI ⊖ RoundDownTo (UserEnd AI) ASAN_SHADOW_GRANULARITY in
               EnqueuePoisonShadow (UserEnd AI) 1 Value)
       (with_value (redzone_magic (Type_ AI)) (λ ShadowByte,
          UR_CALL (EnqueuePoisonShadow (AllocBegin AI) (UserBegin AI ⊖ AllocBegin AI) ShadowByte)
         (UR_CALL (EnqueuePoisonShadow TailBegin (TailEnd ⊖ TailBegin) ShadowByte)
          success)))).

Record DeviceInfo := { Shadow : S; AllocInfos : list AllocInfo }.

Fixpoint enqueue_all (List : list AllocInfo) : M S :=
  match List with
  | [] => success
  | AI :: List => UR_CALL (enqueueAllocInfo AI) (enqueue_all List)
  end.
Definition updateShadowMemory (DI : DeviceInfo) : outcome (ur_result_t * DeviceInfo) :=
  '(r, s) ← enqueue_all (AllocInfos DI) (Shadow DI);
  Ret (r, {| Shadow := s;
             AllocInfos := if decide (r = UR_RESULT_SUCCESS) then [] else AllocInfos DI |}).

(** ** Specification

    What the shadow byte of an address of the allocation has to be, and which
    addresses a byte makes accessible: all 16 for 0, the first [k] for [k > 0],
    none for a negative one. *)
Definition expected_byte (dealloc redzone : Z) (AI : AllocInfo) (a : Z) : Z :=
  let g := a / 16 in
  if IsReleased AI then dealloc
  else if UserEnd AI =? AllocBegin AI + AllocSize AI then 0
  else if (g * 16 <? UserBegin AI) || (UserEnd AI <=? g * 16) then redzone
  else if g * 16 + 16 <=? UserEnd AI then 0 else UserEnd AI - g * 16.

Definition accessible (s : S) (a : Z) : bool :=
  match shadow_at s a with
  | Some k => (k =? 0) || ((0 <? k) && (a `mod` 16 <? k))
  | None => false
  end.

End interceptor.
Arguments DeviceInfo : clear implicits.

(** A record of a live or released allocation: the two ends of the user part
    and of the redzones fall on granules, and without a right redzone there is
    no left one either. *)
Record alloc_wf (AI : AllocInfo) : Prop := {
  wf_begin : AllocBegin AI `mod` 16 = 0;
  wf_user : UserBegin AI `mod` 16 = 0;
  wf_order : 0 ≤ AllocBegin AI ≤ UserBegin AI ∧ UserBegin AI ≤ UserEnd AI ≤ AllocBegin AI + AllocSize AI;
  wf_end : UserEnd AI = AllocBegin AI + AllocSize AI ∧ UserBegin AI = AllocBegin AI ∨
           UserEnd AI < AllocBegin AI + AllocSize AI ∧ AllocSize AI `mod` 16 = 0;
  wf_size : 0 < AllocSize AI ∧ AllocBegin AI + AllocSize AI < 2 ^ 64;
  wf_type : Type_ AI ≠ UNKNOWN ∧ (IsReleased AI = true → Type_ AI ≠ DEVICE_GLOBAL)
}.
Definition in_alloc (AI : AllocInfo) (a : Z) : Prop :=
  AllocBegin AI ≤ a < AllocBegin AI + AllocSize AI.

End Interceptor.

Module InterceptorFacts.
Import Interceptor.
Section facts.
Context {S : Type} `{!ShadowMemory S} `{!ShadowMemoryLaws S}.

(** ** Painting a range

    [paints p n m s Q]: run from [s], [m] returns, keeps the well-formedness and
    the address mapping, changes no byte outside the shadow of [p, p + n), and
    establishes [Q] when it succeeds. *)
Definition paints (p n : Z) (m : M S) (s : S) (Q : S → Prop) : Prop :=
  ∃ r s', m s = Ret (r, s') ∧ shadow_wf s' ∧ (∀ a, MemToShadow s' a = MemToShadow s a) ∧
    (∀ q b, shadow_byte s q = Some b → ¬ (MemToShadow s p ≤ q ≤ MemToShadow s (p + n - 1)) →
       shadow_byte s' q = Some b) ∧
    (r = UR_RESULT_SUCCESS → Q s').

Lemma paints_success p n s Q : shadow_wf s → Q s → paints p n success s Q.
Proof. intros Hs HQ. exists UR_RESULT_SUCCESS, s. by split_and!. Qed.

Lemma paints_call p n m k s Q Q' :
  paints p n m s Q → (∀ s', shadow_wf s' → Q s' → paints p n k s' Q') → paints p n (UR_CALL m k) s Q'.
Proof.
  intros (r & s1 & E & Hw & HM & Hf & HQ) Hk. unfold paints, UR_CALL. rewrite E.
  cbn [mbind outcome_bind]. case_decide as Hr.
  - destruct (Hk s1 Hw (HQ Hr)) as (r' & s2 & -> & Hw2 & HM2 & Hf2 & HQ2).
    exists r', s2. split_and!; [done..|intros a; by rewrite HM2| |done].
    intros q b Hq Hout. apply Hf2; [by apply Hf|]. by rewrite !HM.
  - exists r, s1. by split_and!.
Qed.

Lemma paints_value p n x k s Q : paints p n (k x) s Q → paints p n (with_value (Ret x) k) s Q.
Proof. done. Qed.

Lemma paints_impl p n m s (Q Q' : S → Prop) :
  (∀ s', Q s' → Q' s') → paints p n m s Q → paints p n m s Q'.
Proof. intros Hi (r & s' & ? & ? & ? & ? & ?). exists r, s'. split_and!; auto. Qed.

(** The shadow of the range is the function [f] of the granule. *)
Definition painted (p n : Z) (f : Z → Z) (s : S) : Prop :=
  ∀ a, p ≤ a < p + n → shadow_at s a = Some (f (a / 16)).

Lemma shadow_between s p n q m a :
  shadow_wf s → covered p n → p ≤ q → 0 < m → q + m ≤ p + n → p ≤ a < p + n →
  MemToShadow s q ≤ MemToShadow s a ≤ MemToShadow s (q + m - 1) ↔ q / 16 ≤ a / 16 ≤ (q + m - 1) / 16.
Proof.
  intros Hs Hc Hq Hm Hqm Ha.
  rewrite (MemToShadow_linear s p n a), (MemToShadow_linear s p n q), (MemToShadow_linear s p n (q + m - 1))
    by (done || lia). lia.
Qed.

Lemma shadow_monotone s p n q m :
  shadow_wf s → covered p n → p ≤ q → 0 < m → q + m ≤ p + n →
  MemToShadow s p ≤ MemToShadow s q ∧ MemToShadow s (q + m - 1) ≤ MemToShadow s (p + n - 1).
Proof.
  intros Hs Hc Hq Hm Hqm.
  rewrite (MemToShadow_linear s p n q), (MemToShadow_linear s p n (q + m - 1)),
    (MemToShadow_linear s p n (p + n - 1)) by (done || lia).
  assert (p / 16 ≤ q / 16) by (apply Z.div_le_mono; lia).
  assert ((q + m - 1) / 16 ≤ (p + n - 1) / 16) by (apply Z.div_le_mono; lia). lia.
Qed.

Lemma paints_poison p n q m v s :
  shadow_wf s → covered p n → p ≤ q → 0 ≤ m → q + m ≤ p + n →
  paints p n (EnqueuePoisonShadow q m v) s (λ s', ∀ a, p ≤ a < p + n →
    if decide (0 < m ∧ q / 16 ≤ a / 16 ≤ (q + m - 1) / 16) then shadow_at s' a = Some v
    else ∀ b, shadow_at s a = Some b → shadow_at s' a = Some b).
Proof.
  intros Hs Hc Hq Hm Hqm.
  destruct (EnqueuePoisonShadow_law q m v s Hs (covered_sub p n q m Hc Hq Hm Hqm))
    as (r & s' & E & Hs' & HM & Hf & Hv).
  exists r, s'. split_and!; [done..| |].
  - intros x b Hb Hout. apply Hf; [done|]. intros [Hm' Hx]. apply Hout.
    pose proof (shadow_monotone s p n q m Hs Hc Hq Hm' Hqm). lia.
  - intros Hr a Ha. unfold shadow_at. rewrite HM. case_decide as Hd.
    + destruct Hd as [Hm' Hd]. apply Hv; [done..|]. by apply (shadow_between s p n).
    + intros b Hb. apply Hf; [done|]. intros [Hm' Hx]. apply Hd. split; [done|].
      by apply (shadow_between s p n) in Hx.
Qed.

Lemma paints_poison_all p n v s :
  shadow_wf s → covered p n → paints p n (EnqueuePoisonShadow p n v) s (painted p n (λ _, v)).
Proof.
  intros Hs Hc. pose proof (covered_bounds p n Hc).
  eapply paints_impl; [|apply (paints_poison p n p n v s); done || lia].
  intros s' H' a Ha. specialize (H' a Ha). rewrite decide_True in H'; [done|].
  split; [lia|]. split; apply Z.div_le_mono; lia.
Qed.

Lemma paints_poison_sub p n q m v f s :
  shadow_wf s → covered p n → p ≤ q → 0 ≤ m → q + m ≤ p + n → painted p n f s →
  paints p n (EnqueuePoisonShadow q m v) s
    (painted p n (λ g, if decide (0 < m ∧ q / 16 ≤ g ≤ (q + m - 1) / 16) then v else f g)).
Proof.
  intros Hs Hc Hq Hm Hqm Hf. eapply paints_impl; [|by apply (paints_poison p n q m v s)].
  intros s' H' a Ha. specialize (H' a Ha). case_decide; [done|]. by apply H', Hf.
Qed.

End facts.
End InterceptorFacts.

Module InterceptorProps.
Import Interceptor InterceptorFacts.
Section props.
Context {S : Type} `{!ShadowMemory S} `{!ShadowMemoryLaws S}.

(** The magic values an allocation is painted with. *)
Definition magics (AI : AllocInfo) (d r : Z) : Prop :=
  (IsReleased AI = true → deallocated_magic (Type_ AI) = Ret d) ∧
  redzone_magic (Type_ AI) = Ret r ∧ d < 0 ∧ r < 0.

Lemma magics_exist AI : alloc_wf AI → ∃ d r, magics AI d r.
Proof.
  intros [_ _ _ _ _ [Hu Hg]].
  assert (∃ r, redzone_magic (Type_ AI) = Ret r) as [r Hr] by (destruct (Type_ AI); naive_solver).
  destruct (IsReleased AI) eqn:E.
  - assert (∃ d, deallocated_magic (Type_ AI) = Ret d) as [d Hd].
    { specialize (Hg eq_refl). destruct (Type_ AI); naive_solver. }
    exists d, r. split_and!; [done..|by eapply deallocated_magic_negative|by eapply redzone_magic_negative].
  - exists (-1), r. split_and!; [congruence|done|lia|by eapply redzone_magic_negative].
Qed.

Lemma granule_eq : ASAN_SHADOW_GRANULARITY = 2 ^ 4.
Proof. done. Qed.

(** The tail, the left and the right redzone of a live allocation. *)
Lemma tail_bounds AI : alloc_wf AI → UserEnd AI < AllocBegin AI + AllocSize AI →
  let TB := RoundUpTo (UserEnd AI) ASAN_SHADOW_GRANULARITY in
  UserEnd AI ≤ TB < UserEnd AI + 16 ∧ TB `mod` 16 = 0 ∧ TB ≤ AllocBegin AI + AllocSize AI ∧
  RoundDownTo (UserEnd AI) ASAN_SHADOW_GRANULARITY = UserEnd AI - UserEnd AI `mod` 16.
Proof.
  intros [Hb Hu Ho He Hs _] Hlt TB. unfold TB. rewrite granule_eq.
  destruct He as [[? _]|[_ Hm]]; [lia|].
  assert (UserEnd AI + 2 ^ 4 - 1 < 2 ^ 64) by (change (2 ^ 4) with 16; lia_div).
  destruct (RoundUpTo_spec (UserEnd AI) 4) as [H1 H2]; [lia..|].
  change (2 ^ 4) with 16 in *. split_and!; [lia|lia|lia|lia_div|].
  apply RoundDownTo_pow2 with (k := 4); unfold in_u64; lia.
Qed.

Lemma granule_end x : x `mod` 16 = 0 → x = 16 * (x / 16) ∧ (x - 1) / 16 = x / 16 - 1.
Proof. lia_div. Qed.

Lemma paints_enqueueAllocInfo AI d r s :
  shadow_wf s → covered (AllocBegin AI) (AllocSize AI) → alloc_wf AI → magics AI d r →
  paints (AllocBegin AI) (AllocSize AI) (enqueueAllocInfo AI) s
    (λ s', ∀ a, in_alloc AI a → shadow_at s' a = Some (expected_byte d r AI a)).
Proof.
  intros Hs Hc Hwf (Hd & Hr & _). unfold enqueueAllocInfo, expected_byte.
  pose proof Hwf as [Hb Hu Ho He Hsz _].
  destruct (IsReleased AI).
  { rewrite Hd by done. apply paints_value. eapply paints_call; [by apply paints_poison_all|].
    intros s' Hs' HQ. by apply paints_success. }
  eapply paints_call; [by apply paints_poison_all|]. intros s1 Hs1 H1.
  rewrite (u64_small (AllocBegin AI + AllocSize AI)) by (unfold in_u64; lia).
  destruct (Z.eqb_spec (UserEnd AI) (AllocBegin AI + AllocSize AI)) as [Heq|Hne]; [by apply paints_success|].
  destruct He as [[? _]|[Hlt Hm]]; [lia|]. clear Hne.
  pose proof (tail_bounds AI Hwf Hlt) as (HT & HTm & HTe & HD). rewrite HD.
  set (TB := RoundUpTo _ _) in *. clearbody TB.
  pose proof (Z.mod_pos_bound (UserEnd AI) 16 ltac:(lia)).
  pose proof (Z.mod_le (UserEnd AI) 16 ltac:(lia) ltac:(lia)).
  rewrite Hr, !u64_sub_small by lia.
  eapply paints_call with (Q := painted (AllocBegin AI) (AllocSize AI)
    (λ g, if decide (g = UserEnd AI / 16 ∧ UserEnd AI `mod` 16 ≠ 0) then UserEnd AI `mod` 16 else 0)).
  { destruct (Z.eqb_spec TB (UserEnd AI)) as [E|E].
    - apply paints_success; [done|]. intros a Ha. rewrite (H1 a Ha), decide_False; [done|lia_div].
    - replace (_ - (_ - _)) with (UserEnd AI `mod` 16) by lia_div.
      eapply paints_impl; [|eapply (paints_poison_sub _ _ (UserEnd AI) 1); done || lia].
      intros s2 H2 a Ha. rewrite (H2 a Ha). f_equal.
      replace (UserEnd AI + 1 - 1) with (UserEnd AI) by lia.
      unfold kZeroMagic. repeat case_decide; lia_div. }
  intros s2 Hs2 H2. apply paints_value.
  eapply paints_call; [eapply paints_poison_sub; done || lia|]. intros s3 Hs3 H3.
  eapply paints_call; [eapply paints_poison_sub; done || lia|]. intros s4 Hs4 H4.
  apply paints_success; [done|]. intros a Ha. rewrite (H4 a Ha). f_equal.
  replace (AllocBegin AI + (UserBegin AI - AllocBegin AI) - 1) with (UserBegin AI - 1) by lia.
  replace (TB + (AllocBegin AI + AllocSize AI - TB) - 1) with (AllocBegin AI + AllocSize AI - 1) by lia.
  destruct (granule_end (UserBegin AI) Hu) as [HU ->], (granule_end _ Hb) as [HB _],
    (granule_end TB HTm) as [HTB _], (granule_end (AllocBegin AI + AllocSize AI)) as [HE ->]; [lia_div|].
  assert (AllocBegin AI / 16 ≤ a / 16 ≤ (AllocBegin AI + AllocSize AI) / 16 - 1) as Hg
    by (clear -Ha HB HE; unfold in_alloc in Ha; lia_div).
  pose proof (Z.div_mod (UserEnd AI) 16 ltac:(lia)) as HUE.
  generalize dependent (a / 16). intros g Hg. clear -Ho Hlt HT HTe H H0 HU HB HTB HE Hg HUE.
  repeat case_decide; repeat case_match; bool_to_prop; lia.
Qed.

Definition in_user (AI : AllocInfo) (a : Z) : bool := (UserBegin AI <=? a) && (a <? UserEnd AI).

Lemma expected_accessible AI d r s a :
  alloc_wf AI → magics AI d r → in_alloc AI a → shadow_at s a = Some (expected_byte d r AI a) →
  accessible s a = negb (IsReleased AI) && in_user AI a.
Proof.
  intros [Hb Hu Ho He Hs _] (_ & _ & Hd & Hr) Ha E. unfold accessible, in_user, in_alloc in *. rewrite E.
  unfold expected_byte. pose proof (Z.div_mod a 16 ltac:(lia)). pose proof (Z.mod_pos_bound a 16 ltac:(lia)).
  destruct (granule_end (UserBegin AI) Hu) as [HU _].
  destruct (IsReleased AI); simpl; [lia|].
  destruct (Z.eqb_spec (UserEnd AI) (AllocBegin AI + AllocSize AI)); [simpl; lia|].
  destruct (Z.ltb_spec (a / 16 * 16) (UserBegin AI)); simpl; [lia|].
  destruct (Z.leb_spec (UserEnd AI) (a / 16 * 16)); simpl; [lia|].
  destruct (Z.leb_spec (a / 16 * 16 + 16) (UserEnd AI)); simpl; lia.
Qed.

Lemma enqueueAllocInfo_paints AI s :
  shadow_wf s → covered (AllocBegin AI) (AllocSize AI) → alloc_wf AI →
  paints (AllocBegin AI) (AllocSize AI) (enqueueAllocInfo AI) s
    (λ s', ∀ a, in_alloc AI a → accessible s' a = negb (IsReleased AI) && in_user AI a).
Proof.
  intros Hs Hc Hwf. destruct (magics_exist AI Hwf) as (d & r & Hm).
  eapply paints_impl; [|by apply (paints_enqueueAllocInfo AI d r)].
  intros s' H' a Ha. eapply expected_accessible; eauto.
Qed.

(** painting an allocation.  For an allocation with granule-aligned ends, in
    a region the device's shadow covers, [enqueueAllocInfo] always returns
    (no failed assertion, no access outside the shadow) and leaves the shadow
    of every other address alone.  When it succeeds, an address of the
    allocation is accessible to a kernel exactly when the allocation is live
    and the address lies in the user part: both redzones, the unused tail of
    the last granule and released memory are poisoned. *)
Theorem enqueueAllocInfo_spec AI s (Hs : shadow_wf s)
    (Hc : covered (AllocBegin AI) (AllocSize AI)) (Hwf : alloc_wf AI) :
  ∃ r s', enqueueAllocInfo AI s = Ret (r, s') ∧ shadow_wf s' ∧
    (∀ q b, shadow_byte s q = Some b →
       ¬ (MemToShadow s (AllocBegin AI) ≤ q ≤ MemToShadow s (AllocBegin AI + AllocSize AI - 1)) →
       shadow_byte s' q = Some b) ∧
    (r = UR_RESULT_SUCCESS → ∀ a, in_alloc AI a →
       accessible s' a = negb (IsReleased AI) && in_user AI a).
Proof.
  destruct (enqueueAllocInfo_paints AI s Hs Hc Hwf) as (r & s' & ? & ? & _ & ? & ?).
  exists r, s'. by split_and!.
Qed.

Definition alloc_disjoint (AI AI' : AllocInfo) : Prop :=
  AllocBegin AI + AllocSize AI ≤ AllocBegin AI' ∨ AllocBegin AI' + AllocSize AI' ≤ AllocBegin AI.

Definition list_ok (l : list AllocInfo) : Prop :=
  Forall (λ AI, covered (AllocBegin AI) (AllocSize AI) ∧ alloc_wf AI) l.

(** Disjoint allocations have disjoint shadows. *)
Lemma shadow_disjoint s AI AI' a :
  shadow_wf s → covered (AllocBegin AI) (AllocSize AI) → alloc_wf AI →
  covered (AllocBegin AI') (AllocSize AI') → alloc_wf AI' → alloc_disjoint AI AI' → in_alloc AI a →
  ¬ (MemToShadow s (AllocBegin AI') ≤ MemToShadow s a ≤ MemToShadow s (AllocBegin AI' + AllocSize AI' - 1)).
Proof.
  unfold in_alloc, alloc_disjoint. intros Hs Hc Hwf Hc' Hwf' Hd Ha Hin. set (p := AllocBegin AI') in *. set (n := AllocSize AI') in *.
  destruct Hwf as [Hb _ _ _ _ _], Hwf' as [Hb' _ _ _ [Hsz' _] _]. fold p n in Hb', Hsz'.
  rewrite (MemToShadow_linear s p n (p + n - 1)) in Hin by (done || lia).
  set (d := MemToShadow s a - MemToShadow s p). set (a' := (p / 16 + d) * 16).
  assert (p ≤ a' < p + n) as Ha' by (unfold a', d in *; lia_div).
  assert (a / 16 = a' / 16) as E; [|lia_div].
  apply (MemToShadow_inj s); [done|eapply covered_sub; [exact Hc|lia..]|eapply covered_sub; [exact Hc'|lia..]|].
  rewrite (MemToShadow_linear s p n a') by done.
  assert (a' / 16 = p / 16 + d) as -> by (unfold a'; by rewrite Z.div_mul). unfold d. lia.
Qed.

Lemma accessible_keep (s s' : S) a b :
  shadow_at s a = Some b → shadow_at s' a = Some b → accessible s' a = accessible s a.
Proof. unfold accessible. by intros -> ->. Qed.

Lemma enqueue_all_spec l s :
  shadow_wf s → list_ok l →
  ∃ r s', enqueue_all l s = Ret (r, s') ∧ shadow_wf s' ∧ (∀ a, MemToShadow s' a = MemToShadow s a) ∧
    (∀ q b, shadow_byte s q = Some b →
       (∀ AI, AI ∈ l → ¬ (MemToShadow s (AllocBegin AI) ≤ q ≤ MemToShadow s (AllocBegin AI + AllocSize AI - 1))) →
       shadow_byte s' q = Some b) ∧
    (r = UR_RESULT_SUCCESS → ∀ l1 AI l2, l = l1 ++ AI :: l2 →
       (∀ AI', AI' ∈ l2 → alloc_disjoint AI AI') → ∀ a, in_alloc AI a →
       ∃ b, shadow_at s' a = Some b ∧ accessible s' a = negb (IsReleased AI) && in_user AI a).
Proof.
  intros Hs Hl. revert s Hs. induction Hl as [|AI l [Hc Hwf] Hl IH]; intros s Hs.
  { exists UR_RESULT_SUCCESS, s. split_and!; [done..|]. intros _ [|??] ? ? ?; done. }
  destruct (magics_exist AI Hwf) as (d & rz & Hm).
  destruct (paints_enqueueAllocInfo AI d rz s Hs Hc Hwf Hm) as (r & s1 & E & Hs1 & HM1 & Hf1 & HQ1).
  cbn [enqueue_all]. unfold UR_CALL. rewrite E. cbn [mbind outcome_bind].
  destruct (decide (r = UR_RESULT_SUCCESS)) as [->|Hr].
  2: { exists r, s1. split_and!; [done..| |done]. intros q b Hq Hout. apply Hf1; [done|].
       apply Hout. by left. }
  destruct (IH s1 Hs1) as (r2 & s2 & E2 & Hs2 & HM2 & Hf2 & HQ2). exists r2, s2.
  split_and!; [done..|intros a; by rewrite HM2| |].
  - intros q b Hq Hout. apply Hf2; [apply Hf1; [done|]; apply Hout; by left|].
    intros AI' HAI'. rewrite !HM1. apply Hout. by right.
  - intros Hr2 [|AI0 l1] AI' l2 El Hd a Ha; simplify_eq/=.
    + specialize (HQ1 eq_refl a Ha). eexists.
      assert (shadow_at s2 a = Some (expected_byte d rz AI' a)) as Hb.
      { unfold shadow_at in *. rewrite HM2. apply Hf2; [done|]. intros AI2 H2. rewrite !HM1.
        pose proof (proj1 (Forall_forall _ _) Hl AI2 H2) as [Hc2 Hwf2]. by apply (shadow_disjoint s AI'); auto. }
      split; [exact Hb|]. by eapply expected_accessible.
    + by apply (HQ2 eq_refl l1 AI' l2).
Qed.

(** the update before a kernel launch.  [updateShadowMemory] paints the
    pending allocations in the order they were recorded; when it succeeds the
    list is empty and every allocation that no later entry overlaps is
    seen by the kernel as it is: the addresses of its user part are accessible
    if it is live, all others of it are not.  When a step fails nothing is
    forgotten: the list is kept for the next launch. *)
Theorem updateShadowMemory_spec DI (Hs : shadow_wf (Shadow DI)) (Hl : list_ok (AllocInfos DI)) :
  ∃ r DI', updateShadowMemory DI = Ret (r, DI') ∧ shadow_wf (Shadow DI') ∧
    (r ≠ UR_RESULT_SUCCESS → AllocInfos DI' = AllocInfos DI) ∧
    (r = UR_RESULT_SUCCESS → AllocInfos DI' = [] ∧
       ∀ l1 AI l2, AllocInfos DI = l1 ++ AI :: l2 →
         (∀ AI', AI' ∈ l2 → alloc_disjoint AI AI') → ∀ a, in_alloc AI a →
         accessible (Shadow DI') a = negb (IsReleased AI) && in_user AI a).
Proof.
  destruct (enqueue_all_spec _ _ Hs Hl) as (r & s' & E & Hs' & _ & _ & HQ).
  unfold updateShadowMemory. rewrite E. cbn [mbind outcome_bind].
  eexists r, _. split_and!; [done..| |]; simpl; intros Hr; [by rewrite decide_False|].
  rewrite decide_True by done. split; [done|]. intros l1 AI l2 El Hd a Ha.
  by destruct (HQ Hr l1 AI l2 El Hd a Ha) as (b & _ & ?).
Qed.

End props.
End InterceptorProps.

(** ** Memory *)

(** [memset(b, v, n)] *)
Definition memset (b v n : Z) (m : gmap Z Z) : gmap Z Z :=
  foldr (λ q m, <[q := v]> m) m (seqZ b n).

Lemma memset_lookup b v n m q :
  memset b v n m !! q = if decide (b ≤ q < b + n) then Some v else m !! q.
Proof.
  unfold memset. rewrite (decide_ext _ (q ∈ seqZ b n)) by (rewrite elem_of_seqZ; done).
  induction (seqZ b n) as [|x l IH]; [done|]. simpl. destruct (decide (x = q)) as [->|Hne].
  - rewrite lookup_insert_eq, decide_True by by left. done.
  - rewrite lookup_insert_ne, IH by done. repeat case_decide; set_solver.
Qed.

(** ** The CPU device

    The shadow is one host mapping that starts zeroed; writing outside it is
    undefined. *)
Module CPU.

Record ShadowMemoryCPU := { ShadowBegin : Z; ShadowEnd : Z; mem : gmap Z Z }.

Definition GetShadowSize : Z := 0x80000000000.
Definition MemToShadow (s : ShadowMemoryCPU) (Ptr : Z) : Z :=
  ShadowBegin s ⊕ Z.shiftr Ptr ASAN_SHADOW_SCALE.

Definition EnqueuePoisonShadow (Ptr Size Value : Z) : M ShadowMemoryCPU := λ s,
  if Size =? 0 then Ret (UR_RESULT_SUCCESS, s)
  else
    let SB := MemToShadow s Ptr in
    let SE := MemToShadow s (Ptr ⊕ Size ⊖ 1) in
    if SB <=? SE then
      if (ShadowBegin s <=? SB) && (SE <? ShadowEnd s) then
        Ret (UR_RESULT_SUCCESS,
             {| ShadowBegin := ShadowBegin s; ShadowEnd := ShadowEnd s;
                mem := memset SB Value (SE ⊖ SB ⊕ 1) (mem s) |})
      else Undefined
    else Undefined.

Definition shadow_byte (s : ShadowMemoryCPU) (q : Z) : option Z :=
  if (ShadowBegin s <=? q) && (q <? ShadowEnd s) then Some (default 0 (mem s !! q)) else None.

#[export] Instance shadow_memory : ShadowMemory ShadowMemoryCPU := {
  AsanShadow.MemToShadow := MemToShadow;
  AsanShadow.EnqueuePoisonShadow := EnqueuePoisonShadow;
  AsanShadow.shadow_byte := shadow_byte
}.

(** [Setup], given the address [MmapNoReserve] returns. *)
Definition Setup (mapping : Z) : M ShadowMemoryCPU := λ s,
  if mapping =? 0 then
    Ret (UR_RESULT_ERROR_OUT_OF_HOST_MEMORY,
         {| ShadowBegin := 0; ShadowEnd := ShadowEnd s; mem := mem s |})
  else
    EnqueuePoisonShadow 0 4096 kNullPointerRedzoneMagic
      {| ShadowBegin := mapping; ShadowEnd := mapping ⊕ GetShadowSize; mem := ∅ |}.

(** [Destory] keeps its result in a function-local [static], shared by all
    shadows and computed the first time control reaches it. *)
Definition Destory (munmap : bool) (Result : option ur_result_t) (s : ShadowMemoryCPU)
    : ur_result_t * option ur_result_t * bool :=
  if ShadowBegin s =? 0 then (UR_RESULT_SUCCESS, Result, false)
  else match Result with
       | Some r => (r, Result, false)
       | None => let r := if munmap then UR_RESULT_SUCCESS else UR_RESULT_ERROR_UNKNOWN in
                 (r, Some r, true)
       end.

End CPU.

(** ** GPU devices *)
Module GPU.

Inductive DeviceType := GPU_PVC | GPU_DG2.

(** The driver entry points the GPU shadow is written against.  Each call has
    the number of calls made so far as its first argument, so that any sequence
    of results is an instance; a fill also returns the memory it leaves. *)
Class Driver := {
  PageSize : Z;
  pfnPhysicalMemCreate : nat → ur_result_t * Z;
  pfnVirtualMemMap : nat → Z → Z → ur_result_t;
  pfnUSMFill : nat → Z → Z → Z → gmap Z Z → ur_result_t * gmap Z Z
}.

(** Documented behaviour: pages are powers of two, a successful fill writes its
    pattern to the range, and no fill writes outside the range. *)
Class DriverLaws `{!Driver} := {
  page_log : Z;
  PageSize_pow2 : 0 ≤ page_log ≤ 40 ∧ PageSize = 2 ^ page_log;
  fill_inside n p v size m q m' : pfnUSMFill n p v size m = (UR_RESULT_SUCCESS, m') →
    p ≤ q < p + size → m' !! q = Some v;
  fill_outside n p v size m q : ¬ (p ≤ q < p + size) → (pfnUSMFill n p v size m).2 !! q = m !! q
}.

Record ShadowMemoryGPU := {
  ShadowBegin : Z; ShadowEnd : Z; VirtualMemMaps : gmap Z Z;
  ShadowLowerBound : Z; ShadowUpperBound : Z; mem : gmap Z Z; calls : nat
}.

Definition GetShadowSize (t : DeviceType) : Z :=
  match t with GPU_PVC => 0x180000000000 | GPU_DG2 => 0x100000000000 end.

Definition MemToShadow (t : DeviceType) (s : ShadowMemoryGPU) (Ptr : Z) : Z :=
  match t with
  | GPU_PVC =>
      if negb (Z.land Ptr 0xFF00000000000000 =? 0) then
        ShadowBegin s ⊕ 0x80000000000 ⊕ Z.shiftr (Z.land Ptr 0xFFFFFFFFFFFF) ASAN_SHADOW_SCALE
      else ShadowBegin s ⊕ Z.shiftr (Z.land Ptr 0x7FFFFFFFFFFF) ASAN_SHADOW_SCALE
  | GPU_DG2 =>
      if negb (Z.land Ptr 0xFFFF000000000000 =? 0) then
        ShadowBegin s ⊕ 0x80000000000 ⊕ Z.shiftr (Z.land Ptr 0x7FFFFFFFFFFF) ASAN_SHADOW_SCALE
      else ShadowBegin s ⊕ Z.shiftr Ptr ASAN_SHADOW_SCALE
  end.

Section driver.
Context `{!Driver} (t : DeviceType).

Definition set_mem (m : gmap Z Z) (s : ShadowMemoryGPU) : ShadowMemoryGPU :=
  {| ShadowBegin := ShadowBegin s; ShadowEnd := ShadowEnd s; VirtualMemMaps := VirtualMemMaps s;
     ShadowLowerBound := ShadowLowerBound s; ShadowUpperBound := ShadowUpperBound s;
     mem := m; calls := S (calls s) |}.
Definition set_maps (maps : gmap Z Z) (s : ShadowMemoryGPU) : ShadowMemoryGPU :=
  {| ShadowBegin := ShadowBegin s; ShadowEnd := ShadowEnd s; VirtualMemMaps := maps;
     ShadowLowerBound := ShadowLowerBound s; ShadowUpperBound := ShadowUpperBound s;
     mem := mem s; calls := calls s |}.
Definition set_bounds (lo hi : Z) (s : ShadowMemoryGPU) : ShadowMemoryGPU :=
  {| ShadowBegin := ShadowBegin s; ShadowEnd := ShadowEnd s; VirtualMemMaps := VirtualMemMaps s;
     ShadowLowerBound := lo; ShadowUpperBound := hi; mem := mem s; calls := calls s |}.
Definition called (s : ShadowMemoryGPU) : ShadowMemoryGPU := set_mem (mem s) s.

(** [EnqueueUSMSet] and [EnqueueUSMSetZero] *)
Definition EnqueueUSMSet (Ptr Value Size : Z) : M ShadowMemoryGPU := λ s,
  let '(r, m) := pfnUSMFill (calls s) Ptr Value Size (mem s) in Ret (r, set_mem m s).

(** One iteration of the loop that maps the pages of the shadow. *)
Definition map_page (MappedPtr : Z) : M ShadowMemoryGPU := λ s,
  match VirtualMemMaps s !! MappedPtr with
  | Some _ => Ret (UR_RESULT_SUCCESS, s)
  | None =>
      let '(r, PhysicalMem) := pfnPhysicalMemCreate (calls s) in
      if decide (r = UR_RESULT_SUCCESS) then
        let s := called s in
        let r := pfnVirtualMemMap (calls s) MappedPtr PhysicalMem in
        if decide (r = UR_RESULT_SUCCESS) then
          let s := called s in
          UR_CALL (EnqueueUSMSet MappedPtr 0 PageSize)
            (λ s, Ret (UR_RESULT_SUCCESS, set_maps (<[MappedPtr := PhysicalMem]> (VirtualMemMaps s)) s)) s
        else Ret (r, called s)
      else Ret (r, called s)
  end.

(** The loop; running out of [fuel] is [Undefined]. *)
Fixpoint map_pages (fuel : nat) (MappedPtr SE : Z) : M ShadowMemoryGPU :=
  if MappedPtr <=? SE then
    match fuel with
    | O => λ _, Undefined
    | S fuel => UR_CALL (map_page MappedPtr) (map_pages fuel (MappedPtr ⊕ PageSize) SE)
    end
  else success.

Definition pages_fuel (first SE : Z) : nat := Z.to_nat ((SE - first) / PageSize + 1).

Definition update_bounds (SB SE : Z) : M ShadowMemoryGPU := λ s,
  Ret (UR_RESULT_SUCCESS,
       set_bounds (ShadowLowerBound s `min` RoundDownTo SB PageSize)
                  (ShadowUpperBound s `max` RoundUpTo SE PageSize) s).

Definition EnqueuePoisonShadow (Ptr Size Value : Z) : M ShadowMemoryGPU := λ s,
  if Size =? 0 then Ret (UR_RESULT_SUCCESS, s)
  else
    let SB := MemToShadow t s Ptr in
    let SE := MemToShadow t s (Ptr ⊕ Size ⊖ 1) in
    if SB <=? SE then
      let first := RoundDownTo SB PageSize in
      UR_CALL (map_pages (pages_fuel first SE) first SE)
      (UR_CALL (update_bounds SB SE)
      (UR_CALL (EnqueueUSMSet SB Value (SE ⊖ SB ⊕ 1)) success)) s
    else Undefined.

(** A shadow address is backed by memory when its page is mapped. *)
Definition shadow_byte (s : ShadowMemoryGPU) (q : Z) : option Z :=
  match VirtualMemMaps s !! (RoundDownTo q PageSize) with Some _ => mem s !! q | None => None end.

Definition shadow_memory : ShadowMemory ShadowMemoryGPU := {|
  AsanShadow.MemToShadow := MemToShadow t;
  AsanShadow.EnqueuePoisonShadow := EnqueuePoisonShadow;
  AsanShadow.shadow_byte := shadow_byte
|}.

(** [Setup], given the result and the address of the reservation. *)
Definition Setup (reserve : ur_result_t * Z) : M ShadowMemoryGPU := λ s,
  let '(r, base) := reserve in
  if decide (r = UR_RESULT_SUCCESS) then
    EnqueuePoisonShadow 0 (u64 (Z.shiftl PageSize ASAN_SHADOW_SCALE)) kNullPointerRedzoneMagic
      {| ShadowBegin := base; ShadowEnd := base ⊕ GetShadowSize t; VirtualMemMaps := VirtualMemMaps s;
         ShadowLowerBound := ShadowLowerBound s; ShadowUpperBound := ShadowUpperBound s;
         mem := mem s; calls := S (calls s) |}
  else Ret (r, called s).

End driver.
End GPU.

Module CPUFacts.
Import CPU.

Definition wf (s : ShadowMemoryCPU) : Prop :=
  0 < ShadowBegin s ∧ ShadowEnd s = ShadowBegin s + GetShadowSize ∧ ShadowEnd s ≤ 2 ^ 64.
(** The addresses of user space. *)
Definition covered (p n : Z) : Prop := 0 ≤ p ∧ 0 ≤ n ∧ p + n ≤ 2 ^ 47.

Lemma MemToShadow_eq s a : wf s → 0 ≤ a < 2 ^ 47 → MemToShadow s a = ShadowBegin s + a / 16.
Proof.
  intros (H1 & H2 & H3) Ha. unfold MemToShadow, ASAN_SHADOW_SCALE, GetShadowSize in *.
  rewrite Z.shiftr_div_pow2 by lia. change (2 ^ 4) with 16. apply u64_small. unfold in_u64. lia_div.
Qed.

Lemma cpu_covered_bounds p n : covered p n → 0 ≤ p ∧ 0 ≤ n ∧ p + n ≤ 2 ^ 64.
Proof. unfold covered. lia. Qed.
Lemma cpu_covered_sub p n q m : covered p n → p ≤ q → 0 ≤ m → q + m ≤ p + n → covered q m.
Proof. unfold covered. lia. Qed.
Lemma cpu_MemToShadow_linear s p n a : wf s → covered p n → p ≤ a < p + n →
  MemToShadow s a = MemToShadow s p + (a / 16 - p / 16).
Proof. unfold covered. intros. rewrite !MemToShadow_eq by (done || lia). lia. Qed.

Lemma cpu_MemToShadow_inj s a b : wf s → covered a 1 → covered b 1 →
  MemToShadow s a = MemToShadow s b → a / 16 = b / 16.
Proof. unfold covered. intros Hs Ha Hb. rewrite !MemToShadow_eq by (done || lia). lia. Qed.

Lemma cpu_EnqueuePoisonShadow_law p n v s : wf s → covered p n →
  ∃ r s', EnqueuePoisonShadow p n v s = Ret (r, s') ∧ wf s' ∧
    (∀ a, MemToShadow s' a = MemToShadow s a) ∧
    (∀ q b, shadow_byte s q = Some b →
       ¬ (0 < n ∧ MemToShadow s p ≤ q ≤ MemToShadow s (p + n - 1)) → shadow_byte s' q = Some b) ∧
    (r = UR_RESULT_SUCCESS → 0 < n →
       ∀ q, MemToShadow s p ≤ q ≤ MemToShadow s (p + n - 1) → shadow_byte s' q = Some v).
Proof.
  intros Hs Hc. pose proof Hs as (H1 & H2 & H3). pose proof Hc as (H4 & H5 & H6).
  unfold EnqueuePoisonShadow. destruct (Z.eqb_spec n 0) as [->|Hn].
  { exists UR_RESULT_SUCCESS, s. split_and!; [done..|intros; lia]. }
  assert (p ⊕ n ⊖ 1 = p + n - 1) as ->.
  { rewrite (u64_small (p + n)), u64_small by (unfold in_u64; lia). done. }
  rewrite !MemToShadow_eq by (done || lia). unfold GetShadowSize in *.
  assert (p / 16 ≤ (p + n - 1) / 16) by (apply Z.div_le_mono; lia).
  assert (0 ≤ p / 16 ∧ (p + n - 1) / 16 < 0x80000000000) as [? ?] by lia_div.
  rewrite (proj2 (Z.leb_le _ _)) by lia. rewrite (proj2 (Z.leb_le (ShadowBegin s) _)) by lia.
  rewrite (proj2 (Z.ltb_lt _ _)) by lia. simpl.
  set (size := _ ⊕ 1). assert (size = (p + n - 1) / 16 - p / 16 + 1) as ->.
  { unfold size. rewrite u64_sub_small, u64_small by (unfold in_u64; lia). lia. }
  eexists UR_RESULT_SUCCESS, _. split_and!; [done..| |]; unfold shadow_byte; simpl; setoid_rewrite memset_lookup.
  - intros q b. case_match; [|done]. intros Hb Hq. rewrite decide_False by lia. done.
  - intros _ _ q Hq. rewrite decide_True by lia.
    rewrite (proj2 (Z.leb_le _ _)), (proj2 (Z.ltb_lt _ _)) by lia. done.
Qed.

#[export] Instance laws : ShadowMemoryLaws ShadowMemoryCPU := {
  shadow_wf := wf; AsanShadow.covered := covered;
  AsanShadow.covered_bounds := cpu_covered_bounds; AsanShadow.covered_sub := cpu_covered_sub;
  AsanShadow.MemToShadow_linear := cpu_MemToShadow_linear;
  AsanShadow.MemToShadow_inj := cpu_MemToShadow_inj;
  AsanShadow.EnqueuePoisonShadow_law := cpu_EnqueuePoisonShadow_law
}.

(** After a successful [Setup] the shadow is well formed and no address of the
    null page is accessible. *)
Lemma Setup_spec mapping s : 0 < mapping → mapping + GetShadowSize < 2 ^ 64 →
  ∃ s', Setup mapping s = Ret (UR_RESULT_SUCCESS, s') ∧ wf s' ∧
    ∀ a, 0 ≤ a < 4096 → Interceptor.accessible s' a = false.
Proof.
  intros Hm Hb. unfold Setup. rewrite (proj2 (Z.eqb_neq _ _)) by lia.
  set (s0 := {| ShadowBegin := mapping; ShadowEnd := _; mem := ∅ |}).
  assert (wf s0) as Hs0.
  { unfold wf, s0. simpl. rewrite u64_small by (unfold in_u64, GetShadowSize in *; lia). lia. }
  assert (covered 0 4096) as Hc by (unfold covered; lia).
  destruct (cpu_EnqueuePoisonShadow_law 0 4096 kNullPointerRedzoneMagic s0 Hs0 Hc)
    as (r & s' & E & Hs' & HM & _ & Hv). exists s'.
  assert (r = UR_RESULT_SUCCESS) as ->.
  { revert E. unfold EnqueuePoisonShadow. repeat case_match; congruence. }
  split_and!; [done..|]. intros a Ha. unfold Interceptor.accessible, shadow_at. simpl.
  rewrite HM, (Hv eq_refl) by (lia || (rewrite !MemToShadow_eq by (done || lia); lia_div)). done.
Qed.

End CPUFacts.

Module GPUFacts.
Import GPU.

Lemma land_high_zero a c k : 0 ≤ k → 0 ≤ a < 2 ^ k → Z.land a (Z.shiftl c k) = 0.
Proof.
  intros Hk Ha. apply Z.bits_inj'. intros n Hn. rewrite Z.land_spec, Z.shiftl_spec, Z.bits_0 by lia.
  destruct (decide (n < k)); [by rewrite (Z.testbit_neg_r c), andb_false_r by lia|].
  rewrite <-(Z.mod_small a (2 ^ k)) by done. by rewrite Z.mod_pow2_bits_high by lia.
Qed.

Lemma land_high_nonzero a c k : 0 ≤ k → k ≤ 63 → 2 ^ 63 ≤ a < 2 ^ 64 → Z.testbit c (63 - k) = true →
  Z.land a (Z.shiftl c k) ≠ 0.
Proof.
  intros Hk Hk' Ha Hc E. assert (Z.testbit (Z.land a (Z.shiftl c k)) 63 = true) as Ht; [|by rewrite E in Ht].
  rewrite Z.land_spec, Z.shiftl_spec, Hc, andb_true_r by lia.
  apply Z.testbit_true; [lia|]. assert (a / 2 ^ 63 = 1) as -> by (symmetry; apply (Z.div_unique _ _ _ (a - 2 ^ 63)); lia).
  done.
Qed.

Section facts.
Context `{!Driver} `{!DriverLaws} (t : DeviceType).

Definition device_base : Z := match t with GPU_PVC => 0xFF00000000000000 | GPU_DG2 => 0xFFFF800000000000 end.
Definition device_size : Z := match t with GPU_PVC => 2 ^ 48 | GPU_DG2 => 2 ^ 47 end.

(** The regions of asan_shadow.hpp: host and shared USM, and device USM. *)
Definition covered (p n : Z) : Prop :=
  0 ≤ n ∧ (0 ≤ p ∧ p + n ≤ 2 ^ 47 ∨ device_base ≤ p ∧ p + n ≤ device_base + device_size).
Definition wf (s : ShadowMemoryGPU) : Prop :=
  0 < ShadowBegin s ∧ ShadowEnd s = ShadowBegin s + GetShadowSize t ∧ ShadowEnd s + 2 ^ 41 ≤ 2 ^ 64.

Lemma size_pos : 2 ^ 43 + device_size / 16 ≤ GetShadowSize t.
Proof. unfold device_size. destruct t; apply Z.leb_le; reflexivity. Qed.

Lemma MemToShadow_low s a : wf s → 0 ≤ a < 2 ^ 47 → MemToShadow t s a = ShadowBegin s + a / 16.
Proof.
  intros (H1 & H2 & H3) Ha. assert (a / 16 < 2 ^ 43) by lia_div. assert (0 ≤ a / 16) by lia_div.
  assert (u64 (ShadowBegin s + a / 16) = ShadowBegin s + a / 16) as Hu.
  { apply u64_small. unfold in_u64. destruct t; simpl in *; lia. }
  unfold MemToShadow, ASAN_SHADOW_SCALE. destruct t.
  - change 0xFF00000000000000 with (Z.shiftl 0xFF 56). rewrite land_high_zero by lia. simpl negb. cbn match.
    change 0x7FFFFFFFFFFF with (Z.ones 47). rewrite Z.land_ones, Z.mod_small, Z.shiftr_div_pow2 by lia. done.
  - change 0xFFFF000000000000 with (Z.shiftl 0xFFFF 48). rewrite land_high_zero by lia. simpl negb. cbn match.
    rewrite Z.shiftr_div_pow2 by lia. done.
Qed.

Lemma MemToShadow_device s a : wf s → device_base ≤ a < device_base + device_size →
  MemToShadow t s a = ShadowBegin s + 2 ^ 43 + (a - device_base) / 16.
Proof.
  intros (H1 & H2 & H3) Ha. pose proof size_pos as Hsz.
  assert (0 ≤ (a - device_base) / 16 ≤ device_size / 16) as Hd.
  { split; [apply Z.div_pos; lia|apply Z.div_le_mono; lia]. }
  assert (∀ x, 0 ≤ x ≤ 2 ^ 43 + device_size / 16 → u64 (ShadowBegin s + x) = ShadowBegin s + x) as Hu.
  { intros x Hx. apply u64_small. unfold in_u64. lia. }
  assert (0 ≤ device_size / 16) by (apply Z.div_pos; unfold device_size; destruct t; lia).
  assert (∀ x, x = (a - device_base) / 16 →
    u64 (u64 (ShadowBegin s + 0x80000000000) + x) = ShadowBegin s + 2 ^ 43 + (a - device_base) / 16) as Hg.
  { intros x ->. rewrite (Hu 0x80000000000) by lia. rewrite <-Z.add_assoc, Hu by lia. lia. }
  unfold MemToShadow, ASAN_SHADOW_SCALE, device_base, device_size in *. destruct t.
  - change 0xFF00000000000000 with (Z.shiftl 0xFF 56) at 1.
    rewrite (proj2 (Z.eqb_neq _ 0)) by (apply land_high_nonzero; [lia..|done]). cbn [negb].
    apply Hg. change 0xFFFFFFFFFFFF with (Z.ones 48). rewrite Z.land_ones, Z.shiftr_div_pow2 by lia.
    f_equal. symmetry. apply (Z.mod_unique _ _ (0xFF * 2 ^ 8)); lia.
  - change 0xFFFF000000000000 with (Z.shiftl 0xFFFF 48).
    rewrite (proj2 (Z.eqb_neq _ 0)) by (apply land_high_nonzero; [lia..|done]). cbn [negb].
    apply Hg. change 0x7FFFFFFFFFFF with (Z.ones 47). rewrite Z.land_ones, Z.shiftr_div_pow2 by lia.
    f_equal. symmetry. apply (Z.mod_unique _ _ (0x1FFFF)); lia.
Qed.

Lemma device_base_aligned : device_base `mod` 16 = 0.
Proof. unfold device_base. by destruct t. Qed.

Lemma gpu_covered_bounds p n : covered p n → 0 ≤ p ∧ 0 ≤ n ∧ p + n ≤ 2 ^ 64.
Proof. unfold covered, device_base, device_size. destruct t; lia. Qed.
Lemma gpu_covered_sub p n q m : covered p n → p ≤ q → 0 ≤ m → q + m ≤ p + n → covered q m.
Proof. unfold covered. lia. Qed.
Lemma gpu_MemToShadow_linear s p n a : wf s → covered p n → p ≤ a < p + n →
  MemToShadow t s a = MemToShadow t s p + (a / 16 - p / 16).
Proof.
  intros Hs [Hn [Hr|Hr]] Ha.
  - rewrite !MemToShadow_low by (done || lia). lia.
  - rewrite !MemToShadow_device by (done || lia). pose proof device_base_aligned. lia_div.
Qed.

(** Host and device addresses never share a shadow byte. *)
Lemma gpu_MemToShadow_inj s a b : wf s → covered a 1 → covered b 1 →
  MemToShadow t s a = MemToShadow t s b → a / 16 = b / 16.
Proof.
  intros Hs [_ Ha] [_ Hb]. pose proof device_base_aligned.
  assert (∀ x, device_base ≤ x → x / 16 = device_base / 16 + (x - device_base) / 16 ∧
    0 ≤ (x - device_base) / 16) as Hd by (intros x Hx; lia_div).
  assert (∀ x, x < 2 ^ 47 → x / 16 < 2 ^ 43) as Hl by (intros x Hx; lia_div).
  destruct Ha as [Ha|Ha], Hb as [Hb|Hb].
  - rewrite !MemToShadow_low by (done || lia). lia.
  - rewrite (MemToShadow_low s a), (MemToShadow_device s b) by (done || lia).
    pose proof (Hl a). pose proof (Hd b). lia.
  - rewrite (MemToShadow_low s b), (MemToShadow_device s a) by (done || lia).
    pose proof (Hl b). pose proof (Hd a). lia.
  - rewrite !MemToShadow_device by (done || lia). pose proof (Hd a). pose proof (Hd b). lia.
Qed.

(** ** Mapping the pages *)

Lemma page_pos : 0 < PageSize ≤ 2 ^ 40.
Proof.
  destruct PageSize_pow2 as [Hk ->]. split; [apply Z.pow_pos_nonneg; lia|apply Z.pow_le_mono_r; lia].
Qed.

Lemma page_div x : 0 ≤ x `mod` PageSize < PageSize ∧ x = PageSize * (x / PageSize) + x `mod` PageSize.
Proof. pose proof page_pos. split; [apply Z.mod_pos_bound; lia|apply Z.div_mod; lia]. Qed.

Lemma page_of q : in_u64 q → RoundDownTo q PageSize = q - q `mod` PageSize.
Proof. destruct PageSize_pow2 as [Hk ->]. intros. apply RoundDownTo_pow2; [done|lia]. Qed.

Lemma page_unique q P : in_u64 q → P `mod` PageSize = 0 → P ≤ q < P + PageSize → RoundDownTo q PageSize = P.
Proof.
  intros Hq HP Hr. rewrite page_of by done. pose proof page_pos.
  replace q with (P + (q - P)) by lia. rewrite <-Z.add_mod_idemp_l, HP by lia.
  rewrite Z.add_0_l, Z.mod_small by lia. lia.
Qed.

Lemma page_of_spec q : in_u64 q →
  RoundDownTo q PageSize `mod` PageSize = 0 ∧ RoundDownTo q PageSize ≤ q < RoundDownTo q PageSize + PageSize.
Proof.
  intros Hq. rewrite page_of by done. pose proof page_pos as Hp.
  pose proof (page_div q). split; [|lia].
  by rewrite Zminus_mod_idemp_r, Z.sub_diag.
Qed.

Lemma pages_apart P Q : P `mod` PageSize = 0 → Q `mod` PageSize = 0 → P < Q → P + PageSize ≤ Q.
Proof.
  intros HP HQ Hlt. pose proof page_pos. pose proof (page_div P). pose proof (page_div Q).
  assert (P / PageSize + 1 ≤ Q / PageSize) as Hle.
  { apply Z.le_succ_l, Z.lt_nge. intros ?%(Z.mul_le_mono_nonneg_l _ _ PageSize); lia. }
  apply (Z.mul_le_mono_nonneg_l _ _ PageSize) in Hle; lia.
Qed.

(** What the mapping of pages and the update of the bounds leave in place. *)
Record stable (s s' : ShadowMemoryGPU) : Prop := {
  st_begin : ShadowBegin s' = ShadowBegin s;
  st_end : ShadowEnd s' = ShadowEnd s;
  st_byte q b : shadow_byte s q = Some b → shadow_byte s' q = Some b;
  st_maps P : is_Some (VirtualMemMaps s !! P) → is_Some (VirtualMemMaps s' !! P)
}.

Lemma stable_refl s : stable s s.
Proof. by constructor. Qed.
Lemma stable_trans s1 s2 s3 : stable s1 s2 → stable s2 s3 → stable s1 s3.
Proof. intros [????] [????]. constructor; [congruence..|eauto|eauto]. Qed.

Lemma stable_called s : stable s (called s).
Proof. by constructor. Qed.

Lemma map_page_spec P s : P `mod` PageSize = 0 → 0 ≤ P → P + PageSize ≤ 2 ^ 64 →
  ∃ r s', map_page P s = Ret (r, s') ∧ stable s s' ∧
    (r = UR_RESULT_SUCCESS → is_Some (VirtualMemMaps s' !! P)).
Proof.
  intros HP H0' Hb. unfold map_page. destruct (VirtualMemMaps s !! P) eqn:E.
  { exists UR_RESULT_SUCCESS, s. split_and!; [done|apply stable_refl|by rewrite E]. }
  destruct (pfnPhysicalMemCreate _) as [r1 pm]. case_decide as Hr1.
  2: { eexists r1, _. split_and!; [done|apply stable_called|done]. }
  case_decide as Hr2.
  2: { eexists _, _. split_and!; [done|eapply stable_trans; apply stable_called|done]. }
  unfold UR_CALL, EnqueueUSMSet. destruct (pfnUSMFill _ _ _ _ _) as [r3 m3] eqn:Ef. cbn [mbind outcome_bind].
  assert (∀ q, RoundDownTo q PageSize ≠ P → m3 !! q = mem s !! q) as Hm.
  { intros q Hq. pose proof (fill_outside (calls (called (called s))) P 0 PageSize (mem s) q) as Ho.
    rewrite <-Ho.
    - change (mem s) with (mem (called (called s))). by rewrite Ef.
    - intros Hr. apply Hq. apply page_unique; [unfold in_u64; lia|done|done]. }
  assert (∀ maps, (∀ Q, is_Some (VirtualMemMaps s !! Q) → is_Some (maps !! Q)) →
    stable s (set_maps maps (set_mem m3 (called (called s))))) as Hst.
  { intros maps Hmaps. constructor; [done..| |done]. intros q b. unfold shadow_byte. simpl.
    destruct (VirtualMemMaps s !! RoundDownTo q PageSize) eqn:Eq; [|done].
    destruct (Hmaps (RoundDownTo q PageSize)) as [? ->]; [by rewrite Eq|].
    rewrite Hm; [done|]. intros HPq. by rewrite HPq, E in Eq. }
  case_decide as Hr3.
  - eexists _, _. split_and!; [done| |intros _; simpl; by rewrite lookup_insert_eq].
    apply Hst. intros Q HQ. simpl. destruct (decide (P = Q)) as [->|]; [by rewrite lookup_insert_eq|].
    by rewrite lookup_insert_ne.
  - eexists _, _. split_and!; [done| |done]. by apply (Hst (VirtualMemMaps s)).
Qed.

(** The loop terminates within its fuel and maps every page up to [SE]. *)
Lemma map_pages_spec fuel P SE s :
  P `mod` PageSize = 0 → 0 ≤ P → SE + PageSize < 2 ^ 64 → SE < P + Z.of_nat fuel * PageSize →
  ∃ r s', map_pages fuel P SE s = Ret (r, s') ∧ stable s s' ∧
    (r = UR_RESULT_SUCCESS → ∀ Q, Q `mod` PageSize = 0 → P ≤ Q ≤ SE → is_Some (VirtualMemMaps s' !! Q)).
Proof.
  pose proof page_pos as Hp. revert P s. induction fuel as [|fuel IH]; intros P s HP Hge Hse Hf.
  { cbn [map_pages]. rewrite (proj2 (Z.leb_gt _ _)) by lia.
    exists UR_RESULT_SUCCESS, s. split_and!; [done|apply stable_refl|intros; lia]. }
  cbn [map_pages]. destruct (Z.leb_spec P SE).
  2: { exists UR_RESULT_SUCCESS, s. split_and!; [done|apply stable_refl|intros; lia]. }
  destruct (map_page_spec P s HP Hge ltac:(lia)) as (r & s1 & E & Hst & Hr).
  unfold UR_CALL. rewrite E. cbn [mbind outcome_bind]. case_decide as Hd.
  2: { exists r, s1. split_and!; done. }
  rewrite (u64_small (P + PageSize)) by (unfold in_u64; lia).
  destruct (IH (P + PageSize) s1) as (r2 & s2 & E2 & Hst2 & Hr2); [|lia..|].
  { by rewrite <-Z.add_mod_idemp_r, Z.mod_same, Z.add_0_r by lia. }
  exists r2, s2. split_and!; [done|by eapply stable_trans|]. intros Hs2 Q HQ HPQ.
  destruct (decide (P = Q)) as [->|]; [by apply Hst2, Hr|]. apply Hr2; [done..|].
  split; [|lia]. by apply pages_apart; [..|lia].
Qed.

Lemma pages_fuel_enough first SE : SE < first + Z.of_nat (pages_fuel first SE) * PageSize.
Proof.
  unfold pages_fuel. pose proof page_pos. pose proof (page_div (SE - first)). nia.
Qed.

Lemma stable_MemToShadow s s' : stable s s' → ∀ a, MemToShadow t s' a = MemToShadow t s a.
Proof. intros Hs a. unfold MemToShadow. by rewrite (st_begin _ _ Hs). Qed.
Lemma stable_wf s s' : stable s s' → wf s → wf s'.
Proof. intros [Hb He _ _]. unfold wf. by rewrite Hb, He. Qed.

(** The last fill keeps the bytes outside its range. *)
Lemma fill_stable s p v n : ∀ r s', EnqueueUSMSet p v n s = Ret (r, s') →
  ShadowBegin s' = ShadowBegin s ∧ ShadowEnd s' = ShadowEnd s ∧
  VirtualMemMaps s' = VirtualMemMaps s ∧ ShadowLowerBound s' = ShadowLowerBound s ∧
  ShadowUpperBound s' = ShadowUpperBound s ∧
  (∀ q b, shadow_byte s q = Some b → ¬ (p ≤ q < p + n) → shadow_byte s' q = Some b) ∧
  (r = UR_RESULT_SUCCESS → ∀ q, is_Some (VirtualMemMaps s !! RoundDownTo q PageSize) → p ≤ q < p + n →
     shadow_byte s' q = Some v).
Proof.
  intros r s'. unfold EnqueueUSMSet. destruct (pfnUSMFill _ _ _ _ _) as [r' m] eqn:E. intros [= <- <-].
  split_and!; [done..| |]; unfold shadow_byte; simpl.
  - intros q b. case_match; [|done]. intros Hb Hq. rewrite <-Hb.
    rewrite <-(fill_outside (calls s) p v n (mem s) q Hq). by rewrite E.
  - intros -> q [x ->] Hq. by eapply fill_inside.
Qed.

Lemma shadow_in_range s p n : wf s → covered p n → 0 < n →
  MemToShadow t s p ≤ MemToShadow t s (p + n - 1) ∧ 0 ≤ MemToShadow t s p ∧
  MemToShadow t s (p + n - 1) ≤ ShadowEnd s.
Proof.
  intros Hs Hc Hn. rewrite (gpu_MemToShadow_linear s p n (p + n - 1)) by (done || lia).
  assert (p / 16 ≤ (p + n - 1) / 16) by (apply Z.div_le_mono; lia).
  pose proof Hs as (Hb0 & He0 & _). pose proof size_pos as Hsz.
  assert (2 ^ 43 ≤ GetShadowSize t) by (destruct t; simpl; lia).
  destruct Hc as [_ [Hr|Hr]].
  - rewrite MemToShadow_low by (done || lia). lia_div.
  - rewrite MemToShadow_device by (done || lia). pose proof device_base_aligned as Ha. revert Hr Ha Hsz.
    generalize device_base device_size. intros b d Hr Ha Hsz.
    assert (p / 16 = b / 16 + (p - b) / 16) by lia_div.
    assert ((p + n - 1) / 16 ≤ b / 16 + d / 16) by lia_div. lia_div.
Qed.

(** Poisoning maps every page of the shadow of the range, keeps all other
    bytes, and extends the bounds to the range. *)
Lemma EnqueuePoisonShadow_spec p n v s : wf s → covered p n →
  ∃ r s', EnqueuePoisonShadow t p n v s = Ret (r, s') ∧ wf s' ∧
    (∀ a, MemToShadow t s' a = MemToShadow t s a) ∧
    (∀ q b, shadow_byte s q = Some b →
       ¬ (0 < n ∧ MemToShadow t s p ≤ q ≤ MemToShadow t s (p + n - 1)) → shadow_byte s' q = Some b) ∧
    (r = UR_RESULT_SUCCESS → 0 < n →
       ∀ q, MemToShadow t s p ≤ q ≤ MemToShadow t s (p + n - 1) →
       shadow_byte s' q = Some v ∧ ShadowLowerBound s' ≤ q ≤ ShadowUpperBound s').
Proof.
  intros Hs Hc. pose proof (gpu_covered_bounds p n Hc) as Hcb.
  unfold EnqueuePoisonShadow. destruct (Z.eqb_spec n 0) as [->|Hn].
  { exists UR_RESULT_SUCCESS, s. split_and!; [done..|intros; lia]. }
  assert (p ⊕ n ⊖ 1 = p + n - 1) as ->.
  { unfold u64, wrap. rewrite Zminus_mod_idemp_l. apply Z.mod_small. lia. }
  pose proof (shadow_in_range s p n Hs Hc ltac:(lia)) as (Hle & H0s & HSE).
  set (SB := MemToShadow t s p) in *. set (SE := MemToShadow t s (p + n - 1)) in *.
  rewrite (proj2 (Z.leb_le _ _) Hle).
  pose proof Hs as (_ & _ & Hend). pose proof page_pos as Hp.
  assert (in_u64 SB) as HSBu by (unfold in_u64; lia).
  pose proof (page_of_spec SB HSBu) as [Hal Hfirst].
  assert (0 ≤ RoundDownTo SB PageSize) as Hf0.
  { rewrite page_of by done. pose proof (Z.mod_le SB PageSize). lia. }
  destruct (map_pages_spec (pages_fuel (RoundDownTo SB PageSize) SE) (RoundDownTo SB PageSize) SE s)
    as (r1 & s1 & E1 & Hst & Hm1); [done|done|lia|apply pages_fuel_enough|].
  unfold UR_CALL at 1. rewrite E1. cbn [mbind outcome_bind].
  case_decide as Hr1.
  2: { exists r1, s1. split_and!; [done|by eapply stable_wf|by apply stable_MemToShadow| |done].
       intros q b Hb _. by apply Hst. }
  unfold UR_CALL at 1, update_bounds. cbn [mbind outcome_bind]. rewrite decide_True by done.
  set (s2 := set_bounds _ _ s1).
  assert (stable s s2) as Hst2 by (eapply stable_trans; [exact Hst|by constructor]).
  unfold UR_CALL at 1. destruct (EnqueueUSMSet SB v (SE ⊖ SB ⊕ 1) s2) as [[r3 s3]|?|] eqn:E3.
  2, 3: unfold EnqueueUSMSet in E3; by destruct (pfnUSMFill _ _ _ _ _).
  assert (SE ⊖ SB ⊕ 1 = SE - SB + 1) as Hsz.
  { rewrite u64_sub_small, u64_small by (unfold in_u64; lia). done. }
  rewrite Hsz in E3. apply fill_stable in E3 as (Eb & Ee & Em & El & Eu & Ho & Hi).
  cbn [mbind outcome_bind].
  assert (wf s3) as Hs3.
  { unfold wf. rewrite Eb, Ee. by apply (stable_wf _ _ Hst2). }
  assert (∀ a, MemToShadow t s3 a = MemToShadow t s a) as HM3.
  { intros a. rewrite <-(stable_MemToShadow _ _ Hst2 a). unfold MemToShadow. by rewrite Eb. }
  assert (∀ q b, shadow_byte s q = Some b → ¬ (0 < n ∧ SB ≤ q ≤ SE) → shadow_byte s3 q = Some b) as Hf3.
  { intros q b Hb Hq. apply Ho; [by apply Hst2|lia]. }
  exists r3, s3. split_and!; [by case_decide; subst|done..|].
  intros -> _ q Hq. split.
  - apply Hi; [done| |lia]. simpl. assert (in_u64 q) as Hqu by (unfold in_u64; lia).
    pose proof (page_of_spec q Hqu) as [Hqa Hqp]. apply Hm1; [done..|]. split; [|lia].
    destruct (decide (RoundDownTo SB PageSize ≤ RoundDownTo q PageSize)); [done|].
    pose proof (pages_apart _ _ Hqa Hal ltac:(lia)). lia.
  - rewrite El, Eu. unfold s2. simpl. destruct PageSize_pow2 as [Hk HPS]. rewrite HPS in *.
    destruct (RoundUpTo_spec SE page_log); lia.
Qed.

Lemma gpu_EnqueuePoisonShadow_law p n v s : wf s → covered p n →
  ∃ r s', EnqueuePoisonShadow t p n v s = Ret (r, s') ∧ wf s' ∧
    (∀ a, MemToShadow t s' a = MemToShadow t s a) ∧
    (∀ q b, shadow_byte s q = Some b →
       ¬ (0 < n ∧ MemToShadow t s p ≤ q ≤ MemToShadow t s (p + n - 1)) → shadow_byte s' q = Some b) ∧
    (r = UR_RESULT_SUCCESS → 0 < n →
       ∀ q, MemToShadow t s p ≤ q ≤ MemToShadow t s (p + n - 1) → shadow_byte s' q = Some v).
Proof.
  intros Hs Hc. destruct (EnqueuePoisonShadow_spec p n v s Hs Hc) as (r & s' & ? & ? & ? & ? & Hq).
  exists r, s'. split_and!; [done..|]. intros Hr Hn q Hr'. by apply Hq.
Qed.

Definition laws : @ShadowMemoryLaws ShadowMemoryGPU (shadow_memory t) :=
  @Build_ShadowMemoryLaws ShadowMemoryGPU (shadow_memory t) wf covered
    gpu_covered_bounds gpu_covered_sub gpu_MemToShadow_linear gpu_MemToShadow_inj gpu_EnqueuePoisonShadow_law.

End facts.
End GPUFacts.

(** ** The shadow of work-group local memory (GPU) *)
Module LocalShadow.

Definition ASAN_MAX_WG_LOCAL : Z := 8192.

(** [LastAllocedSize] is a function-local [static], shared by every shadow
    object; [live] records the device buffers allocated for this purpose. *)
Record state := {
  LocalShadowOffset : Z; LastAllocedSize : Z; ShadowMalloced : Z; live : gmap Z Z
}.
(** The results of the driver calls of one execution. *)
Record driver_results := {
  free_old : ur_result_t; allocate : ur_result_t * Z; set_zero : ur_result_t; free_new : ur_result_t
}.

Definition RequiredShadowSize (NumWG LocalMemorySize : Z) : Z :=
  Z.shiftr ((ASAN_MAX_WG_LOCAL `min` NumWG) ⊗ LocalMemorySize) ASAN_SHADOW_SCALE.

Definition release_old (d : driver_results) (s : state) : ur_result_t * state :=
  if LocalShadowOffset s =? 0 then (UR_RESULT_SUCCESS, s)
  else if decide (free_old d = UR_RESULT_SUCCESS) then
    (UR_RESULT_SUCCESS, {| LocalShadowOffset := 0; LastAllocedSize := 0;
       ShadowMalloced := ShadowMalloced s ⊖ LastAllocedSize s;
       live := delete (LocalShadowOffset s) (live s) |})
  else (free_old d, s).

Definition grow (d : driver_results) (Required : Z) (s : state) : ur_result_t * state :=
  let '(r, s) := release_old d s in
  if decide (r = UR_RESULT_SUCCESS) then
    let '(r, p) := allocate d in
    if decide (r = UR_RESULT_SUCCESS) then
      let s := {| LocalShadowOffset := p; LastAllocedSize := LastAllocedSize s;
                  ShadowMalloced := ShadowMalloced s; live := <[p := Required]> (live s) |} in
      let finish (s : state) :=
        {| LocalShadowOffset := LocalShadowOffset s; LastAllocedSize := Required;
           ShadowMalloced := ShadowMalloced s ⊕ Required; live := live s |} in
      if decide (set_zero d = UR_RESULT_SUCCESS) then (UR_RESULT_SUCCESS, finish s)
      else if decide (free_new d = UR_RESULT_SUCCESS) then
        (UR_RESULT_SUCCESS, finish {| LocalShadowOffset := 0; LastAllocedSize := 0;
           ShadowMalloced := ShadowMalloced s; live := delete p (live s) |})
      else (free_new d, s)
    else (r, s)
  else (r, s).

(** The result, the new state and the two output references. *)
Definition AllocLocalShadow (d : driver_results) (NumWG LocalMemorySize : Z) (s : state)
    : ur_result_t * state * option (Z * Z) :=
  let Required := RequiredShadowSize NumWG LocalMemorySize in
  let '(r, s) := if LastAllocedSize s <? Required then grow d Required s
                 else (UR_RESULT_SUCCESS, s) in
  if decide (r = UR_RESULT_SUCCESS) then
    (UR_RESULT_SUCCESS, s, Some (LocalShadowOffset s, LocalShadowOffset s ⊕ Required ⊖ 1))
  else (r, s, None).

(** The recorded size is that of the buffer at the recorded address. *)
Definition inv (s : state) : Prop :=
  LocalShadowOffset s = 0 ∧ LastAllocedSize s = 0 ∨
  LocalShadowOffset s ≠ 0 ∧ live s !! LocalShadowOffset s = Some (LastAllocedSize s).

End LocalShadow.

Module ShadowProps.
Import Interceptor InterceptorProps.
#[local] Existing Instance CPU.shadow_memory.
#[local] Existing Instance CPUFacts.laws.

(** C7: the GPU shadow implements the interface the interceptor relies on, for
    both layouts, whatever the driver returns.  Poisoning a covered range
    always returns, within the page loop's bound; it maps each page at most when
    it is first needed, never changes another byte that was backed, and on
    success every byte of the range reads the value and lies between the
    recorded bounds.  Distinct granules of host, shared and device memory
    never share a shadow byte. *)
Theorem gpu_shadow_spec `{!GPU.Driver} `{!GPU.DriverLaws} t p n v s
    (Hs : GPUFacts.wf t s) (Hc : GPUFacts.covered t p n) :
  (∃ r s', GPU.EnqueuePoisonShadow t p n v s = Ret (r, s') ∧ GPUFacts.wf t s' ∧
    (∀ q b, GPU.shadow_byte s q = Some b →
       ¬ (0 < n ∧ GPU.MemToShadow t s p ≤ q ≤ GPU.MemToShadow t s (p + n - 1)) →
       GPU.shadow_byte s' q = Some b) ∧
    (r = UR_RESULT_SUCCESS → 0 < n →
       ∀ q, GPU.MemToShadow t s p ≤ q ≤ GPU.MemToShadow t s (p + n - 1) →
       GPU.shadow_byte s' q = Some v ∧ GPU.ShadowLowerBound s' ≤ q ≤ GPU.ShadowUpperBound s')) ∧
  (∀ a b, GPUFacts.covered t a 1 → GPUFacts.covered t b 1 →
     GPU.MemToShadow t s a = GPU.MemToShadow t s b → a / 16 = b / 16).
Proof.
  split; [|intros a b; by apply GPUFacts.gpu_MemToShadow_inj].
  destruct (GPUFacts.EnqueuePoisonShadow_spec t p n v s Hs Hc) as (r & s' & ? & ? & _ & ? & ?).
  exists r, s'. by split_and!.
Qed.

(** A driver whose calls all succeed, with 4 KiB pages. *)
Definition good_driver : GPU.Driver := {|
  GPU.PageSize := 4096;
  GPU.pfnPhysicalMemCreate := λ n, (UR_RESULT_SUCCESS, Z.of_nat n);
  GPU.pfnVirtualMemMap := λ _ _ _, UR_RESULT_SUCCESS;
  GPU.pfnUSMFill := λ _ p v n m, (UR_RESULT_SUCCESS, memset p v n m) |}.
Lemma good_driver_laws : @GPU.DriverLaws good_driver.
Proof.
  refine (@GPU.Build_DriverLaws good_driver 12 _ _ _); simpl.
  - split; [lia|done].
  - intros n p v size m q m' [= <-] Hq. by rewrite memset_lookup, decide_True.
  - intros n p v size m q Hq. by rewrite memset_lookup, decide_False.
Defined.

Lemma gpu_shadow_spec_witness :
  let s := {| GPU.ShadowBegin := 2 ^ 56; GPU.ShadowEnd := 2 ^ 56 + 0x180000000000;
              GPU.VirtualMemMaps := ∅; GPU.ShadowLowerBound := SIZE_MAX; GPU.ShadowUpperBound := 0;
              GPU.mem := ∅; GPU.calls := 0 |} in
  ∃ s', @GPU.EnqueuePoisonShadow good_driver GPU.GPU_PVC 0xFF00000000001000 64 (-127) s =
          Ret (UR_RESULT_SUCCESS, s') ∧
    @GPU.shadow_byte good_driver s' (2 ^ 56 + 2 ^ 43 + 0x100) = Some (-127).
Proof.
  intros s.
  destruct (@gpu_shadow_spec good_driver good_driver_laws GPU.GPU_PVC 0xFF00000000001000 64 (-127) s)
    as [(r & s' & E & _ & _ & Hq) _].
  - by unfold GPUFacts.wf.
  - split; [lia|]. right. by vm_compute.
  - assert (fst <$> @GPU.EnqueuePoisonShadow good_driver GPU.GPU_PVC 0xFF00000000001000 64 (-127) s =
            Ret UR_RESULT_SUCCESS) as E1 by (vm_compute; reflexivity).
    rewrite E in E1. injection E1 as ->.
    exists s'. split; [exact E|]. apply Hq; [done|lia|]. vm_compute. split; congruence.
Defined.

(** An allocation of 18 bytes with redzones of 16 and more bytes. *)
Definition sample_alloc (released : bool) : AllocInfo := {|
  AllocBegin := 0x10000; UserBegin := 0x10010; UserEnd := 0x10022; AllocSize := 64;
  Type_ := DEVICE_USM; IsReleased := released; Context := 0; Device := Some 0%nat |}.
Definition sample_cpu : CPU.ShadowMemoryCPU := {|
  CPU.ShadowBegin := 2 ^ 46; CPU.ShadowEnd := 2 ^ 46 + 0x80000000000; CPU.mem := ∅ |}.

Lemma sample_wf b : alloc_wf (sample_alloc b).
Proof. constructor; unfold sample_alloc; simpl; try lia; try done; by right. Defined.
Lemma sample_covered b :
  CPUFacts.covered (AllocBegin (sample_alloc b)) (AllocSize (sample_alloc b)).
Proof. unfold CPUFacts.covered. simpl. lia. Defined.
Lemma sample_cpu_wf : CPUFacts.wf sample_cpu.
Proof. by unfold CPUFacts.wf. Defined.

Lemma enqueueAllocInfo_spec_witness :
  ∃ s', enqueueAllocInfo (sample_alloc false) sample_cpu = Ret (UR_RESULT_SUCCESS, s') ∧
    accessible s' 0x10021 = true ∧ accessible s' 0x10022 = false ∧ accessible s' 0x1000f = false.
Proof.
  destruct (@enqueueAllocInfo_spec _ _ CPUFacts.laws (sample_alloc false) sample_cpu sample_cpu_wf (sample_covered false)
    (sample_wf false)) as (r & s' & E & _ & _ & Ha).
  assert (r = UR_RESULT_SUCCESS) as -> by (revert E; vm_compute; congruence).
  exists s'. split; [exact E|]. split_and!; rewrite Ha by (done || (unfold in_alloc; simpl; lia)); done.
Defined.

(** The same memory allocated, released and pending: the last entry decides. *)
Lemma updateShadowMemory_spec_witness :
  let DI := {| Shadow := sample_cpu; AllocInfos := [sample_alloc false; sample_alloc true] |} in
  ∃ DI', updateShadowMemory DI = Ret (UR_RESULT_SUCCESS, DI') ∧ AllocInfos DI' = [] ∧
    accessible (Shadow DI') 0x10021 = false.
Proof.
  intros DI. destruct (@updateShadowMemory_spec _ _ CPUFacts.laws DI) as (r & DI' & E & _ & _ & Ha).
  - exact sample_cpu_wf.
  - assert (∀ b, covered (AllocBegin (sample_alloc b)) (AllocSize (sample_alloc b)) ∧
      alloc_wf (sample_alloc b)) as Hok by (intros b; split; [apply sample_covered|apply sample_wf]).
    apply Forall_cons. split; [apply Hok|]. apply Forall_cons. split; [apply Hok|by apply Forall_nil].
  - assert (r = UR_RESULT_SUCCESS) as -> by (revert E; vm_compute; congruence).
    exists DI'. split; [exact E|]. destruct (Ha eq_refl) as [? Hl]. split; [done|].
    rewrite (Hl [sample_alloc false] (sample_alloc true) []); [done|done| |].
    + intros AI HAI. by apply elem_of_nil in HAI.
    + unfold in_alloc. simpl. lia.
Defined.

Import LocalShadow.

(** The local shadow, when the zero fill does not fail. *)
Lemma AllocLocalShadow_spec d wg size s r s' o :
  inv s → (allocate d).2 ≠ 0 → set_zero d = UR_RESULT_SUCCESS →
  AllocLocalShadow d wg size s = (r, s', o) →
  inv s' ∧
  (r = UR_RESULT_SUCCESS → 0 < RequiredShadowSize wg size →
    ∃ Begin End n, o = Some (Begin, End) ∧ End = Begin ⊕ RequiredShadowSize wg size ⊖ 1 ∧
      live s' !! Begin = Some n ∧ RequiredShadowSize wg size ≤ n).
Proof.
  intros Hi Hp Hz. unfold AllocLocalShadow. set (R := RequiredShadowSize wg size). clearbody R.
  destruct (Z.ltb_spec (LastAllocedSize s) R) as [Hlt|Hge].
  2: { intros [= <- <- <-]. split; [done|]. intros _ HR. destruct Hi as [[_ H0]|[H1 H2]]; [lia|].
       by eexists _, _, _. }
  assert (∀ s1, inv s1 → ∀ r1, r1 ≠ UR_RESULT_SUCCESS → (r1, s1, None) = (r, s', o) →
    inv s' ∧ (r = UR_RESULT_SUCCESS → 0 < R → ∃ Begin End n, o = Some (Begin, End) ∧
      End = Begin ⊕ R ⊖ 1 ∧ live s' !! Begin = Some n ∧ R ≤ n)) as Hfail.
  { intros s1 H1 r1 Hr1 [= -> -> <-]. split; [done|congruence]. }
  unfold grow. destruct (release_old d s) as [r0 s0] eqn:E0.
  assert (inv s0) as H0.
  { revert E0. unfold release_old. destruct (Z.eqb_spec (LocalShadowOffset s) 0); [by intros [= <- <-]|].
    case_decide; intros [= <- <-]; [by left|done]. }
  case_decide as Hr0; [|rewrite decide_False by done; by apply Hfail].
  destruct (allocate d) as [ra p]. simpl in Hp.
  case_decide as Hra; [|rewrite decide_False by done; by apply Hfail].
  rewrite (decide_True (P := set_zero d = _)), decide_True by done. simpl. intros [= <- <- <-]. split.
  - right. simpl. by rewrite lookup_insert_eq.
  - intros _ HR. eexists _, _, R. split_and!; [done|done|simpl; by rewrite lookup_insert_eq|lia].
Qed.

(** When the fill of a new buffer fails, the error is dropped: the call
    succeeds with a null buffer, and the recorded size makes every later call
    that needs no more return the null buffer as well. *)
Example local_shadow_lost :
  let d := {| free_old := UR_RESULT_SUCCESS; allocate := (UR_RESULT_SUCCESS, 4096);
              set_zero := UR_RESULT_ERROR_OUT_OF_RESOURCES; free_new := UR_RESULT_SUCCESS |} in
  let s := {| LocalShadowOffset := 0; LastAllocedSize := 0; ShadowMalloced := 0; live := ∅ |} in
  let '(r, s1, o) := AllocLocalShadow d 16 65536 s in
  r = UR_RESULT_SUCCESS ∧ o = Some (0, 65535) ∧ ¬ inv s1 ∧
  ∀ d' wg, 0 ≤ wg ≤ 16 → (AllocLocalShadow d' wg 65536 s1).1 = (UR_RESULT_SUCCESS, s1).
Proof.
  simpl. split_and!; [done|done| |].
  - unfold inv. simpl. naive_solver lia.
  - intros d' wg Hwg. assert (RequiredShadowSize wg 65536 ≤ 65536) as HR.
    { unfold RequiredShadowSize, ASAN_MAX_WG_LOCAL, ASAN_SHADOW_SCALE.
      rewrite Z.min_r, Z.shiftr_div_pow2, u64_small by (unfold in_u64; lia). change (2 ^ 4) with 16. lia_div. }
    unfold AllocLocalShadow. rewrite (proj2 (Z.ltb_ge _ _)); [done|exact HR].
Qed.

End ShadowProps.
