(* ===== verification/AsanInterceptor.v ===== *)
(** * Allocation, release and quarantine of the address sanitizer layer
    (loader/layers/sanitizer/asan: asan_interceptor.cpp, asan_quarantine.cpp,
    asan_validator.cpp, asan_statistics.cpp, sanitizer_allocator.cpp)

    Module [Alloc_map] is the [std::map] of allocations by address and the lookup
    of the allocation around an address; [Memory] the interceptor's state (a store of shared
    allocation records, the map, the lists the devices still have to paint, the
    quarantine caches, the statistics) with [allocateMemory], [releaseMemory],
    [registerIPCMemory], [unregisterIPCMemory], the quarantine's [put] and the
    validation of kernel arguments.  Reports and the calls of the driver's free
    functions are recorded in the state. *)
From stdpp Require Import base numbers list gmap sorting relations.
From S2P Require Import Prelude SanitizerCommon AsanShadow.
Import Arith ArithFacts ArithProps AsanShadow.Alloc.
Local Open Scope Z_scope.
Local Open Scope ur_scope.

(** ** [std::map<uptr, std::shared_ptr<AllocInfo>>]

    The entries in the order of their keys; a record is named by its index in
    the store, an iterator is the entry it points to. *)
Module Alloc_map.

Abbreviation entry := (Z * nat)%type.

(** [emplace] keeps the old entry when the key is present. *)
Fixpoint emplace (k : Z) (v : nat) (m : list entry) : list entry :=
  match m with
  | [] => [(k, v)]
  | (k', v') :: m' => if k <? k' then (k, v) :: m
                      else if k =? k' then m else (k', v') :: emplace k v m'
  end.

(** The entry before [upper_bound(k)], if there is one. *)
Definition before_upper_bound (k : Z) (m : list entry) : option entry :=
  last (filter (λ e, e.1 ≤ k) m).

(** Erasing an iterator that is no longer in the map is undefined. *)
Definition erase (e : entry) (m : list entry) : outcome (list entry) :=
  if decide (e ∈ m) then Ret (filter (λ e', e' ≠ e) m) else Undefined.

End Alloc_map.

Module Memory.
Import Alloc_map.

Record AsanStats := { UsmMalloced : Z; UsmMallocedRedzones : Z; UsmFreed : Z }.

(** What the layer's configuration and the devices fix. *)
Class Env := {
  MinRZSize : Z;
  MaxQuarantineSizeMB : Z;
  HaltOnError : bool;
  (** statistics are kept only on demand, and [new AsanStats] does not initialise
      the atomic counters: the values it finds for a context *)
  PrintStats : bool;
  new_stats : nat → AsanStats;
  DeviceList : nat → list nat;
  DeviceAlignment : nat → Z;
  is_pvc : nat → bool;
  parent_device : nat → option nat;
  IsSupportSharedSystemUSM : nat → bool;
  (** the result of the [n]-th call of a free function of the driver *)
  pfnFree : nat → ur_result_t
}.

Inductive report :=
  | ReportBadFree (Addr : Z) (AI : option nat)
  | ReportBadContext (Addr : Z) (AI : nat)
  | ReportDoubleFree (Addr : Z) (AI : nat)
  | ReportMemoryLeak (AI : nat).


Record QuarantineCache := { m_List : list entry; m_Size : Z }.
Definition empty_cache : QuarantineCache := {| m_List := []; m_Size := 0 |}.

Record state := {
  objects : list AllocInfo;
  m_AllocationMap : list entry;
  AllocInfos : gmap nat (list nat);
  caches : gmap (nat * option nat) QuarantineCache;
  stats : gmap nat AsanStats;
  reports : list report;
  freed : list nat
}.
Definition initial : state := {|
  objects := []; m_AllocationMap := []; AllocInfos := ∅; caches := ∅; stats := ∅;
  reports := []; freed := [] |}.

Definition set_objects x (s : state) := {| objects := x; m_AllocationMap := m_AllocationMap s;
  AllocInfos := AllocInfos s; caches := caches s; stats := stats s; reports := reports s; freed := freed s |}.
Definition set_map x (s : state) := {| objects := objects s; m_AllocationMap := x;
  AllocInfos := AllocInfos s; caches := caches s; stats := stats s; reports := reports s; freed := freed s |}.
Definition set_lists x (s : state) := {| objects := objects s; m_AllocationMap := m_AllocationMap s;
  AllocInfos := x; caches := caches s; stats := stats s; reports := reports s; freed := freed s |}.
Definition set_caches x (s : state) := {| objects := objects s; m_AllocationMap := m_AllocationMap s;
  AllocInfos := AllocInfos s; caches := x; stats := stats s; reports := reports s; freed := freed s |}.
Definition set_stats x (s : state) := {| objects := objects s; m_AllocationMap := m_AllocationMap s;
  AllocInfos := AllocInfos s; caches := caches s; stats := x; reports := reports s; freed := freed s |}.
Definition add_report x (s : state) := {| objects := objects s; m_AllocationMap := m_AllocationMap s;
  AllocInfos := AllocInfos s; caches := caches s; stats := stats s; reports := reports s ++ [x];
  freed := freed s |}.
Definition add_freed x (s : state) := {| objects := objects s; m_AllocationMap := m_AllocationMap s;
  AllocInfos := AllocInfos s; caches := caches s; stats := stats s; reports := reports s;
  freed := freed s ++ [x] |}.

(** ** Statistics

    Every update ends in [UpdateOverhead], whose assertion is checked here; the
    floating-point overhead itself is only printed. *)
Definition UpdateOverhead (st : AsanStats) : outcome AsanStats :=
  if UsmMallocedRedzones st <=? UsmMalloced st then Ret st else Undefined.
Definition UpdateUSMMalloced (MallocedSize RedzoneSize : Z) (st : AsanStats) : outcome AsanStats :=
  UpdateOverhead {| UsmMalloced := UsmMalloced st ⊕ MallocedSize;
                    UsmMallocedRedzones := UsmMallocedRedzones st ⊕ RedzoneSize;
                    UsmFreed := UsmFreed st |}.
Definition UpdateUSMFreed (FreedSize : Z) (st : AsanStats) : outcome AsanStats :=
  Ret {| UsmMalloced := UsmMalloced st; UsmMallocedRedzones := UsmMallocedRedzones st;
         UsmFreed := UsmFreed st ⊕ FreedSize |}.

Section env.
Context `{!Env}.

Definition UpdateUSMRealFreed (FreedSize RedzoneSize : Z) (st : AsanStats) : outcome AsanStats :=
  UpdateOverhead {| UsmMalloced := UsmMalloced st ⊖ FreedSize;
                    UsmMallocedRedzones := UsmMallocedRedzones st ⊖ RedzoneSize;
                    UsmFreed := if MaxQuarantineSizeMB =? 0 then UsmFreed st
                                else UsmFreed st ⊖ FreedSize |}.

(** The statistics of a context, and [AsanStatsWrapper], which forwards an update
    if there are any. *)
Definition stats_of (Ctx : nat) (s : state) : AsanStats := default (new_stats Ctx) (stats s !! Ctx).
Definition with_stats (Ctx : nat) (f : AsanStats → outcome AsanStats) (s : state) : outcome state :=
  if PrintStats then st ← f (stats_of Ctx s); Ret (set_stats (<[Ctx := st]> (stats s)) s) else Ret s.

(** [DeviceInfo::insertAllocInfo] *)
Definition insertAllocInfo (d id : nat) (s : state) : state :=
  set_lists (<[d := default [] (AllocInfos s !! d) ++ [id]]> (AllocInfos s)) s.
Definition insertAll (ds : list nat) (id : nat) (s : state) : state :=
  foldl (λ s d, insertAllocInfo d id s) s ds.

Definition deref (id : nat) (s : state) : outcome AllocInfo :=
  match objects s !! id with Some AI => Ret AI | None => Undefined end.

(** ** Allocation *)

Definition validateUSM (t : AllocType) (Device : option nat) (Allocated : Z) : bool :=
  match Device with
  | Some d =>
      if is_pvc d then
        match t with
        | SHARED_USM => Z.shiftr Allocated 44 =? 0x7
        | _ => Z.shiftr Allocated 52 =? 0xff0
        end
      else true
  | None => true
  end.

(** [SafeAllocate], given what the driver's allocation function returns. *)
Definition SafeAllocate (Device : option nat) (t : AllocType) (driver : ur_result_t * Z)
    : outcome (ur_result_t * Z) :=
  if bool_decide (Device = None) &&
     bool_decide (t = DEVICE_USM ∨ t = MEM_BUFFER ∨ t = SHARED_USM)
  then Ret (UR_RESULT_ERROR_INVALID_NULL_HANDLE, 0)
  else match t with
  | DEVICE_USM | MEM_BUFFER | SHARED_USM =>
      if decide (driver.1 = UR_RESULT_SUCCESS) then
        if validateUSM t Device driver.2 then Ret driver else Undefined
      else Ret driver
  | HOST_USM => Ret driver
  | _ => Ret (UR_RESULT_ERROR_INVALID_ARGUMENT, 0)
  end.

Record AllocMemoryParams := { USMDesc_align : option Z; Alignment : Z }.

Definition effective_alignment (Device : option nat) (Alignment : Z) : Z :=
  let Alignment := if Alignment =? 0
    then match Device with Some d => DeviceAlignment d | None => ASAN_SHADOW_GRANULARITY end
    else Alignment in
  if Alignment <? ASAN_SHADOW_GRANULARITY then ASAN_SHADOW_GRANULARITY else Alignment.

(** Where the parts of the chunk go: the redzone size, and the size of the
    whole chunk. *)
Definition chunk (Size Alignment : Z) : outcome (Z * Z) :=
  RZLog ← ComputeRZLog Size MinRZSize;
  RZSize ← RZLog2Size RZLog;
  let RoundedSize := RoundUpTo Size Alignment in
  let NeededSize := RoundedSize ⊕ RZSize ⊗ 2 in
  Ret (RZSize, if ASAN_SHADOW_GRANULARITY <? Alignment then NeededSize ⊕ Alignment else NeededSize).

Definition user_begin (AllocBegin RZSize Alignment : Z) : Z :=
  let UserBegin := AllocBegin ⊕ RZSize in
  if IsAligned UserBegin Alignment then UserBegin else RoundUpTo UserBegin Alignment.

(** The result, the user pointer and the state.  [driver] is what the allocation
    function of the driver returns for the size the chunk needs. *)
Definition allocateMemory (Ctx : nat) (Device : option nat) (Params : AllocMemoryParams)
    (Size : Z) (t : AllocType) (driver : Z → ur_result_t * Z) (s : state)
    : outcome (ur_result_t * option Z * state) :=
  let align := default (Alignment Params) (USMDesc_align Params) in
  if negb (Z.land align (align ⊖ 1) =? 0) then Ret (UR_RESULT_ERROR_INVALID_ARGUMENT, None, s)
  else
    let align := effective_alignment Device align in
    '(RZSize, NeededSize) ← chunk Size align;
    '(r, AllocBegin) ←
      (if decide (t ≠ EXPORTABLE_MEM) then SafeAllocate Device t (driver NeededSize)
       else match Device with
            | None => Ret (UR_RESULT_ERROR_INVALID_ARGUMENT, 0)
            | Some _ => Ret (driver NeededSize)
            end);
    if decide (r = UR_RESULT_SUCCESS) then
      s ← with_stats Ctx (UpdateUSMMalloced NeededSize (NeededSize ⊖ Size)) s;
      let UserBegin := user_begin AllocBegin RZSize align in
      let UserEnd := UserBegin ⊕ Size in
      if UserEnd <=? AllocBegin ⊕ NeededSize then
        let id := length (objects s) in
        let AI := {| AsanShadow.Alloc.AllocBegin := AllocBegin; UserBegin := UserBegin; UserEnd := UserEnd;
                     AllocSize := NeededSize; Type_ := t; IsReleased := false;
                     Context := Ctx; Device := Device |} in
        let s := set_objects (objects s ++ [AI]) s in
        let s := insertAll (match Device with Some d => [d] | None => DeviceList Ctx end) id s in
        Ret (UR_RESULT_SUCCESS, Some UserBegin, set_map (emplace AllocBegin id (m_AllocationMap s)) s)
      else Undefined
    else Ret (r, None, s).

(** ** Lookup *)

Definition findAllocInfoByAddress (Address : Z) (s : state) : outcome (option (entry * AllocInfo)) :=
  match before_upper_bound Address (m_AllocationMap s) with
  | None => Ret None
  | Some It =>
      AI ← deref It.2 s;
      Ret (if (Address <? AllocBegin AI) || (AllocBegin AI ⊕ AllocSize AI <=? Address)
           then None else Some (It, AI))
  end.

(** The leaks reported when a context is destroyed at a normal exit. *)
Definition findAllocInfoByContext (Ctx : nat) (s : state) : list entry :=
  filter (λ e, (Context <$> objects s !! e.2) = Some Ctx) (m_AllocationMap s).
Definition report_leaks (Ctx : nat) (s : state) : list report :=
  (λ e, ReportMemoryLeak e.2) <$>
    filter (λ e : entry, (IsReleased <$> objects s !! e.2) = Some false) (findAllocInfoByContext Ctx s).

(** ** Quarantine *)

Definition max_quarantine : Z := MaxQuarantineSizeMB ⊗ 1024 ⊗ 1024.

(** The loop of [put]: the entries it dequeues, those that stay and their size. *)
Fixpoint dequeue_while (AllocSize : Z) (l : list entry) (size : Z) (s : state)
    : outcome (list entry * list entry * Z) :=
  match l with
  | [] => Ret ([], [], size)
  | It :: l' =>
      if max_quarantine <? size ⊕ AllocSize then
        AI ← deref It.2 s;
        '(out, rest, size) ← dequeue_while AllocSize l' (size ⊖ AsanShadow.Alloc.AllocSize AI) s;
        Ret (It :: out, rest, size)
      else Ret ([], l, size)
  end.

Definition put (Ctx : nat) (Device : option nat) (It : entry) (s : state)
    : outcome (list entry * state) :=
  AI ← deref It.2 s;
  let Cache := default empty_cache (caches s !! (Ctx, Device)) in
  '(out, rest, size) ← dequeue_while (AllocSize AI) (m_List Cache) (m_Size Cache) s;
  Ret (out, set_caches (<[(Ctx, Device) := {| m_List := rest ++ [It];
                                              m_Size := size ⊕ AllocSize AI |}]> (caches s)) s).

(** ** Release *)

(** A call returns a result, or [exitWithErrors] ends the process. *)
Inductive finished := Returned (r : ur_result_t) | Exited.

Definition reported (r : report) (s : state) : outcome (finished * state) :=
  Ret (if HaltOnError then Exited else Returned UR_RESULT_SUCCESS, add_report r s).

(** Returning the chunk to the driver; both free functions are driver calls. *)
Definition free_chunk (id : nat) (s : state) : ur_result_t * state :=
  (pfnFree (length (freed s)), add_freed id s).

Fixpoint release_list (Ctx : nat) (l : list entry) (s : state) : outcome (ur_result_t * state) :=
  match l with
  | [] => Ret (UR_RESULT_SUCCESS, s)
  | It :: l =>
      AI ← deref It.2 s;
      s ← with_stats Ctx (UpdateUSMRealFreed (AllocSize AI) (getRedzoneSize AI)) s;
      let '(r, s) := free_chunk It.2 s in
      if decide (r = UR_RESULT_SUCCESS) then
        m ← erase It (m_AllocationMap s);
        release_list Ctx l (set_map m s)
      else Ret (r, s)
  end.

Definition mark_released (AI : AllocInfo) : AllocInfo :=
  {| AllocBegin := AllocBegin AI; UserBegin := UserBegin AI; UserEnd := UserEnd AI;
     AllocSize := AllocSize AI; Type_ := Type_ AI; IsReleased := true;
     Context := Context AI; Device := Device AI |}.

(** The devices whose shadow has to be updated when [AI] is released. *)
Definition shadow_devices (Ctx : nat) (AI : AllocInfo) : outcome (list nat) :=
  if decide (Type_ AI = HOST_USM) then Ret (DeviceList Ctx)
  else match Device AI with Some d => Ret [d] | None => Undefined end.

Definition release_found (Ctx : nat) (It : entry) (AI : AllocInfo) (s : state)
    : outcome (finished * state) :=
  let s := set_objects (<[It.2 := mark_released AI]> (objects s)) s in
  ds ← shadow_devices Ctx AI;
  let s := insertAll ds It.2 s in
  if MaxQuarantineSizeMB =? 0 then
    s ← with_stats Ctx (UpdateUSMRealFreed (AllocSize AI) (getRedzoneSize AI)) s;
    m ← erase It (m_AllocationMap s);
    let '(r, s) := free_chunk It.2 (set_map m s) in
    Ret (Returned r, s)
  else
    '(ReleaseList, s) ← put Ctx (Device AI) It s;
    '(r, s) ← release_list Ctx ReleaseList s;
    if decide (r = UR_RESULT_SUCCESS) then
      s ← with_stats Ctx (UpdateUSMFreed (AllocSize AI)) s;
      Ret (Returned UR_RESULT_SUCCESS, s)
    else Ret (Returned r, s).

Definition releaseMemory (Ctx : nat) (Addr : Z) (s : state) : outcome (finished * state) :=
  found ← findAllocInfoByAddress Addr s;
  match found with
  | None => reported (ReportBadFree Addr None) s
  | Some (It, AI) =>
      if decide (Context AI ≠ Ctx) then
        if UserBegin AI =? Addr then reported (ReportBadContext Addr It.2) s
        else reported (ReportBadFree Addr None) s
      else if negb (Addr =? UserBegin AI) then reported (ReportBadFree Addr (Some It.2)) s
      else if IsReleased AI then reported (ReportDoubleFree Addr It.2) s
      else release_found Ctx It AI s
  end.

(** ** IPC memory *)

Definition registerIPCMemory (Ctx d : nat) (Addr Size : Z) (s : state) : state :=
  let id := length (objects s) in
  let AI := {| AllocBegin := Addr; UserBegin := Addr; UserEnd := Addr ⊕ Size; AllocSize := Size;
               Type_ := DEVICE_USM; IsReleased := false; Context := Ctx; Device := Some d |} in
  let s := insertAllocInfo d id (set_objects (objects s ++ [AI]) s) in
  set_map (emplace Addr id (m_AllocationMap s)) s.

Definition unregisterIPCMemory (Addr : Z) (s : state) : outcome state :=
  found ← findAllocInfoByAddress Addr s;
  match found with
  | None => Ret s
  | Some (It, AI) =>
      let s := set_objects (<[It.2 := mark_released AI]> (objects s)) s in
      match Device AI with
      | None => Undefined
      | Some d =>
          let s := insertAllocInfo d It.2 s in
          m ← erase It (m_AllocationMap s); Ret (set_map m s)
      end
  end.

(** ** Validation of kernel arguments (asan_validator.cpp) *)

Inductive ValidateUSMResult :=
  SUCCESS | MAYBE_HOST_POINTER | RELEASED_POINTER (AI : nat) | BAD_CONTEXT (AI : nat)
| BAD_DEVICE (AI : nat) | OUT_OF_BOUNDS (AI : nat).

Definition IsSameDevice (Device1 Device2 : nat) : bool :=
  if decide (Device1 = Device2) then true
  else bool_decide (default Device1 (parent_device Device1) = default Device2 (parent_device Device2)).

Definition ValidateUSMPointer (IsIndirectAccess : bool) (Ctx : nat) (Dev : nat) (Ptr : Z) (s : state)
    : outcome ValidateUSMResult :=
  found ← findAllocInfoByAddress Ptr s;
  Ret match found with
  | None => if IsSupportSharedSystemUSM Dev then SUCCESS else MAYBE_HOST_POINTER
  | Some (It, AI) =>
      if negb IsIndirectAccess && bool_decide (Context AI ≠ Ctx) then BAD_CONTEXT It.2
      else if match Device AI with Some d => negb (IsSameDevice d Dev) | None => false end
           then BAD_DEVICE It.2
      else if IsReleased AI then RELEASED_POINTER It.2
      else if (Ptr <? UserBegin AI) || (UserEnd AI <=? Ptr) then OUT_OF_BOUNDS It.2
      else SUCCESS
  end.

End env.
End Memory.

Module MapFacts.
Import Alloc_map.

Lemma emplace_elem k v m e : e ∈ emplace k v m → e = (k, v) ∨ e ∈ m.
Proof.
  induction m as [|[k' v'] m IH]; simpl; [set_solver|]. repeat case_match; set_solver.
Qed.

Section spaced.
(** The size of the allocation an entry stands for. *)
Context (size : nat → Z).

(** The allocations of the map, in order, do not overlap. *)
Definition spaced : list entry → Prop := StronglySorted (λ e1 e2, e1.1 + size e1.2 ≤ e2.1).
Definition apart (k n : Z) (e : entry) : Prop := k + n ≤ e.1 ∨ e.1 + size e.2 ≤ k.

Lemma emplace_spaced k v m :
  spaced m → 0 < size v → Forall (λ e, 0 < size e.2) m → Forall (apart k (size v)) m →
  spaced (emplace k v m) ∧ emplace k v m ≡ₚ (k, v) :: m.
Proof.
  unfold spaced, apart. intros Hs Hv. induction Hs as [|[k' v'] m Hs IH Hf]; simpl.
  { intros _ _. split; [|done]. repeat constructor. }
  intros [Hp' Hp]%Forall_cons [Ha' Ha]%Forall_cons. simpl in *.
  destruct (Z.ltb_spec k k') as [Hlt|Hge].
  - split; [|done]. constructor; [by constructor|]. constructor; simpl; [lia|].
    eapply Forall_impl; [exact Hf|]. intros [k2 v2]. simpl. lia.
  - destruct (Z.eqb_spec k k') as [->|Hne]; [lia|]. destruct (IH Hp Ha) as [IHs IHp]. split.
    + constructor; [done|]. rewrite IHp. constructor; [simpl; lia|done].
    + rewrite IHp. by constructor.
Qed.

(** Entries that do not overlap fit into the address space. *)
Lemma spaced_sum m lo hi :
  spaced m → Forall (λ e, lo ≤ e.1 ∧ 0 < size e.2 ∧ e.1 + size e.2 ≤ hi) m →
  0 ≤ foldr (λ e a, size e.2 + a) 0 m ∧ (m ≠ [] → foldr (λ e a, size e.2 + a) 0 m ≤ hi - lo).
Proof.
  intros Hs. revert lo. induction Hs as [|e m Hs IH Hf]; intros lo; simpl; [done|].
  intros [(H1 & H2 & H3) Hm]%Forall_cons.
  destruct (IH (e.1 + size e.2)) as [IH1 IH2].
  { rewrite Forall_forall in Hf, Hm |- *. intros e' He'. specialize (Hf e' He'). specialize (Hm e' He'). lia. }
  split; [lia|]. intros _. destruct m as [|e' m]; simpl in *; [lia|]. specialize (IH2 ltac:(done)). lia.
Qed.

(** [before_upper_bound] finds the only entry that can contain an address. *)
Lemma before_upper_bound_spec m a e :
  spaced m → Forall (λ e, 0 < size e.2) m → e ∈ m → e.1 ≤ a < e.1 + size e.2 →
  before_upper_bound a m = Some e.
Proof.
  unfold spaced, before_upper_bound. intros Hs. induction Hs as [|e' m Hs IH Hf]; [set_solver|].
  intros [Hp' Hp]%Forall_cons Hin Ha. rewrite filter_cons. apply elem_of_cons in Hin as [->|Hin].
  - rewrite decide_True by lia. rewrite filter_none; [done|].
    rewrite Forall_forall in Hf. intros x Hx. specialize (Hf x Hx). lia.
  - specialize (IH Hp Hin Ha). case_decide; [|done].
    destruct (filter _ m) as [|x l] eqn:E; [done|]. simpl. exact IH.
Qed.

Lemma before_upper_bound_elem m a e : before_upper_bound a m = Some e → e ∈ m ∧ e.1 ≤ a.
Proof.
  unfold before_upper_bound. intros (l & E)%last_Some.
  assert (e ∈ filter (λ e : entry, e.1 ≤ a) m) as [? ?]%list_elem_of_filter; [|done].
  rewrite E. apply elem_of_app. right. by left.
Qed.

Lemma spaced_filter m P `{∀ x : entry, Decision (P x)} : spaced m → spaced (filter P m).
Proof.
  intros Hs. induction Hs as [|e m Hs IH Hf]; [constructor|]. rewrite filter_cons.
  case_decide; [|done]. constructor; [done|]. rewrite Forall_forall in Hf |- *.
  intros x [_ Hx]%list_elem_of_filter. by apply Hf.
Qed.

Lemma spaced_unique m e1 e2 a :
  spaced m → Forall (λ e, 0 < size e.2) m → e1 ∈ m → e2 ∈ m →
  e1.1 ≤ a < e1.1 + size e1.2 → e2.1 ≤ a < e2.1 + size e2.2 → e1 = e2.
Proof.
  intros Hs Hp H1 H2 Ha1 Ha2.
  pose proof (before_upper_bound_spec m a e1 Hs Hp H1 Ha1) as E1.
  pose proof (before_upper_bound_spec m a e2 Hs Hp H2 Ha2) as E2. congruence.
Qed.
End spaced.

Lemma spaced_ext (f g : nat → Z) m : (∀ e, e ∈ m → f e.2 = g e.2) → spaced f m → spaced g m.
Proof.
  intros He Hs. unfold spaced in *. induction Hs as [|e m Hs IH Hf]; [constructor|].
  constructor; [apply IH; intros x Hx; apply He; by right|].
  rewrite <-(He e) by by left. exact Hf.
Qed.

End MapFacts.

(** ** The layout of a chunk *)
Module LayoutFacts.
Import Alloc_map Memory.
Section env.
Context `{!Env}.

(** The configured redzone is a power of two, as the option parser makes it,
    small enough for the [int] shifts of sanitizer_common.hpp. *)
Definition redzone_ok : Prop := ∃ k, 4 ≤ k < 31 ∧ MinRZSize = 2 ^ k.
(** The alignment that is used: a power of two of at least a granule. *)
Definition align_ok (a : Z) : Prop := ∃ j, 4 ≤ j ≤ 40 ∧ a = 2 ^ j.

Lemma chunk_eq Size a : redzone_ok → align_ok a → 0 ≤ Size < 2 ^ 62 →
  ∃ rz n, chunk Size a = Ret (rz, n) ∧ 16 ≤ rz ≤ 2 ^ 30 ∧ rz `mod` 16 = 0 ∧ MinRZSize ≤ rz ∧
    n = RoundUpTo Size a + rz * 2 + (if a =? 16 then 0 else a) ∧
    Size ≤ RoundUpTo Size a < Size + a ∧ n `mod` 16 = 0 ∧ n < 2 ^ 63.
Proof.
  intros (k & Hk & HM) (j & Hj & ->) HS. unfold chunk. rewrite HM.
  destruct (ComputeRZLog_pow2 Size k Hk) as [-> Hl]. cbn [mbind outcome_bind].
  pose proof (rz_log_range Size). set (l := rz_log Size `max` (k - 4)) in *.
  rewrite RZLog2Size_pow2 by lia. cbn [mbind outcome_bind].
  assert (2 ^ j ≤ 2 ^ 40) by (apply Z.pow_le_mono_r; lia).
  assert (2 ^ 4 ≤ 2 ^ j) by (apply Z.pow_le_mono_r; lia).
  destruct (RoundUpTo_spec Size j) as [HR HRm]; [lia..|].
  assert (2 ^ (l + 4) ≤ 2 ^ 30) by (apply Z.pow_le_mono_r; lia).
  assert (2 ^ k ≤ 2 ^ (l + 4)) by (apply Z.pow_le_mono_r; lia).
  assert (2 ^ 4 ≤ 2 ^ k) by (apply Z.pow_le_mono_r; lia).
  assert (∀ i, 4 ≤ i → 2 ^ i `mod` 16 = 0) as Hp16.
  { intros i Hi. replace i with (i - 4 + 4) by lia. rewrite Z.pow_add_r by lia. apply Z.mod_mul. lia. }
  assert (RoundUpTo Size (2 ^ j) `mod` 16 = 0) as HR16.
  { apply Z.mod_divide in HRm as [q HRm]; [|lia]. rewrite HRm, Z.mul_mod, Hp16, Z.mul_0_r by lia. done. }
  pose proof (Hp16 (l + 4) ltac:(lia)) as Hrz16. pose proof (Hp16 j ltac:(lia)) as Hj16.
  set (R := RoundUpTo _ _) in *. set (rz := 2 ^ (l + 4)) in *. clearbody R rz l.
  rewrite (u64_small (rz * 2)), (u64_small (R + _)) by (unfold in_u64; lia).
  change ASAN_SHADOW_GRANULARITY with 16.
  eexists rz, _. split; [done|]. split_and!; [lia..| |lia|lia| |]; destruct (Z.eqb_spec (2 ^ j) 16) as [E|E];
    destruct (Z.ltb_spec 16 (2 ^ j)); try lia; rewrite ?u64_small by (unfold in_u64; lia); lia || lia_div.
Qed.

Lemma user_begin_eq p rz a : align_ok a → 0 ≤ p → 0 < rz → p + rz + a < 2 ^ 64 →
  user_begin p rz a `mod` a = 0 ∧ p + rz ≤ user_begin p rz a < p + rz + a ∧
  (a = 16 → p `mod` 16 = 0 → rz `mod` 16 = 0 → user_begin p rz a = p + rz).
Proof.
  intros (j & Hj & ->) Hp Hrz Hb. unfold user_begin.
  assert (0 < 2 ^ j) by (apply Z.pow_pos_nonneg; lia).
  rewrite (u64_small (p + rz)) by (unfold in_u64; lia). rewrite IsAligned_pow2 by lia.
  case_bool_decide as Hm; [split_and!; [done|lia..]|].
  destruct (RoundUpTo_spec (p + rz) j) as [HR HRm]; [lia..|]. split_and!; [done|lia..|].
  intros E Hp' Hr'. rewrite E in Hm. lia_div.
Qed.

Definition placeable (t : AllocType) (Device : option nat) (p : Z) : Prop :=
  t = HOST_USM ∨
  (t = DEVICE_USM ∨ t = SHARED_USM ∨ t = MEM_BUFFER) ∧ Device ≠ None ∧ validateUSM t Device p = true ∨
  t = EXPORTABLE_MEM ∧ Device ≠ None.

(** A request whose alignment, redzone and size are sane and for which the
    driver returns a granule-aligned chunk [p, p + n) of the address space. *)
Record request_ok (Device : option nat) (Params : AllocMemoryParams) (Size : Z) (t : AllocType)
    (driver : Z → ur_result_t * Z) (a rz n p : Z) : Prop := {
  rq_redzone : redzone_ok;
  rq_pow2 : let al := default (Alignment Params) (USMDesc_align Params) in Z.land al (al ⊖ 1) = 0;
  rq_align : a = effective_alignment Device (default (Alignment Params) (USMDesc_align Params)) ∧ align_ok a;
  rq_size : 0 ≤ Size < 2 ^ 62;
  rq_chunk : chunk Size a = Ret (rz, n);
  rq_driver : driver n = (UR_RESULT_SUCCESS, p);
  rq_place : placeable t Device p;
  rq_region : 0 ≤ p ∧ p `mod` 16 = 0 ∧ p + n < 2 ^ 64
}.
Definition stats_room (c : nat) (n : Z) (s : state) : Prop :=
  PrintStats = true → let st := stats_of c s in
  0 ≤ UsmMallocedRedzones st ≤ UsmMalloced st ∧ UsmMalloced st + n < 2 ^ 64.

Definition new_info (Ctx : nat) (Device : option nat) (t : AllocType) (Size a rz n p : Z) : AllocInfo :=
  {| AllocBegin := p; UserBegin := user_begin p rz a; UserEnd := user_begin p rz a + Size;
     AllocSize := n; Type_ := t; IsReleased := false; Context := Ctx; Device := Device |}.
Definition counted (Ctx : nat) (AI : AllocInfo) (s : state) : state :=
  let st := stats_of Ctx s in
  if PrintStats then set_stats (<[Ctx :=
       {| UsmMalloced := UsmMalloced st + AllocSize AI;
          UsmMallocedRedzones := UsmMallocedRedzones st + getRedzoneSize AI;
          UsmFreed := UsmFreed st |}]> (stats s)) s
  else s.
Definition allocated (Ctx : nat) (Device : option nat) (AI : AllocInfo) (s : state) : state :=
  let id := length (objects s) in
  let s' := insertAll (match Device with Some d => [d] | None => DeviceList Ctx end) id
    (set_objects (objects s ++ [AI]) (counted Ctx AI s)) in
  set_map (emplace (AllocBegin AI) id (m_AllocationMap s')) s'.

Lemma request_layout Device Params Size t driver a rz n p :
  request_ok Device Params Size t driver a rz n p →
  let u := user_begin p rz a in
  u `mod` a = 0 ∧ 16 ≤ rz ∧ MinRZSize ≤ rz ∧ p + rz ≤ u ∧ u + Size + rz ≤ p + n ∧ u `mod` 16 = 0 ∧
  n `mod` 16 = 0 ∧ Size < n < 2 ^ 63.
Proof.
  intros [Hr _ [_ Ha] Hs Hc _ _ (Hp & Hp16 & Hpn)] u.
  destruct (chunk_eq Size a Hr Ha Hs) as (rz' & n' & E & Hrz & Hrz16 & HM & Hn & HR & Hn16 & Hnb).
  rewrite Hc in E. injection E as <- <-.
  assert (2 ^ 4 ≤ a) as Ha16 by (destruct Ha as (j & Hj & ->); apply Z.pow_le_mono_r; lia).
  assert (p + rz + a < 2 ^ 64) as Hb by (destruct (Z.eqb_spec a 16); lia).
  destruct (user_begin_eq p rz a Ha Hp ltac:(lia) Hb) as (Hu & Hur & Hu16). fold u in Hu, Hur, Hu16.
  assert (u `mod` 16 = 0) as Hum.
  { destruct Ha as (j & Hj & ->). replace j with (j - 4 + 4) in Hu by lia. rewrite Z.pow_add_r in Hu by lia.
    apply Z.mod_divide in Hu as [q ->]; [|lia].
    rewrite Z.mul_assoc. apply Z.mod_mul. lia. }
  destruct (Z.eqb_spec a 16) as [E|E]; [specialize (Hu16 E Hp16 Hrz16)|]; split_and!; done || lia.
Qed.

Lemma request_wf Ctx Device Params Size t driver a rz n p :
  request_ok Device Params Size t driver a rz n p →
  Interceptor.alloc_wf (new_info Ctx Device t Size a rz n p).
Proof.
  intros Hq. pose proof (request_layout _ _ _ _ _ _ _ _ _ Hq) as (Hu & Hrz & _ & Hl & Hr & Hu16 & Hn & Hn').
  destruct Hq as [_ _ _ Hs _ _ Hpl (Hp & Hp16 & Hpn)].
  constructor; simpl; [done..|lia|right; split; [lia|done]|lia|].
  split; [|done]. unfold placeable in Hpl. naive_solver.
Qed.

Lemma allocateMemory_eq Ctx Device Params Size t driver a rz n p s :
  request_ok Device Params Size t driver a rz n p → stats_room Ctx n s →
  let AI := new_info Ctx Device t Size a rz n p in
  allocateMemory Ctx Device Params Size t driver s =
  Ret (UR_RESULT_SUCCESS, Some (UserBegin AI), allocated Ctx Device AI s).
Proof.
  intros Hq Hst AI.
  pose proof (request_layout _ _ _ _ _ _ _ _ _ Hq) as (_ & Hrz & _ & Hl & Hr & _ & _ & Hn).
  destruct Hq as [_ Hpow [-> _] Hs Hc Hd Hpl (Hp & Hp16 & Hpn)].
  unfold allocateMemory. cbv zeta in Hpow. rewrite (proj2 (Z.eqb_eq _ _) Hpow). cbn [negb].
  rewrite Hc. cbn [mbind outcome_bind]. rewrite Hd.
  assert ((if decide (t ≠ EXPORTABLE_MEM) then SafeAllocate Device t (UR_RESULT_SUCCESS, p)
    else match Device with None => Ret (UR_RESULT_ERROR_INVALID_ARGUMENT, 0)
         | Some _ => Ret (UR_RESULT_SUCCESS, p) end) = Ret (UR_RESULT_SUCCESS, p)) as ->.
  { unfold SafeAllocate. destruct Hpl as [->|[([->|[->| ->]] & HD & Hv)|[-> HD]]]; simpl.
    all: destruct Device; try done; by rewrite Hv. }
  cbn [mbind outcome_bind]. rewrite decide_True by done.
  set (al := effective_alignment _ _) in *. set (st := stats_of Ctx s) in *.
  assert (u64 (user_begin p rz al + Size) = user_begin p rz al + Size) as Hue
    by (apply u64_small; unfold in_u64; lia).
  assert (n ⊖ Size = n - Size) as Hns by (apply u64_sub_small; lia).
  assert (getRedzoneSize AI = n - Size) as Hrs.
  { unfold getRedzoneSize, AI. simpl. rewrite (u64_sub_small (_ + Size)) by lia.
    rewrite u64_sub_small by lia. lia. }
  assert (with_stats Ctx (UpdateUSMMalloced n (n ⊖ Size)) s = Ret (counted Ctx AI s)) as ->.
  { unfold with_stats, UpdateUSMMalloced, UpdateOverhead, counted. destruct PrintStats eqn:Ep; [|done].
    destruct (Hst Ep) as [Hb Hroom]. fold st in Hb, Hroom |- *. cbn [UsmMalloced UsmMallocedRedzones UsmFreed].
    rewrite Hns, (u64_small (UsmMalloced st + n)), (u64_small (UsmMallocedRedzones st + _))
      by (unfold in_u64; lia).
    rewrite (proj2 (Z.leb_le (UsmMallocedRedzones st + (n - Size)) (UsmMalloced st + n))) by lia.
    by rewrite Hrs. }
  cbn [mbind outcome_bind]. rewrite Hue, (u64_small (p + n)) by (unfold in_u64; lia).
  rewrite (proj2 (Z.leb_le (user_begin p rz al + Size) _)) by lia.
  by unfold allocated, counted; destruct PrintStats.
Qed.
End env.
End LayoutFacts.

(** ** The invariant of the interceptor's state *)
Module MemoryFacts.
Import Alloc_map Memory MapFacts LayoutFacts.

(** Sums over the entries of the map. *)
Definition sumZ (g : entry → Z) (l : list entry) : Z := foldr (λ e a, g e + a) 0 l.

Lemma sumZ_ext g h l : (∀ e, e ∈ l → g e = h e) → sumZ g l = sumZ h l.
Proof.
  induction l as [|e l IH]; simpl; intros He; [done|]. rewrite (He e), IH; [done| |by left].
  intros x Hx. apply He. by right.
Qed.
Lemma sumZ_perm g l k : l ≡ₚ k → sumZ g l = sumZ g k.
Proof. induction 1; simpl; lia. Qed.
Lemma sumZ_le g h l : (∀ e, e ∈ l → 0 ≤ g e ≤ h e) → 0 ≤ sumZ g l ≤ sumZ h l.
Proof.
  induction l as [|e l IH]; simpl; intros He; [lia|]. pose proof (He e ltac:(by left)).
  assert (0 ≤ sumZ g l ≤ sumZ h l) by (apply IH; intros x Hx; apply He; by right). lia.
Qed.
Lemma sumZ_app g l k : sumZ g (l ++ k) = sumZ g l + sumZ g k.
Proof. induction l as [|e l IH]; simpl; lia. Qed.
(** Changing the value of one entry. *)
Lemma sumZ_update g h l e : NoDup l → e ∈ l → (∀ x, x ∈ l → x ≠ e → g x = h x) →
  sumZ h l = sumZ g l - g e + h e.
Proof.
  induction 1 as [|x l Hx Hl IH]; intros Hin Hgh; [set_solver|]. simpl.
  destruct (decide (x = e)) as [->|Hne].
  - rewrite (sumZ_ext h g l); [lia|]. intros y Hy. symmetry. apply Hgh; [by right|]. by intros ->.
  - rewrite IH, (Hgh x); [lia|by left|done|set_solver|]. intros y Hy. apply Hgh. by right.
Qed.
Lemma sumZ_filter_zero g l P `{∀ x : entry, Decision (P x)} :
  (∀ e, e ∈ l → ¬ P e → g e = 0) → sumZ g (filter P l) = sumZ g l.
Proof.
  induction l as [|e l IH]; intros H0; [done|]. rewrite filter_cons.
  assert (sumZ g (filter P l) = sumZ g l) as E by (apply IH; intros x Hx; apply H0; by right).
  case_decide as Hd; simpl; rewrite E; [done|]. rewrite (H0 e ltac:(by left) Hd). done.
Qed.

(** What every record of the store satisfies. *)
Record info_ok (AI : AllocInfo) : Prop := {
  io_begin : 0 ≤ AllocBegin AI; io_size : 0 < AllocSize AI;
  io_end : AllocBegin AI + AllocSize AI < 2 ^ 64;
  io_user : AllocBegin AI ≤ UserBegin AI ≤ UserEnd AI ∧ UserEnd AI ≤ AllocBegin AI + AllocSize AI;
  io_device : Type_ AI ≠ HOST_USM → Device AI ≠ None
}.

Lemma redzone_size AI : info_ok AI →
  getRedzoneSize AI = AllocSize AI - (UserEnd AI - UserBegin AI) ∧ 0 ≤ getRedzoneSize AI ≤ AllocSize AI.
Proof.
  intros [? ? ? ? _]. unfold getRedzoneSize. rewrite (u64_sub_small (UserEnd AI)) by lia.
  rewrite u64_sub_small by lia. lia.
Qed.

Definition size_of (objs : list AllocInfo) (id : nat) : Z :=
  match objs !! id with Some AI => AllocSize AI | None => 0 end.

(** What an entry contributes to the statistics of context [c]: nothing once it
    has been handed back to the driver. *)
Definition contrib (f : AllocInfo → Z) (c : nat) (objs : list AllocInfo) (fr : list nat) (e : entry) : Z :=
  match objs !! e.2 with
  | Some AI => if decide (Context AI = c ∧ e.2 ∉ fr) then f AI else 0
  | None => 0
  end.

Definition cache_ok (s : state) (c : nat * option nat) (C : QuarantineCache) : Prop :=
  NoDup (m_List C) ∧ m_Size C = u64 (sumZ (λ e, size_of (objects s) e.2) (m_List C)) ∧
  ∀ e, e ∈ m_List C → e ∈ m_AllocationMap s ∧ e.2 ∉ freed s ∧
    ∃ AI, objects s !! e.2 = Some AI ∧ IsReleased AI = true ∧ c = (Context AI, Device AI).

Section env.
Context `{Henv : !Env}.

Record inv (s : state) : Prop := {
  inv_objects : Forall info_ok (objects s);
  inv_map : spaced (size_of (objects s)) (m_AllocationMap s);
  inv_entry e : e ∈ m_AllocationMap s → ∃ AI, objects s !! e.2 = Some AI ∧ AllocBegin AI = e.1;
  inv_nodup : NoDup (m_AllocationMap s).*2;
  inv_live id AI : objects s !! id = Some AI → IsReleased AI = false →
    id ∉ freed s ∧ (AllocBegin AI, id) ∈ m_AllocationMap s;
  inv_freed : NoDup (freed s) ∧ Forall (λ id, is_Some (objects s !! id)) (freed s);
  inv_caches c C : caches s !! c = Some C → cache_ok s c C;
  inv_stats c : PrintStats = true → let st := stats_of c s in
    UsmMalloced st = sumZ (contrib AllocSize c (objects s) (freed s)) (m_AllocationMap s) ∧
    UsmMallocedRedzones st = sumZ (contrib getRedzoneSize c (objects s) (freed s)) (m_AllocationMap s)
}.

(** Where statistics are kept, the counters happen to start at zero. *)
Definition stats_ok : Prop :=
  PrintStats = true → ∀ c, UsmMalloced (new_stats c) = 0 ∧ UsmMallocedRedzones (new_stats c) = 0.

Lemma inv_initial : stats_ok → inv initial.
Proof.
  intros Hst. constructor; simpl.
  - constructor.
  - constructor.
  - intros e He. by apply elem_of_nil in He.
  - constructor.
  - intros id AI Hid. by rewrite lookup_nil in Hid.
  - split; constructor.
  - intros c C. by rewrite lookup_empty.
  - intros c Hp. by apply Hst.
Qed.

Lemma inv_entry_ok s e : inv s → e ∈ m_AllocationMap s →
  ∃ AI, objects s !! e.2 = Some AI ∧ AllocBegin AI = e.1 ∧ info_ok AI ∧ size_of (objects s) e.2 = AllocSize AI.
Proof.
  intros Hi He. destruct (inv_entry s Hi e He) as (AI & HAI & Hb). exists AI. split_and!; [done..| |].
  - by eapply Forall_lookup_1; [apply Hi|].
  - unfold size_of. by rewrite HAI.
Qed.

Lemma inv_sizes s : inv s → Forall (λ e, 0 < size_of (objects s) e.2) (m_AllocationMap s).
Proof.
  intros Hi. apply Forall_forall. intros e He. destruct (inv_entry_ok s e Hi He) as (AI & _ & _ & Hok & ->).
  apply Hok.
Qed.

Lemma inv_nodup_entries s : inv s → NoDup (m_AllocationMap s).
Proof. intros Hi. eapply NoDup_fmap_1, Hi. Qed.

(** An entry is determined by its record. *)
Lemma inv_entry_inj s e1 e2 : inv s → e1 ∈ m_AllocationMap s → e2 ∈ m_AllocationMap s → e1.2 = e2.2 → e1 = e2.
Proof.
  intros Hi H1 H2 E. destruct (inv_entry s Hi e1 H1) as (A1 & O1 & B1), (inv_entry s Hi e2 H2) as (A2 & O2 & B2).
  destruct e1, e2. simpl in *. subst. congruence.
Qed.

(** The statistics never underflow and leave room for what is not allocated. *)
Lemma inv_stats_bounds s c : inv s → PrintStats = true →
  let st := stats_of c s in
  0 ≤ UsmMallocedRedzones st ≤ UsmMalloced st ∧ UsmMalloced st < 2 ^ 64.
Proof.
  intros Hi Hp st. destruct (inv_stats s Hi c Hp) as [HM HR]. fold st in HM, HR. rewrite HM, HR.
  assert (∀ e, e ∈ m_AllocationMap s →
    0 ≤ contrib getRedzoneSize c (objects s) (freed s) e ≤ contrib AllocSize c (objects s) (freed s) e ∧
    0 ≤ contrib AllocSize c (objects s) (freed s) e ≤ size_of (objects s) e.2) as Hle.
  { intros e He. destruct (inv_entry_ok s e Hi He) as (AI & HO & _ & Hok & HS).
    pose proof (redzone_size AI Hok) as [_ ?]. pose proof (io_size AI Hok).
    unfold contrib. rewrite HS, HO. case_decide; lia. }
  split; [apply sumZ_le; intros e He; by apply Hle|].
  assert (sumZ (contrib AllocSize c (objects s) (freed s)) (m_AllocationMap s) ≤
          sumZ (λ e, size_of (objects s) e.2) (m_AllocationMap s)) as H1
    by (apply sumZ_le; intros e He; by apply Hle).
  destruct (spaced_sum (size_of (objects s)) (m_AllocationMap s) 0 (2 ^ 64 - 1)) as [_ H2].
  - apply Hi.
  - apply Forall_forall. intros e He. destruct (inv_entry_ok s e Hi He) as (AI & _ & <- & Hok & ->).
    destruct Hok. lia.
  - unfold sumZ in *. destruct (m_AllocationMap s) as [|e l] eqn:E; [simpl in *; lia|].
    specialize (H2 ltac:(done)). lia.
Qed.

(** ** Preservation, one elementary change at a time *)

Lemma inv_set_lists x s : inv s → inv (set_lists x s).
Proof. intros []. by constructor. Qed.
Lemma inv_add_report r s : inv s → inv (add_report r s).
Proof. intros []. by constructor. Qed.

Lemma insertAll_eq ds id s : ∃ x, insertAll ds id s = set_lists x s.
Proof.
  revert s. induction ds as [|d ds IH]; intros s; [exists (AllocInfos s); by destruct s|].
  unfold insertAll in *. simpl. destruct (IH (insertAllocInfo d id s)) as [x ->]. by exists x.
Qed.

Lemma size_of_app objs AI id : (id < length objs)%nat → size_of (objs ++ [AI]) id = size_of objs id.
Proof. intros H. unfold size_of. by rewrite lookup_app_l. Qed.

Lemma contrib_app f c objs AI fr e : (e.2 < length objs)%nat → contrib f c (objs ++ [AI]) fr e = contrib f c objs fr e.
Proof. intros H. unfold contrib. by rewrite lookup_app_l. Qed.

Lemma inv_id_lt s e : inv s → e ∈ m_AllocationMap s → (e.2 < length (objects s))%nat.
Proof. intros Hi He. destruct (inv_entry s Hi e He) as (AI & H & _). by eapply lookup_lt_Some. Qed.

Lemma counted_eq c AI s : ∃ x, counted c AI s = set_stats x s.
Proof. unfold counted. destruct PrintStats; [by eexists|]. exists (stats s). by destruct s. Qed.

(** A new allocation that does not overlap the ones in the map. *)
Lemma inv_allocated c Dev AI s :
  inv s → info_ok AI → IsReleased AI = false → Context AI = c →
  Forall (apart (size_of (objects s)) (AllocBegin AI) (AllocSize AI)) (m_AllocationMap s) →
  inv (allocated c Dev AI s).
Proof.
  intros Hi Hok Hrel Hc Hap. unfold allocated. set (id := length (objects s)). set (ds := match Dev with Some d => _ | None => _ end).
  destruct (insertAll_eq ds id (set_objects (objects s ++ [AI]) (counted c AI s))) as [x ->].
  destruct (counted_eq c AI s) as [st' Est]. rewrite Est. simpl.
  set (objs := objects s ++ [AI]).
  assert (size_of objs id = AllocSize AI) as Hsid.
  { unfold size_of, objs, id. by rewrite lookup_app_r, Nat.sub_diag by lia. }
  assert (∀ e, e ∈ m_AllocationMap s → size_of objs e.2 = size_of (objects s) e.2) as Hso.
  { intros e He. apply size_of_app. by apply inv_id_lt. }
  destruct (emplace_spaced (size_of objs) (AllocBegin AI) id (m_AllocationMap s)) as [Hsp Hperm].
  { eapply spaced_ext; [|apply Hi]. intros e He. symmetry. by apply Hso. }
  { rewrite Hsid. apply Hok. }
  { eapply Forall_impl_in; [apply (inv_sizes s Hi)|]. simpl. intros e He Hp. by rewrite Hso. }
  { eapply Forall_impl_in; [exact Hap|]. unfold apart. intros e He Hp. by rewrite Hsid, Hso. }
  assert (id ∉ freed s) as Hfr.
  { intros Hin. destruct (inv_freed s Hi) as [_ Hf]. rewrite Forall_forall in Hf.
    destruct (Hf id Hin) as [A HA]. apply lookup_lt_Some in HA. unfold id in HA. lia. }
  assert (∀ j A, objs !! j = Some A → objects s !! j = Some A ∨ j = id ∧ A = AI) as Hobj.
  { unfold objs, id. intros j A. rewrite lookup_app. destruct (objects s !! j) eqn:Hlk; [by left|].
    intros [Hz Hj]%list_lookup_singleton_Some. right. apply lookup_ge_None in Hlk. split; [lia|done]. }
  assert (∀ f c', sumZ (contrib f c' objs (freed s)) (emplace (AllocBegin AI) id (m_AllocationMap s)) =
    (if decide (c = c') then f AI else 0) + sumZ (contrib f c' (objects s) (freed s)) (m_AllocationMap s)) as Hsum.
  { intros f c'. rewrite (sumZ_perm _ _ _ Hperm). simpl. f_equal.
    - unfold contrib, objs. simpl. unfold id. rewrite lookup_app_r, Nat.sub_diag by lia. simpl.
      rewrite Hc. fold id. repeat case_decide; naive_solver.
    - apply sumZ_ext. intros e He. apply contrib_app. by apply inv_id_lt. }
  constructor; simpl.
  - apply Forall_app. split; [apply Hi|]. by constructor.
  - exact Hsp.
  - intros e [->|He]%emplace_elem; simpl.
    + exists AI. unfold objs, id. by rewrite lookup_app_r, Nat.sub_diag by lia.
    + destruct (inv_entry s Hi e He) as (A & HA & ?). exists A. unfold objs. by rewrite (lookup_app_l_Some _ _ _ _ HA).
  - rewrite Hperm. simpl. constructor; [|apply Hi].
    intros (e & E & He)%list_elem_of_fmap. pose proof (inv_id_lt s e Hi He) as Hlt. rewrite <-E in Hlt. unfold id in Hlt. lia.
  - intros j A [HA|[-> ->]]%Hobj Hr.
    + destruct (inv_live s Hi j A HA Hr) as [? ?]. split; [done|]. rewrite Hperm. by right.
    + split; [done|]. rewrite Hperm. by left.
  - destruct (inv_freed s Hi) as [? Hf]. split; [done|]. eapply Forall_impl; [exact Hf|].
    intros j [A HA]. exists A. unfold objs. by apply lookup_app_l_Some.
  - intros k C HC. destruct (inv_caches s Hi k C HC) as (Hn & Hs & He). split_and!; [done| |].
    + rewrite Hs. f_equal. apply sumZ_ext. intros e Hin. symmetry. apply Hso. by apply He.
    + intros e Hin. destruct (He e Hin) as (Hm & Hf & A & HA & ?). split_and!; [simpl; rewrite Hperm; by right|done|].
      exists A. simpl. unfold objs. by rewrite (lookup_app_l_Some _ _ _ _ HA).
  - intros c' Hp. rewrite !Hsum. destruct (inv_stats s Hi c' Hp) as [H1 H2].
    assert (st' = stats (counted c AI s)) as -> by by rewrite Est.
    unfold counted, stats_of. rewrite Hp. cbn [stats set_stats set_lists set_objects set_map].
    destruct (decide (c = c')) as [->|Hne].
    + rewrite lookup_insert_eq. simpl. unfold stats_of in H1, H2. rewrite H1, H2. lia.
    + rewrite lookup_insert_ne by done. unfold stats_of in H1, H2. rewrite H1, H2. lia.
Qed.

Lemma mark_size AI : AllocSize (mark_released AI) = AllocSize AI ∧ getRedzoneSize (mark_released AI) = getRedzoneSize AI.
Proof. done. Qed.

(** Marking a record as released. *)
Lemma inv_mark s id AI : inv s → objects s !! id = Some AI →
  inv (set_objects (<[id := mark_released AI]> (objects s)) s).
Proof.
  intros Hi HAI. set (objs := <[id := mark_released AI]> (objects s)).
  assert (∀ j, objs !! j = if decide (j = id) then Some (mark_released AI) else objects s !! j) as Hl.
  { intros j. unfold objs. case_decide as Hd; [subst; apply list_lookup_insert_eq; by eapply lookup_lt_Some|].
    by rewrite list_lookup_insert_ne. }
  assert (∀ j, size_of objs j = size_of (objects s) j) as Hs.
  { intros j. unfold size_of. rewrite Hl. case_decide; [subst; by rewrite HAI|done]. }
  assert (∀ f c e, (∀ A, f (mark_released A) = f A) →
    contrib f c objs (freed s) e = contrib f c (objects s) (freed s) e) as Hc.
  { intros f c e Hf. unfold contrib. rewrite Hl. case_decide as Hd; [|done]. rewrite Hd, HAI. simpl. by rewrite Hf. }
  constructor; simpl.
  - apply Forall_insert; [apply Hi|]. pose proof (Forall_lookup_1 _ _ _ _ (inv_objects s Hi) HAI) as [].
    by constructor.
  - eapply spaced_ext; [|apply Hi]. intros e _. symmetry. apply Hs.
  - intros e He. destruct (inv_entry s Hi e He) as (A & HA & Hb). rewrite Hl. case_decide as Hd; [|by exists A].
    exists (mark_released AI). split; [done|]. rewrite Hd in HA. simplify_eq. done.
  - apply Hi.
  - intros j A. rewrite Hl. case_decide; [by intros [= <-]|]. by apply Hi.
  - destruct (inv_freed s Hi) as [? Hf]. split; [done|]. eapply Forall_impl; [exact Hf|].
    intros j Hj. simpl. rewrite Hl. case_decide; [done|exact Hj].
  - intros k C HC. destruct (inv_caches s Hi k C HC) as (Hn & Hsz & He). split_and!; [done| |].
    + rewrite Hsz. f_equal. apply sumZ_ext. intros e _. symmetry. apply Hs.
    + intros e Hin. destruct (He e Hin) as (Hm & Hf & A & HA & HR & Hk). split_and!; [done..|].
      simpl. rewrite Hl. case_decide as Hd; [|by exists A]. rewrite Hd in HA. simplify_eq. by eexists.
  - intros c Hp. destruct (inv_stats s Hi c Hp) as [H1 H2]. unfold stats_of in *. simpl. rewrite H1, H2.
    split; apply sumZ_ext; intros e _; symmetry; by apply Hc.
Qed.

(** A released entry that no quarantine cache holds. *)
Record dead (c : nat) (s : state) (e : entry) : Prop := {
  dead_map : e ∈ m_AllocationMap s;
  dead_freed : e.2 ∉ freed s;
  dead_info : ∃ AI, objects s !! e.2 = Some AI ∧ IsReleased AI = true ∧ Context AI = c;
  dead_cache k C : caches s !! k = Some C → e ∉ m_List C
}.

(** The sums of the statistics without the chunk of an entry. *)
Lemma sum_without f c c' s e AI : inv s → dead c s e → objects s !! e.2 = Some AI →
  sumZ (contrib f c' (objects s) (freed s ++ [e.2])) (m_AllocationMap s) =
    sumZ (contrib f c' (objects s) (freed s)) (m_AllocationMap s) - (if decide (c = c') then f AI else 0).
Proof.
  intros Hi [Hm Hf (A & HA & HR & Hctx) Hca] HAI. rewrite HAI in HA. injection HA as <-.
  rewrite (sumZ_update (contrib f c' (objects s) (freed s)) _ _ e (inv_nodup_entries s Hi) Hm).
  - unfold contrib. rewrite HAI, Hctx. repeat case_decide; set_solver by lia.
  - intros x Hx Hne. unfold contrib. destruct (objects s !! x.2); [|done].
    assert (x.2 ≠ e.2) by (intros E; apply Hne; by eapply inv_entry_inj).
    repeat case_decide; set_solver.
Qed.

(** Taking a chunk off the statistics never underflows. *)
Lemma real_freed_stats c s e AI : inv s → dead c s e → objects s !! e.2 = Some AI → PrintStats = true →
  let st := stats_of c s in ∃ q,
  UpdateUSMRealFreed (AllocSize AI) (getRedzoneSize AI) st =
    Ret {| UsmMalloced := UsmMalloced st - AllocSize AI;
           UsmMallocedRedzones := UsmMallocedRedzones st - getRedzoneSize AI; UsmFreed := q |}.
Proof.
  intros Hi Hd HAI Hp st. pose proof Hd as [Hm _ _ _].
  destruct (inv_entry_ok s e Hi Hm) as (A & HA & _ & Hok & _). rewrite HAI in HA. injection HA as <-.
  pose proof (redzone_size AI Hok) as [_ Hrz].
  destruct (inv_stats s Hi c Hp) as [H1 H2]. fold st in H1, H2.
  assert (∀ f, sumZ (contrib f c (objects s) (freed s ++ [e.2])) (m_AllocationMap s) =
    sumZ (contrib f c (objects s) (freed s)) (m_AllocationMap s) - f AI) as Hsum
    by (intros f; rewrite (sum_without f c c s e AI Hi Hd HAI); by rewrite decide_True).
  assert (0 ≤ UsmMallocedRedzones st - getRedzoneSize AI ≤ UsmMalloced st - AllocSize AI) as Hle.
  { rewrite H1, H2, <-!Hsum. apply sumZ_le. intros x Hx. destruct (inv_entry_ok s x Hi Hx) as (A & HA & _ & HokA & _).
    unfold contrib. rewrite HA. pose proof (redzone_size A HokA). case_decide; lia. }
  pose proof (inv_stats_bounds s c Hi Hp) as [Hb1 Hb2]. fold st in Hb1, Hb2. destruct Hok as [Hok1 Hok2 Hok3 _ _].
  unfold UpdateUSMRealFreed, UpdateOverhead. cbn [UsmMalloced UsmMallocedRedzones].
  rewrite (u64_sub_small (UsmMalloced st)), (u64_sub_small (UsmMallocedRedzones st)) by lia.
  rewrite (proj2 (Z.leb_le (UsmMallocedRedzones st - getRedzoneSize AI) (UsmMalloced st - AllocSize AI))) by lia.
  by eexists.
Qed.

(** Handing the chunk of a dead entry back to the driver. *)
Lemma inv_free c s e AI :
  inv s → dead c s e → objects s !! e.2 = Some AI →
  ∃ s1, with_stats c (UpdateUSMRealFreed (AllocSize AI) (getRedzoneSize AI)) s = Ret s1 ∧
    inv (add_freed e.2 s1) ∧ objects s1 = objects s ∧ m_AllocationMap s1 = m_AllocationMap s ∧
    caches s1 = caches s ∧ freed s1 = freed s ∧ reports s1 = reports s.
Proof.
  intros Hi Hd HAI. pose proof Hd as [Hm Hf (A & HA & HR & Hctx) Hca]. rewrite HAI in HA. injection HA as <-.
  assert (∃ x, with_stats c (UpdateUSMRealFreed (AllocSize AI) (getRedzoneSize AI)) s = Ret (set_stats x s) ∧
    (PrintStats = true → ∃ q, x = <[c := {| UsmMalloced := UsmMalloced (stats_of c s) - AllocSize AI;
           UsmMallocedRedzones := UsmMallocedRedzones (stats_of c s) - getRedzoneSize AI; UsmFreed := q |}]> (stats s)))
    as (x & -> & Hx).
  { unfold with_stats. destruct PrintStats eqn:Hp; [|exists (stats s); by destruct s].
    destruct (real_freed_stats c s e AI Hi Hd HAI Hp) as [q E]. rewrite E. eexists. split; [done|]. intros _. by exists q. }
  eexists. split; [done|]. split; [|done].
  constructor; simpl; try apply Hi.
  - intros j A HA HR'. destruct (inv_live s Hi j A HA HR') as [? ?]. split; [|done].
    intros [|Hj%list_elem_of_singleton]%elem_of_app; [done|]. subst. rewrite HAI in HA. congruence.
  - destruct (inv_freed s Hi) as [Hn Hfo]. split.
    + apply NoDup_app. split_and!; [done| |apply NoDup_singleton].
      intros y Hy ->%list_elem_of_singleton. done.
    + apply Forall_app. split; [done|]. by rewrite Forall_singleton, HAI.
  - intros k C HC. destruct (inv_caches s Hi k C HC) as (Hn & Hs & He). split_and!; [done..|].
    intros y Hy. destruct (He y Hy) as (Hym & Hyf & Hyi). split_and!; [done| |done]. simpl.
    intros [|Hj%list_elem_of_singleton]%elem_of_app; [done|].
    apply (Hca k C HC). by rewrite <-(inv_entry_inj s y e).
  - intros c' Hp. destruct (Hx Hp) as [q ->]. unfold stats_of. simpl.
    rewrite !(sum_without _ c c' s e AI Hi Hd HAI). destruct (inv_stats s Hi c' Hp) as [H3 H4]. destruct (decide (c = c')) as [<-|Hne].
    + rewrite lookup_insert_eq. simpl. by rewrite <-H3, <-H4.
    + rewrite lookup_insert_ne by done. unfold stats_of in H3, H4. rewrite H3, H4. lia.
Qed.

(** Erasing the entry of a chunk that has been handed back. *)
Lemma inv_erase s e : inv s → e ∈ m_AllocationMap s → e.2 ∈ freed s →
  ∃ m, erase e (m_AllocationMap s) = Ret m ∧ inv (set_map m s) ∧
    ∀ x, x ∈ m ↔ x ∈ m_AllocationMap s ∧ x ≠ e.
Proof.
  intros Hi He Hf. unfold erase. rewrite decide_True by done. set (m := filter _ _).
  assert (∀ x, x ∈ m ↔ x ∈ m_AllocationMap s ∧ x ≠ e) as Hm.
  { intros x. unfold m. rewrite list_elem_of_filter. tauto. }
  exists m. split_and!; [done| |done]. constructor; simpl; try apply Hi.
  - apply spaced_filter, Hi.
  - intros x [Hx _]%Hm. by apply Hi.
  - apply NoDup_fmap_filter, Hi.
  - intros j A HA HR. destruct (inv_live s Hi j A HA HR) as [? ?]. split; [done|]. apply Hm. split; [done|].
    intros <-. done.
  - intros k C HC. destruct (inv_caches s Hi k C HC) as (Hn & Hs & Hx). split_and!; [done..|].
    intros x Hin. destruct (Hx x Hin) as (Hxm & Hxf & Hxi). split_and!; [|done..].
    simpl. apply Hm. split; [done|]. by intros ->.
  - intros c Hp. destruct (inv_stats s Hi c Hp) as [H1 H2]. unfold stats_of in *. simpl. rewrite H1, H2.
    split; symmetry; apply sumZ_filter_zero; intros x Hx Hne%dec_stable; subst x;
      unfold contrib; destruct (objects s !! e.2); [|done| |done]; rewrite decide_False by tauto; done.
Qed.

Lemma dead_step c s s' e e' m : NoDup [e; e'] → dead c s e' →
  objects s' = objects s → caches s' = caches s → freed s' = freed s ++ [e.2] → m_AllocationMap s' = m →
  (∀ x, x ∈ m ↔ x ∈ m_AllocationMap s ∧ x ≠ e) → e'.2 ≠ e.2 → dead c s' e'.
Proof.
  intros Hn [Hm Hf Ho Hc] Eo Ec Ef <- Hx Hne. constructor.
  - apply Hx. split; [done|]. apply NoDup_cons in Hn as [Hn _]. set_solver.
  - rewrite Ef. set_solver.
  - by rewrite Eo.
  - rewrite Ec. exact Hc.
Qed.

(** Releasing a list of dead entries: always defined; every chunk is handed
    back once; on success all entries are erased. *)
Lemma release_list_spec c l s : inv s → NoDup l.*2 → Forall (dead c s) l →
  ∃ r s', release_list c l s = Ret (r, s') ∧ inv s' ∧ objects s' = objects s ∧ reports s' = reports s ∧
    caches s' = caches s ∧ (r = UR_RESULT_SUCCESS → freed s' = freed s ++ l.*2) ∧
    (∃ k, freed s' = freed s ++ take k l.*2).
Proof.
  revert s. induction l as [|e l IH]; intros s Hi Hn Hd.
  { exists UR_RESULT_SUCCESS, s. split_and!; [done..|by rewrite app_nil_r|]. exists 0%nat. by rewrite app_nil_r. }
  apply Forall_cons in Hd as [He Hd]. simpl in Hn. apply NoDup_cons in Hn as [Hen Hn].
  destruct (inv_entry_ok s e Hi (dead_map _ _ _ He)) as (AI & HAI & _). cbn [release_list].
  unfold deref. rewrite HAI. cbn [mbind outcome_bind].
  destruct (inv_free c s e AI Hi He HAI) as (s1 & -> & Hi1 & Eo & Em & Ec & Ef & Er).
  cbn [mbind outcome_bind]. unfold free_chunk. case_decide as Hr.
  2: { eexists _, _. split_and!; [done|done|done|done|done|done|]. exists 1%nat. simpl. by rewrite Ef, take_0. }
  destruct (inv_erase (add_freed e.2 s1) e Hi1) as (m & Hm & Hi2 & Hmx); simpl.
  { rewrite Em. apply He. } { rewrite elem_of_app. right. by apply list_elem_of_singleton. }
  simpl in Hm. rewrite Hm. cbn [mbind outcome_bind].
  destruct (IH (set_map m (add_freed e.2 s1)) Hi2 Hn) as (r & s' & E & Hi' & Eo' & Er' & Ec' & Hs & k & Hk).
  { eapply Forall_impl_in; [exact Hd|]. intros e' He' Hde'.
    assert (e'.2 ≠ e.2) as Hne by (intros E; apply Hen; rewrite <-E; by apply list_elem_of_fmap_2).
    eapply (dead_step c s _ e e' m); simpl; rewrite ?Ef, ?Eo, ?Ec; try done.
    - constructor; [|apply NoDup_singleton]. intros ->%list_elem_of_singleton. done.
    - intros x. rewrite Hmx. simpl. by rewrite Em. }
  exists r, s'. split_and!; [exact E|done| | | | |].
  - by rewrite Eo'.
  - by rewrite Er'.
  - by rewrite Ec'.
  - intros Hsuc. rewrite (Hs Hsuc). simpl. by rewrite Ef, <-app_assoc.
  - exists (S k). rewrite Hk. simpl. by rewrite Ef, <-app_assoc.
Qed.

(** ** The quarantine *)

Lemma dequeue_while_spec A l size s :
  Forall (λ e, is_Some (objects s !! e.2)) l →
  size = u64 (sumZ (λ e, size_of (objects s) e.2) l) →
  ∃ out rest, dequeue_while A l size s = Ret (out, rest, u64 (sumZ (λ e, size_of (objects s) e.2) rest)) ∧
    l = out ++ rest ∧
    (rest = [] ∨ u64 (sumZ (λ e, size_of (objects s) e.2) rest) ⊕ A ≤ max_quarantine) ∧
    (∀ o1 e o2, out = o1 ++ e :: o2 →
       max_quarantine < u64 (sumZ (λ e, size_of (objects s) e.2) (e :: o2 ++ rest)) ⊕ A).
Proof.
  intros Hl. revert size. induction Hl as [|e l [AI HAI] Hl IH]; intros size ->.
  { exists [], []. split_and!; [done..|by left|]. intros [|??] ???; done. }
  cbn [dequeue_while]. case_match eqn:Hmax; bool_to_prop.
  - unfold deref. rewrite HAI. cbn [mbind outcome_bind].
    destruct (IH (u64 (sumZ (λ e, size_of (objects s) e.2) (e :: l)) ⊖ AllocSize AI)) as (out & rest & -> & -> & Hr & Ho).
    { simpl. unfold size_of at 1. rewrite HAI. unfold u64, wrap. rewrite Zminus_mod_idemp_l. f_equal. lia. }
    exists (e :: out), rest. cbn [mbind outcome_bind]. split_and!; [done..|].
    intros [|o o1] x o2 [= -> E]; [subst; exact Hmax|]. by apply (Ho o1).
  - exists [], (e :: l). split_and!; [done..|by right|]. intros [|??] ???; done.
Qed.

(** Putting a dead entry into the quarantine of its device. *)
Lemma put_spec c s e AI :
  inv s → dead c s e → objects s !! e.2 = Some AI →
  ∃ out rest s', put c (Device AI) e s = Ret (out, s') ∧ inv s' ∧
    objects s' = objects s ∧ m_AllocationMap s' = m_AllocationMap s ∧ freed s' = freed s ∧
    reports s' = reports s ∧ stats s' = stats s ∧
    m_List (default empty_cache (caches s !! (c, Device AI))) = out ++ rest ∧
    caches s' = <[(c, Device AI) := {| m_List := rest ++ [e];
       m_Size := u64 (sumZ (λ x, size_of (objects s) x.2) (rest ++ [e])) |}]> (caches s) ∧
    NoDup out.*2 ∧ Forall (dead c s') out ∧
    (rest = [] ∨ u64 (sumZ (λ x, size_of (objects s) x.2) (rest ++ [e])) ≤ max_quarantine) ∧
    (∀ o1 x o2, out = o1 ++ x :: o2 →
       max_quarantine < u64 (sumZ (λ x, size_of (objects s) x.2) (x :: o2 ++ rest ++ [e]))).
Proof.
  intros Hi He HAI. pose proof He as [Hem Hef (A & HA & HR & Hctx) Hec]. rewrite HAI in HA. injection HA as <-.
  unfold put, deref. rewrite HAI. cbn [mbind outcome_bind].
  set (C := default empty_cache (caches s !! (c, Device AI))).
  assert (cache_ok s (c, Device AI) C) as (Hn & Hs & Hx).
  { unfold C. destruct (caches s !! (c, Device AI)) eqn:E; simpl; [by apply Hi|].
    split_and!; [constructor|done|]. intros x Hin. by apply elem_of_nil in Hin. }
  assert (e ∉ m_List C) as HeC.
  { unfold C. destruct (caches s !! (c, Device AI)) eqn:E; simpl; [by eapply Hec|]. apply not_elem_of_nil. }
  destruct (dequeue_while_spec (AllocSize AI) (m_List C) (m_Size C) s) as (out & rest & -> & El & Hmax & Hev).
  { apply Forall_forall. intros x Hin. destruct (Hx x Hin) as (_ & _ & A & -> & _). done. }
  { done. }
  cbn [mbind outcome_bind]. set (C' := {| m_List := rest ++ [e]; m_Size := _ |}).
  assert (∀ l, u64 (sumZ (λ x, size_of (objects s) x.2) l) ⊕ AllocSize AI =
    u64 (sumZ (λ x, size_of (objects s) x.2) (l ++ [e]))) as Hsum.
  { intros l. rewrite sumZ_app. simpl. unfold size_of at 3. rewrite HAI, u64_add_l. f_equal. lia. }
  assert (m_Size C' = u64 (sumZ (λ x, size_of (objects s) x.2) (rest ++ [e]))) as HC' by apply Hsum.
  exists out, rest. eexists. split; [done|]. rewrite El in Hn. apply NoDup_app in Hn as (Hno & Hnr & Hnrr).
  split_and!; simpl; [|done|done|done|done|done|exact El|by rewrite <-HC'| | | |].
  - constructor; simpl; try apply Hi. intros k D. rewrite lookup_insert. case_decide as Hk; [|by apply Hi].
    intros [= <-]. subst k. split_and!; [|done|].
    + simpl. apply NoDup_app. split_and!; [done| |apply NoDup_singleton].
      intros x Hin ->%list_elem_of_singleton. apply HeC. rewrite El. set_solver.
    + simpl. intros x [Hin|Hin%list_elem_of_singleton]%elem_of_app.
      * apply Hx. rewrite El. set_solver.
      * subst x. split_and!; [done..|]. exists AI. by rewrite Hctx.
  - apply NoDup_fmap_2_strong; [|done]. intros x y Hx' Hy' E. apply (inv_entry_inj s); [done| | |done].
    + apply Hx. rewrite El. set_solver.
    + apply Hx. rewrite El. set_solver.
  - apply Forall_forall. intros x Hin. destruct (Hx x) as (Hxm & Hxf & A & HA & HRA & Hk); [rewrite El; set_solver|].
    constructor; simpl; [done..|exists A; naive_solver|]. intros k D. rewrite lookup_insert.
    case_decide as Hkk; [intros [= <-]; simpl|].
    + intros [Hr|Hr%list_elem_of_singleton]%elem_of_app; [by apply (Hnr x)|]. subst x. apply HeC. rewrite El. set_solver.
    + intros HD Hin'. destruct (inv_caches s Hi k D HD) as (_ & _ & HxD).
      destruct (HxD x Hin') as (_ & _ & A' & HA' & _ & Hk'). rewrite HA in HA'. congruence.
  - rewrite Hsum in Hmax. exact Hmax.
  - intros o1 x o2 Eo. rewrite (app_assoc o2 rest [e]).
    change (max_quarantine < u64 (sumZ (λ x, size_of (objects s) x.2) ((x :: o2 ++ rest) ++ [e]))).
    rewrite <-Hsum. by apply (Hev o1).
Qed.

(** ** Lookup *)

(** The allocation of the map whose chunk contains [a]. *)
Definition holds (s : state) (a : Z) (e : entry) (AI : AllocInfo) : Prop :=
  e ∈ m_AllocationMap s ∧ objects s !! e.2 = Some AI ∧ AllocBegin AI ≤ a < AllocBegin AI + AllocSize AI.

Lemma find_some s a e AI : inv s → holds s a e AI → findAllocInfoByAddress a s = Ret (Some (e, AI)).
Proof.
  intros Hi (He & HAI & Ha). destruct (inv_entry_ok s e Hi He) as (A & HA & Hb & Hok & Hs).
  rewrite HAI in HA. injection HA as <-. unfold findAllocInfoByAddress.
  rewrite (before_upper_bound_spec (size_of (objects s)) _ a e); [|apply Hi|by apply inv_sizes|done|lia].
  unfold deref. rewrite HAI. cbn [mbind outcome_bind]. destruct Hok.
  rewrite u64_small by (unfold in_u64; lia).
  rewrite (proj2 (Z.ltb_ge _ _)), (proj2 (Z.leb_gt _ _)) by lia. done.
Qed.

Lemma find_none s a : inv s → (∀ e AI, ¬ holds s a e AI) → findAllocInfoByAddress a s = Ret None.
Proof.
  intros Hi Hno. unfold findAllocInfoByAddress.
  destruct (before_upper_bound a (m_AllocationMap s)) as [e|] eqn:E; [|done].
  apply before_upper_bound_elem in E as [He Hle].
  destruct (inv_entry_ok s e Hi He) as (A & HA & Hb & Hok & Hs).
  unfold deref. rewrite HA. cbn [mbind outcome_bind]. destruct Hok.
  rewrite u64_small by (unfold in_u64; lia). rewrite (proj2 (Z.ltb_ge _ _)) by lia.
  destruct (Z.leb_spec (AllocBegin A + AllocSize A) a); [done|]. exfalso.
  apply (Hno e A). split_and!; done || lia.
Qed.

(** Deciding whether an address is in a chunk. *)
Lemma holds_dec s a : inv s →
  (∃ e AI, holds s a e AI) ∨ (∀ e AI, ¬ holds s a e AI).
Proof.
  intros Hi. destruct (findAllocInfoByAddress a s) as [[[e AI]|]|?|] eqn:E.
  - left. exists e, AI. revert E. unfold findAllocInfoByAddress.
    destruct (before_upper_bound a (m_AllocationMap s)) as [e'|] eqn:E'; [|done].
    apply before_upper_bound_elem in E' as [He Hle].
    destruct (inv_entry_ok s e' Hi He) as (A & HA & Hb & Hok & Hs).
    unfold deref. rewrite HA. cbn [mbind outcome_bind]. destruct Hok. rewrite u64_small by (unfold in_u64; lia).
    case_match eqn:Hc; [done|]. intros [= <- <-]. bool_to_prop. split_and!; done || lia.
  - right. intros e AI Hh. by rewrite (find_some s a e AI Hi Hh) in E.
  - right. intros e' AI Hh. by rewrite (find_some s a e' AI Hi Hh) in E.
  - right. intros e' AI Hh. by rewrite (find_some s a e' AI Hi Hh) in E.
Qed.

(** ** Release *)

(** Counting a released chunk as quarantined. *)
Lemma freed_stats c n s : inv s →
  ∃ x, with_stats c (UpdateUSMFreed n) s = Ret (set_stats x s) ∧ inv (set_stats x s).
Proof.
  intros Hi. unfold with_stats. destruct PrintStats eqn:Hp; [|exists (stats s); by destruct s].
  eexists. split; [done|]. destruct Hi. constructor; simpl; try done. intros c' _. specialize (inv_stats0 c' Hp).
  unfold stats_of in *. simpl. rewrite lookup_insert. by case_decide; subst.
Qed.

(** A first release of a live allocation. *)
Lemma release_found_spec c e AI s :
  inv s → e ∈ m_AllocationMap s → objects s !! e.2 = Some AI → IsReleased AI = false → Context AI = c →
  ∃ r s' gone, release_found c e AI s = Ret (Returned r, s') ∧ inv s' ∧ reports s' = reports s ∧
    objects s' = <[e.2 := mark_released AI]> (objects s) ∧ freed s' = freed s ++ gone ∧
    (if MaxQuarantineSizeMB =? 0 then gone = [e.2] else e.2 ∉ gone).
Proof.
  intros Hi He HAI HR Hc. unfold release_found.
  destruct (inv_live s Hi e.2 AI HAI HR) as [Hnf _].
  assert (∀ k C, caches s !! k = Some C → e ∉ m_List C) as Hnc.
  { intros k C HC Hin. destruct (inv_caches s Hi k C HC) as (_ & _ & Hx).
    destruct (Hx e Hin) as (_ & _ & A & HA & HRA & _). congruence. }
  pose proof (inv_mark s e.2 AI Hi HAI) as Hi1. set (s1 := set_objects _ s) in *.
  destruct (Forall_lookup_1 _ _ _ _ (inv_objects s Hi) HAI) as [_ _ _ _ Hdev].
  assert (∃ ds, shadow_devices c AI = Ret ds) as [ds ->].
  { unfold shadow_devices. case_decide; [by eexists|]. destruct (Device AI); [by eexists|by destruct Hdev]. }
  cbn [mbind outcome_bind]. destruct (insertAll_eq ds e.2 s1) as [x ->].
  set (s2 := set_lists x s1). assert (inv s2) as Hi2 by by apply inv_set_lists.
  assert (objects s2 !! e.2 = Some (mark_released AI)) as HAI2.
  { unfold s2, s1. simpl. apply list_lookup_insert_eq. by eapply lookup_lt_Some. }
  assert (dead c s2 e) as Hd by (constructor; [done|done|by eexists|exact Hnc]).
  destruct (MaxQuarantineSizeMB =? 0) eqn:Hq.
  - destruct (inv_free c s2 e _ Hi2 Hd HAI2) as (s3 & E & Hi3 & Eo & Em & Ec & Ef & Er).
    destruct (mark_size AI) as [Em1 Em2]. rewrite Em1, Em2 in E. rewrite E. cbn [mbind outcome_bind].
    destruct (inv_erase (add_freed e.2 s3) e Hi3) as (m & Hm & Hi4 & _); simpl.
    { by rewrite Em. } { rewrite elem_of_app. right. by apply list_elem_of_singleton. }
    simpl in Hm. rewrite Hm. cbn [mbind outcome_bind]. unfold free_chunk.
    eexists _, _, [e.2]. split_and!; [done| |simpl; by rewrite Er|simpl; by rewrite Eo|simpl; by rewrite Ef|done].
    exact Hi4.
  - destruct (put_spec c s2 e _ Hi2 Hd HAI2) as (out & rest & s3 & E & Hi3 & Eo & Em & Ef & Er & Es & El & Ec & Hno & Hdo & _).
    simpl in E. rewrite E. cbn [mbind outcome_bind].
    destruct (release_list_spec c out s3 Hi3 Hno Hdo) as (r & s4 & E4 & Hi4 & Eo4 & Er4 & _ & _ & k & Hk).
    rewrite E4. cbn [mbind outcome_bind].
    assert (e.2 ∉ take k out.*2) as Hng.
    { intros Hin%subseteq_take%list_elem_of_fmap. destruct Hin as (y & Ey & Hy).
      assert (y ∈ m_List (default empty_cache (caches s2 !! (c, Device (mark_released AI))))) as Hyc
        by (rewrite El; set_solver).
      destruct (caches s2 !! (c, Device (mark_released AI))) as [C|] eqn:EC; simpl in Hyc.
      2: { by apply elem_of_nil in Hyc. }
      destruct (inv_caches s2 Hi2 _ C EC) as (_ & _ & HxC). destruct (HxC y Hyc) as (Hym & _ & _).
      rewrite (inv_entry_inj s2 e y Hi2 He Hym Ey) in Hnc. by apply (Hnc _ C EC). }
    case_decide as Hr.
    + destruct (freed_stats c (AllocSize AI) s4 Hi4) as (x4 & -> & Hi5). cbn [mbind outcome_bind].
      eexists _, _, _. split_and!; [done|done|simpl; by rewrite Er4, Er|simpl; by rewrite Eo4, Eo|
        simpl; by rewrite Hk, Ef|done].
    + eexists _, _, _. split_and!; [done|done|by rewrite Er4, Er|by rewrite Eo4, Eo|by rewrite Hk, Ef|done].
Qed.

(** The cases of [releaseMemory]. *)
Definition bad_free (c : nat) (a : Z) (s : state) (r : report) : Prop :=
  (∀ e AI, ¬ holds s a e AI) ∧ r = ReportBadFree a None ∨
  ∃ e AI, holds s a e AI ∧
    (Context AI ≠ c ∧ r = (if UserBegin AI =? a then ReportBadContext a e.2 else ReportBadFree a None) ∨
     Context AI = c ∧ a ≠ UserBegin AI ∧ r = ReportBadFree a (Some e.2) ∨
     Context AI = c ∧ a = UserBegin AI ∧ IsReleased AI = true ∧ r = ReportDoubleFree a e.2).

Lemma releaseMemory_cases c a s : inv s →
  (∃ r, bad_free c a s r ∧ releaseMemory c a s = reported r s) ∨
  (∃ e AI, holds s a e AI ∧ Context AI = c ∧ a = UserBegin AI ∧ IsReleased AI = false ∧
     releaseMemory c a s = release_found c e AI s).
Proof.
  intros Hi. unfold releaseMemory. destruct (holds_dec s a Hi) as [(e & AI & Hh)|Hno].
  2: { left. rewrite (find_none s a Hi Hno). eexists. split; [by left|done]. }
  rewrite (find_some s a e AI Hi Hh). cbn [mbind outcome_bind].
  case_decide as Hc.
  - left. eexists. split; [right; exists e, AI; split; [done|by left]|]. by case_match.
  - destruct (Z.eqb_spec a (UserBegin AI)) as [Ha|Ha]; cbn [negb].
    + destruct (IsReleased AI) eqn:HR; [|right; by exists e, AI].
      left. eexists. split; [right; exists e, AI; split; [done|]; by right; right|done].
    + left. eexists. split; [right; exists e, AI; split; [done|]; by right; left|done].
Qed.

End env.
End MemoryFacts.

(** ** Properties *)
Module MemoryProps.
Import Alloc_map Memory MapFacts LayoutFacts MemoryFacts.

(** The driver hands out memory it does not have out, for requests of sane size,
    alignment and redzone; requests that are refused, by the layer or the driver,
    can be any; and the application releases whatever it likes, in any order. *)
Inductive step `{!Env} (s : state) : state → Prop :=
  | step_allocate c Device Params Size t driver a rz n p u s' :
      request_ok Device Params Size t driver a rz n p →
      Forall (apart (size_of (objects s)) p n) (m_AllocationMap s) →
      allocateMemory c Device Params Size t driver s = Ret (UR_RESULT_SUCCESS, u, s') → step s s'
  | step_refused c Device Params Size t driver r s' :
      allocateMemory c Device Params Size t driver s = Ret (r, None, s') → step s s'
  | step_release c a out s' : releaseMemory c a s = Ret (out, s') → step s s'.

Lemma new_info_ok `{!Env} c Device Params Size t driver a rz n p :
  request_ok Device Params Size t driver a rz n p → info_ok (new_info c Device t Size a rz n p).
Proof.
  intros Hq. pose proof (request_layout _ _ _ _ _ _ _ _ _ Hq) as (_ & Hrz & _ & Hl & Hr & _ & _ & Hn).
  destruct Hq as [_ _ _ Hs _ _ Hpl (Hp & _ & Hpn)].
  constructor; simpl; [lia..|]. intros Ht. unfold placeable in Hpl. naive_solver.
Qed.

Lemma room_for `{!Env} c s p n : inv s → 0 ≤ p → 0 < n → p + n < 2 ^ 64 →
  Forall (apart (size_of (objects s)) p n) (m_AllocationMap s) → stats_room c n s.
Proof.
  intros Hi Hp Hn Hpn Hap Hst. pose proof (inv_stats_bounds s c Hi Hst) as [Hb _]. split; [exact Hb|].
  destruct (inv_stats s Hi c Hst) as [-> _]. set (id := length (objects s)).
  set (g := λ j, if decide (j = id) then n else size_of (objects s) j).
  assert (∀ e, e ∈ m_AllocationMap s → g e.2 = size_of (objects s) e.2) as Hg.
  { intros e He. unfold g. rewrite decide_False; [done|]. pose proof (inv_id_lt s e Hi He). unfold id. lia. }
  assert (g id = n) as Hgi by (unfold g; by rewrite decide_True).
  destruct (emplace_spaced g p id (m_AllocationMap s)) as [Hsp Hperm].
  { eapply spaced_ext; [|apply Hi]. intros e He. symmetry. by apply Hg. }
  { by rewrite Hgi. }
  { eapply Forall_impl_in; [apply (inv_sizes s Hi)|]. simpl. intros e He Hpos. by rewrite Hg. }
  { eapply Forall_impl_in; [exact Hap|]. unfold apart. intros e He Ha. by rewrite Hgi, Hg. }
  destruct (spaced_sum g (emplace p id (m_AllocationMap s)) 0 (2 ^ 64 - 1) Hsp) as [_ Hsum].
  { rewrite Hperm. constructor; [simpl; rewrite Hgi; lia|]. apply Forall_forall. intros e He.
    rewrite Hg by done. destruct (inv_entry_ok s e Hi He) as (A & _ & <- & Hok & ->). destruct Hok. lia. }
  assert (emplace p id (m_AllocationMap s) ≠ []) as Hne.
  { intros E. rewrite E in Hperm. by apply Permutation_nil_cons in Hperm. }
  specialize (Hsum Hne). change (sumZ (λ e, g e.2) (emplace p id (m_AllocationMap s)) ≤ 2 ^ 64 - 1 - 0) in Hsum.
  rewrite (sumZ_perm _ _ _ Hperm) in Hsum. simpl in Hsum. rewrite Hgi in Hsum.
  assert (sumZ (contrib AllocSize c (objects s) (freed s)) (m_AllocationMap s) ≤
    sumZ (λ e, g e.2) (m_AllocationMap s)); [|lia].
  apply sumZ_le. intros e He. rewrite Hg by done. destruct (inv_entry_ok s e Hi He) as (A & HA & _ & Hok & ->).
  unfold contrib. rewrite HA. destruct Hok. case_decide; lia.
Qed.

Lemma allocate_total `{!Env} c Device Params Size t driver a rz n p s :
  inv s → request_ok Device Params Size t driver a rz n p →
  Forall (apart (size_of (objects s)) p n) (m_AllocationMap s) →
  let AI := new_info c Device t Size a rz n p in
  allocateMemory c Device Params Size t driver s =
    Ret (UR_RESULT_SUCCESS, Some (UserBegin AI), allocated c Device AI s) ∧ inv (allocated c Device AI s).
Proof.
  intros Hi Hq Hap AI. pose proof (request_layout _ _ _ _ _ _ _ _ _ Hq) as (_ & _ & _ & _ & _ & _ & _ & Hn).
  pose proof Hq as [_ _ _ Hs _ _ _ (Hp & _ & Hpn)]. split.
  - apply allocateMemory_eq; [done|]. apply (room_for c s p n); done || lia.
  - apply inv_allocated; [done|by eapply new_info_ok|done..].
Qed.

Lemma release_total `{!Env} c a s : inv s → ∃ out s', releaseMemory c a s = Ret (out, s') ∧ inv s'.
Proof.
  intros Hi. destruct (releaseMemory_cases c a s Hi) as [(r & _ & ->)|(e & AI & (He & HAI & _) & Hc & _ & HR & ->)].
  - eexists _, _. split; [done|]. by apply inv_add_report.
  - destruct (release_found_spec c e AI s Hi He HAI HR Hc) as (r & s' & gone & -> & Hi' & _). by eexists _, _.
Qed.

(** An allocation that returns no pointer changes nothing. *)
Lemma allocate_refused `{!Env} c Device Params Size t driver r s s' :
  allocateMemory c Device Params Size t driver s = Ret (r, None, s') → s' = s.
Proof.
  unfold allocateMemory. destruct (negb _); [by intros [= _ <-]|].
  destruct (chunk _ _) as [[rz n]| |]; simpl; [|done|done].
  match goal with |- context [if decide (t ≠ EXPORTABLE_MEM) then ?x else ?y] =>
    destruct (if decide (t ≠ EXPORTABLE_MEM) then x else y) as [[r' p]| |] end; simpl; [|done|done].
  case_decide; [|by intros [= _ <-]]. destruct (with_stats _ _ _); simpl; [|done|done]. by case_match.
Qed.

Lemma memory_step_inv `{!Env} s s' : inv s → step s s' → inv s'.
Proof.
  intros Hi [c Device Params Size t driver a rz n p u s2 Hq Hap E|c Device Params Size t driver r s2 E|c a out s2 E].
  - destruct (allocate_total c Device Params Size t driver a rz n p s Hi Hq Hap) as [E' Hi'].
    rewrite E in E'. injection E' as _ ->. done.
  - by rewrite (allocate_refused _ _ _ _ _ _ _ _ _ E).
  - destruct (release_total c a s Hi) as (out' & s3 & E' & Hi'). congruence.
Qed.

Lemma memory_reachable_inv `{!Env} s : stats_ok → rtc step initial s → inv s.
Proof. intros Hst Hs. eapply (rtc_invariant step inv); eauto using memory_step_inv, inv_initial. Qed.


(** C6: memory safety of the interceptor.  However allocations and releases
    (correct or not) follow each other, where the allocations that the driver
    satisfies are sane ([request_ok]: a size below 2^62, [huge_size_wraps] and
    [huge_allocation_succeeds] being what happens otherwise, an alignment of at most 2^40, redzone options below
    2^31 and a chunk on a granule boundary, apart from the chunks that are out)
    and, if statistics are printed, their uninitialised counters start at zero
    ([garbage_stats_asserted]): no release and no sane allocation has undefined
    behaviour, that is no iterator is used after it was erased and no assertion
    fails; no chunk is handed back to the driver twice; a chunk that was not
    released is never handed back and stays in the map; and what the quarantine
    holds is still in the map and not handed back. *)
Theorem asan_memory_safe `{!Env} s (Hst : stats_ok) (Hs : rtc step initial s) :
  NoDup (freed s) ∧
  (∀ id AI, objects s !! id = Some AI → IsReleased AI = false →
     id ∉ freed s ∧ (AllocBegin AI, id) ∈ m_AllocationMap s) ∧
  (∀ k C e, caches s !! k = Some C → e ∈ m_List C → e ∈ m_AllocationMap s ∧ e.2 ∉ freed s) ∧
  (∀ c a, ∃ out s', releaseMemory c a s = Ret (out, s')) ∧
  (∀ c Device Params Size t driver a rz n p, request_ok Device Params Size t driver a rz n p →
     Forall (apart (size_of (objects s)) p n) (m_AllocationMap s) →
     ∃ u s', allocateMemory c Device Params Size t driver s = Ret (UR_RESULT_SUCCESS, Some u, s')).
Proof.
  apply (memory_reachable_inv s Hst) in Hs. split_and!.
  - apply Hs.
  - apply Hs.
  - intros k C e HC He. destruct (inv_caches s Hs k C HC) as (_ & _ & Hx). destruct (Hx e He) as (? & ? & _). done.
  - intros c a. destruct (release_total c a s Hs) as (out & s' & E & _). by exists out, s'.
  - intros. eexists _, _. by eapply allocate_total.
Qed.

(** C32: releasing memory.  In every reachable state (of a layer that
    prints no statistics or whose counters start at zero) a call either reports one
    error and changes nothing else, namely: a bad free for an address outside
    every chunk, a bad context or bad free for a chunk of another context, a
    bad free for an address that is not the start of the user part, a double
    free for memory released before; or it is the first release of a live
    allocation: then nothing is reported, the allocation is marked, and its
    chunk is handed back at once without a quarantine and kept with one. *)
Theorem releaseMemory_spec `{!Env} c a s (Hst : stats_ok) (Hs : rtc step initial s) :
  (∃ r, bad_free c a s r ∧
     releaseMemory c a s =
       Ret (if HaltOnError then Exited else Returned UR_RESULT_SUCCESS, add_report r s)) ∨
  (∃ e AI r s' gone, holds s a e AI ∧ Context AI = c ∧ a = UserBegin AI ∧ IsReleased AI = false ∧
     releaseMemory c a s = Ret (Returned r, s') ∧ reports s' = reports s ∧
     objects s' = <[e.2 := mark_released AI]> (objects s) ∧ freed s' = freed s ++ gone ∧
     (if MaxQuarantineSizeMB =? 0 then gone = [e.2] else e.2 ∉ gone)).
Proof.
  apply (memory_reachable_inv s Hst) in Hs.
  destruct (releaseMemory_cases c a s Hs) as [(r & Hb & ->)|(e & AI & Hh & Hc & Ha & HR & ->)].
  - left. by exists r.
  - right. destruct Hh as (He & HAI & Hr).
    destruct (release_found_spec c e AI s Hs He HAI HR Hc) as (r & s' & gone & E & _ & ? & ? & ? & ?).
    exists e, AI, r, s', gone. by split_and!.
Qed.

(** the quarantine of a device is a bounded queue.  Putting a released
    allocation evicts entries from the front, the oldest first, only while the
    quarantine would exceed its limit, and stops as soon as it does not; the
    new entry goes to the back and the recorded size is the sum of the sizes of
    the entries. *)
Theorem quarantine_fifo `{!Env} c s e AI (Hs : inv s) (Hd : dead c s e) (HAI : objects s !! e.2 = Some AI) :
  let total := sumZ (λ x, size_of (objects s) x.2) in
  ∃ out rest s', put c (Device AI) e s = Ret (out, s') ∧ inv s' ∧
    m_List (default empty_cache (caches s !! (c, Device AI))) = out ++ rest ∧
    caches s' !! (c, Device AI) = Some {| m_List := rest ++ [e]; m_Size := u64 (total (rest ++ [e])) |} ∧
    (rest = [] ∨ u64 (total (rest ++ [e])) ≤ max_quarantine) ∧
    (∀ o1 x o2, out = o1 ++ x :: o2 → max_quarantine < u64 (total (x :: o2 ++ rest ++ [e]))).
Proof.
  destruct (put_spec c s e AI Hs Hd HAI)
    as (out & rest & s' & E & Hi' & _ & _ & _ & _ & _ & El & Ec & _ & _ & Hmax & Hev).
  exists out, rest, s'. split_and!; [done..|by rewrite Ec, lookup_insert_eq|done|done].
Qed.

(** validation of a kernel argument, in every reachable state: a pointer
    into a chunk is accepted exactly when the chunk belongs to the context (or
    the kernel uses indirect access) and to the device or one with the same
    root, is live, and the address lies in the user part; an address in no
    chunk is accepted exactly when the device can access system memory; and
    every refusal names the first condition that fails. *)
Theorem ValidateUSMPointer_spec `{!Env} indirect c d a s (Hst : stats_ok) (Hs : rtc step initial s) :
  (∀ e AI, holds s a e AI →
     ValidateUSMPointer indirect c d a s = Ret
       (if negb indirect && bool_decide (Context AI ≠ c) then BAD_CONTEXT e.2
        else if match Device AI with Some d' => negb (IsSameDevice d' d) | None => false end
        then BAD_DEVICE e.2
        else if IsReleased AI then RELEASED_POINTER e.2
        else if InterceptorProps.in_user AI a then SUCCESS else OUT_OF_BOUNDS e.2)) ∧
  ((∀ e AI, ¬ holds s a e AI) →
     ValidateUSMPointer indirect c d a s =
       Ret (if IsSupportSharedSystemUSM d then SUCCESS else MAYBE_HOST_POINTER)).
Proof.
  apply (memory_reachable_inv s Hst) in Hs. unfold ValidateUSMPointer. split.
  - intros e AI Hh. rewrite (find_some s a e AI Hs Hh). cbn [mbind outcome_bind]. f_equal.
    unfold InterceptorProps.in_user. repeat case_match; try done; bool_to_prop; try lia.
  - intros Hno. by rewrite (find_none s a Hs Hno).
Qed.

(** At a normal exit exactly the live allocations of the context are reported. *)
Lemma report_leaks_spec `{!Env} s c r : inv s →
  r ∈ report_leaks c s ↔
  ∃ id AI, r = ReportMemoryLeak id ∧ objects s !! id = Some AI ∧ Context AI = c ∧ IsReleased AI = false.
Proof.
  intros Hi. unfold report_leaks, findAllocInfoByContext. rewrite list_elem_of_fmap. split.
  - intros (e & -> & [Hr [Hc He]%list_elem_of_filter]%list_elem_of_filter).
    destruct (objects s !! e.2) as [AI|] eqn:E; simpl in *; [|done]. exists e.2, AI. naive_solver.
  - intros (id & AI & -> & HAI & Hc & HR). exists (AllocBegin AI, id). split; [done|].
    rewrite !list_elem_of_filter. simpl. rewrite HAI. simpl. split_and!; [by f_equal|by f_equal|].
    by apply (inv_live s Hi id AI).
Qed.

(** ** Witnesses: one context with one device and a quarantine of 1 MB *)

#[local] Instance sample_env : Env := {|
  MinRZSize := 16; MaxQuarantineSizeMB := 1; HaltOnError := false;
  DeviceList := λ _, [0%nat]; DeviceAlignment := λ _, 64; is_pvc := λ _, false;
  parent_device := λ _, None; IsSupportSharedSystemUSM := λ _, false;
  PrintStats := true; new_stats := λ _, {| UsmMalloced := 0; UsmMallocedRedzones := 0; UsmFreed := 77 |};
  pfnFree := λ _, UR_RESULT_SUCCESS |}.
Lemma sample_stats : stats_ok.
Proof. done. Defined.
Definition no_params : AllocMemoryParams := {| USMDesc_align := None; Alignment := 0 |}.
Definition sample_driver : Z → ur_result_t * Z := λ _, (UR_RESULT_SUCCESS, 0x10000).

Lemma sample_request : request_ok (Some 0%nat) no_params 100 DEVICE_USM sample_driver 64 64 320 0x10000.
Proof.
  constructor; try done.
  - exists 4. split; [lia|done].
  - split; [done|]. exists 6. split; [lia|done].
  - right. left. split; [by left|done].
Defined.

Definition sample_info : AllocInfo := new_info 7 (Some 0%nat) DEVICE_USM 100 64 64 320 0x10000.
Definition sample_state : state := allocated 7 (Some 0%nat) sample_info initial.

Lemma sample_allocate :
  allocateMemory 7 (Some 0%nat) no_params 100 DEVICE_USM sample_driver initial =
  Ret (UR_RESULT_SUCCESS, Some 0x10040, sample_state).
Proof. vm_compute. reflexivity. Defined.
Lemma sample_reachable : rtc step initial sample_state.
Proof.
  apply rtc_once. eapply step_allocate; [exact sample_request|by apply Forall_nil|exact sample_allocate].
Defined.
Lemma sample_holds a : 0x10000 ≤ a < 0x10140 → holds sample_state a (0x10000, 0%nat) sample_info.
Proof. intros Ha. split_and!; [by left|done|simpl; lia..]. Defined.


(** With [PrintStats] the counters start with what was in memory, and the first
    allocation can fail the assertion of [UpdateOverhead]. *)
Definition garbage_env : Env := {|
  MinRZSize := 16; MaxQuarantineSizeMB := 1; HaltOnError := false;
  DeviceList := λ _, [0%nat]; DeviceAlignment := λ _, 64; is_pvc := λ _, false;
  parent_device := λ _, None; IsSupportSharedSystemUSM := λ _, false;
  PrintStats := true; new_stats := λ _, {| UsmMalloced := 0; UsmMallocedRedzones := 0x1000; UsmFreed := 0 |};
  pfnFree := λ _, UR_RESULT_SUCCESS |}.
Example garbage_stats_asserted :
  @allocateMemory garbage_env 7 (Some 0%nat) no_params 100 DEVICE_USM sample_driver initial = Undefined.
Proof. by vm_compute. Qed.

(** A size close to 2^64 wraps around: the chunk of 64 bytes that is asked for does
    not hold the user part, and the assertion on its end fails. *)
Example huge_size_wraps :
  chunk (2 ^ 64 - 4096) 64 = Ret (2048, 64) ∧
  allocateMemory 7 (Some 0%nat) no_params (2 ^ 64 - 4096) DEVICE_USM sample_driver initial = Undefined.
Proof. by vm_compute. Qed.

Lemma asan_memory_safe_witness :
  NoDup (freed sample_state) ∧ ∃ out s', releaseMemory 7 0x10040 sample_state = Ret (out, s').
Proof.
  destruct (asan_memory_safe sample_state sample_stats sample_reachable) as (Hn & _ & _ & Hr & _).
  split; [exact Hn|apply Hr].
Defined.

Lemma releaseMemory_spec_witness :
  ∃ r s', releaseMemory 7 0x10040 sample_state = Ret (Returned r, s') ∧ reports s' = [] ∧ freed s' = [].
Proof.
  destruct (releaseMemory_spec 7 0x10040 sample_state sample_stats sample_reachable)
    as [(r & Hb & E)|(e & AI & r & s' & gone & _ & _ & _ & _ & E & Hrep & _ & Hf & _)].
  - exfalso. assert (reports <$> (snd <$> releaseMemory 7 0x10040 sample_state) = Ret []) as E' by (vm_compute; reflexivity).
    rewrite E in E'. discriminate E'.
  - exists r, s'. split_and!; [exact E|by rewrite Hrep|].
    assert (freed <$> (snd <$> releaseMemory 7 0x10040 sample_state) = Ret []) as E' by (vm_compute; reflexivity).
    rewrite E in E'. injection E' as E'. exact E'.
Defined.

Lemma quarantine_fifo_witness :
  let s := set_objects [mark_released sample_info] sample_state in
  ∃ out rest s', put 7 (Some 0%nat) (0x10000, 0%nat) s = Ret (out, s') ∧ [] = out ++ rest.
Proof.
  intros s. assert (inv s) as Hi.
  { apply (inv_mark sample_state 0 sample_info); [|done]. apply (memory_reachable_inv _ sample_stats), sample_reachable. }
  assert (dead 7 s (0x10000, 0%nat)) as Hd.
  { constructor; [by left|apply not_elem_of_nil|by exists (mark_released sample_info)|].
    intros k C. unfold s, sample_state. simpl. by rewrite lookup_empty. }
  destruct (quarantine_fifo 7 s (0x10000, 0%nat) (mark_released sample_info) Hi Hd eq_refl)
    as (out & rest & s' & E & _ & El & _). exists out, rest, s'. split; [exact E|exact El].
Defined.

Lemma ValidateUSMPointer_spec_witness :
  ValidateUSMPointer false 7 0 0x10040 sample_state = Ret SUCCESS ∧
  ValidateUSMPointer false 7 0 0x100a4 sample_state = Ret (OUT_OF_BOUNDS 0) ∧
  ValidateUSMPointer false 8 0 0x10040 sample_state = Ret (BAD_CONTEXT 0).
Proof.
  split_and!.
  - by rewrite (proj1 (ValidateUSMPointer_spec false 7 0 _ _ sample_stats sample_reachable) _ _
      (sample_holds 0x10040 ltac:(lia))).
  - by rewrite (proj1 (ValidateUSMPointer_spec false 7 0 _ _ sample_stats sample_reachable) _ _
      (sample_holds 0x100a4 ltac:(lia))).
  - by rewrite (proj1 (ValidateUSMPointer_spec false 8 0 _ _ sample_stats sample_reachable) _ _
      (sample_holds 0x10040 ltac:(lia))).
Defined.

(** A request for almost the whole address space succeeds: the rounded size
    wraps to 0, only the two redzones are allocated, and the end of the user
    part wraps below its beginning, where the assertion does not see it. *)
Example huge_allocation_succeeds :
  let r := allocateMemory 7 (Some 0%nat) {| USMDesc_align := Some 16; Alignment := 0 |} (2 ^ 64 - 5)
             DEVICE_USM sample_driver {| objects := []; m_AllocationMap := []; AllocInfos := ∅; caches := ∅;
               stats := {[7%nat := {| UsmMalloced := 2 ^ 20; UsmMallocedRedzones := 0; UsmFreed := 0 |}]};
               reports := []; freed := [] |} in
  (λ x, (x.1.1, x.1.2)) <$> r = Ret (UR_RESULT_SUCCESS, Some 0x10800) ∧
  (λ x, AllocSize <$> objects x.2) <$> r = Ret [4096] ∧
  (λ x, UserEnd <$> objects x.2) <$> r = Ret [0x107fb].
Proof. vm_compute. done. Qed.

(** A configured redzone of 2 GB overflows the [int] shift of [RZLog2Size]. *)
Example large_redzone_undefined : ComputeRZLog 100 (2 ^ 31) = Undefined.
Proof. vm_compute. reflexivity. Qed.

End MemoryProps.
