(* ===== verification/BatchedQueue.v ===== *)
(** * Batched queues of the Level Zero v2 adapter
    (adapters/level_zero/v2/queue_batched.{hpp,cpp}, [wait_list_view] of
    command_list_manager.cpp, [onWaitListUse] and [urEventWait] of event.cpp)

    Commands are recorded in a regular command list, the active batch, which is
    submitted by appending it to an immediate command list.  [BatchedQueue] is
    one queue over the command list cache of the context; [Waiting] is several
    queues that wait for each other's events.  The driver is a parameter: the
    outcome of each call after a history of calls.  What the driver keeps for
    a command list (its commands, whether it is closed) is part of the state,
    and a command appended to a closed list is [Undefined]. *)
From stdpp Require Import base numbers list gmap relations.
From S2P Require Import Prelude CommandListCache.
Import CommandListCache.
Local Open Scope Z_scope.

Definition initialSlotsForBatches : Z := 10.
Definition initialGenerationNumber : Z := 0.
Definition maxNumberOfEnqueuedOperations : Z := 120.

(** The [append...] functions of the command list manager, by name. *)
Inductive cmd_kind :=
  | MemBufferRead | MemBufferWrite | MemBufferReadRect | MemBufferWriteRect | MemBufferCopy
  | MemBufferCopyRect | MemBufferFill | MemImageRead | MemImageWrite | MemImageCopy
  | MemBufferMap | MemUnmap | USMFill | USMMemcpy | USMFill2D | USMMemcpy2D | USMPrefetch | USMAdvise
  | DeviceGlobalVariableWrite | DeviceGlobalVariableRead | ReadHostPipe | WriteHostPipe
  | USMAllocDevice | USMAllocShared | USMAllocHost | USMFree
  | ImageCopy | WaitExternalSemaphore | SignalExternalSemaphore | TimestampRecording
  | EventsWait | EventsWaitWithBarrier | NativeCommand | KernelLaunchWithArgs
  | CommandBuffer | Graph | HostTask.

(** A command: a number of its own and the commands whose events it waits for. *)
Record cmd := { cmd_id : Z; cmd_kind_of : cmd_kind; cmd_waits : list Z }.

(** Driver calls and calls of other components that can fail. *)
Inductive bcall :=
  | CommandListClose (l : Z)
  | ImmediateAppendCommandLists (l : Z)
  | HostSynchronize
  | ListReset (l : Z)
  | Append (immediate : bool) (c : cmd)
  | ReleaseSubmittedKernels
  | CleanupPools
  | EventAllocate (immediate : bool)
  | BeginGraphCapture
  | EndGraphCapture.

Inductive poll := PollSuccess | PollNotReady | PollError (r : ur_result_t).

(** The driver and the event pools; an error is never [UR_RESULT_SUCCESS]. *)
Class BatchDriver := {
  b_error : list bcall → bcall → option ur_result_t;
  b_event : list bcall → Z;
  b_poll : list bcall → poll;
  b_error_fails log c : b_error log c ≠ Some UR_RESULT_SUCCESS }.

(** A regular command list with the deleter's descriptor. *)
Record cmdlist := {
  zeCommandList : Z; zeDesc : command_list_descriptor_t; recorded : list cmd; closed : bool }.

(** [batch_manager]; the last four fields are the driver's: the commands the
    immediate list was given to run, how many are known to have completed,
    whether it captures a graph and what it captured. *)
Record batch_manager := {
  activeBatch : cmdlist;
  immediateList : Z * command_list_descriptor_t;
  runBatches : list cmdlist;
  regularGenerationNumber : Z;
  enqueuedOperationsCounter : Z;
  graphCaptureActive : bool;
  submitted : list cmd;
  completed : nat;
  capturing : bool;
  captured : list cmd }.

(** The queue together with the command list cache and the calls made. *)
Record st := { bm : batch_manager; cache : CommandListCache.state; blog : list bcall }.

(** An event: its queue, its batch and the last command that signals it. *)
Record ur_event := { ev_id : Z; ev_queue : Z; ev_gen : option Z; ev_cmd : Z }.

Module BatchedQueue.

Definition set_bm (f : batch_manager → batch_manager) (s : st) : st :=
  {| bm := f (bm s); cache := cache s; blog := blog s |}.
Definition log (c : bcall) (s : st) : st := {| bm := bm s; cache := cache s; blog := blog s ++ [c] |}.

Definition set_active (l : cmdlist) (b : batch_manager) : batch_manager :=
  {| activeBatch := l; immediateList := immediateList b;
     runBatches := runBatches b; regularGenerationNumber := regularGenerationNumber b;
     enqueuedOperationsCounter := enqueuedOperationsCounter b; graphCaptureActive := graphCaptureActive b;
     submitted := submitted b; completed := completed b; capturing := capturing b; captured := captured b |}.
Definition set_run (r : list cmdlist) (b : batch_manager) : batch_manager :=
  {| activeBatch := activeBatch b; immediateList := immediateList b;
     runBatches := r; regularGenerationNumber := regularGenerationNumber b;
     enqueuedOperationsCounter := enqueuedOperationsCounter b; graphCaptureActive := graphCaptureActive b;
     submitted := submitted b; completed := completed b; capturing := capturing b; captured := captured b |}.
Definition bump_generation (b : batch_manager) : batch_manager :=
  {| activeBatch := activeBatch b; immediateList := immediateList b;
     runBatches := runBatches b;
     regularGenerationNumber := regularGenerationNumber b + 1;
     enqueuedOperationsCounter := enqueuedOperationsCounter b; graphCaptureActive := graphCaptureActive b;
     submitted := submitted b; completed := completed b; capturing := capturing b; captured := captured b |}.
Definition set_counter (n : Z) (b : batch_manager) : batch_manager :=
  {| activeBatch := activeBatch b; immediateList := immediateList b;
     runBatches := runBatches b;
     regularGenerationNumber := regularGenerationNumber b;
     enqueuedOperationsCounter := n; graphCaptureActive := graphCaptureActive b;
     submitted := submitted b; completed := completed b; capturing := capturing b; captured := captured b |}.
Definition setGraphCapture (a : bool) (b : batch_manager) : batch_manager :=
  {| activeBatch := activeBatch b; immediateList := immediateList b;
     runBatches := runBatches b;
     regularGenerationNumber := regularGenerationNumber b;
     enqueuedOperationsCounter := enqueuedOperationsCounter b; graphCaptureActive := a;
     submitted := submitted b; completed := completed b; capturing := capturing b; captured := captured b |}.
(** What the driver does with commands appended to the immediate list. *)
Definition imm_append (cs : list cmd) (b : batch_manager) : batch_manager :=
  {| activeBatch := activeBatch b; immediateList := immediateList b;
     runBatches := runBatches b;
     regularGenerationNumber := regularGenerationNumber b;
     enqueuedOperationsCounter := enqueuedOperationsCounter b; graphCaptureActive := graphCaptureActive b;
     submitted := if capturing b then submitted b else submitted b ++ cs; completed := completed b;
     capturing := capturing b; captured := if capturing b then captured b ++ cs else captured b |}.
Definition set_completed (b : batch_manager) : batch_manager :=
  {| activeBatch := activeBatch b; immediateList := immediateList b;
     runBatches := runBatches b;
     regularGenerationNumber := regularGenerationNumber b;
     enqueuedOperationsCounter := enqueuedOperationsCounter b; graphCaptureActive := graphCaptureActive b;
     submitted := submitted b; completed := length (submitted b); capturing := capturing b;
     captured := captured b |}.
Definition set_capturing (a : bool) (b : batch_manager) : batch_manager :=
  {| activeBatch := activeBatch b; immediateList := immediateList b;
     runBatches := runBatches b;
     regularGenerationNumber := regularGenerationNumber b;
     enqueuedOperationsCounter := enqueuedOperationsCounter b; graphCaptureActive := graphCaptureActive b;
     submitted := submitted b; completed := completed b; capturing := a; captured := captured b |}.

Definition new_list (h : Z) (d : command_list_descriptor_t) : cmdlist :=
  {| zeCommandList := h; zeDesc := d; recorded := []; closed := false |}.
(** The handle with its deleter, as the cache lends it. *)
Definition as_lent (l : cmdlist) : Z * command_list_descriptor_t := (zeCommandList l, zeDesc l).
Definition close (l : cmdlist) : cmdlist :=
  {| zeCommandList := zeCommandList l; zeDesc := zeDesc l; recorded := recorded l; closed := true |}.
Definition reset_list (l : cmdlist) : cmdlist :=
  {| zeCommandList := zeCommandList l; zeDesc := zeDesc l; recorded := []; closed := false |}.
Definition record (c : cmd) (l : cmdlist) : cmdlist :=
  {| zeCommandList := zeCommandList l; zeDesc := zeDesc l; recorded := recorded l ++ [c];
     closed := closed l |}.

(** Functions that return a result code and may throw. *)
Definition prog : Type := st → outcome ur_result_t * st.

Definition done : prog := λ s, (Ret UR_RESULT_SUCCESS, s).
(** [UR_CALL(m); k] *)
Definition UR_CALL (m k : prog) : prog := λ s,
  match m s with
  | (Ret r, s') => if decide (r = UR_RESULT_SUCCESS) then k s' else (Ret r, s')
  | x => x
  end.
(** [m; k], the result code of [m] ignored. *)
Definition ignore (m k : prog) : prog := λ s,
  match m s with (Ret _, s') => k s' | x => x end.
Definition update (f : batch_manager → batch_manager) : prog := λ s,
  (Ret UR_RESULT_SUCCESS, set_bm f s).
(** [when b m]: [if (b) { UR_CALL(m); }] *)
Definition when (b : st → bool) (m : prog) : prog := λ s, if b s then m s else done s.

Definition isActiveBatchEmpty (b : batch_manager) : bool := enqueuedOperationsCounter b =? 0.
Definition markNextIssuedCommand (b : batch_manager) : batch_manager :=
  set_counter (enqueuedOperationsCounter b + 1) b.
Definition setBatchEmpty : batch_manager → batch_manager := set_counter 0.
Definition isLimitOfUsedCommandListsReached (b : batch_manager) : bool :=
  initialSlotsForBatches <=? Z.of_nat (length (runBatches b)).
Definition isLimitOfEnqueuedCommandsReached (b : batch_manager) : bool :=
  maxNumberOfEnqueuedOperations <=? enqueuedOperationsCounter b.
Definition isGraphCaptureActive (b : batch_manager) : bool := graphCaptureActive b.
Definition getCurrentGeneration (b : batch_manager) : Z := regularGenerationNumber b.
Definition isCurrentGeneration (batch_generation : Z) (b : batch_manager) : bool :=
  batch_generation =? regularGenerationNumber b.

Section queue.
Context `{ZeDriver, BatchDriver} (ZeDevice ordinal hQueue : Z).

Definition regularCmdListDesc : command_list_desc_t :=
  {| IsInOrder := true; Ordinal := ordinal; CopyOffloadEnable := true; Mutable := false |}.
Definition immediateCmdListDesc : command_list_desc_t :=
  {| IsInOrder := true; Ordinal := ordinal; CopyOffloadEnable := true; Mutable := false |}.
Definition ZE_COMMAND_QUEUE_MODE_ASYNCHRONOUS : Z := 2.

(** [batch_manager::batch_manager] *)
Definition make_batch_manager (regular : Z * command_list_descriptor_t)
    (imm : Z * command_list_descriptor_t) : batch_manager :=
  {| activeBatch := new_list regular.1 regular.2; immediateList := imm; runBatches := [];
     regularGenerationNumber := initialGenerationNumber; enqueuedOperationsCounter := 0;
     graphCaptureActive := false; submitted := []; completed := 0; capturing := false; captured := [] |}.

Definition give_back (c : CommandListCache.state) (l : Z * command_list_descriptor_t)
    : CommandListCache.state := addCommandList l.2 l.1 c.

(** The constructor: two command lists of the cache, given back when the driver
    cannot append command lists. *)
Definition make_batched_queue (AppendExtSupported : bool) (priority : Z) (index : option Z)
    (c : CommandListCache.state) : outcome st * CommandListCache.state :=
  match getRegularCommandList ZeDevice regularCmdListDesc c with
  | (Ret regular, c) =>
      match getImmediateCommandList ZeDevice immediateCmdListDesc
              ZE_COMMAND_QUEUE_MODE_ASYNCHRONOUS priority index c with
      | (Ret imm, c) =>
          if AppendExtSupported
          then (Ret {| bm := make_batch_manager regular imm; cache := c; blog := [] |}, c)
          else (Throw (exn_ur_result UR_RESULT_ERROR_UNSUPPORTED_FEATURE),
                give_back (give_back c imm) regular)
      | (Throw e, c) => (Throw e, give_back c regular)
      | (Undefined, c) => (Undefined, c)
      end
  | (Throw e, c) => (Throw e, c)
  | (Undefined, c) => (Undefined, c)
  end.

(** A call that, when it succeeds, changes the driver's state by [f]. *)
Definition ze (c : bcall) (f : batch_manager → batch_manager) : prog := λ s,
  match b_error (blog s) c with
  | Some r => (Ret r, log c s)
  | None => (Ret UR_RESULT_SUCCESS, set_bm f (log c s))
  end.

Definition hostSynchronize : prog := ze HostSynchronize set_completed.

Definition renewRegularUnlocked (newRegularBatch : cmdlist) : prog :=
  update (λ b, setBatchEmpty (set_active newRegularBatch
    (set_run (runBatches b ++ [activeBatch b]) (bump_generation b)))).

Definition enqueueCurrentBatchUnlocked : prog := λ s,
  let regularList := zeCommandList (activeBatch (bm s)) in
  UR_CALL (ze (CommandListClose regularList) (λ b, set_active (close (activeBatch b)) b))
  (ze (ImmediateAppendCommandLists regularList) (λ b, imm_append (recorded (activeBatch b)) b)) s.

Definition getNewRegularCmdList (s : st) : outcome cmdlist * st :=
  let '(r, c) := getRegularCommandList ZeDevice regularCmdListDesc (cache s) in
  ((λ p, new_list p.1 p.2) <$> r, {| bm := bm s; cache := c; blog := blog s |}).

(** [runBatches.clear()]: the deleters return the lists to the cache. *)
Definition clear_run : prog := λ s,
  (Ret UR_RESULT_SUCCESS,
   {| bm := set_run [] (bm s);
      cache := foldl give_back (cache s) (as_lent <$> runBatches (bm s));
      blog := blog s |}).

Definition batchFinish : prog :=
  UR_CALL (ze ReleaseSubmittedKernels id)
  (UR_CALL (when (λ s, negb (isActiveBatchEmpty (bm s))) (λ s,
     UR_CALL (ze (ListReset (zeCommandList (activeBatch (bm s))))
                 (λ b, set_active (reset_list (activeBatch b)) b))
     (update (λ b, bump_generation (setBatchEmpty b))) s))
  clear_run).

Definition queueFinishPoolsUnlocked : prog := ze CleanupPools id.

Definition queueFinishUnlocked : prog := λ s,
  if isGraphCaptureActive (bm s) then done s else
  UR_CALL (when (λ s, negb (isActiveBatchEmpty (bm s))) enqueueCurrentBatchUnlocked)
  (UR_CALL hostSynchronize (UR_CALL queueFinishPoolsUnlocked batchFinish)) s.

Definition renewBatchUnlocked : prog := λ s,
  if isLimitOfUsedCommandListsReached (bm s) then queueFinishUnlocked s else
  UR_CALL enqueueCurrentBatchUnlocked (λ s,
    match getNewRegularCmdList s with
    | (Ret l, s') => renewRegularUnlocked l s'
    | (Throw e, s') => (Throw e, s')
    | (Undefined, s') => (Undefined, s')
    end) s.

Definition onEventWaitListUse (batch_generation : Z) : prog := λ s,
  if isCurrentGeneration batch_generation (bm s) then renewBatchUnlocked s else done s.

Definition markIssuedCommandInBatch : prog := λ s,
  if isGraphCaptureActive (bm s) then done s else
  UR_CALL (when (λ s, isLimitOfEnqueuedCommandsReached (bm s))
             (UR_CALL queueFinishUnlocked (update setBatchEmpty)))
    (update markNextIssuedCommand) s.

Definition queueFinish : prog := queueFinishUnlocked.

Definition queueFlush : prog := λ s,
  if isGraphCaptureActive (bm s) then done s else
  if isActiveBatchEmpty (bm s) then done s else renewBatchUnlocked s.

(** The destructor: the result of [queueFinish] is ignored, then the members
    give their lists back, the last declared first. *)
Definition destroy_queue (s : st) : CommandListCache.state :=
  let s := (queueFinish s).2 in
  let c := foldl give_back (cache s) (as_lent <$> runBatches (bm s)) in
  give_back (give_back c (immediateList (bm s))) (as_lent (activeBatch (bm s))).

(** ** Events *)

Definition allocate_event (immediate : bool) (gen : option Z) (c : cmd) (s : st)
    : outcome ur_event * st :=
  match b_error (blog s) (EventAllocate immediate) with
  | Some r => (Throw (exn_ur_result r), log (EventAllocate immediate) s)
  | None => (Ret {| ev_id := b_event (blog s); ev_queue := hQueue; ev_gen := gen; ev_cmd := cmd_id c |},
             log (EventAllocate immediate) s)
  end.

Definition createEventIfRequestedRegular (phEvent : bool) (batch_generation : Z) (c : cmd) (s : st)
    : outcome (option ur_event) * st :=
  if phEvent then
    let '(r, s) := allocate_event false (Some batch_generation) c s in (Some <$> r, s)
  else (Ret None, s).

Definition getEvent (phEvent : bool) (c : cmd) (s : st) : outcome (option ur_event) * st :=
  if isGraphCaptureActive (bm s) then
    if phEvent then let '(r, s) := allocate_event true None c s in (Some <$> r, s) else (Ret None, s)
  else createEventIfRequestedRegular phEvent (getCurrentGeneration (bm s)) c s.

(** ** Enqueueing *)

(** [getListManager().append...]: the immediate list while a graph is captured,
    the active batch otherwise. *)
Definition append (c : cmd) : prog := λ s,
  if isGraphCaptureActive (bm s) then ze (Append true c) (imm_append [c]) s else
  if closed (activeBatch (bm s)) then (Undefined, s) else
  ze (Append false c) (λ b, set_active (record c (activeBatch b)) b) s.

(** A call that also gives an event: [*phEvent] when it is written. *)
Definition eprog : Type := st → outcome ur_result_t * option ur_event * st.

Definition with_event (get : st → outcome (option ur_event) * st) (k : prog) : eprog := λ s,
  match get s with
  | (Ret e, s') => let '(r, s'') := k s' in (r, e, s'')
  | (Throw x, s') => (Throw x, None, s')
  | (Undefined, s') => (Undefined, None, s')
  end.

(** [markIssuedCommandInBatch(); append...(getEvent()); after] *)
Definition enqueue (after : prog) (c : cmd) (phEvent : bool) : eprog := λ s,
  match markIssuedCommandInBatch s with
  | (Ret _, s) => with_event (getEvent phEvent c) (UR_CALL (append c) after) s
  | (x, s) => (x, None, s)
  end.

Definition enqueue_async : cmd → bool → eprog := enqueue done.
Definition enqueue_blocking (blocking : bool) : cmd → bool → eprog :=
  enqueue (when (λ _, blocking) queueFinishUnlocked).
Definition enqueue_renew : cmd → bool → eprog := enqueue renewBatchUnlocked.

(** The command the [n]th enqueue appends. *)
Definition mk (k : cmd_kind) (n : Z) (waits : list Z) : cmd :=
  {| cmd_id := n; cmd_kind_of := k; cmd_waits := waits |}.

(** The functions of the queue, one per command. *)
Definition enqueueMemBufferRead (blocking : bool) (n : Z) (waits : list Z) : bool → eprog :=
  enqueue_blocking blocking (mk MemBufferRead n waits).
Definition enqueueMemBufferWrite (blocking : bool) (n : Z) (waits : list Z) : bool → eprog :=
  enqueue_blocking blocking (mk MemBufferWrite n waits).
Definition enqueueDeviceGlobalVariableWrite (blocking : bool) (n : Z) (waits : list Z) : bool → eprog :=
  enqueue_blocking blocking (mk DeviceGlobalVariableWrite n waits).
Definition enqueueDeviceGlobalVariableRead (blocking : bool) (n : Z) (waits : list Z) : bool → eprog :=
  enqueue_blocking blocking (mk DeviceGlobalVariableRead n waits).
Definition enqueueMemBufferFill (n : Z) (waits : list Z) : bool → eprog :=
  enqueue_async (mk MemBufferFill n waits).
Definition enqueueUSMMemcpy (blocking : bool) (n : Z) (waits : list Z) : bool → eprog :=
  enqueue_blocking blocking (mk USMMemcpy n waits).
Definition enqueueUSMFreeExp (n : Z) (waits : list Z) : bool → eprog :=
  enqueue_renew (mk USMFree n waits).
Definition enqueueMemBufferMap (blocking : bool) (n : Z) (waits : list Z) : bool → eprog :=
  enqueue_blocking blocking (mk MemBufferMap n waits).
Definition enqueueMemUnmap (n : Z) (waits : list Z) : bool → eprog :=
  enqueue_async (mk MemUnmap n waits).
Definition enqueueMemBufferReadRect (blocking : bool) (n : Z) (waits : list Z) : bool → eprog :=
  enqueue_blocking blocking (mk MemBufferReadRect n waits).
Definition enqueueMemBufferWriteRect (blocking : bool) (n : Z) (waits : list Z) : bool → eprog :=
  enqueue_blocking blocking (mk MemBufferWriteRect n waits).
Definition enqueueUSMAdvise (n : Z) : bool → eprog := enqueue_async (mk USMAdvise n []).
Definition enqueueUSMMemcpy2D (blocking : bool) (n : Z) (waits : list Z) : bool → eprog :=
  enqueue_blocking blocking (mk USMMemcpy2D n waits).
Definition enqueueUSMFill2D (n : Z) (waits : list Z) : bool → eprog :=
  enqueue_async (mk USMFill2D n waits).
Definition enqueueUSMPrefetch (n : Z) (waits : list Z) : bool → eprog :=
  enqueue_async (mk USMPrefetch n waits).
Definition enqueueMemBufferCopyRect (n : Z) (waits : list Z) : bool → eprog :=
  enqueue_async (mk MemBufferCopyRect n waits).
Definition enqueueEventsWait (n : Z) (waits : list Z) : bool → eprog :=
  enqueue_renew (mk EventsWait n waits).
Definition enqueueMemBufferCopy (n : Z) (waits : list Z) : bool → eprog :=
  enqueue_async (mk MemBufferCopy n waits).
Definition enqueueUSMFill (n : Z) (waits : list Z) : bool → eprog :=
  enqueue_async (mk USMFill n waits).
Definition enqueueMemImageRead (blocking : bool) (n : Z) (waits : list Z) : bool → eprog :=
  enqueue_blocking blocking (mk MemImageRead n waits).
Definition enqueueMemImageWrite (blocking : bool) (n : Z) (waits : list Z) : bool → eprog :=
  enqueue_blocking blocking (mk MemImageWrite n waits).
Definition enqueueMemImageCopy (n : Z) (waits : list Z) : bool → eprog :=
  enqueue_async (mk MemImageCopy n waits).
Definition enqueueReadHostPipe (blocking : bool) (n : Z) (waits : list Z) : bool → eprog :=
  enqueue_blocking blocking (mk ReadHostPipe n waits).
Definition enqueueWriteHostPipe (blocking : bool) (n : Z) (waits : list Z) : bool → eprog :=
  enqueue_blocking blocking (mk WriteHostPipe n waits).
Definition enqueueUSMDeviceAllocExp (n : Z) (waits : list Z) : bool → eprog :=
  enqueue_renew (mk USMAllocDevice n waits).
Definition enqueueUSMSharedAllocExp (n : Z) (waits : list Z) : bool → eprog :=
  enqueue_renew (mk USMAllocShared n waits).
Definition enqueueUSMHostAllocExp (n : Z) (waits : list Z) : bool → eprog :=
  enqueue_renew (mk USMAllocHost n waits).
Definition bindlessImagesImageCopyExp (n : Z) (waits : list Z) : bool → eprog :=
  enqueue_async (mk ImageCopy n waits).
Definition bindlessImagesWaitExternalSemaphoreExp (n : Z) (waits : list Z) : bool → eprog :=
  enqueue_renew (mk WaitExternalSemaphore n waits).
Definition bindlessImagesSignalExternalSemaphoreExp (n : Z) (waits : list Z) : bool → eprog :=
  enqueue_renew (mk SignalExternalSemaphore n waits).
Definition enqueueTimestampRecordingExp (blocking : bool) (n : Z) (waits : list Z) : bool → eprog :=
  enqueue_blocking blocking (mk TimestampRecording n waits).
Definition enqueueNativeCommandExp (n : Z) (waits : list Z) : bool → eprog :=
  enqueue_async (mk NativeCommand n waits).
Definition enqueueKernelLaunchWithArgsExp (n : Z) (waits : list Z) : bool → eprog :=
  enqueue_async (mk KernelLaunchWithArgs n waits).

(** The event handle the caller passes: none, one to be created, or an existing
    event with whether it is counter-based. *)
Inductive event_arg := NoEvent | NewEvent | OldEvent (e : ur_event) (isCounter : bool).

Definition enqueueEventsWaitWithBarrierExt (profiling : bool) (n : Z) (waits : list Z)
    (phEvent : event_arg) : eprog := λ s,
  if (if phEvent is OldEvent _ false then true else false)
  then (Ret UR_RESULT_ERROR_INVALID_ARGUMENT, None, s) else
  let c := mk (if profiling then EventsWaitWithBarrier else EventsWait) n waits in
  match markIssuedCommandInBatch s with
  | (Ret _, s) =>
      with_event (λ s,
        match phEvent with
        | OldEvent e _ =>
            (Ret (Some {| ev_id := ev_id e; ev_queue := hQueue;
               ev_gen := if isGraphCaptureActive (bm s) then ev_gen e else Some (getCurrentGeneration (bm s));
               ev_cmd := n |}), s)
        | NewEvent => getEvent true c s
        | NoEvent => getEvent false c s
        end) (UR_CALL (append c) renewBatchUnlocked) s
  | (x, s) => (x, None, s)
  end.

(** [*phEvent = nullptr], so that an event is created when one is wanted. *)
Definition enqueueEventsWaitWithBarrier (profiling : bool) (n : Z) (waits : list Z) (phEvent : bool) : eprog :=
  enqueueEventsWaitWithBarrierExt profiling n waits (if phEvent then NewEvent else NoEvent).

(** [createEventAndRetain]: an event is created even if the caller wants none. *)
Definition append_immediate (c : cmd) (phEvent : bool) : eprog := λ s,
  match allocate_event true None c s with
  | (Ret e, s) => let '(r, s) := ze (Append true c) (imm_append [c]) s in
      (r, if phEvent then Some e else None, s)
  | (Throw x, s) => (Throw x, None, s)
  | (Undefined, s) => (Undefined, None, s)
  end.

(** [if (!isActiveBatchEmpty()) UR_CALL(renewBatchUnlocked())] before [k]. *)
Definition flush_before (k : eprog) : eprog := λ s,
  match when (λ s, negb (isActiveBatchEmpty (bm s))) renewBatchUnlocked s with
  | (Ret r, s) => if decide (r = UR_RESULT_SUCCESS) then k s else (Ret r, None, s)
  | (x, s) => (x, None, s)
  end.

Definition enqueueCommandBufferExp (n : Z) (waits : list Z) (phEvent : bool) : eprog :=
  flush_before (append_immediate (mk CommandBuffer n waits) phEvent).
Definition enqueueGraphExp (n : Z) (waits : list Z) (phEvent : bool) : eprog :=
  flush_before (append_immediate (mk Graph n waits) phEvent).

Definition enqueueHostTaskExp (n : Z) (waits : list Z) (phEvent : bool) : eprog :=
  with_event (getEvent phEvent (mk HostTask n waits)) (append (mk HostTask n waits)).

(** ** Graph capture *)

Definition begin_capture : prog :=
  UR_CALL (when (λ s, negb (isActiveBatchEmpty (bm s))) renewBatchUnlocked)
  (UR_CALL (update (setGraphCapture true)) (ze BeginGraphCapture (set_capturing true))).
Definition queueBeginGraphCapteExp : prog := begin_capture.
Definition queueBeginCapteIntoGraphExp : prog := begin_capture.
Definition queueEndGraphCapteExp : prog :=
  UR_CALL (ze EndGraphCapture (set_capturing false)) (update (setGraphCapture false)).

Definition queueGetNativeHandle (s : st) : Z := (immediateList (bm s)).1.

(** [queueGetInfo(UR_QUEUE_INFO_EMPTY)]. *)
Definition queueGetInfo_EMPTY (s : st) : ur_result_t + bool :=
  if isActiveBatchEmpty (bm s) then
    match b_poll (blog s) with
    | PollSuccess => inr true
    | PollNotReady => inr false
    | PollError r => inl r
    end
  else inr false.

(** ** Every enqueue function, as a request *)
Inductive request :=
  | REnqueueMemBufferRead (blocking : bool)
  | REnqueueMemBufferWrite (blocking : bool)
  | REnqueueDeviceGlobalVariableWrite (blocking : bool)
  | REnqueueDeviceGlobalVariableRead (blocking : bool)
  | REnqueueMemBufferFill
  | REnqueueUSMMemcpy (blocking : bool)
  | REnqueueUSMFreeExp
  | REnqueueMemBufferMap (blocking : bool)
  | REnqueueMemUnmap
  | REnqueueMemBufferReadRect (blocking : bool)
  | REnqueueMemBufferWriteRect (blocking : bool)
  | REnqueueUSMAdvise
  | REnqueueUSMMemcpy2D (blocking : bool)
  | REnqueueUSMFill2D
  | REnqueueUSMPrefetch
  | REnqueueMemBufferCopyRect
  | REnqueueEventsWait
  | REnqueueMemBufferCopy
  | REnqueueUSMFill
  | REnqueueMemImageRead (blocking : bool)
  | REnqueueMemImageWrite (blocking : bool)
  | REnqueueMemImageCopy
  | REnqueueReadHostPipe (blocking : bool)
  | REnqueueWriteHostPipe (blocking : bool)
  | REnqueueUSMDeviceAllocExp
  | REnqueueUSMSharedAllocExp
  | REnqueueUSMHostAllocExp
  | RBindlessImagesImageCopyExp
  | RBindlessImagesWaitExternalSemaphoreExp
  | RBindlessImagesSignalExternalSemaphoreExp
  | REnqueueTimestampRecordingExp (blocking : bool)
  | REnqueueNativeCommandExp
  | REnqueueKernelLaunchWithArgsExp
  | REnqueueEventsWaitWithBarrier (profiling : bool)
  | REnqueueEventsWaitWithBarrierExt (profiling : bool) (e : ur_event) (isCounter : bool)
  | REnqueueCommandBufferExp
  | REnqueueGraphExp
  | REnqueueHostTaskExp.

Definition perform_request (r : request) (n : Z) (waits : list Z) (phEvent : bool) : eprog :=
  match r with
  | REnqueueMemBufferRead b => enqueueMemBufferRead b n waits phEvent
  | REnqueueMemBufferWrite b => enqueueMemBufferWrite b n waits phEvent
  | REnqueueDeviceGlobalVariableWrite b => enqueueDeviceGlobalVariableWrite b n waits phEvent
  | REnqueueDeviceGlobalVariableRead b => enqueueDeviceGlobalVariableRead b n waits phEvent
  | REnqueueMemBufferFill => enqueueMemBufferFill n waits phEvent
  | REnqueueUSMMemcpy b => enqueueUSMMemcpy b n waits phEvent
  | REnqueueUSMFreeExp => enqueueUSMFreeExp n waits phEvent
  | REnqueueMemBufferMap b => enqueueMemBufferMap b n waits phEvent
  | REnqueueMemUnmap => enqueueMemUnmap n waits phEvent
  | REnqueueMemBufferReadRect b => enqueueMemBufferReadRect b n waits phEvent
  | REnqueueMemBufferWriteRect b => enqueueMemBufferWriteRect b n waits phEvent
  | REnqueueUSMAdvise => enqueueUSMAdvise n phEvent
  | REnqueueUSMMemcpy2D b => enqueueUSMMemcpy2D b n waits phEvent
  | REnqueueUSMFill2D => enqueueUSMFill2D n waits phEvent
  | REnqueueUSMPrefetch => enqueueUSMPrefetch n waits phEvent
  | REnqueueMemBufferCopyRect => enqueueMemBufferCopyRect n waits phEvent
  | REnqueueEventsWait => enqueueEventsWait n waits phEvent
  | REnqueueMemBufferCopy => enqueueMemBufferCopy n waits phEvent
  | REnqueueUSMFill => enqueueUSMFill n waits phEvent
  | REnqueueMemImageRead b => enqueueMemImageRead b n waits phEvent
  | REnqueueMemImageWrite b => enqueueMemImageWrite b n waits phEvent
  | REnqueueMemImageCopy => enqueueMemImageCopy n waits phEvent
  | REnqueueReadHostPipe b => enqueueReadHostPipe b n waits phEvent
  | REnqueueWriteHostPipe b => enqueueWriteHostPipe b n waits phEvent
  | REnqueueUSMDeviceAllocExp => enqueueUSMDeviceAllocExp n waits phEvent
  | REnqueueUSMSharedAllocExp => enqueueUSMSharedAllocExp n waits phEvent
  | REnqueueUSMHostAllocExp => enqueueUSMHostAllocExp n waits phEvent
  | RBindlessImagesImageCopyExp => bindlessImagesImageCopyExp n waits phEvent
  | RBindlessImagesWaitExternalSemaphoreExp => bindlessImagesWaitExternalSemaphoreExp n waits phEvent
  | RBindlessImagesSignalExternalSemaphoreExp => bindlessImagesSignalExternalSemaphoreExp n waits phEvent
  | REnqueueTimestampRecordingExp b => enqueueTimestampRecordingExp b n waits phEvent
  | REnqueueNativeCommandExp => enqueueNativeCommandExp n waits phEvent
  | REnqueueKernelLaunchWithArgsExp => enqueueKernelLaunchWithArgsExp n waits phEvent
  | REnqueueEventsWaitWithBarrier p => enqueueEventsWaitWithBarrier p n waits phEvent
  | REnqueueEventsWaitWithBarrierExt p e isCounter =>
      enqueueEventsWaitWithBarrierExt p n waits (if phEvent then OldEvent e isCounter else NoEvent)
  | REnqueueCommandBufferExp => enqueueCommandBufferExp n waits phEvent
  | REnqueueGraphExp => enqueueGraphExp n waits phEvent
  | REnqueueHostTaskExp => enqueueHostTaskExp n waits phEvent
  end.
End queue.
End BatchedQueue.

Module BatchedQueueFacts.
Import BatchedQueue CommandListCacheFacts.

Definition ids (l : list cmd) : list Z := cmd_id <$> l.

Definition lent (b : batch_manager) : list (Z * command_list_descriptor_t) :=
  as_lent (activeBatch b) :: immediateList b :: (as_lent <$> runBatches b).

(** The regular command lists the driver may be executing: those appended to
    the immediate list since it was last synchronized. *)
Definition in_flight_step (acc : list Z) (c : bcall) : list Z :=
  match c with ImmediateAppendCommandLists l => l :: acc | HostSynchronize => [] | _ => acc end.
Definition in_flight (calls : list bcall) : list Z := foldl in_flight_step [] calls.

Lemma in_flight_snoc calls c : in_flight (calls ++ [c]) = in_flight_step (in_flight calls) c.
Proof. unfold in_flight. by rewrite foldl_app. Qed.

(** Time passes: commands are never unsubmitted, and those of a batch are
    submitted before the generation moves on. *)
Record evolves (b b' : batch_manager) : Prop := {
  ev_submitted : submitted b `prefix_of` submitted b';
  ev_captured : captured b `prefix_of` captured b';
  ev_generation : regularGenerationNumber b ≤ regularGenerationNumber b';
  ev_same : regularGenerationNumber b = regularGenerationNumber b' →
    recorded (activeBatch b) `prefix_of` recorded (activeBatch b');
  ev_next : regularGenerationNumber b < regularGenerationNumber b' →
    ∀ c, c ∈ recorded (activeBatch b) → c ∈ submitted b' }.

Lemma prefix_elem {A} (l k : list A) x : l `prefix_of` k → x ∈ l → x ∈ k.
Proof. intros [r ->] Hx. apply elem_of_app. by left. Qed.

#[export] Instance evolves_preorder : PreOrder evolves.
Proof.
  split.
  - intros b. split; try done. lia.
  - intros b1 b2 b3 [S12 C12 G12 E12 N12] [S23 C23 G23 E23 N23]. split.
    + by etrans.
    + by etrans.
    + lia.
    + intros E. etrans; [apply E12; lia|apply E23; lia].
    + intros Hlt c Hc. destruct (decide (regularGenerationNumber b1 = regularGenerationNumber b2)) as [E|Hne].
      * apply N23; [lia|]. eapply prefix_elem; [by apply E12|done].
      * eapply prefix_elem; [exact S23|]. apply N12; [lia|done].
Qed.

(** The event [e] of this queue is signalled by a command that is submitted or
    was captured, or by one of the active batch, and then its generation is the
    current one. *)
Definition event_ok (b : batch_manager) (e : ur_event) : Prop :=
  ev_cmd e ∈ ids (submitted b ++ captured b) ∨
  ev_gen e = Some (regularGenerationNumber b) ∧ ev_cmd e ∈ ids (recorded (activeBatch b)).

Lemma ids_app l k : ids (l ++ k) = ids l ++ ids k.
Proof. apply fmap_app. Qed.
Lemma elem_of_ids l x : x ∈ ids l ↔ ∃ c, x = cmd_id c ∧ c ∈ l.
Proof. apply list_elem_of_fmap. Qed.
Lemma ids_prefix l k x : l `prefix_of` k → x ∈ ids l → x ∈ ids k.
Proof. intros [r ->] Hx. rewrite ids_app. apply elem_of_app. by left. Qed.

(** Events keep their meaning as time passes. *)
Lemma event_ok_evolves b b' e : evolves b b' → event_ok b e → event_ok b' e.
Proof.
  unfold event_ok. intros [Sb Cb Gb Eb Nb] He. rewrite ids_app, elem_of_app in *.
  destruct He as [[He|He]|[Eg He]]; [left; left; by eapply ids_prefix|left; right; by eapply ids_prefix|].
  destruct (decide (regularGenerationNumber b = regularGenerationNumber b')) as [E|Hne].
  - right. split; [congruence|]. eapply ids_prefix; [by apply Eb|done].
  - left. left. apply elem_of_ids in He as (c & -> & Hc). apply elem_of_ids. exists c.
    split; [done|]. apply Nb; [lia|done].
Qed.

(** The invariant of a queue of which the commands [issued] were accepted; and
    the cache lends its lists to it and to the holders of [others]. *)
Record q_inv (s : st) (issued : list cmd) : Prop := {
  qi_open : closed (activeBatch (bm s)) = false;
  qi_order : submitted (bm s) ++ recorded (activeBatch (bm s)) = issued;
  qi_counter : recorded (activeBatch (bm s)) ≠ [] → 0 < enqueuedOperationsCounter (bm s);
  qi_bound : 0 ≤ enqueuedOperationsCounter (bm s) ≤ maxNumberOfEnqueuedOperations;
  qi_run : Z.of_nat (length (runBatches (bm s))) ≤ initialSlotsForBatches;
  qi_capture : graphCaptureActive (bm s) = true → recorded (activeBatch (bm s)) = [];
  qi_capturing : capturing (bm s) = true → graphCaptureActive (bm s) = true;
  qi_completed : (completed (bm s) ≤ length (submitted (bm s)))%nat;
  qi_flight : ∀ h, h ∈ in_flight (blog s) → h ∈ zeCommandList <$> runBatches (bm s) }.
Definition c_inv `{ZeDriver} (s : st) (others : list (Z * command_list_descriptor_t)) : Prop :=
  cache_inv (λ _, True) (cache s) (lent (bm s) ++ others).

(** What a control call is: everything but recording, event creation and graph capture. *)
Definition is_control (c : bcall) : bool :=
  match c with Append _ _ | EventAllocate _ | BeginGraphCapture | EndGraphCapture => false | _ => true end.

Lemma cache_inv_perm `{ZeDriver} allowed c l k : l ≡ₚ k → cache_inv allowed c l → cache_inv allowed c k.
Proof.
  intros E []. split; try done.
  - by rewrite ci_owned0, E.
  - intros h d Hd. apply ci_lent0. by rewrite E.
Qed.

Section facts.
Context `{ZeDriver, BatchDriver} (ZeDevice ordinal hQueue : Z).
Hypothesis (Hcontrol : ∀ log c, is_control c = true → b_error log c = None).
Hypothesis (Hlists : ∀ log c, ze_error log c = None).
Hypothesis (Hfresh : driver_fresh).

Lemma ze_control c f s :
  is_control c = true → ze c f s = (Ret UR_RESULT_SUCCESS, set_bm f (log c s)).
Proof. intros Hc. unfold ze. by rewrite Hcontrol. Qed.

Lemma UR_CALL_ok m k s s' : m s = (Ret UR_RESULT_SUCCESS, s') → UR_CALL m k s = k s'.
Proof. unfold UR_CALL. by intros ->. Qed.

Lemma UR_CALL_ze c f k s : is_control c = true → UR_CALL (ze c f) k s = k (set_bm f (log c s)).
Proof. intros Hc. by apply UR_CALL_ok, ze_control. Qed.

(** Returning lists to the cache. *)
Lemma give_back_all c l others :
  cache_inv (λ _, True) c (l ++ others) → cache_inv (λ _, True) (foldl give_back c l) others.
Proof.
  revert c. induction l as [|[h d] l IH]; intros c; [done|]. intros Hc. apply IH.
  unfold give_back. simpl. by apply (addCommandList_inv _ d h c [] (l ++ others)).
Qed.

(** A list is always to be had. *)
Lemma getRegularCommandList_ok c l :
  cache_inv (λ _, True) c l →
  ∃ h d c', getRegularCommandList ZeDevice (regularCmdListDesc ordinal) c = (Ret (h, d), c') ∧
    cache_inv (λ _, True) c' ((h, d) :: l).
Proof.
  intros Hc. unfold getRegularCommandList. set (d := Reg _).
  destruct (getCommandList d c) as [r c'] eqn:E.
  pose proof (getCommandList_inv (λ _, True) d c l r c' Hfresh I Hc E) as Hi.
  destruct r as [h|e|]; [by exists h, d, c'| |done]. exfalso.
  unfold getCommandList in E. destruct (find d _) as [[[? [? [|h hs]]] ?]|].
  - done.
  - simpl in E. by rewrite Hlists in E.
  - unfold createCommandList in E. simpl in E. rewrite andb_false_r in E. by rewrite Hlists in E.
Qed.

Lemma getNewRegularCmdList_ok s others :
  c_inv s others →
  ∃ l c', getNewRegularCmdList ZeDevice ordinal s =
      (Ret l, {| bm := bm s; cache := c'; blog := blog s |}) ∧
    recorded l = [] ∧ closed l = false ∧
    cache_inv (λ _, True) c' (as_lent l :: lent (bm s) ++ others).
Proof.
  intros Hc. unfold getNewRegularCmdList.
  destruct (getRegularCommandList_ok _ _ Hc) as (h & d & c' & -> & Hc').
  by exists (new_list h d), c'.
Qed.

Definition inv (s : st) (issued : list cmd) (others : list (Z * command_list_descriptor_t)) : Prop :=
  q_inv s issued ∧ c_inv s others.

(** What a program that keeps the invariant of [s] ends in. *)
Definition leads (m : prog) (s : st) (issued : list cmd) others (Q : st → Prop) : Prop :=
  ∃ s', m s = (Ret UR_RESULT_SUCCESS, s') ∧ inv s' issued others ∧ evolves (bm s) (bm s') ∧
    graphCaptureActive (bm s') = graphCaptureActive (bm s) ∧ capturing (bm s') = capturing (bm s) ∧ Q s'.

(** Everything submitted has completed and the active batch is empty. *)
Record finished (s : st) : Prop := {
  fi_recorded : recorded (activeBatch (bm s)) = [];
  fi_completed : completed (bm s) = length (submitted (bm s));
  fi_counter : enqueuedOperationsCounter (bm s) = 0;
  fi_run : runBatches (bm s) = [];
  fi_flight : in_flight (blog s) = [] }.

Lemma enqueueCurrentBatch_eq s :
  enqueueCurrentBatchUnlocked s =
    let h := zeCommandList (activeBatch (bm s)) in
    (Ret UR_RESULT_SUCCESS,
     set_bm (λ b, imm_append (recorded (activeBatch b)) (set_active (close (activeBatch b)) b))
       (log (ImmediateAppendCommandLists h) (log (CommandListClose h) s))).
Proof. unfold enqueueCurrentBatchUnlocked. rewrite UR_CALL_ze by done. by rewrite ze_control. Qed.

Lemma capturing_false s issued :
  q_inv s issued → graphCaptureActive (bm s) = false → capturing (bm s) = false.
Proof. intros [] E. destruct (capturing (bm s)); [|done]. by rewrite qi_capturing0 in E. Qed.

Lemma empty_batch s issued :
  q_inv s issued → isActiveBatchEmpty (bm s) = true → recorded (activeBatch (bm s)) = [].
Proof.
  unfold isActiveBatchEmpty. intros [] ?. bool_to_prop. destruct (recorded _) eqn:E; [done|].
  assert (0 < enqueuedOperationsCounter (bm s)); [by apply qi_counter0|lia].
Qed.

Lemma batchFinish_ok s issued others :
  submitted (bm s) ++ (if isActiveBatchEmpty (bm s) then recorded (activeBatch (bm s)) else []) = issued →
  (isActiveBatchEmpty (bm s) = true → closed (activeBatch (bm s)) = false ∧ recorded (activeBatch (bm s)) = []) →
  completed (bm s) = length (submitted (bm s)) → graphCaptureActive (bm s) = false →
  capturing (bm s) = false → in_flight (blog s) = [] → c_inv s others →
  ∃ s', batchFinish s = (Ret UR_RESULT_SUCCESS, s') ∧ inv s' issued others ∧ finished s' ∧
    graphCaptureActive (bm s') = false ∧ capturing (bm s') = false ∧ captured (bm s') = captured (bm s) ∧
    submitted (bm s') = submitted (bm s) ∧
    regularGenerationNumber (bm s') =
      regularGenerationNumber (bm s) + (if isActiveBatchEmpty (bm s) then 0 else 1).
Proof.
  intros Ho Hempty Hcomp Hcap Hcapt Hfl Hc. unfold batchFinish. rewrite UR_CALL_ze by done.
  unfold when. change (isActiveBatchEmpty (bm (set_bm id (log ReleaseSubmittedKernels s))))
    with (isActiveBatchEmpty (bm s)).
  assert (∀ a, as_lent a = as_lent (activeBatch (bm s)) →
    cache_inv (λ _, True) (foldl give_back (cache s) (as_lent <$> runBatches (bm s)))
    (as_lent a :: immediateList (bm s) :: others)) as Hg.
  { intros a ->. apply give_back_all. eapply cache_inv_perm; [|exact Hc]. unfold lent. simpl. solve_Permutation. }
  destruct (isActiveBatchEmpty (bm s)) eqn:Ee; simpl.
  - destruct Hempty as [Hop Hrec]; [done|]. erewrite UR_CALL_ok by (simpl; rewrite Ee; done).
    eexists. split; [done|]. simpl. rewrite Hrec in *. unfold isActiveBatchEmpty in Ee. bool_to_prop.
    split_and!; try done; [|split|lia]; [split; [split|by apply Hg]|..]; simpl;
      rewrite ?in_flight_snoc, ?Hfl, ?Hcapt, ?Hrec, ?Hcomp, ?Ee; simpl; done || (unfold maxNumberOfEnqueuedOperations; lia).
  - erewrite UR_CALL_ok by (simpl; rewrite Ee; simpl; rewrite UR_CALL_ze by done; done).
    eexists. split; [done|]. simpl.
    split_and!; try done; [|split]; [split; [split|by apply Hg]|..]; simpl;
      rewrite ?in_flight_snoc, ?Hfl, ?Hcapt, ?Hcomp; simpl; done || (unfold maxNumberOfEnqueuedOperations; lia).
Qed.

Lemma queueFinishUnlocked_ok s issued others :
  inv s issued others → graphCaptureActive (bm s) = false →
  leads queueFinishUnlocked s issued others (λ s', finished s' ∧ submitted (bm s') = issued).
Proof.
  intros [Hq Hc] Hg. pose proof (capturing_false _ _ Hq Hg) as Hcapt.
  pose proof (empty_batch _ _ Hq) as Hempty. destruct Hq as [].
  unfold leads, queueFinishUnlocked, isGraphCaptureActive. rewrite Hg.
  set (r := recorded (activeBatch (bm s))) in *.
  assert (∃ s1, when (λ s, negb (isActiveBatchEmpty (bm s))) enqueueCurrentBatchUnlocked s
      = (Ret UR_RESULT_SUCCESS, s1) ∧ isActiveBatchEmpty (bm s1) = isActiveBatchEmpty (bm s) ∧
    submitted (bm s1) = issued ∧ graphCaptureActive (bm s1) = false ∧ capturing (bm s1) = false ∧
    captured (bm s1) = captured (bm s) ∧ c_inv s1 others ∧
    regularGenerationNumber (bm s1) = regularGenerationNumber (bm s) ∧
    (isActiveBatchEmpty (bm s) = true → closed (activeBatch (bm s1)) = false ∧
       recorded (activeBatch (bm s1)) = [])) as (s1 & E1 & Ee1 & Hs1 & Hg1 & Hc1 & Hk1 & Hl1 & Hn1 & He1).
  { unfold when. destruct (isActiveBatchEmpty (bm s)) eqn:Ee; simpl.
    - exists s. pose proof (Hempty eq_refl) as Hr.
      split_and!; try done. by rewrite <-qi_order0, Hr, app_nil_r.
    - rewrite enqueueCurrentBatch_eq. eexists. split; [done|]. simpl. rewrite Hcapt. by split_and!. }
  rewrite (UR_CALL_ok _ _ _ _ E1). unfold hostSynchronize, queueFinishPoolsUnlocked.
  rewrite UR_CALL_ze by done. rewrite UR_CALL_ze by done. set (s2 := set_bm id _).
  assert (isActiveBatchEmpty (bm s2) = isActiveBatchEmpty (bm s)) as Ee2 by exact Ee1.
  destruct (batchFinish_ok s2 issued others) as (s3 & -> & Hi & Hf & Hg3 & Hp3 & Hk3 & Hs3 & Hn3); try done.
  - rewrite Ee2. simpl. rewrite Hs1. destruct (isActiveBatchEmpty (bm s)); [|by rewrite app_nil_r].
    destruct He1 as [_ ->]; [done|]. by rewrite app_nil_r.
  - rewrite Ee2. exact He1.
  - simpl. by rewrite !in_flight_snoc.
  - exists s3. split; [done|]. split; [done|]. split_and!; try congruence; [|simpl in *; congruence].
    rewrite Ee2 in Hn3. simpl in Hs3, Hk3, Hn3. rewrite Hs1 in Hs3. rewrite Hk1 in Hk3. rewrite Hn1 in Hn3.
    split.
    + rewrite Hs3, <-qi_order0. by apply prefix_app_r.
    + by rewrite Hk3.
    + rewrite Hn3. destruct (isActiveBatchEmpty (bm s)); lia.
    + rewrite Hn3. destruct (isActiveBatchEmpty (bm s)) eqn:Ee; [|lia]. intros _.
      fold r. rewrite Hempty by done. apply prefix_nil.
    + intros _ c Hin. rewrite Hs3, <-qi_order0. apply elem_of_app. by right.
Qed.

(** Everything accepted so far is submitted. *)
Definition flushed (issued : list cmd) (s : st) : Prop :=
  recorded (activeBatch (bm s)) = [] ∧ submitted (bm s) = issued.

Lemma done_ok s issued others (Q : st → Prop) :
  inv s issued others → Q s → leads done s issued others Q.
Proof. intros Hi HQ. by exists s. Qed.

Lemma flushed_capture s issued : q_inv s issued → graphCaptureActive (bm s) = true → flushed issued s.
Proof.
  intros [] Hg. split; [by apply qi_capture0|]. by rewrite <-qi_order0, qi_capture0, app_nil_r.
Qed.

(** Without a slot for another batch the queue is finished; otherwise the batch
    is submitted, kept and replaced by a list of the cache. *)
Lemma renewBatchUnlocked_ok s issued others :
  inv s issued others → leads (renewBatchUnlocked ZeDevice ordinal) s issued others (flushed issued).
Proof.
  intros Hi. pose proof Hi as [Hq Hc]. unfold leads, renewBatchUnlocked.
  destruct (isLimitOfUsedCommandListsReached (bm s)) eqn:El.
  { destruct (graphCaptureActive (bm s)) eqn:Hg.
    - exists s. unfold queueFinishUnlocked, isGraphCaptureActive. rewrite Hg.
      split_and!; try done. by apply flushed_capture.
    - destruct (queueFinishUnlocked_ok _ _ _ Hi Hg) as (s' & E & Hi' & He & Hg' & Hp' & [Hf Hs]).
      exists s'. split_and!; try congruence. split; [apply Hf|done]. }
  rewrite (UR_CALL_ok _ _ _ _ (enqueueCurrentBatch_eq s)). set (s1 := set_bm _ _).
  destruct (getNewRegularCmdList_ok s1 others) as (l & c' & -> & Hr & Hcl & Hc'); [exact Hc|].
  pose proof (flushed_capture _ _ Hq) as Hcap. destruct Hq as [].
  unfold renewRegularUnlocked, update. eexists. split; [done|]. simpl.
  assert ((if capturing (bm s) then submitted (bm s) else submitted (bm s) ++ recorded (activeBatch (bm s)))
    = issued) as Es.
  { destruct (capturing (bm s)) eqn:Ecap; [|done]. by apply Hcap, qi_capturing0. }
  unfold isLimitOfUsedCommandListsReached in El. bool_to_prop.
  split_and!; [split; [split|]|split|done|done|by split]; simpl; rewrite ?Hr, ?Hcl, ?Es, ?app_nil_r; try done.
  - rewrite length_app. simpl. lia.
  - rewrite <-qi_order0, length_app. lia.
  - intros h. rewrite !in_flight_snoc, fmap_app, elem_of_app. simpl. rewrite elem_of_cons.
    intros [->|Hh]; [right; left|left; by apply qi_flight0].
  - eapply cache_inv_perm; [|exact Hc']. unfold lent. simpl. rewrite fmap_app. simpl. solve_Permutation.
  - rewrite <-qi_order0. by apply prefix_app_r.
  - destruct (capturing (bm s)); [by apply prefix_app_r|done].
  - lia.
  - lia.
  - intros _ c Hin. rewrite <-qi_order0. apply elem_of_app. by right.
Qed.

Lemma onEventWaitListUse_ok s issued others e :
  inv s issued others → event_ok (bm s) e →
  ∀ g, ev_gen e = Some g →
  leads (onEventWaitListUse ZeDevice ordinal g) s issued others
    (λ s', ev_cmd e ∈ ids (submitted (bm s') ++ captured (bm s'))).
Proof.
  intros Hi He g Hgen. unfold leads, onEventWaitListUse, isCurrentGeneration.
  destruct (g =? _) eqn:E; bool_to_prop.
  - destruct (renewBatchUnlocked_ok _ _ _ Hi) as (s' & Er & Hi' & Hev & Hg' & Hp' & [Hr Hs]).
    exists s'. split_and!; try done. destruct (event_ok_evolves _ _ e Hev He) as [Hin|[_ Hin]];
      [done|rewrite Hr in Hin; by apply not_elem_of_nil in Hin].
  - exists s. split_and!; try done. destruct He as [He|[Eg _]]; [done|]. congruence.
Qed.

Lemma markIssuedCommandInBatch_ok s issued others :
  inv s issued others →
  leads markIssuedCommandInBatch s issued others
    (λ s', graphCaptureActive (bm s') = true ∨ 0 < enqueuedOperationsCounter (bm s')).
Proof.
  intros Hi. unfold leads, markIssuedCommandInBatch, isGraphCaptureActive.
  destruct (graphCaptureActive (bm s)) eqn:Hg.
  { exists s. rewrite Hg. split_and!; try done. by left. }
  destruct (isLimitOfEnqueuedCommandsReached (bm s)) eqn:El.
  - destruct (queueFinishUnlocked_ok _ _ _ Hi Hg) as (s' & E & [Hq' Hc'] & He & Hg' & Hp' & [Hf Hs]).
    rewrite (UR_CALL_ok _ _ s (set_bm setBatchEmpty s')) by (unfold when; by rewrite El, (UR_CALL_ok _ _ _ _ E)).
    eexists. split; [done|]. destruct Hq', Hf. rewrite Hg in Hg'. split_and!; simpl; try done; [destruct He; by split|right; lia].
  - rewrite (UR_CALL_ok _ _ s s) by (unfold when; by rewrite El). eexists. split; [done|]. destruct Hi as [[] Hc].
    unfold isLimitOfEnqueuedCommandsReached, maxNumberOfEnqueuedOperations in *. bool_to_prop.
    split_and!; simpl; try done; [|split; simpl; done || lia|right; lia].
    split; [split|exact Hc]; simpl; try done; unfold maxNumberOfEnqueuedOperations; lia.
Qed.

(** The commands accepted after [c]: while a graph is captured the driver runs nothing. *)
Definition accept (b : batch_manager) (issued : list cmd) (c : cmd) : list cmd :=
  if capturing b then issued else issued ++ [c].

(** What an enqueue of [c] from [s] may end in. *)
Definition enqueued (c : cmd) issued others (s : st) (x : outcome ur_result_t * option ur_event * st) : Prop :=
  let '(r, e, s') := x in
  evolves (bm s) (bm s') ∧ graphCaptureActive (bm s') = graphCaptureActive (bm s) ∧
  capturing (bm s') = capturing (bm s) ∧
  match r with
  | Ret r =>
      if decide (r = UR_RESULT_SUCCESS)
      then inv s' (accept (bm s) issued c) others ∧
        ∀ e', e = Some e' → ev_queue e' = hQueue ∧ ev_cmd e' = cmd_id c ∧ event_ok (bm s') e'
      else inv s' issued others
  | Throw _ => inv s' issued others
  | Undefined => False
  end.

Lemma inv_log c s issued others :
  in_flight_step (in_flight (blog s)) c = in_flight (blog s) → inv s issued others →
  inv (log c s) issued others.
Proof. intros E [[] Hc]. split; [split|exact Hc]; simpl; try done. by rewrite in_flight_snoc, E. Qed.

(** Where an accepted command is. *)
Definition placed (b : batch_manager) (c : cmd) : Prop :=
  c ∈ submitted b ++ captured b ∨ graphCaptureActive b = false ∧ c ∈ recorded (activeBatch b).

Lemma append_fails i c r s issued others :
  b_error (blog s) (Append i c) = Some r → inv s issued others →
  r ≠ UR_RESULT_SUCCESS ∧ (∀ f, ze (Append i c) f s = (Ret r, log (Append i c) s)) ∧
  inv (log (Append i c) s) issued others.
Proof.
  intros E Hi. split_and!; [intros ->; by eapply b_error_fails| |by apply inv_log].
  intros f. unfold ze. by rewrite E.
Qed.

Lemma append_ok c s issued others :
  inv s issued others →
  graphCaptureActive (bm s) = true ∨ 0 < enqueuedOperationsCounter (bm s) →
  ∃ r s', append c s = (Ret r, s') ∧ evolves (bm s) (bm s') ∧
    graphCaptureActive (bm s') = graphCaptureActive (bm s) ∧ capturing (bm s') = capturing (bm s) ∧
    regularGenerationNumber (bm s') = regularGenerationNumber (bm s) ∧
    if decide (r = UR_RESULT_SUCCESS) then inv s' (accept (bm s) issued c) others ∧ placed (bm s') c
    else inv s' issued others.
Proof.
  intros Hi Hn. unfold append, isGraphCaptureActive, accept, placed. pose proof Hi as [[] Hc].
  destruct (graphCaptureActive (bm s)) eqn:Hb.
  - destruct (b_error (blog s) (Append true c)) as [r|] eqn:E.
    { destruct (append_fails true c r s issued others) as (Hr & Hz & Hi'); [done|done|].
      exists r, (log (Append true c) s). split; [apply Hz|]. rewrite decide_False by done. by split_and!. }
    exists UR_RESULT_SUCCESS. eexists. unfold ze. rewrite E. split; [done|]. simpl.
    rewrite (qi_capture0 eq_refl), app_nil_r in *.
    destruct (capturing (bm s)) eqn:Ec; simpl; (split_and!; [split|done|done|done|split; [split|exact Hc]|]); simpl;
      rewrite ?in_flight_snoc, ?Ec, ?length_app, ?qi_order0; simpl; try done; try lia;
      rewrite ?(qi_capture0 eq_refl), ?app_nil_r; try done; try (by apply prefix_app_r).
    all: done || (left; set_solver) || (rewrite <-qi_order0; lia).
  - destruct Hn as [?|Hn]; [done|]. rewrite qi_open0.
    assert (capturing (bm s) = false) as Ec by (destruct (capturing (bm s)); [naive_solver|done]).
    destruct (b_error (blog s) (Append false c)) as [r|] eqn:E.
    { destruct (append_fails false c r s issued others) as (Hr & Hz & Hi'); [done|done|].
      exists r, (log (Append false c) s). split; [apply Hz|]. rewrite decide_False by done. by split_and!. }
    exists UR_RESULT_SUCCESS. eexists. unfold ze. rewrite E. split; [done|]. simpl.
    rewrite Ec.
    split_and!; [split|done|done|done|split; [split|exact Hc]|]; simpl;
      rewrite ?in_flight_snoc, <-?qi_order0, ?app_assoc; simpl; try done; try lia; try (by apply prefix_app_r).
    + intros _. by apply prefix_app_r.
    + by rewrite Hb.
    + by rewrite Ec.
    + right. set_solver.
Qed.

(** How an event for [c] is had: the state of the queue does not change. *)
Definition get_ok (c : cmd) (get : st → outcome (option ur_event) * st) : Prop :=
  ∀ s, let '(r, s') := get s in
    bm s' = bm s ∧ (∀ issued others, inv s issued others → inv s' issued others) ∧
    match r with
    | Ret (Some e) => ev_queue e = hQueue ∧ ev_cmd e = cmd_id c ∧
        (graphCaptureActive (bm s) = false → ev_gen e = Some (regularGenerationNumber (bm s)))
    | Ret None | Throw _ => True
    | Undefined => False
    end.

Lemma allocate_event_ok i g c s :
  let '(r, s') := allocate_event hQueue i g c s in
  bm s' = bm s ∧ (∀ issued others, inv s issued others → inv s' issued others) ∧
  match r with
  | Ret e => ev_queue e = hQueue ∧ ev_cmd e = cmd_id c ∧ ev_gen e = g
  | Throw _ => True
  | Undefined => False
  end.
Proof.
  unfold allocate_event. destruct (b_error _ _); split_and!; try done; intros ??; by apply inv_log.
Qed.

Lemma getEvent_ok ph c : get_ok c (getEvent hQueue ph c).
Proof.
  intros s. unfold getEvent, createEventIfRequestedRegular, isGraphCaptureActive, getCurrentGeneration.
  destruct (graphCaptureActive (bm s)) eqn:Hg, ph; try (split_and!; done).
  - pose proof (allocate_event_ok true None c s) as Ha.
    destruct (allocate_event _ _ _ _ _) as [[e|e|] s']; simpl; naive_solver.
  - pose proof (allocate_event_ok false (Some (regularGenerationNumber (bm s))) c s) as Ha.
    destruct (allocate_event _ _ _ _ _) as [[e|e|] s']; simpl; naive_solver.
Qed.

Definition after_ok (after : prog) : Prop :=
  ∀ s issued others, inv s issued others → leads after s issued others (λ _, True).

Lemma leads_weaken m s issued others (P Q : st → Prop) :
  (∀ s', P s' → Q s') → leads m s issued others P → leads m s issued others Q.
Proof. intros HPQ (s' & ? & ? & ? & ? & ? & ?). exists s'. split_and!; auto. Qed.

Lemma done_after : after_ok done.
Proof. intros s issued others Hi. by apply done_ok. Qed.
Lemma renew_after : after_ok (renewBatchUnlocked ZeDevice ordinal).
Proof. intros s issued others Hi. by eapply leads_weaken, renewBatchUnlocked_ok. Qed.
Lemma blocking_after b : after_ok (when (λ _, b) queueFinishUnlocked).
Proof.
  intros s issued others Hi. unfold when. destruct b; [|by apply done_after].
  destruct (graphCaptureActive (bm s)) eqn:Hg; [|by eapply leads_weaken, queueFinishUnlocked_ok].
  unfold leads, queueFinishUnlocked, isGraphCaptureActive. exists s. by rewrite Hg.
Qed.

(** Appending with an event, then what follows. *)
Lemma with_event_ok c get after s issued others :
  get_ok c get → after_ok after → inv s issued others →
  graphCaptureActive (bm s) = true ∨ 0 < enqueuedOperationsCounter (bm s) →
  enqueued c issued others s (with_event get (UR_CALL (append c) after) s).
Proof.
  intros Hget Hafter Hi Hn. unfold with_event. pose proof (Hget s) as Hs.
  destruct (get s) as [[e|x|] s1]; destruct Hs as (Eb & Hi1 & He); [| |done].
  2: { simpl. rewrite Eb. split_and!; auto. done. }
  specialize (Hi1 _ _ Hi). rewrite <-Eb in Hn.
  destruct (append_ok c s1 _ _ Hi1 Hn) as (r & s2 & E2 & Hev & Hg & Hcp & Hgen & Hr).
  unfold UR_CALL. rewrite E2. unfold enqueued. rewrite <-Eb.
  destruct (decide (r = UR_RESULT_SUCCESS)) as [->|Hne].
  2: { split_and!; try done. by rewrite decide_False. }
  destruct Hr as [Hi2 Hpl]. destruct (Hafter s2 _ _ Hi2) as (s3 & -> & Hi3 & Hev3 & Hg3 & Hcp3 & _).
  split_and!; [by etrans|congruence|congruence|]. rewrite decide_True by done. split; [done|].
  intros e' [= ->]. destruct He as (Hq & Hc & Hgn). split_and!; [done|done|].
  apply (event_ok_evolves (bm s2)); [done|]. unfold event_ok. rewrite Hc.
  destruct Hpl as [Hin|[Hgf Hin]]; [left; apply elem_of_ids; by exists c|].
  right. split; [rewrite Hgen, Hgn; congruence|]. apply elem_of_ids. by exists c.
Qed.

Lemma marked_ok c get after s issued others :
  get_ok c get → after_ok after → inv s issued others →
  enqueued c issued others s
    match markIssuedCommandInBatch s with
    | (Ret _, s) => with_event get (UR_CALL (append c) after) s
    | (x, s) => (x, None, s)
    end.
Proof.
  intros Hget Ha Hi.
  destruct (markIssuedCommandInBatch_ok _ _ _ Hi) as (s1 & -> & Hi1 & Hev & Hg & Hcp & Hn).
  pose proof (with_event_ok c get after s1 issued others Hget Ha Hi1 Hn) as Hw.
  destruct (with_event _ _ s1) as [[r e] s2]. unfold enqueued in *.
  destruct Hw as (Hev2 & Hg2 & Hcp2 & Hr). split_and!; [by etrans|congruence|congruence|].
  destruct r as [r| |]; [|done|done]. destruct (decide _); [|done].
  unfold accept in *. by rewrite <-Hcp.
Qed.

Lemma enqueue_ok after c ph s issued others :
  after_ok after → inv s issued others → enqueued c issued others s (enqueue hQueue after c ph s).
Proof. intros Ha Hi. by apply marked_ok; [apply getEvent_ok|..]. Qed.

Lemma append_immediate_ok c ph s issued others :
  inv s issued others → recorded (activeBatch (bm s)) = [] →
  enqueued c issued others s (append_immediate hQueue c ph s).
Proof.
  intros Hi Hr. unfold append_immediate. pose proof (allocate_event_ok true None c s) as Ha.
  destruct (allocate_event _ _ _ _ _) as [[e|x|] s1]; destruct Ha as (Eb & Hi1 & He); [| |done].
  2: { simpl. rewrite Eb. split_and!; auto. done. }
  specialize (Hi1 _ _ Hi). unfold enqueued, accept. rewrite <-Eb in *.
  destruct (b_error (blog s1) (Append true c)) as [r|] eqn:E.
  { destruct (append_fails true c r s1 issued others) as (Hne & -> & Hi2); [done|done|].
    rewrite decide_False by done. by split_and!. }
  unfold ze. rewrite E. destruct He as (Hq & Hc & _), Hi1 as [[] Hci].
  rewrite decide_True by done. rewrite Hr, app_nil_r in *.
  split_and!; [split|done|done|split; [split|exact Hci]|]; destruct (capturing (bm s1)) eqn:Ec; simpl;
    rewrite ?in_flight_snoc, ?Hr, ?Ec, ?app_nil_r, ?length_app, ?qi_order0; simpl;
    try done; try lia; try (by apply prefix_app_r).
  all: try (rewrite <-qi_order0; done || lia || by apply prefix_app_r).
  all: intros e' Ee; destruct ph; [|done]; injection Ee as <-; split_and!; [done|done|]; left; simpl;
    rewrite Hc, Ec; apply elem_of_ids; exists c; set_solver.
Qed.

Lemma flush_before_ok c k s issued others :
  (∀ s, inv s issued others → recorded (activeBatch (bm s)) = [] → enqueued c issued others s (k s)) →
  inv s issued others → enqueued c issued others s (flush_before ZeDevice ordinal k s).
Proof.
  intros Hk Hi. unfold flush_before, when.
  destruct (isActiveBatchEmpty (bm s)) eqn:Ee; simpl; rewrite ?decide_True by done.
  { apply Hk; [done|]. by apply (empty_batch _ _ (proj1 Hi)). }
  destruct (renewBatchUnlocked_ok _ _ _ Hi) as (s1 & -> & Hi1 & Hev & Hg & Hcp & [Hr _]).
  rewrite decide_True by done. specialize (Hk s1 Hi1 Hr). destruct (k s1) as [[r e] s2].
  unfold enqueued in *. destruct Hk as (Hev2 & Hg2 & Hcp2 & Hres).
  split_and!; [by etrans|congruence|congruence|]. unfold accept in *. by rewrite <-Hcp.
Qed.

Lemma barrier_ext_ok (p : bool) n ws ph s issued others :
  inv s issued others →
  enqueued (mk (if p then EventsWaitWithBarrier else EventsWait) n ws) issued others s
    (enqueueEventsWaitWithBarrierExt ZeDevice ordinal hQueue p n ws ph s).
Proof.
  intros Hi. unfold enqueueEventsWaitWithBarrierExt.
  destruct (if ph is OldEvent _ false then true else false) eqn:Eph; [by split_and!|].
  apply marked_ok; [|apply renew_after|done]. clear s Hi. intros s. destruct ph as [| |e b].
  - apply getEvent_ok.
  - apply getEvent_ok.
  - simpl. split_and!; try done. unfold isGraphCaptureActive. by intros ->.
Qed.

Definition request_cmd (r : request) (n : Z) (ws : list Z) : cmd :=
  mk match r with
  | REnqueueMemBufferRead _ => MemBufferRead | REnqueueMemBufferWrite _ => MemBufferWrite
  | REnqueueDeviceGlobalVariableWrite _ => DeviceGlobalVariableWrite
  | REnqueueDeviceGlobalVariableRead _ => DeviceGlobalVariableRead
  | REnqueueMemBufferFill => MemBufferFill | REnqueueUSMMemcpy _ => USMMemcpy
  | REnqueueUSMFreeExp => USMFree | REnqueueMemBufferMap _ => MemBufferMap
  | REnqueueMemUnmap => MemUnmap | REnqueueMemBufferReadRect _ => MemBufferReadRect
  | REnqueueMemBufferWriteRect _ => MemBufferWriteRect | REnqueueUSMAdvise => USMAdvise
  | REnqueueUSMMemcpy2D _ => USMMemcpy2D | REnqueueUSMFill2D => USMFill2D
  | REnqueueUSMPrefetch => USMPrefetch | REnqueueMemBufferCopyRect => MemBufferCopyRect
  | REnqueueEventsWait => EventsWait | REnqueueMemBufferCopy => MemBufferCopy
  | REnqueueUSMFill => USMFill | REnqueueMemImageRead _ => MemImageRead
  | REnqueueMemImageWrite _ => MemImageWrite | REnqueueMemImageCopy => MemImageCopy
  | REnqueueReadHostPipe _ => ReadHostPipe | REnqueueWriteHostPipe _ => WriteHostPipe
  | REnqueueUSMDeviceAllocExp => USMAllocDevice | REnqueueUSMSharedAllocExp => USMAllocShared
  | REnqueueUSMHostAllocExp => USMAllocHost | RBindlessImagesImageCopyExp => ImageCopy
  | RBindlessImagesWaitExternalSemaphoreExp => WaitExternalSemaphore
  | RBindlessImagesSignalExternalSemaphoreExp => SignalExternalSemaphore
  | REnqueueTimestampRecordingExp _ => TimestampRecording | REnqueueNativeCommandExp => NativeCommand
  | REnqueueKernelLaunchWithArgsExp => KernelLaunchWithArgs
  | REnqueueEventsWaitWithBarrier p | REnqueueEventsWaitWithBarrierExt p _ _ =>
      if p then EventsWaitWithBarrier else EventsWait
  | REnqueueCommandBufferExp => CommandBuffer | REnqueueGraphExp => Graph
  | REnqueueHostTaskExp => HostTask
  end n (if r is REnqueueUSMAdvise then [] else ws).

(** Every enqueue but that of a host task. *)
Lemma perform_ok r n ws ph s issued others :
  r ≠ REnqueueHostTaskExp → inv s issued others →
  enqueued (request_cmd r n ws) issued others s (perform_request ZeDevice ordinal hQueue r n ws ph s).
Proof.
  intros Hr Hi. pose proof done_after. pose proof renew_after. pose proof blocking_after.
  destruct r; try done; try (by apply enqueue_ok; auto); try (by apply barrier_ext_ok).
  - by apply flush_before_ok; [intros; apply append_immediate_ok|].
  - by apply flush_before_ok; [intros; apply append_immediate_ok|].
Qed.

(** Capturing a graph starts with the queue flushed. *)
Lemma begin_capture_ok s issued others :
  inv s issued others →
  ∃ r s', begin_capture ZeDevice ordinal s = (Ret r, s') ∧ inv s' issued others ∧
    evolves (bm s) (bm s') ∧ graphCaptureActive (bm s') = true ∧
    (if decide (r = UR_RESULT_SUCCESS) then capturing (bm s') = true
     else capturing (bm s') = capturing (bm s)) ∧ flushed issued s'.
Proof.
  intros Hi. unfold begin_capture, when.
  assert (∃ s1, (if negb (isActiveBatchEmpty (bm s)) then renewBatchUnlocked ZeDevice ordinal s else done s)
    = (Ret UR_RESULT_SUCCESS, s1) ∧ inv s1 issued others ∧ evolves (bm s) (bm s1) ∧
      capturing (bm s1) = capturing (bm s) ∧ flushed issued s1)
    as (s1 & E1 & Hi1 & Hev & Hcp & Hr & Hs).
  { destruct (isActiveBatchEmpty (bm s)) eqn:Ee; simpl.
    - exists s. pose proof (empty_batch _ _ (proj1 Hi) Ee) as Hr. split_and!; try done. split; [done|].
      destruct (proj1 Hi). by rewrite <-qi_order0, Hr, app_nil_r.
    - destruct (renewBatchUnlocked_ok _ _ _ Hi) as (s1 & E & ? & ? & ? & ? & ?). by exists s1. }
  rewrite (UR_CALL_ok _ _ _ _ E1). rewrite (UR_CALL_ok _ _ _ _ (eq_refl : update _ _ = _)).
  destruct Hi1 as [[] Hc], Hev. unfold ze. simpl.
  destruct (b_error (blog s1) BeginGraphCapture) as [e|] eqn:E; do 2 eexists; (split; [done|]);
    (split_and!; [split; [split|exact Hc]|split|..]; simpl; rewrite ?in_flight_snoc; try done).
  rewrite decide_False; [done|]. intros ->. by apply b_error_fails in E.
Qed.

Lemma end_capture_ok s issued others :
  inv s issued others →
  ∃ r s', queueEndGraphCapteExp s = (Ret r, s') ∧ inv s' issued others ∧ evolves (bm s) (bm s').
Proof.
  intros [[] Hc]. unfold queueEndGraphCapteExp, UR_CALL, ze.
  destruct (b_error (blog s) EndGraphCapture) as [e|] eqn:E.
  - rewrite decide_False by (intros ->; by apply b_error_fails in E).
    do 2 eexists. split; [done|]. split; [|done]. split; [split|exact Hc]; simpl; rewrite ?in_flight_snoc; done.
  - simpl. do 2 eexists. split; [done|]. split; [split; [split|exact Hc]|split]; simpl; rewrite ?in_flight_snoc; try done; lia.
Qed.

End facts.
End BatchedQueueFacts.

Module BatchedQueueProps.
Import BatchedQueue BatchedQueueFacts CommandListCacheFacts.

Section props.
Context `{ZeDriver, BatchDriver} (ZeDevice ordinal hQueue : Z).

(** A queue, the commands it accepted and the events it gave out. *)
Definition sys : Type := st * list cmd * list ur_event.

(** The operations of a queue of a program that enqueues no host task. *)
Inductive step : relation sys :=
  | step_request r n ws ph s issued evs res e s' :
      r ≠ REnqueueHostTaskExp →
      perform_request ZeDevice ordinal hQueue r n ws ph s = (res, e, s') →
      step (s, issued, evs)
        (if decide (res = Ret UR_RESULT_SUCCESS)
         then (s', accept (bm s) issued (request_cmd r n ws), option_list e ++ evs)
         else (s', issued, evs))
  | step_finish s issued evs r s' :
      queueFinish s = (r, s') → step (s, issued, evs) (s', issued, evs)
  | step_flush s issued evs r s' :
      queueFlush ZeDevice ordinal s = (r, s') → step (s, issued, evs) (s', issued, evs)
  | step_wait s issued evs e g r s' :
      e ∈ evs → ev_gen e = Some g →
      onEventWaitListUse ZeDevice ordinal g s = (r, s') → step (s, issued, evs) (s', issued, evs)
  | step_begin s issued evs r s' :
      queueBeginGraphCapteExp ZeDevice ordinal s = (r, s') → step (s, issued, evs) (s', issued, evs)
  | step_end s issued evs r s' :
      queueEndGraphCapteExp s = (r, s') → step (s, issued, evs) (s', issued, evs).

Section reliable.
Hypothesis (Hcontrol : ∀ log c, is_control c = true → b_error log c = None).
Hypothesis (Hlists : ∀ log c, ze_error log c = None).
Hypothesis (Hfresh : driver_fresh).

Definition sys_inv others (x : sys) : Prop :=
  inv x.1.1 x.1.2 others ∧ ∀ e, e ∈ x.2 → ev_queue e = hQueue ∧ event_ok (bm x.1.1) e.

Lemma sys_inv_leads others m s issued evs Q r s' :
  leads m s issued others Q → m s = (r, s') → sys_inv others (s, issued, evs) →
  sys_inv others (s', issued, evs).
Proof.
  intros (s1 & E & Hi & Hev & _) E' [_ He]. rewrite E in E'. injection E' as <- <-. split; [done|].
  intros e Hin. destruct (He e Hin). split; [done|]. by eapply event_ok_evolves.
Qed.

Lemma queueFinish_leads s issued others :
  inv s issued others → leads queueFinish s issued others (λ s', graphCaptureActive (bm s) = true → s' = s).
Proof.
  intros Hi. unfold queueFinish. destruct (graphCaptureActive (bm s)) eqn:Hg.
  - exists s. unfold queueFinishUnlocked, isGraphCaptureActive. by rewrite Hg.
  - by eapply leads_weaken, queueFinishUnlocked_ok.
Qed.

Lemma queueFlush_leads s issued others :
  inv s issued others →
  leads (queueFlush ZeDevice ordinal) s issued others (flushed issued).
Proof.
  intros Hi. pose proof Hi as [Hq _]. unfold leads, queueFlush, isGraphCaptureActive.
  destruct (graphCaptureActive (bm s)) eqn:Hg.
  { exists s. rewrite Hg. split_and!; try done. by apply flushed_capture. }
  destruct (isActiveBatchEmpty (bm s)) eqn:Ee.
  - exists s. split_and!; try done. pose proof (empty_batch _ _ Hq Ee) as Hr. split; [done|].
    destruct Hq. by rewrite <-qi_order0, Hr, app_nil_r.
  - destruct (renewBatchUnlocked_ok ZeDevice ordinal Hcontrol Hlists Hfresh _ _ _ Hi) as (s' & ?).
    exists s'. by rewrite <-Hg.
Qed.

Lemma sys_inv_step others x x' : sys_inv others x → step x x' → sys_inv others x'.
Proof.
  intros Hx Hs. destruct Hs as [r n ws ph s iss evs res e s' Hr E|s iss evs r s' E|s iss evs r s' E
    |s iss evs e g r s' Hin Eg E|s iss evs r s' E|s iss evs r s' E]; pose proof Hx as [Hi He]; simpl in Hi, He.
  - pose proof (perform_ok ZeDevice ordinal hQueue Hcontrol Hlists Hfresh r n ws ph s iss others Hr Hi) as Hp.
    rewrite E in Hp. destruct Hp as (Hev & _ & _ & Hres).
    assert (∀ e, e ∈ evs → ev_queue e = hQueue ∧ event_ok (bm s') e) as He'.
    { intros e' Hin. destruct (He e' Hin). split; [done|]. by eapply event_ok_evolves. }
    destruct res as [r'|x|]; [|by split|done]. destruct (decide (r' = UR_RESULT_SUCCESS)) as [->|Hne].
    + rewrite decide_True by done. destruct Hres as [Hi' Hnew]. split; [done|]. simpl.
      intros e' [Hin|Hin]%elem_of_app; [|by apply He']. destruct e as [e0|]; [|by apply not_elem_of_nil in Hin].
      apply list_elem_of_singleton in Hin as ->. destruct (Hnew e0 eq_refl) as (? & _ & ?). by split.
    + rewrite decide_False by congruence. by split.
  - eapply sys_inv_leads; [|exact E|exact Hx]. by apply queueFinish_leads.
  - eapply sys_inv_leads; [|exact E|exact Hx]. by apply queueFlush_leads.
  - eapply sys_inv_leads; [|exact E|exact Hx].
    apply (onEventWaitListUse_ok ZeDevice ordinal Hcontrol Hlists Hfresh); [done|by apply He|done].
  - destruct (begin_capture_ok ZeDevice ordinal Hcontrol Hlists Hfresh s iss others Hi)
      as (r1 & s1 & E1 & Hi1 & Hev & _). unfold queueBeginGraphCapteExp in E. rewrite E1 in E.
    injection E as <- <-. split; [done|]. intros e Hin. destruct (He e Hin). split; [done|]. by eapply event_ok_evolves.
  - destruct (end_capture_ok s iss others Hi) as (r1 & s1 & E1 & Hi1 & Hev). rewrite E1 in E.
    injection E as <- <-. split; [done|]. intros e Hin. destruct (He e Hin). split; [done|]. by eapply event_ok_evolves.
Qed.

(** A queue just made, over a cache that lends [others]. *)
Lemma make_batched_queue_inv prio idx c s c' others :
  cache_inv (λ _, True) c others →
  make_batched_queue ZeDevice ordinal true prio idx c = (Ret s, c') → sys_inv others (s, [], []).
Proof.
  intros Hc. unfold make_batched_queue.
  destruct (getRegularCommandList_ok ZeDevice ordinal Hlists Hfresh _ _ Hc) as (h & d & c1 & -> & Hc1).
  unfold getImmediateCommandList. set (k := Imm _).
  destruct (getCommandList k c1) as [r c2] eqn:E.
  pose proof (getCommandList_inv (λ _, True) k c1 _ r c2 Hfresh I Hc1 E) as Hi.
  destruct r as [h'|x|]; simpl; [|done|done]. intros [= <- _]. split; [|by intros e ?%not_elem_of_nil].
  split; [split|]; simpl; try done; try (unfold maxNumberOfEnqueuedOperations, initialSlotsForBatches; lia).
  eapply cache_inv_perm; [|exact Hi]. apply perm_swap.
Qed.

(** The states of a queue made over a cache that lends [others]. *)
Definition reachable others (x : sys) : Prop :=
  ∃ prio idx c s c', cache_inv (λ _, True) c others ∧
    make_batched_queue ZeDevice ordinal true prio idx c = (Ret s, c') ∧ rtc step (s, [], []) x.

Lemma queue_reachable_inv others x : reachable others x → sys_inv others x.
Proof.
  intros (prio & idx & c & s & c' & Hc & Hm & Hs).
  eapply (rtc_invariant step (sys_inv others)); [apply sys_inv_step|exact Hs|by eapply make_batched_queue_inv].
Qed.

(** C1: a batched queue keeps the order, for programs that enqueue no host task
    (host tasks are not counted and can be overtaken, [host_task_overtaken]) and
    drivers on which no control call fails (creating, closing, submitting,
    resetting and synchronizing lists, releasing kernels, cleaning pools up;
    [renew_failure_resubmits] shows what such a failure does) and which return no
    handle they still own; appending a command to a list, creating an event and
    beginning or ending a capture may fail at any time.  What the immediate list
    was given, followed by what the active batch has recorded, is the sequence
    of the accepted commands, whatever enqueues, flushes, waits and graph
    captures happened; the active batch is open, holds at most 120 counted
    operations and at most 10 submitted batches are kept. *)
Theorem batched_in_order others s issued evs :
  reachable others (s, issued, evs) →
  submitted (bm s) ++ recorded (activeBatch (bm s)) = issued ∧
  closed (activeBatch (bm s)) = false ∧
  0 ≤ enqueuedOperationsCounter (bm s) ≤ maxNumberOfEnqueuedOperations ∧
  Z.of_nat (length (runBatches (bm s))) ≤ initialSlotsForBatches ∧
  (isActiveBatchEmpty (bm s) = true → recorded (activeBatch (bm s)) = []).
Proof.
  intros [[Hq _] _]%queue_reachable_inv. pose proof (empty_batch _ _ Hq). by destruct Hq.
Qed.

(** C21: [queueFinish] succeeds and runs everything, under the conditions of
    [batched_in_order]: no host task was enqueued (one that was may never be
    submitted, [host_task_overtaken]) and no control call of the driver fails.
    All accepted commands are submitted and completed, the batch is empty and
    every list but the active and the immediate one is back in the cache; while
    a graph is captured it changes nothing. *)
Theorem queueFinish_completes others s issued evs :
  reachable others (s, issued, evs) →
  ∃ s', queueFinish s = (Ret UR_RESULT_SUCCESS, s') ∧
    if isGraphCaptureActive (bm s) then s' = s else
    submitted (bm s') = issued ∧ completed (bm s') = length issued ∧
    isActiveBatchEmpty (bm s') = true ∧ recorded (activeBatch (bm s')) = [] ∧
    in_flight (blog s') = [] ∧ (live (zelog (cache s'))).*1 ≡ₚ
      cached (ZeCommandListCache (cache s')) ++
      [zeCommandList (activeBatch (bm s')); (immediateList (bm s')).1] ++ others.*1.
Proof.
  intros [Hi _]%queue_reachable_inv. simpl in Hi. unfold isGraphCaptureActive, queueFinish.
  destruct (graphCaptureActive (bm s)) eqn:Hg.
  { exists s. unfold queueFinishUnlocked, isGraphCaptureActive. by rewrite Hg. }
  destruct (queueFinishUnlocked_ok Hcontrol _ _ _ Hi Hg)
    as (s' & E & [_ Hc] & _ & _ & _ & [Hr Hcm Hn Hrun Hfl] & Hs).
  exists s'. split; [done|]. unfold isActiveBatchEmpty. rewrite Hcm, Hs, Hn. split_and!; try done.
  rewrite (ci_owned _ _ _ Hc). unfold lent. by rewrite Hrun.
Qed.

(** waiting for an event of the queue from elsewhere is safe: after
    [onEventWaitListUse] the command that signals it has been submitted (or
    recorded in a captured graph), so the wait ends without further calls on
    the queue; an event without generation needs none. *)
Theorem event_wait_submits others s issued evs e :
  reachable others (s, issued, evs) → e ∈ evs →
  match ev_gen e with
  | Some g => ∃ s', onEventWaitListUse ZeDevice ordinal g s = (Ret UR_RESULT_SUCCESS, s') ∧
      ev_cmd e ∈ ids (submitted (bm s') ++ captured (bm s'))
  | None => ev_cmd e ∈ ids (submitted (bm s) ++ captured (bm s))
  end.
Proof.
  intros [Hi He]%queue_reachable_inv Hin. simpl in Hi, He. destruct (He e Hin) as [_ Hok].
  destruct (ev_gen e) as [g|] eqn:Eg.
  - destruct (onEventWaitListUse_ok ZeDevice ordinal Hcontrol Hlists Hfresh _ _ _ _ Hi Hok g Eg)
      as (s' & E & _ & _ & _ & _ & Hs). by exists s'.
  - destruct Hok as [?|[? _]]; [done|congruence].
Qed.

(** C22: under the conditions of [batched_in_order], no host task and no control
    call that fails ([renew_failure_resubmits]: a submitted list whose successor
    cannot be had stays the one recorded to), a regular list that the driver may
    still be executing is one of the kept batches: it is not the list being
    recorded, it is not in the cache, where it could be reset and lent again,
    and the driver still owns it. *)
Theorem in_flight_retained others s issued evs h :
  reachable others (s, issued, evs) → h ∈ in_flight (blog s) →
  h ∈ zeCommandList <$> runBatches (bm s) ∧ h ≠ zeCommandList (activeBatch (bm s)) ∧
  h ∉ cached (ZeCommandListCache (cache s)) ∧ h ∈ (live (zelog (cache s))).*1.
Proof.
  intros [[Hq Hc] _]%queue_reachable_inv Hh. simpl in Hq, Hc. apply (qi_flight _ _ Hq) in Hh.
  pose proof (ci_nodup _ _ _ Hc) as Hn. rewrite (ci_owned _ _ _ Hc) in Hn |- *.
  unfold lent in *. rewrite fmap_app, !fmap_cons, <-list_fmap_compose in *. simpl in *.
  change (zeCommandList <$> runBatches (bm s)) with ((fst ∘ as_lent) <$> runBatches (bm s)) in Hh.
  apply NoDup_app in Hn as (_ & Hd & Hn). rewrite !NoDup_cons in Hn. destruct Hn as (Ha & _ & _).
  split_and!; [done| | |].
  - intros ->. apply Ha. right. apply elem_of_app. by left.
  - intros Hin. apply (Hd _ Hin). do 2 right. apply elem_of_app. by left.
  - apply elem_of_app. right. do 2 right. apply elem_of_app. by left.
Qed.

(** a graph capture that the driver refuses leaves the queue in capture
    mode: from then on a blocking read succeeds without its command having
    completed, and [queueFinish] succeeds without waiting for it. *)
Theorem failed_capture_disables_finish others s issued evs r s' n ws :
  reachable others (s, issued, evs) → capturing (bm s) = false →
  queueBeginGraphCapteExp ZeDevice ordinal s = (Ret r, s') → r ≠ UR_RESULT_SUCCESS →
  let c := mk MemBufferRead n ws in
  b_error (blog s') (Append true c) = None →
  ∃ s'', enqueueMemBufferRead hQueue true n ws false s' = (Ret UR_RESULT_SUCCESS, None, s'') ∧
    submitted (bm s'') = issued ++ [c] ∧ completed (bm s'') = completed (bm s') ∧
    queueFinish s'' = (Ret UR_RESULT_SUCCESS, s'').
Proof.
  intros [Hi _]%queue_reachable_inv Hc E Hr c Ha. simpl in Hi.
  destruct (begin_capture_ok ZeDevice ordinal Hcontrol Hlists Hfresh s issued others Hi)
    as (r1 & s1 & E1 & Hi1 & _ & Hg & Hcp & Hfl & Hs).
  unfold queueBeginGraphCapteExp in E. rewrite E1 in E. injection E as <- <-.
  rewrite decide_False, Hc in Hcp by done. unfold enqueueMemBufferRead, enqueue_blocking, enqueue.
  unfold markIssuedCommandInBatch, isGraphCaptureActive. rewrite Hg. simpl.
  unfold with_event, getEvent, isGraphCaptureActive. rewrite Hg. unfold UR_CALL at 1, append, isGraphCaptureActive.
  rewrite Hg. unfold ze. fold c. rewrite Ha. simpl. unfold when, queueFinish, queueFinishUnlocked, isGraphCaptureActive.
  simpl. rewrite Hg. eexists. split; [done|]. simpl. by rewrite Hcp, Hs, Hg.
Qed.

(** host tasks are recorded but not counted: after a host task on an idle
    queue a command buffer is submitted before it, and [queueFinish] returns
    success with the host task never submitted. *)
Theorem host_task_overtaken others s issued evs n m :
  (∀ log c, b_error log c = None) → reachable others (s, issued, evs) →
  isGraphCaptureActive (bm s) = false → isActiveBatchEmpty (bm s) = true →
  ∃ s1 s2 s3,
    perform_request ZeDevice ordinal hQueue REnqueueHostTaskExp n [] false s = (Ret UR_RESULT_SUCCESS, None, s1) ∧
    perform_request ZeDevice ordinal hQueue REnqueueCommandBufferExp m [] false s1 = (Ret UR_RESULT_SUCCESS, None, s2) ∧
    queueFinish s2 = (Ret UR_RESULT_SUCCESS, s3) ∧
    submitted (bm s3) = issued ++ [mk CommandBuffer m []] ∧ completed (bm s3) = length (submitted (bm s3)) ∧
    recorded (activeBatch (bm s3)) = [mk HostTask n []].
Proof.
  intros Hall [[Hq _] _]%queue_reachable_inv Hg Ee. simpl in Hq. unfold isGraphCaptureActive in Hg.
  pose proof (empty_batch _ _ Hq Ee) as Hr. pose proof (capturing_false _ _ Hq Hg) as Hc. destruct Hq.
  rewrite Hr, app_nil_r in qi_order0.
  assert (∀ c f s, ze c f s = (Ret UR_RESULT_SUCCESS, set_bm f (log c s))) as Hze.
  { intros c f s0. unfold ze. by rewrite Hall. }
  eexists _, _, _. simpl. unfold enqueueHostTaskExp, with_event, getEvent, append, isGraphCaptureActive.
  rewrite Hg. simpl. rewrite Hg, qi_open0, Hze. split; [done|].
  unfold isActiveBatchEmpty in Ee. unfold enqueueCommandBufferExp, flush_before, when, isActiveBatchEmpty.
  simpl. rewrite Ee. simpl. unfold append_immediate, allocate_event. rewrite Hall, Hze. split; [done|].
  unfold queueFinish, queueFinishUnlocked, isGraphCaptureActive. simpl. rewrite Hg.
  unfold UR_CALL, when, isActiveBatchEmpty. simpl. rewrite Ee. simpl. unfold hostSynchronize, queueFinishPoolsUnlocked.
  rewrite Hze. simpl. rewrite Hze. simpl. unfold batchFinish, UR_CALL. rewrite Hze. simpl.
  unfold when, isActiveBatchEmpty. simpl. rewrite Ee. simpl. split; [done|]. simpl.
  rewrite Hc, Hr, qi_order0. by split_and!.
Qed.

Lemma step_ok r n ws ph s issued evs :
  r ≠ REnqueueHostTaskExp →
  let x := perform_request ZeDevice ordinal hQueue r n ws ph s in
  x.1.1 = Ret UR_RESULT_SUCCESS →
  step (s, issued, evs) (x.2, accept (bm s) issued (request_cmd r n ws), option_list x.1.2 ++ evs).
Proof.
  intros Hr x Hx. pose proof (step_request r n ws ph s issued evs x.1.1 x.1.2 x.2 Hr) as Hs.
  rewrite decide_True in Hs by done. apply Hs. unfold x; by destruct (perform_request _ _ _ _ _ _ _ _) as [[??]?].
Qed.

End reliable.

(** when the batch has been submitted but no list can be had for the next
    one, the closed batch stays the active one: the call throws, and the next
    [queueFinish] runs the commands of the batch a second time. *)
Theorem renew_failure_resubmits s issued e c' :
  (∀ log c, is_control c = true → b_error log c = None) →
  q_inv s issued → isGraphCaptureActive (bm s) = false → isActiveBatchEmpty (bm s) = false →
  isLimitOfUsedCommandListsReached (bm s) = false →
  getRegularCommandList ZeDevice (regularCmdListDesc ordinal) (cache s) = (Throw e, c') →
  ∃ s1 s2, renewBatchUnlocked ZeDevice ordinal s = (Throw e, s1) ∧
    queueFinish s1 = (Ret UR_RESULT_SUCCESS, s2) ∧
    submitted (bm s2) = issued ++ recorded (activeBatch (bm s)).
Proof.
  intros Hctl Hq Hg Ee El Hget. pose proof (capturing_false _ _ Hq Hg) as Hc. destruct Hq.
  unfold isGraphCaptureActive, isActiveBatchEmpty in *.
  assert (∀ c f s, is_control c = true → ze c f s = (Ret UR_RESULT_SUCCESS, set_bm f (log c s))) as Hze
    by (intros; by apply ze_control).
  eexists _, _. unfold renewBatchUnlocked. rewrite El, (UR_CALL_ok _ _ _ _ (enqueueCurrentBatch_eq Hctl s)).
  unfold getNewRegularCmdList. simpl. rewrite Hget. simpl. split; [done|].
  unfold queueFinish, queueFinishUnlocked, isGraphCaptureActive. simpl. rewrite Hg.
  unfold UR_CALL, when, isActiveBatchEmpty. simpl. rewrite Ee. cbn [negb].
  rewrite enqueueCurrentBatch_eq by done. simpl.
  unfold hostSynchronize, queueFinishPoolsUnlocked. rewrite Hze by done. simpl. rewrite Hze by done. simpl.
  unfold batchFinish, UR_CALL. rewrite Hze by done. simpl. unfold when, isActiveBatchEmpty. simpl. rewrite Ee. simpl.
  rewrite Hze by done. simpl. split; [done|]. simpl. by rewrite Hc, qi_order0.
Qed.
End props.

(** ** Witnesses: a driver that never fails, and one that refuses graph capture. *)
#[local] Instance steady_driver : BatchDriver := {|
  b_error := λ _ _, None; b_event := λ log, Z.of_nat (length log);
  b_poll := λ _, PollSuccess; b_error_fails := λ _ _, ltac:(done) |}.
#[local] Instance lists : ZeDriver := CommandListCacheProps.counting_driver.

Definition empty_queue : st :=
  {| bm := make_batch_manager
       (0, Reg {| reg_ZeDevice := 7; reg_IsInOrder := true; reg_Ordinal := 0; reg_CopyOffloadEnabled := true;
                  reg_Mutable := false |})
       (1, Imm {| imm_ZeDevice := 7; imm_IsInOrder := true; imm_Ordinal := 0; imm_CopyOffloadEnabled := true;
                  imm_Mode := ZE_COMMAND_QUEUE_MODE_ASYNCHRONOUS; imm_Priority := 0; imm_Index := None |});
     cache := (make_batched_queue 7 0 true 0 None CommandListCacheProps.empty_cache).2; blog := [] |}.

Lemma empty_cache_inv : cache_inv (λ _, True) CommandListCacheProps.empty_cache [].
Proof. split; [done|apply NoDup_nil_2|constructor|..]; by intros ??? ?%not_elem_of_nil || intros ?? ?%not_elem_of_nil. Qed.

Lemma empty_queue_made :
  make_batched_queue 7 0 true 0 None CommandListCacheProps.empty_cache = (Ret empty_queue, cache empty_queue).
Proof. reflexivity. Qed.

Lemma reachable_rtc x : rtc (step 7 0 1) (empty_queue, [], []) x → reachable 7 0 1 [] x.
Proof.
  intros Hx. exists 0, None, CommandListCacheProps.empty_cache, empty_queue, (cache empty_queue).
  split; [apply empty_cache_inv|]. split; [apply empty_queue_made|exact Hx].
Qed.

(** A kernel launch with an event, then a barrier, which submits both. *)
Definition after_kernel : outcome ur_result_t * option ur_event * st :=
  perform_request 7 0 1 REnqueueKernelLaunchWithArgsExp 10 [] true empty_queue.
Definition after_wait : outcome ur_result_t * option ur_event * st :=
  perform_request 7 0 1 REnqueueEventsWait 11 [10] true after_kernel.2.

Lemma kernel_reachable :
  reachable 7 0 1 [] (after_kernel.2, [mk KernelLaunchWithArgs 10 []],
    [{| ev_id := 0; ev_queue := 1; ev_gen := Some 0; ev_cmd := 10 |}]).
Proof.
  apply reachable_rtc, rtc_once. refine (step_ok 7 0 1 REnqueueKernelLaunchWithArgsExp 10 [] true empty_queue [] [] _ _);
    [done|by vm_compute].
Qed.
Lemma wait_reachable :
  reachable 7 0 1 [] (after_wait.2, [mk KernelLaunchWithArgs 10 []; mk EventsWait 11 [10]],
    [{| ev_id := 2; ev_queue := 1; ev_gen := Some 0; ev_cmd := 11 |};
     {| ev_id := 0; ev_queue := 1; ev_gen := Some 0; ev_cmd := 10 |}]).
Proof.
  apply reachable_rtc. eapply rtc_l.
  - refine (step_ok 7 0 1 REnqueueKernelLaunchWithArgsExp 10 [] true empty_queue [] [] _ _); [done|by vm_compute].
  - apply rtc_once. refine (step_ok 7 0 1 REnqueueEventsWait 11 [10] true after_kernel.2 [_] [_] _ _); [done|by vm_compute].
Qed.

Lemma steady_control log c : is_control c = true → b_error log c = None.
Proof. done. Qed.
Lemma lists_ok log c : ze_error log c = None.
Proof. done. Qed.

Lemma batched_in_order_witness :
  reachable 7 0 1 [] (after_wait.2, [mk KernelLaunchWithArgs 10 []; mk EventsWait 11 [10]],
    [{| ev_id := 2; ev_queue := 1; ev_gen := Some 0; ev_cmd := 11 |};
     {| ev_id := 0; ev_queue := 1; ev_gen := Some 0; ev_cmd := 10 |}]) ∧
  closed (activeBatch (bm after_wait.2)) = false.
Proof.
  split; [exact wait_reachable|].
  by destruct (batched_in_order 7 0 1 steady_control lists_ok CommandListCacheProps.counting_driver_fresh
    _ _ _ _ wait_reachable) as (_ & ? & _).
Defined.

Lemma queueFinish_completes_witness :
  ∃ s', queueFinish after_kernel.2 = (Ret UR_RESULT_SUCCESS, s') ∧ completed (bm s') = 1%nat.
Proof.
  destruct (queueFinish_completes 7 0 1 steady_control lists_ok CommandListCacheProps.counting_driver_fresh
    _ _ _ _ kernel_reachable) as (s' & E & Hs).
  exists s'. split; [exact E|]. exact (proj1 (proj2 Hs)).
Defined.

Lemma event_wait_submits_witness :
  ∃ s', onEventWaitListUse 7 0 0 after_kernel.2 = (Ret UR_RESULT_SUCCESS, s') ∧
    10 ∈ ids (submitted (bm s') ++ captured (bm s')).
Proof.
  apply (event_wait_submits 7 0 1 steady_control lists_ok CommandListCacheProps.counting_driver_fresh
    _ _ _ _ _ kernel_reachable (list_elem_of_here _ _)).
Defined.

Lemma in_flight_retained_witness :
  in_flight (blog after_wait.2) = [0] ∧ 0 ∉ cached (ZeCommandListCache (cache after_wait.2)).
Proof.
  split; [by vm_compute|].
  apply (in_flight_retained 7 0 1 steady_control lists_ok CommandListCacheProps.counting_driver_fresh
    _ _ _ _ 0 wait_reachable). apply (list_elem_of_here 0 []).
Defined.

Lemma host_task_overtaken_witness :
  ∃ s1 s2 s3,
    perform_request 7 0 1 REnqueueHostTaskExp 20 [] false after_wait.2 = (Ret UR_RESULT_SUCCESS, None, s1) ∧
    perform_request 7 0 1 REnqueueCommandBufferExp 21 [] false s1 = (Ret UR_RESULT_SUCCESS, None, s2) ∧
    queueFinish s2 = (Ret UR_RESULT_SUCCESS, s3) ∧
    recorded (activeBatch (bm s3)) = [mk HostTask 20 []].
Proof.
  destruct (host_task_overtaken 7 0 1 steady_control lists_ok CommandListCacheProps.counting_driver_fresh
    _ _ _ _ 20 21 (λ _ _, eq_refl) wait_reachable) as (s1 & s2 & s3 & E1 & E2 & E3 & _ & _ & Hr);
    [by vm_compute|by vm_compute|].
  by exists s1, s2, s3.
Defined.

Definition full_lists : ZeDriver := {|
  ze_error := λ log _, if (2 <=? length log)%nat then Some UR_RESULT_ERROR_OUT_OF_DEVICE_MEMORY else None;
  ze_new_handle := λ log, Z.of_nat (length log); std_hash := λ x, x; std_hash_optional := λ o, default 0 o;
  same_bucket := λ _, Z.eqb; same_bucket_refl := λ _, Z.eqb_refl;
  ForceDisableCopyOffload := false; supported := @supported lists |}.

Lemma renew_failure_resubmits_witness :
  ∃ s1 s2, @renewBatchUnlocked full_lists steady_driver 7 0 after_kernel.2 =
      (Throw (exn_ur_result UR_RESULT_ERROR_OUT_OF_DEVICE_MEMORY), s1) ∧
    @queueFinish full_lists steady_driver s1 = (Ret UR_RESULT_SUCCESS, s2) ∧
    submitted (bm s2) = [mk KernelLaunchWithArgs 10 []] ++ [mk KernelLaunchWithArgs 10 []].
Proof.
  eapply (@renew_failure_resubmits full_lists steady_driver 7 0 after_kernel.2
    [mk KernelLaunchWithArgs 10 []]); by vm_compute.
Defined.

(** Without the graph extension the driver's capture functions are unsupported. *)
Definition no_graph_driver : BatchDriver := {|
  b_error := λ _ c, match c with BeginGraphCapture | EndGraphCapture => Some UR_RESULT_ERROR_UNSUPPORTED_FEATURE
                               | _ => None end;
  b_event := λ log, Z.of_nat (length log); b_poll := λ _, PollSuccess;
  b_error_fails := λ log c, match c with
    | BeginGraphCapture | EndGraphCapture => ltac:(done) | _ => ltac:(done) end |}.

Lemma failed_capture_disables_finish_witness :
  ∃ s1 s2, @queueBeginGraphCapteExp lists no_graph_driver 7 0 empty_queue =
      (Ret UR_RESULT_ERROR_UNSUPPORTED_FEATURE, s1) ∧
    @enqueueMemBufferRead lists no_graph_driver 1 true 30 [] false s1 = (Ret UR_RESULT_SUCCESS, None, s2) ∧
    completed (bm s2) = 0%nat ∧ length (submitted (bm s2)) = 1%nat ∧
    @queueFinish lists no_graph_driver s2 = (Ret UR_RESULT_SUCCESS, s2).
Proof.
  eexists. destruct (@failed_capture_disables_finish lists no_graph_driver 7 0 1) with
    (others := @nil (Z * command_list_descriptor_t)) (s := empty_queue) (issued := @nil cmd) (evs := @nil ur_event)
    (r := UR_RESULT_ERROR_UNSUPPORTED_FEATURE) (n := 30) (ws := @nil Z)
    (s' := (@queueBeginGraphCapteExp lists no_graph_driver 7 0 empty_queue).2)
    as (s2 & E & Hs & Hc & Hf); try done.
  - by intros log [].
  - exact CommandListCacheProps.counting_driver_fresh.
  - exists 0, None, CommandListCacheProps.empty_cache, empty_queue, (cache empty_queue).
    split; [apply empty_cache_inv|]. split; [apply empty_queue_made|apply rtc_refl].
  - exists s2. split; [by vm_compute|]. split; [exact E|]. rewrite Hs, Hc. by split_and!.
Defined.

End BatchedQueueProps.
