(* ===== verification/BatchedWaiting.v ===== *)
(** * Batched queues that wait for each other
    ([wait_list_view] of adapters/level_zero/v2/command_list_manager.cpp,
    [onWaitListUse] and [urEventWait] of event.cpp)

    Several batched queues of one context, which share its command list cache.
    Building a wait list first submits the batches of the other queues that the
    events belong to.  The main theorem is that the commands given to the driver
    never wait in a circle or for a command that was not submitted. *)
From stdpp Require Import base numbers list gmap relations sorting.
From S2P Require Import Prelude CommandListCache BatchedQueue.
Local Open Scope Z_scope.

Record world := {
  queues : gmap Z (batch_manager * list bcall);
  wcache : CommandListCache.state }.

Module Waiting.
Import BatchedQueue.

(** A queue with the cache of the context, and its state put back. *)
Definition load (i : Z) (w : world) : option st :=
  '(b, l) ← queues w !! i; Some {| bm := b; cache := wcache w; blog := l |}.
Definition store (i : Z) (s : st) (w : world) : world :=
  {| queues := <[i := (bm s, blog s)]> (queues w); wcache := cache s |}.

Section waiting.
Context `{ZeDriver, BatchDriver} (ZeDevice ordinal : Z → Z).
Context (zeEventHostSynchronize : world → ur_event → option ur_result_t).

Definition on (i : Z) (m : prog) (w : world) : outcome ur_result_t * world :=
  match load i w with
  | Some s => let '(r, s') := m s in (r, store i s' w)
  | None => (Undefined, w)
  end.

(** [ur_event_handle_t_::onWaitListUse] *)
Definition onWaitListUse (e : ur_event) (w : world) : outcome ur_result_t * world :=
  match ev_gen e with
  | Some g => on (ev_queue e) (onEventWaitListUse (ZeDevice (ev_queue e)) (ordinal (ev_queue e)) g) w
  | None => (Ret UR_RESULT_SUCCESS, w)
  end.

(** [getZeHandlesBuffer<true>]: the result code of [onWaitListUse] is ignored;
    what the driver is given for an event is the command that signals it. *)
Fixpoint getZeHandlesBuffer (currentBatchedQueue : Z) (phWaitEvents : list ur_event) (w : world)
    : outcome (list Z) * world :=
  match phWaitEvents with
  | [] => (Ret [], w)
  | e :: es =>
      match (if decide (currentBatchedQueue ≠ ev_queue e) then onWaitListUse e w
             else (Ret UR_RESULT_SUCCESS, w)) with
      | (Ret _, w) =>
          let '(r, w) := getZeHandlesBuffer currentBatchedQueue es w in ((cons (ev_cmd e)) <$> r, w)
      | (Throw x, w) => (Throw x, w)
      | (Undefined, w) => (Undefined, w)
      end
  end.

(** An enqueue function of queue [i] called with a wait list. *)
Definition enqueue_on (i : Z) (r : request) (n : Z) (phEventWaitList : list ur_event) (phEvent : bool)
    (w : world) : outcome ur_result_t * option ur_event * world :=
  match getZeHandlesBuffer i phEventWaitList w with
  | (Ret waits, w) =>
      match load i w with
      | Some s => let '(res, e, s') := perform_request (ZeDevice i) (ordinal i) i r n waits phEvent s in
          (res, e, store i s' w)
      | None => (Undefined, None, w)
      end
  | (Throw x, w) => (Throw x, None, w)
  | (Undefined, w) => (Undefined, None, w)
  end.

Fixpoint urEventWait (phEventWaitList : list ur_event) (w : world) : outcome ur_result_t * world :=
  match phEventWaitList with
  | [] => (Ret UR_RESULT_SUCCESS, w)
  | e :: es =>
      match onWaitListUse e w with
      | (Ret _, w) =>
          match zeEventHostSynchronize w e with
          | Some r => (Ret r, w)
          | None => urEventWait es w
          end
      | x => x
      end
  end.
End waiting.
End Waiting.

Module WaitingFacts.
Import CommandListCache BatchedQueue BatchedQueueFacts CommandListCacheFacts Waiting.

(** ** Queues that do not capture leave the captured commands alone *)
Definition keeps (b b' : batch_manager) : Prop :=
  capturing b = false → capturing b' = false ∧ captured b' = captured b.
#[export] Instance keeps_preorder : PreOrder keeps.
Proof. split; unfold keeps; [done|]. intros b1 b2 b3 H1 H2 Hb. destruct (H1 Hb). destruct H2; [done|]. split; congruence. Qed.

Definition frame (m : prog) : Prop := ∀ s, keeps (bm s) (bm (m s).2).
Definition eframe (m : eprog) : Prop := ∀ s, keeps (bm s) (bm (m s).2).

Create HintDb frame.

Section frames.
Context `{ZeDriver, BatchDriver} (ZeDevice ordinal hQueue : Z).

Lemma frame_done : frame done.
Proof. by intros s. Qed.
Lemma frame_UR_CALL m k : frame m → frame k → frame (UR_CALL m k).
Proof.
  intros Hm Hk s. unfold UR_CALL. specialize (Hm s). destruct (m s) as [[r| |] s1]; simpl in *; try done.
  case_decide; [|done]. etrans; [exact Hm|apply Hk].
Qed.
Lemma frame_if (b : st → bool) m k : frame m → frame k → frame (λ s, if b s then m s else k s).
Proof. intros Hm Hk s. destruct (b s); auto. Qed.
Lemma frame_when b m : frame m → frame (when b m).
Proof. intros Hm. by apply frame_if. Qed.
Lemma frame_local (m : st → prog) : (∀ t, frame (m t)) → frame (λ s, m s s).
Proof. intros Hm s. apply Hm. Qed.
Lemma frame_ze c f : (∀ b, keeps b (f b)) → frame (ze c f).
Proof. intros Hf s. unfold ze. destruct (b_error _ _); simpl; [done|apply Hf]. Qed.
Lemma frame_update f : (∀ b, keeps b (f b)) → frame (update f).
Proof. intros Hf s. apply Hf. Qed.
Lemma keeps_imm cs b : keeps b (imm_append cs b).
Proof. intros Hb. simpl. by rewrite Hb. Qed.
Lemma frame_clear : frame clear_run.
Proof. by intros s. Qed.
End frames.
#[export] Hint Resolve frame_done frame_UR_CALL frame_if frame_when frame_ze frame_update keeps_imm frame_clear : frame.
#[export] Hint Extern 2 (keeps _ _) => by intros ? : frame.

Section queue_frames.
Context `{ZeDriver, BatchDriver} (ZeDevice ordinal hQueue : Z).

Lemma frame_enqueueCurrent : frame enqueueCurrentBatchUnlocked.
Proof. apply (frame_local (λ t, UR_CALL _ _)). auto with frame. Qed.
Lemma frame_batchFinish : frame batchFinish.
Proof.
  unfold batchFinish. apply frame_UR_CALL; [auto with frame|]. apply frame_UR_CALL; [|auto with frame].
  apply frame_when, (frame_local (λ t, UR_CALL _ _)). auto with frame.
Qed.
#[local] Hint Resolve frame_enqueueCurrent frame_batchFinish : frame.
Lemma frame_finish : frame queueFinishUnlocked.
Proof.
  apply (frame_if (λ s, isGraphCaptureActive (bm s)) done); [auto with frame|].
  unfold hostSynchronize, queueFinishPoolsUnlocked. auto 10 with frame.
Qed.
#[local] Hint Resolve frame_finish : frame.
Lemma frame_renew : frame (renewBatchUnlocked ZeDevice ordinal).
Proof.
  apply (frame_if (λ s, isLimitOfUsedCommandListsReached (bm s))); [auto with frame|].
  apply frame_UR_CALL; [auto with frame|]. intros s. unfold getNewRegularCmdList.
  destruct (getRegularCommandList _ _ _) as [[p|e|] c]; simpl; by intros ?.
Qed.
Lemma frame_mark : frame markIssuedCommandInBatch.
Proof. apply (frame_if (λ s, isGraphCaptureActive (bm s)) done); auto 10 with frame. Qed.
#[local] Hint Resolve frame_renew frame_mark : frame.
Lemma frame_append c : frame (append c).
Proof.
  apply (frame_if (λ s, isGraphCaptureActive (bm s))); [auto with frame|].
  apply (frame_if (λ s, closed (activeBatch (bm s))) (λ s, (Undefined, s))); [by intros s|auto with frame].
Qed.
#[local] Hint Resolve frame_append : frame.

Lemma eframe_with_event get k :
  (∀ s, bm (get s).2 = bm s) → frame k → eframe (with_event get k).
Proof.
  intros Hg Hk s. unfold with_event. specialize (Hg s). destruct (get s) as [[e|x|] s1]; simpl in *; rewrite <-Hg; try done.
  specialize (Hk s1). by destruct (k s1).
Qed.
Lemma getEvent_bm ph c s : bm (getEvent hQueue ph c s).2 = bm s.
Proof.
  unfold getEvent, createEventIfRequestedRegular, allocate_event.
  destruct (isGraphCaptureActive (bm s)), ph; try done; by destruct (b_error (blog s) _).
Qed.
Lemma eframe_marked get k :
  (∀ s, bm (get s).2 = bm s) → frame k →
  eframe (λ s, match markIssuedCommandInBatch s with
               | (Ret _, s) => with_event get k s | (x, s) => (x, None, s) end).
Proof.
  intros Hg Hk s. pose proof (frame_mark s) as Hm. destruct (markIssuedCommandInBatch s) as [[r| |] s1]; simpl in *; try done.
  etrans; [exact Hm|]. by apply eframe_with_event.
Qed.
Lemma eframe_enqueue after c ph : frame after → eframe (enqueue hQueue after c ph).
Proof. intros Ha. apply eframe_marked; [apply getEvent_bm|auto with frame]. Qed.
Lemma eframe_flush k : eframe k → eframe (flush_before ZeDevice ordinal k).
Proof.
  intros Hk s. unfold flush_before.
  pose proof (frame_when (λ s, negb (isActiveBatchEmpty (bm s))) _ frame_renew s) as Hr.
  destruct (when _ _ s) as [[r| |] s1]; simpl in *; try done. case_decide; [|done]. etrans; [exact Hr|apply Hk].
Qed.
Lemma eframe_immediate c ph : eframe (append_immediate hQueue c ph).
Proof.
  intros s. unfold append_immediate, allocate_event. destruct (b_error _ _); simpl; [done|].
  set (s1 := log _ _). pose proof (frame_ze (Append true c) (imm_append [c]) (keeps_imm [c]) s1) as Hz.
  by destruct (ze _ _ s1).
Qed.

Lemma eframe_perform r n ws ph : eframe (perform_request ZeDevice ordinal hQueue r n ws ph).
Proof.
  assert (∀ p n ws ph, eframe (enqueueEventsWaitWithBarrierExt ZeDevice ordinal hQueue p n ws ph)) as Hext.
  { intros p n' ws' ph' s. unfold enqueueEventsWaitWithBarrierExt.
    destruct (if ph' is OldEvent _ false then true else false); [done|].
    apply eframe_marked; [|auto with frame]. intros s'. destruct ph'; try apply getEvent_bm. done. }
  destruct r; simpl; try (apply eframe_enqueue; auto with frame); try apply Hext.
  - apply eframe_flush, eframe_immediate.
  - apply eframe_flush, eframe_immediate.
  - apply eframe_with_event; [apply getEvent_bm|auto with frame].
Qed.
End queue_frames.
End WaitingFacts.

Module WaitingProps.
Import CommandListCache BatchedQueue BatchedQueueFacts CommandListCacheFacts Waiting WaitingFacts.

(** The commands a queue accepted. *)
Definition issued (b : batch_manager) : list cmd := submitted b ++ recorded (activeBatch b).
(** The lists lent to the queues of a context. *)
Definition lents (m : gmap Z (batch_manager * list bcall)) : list (Z * command_list_descriptor_t) :=
  map_to_list m ≫= λ p, lent p.2.1.

Lemma lents_delete m i x : m !! i = Some x → lents m ≡ₚ lent x.1 ++ lents (delete i m).
Proof.
  intros Hi. unfold lents. rewrite <-(insert_delete_id m i x) at 1 by done.
  by rewrite map_to_list_insert by apply lookup_delete_eq.
Qed.
Lemma lents_insert m i x : lents (<[i := x]> m) ≡ₚ lent x.1 ++ lents (delete i m).
Proof. rewrite (lents_delete _ i x) by apply lookup_insert_eq. by rewrite delete_insert_eq. Qed.

(** What a command waits for has been submitted, or was accepted before it by
    the same queue. *)
Definition waits_ok (w : world) (i : Z) (b : batch_manager) (c : cmd) : Prop :=
  ∀ x, x ∈ cmd_waits c → x < cmd_id c ∧
    (x ∈ ids (issued b) ∨ ∃ j b' l, queues w !! j = Some (b', l) ∧ x ∈ ids (submitted b')).

(** One queue of the world. *)
Record queue_ok (w : world) (next i : Z) (b : batch_manager) (l : list bcall) : Prop := {
  qo_inv : q_inv {| bm := b; cache := wcache w; blog := l |} (issued b);
  qo_mode : graphCaptureActive b = false ∧ capturing b = false ∧ captured b = [];
  qo_sorted : StronglySorted Z.lt (ids (issued b));
  qo_range : ∀ x, x ∈ ids (issued b) → 0 ≤ x < next;
  qo_waits : ∀ c, c ∈ issued b → waits_ok w i b c }.

Record w_inv `{ZeDriver} (w : world) (next : Z) (evs : list ur_event) : Prop := {
  wi_queues : ∀ i b l, queues w !! i = Some (b, l) → queue_ok w next i b l;
  wi_cache : cache_inv (λ _, True) (wcache w) (lents (queues w));
  wi_next : 0 ≤ next;
  wi_events : ∀ e, e ∈ evs → ∃ b l, queues w !! ev_queue e = Some (b, l) ∧ event_ok b e }.

(** Later worlds: queues are not lost and evolve. *)
Definition w_evolves (w w' : world) : Prop :=
  ∀ i b l, queues w !! i = Some (b, l) → ∃ b' l', queues w' !! i = Some (b', l') ∧ evolves b b'.
#[export] Instance w_evolves_preorder : PreOrder w_evolves.
Proof.
  split.
  - intros w i b l E. by exists b, l.
  - intros w1 w2 w3 H12 H23 i b l E. destruct (H12 i b l E) as (b' & l' & E' & Hb).
    destruct (H23 i b' l' E') as (b'' & l'' & E'' & Hb'). exists b'', l''. split; [done|by etrans].
Qed.

Lemma load_Some i w s :
  load i w = Some s → queues w !! i = Some (bm s, blog s) ∧ cache s = wcache w.
Proof. unfold load. destruct (queues w !! i) as [[b l]|]; naive_solver. Qed.
Lemma load_ok i w b l :
  queues w !! i = Some (b, l) → load i w = Some {| bm := b; cache := wcache w; blog := l |}.
Proof. unfold load. by intros ->. Qed.

Lemma store_evolves i s s' w :
  load i w = Some s → evolves (bm s) (bm s') → w_evolves w (store i s' w).
Proof.
  intros [Hi _]%load_Some Hev j b l Hj. simpl. destruct (decide (i = j)) as [<-|Hne].
  - rewrite Hi in Hj. injection Hj as <- <-. exists (bm s'), (blog s'). by rewrite lookup_insert_eq.
  - exists b, l. by rewrite lookup_insert_ne.
Qed.

(** Facts about a queue do not depend on the cache of the world. *)
Lemma q_inv_cache s c l : q_inv s l → q_inv {| bm := bm s; cache := c; blog := blog s |} l.
Proof. by intros []. Qed.

Section reliable.
Context `{ZeDriver, BatchDriver} (ZeDevice ordinal : Z → Z).
Context (zeEventHostSynchronize : world → ur_event → option ur_result_t).
Hypothesis (Hdriver : ∀ log c, is_control c = true → b_error log c = None).
Hypothesis (Hlists : ∀ log c, ze_error log c = None).
Hypothesis (Hfresh : driver_fresh).

Lemma load_inv w next evs i s :
  w_inv w next evs → load i w = Some s → inv s (issued (bm s)) (lents (delete i (queues w))).
Proof.
  intros [Hq Hc _ _] Hl. apply load_Some in Hl as Hi. destruct Hi as [Hi Hcs]. split.
  - destruct s. simpl in *. subst. apply (Hq _ _ _ Hi).
  - unfold c_inv. rewrite Hcs. eapply cache_inv_perm; [|exact Hc]. by rewrite (lents_delete _ _ _ Hi).
Qed.

Lemma waits_ok_mono w w' i j b b' c :
  w_evolves w w' → (∀ x, x ∈ ids (issued b) → x ∈ ids (issued b')) →
  waits_ok w i b c → waits_ok w' j b' c.
Proof.
  intros Hw Hb Hc x Hx. destruct (Hc x Hx) as [Hlt [Hin|(k & bk & lk & Hk & Hin)]]; (split; [done|]).
  - left. auto.
  - right. destruct (Hw k bk lk Hk) as (b'' & l'' & Hk' & Hev). exists k, b'', l''. split; [done|].
    by eapply ids_prefix; [apply Hev|].
Qed.

(** Storing a queue back after a program that accepted the commands [new]. *)
Lemma store_inv w next next' evs i s s' new :
  w_inv w next evs → load i w = Some s → next ≤ next' →
  inv s' (issued (bm s) ++ new) (lents (delete i (queues w))) → evolves (bm s) (bm s') →
  graphCaptureActive (bm s') = graphCaptureActive (bm s) → keeps (bm s) (bm s') →
  StronglySorted Z.lt (ids (issued (bm s) ++ new)) → (∀ x, x ∈ ids new → 0 ≤ x < next') →
  (∀ c, c ∈ new → waits_ok w i (bm s) c) →
  w_inv (store i s' w) next' evs ∧ w_evolves w (store i s' w).
Proof.
  intros Hw Hl Hn [Hq Hc] Hev Hg Hk Hs Hr Hwaits. pose proof (store_evolves i s s' w Hl Hev) as Hwe.
  split; [|done]. apply load_Some in Hl as [Hi _]. destruct Hw as [Hqs Hcs Hn0 He].
  pose proof (Hqs _ _ _ Hi) as [Hqi (Hm1 & Hm2 & Hm3) Hqs' Hqr Hqw].
  assert (issued (bm s') = issued (bm s) ++ new) as Eis by apply (qi_order _ _ Hq).
  destruct (Hk Hm2) as [Hk1 Hk2]. split.
  - intros j b l Hj. simpl in Hj. destruct (decide (i = j)) as [<-|Hne].
    + rewrite lookup_insert_eq in Hj. injection Hj as <- <-. split; rewrite ?Eis.
      * by apply q_inv_cache.
      * split_and!; congruence.
      * done.
      * intros x. rewrite ids_app, elem_of_app. intros [Hx|Hx]; [|by apply Hr]. specialize (Hqr x Hx). lia.
      * assert (∀ x, x ∈ ids (issued (bm s)) → x ∈ ids (issued (bm s'))) as Hsub.
        { intros x. rewrite Eis, ids_app, elem_of_app. by left. }
        intros c [Hin|Hin]%elem_of_app; eapply waits_ok_mono; eauto.
    + rewrite lookup_insert_ne in Hj by done. destruct (Hqs _ _ _ Hj) as [H1 H2 H3 H4 H5]. split; try done.
      * by apply (q_inv_cache _ (cache s')) in H1.
      * intros x Hx. specialize (H4 x Hx). lia.
      * intros c Hin. by eapply waits_ok_mono; [exact Hwe| |apply H5].
  - simpl. eapply cache_inv_perm; [|exact Hc]. by rewrite lents_insert.
  - lia.
  - intros e Hin. destruct (He e Hin) as (b & l & Hb & Hok). destruct (Hwe _ _ _ Hb) as (b' & l' & Hb' & Hev').
    exists b', l'. split; [done|]. by eapply event_ok_evolves.
Qed.

(** A program of a queue that accepts no command. *)
Lemma on_inv w next evs i m Q :
  w_inv w next evs → is_Some (queues w !! i) → frame m →
  (∀ s, load i w = Some s → leads m s (issued (bm s)) (lents (delete i (queues w))) Q) →
  ∃ w', on i m w = (Ret UR_RESULT_SUCCESS, w') ∧ w_inv w' next evs ∧ w_evolves w w' ∧
    ∃ s', load i w' = Some s' ∧ Q s'.
Proof.
  intros Hw [[b l] Hi] Hf Hm. unfold on. pose proof (load_ok _ _ _ _ Hi) as Hl. rewrite Hl.
  set (s := {| bm := b |}) in *. destruct (Hm s Hl) as (s' & E & Hi' & Hev & Hg & Hcp & HQ).
  rewrite E. exists (store i s' w). split; [done|].
  destruct (store_inv w next next evs i s s' [] Hw Hl) as [Hw' He]; rewrite ?app_nil_r; try done.
  - specialize (Hf s). by rewrite E in Hf.
  - apply (wi_queues _ _ _ Hw _ _ _ Hi).
  - by intros x ?%not_elem_of_nil.
  - by intros c ?%not_elem_of_nil.
  - split_and!; try done. exists s'. split; [|done]. unfold load. simpl. rewrite lookup_insert_eq. by destruct s'.
Qed.

(** The command that signals [e] has been submitted. *)
Definition signalled (w : world) (e : ur_event) : Prop :=
  ∃ b l, queues w !! ev_queue e = Some (b, l) ∧ ev_cmd e ∈ ids (submitted b).

Lemma signalled_mono w w' e : w_evolves w w' → signalled w e → signalled w' e.
Proof.
  intros Hw (b & l & Hq & Hin). destruct (Hw _ _ _ Hq) as (b' & l' & Hq' & Hev). exists b', l'.
  split; [done|]. by eapply ids_prefix; [apply Hev|].
Qed.

Lemma onWaitListUse_ok w next evs e :
  w_inv w next evs → e ∈ evs →
  ∃ w', onWaitListUse ZeDevice ordinal e w = (Ret UR_RESULT_SUCCESS, w') ∧ w_inv w' next evs ∧
    w_evolves w w' ∧ signalled w' e.
Proof.
  intros Hw Hin. destruct (wi_events _ _ _ Hw e Hin) as (b & l & Hb & Hok). unfold onWaitListUse.
  destruct (wi_queues _ _ _ Hw _ _ _ Hb) as [_ (_ & _ & Hcap) _ _ _].
  destruct (ev_gen e) as [g|] eqn:Eg.
  - destruct (on_inv w next evs (ev_queue e) (onEventWaitListUse (ZeDevice (ev_queue e)) (ordinal (ev_queue e)) g)
      (λ s', ev_cmd e ∈ ids (submitted (bm s') ++ captured (bm s'))) Hw (mk_is_Some _ _ Hb))
      as (w' & E & Hw' & Hev & s' & Hl & Hs).
    + apply frame_if; [apply frame_renew|apply frame_done].
    + intros s Hl. apply (onEventWaitListUse_ok (ZeDevice (ev_queue e)) (ordinal (ev_queue e))); try done.
      * by eapply load_inv.
      * apply load_Some in Hl as [Hl _]. rewrite Hb in Hl. by injection Hl as -> ->.
    + exists w'. split_and!; try done. apply load_Some in Hl as [Hl _]. exists (bm s'), (blog s'). split; [done|].
      destruct (wi_queues _ _ _ Hw' _ _ _ Hl) as [_ (_ & _ & Hcap') _ _ _]. by rewrite Hcap', app_nil_r in Hs.
  - exists w. split_and!; try done. exists b, l. split; [done|].
    destruct Hok as [Hok|[? _]]; [|congruence]. by rewrite Hcap, app_nil_r in Hok.
Qed.

(** Building a wait list submits the batches of the other queues. *)
Lemma getZeHandlesBuffer_ok i es w next evs :
  w_inv w next evs → (∀ e, e ∈ es → e ∈ evs) →
  ∃ w', getZeHandlesBuffer ZeDevice ordinal i es w = (Ret (ev_cmd <$> es), w') ∧ w_inv w' next evs ∧
    w_evolves w w' ∧ ∀ e, e ∈ es → ev_queue e ≠ i → signalled w' e.
Proof.
  revert w. induction es as [|e es IH]; intros w Hw Hes; simpl.
  { exists w. split_and!; try done. by intros e ?%not_elem_of_nil. }
  assert (∃ w1, (if decide (i ≠ ev_queue e) then onWaitListUse ZeDevice ordinal e w
             else (Ret UR_RESULT_SUCCESS, w)) = (Ret UR_RESULT_SUCCESS, w1) ∧ w_inv w1 next evs ∧ w_evolves w w1 ∧
      (ev_queue e ≠ i → signalled w1 e)) as (w1 & -> & Hw1 & Hev1 & Hs1).
  { case_decide; [|by exists w].
    destruct (onWaitListUse_ok w next evs e Hw) as (w1 & ? & ? & ? & ?); [apply Hes; left|]. by exists w1. }
  destruct (IH w1 Hw1) as (w2 & -> & Hw2 & Hev2 & Hs2); [intros e' He'; apply Hes; by right|].
  exists w2. split_and!; [done|done|by etrans|].
  intros e' [->|He']%elem_of_cons Hne; [|by apply Hs2]. eapply signalled_mono; [exact Hev2|]. by apply Hs1.
Qed.

Lemma ids_sorted_snoc l x : StronglySorted Z.lt l → (∀ y, y ∈ l → y < x) → StronglySorted Z.lt (l ++ [x]).
Proof.
  induction 1 as [|z l Hl IH Hz]; intros Hx; simpl; [repeat constructor|]. constructor.
  - apply IH. intros y Hy. apply Hx. by right.
  - apply Forall_app. split; [done|]. constructor; [|done]. apply Hx. left.
Qed.

(** An enqueue keeps the invariant; its command waits for submitted commands
    of other queues and earlier ones of its own. *)
Lemma enqueue_on_ok i r next es ph w evs res e w' :
  w_inv w next evs → is_Some (queues w !! i) → (∀ e, e ∈ es → e ∈ evs) → r ≠ REnqueueHostTaskExp →
  enqueue_on ZeDevice ordinal i r next es ph w = (res, e, w') →
  w_inv w' (next + 1) (if decide (res = Ret UR_RESULT_SUCCESS) then option_list e ++ evs else evs) ∧
  w_evolves w w' ∧ res ≠ Undefined ∧ ∀ e, e ∈ es → ev_queue e ≠ i → signalled w' e.
Proof.
  intros Hw Hi Hes Hr. unfold enqueue_on.
  destruct (getZeHandlesBuffer_ok i es w next evs Hw Hes) as (w1 & -> & Hw1 & Hev1 & Hs1).
  destruct Hi as [[b0 l0] Hi]. destruct (Hev1 _ _ _ Hi) as (b & l & Hb & _). pose proof (load_ok _ _ _ _ Hb) as Hl.
  rewrite Hl. set (s := {| bm := b |}) in *. set (ws := ev_cmd <$> es).
  pose proof (perform_ok (ZeDevice i) (ordinal i) i Hdriver Hlists Hfresh r next ws ph s _ _ Hr
    (load_inv _ _ _ _ _ Hw1 Hl)) as Hp.
  pose proof (eframe_perform (ZeDevice i) (ordinal i) i r next ws ph s) as Hf.
  destruct (perform_request _ _ _ _ _ _ _ s) as [[res' e'] s']. destruct Hp as (Hev & Hg & Hcp & Hres). intros [= <- <- <-].
  destruct (wi_queues _ _ _ Hw1 _ _ _ Hb) as [Hq (Hm1 & Hm2 & Hm3) Hsort Hrange Hwaits].
  unfold accept in Hres. change (capturing (bm s)) with (capturing b) in Hres. rewrite Hm2 in Hres.
  set (new := if decide (res' = Ret UR_RESULT_SUCCESS) then [request_cmd r next ws] else []).
  destruct (store_inv w1 next (next + 1) evs i s s' new Hw1 Hl) as [Hw2 He2]; try done; [lia|..].
  - unfold new. destruct res' as [r'| |]; [|by rewrite app_nil_r|done].
    destruct (decide (r' = UR_RESULT_SUCCESS)) as [->|Hne]; [by rewrite decide_True by done; destruct Hres|].
    rewrite decide_False by congruence. by rewrite app_nil_r.
  - unfold new. destruct (decide _); [|by rewrite app_nil_r]. rewrite ids_app. apply ids_sorted_snoc; [done|].
    intros y Hy. by apply Hrange.
  - unfold new. destruct (decide _); [|by intros x ?%not_elem_of_nil].
    intros x ->%list_elem_of_singleton. pose proof (wi_next _ _ _ Hw). simpl. lia.
  - unfold new. destruct (decide _); [|by intros x ?%not_elem_of_nil].
    intros c ->%list_elem_of_singleton x Hx.
    assert (x ∈ ws) as (ev & -> & Hin)%list_elem_of_fmap by (destruct r; try done; by apply not_elem_of_nil in Hx).
    simpl. destruct (wi_events _ _ _ Hw1 ev (Hes _ Hin)) as (bv & lv & Hbv & Hok).
    destruct (wi_queues _ _ _ Hw1 _ _ _ Hbv) as [_ (_ & _ & Hcv) _ Hrv _].
    assert (ev_cmd ev ∈ ids (issued bv)) as Hiv.
    { unfold issued. rewrite ids_app, elem_of_app. destruct Hok as [Hok|[_ Hok]]; [left|by right].
      by rewrite Hcv, app_nil_r in Hok. }
    split; [by apply Hrv|]. destruct (decide (ev_queue ev = i)) as [E|Hne].
    + left. rewrite E, Hb in Hbv. by injection Hbv as <- <-.
    + right. destruct (Hs1 ev Hin Hne) as (b2 & l2 & ? & ?). by exists (ev_queue ev), b2, l2.
  - split_and!; [|by etrans|by destruct res'|intros ev Hin Hne; eapply signalled_mono; [exact He2|by apply Hs1]].
    destruct (decide (res' = Ret UR_RESULT_SUCCESS)) as [->|Hne]; [|done].
    rewrite decide_True in Hres by done. destruct Hres as [_ Hnew]. destruct Hw2 as [Q1 Q2 Q3 Q4]. split; try done.
    intros ev [Hin|Hin]%elem_of_app; [|by apply Q4]. destruct e' as [e0|]; [|by apply not_elem_of_nil in Hin].
    apply list_elem_of_singleton in Hin as ->. destruct (Hnew e0 eq_refl) as (Eq & _ & Hok).
    exists (bm s'), (blog s'). simpl. by rewrite Eq, lookup_insert_eq.
Qed.

Lemma urEventWait_ok es w next evs :
  w_inv w next evs → (∀ e, e ∈ es → e ∈ evs) →
  ∃ r w', urEventWait ZeDevice ordinal zeEventHostSynchronize es w = (Ret r, w') ∧ w_inv w' next evs ∧
    w_evolves w w' ∧ (r = UR_RESULT_SUCCESS → (∀ w e, zeEventHostSynchronize w e ≠ Some UR_RESULT_SUCCESS) →
      ∀ e, e ∈ es → signalled w' e).
Proof.
  revert w. induction es as [|e es IH]; intros w Hw Hes; simpl.
  { exists UR_RESULT_SUCCESS, w. split_and!; try done. by intros _ _ e ?%not_elem_of_nil. }
  destruct (onWaitListUse_ok w next evs e Hw) as (w1 & -> & Hw1 & Hev1 & Hs1); [apply Hes; left|].
  destruct (zeEventHostSynchronize w1 e) as [r|] eqn:E.
  { exists r, w1. split_and!; try done. intros -> Hn. by apply Hn in E. }
  destruct (IH w1 Hw1) as (r & w2 & -> & Hw2 & Hev2 & Hs2); [intros e' He'; apply Hes; by right|].
  exists r, w2. split_and!; [done|done|by etrans|]. intros Hr Hn e' [->|He']%elem_of_cons; [|by apply Hs2].
  by eapply signalled_mono.
Qed.

(** The queues of a context, the number of the next command and the events
    given out: queues are created, commands of all kinds but host tasks are
    enqueued with any of the events, queues are finished and flushed, and the
    host waits for events. *)
Inductive step : relation (world * Z * list ur_event) :=
  | step_create w n evs i prio idx s c :
      queues w !! i = None →
      make_batched_queue (ZeDevice i) (ordinal i) true prio idx (wcache w) = (Ret s, c) →
      step (w, n, evs) (store i s w, n, evs)
  | step_enqueue w n evs i r es ph res e w' :
      is_Some (queues w !! i) → (∀ e, e ∈ es → e ∈ evs) → r ≠ REnqueueHostTaskExp →
      enqueue_on ZeDevice ordinal i r n es ph w = (res, e, w') →
      step (w, n, evs) (w', n + 1, if decide (res = Ret UR_RESULT_SUCCESS) then option_list e ++ evs else evs)
  | step_finish w n evs i r w' :
      is_Some (queues w !! i) → on i queueFinish w = (r, w') → step (w, n, evs) (w', n, evs)
  | step_flush w n evs i r w' :
      is_Some (queues w !! i) → on i (queueFlush (ZeDevice i) (ordinal i)) w = (r, w') →
      step (w, n, evs) (w', n, evs)
  | step_wait w n evs es r w' :
      (∀ e, e ∈ es → e ∈ evs) → urEventWait ZeDevice ordinal zeEventHostSynchronize es w = (r, w') →
      step (w, n, evs) (w', n, evs).

Definition world_inv (x : world * Z * list ur_event) : Prop := w_inv x.1.1 x.1.2 x.2.

Lemma frame_flush : ∀ i, frame (queueFlush (ZeDevice i) (ordinal i)).
Proof.
  intros i. apply (frame_if (λ s, isGraphCaptureActive (bm s)) done); [apply frame_done|].
  apply (frame_if (λ s, isActiveBatchEmpty (bm s)) done); [apply frame_done|apply frame_renew].
Qed.

Lemma create_inv_world w n evs i prio idx s c :
  w_inv w n evs → queues w !! i = None →
  make_batched_queue (ZeDevice i) (ordinal i) true prio idx (wcache w) = (Ret s, c) → w_inv (store i s w) n evs.
Proof.
  intros [Hqs Hc Hn He] Hi Hm.
  pose proof (BatchedQueueProps.make_batched_queue_inv (ZeDevice i) (ordinal i) i Hlists Hfresh _ _ _ _ _ _ Hc Hm)
    as [[Hq Hcs] _].
  assert (∃ a b, bm s = make_batch_manager a b) as (a & b & Eb).
  { unfold make_batched_queue in Hm. destruct (getRegularCommandList _ _ _) as [[?| |] ?]; [|done|done].
    destruct (getImmediateCommandList _ _ _ _ _ _) as [[?| |] ?]; [|done|done]. injection Hm as <- _. by do 2 eexists. }
  assert (w_evolves w (store i s w)) as Hw.
  { intros j b' l Hj. exists b', l. simpl. by rewrite lookup_insert_ne by congruence. }
  split; [..|done|].
  - intros j b' l Hj. simpl in Hj. destruct (decide (i = j)) as [<-|Hne].
    + rewrite lookup_insert_eq in Hj. injection Hj as <- <-. split; rewrite Eb; try done.
      * apply (q_inv_cache s (cache s)) in Hq. by rewrite Eb in Hq.
      * constructor.
      * by intros x ?%not_elem_of_nil.
      * by intros x ?%not_elem_of_nil.
    + rewrite lookup_insert_ne in Hj by done. destruct (Hqs _ _ _ Hj) as [H1 H2 H3 H4 H5]. split; try done.
      * by apply (q_inv_cache _ (cache s)) in H1.
      * intros c' Hin. by eapply waits_ok_mono; [exact Hw| |apply H5].
  - simpl. eapply cache_inv_perm; [|exact Hcs]. by rewrite lents_insert, delete_id.
  - intros e Hin. destruct (He e Hin) as (b' & l & Hb & Hok). exists b', l. split; [|done].
    simpl. by rewrite lookup_insert_ne by congruence.
Qed.

Lemma world_inv_step x x' : world_inv x → step x x' → world_inv x'.
Proof.
  unfold world_inv. intros Hx Hs. destruct Hs as [w n evs i prio idx s c Hi E|w n evs i r es ph res e w' Hi Hes Hr E
    |w n evs i r w' Hi E|w n evs i r w' Hi E|w n evs es r w' Hes E]; simpl in *.
  - by eapply create_inv_world.
  - by eapply enqueue_on_ok.
  - destruct (on_inv w n evs i queueFinish (λ _, True) Hx Hi) as (w1 & E1 & Hw & _); [apply frame_finish| |].
    + intros s Hl. eapply leads_weaken; [|by eapply BatchedQueueProps.queueFinish_leads, load_inv]. done.
    + rewrite E in E1. by injection E1 as -> ->.
  - destruct (on_inv w n evs i (queueFlush (ZeDevice i) (ordinal i)) (λ _, True) Hx Hi) as (w1 & E1 & Hw & _);
      [apply frame_flush| |].
    + intros s Hl. eapply leads_weaken; [|by eapply BatchedQueueProps.queueFlush_leads, load_inv]. done.
    + rewrite E in E1. by injection E1 as -> ->.
  - destruct (urEventWait_ok es w n evs Hx Hes) as (r1 & w1 & E1 & Hw & _). rewrite E in E1. by injection E1 as -> ->.
Qed.

(** A context without queues. *)
Definition initial (c : CommandListCache.state) : world := {| queues := ∅; wcache := c |}.
Definition world_reachable (x : world * Z * list ur_event) : Prop :=
  ∃ c, cache_inv (λ _, True) c [] ∧ rtc step (initial c, 0, []) x.

Lemma world_reachable_inv x : world_reachable x → world_inv x.
Proof.
  intros (c & Hc & Hs). eapply (rtc_invariant step world_inv); [apply world_inv_step|exact Hs|].
  split; simpl; try done. by intros e ?%not_elem_of_nil.
Qed.

(** What has been given to the driver but is not in the set [E] of the commands
    that were executed. *)
Definition pending (w : world) (E : Z → Prop) (i : Z) (k : nat) (c : cmd) : Prop :=
  ∃ b l, queues w !! i = Some (b, l) ∧ submitted b !! k = Some c ∧ ¬ E (cmd_id c).
(** Nothing holds the command back: what its queue was given before it and what
    it waits for has been executed. *)
Definition ready (w : world) (E : Z → Prop) (i : Z) (k : nat) (c : cmd) : Prop :=
  (∀ b l c', queues w !! i = Some (b, l) → c' ∈ take k (submitted b) → E (cmd_id c')) ∧
  (∀ x, x ∈ cmd_waits c → E x).

Lemma submitted_lt w n evs i b l k c c' :
  w_inv w n evs → queues w !! i = Some (b, l) → submitted b !! k = Some c → c' ∈ take k (submitted b) →
  cmd_id c' < cmd_id c.
Proof.
  intros Hw Hb Hc Hin. destruct (wi_queues _ _ _ Hw _ _ _ Hb) as [_ _ Hs _ _].
  apply take_drop_middle in Hc. unfold issued in Hs. rewrite ids_app in Hs.
  apply StronglySorted_app in Hs as (_ & Hs & _). rewrite <-Hc, ids_app in Hs.
  apply StronglySorted_app in Hs as (Hlt & _ & _). apply Hlt; [apply elem_of_ids; by exists c'|left].
Qed.

(** A command that a submitted one waits for is submitted. *)
Lemma waits_submitted w n evs i b l c x :
  w_inv w n evs → queues w !! i = Some (b, l) → c ∈ submitted b → x ∈ cmd_waits c →
  x < cmd_id c ∧ ∃ j b' l', queues w !! j = Some (b', l') ∧ x ∈ ids (submitted b').
Proof.
  intros Hw Hb Hc Hx. destruct (wi_queues _ _ _ Hw _ _ _ Hb) as [_ _ Hs _ Hwt].
  assert (c ∈ issued b) as Hci by (apply elem_of_app; by left).
  destruct (Hwt c Hci x Hx) as [Hlt [Hin|?]]; (split; [done|]); [|done].
  exists i, b, l. split; [done|]. unfold issued in *. rewrite ids_app in *.
  apply elem_of_app in Hin as [Hin|Hin]; [done|]. exfalso.
  apply StronglySorted_app in Hs as (Hcross & _ & _).
  specialize (Hcross (cmd_id c) x ltac:(apply elem_of_ids; by exists c) Hin). lia.
Qed.

(** C2: batched queues of a context never deadlock, provided that the programs
    enqueue no host task and capture no graph and that no control call of the
    driver fails (creating, closing, submitting, resetting and synchronizing
    lists, releasing kernels, cleaning pools up), while appending a command to a
    list and creating an event may fail: the code ignores a submission that fails
    in [onWaitListUse] ([failed_submit_waited]), and host tasks are not counted
    ([host_task_overtaken]).  Whatever part [E] of the commands given to the
    driver has been executed, if some are left then one of them is ready, all
    that its queue was given before it and all it waits for, in this or another
    queue, having been executed. *)
Theorem batched_queues_progress w n evs (E : Z → Prop) `{!∀ x, Decision (E x)} i k c :
  world_reachable (w, n, evs) → pending w E i k c →
  ∃ j k' c', pending w E j k' c' ∧ ready w E j k' c'.
Proof.
  intros Hw%world_reachable_inv. unfold world_inv in Hw. simpl in Hw. revert i k c.
  enough (∀ m i k c, 0 ≤ cmd_id c < m → pending w E i k c → ∃ j k' c', pending w E j k' c' ∧ ready w E j k' c') as He.
  { intros i k c Hp. apply (He (cmd_id c + 1) i k c); [|done]. destruct Hp as (b & l & Hb & Hc & _).
    destruct (wi_queues _ _ _ Hw _ _ _ Hb) as [_ _ _ Hr _]. split; [|lia]. apply Hr. unfold issued.
    rewrite ids_app. apply elem_of_app. left. apply elem_of_ids. exists c. split; [done|].
    by eapply list_elem_of_lookup_2. }
  intros m. destruct (decide (0 ≤ m)) as [Hm|]; [|intros; lia]. revert m Hm.
  refine (natlike_ind _ _ _); [intros; lia|]. intros m Hm IH i k c Hid Hp.
  pose proof Hp as (b & l & Hb & Hc & HE).
  assert (∀ c', cmd_id c' < cmd_id c → (∃ j b' l', queues w !! j = Some (b', l') ∧ c' ∈ submitted b') →
    ¬ E (cmd_id c') → ∃ j k' c', pending w E j k' c' ∧ ready w E j k' c') as Hearlier.
  { intros c' Hlt (j & b' & l' & Hb' & Hin) HE'. apply list_elem_of_lookup_1 in Hin as Hk. destruct Hk as [k' Hk'].
    apply (IH j k' c'); [|by exists b', l']. destruct (wi_queues _ _ _ Hw _ _ _ Hb') as [_ _ _ Hr _].
    assert (0 ≤ cmd_id c' < n); [|lia]. apply Hr, elem_of_ids. exists c'. split; [done|]. apply elem_of_app. by left. }
  destruct (decide (Forall (λ c', E (cmd_id c')) (take k (submitted b)))) as [Hbefore|Hn].
  2: { apply not_Forall_Exists in Hn; [|apply _]. apply Exists_exists in Hn as (c' & Hin & HE').
    apply (Hearlier c'); [by eapply submitted_lt| |done]. exists i, b, l. split; [done|].
    rewrite <-(take_drop k (submitted b)). apply elem_of_app. by left. }
  destruct (decide (Forall E (cmd_waits c))) as [Hwait|Hn].
  2: { apply not_Forall_Exists in Hn; [|apply _]. apply Exists_exists in Hn as (x & Hin & HE').
    destruct (waits_submitted _ _ _ _ _ _ c x Hw Hb) as (Hlt & j & b' & l' & Hb' & Hx);
      [by eapply list_elem_of_lookup_2|done|].
    apply elem_of_ids in Hx as (c' & -> & Hc'). apply (Hearlier c'); [done| |done]. by exists j, b', l'. }
  rewrite Forall_forall in Hbefore. rewrite Forall_forall in Hwait. exists i, k, c. split; [done|]. split; [|done].
  intros b' l' c' Hb'. rewrite Hb in Hb'. injection Hb' as <- <-. apply Hbefore.
Qed.

(** C23: a host that waits for events only ever waits for submitted commands,
    provided that the programs enqueue no host task and capture no graph and that
    no control call of the driver fails (appending a command and creating an
    event may; [failed_submit_waited] is what happens when a submission fails,
    which the code ignores).  Its outcome does not depend on what
    [zeEventHostSynchronize] would do with an event whose command is not
    submitted, which would be to hang; and when it succeeds every event of the
    list has been submitted. *)
Theorem urEventWait_submits w n evs es (sync : world → ur_event → option ur_result_t) :
  world_reachable (w, n, evs) → (∀ e, e ∈ es → e ∈ evs) →
  (∀ w e, signalled w e → sync w e = zeEventHostSynchronize w e) →
  ∃ r w', urEventWait ZeDevice ordinal zeEventHostSynchronize es w = (Ret r, w') ∧
    urEventWait ZeDevice ordinal sync es w = (Ret r, w') ∧
    (r = UR_RESULT_SUCCESS → (∀ w e, zeEventHostSynchronize w e ≠ Some UR_RESULT_SUCCESS) →
     ∀ e, e ∈ es → signalled w' e).
Proof.
  intros Hw%world_reachable_inv Hes Hsync. unfold world_inv in Hw. simpl in Hw.
  destruct (urEventWait_ok es w n evs Hw Hes) as (r & w' & E & _ & _ & Hs). exists r, w'.
  split; [done|]. split; [|done]. clear Hs. revert w Hw E.
  induction es as [|e es IH]; intros w Hw E; simpl in *; [done|].
  destruct (onWaitListUse_ok w n evs e Hw) as (w1 & E1 & Hw1 & _ & Hs1); [apply Hes; left|].
  rewrite E1, Hsync in * by done. destruct (zeEventHostSynchronize w1 e); [done|].
  apply IH; [intros e' He'; apply Hes; by right|done|done].
Qed.

(** after an enqueue with a wait list the commands that signal the events
    of the other queues have been submitted, even if the enqueue failed. *)
Theorem wait_list_submits i r es ph w n evs res e w' :
  world_reachable (w, n, evs) → is_Some (queues w !! i) → (∀ e, e ∈ es → e ∈ evs) →
  r ≠ REnqueueHostTaskExp → enqueue_on ZeDevice ordinal i r n es ph w = (res, e, w') →
  res ≠ Undefined ∧ ∀ e, e ∈ es → ev_queue e ≠ i → signalled w' e.
Proof. intros Hw%world_reachable_inv Hi Hes Hr E. by eapply enqueue_on_ok. Qed.

End reliable.

(** ** Witnesses: two queues, the second waits for a kernel of the first *)
#[local] Instance steady : BatchDriver := BatchedQueueProps.steady_driver.
#[local] Instance lists : ZeDriver := CommandListCacheProps.counting_driver.
Definition no_sync (w : world) (e : ur_event) : option ur_result_t := None.

Definition add_queue (i : Z) (w : world) : world :=
  match (make_batched_queue 7 0 true 0 None (wcache w)).1 with Ret s => store i s w | _ => w end.
Definition w2 : world := add_queue 2 (add_queue 1 (initial CommandListCacheProps.empty_cache)).
Definition x1 : outcome ur_result_t * option ur_event * world :=
  enqueue_on (λ _, 7) (λ _, 0) 1 REnqueueKernelLaunchWithArgsExp 0 [] true w2.
Definition x2 : outcome ur_result_t * option ur_event * world :=
  enqueue_on (λ _, 7) (λ _, 0) 2 REnqueueKernelLaunchWithArgsExp 1 (option_list x1.1.2) true x1.2.

Lemma enqueue_step i r es ph w n evs :
  is_Some (queues w !! i) → (∀ e, e ∈ es → e ∈ evs) → r ≠ REnqueueHostTaskExp →
  let x := enqueue_on (λ _, 7) (λ _, 0) i r n es ph w in
  bool_decide (x.1.1 = Ret UR_RESULT_SUCCESS) = true →
  step (λ _, 7) (λ _, 0) no_sync (w, n, evs) (x.2, n + 1, option_list x.1.2 ++ evs).
Proof.
  intros Hi Hes Hr x Hx%bool_decide_eq_true.
  pose proof (step_enqueue (λ _, 7) (λ _, 0) no_sync w n evs i r es ph x.1.1 x.1.2 x.2 Hi Hes Hr) as Hs.
  rewrite decide_True in Hs by done. apply Hs. unfold x. by destruct (enqueue_on _ _ _ _ _ _ _ _) as [[??]?].
Qed.

Lemma two_queues_reachable :
  world_reachable (λ _, 7) (λ _, 0) no_sync (x2.2, 2, option_list x2.1.2 ++ option_list x1.1.2 ++ []).
Proof.
  exists CommandListCacheProps.empty_cache. split; [apply BatchedQueueProps.empty_cache_inv|].
  eapply rtc_l; [by eapply (step_create _ _ _ _ _ _ 1 0 None)|].
  eapply rtc_l; [by eapply (step_create _ _ _ _ _ _ 2 0 None)|].
  eapply rtc_l; [apply (enqueue_step 1 REnqueueKernelLaunchWithArgsExp [] true w2 0 [])|].
  { by eexists. } { done. } { done. } { by vm_compute. }
  apply rtc_once, (enqueue_step 2 REnqueueKernelLaunchWithArgsExp (option_list x1.1.2) true x1.2 1 _).
  { by eexists. } { intros e He. by rewrite app_nil_r. } { done. } { by vm_compute. }
Qed.

Lemma batched_queues_progress_witness :
  ∃ j k c, pending x2.2 (λ _, False) j k c ∧ ready x2.2 (λ _, False) j k c.
Proof.
  apply (batched_queues_progress (λ _, 7) (λ _, 0) no_sync BatchedQueueProps.steady_control BatchedQueueProps.lists_ok
    CommandListCacheProps.counting_driver_fresh x2.2 2 _ (λ _, False) 1 0%nat
    (mk KernelLaunchWithArgs 0 []) two_queues_reachable).
  eexists _, _. split; [by vm_compute|]. split; [by vm_compute|]. by intros [].
Defined.

Lemma wait_list_submits_witness :
  ∀ e, e ∈ option_list x1.1.2 → ev_queue e ≠ 2 → signalled x2.2 e.
Proof.
  assert (world_reachable (λ _, 7) (λ _, 0) no_sync (x1.2, 1, option_list x1.1.2 ++ [])) as Hr.
  { exists CommandListCacheProps.empty_cache. split; [apply BatchedQueueProps.empty_cache_inv|].
    eapply rtc_l; [by eapply (step_create _ _ _ _ _ _ 1 0 None)|].
    eapply rtc_l; [by eapply (step_create _ _ _ _ _ _ 2 0 None)|].
    apply rtc_once, (enqueue_step 1 REnqueueKernelLaunchWithArgsExp [] true w2 0 []).
    { by eexists. } { done. } { done. } { by vm_compute. } }
  apply (wait_list_submits (λ _, 7) (λ _, 0) no_sync BatchedQueueProps.steady_control BatchedQueueProps.lists_ok
    CommandListCacheProps.counting_driver_fresh 2 REnqueueKernelLaunchWithArgsExp
    (option_list x1.1.2) true x1.2 1 _ x2.1.1 x2.1.2 x2.2 Hr).
  - by eexists.
  - intros e He. by rewrite app_nil_r.
  - done.
  - unfold x2. by destruct (enqueue_on _ _ _ _ _ _ _ _) as [[??]?].
Defined.

Lemma urEventWait_submits_witness :
  (urEventWait (λ _, 7) (λ _, 0) no_sync (option_list x1.1.2) x2.2).1 = Ret UR_RESULT_SUCCESS ∧
  ∃ w', ∀ e, e ∈ option_list x1.1.2 → signalled w' e.
Proof.
  assert ((urEventWait (λ _, 7) (λ _, 0) no_sync (option_list x1.1.2) x2.2).1 = Ret UR_RESULT_SUCCESS) as E
    by (by vm_compute).
  split; [exact E|].
  destruct (urEventWait_submits (λ _, 7) (λ _, 0) no_sync BatchedQueueProps.steady_control BatchedQueueProps.lists_ok
    CommandListCacheProps.counting_driver_fresh x2.2 2 _ (option_list x1.1.2) no_sync
    two_queues_reachable) as (r & w' & Ew & _ & Hs).
  - intros e He. rewrite app_nil_r. apply elem_of_app. by right.
  - done.
  - exists w'. apply Hs; [|done]. apply (f_equal fst) in Ew. simpl in Ew.
    assert (Ret r = Ret UR_RESULT_SUCCESS) as Er by (rewrite <-E; symmetry; exact Ew). by injection Er.
Defined.

(** A driver that does not take batches: the result of [onWaitListUse] is
    ignored, and the host synchronizes with the event of a kernel that was not
    submitted. *)
Definition no_batches : BatchDriver := {|
  b_error := λ _ c, if c is ImmediateAppendCommandLists _ then Some UR_RESULT_ERROR_OUT_OF_DEVICE_MEMORY else None;
  b_event := λ log, Z.of_nat (length log); b_poll := λ _, PollSuccess;
  b_error_fails := λ _ c, match c with ImmediateAppendCommandLists _ => ltac:(done) | _ => ltac:(done) end |}.
Example failed_submit_waited :
  let '(r, e, w) := enqueue_on (H0 := no_batches) (λ _, 7) (λ _, 0) 1 REnqueueKernelLaunchWithArgsExp 0 [] true w2 in
  let '(r', w') := urEventWait (H0 := no_batches) (λ _, 7) (λ _, 0)
                     (λ _ _, Some UR_RESULT_ERROR_DEVICE_LOST) (option_list e) w in
  r = Ret UR_RESULT_SUCCESS ∧ r' = Ret UR_RESULT_ERROR_DEVICE_LOST ∧
  submitted ∘ fst <$> queues w' !! 1 = Some [].
Proof. by vm_compute. Qed.
End WaitingProps.
