(* ===== verification/OutOfOrderQueue.v ===== *)
(** * The out-of-order immediate queue of the Level Zero v2 adapter
    (adapters/level_zero/v2/queue_immediate_out_of_order.{hpp,cpp}, the event
    waits and the graph capture of command_list_manager.cpp)

    The queue spreads its commands over four in-order immediate command lists,
    which the driver runs concurrently.  What the driver keeps of the lists is
    part of the state: the operations appended to each, how many it has
    finished, what the last operation that signals an event is (the events are
    counter based: a wait that is appended waits for the last signal appended
    before it), and which lists record into a graph instead of running.

    A command is enqueued in two parts, the choice of a list without the lock
    and the append under it, and other threads can come in between: [step] has
    a rule for each part. *)
From stdpp Require Import base numbers list list_numbers gmap functions relations.
From S2P Require Import Prelude CommandListCache EventPool BatchedQueue.
Import CommandListCache.
Local Open Scope Z_scope.

Module OutOfOrder.

Definition numCommandLists : nat := 4.
Definition captureCmdListManagerIdx : nat := 0.
Definition UR_QUEUE_FLAG_PROFILING_ENABLE : Z := 1.

(** An operation of a list is known by its list and its position there. *)
Definition place : Type := nat * nat.

(** What an operation waits for: one appended before it to a list of the queue,
    or an event that these do not signal. *)
Inductive dep := After (p : place) | Foreign (e : Z).

(** The driver's append functions the queue uses. *)
Inductive list_op := OpCommand (k : cmd_kind) | OpWaitOnEvents | OpSignalEvent | OpBarrier.

Record appended := { op : list_op; number : nat; deps : list dep; signal : option Z }.

(** Calls of the driver and of the event pool that can fail. *)
Inductive ocall :=
  | OAppend (l : nat) (o : list_op)
  | OSynchronize (l : nat)
  | OPoll (l : nat)
  | OReleaseSubmittedKernels (l : nat)
  | OEventAllocate
  | OCleanupPools
  | OBeginCapture
  | OEndCapture.

(** The driver, the platform and the event pool: an error of a call after a
    history of calls, the handle of a new event, the support of graphs, which
    events are counter based, and the address of the queue. *)
Class OooDriver := {
  o_error : list ocall → ocall → option ur_result_t;
  o_event : list ocall → Z;
  o_graph : bool;
  o_counter : Z → bool;
  (** the events of other queues that complete during the wait that the last
      call is *)
  o_completes : list ocall → gset Z;
  o_queue : Z }.

(** [ur_queue_immediate_out_of_order_t], then the queues of the events, what
    other queues answer to [queueIsGraphCapteEnabledExp] ([None] for an error),
    and the driver's part. *)
Record ooo := {
  commandListIndex : Z;
  flags : Z;
  barrierEvents : list Z;
  queue_of : gmap Z Z;
  queries : Z → option bool;
  lists : nat → list appended;
  finished : nat → nat;
  signals : gmap Z place;
  capturing : nat → bool;
  captured : nat → list appended;
  recorded : gset Z;
  completed : gset Z;
  next : nat;
  calls : list ocall }.

Definition set_index (i : Z) (s : ooo) : ooo :=
  {| commandListIndex := i; flags := flags s; barrierEvents := barrierEvents s; queue_of := queue_of s;
     queries := queries s; lists := lists s; finished := finished s; signals := signals s;
     capturing := capturing s; captured := captured s; recorded := recorded s; completed := completed s;
     next := next s; calls := calls s |}.
Definition set_queue_of (e q : Z) (s : ooo) : ooo :=
  {| commandListIndex := commandListIndex s; flags := flags s; barrierEvents := barrierEvents s;
     queue_of := <[e := q]> (queue_of s); queries := queries s; lists := lists s; finished := finished s;
     signals := signals s; capturing := capturing s; captured := captured s; recorded := recorded s;
     completed := completed s; next := next s; calls := calls s |}.
Definition log_ocall (c : ocall) (s : ooo) : ooo :=
  {| commandListIndex := commandListIndex s; flags := flags s; barrierEvents := barrierEvents s;
     queue_of := queue_of s; queries := queries s; lists := lists s; finished := finished s;
     signals := signals s; capturing := capturing s; captured := captured s; recorded := recorded s;
     completed := completed s; next := next s; calls := calls s ++ [c] |}.
Definition set_finished (f : nat → nat) (s : ooo) : ooo :=
  {| commandListIndex := commandListIndex s; flags := flags s; barrierEvents := barrierEvents s;
     queue_of := queue_of s; queries := queries s; lists := lists s; finished := f;
     signals := signals s; capturing := capturing s; captured := captured s; recorded := recorded s;
     completed := completed s; next := next s; calls := calls s |}.
(** What other queues, other threads and the host change: events of others
    complete, and captures of other queues begin and end. *)
Definition environment (q : Z → option bool) (c : nat → bool) (r d : gset Z) (s : ooo) : ooo :=
  {| commandListIndex := commandListIndex s; flags := flags s; barrierEvents := barrierEvents s;
     queue_of := queue_of s; queries := q; lists := lists s; finished := finished s;
     signals := signals s; capturing := c; captured := captured s; recorded := r;
     completed := completed s ∪ d; next := next s; calls := calls s |}.
Definition complete (d : gset Z) (s : ooo) : ooo :=
  environment (queries s) (capturing s) (recorded s) d s.
Definition set_capturing (l : nat) (b : bool) (s : ooo) : ooo :=
  environment (queries s) (<[l := b]> (capturing s)) (recorded s) ∅ s.

(** ** The driver *)

Definition source (s : ooo) (e : Z) : dep :=
  match signals s !! e with Some p => After p | None => Foreign e end.

(** A list records an operation if it captures already or if an event that the
    operation waits for is recorded: the capture extends to the list. *)
Definition records (s : ooo) (l : nat) (waits : list Z) : bool :=
  capturing s l || existsb (λ e, bool_decide (e ∈ recorded s)) waits.

Definition driver_append (l : nat) (o : list_op) (waits : list Z) (sig : option Z) (s : ooo) : ooo :=
  let x := {| op := o; number := next s; deps := source s <$> waits; signal := sig |} in
  let rec := records s l waits in
  {| commandListIndex := commandListIndex s; flags := flags s; barrierEvents := barrierEvents s;
     queue_of := queue_of s; queries := queries s;
     lists := if rec then lists s else <[l := lists s l ++ [x]]> (lists s);
     finished := finished s;
     signals := match sig with
                | Some e => if rec then delete e (signals s) else <[e := (l, length (lists s l))]> (signals s)
                | None => signals s end;
     capturing := <[l := rec]> (capturing s);
     captured := if rec then <[l := captured s l ++ [x]]> (captured s) else captured s;
     recorded := match sig with
                 | Some e => if rec then {[e]} ∪ recorded s else recorded s ∖ {[e]}
                 | None => recorded s end;
     completed := completed s; next := S (next s); calls := calls s |}.

Definition satisfied (s : ooo) (d : dep) : bool :=
  match d with
  | After (l, k) => (k <? finished s l)%nat
  | Foreign e => bool_decide (e ∈ completed s)
  end.

(** The driver finishes the next operation of a list. *)
Definition run (l : nat) (s : ooo) : option ooo :=
  match lists s l !! finished s l with
  | Some x => if forallb (satisfied s) (deps x) then Some (set_finished (<[l := S (finished s l)]> (finished s)) s)
              else None
  | None => None
  end.

Definition idle (s : ooo) (l : nat) : bool := (finished s l =? length (lists s l))%nat.
Definition unfinished (s : ooo) (l : nat) : nat := (length (lists s l) - finished s l)%nat.
Definition pending (s : ooo) : nat := sum_list_with (unfinished s) (seq 0 numCommandLists).

(** The driver runs what it can, until [stop]. *)
Definition runnable (s : ooo) : list ooo := omap (λ l, run l s) (seq 0 numCommandLists).
Arguments runnable : simpl never.
Fixpoint drain (stop : ooo → bool) (fuel : nat) (s : ooo) : ooo :=
  match fuel with
  | O => s
  | S fuel => if stop s then s else
              match head (runnable s) with
              | Some s => drain stop fuel s
              | None => s end
  end.

(** ** Functions of the adapter

    A function ends in a result, or in an error code, in undefined behaviour or
    in a wait without end; an error ends the functions that called it. *)
Inductive fault := Error (r : ur_result_t) | UndefinedBehaviour | NoReturn.

Definition M (A : Type) : Type := ooo → (fault + A) * ooo.
#[export] Instance M_ret : MRet M := λ A a s, (inr a, s).
#[export] Instance M_bind : MBind M := λ A B f m s,
  match m s with
  | (inr a, s') => f a s'
  | (inl e, s') => (inl e, s')
  end.
Definition stop {A} (e : fault) : M A := λ s, (inl e, s).
Definition gets {A} (f : ooo → A) : M A := λ s, (inr (f s), s).
Definition modify (f : ooo → ooo) : M unit := λ s, (inr tt, f s).
Definition when_ (b : bool) (m : M unit) : M unit := if b then m else mret tt.
Fixpoint for_each (l : list nat) (f : nat → M unit) : M unit :=
  match l with
  | [] => mret tt
  | i :: l => f i ≫= λ _, for_each l f
  end.

Section queue.
Context `{OooDriver}.

Definition ocall_ (c : ocall) : M unit := λ s,
  match o_error (calls s) c with
  | Some r => (inl (Error r), log_ocall c s)
  | None => (inr tt, log_ocall c s)
  end.

(** [zeCommandListAppend...] *)
Definition append (l : nat) (o : list_op) (waits : list Z) (sig : option Z) : M unit :=
  ocall_ (OAppend l o) ≫= λ _, modify (driver_append l o waits sig).

(** [zeCommandListHostSynchronize(list, UINT64_MAX)]: meanwhile events of other
    queues complete and the driver runs what it can. *)
Definition synchronize (l : nat) : M unit :=
  ocall_ (OSynchronize l) ≫= λ _, modify (λ s, complete (o_completes (calls s)) s) ≫= λ _,
  modify (λ s, drain (λ s, idle s l) (pending s) s) ≫= λ _,
  gets (λ s, idle s l) ≫= λ b, if (b : bool) then mret tt else stop NoReturn.

Definition appendEventsWait (l : nat) (waits : list Z) (phEvent : option Z) : M unit :=
  when_ (bool_decide (waits ≠ [])) (append l OpWaitOnEvents waits None) ≫= λ _,
  when_ (bool_decide (is_Some phEvent)) (append l OpSignalEvent [] phEvent).

Definition appendEventsWaitWithBarrier (l : nat) (waits : list Z) (phEvent : option Z) : M unit :=
  append l OpBarrier waits phEvent.

(** [queryGraphCaptureActive]: the result and what is written, if anything. *)
Definition queryGraphCaptureActive (l : nat) (s : ooo) : ur_result_t * option bool :=
  if o_graph then (UR_RESULT_SUCCESS, Some (capturing s l)) else (UR_RESULT_ERROR_UNSUPPORTED_FEATURE, None).

Definition allocate_event : M Z := λ s,
  let e := o_event (calls s) in
  match ocall_ OEventAllocate s with
  | (inr _, s) => (inr e, s)
  | (inl e, s) => (inl e, s)
  end.
Definition createEvent : M Z :=
  allocate_event ≫= λ e, modify (set_queue_of e o_queue) ≫= λ _, mret e.
Definition createEventIfRequested (phEvent : bool) : M (option Z) :=
  if phEvent then createEvent ≫= λ e, mret (Some e) else mret None.
Definition createEventOrReuseIfRequested (phEvent : option (option Z)) : M (option Z) :=
  match phEvent with
  | None => mret None
  | Some None => createEvent ≫= λ e, mret (Some e)
  | Some (Some e) => modify (set_queue_of e o_queue) ≫= λ _, mret (Some e)
  end.

(** An event of another queue that records: null queues and this one are skipped. *)
Definition joins_capture (s : ooo) (e : Z) : bool :=
  match queue_of s !! e with
  | None => false
  | Some q => if q =? o_queue then false else bool_decide (queries s q = Some true)
  end.

Definition getNextCommandListId (phWaitEvents : list Z) : M nat := λ s,
  match (queryGraphCaptureActive captureCmdListManagerIdx s).2 with
  | None => (inl UndefinedBehaviour, s)
  | Some true => (inr captureCmdListManagerIdx, s)
  | Some false =>
      if existsb (joins_capture s) phWaitEvents then (inr captureCmdListManagerIdx, s) else
      (inr (Z.to_nat (commandListIndex s `mod` Z.of_nat numCommandLists)),
       set_index (u32 (commandListIndex s + 1)) s)
  end.

(** How a function makes the event of its command: [createEventIfRequested], or,
    for [enqueueUSMFreeExp] and command buffers, one that always makes one. *)
Definition always_event (k : cmd_kind) : bool :=
  match k with USMFree | CommandBuffer => true | _ => false end.

(** The part of an enqueue function under the lock: the event, the command and,
    for a blocking function, the wait for the list. *)
Definition append_command (l : nat) (k : cmd_kind) (blocking : bool) (waits : list Z) (phEvent : bool) : M (option Z) :=
  createEventIfRequested (phEvent || always_event k) ≫= λ ev,
  append l (OpCommand k) waits ev ≫= λ _,
  when_ blocking (synchronize l) ≫= λ _,
  mret (if phEvent then ev else None).

Definition enqueue (k : cmd_kind) (blocking : bool) (waits : list Z) (phEvent : bool) : M (option Z) :=
  getNextCommandListId waits ≫= λ l, append_command l k blocking waits phEvent.

(** A function the adapter does not support: its event is made before it says so. *)
Definition enqueue_unsupported (waits : list Z) (phEvent : bool) : M (option Z) :=
  getNextCommandListId waits ≫= λ _, createEventIfRequested phEvent ≫= λ _,
  stop (Error UR_RESULT_ERROR_UNSUPPORTED_FEATURE).

(** The functions of the interface, in the order of the class; the commands are
    modelled by what they wait for and signal, not by what they do. *)
Definition enqueueMemBufferRead (blocking : bool) (waits : list Z) (phEvent : bool) : M (option Z) :=
  enqueue MemBufferRead blocking waits phEvent.
Definition enqueueMemBufferWrite (blocking : bool) (waits : list Z) (phEvent : bool) : M (option Z) :=
  enqueue MemBufferWrite blocking waits phEvent.
Definition enqueueMemBufferReadRect (blocking : bool) (waits : list Z) (phEvent : bool) : M (option Z) :=
  enqueue MemBufferReadRect blocking waits phEvent.
Definition enqueueMemBufferWriteRect (blocking : bool) (waits : list Z) (phEvent : bool) : M (option Z) :=
  enqueue MemBufferWriteRect blocking waits phEvent.
Definition enqueueMemBufferCopy (waits : list Z) (phEvent : bool) : M (option Z) :=
  enqueue MemBufferCopy false waits phEvent.
Definition enqueueMemBufferCopyRect (waits : list Z) (phEvent : bool) : M (option Z) :=
  enqueue MemBufferCopyRect false waits phEvent.
Definition enqueueMemBufferFill (waits : list Z) (phEvent : bool) : M (option Z) :=
  enqueue MemBufferFill false waits phEvent.
Definition enqueueMemImageRead (blocking : bool) (waits : list Z) (phEvent : bool) : M (option Z) :=
  enqueue MemImageRead blocking waits phEvent.
Definition enqueueMemImageWrite (blocking : bool) (waits : list Z) (phEvent : bool) : M (option Z) :=
  enqueue MemImageWrite blocking waits phEvent.
Definition enqueueMemImageCopy (waits : list Z) (phEvent : bool) : M (option Z) :=
  enqueue MemImageCopy false waits phEvent.
Definition enqueueMemBufferMap (blocking : bool) (waits : list Z) (phEvent : bool) : M (option Z) :=
  enqueue MemBufferMap blocking waits phEvent.
Definition enqueueMemUnmap (waits : list Z) (phEvent : bool) : M (option Z) :=
  enqueue MemUnmap false waits phEvent.
Definition enqueueUSMFill (waits : list Z) (phEvent : bool) : M (option Z) :=
  enqueue USMFill false waits phEvent.
Definition enqueueUSMMemcpy (blocking : bool) (waits : list Z) (phEvent : bool) : M (option Z) :=
  enqueue USMMemcpy blocking waits phEvent.
Definition enqueueUSMFill2D (waits : list Z) (phEvent : bool) : M (option Z) :=
  enqueue USMFill2D false waits phEvent.
Definition enqueueUSMMemcpy2D (blocking : bool) (waits : list Z) (phEvent : bool) : M (option Z) :=
  enqueue USMMemcpy2D blocking waits phEvent.
Definition enqueueUSMPrefetch (waits : list Z) (phEvent : bool) : M (option Z) :=
  enqueue USMPrefetch false waits phEvent.
Definition enqueueUSMAdvise (phEvent : bool) : M (option Z) :=
  enqueue USMAdvise false [] phEvent.
Definition enqueueDeviceGlobalVariableWrite (blocking : bool) (waits : list Z) (phEvent : bool) : M (option Z) :=
  enqueue DeviceGlobalVariableWrite blocking waits phEvent.
Definition enqueueDeviceGlobalVariableRead (blocking : bool) (waits : list Z) (phEvent : bool) : M (option Z) :=
  enqueue DeviceGlobalVariableRead blocking waits phEvent.
Definition enqueueReadHostPipe (waits : list Z) (phEvent : bool) : M (option Z) := enqueue_unsupported waits phEvent.
Definition enqueueWriteHostPipe (waits : list Z) (phEvent : bool) : M (option Z) := enqueue_unsupported waits phEvent.
Definition enqueueUSMDeviceAllocExp (waits : list Z) (phEvent : bool) : M (option Z) :=
  enqueue USMAllocDevice false waits phEvent.
Definition enqueueUSMSharedAllocExp (waits : list Z) (phEvent : bool) : M (option Z) :=
  enqueue USMAllocShared false waits phEvent.
Definition enqueueUSMHostAllocExp (waits : list Z) (phEvent : bool) : M (option Z) :=
  enqueue USMAllocHost false waits phEvent.
Definition enqueueUSMFreeExp (waits : list Z) (phEvent : bool) : M (option Z) :=
  enqueue USMFree false waits phEvent.
Definition bindlessImagesImageCopyExp (waits : list Z) (phEvent : bool) : M (option Z) :=
  enqueue ImageCopy false waits phEvent.
Definition bindlessImagesWaitExternalSemaphoreExp (waits : list Z) (phEvent : bool) : M (option Z) :=
  enqueue WaitExternalSemaphore false waits phEvent.
Definition bindlessImagesSignalExternalSemaphoreExp (waits : list Z) (phEvent : bool) : M (option Z) :=
  enqueue SignalExternalSemaphore false waits phEvent.
Definition enqueueTimestampRecordingExp (blocking : bool) (waits : list Z) (phEvent : bool) : M (option Z) :=
  if phEvent then enqueue TimestampRecording blocking waits phEvent
  else getNextCommandListId waits ≫= λ _, stop (Error UR_RESULT_ERROR_INVALID_NULL_HANDLE).
Definition enqueueNativeCommandExp (waits : list Z) (phEvent : bool) : M (option Z) :=
  enqueue NativeCommand false waits phEvent.
Definition enqueueKernelLaunchWithArgsExp (waits : list Z) (phEvent : bool) : M (option Z) :=
  enqueue KernelLaunchWithArgs false waits phEvent.
Definition enqueueGraphExp (waits : list Z) (phEvent : bool) : M (option Z) :=
  enqueue Graph false waits phEvent.
Definition enqueueHostTaskExp (waits : list Z) (phEvent : bool) : M (option Z) :=
  enqueue HostTask false waits phEvent.

(** [enqueueEventsWait] under the lock. *)
Definition append_events_wait (l : nat) (waits : list Z) (phEvent : bool) : M (option Z) :=
  createEventIfRequested phEvent ≫= λ ev, appendEventsWait l waits ev ≫= λ _, mret ev.
Definition enqueueEventsWait (waits : list Z) (phEvent : bool) : M (option Z) :=
  getNextCommandListId waits ≫= λ l, append_events_wait l waits phEvent.

Definition barrier_event (s : ooo) (l : nat) : Z := nth l (barrierEvents s) 0.

Definition needsRealBarrier (s : ooo) : bool := Z.testbit (flags s) UR_QUEUE_FLAG_PROFILING_ENABLE.
Definition barrierFn (real : bool) : nat → list Z → option Z → M unit :=
  if real then appendEventsWaitWithBarrier else appendEventsWait.

Definition enqueueEventsWaitWithBarrierExt (waits : list Z) (phEvent : option (option Z)) : M (option Z) :=
  if match phEvent with Some (Some e) => negb (o_counter e) | _ => false end
  then stop (Error UR_RESULT_ERROR_INVALID_ARGUMENT) else
  gets needsRealBarrier ≫= λ (real : bool),
  gets (λ s, default false (queryGraphCaptureActive captureCmdListManagerIdx s).2) ≫= λ (captureActive : bool),
  if captureActive then
    createEventIfRequested (bool_decide (is_Some phEvent)) ≫= λ ev,
    barrierFn real captureCmdListManagerIdx waits ev ≫= λ _, mret ev
  else
  gets barrier_event ≫= λ (event_of : nat → Z),
  appendEventsWait 0 waits (Some (event_of 0%nat)) ≫= λ _,
  for_each (seq 1 (numCommandLists - 1)) (λ id, appendEventsWait id [] (Some (event_of id))) ≫= λ _,
  gets barrierEvents ≫= λ (evs : list Z),
  (if phEvent is Some _ then
     createEventOrReuseIfRequested phEvent ≫= λ ev, barrierFn real 0 evs ev ≫= λ _, mret ev
   else mret None) ≫= λ (ev : option Z),
  (let first := if phEvent is Some _ then 1%nat else 0%nat in
   for_each (seq first (numCommandLists - first)) (λ id, barrierFn real id evs None)) ≫= λ _,
  mret ev.

Definition enqueueEventsWaitWithBarrier (waits : list Z) (phEvent : bool) : M (option Z) :=
  enqueueEventsWaitWithBarrierExt waits (if phEvent then Some None else None).

Definition queueFinish : M unit :=
  for_each (seq 0 numCommandLists) (λ l,
    synchronize l ≫= λ _, ocall_ (OReleaseSubmittedKernels l)) ≫= λ _,
  ocall_ OCleanupPools.

Definition queueFlush : M unit := mret tt.

(** The list whose handle the caller gets. *)
Definition queueGetNativeHandle : M nat := getNextCommandListId [].

(** [UR_QUEUE_INFO_EMPTY]: the lists are polled up to the first that is busy. *)
Fixpoint all_empty (ids : list nat) : M bool :=
  match ids with
  | [] => mret true
  | l :: ids => ocall_ (OPoll l) ≫= λ _, gets (λ s, idle s l) ≫= λ b, if (b : bool) then all_empty ids else mret false
  end.
Definition queueGetInfo_EMPTY : M bool := all_empty (seq 0 numCommandLists).

(** All lists are idle. *)
Definition queueIsEmpty (s : ooo) : bool := forallb (idle s) (seq 0 numCommandLists).

(** The destructor: the barrier events it gives back, and nothing that is thrown. *)
Definition destroy (s : ooo) : option (list Z) * ooo :=
  match queueFinish s with
  | (inr _, s) => (Some (barrierEvents s), s)
  | (inl NoReturn, s) => (None, s)
  | (inl _, s) => (Some [], s)
  end.

(** ** Graph capture *)

Definition beginGraphCapture : M unit :=
  if o_graph then ocall_ OBeginCapture ≫= λ _, modify (set_capturing captureCmdListManagerIdx true)
  else stop (Error UR_RESULT_ERROR_UNSUPPORTED_FEATURE).
Definition endGraphCapture : M unit :=
  if o_graph then ocall_ OEndCapture ≫= λ _, modify (set_capturing captureCmdListManagerIdx false)
  else stop (Error UR_RESULT_ERROR_UNSUPPORTED_FEATURE).

Definition queueIsGraphCapteEnabledExp : M bool := λ s,
  match queryGraphCaptureActive captureCmdListManagerIdx s with
  | (r, None) => (inl (Error r), s)
  | (_, Some b) => (inr b, s)
  end.

(** ** Executions *)

(** What happens to a queue: a thread chooses a list, a thread that has chosen
    one before appends under the lock, or is refused after the event was made,
    the driver runs an operation, and the environment changes. *)
Inductive step : relation ooo :=
  | step_choose waits r s s' : getNextCommandListId waits s = (r, s') → step s s'
  | step_append l k blocking waits phEvent r s s' :
      (l < numCommandLists)%nat → append_command l k blocking waits phEvent s = (r, s') → step s s'
  | step_refused phEvent r s s' : createEventIfRequested phEvent s = (r, s') → step s s'
  | step_wait l waits phEvent r s s' :
      (l < numCommandLists)%nat → append_events_wait l waits phEvent s = (r, s') → step s s'
  | step_barrier waits phEvent r s s' : enqueueEventsWaitWithBarrierExt waits phEvent s = (r, s') → step s s'
  | step_finish r s s' : queueFinish s = (r, s') → step s s'
  | step_info r s s' : queueGetInfo_EMPTY s = (r, s') → step s s'
  | step_begin r s s' : beginGraphCapture s = (r, s') → step s s'
  | step_end r s s' : endGraphCapture s = (r, s') → step s s'
  | step_run l s s' : run l s = Some s' → step s s'
  | step_environment q c r d s : step s (environment q c r d s).

Definition runs : relation ooo := λ s s', ∃ l, run l s = Some s'.

(** ** Creation *)

Definition new_ooo (fl : Z) (events : list Z) : ooo :=
  {| commandListIndex := 0; flags := fl; barrierEvents := events; queue_of := ∅; queries := λ _, None;
     lists := λ _, []; finished := λ _, 0%nat; signals := ∅; capturing := λ _, false; captured := λ _, [];
     recorded := ∅; completed := ∅; next := 0; calls := [] |}.
End queue.

Section creation.
Context `{ZeDriver} {P D : Type} `{EventProvider P D}.

(** The array of command list managers, the last one made first; when a list
    cannot be made, those made before go back to the cache. *)
Fixpoint createCommandListManagers (n : nat) (ZeDevice ordinal priority : Z) (index : option Z)
    (made : list (Z * command_list_descriptor_t)) (c : state)
    : outcome (list (Z * command_list_descriptor_t)) * state :=
  match n with
  | O => (Ret made, c)
  | S n =>
      match getImmediateCommandList ZeDevice
              {| IsInOrder := true; Ordinal := ordinal; CopyOffloadEnable := true; Mutable := false |}
              BatchedQueue.ZE_COMMAND_QUEUE_MODE_ASYNCHRONOUS priority index c with
      | (Ret l, c) => createCommandListManagers n ZeDevice ordinal priority index (l :: made) c
      | (Throw e, c) => (Throw e, foldl BatchedQueue.give_back c made)
      | (Undefined, c) => (Undefined, c)
      end
  end.

Fixpoint allocate_events (n : nat) (made : list nat) (p : EventPool.event_pool P D)
    : outcome (list nat) * list nat * EventPool.event_pool P D :=
  match n with
  | O => (Ret made, made, p)
  | S n =>
      match EventPool.pool_allocate p with
      | (Ret e, p) => allocate_events n (made ++ [e]) p
      | (Throw e, p) => (Throw e, made, p)
      | (Undefined, p) => (Undefined, made, p)
      end
  end.

(** The constructor: the queue with its lists. When an event cannot be made the
    members are destroyed, and the events made before stay with the pool as
    they are; the second result is the events that have been allocated. *)
Definition make_ooo_queue (fl ZeDevice ordinal priority : Z) (index : option Z) (c : state)
    (p : EventPool.event_pool P D)
    : outcome (ooo * list (Z * command_list_descriptor_t)) * list nat * (state * EventPool.event_pool P D) :=
  match createCommandListManagers numCommandLists ZeDevice ordinal priority index [] c with
  | (Ret ls, c) =>
      match allocate_events numCommandLists [] p with
      | (Ret es, made, p) => (Ret (new_ooo fl (Z.of_nat <$> es), ls), made, (c, p))
      | (Throw e, made, p) => (Throw e, made, (foldl BatchedQueue.give_back c ls, p))
      | (Undefined, made, p) => (Undefined, made, (c, p))
      end
  | (Throw e, c) => (Throw e, [], (c, p))
  | (Undefined, c) => (Undefined, [], (c, p))
  end.
End creation.

(** ** Which queue is created (level_zero/v2/queue_create.cpp) *)

Definition UR_QUEUE_FLAG_OUT_OF_ORDER_EXEC_MODE_ENABLE : Z := 0.
Definition UR_QUEUE_FLAG_PRIORITY_LOW : Z := 5.
Definition UR_QUEUE_FLAG_PRIORITY_HIGH : Z := 6.
Definition UR_QUEUE_FLAG_SUBMISSION_BATCHED : Z := 7.
Definition UR_QUEUE_FLAG_SUBMISSION_IMMEDIATE : Z := 8.

Inductive queue_class := ur_queue_batched_t | ur_queue_immediate_out_of_order_t | ur_queue_immediate_in_order_t.
Inductive ze_priority := PRIORITY_LOW | PRIORITY_HIGH | PRIORITY_NORMAL.

(** The properties: the flags, and the index in the extension, if it is one. *)
Record queue_properties := { qp_flags : Z; qp_index : option Z }.
Record created_queue := {
  cr_class : queue_class; cr_priority : ze_priority; cr_index : option Z; cr_events : Z; cr_flags : Z }.

Definition getZeIndex (pProps : option queue_properties) : option Z := pProps ≫= qp_index.
Definition getZePriority (fl : Z) : ze_priority :=
  if Z.testbit fl UR_QUEUE_FLAG_PRIORITY_LOW then PRIORITY_LOW else
  if Z.testbit fl UR_QUEUE_FLAG_PRIORITY_HIGH then PRIORITY_HIGH else PRIORITY_NORMAL.
Definition eventFlagsFromQueueFlags (fl : Z) : Z :=
  let eventFlags := Z.shiftl 1 EVENT_FLAGS_COUNTER in
  if Z.testbit fl UR_QUEUE_FLAG_PROFILING_ENABLE
  then Z.lor eventFlags (Z.shiftl 1 EVENT_FLAGS_PROFILING_ENABLED) else eventFlags.

Definition urQueueCreate (ForceBatched isValidDevice : bool) (pProperties : option queue_properties)
    : ur_result_t + created_queue :=
  if negb isValidDevice then inl UR_RESULT_ERROR_INVALID_DEVICE else
  let fl := default 0 (qp_flags <$> pProperties) in
  let isImmediate := if pProperties is Some _ then Z.testbit fl UR_QUEUE_FLAG_SUBMISSION_IMMEDIATE else true in
  let isOutOfOrder := Z.testbit fl UR_QUEUE_FLAG_OUT_OF_ORDER_EXEC_MODE_ENABLE in
  let isBatched := Z.testbit fl UR_QUEUE_FLAG_SUBMISSION_BATCHED in
  if negb ForceBatched && bool_decide (is_Some pProperties) && isImmediate && isBatched
  then inl UR_RESULT_ERROR_INVALID_QUEUE_PROPERTIES else
  let fl := if ForceBatched then
      let fl := Z.lor fl (Z.shiftl 1 UR_QUEUE_FLAG_SUBMISSION_BATCHED) in
      if isImmediate then Z.ldiff fl (Z.shiftl 1 UR_QUEUE_FLAG_SUBMISSION_IMMEDIATE) else fl
    else fl in
  let class := if ForceBatched || isBatched then ur_queue_batched_t else
    if isOutOfOrder then ur_queue_immediate_out_of_order_t else ur_queue_immediate_in_order_t in
  inr {| cr_class := class; cr_priority := getZePriority fl; cr_index := getZeIndex pProperties;
         cr_events := eventFlagsFromQueueFlags fl; cr_flags := fl |}.

(** A structure of the chain of [ur_queue_native_properties_t]. *)
Inductive native_property :=
  | QueueProperties (fl : Z)
  | QueueNativeDesc (pNativeData : option Z)
  | OtherProperties.

(** The flags and whether the handle is said to be an immediate command list. *)
Definition read_native_property (acc : Z * bool) (p : native_property) : Z * bool :=
  match p with
  | QueueProperties fl => (fl, acc.2)
  | QueueNativeDesc (Some d) => (acc.1, d =? 1)
  | _ => acc
  end.

(** [isImmediate] is what [zeCommandListIsImmediate] answers; the result is the
    event flags and the flags of the in-order queue. *)
Definition urQueueCreateWithNativeHandle (isImmediate : ur_result_t + bool) (pProperties : list native_property)
    : ur_result_t + Z * Z :=
  let '(fl, isNativeHandleImmediate) := foldl read_native_property (0, true) pProperties in
  if negb isNativeHandleImmediate then inl UR_RESULT_ERROR_UNSUPPORTED_FEATURE else
  match isImmediate with
  | inl r => inl r
  | inr false => inl UR_RESULT_ERROR_UNSUPPORTED_FEATURE
  | inr true => inr (eventFlagsFromQueueFlags fl, fl)
  end.

End OutOfOrder.
