(* ===== verification/OutOfOrderProps.v ===== *)
(** * Ordering and progress of the out-of-order queue

    An invariant of the lists (operations wait only for operations appended
    before them and finish after them), the order that a barrier imposes on the
    four lists, the end of everything that was enqueued, the choice of the lists
    and the creation of the queue over the command list cache and the event pool. *)
From stdpp Require Import base numbers list list_numbers gmap functions relations.
From S2P Require Import Prelude CommandListCache EventPool BatchedQueue OutOfOrderQueue.
Import CommandListCache.
Local Open Scope Z_scope.

Module OutOfOrderProps.
Import OutOfOrder CommandListCacheFacts.

Lemma ooo_bind_inv {A B} (m : M A) (f : A → M B) s r s' :
  (m ≫= f) s = (r, s') →
  (∃ a s1, m s = (inr a, s1) ∧ f a s1 = (r, s')) ∨ (∃ e, m s = (inl e, s') ∧ r = inl e).
Proof.
  unfold mbind, M_bind. destruct (m s) as [[e|a] s1] eqn:E; intros Heq.
  - injection Heq as <- <-. right. by exists e.
  - left. by exists a, s1.
Qed.
Lemma ooo_bind_ret {A B} (m : M A) (f : A → M B) s b s' :
  (m ≫= f) s = (inr b, s') → ∃ a s1, m s = (inr a, s1) ∧ f a s1 = (inr b, s').
Proof. intros [?|(e & _ & [=])]%ooo_bind_inv. done. Qed.

Section proofs.
Context `{OooDriver}.

(** A predicate that every change of the state keeps. *)
Record stable (P : ooo → Prop) : Prop := {
  st_log s c : P s → P (log_ocall c s);
  st_append l o w sig s : (l < numCommandLists)%nat → P s → P (driver_append l o w sig s);
  st_index i s : P s → P (set_index i s);
  st_queue_of e q s : P s → P (set_queue_of e q s);
  st_environment q c r d s : P s → P (environment q c r d s);
  st_run l s s' : run l s = Some s' → P s → P s' }.

Definition keeps (P : ooo → Prop) {A} (m : M A) : Prop := ∀ s r s', m s = (r, s') → P s → P s'.

Section keeps.
Context (P : ooo → Prop) (HP : stable P).

Lemma keeps_ret {A} (a : A) : keeps P (mret a).
Proof. by intros s r s' [= _ <-]. Qed.
Lemma keeps_stop {A} e : keeps P (@stop A e).
Proof. by intros s r s' [= _ <-]. Qed.
Lemma keeps_gets {A} (f : ooo → A) : keeps P (gets f).
Proof. by intros s r s' [= _ <-]. Qed.
Lemma keeps_bind {A B} (m : M A) (f : A → M B) : keeps P m → (∀ a, keeps P (f a)) → keeps P (m ≫= f).
Proof.
  intros Hm Hf s r s' [(a & s1 & E & E')|(e & E & ->)]%ooo_bind_inv Hs; [|by eapply Hm].
  by eapply Hf; [|eapply Hm].
Qed.
Lemma keeps_modify f : (∀ s, P s → P (f s)) → keeps P (modify f).
Proof. intros Hf s r s' [= _ <-]. apply Hf. Qed.
Lemma keeps_when b m : keeps P m → keeps P (when_ b m).
Proof. by destruct b; [|intros _; apply keeps_ret]. Qed.
Lemma keeps_for_each l f : (∀ i, i ∈ l → keeps P (f i)) → keeps P (for_each l f).
Proof.
  induction l as [|i l IH]; intros Hf; [apply keeps_ret|]. apply keeps_bind; [apply Hf; left|].
  intros _. apply IH. intros j Hj. apply Hf. by right.
Qed.
Lemma keeps_ocall c : keeps P (ocall_ c).
Proof. intros s r s'. unfold ocall_. case_match; intros [= _ <-]; apply (st_log _ HP). Qed.
Lemma keeps_append l o w sig : (l < numCommandLists)%nat → keeps P (append l o w sig).
Proof.
  intros Hl. apply keeps_bind; [apply keeps_ocall|]. intros _. apply keeps_modify.
  intros s. by apply (st_append _ HP).
Qed.

Lemma drain_runs stop n : ∀ s, rtc runs s (drain stop n s).
Proof.
  induction n as [|n IH]; intros s; simpl; [done|]. destruct (stop s); [done|].
  destruct (head _) as [s'|] eqn:E; [|done]. apply (rtc_l _ _ s'); [|apply IH].
  apply head_Some in E as [k E].
  assert (s' ∈ runnable s) as (l & _ & Hr)%list_elem_of_omap by (rewrite E; left).
  by exists l.
Qed.
Lemma keeps_runs s s' : rtc runs s s' → P s → P s'.
Proof. intros Hr. apply (rtc_invariant runs P); [|done]. intros x y Hx [l Hy]. by eapply (st_run _ HP). Qed.
Lemma keeps_synchronize l : keeps P (synchronize l).
Proof.
  apply keeps_bind; [apply keeps_ocall|]. intros _. apply keeps_bind.
  - apply keeps_modify. intros s. apply (st_environment _ HP).
  - intros _. apply keeps_bind; [apply keeps_modify; intros s; apply keeps_runs, drain_runs|].
    intros _. apply keeps_bind; [apply keeps_gets|]. intros []; [apply keeps_ret|apply keeps_stop].
Qed.
Lemma keeps_createEvent : keeps P createEvent.
Proof.
  apply keeps_bind.
  - intros s r s'. unfold allocate_event. destruct (ocall_ OEventAllocate s) as [[e|[]] s1] eqn:E;
      intros [= _ <-]; by eapply keeps_ocall.
  - intros e. apply keeps_bind; [|intros _; apply keeps_ret]. apply keeps_modify. intros s. apply (st_queue_of _ HP).
Qed.
Lemma keeps_createEventIfRequested b : keeps P (createEventIfRequested b).
Proof.
  destruct b; [|apply keeps_ret]. apply keeps_bind; [apply keeps_createEvent|]. intros e. apply keeps_ret.
Qed.
Lemma keeps_reuse ph : keeps P (createEventOrReuseIfRequested ph).
Proof.
  destruct ph as [[e|]|]; [| |apply keeps_ret].
  - apply keeps_bind; [|intros _; apply keeps_ret]. apply keeps_modify. intros s. apply (st_queue_of _ HP).
  - apply keeps_bind; [apply keeps_createEvent|]. intros e. apply keeps_ret.
Qed.
Lemma keeps_barrierFn real l w ev : (l < numCommandLists)%nat → keeps P (barrierFn real l w ev).
Proof.
  intros Hl. destruct real; [by apply keeps_append|].
  apply keeps_bind; [|intros _]; apply keeps_when; by apply keeps_append.
Qed.
Lemma keeps_getNextCommandListId w : keeps P (getNextCommandListId w).
Proof.
  intros s r s'. unfold getNextCommandListId. destruct (queryGraphCaptureActive _ s).2 as [[]|];
    [|destruct (existsb _ w)|]; intros [= _ <-]; [done|done|apply (st_index _ HP)|done].
Qed.
Lemma keeps_append_command l k b w ph : (l < numCommandLists)%nat → keeps P (append_command l k b w ph).
Proof.
  intros Hl. apply keeps_bind; [apply keeps_createEventIfRequested|]. intros ev.
  apply keeps_bind; [by apply keeps_append|]. intros _.
  apply keeps_bind; [|intros _; apply keeps_ret]. apply keeps_when, keeps_synchronize.
Qed.
Lemma keeps_append_events_wait l w ph : (l < numCommandLists)%nat → keeps P (append_events_wait l w ph).
Proof.
  intros Hl. apply keeps_bind; [apply keeps_createEventIfRequested|]. intros ev.
  apply keeps_bind; [by apply (keeps_barrierFn false)|]. intros _. apply keeps_ret.
Qed.
Lemma keeps_barrier w ph : keeps P (enqueueEventsWaitWithBarrierExt w ph).
Proof.
  unfold enqueueEventsWaitWithBarrierExt. destruct (match ph with Some (Some e) => _ | _ => _ end); [apply keeps_stop|].
  apply keeps_bind; [apply keeps_gets|]. intros real. apply keeps_bind; [apply keeps_gets|]. intros [].
  { apply keeps_bind; [apply keeps_createEventIfRequested|]. intros ev.
    apply keeps_bind; [apply keeps_barrierFn; unfold captureCmdListManagerIdx, numCommandLists; lia|].
    intros _. apply keeps_ret. }
  apply keeps_bind; [apply keeps_gets|]. intros event_of.
  apply keeps_bind; [apply (keeps_barrierFn false); unfold numCommandLists; lia|]. intros _.
  apply keeps_bind; [apply keeps_for_each; intros i Hi%elem_of_seq; apply (keeps_barrierFn false); lia|]. intros _.
  apply keeps_bind; [apply keeps_gets|]. intros evs. apply keeps_bind.
  - destruct ph; [|apply keeps_ret]. apply keeps_bind; [apply keeps_reuse|]. intros ev.
    apply keeps_bind; [apply keeps_barrierFn; unfold numCommandLists; lia|]. intros _. apply keeps_ret.
  - intros ev. apply keeps_bind; [|intros _; apply keeps_ret].
    apply keeps_for_each. intros i Hi%elem_of_seq. apply keeps_barrierFn. unfold numCommandLists in *. destruct ph; lia.
Qed.
Lemma keeps_queueFinish : keeps P queueFinish.
Proof.
  apply keeps_bind; [|intros _; apply keeps_ocall]. apply keeps_for_each. intros i _.
  apply keeps_bind; [apply keeps_synchronize|]. intros _. apply keeps_ocall.
Qed.
Lemma keeps_all_empty ids : keeps P (all_empty ids).
Proof.
  induction ids as [|l ids IH]; [apply keeps_ret|]. apply keeps_bind; [apply keeps_ocall|]. intros _.
  apply keeps_bind; [apply keeps_gets|]. intros []; [done|apply keeps_ret].
Qed.
Lemma keeps_capture c b : keeps P (if o_graph then ocall_ c ≫= λ _, modify (set_capturing captureCmdListManagerIdx b)
                                   else stop (Error UR_RESULT_ERROR_UNSUPPORTED_FEATURE)).
Proof.
  destruct o_graph; [|apply keeps_stop]. apply keeps_bind; [apply keeps_ocall|]. intros _.
  apply keeps_modify. intros s. apply (st_environment _ HP).
Qed.

Lemma step_keeps s s' : step s s' → P s → P s'.
Proof.
  destruct 1 as [w r s s' E|l k b w ph r s s' Hl E|ph r s s' E|l w ph r s s' Hl E|w ph r s s' E|r s s' E|r s s' E|r s s' E|r s s' E|l s s' E|].
  - by eapply keeps_getNextCommandListId.
  - by eapply keeps_append_command.
  - by eapply keeps_createEventIfRequested.
  - by eapply keeps_append_events_wait.
  - by eapply keeps_barrier.
  - by eapply keeps_queueFinish.
  - by eapply keeps_all_empty.
  - by eapply keeps_capture.
  - by eapply keeps_capture.
  - by eapply (st_run _ HP).
  - apply (st_environment _ HP).
Qed.
Lemma steps_keep s s' : rtc step s s' → P s → P s'.
Proof. apply (rtc_invariant step P). intros x y Hx Hy. by eapply step_keeps. Qed.
End keeps.

(** ** The invariant

    Numbers order the operations by their appends; an operation waits only for
    operations with smaller numbers, and has not finished before them. *)
Record ooo_inv (s : ooo) : Prop := {
  oi_finished l : (finished s l ≤ length (lists s l))%nat;
  oi_four l : (numCommandLists ≤ l)%nat → lists s l = [];
  oi_number l k x : lists s l !! k = Some x → (number x < next s)%nat;
  oi_sorted l k k' x x' : (k < k')%nat → lists s l !! k = Some x → lists s l !! k' = Some x' → (number x < number x')%nat;
  oi_deps l k x l' k' : lists s l !! k = Some x → After (l', k') ∈ deps x →
    ∃ y, lists s l' !! k' = Some y ∧ (number y < number x)%nat;
  oi_signals e l k : signals s !! e = Some (l, k) → is_Some (lists s l !! k);
  oi_done l k x d : (k < finished s l)%nat → lists s l !! k = Some x → d ∈ deps x → satisfied s d = true }.

(** Later states of a queue. *)
Definition grows (s s' : ooo) : Prop :=
  (∀ l, lists s l `prefix_of` lists s' l) ∧ (∀ l, (finished s l ≤ finished s' l)%nat) ∧ completed s ⊆ completed s'.

#[export] Instance grows_preorder : PreOrder grows.
Proof.
  split.
  - intros s. split_and!; done.
  - intros s1 s2 s3 (H1 & H2 & H3) (H1' & H2' & H3'). split_and!; [intros l|intros l|set_solver].
    + by transitivity (lists s2 l).
    + by transitivity (finished s2 l).
Qed.

Lemma satisfied_grows s s' d : grows s s' → satisfied s d = true → satisfied s' d = true.
Proof.
  intros (_ & Hf & Hc). destruct d as [[l k]|e]; simpl.
  - rewrite !Nat.ltb_lt. specialize (Hf l). lia.
  - rewrite !bool_decide_eq_true. set_solver.
Qed.

Lemma ooo_run_inv l s s' : run l s = Some s' →
  ∃ x, lists s l !! finished s l = Some x ∧ Forall (λ d, satisfied s d = true) (deps x) ∧
    s' = set_finished (<[l := S (finished s l)]> (finished s)) s.
Proof.
  unfold run. destruct (lists s l !! _) as [x|] eqn:E; [|done]. destruct (forallb _ _) eqn:Ef; intros [= <-].
  exists x. split_and!; [done| |done]. apply Forall_forall. intros d Hd. rewrite forallb_forall in Ef.
  apply Ef. by apply list_elem_of_In.
Qed.

Lemma driver_append_lists l o w sig s l' :
  lists (driver_append l o w sig s) l' = lists s l' ∨
  (l' = l ∧ records s l w = false ∧
   lists (driver_append l o w sig s) l' =
     lists s l ++ [{| op := o; number := next s; deps := source s <$> w; signal := sig |}]).
Proof.
  simpl. destruct (records s l w); [by left|]. destruct (decide (l' = l)) as [-> | Hl].
  - right. split_and!; [done..|]. by rewrite fn_lookup_insert.
  - left. by rewrite fn_lookup_insert_ne.
Qed.

Lemma stable_grows s0 : stable (grows s0).
Proof.
  split; try (intros; done).
  - intros l o w sig s _ (Hl & Hf & Hc). split_and!; [|done..]. intros l'.
    destruct (driver_append_lists l o w sig s l') as [-> | (-> & _ & ->)]; [done|]. apply prefix_app_r, Hl.
  - intros q c r d s (Hl & Hf & Hc). split_and!; [done..|]. simpl. set_solver.
  - intros l s s' (x & Hx & _ & ->)%ooo_run_inv (Hl & Hf & Hc). split_and!; [done| |done]. intros l'. simpl.
    destruct (decide (l' = l)) as [-> | Hne]; [|by rewrite fn_lookup_insert_ne].
    rewrite fn_lookup_insert. specialize (Hf l). lia.
Qed.

(** What a list holds after an append: what it held, or the new operation. *)
Lemma append_lookup l o w sig s l' k x :
  lists (driver_append l o w sig s) l' !! k = Some x →
  lists s l' !! k = Some x ∨
  (l' = l ∧ k = length (lists s l) ∧ number x = next s ∧ deps x = source s <$> w).
Proof.
  destruct (driver_append_lists l o w sig s l') as [-> | (-> & _ & ->)]; [by left|].
  rewrite lookup_app_Some, list_lookup_singleton_Some. intros [?|(Hk & Hk' & <-)]; [by left|].
  right. split_and!; [done|lia|done..].
Qed.
Lemma append_lookup_old l o w sig s l' k x :
  lists s l' !! k = Some x → lists (driver_append l o w sig s) l' !! k = Some x.
Proof.
  intros Hx. destruct (driver_append_lists l o w sig s l') as [-> | (-> & _ & ->)]; [done|].
  by apply lookup_app_l_Some.
Qed.

Lemma source_after s (w : list Z) l k : After (l, k) ∈ source s <$> w → ∃ e, signals s !! e = Some (l, k).
Proof.
  intros (e & He & _)%list_elem_of_fmap. exists e. unfold source in He. destruct (signals s !! e) as [p|]; [by injection He as ->|done].
Qed.

Lemma append_signals l o w sig s e p :
  signals (driver_append l o w sig s) !! e = Some p →
  signals s !! e = Some p ∨ (p = (l, length (lists s l)) ∧ records s l w = false).
Proof.
  simpl. destruct sig as [e'|]; [|by left]. destruct (records s l w).
  - rewrite lookup_delete_Some. intros [_ ?]. by left.
  - rewrite lookup_insert_Some. intros [[_ <-]|[_ ?]]; [by right|by left].
Qed.

Lemma inv_append l o w sig s : (l < numCommandLists)%nat → ooo_inv s → ooo_inv (driver_append l o w sig s).
Proof.
  intros Hl []. split.
  - intros l'. change (finished (driver_append l o w sig s)) with (finished s). specialize (oi_finished0 l').
    destruct (driver_append_lists l o w sig s l') as [-> | (-> & _ & ->)]; [done|]. rewrite length_app. simpl. lia.
  - intros l' Hl'. destruct (driver_append_lists l o w sig s l') as [-> | (-> & _ & _)]; [by apply oi_four0|lia].
  - intros l' k x [Hx|(_ & _ & -> & _)]%append_lookup; simpl; [|lia]. apply oi_number0 in Hx. lia.
  - intros l' k k' x x' Hk Hx Hx'.
    apply append_lookup in Hx as [Hx|(El0 & -> & _)]; apply append_lookup in Hx' as [Hx'|(El & -> & -> & _)].
    + eauto.
    + by apply oi_number0 in Hx.
    + subst l'. apply lookup_lt_Some in Hx'. lia.
    + lia.
  - intros l' k x l'' k'' Hx Hd. apply append_lookup in Hx as [Hx|(-> & -> & En & Ed)].
    + destruct (oi_deps0 _ _ _ _ _ Hx Hd) as (y & Hy & Hlt). exists y. split; [by apply append_lookup_old|done].
    + rewrite Ed in Hd. apply source_after in Hd as [e He]. destruct (oi_signals0 _ _ _ He) as [y Hy].
      exists y. split; [by apply append_lookup_old|]. rewrite En. by apply oi_number0 in Hy.
  - intros e l' k [Hs|[[= -> ->] Hr]]%append_signals.
    + destruct (oi_signals0 _ _ _ Hs) as [y Hy]. exists y. by apply append_lookup_old.
    + simpl. rewrite Hr, fn_lookup_insert. exists {| op := o; number := next s; deps := source s <$> w; signal := sig |}. apply list_lookup_middle. done.
  - intros l' k x d Hk Hx Hd. change (satisfied s d = true). simpl finished in Hk.
    apply append_lookup in Hx as [Hx|(-> & -> & _)]; [by eapply oi_done0|]. specialize (oi_finished0 l). lia.
Qed.

Lemma run_grows l s s' : run l s = Some s' → grows s s'.
Proof. intros Hr. by apply (st_run _ (stable_grows s) l s). Qed.

Lemma inv_run l s s' : run l s = Some s' → ooo_inv s → ooo_inv s'.
Proof.
  intros Hr Hi. pose proof (run_grows _ _ _ Hr) as Hg. apply ooo_run_inv in Hr as (x & Hx & Hd & ->). destruct Hi.
  split; try done.
  - intros l'. simpl. destruct (decide (l' = l)) as [-> | Hne]; [|by rewrite fn_lookup_insert_ne].
    rewrite fn_lookup_insert. apply lookup_lt_Some in Hx. lia.
  - intros l' k y d Hk Hy Hd'. eapply satisfied_grows; [exact Hg|]. simpl in Hk, Hy.
    destruct (decide (l' = l)) as [-> | Hne]; [|rewrite fn_lookup_insert_ne in Hk by done; by eapply oi_done0].
    rewrite fn_lookup_insert in Hk. destruct (decide (k = finished s l)) as [-> | Hk'].
    + rewrite Hx in Hy. injection Hy as <-. rewrite Forall_forall in Hd. by apply Hd.
    + eapply oi_done0; [|done..]. lia.
Qed.

Lemma stable_inv : stable ooo_inv.
Proof.
  split.
  - by intros s c [].
  - intros. by apply inv_append.
  - by intros i s [].
  - by intros e q s [].
  - intros q c r d s [] . split; try done. intros l k x y Hk Hx Hy.
    eapply satisfied_grows; [|by eapply oi_done0]. by apply (st_environment _ (stable_grows s)).
  - intros. by eapply inv_run.
Qed.

Lemma ooo_inv_new fl evs : ooo_inv (new_ooo fl evs).
Proof.
  split; simpl; try done; try lia.
Qed.

Lemma ooo_reachable_inv fl evs s : rtc step (new_ooo fl evs) s → ooo_inv s.
Proof. intros Hs. eapply (steps_keep _ stable_inv), ooo_inv_new; done. Qed.
Lemma steps_grow s s' : rtc step s s' → grows s s'.
Proof. intros Hs. by apply (steps_keep _ (stable_grows s) s). Qed.

(** ** Running *)

Lemma runs_grow s s' : rtc runs s s' → grows s s'.
Proof. intros Hr. by apply (keeps_runs _ (stable_grows s) s). Qed.
Lemma runs_inv s s' : rtc runs s s' → ooo_inv s → ooo_inv s'.
Proof. apply (keeps_runs _ stable_inv). Qed.
Lemma runs_same s s' : rtc runs s s' → lists s' = lists s ∧ completed s' = completed s ∧ calls s' = calls s.
Proof.
  induction 1 as [|s1 s2 s3 [l (x & _ & _ & ->)%ooo_run_inv] _ (-> & -> & ->)]; done.
Qed.

Lemma run_four l s s' : ooo_inv s → run l s = Some s' → (l < numCommandLists)%nat.
Proof.
  intros Hi (x & Hx & _)%ooo_run_inv. destruct (decide (l < numCommandLists)%nat); [done|].
  rewrite (oi_four _ Hi) in Hx by lia. done.
Qed.

Lemma sum_list_with_ext (f g : nat → nat) l : (∀ i, i ∈ l → g i = f i) → sum_list_with g l = sum_list_with f l.
Proof.
  induction l as [|i l IH]; [done|]. intros Hf. simpl. rewrite (Hf i) by left. rewrite IH; [done|].
  intros j Hj. apply Hf. by right.
Qed.
Lemma sum_list_with_strict (f g : nat → nat) l k :
  k ∈ l → NoDup l → g k = S (f k) → (∀ i, i ∈ l → i ≠ k → g i = f i) → sum_list_with g l = S (sum_list_with f l).
Proof.
  induction l as [|i l IH]; [by intros ?%elem_of_nil|]. rewrite NoDup_cons. intros Hk [Hi Hl] Hg Hn. simpl.
  destruct (decide (i = k)) as [-> | Hne].
  - rewrite Hg. enough (sum_list_with g l = sum_list_with f l) by lia.
    apply sum_list_with_ext. intros j Hj. apply Hn; [by right|]. by intros ->.
  - apply elem_of_cons in Hk as [->|Hk]; [done|]. rewrite (Hn i) by (done || left).
    rewrite IH; [lia|done..|]. intros j Hj. apply Hn. by right.
Qed.

(** Every operation that finishes leaves one less to do. *)
Lemma run_pending l s s' : ooo_inv s → run l s = Some s' → pending s = S (pending s').
Proof.
  intros Hi Hr. pose proof (run_four _ _ _ Hi Hr) as Hl. apply ooo_run_inv in Hr as (x & Hx & _ & ->).
  apply (sum_list_with_strict _ _ _ l); [apply elem_of_seq; lia|apply NoDup_seq| |].
  - unfold unfinished. simpl. rewrite fn_lookup_insert. apply lookup_lt_Some in Hx. lia.
  - intros i _ Hne. unfold unfinished. simpl. by rewrite fn_lookup_insert_ne.
Qed.

(** Other queues' events complete and the driver finishes an operation. *)
Definition advances (s s' : ooo) : Prop := ∃ d l, run l (complete d s) = Some s'.

Lemma complete_inv d s : ooo_inv s → ooo_inv (complete d s).
Proof. apply (st_environment _ stable_inv). Qed.
Lemma advances_inv s s' : advances s s' → ooo_inv s → ooo_inv s'.
Proof. intros (d & l & Hr) Hi. eapply inv_run; [exact Hr|by apply complete_inv]. Qed.
Lemma advances_pending n s s' : nsteps advances n s s' → ooo_inv s → pending s = (n + pending s')%nat.
Proof.
  induction 1 as [s|n s1 s2 s3 (d & l & Hr) _ IH]; [done|]. intros Hi.
  change (pending s1) with (pending (complete d s1)).
  rewrite (run_pending _ _ _ (complete_inv d _ Hi) Hr), IH; [done|]. eapply inv_run; [exact Hr|by apply complete_inv].
Qed.

(** An unfinished operation waits for an event of another queue that has not
    completed. *)
Definition awaits_foreign (s : ooo) (e : Z) : Prop :=
  ∃ l k x, (finished s l ≤ k)%nat ∧ lists s l !! k = Some x ∧ Foreign e ∈ deps x ∧ e ∉ completed s.

(** The operation with the smallest number among the unfinished ones can run, or
    waits for another queue. *)
Lemma progress s n : ooo_inv s →
  ∀ l x, lists s l !! finished s l = Some x → number x = n →
  (∃ l', is_Some (run l' s)) ∨ ∃ e, awaits_foreign s e.
Proof.
  intros Hi. induction (lt_wf n) as [n _ IH]. intros l x Hx Hn.
  destruct (forallb (satisfied s) (deps x)) eqn:Hs; [left; exists l; unfold run; rewrite Hx, Hs; by eexists|].
  assert (∃ d, d ∈ deps x ∧ satisfied s d = false) as (d & Hd & Hns).
  { clear -Hs. induction (deps x) as [|d ds IHd]; [done|]. simpl in Hs. apply andb_false_iff in Hs as [Hs|Hs].
    - exists d. split; [left|done].
    - destruct (IHd Hs) as (d' & ? & ?). exists d'. split; [by right|done]. }
  destruct d as [[l' k']|e].
  - destruct (oi_deps _ Hi _ _ _ _ _ Hx Hd) as (y & Hy & Hlt). simpl in Hns. apply Nat.ltb_ge in Hns.
    destruct (lookup_lt_is_Some_2 (lists s l') (finished s l')) as [z Hz].
    { apply lookup_lt_Some in Hy. lia. }
    apply (IH (number z)) with (l := l') (x := z); [|done..].
    destruct (decide (finished s l' = k')) as [Ek|Ek]; [rewrite <-Ek in Hy; by simplify_eq|].
    pose proof (oi_sorted _ Hi l' (finished s l') k' z y ltac:(lia) Hz Hy). lia.
  - simpl in Hns. apply bool_decide_eq_false in Hns. right. exists e, l, (finished s l), x. by split_and!.
Qed.

Lemma stuck_idle s : ooo_inv s → (∀ l, run l s = None) → ∀ l, idle s l = true ∨ ∃ e, awaits_foreign s e.
Proof.
  intros Hi Hn l. unfold idle. rewrite Nat.eqb_eq. pose proof (oi_finished _ Hi l).
  destruct (decide (finished s l = length (lists s l))) as [|Hne]; [by left|].
  destruct (lookup_lt_is_Some_2 (lists s l) (finished s l)) as [x Hx]; [lia|].
  destruct (progress s _ Hi l x Hx eq_refl) as [(l' & s' & Hr)|?]; [by rewrite Hn in Hr|by right].
Qed.

Lemma drain_stuck stop n : ∀ s, ooo_inv s → (pending s ≤ n)%nat →
  stop (drain stop n s) = true ∨ ∀ l, run l (drain stop n s) = None.
Proof.
  induction n as [|n IH]; intros s Hi Hp; simpl.
  - right. intros l. destruct (run l s) as [s'|] eqn:E; [|done]. rewrite (run_pending _ _ _ Hi E) in Hp. lia.
  - destruct (stop s) eqn:Es; [by left|]. destruct (head (runnable s)) as [s'|] eqn:E.
    + apply head_Some in E as [k E]. assert (s' ∈ runnable s) as (l' & _ & Hr)%list_elem_of_omap by (rewrite E; left).
      apply IH; [by eapply inv_run|]. rewrite (run_pending _ _ _ Hi Hr) in Hp. lia.
    + right. intros l. destruct (run l s) as [s'|] eqn:Er; [|done].
      assert (s' ∈ runnable s) as Hin.
      { apply list_elem_of_omap. exists l. split; [|done]. apply elem_of_seq. pose proof (run_four _ _ _ Hi Er). lia. }
      apply head_None in E. rewrite E in Hin. by apply elem_of_nil in Hin.
Qed.

(** The driver gets a list idle if it runs what it can, or another queue is waited for. *)
Lemma drain_idle s l : ooo_inv s →
  let s' := drain (λ s, idle s l) (pending s) s in idle s' l = true ∨ ∃ e, awaits_foreign s' e.
Proof.
  intros Hi s'. pose proof (drain_runs (λ s, idle s l) (pending s) s) as Hr.
  destruct (drain_stuck (λ s, idle s l) (pending s) s Hi (le_n _)) as [?|Hn]; [by left|].
  apply stuck_idle; [by eapply runs_inv|done].
Qed.

Lemma idle_runs s s' l : rtc runs s s' → ooo_inv s → idle s l = true → idle s' l = true.
Proof.
  intros Hr Hi. unfold idle. rewrite !Nat.eqb_eq. pose proof (oi_finished _ (runs_inv _ _ Hr Hi) l) as Hf.
  destruct (runs_grow _ _ Hr) as (_ & Hg & _). specialize (Hg l). rewrite (proj1 (runs_same _ _ Hr)) in *. lia.
Qed.

(** What the query of emptiness answers is true. *)
Theorem queueGetInfo_EMPTY_spec s b s' : queueGetInfo_EMPTY s = (inr b, s') → b = queueIsEmpty s.
Proof.
  unfold queueGetInfo_EMPTY, queueIsEmpty. revert s. induction (seq 0 numCommandLists) as [|l ids IH]; intros s; [by intros [= <- _]|].
  intros ([] & s1 & E1 & E)%ooo_bind_ret. apply ooo_bind_ret in E as (i & s2 & [= <- <-] & E).
  unfold ocall_ in E1. destruct (o_error _ _); [done|]. injection E1 as <-. simpl.
  change (idle (log_ocall (OPoll l) s) l) with (idle s l) in E. destruct (idle s l); [|by injection E as <- _].
  by apply IH in E.
Qed.

(** A state in which [ls] has been appended. *)
Definition with_lists (ls : nat → list appended) (s : ooo) : Prop := ooo_inv s ∧ lists s = ls.

Lemma lists_ocall ls c s r s' : ocall_ c s = (r, s') → with_lists ls s →
  with_lists ls s' ∧ (∀ l, idle s' l = idle s l) ∧ (r = inr tt ∨ ∃ e, r = inl (Error e)).
Proof.
  unfold ocall_. destruct (o_error (calls s) c) as [e|]; intros [= <- <-] (Hi & Hl).
  all: split_and!; [split; [by apply (st_log _ stable_inv)|done]|done|by eauto].
Qed.

(** A wait that does not end: an event of another queue is waited for that does
    not complete during it. *)
Definition blocked (s : ooo) : Prop :=
  ∃ e tr l, awaits_foreign s e ∧ e ∉ o_completes (tr ++ [OSynchronize l]).

Lemma synchronize_spec ls l s r s' : with_lists ls s → synchronize l s = (r, s') →
  with_lists ls s' ∧ (∀ l', idle s l' = true → idle s' l' = true) ∧
  ((∃ e, r = inl (Error e)) ∨ (r = inr tt ∧ idle s' l = true) ∨ (r = inl NoReturn ∧ blocked s')).
Proof.
  intros Hd [([] & s1 & E1 & E)|(e & E1 & ->)]%ooo_bind_inv.
  - assert (calls s1 = calls s ++ [OSynchronize l]) as Ec.
    { unfold ocall_ in E1. destruct (o_error _ _); [done|]. by injection E1 as <-. }
    apply (lists_ocall ls) in E1 as ((Hi & Hl) & Hid & _); [|done].
    unfold modify, gets, mbind, M_bind in E. simpl in E. set (s2 := complete (o_completes (calls s1)) s1) in *.
    assert (ooo_inv s2) as Hi2 by by apply complete_inv.
    pose proof (drain_runs (λ s, idle s l) (pending s2) s2) as Hr. pose proof (drain_idle s2 l Hi2) as Hdi.
    set (s3 := drain _ _ s2) in *. assert (with_lists ls s3) as Hd3.
    { split; [by eapply runs_inv|]. by rewrite (proj1 (runs_same _ _ Hr)). }
    assert (∀ l', idle s l' = true → idle s3 l' = true) as Hmono.
    { intros l' Hl'. eapply idle_runs; [done|done|]. change (idle s1 l' = true). by rewrite Hid. }
    destruct (idle s3 l) eqn:E3; injection E as <- <-; (split; [done|split; [done|]]); right; [by left|right].
    split; [done|]. destruct Hdi as [Hdi|[e He]]; [by rewrite E3 in Hdi|]. exists e, (calls s), l. split; [done|].
    destruct He as (l' & k & x & _ & _ & _ & Hc). destruct (runs_same _ _ Hr) as (_ & Hcc & _).
    rewrite Hcc in Hc. rewrite <-Ec. unfold s2, complete, environment in Hc. simpl in Hc. set_solver.
  - apply (lists_ocall ls) in E1 as (Hd1 & Hid & Hr1); [|done]. split; [done|].
    split; [intros l' Hl'; by rewrite Hid|]. left. destruct Hr1 as [[=]|[e' [= ->]]]. by exists e'.
Qed.

Lemma finish_loop ids : ∀ ls s r s', with_lists ls s →
  for_each ids (λ l, synchronize l ≫= λ _, ocall_ (OReleaseSubmittedKernels l)) s = (r, s') →
  with_lists ls s' ∧
  ((∃ e, r = inl (Error e)) ∨ (r = inr tt ∧ ∀ l, l ∈ ids ∨ idle s l = true → idle s' l = true) ∨
   (r = inl NoReturn ∧ blocked s')).
Proof.
  induction ids as [|i ids IH]; intros ls s r s' Hd.
  { intros [= <- <-]. split; [done|]. right. left. split; [done|]. by intros l [?%elem_of_nil|?]. }
  intros [([] & s2 & E12 & E2)|(e & E12 & ->)]%ooo_bind_inv;
    apply ooo_bind_inv in E12 as [([] & s1 & E1 & E12)|(e1 & E1 & Er1)];
    apply (synchronize_spec ls) in E1 as (Hd1 & Hk1 & Hi1); try done.
  - apply (lists_ocall ls) in E12 as (Hd2 & Hid & _); [|done].
    apply (IH ls) in E2 as (Hd' & [He|[[-> Hids]|Hb]]); [| | |done]; (split; [done|]); [by left| |by right; right].
    right. left. split; [done|]. destruct Hi1 as [(e & [=])|[[_ Hi1]|[[=] _]]].
    intros l [[-> | Hl]%elem_of_cons|Hl]; apply Hids; [right; by rewrite Hid|by left|right; rewrite Hid; by apply Hk1].
  - apply (lists_ocall ls) in E12 as (Hd2 & _ & [[=]|[e' [= ->]]]); [|done]. split; [done|]. left. by eexists.
  - injection Er1 as ->. split; [done|]. destruct Hi1 as [?|[[[=] _]|[[= ->] ?]]]; [by left|by right; right].
Qed.


(** ** Barriers *)

(** Whoever has waited for [d], from state [s] on, knows [Q]. *)
Definition entails (s : ooo) (d : dep) (Q : ooo → Prop) : Prop :=
  ∀ s', ooo_inv s' → grows s s' → satisfied s' d = true → Q s'.

Lemma entails_grows s s' d Q : grows s s' → entails s d Q → entails s' d Q.
Proof. intros Hg Hq s'' Hi Hg'. apply Hq; [done|]. by etrans. Qed.
Lemma entails_mono s d (Q Q' : ooo → Prop) : (∀ s', Q s' → Q' s') → entails s d Q → entails s d Q'.
Proof. intros HQ Hq s' Hi Hg Hs. apply HQ. by apply Hq. Qed.

(** An operation, and those after it in its list, know what its waits know. *)
Lemma entails_after s l k k' x d Q :
  lists s l !! k = Some x → d ∈ deps x → entails s d Q → (k ≤ k')%nat → entails s (After (l, k')) Q.
Proof.
  intros Hx Hd Hq Hk s' Hi Hg Hs. apply Hq; [done..|]. apply Nat.ltb_lt in Hs.
  eapply (oi_done _ Hi l k x); [lia| |done]. destruct Hg as (Hp & _). by eapply prefix_lookup_Some.
Qed.

(** An operation of a list knows that those before it have finished. *)
Lemma entails_list s l n k : (n ≤ S k)%nat → entails s (After (l, k)) (λ s', (n ≤ finished s' l)%nat).
Proof. intros Hn s' _ _ Hs%Nat.ltb_lt. lia. Qed.

Lemma append_uncaptured l o (w : list Z) sig s s' :
  append l o w sig s = (inr tt, s') → capturing s l = false → (∀ e, e ∈ w → e ∉ recorded s) →
  lists s' = <[l := lists s l ++ [{| op := o; number := next s; deps := source s <$> w; signal := sig |}]]> (lists s) ∧
  signals s' = (match sig with Some e => <[e := (l, length (lists s l))]> (signals s) | None => signals s end) ∧
  (∀ l', capturing s' l' = capturing s l') ∧
  recorded s' = (match sig with Some e => recorded s ∖ {[e]} | None => recorded s end) ∧
  barrierEvents s' = barrierEvents s.
Proof.
  intros ([] & s1 & E1 & E)%ooo_bind_ret Hc Hw. injection E as <-.
  unfold ocall_ in E1. destruct (o_error _ _); [done|]. injection E1 as <-.
  set (s1 := log_ocall _ s). assert (records s1 l w = false) as Hr.
  { unfold records. apply orb_false_iff. split; [done|].
    apply not_true_is_false. intros (e & He & Hb%bool_decide_eq_true)%existsb_exists.
    by apply (Hw e); [apply list_elem_of_In|]. }
  unfold driver_append. rewrite Hr. simpl. split_and!; try done.
  intros l'. destruct (decide (l' = l)) as [-> | Hne]; [by rewrite fn_lookup_insert|by rewrite fn_lookup_insert_ne].
Qed.

Definition waited (s : ooo) (l : nat) (w : list Z) (s' : ooo) : Prop :=
  (length (lists s l) ≤ finished s' l)%nat ∧ ∀ e, e ∈ w → satisfied s' (source s e) = true.

(** What a function that appends waits leaves. *)
Record fenced (l : nat) (w : list Z) (ev : option Z) (s s' : ooo) : Prop := {
  fc_after k : (length (lists s' l) ≤ S k)%nat → entails s' (After (l, k)) (waited s l w);
  fc_signal e : ev = Some e → entails s' (source s' e) (waited s l w) ∧ e ∉ recorded s' ∧ is_Some (signals s' !! e);
  fc_source e : Some e ≠ ev → signals s' !! e = signals s !! e;
  fc_grows : grows s s';
  fc_capturing l' : capturing s' l' = capturing s l';
  fc_recorded e : e ∉ recorded s → e ∉ recorded s';
  fc_events : barrierEvents s' = barrierEvents s;
  fc_lists l' : (length (lists s l') ≤ length (lists s' l'))%nat }.

Lemma keeps_grows_ret {A} (m : M A) s (a : A) s' : keeps (grows s) m → m s = (inr a, s') → grows s s'.
Proof. intros Hk E. by eapply Hk; [exact E|]. Qed.

Lemma append_fenced l o (w : list Z) ev s s' :
  (l < numCommandLists)%nat → append l o w ev s = (inr tt, s') → capturing s l = false →
  (∀ e, e ∈ w → e ∉ recorded s) → fenced l w ev s s'.
Proof.
  intros Hl E Hc Hw. pose proof (keeps_grows_ret _ _ _ _ (keeps_append _ (stable_grows s) l o w ev Hl) E) as Hg.
  destruct (append_uncaptured _ _ _ _ _ _ E Hc Hw) as (El & Es & Ec & Er & Ee).
  set (x := {| op := o |}) in *.
  assert (lists s' l !! length (lists s l) = Some x) as Hx.
  { rewrite El, fn_lookup_insert. by apply list_lookup_middle. }
  assert (∀ k, (length (lists s l) ≤ k)%nat → entails s' (After (l, k)) (waited s l w)) as Ha.
  { intros k Hk s'' Hi Hg' Hs. split; [by apply (entails_list s' l (length (lists s l)) k); [lia|..]|]. intros e He.
    refine (entails_after s' l _ k x (source s e) (λ s0, satisfied s0 (source s e) = true) Hx _ _ Hk s'' Hi Hg' Hs).
    - by apply list_elem_of_fmap_2.
    - by intros s3 _ _ ?. }
  split; try done.
  - intros k Hk. apply Ha. rewrite El, fn_lookup_insert, length_app in Hk. simpl in Hk. lia.
  - intros e ->. rewrite Er, Es. unfold source. rewrite Es, lookup_insert_eq. split_and!; [by apply Ha|set_solver|done].
  - intros e He. rewrite Es. destruct ev as [e'|]; [|done]. rewrite lookup_insert_ne; [done|]. congruence.
  - intros e He. rewrite Er. destruct ev; set_solver.
  - intros l'. destruct Hg as (Hp & _). by apply prefix_length.
Qed.

Lemma fenced_nothing l s : fenced l [] None s s.
Proof.
  split; try done. intros k Hk s' _ _ Hs%Nat.ltb_lt. split; [lia|]. by intros e ?%elem_of_nil.
Qed.

Lemma fenced_then l (w : list Z) ev s s1 s' :
  (w = [] ∨ lists s1 l ≠ []) → fenced l w None s s1 → fenced l [] ev s1 s' → fenced l w ev s s'.
Proof.
  intros Hne F1 F2.
  assert (∀ s'', ooo_inv s'' → grows s1 s'' → waited s1 l [] s'' → waited s l w s'') as Hw.
  { intros s'' Hi Hg [Hf _]. pose proof (fc_lists _ _ _ _ _ F1 l) as Hl.
    destruct (decide (lists s1 l = [])) as [En|Hn].
    - destruct Hne as [-> |?]; [|done]. split; [lia|]. by intros e ?%elem_of_nil.
    - apply (fc_after _ _ _ _ _ F1 (length (lists s1 l) - 1)); [lia|done..|]. apply Nat.ltb_lt.
      destruct (lists s1 l); [done|]. simpl in *. lia. }
  pose proof (fc_grows _ _ _ _ _ F2) as Hg2. split.
  - intros k Hk. apply (entails_grows s1); [done|]. apply (fc_after _ _ _ _ _ F1).
    pose proof (fc_lists _ _ _ _ _ F2 l). lia.
  - intros e He. destruct (fc_signal _ _ _ _ _ F2 e He) as (Hs & Hr & Hx). split_and!; [|done..].
    intros s'' Hi Hg Hs'. apply Hw; [done|by etrans|]. by apply Hs.
  - intros e He. rewrite (fc_source _ _ _ _ _ F2) by done. by apply (fc_source _ _ _ _ _ F1).
  - etrans; [apply (fc_grows _ _ _ _ _ F1)|done].
  - intros l'. rewrite (fc_capturing _ _ _ _ _ F2). apply (fc_capturing _ _ _ _ _ F1).
  - intros e He. by apply (fc_recorded _ _ _ _ _ F2), (fc_recorded _ _ _ _ _ F1).
  - rewrite (fc_events _ _ _ _ _ F2). apply (fc_events _ _ _ _ _ F1).
  - intros l'. etrans; [apply (fc_lists _ _ _ _ _ F1)|apply (fc_lists _ _ _ _ _ F2)].
Qed.

Lemma barrierFn_fenced real l (w : list Z) ev s s' :
  (l < numCommandLists)%nat → barrierFn real l w ev s = (inr tt, s') → capturing s l = false →
  (∀ e, e ∈ w → e ∉ recorded s) → fenced l w ev s s'.
Proof.
  intros Hl. destruct real; [by apply append_fenced|]. intros ([] & s1 & E1 & E2)%ooo_bind_ret Hc Hw.
  assert ((w = [] ∨ lists s1 l ≠ []) ∧ fenced l w None s s1) as [Hne F1].
  { destruct (decide (w = [])) as [-> | Hn].
    - injection E1 as <-. split; [by left|apply fenced_nothing].
    - rewrite bool_decide_eq_true_2 in E1 by done. pose proof (append_fenced _ _ _ _ _ _ Hl E1 Hc Hw) as F1.
      split; [|done]. right. destruct (append_uncaptured _ _ _ _ _ _ E1 Hc Hw) as (-> & _).
      rewrite fn_lookup_insert. by destruct (lists s l). }
  apply (fenced_then l w ev s s1 s' Hne F1). destruct ev as [e|]; [|injection E2 as <-; apply fenced_nothing].
  apply (append_fenced _ _ _ _ _ _ Hl E2); [by rewrite (fc_capturing _ _ _ _ _ F1)|]. by intros e' ?%elem_of_nil.
Qed.

(** [Q j] is known to who waits for the event of list [j], and nothing is captured. *)
Record fence (evs : list Z) (js : nat → Prop) (Q : nat → ooo → Prop) (s : ooo) : Prop := {
  fe_known j : js j → (j < numCommandLists)%nat → entails s (source s (nth j evs 0)) (Q j);
  fe_recorded j : js j → (j < numCommandLists)%nat → nth j evs 0 ∉ recorded s;
  fe_capturing l : (l < numCommandLists)%nat → capturing s l = false;
  fe_events : barrierEvents s = evs }.

Lemma fence_step evs (js : nat → Prop) Q l (w : list Z) ev s s' (js' : nat → Prop) :
  fence evs js Q s → fenced l w ev s s' →
  (∀ j, js' j → (j < numCommandLists)%nat → (js j ∧ Some (nth j evs 0) ≠ ev) ∨
     (ev = Some (nth j evs 0) ∧ ∀ s'', ooo_inv s'' → grows s s'' → waited s l w s'' → Q j s'')) →
  fence evs js' Q s'.
Proof.
  intros [] F Hj. split.
  - intros j Hj' Hlt. destruct (Hj j Hj' Hlt) as [[Hjs Hne]|[He Hq]].
    + unfold source. rewrite (fc_source _ _ _ _ _ F) by done.
      eapply entails_grows; [apply (fc_grows _ _ _ _ _ F)|]. by apply fe_known0.
    + intros s'' Hi Hg Hs. pose proof (fc_grows _ _ _ _ _ F) as Hg'. apply Hq; [done|by etrans|].
      by apply (proj1 (fc_signal _ _ _ _ _ F _ He) s'').
  - intros j Hj' Hlt. destruct (Hj j Hj' Hlt) as [[Hjs Hne]|[He Hq]].
    + by apply (fc_recorded _ _ _ _ _ F), fe_recorded0.
    + by apply (fc_signal _ _ _ _ _ F).
  - intros l' Hl'. rewrite (fc_capturing _ _ _ _ _ F). by apply fe_capturing0.
  - by rewrite (fc_events _ _ _ _ _ F).
Qed.

(** Everything appended before [s] and the waits of the barrier are over. *)
Definition behind (s : ooo) (waits : list Z) (j : nat) (s' : ooo) : Prop :=
  (length (lists s j) ≤ finished s' j)%nat ∧ (j = 0%nat → ∀ e, e ∈ waits → satisfied s' (source s e) = true).

Section barrier.
Context (s0 : ooo) (waits evs : list Z) (Hd : NoDup evs) (Hlen : length evs = numCommandLists).
Let Q := behind s0 waits.
Let all (s' : ooo) : Prop := ∀ j, (j < numCommandLists)%nat → Q j s'.

Lemma evs_distinct i j : (i < numCommandLists)%nat → (j < numCommandLists)%nat → nth i evs 0 = nth j evs 0 → i = j.
Proof. intros Hi Hj. rewrite NoDup_ListNoDup, NoDup_nth in Hd. apply Hd; by rewrite Hlen. Qed.

Lemma signal_loop n : ∀ i s s', (0 < i)%nat → (i + n)%nat = numCommandLists →
  fence evs (λ j, (j < i)%nat) Q s → grows s0 s →
  for_each (seq i n) (λ id, appendEventsWait id [] (Some (nth id evs 0))) s = (inr tt, s') →
  fence evs (λ _, True) Q s' ∧ grows s0 s'.
Proof.
  induction n as [|n IH]; intros i s s' Hi Hn Hf Hg.
  - intros [= <-]. split; [|done]. destruct Hf as [Hk Hr ? ?]. split; [intros; apply Hk; lia|intros; apply Hr; lia|done..].
  - intros ([] & s1 & E1 & E)%ooo_bind_ret.
    pose proof (barrierFn_fenced false i [] _ _ _ ltac:(lia) E1 (fe_capturing _ _ _ _ Hf i ltac:(lia))
      ltac:(by intros e ?%elem_of_nil)) as F.
    apply (IH (S i) s1); [lia|lia| |etrans; [exact Hg|apply (fc_grows _ _ _ _ _ F)]|done].
    apply (fence_step _ _ _ _ _ _ _ _ _ Hf F). intros j Hj Hlt. destruct (decide (j = i)) as [-> | Hne].
    + right. split; [done|]. intros s'' _ _ [Hw _]. split; [|lia]. destruct Hg as (Hp & _).
      specialize (Hp i). apply prefix_length in Hp. lia.
    + left. split; [lia|]. intros [= Heq]. apply evs_distinct in Heq; lia.
Qed.

Lemma waited_all s l s' : fence evs (λ _, True) Q s → ooo_inv s' → grows s s' → waited s l evs s' → all s'.
Proof.
  intros Hf Hi Hg [_ Hw] j Hj. apply (fe_known _ _ _ _ Hf j I Hj s' Hi Hg), Hw.
  apply list_elem_of_In, nth_In. by rewrite Hlen.
Qed.

Lemma evs_in s e : fence evs (λ _, True) Q s → e ∈ evs → e ∉ recorded s.
Proof.
  intros Hf He. apply list_elem_of_In, (In_nth _ _ 0) in He as (j & Hj & <-). rewrite Hlen in Hj.
  by apply (fe_recorded _ _ _ _ Hf).
Qed.

(** Who comes after what list [l] holds knows [all]. *)
Definition gate (s : ooo) (l : nat) : Prop :=
  ∀ k, (length (lists s l) ≤ S k)%nat → entails s (After (l, k)) all.

Lemma gate_fenced l w ev s s' l' : fenced l w ev s s' → gate s l' → gate s' l'.
Proof.
  intros F Hg k Hk. eapply entails_grows; [apply (fc_grows _ _ _ _ _ F)|]. apply Hg.
  pose proof (fc_lists _ _ _ _ _ F l'). lia.
Qed.

Lemma gate_new real l ev s s' :
  (l < numCommandLists)%nat → fence evs (λ _, True) Q s → barrierFn real l evs ev s = (inr tt, s') →
  fenced l evs ev s s' ∧ fence evs (λ _, True) Q s' ∧ gate s' l ∧ ∀ e, ev = Some e → entails s' (source s' e) all.
Proof.
  intros Hl Hf E.
  pose proof (barrierFn_fenced _ _ _ _ _ _ Hl E (fe_capturing _ _ _ _ Hf l Hl) (λ e, evs_in s e Hf)) as F.
  pose proof (fc_grows _ _ _ _ _ F) as Hg.
  assert (∀ d, entails s' d (waited s l evs) → entails s' d all) as Hall.
  { intros d Hw s'' Hi Hg' Hs. apply (waited_all s l); [done|done|by etrans|]. by apply Hw. }
  split_and!; [done| | |].
  - apply (fence_step _ _ _ _ _ _ _ _ _ Hf F). intros j _ Hj.
    destruct (decide (Some (nth j evs 0) = ev)) as [<-|Hne]; [right|by left]. split; [done|].
    intros s'' Hi Hg' Hw. by apply (waited_all s l).
  - intros k Hk. by apply Hall, (fc_after _ _ _ _ _ F).
  - intros e He. by apply Hall, (fc_signal _ _ _ _ _ F).
Qed.

Lemma gate_loop real ids : ∀ s s', (∀ i, i ∈ ids → (i < numCommandLists)%nat) → fence evs (λ _, True) Q s →
  for_each ids (λ id, barrierFn real id evs None) s = (inr tt, s') →
  grows s s' ∧ signals s' = signals s ∧ (∀ l, l ∈ ids ∨ gate s l → gate s' l).
Proof.
  induction ids as [|i ids IH]; intros s s' Hlt Hf.
  - intros [= <-]. split_and!; [done..|]. by intros l [?%elem_of_nil|?].
  - intros ([] & s1 & E1 & E)%ooo_bind_ret. destruct (gate_new _ _ _ _ _ (Hlt i ltac:(left)) Hf E1) as (F & Hf1 & Hg1 & _).
    destruct (IH s1 s') as (Hg & Hs & Hl); [intros j Hj; apply Hlt; by right|done..|]. split_and!.
    + etrans; [apply (fc_grows _ _ _ _ _ F)|done].
    + rewrite Hs. apply map_eq. intros e. by apply (fc_source _ _ _ _ _ F).
    + intros l [[-> | Hin]%elem_of_cons|Hgl]; apply Hl; [by right|by left|right]. by eapply gate_fenced.
Qed.

(** Making an event changes nothing that the driver keeps. *)
Definition driver_part (s : ooo) :=
  (lists s, finished s, signals s, capturing s, recorded s, completed s, barrierEvents s).

Lemma reuse_same ph s (ev : option Z) s' :
  createEventOrReuseIfRequested ph s = (inr ev, s') → driver_part s' = driver_part s.
Proof.
  destruct ph as [[e|]|]; [|unfold createEventOrReuseIfRequested|]; [by intros [= _ <-]| |by intros [= _ <-]].
  intros (e & s1 & (e' & s2 & E2 & (? & s3 & [= <- <-] & [= <- <-])%ooo_bind_ret)%ooo_bind_ret & [= <- <-])%ooo_bind_ret.
  unfold allocate_event, ocall_ in E2. destruct (o_error _ _); [done|]. by injection E2 as <- <-.
Qed.

Lemma fence_same js Q' s s' : driver_part s' = driver_part s → fence evs js Q' s → fence evs js Q' s' ∧ grows s s'.
Proof.
  unfold driver_part. intros [= El Ef Es Ec Er Eco Eb] []. assert (grows s s') as Hg.
  { split_and!; [by rewrite El|by rewrite Ef|by rewrite Eco]. }
  split; [|done]. split; rewrite ?Er, ?Ec, ?Eb; try done. intros j Hj Hlt. unfold source. rewrite Es.
  eapply entails_grows; [exact Hg|]. by apply fe_known0.
Qed.

(** What the appends of a barrier leave behind. *)
Lemma barrier_gates ph ev s' :
  barrierEvents s0 = evs → (∀ l, (l < numCommandLists)%nat → capturing s0 l = false) →
  (∀ e, e ∈ waits → e ∉ recorded s0) →
  enqueueEventsWaitWithBarrierExt waits ph s0 = (inr ev, s') →
  (∀ l, (l < numCommandLists)%nat → gate s' l) ∧
  (∀ e, ev = Some e → entails s' (source s' e) all).
Proof.
  intros Hev Hc Hw. unfold enqueueEventsWaitWithBarrierExt.
  destruct (match ph with Some (Some e) => _ | _ => _ end); [done|].
  intros (real & ? & [= <- <-] & E)%ooo_bind_ret. apply ooo_bind_ret in E as (act & ? & [= <- <-] & E).
  assert (default false (queryGraphCaptureActive captureCmdListManagerIdx s0).2 = false) as Hact.
  { unfold queryGraphCaptureActive. destruct o_graph; [|done]. apply Hc. unfold captureCmdListManagerIdx, numCommandLists. lia. }
  rewrite Hact in E. apply ooo_bind_ret in E as (event_of & ? & [= <- <-] & E).
  apply ooo_bind_ret in E as ([] & sa & Ea & E). apply ooo_bind_ret in E as ([] & sb & Eb & E).
  unfold barrier_event in Ea, Eb. rewrite Hev in Ea, Eb.
  assert (fence evs (λ _, False) Q s0) as F0 by (by split).
  pose proof (barrierFn_fenced false 0 waits _ _ _ ltac:(unfold numCommandLists; lia) Ea
    (Hc 0%nat ltac:(unfold numCommandLists; lia)) Hw) as Fa.
  destruct (signal_loop 3 1 sa sb) as [Hf Hg]; [lia|done| |apply (fc_grows _ _ _ _ _ Fa)|done|].
  { apply (fence_step _ _ _ _ _ _ _ _ _ F0 Fa). intros j Hj _. right. simpl in Hj. assert (j = 0%nat) as -> by lia.
    split; [done|]. intros s'' _ _ [Hl Hw']. split; [done|]. by intros _. }
  apply ooo_bind_ret in E as (evs' & ? & [= <- <-] & E). rewrite (fe_events _ _ _ _ Hf) in E.
  apply ooo_bind_ret in E as (ev' & sc & Ec & E). apply ooo_bind_ret in E as ([] & sd & Ed & E).
  injection E as <- <-. destruct ph as [r|].
  - apply ooo_bind_ret in Ec as (ev1 & sr & Er & Ec). apply ooo_bind_ret in Ec as ([] & sc' & Ec & E). injection E as <- <-.
    apply reuse_same in Er. destruct (fence_same _ _ _ _ Er Hf) as [Hfr _].
    destruct (gate_new _ 0%nat _ _ _ ltac:(unfold numCommandLists; lia) Hfr Ec) as (_ & Hfc & Hg0 & He).
    destruct (gate_loop _ (seq 1 3) _ _ ltac:(intros i Hi%elem_of_seq; unfold numCommandLists; lia) Hfc Ed) as (Hgd & Hs & Hgate).
    split.
    + intros l Hl. apply Hgate. destruct (decide (l = 0%nat)) as [-> | Hn]; [by right|left].
      apply elem_of_seq. unfold numCommandLists in Hl. lia.
    + intros e Hee. unfold source. rewrite Hs. eapply entails_grows; [exact Hgd|]. by apply He.
  - injection Ec as <- <-.
    destruct (gate_loop _ (seq 0 4) _ _ ltac:(intros i Hi%elem_of_seq; unfold numCommandLists; lia) Hf Ed) as (_ & _ & Hgate).
    split; [|done]. intros l Hl. apply Hgate. left. apply elem_of_seq. unfold numCommandLists in Hl. lia.
Qed.
End barrier.

Lemma stable_events evs : stable (λ s, barrierEvents s = evs).
Proof. split; try done. by intros l s s' (x & _ & _ & ->)%ooo_run_inv. Qed.

(** C15: Barriers order the queue. After a barrier outside of graph capture, no
    operation appended later, to any list and by any thread, finishes before
    every operation that was appended before the barrier has finished and the
    events the barrier waits for are signalled; and neither does what signals
    the event of the barrier. *)
Theorem ooo_barrier_orders fl evs s1 waits ph ev s2 s3 :
  NoDup evs → length evs = numCommandLists →
  rtc step (new_ooo fl evs) s1 →
  (∀ l, (l < numCommandLists)%nat → capturing s1 l = false) → (∀ e, e ∈ waits → e ∉ recorded s1) →
  enqueueEventsWaitWithBarrierExt waits ph s1 = (inr ev, s2) → rtc step s2 s3 →
  let over := (∀ l, (length (lists s1 l) ≤ finished s3 l)%nat) ∧ (∀ e, e ∈ waits → satisfied s3 (source s1 e) = true) in
  (∀ l k, (l < numCommandLists)%nat → (length (lists s2 l) ≤ k < finished s3 l)%nat → over) ∧
  (∀ e, ev = Some e → satisfied s3 (source s2 e) = true → over).
Proof.
  intros Hd Hlen H1 Hc Hw Hb H3 over. pose proof (ooo_reachable_inv _ _ _ H1) as Hi1.
  assert (barrierEvents s1 = evs) as Hev by (by apply (steps_keep _ (stable_events evs) _ _ H1)).
  assert (ooo_inv s3) as Hi3.
  { apply (steps_keep _ stable_inv s2 s3 H3). by apply (keeps_barrier _ stable_inv waits ph s1 _ _ Hb). }
  pose proof (steps_grow _ _ H3) as Hg.
  destruct (barrier_gates s1 waits evs Hd Hlen ph ev s2 Hev Hc Hw Hb) as [Hgate Hsig].
  assert ((∀ j, (j < numCommandLists)%nat → behind s1 waits j s3) → over) as Hover.
  { intros Hall. split; [|by apply (Hall 0%nat); unfold numCommandLists; lia]. intros l.
    destruct (decide (l < numCommandLists)%nat); [by apply Hall|]. rewrite (oi_four _ Hi1) by lia. simpl. lia. }
  split.
  - intros l k Hl Hk. apply Hover, (Hgate l Hl k); [lia|done..|]. apply Nat.ltb_lt. lia.
  - intros e He Hs. by apply Hover, (Hsig e He).
Qed.

(** ** Choosing a list *)

(** [n] choices in a row, each with its waits. *)
Fixpoint choose_all (ws : list (list Z)) : M (list nat) :=
  match ws with
  | [] => mret []
  | w :: ws => getNextCommandListId w ≫= λ l, choose_all ws ≫= λ ls, mret (l :: ls)
  end.

(** C17: On a driver with the graph extension (without it the code reads an
    uninitialised variable, [no_graph_undefined]), while the queue captures no
    graph and for commands that wait for no event of a queue that does, the lists
    are chosen in turn: the [k]-th of any number of choices gets the list [k]
    places after the first, also when the 32-bit counter wraps around, and no
    list is chosen outside the array. *)
Theorem lists_in_turn ws s :
  o_graph = true → capturing s captureCmdListManagerIdx = false →
  Forall (λ w, existsb (joins_capture s) w = false) ws → in_u32 (commandListIndex s) →
  ∃ ls s', choose_all ws s = (inr ls, s') ∧ length ls = length ws ∧
    ∀ k l, ls !! k = Some l → l = Z.to_nat ((commandListIndex s + Z.of_nat k) `mod` 4) ∧ (l < numCommandLists)%nat.
Proof.
  intros Hg. revert s. induction ws as [|w ws IH]; intros s Hc Hw Hi.
  { exists [], s. split_and!; [done..|]. intros k l. by rewrite lookup_nil. }
  apply Forall_cons in Hw as [Hw Hws].
  destruct (IH (set_index (u32 (commandListIndex s + 1)) s)) as (ls & s' & E & Hlen & Hls); [done..|apply u32_range|].
  set (l0 := Z.to_nat (commandListIndex s `mod` 4)).
  exists (l0 :: ls), s'. split_and!; [|simpl; by rewrite Hlen|].
  - simpl. unfold mbind, M_bind, getNextCommandListId, queryGraphCaptureActive. rewrite Hg. simpl. rewrite Hc, Hw.
    simpl. unfold mbind, M_bind in E. by rewrite E.
  - intros [|k] l; simpl.
    + intros [= <-]. rewrite Z.add_0_r. split; [done|]. unfold l0, numCommandLists. pose proof (Z.mod_pos_bound (commandListIndex s) 4). lia.
    + intros Hl. destruct (Hls k l Hl) as [-> Hlt]. split; [|done]. f_equal. simpl. unfold u32, wrap.
      assert (Z.divide 4 (2 ^ 32)) as Hdiv by (by exists (2 ^ 30)).
      rewrite <-Zplus_mod_idemp_l, Z.mod_mod_divide by done. rewrite Zplus_mod_idemp_l. f_equal. lia.
Qed.

(** While the queue captures a graph, or a wait is for a command of a queue that
    does, the first list is chosen and the others keep their turn. *)
Theorem capture_routed waits s :
  o_graph = true → capturing s captureCmdListManagerIdx || existsb (joins_capture s) waits = true →
  getNextCommandListId waits s = (inr captureCmdListManagerIdx, s).
Proof.
  intros Hg Hc. unfold getNextCommandListId, queryGraphCaptureActive. rewrite Hg. simpl.
  destruct (capturing s _); [done|]. simpl in Hc. by rewrite Hc.
Qed.

(** Without the graph extension the choice of a list reads a variable that
    nothing has written: every enqueue is undefined behaviour. *)
Theorem no_graph_undefined k blocking waits phEvent s :
  o_graph = false → enqueue k blocking waits phEvent s = (inl UndefinedBehaviour, s).
Proof.
  intros Hg. unfold enqueue, mbind, M_bind, getNextCommandListId, queryGraphCaptureActive. by rewrite Hg.
Qed.

(** A barrier in a capture makes a new event for the caller, who passed one to reuse. *)
Theorem capture_replaces_event waits e ev s s' :
  o_graph = true → capturing s captureCmdListManagerIdx = true →
  enqueueEventsWaitWithBarrierExt waits (Some (Some e)) s = (inr ev, s') → ev = Some (o_event (calls s)).
Proof.
  intros Hg Hc. unfold enqueueEventsWaitWithBarrierExt. destruct (negb _); [done|].
  intros (real & ? & [= <- <-] & E)%ooo_bind_ret. apply ooo_bind_ret in E as (act & ? & [= <- <-] & E).
  unfold queryGraphCaptureActive in E. rewrite Hg in E. simpl in E. rewrite Hc in E.
  apply ooo_bind_ret in E as (ev' & s1 & E1 & E). apply ooo_bind_ret in E as (_ & s2 & _ & [= <- <-]).
  apply ooo_bind_ret in E1 as (e1 & s3 & E1 & [= <- <-]). apply ooo_bind_ret in E1 as (e2 & s4 & E1 & E2).
  injection E2 as <- _. unfold allocate_event in E1. destruct (ocall_ _ _) as [[]]; [done|]. by injection E1 as <- _.
Qed.
End proofs.

(** ** Creation *)

Section creation.
Context `{ZeDriver} {P D : Type} `{ProviderLaws P D}.
Context (driver_fresh_ : driver_fresh).
Import EventPoolFacts.

Lemma ooo_give_back_inv allowed made : ∀ c lent, cache_inv allowed c (made ++ lent) →
  cache_inv allowed (foldl BatchedQueue.give_back c made) lent.
Proof.
  induction made as [|[h d] made IH]; intros c lent Hi; [done|]. simpl. apply IH.
  by apply (addCommandList_inv allowed d h c []).
Qed.

Lemma createCommandListManagers_inv allowed dev ord prio idx n : ∀ made c lent,
  (∀ off, allowed (Imm {| imm_ZeDevice := dev; imm_IsInOrder := true; imm_Ordinal := ord;
     imm_CopyOffloadEnabled := off; imm_Mode := BatchedQueue.ZE_COMMAND_QUEUE_MODE_ASYNCHRONOUS;
     imm_Priority := prio; imm_Index := idx |})) →
  cache_inv allowed c (made ++ lent) →
  let '(r, c') := createCommandListManagers n dev ord prio idx made c in
  match r with
  | Ret ls => length ls = (n + length made)%nat ∧ cache_inv allowed c' (ls ++ lent)
  | Throw _ => cache_inv allowed c' lent
  | Undefined => False
  end.
Proof.
  induction n as [|n IH]; intros made c lent Ha Hi; simpl; [done|].
  unfold getImmediateCommandList. simpl. destruct (getCommandList _ c) as [r c1] eqn:E.
  pose proof (getCommandList_inv allowed _ c _ r c1 driver_fresh_ (Ha true) Hi E) as Hr.
  destruct r as [h|e|]; simpl; [|by apply ooo_give_back_inv|done].
  specialize (IH ((h, Imm _) :: made) c1 lent Ha Hr).
  destruct (createCommandListManagers n _ _ _ _ _ c1) as [[ls|e|] c2]; [|done..].
  destruct IH as [-> ?]. split; [simpl; lia|done].
Qed.

Lemma allocate_events_inv n : ∀ made p held det,
  pool_inv p (made ++ held) det → NoDup made → Z.of_nat (length (made ++ held)) + Z.of_nat n < 2 ^ 32 - 1 →
  let '(r, made', p') := allocate_events n made p in
  NoDup made' ∧ pool_inv p' (made' ++ held) det ∧
  match r with Ret es => es = made' ∧ length es = (n + length made)%nat | Throw _ => True | Undefined => False end.
Proof.
  induction n as [|n IH]; intros made p held det Hi Hn Hb; simpl; [done|].
  pose proof (pool_allocate_inv p (made ++ held) det Hi ltac:(lia)) as Hr.
  destruct (EventPool.pool_allocate p) as [[i|e|] p1]; destruct Hr as [_ Hr]; [|done|done].
  destruct Hr as (Hi1 & Hni & _).
  assert (i :: made ++ held ≡ₚ (made ++ [i]) ++ held) as Hp by solve_Permutation.
  specialize (IH (made ++ [i]) p1 held det (pool_inv_perm _ _ _ _ Hp Hi1)).
  destruct (allocate_events n (made ++ [i]) p1) as [[r made'] p2]. destruct IH as (Hn' & Hi' & Hr).
  - apply NoDup_app. split_and!; [done| |apply NoDup_singleton]. intros x Hx ->%list_elem_of_singleton.
    apply Hni, elem_of_app. by left.
  - rewrite !length_app in *. simpl. lia.
  - split_and!; [done..|]. destruct r; [|done..]. destruct Hr as [-> Hl]. split; [done|].
    rewrite Hl, length_app. simpl. lia.
Qed.
End creation.

(** A queue is created with four lists of the cache and four different events of
    the pool, or, if that throws, without lists: what it had taken is back in the
    cache, though the events it had got stay allocated. *)
Theorem make_ooo_queue_spec `{ZeDriver} {P D : Type} `{ProviderLaws P D} fl dev ord prio idx c p lent held det :
  driver_fresh →
  cache_inv (λ _, True) c lent → EventPoolFacts.pool_inv p held det → Z.of_nat (length held) + 4 < 2 ^ 32 - 1 →
  let '(r, made, (c', p')) := make_ooo_queue fl dev ord prio idx c p in
  EventPoolFacts.pool_inv p' (made ++ held) det ∧
  match r with
  | Ret (s, ls) => s = new_ooo fl (Z.of_nat <$> made) ∧ NoDup (barrierEvents s) ∧
      length (barrierEvents s) = numCommandLists ∧ length ls = numCommandLists ∧ cache_inv (λ _, True) c' (ls ++ lent)
  | Throw _ => cache_inv (λ _, True) c' lent
  | Undefined => False
  end.
Proof.
  intros Hf Hc Hp Hb. unfold make_ooo_queue.
  pose proof (createCommandListManagers_inv Hf (λ _, True) dev ord prio idx numCommandLists [] c lent
    (λ _, I) Hc) as Hl.
  destruct (createCommandListManagers _ _ _ _ _ _ _) as [[ls|e|] c1]; [|done|done]. destruct Hl as [Hll Hl].
  pose proof (allocate_events_inv numCommandLists [] p held det Hp NoDup_nil_2 Hb) as Ha.
  destruct (allocate_events _ _ _) as [[r made] p1]. destruct Ha as (Hn & Hi & Hr).
  destruct r as [es|e|]; [|split; [done|by apply ooo_give_back_inv]|done]. destruct Hr as [-> Hle].
  split; [done|]. simpl. split_and!; [done| |by rewrite length_fmap, Hle|by rewrite Hll|done].
  by apply NoDup_fmap_2; [apply _|].
Qed.

#[local] Arguments Z.testbit : simpl never.

(** The batched queue is created when it is asked for or forced, and is in order
    whatever the flags say; then the out-of-order flag decides; without
    properties the queue is immediate and in order. Every queue uses counter
    based events. *)
Theorem urQueueCreate_spec force valid props :
  match urQueueCreate force valid props with
  | inl r => (r = UR_RESULT_ERROR_INVALID_DEVICE ∧ valid = false) ∨
      (r = UR_RESULT_ERROR_INVALID_QUEUE_PROPERTIES ∧ force = false ∧ ∃ p, props = Some p ∧
       Z.testbit (qp_flags p) UR_QUEUE_FLAG_SUBMISSION_IMMEDIATE = true ∧
       Z.testbit (qp_flags p) UR_QUEUE_FLAG_SUBMISSION_BATCHED = true)
  | inr q => valid = true ∧ Z.testbit (cr_events q) EVENT_FLAGS_COUNTER = true ∧
      (cr_class q = ur_queue_batched_t ↔ Z.testbit (cr_flags q) UR_QUEUE_FLAG_SUBMISSION_BATCHED = true) ∧
      (cr_class q = ur_queue_immediate_out_of_order_t →
       Z.testbit (cr_flags q) UR_QUEUE_FLAG_OUT_OF_ORDER_EXEC_MODE_ENABLE = true) ∧
      ¬ (force = true ∧ Z.testbit (cr_flags q) UR_QUEUE_FLAG_SUBMISSION_IMMEDIATE = true)
  end.
Proof.
  unfold urQueueCreate. destruct valid; [|by left]. simpl.
  set (fl := default 0 (qp_flags <$> props)). set (imm := match props with Some _ => _ | None => _ end).
  destruct (negb force && bool_decide (is_Some props) && imm && _) eqn:E.
  - bool_to_prop. right. destruct props as [p|]; [|by destruct H0]. split_and!; [done|by destruct force|]. by exists p.
  - split_and!; [done| | | |].
    + simpl. unfold eventFlagsFromQueueFlags. by destruct (Z.testbit _ UR_QUEUE_FLAG_PROFILING_ENABLE).
    + destruct force; simpl.
      * split; [intros _|done]. destruct imm; rewrite ?Z.ldiff_spec, Z.lor_spec; by rewrite ?orb_true_r.
      * destruct (Z.testbit fl UR_QUEUE_FLAG_SUBMISSION_BATCHED); [done|]. by case_match.
    + simpl. destruct force; simpl; [done|]. do 2 (case_match; try done).
    + intros [-> Hi]. simpl in Hi. destruct imm eqn:Ei; rewrite ?Z.ldiff_spec, ?Z.lor_spec in Hi; [by rewrite andb_false_r in Hi|].
      rewrite orb_false_r in Hi. unfold imm in Ei. destruct props; [|done]. by rewrite Hi in Ei.
Qed.

(** ** Witnesses *)

Section enqueued.
Context `{OooDriver}.

Lemma chosen_in_range waits s l s' : getNextCommandListId waits s = (inr l, s') → (l < numCommandLists)%nat.
Proof.
  unfold getNextCommandListId. destruct (_ .2) as [[]|]; [|destruct (existsb _ waits)|done]; intros [= <- _];
    unfold captureCmdListManagerIdx, numCommandLists; [lia..|].
  pose proof (Z.mod_pos_bound (commandListIndex s) 4). lia.
Qed.

(** What the interface offers is executions of [step]. *)
Lemma enqueue_steps k blocking waits ph s r s' : enqueue k blocking waits ph s = (r, s') → rtc step s s'.
Proof.
  intros [(l & s1 & E1 & E)|(e & E & ->)]%ooo_bind_inv; (eapply rtc_l; [by eapply step_choose|]); [|done].
  apply rtc_once. eapply step_append; [by eapply chosen_in_range|done].
Qed.
Lemma enqueueEventsWait_steps waits ph s r s' : enqueueEventsWait waits ph s = (r, s') → rtc step s s'.
Proof.
  intros [(l & s1 & E1 & E)|(e & E & ->)]%ooo_bind_inv; (eapply rtc_l; [by eapply step_choose|]); [|done].
  apply rtc_once. eapply step_wait; [by eapply chosen_in_range|done].
Qed.
Lemma enqueue_unsupported_steps waits ph s r s' : enqueue_unsupported waits ph s = (r, s') → rtc step s s'.
Proof.
  intros [(l & s1 & E1 & E)|(e & E & ->)]%ooo_bind_inv; (eapply rtc_l; [by eapply step_choose|]); [|done].
  apply rtc_once. apply (step_refused ph (createEventIfRequested ph s1).1).
  apply ooo_bind_inv in E as [(ev & s2 & -> & E)|(e & -> & _)]; [|done]. by injection E as _ <-.
Qed.
Lemma enqueueTimestampRecordingExp_steps blocking waits ph s r s' :
  enqueueTimestampRecordingExp blocking waits ph s = (r, s') → rtc step s s'.
Proof.
  destruct ph; [apply enqueue_steps|]. intros [(l & s1 & E1 & E)|(e & E & ->)]%ooo_bind_inv.
  - injection E as _ <-. apply rtc_once. by eapply step_choose.
  - apply rtc_once. by eapply step_choose.
Qed.
End enqueued.

#[local] Instance sample_driver : OooDriver := {|
  o_error := λ _ _, None; o_event := λ log, 100 + Z.of_nat (length log); o_graph := true;
  o_counter := λ _, true; o_completes := λ _, {[200]}; o_queue := 7 |}.

(** Two commands, the second waiting for the first, a barrier, and one more. *)
Definition sample1 : ooo := (enqueue USMFill false [100] false (enqueue USMMemcpy false [] true (new_ooo 0 [1; 2; 3; 4])).2).2.
Definition sample2 : ooo := (enqueueEventsWaitWithBarrierExt [100] (Some None) sample1).2.
Definition sample3 : ooo := drain (λ _, false) 20 (enqueue USMFill false [] false sample2).2.

Lemma sample1_reachable : rtc step (new_ooo 0 [1; 2; 3; 4]) sample1.
Proof. etransitivity; eapply enqueue_steps, surjective_pairing. Qed.

Lemma runs_steps s s' : rtc runs s s' → rtc step s s'.
Proof. induction 1 as [|x y z [l Hl] _ IH]; [done|]. eapply rtc_l; [by apply (step_run l)|done]. Qed.

Lemma sample2_barrier : enqueueEventsWaitWithBarrierExt [100] (Some None) sample1 = (inr (Some 108), sample2).
Proof.
  assert ((enqueueEventsWaitWithBarrierExt [100] (Some None) sample1).1 = inr (Some 108)) as E by (vm_compute; reflexivity).
  revert E. unfold sample2. by destruct (enqueueEventsWaitWithBarrierExt _ _ sample1) as [r s]; intros [= ->].
Qed.
Lemma sample3_reachable : rtc step sample2 sample3.
Proof. etransitivity; [eapply enqueue_steps, surjective_pairing|]. apply runs_steps, drain_runs. Qed.

Lemma ooo_barrier_orders_witness :
  ((∀ l, (length (lists sample1 l) ≤ finished sample3 l)%nat) ∧
   (∀ e, e ∈ [100] → satisfied sample3 (source sample1 e) = true)) ∧
  (length (lists sample2 2) ≤ 2 < finished sample3 2)%nat.
Proof.
  assert ((length (lists sample2 2) ≤ 2 < finished sample3 2)%nat) as Hk by (vm_compute; lia). split; [|exact Hk].
  refine (proj1 (ooo_barrier_orders 0 [1; 2; 3; 4] sample1 [100] (Some None) (Some 108) sample2 sample3
    _ eq_refl sample1_reachable _ _ sample2_barrier sample3_reachable) 2%nat 2%nat _ Hk).
  - by apply (bool_decide_unpack _).
  - intros l Hl. do 4 (destruct l as [|l]; [vm_compute; reflexivity|]). unfold numCommandLists in Hl. lia.
  - intros e ->%list_elem_of_singleton. by apply (bool_decide_unpack _).
  - unfold numCommandLists. lia.
Defined.

(** One more command that waits for an event of another queue, which completes
    while the host waits. *)
Definition sample4 : ooo := (enqueue USMFill false [200] false sample1).2.
Lemma sample4_reachable : rtc step (new_ooo 0 [1; 2; 3; 4]) sample4.
Proof. etransitivity; [exact sample1_reachable|]. eapply enqueue_steps, surjective_pairing. Qed.
Lemma sample4_finish : queueFinish sample4 = (inr tt, (queueFinish sample4).2).
Proof.
  assert ((queueFinish sample4).1 = inr tt) as E by (vm_compute; reflexivity). revert E.
  by destruct (queueFinish sample4) as [r s]; intros [= ->].
Qed.


(** An event of another queue that does not complete: the host waits for ever. *)
Definition no_completion : OooDriver := {|
  o_error := λ _ _, None; o_event := λ log, 100 + Z.of_nat (length log); o_graph := true;
  o_counter := λ _, true; o_completes := λ _, ∅; o_queue := 7 |}.
Example foreign_event_blocks : (@queueFinish no_completion sample4).1 = inl NoReturn.
Proof. vm_compute. reflexivity. Qed.

Lemma lists_in_turn_witness :
  ∃ ls s', choose_all [[]; [5]; []] (set_index (2 ^ 32 - 2) (new_ooo 0 [1; 2; 3; 4])) = (inr ls, s') ∧ length ls = 3%nat ∧
    ∀ k l, ls !! k = Some l → l = Z.to_nat ((2 ^ 32 - 2 + Z.of_nat k) `mod` 4) ∧ (l < numCommandLists)%nat.
Proof.
  apply (lists_in_turn [[]; [5]; []] (set_index (2 ^ 32 - 2) (new_ooo 0 [1; 2; 3; 4])));
    [reflexivity|reflexivity|by repeat constructor|by unfold in_u32; simpl; lia].
Defined.
End OutOfOrderProps.
