(* ===== verification/UsmAsync.v ===== *)
(** * Asynchronous USM allocation of the Level Zero adapters
    (adapters/level_zero/common/enqueued_pool.{hpp,cpp}, [allocateEnqueued] of
    v2/usm.cpp, [appendUSMAllocHelper] and [appendUSMFreeExp] of
    v2/command_list_manager.cpp, the allocation functions of the v2 queues)

    Memory freed on a queue goes to a freelist from which later allocations on
    the same queue are served before the free has executed.  [EnqueuedPool] is
    the freelist, an ordered set; [UsmAsync] the commands that put memory there
    and take it out again.  UMF, the driver and the event pools are a parameter;
    events are numbers with reference counts. *)
From stdpp Require Import base numbers list gmap relations sorting.
From S2P Require Import Prelude.
Local Open Scope Z_scope.

(** [EnqueuedPool::Allocation] *)
Record Allocation := { Ptr : Z; Size : Z; Event : option Z; Queue : Z }.

#[export] Instance Allocation_eq_dec : EqDecision Allocation.
Proof. solve_decision. Defined.

Module EnqueuedPool.

(** [EnqueuedPool::Comparator] *)
Definition Comparator (lhs rhs : Allocation) : bool :=
  if negb (Queue lhs =? Queue rhs) then Queue lhs <? Queue rhs
  else if negb (Size lhs =? Size rhs) then Size lhs <? Size rhs
  else Ptr lhs <? Ptr rhs.

(** A [std::set] is the list of its elements in order. [lower_bound] gives the
    elements before the position it finds and those from there on. *)
Fixpoint lower_bound (k : Allocation) (l : list Allocation) : list Allocation * list Allocation :=
  match l with
  | [] => ([], [])
  | a :: l' => if Comparator a k then let '(x, y) := lower_bound k l' in (a :: x, y) else ([], l)
  end.

(** [std::set::emplace]: an element equivalent to one of the set is dropped. *)
Definition emplace (a : Allocation) (l : list Allocation) : list Allocation :=
  match lower_bound a l with
  | (x, b :: y) => if Comparator a b then x ++ a :: b :: y else l
  | (x, []) => x ++ [a]
  end.

Definition getBestFit (size queue : Z) (Freelist : list Allocation) : option Allocation * list Allocation :=
  let Alloc := {| Ptr := 0; Size := size; Event := None; Queue := queue |} in
  match lower_bound Alloc Freelist with
  | (x, It :: y) => if (size <=? Size It) && (Queue It =? queue) then (Some It, x ++ y) else (None, Freelist)
  | (_, []) => (None, Freelist)
  end.

Definition insert (ptr size : Z) (event : option Z) (queue : Z) (Freelist : list Allocation)
    : list Allocation :=
  emplace {| Ptr := ptr; Size := size; Event := event; Queue := queue |} Freelist.

(** [cleanup]: every allocation is freed, in order, and its event released. *)
Definition cleanup (Freelist : list Allocation) : bool * list Allocation * list Allocation :=
  (negb (bool_decide (Freelist = [])), Freelist, []).

(** [cleanupForQueue]: the freed allocations and what is left. *)
Fixpoint while_queue (queue : Z) (l : list Allocation) : list Allocation * list Allocation :=
  match l with
  | [] => ([], [])
  | a :: l' => if Queue a =? queue then let '(x, y) := while_queue queue l' in (a :: x, y) else ([], l)
  end.
Definition cleanupForQueue (queue : Z) (Freelist : list Allocation)
    : bool * list Allocation * list Allocation :=
  let Alloc := {| Ptr := 0; Size := 0; Event := None; Queue := queue |} in
  let '(x, y) := lower_bound Alloc Freelist in
  let '(freed, rest) := while_queue queue y in
  (negb (bool_decide (freed = [])), freed, x ++ rest).

End EnqueuedPool.

(** ** The commands *)
Inductive tcall :=
  | UmfMalloc (pool size ptr : Z)
  | UmfFree (ptr : Z)
  | WaitOnEvents (cl : Z) (es : list Z)
  | SignalEvent (cl e : Z)
  | AsyncInsert (cl : Z) (a : Allocation)
  | AsyncReuse (cl queue : Z) (a : Allocation).

Inductive usm_type := HostMem | DeviceMem | SharedMem.

(** [umfPoolMallocUsableSize] *)
Inductive usable := Usable (size : Z) | NotSupported | UsableError (r : ur_result_t).

(** UMF, the driver, and new events; what each does after a history of calls. *)
Class UsmDriver := {
  u_error : list tcall → tcall → option ur_result_t;
  u_malloc : list tcall → Z → Z → Z;
  u_event : list tcall → Z;
  umfPoolByPtr : list tcall → Z → option Z;
  umfPoolMallocUsableSize : list tcall → Z → Z → usable;
  getPool : Z → option Z → usm_type → option Z;
  u_error_fails tr c : u_error tr c ≠ Some UR_RESULT_SUCCESS;
  usable_fails tr pool p : umfPoolMallocUsableSize tr pool p ≠ UsableError UR_RESULT_SUCCESS }.

(** The freelist of every UMF pool, the reference counts of events, the calls. *)
Record usm_state := { asyncPool : gmap Z (list Allocation); refs : gmap Z Z; trace : list tcall }.

Module UsmAsync.
Import EnqueuedPool.

Definition log (c : tcall) (s : usm_state) : usm_state :=
  {| asyncPool := asyncPool s; refs := refs s; trace := trace s ++ [c] |}.
Definition set_pool (p : Z) (l : list Allocation) (s : usm_state) : usm_state :=
  {| asyncPool := <[p := l]> (asyncPool s); refs := refs s; trace := trace s |}.
Definition freelist (p : Z) (s : usm_state) : list Allocation := default [] (asyncPool s !! p).
Definition add_refs (d e : Z) (s : usm_state) : usm_state :=
  {| asyncPool := asyncPool s; refs := <[e := default 0 (refs s !! e) + d]> (refs s); trace := trace s |}.
Definition retain : Z → usm_state → usm_state := add_refs 1.
Definition release : Z → usm_state → usm_state := add_refs (-1).
Definition release_opt (e : option Z) (s : usm_state) : usm_state :=
  match e with Some e => release e s | None => s end.

Definition prog : Type := usm_state → ur_result_t * usm_state.
Definition ret (r : ur_result_t) : prog := λ s, (r, s).
Definition UR_CALL (m k : prog) : prog := λ s,
  let '(r, s') := m s in if decide (r = UR_RESULT_SUCCESS) then k s' else (r, s').
Definition when (b : bool) (m : prog) : prog := if b then m else ret UR_RESULT_SUCCESS.
Definition update (f : usm_state → usm_state) : prog := λ s, (UR_RESULT_SUCCESS, f s).

Section driver.
Context `{UsmDriver} (hDevice : Z).
(** The queue: whether it is in order, and the list the command goes to. *)
Context (isInOrder : Z → bool).

Definition call (c : tcall) : prog := λ s,
  match u_error (trace s) c with Some r => (r, s) | None => (UR_RESULT_SUCCESS, log c s) end.

(** [createEvent] *)
Definition new_event (s : usm_state) : Z * usm_state :=
  let e := u_event (trace s) in
  (e, {| asyncPool := asyncPool s; refs := <[e := 1]> (refs s); trace := trace s |}).

Definition wait_on (cl : Z) (es : list Z) : prog := when (negb (bool_decide (es = []))) (call (WaitOnEvents cl es)).
Definition signal (cl : Z) (e : option Z) : prog :=
  match e with Some e => call (SignalEvent cl e) | None => ret UR_RESULT_SUCCESS end.

Definition appendUSMFreeExp (cl queue pMem : Z) (waitListView : list Z) (phEvent : option Z) : prog := λ s,
  match umfPoolByPtr (trace s) pMem with
  | None => (UR_RESULT_ERROR_INVALID_MEM_OBJECT, s)
  | Some pool =>
      match umfPoolMallocUsableSize (trace s) pool pMem with
      | NotSupported | UsableError _ => (UR_RESULT_ERROR_UNKNOWN, s)
      | Usable size =>
          UR_CALL (wait_on cl waitListView)
          (UR_CALL (signal cl phEvent)
          (update (λ s,
             let s := match phEvent with Some e => retain e s | None => s end in
             let a := {| Ptr := pMem; Size := size; Event := phEvent; Queue := queue |} in
             log (AsyncInsert cl a) (set_pool pool (insert pMem size phEvent queue (freelist pool s)) s)))) s
      end
  end.

(** [allocateEnqueued] of the pool: a freed allocation and the event to wait for. *)
Definition allocateEnqueued (queue hPool : Z) (device : option Z) (type : usm_type) (size : Z) (s : usm_state)
    : option (Allocation * option Z) * usm_state :=
  match getPool hPool device type with
  | None => (None, s)
  | Some pool =>
      match getBestFit size queue (freelist pool s) with
      | (None, _) => (None, s)
      | (Some allocation, l) =>
          let s := set_pool pool l s in
          if (Queue allocation =? queue) && isInOrder queue
          then (Some (allocation, None), release_opt (Event allocation) s)
          else (Some (allocation, Event allocation), s)
      end
  end.

(** [ur_usm_pool_handle_t_::allocate]: a new pointer from UMF, lost when its size
    cannot be had. *)
Definition allocate (hPool : Z) (device : option Z) (type : usm_type) (size : Z) (s : usm_state)
    : (ur_result_t + Z) * usm_state :=
  match getPool hPool device type with
  | None => (inl UR_RESULT_ERROR_INVALID_ARGUMENT, s)
  | Some pool =>
      let p := u_malloc (trace s) pool size in
      let '(r, s) := call (UmfMalloc pool size p) s in
      if decide (r = UR_RESULT_SUCCESS) then
        match umfPoolMallocUsableSize (trace s) pool p with
        | UsableError e => (inl e, s)
        | Usable _ | NotSupported => (inr p, s)
        end
      else (inl r, s)
  end.

(** [appendUSMAllocHelper]: the result and [*ppMem] when it is written. *)
Definition appendUSMAllocHelper (cl queue : Z) (pPool : Z) (type : usm_type) (size : Z)
    (waitListView : list Z) (phEvent : option Z) (s : usm_state)
    : ur_result_t * option Z * usm_state :=
  let device := if type is HostMem then None else Some hDevice in
  match allocateEnqueued queue pPool device type size s with
  | (None, s) =>
      match allocate pPool device type size s with
      | (inl r, s) => (r, None, s)
      | (inr p, s) =>
          let '(r, s) := UR_CALL (wait_on cl waitListView) (signal cl phEvent) s in (r, Some p, s)
      end
  | (Some (a, originAllocEvent), s) =>
      let '(r, s) := UR_CALL (wait_on cl (waitListView ++ option_list originAllocEvent))
        (UR_CALL (signal cl phEvent)
        (update (λ s, log (AsyncReuse cl queue a) (release_opt originAllocEvent s)))) s in
      (r, Some (Ptr a), s)
  end.

(** [createEventIfRequested] *)
Definition createEventIfRequested (phEvent : bool) (s : usm_state) : option Z * usm_state :=
  if phEvent then let '(e, s) := new_event s in (Some e, s) else (None, s).

(** [enqueueUSMFreeExp]: an out-of-order queue creates an event in any case. The
    event the caller gets is the second component. *)
Definition enqueueUSMFreeExp (cl queue pMem : Z) (waits : list Z) (phEvent : bool) (s : usm_state)
    : ur_result_t * option Z * usm_state :=
  let '(ev, s) := createEventIfRequested (phEvent || negb (isInOrder queue)) s in
  let '(r, s) := appendUSMFreeExp cl queue pMem waits ev s in
  (r, if phEvent then ev else None, s).

(** [enqueueUSM{Device,Shared,Host}AllocExp] *)
Definition enqueueUSMAllocExp (cl queue pPool : Z) (type : usm_type) (size : Z) (waits : list Z)
    (phEvent : bool) (s : usm_state) : ur_result_t * option Z * usm_state :=
  let '(ev, s) := createEventIfRequested phEvent s in
  appendUSMAllocHelper cl queue pPool type size waits ev s.

(** Freeing the memory and releasing the events of allocations. *)
Definition free_allocation (a : Allocation) (s : usm_state) : usm_state :=
  release_opt (Event a) (log (UmfFree (Ptr a)) s).
Definition cleanup_pool (queue p : Z) (s : usm_state) : usm_state :=
  let '(_, freed, rest) := cleanupForQueue queue (freelist p s) in
  foldl (λ s a, free_allocation a s) (set_pool p rest s) freed.

(** [cleanupPoolsForQueue], called when a queue is finished. *)
Definition cleanupPoolsForQueue (queue : Z) (s : usm_state) : usm_state :=
  foldl (λ s p, cleanup_pool queue p s) s (map_to_list (asyncPool s)).*1.
End driver.
End UsmAsync.

(** ** The freelist *)
Module EnqueuedPoolFacts.
Import EnqueuedPool.

(** The order of the set: by queue, then size, then address. *)
Definition lt (a b : Allocation) : Prop :=
  Queue a < Queue b ∨ Queue a = Queue b ∧ (Size a < Size b ∨ Size a = Size b ∧ Ptr a < Ptr b).

Lemma Comparator_spec a b : Comparator a b = true ↔ lt a b.
Proof.
  unfold Comparator, lt. repeat case_match; bool_to_prop; rewrite ?Z.ltb_lt; lia.
Qed.
Lemma Comparator_false a b : Comparator a b = false ↔ ¬ lt a b.
Proof. rewrite <-Comparator_spec. by destruct (Comparator a b). Qed.
Lemma lt_trans a b c : lt a b → lt b c → lt a c.
Proof. unfold lt. lia. Qed.

(** The set's elements are in strict order. *)
Definition ordered (l : list Allocation) : Prop := StronglySorted lt l.

Lemma lower_bound_app k l : let '(x, y) := lower_bound k l in l = x ++ y ∧ Forall (λ a, lt a k) x.
Proof.
  induction l as [|a l IH]; simpl; [done|]. destruct (Comparator a k) eqn:E; [|done].
  destruct (lower_bound k l) as [x y]. destruct IH as [-> Hx]. apply Comparator_spec in E. auto.
Qed.

Lemma lower_bound_spec k l x y :
  ordered l → lower_bound k l = (x, y) → l = x ++ y ∧ Forall (λ a, lt a k) x ∧ Forall (λ a, ¬ lt a k) y.
Proof.
  intros Ho E. pose proof (lower_bound_app k l) as H. rewrite E in H. destruct H as [-> Hx]. split_and!; [done..|].
  revert x Ho E Hx. induction x as [|b x IH]; simpl; intros Ho E Hx.
  - destruct y as [|a y]; [constructor|]. simpl in E. destruct (Comparator a k) eqn:Ea.
    + destruct (lower_bound k y). simplify_eq.
    + apply Comparator_false in Ea. constructor; [done|]. apply StronglySorted_inv in Ho as [_ Ho].
      eapply Forall_impl; [exact Ho|]. intros c Hc Hck. simpl in *. apply Ea. by eapply lt_trans.
  - inversion Hx; subst. apply StronglySorted_inv in Ho as [Ho _]. apply IH; [done| |done].
    rewrite (proj2 (Comparator_spec b k)) in E by done. destruct (lower_bound k (x ++ y)). congruence.
Qed.

Lemma ordered_app x y : ordered (x ++ y) ↔ ordered x ∧ ordered y ∧ ∀ a b, a ∈ x → b ∈ y → lt a b.
Proof.
  unfold ordered. induction x as [|c x IH]; simpl.
  { split; [|by intros (_ & ? & _)]. intros. split_and!; [constructor|done|]. by intros a b ?%not_elem_of_nil. }
  split.
  - intros [Hs Hf]%StronglySorted_inv. apply IH in Hs as (Hx & Hy & Hxy). apply Forall_app in Hf as [Hf1 Hf2].
    split_and!; [by constructor|done|]. intros a b [->|Ha]%elem_of_cons Hb; [|by apply Hxy].
    rewrite Forall_forall in Hf2. by apply Hf2.
  - intros (Hx & Hy & Hxy). apply StronglySorted_inv in Hx as [Hx Hf]. constructor.
    + apply IH. split_and!; [done|done|]. intros. apply Hxy; [by right|done].
    + apply Forall_app. split; [done|]. apply Forall_forall. intros b Hb. apply Hxy; [left|done].
Qed.

(** [insert] adds an allocation unless it has the queue, size and address of
    one that is there. *)
Lemma emplace_spec a l :
  ordered l →
  ordered (emplace a l) ∧
  (emplace a l ≡ₚ a :: l ∨
   emplace a l = l ∧ ∃ b, b ∈ l ∧ Queue b = Queue a ∧ Size b = Size a ∧ Ptr b = Ptr a).
Proof.
  intros Ho. unfold emplace. destruct (lower_bound a l) as [x y] eqn:E.
  destruct (lower_bound_spec a l x y Ho E) as (-> & Hx & Hy). rewrite Forall_forall in Hx.
  apply ordered_app in Ho as (Hox & Hoy & Hxy). destruct y as [|b y].
  { split; [|left; solve_Permutation]. apply ordered_app. split_and!; [done|repeat constructor|].
    intros c d Hc ->%list_elem_of_singleton. by apply Hx. }
  rewrite Forall_cons in Hy. destruct Hy as [Hb Hy]. destruct (Comparator a b) eqn:Eab.
  - apply Comparator_spec in Eab. split; [|left; solve_Permutation]. apply ordered_app. split_and!; [done| |].
    + constructor; [done|]. apply StronglySorted_inv in Hoy as [_ Hf]. constructor; [done|].
      eapply Forall_impl; [exact Hf|]. intros c. simpl. intros Hc. by eapply lt_trans.
    + intros c d Hc [->|Hd]%elem_of_cons; [by apply Hx|]. by apply Hxy.
  - apply Comparator_false in Eab. split; [apply ordered_app; by split_and!|]. right. split; [done|].
    exists b. split; [apply elem_of_app; right; left|]. unfold lt in *. lia.
Qed.

Lemma while_queue_spec q l :
  ordered l → (∀ a, a ∈ l → q ≤ Queue a) →
  while_queue q l = (filter (λ a, Queue a = q) l, filter (λ a, Queue a ≠ q) l).
Proof.
  induction l as [|a l IH]; simpl; [done|]. intros Ho Hq. apply StronglySorted_inv in Ho as [Ho Hf].
  destruct (Queue a =? q) eqn:E; bool_to_prop.
  - rewrite IH; [|done|intros; apply Hq; by right].
    by rewrite filter_cons_True, (filter_cons_False _ a) by (simpl; tauto).
  - assert (∀ b, b ∈ a :: l → Queue b ≠ q) as Hne.
    { assert (q < Queue a) by (pose proof (Hq a ltac:(left)); lia).
      intros b [->|Hb]%elem_of_cons; [lia|]. rewrite Forall_forall in Hf. specialize (Hf b Hb).
      unfold lt in Hf. lia. }
    rewrite filter_none by auto. by rewrite filter_all.
Qed.
End EnqueuedPoolFacts.

Module UsmAsyncFacts.
Import EnqueuedPool EnqueuedPoolFacts UsmAsync.

(** The best fit, as a property of the set: the smallest allocation of the
    queue that is large enough, the lowest address among those of its size. *)
Definition best_fit (size queue : Z) (l : list Allocation) (a : Allocation) : Prop :=
  a ∈ l ∧ Queue a = queue ∧ size ≤ Size a ∧
  ∀ b, b ∈ l → Queue b = queue → size ≤ Size b → a = b ∨ Size a < Size b ∨ Size a = Size b ∧ Ptr a < Ptr b.

Lemma getBestFit_ok size queue l :
  ordered l → (∀ a, a ∈ l → 0 ≤ Ptr a) →
  match getBestFit size queue l with
  | (Some a, l') => best_fit size queue l a ∧ l ≡ₚ a :: l' ∧ ordered l'
  | (None, l') => l' = l ∧ ∀ b, b ∈ l → Queue b = queue → Size b < size
  end.
Proof.
  intros Ho Hp. unfold getBestFit. set (k := {| Ptr := 0 |}).
  destruct (lower_bound k l) as [x y] eqn:E.
  destruct (lower_bound_spec k l x y Ho E) as (-> & Hx & Hy). rewrite Forall_forall in Hx, Hy.
  assert (∀ b, b ∈ x → Queue b = queue → Size b < size) as Hbefore.
  { intros b Hb Hq. specialize (Hx b Hb). specialize (Hp b ltac:(apply elem_of_app; by left)).
    unfold lt in Hx. simpl in Hx. lia. }
  destruct y as [|a y]; simpl.
  { split; [done|]. intros b. rewrite app_nil_r. apply Hbefore. }
  pose proof (Hy a ltac:(left)) as Ha. unfold lt in Ha. simpl in Ha.
  apply ordered_app in Ho as (Hox & Hoy & Hxy). apply StronglySorted_inv in Hoy as [Hoy Hf].
  rewrite Forall_forall in Hf. destruct ((size <=? Size a) && (Queue a =? queue)) eqn:Et.
  - bool_to_prop. split_and!; [|solve_Permutation|].
    + split_and!; [apply elem_of_app; right; left|done|done|].
      intros b [Hb|[->|Hb]%elem_of_cons]%elem_of_app Hq Hs; [|by left|].
      * specialize (Hbefore b Hb Hq). lia.
      * right. specialize (Hf b Hb). unfold lt in Hf. lia.
    + apply ordered_app. split_and!; [done|done|]. intros c d Hc Hd. apply Hxy; [done|by right].
  - split; [done|]. intros b [Hb|Hb]%elem_of_app Hq; [by apply Hbefore|].
    assert (queue < Queue a ∨ Queue a = queue ∧ Size a < size) as Hc.
    { apply andb_false_iff in Et as [Et|Et]; bool_to_prop; lia. }
    apply elem_of_cons in Hb as [->|Hb]; [lia|]. specialize (Hf b Hb). unfold lt in Hf. lia.
Qed.

Lemma cleanupForQueue_ok queue l :
  ordered l → (∀ a, a ∈ l → 0 ≤ Ptr a ∧ 0 ≤ Size a) →
  cleanupForQueue queue l =
    (negb (bool_decide (filter (λ a, Queue a = queue) l = [])),
     filter (λ a, Queue a = queue) l, filter (λ a, Queue a ≠ queue) l) ∧
  ordered (filter (λ a, Queue a ≠ queue) l).
Proof.
  intros Ho Hp. unfold cleanupForQueue. set (k := {| Ptr := 0 |}).
  destruct (lower_bound k l) as [x y] eqn:E.
  destruct (lower_bound_spec k l x y Ho E) as (-> & Hx & Hy). rewrite Forall_forall in Hx, Hy.
  assert (∀ b, b ∈ x → Queue b ≠ queue) as Hne.
  { intros b Hb. specialize (Hx b Hb). specialize (Hp b ltac:(apply elem_of_app; by left)).
    unfold lt in Hx. simpl in Hx. lia. }
  apply ordered_app in Ho as Ho'. destruct Ho' as (Hox & Hoy & Hxy). rewrite while_queue_spec; [|done|].
  2: { intros a Ha. specialize (Hy a Ha). unfold lt in Hy. simpl in Hy.
       specialize (Hp a ltac:(apply elem_of_app; by right)). lia. }
  rewrite !filter_app, (filter_none _ x), (filter_all (λ a, Queue a ≠ queue) x) by auto. split; [done|].
  apply ordered_app. split_and!; [done| |].
  - clear -Hoy. induction y as [|a y IH]; [constructor|]. apply StronglySorted_inv in Hoy as [Ho Hf].
    rewrite filter_cons. case_decide; [|by apply IH]. constructor; [by apply IH|].
    rewrite Forall_forall in *. intros b [_ Hb]%list_elem_of_filter. by apply Hf.
  - intros a b Ha [_ Hb]%list_elem_of_filter. by apply Hxy.
Qed.

(** The pointers UMF has given out and not been given back. *)
Definition live_step (acc : list Z) (c : tcall) : list Z :=
  match c with
  | UmfMalloc _ _ p => p :: acc
  | UmfFree p => filter (λ x, x ≠ p) acc
  | _ => acc
  end.
Definition live (tr : list tcall) : list Z := foldl live_step [] tr.
Lemma usm_live_snoc tr c : live (tr ++ [c]) = live_step (live tr) c.
Proof. unfold live. by rewrite foldl_app. Qed.

(** The allocations of all freelists. *)
Definition allocations (m : gmap Z (list Allocation)) : list Allocation := (map_to_list m).*2 ≫= id.

Lemma allocations_insert m p l :
  allocations (<[p := l]> m) ≡ₚ l ++ allocations (delete p m).
Proof.
  unfold allocations. rewrite <-insert_delete_eq, map_to_list_insert by apply lookup_delete_eq. done.
Qed.
Lemma allocations_lookup m p : allocations m ≡ₚ default [] (m !! p) ++ allocations (delete p m).
Proof.
  destruct (m !! p) as [l|] eqn:E; simpl.
  - rewrite <-(insert_id m p l) at 1 by done. apply allocations_insert.
  - by rewrite delete_id.
Qed.
Lemma elem_of_allocations m a : a ∈ allocations m ↔ ∃ p l, m !! p = Some l ∧ a ∈ l.
Proof.
  unfold allocations. rewrite list_elem_of_bind. split.
  - intros (l & Ha & Hl). apply list_elem_of_fmap in Hl as ([p l'] & -> & Hl).
    apply elem_of_map_to_list in Hl. by exists p, l'.
  - intros (p & l & Hl & Ha). exists l. split; [done|]. apply list_elem_of_fmap. exists (p, l).
    split; [done|]. by apply elem_of_map_to_list.
Qed.

Section facts.
Context `{UsmDriver} (hDevice : Z) (isInOrder : Z → bool).
Hypothesis (Hfresh : ∀ tr pool n, u_malloc tr pool n ∉ live tr ∧ 0 ≤ u_malloc tr pool n).
Hypothesis (Husable : ∀ tr pool p n, umfPoolMallocUsableSize tr pool p = Usable n → 0 ≤ n).

(** [a] was put on its freelist, after a signal of its event; in a queue that
    is not in order there is one. *)
Definition signalled (t1 : list tcall) (cl : Z) (a : Allocation) : Prop :=
  match Event a with
  | Some e => last t1 = Some (SignalEvent cl e)
  | None => isInOrder (Queue a) = true
  end.
Definition inserted (tr : list tcall) (a : Allocation) : Prop :=
  ∃ t1 cl t2, tr = t1 ++ AsyncInsert cl a :: t2 ∧ signalled t1 cl a.

(** [a] is taken from the freelist by a command of queue [q] on list [cl] after
    [tr]: it was put there by the same queue, and, unless that is in order, [cl]
    has been made to wait for the event of the free in between. *)
Definition reused (tr : list tcall) (cl q : Z) (a : Allocation) : Prop :=
  ∃ t1 cl' t2, tr = t1 ++ AsyncInsert cl' a :: t2 ∧ signalled t1 cl' a ∧ Queue a = q ∧
    (isInOrder q = true ∨ ∃ e es, Event a = Some e ∧ WaitOnEvents cl es ∈ t2 ∧ e ∈ es).

Record usm_inv (s : usm_state) (owned lost : list Z) : Prop := {
  ui_live : live (trace s) ≡ₚ owned ++ (Ptr <$> allocations (asyncPool s)) ++ lost;
  ui_nodup : NoDup (live (trace s));
  ui_nonneg : ∀ p, p ∈ live (trace s) → 0 ≤ p;
  ui_ordered : ∀ p l, asyncPool s !! p = Some l → ordered l;
  ui_sizes : ∀ a, a ∈ allocations (asyncPool s) → 0 ≤ Size a ∧ inserted (trace s) a;
  ui_reused : ∀ t1 cl q a t2, trace s = t1 ++ AsyncReuse cl q a :: t2 → reused t1 cl q a }.

Lemma inserted_app tr x a : inserted tr a → inserted (tr ++ x) a.
Proof. intros (t1 & cl & t2 & -> & Hs). exists t1, cl, (t2 ++ x). by rewrite <-app_assoc. Qed.

Lemma snoc_split {A} (l t1 t2 : list A) c d :
  l ++ [c] = t1 ++ d :: t2 → (t2 = [] ∧ l = t1 ∧ c = d) ∨ ∃ t, t2 = t ++ [c] ∧ l = t1 ++ d :: t.
Proof.
  destruct t2 as [|x t2 _] using rev_ind; intros E.
  - left. apply app_inj_tail in E. naive_solver.
  - right. exists t2. rewrite app_comm_cons, app_assoc in E. apply app_inj_tail in E as [-> ->]. done.
Qed.

Lemma usm_inv_ext s s' owned lost owned' lost' :
  asyncPool s' = asyncPool s → trace s' = trace s → owned ++ lost ≡ₚ owned' ++ lost' →
  usm_inv s owned lost → usm_inv s' owned' lost'.
Proof.
  intros Ep Et Eo []. split; rewrite ?Ep, ?Et; try done.
  rewrite ui_live0. set (m := Ptr <$> allocations (asyncPool s)).
  transitivity ((owned ++ lost) ++ m); [solve_Permutation|]. rewrite Eo. solve_Permutation.
Qed.

(** Calls other than allocating and freeing. *)
Lemma usm_inv_log c s owned lost :
  (∀ acc, live_step acc c = acc) → (∀ cl q a, c = AsyncReuse cl q a → reused (trace s) cl q a) →
  usm_inv s owned lost → usm_inv (log c s) owned lost.
Proof.
  intros Hc Hr []. assert (live (trace s ++ [c]) = live (trace s)) as El by (rewrite usm_live_snoc; apply Hc).
  split; simpl; rewrite ?El; try done.
  - intros a Ha. destruct (ui_sizes0 a Ha). split; [done|]. by apply inserted_app.
  - intros t1 cl q a t2 [(-> & <- & ->)|(t & -> & Et)]%snoc_split; [by apply Hr|by eapply ui_reused0].
Qed.

Lemma call_cases c s r s' :
  call c s = (r, s') → r = UR_RESULT_SUCCESS ∧ s' = log c s ∨ r ≠ UR_RESULT_SUCCESS ∧ s' = s.
Proof.
  unfold call. destruct (u_error (trace s) c) as [e|] eqn:E; intros [= <- <-]; [right|by left].
  split; [|done]. intros ->. by apply u_error_fails in E.
Qed.

(** Waiting and signalling: what the trace ends with when they succeed. *)
Lemma wait_signal_ok cl es ev k s owned lost :
  usm_inv s owned lost →
  let '(r, s') := UR_CALL (wait_on cl es) (UR_CALL (signal cl ev) k) s in
  (r ≠ UR_RESULT_SUCCESS ∧ usm_inv s' owned lost ∧ asyncPool s' = asyncPool s) ∨
  ∃ s1 x, (r, s') = k s1 ∧ usm_inv s1 owned lost ∧ asyncPool s1 = asyncPool s ∧ trace s1 = trace s ++ x ∧
    (es ≠ [] → WaitOnEvents cl es ∈ x) ∧ (∀ e, ev = Some e → last (trace s1) = Some (SignalEvent cl e)).
Proof.
  intros Hi. unfold UR_CALL, wait_on, when.
  assert (∃ r1 s1, (if negb (bool_decide (es = [])) then call (WaitOnEvents cl es) else ret UR_RESULT_SUCCESS) s
      = (r1, s1) ∧ usm_inv s1 owned lost ∧ asyncPool s1 = asyncPool s ∧
    (r1 = UR_RESULT_SUCCESS → ∃ x, trace s1 = trace s ++ x ∧ (es ≠ [] → WaitOnEvents cl es ∈ x)))
    as (r1 & s1 & -> & Hi1 & Ep1 & Hx).
  { case_bool_decide as Ees; simpl.
    - do 2 eexists. split; [done|]. split_and!; [done|done|]. intros _. exists []. by rewrite app_nil_r.
    - destruct (call (WaitOnEvents cl es) s) as [r1 s1] eqn:E. do 2 eexists. split; [done|].
      destruct (call_cases _ _ _ _ E) as [[-> ->]|[Hr ->]]; [|done].
      split_and!; [by apply usm_inv_log|done|]. intros _. exists [WaitOnEvents cl es]. split; [done|]. left. }
  destruct (decide (r1 = UR_RESULT_SUCCESS)) as [->|Hr1]; [|by left]. destruct (Hx eq_refl) as (x & Et & Hw).
  destruct ev as [e|]; simpl.
  - destruct (call (SignalEvent cl e) s1) as [r2 s2] eqn:E.
    destruct (call_cases _ _ _ _ E) as [[-> ->]|[Hr ->]].
    + rewrite decide_True by done. destruct (k _) as [r' s'] eqn:Ek. right. exists (log (SignalEvent cl e) s1), (x ++ [SignalEvent cl e]).
      split_and!; simpl; [done|by apply usm_inv_log|done|by rewrite Et, app_assoc|intros; apply elem_of_app; auto|].
      intros e' [= <-]. by rewrite last_snoc.
    + rewrite decide_False by done. by left.
  - destruct (k s1) as [r' s'] eqn:Ek. right. exists s1, x. by split_and!.
Qed.

Lemma wait_signal_plain cl es ev s owned lost :
  usm_inv s owned lost →
  let '(r, s') := UR_CALL (wait_on cl es) (signal cl ev) s in usm_inv s' owned lost.
Proof.
  intros Hi. pose proof (wait_signal_ok cl es ev (ret UR_RESULT_SUCCESS) s _ _ Hi) as Hw.
  unfold UR_CALL, ret in *. destruct (wait_on cl es s) as [r1 s1]. case_decide.
  - destruct (signal cl ev s1) as [r2 s2]. case_decide; naive_solver.
  - naive_solver.
Qed.

Lemma freelist_lookup s p a : a ∈ freelist p s → a ∈ allocations (asyncPool s).
Proof.
  unfold freelist. destruct (asyncPool s !! p) as [l|] eqn:E; [|by intros ?%not_elem_of_nil].
  intros Ha. apply elem_of_allocations. by exists p, l.
Qed.
Lemma freelist_ordered s owned lost p : usm_inv s owned lost → ordered (freelist p s).
Proof.
  intros []. unfold freelist. destruct (asyncPool s !! p) as [l|] eqn:E; [by eapply ui_ordered0|constructor].
Qed.
Lemma ptr_nonneg s owned lost a : usm_inv s owned lost → a ∈ allocations (asyncPool s) → 0 ≤ Ptr a.
Proof.
  intros [] Ha. apply ui_nonneg0. rewrite ui_live0. apply elem_of_app. right. apply elem_of_app. left.
  by apply list_elem_of_fmap_2.
Qed.

(** Changing one freelist, and the callers' pointers with it. *)
Lemma set_pool_inv s owned lost p l owned' lost' :
  usm_inv s owned lost → ordered l →
  owned ++ (Ptr <$> freelist p s) ++ lost ≡ₚ owned' ++ (Ptr <$> l) ++ lost' →
  (∀ a, a ∈ l → 0 ≤ Size a ∧ inserted (trace s) a) →
  usm_inv (set_pool p l s) owned' lost'.
Proof.
  intros [] Hl Hp Hs. split; simpl; try done.
  - rewrite ui_live0, allocations_insert, (allocations_lookup _ p), !fmap_app.
    change (default [] (asyncPool s !! p)) with (freelist p s).
    set (m := Ptr <$> allocations (delete p (asyncPool s))).
    transitivity ((owned ++ (Ptr <$> freelist p s) ++ lost) ++ m); [solve_Permutation|]. rewrite Hp. solve_Permutation.
  - intros q k Hk. destruct (decide (p = q)) as [<-|Hne].
    + rewrite lookup_insert_eq in Hk. by injection Hk as <-.
    + rewrite lookup_insert_ne in Hk by done. by eapply ui_ordered0.
  - intros a Ha. rewrite allocations_insert, elem_of_app in Ha. destruct Ha as [Ha|Ha]; [by apply Hs|].
    apply ui_sizes0. rewrite (allocations_lookup _ p), elem_of_app. by right.
Qed.

(** Freeing a pointer the caller owns. *)
Lemma free_inv cl q ptr waits ev s owned lost :
  usm_inv s (ptr :: owned) lost → (ev = None → isInOrder q = true) →
  let '(r, s') := appendUSMFreeExp cl q ptr waits ev s in
  usm_inv s' (if decide (r = UR_RESULT_SUCCESS) then owned else ptr :: owned) lost.
Proof.
  intros Hi Hev. unfold appendUSMFreeExp. destruct (umfPoolByPtr _ _) as [pool|]; [|done].
  destruct (umfPoolMallocUsableSize _ _ _) as [size| |] eqn:Es; [|done|done].
  match goal with |- context [UR_CALL _ (UR_CALL _ ?k) s] =>
    pose proof (wait_signal_ok cl waits ev k s _ _ Hi) as Hw; destruct (UR_CALL _ (UR_CALL _ k) s) as [r s'] end.
  destruct Hw as [(Hr & Hi' & _)|(s1 & x & E & Hi1 & _ & _ & _ & Hl)]; [by rewrite decide_False|].
  injection E as -> ->. simpl. set (s2 := match ev with Some e => retain e s1 | None => s1 end).
  set (a := {| Ptr := ptr; Size := size; Event := ev; Queue := q |}).
  assert (usm_inv s2 (ptr :: owned) lost) as Hi2 by (destruct ev; by eapply usm_inv_ext, Hi1).
  assert (trace s2 = trace s1) as Et by (by destruct ev).
  destruct (emplace_spec a (freelist pool s2)) as [Ho Hperm]; [by eapply freelist_ordered|].
  change (insert ptr size ev q (freelist pool s2)) with (emplace a (freelist pool s2)).
  assert (signalled (trace s2) cl a) as Hsig.
  { unfold signalled. simpl. rewrite Et. destruct ev as [e|]; [by apply Hl|by apply Hev]. }
  destruct Hperm as [Hperm|(_ & b & Hb & _ & _ & Hptr)].
  2: { exfalso. pose proof (ui_nodup _ _ _ Hi2) as Hn. rewrite (ui_live _ _ _ Hi2) in Hn.
       simpl in Hn. apply NoDup_cons in Hn as [Hn _]. apply Hn. apply elem_of_app. right. apply elem_of_app. left.
       simpl in Hptr. rewrite <-Hptr. apply list_elem_of_fmap_2. by eapply freelist_lookup. }
  set (s3 := log (AsyncInsert cl a) s2).
  assert (usm_inv s3 (ptr :: owned) lost) as Hi3 by (by apply usm_inv_log).
  apply (usm_inv_ext (set_pool pool (emplace a (freelist pool s3)) s3) _ owned lost); [done|done|done|].
  apply (set_pool_inv s3 (ptr :: owned) lost); [done|done| |].
  - change (freelist pool s3) with (freelist pool s2). rewrite Hperm. simpl. solve_Permutation.
  - intros b. change (freelist pool s3) with (freelist pool s2). rewrite Hperm.
    intros [->|Hb]%elem_of_cons.
    + split; [by eapply Husable|]. by exists (trace s2), cl, [].
    + apply (ui_sizes _ _ _ Hi3). by eapply freelist_lookup.
Qed.

(** An allocation taken from a freelist: it stays reserved for the caller, its
    insertion is on the trace and the free is ordered before the reuse. *)
Lemma reuse_inv cl q p size waits ev a l s owned lost :
  usm_inv s owned lost → getBestFit size q (freelist p s) = (Some a, l) →
  let ord := (Queue a =? q) && isInOrder q in
  let ev0 := if ord then None else Event a in
  let s1 := if ord then release_opt (Event a) (set_pool p l s) else set_pool p l s in
  usm_inv (UR_CALL (wait_on cl (waits ++ option_list ev0)) (UR_CALL (signal cl ev)
    (update (λ s, log (AsyncReuse cl q a) (release_opt ev0 s)))) s1).2 (Ptr a :: owned) lost.
Proof.
  intros Hi Hbf ord ev0 s1. pose proof (getBestFit_ok size q (freelist p s)) as Hb. rewrite Hbf in Hb.
  destruct Hb as ((Hin & Hq & _) & Hperm & Hol); [by eapply freelist_ordered| |].
  { intros b Hb. eapply ptr_nonneg; [exact Hi|]. by eapply freelist_lookup. }
  assert (usm_inv (set_pool p l s) (Ptr a :: owned) lost) as Hi1.
  { apply (set_pool_inv s owned lost); [done|done| |].
    - rewrite Hperm. simpl. solve_Permutation.
    - intros b Hb. apply (ui_sizes _ _ _ Hi). eapply freelist_lookup. rewrite Hperm. by right. }
  destruct (ui_sizes _ _ _ Hi a ltac:(by eapply freelist_lookup)) as [_ (t1 & cl' & t2 & Et & Hsig)].
  assert (usm_inv s1 (Ptr a :: owned) lost ∧ trace s1 = trace s) as [Hi2 Et1].
  { unfold s1. destruct ord; [|done]. destruct (Event a); [|done]. split; [|done]. by eapply usm_inv_ext, Hi1. }
  match goal with |- context [UR_CALL _ (UR_CALL _ ?k) s1] =>
    pose proof (wait_signal_ok cl (waits ++ option_list ev0) ev k s1 _ _ Hi2) as Hw;
    destruct (UR_CALL _ (UR_CALL _ k) s1) as [r s'] end.
  destruct Hw as [(Hr & Hi' & _)|(s2 & x & E & Hi3 & _ & Et2 & Hwait & _)]; [done|].
  injection E as -> ->. simpl.
  assert (∀ s, usm_inv s (Ptr a :: owned) lost → usm_inv (release_opt ev0 s) (Ptr a :: owned) lost) as Hrel.
  { intros s0 H0. destruct ev0; [|done]. by eapply usm_inv_ext, H0. }
  apply usm_inv_log; [done| |by apply Hrel]. intros cl0 q0 a0 [= <- <- <-].
  assert (trace (release_opt ev0 s2) = t1 ++ AsyncInsert cl' a :: (t2 ++ x)) as ->.
  { assert (trace (release_opt ev0 s2) = trace s2) as -> by (by destruct ev0).
    by rewrite Et2, Et1, Et, <-app_assoc. }
  exists t1, cl', (t2 ++ x). split_and!; [done|done|done|]. destruct (isInOrder q) eqn:Eo; [by left|right].
  unfold signalled in Hsig. destruct (Event a) as [e|] eqn:Ee; [|by rewrite Hq, Eo in Hsig].
  assert (ev0 = Some e) as Eev by (unfold ev0, ord; rewrite Hq, Z.eqb_refl; done). rewrite Eev in Hwait.
  exists e, (waits ++ option_list (Some e)). split; [done|]. split; [|set_solver].
  apply elem_of_app. right. apply Hwait. by intros [_ ?]%app_nil.
Qed.

(** Memory from UMF is the caller's, or lost. *)
Lemma malloc_inv p n s owned lost ow lo :
  let m := u_malloc (trace s) p n in
  usm_inv s owned lost → ow ++ lo ≡ₚ m :: owned ++ lost → usm_inv (log (UmfMalloc p n m) s) ow lo.
Proof.
  intros m Hi Hp. destruct (Hfresh (trace s) p n) as [Hf Hnn]. fold m in Hf, Hnn.
  destruct Hi. split; simpl; rewrite ?usm_live_snoc; simpl; try done.
  - set (y := Ptr <$> allocations (asyncPool s)) in *. rewrite ui_live0.
    transitivity ((ow ++ lo) ++ y); [rewrite Hp; solve_Permutation|solve_Permutation].
  - by apply NoDup_cons.
  - intros z [->|Hz]%elem_of_cons; auto.
  - intros a Ha. destruct (ui_sizes0 a Ha). split; [done|]. by apply inserted_app.
  - intros t1 cl0 q0 a t2 [(_ & _ & ?)|(t & -> & Et)]%snoc_split; [done|by eapply ui_reused0].
Qed.

Lemma allocate_inv q device type size s owned lost :
  usm_inv s owned lost →
  match allocate q device type size s with
  | (inl r, s') => r ≠ UR_RESULT_SUCCESS ∧ ∃ lost', usm_inv s' owned lost'
  | (inr p, s') => usm_inv s' (p :: owned) lost
  end.
Proof.
  intros Hi. unfold allocate. destruct (getPool q device type) as [p|]; [|by split; [|exists lost]].
  destruct (call _ s) as [r s1] eqn:E. simpl.
  destruct (call_cases _ _ _ _ E) as [[-> ->]|[Hr ->]].
  2: { rewrite decide_False by done. split; [done|]. by exists lost. }
  rewrite decide_True by done. destruct (umfPoolMallocUsableSize _ _ _) as [n| |e] eqn:Eu.
  3: { split; [by intros ->; apply usable_fails in Eu|]. eexists (_ :: lost).
       apply (malloc_inv _ _ _ owned lost); [done|]. simpl. solve_Permutation. }
  all: by apply (malloc_inv _ _ _ owned lost).
Qed.

(** An allocation, from a freelist or from UMF: the pointer written is the
    caller's, and may be lost only when UMF cannot tell its size. *)
Lemma alloc_inv cl q pool type size waits ev s owned lost :
  usm_inv s owned lost →
  let '(r, ptr, s') := appendUSMAllocHelper hDevice isInOrder cl q pool type size waits ev s in
  (r = UR_RESULT_SUCCESS → is_Some ptr) ∧
  ∃ lost', usm_inv s' (option_list ptr ++ owned) lost' ∧ (ptr ≠ None → lost' = lost).
Proof.
  intros Hi. unfold appendUSMAllocHelper. set (dev := if type is HostMem then None else Some hDevice).
  assert (∀ s0, usm_inv s0 owned lost → let '(r, ptr, s') :=
    match allocate pool dev type size s0 with
    | (inl r, s) => (r, None, s)
    | (inr p, s) => let '(r, s) := UR_CALL (wait_on cl waits) (signal cl ev) s in (r, Some p, s)
    end in (r = UR_RESULT_SUCCESS → is_Some ptr) ∧
    ∃ lost', usm_inv s' (option_list ptr ++ owned) lost' ∧ (ptr ≠ None → lost' = lost)) as Hfresh_alloc.
  { intros s0 Hi0. pose proof (allocate_inv pool dev type size s0 owned lost Hi0) as Ha.
    destruct (allocate pool dev type size s0) as [[r|p] s1].
    - destruct Ha as [Hr [lost' H']]. split; [done|]. by exists lost'.
    - pose proof (wait_signal_plain cl waits ev s1 _ _ Ha) as Hw.
      destruct (UR_CALL _ _ _) as [r s']. split; [done|]. by exists lost. }
  unfold allocateEnqueued. destruct (getPool pool dev type) as [p|] eqn:Ep; [|by apply Hfresh_alloc].
  destruct (getBestFit size q (freelist p s)) as [[a|] l] eqn:Hb; [|by apply Hfresh_alloc].
  pose proof (reuse_inv cl q p size waits ev a l s owned lost Hi Hb) as Hr.
  cbv zeta in Hr. destruct (_ && _); (destruct (UR_CALL _ _ _) as [r s']; split; [done|by exists lost]).
Qed.

(** Giving allocations back to UMF. *)
Lemma free_allocations_inv l s owned lost :
  usm_inv s owned ((Ptr <$> l) ++ lost) →
  usm_inv (foldl (λ s a, free_allocation a s) s l) owned lost.
Proof.
  revert s. induction l as [|a l IH]; intros s Hi; [done|]. simpl. apply IH. clear IH. simpl in Hi.
  assert (usm_inv (log (UmfFree (Ptr a)) s) owned ((Ptr <$> l) ++ lost)) as Hi'.
  { destruct Hi. set (y := Ptr <$> allocations (asyncPool s)) in *.
    assert (live (trace s) ≡ₚ Ptr a :: owned ++ y ++ (Ptr <$> l) ++ lost) as Hp by (rewrite ui_live0; solve_Permutation).
    pose proof ui_nodup0 as Hn. rewrite Hp in Hn. apply NoDup_cons in Hn as [Ha _].
    assert (filter (λ x, x ≠ Ptr a) (live (trace s)) ≡ₚ owned ++ y ++ (Ptr <$> l) ++ lost) as El.
    { rewrite Hp, filter_cons_False by naive_solver. rewrite filter_all; [done|]. by intros x Hx ->. }
    split; simpl; rewrite ?usm_live_snoc; simpl; try done.
    - by apply NoDup_filter.
    - intros z [_ Hz]%list_elem_of_filter. by apply ui_nonneg0.
    - intros b Hb. destruct (ui_sizes0 b Hb). split; [done|]. by apply inserted_app.
    - intros t1 cl0 q0 b t2 [(_ & _ & ?)|(t & -> & Et)]%snoc_split; [done|by eapply ui_reused0]. }
  unfold free_allocation. destruct (Event a); [|done]. by eapply usm_inv_ext, Hi'.
Qed.

Lemma cleanup_pool_inv q p s owned lost :
  usm_inv s owned lost → usm_inv (cleanup_pool q p s) owned lost.
Proof.
  intros Hi. unfold cleanup_pool.
  destruct (cleanupForQueue_ok q (freelist p s)) as [-> Ho]; [by eapply freelist_ordered| |].
  { intros a Ha%freelist_lookup. split; [by eapply ptr_nonneg|]. by apply (ui_sizes _ _ _ Hi). }
  apply free_allocations_inv. apply (set_pool_inv s owned lost); [done|done| |].
  - rewrite <-(filter_app_complement (λ a, Queue a = q) (freelist p s)), fmap_app at 1.
    set (x := Ptr <$> filter (λ a, Queue a = q) _). set (y := Ptr <$> filter (λ a, Queue a ≠ q) _). solve_Permutation.
  - intros a [_ Ha]%list_elem_of_filter. apply (ui_sizes _ _ _ Hi). by eapply freelist_lookup.
Qed.

Lemma cleanupPoolsForQueue_inv q s owned lost :
  usm_inv s owned lost → usm_inv (cleanupPoolsForQueue q s) owned lost.
Proof.
  unfold cleanupPoolsForQueue. generalize (map_to_list (asyncPool s)).*1 as l. intros l. revert s.
  induction l as [|p l IH]; intros s Hi; [done|]. simpl. by apply IH, cleanup_pool_inv.
Qed.

End facts.
End UsmAsyncFacts.

Module UsmAsyncProps.
Import EnqueuedPool EnqueuedPoolFacts UsmAsync UsmAsyncFacts.

(** on an ordered freelist [getBestFit] takes the smallest allocation of
    the queue that is large enough, at the lowest address among equals, leaves
    the others in order, and fails exactly when no allocation of the queue is
    large enough; [cleanupForQueue] takes exactly those of the queue; [insert]
    keeps the order and drops only an allocation that is there already. *)
Theorem enqueued_pool_spec size queue a l :
  ordered l → (∀ a, a ∈ l → 0 ≤ Ptr a ∧ 0 ≤ Size a) →
  match getBestFit size queue l with
  | (Some b, l') => best_fit size queue l b ∧ l ≡ₚ b :: l' ∧ ordered l'
  | (None, l') => l' = l ∧ ∀ b, b ∈ l → Queue b = queue → Size b < size
  end ∧
  (let '(any, freed, rest) := cleanupForQueue queue l in
   l ≡ₚ freed ++ rest ∧ ordered rest ∧ (∀ b, b ∈ freed → Queue b = queue) ∧
   (∀ b, b ∈ rest → Queue b ≠ queue) ∧ (any = true ↔ freed ≠ [])) ∧
  ordered (emplace a l) ∧
  (emplace a l ≡ₚ a :: l ∨ emplace a l = l ∧ ∃ b, b ∈ l ∧ Queue b = Queue a ∧ Size b = Size a ∧ Ptr b = Ptr a).
Proof.
  intros Ho Hp. split; [by apply getBestFit_ok; [|apply Hp]|]. split; [|by apply emplace_spec].
  destruct (cleanupForQueue_ok queue l Ho Hp) as [-> Hr]. split_and!; [|done| | |].
  - by rewrite (filter_app_complement (λ a, Queue a = queue)).
  - by intros b [? _]%list_elem_of_filter.
  - by intros b [? _]%list_elem_of_filter.
  - case_bool_decide; naive_solver.
Qed.

Section props.
Context `{UsmDriver} (hDevice : Z) (isInOrder : Z → bool).

(** The memory callers hold: allocations by any queue with any wait list, frees
    of held pointers, and queues being finished. *)
Inductive step : relation (usm_state * list Z) :=
  | step_alloc s owned cl q pool type size ws ph r ptr s' :
      enqueueUSMAllocExp hDevice isInOrder cl q pool type size ws ph s = (r, ptr, s') →
      step (s, owned) (s', option_list ptr ++ owned)
  | step_free s l p k cl q ws ph r ev s' :
      enqueueUSMFreeExp isInOrder cl q p ws ph s = (r, ev, s') →
      step (s, l ++ p :: k) (s', if decide (r = UR_RESULT_SUCCESS) then l ++ k else l ++ p :: k)
  | step_finish s owned q : step (s, owned) (cleanupPoolsForQueue q s, owned).

Definition initial : usm_state * list Z := ({| asyncPool := ∅; refs := ∅; trace := [] |}, []).

Section laws.
Hypothesis (Hfresh : ∀ tr pool n, u_malloc tr pool n ∉ live tr ∧ 0 ≤ u_malloc tr pool n).
Hypothesis (Husable : ∀ tr pool p n, umfPoolMallocUsableSize tr pool p = Usable n → 0 ≤ n).

Definition sys_usm_inv (x : usm_state * list Z) : Prop := ∃ lost, usm_inv isInOrder x.1 x.2 lost.

Lemma createEvent_usm_inv ph s owned lost :
  usm_inv isInOrder s owned lost → usm_inv isInOrder (createEventIfRequested ph s).2 owned lost.
Proof. intros Hi. destruct ph; [|done]. by eapply usm_inv_ext, Hi. Qed.

Lemma sys_usm_step x x' : sys_usm_inv x → step x x' → sys_usm_inv x'.
Proof.
  intros [lost Hi] Hs. destruct Hs as [s owned cl q pool type size ws ph r ptr s' E|s l p k cl q ws ph r ev s' E|s owned q]; simpl in Hi.
  - unfold enqueueUSMAllocExp in E. pose proof (createEvent_usm_inv ph s _ _ Hi) as Hi1.
    destruct (createEventIfRequested ph s) as [e s1]. simpl in Hi1.
    pose proof (alloc_inv hDevice isInOrder Hfresh Husable cl q pool type size ws e s1 owned lost Hi1) as Ha.
    rewrite E in Ha. destruct Ha as (_ & lost' & Hi' & _). by exists lost'.
  - unfold enqueueUSMFreeExp in E. pose proof (createEvent_usm_inv (ph || negb (isInOrder q)) s _ _ Hi) as Hi1.
    destruct (createEventIfRequested (ph || negb (isInOrder q)) s) as [e s1] eqn:Ee. simpl in Hi1.
    assert (usm_inv isInOrder s1 (p :: l ++ k) lost) as Hi2.
    { eapply usm_inv_ext, Hi1; [done|done|]. solve_Permutation. }
    pose proof (free_inv hDevice isInOrder Hfresh Husable cl q p ws e s1 (l ++ k) lost Hi2) as Hf.
    destruct (appendUSMFreeExp cl q p ws e s1) as [r1 s2]. injection E as <- _ <-. exists lost. simpl.
    ospecialize (Hf _). { intros ->. destruct (isInOrder q); [done|]. by rewrite orb_true_r in Ee. }
    case_decide; [done|]. eapply usm_inv_ext, Hf; [done|done|]. solve_Permutation.
  - exists lost. by eapply cleanupPoolsForQueue_inv.
Qed.

Lemma usm_reachable_inv x : rtc step initial x → sys_usm_inv x.
Proof.
  intros Hs. eapply (rtc_invariant step sys_usm_inv); [apply sys_usm_step|exact Hs|].
  exists []. split; simpl; try done.
  - apply NoDup_nil_2.
  - by intros ? ?%not_elem_of_nil.
  - intros a. by intros (p & l & E & _)%elem_of_allocations.
  - by intros [|??] ???? [=].
Qed.

(** C13: no memory is held twice: what the callers hold and what is on the
    freelists are pointers UMF has given out and not got back, and no pointer
    occurs in two places. *)
Theorem async_memory_unique s owned :
  rtc step initial (s, owned) →
  NoDup (owned ++ (Ptr <$> allocations (asyncPool s))) ∧
  ∀ p, p ∈ owned ++ (Ptr <$> allocations (asyncPool s)) → p ∈ live (trace s).
Proof.
  intros [lost []]%usm_reachable_inv. rewrite ui_live0, app_assoc in ui_nodup0. simpl in *. split.
  - by apply NoDup_app in ui_nodup0 as [? _].
  - intros p Hp. rewrite ui_live0, app_assoc. apply elem_of_app. by left.
Qed.

(** C14: memory is reused in order: when a command of queue [q] on list [cl] is
    given an allocation from a freelist, the allocation was put there by a free
    on the same queue [q], and unless that queue is in order the command list has
    been made to wait, since then, for the event that was signalled by that
    free. *)
Theorem reuse_ordered s owned t1 cl q a t2 :
  rtc step initial (s, owned) → trace s = t1 ++ AsyncReuse cl q a :: t2 →
  Queue a = q ∧
  ∃ u1 cl' u2, t1 = u1 ++ AsyncInsert cl' a :: u2 ∧
    (isInOrder q = true ∨
     ∃ e es, Event a = Some e ∧ last u1 = Some (SignalEvent cl' e) ∧ WaitOnEvents cl es ∈ u2 ∧ e ∈ es).
Proof.
  intros [lost Hi]%usm_reachable_inv Et. destruct (ui_reused _ _ _ _ Hi t1 cl q a t2 Et) as (u1 & cl' & u2 & E & Hs & Hq & Ho).
  split; [done|]. exists u1, cl', u2. split; [done|]. destruct Ho as [Ho|(e & es & Ee & Hw & Hin)]; [by left|right].
  unfold signalled in Hs. rewrite Ee in Hs. by exists e, es.
Qed.
End laws.

(** a free on an out-of-order queue whose caller wants no event leaks the
    event it creates: it is given a reference by its creation and one for the
    freelist, only the latter of which is ever released. *)
Theorem free_without_event_leaks cl q p ws s e s' :
  isInOrder q = false → u_event (trace s) = e →
  enqueueUSMFreeExp isInOrder cl q p ws false s = (UR_RESULT_SUCCESS, None, s') →
  ∃ a, Ptr a = p ∧ Event a = Some e ∧ last (trace s') = Some (AsyncInsert cl a) ∧
    refs s' !! e = Some 2 ∧ refs (free_allocation a s') !! e = Some 1.
Proof.
  intros Hq He. unfold enqueueUSMFreeExp, createEventIfRequested, new_event. rewrite Hq, He. simpl.
  set (s1 := {| asyncPool := asyncPool s; refs := _; trace := trace s |}).

  unfold appendUSMFreeExp. destruct (umfPoolByPtr _ _) as [pool|]; [|by intros [= ? _]].
  destruct (umfPoolMallocUsableSize _ _ _) as [size| |]; [|by intros [= ? _]|by intros [= ? _]].
  unfold UR_CALL, wait_on, when, signal.
  set (m := if negb (bool_decide (ws = [])) then call (WaitOnEvents cl ws) else ret UR_RESULT_SUCCESS).
  assert (refs (m s1).2 = refs s1) as Hw.
  { unfold m. case_bool_decide; simpl; [done|]. unfold call. by destruct (u_error _ _). }
  destruct (m s1) as [r2 s2]. simpl in Hw.
  case_decide; [|by intros [= ? _]]. unfold call. destruct (u_error _ _) as [r3|] eqn:Eu.
  { case_decide as Hr3; [|by intros [= ? _]]. subst r3. by apply u_error_fails in Eu. }
  rewrite decide_True by done. simpl. intros [= <-].
  exists {| Ptr := p; Size := size; Event := Some e; Queue := q |}. split_and!; simpl; [done|done|by rewrite last_snoc|..].
  - rewrite Hw, !lookup_insert_eq. done.
  - by rewrite Hw, !lookup_insert_eq.
Qed.
End props.

(** ** Witnesses: UMF gives the pointer after the last, queue 1 is in order *)
Definition next_pointer (tr : list tcall) : Z := foldr Z.max 0 (live tr) + 1.

Lemma next_pointer_fresh tr : next_pointer tr ∉ live tr ∧ 0 ≤ next_pointer tr.
Proof.
  unfold next_pointer. assert (∀ l x, x ∈ l → x ≤ foldr Z.max 0 l) as Hmax.
  { induction l as [|y l IH]; intros x; [by intros ?%not_elem_of_nil|].
    intros [->|Hx]%elem_of_cons; simpl; [lia|]. specialize (IH x Hx). lia. }
  assert (∀ l, 0 ≤ foldr Z.max 0 l) as H0 by (induction l; simpl; lia).
  split; [intros Hin; specialize (Hmax _ _ Hin); lia|specialize (H0 (live tr)); lia].
Qed.

#[local] Instance counting_umf : UsmDriver := {|
  u_error := λ _ _, None; u_malloc := λ tr _ _, next_pointer tr; u_event := λ tr, 1000 + Z.of_nat (length tr);
  umfPoolByPtr := λ _ _, Some 0; umfPoolMallocUsableSize := λ _ _ _, Usable 64; getPool := λ _ _ _, Some 0;
  u_error_fails := λ _ _, ltac:(done); usable_fails := λ _ _ _, ltac:(done) |}.
Definition only_first (q : Z) : bool := q =? 1.

Lemma counting_usable tr pool p n : umfPoolMallocUsableSize tr pool p = Usable n → 0 ≤ n.
Proof. simpl. intros [= <-]. lia. Qed.

Lemma counting_fresh tr pool n : u_malloc tr pool n ∉ live tr ∧ 0 ≤ u_malloc tr pool n.
Proof. exact (next_pointer_fresh tr). Qed.

(** Queue 5 allocates on list 0, frees on list 1 and allocates again on list 2. *)
Definition r1 : ur_result_t * option Z * usm_state :=
  enqueueUSMAllocExp 9 only_first 0 5 0 DeviceMem 64 [] false initial.1.
Definition r2 : ur_result_t * option Z * usm_state := enqueueUSMFreeExp only_first 1 5 1 [] false r1.2.
Definition r3 : ur_result_t * option Z * usm_state :=
  enqueueUSMAllocExp 9 only_first 2 5 0 DeviceMem 32 [] false r2.2.

Lemma three_steps : rtc (step 9 only_first) initial (r3.2, [1]).
Proof.
  eapply rtc_l; [by apply (step_alloc 9 only_first _ _ 0 5 0 DeviceMem 64 [] false r1.1.1 r1.1.2 r1.2)|].
  eapply rtc_l; [by apply (step_free 9 only_first r1.2 [] 1 [] 1 5 [] false r2.1.1 r2.1.2 r2.2)|].
  apply rtc_once. by apply (step_alloc 9 only_first _ _ 2 5 0 DeviceMem 32 [] false r3.1.1 r3.1.2 r3.2).
Qed.

Lemma async_memory_unique_witness :
  r3.1.2 = Some 1 ∧ NoDup ([1] ++ (Ptr <$> allocations (asyncPool r3.2))).
Proof.
  split; [by vm_compute|].
  apply (async_memory_unique 9 only_first counting_fresh counting_usable r3.2 [1] three_steps).
Defined.

Lemma reuse_ordered_witness :
  ∃ u1 cl' u2 e es, take 4 (trace r3.2) = u1 ++
      AsyncInsert cl' {| Ptr := 1; Size := 64; Event := Some 1001; Queue := 5 |} :: u2 ∧
    Some 1001 = Some e ∧ WaitOnEvents 2 es ∈ u2 ∧ e ∈ es.
Proof.
  destruct (reuse_ordered 9 only_first counting_fresh counting_usable r3.2 [1] (take 4 (trace r3.2)) 2 5
    {| Ptr := 1; Size := 64; Event := Some 1001; Queue := 5 |} [] three_steps ltac:(by vm_compute))
    as (_ & u1 & cl' & u2 & E & [Ho|(e & es & Ee & _ & Hw & Hin)]).
  - by vm_compute in Ho.
  - by exists u1, cl', u2, e, es.
Defined.

Lemma enqueued_pool_spec_witness :
  let a p s := {| Ptr := p; Size := s; Event := None; Queue := 5 |} in
  best_fit 40 5 [a 1 32; a 2 64; a 3 64] (a 2 64).
Proof.
  assert (ordered [{| Ptr := 1; Size := 32; Event := None; Queue := 5 |};
    {| Ptr := 2; Size := 64; Event := None; Queue := 5 |}; {| Ptr := 3; Size := 64; Event := None; Queue := 5 |}]) as Ho.
  { repeat constructor; unfold lt; simpl; lia. }
  apply (enqueued_pool_spec 40 5 {| Ptr := 9; Size := 9; Event := None; Queue := 5 |} _ Ho).
  intros a Ha. repeat (apply elem_of_cons in Ha as [->|Ha]; [simpl; lia|]). by apply not_elem_of_nil in Ha.
Defined.

Lemma free_without_event_leaks_witness :
  ∃ a, Ptr a = 1 ∧ refs (free_allocation a r2.2) !! 1001 = Some 1.
Proof.
  destruct (free_without_event_leaks only_first 1 5 1 [] r1.2 1001 r2.2) as (a & Hp & _ & _ & _ & Hr);
    [done|by vm_compute|done|]. by exists a.
Defined.
End UsmAsyncProps.
