(* ===== verification/FlatMemory.v ===== *)
(** * Flat memory, and buffers as arrays of bytes

    What the models of the memory objects of two adapters share: memory as a
    function from addresses, block copies, kernels as functions on the bytes of
    their arguments, and the arrays of bytes that buffers stand for. *)
From stdpp Require Import base numbers list.
Local Open Scope Z_scope.

(** ** Memory *)
Definition memory : Type := Z → Z.
Definition in_range (p n a : Z) : bool := (p <=? a) && (a <? p + n).

Definition memcpy (dst src n : Z) (m : memory) : memory :=
  λ a, if in_range dst n a then m (src + (a - dst)) else m a.

(** ** Kernels

    A kernel is what it does to its memory object arguments: from the bytes of
    all of them, the new byte at an offset of one of them. *)
Definition kernel : Type := list (Z → Z) → nat → Z → option Z.

Definition store_arg (k : kernel) (views : list (Z → Z)) (i : nat) (p n : Z) (m : memory) : memory :=
  λ a, if in_range p n a then default (m a) (k views i (a - p)) else m a.
Fixpoint run_args (k : kernel) (views : list (Z → Z)) (i : nat) (args : list (Z * Z)) (m : memory) : memory :=
  match args with [] => m | (p, n) :: l => run_args k views (S i) l (store_arg k views i p n m) end.
Definition run_kernel (k : kernel) (args : list (Z * Z)) (m : memory) : memory :=
  run_args k ((λ x o, m (x.1 + o)) <$> args) 0 args m.

(** ** Arrays

    A byte is undefined where it has not been written or a command has failed. *)
Abbreviation content := (Z → option Z).
Definition upd (c : content) (off n : Z) (f : Z → option Z) : content :=
  λ i, if in_range off n i then f (i - off) else c i.

(** [data] is what the array holds from [off] on, as far as that is defined. *)
Definition agrees (c : content) (off n : Z) (data : Z → Z) : Prop :=
  ∀ i v, 0 ≤ i < n → c (off + i) = Some v → data i = v.

(** ** Facts *)
Lemma in_range_true p n a : in_range p n a = true ↔ p ≤ a < p + n.
Proof. unfold in_range. rewrite andb_true_iff, Z.leb_le, Z.ltb_lt. done. Qed.
Lemma in_range_false p n a : in_range p n a = false ↔ ¬ p ≤ a < p + n.
Proof. rewrite <-in_range_true. by destruct (in_range p n a). Qed.

Ltac ranges := repeat match goal with
  | H : in_range _ _ _ = true |- _ => apply in_range_true in H
  | H : in_range _ _ _ = false |- _ => apply in_range_false in H
  | |- in_range _ _ _ = true => apply in_range_true
  | |- in_range _ _ _ = false => apply in_range_false
  end.

Lemma memcpy_outside dst src n m a : in_range dst n a = false → memcpy dst src n m a = m a.
Proof. unfold memcpy. by intros ->. Qed.
Lemma memcpy_inside dst src n m i : 0 ≤ i < n → memcpy dst src n m (dst + i) = m (src + i).
Proof.
  intros Hi. unfold memcpy. replace (in_range dst n (dst + i)) with true by (symmetry; ranges; lia). f_equal. lia.
Qed.

Lemma upd_inside c off n f i : in_range off n i = true → upd c off n f i = f (i - off).
Proof. unfold upd. by intros ->. Qed.
Lemma upd_outside c off n f i : in_range off n i = false → upd c off n f i = c i.
Proof. unfold upd. by intros ->. Qed.
Lemma upd_lost c off n i v : upd c off n (λ _, None) i = Some v → in_range off n i = false ∧ c i = Some v.
Proof. unfold upd. by destruct (in_range off n i). Qed.
