(* ===== verification/AsanBuffer.v ===== *)
(** * Buffers of the address sanitizer layer
    (loader/layers/sanitizer/asan: asan_buffer.{hpp,cpp}, the memory object
    functions of asan_ddi.cpp, the buffer map of asan_interceptor.cpp)

    The layer implements buffers itself, on memory it allocates with redzones:
    one allocation per device, made when the device first needs it, and copied
    from the device used last when another one is used.  [Buffer] has the
    operations, over the interceptor's allocations ([AsanInterceptor.Memory]).

    The layer's own copies go to internal queues and block.  The commands of the
    application are taken to run in the order in which they are enqueued and as
    late as possible: a blocking one runs all before it, the others stay
    [pending] until [urQueueFinish].  The checks that the driver has an entry point
    and that a pointer for a result is not null are left out: both are taken to
    hold. *)
From stdpp Require Import base numbers list gmap relations.
From S2P Require Import Prelude UrUtil SanitizerCommon AsanShadow AsanInterceptor FlatMemory.
Import Util.
Local Open Scope Z_scope.
Local Open Scope ur_scope.

Module Buffer.

(** ** Data *)
Record Mapping := { Offset : Z; MapSize : Z }.
Record Device_t := { hDevice : nat; MemHandle : Z }.
Record SubBuffer_t := { Parent : Z; Origin : Z }.

(** [MemBuffer]; the null pointer is 0, the null device (the staging copy in
    host memory) and a null [LastSyncedDevice] are [None]. *)
Record MemBuffer := {
  Allocations : gmap (option nat) Z;
  Mappings : gmap Z Mapping;
  Context : nat;
  LastSyncedDevice : option Device_t;
  Size : Z;
  HostPtr : Z;
  SubBuffer : option SubBuffer_t;
  RefCount : Z
}.

Inductive AccessMode := UNKNOWN | READ_WRITE | READ_ONLY | WRITE_ONLY.
#[export] Instance AccessMode_eq_dec : EqDecision AccessMode.
Proof. solve_decision. Defined.

Record ur_queue := { queue_context : nat; queue_device : nat }.

(** [buffers] are the [MemBuffer] objects, named by numbers in the order of their
    creation; [m_MemBufferMap] are those the interceptor knows. *)
Record state := {
  layer : Memory.state;
  mem : memory;
  pending : list (memory → memory);
  buffers : gmap Z MemBuffer;
  m_MemBufferMap : gset Z;
  next : Z;
  calls : nat
}.

(** The driver, by the number of the call: results of commands, what a command
    that fails leaves in its destination, and its allocation function. *)
Class Driver := {
  result_of : nat → ur_result_t;
  garbage : nat → memory;
  pfnAlloc : nat → Memory.state → option nat → Alloc.AllocType → Z → ur_result_t * Z
}.

(** ** A call returns, fails or ends the process *)
Inductive result (A : Type) := Ok (a : A) | Err (r : ur_result_t) | Exit.
Arguments Ok {A} a.
Arguments Err {A} r.
Arguments Exit {A}.
Definition M (A : Type) : Type := state → outcome (result A * state).
#[export] Instance M_ret : MRet M := λ A a s, Ret (Ok a, s).
#[export] Instance M_bind : MBind M := λ A B f m s,
  match m s with
  | Ret (Ok a, s') => f a s'
  | Ret (Err r, s') => Ret (Err r, s')
  | Ret (Exit, s') => Ret (Exit, s')
  | Throw e => Throw e
  | Undefined => Undefined
  end.
Definition fail {A} (r : ur_result_t) : M A := λ s, Ret (Err r, s).
Definition undefined {A} : M A := λ _, Undefined.
Definition UR_ASSERT (b : bool) (r : ur_result_t) : M unit := if b then mret () else fail r.
Definition when (b : bool) (m : M unit) : M unit := if b then m else mret ().
Definition lift {A} (o : outcome A) : M A := λ s, a ← o; Ret (Ok a, s).
Fixpoint forM {A} (l : list A) (f : A → M unit) : M unit :=
  match l with [] => mret () | x :: l => _ ← f x; forM l f end.

Definition set_layer x (s : state) := {| layer := x; mem := mem s; pending := pending s; buffers := buffers s;
  m_MemBufferMap := m_MemBufferMap s; next := next s; calls := calls s |}.
Definition set_mem x (s : state) := {| layer := layer s; mem := x; pending := pending s; buffers := buffers s;
  m_MemBufferMap := m_MemBufferMap s; next := next s; calls := calls s |}.
Definition set_pending x (s : state) := {| layer := layer s; mem := mem s; pending := x; buffers := buffers s;
  m_MemBufferMap := m_MemBufferMap s; next := next s; calls := calls s |}.
Definition set_buffers x (s : state) := {| layer := layer s; mem := mem s; pending := pending s; buffers := x;
  m_MemBufferMap := m_MemBufferMap s; next := next s; calls := calls s |}.
Definition set_registered x (s : state) := {| layer := layer s; mem := mem s; pending := pending s;
  buffers := buffers s; m_MemBufferMap := x; next := next s; calls := calls s |}.
Definition set_next x (s : state) := {| layer := layer s; mem := mem s; pending := pending s; buffers := buffers s;
  m_MemBufferMap := m_MemBufferMap s; next := x; calls := calls s |}.
Definition called (s : state) := {| layer := layer s; mem := mem s; pending := pending s; buffers := buffers s;
  m_MemBufferMap := m_MemBufferMap s; next := next s; calls := S (calls s) |}.

(** A pointer to an object that does not exist must not be used. *)
Definition get (h : Z) : M MemBuffer := λ s,
  match buffers s !! h with Some b => Ret (Ok b, s) | None => Undefined end.
Definition update (h : Z) (f : MemBuffer → MemBuffer) : M unit := λ s,
  Ret (Ok (), set_buffers (alter f h (buffers s)) s).

Definition with_allocations x b := {| Allocations := x; Mappings := Mappings b; Context := Context b;
  LastSyncedDevice := LastSyncedDevice b; Size := Size b; HostPtr := HostPtr b; SubBuffer := SubBuffer b; RefCount := RefCount b |}.
Definition with_mappings x b := {| Allocations := Allocations b; Mappings := x; Context := Context b;
  LastSyncedDevice := LastSyncedDevice b; Size := Size b; HostPtr := HostPtr b; SubBuffer := SubBuffer b; RefCount := RefCount b |}.
Definition with_last x b := {| Allocations := Allocations b; Mappings := Mappings b; Context := Context b;
  LastSyncedDevice := x; Size := Size b; HostPtr := HostPtr b; SubBuffer := SubBuffer b; RefCount := RefCount b |}.
Definition with_count x b := {| Allocations := Allocations b; Mappings := Mappings b; Context := Context b;
  LastSyncedDevice := LastSyncedDevice b; Size := Size b; HostPtr := HostPtr b; SubBuffer := SubBuffer b; RefCount := x |}.
Definition allocation (key : option nat) (b : MemBuffer) : Z := default 0 (Allocations b !! key).
Definition set_allocation (key : option nat) (p : Z) (b : MemBuffer) : MemBuffer :=
  with_allocations (<[key := p]> (Allocations b)) b.

(** ** Commands of the driver *)
Definition run_pending (s : state) : state :=
  set_pending [] (set_mem (foldl (λ m f, f m) (mem s) (pending s)) s).
Definition urQueueFinish : M unit := λ s, Ret (Ok (), run_pending s).

(** What a failing command with destination [dst, dst + n) leaves behind. *)
Definition lose (n : nat) `{!Driver} (dst len : Z) (m : memory) : memory :=
  λ a, if in_range dst len a then garbage n a else m a.

Section driver.
Context `{!Driver} `{!Memory.Env}.

Definition command (Blocking : bool) (dst n : Z) (f : memory → memory) : M unit := λ s,
  let r := result_of (calls s) in
  if decide (r = UR_RESULT_SUCCESS) then
    let s := called s in
    Ret (Ok (), if Blocking then let s := run_pending s in set_mem (f (mem s)) s
                else set_pending (pending s ++ [f]) s)
  else Ret (Err r, set_mem (lose (calls s) dst n (mem s)) (called s)).
Definition pfnUSMMemcpy (Blocking : bool) (pDst pSrc size : Z) : M unit :=
  command Blocking pDst size (memcpy pDst pSrc size).
(** The same on an internal queue, where nothing is pending. *)
Definition internal_memcpy (pDst pSrc size : Z) : M unit := λ s,
  let r := result_of (calls s) in
  if decide (r = UR_RESULT_SUCCESS) then
    Ret (Ok (), set_mem (memcpy pDst pSrc size (mem s)) (called s))
  else Ret (Err r, set_mem (lose (calls s) pDst size (mem s)) (called s)).

Definition memfill (p : Z) (pattern : list Z) (n : Z) (m : memory) : memory := λ a,
  if in_range p n a then nth (Z.to_nat ((a - p) `mod` Z.of_nat (length pattern))) pattern 0 else m a.
Definition pfnUSMFill (pMem : Z) (pPattern : list Z) (size : Z) : M unit :=
  command false pMem size (memfill pMem pPattern size).

(** [pfnUSMMemcpy2D]: the rows one after the other. *)
Definition memcpy2D (dst dstPitch src srcPitch width height : Z) (m : memory) : memory :=
  foldl (λ m y, memcpy (dst + y * dstPitch) (src + y * srcPitch) width m) m (seqZ 0 height).
Definition pfnUSMMemcpy2D (Blocking : bool) (pDst dstPitch pSrc srcPitch width height : Z) : M unit :=
  command Blocking pDst ((height - 1) * dstPitch + width) (memcpy2D pDst dstPitch pSrc srcPitch width height).

(** A command that leaves the memory as it is, and a call for an object that is
    not one of the layer's. *)
Definition pfnEventsWait : M unit := command false 0 0 id.
Definition forward : M unit := command false 0 0 id.

(** ** The interceptor's allocations *)
Definition allocateMemory (c : nat) (Device : option nat) (align Size : Z) (t : Alloc.AllocType) : M Z := λ s,
  '(r, p, l) ← Memory.allocateMemory c Device {| Memory.USMDesc_align := Some align; Memory.Alignment := 0 |}
                 Size t (pfnAlloc (calls s) (layer s) Device t) (layer s);
  Ret (match p with Some p => Ok p | None => Err r end, set_layer l (called s)).
Definition releaseMemory (c : nat) (p : Z) : M unit := λ s,
  '(f, l) ← Memory.releaseMemory c p (layer s);
  Ret (match f with
       | Memory.Returned r => if decide (r = UR_RESULT_SUCCESS) then Ok () else Err r
       | Memory.Exited => Exit
       end, set_layer l s).

(** ** [MemBuffer] *)

(** [__builtin_clzl(0)] and a shift by 64 are undefined. *)
Definition getAlignment (b : MemBuffer) : outcome Z :=
  if Size b =? 0 then Undefined
  else let MsbIdx := Z.log2 (Size b) in
       if 64 <=? MsbIdx + 1 then Undefined
       else let Alignment := Z.shiftl 1 (MsbIdx + 1) in
            Ret (if 128 <? Alignment then 128 else Alignment).

Definition device_of (b : MemBuffer) (Device : option nat) : M nat :=
  match Device with
  | Some d => mret d
  | None => match Memory.DeviceList (Context b) with d :: _ => mret d | [] => undefined end
  end.

(** [Allocations[key]], allocated if it is null; [operator[]] makes the entry
    before the allocation is tried. *)
Definition ensure_allocation (h : Z) (key : option nat) (t : Alloc.AllocType) (after : Z → M unit) : M Z :=
  b ← get h;
  if negb (allocation key b =? 0) then mret (allocation key b)
  else
    _ ← update h (set_allocation key 0);
    align ← lift (getAlignment b);
    p ← allocateMemory (Context b) key align (Size b) t;
    _ ← update h (set_allocation key p);
    _ ← after p;
    mret p.

Definition device_allocation (h : Z) (d : nat) : M Z :=
  b ← get h;
  ensure_allocation h (Some d) Alloc.MEM_BUFFER (λ p,
    when (negb (HostPtr b =? 0)) (internal_memcpy p (HostPtr b) (Size b))).

(** Data migration through host memory. *)
Definition migrate (h p from : Z) : M unit :=
  b ← get h;
  host ← ensure_allocation h None Alloc.HOST_USM (λ _, mret ());
  _ ← internal_memcpy host from (Size b);
  internal_memcpy p host (Size b).

Definition own_handle (h : Z) (Device : option nat) : M Z :=
  b ← get h;
  d ← device_of b Device;
  Handle ← device_allocation h d;
  _ ← match LastSyncedDevice b with
      | None => mret ()
      | Some last => when (negb (bool_decide (d = hDevice last))) (migrate h Handle (MemHandle last))
      end;
  _ ← update h (with_last (Some {| hDevice := d; MemHandle := Handle |}));
  mret Handle.

(** [MemBuffer::getHandle].  A parent is older than its sub-buffers, so that the
    number of a buffer bounds the chain. *)
Fixpoint getHandle_n (fuel : nat) (h : Z) (Device : option nat) : M Z :=
  b ← get h;
  match SubBuffer b with
  | Some sub =>
      match fuel with
      | O => undefined
      | S fuel => Handle ← getHandle_n fuel (Parent sub) Device; mret (Handle + Origin sub)
      end
  | None => own_handle h Device
  end.
Definition getHandle (h : Z) (Device : option nat) : M Z := getHandle_n (Z.to_nat h) h Device.

(** The order of an [unordered_map] is unspecified; here it is that of [map_to_list]. *)
Definition free (h : Z) : M unit :=
  b ← get h;
  _ ← forM (map_to_list (Allocations b)) (λ x, releaseMemory (Context b) x.2);
  update h (with_allocations ∅).

(** ** The buffer map *)
Definition insertMemBuffer (h : Z) : M unit := λ s,
  if decide (h ∈ m_MemBufferMap s) then Undefined
  else Ret (Ok (), set_registered ({[h]} ∪ m_MemBufferMap s) s).
Definition eraseMemBuffer (h : Z) : M unit := λ s,
  if decide (h ∈ m_MemBufferMap s) then Ret (Ok (), set_registered (m_MemBufferMap s ∖ {[h]}) s)
  else Undefined.
(** [if (auto MemBuffer = getMemBuffer(h)) m else call the driver] *)
Definition with_buffer {A} (h : Z) (m other : M A) : M A := λ s,
  if decide (h ∈ m_MemBufferMap s) then m s else other s.

Definition make_shared (b : MemBuffer) : M Z := λ s,
  Ret (Ok (next s), set_next (next s + 1) (set_buffers (<[next s := b]> (buffers s)) s)).

(** ** Memory objects *)
(** [std::atomic<int32_t>] wraps around. *)
Definition int32_t (n : Z) : Z := (n + 2 ^ 31) `mod` 2 ^ 32 - 2 ^ 31.

Definition urMemBufferCreate (c : nat) (flags size Host : Z) : M Z :=
  let hostPtrOrNull := if flag flags UR_MEM_FLAG_USE_HOST_POINTER then Host else 0 in
  h ← make_shared {| Allocations := ∅; Mappings := ∅; Context := c; LastSyncedDevice := None; Size := size;
                     HostPtr := hostPtrOrNull; SubBuffer := None; RefCount := 1 |};
  _ ← when (negb (Host =? 0) && flag flags UR_MEM_FLAG_ALLOC_COPY_HOST_POINTER)
        (forM (Memory.DeviceList c) (λ d,
           Handle ← getHandle h (Some d); internal_memcpy Handle Host size));
  _ ← insertMemBuffer h;
  mret h.

Definition urMemRetain (hMem : Z) : M unit :=
  with_buffer hMem (update hMem (λ b, with_count (int32_t (RefCount b + 1)) b)) forward.

Definition urMemRelease (hMem : Z) : M unit :=
  with_buffer hMem
    (_ ← update hMem (λ b, with_count (int32_t (RefCount b - 1)) b);
     b ← get hMem;
     if negb (RefCount b =? 0) then mret ()
     else _ ← free hMem; eraseMemBuffer hMem)
    forward.

Definition urMemBufferPartition (hBuffer origin size : Z) : M Z :=
  with_buffer hBuffer
    (b ← get hBuffer;
     if Size b <? origin ⊕ size then fail UR_RESULT_ERROR_INVALID_BUFFER_SIZE
     else
       h ← make_shared {| Allocations := ∅; Mappings := ∅; Context := Context b; LastSyncedDevice := None;
                          Size := size; HostPtr := 0;
                          SubBuffer := Some {| Parent := hBuffer; Origin := origin |}; RefCount := 1 |};
       _ ← insertMemBuffer h;
       mret h)
    (_ ← forward; mret 0).

Definition urMemGetNativeHandle (hMem : Z) (hDevice : option nat) : M Z :=
  with_buffer hMem (getHandle hMem hDevice) (_ ← forward; mret 0).

(** The two properties the layer answers. *)
Inductive ur_mem_info_t := UR_MEM_INFO_SIZE | UR_MEM_INFO_CONTEXT | UR_MEM_INFO_REFERENCE_COUNT.
Definition urMemGetInfo (hMemory : Z) (propName : ur_mem_info_t) : M Z :=
  with_buffer hMemory
    (b ← get hMemory;
     match propName with
     | UR_MEM_INFO_CONTEXT => mret (Z.of_nat (Context b))
     | UR_MEM_INFO_SIZE => mret (Size b)
     | _ => fail UR_RESULT_ERROR_UNSUPPORTED_ENUMERATION
     end)
    (_ ← forward; mret 0).

(** ** Commands on buffers *)
Definition urEnqueueMemBufferRead (q : ur_queue) (hBuffer : Z) (blockingRead : bool) (offset size pDst : Z) : M unit :=
  with_buffer hBuffer
    (pSrc ← getHandle hBuffer (Some (queue_device q));
     pfnUSMMemcpy blockingRead pDst (pSrc + offset) size)
    forward.
Definition urEnqueueMemBufferWrite (q : ur_queue) (hBuffer : Z) (blockingWrite : bool) (offset size pSrc : Z) : M unit :=
  with_buffer hBuffer
    (pDst ← getHandle hBuffer (Some (queue_device q));
     pfnUSMMemcpy blockingWrite (pDst + offset) pSrc size)
    forward.
Definition urEnqueueMemBufferFill (q : ur_queue) (hBuffer : Z) (pPattern : list Z) (offset size : Z) : M unit :=
  with_buffer hBuffer
    (Handle ← getHandle hBuffer (Some (queue_device q));
     pfnUSMFill (Handle + offset) pPattern size)
    forward.

(** Both buffers are the layer's, or none is. *)
Definition with_buffers (h1 h2 : Z) (m : M unit) : M unit := λ s,
  let b1 := bool_decide (h1 ∈ m_MemBufferMap s) in
  let b2 := bool_decide (h2 ∈ m_MemBufferMap s) in
  (_ ← UR_ASSERT (b1 && b2 || negb b1 && negb b2) UR_RESULT_ERROR_INVALID_MEM_OBJECT;
   if b1 && b2 then m else forward) s.
Definition urEnqueueMemBufferCopy (q : ur_queue) (hBufferSrc hBufferDst srcOffset dstOffset size : Z) : M unit :=
  with_buffers hBufferSrc hBufferDst
    (SrcHandle ← getHandle hBufferSrc (Some (queue_device q));
     DstHandle ← getHandle hBufferDst (Some (queue_device q));
     pfnUSMMemcpy false (DstHandle + dstOffset) (SrcHandle + srcOffset) size).

(** *** Rectangular copies *)
Record rect := { x : Z; y : Z; z : Z }.
Record region := { width : Z; height : Z; depth : Z }.

Definition EnqueueMemCopyRectHelper (pSrc pDst : Z) (SrcOffset DstOffset : rect) (Region : region)
    (SrcRowPitch SrcSlicePitch DstRowPitch DstSlicePitch : Z) (Blocking : bool) : M unit :=
  let SrcRowPitch := if SrcRowPitch =? 0 then width Region else SrcRowPitch in
  let SrcSlicePitch := if SrcSlicePitch =? 0 then SrcRowPitch ⊗ height Region else SrcSlicePitch in
  let DstRowPitch := if DstRowPitch =? 0 then width Region else DstRowPitch in
  let DstSlicePitch := if DstSlicePitch =? 0 then DstRowPitch ⊗ height Region else DstSlicePitch in
  let SrcOrigin := pSrc + x SrcOffset + SrcRowPitch ⊗ y SrcOffset + SrcSlicePitch ⊗ z SrcOffset in
  let DstOrigin := pDst + x DstOffset + DstRowPitch ⊗ y DstOffset + DstSlicePitch ⊗ z DstOffset in
  _ ← forM (seqZ 0 (depth Region)) (λ i,
        pfnUSMMemcpy2D Blocking (DstOrigin + i ⊗ DstSlicePitch) DstRowPitch
          (SrcOrigin + i ⊗ SrcSlicePitch) SrcRowPitch (width Region) (height Region));
  pfnEventsWait.

Definition urEnqueueMemBufferReadRect (q : ur_queue) (hBuffer : Z) (blockingRead : bool)
    (bufferOrigin hostOrigin : rect) (Region : region)
    (bufferRowPitch bufferSlicePitch hostRowPitch hostSlicePitch pDst : Z) : M unit :=
  with_buffer hBuffer
    (SrcHandle ← getHandle hBuffer (Some (queue_device q));
     EnqueueMemCopyRectHelper SrcHandle pDst bufferOrigin hostOrigin Region
       bufferRowPitch bufferSlicePitch hostRowPitch hostSlicePitch blockingRead)
    forward.
Definition urEnqueueMemBufferWriteRect (q : ur_queue) (hBuffer : Z) (blockingWrite : bool)
    (bufferOrigin hostOrigin : rect) (Region : region)
    (bufferRowPitch bufferSlicePitch hostRowPitch hostSlicePitch pSrc : Z) : M unit :=
  with_buffer hBuffer
    (DstHandle ← getHandle hBuffer (Some (queue_device q));
     EnqueueMemCopyRectHelper pSrc DstHandle hostOrigin bufferOrigin Region
       hostRowPitch hostSlicePitch bufferRowPitch bufferSlicePitch blockingWrite)
    forward.
Definition urEnqueueMemBufferCopyRect (q : ur_queue) (hBufferSrc hBufferDst : Z)
    (srcOrigin dstOrigin : rect) (Region : region)
    (srcRowPitch srcSlicePitch dstRowPitch dstSlicePitch : Z) : M unit :=
  with_buffers hBufferSrc hBufferDst
    (SrcHandle ← getHandle hBufferSrc (Some (queue_device q));
     DstHandle ← getHandle hBufferDst (Some (queue_device q));
     EnqueueMemCopyRectHelper SrcHandle DstHandle srcOrigin dstOrigin Region
       srcRowPitch srcSlicePitch dstRowPitch dstSlicePitch false).

(** *** Mapping *)
Definition access_mode (mapFlags : Z) : AccessMode :=
  if flag mapFlags UR_MAP_FLAG_WRITE_INVALIDATE_REGION then WRITE_ONLY
  else if flag mapFlags UR_MAP_FLAG_READ then
    (if flag mapFlags UR_MAP_FLAG_WRITE then READ_WRITE else READ_ONLY)
  else if flag mapFlags UR_MAP_FLAG_WRITE then WRITE_ONLY else UNKNOWN.

Definition urEnqueueMemBufferMap (q : ur_queue) (hBuffer : Z) (blockingMap : bool) (mapFlags offset size : Z) : M Z :=
  with_buffer hBuffer
    (_ ← UR_ASSERT (negb (bool_decide (access_mode mapFlags = UNKNOWN))) UR_RESULT_ERROR_INVALID_ARGUMENT;
     b ← get hBuffer;
     ppRetMap ← (if negb (HostPtr b =? 0) then mret (HostPtr b + offset)
                 else align ← lift (getAlignment b);
                      allocateMemory (queue_context q) None align size Alloc.HOST_USM);
     SrcHandle ← getHandle hBuffer (Some (queue_device q));
     _ ← pfnUSMMemcpy blockingMap ppRetMap (SrcHandle + offset) size;
     b ← get hBuffer;
     _ ← UR_ASSERT (bool_decide (Mappings b !! ppRetMap = None)) UR_RESULT_ERROR_INVALID_VALUE;
     _ ← update hBuffer (λ b, with_mappings (<[ppRetMap := {| Offset := offset; MapSize := size |}]> (Mappings b)) b);
     mret ppRetMap)
    (_ ← forward; mret 0).

Definition urEnqueueMemUnmap (q : ur_queue) (hMem pMappedPtr : Z) : M unit :=
  with_buffer hMem
    (b ← get hMem;
     match Mappings b !! pMappedPtr with
     | None => fail UR_RESULT_ERROR_INVALID_VALUE
     | Some Mapping =>
         _ ← update hMem (λ b, with_mappings (delete pMappedPtr (Mappings b)) b);
         DstHandle ← getHandle hMem (Some (queue_device q));
         _ ← pfnUSMMemcpy true (DstHandle + Offset Mapping) pMappedPtr (MapSize Mapping);
         when (HostPtr b =? 0) (releaseMemory (queue_context q) pMappedPtr)
     end)
    forward.

End driver.
End Buffer.
