(* ===== verification/AsanBufferProofs.v ===== *)
(** * Buffers of the address sanitizer layer: the invariant

    [LayerFacts] has what the buffers need to know of the interceptor's
    allocations: live regions do not overlap, an allocation adds one, a release
    takes one away.  [BufferSpec] describes buffers as arrays of bytes,
    [BufferFacts] proves that obtaining a handle and the elementary changes of
    memory keep the description. *)
From stdpp Require Import base numbers list gmap relations.
From S2P Require Import Prelude UrUtil SanitizerCommon AsanShadow AsanInterceptor FlatMemory AsanBuffer.
Import Util Buffer.
Local Open Scope Z_scope.
Local Open Scope ur_scope.

Module LayerFacts.
Import AsanInterceptor.MemoryFacts AsanInterceptor.MapFacts AsanInterceptor.LayoutFacts AsanInterceptor.MemoryProps.

(** The user part of a live allocation of context [c]. *)
Definition live (l : Memory.state) (c : nat) (p n : Z) : Prop :=
  ∃ id AI, Memory.objects l !! id = Some AI ∧ Alloc.IsReleased AI = false ∧ Alloc.Context AI = c ∧
    Alloc.UserBegin AI = p ∧ Alloc.UserEnd AI = p + n ∧ Alloc.AllocBegin AI < p ∧ 0 < n.

Section env.
Context `{Henv : !Memory.Env}.

Lemma live_chunk l c p n : MemoryFacts.inv l → live l c p n → ∃ e AI, e ∈ Memory.m_AllocationMap l ∧
  Memory.objects l !! e.2 = Some AI ∧ Alloc.IsReleased AI = false ∧ Alloc.Context AI = c ∧ Alloc.UserBegin AI = p ∧
  e.1 = Alloc.AllocBegin AI ∧ size_of (Memory.objects l) e.2 = Alloc.AllocSize AI ∧
  e.1 < p ∧ p + n ≤ e.1 + Alloc.AllocSize AI ∧ 0 < n ∧ 0 < p ∧ Alloc.UserEnd AI = p + n.
Proof.
  intros Hi (id & AI & HAI & Hr & Hc & Hp & He & Hlt & Hn). destruct (inv_live l Hi id AI HAI Hr) as [_ Hin].
  exists (Alloc.AllocBegin AI, id), AI. pose proof (Forall_lookup_1 _ _ _ _ (inv_objects l Hi) HAI) as [].
  destruct (inv_entry_ok l _ Hi Hin) as (AI' & H1 & H2 & _ & H3). simpl in *. simplify_eq. split_and!; done || lia.
Qed.

Lemma live_pos l c p n : MemoryFacts.inv l → live l c p n → 0 < p ∧ 0 < n.
Proof. intros Hi (e & AI & H)%live_chunk; [|done]. naive_solver. Qed.

Lemma live_disjoint l c p n c' p' n' : MemoryFacts.inv l → live l c p n → live l c' p' n' →
  (p = p' ∧ c = c' ∧ n = n') ∨ p + n ≤ p' ∨ p' + n' ≤ p.
Proof.
  intros Hi H1%live_chunk H2%live_chunk; [|done..].
  destruct H1 as (e1 & A1 & Hin1 & O1 & R1 & C1 & U1 & B1 & S1 & L1 & E1 & N1 & _ & UE1).
  destruct H2 as (e2 & A2 & Hin2 & O2 & R2 & C2 & U2 & B2 & S2 & L2 & E2 & N2 & _ & UE2).
  destruct (decide (e1 = e2)) as [->|Hne]; [left; simplify_eq; split_and!; done || lia|].
  destruct (decide (e1.1 < e2.1 + Alloc.AllocSize A2 ∧ e2.1 < e1.1 + Alloc.AllocSize A1)) as [Ho|]; [|right; lia].
  destruct Hne. apply (spaced_unique (size_of (Memory.objects l)) (Memory.m_AllocationMap l) e1 e2 (Z.max e1.1 e2.1));
    [apply Hi|by apply inv_sizes|done..|rewrite S1; lia|rewrite S2; lia].
Qed.

(** *** Release *)
Lemma live_keep l l' id c p n : MemoryFacts.inv l →
  Memory.objects l' = alter Memory.mark_released id (Memory.objects l) →
  (∀ AI, Memory.objects l !! id = Some AI → Alloc.UserBegin AI ≠ p) → live l c p n → live l' c p n.
Proof.
  intros Hi E Hid (id' & AI & HAI & Hl). exists id', AI. split; [|done]. rewrite E, list_lookup_alter_ne; [done|].
  intros <-. apply (Hid AI HAI), Hl.
Qed.

Lemma release_any c p l : MemoryFacts.inv l →
  ∃ out l', Memory.releaseMemory c p l = Ret (out, l') ∧ MemoryFacts.inv l' ∧
    (∀ c' p' n', live l c' p' n' → p' ≠ p → live l' c' p' n') ∧
    (∀ n, live l c p n → Memory.reports l' = Memory.reports l ∧ ∃ r, out = Memory.Returned r).
Proof.
  intros Hi. destruct (releaseMemory_cases c p l Hi) as [(r & Hb & E)|(e & AI & Hh & Hc & Hp & HR & E)].
  - eexists _, _. split_and!; [by rewrite E|by apply inv_add_report|done|].
    intros n Hl. exfalso. destruct (live_chunk l c p n Hi Hl) as (e & AI & He & HAI & HR & Hc & Hp & Hlt & Hs & ? & ? & ? & ? & ?).
    assert (holds l p e AI) as Hh by (split_and!; [done..|lia|lia]). pose proof (find_some l p e AI Hi Hh) as Hf.
    destruct Hb as [[Hno _]|(e' & AI' & Hh' & Hx)]; [by apply (Hno e AI)|].
    apply (find_some l p e' AI' Hi) in Hh'. destruct Hx as [[? _]|[(_ & ? & _)|(_ & _ & ? & _)]]; congruence.
  - destruct Hh as (He & HAI & _).
    destruct (release_found_spec c e AI l Hi He HAI HR Hc) as (r & l' & gone & E' & Hi' & Hrep & Ho & _).
    eexists _, l'. split_and!; [by rewrite E|done| |intros _ _; by eauto]. intros c' p' n' Hl' Hne.
    apply (live_keep l l' e.2); [done| | |done].
    + rewrite Ho. apply list_eq. intros i. destruct (decide (i = e.2)) as [->|].
      * rewrite list_lookup_alter_eq, HAI, list_lookup_insert_eq; [done|]. by eapply lookup_lt_Some.
      * by rewrite list_lookup_alter_ne, list_lookup_insert_ne.
    + intros A HA. congruence.
Qed.

(** *** Allocation *)
Lemma align_pow2 a : a = 2 ∨ a = 4 ∨ a = 8 ∨ a = 16 ∨ a = 32 ∨ a = 64 ∨ a = 128 → ∀ D,
  Z.land a (a ⊖ 1) = 0 ∧ align_ok (Memory.effective_alignment D a).
Proof.
  intros Ha D. destruct_or! Ha; subst; (split; [done|]); unfold align_ok, Memory.effective_alignment; simpl.
  1-4: by exists 4. 1: by exists 5. 1: by exists 6. by exists 7.
Qed.

(** Documented behaviour of the driver's allocation function, for the requests
    of the layer: it returns an error, or a new granule-aligned chunk of the
    address space that lies where the device's shadow expects it and not in the
    application's memory [app]. *)
Class DriverLaws `{!Driver} (app : Z → Prop) := {
  redzone_config : redzone_ok;
  stats_config : MemoryFacts.stats_ok;
  alloc_chunk k l D t n p : MemoryFacts.inv l → 0 < n < 2 ^ 63 → pfnAlloc k l D t n = (UR_RESULT_SUCCESS, p) →
    0 < p ∧ p `mod` 16 = 0 ∧ p + n < 2 ^ 64 ∧
    Forall (apart (size_of (Memory.objects l)) p n) (Memory.m_AllocationMap l) ∧
    Memory.validateUSM t D p = true ∧ ∀ a, p ≤ a < p + n → ¬ app a
}.

Definition device_request (D : option nat) (t : Alloc.AllocType) : Prop :=
  t = Alloc.MEM_BUFFER ∧ D ≠ None ∨ t = Alloc.HOST_USM.

Lemma request_chunk `{!Driver} app `{!DriverLaws app} k l c D t size align :
  MemoryFacts.inv l → device_request D t → 0 < size < 2 ^ 62 →
  align = 2 ∨ align = 4 ∨ align = 8 ∨ align = 16 ∨ align = 32 ∨ align = 64 ∨ align = 128 →
  let params := {| Memory.USMDesc_align := Some align; Memory.Alignment := 0 |} in
  (∃ r, r ≠ UR_RESULT_SUCCESS ∧ Memory.allocateMemory c D params size t (pfnAlloc k l D t) l = Ret (r, None, l)) ∨
  (∃ a rz n p, request_ok D params size t (pfnAlloc k l D t) a rz n p ∧ 0 < p ∧
     Forall (apart (size_of (Memory.objects l)) p n) (Memory.m_AllocationMap l) ∧ ∀ a, p ≤ a < p + n → ¬ app a).
Proof.
  intros Hi Ht Hs Ha params. destruct (align_pow2 align Ha D) as [Hpow Hal].
  set (a := Memory.effective_alignment D align) in *.
  destruct (chunk_eq size a redzone_config Hal ltac:(lia)) as (rz & n & Hch & Hrz & _ & _ & Hn & HR & _ & Hnb).
  assert (0 < n < 2 ^ 63) as Hn' by (split; [destruct (Z.eqb_spec a 16); lia|done]).
  destruct (pfnAlloc k l D t n) as [r p] eqn:Ed. destruct (decide (r = UR_RESULT_SUCCESS)) as [->|Hr].
  - right. destruct (alloc_chunk k l D t n p Hi Hn' Ed) as (Hp & Hp16 & Hpn & Hap & Hv & Happ).
    exists a, rz, n, p. split_and!; [|done..]. constructor; simpl; try done; try lia; try exact redzone_config.
    destruct Ht as [[-> HD]| ->]; [right; left; split_and!; auto|by left].
  - left. exists r. split; [done|]. unfold Memory.allocateMemory. simpl.
    rewrite (proj2 (Z.eqb_eq _ _) Hpow). cbn [negb]. fold a. rewrite Hch. cbn [mbind outcome_bind].
    assert (Memory.SafeAllocate D t (r, p) = Ret (r, p) ∧ t ≠ Alloc.EXPORTABLE_MEM) as [E Hx].
    { destruct Ht as [[-> HD]| ->]; [|destruct D; split; reflexivity || done]. destruct D; [|done]. split; [|done].
      unfold Memory.SafeAllocate. rewrite (bool_decide_eq_false_2 (Some _ = None)) by done.
      cbn [andb fst]. by rewrite decide_False. }
    rewrite decide_True, Ed, E by done. cbn [mbind outcome_bind]. by rewrite decide_False.
Qed.

Lemma allocate_live `{!Driver} app `{!DriverLaws app} k l c D t size align :
  MemoryFacts.inv l → device_request D t → 0 < size < 2 ^ 62 →
  align = 2 ∨ align = 4 ∨ align = 8 ∨ align = 16 ∨ align = 32 ∨ align = 64 ∨ align = 128 →
  let params := {| Memory.USMDesc_align := Some align; Memory.Alignment := 0 |} in
  (∃ r, r ≠ UR_RESULT_SUCCESS ∧ Memory.allocateMemory c D params size t (pfnAlloc k l D t) l = Ret (r, None, l)) ∨
  (∃ p l', Memory.allocateMemory c D params size t (pfnAlloc k l D t) l = Ret (UR_RESULT_SUCCESS, Some p, l') ∧
     MemoryFacts.inv l' ∧ live l' c p size ∧ (∀ a, p ≤ a < p + size → ¬ app a) ∧
     ∀ c' p' n', live l c' p' n' → live l' c' p' n' ∧ (p' + n' ≤ p ∨ p + size ≤ p')).
Proof.
  intros Hi Ht Hs Ha params.
  destruct (request_chunk app k l c D t size align Hi Ht Hs Ha) as [?|(a & rz & n & p & Hq & Hp & Hap & Happ)]; [by left|].
  right. destruct (allocate_total c D params size t _ a rz n p l Hi Hq Hap) as [E Hi'].
  pose proof (request_layout _ _ _ _ _ _ _ _ _ Hq) as (_ & Hrz & _ & Hl & Hr & _).
  set (AI := new_info c D t size a rz n p) in *. exists (Alloc.UserBegin AI), (allocated c D AI l).
  assert (Memory.objects (allocated c D AI l) = Memory.objects l ++ [AI]) as Ho.
  { unfold allocated. match goal with |- context [Memory.insertAll ?ds ?id ?s0] =>
      destruct (insertAll_eq ds id s0) as [x ->] end. done. }
  split_and!; [done..| | |].
  - exists (length (Memory.objects l)), AI. rewrite Ho, lookup_app_r, Nat.sub_diag by lia. simpl in *. split_and!; done || lia.
  - intros b Hb. apply Happ. simpl in *. lia.
  - intros c' p' n' Hlive. split.
    + destruct Hlive as (id & A & HA & Hx). exists id, A. split; [|done]. rewrite Ho. by apply lookup_app_l_Some.
    + destruct (live_chunk l c' p' n' Hi Hlive) as (e & A & He & HA & _ & _ & _ & _ & Hsz & H1 & H2 & _).
      pose proof (proj1 (Forall_forall _ _) Hap e He) as Hx. unfold apart in Hx. simpl in *. lia.
Qed.
End env.
End LayerFacts.

(** ** Buffers as arrays of bytes *)
Module BufferSpec.
Import LayerFacts.

(** The contents of the buffers that are not sub-buffers. *)
Abbreviation spec := (gmap Z content).

(** Handle [h] stands for the bytes from [o] on of buffer [root]. *)
Inductive window (B : gmap Z MemBuffer) : Z → Z → Z → Prop :=
| window_root h b : B !! h = Some b → SubBuffer b = None → window B h h 0
| window_sub h b sub root o : B !! h = Some b → SubBuffer b = Some sub → window B (Parent sub) root o →
    window B h root (o + Origin sub).

(** What a buffer owns: its allocations, and the memory it has mapped. *)
Inductive slot := Alloc (key : option nat) | Map.
#[export] Instance slot_eq_dec : EqDecision slot.
Proof. solve_decision. Defined.

Definition slot_ptr (b : MemBuffer) (sl : slot) (p n : Z) : Prop :=
  match sl with
  | Alloc k => Allocations b !! k = Some p ∧ p ≠ 0 ∧ n = Size b
  | Map => ∃ m, Mappings b !! p = Some m ∧ HostPtr b = 0 ∧ n = MapSize m
  end.
Definition known (s : state) (h : Z) (b : MemBuffer) : Prop := h ∈ m_MemBufferMap s ∧ buffers s !! h = Some b.
Definition owns (s : state) (h : Z) (sl : slot) (c : nat) (p n : Z) : Prop :=
  ∃ b, known s h b ∧ c = Context b ∧ slot_ptr b sl p n.
(** The copy of buffer [h] that is up to date. *)
Definition current (s : state) (h : Z) (d : nat) (p n : Z) : Prop :=
  ∃ b, known s h b ∧ SubBuffer b = None ∧ LastSyncedDevice b = Some {| hDevice := d; MemHandle := p |} ∧ n = Size b.

Section app.
(** The memory of the application. *)
Context (app : Z → Prop) `{Henv : !Memory.Env}.

Record buffer_ok (s : state) (σ : spec) (h : Z) (b : MemBuffer) : Prop := {
  bo_size : 0 < Size b < 2 ^ 62;
  bo_sub sub : SubBuffer b = Some sub → Parent sub < h ∧ 0 ≤ Origin sub ∧ HostPtr b = 0 ∧ Allocations b = ∅ ∧
    LastSyncedDevice b = None ∧
    ∃ bp, known s (Parent sub) bp ∧ Origin sub + Size b ≤ Size bp ∧ Context bp = Context b;
  bo_host : HostPtr b ≠ 0 → ∀ a, HostPtr b ≤ a < HostPtr b + Size b → app a;
  bo_maps p m : Mappings b !! p = Some m → 0 ≤ Offset m ∧ 0 < MapSize m ∧ Offset m + MapSize m ≤ Size b ∧
    (HostPtr b ≠ 0 → p = HostPtr b + Offset m);
  bo_last last : LastSyncedDevice b = Some last →
    Allocations b !! Some (hDevice last) = Some (MemHandle last) ∧ MemHandle last ≠ 0;
  bo_content : SubBuffer b = None → ∃ c, σ !! h = Some c ∧
    match LastSyncedDevice b with
    | Some last => agrees c 0 (Size b) (λ i, mem s (MemHandle last + i))
    | None => ∀ i, c i = None
    end
}.

Record inv (s : state) (σ : spec) : Prop := {
  i_layer : MemoryFacts.inv (layer s);
  i_pending : pending s = [];
  i_next : 1 ≤ next s ∧ ∀ h b, buffers s !! h = Some b → 1 ≤ h < next s;
  i_known h : h ∈ m_MemBufferMap s → ∃ b, known s h b ∧ buffer_ok s σ h b;
  i_owns h sl c p n : owns s h sl c p n → live (layer s) c p n ∧ ∀ a, p ≤ a < p + n → ¬ app a;
  i_unique h sl c h' sl' c' p n n' : owns s h sl c p n → owns s h' sl' c' p n' → h = h' ∧ sl = sl'
}.

(** What an operation on buffer [h] leaves as it was. *)
Definition fixed (b : MemBuffer) := (Mappings b, Context b, Size b, HostPtr b, SubBuffer b, RefCount b).
Record keeps (h : Z) (s s' : state) : Prop := {
  k_map : m_MemBufferMap s' = m_MemBufferMap s;
  k_next : next s' = next s;
  k_fixed h' : fixed <$> buffers s' !! h' = fixed <$> buffers s !! h';
  k_other h' : h' ≠ h → buffers s' !! h' = buffers s !! h';
  k_app a : app a → mem s' a = mem s a;
  k_owns h' sl c p n : owns s h' sl c p n → owns s' h' sl c p n;
  k_mem c p n : live (layer s) c p n → (∀ k n', ¬ owns s h (Alloc k) c p n') → ∀ a, p ≤ a < p + n → mem s' a = mem s a;
  k_live c p n : live (layer s) c p n → live (layer s') c p n;
  k_owned c p n h' sl c' n' : live (layer s) c p n → owns s' h' sl c' p n' → owns s h' sl c' p n'
}.

(** The bytes a buffer gets from the host pointer it was created with. *)
Definition host_bytes (m : memory) (b : MemBuffer) : content := λ i,
  if in_range 0 (Size b) i then Some (m (HostPtr b + i)) else None.
(** The first use of a buffer on a device reads them. *)
Definition capture (s : state) (h : Z) (d : nat) (σ : spec) : spec :=
  match buffers s !! h with
  | Some b => if bool_decide (LastSyncedDevice b = None) && negb (HostPtr b =? 0) && (allocation (Some d) b =? 0)
              then <[h := host_bytes (mem s) b]> σ else σ
  | None => σ
  end.
End app.
End BufferSpec.

Module BufferFacts.
Import LayerFacts BufferSpec.
Section facts.
Context (app : Z → Prop) `{Henv : !Memory.Env}.
Abbreviation inv := (inv app).
Abbreviation keeps := (keeps app).

(** *** Running the monad *)
Lemma bind_ok {A B} {m : M A} {f : A → M B} {s a s'} : m s = Ret (Ok a, s') → (m ≫= f) s = f a s'.
Proof. intros E. unfold mbind, M_bind. by rewrite E. Qed.
Lemma bind_err {A B} {m : M A} {f : A → M B} {s e s'} : m s = Ret (Err e, s') → (m ≫= f) s = Ret (Err e, s').
Proof. intros E. unfold mbind, M_bind. by rewrite E. Qed.
Lemma bind_assoc {A B C} (m : M A) (f : A → M B) (g : B → M C) s :
  ((m ≫= f) ≫= g) s = (m ≫= λ a, f a ≫= g) s.
Proof. unfold mbind, M_bind. destruct (m s) as [[[] ]| |]; done. Qed.
Lemma get_ok s h b : known s h b → get h s = Ret (Ok b, s).
Proof. intros [_ Hb]. unfold get. by rewrite Hb. Qed.

(** *** What the invariant says *)
Lemma known_fun s h b b' : known s h b → known s h b' → b = b'.
Proof. intros [_ H1] [_ H2]. congruence. Qed.
Lemma inv_known s σ h b : inv s σ → known s h b → buffer_ok app s σ h b.
Proof. intros Hi Hk. destruct (i_known app s σ Hi h (proj1 Hk)) as (b' & Hk' & Hok). by rewrite (known_fun _ _ _ _ Hk Hk'). Qed.

Lemma current_owns s σ h d p n : inv s σ → current s h d p n → ∃ c, owns s h (Alloc (Some d)) c p n.
Proof.
  intros Hi (b & Hk & _ & Hl & ->). exists (Context b), b. split_and!; [done..|].
  destruct (bo_last _ _ _ _ _ (inv_known s σ h b Hi Hk) _ Hl). by split_and!.
Qed.

(** The regions of two slots do not overlap. *)
Lemma owns_disjoint s σ h sl c p n h' sl' c' p' n' : inv s σ → owns s h sl c p n → owns s h' sl' c' p' n' →
  (h = h' ∧ sl = sl' ∧ p = p' ∧ n = n') ∨ p + n ≤ p' ∨ p' + n' ≤ p.
Proof.
  intros Hi H1 H2. destruct (i_owns app s σ Hi _ _ _ _ _ H1) as [L1 _], (i_owns app s σ Hi _ _ _ _ _ H2) as [L2 _].
  destruct (live_disjoint _ _ _ _ _ _ _ (i_layer app s σ Hi) L1 L2) as [(-> & -> & ->)|]; [left|by right].
  by destruct (i_unique app s σ Hi _ _ _ _ _ _ _ _ _ H1 H2) as [-> ->].
Qed.
Lemma owns_pos s σ h sl c p n : inv s σ → owns s h sl c p n → 0 < p ∧ 0 < n.
Proof. intros Hi Ho. eapply live_pos; [by eapply i_layer|]. by eapply i_owns. Qed.

(** *** Elementary changes *)
Lemma san_inv_called s σ : inv s σ → inv (called s) σ.
Proof. intros []. constructor; try done. intros h Hh. destruct (i_known0 h Hh) as (b & Hk & []). by exists b. Qed.

Lemma inv_layer s σ l : inv s σ → MemoryFacts.inv l →
  (∀ h sl c p n, owns s h sl c p n → live l c p n) → inv (set_layer l s) σ.
Proof.
  intros [] Hl Hlive. constructor; try done.
  - intros h Hh. destruct (i_known0 h Hh) as (b & Hk & []). by exists b.
  - intros h sl c p n Ho. split; [by eapply Hlive|by eapply i_owns0].
Qed.

(** A change of memory, given contents that agree with it. *)
Lemma inv_memory s σ σ' m : inv s σ →
  (∀ h b, known s h b → SubBuffer b = None → LastSyncedDevice b = None → σ' !! h = σ !! h) →
  (∀ h d p n, current s h d p n → ∃ c, σ' !! h = Some c ∧ agrees c 0 n (λ i, m (p + i))) → inv (set_mem m s) σ'.
Proof.
  intros Hi Hn Hc. pose proof Hi as []. constructor; try done.
  intros h Hh. destruct (i_known0 h Hh) as (b & Hk & Hok). exists b. split; [done|]. destruct Hok. constructor; try done.
  intros Hs. destruct (LastSyncedDevice b) as [[d p]|] eqn:El.
  - apply (Hc h d p (Size b)). by exists b.
  - rewrite (Hn h b Hk Hs El). destruct (bo_content0 Hs) as (c & ? & ?). by exists c.
Qed.
Lemma inv_memory_same s σ m : inv s σ →
  (∀ h d p n a, current s h d p n → p ≤ a < p + n → m a = mem s a) → inv (set_mem m s) σ.
Proof.
  intros Hi Hm. apply (inv_memory s σ); [done..|]. intros h d p n Hc.
  pose proof Hc as (b & Hk & Hs & Hl & ->). destruct (bo_content _ _ _ _ _ (inv_known s σ h b Hi Hk) Hs) as (c & Hσ & Ha).
  rewrite Hl in Ha. exists c. split; [done|]. intros i v Hi' Hv. simpl in *. rewrite (Hm h d p (Size b)) by (done || lia). by apply Ha.
Qed.

(** Replacing a buffer object. *)
Definition set_buffer (h : Z) (b : MemBuffer) (s : state) : state := set_buffers (<[h := b]> (buffers s)) s.
Lemma update_eq s h b f : known s h b → update h f s = Ret (Ok (), set_buffer h (f b) s).
Proof. intros [_ Hb]. unfold update, set_buffer. by rewrite (alter_some _ _ _ _ Hb). Qed.


Lemma known_set s h b b' h' x : known s h b → known (set_buffer h b' s) h' x ↔
  h' = h ∧ x = b' ∨ h' ≠ h ∧ known s h' x.
Proof.
  intros [Hr Hb]. unfold known, set_buffer. simpl. destruct (decide (h' = h)) as [->|].
  - rewrite lookup_insert_eq. naive_solver.
  - rewrite lookup_insert_ne by done. naive_solver.
Qed.

Definition shape (b : MemBuffer) := (Context b, Size b, HostPtr b, SubBuffer b).
Definition fresh (s : state) (b b' : MemBuffer) (sl : slot) (p n : Z) : Prop :=
  live (layer s) (Context b) p n ∧ (∀ a, p ≤ a < p + n → ¬ app a) ∧ (∀ h sl c n', ¬ owns s h sl c p n') ∧
  ∀ sl' n', slot_ptr b' sl' p n' → sl' = sl.

Lemma inv_update s σ σ' h b b' : inv s σ → known s h b → shape b' = shape b →
  (∀ sl p n, slot_ptr b' sl p n → slot_ptr b sl p n ∨ fresh s b b' sl p n) →
  buffer_ok app s σ' h b' → (∀ h', h' ≠ h → σ' !! h' = σ !! h') → inv (set_buffer h b' s) σ'.
Proof.
  intros Hi Hk [= Ec Es Eh Eb] Hsl Hok Hσ. pose proof Hi as [? ? [Hn1 Hn] ? ? ?].
  assert (∀ h' sl c p n, owns (set_buffer h b' s) h' sl c p n →
    owns s h' sl c p n ∨ h' = h ∧ c = Context b ∧ slot_ptr b' sl p n ∧ fresh s b b' sl p n) as Ho.
  { intros h' sl c p n (x & Hx & -> & Hp). apply (known_set s h b) in Hx as [[-> ->]|[Hne Hx]]; [|left; by exists x|done].
    destruct (Hsl sl p n Hp); [left; exists b; by rewrite Ec|right; by rewrite Ec]. }
  constructor; try done.
  - split; [done|]. intros h' x. unfold set_buffer. simpl. destruct (decide (h' = h)) as [->|].
    + intros _. destruct Hk as [_ Hk]. by eapply Hn.
    + rewrite lookup_insert_ne by done. apply Hn.
  - intros h' Hh'. destruct (i_known0 h' Hh') as (x & Hx & Hxok).
    destruct (decide (h' = h)) as [->|Hne].
    + exists b'. split; [apply (known_set s h b); auto|]. destruct Hok. constructor; try done.
      intros sub Hsub. destruct (bo_sub0 sub Hsub) as (? & ? & ? & ? & ? & bp & Hbp & ?). split_and!; try done.
      exists bp. split; [|done]. apply (known_set s h b); [done|]. right. split; [lia|done].
    + exists x. split; [apply (known_set s h b); auto|]. destruct Hxok. constructor; try done; [|by rewrite Hσ].
      intros sub Hsub. destruct (bo_sub0 sub Hsub) as (? & ? & ? & ? & ? & bp & Hbp & ? & ?). split_and!; try done.
      destruct (decide (Parent sub = h)) as [E|Hp].
      * rewrite E in Hbp. rewrite (known_fun _ _ _ _ Hbp Hk) in *. exists b'.
        split_and!; [apply (known_set s h b); auto|by rewrite Es|by rewrite Ec].
      * exists bp. split_and!; [apply (known_set s h b); auto|done..].
  - intros h' sl c p n H'. destruct (Ho _ _ _ _ _ H') as [?|(-> & -> & _ & Hf)]; [by eapply i_owns0|].
    split; apply Hf.
  - intros h1 sl1 c1 h2 sl2 c2 p n1 n2 H1 H2.
    destruct (Ho _ _ _ _ _ H1) as [O1|(-> & -> & P1 & F1)], (Ho _ _ _ _ _ H2) as [O2|(-> & -> & P2 & F2)].
    + by eapply i_unique0.
    + destruct F2 as (_ & _ & F2 & _). by destruct (F2 _ _ _ _ O1).
    + destruct F1 as (_ & _ & F1 & _). by destruct (F1 _ _ _ _ O2).
    + split; [done|]. symmetry. by eapply F1.
Qed.

(** *** What is kept *)
Lemma san_keeps_refl h s : keeps h s s.
Proof. by constructor. Qed.
Lemma san_keeps_trans h s1 s2 s3 : keeps h s1 s2 → keeps h s2 s3 → keeps h s1 s3.
Proof.
  intros [] []. constructor; try congruence.
  - intros h' Hh. by rewrite k_other1, k_other0.
  - intros a Ha. by rewrite k_app1, k_app0.
  - eauto.
  - intros c p n Hl Hn a Ha. rewrite (k_mem1 c p n); eauto. intros k n' Ho. by eapply Hn, k_owned0.
  - eauto.
  - intros c p n h' sl c' n' Hl Ho. eapply k_owned0; [done|]. eapply k_owned1; eauto.
Qed.
Lemma keeps_called h s : keeps h s (called s).
Proof. by constructor. Qed.
Lemma keeps_layer h s l : (∀ c p n, live (layer s) c p n → live l c p n) → keeps h s (set_layer l s).
Proof. by constructor. Qed.
Lemma keeps_memory h s m : (∀ a, app a → m a = mem s a) →
  (∀ c p n, live (layer s) c p n → (∀ k n', ¬ owns s h (Alloc k) c p n') → ∀ a, p ≤ a < p + n → m a = mem s a) →
  keeps h s (set_mem m s).
Proof. by constructor. Qed.
Lemma keeps_set_layer_buffer h s b b' l : known s h b → fixed b' = fixed b →
  (∀ c p n, live (layer s) c p n → live l c p n) →
  (∀ k p, Allocations b !! k = Some p → p ≠ 0 → Allocations b' !! k = Some p) →
  (∀ k p c n, live (layer s) c p n → Allocations b' !! k = Some p → Allocations b !! k = Some p) →
  keeps h s (set_buffer h b' (set_layer l s)).
Proof.
  intros Hk Hf Hlive Ha Ha'. pose proof Hk as [Hr Hb]. pose proof Hf as [= E1 E2 E3 E4 E5 E6]. constructor; try done; unfold set_buffer; simpl.
  - intros h'. destruct (decide (h' = h)) as [->|]; [|by rewrite lookup_insert_ne].
    rewrite lookup_insert_eq, Hb. simpl. by rewrite Hf.
  - intros h' Hh. by rewrite lookup_insert_ne.
  - intros h' sl c p n (x & Hx & -> & Hp). destruct (decide (h' = h)) as [->|].
    + rewrite (known_fun _ _ _ _ Hx Hk) in *. exists b'. split; [apply (known_set s h b); auto|]. split; [done|].
      destruct sl as [k|]; simpl in *; [|by rewrite E1, E4]. destruct Hp as (? & ? & ->). rewrite E3. auto.
    + exists x. split_and!; [apply (known_set s h b); auto|done..].
  - intros c p n h' sl c' n' Hl (x & Hx & -> & Hp). apply (known_set s h b) in Hx as [[-> ->]|[Hne Hx]]; [|by exists x|done].
    exists b. split_and!; [done..|]. destruct sl as [k|]; simpl in *; [|by rewrite <-E1, <-E4].
    destruct Hp as (? & ? & ->). rewrite E3. eauto.
Qed.
Lemma keeps_set_buffer h s b b' : known s h b → fixed b' = fixed b →
  (∀ k p, Allocations b !! k = Some p → p ≠ 0 → Allocations b' !! k = Some p) →
  (∀ k p c n, live (layer s) c p n → Allocations b' !! k = Some p → Allocations b !! k = Some p) →
  keeps h s (set_buffer h b' s).
Proof. intros. replace (set_buffer h b' s) with (set_buffer h b' (set_layer (layer s) s)) by (by destruct s). by apply (keeps_set_layer_buffer h s b). Qed.
Lemma keeps_known h s s' h' b : keeps h s s' → known s h' b → ∃ b', known s' h' b' ∧ fixed b' = fixed b.
Proof.
  intros [] [Hr Hb]. pose proof (k_fixed0 h') as E. rewrite Hb in E. simpl in E.
  apply fmap_Some in E as (b' & Hb' & E). exists b'. split; [|done]. split; [by rewrite k_map0|done].
Qed.
Lemma keeps_known_other h s s' h' b : keeps h s s' → h' ≠ h → known s h' b → known s' h' b.
Proof. intros [] Hne [Hr Hb]. split; [by rewrite k_map0|by rewrite k_other0]. Qed.
Lemma keeps_current h s s' h' d p n : keeps h s s' → h' ≠ h → current s h' d p n → current s' h' d p n.
Proof. intros Hk Hne (b & Hb & ?). exists b. split; [by eapply keeps_known_other|done]. Qed.

(** *** Allocation *)
Lemma getAlignment_ok b : 0 < Size b < 2 ^ 62 → ∃ a, getAlignment b = Ret a ∧
  (a = 2 ∨ a = 4 ∨ a = 8 ∨ a = 16 ∨ a = 32 ∨ a = 64 ∨ a = 128).
Proof.
  intros Hs. unfold getAlignment. rewrite (proj2 (Z.eqb_neq _ _)) by lia.
  pose proof (Z.log2_nonneg (Size b)) as H0. assert (Z.log2 (Size b) < 62) as H1 by (apply Z.log2_lt_pow2; lia).
  rewrite (proj2 (Z.leb_gt _ _)) by lia. rewrite Z.shiftl_1_l. eexists. split; [done|].
  destruct (Z.ltb_spec 128 (2 ^ (Z.log2 (Size b) + 1))) as [|Hle]; [tauto|].
  assert (Z.log2 (Size b) < 7) as H7.
  { destruct (Z.lt_ge_cases (Z.log2 (Size b)) 7) as [|Hge]; [done|].
    pose proof (Z.pow_le_mono_r 2 (7 + 1) (Z.log2 (Size b) + 1) ltac:(lia) ltac:(lia)). lia. }
  assert (∃ k, Z.log2 (Size b) = k ∧ (k = 0 ∨ k = 1 ∨ k = 2 ∨ k = 3 ∨ k = 4 ∨ k = 5 ∨ k = 6)) as (k & -> & Hk)
    by (eexists; split; [done|lia]).
  destruct_or! Hk; subst; simpl; tauto.
Qed.

Section driver.
Context `{!Driver} `{!DriverLaws app}.

Lemma slot_set_allocation k p b sl q n : slot_ptr (set_allocation k p b) sl q n →
  slot_ptr b sl q n ∨ sl = Alloc k ∧ q = p ∧ p ≠ 0 ∧ n = Size b.
Proof.
  destruct sl as [k'|]; simpl; [|by left]. destruct (decide (k' = k)) as [->|].
  - rewrite lookup_insert_eq. intros ([= <-] & ? & ->). by right.
  - rewrite lookup_insert_ne by done. by left.
Qed.
Lemma allocation_null k b p : allocation k b = 0 → Allocations b !! k = Some p → p = 0.
Proof. unfold allocation. intros E Hp. by rewrite Hp in E. Qed.

Lemma ensure_allocation_ok s σ h b key t after : inv s σ → known s h b → SubBuffer b = None → device_request key t →
  allocation key b ≠ 0 ∧ ensure_allocation h key t after s = Ret (Ok (allocation key b), s) ∨
  allocation key b = 0 ∧
  ((∃ e s', ensure_allocation h key t after s = Ret (Err e, s') ∧ inv s' σ ∧ keeps h s s' ∧ mem s' = mem s) ∨
   ∃ p s', ensure_allocation h key t after s = (_ ← after p; mret p) s' ∧ inv s' σ ∧ keeps h s s' ∧
     mem s' = mem s ∧ p ≠ 0 ∧ known s' h (set_allocation key p b)).
Proof.
  intros Hi Hk Hsub Ht. pose proof (inv_known s σ h b Hi Hk) as Hok. pose proof (bo_size _ _ _ _ _ Hok) as Hsz.
  unfold ensure_allocation. rewrite (bind_ok (get_ok s h b Hk)).
  destruct (Z.eqb_spec (allocation key b) 0) as [E0|]; [right; split; [done|]|by left]. cbn [negb].
  assert (allocation_kept : ∀ p k q, Allocations b !! k = Some q → q ≠ 0 → Allocations (set_allocation key p b) !! k = Some q).
  { intros p k q Hq Hne. simpl. rewrite lookup_insert_ne; [done|]. intros <-. apply Hne. by eapply allocation_null. }
  assert (buffer_ok_set : ∀ s' p, buffer_ok app s' σ h b → buffer_ok app s' σ h (set_allocation key p b)).
  { intros s' p []. constructor; try done; [intros ? ?; simpl in *; congruence|]. intros last Hl. destruct (bo_last0 last Hl). auto. }
  rewrite (bind_ok (update_eq s h b _ Hk)). set (s0 := set_buffer h _ s).
  assert (inv s0 σ) as Hi0.
  { apply (inv_update s σ σ h b); auto. intros sl q n Hq. left. destruct (slot_set_allocation _ _ _ _ _ _ Hq) as [|(_ & _ & ? & _)]; done. }
  assert (keeps h s s0) as Hk0.
  { apply (keeps_set_buffer h s b); auto. intros k q c n Hl. simpl. destruct (decide (k = key)) as [->|]; [|by rewrite lookup_insert_ne].
    rewrite lookup_insert_eq. intros [= <-]. destruct (live_pos _ _ _ _ (i_layer app s σ Hi) Hl). lia. }
  destruct (getAlignment_ok b Hsz) as (a & Ea & Ha).
  assert (lift (getAlignment b) s0 = Ret (Ok a, s0)) as El by (unfold lift; by rewrite Ea). rewrite (bind_ok El).
  destruct (allocate_live app (calls s0) (layer s0) (Context b) key t (Size b) a (i_layer app s0 σ Hi0) Ht Hsz Ha)
    as [(e & He & E)|(p & l & E & Hl & Hlive & Happ & Hold)].
  - left. assert (allocateMemory (Context b) key a (Size b) t s0 = Ret (Err e, set_layer (layer s0) (called s0))) as E'
      by (unfold allocateMemory; by rewrite E). rewrite (bind_err E').
    eexists e, _. split_and!; [done|by apply (san_inv_called s0)|by eapply san_keeps_trans; [exact Hk0|apply keeps_called]|done].
  - right. assert (allocateMemory (Context b) key a (Size b) t s0 = Ret (Ok p, set_layer l (called s0))) as E'
      by (unfold allocateMemory; by rewrite E). rewrite (bind_ok E'). set (s1 := set_layer l _).
    assert (∀ h' sl c q n, owns s0 h' sl c q n → live l c q n ∧ (q + n ≤ p ∨ p + Size b ≤ q)) as Ho0
      by (intros h' sl c q n Ho; by apply Hold, (i_owns app s0 σ Hi0 h' sl)).
    assert (inv s1 σ) as Hi1 by (apply inv_layer; [by apply san_inv_called|done|]; intros; by eapply Ho0).
    assert (known s1 h (set_allocation key 0 b)) as Hk1 by (apply (known_set s h b); auto).
    rewrite (bind_ok (update_eq s1 h _ _ Hk1)). destruct (live_pos _ _ _ _ Hl Hlive) as [Hp Hn].
    assert (set_allocation key p (set_allocation key 0 b) = set_allocation key p b) as ->
      by (unfold set_allocation, with_allocations; simpl; by rewrite insert_insert_eq).
    eexists p, _. split_and!; [done| | |done|lia|apply (known_set s1 h _ _ h _ Hk1); auto].
    + apply (inv_update s1 σ σ h (set_allocation key 0 b)); [done..| | |done].
      * intros sl q n Hq. destruct (slot_set_allocation _ _ _ _ _ _ Hq) as [Hb|(-> & -> & _ & ->)].
        -- left. destruct sl as [k|]; [|done]. destruct Hb as (? & ? & ?). simpl. split_and!; auto.
           by apply (allocation_kept 0).
        -- right. split_and!; [done|done| |].
           ++ intros h' sl c n' Ho. destruct (Ho0 h' sl c p n' Ho) as [Hl' [?|?]]; destruct (live_pos _ _ _ _ Hl Hl'); lia.
           ++ intros sl' n' Hq'. destruct (slot_set_allocation _ _ _ _ _ _ Hq') as [Hb|(-> & _)]; [|done].
              assert (owns s h sl' (Context b) p n') as Ho by (exists b; auto).
              apply (k_owns _ _ _ _ Hk0) in Ho. destruct (Ho0 _ _ _ _ _ Ho) as [Hl' [?|?]]; destruct (live_pos _ _ _ _ Hl Hl'); lia.
      * apply buffer_ok_set. pose proof (inv_known s1 σ h _ Hi1 Hk1) as []. constructor; try done; simpl in *.
        -- intros sub ?; congruence.
        -- intros last Hlast. by destruct (bo_last _ _ _ _ _ Hok last Hlast).
    + eapply san_keeps_trans; [exact Hk0|]. eapply san_keeps_trans; [apply keeps_called|].
      apply (keeps_set_layer_buffer h (called s0) (set_allocation key 0 b)); [done|done|intros c q n Hq; by apply Hold| |].
      * intros k q. simpl. destruct (decide (k = key)) as [->|]; [rewrite lookup_insert_eq; by intros [= <-]|]. by rewrite !lookup_insert_ne.
      * intros k q c n Hq. simpl. destruct (decide (k = key)) as [->|]; [|by rewrite !lookup_insert_ne].
        rewrite lookup_insert_eq. intros [= <-]. destruct (live_pos _ _ _ _ (i_layer app s0 σ Hi0) Hq), (Hold _ _ _ Hq) as [_ [?|?]]; lia.
Qed.
(** *** Migration *)
Lemma internal_memcpy_ok s σ h k c p src n : inv s σ → owns s h (Alloc k) c p n →
  (∀ d p' n', current s h d p' n' → k ≠ Some d) →
  ∃ r m, internal_memcpy p src n s = Ret (r, set_mem m (called s)) ∧
    inv (set_mem m (called s)) σ ∧ keeps h s (set_mem m (called s)) ∧
    ((∃ e, r = Err e) ∨ r = Ok () ∧ m = memcpy p src n (mem s)).
Proof.
  intros Hi Ho Hcur.
  assert (∀ m, (∀ a, in_range p n a = false → m a = mem s a) →
    inv (set_mem m (called s)) σ ∧ keeps h s (set_mem m (called s))) as Hm.
  { intros m Hm. split.
    - apply (inv_memory_same (called s) σ m (san_inv_called s σ Hi)). intros h' d p' n' a Hc Ha. apply Hm.
      destruct (current_owns s σ h' d p' n' Hi Hc) as (c' & Ho'). ranges.
      destruct (owns_disjoint _ _ _ _ _ _ _ _ _ _ _ _ Hi Ho Ho') as [(<- & [= ->] & _)|]; [|lia]. by destruct (Hcur d p' n').
    - eapply san_keeps_trans; [apply keeps_called|]. apply keeps_memory.
      + intros a Ha. apply Hm. ranges. intros Hr. by destruct (i_owns app s σ Hi _ _ _ _ _ Ho) as [_ Happ]; destruct (Happ a).
      + intros c' p' n' Hl Hno a Ha. apply Hm. ranges. destruct (i_owns app s σ Hi _ _ _ _ _ Ho) as [Hl' _].
        destruct (live_disjoint _ _ _ _ _ _ _ (i_layer app s σ Hi) Hl' Hl) as [(<- & <- & <-)|]; [by destruct (Hno k n)|lia]. }
  unfold internal_memcpy. case_decide.
  - eexists _, _. split; [done|]. destruct (Hm (memcpy p src n (mem s))) as [? ?]; [apply memcpy_outside|]. auto.
  - eexists _, _. split; [done|]. destruct (Hm (lose (calls s) p n (mem s))) as [? ?].
    { intros a Ha. unfold lose. by rewrite Ha. } eauto.
Qed.

(** An allocation, new or old, in the state after it. *)
Definition allocated (s : state) (h : Z) (b : MemBuffer) (key : option nat) (p : Z) : Prop :=
  ∃ b', known s h b' ∧ (b' = b ∨ b' = set_allocation key p b) ∧ Allocations b' !! key = Some p ∧ p ≠ 0.
Lemma allocated_old s h b key : known s h b → allocation key b ≠ 0 → allocated s h b key (allocation key b).
Proof.
  intros Hk Hne. exists b. split_and!; auto. unfold allocation in *. by destruct (Allocations b !! key).
Qed.
Lemma allocated_owns s h b key p : allocated s h b key p → owns s h (Alloc key) (Context b) p (Size b).
Proof. intros (b' & Hk & Hb & Hp & Hne). exists b'. by destruct Hb as [-> | ->]. Qed.
Lemma allocated_new s h b key p : known s h (set_allocation key p b) → p ≠ 0 → allocated s h b key p.
Proof. intros Hk Hne. eexists. split_and!; [done|by right|simpl; by rewrite lookup_insert_eq|done]. Qed.

Lemma host_allocation_ok s σ h b : inv s σ → known s h b → SubBuffer b = None →
  ∃ r s', ensure_allocation h None Alloc.HOST_USM (λ _, mret ()) s = Ret (r, s') ∧ inv s' σ ∧ keeps h s s' ∧
    mem s' = mem s ∧ ((∃ e, r = Err e) ∨ ∃ p, r = Ok p ∧ allocated s' h b None p).
Proof.
  intros Hi Hk Hs.
  destruct (ensure_allocation_ok s σ h b None Alloc.HOST_USM (λ _, mret ()) Hi Hk Hs (or_intror eq_refl))
    as [[Hne E]|[_ [(e & s' & E & Hi' & Hk' & Hm)|(p & s' & E & Hi' & Hk' & Hm & Hp & Hb)]]].
  - eexists _, _. split_and!; [done..|apply san_keeps_refl|done|]. right. eexists. split; [done|]. by apply allocated_old.
  - eexists _, _. split_and!; [done..|]. left. by exists e.
  - exists (Ok p), s'. split_and!; [done..|]. right. exists p. split; [done|]. by apply allocated_new.
Qed.

Lemma device_allocation_ok s σ h b d : inv s σ → known s h b → SubBuffer b = None →
  ∃ r s', device_allocation h d s = Ret (r, s') ∧ inv s' σ ∧ keeps h s s' ∧
    ((∃ e, r = Err e) ∨ ∃ p, r = Ok p ∧ allocated s' h b (Some d) p ∧
       (allocation (Some d) b = 0 → HostPtr b ≠ 0 → ∀ i, 0 ≤ i < Size b → mem s' (p + i) = mem s (HostPtr b + i))).
Proof.
  intros Hi Hk Hs. unfold device_allocation. rewrite (bind_ok (get_ok s h b Hk)).
  destruct (ensure_allocation_ok s σ h b (Some d) Alloc.MEM_BUFFER (λ p,
    when (negb (HostPtr b =? 0)) (internal_memcpy p (HostPtr b) (Size b))) Hi Hk Hs)
    as [[Hne E]|[E0 [(e & s' & E & Hi' & Hk' & _)|(p & s' & E & Hi' & Hk' & Hm & Hp & Hb)]]].
  - left. by split.
  - eexists _, _. split_and!; [done..|apply san_keeps_refl|]. right. eexists. split_and!; [done|by apply allocated_old|done].
  - eexists _, _. split_and!; [done..|]. left. by exists e.
  - rewrite E. pose proof (allocated_new s' h b (Some d) p Hb Hp) as Ha.
    destruct (Z.eqb_spec (HostPtr b) 0) as [EH|EH]; cbn [when negb].
    + eexists _, _. split_and!; [done..|]. right. exists p. by split_and!.
    + destruct (internal_memcpy_ok s' σ h (Some d) (Context b) p (HostPtr b) (Size b) Hi') as (r & m & Em & Hi2 & Hk2 & Hr).
      { by apply allocated_owns. }
      { intros d' p' n' (b' & Hb' & _ & Hl & _) [= <-]. rewrite (known_fun _ _ _ _ Hb' Hb) in Hl. simpl in Hl.
        destruct (bo_last _ _ _ _ _ (inv_known s σ h b Hi Hk) _ Hl) as [Hl1 Hl2]. apply Hl2. by eapply allocation_null. }
      destruct Hr as [(e & ->)|[-> ->]].
      * rewrite (bind_err Em). eexists _, _. split_and!; [done..|by eapply san_keeps_trans|]. left. by exists e.
      * rewrite (bind_ok Em). eexists _, _. split_and!; [done..|by eapply san_keeps_trans|]. right. exists p.
        split_and!; [done|by destruct Ha as (b' & ? & ?); exists b'|]. intros _ _ i Hi0. simpl. rewrite memcpy_inside by done. by rewrite Hm.
Qed.

Lemma san_migrate_ok s σ h b d p d0 p0 c : inv s σ → known s h b → SubBuffer b = None → Allocations b !! Some d = Some p → p ≠ 0 →
  LastSyncedDevice b = Some {| hDevice := d0; MemHandle := p0 |} → d ≠ d0 → σ !! h = Some c →
  ∃ r s', migrate h p p0 s = Ret (r, s') ∧ inv s' σ ∧ keeps h s s' ∧
    ((∃ e, r = Err e) ∨ r = Ok () ∧ agrees c 0 (Size b) (λ i, mem s' (p + i)) ∧
      ∃ b', known s' h b' ∧ shape b' = shape b ∧ Allocations b' !! Some d = Some p).
Proof.
  intros Hi Hk Hs Hp Hp0 Hl Hne Hc. unfold migrate. rewrite (bind_ok (get_ok s h b Hk)).
  assert (owns s h (Alloc (Some d)) (Context b) p (Size b)) as Ho by (exists b; by split_and!).
  destruct (host_allocation_ok s σ h b Hi Hk Hs) as (r & s1 & E1 & Hi1 & Hk1 & Hm1 & [(e & ->)|(hp & -> & Hal)]).
  { rewrite (bind_err E1). eexists _, _. split_and!; [done..|]. left. by exists e. }
  rewrite (bind_ok E1). destruct Hal as (b1 & Hb1 & Hbb & Hhp & Hhp0).
  assert (known s1 h b1 ∧ shape b1 = shape b ∧ LastSyncedDevice b1 = LastSyncedDevice b ∧ Allocations b1 !! Some d = Some p) as (_ & Hsh & Hl1 & Hp1).
  { destruct Hbb as [-> | ->]; [done|]. split_and!; [done..|]. simpl. by rewrite lookup_insert_ne. }
  assert (current s1 h d0 p0 (Size b)) as Hcur.
  { exists b1. injection Hsh as _ Es _ Eb. split_and!; [done|by rewrite Eb|by rewrite Hl1|by rewrite Es]. }
  assert (∀ s2 k, (∀ x, buffers s2 !! x = buffers s1 !! x) → k ≠ Some d0 → ∀ d' p' n', current s2 h d' p' n' → k ≠ Some d') as Hslot.
  { intros s2 k Hs2 Hk' d' p' n' (x & [_ Hx] & _ & Hlx & _) ->. rewrite Hs2 in Hx. destruct Hb1 as [_ Hb1].
    rewrite Hb1 in Hx. injection Hx as <-. rewrite Hl1, Hl in Hlx. by injection Hlx as <- _. }
  destruct (internal_memcpy_ok s1 σ h None (Context b) hp p0 (Size b) Hi1) as (r2 & m2 & E2 & Hi2 & Hk2 & Hr2);
    [exists b1; injection Hsh as -> <- _ _; by split_and!|by eapply (Hslot s1)|].
  destruct Hr2 as [(e & ->)|[-> ->]].
  { rewrite (bind_err E2). eexists _, _. split_and!; [done..|by eapply san_keeps_trans|]. left. by exists e. }
  rewrite (bind_ok E2). set (s2 := set_mem _ _) in *.
  destruct (internal_memcpy_ok s2 σ h (Some d) (Context b) p hp (Size b) Hi2) as (r3 & m3 & E3 & Hi3 & Hk3 & Hr3).
  { apply (k_owns _ _ _ _ Hk2). by apply (k_owns _ _ _ _ Hk1). }
  { eapply (Hslot s2); [done|]. congruence. }
  rewrite E3. eexists _, _. split_and!; [done..|eapply san_keeps_trans; [exact Hk1|by eapply san_keeps_trans]|].
  destruct Hr3 as [(e & ->)|[-> ->]]; [left; by exists e|right]. split; [done|]. split; [|by exists b1].
  intros i v Hi' Hv. simpl. rewrite memcpy_inside by lia. unfold s2. simpl. rewrite memcpy_inside by lia.
  destruct Hcur as (b' & Hb' & Hs' & Hl' & Hn'). destruct (bo_content _ _ _ _ _ (inv_known s1 σ h b' Hi1 Hb') Hs') as (c' & Hc' & Ha).
  rewrite Hl', <-Hn' in Ha. simplify_eq. by apply Ha.
Qed.
(** *** Only a handle that is obtained changes the device used last *)
Definition lasts (s : state) : gmap Z (option Device_t) := LastSyncedDevice <$> buffers s.
Definition keeps_lasts {A} (m : M A) : Prop := ∀ s r s', m s = Ret (r, s') → lasts s' = lasts s.
Lemma keeps_lasts_ret {A} (a : A) : keeps_lasts (mret a).
Proof. by intros s r s' [= _ <-]. Qed.
Lemma keeps_lasts_bind {A B} (m : M A) (f : A → M B) :
  keeps_lasts m → (∀ a, keeps_lasts (f a)) → keeps_lasts (m ≫= f).
Proof.
  intros Hm Hf s r s'. unfold mbind, M_bind. destruct (m s) as [[[a|e|] s1]| |] eqn:E; try done.
  - intros E'. rewrite (Hf a s1 r s' E'). by eapply Hm.
  - intros [= _ <-]. by eapply Hm.
  - intros [= _ <-]. by eapply Hm.
Qed.
Lemma keeps_lasts_get h : keeps_lasts (get h).
Proof. intros s r s'. unfold get. case_match; [|done]. by intros [= _ <-]. Qed.
Lemma keeps_lasts_allocation h k p : keeps_lasts (update h (set_allocation k p)).
Proof.
  intros s r s' [= _ <-]. unfold lasts. simpl. apply map_eq. intros i. rewrite !lookup_fmap.
  destruct (decide (i = h)) as [->|]; [rewrite lookup_alter_eq|by rewrite lookup_alter_ne]. by destruct (buffers s !! h).
Qed.
Lemma keeps_lasts_memcpy p q n : keeps_lasts (internal_memcpy p q n).
Proof. intros s r s'. unfold internal_memcpy. case_decide; by intros [= _ <-]. Qed.
Lemma keeps_lasts_ensure h key t after : (∀ p, keeps_lasts (after p)) → keeps_lasts (ensure_allocation h key t after).
Proof.
  intros Ha. apply keeps_lasts_bind; [apply keeps_lasts_get|]. intros b. case_match; [apply keeps_lasts_ret|].
  apply keeps_lasts_bind; [apply keeps_lasts_allocation|]. intros _. apply keeps_lasts_bind.
  { intros s r s'. unfold lift. destruct (getAlignment b); [|done..]. by intros [= _ <-]. }
  intros a. apply keeps_lasts_bind.
  { intros s r s'. unfold allocateMemory. destruct (Memory.allocateMemory _ _ _ _ _ _ _) as [[[? ?] ?]| |]; [|done..]. by intros [= _ <-]. }
  intros p. repeat (apply keeps_lasts_bind; [apply keeps_lasts_allocation || apply Ha|intros _]). apply keeps_lasts_ret.
Qed.
Lemma keeps_lasts_device_allocation h d : keeps_lasts (device_allocation h d).
Proof.
  apply keeps_lasts_bind; [apply keeps_lasts_get|]. intros b. apply keeps_lasts_ensure. intros p. unfold when.
  case_match; [apply keeps_lasts_memcpy|apply keeps_lasts_ret].
Qed.
Lemma keeps_lasts_migrate h p q : keeps_lasts (migrate h p q).
Proof.
  apply keeps_lasts_bind; [apply keeps_lasts_get|]. intros b. apply keeps_lasts_bind; [|intros; apply keeps_lasts_bind; intros; apply keeps_lasts_memcpy].
  apply keeps_lasts_ensure. intros _. apply keeps_lasts_ret.
Qed.

(** *** Handles *)
Lemma sync_ok s σ h b d p c : inv s σ → known s h b → SubBuffer b = None → Allocations b !! Some d = Some p → p ≠ 0 →
  agrees c 0 (Size b) (λ i, mem s (p + i)) →
  let s' := set_buffer h (with_last (Some {| hDevice := d; MemHandle := p |}) b) s in
  inv s' (<[h := c]> σ) ∧ keeps h s s' ∧ current s' h d p (Size b).
Proof.
  intros Hi Hk Hs Hp Hp0 Ha s'. assert (known s' h (with_last (Some {| hDevice := d; MemHandle := p |}) b)) as Hk'
    by (apply (known_set s h b); auto). split_and!.
  - apply (inv_update s σ _ h b); [done..| | |].
    + intros sl q n Hq. by left.
    + destruct (inv_known s σ h b Hi Hk) as []. constructor; try done; [intros ? ?; simpl in *; congruence|by intros ? [= <-]|].
      intros _. exists c. by rewrite lookup_insert_eq.
    + intros h' Hne. by rewrite lookup_insert_ne.
  - by apply (keeps_set_buffer h s b).
  - eexists. by split_and!.
Qed.

Lemma own_handle_ok s σ h b D d : inv s σ → known s h b → SubBuffer b = None → device_of b D = mret d →
  ∃ r s', own_handle h D s = Ret (r, s') ∧ keeps h s s' ∧
    ((∃ e, r = Err e) ∧ inv s' σ ∧ lasts s' = lasts s ∨
     ∃ p, r = Ok p ∧ inv s' (capture s h d σ) ∧ current s' h d p (Size b)).
Proof.
  intros Hi Hk Hs Hd. pose proof (inv_known s σ h b Hi Hk) as Hok. unfold own_handle. rewrite (bind_ok (get_ok s h b Hk)), Hd.
  assert ((mret d : M nat) s = Ret (Ok d, s)) as Er by done. rewrite (bind_ok Er).
  destruct (device_allocation_ok s σ h b d Hi Hk Hs) as (r & s1 & E1 & Hi1 & Hk1 & [(e & ->)|(p & -> & Hal & Hhost)]).
  { rewrite (bind_err E1). eexists _, _. split_and!; [done..|]. left. split_and!; [by exists e|done|]. by eapply keeps_lasts_device_allocation. }
  pose proof (keeps_lasts_device_allocation _ _ _ _ _ E1) as Hla.
  rewrite (bind_ok E1). destruct Hal as (b1 & Hb1 & Hbb & Hp & Hp0).
  assert (shape b1 = shape b ∧ LastSyncedDevice b1 = LastSyncedDevice b) as [Hsh Hl1] by (by destruct Hbb as [-> | ->]).
  pose proof Hsh as [= _ Esz _ Esub]. destruct (bo_content _ _ _ _ _ Hok Hs) as (c & Hc & Hcont).
  unfold capture. destruct (Hk) as [_ Hb]. rewrite Hb. destruct (LastSyncedDevice b) as [[d0 p0]|] eqn:El; cbn [hDevice MemHandle].
  - (* synchronised before *)
    rewrite (bool_decide_eq_false_2 (Some _ = None)) by done. cbn [andb].
    assert (∃ r s2, when (negb (bool_decide (d = d0))) (migrate h p p0) s1 = Ret (r, s2) ∧ inv s2 σ ∧ keeps h s1 s2 ∧
      ((∃ e, r = Err e) ∨ r = Ok () ∧ agrees c 0 (Size b) (λ i, mem s2 (p + i)) ∧
        ∃ b', known s2 h b' ∧ shape b' = shape b ∧ Allocations b' !! Some d = Some p)) as (r & s2 & E2 & Hi2 & Hk2 & Hr).
    { case_bool_decide as Hdd; cbn [negb when].
      - subst d0. exists (Ok ()), s1. split_and!; [done..|apply san_keeps_refl|]. right. split_and!; [done| |by exists b1].
        destruct (bo_content _ _ _ _ _ (inv_known s1 σ h b1 Hi1 Hb1)) as (c' & Hc' & Ha); [congruence|].
        destruct (bo_last _ _ _ _ _ (inv_known s1 σ h b1 Hi1 Hb1) _ Hl1) as [Hp1 _]. simpl in Hp1.
        rewrite Hl1, Esz in Ha. by simplify_eq.
      - rewrite <-Esz, <-Hsh. apply (san_migrate_ok s1 σ h b1 d p d0 p0 c); try done. congruence. }
    destruct Hr as [(e & ->)|(-> & Ha & b2 & Hb2 & Hsh2 & Hp2)].
    { rewrite (bind_err E2). eexists _, _. split_and!; [done|by eapply san_keeps_trans|]. left. split_and!; [by exists e|done|].
      rewrite <-Hla. unfold when in E2. case_match; [by eapply keeps_lasts_migrate|by injection E2 as _ <-]. }
    rewrite (bind_ok E2), (bind_ok (update_eq s2 h b2 _ Hb2)). injection Hsh2 as _ Esz2 _ Esub2.
    destruct (sync_ok s2 σ h b2 d p c Hi2 Hb2) as (Hi3 & Hk3 & Hcur); [congruence|done..|by rewrite Esz2|].
    rewrite insert_id in Hi3 by done. eexists _, _. split_and!; [done|eapply san_keeps_trans; [exact Hk1|by eapply san_keeps_trans]|].
    right. exists p. rewrite <-Esz2. by split_and!.
  - (* first use *)
    assert ((mret () : M unit) s1 = Ret (Ok (), s1)) as Er' by done.
    rewrite (bind_ok Er'), (bind_ok (update_eq s1 h b1 _ Hb1)).
    match goal with |- context [if ?t then ?x else σ] => set (σ' := if t then x else σ) end. assert (∃ c' : content, σ' = <[h := c']> σ ∧ agrees c' 0 (Size b) (λ i, mem s1 (p + i))) as (c' & -> & Ha).
    { unfold σ'. rewrite bool_decide_eq_true_2 by done. cbn [andb].
      destruct (Z.eqb_spec (HostPtr b) 0) as [|EH]; cbn [negb andb]; [|destruct (Z.eqb_spec (allocation (Some d) b) 0) as [EA|]].
      2: { eexists. split; [done|]. intros i v Hi0 Hv. unfold host_bytes in Hv. simpl in Hv.
           rewrite (proj2 (in_range_true _ _ _)) in Hv by lia. injection Hv as <-. by apply Hhost. }
      all: exists c; split; [by rewrite insert_id|]; intros i v Hi0 Hv; by rewrite Hcont in Hv. }
    destruct (sync_ok s1 σ h b1 d p c' Hi1 Hb1) as (Hi3 & Hk3 & Hcur); [congruence|done..|by rewrite Esz|].
    eexists _, _. split_and!; [done|by eapply san_keeps_trans|]. right. exists p. rewrite <-Esz. by split_and!.
Qed.
End driver.
End facts.
End BufferFacts.
