(* ===== verification/AsanBufferCommands.v ===== *)
(** * Buffers of the address sanitizer layer: the commands

    [BufferOps] says what each function does to the arrays of bytes, over the
    description and the facts of AsanBufferProofs.v. *)
From stdpp Require Import base numbers list gmap relations.
From S2P Require Import Prelude UrUtil SanitizerCommon AsanShadow AsanInterceptor FlatMemory AsanBuffer AsanBufferProofs.
Import Util Buffer LayerFacts BufferSpec BufferFacts.
Local Open Scope Z_scope.
Local Open Scope ur_scope.

Module BufferOps.

(** A call followed by [urQueueFinish], whatever it returns. *)
Definition finished {A} (m : M A) : M A := λ s,
  match m s with Ret (r, s') => Ret (r, run_pending s') | o => o end.

(** Whether the copy of device [d] is the one up to date. *)
Definition synced (s : state) (h : Z) (d : nat) : bool :=
  match buffers s !! h ≫= LastSyncedDevice with Some last => bool_decide (hDevice last = d) | None => false end.
(** The contents once a call has tried to use buffer [h] on device [d]. *)
Definition used (s s' : state) (h : Z) (d : nat) (σ : spec) : spec :=
  if synced s' h d then capture s h d σ else σ.
(** The contents with [n] bytes from [o] on replaced. *)
Definition written (h o n : Z) (f : Z → option Z) (σ : spec) : spec := alter (λ c, upd c o n f) h σ.
(** [written] after a command that succeeded; one that failed may have written anything. *)
Definition stored {A} (r : result A) (h o n : Z) (data : Z → Z) (σ : spec) : spec :=
  written h o n (λ i, match r with Ok _ => Some (data i) | _ => None end) σ.

Section ops.
Context (app : Z → Prop) `{!Driver} `{!Memory.Env} `{!DriverLaws app}.
Abbreviation inv := (inv app).
Abbreviation keeps := (keeps app).

(** *** Windows *)
Lemma san_window_ok s σ h b r o : inv s σ → known s h b → window (buffers s) h r o →
  ∃ br, known s r br ∧ SubBuffer br = None ∧ 0 ≤ o ∧ o + Size b ≤ Size br ∧ Context br = Context b ∧ r ≤ h.
Proof.
  intros Hi Hk Hw. revert b Hk. induction Hw as [h b0 Hb Hs|h b0 sub r o Hb Hs Hw IH]; intros b Hk.
  - pose proof Hk as [_ Hb']. assert (b0 = b) as -> by congruence. exists b. split_and!; done || lia.
  - pose proof Hk as [_ Hb']. assert (b0 = b) as -> by congruence.
    destruct (bo_sub _ _ _ _ _ (inv_known app s σ h b Hi Hk) sub Hs) as (Hlt & Ho & _ & _ & _ & bp & Hbp & Hsz & Hc).
    destruct (IH bp Hbp) as (br & ? & ? & ? & ? & ? & ?). exists br. split_and!; try done; lia || congruence.
Qed.
Lemma window_exists s σ h b : inv s σ → known s h b → ∃ r o, window (buffers s) h r o.
Proof.
  intros Hi. assert (∀ n : nat, ∀ h b, h < Z.of_nat n → known s h b → ∃ r o, window (buffers s) h r o) as Hn.
  { induction n as [|n IH]; intros h' b' Hlt Hk.
    { destruct Hk as [_ Hb]. destruct (i_next app s σ Hi) as [_ Hn]. pose proof (Hn _ _ Hb). lia. }
    destruct (SubBuffer b') as [sub|] eqn:Es; [|exists h', 0; eapply window_root; [apply Hk|done]].
    destruct (bo_sub _ _ _ _ _ (inv_known app s σ h' b' Hi Hk) sub Es) as (? & _ & _ & _ & _ & bp & Hbp & _).
    destruct (IH (Parent sub) bp) as (r & o & Hw); [lia|done|]. exists r, (o + Origin sub). eapply window_sub; [apply Hk|done..]. }
  intros Hk. apply (Hn (S (Z.to_nat h)) h b); [lia|done].
Qed.
Lemma window_fun B h r o r' o' : window B h r o → window B h r' o' → r = r' ∧ o = o'.
Proof.
  intros Hx. revert r' o'. induction Hx as [h b Hb Hs|h b sub r o Hb Hs Hw IH]; intros r' o' H'; inversion H'; simplify_eq; [done|].
  by destruct (IH _ _ ltac:(eassumption)) as [-> ->].
Qed.

Lemma window_keeps r s s' h root o : keeps r s s' → window (buffers s) h root o → window (buffers s') h root o.
Proof.
  intros Hkeep Hw. assert (∀ h b, buffers s !! h = Some b → ∃ b', buffers s' !! h = Some b' ∧ SubBuffer b' = SubBuffer b) as Hb'.
  { intros h' b Hb. pose proof (k_fixed _ _ _ _ Hkeep h') as E. rewrite Hb in E. simpl in E.
    apply fmap_Some in E as (b' & Hb' & [= _ _ _ _ E _]). by exists b'. }
  induction Hw as [h b Hb Hs|h b sub root o Hb Hs Hw IH]; destruct (Hb' h b Hb) as (b' & ? & ?);
    [apply (window_root _ h b')|apply (window_sub _ h b')]; congruence || done.
Qed.

Lemma getHandle_window s σ h r o D : inv s σ → h ∈ m_MemBufferMap s → window (buffers s) h r o →
  ∀ fuel, (Z.to_nat h ≤ fuel)%nat → getHandle_n fuel h D s = (p ← own_handle r D; mret (p + o)) s.
Proof.
  intros Hi Hr Hw. induction Hw as [h b Hb Hs|h b sub r o Hb Hs Hw IH]; intros fuel Hf.
  - assert (getHandle_n fuel h D s = own_handle h D s) as ->
      by (destruct fuel; cbn [getHandle_n]; rewrite (bind_ok (get_ok s h b (conj Hr Hb))), Hs; done).
    unfold mbind, M_bind. destruct (own_handle h D s) as [[[p|e|] s']| |]; try done. unfold mret, M_ret. by rewrite Z.add_0_r.
  - destruct (bo_sub _ _ _ _ _ (inv_known app s σ h b Hi (conj Hr Hb)) sub Hs) as (Hlt & _ & _ & _ & _ & bp & Hbp & _).
    destruct (i_next app s σ Hi) as [_ Hn]. pose proof (Hn _ _ (proj2 Hbp)). pose proof (Hn _ _ Hb).
    destruct fuel as [|fuel]; [lia|]. cbn [getHandle_n]. rewrite (bind_ok (get_ok s h b (conj Hr Hb))), Hs.
    unfold mbind at 1, M_bind at 1. rewrite IH by (apply Hbp || lia). unfold mbind, M_bind.
    destruct (own_handle r D s) as [[[p|e|] s']| |]; try done. unfold mret, M_ret. by rewrite Z.add_assoc.
Qed.

(** A handle points to the bytes of the window in the copy that is up to date. *)
Lemma getHandle_ok s σ h b r o D d : inv s σ → known s h b → window (buffers s) h r o → device_of b D = mret d →
  ∃ res s', getHandle h D s = Ret (res, s') ∧ keeps r s s' ∧ inv s' (used s s' r d σ) ∧
    (∀ h', synced s h' d = true → synced s' h' d = true) ∧
    ((∃ e, res = Err e) ∨ ∃ p n, res = Ok (p + o) ∧ current s' r d p n ∧ 0 ≤ o ∧ o + Size b ≤ n).
Proof.
  intros Hi Hk Hw Hd. destruct (san_window_ok s σ h b r o Hi Hk Hw) as (br & Hbr & Hs & Ho & Hsz & Hc & _).
  assert (device_of br D = mret d) as Hd' by (unfold device_of in *; by rewrite Hc).
  unfold getHandle. rewrite (getHandle_window s σ h r o D Hi (proj1 Hk) Hw) by done.
  assert (∀ s', keeps r s s' → (synced s r d = true → synced s' r d = true) → ∀ h', synced s h' d = true → synced s' h' d = true) as Hsyn.
  { intros s' Hkeep Hr h'. destruct (decide (h' = r)) as [->|Hne]; [done|]. unfold synced. by rewrite (k_other _ _ _ _ Hkeep h' Hne). }
  destruct (own_handle_ok app s σ r br D d Hi Hbr Hs Hd') as (res & s' & E & Hkeep & [((e & ->) & Hi' & Hl)|(p & -> & Hi' & Hcur)]).
  - rewrite (bind_err E). assert (synced s' r d = synced s r d) as Esy.
    { unfold synced. apply (f_equal (lookup r)) in Hl. unfold lasts in Hl. rewrite !lookup_fmap in Hl.
      destruct (buffers s' !! r), (buffers s !! r); simpl in *; try done. by injection Hl as ->. }
    eexists _, _. split_and!; [done..| |apply Hsyn; [done|by rewrite Esy]|left; by exists e].
    unfold used, capture. destruct (synced s' r d) eqn:Es; [|done]. destruct Hbr as [_ Hbr]. rewrite Hbr.
    case_match eqn:Eb; [|done]. exfalso. bool_to_prop. unfold synced in Es.
    assert (lasts s' !! r = Some None) as Hn by (rewrite Hl; unfold lasts; rewrite lookup_fmap, Hbr; simpl; congruence).
    unfold lasts in Hn. rewrite lookup_fmap in Hn. destruct (buffers s' !! r) as [b'|]; [|done]. simpl in *. by simplify_eq; rewrite Hn in Es.
  - rewrite (bind_ok E). assert (synced s' r d = true) as Esy.
    { pose proof Hcur as (b' & [_ Hb'] & _ & Hl & _). unfold synced. rewrite Hb'. simpl. rewrite Hl. simpl. by rewrite bool_decide_eq_true_2. }
    eexists _, _. split_and!; [done|done| |by apply Hsyn|right; exists p, (Size br); by split_and!]. unfold used. by rewrite Esy.
Qed.

(** *** Commands *)
Lemma run_pending_nil s : pending s = [] → run_pending s = s.
Proof. intros E. unfold run_pending. rewrite E. destruct s. simpl in *. by subst. Qed.

Lemma finished_command s B p n f : pending s = [] → ∃ r m, finished (command B p n f) s = Ret (r, set_mem m (called s)) ∧
  (r = Ok () ∧ m = f (mem s) ∨ ∃ e, r = Err e ∧ m = lose (calls s) p n (mem s)).
Proof.
  intros E. unfold finished, command. case_decide.
  - eexists _, _. split; [|by left]. destruct s. simpl in *. subst. by destruct B.
  - eexists _, _. split; [|right; by eexists]. rewrite run_pending_nil by done. done.
Qed.
Lemma finished_blocking s p n f : pending s = [] → finished (command true p n f) s = command true p n f s.
Proof. intros E. unfold finished, command. case_decide; [done|]. by rewrite run_pending_nil. Qed.
Lemma finished_bind_ok {A B} (m : M A) (f : A → M B) s a s' : m s = Ret (Ok a, s') → finished (m ≫= f) s = finished (f a) s'.
Proof. intros E. unfold finished. by rewrite (bind_ok E). Qed.
Lemma finished_bind_err {A B} (m : M A) (f : A → M B) s e s' : m s = Ret (Err e, s') → pending s' = [] →
  finished (m ≫= f) s = Ret (Err e, s').
Proof. intros E Hp. unfold finished. rewrite (bind_err E). by rewrite run_pending_nil. Qed.
Lemma finished_with_buffer {A} h (m other : M A) s : h ∈ m_MemBufferMap s → finished (with_buffer h m other) s = finished m s.
Proof. intros Hh. unfold finished, with_buffer. by rewrite decide_True. Qed.

Lemma command_outside r m f n len p mm : (r = Ok () ∧ m = f mm ∨ ∃ e : ur_result_t, r = Err e ∧ m = lose n p len mm) →
  (∀ a, in_range p len a = false → f mm a = mm a) → ∀ a, in_range p len a = false → m a = mm a.
Proof. intros [[_ ->]|(e & _ & ->)] Hf a Ha; [by apply Hf|]. unfold lose. by rewrite Ha. Qed.

(** *** Changing the contents *)
Lemma inv_write s σ r d p n o len f m : inv s σ → current s r d p n → 0 ≤ o → o + len ≤ n →
  (∀ a, in_range (p + o) len a = false → m a = mem s a) →
  (∀ i v, 0 ≤ i < len → f i = Some v → m (p + o + i) = v) → inv (set_mem m s) (written r o len f σ).
Proof.
  intros Hi Hc Ho Hn Hm Hf. pose proof Hc as (b & Hb & Hs & Hl & ->). unfold written. apply (inv_memory app s σ); [done| |].
  - intros h b' Hb' Hs' Hl'. rewrite lookup_alter_ne; [done|]. intros <-. rewrite (known_fun _ _ _ _ Hb' Hb) in Hl'. congruence.
  - intros h d' p' n' Hc'. pose proof Hc' as (b' & Hb' & Hs' & Hl' & ->).
    destruct (bo_content _ _ _ _ _ (inv_known app s σ h b' Hi Hb') Hs') as (c & Hσ & Ha). rewrite Hl' in Ha.
    destruct (decide (h = r)) as [->|Hne].
    + rewrite (known_fun _ _ _ _ Hb' Hb) in *. simplify_eq. rewrite lookup_alter_eq, Hσ. eexists. split; [done|].
      intros i v Hi' Hv. simpl in *. unfold upd in Hv. rewrite Z.add_0_l in Hv. destruct (in_range o len i) eqn:Er.
      * ranges. replace (p + i) with (p + o + (i - o)) by lia. apply Hf; [lia|done].
      * rewrite Hm by (ranges; lia). by apply Ha.
    + exists c. rewrite lookup_alter_ne by done. split; [done|]. intros i v Hi' Hv. simpl in *. rewrite Hm; [by apply Ha|].
      destruct (current_owns app s σ h d' p' (Size b') Hi Hc') as (c1 & O1), (current_owns app s σ r d p (Size b) Hi Hc) as (c2 & O2).
      ranges. destruct (owns_disjoint app _ _ _ _ _ _ _ _ _ _ _ _ Hi O1 O2) as [(-> & _)|]; [done|lia].
Qed.

(** Knowing less. *)
Definition less (σ' σ : spec) : Prop :=
  ∀ h c, σ !! h = Some c → ∃ c', σ' !! h = Some c' ∧ ∀ i v, c' i = Some v → c i = Some v.
Lemma less_refl σ : less σ σ.
Proof. intros h c Hc. by exists c. Qed.
Lemma inv_less s σ σ' : inv s σ → less σ' σ → inv s σ'.
Proof.
  intros Hi Hσ. pose proof Hi as []. constructor; try done. intros h Hh. destruct (i_known0 h Hh) as (b & Hk & Hok).
  exists b. split; [done|]. destruct Hok. constructor; try done. intros Hs. destruct (bo_content0 Hs) as (c & Hc & Ha).
  destruct (Hσ h c Hc) as (c' & Hc' & Hv). exists c'. split; [done|]. case_match.
  - intros i v Hi' Hiv. apply Ha; [done|]. by apply Hv.
  - intros i. destruct (c' i) as [v|] eqn:E; [|done]. apply Hv in E. by rewrite Ha in E.
Qed.
Lemma inv_lose s σ r o len : inv s σ → inv s (written r o len (λ _, None) σ).
Proof.
  intros Hi. apply (inv_less s σ); [done|]. intros h c Hc. unfold written. destruct (decide (h = r)) as [->|].
  - rewrite lookup_alter_eq, Hc. eexists. split; [done|]. intros i v Hv. by apply upd_lost in Hv as [_ ?].
  - rewrite lookup_alter_ne by done. by exists c.
Qed.

(** What a command that writes to [len] bytes from [o] on does to the contents. *)
Definition effect {A} (s s' : state) (r : Z) (d : nat) (res : result A) (o len : Z) (data : Z → Z) (σ : spec) : spec :=
  if synced s' r d then stored res r o len data (capture s r d σ) else σ.

Lemma effect_failed {A} s s' r d e o len data σ : inv s' (used s s' r d σ) →
  inv s' (effect s s' r d (Err e : result A) o len data σ).
Proof. unfold effect, used, stored. destruct (synced s' r d); [apply inv_lose|done]. Qed.

Lemma current_synced s r d p n : current s r d p n → synced s r d = true.
Proof. intros (b & [_ Hb] & _ & Hl & _). unfold synced. rewrite Hb. simpl. rewrite Hl. simpl. by rewrite bool_decide_eq_true_2. Qed.

(** A command that writes to the window [o, o + len) of a buffer whose handle has just been obtained. *)
Lemma store_command_ok s0 s σ B r d p n o len f data : inv s (used s0 s r d σ) → current s r d p n → 0 ≤ o → o + len ≤ n →
  (∀ a, in_range (p + o) len a = false → f (mem s) a = mem s a) →
  (∀ i, 0 ≤ i < len → f (mem s) (p + o + i) = data i) →
  ∃ res m, let s' := set_mem m (called s) in
    finished (command B (p + o) len f) s = Ret (res, s') ∧ res ≠ Exit ∧ inv s' (effect s0 s' r d res o len data σ).
Proof.
  intros Hi Hc Ho Hn Hout Hin. unfold used in Hi. rewrite (current_synced _ _ _ _ _ Hc) in Hi.
  destruct (finished_command s B (p + o) len f (i_pending app s _ Hi)) as (res & m & E & Hr).
  exists res, m. split_and!; [done|naive_solver|]. unfold effect.
  rewrite (current_synced (set_mem m (called s)) r d p n) by done.
  apply (inv_write (called s) _ r d p n); [by apply san_inv_called|done..|by eapply command_outside|].
  destruct Hr as [[-> ->]|(e & -> & _)]; [|done]. intros i v Hi' [= <-]. by apply Hin.
Qed.

(** *** The operations *)

(** A region of the application's memory. *)
Definition app_range (p n : Z) : Prop := ∀ a, p ≤ a < p + n → app a.

(** The handle of buffer [h], window [o] of [r], for a queue. *)
Lemma queue_handle s σ h b r o q : inv s σ → known s h b → window (buffers s) h r o →
  ∃ res s', getHandle h (Some (queue_device q)) s = Ret (res, s') ∧ keeps r s s' ∧
    inv s' (used s s' r (queue_device q) σ) ∧
    (∀ h', synced s h' (queue_device q) = true → synced s' h' (queue_device q) = true) ∧
    ((∃ e, res = Err e) ∨ ∃ p n, res = Ok (p + o) ∧ current s' r (queue_device q) p n ∧ 0 ≤ o ∧ o + Size b ≤ n).
Proof. intros Hi Hk Hw. by apply getHandle_ok. Qed.

(** A command that writes [f] to a range of a buffer. *)
Lemma san_store_ok {s σ h b r o q B} off len (f : Z → memory → memory) data : inv s σ → known s h b → window (buffers s) h r o →
  0 ≤ off → 0 ≤ len → off + len ≤ Size b →
  (∀ p m a, in_range p len a = false → f p m a = m a) →
  (∀ p m i, (∀ a, app a → m a = mem s a) → 0 ≤ i < len → f p m (p + i) = data i) →
  ∃ res s', finished (Handle ← getHandle h (Some (queue_device q)); command B (Handle + off) len (f (Handle + off))) s
      = Ret (res, s') ∧ res ≠ Exit ∧ inv s' (effect s s' r (queue_device q) res (o + off) len data σ).
Proof.
  intros Hi Hk Hw Ho Hl Hs Hout Hin.
  destruct (queue_handle s σ h b r o q Hi Hk Hw) as (res & s1 & E & Hkeep & Hi1 & _ & [(e & ->)|(p & n & -> & Hc & Ho' & Hn)]).
  - exists (Err e), s1. split_and!; [eapply finished_bind_err; [done|by eapply i_pending]|done|by apply effect_failed].
  - rewrite (finished_bind_ok _ _ _ _ _ E). replace (p + o + off) with (p + (o + off)) by lia.
    destruct (store_command_ok s s1 σ B r (queue_device q) p n (o + off) len (f (p + (o + off))) data) as (res & m & ?);
      [done|done|lia|lia|intros a Ha; by apply Hout| |by exists res, (set_mem m (called s1))].
    intros i Hi'. apply Hin; [by apply Hkeep|done].
Qed.

Lemma san_write_ok s σ h b r o q B off len src : inv s σ → known s h b → window (buffers s) h r o →
  0 ≤ off → 0 ≤ len → off + len ≤ Size b → app_range src len →
  ∃ res s', finished (urEnqueueMemBufferWrite q h B off len src) s = Ret (res, s') ∧ res ≠ Exit ∧
    inv s' (effect s s' r (queue_device q) res (o + off) len (λ i, mem s (src + i)) σ).
Proof.
  intros Hi Hk Hw Ho Hl Hs Happ. unfold urEnqueueMemBufferWrite. rewrite finished_with_buffer by apply Hk.
  apply (san_store_ok off len (λ p, memcpy p src len) _ Hi Hk Hw); [done..| |].
  - intros p m a. apply memcpy_outside.
  - intros p m i Hm Hi'. rewrite memcpy_inside by done. apply Hm, Happ. lia.
Qed.

Definition pattern_byte (pPattern : list Z) (i : Z) : Z := nth (Z.to_nat (i `mod` Z.of_nat (length pPattern))) pPattern 0.
Lemma san_fill_ok s σ h b r o q off len pPattern : inv s σ → known s h b → window (buffers s) h r o →
  0 ≤ off → 0 ≤ len → off + len ≤ Size b →
  ∃ res s', finished (urEnqueueMemBufferFill q h pPattern off len) s = Ret (res, s') ∧ res ≠ Exit ∧
    inv s' (effect s s' r (queue_device q) res (o + off) len (pattern_byte pPattern) σ).
Proof.
  intros Hi Hk Hw Ho Hl Hs. unfold urEnqueueMemBufferFill. rewrite finished_with_buffer by apply Hk.
  apply (san_store_ok off len (λ p, memfill p pPattern len) _ Hi Hk Hw); [done..| |].
  - intros p m a Ha. unfold memfill. by rewrite Ha.
  - intros p m i Hm Hi'. unfold memfill. rewrite (proj2 (in_range_true _ _ _)) by lia.
    replace (p + i - p) with i by lia. done.
Qed.

(** Memory that no buffer keeps its contents in. *)
Lemma app_not_current s σ h d p n a : inv s σ → current s h d p n → app a → ¬ p ≤ a < p + n.
Proof. intros Hi Hc Ha Hr. destruct (current_owns app s σ h d p n Hi Hc) as (c & Ho). by destruct (i_owns app s σ Hi _ _ _ _ _ Ho) as [_ Hx]; destruct (Hx a). Qed.

Lemma san_read_ok s σ h b r o q B off len dst : inv s σ → known s h b → window (buffers s) h r o →
  0 ≤ off → 0 ≤ len → off + len ≤ Size b → app_range dst len →
  ∃ res s', finished (urEnqueueMemBufferRead q h B off len dst) s = Ret (res, s') ∧ res ≠ Exit ∧
    inv s' (used s s' r (queue_device q) σ) ∧ (∀ a, app a → in_range dst len a = false → mem s' a = mem s a) ∧
    (res = Ok () → ∃ c, used s s' r (queue_device q) σ !! r = Some c ∧ agrees c (o + off) len (λ i, mem s' (dst + i))).
Proof.
  intros Hi Hk Hw Ho Hl Hs Happ. unfold urEnqueueMemBufferRead. rewrite finished_with_buffer by apply Hk.
  destruct (queue_handle s σ h b r o q Hi Hk Hw) as (res & s1 & E & Hkeep & Hi1 & _ & [(e & ->)|(p & n & -> & Hc & Ho' & Hn)]).
  { exists (Err e), s1. split_and!; [eapply finished_bind_err; [done|by eapply i_pending]|done|done| |done].
    intros a Ha _. by apply Hkeep. }
  rewrite (finished_bind_ok _ _ _ _ _ E).
  destruct (finished_command s1 B dst len (memcpy dst (p + o + off) len) (i_pending app s1 _ Hi1)) as (res & m & E2 & Hr).
  pose proof (command_outside _ _ _ _ _ _ _ Hr (memcpy_outside dst (p + o + off) len (mem s1))) as Hout.
  exists res, (set_mem m (called s1)). split_and!; [done|naive_solver| | |].
  - apply (inv_memory_same app (called s1)); [by apply san_inv_called|]. intros h' d' p' n' a Hc' Ha. apply Hout.
    destruct (in_range dst len a) eqn:Er; [|done]. ranges. by destruct (app_not_current s1 _ h' d' p' n' a Hi1 Hc'); [apply Happ; lia|].
  - intros a Ha Hr'. simpl. rewrite Hout by done. by apply Hkeep.
  - intros ->. destruct Hr as [[_ ->]|(e & [=] & _)]. pose proof Hc as (br & Hbr & Hsub & Hlast & ->).
    destruct (bo_content _ _ _ _ _ (inv_known app s1 _ r br Hi1 Hbr) Hsub) as (c & Hσ & Ha). rewrite Hlast in Ha.
    exists c. split; [exact Hσ|]. intros i v Hi' Hv. simpl. rewrite memcpy_inside by done.
    replace (p + o + off + i) with (p + (o + off + i)) by lia. apply Ha; [lia|]. done.
Qed.

(** *** Copies between buffers *)
Lemma capture_synced s h d σ : synced s h d = true → ∀ d', capture s h d' σ = σ.
Proof.
  unfold synced, capture. destruct (buffers s !! h) as [b|]; [|done]. simpl. destruct (LastSyncedDevice b); [|done].
  intros _ d'. by rewrite bool_decide_eq_false_2.
Qed.
Lemma capture_twice s h d σ : capture s h d (capture s h d σ) = capture s h d σ.
Proof. unfold capture. destruct (buffers s !! h); [|done]. case_match; [|done]. by rewrite insert_insert_eq. Qed.
(** The bytes read at first use do not depend on what is done to other buffers. *)
Lemma capture_less r s s1 h d σ : keeps r s s1 → h ≠ r → inv s σ → h ∈ m_MemBufferMap s → ∀ τ : spec,
  less (capture s h d τ) (capture s1 h d τ).
Proof.
  intros Hkeep Hne Hi Hh τ. unfold capture. rewrite (k_other _ _ _ _ Hkeep h Hne).
  destruct (buffers s !! h) as [b|] eqn:Hb; [|apply less_refl]. case_match eqn:E; [|apply less_refl]. bool_to_prop.
  intros h' c. destruct (decide (h' = h)) as [->|]; [|rewrite !lookup_insert_ne by done; by exists c].
  rewrite !lookup_insert_eq. intros [= <-]. eexists. split; [done|]. intros i v. unfold host_bytes.
  destruct (in_range 0 (Size b) i) eqn:Er; [|done]. ranges. intros <-. f_equal. apply Hkeep.
  eapply bo_host; [apply (inv_known app s σ h b Hi); by split|done|lia].
Qed.

(** Two handles one after the other. *)
Lemma used_twice {s s1 s2 σ r1 r2 d} : keeps r1 s s1 → inv s σ → r2 ∈ m_MemBufferMap s →
  (∀ h, synced s1 h d = true → synced s2 h d = true) →
  synced s1 r1 d = true → inv s2 (used s1 s2 r2 d (used s s1 r1 d σ)) → inv s2 (used s s2 r2 d (used s s2 r1 d σ)).
Proof.
  intros Hkeep Hi Hr2 Hmono H1 Hi2. unfold used in *. rewrite H1 in Hi2. rewrite (Hmono _ H1).
  destruct (synced s2 r2 d); [|done]. destruct (decide (r2 = r1)) as [->|Hne].
  - rewrite capture_twice. by rewrite (capture_synced s1 r1 d _ H1) in Hi2.
  - eapply inv_less; [exact Hi2|]. by eapply capture_less.
Qed.

(** The copy of a device stays where it is. *)
Lemma current_later s σ r d p n s' σ' r' p' n' : inv s σ → inv s' σ' → keeps r' s s' → current s r d p n →
  current s' r' d p' n' → current s' r d p n.
Proof.
  intros Hi Hi' Hkeep Hc Hc'. destruct (decide (r = r')) as [<-|Hne]; [|by eapply (keeps_current app)].
  destruct (current_owns app s σ r d p n Hi Hc) as (c1 & Ho1). apply (k_owns _ _ _ _ Hkeep) in Ho1.
  destruct (current_owns app s' σ' r d p' n' Hi' Hc') as (c2 & Ho2). destruct Ho1 as (b1 & Hb1 & _ & H1 & _ & H1').
  destruct Ho2 as (b2 & Hb2 & _ & H2 & _ & H2'). rewrite (known_fun _ _ _ _ Hb1 Hb2) in *. by simplify_eq.
Qed.

(** What a copy does to the contents. *)
Definition copy_effect (s s' : state) (rs rd : Z) (d : nat) (res : result ()) (os od len : Z) (σ : spec) : spec :=
  let σ := used s s' rd d (used s s' rs d σ) in
  if synced s' rs d && synced s' rd d
  then written rd od len (λ i, match res with Ok _ => σ !! rs ≫= λ c, c (os + i) | _ => None end) σ else σ.

Lemma copy_failed s s' rs rd d e os od len σ : inv s' (used s s' rd d (used s s' rs d σ)) →
  inv s' (copy_effect s s' rs rd d (Err e) os od len σ).
Proof. unfold copy_effect. case_match; [apply inv_lose|done]. Qed.

Lemma san_copy_ok s σ hs hd bs bd rs rd os od q soff doff len : inv s σ →
  known s hs bs → window (buffers s) hs rs os → known s hd bd → window (buffers s) hd rd od →
  0 ≤ soff → 0 ≤ doff → 0 ≤ len → soff + len ≤ Size bs → doff + len ≤ Size bd →
  ∃ res s', finished (urEnqueueMemBufferCopy q hs hd soff doff len) s = Ret (res, s') ∧ res ≠ Exit ∧
    inv s' (copy_effect s s' rs rd (queue_device q) res (os + soff) (od + doff) len σ).
Proof.
  intros Hi Hks Hws Hkd Hwd Hso Hdo Hl Hss Hsd. set (d := queue_device q).
  assert (finished (urEnqueueMemBufferCopy q hs hd soff doff len) s = finished (SrcHandle ← getHandle hs (Some d);
    DstHandle ← getHandle hd (Some d); pfnUSMMemcpy false (DstHandle + doff) (SrcHandle + soff) len) s) as ->.
  { unfold urEnqueueMemBufferCopy, with_buffers, finished. rewrite !bool_decide_eq_true_2 by (apply Hks || apply Hkd). done. }
  destruct (san_window_ok s σ hs bs rs os Hi Hks Hws) as (brs & Hbrs & _), (san_window_ok s σ hd bd rd od Hi Hkd Hwd) as (brd & Hbrd & _).
  destruct (queue_handle s σ hs bs rs os q Hi Hks Hws) as (res & s1 & E & Hk1 & Hi1 & Hmono0 & Hr1); fold d in E, Hi1, Hmono0, Hr1.
  destruct Hr1 as [(e & ->)|(p & n & -> & Hc & Ho' & Hn)].
  { exists (Err e), s1. split_and!; [eapply finished_bind_err; [done|by eapply i_pending]|done|]. apply copy_failed.
    unfold used at 1. destruct (synced s1 rd _) eqn:Es; [|done]. destruct (decide (rd = rs)) as [->|Hne].
    - unfold used in *. rewrite Es in *. by rewrite capture_twice.
    - rewrite (capture_synced s rd d); [done|]. unfold synced in *. by rewrite (k_other _ _ _ _ Hk1 rd Hne) in Es. }
  rewrite (finished_bind_ok _ _ _ _ _ E). pose proof (current_synced _ _ _ _ _ Hc) as Hsy1.
  destruct (keeps_known app _ _ _ _ _ Hk1 Hkd) as (bd' & Hkd' & Hfix). injection Hfix as _ _ Esz _ _ _.
  assert (window (buffers s1) hd rd od) as Hwd' by (by eapply window_keeps).
  destruct (queue_handle s1 _ hd bd' rd od q Hi1 Hkd' Hwd') as (res & s2 & E2 & Hk2 & Hi2 & Hmono & Hr); fold d in E2, Hi2, Hmono, Hr.
  pose proof (used_twice Hk1 Hi (proj1 Hbrd) Hmono Hsy1 Hi2) as Hi2'.
  destruct Hr as [(e & ->)|(p2 & n2 & -> & Hc2 & Ho2 & Hn2)].
  { exists (Err e), s2. split_and!; [eapply finished_bind_err; [done|by eapply i_pending]|done|]. by apply copy_failed. }
  rewrite (finished_bind_ok _ _ _ _ _ E2). pose proof (current_synced _ _ _ _ _ Hc2) as Hsy2.
  assert (current s2 rs d p n) as Hcs by exact (current_later s1 _ rs d p n s2 _ rd p2 n2 Hi1 Hi2 Hk2 Hc Hc2).
  destruct (finished_command s2 false (p2 + od + doff) len (memcpy (p2 + od + doff) (p + os + soff) len) (i_pending app s2 _ Hi2))
    as (res & m & E3 & Hr3).
  pose proof (command_outside _ _ _ _ _ _ _ Hr3 (memcpy_outside (p2 + od + doff) (p + os + soff) len (mem s2))) as Hout.
  exists res, (set_mem m (called s2)). split_and!; [done|naive_solver|]. unfold copy_effect.
  change (used s (set_mem m (called s2)) rd d (used s (set_mem m (called s2)) rs d σ)) with (used s s2 rd d (used s s2 rs d σ)).
  change (synced (set_mem m (called s2)) rs d) with (synced s2 rs d). change (synced (set_mem m (called s2)) rd d) with (synced s2 rd d).
  rewrite Hsy2, (Hmono _ Hsy1). cbn [andb]. set (τ := used s s2 rd d _) in *.
  apply (inv_write (called s2) _ rd d p2 n2); [by apply san_inv_called|done|lia|lia|by replace (p2 + (od + doff)) with (p2 + od + doff) by lia|].
  destruct Hr3 as [[-> ->]|(e & -> & _)]; [|done]. intros i v Hi' Hv.
  replace (p2 + (od + doff) + i) with (p2 + od + doff + i) by lia. rewrite memcpy_inside by done.
  apply bind_Some in Hv as (c & Hc' & Hv). pose proof Hcs as (b & Hb & Hsub & Hlast & ->).
  destruct (bo_content _ _ _ _ _ (inv_known app s2 τ rs b Hi2' Hb) Hsub) as (c0 & Hc0 & Ha). rewrite Hlast in Ha. simplify_eq.
  replace (p + os + soff + i) with (p + (os + soff + i)) by lia. apply Ha; [|done].
  enough (Size b = Size brs) by (destruct (san_window_ok s σ hs bs rs os Hi Hks Hws) as (brs' & Hb' & _ & ? & ? & _);
    rewrite (known_fun _ _ _ _ Hb' Hbrs) in *; lia).
  destruct (keeps_known app _ _ _ _ _ Hk1 Hbrs) as (x1 & Hx1 & [= _ _ E1 _ _ _]).
  destruct (keeps_known app _ _ _ _ _ Hk2 Hx1) as (x2 & Hx2 & [= _ _ E2' _ _ _]).
  rewrite (known_fun _ _ _ _ Hb Hx2). congruence.
Qed.
(** *** Mapping *)

(** Memory that is the application's, or allocated but no buffer's. *)
Definition unowned (s : state) (p : Z) : Prop := ∀ h sl c n, ¬ owns s h sl c p n.
Definition scratch (s : state) (p n : Z) : Prop :=
  app_range p n ∨ ∃ c, live (layer s) c p n ∧ unowned s p.
Lemma scratch_keeps s s' r p n : keeps r s s' → scratch s p n →
  scratch s' p n ∧ ∀ i, 0 ≤ i < n → mem s' (p + i) = mem s (p + i).
Proof.
  intros Hk [Ha|(c & Hl & Hu)].
  - split; [by left|]. intros i Hi. apply Hk, Ha. lia.
  - split.
    + right. exists c. split; [by eapply k_live|]. intros h sl c' n' Ho. eapply Hu, k_owned; eauto.
    + intros i Hi. apply (k_mem _ _ _ _ Hk c p n); [done| |lia]. intros k n'. apply Hu.
Qed.
Lemma inv_scratch s σ p n m : inv s σ → scratch s p n → (∀ a, in_range p n a = false → m a = mem s a) → inv (set_mem m s) σ.
Proof.
  intros Hi Hs Hm. apply (inv_memory_same app s); [done|]. intros h d p' n' a Hc Ha. apply Hm.
  destruct (in_range p n a) eqn:Er; [|done]. ranges. exfalso. destruct Hs as [Happ|(c & Hl & Hu)].
  - by eapply app_not_current; [done|done|apply (Happ a); lia|].
  - destruct (current_owns app s σ h d p' n' Hi Hc) as (c' & Ho). destruct (i_owns app s σ Hi _ _ _ _ _ Ho) as [Hl' _].
    destruct (live_disjoint _ _ _ _ _ _ _ (i_layer app s σ Hi) Hl Hl') as [(-> & _)|]; [|lia]. by eapply Hu.
Qed.

(** Replacing the mappings of a buffer. *)
Lemma set_mappings_synced s h b x r d : known s h b → synced (set_buffer h (with_mappings x b) s) r d = synced s r d.
Proof.
  intros [_ Hb]. unfold synced, set_buffer. simpl. destruct (decide (r = h)) as [->|]; [|by rewrite lookup_insert_ne].
  by rewrite lookup_insert_eq, Hb.
Qed.
Lemma set_mappings_capture s h b x r d σ : known s h b → capture (set_buffer h (with_mappings x b) s) r d σ = capture s r d σ.
Proof.
  intros [_ Hb]. unfold capture, set_buffer. simpl. destruct (decide (r = h)) as [->|]; [|by rewrite lookup_insert_ne].
  by rewrite lookup_insert_eq, Hb.
Qed.
Lemma window_mappings s h b x h' r o : known s h b → window (buffers s) h' r o →
  window (buffers (set_buffer h (with_mappings x b) s)) h' r o.
Proof.
  intros [_ Hb] Hw. assert (∀ h' b', buffers s !! h' = Some b' → ∃ b'', buffers (set_buffer h (with_mappings x b) s) !! h' = Some b'' ∧
    SubBuffer b'' = SubBuffer b') as Hx.
  { intros h1 b' Hb'. unfold set_buffer. simpl. destruct (decide (h1 = h)) as [->|]; [|rewrite lookup_insert_ne by done; by exists b'].
    rewrite lookup_insert_eq. simplify_eq. by eexists. }
  induction Hw as [h1 b1 Hb1 Hs|h1 b1 sub root o Hb1 Hs Hw IH]; destruct (Hx h1 b1 Hb1) as (b2 & ? & ?);
    [apply (window_root _ h1 b2)|apply (window_sub _ h1 b2)]; congruence || done.
Qed.
Lemma inv_mappings s σ h b x : inv s σ → known s h b →
  (∀ p m, x !! p = Some m → Mappings b !! p = Some m ∨
     0 ≤ Offset m ∧ 0 < MapSize m ∧ Offset m + MapSize m ≤ Size b ∧ (HostPtr b ≠ 0 → p = HostPtr b + Offset m) ∧
     (HostPtr b = 0 → live (layer s) (Context b) p (MapSize m) ∧ unowned s p ∧ ∀ a, p ≤ a < p + MapSize m → ¬ app a)) →
  inv (set_buffer h (with_mappings x b) s) σ.
Proof.
  intros Hi Hk Hx. pose proof (inv_known app s σ h b Hi Hk) as Hok.
  apply (inv_update app s σ σ h b); [done..| | |done].
  - intros [k|] p n; [by left|]. intros (m & Hm & Hh & ->). destruct (Hx p m Hm) as [?|(_ & _ & _ & _ & Hf)]; [left; by exists m|right].
    destruct (Hf Hh) as (Hl & Hu & Ha). split_and!; [done..|]. intros [k|] n'; [|done]. intros (Hp & ? & ->). exfalso.
    apply (Hu h (Alloc k) (Context b) (Size b)). exists b. by split_and!.
  - destruct Hok. constructor; try done. intros p m Hm. destruct (Hx p m Hm) as [?|(? & ? & ? & ? & _)]; [by apply bo_maps0|by split_and!].
Qed.

(** A command followed by something that only changes buffers. *)
Lemma finished_command_bind {A} s B p n f (k : M A) ra B' : pending s = [] →
  (∀ s', buffers s' = buffers s → k s' = Ret (ra, set_buffers B' s')) →
  ∃ m, (finished (_ ← command B p n f; k) s = Ret (ra, set_buffers B' (set_mem m (called s))) ∧ m = f (mem s)) ∨
    (∃ e, finished (_ ← command B p n f; k) s = Ret (Err e, set_mem m (called s)) ∧ m = lose (calls s) p n (mem s)).
Proof.
  intros E Hk. unfold finished, command, mbind, M_bind. case_decide.
  - exists (f (mem s)). left. split; [|done]. destruct B; rewrite Hk by done; simpl; destruct s; simpl in *; subst; done.
  - exists (lose (calls s) p n (mem s)). right. eexists. split; [|done]. rewrite run_pending_nil by done. done.
Qed.

Lemma capture_eq s s1 h d σ : buffers s1 = buffers s → mem s1 = mem s → capture s1 h d σ = capture s h d σ.
Proof. unfold capture. by intros -> ->. Qed.
Lemma used_eq s s1 s' h d σ : buffers s1 = buffers s → mem s1 = mem s → used s1 s' h d σ = used s s' h d σ.
Proof. intros. unfold used. by rewrite (capture_eq s s1). Qed.

(** Where a buffer is mapped. *)
Lemma map_target_ok s σ h b q off size : inv s σ → known s h b → queue_context q = Context b →
  0 ≤ off → 0 < size → off + size ≤ Size b →
  ∃ res s1, (if negb (HostPtr b =? 0) then mret (HostPtr b + off)
             else align ← lift (getAlignment b); allocateMemory (queue_context q) None align size Alloc.HOST_USM) s = Ret (res, s1) ∧
    buffers s1 = buffers s ∧ m_MemBufferMap s1 = m_MemBufferMap s ∧ mem s1 = mem s ∧ inv s1 σ ∧
    ((∃ e, res = Err e) ∨ ∃ p, res = Ok p ∧ scratch s1 p size ∧ (HostPtr b ≠ 0 → p = HostPtr b + off) ∧
       (HostPtr b = 0 → live (layer s1) (Context b) p size ∧ unowned s1 p ∧ ∀ a, p ≤ a < p + size → ¬ app a)).
Proof.
  intros Hi Hk Hq Ho Hs Hos. pose proof (inv_known app s σ h b Hi Hk) as Hok. pose proof (bo_size _ _ _ _ _ Hok) as Hsz.
  destruct (Z.eqb_spec (HostPtr b) 0) as [E0|Hne]; cbn [negb].
  2: { exists (Ok (HostPtr b + off)), s. split_and!; try done. right. eexists. split_and!; try done. left. intros a Ha.
       apply (bo_host _ _ _ _ _ Hok Hne). lia. }
  destruct (getAlignment_ok b Hsz) as (a & Ea & Ha).
  assert (lift (getAlignment b) s = Ret (Ok a, s)) as El by (unfold lift; by rewrite Ea). rewrite (bind_ok El), Hq.
  unfold allocateMemory.
  destruct (allocate_live app (calls s) (layer s) (Context b) None Alloc.HOST_USM size a (i_layer app s σ Hi) (or_intror eq_refl) ltac:(lia) Ha)
    as [(e & He & E)|(p & l & E & Hl & Hlive & Happ & Hold)]; rewrite E; cbn [mbind outcome_bind].
  - eexists _, _. split_and!; try done; [by apply (san_inv_called app s)|]. left. by exists e.
  - set (s1 := set_layer l (called s)).
    assert (inv s1 σ) as Hi1.
    { apply inv_layer; [by apply san_inv_called|done|]. intros h' sl c q' n Ho'. by apply Hold, (i_owns app s σ Hi h' sl). }
    assert (unowned s1 p) as Hu.
    { intros h' sl c n Ho'. destruct (i_owns app s σ Hi h' sl c p n Ho') as [Hl' _]. destruct (Hold _ _ _ Hl') as [_ Hx].
      destruct (live_pos _ _ _ _ (i_layer app s σ Hi) Hl'). lia. }
    eexists _, s1. split_and!; try done. right. exists p. split_and!; try done. right. by exists (Context b).
Qed.

Lemma san_map_ok s σ h b r o q B mapFlags off size : inv s σ → known s h b → window (buffers s) h r o →
  queue_context q = Context b → 0 ≤ off → 0 < size → off + size ≤ Size b →
  ∃ res s', finished (urEnqueueMemBufferMap q h B mapFlags off size) s = Ret (res, s') ∧ res ≠ Exit ∧
    inv s' (used s s' r (queue_device q) σ) ∧
    (∀ p, res = Ok p → (∃ c, used s s' r (queue_device q) σ !! r = Some c ∧ agrees c (o + off) size (λ i, mem s' (p + i))) ∧
       ∃ b', known s' h b' ∧ Mappings b' !! p = Some {| Offset := off; MapSize := size |}).
Proof.
  intros Hi Hk Hw Hq Ho Hs Hos. set (d := queue_device q).
  unfold urEnqueueMemBufferMap. rewrite finished_with_buffer by apply Hk.
  assert (∀ s', inv s' σ → synced s' r d = synced s r d → inv s' (used s s' r d σ)) as Hkeep0.
  { intros s' Hi' Hs'. unfold used. rewrite Hs'. destruct (synced s r d) eqn:E; [|done]. by rewrite (capture_synced _ _ _ _ E). }
  destruct (bool_decide (access_mode mapFlags = UNKNOWN)); cbn [negb].
  { assert (UR_ASSERT false UR_RESULT_ERROR_INVALID_ARGUMENT s = Ret (Err UR_RESULT_ERROR_INVALID_ARGUMENT, s)) as E by done.
    rewrite (finished_bind_err _ _ _ _ _ E (i_pending app s σ Hi)). eexists _, s. split_and!; try done. by apply (Hkeep0 s). }
  assert (UR_ASSERT true UR_RESULT_ERROR_INVALID_ARGUMENT s = Ret (Ok (), s)) as E by done.
  rewrite (finished_bind_ok _ _ _ _ _ E), (finished_bind_ok _ _ _ _ _ (get_ok s h b Hk)).
  destruct (map_target_ok s σ h b q off size Hi Hk Hq Ho Hs Hos) as (res & s1 & E1 & HB1 & HR1 & Hm1 & Hi1 & [(e & ->)|(p & -> & Hsc & Hp1 & Hp2)]).
  { rewrite (finished_bind_err _ _ _ _ _ E1 (i_pending app s1 σ Hi1)). eexists _, s1. split_and!; try done.
    apply (Hkeep0 s1 Hi1). unfold synced. by rewrite HB1. }
  rewrite (finished_bind_ok _ _ _ _ _ E1). assert (known s1 h b) as Hk1 by (unfold known; by rewrite HB1, HR1).
  destruct (queue_handle s1 σ h b r o q Hi1 Hk1) as (res & s2 & E2 & Hkp & Hi2 & _ & Hres); [by rewrite HB1|].
  rewrite used_eq with (s := s) in Hi2 by done. fold d in E2, Hi2, Hres.
  destruct Hres as [(e & ->)|(base & n & -> & Hc & Ho' & Hn)].
  { rewrite (finished_bind_err _ _ _ _ _ E2 (i_pending app s2 _ Hi2)). eexists _, s2. by split_and!. }
  rewrite (finished_bind_ok _ _ _ _ _ E2).
  destruct (keeps_known app _ _ _ _ _ Hkp Hk1) as (b2 & Hb2 & [= Em Ec Es Eh Esub _]).
  set (entry := {| Offset := off; MapSize := size |}).
  set (taken := negb (bool_decide (Mappings b2 !! p = None))).
  set (b3 := with_mappings (<[p := entry]> (Mappings b2)) b2).
  destruct (finished_command_bind s2 B p size (memcpy p (base + o + off) size)
    (b ← get h; _ ← UR_ASSERT (bool_decide (Mappings b !! p = None)) UR_RESULT_ERROR_INVALID_VALUE;
     _ ← update h (λ b, with_mappings (<[p := entry]> (Mappings b)) b); mret p)
    (if taken then Err UR_RESULT_ERROR_INVALID_VALUE else Ok p) (if taken then buffers s2 else <[h := b3]> (buffers s2)))
    as (m & Hm); [by eapply i_pending| |].
  { intros s' HB. assert (get h s' = Ret (Ok b2, s')) as Eg by (unfold get; by rewrite HB, (proj2 Hb2)).
    rewrite (bind_ok Eg). unfold taken. case_bool_decide; cbn [negb UR_ASSERT].
    - assert (update h (λ b, with_mappings (<[p := entry]> (Mappings b)) b) s' = Ret (Ok (), set_buffers (<[h := b3]> (buffers s2)) s')) as Eu
        by (unfold update; rewrite HB; by rewrite (alter_some _ _ _ _ (proj2 Hb2))).
      assert ((mret () : M unit) s' = Ret (Ok (), s')) as Em' by done. by rewrite (bind_ok Em'), (bind_ok Eu).
    - assert (set_buffers (buffers s2) s' = s') as -> by (destruct s'; simpl in *; by subst). done. }
  destruct (scratch_keeps _ _ _ _ _ Hkp Hsc) as [Hsc2 _].
  assert (∀ a, in_range p size a = false → m a = mem s2 a) as Hout.
  { intros a Ha. destruct Hm as [(_ & ->)|(e & _ & ->)]; [by apply memcpy_outside|]. unfold lose. by rewrite Ha. }
  pose proof (inv_scratch (called s2) _ p size m (san_inv_called app _ _ Hi2) Hsc2 Hout) as Hi3. set (s3 := set_mem m (called s2)) in *.
  destruct Hm as [(E3 & Hmm)|(e & E3 & _)].
  2: { exists (Err e), s3. split_and!; done. }
  unfold taken in *. destruct (Mappings b2 !! p) as [mp|] eqn:Emp.
  - rewrite bool_decide_eq_false_2 in E3 by done. cbn [negb] in E3. eexists _, _. split_and!; [exact E3|done|exact Hi3|done].
  - rewrite bool_decide_eq_true_2 in E3 by done. cbn [negb] in E3.
    change (set_buffers (<[h := b3]> (buffers s2)) (set_mem m (called s2))) with (set_buffer h b3 s3) in E3.
    assert (known s3 h b2) as Hb3 by done.
    assert (used s (set_buffer h b3 s3) r d σ = used s s2 r d σ) as Eus.
    { unfold used, b3. by rewrite (set_mappings_synced s3 h b2 _ r d Hb3). }
    eexists _, (set_buffer h b3 s3). rewrite Eus. split_and!; [exact E3|done| |].
    + apply inv_mappings; [done..|]. intros p' m'. destruct (decide (p' = p)) as [->|]; [|rewrite lookup_insert_ne by done; by left].
      rewrite lookup_insert_eq. intros [= <-]. right. simpl. rewrite Es, Eh, Ec. split_and!; [lia|lia|lia|done|].
      intros HH. destruct (Hp2 HH) as (Hl & Hu & Ha). split_and!; [by eapply k_live| |done].
      intros h' sl c n' Hown. eapply Hu, k_owned; eauto.
    + intros p' [= <-]. split; [|exists b3; split; [apply (known_set app s3 h b2); auto|simpl; by rewrite lookup_insert_eq]].
      pose proof Hc as (br & Hbr & Hsub & Hlast & ->).
      destruct (bo_content _ _ _ _ _ (inv_known app s2 _ r br Hi2 Hbr) Hsub) as (c & Hσ & Ha). rewrite Hlast in Ha.
      exists c. split; [done|]. intros i v Hi' Hv. simpl. rewrite Hmm, memcpy_inside by done.
      replace (base + o + off + i) with (base + (o + off + i)) by lia. apply Ha; [lia|done].
Qed.
(** Releasing memory that is no buffer's. *)
Lemma release_unowned s σ c p n : inv s σ → live (layer s) c p n → unowned s p →
  ∃ r s', releaseMemory c p s = Ret (r, s') ∧ r ≠ Exit ∧ inv s' σ ∧ mem s' = mem s ∧ buffers s' = buffers s.
Proof.
  intros Hi Hl Hu. destruct (release_any c p (layer s) (i_layer app s σ Hi)) as (out & l & E & Hil & Hkeepl & Hlive).
  destruct (Hlive n Hl) as [_ (e & ->)]. exists (if decide (e = UR_RESULT_SUCCESS) then Ok () else Err e), (set_layer l s).
  split_and!; try done; [unfold releaseMemory; by rewrite E|by case_decide|].
  apply inv_layer; [done..|]. intros h sl c' p' n' Ho. apply Hkeepl; [by eapply i_owns|]. intros ->. by eapply Hu.
Qed.

Lemma less_written h o n f σ : less (written h o n (λ _, None) σ) (written h o n f σ).
Proof.
  intros h' c. unfold written. destruct (decide (h' = h)) as [->|]; [|rewrite !lookup_alter_ne by done; by exists c].
  rewrite !lookup_alter_eq. destruct (σ !! h) as [c0|]; [|done]. intros [= <-]. eexists. split; [done|].
  intros i v Hv. apply upd_lost in Hv as [Ho Hv]. by rewrite upd_outside.
Qed.

(** Unmapping writes what is at the pointer to the mapped range. *)
Lemma san_unmap_ok s σ h b r o q p m : inv s σ → known s h b → window (buffers s) h r o →
  queue_context q = Context b → Mappings b !! p = Some m →
  ∃ res s', finished (urEnqueueMemUnmap q h p) s = Ret (res, s') ∧ res ≠ Exit ∧
    inv s' (effect s s' r (queue_device q) res (o + Offset m) (MapSize m) (λ i, mem s (p + i)) σ).
Proof.
  intros Hi Hk Hw Hq Hm. pose proof (inv_known app s σ h b Hi Hk) as Hok. set (d := queue_device q).
  destruct (bo_maps _ _ _ _ _ Hok p m Hm) as (Ho & Hs & Hos & Hp).
  unfold urEnqueueMemUnmap. rewrite finished_with_buffer by apply Hk. rewrite (finished_bind_ok _ _ _ _ _ (get_ok s h b Hk)), Hm.
  rewrite (finished_bind_ok _ _ _ _ _ (update_eq s h b _ Hk)). set (s1 := set_buffer h (with_mappings (delete p (Mappings b)) b) s).
  assert (inv s1 σ) as Hi1.
  { apply inv_mappings; [done..|]. intros p' m' Hp'. left. by apply lookup_delete_Some in Hp' as [_ ?]. }
  assert (scratch s1 p (MapSize m) ∧ (HostPtr b = 0 → live (layer s) (Context b) p (MapSize m) ∧ unowned s1 p)) as [Hsc Hfree].
  { assert (HostPtr b = 0 → live (layer s) (Context b) p (MapSize m) ∧ unowned s1 p) as Hfree.
    { intros HH. assert (owns s h Map (Context b) p (MapSize m)) as Hown by (exists b; split_and!; [done..|by exists m]).
      split; [by eapply i_owns|]. intros h' sl c n Ho'.
      assert (owns s h' sl c p n ∧ (h' = h → sl ≠ Map)) as [Ho1 Hne].
      { destruct Ho' as (x & Hx & -> & Hxp). apply (known_set app s h b _ _ _ Hk) in Hx as [[-> ->]|[Hne Hx]].
        - destruct sl as [k|]; [split; [by exists b|done]|]. destruct Hxp as (m' & Hm' & _). simpl in Hm'. by rewrite lookup_delete_eq in Hm'.
        - split; [by exists x|done]. }
      destruct (i_unique app s σ Hi _ _ _ _ _ _ _ _ _ Ho1 Hown) as [-> ->]. by apply Hne. }
    split; [|done]. destruct (decide (HostPtr b = 0)) as [HH|HH]; [right; exists (Context b); by apply Hfree|left].
    intros a Ha. apply (bo_host _ _ _ _ _ Hok HH). rewrite (Hp HH) in Ha. lia. }
  assert (known s1 h (with_mappings (delete p (Mappings b)) b)) as Hk1 by (apply (known_set app s h b _ _ _ Hk); auto).
  assert (window (buffers s1) h r o) as Hw1.
  { eapply window_mappings; eauto. }
  destruct (queue_handle s1 σ h _ r o q Hi1 Hk1 Hw1) as (res & s2 & E2 & Hkp & Hi2 & _ & Hres); fold d in E2, Hi2, Hres.
  assert (used s1 s2 r d σ = used s s2 r d σ) as Eus by (unfold used, s1; by rewrite set_mappings_capture). rewrite Eus in Hi2.
  destruct Hres as [(e & ->)|(base & n & -> & Hc & Ho' & Hn)].
  { rewrite (finished_bind_err _ _ _ _ _ E2 (i_pending app s2 _ Hi2)). eexists _, s2. split_and!; [done..|]. by apply effect_failed. }
  rewrite (finished_bind_ok _ _ _ _ _ E2). destruct (scratch_keeps _ _ _ _ _ Hkp Hsc) as [_ Hdata].
  replace (base + o + Offset m) with (base + (o + Offset m)) by lia.
  destruct (store_command_ok s s2 σ true r d base n (o + Offset m) (MapSize m) (memcpy (base + (o + Offset m)) p (MapSize m)) (λ i, mem s (p + i)) Hi2 Hc)
    as (res & m3 & E3 & Hne & Hi3); [lia|simpl in Hn; lia|intros a; apply memcpy_outside| |].
  { intros i Hi'. rewrite memcpy_inside by done. by apply Hdata. }
  rewrite finished_blocking in E3 by (by eapply i_pending). set (s3 := set_mem m3 (called s2)) in *. unfold pfnUSMMemcpy.
  destruct res as [[]|e|]; [|rewrite (finished_bind_err _ _ _ _ _ E3 (i_pending app s3 _ Hi3)); by exists (Err e), s3|done].
  rewrite (finished_bind_ok _ _ _ _ _ E3). destruct (Z.eqb_spec (HostPtr b) 0) as [HH|HH]; cbn [when].
  2: { exists (Ok ()), s3. split_and!; [|done..]. unfold finished, mret, M_ret. by rewrite run_pending_nil by (by eapply i_pending). }
  destruct (Hfree HH) as [Hl Hu]. rewrite Hq.
  destruct (release_unowned s3 _ (Context b) p (MapSize m) Hi3) as (r4 & s4 & E4 & Hne4 & Hi4 & Hm4 & HB4).
  { by apply (k_live _ _ _ _ Hkp). }
  { intros h' sl c' n' Hown. eapply Hu, k_owned; eauto. }
  exists r4, s4. split_and!; [|done|].
  - unfold finished. rewrite E4. by rewrite run_pending_nil by (by eapply i_pending).
  - assert (∀ (x : result ()), effect s s4 r d x (o + Offset m) (MapSize m) (λ i, mem s (p + i)) σ =
      effect s s3 r d x (o + Offset m) (MapSize m) (λ i, mem s (p + i)) σ) as -> by (intros x; unfold effect, synced; by rewrite HB4).
    destruct r4 as [[]|e|]; [done| |done]. eapply inv_less; [exact Hi4|]. unfold effect, stored.
    case_match; [apply less_written|apply less_refl].
Qed.
End ops.
End BufferOps.
