(* ===== verification/AsanBufferHandles.v ===== *)
(** * Buffers of the address sanitizer layer: creation and release *)
From stdpp Require Import base numbers list gmap relations.
From S2P Require Import Prelude UrUtil SanitizerCommon AsanShadow AsanInterceptor FlatMemory AsanBuffer AsanBufferProofs.
From S2P Require Import AsanBufferCommands.
Import Util Buffer LayerFacts BufferSpec BufferFacts BufferOps.
Local Open Scope Z_scope.
Local Open Scope ur_scope.

Module BufferHandles.
Section handles.
Context (app : Z → Prop) `{!Driver} `{!Memory.Env} `{!DriverLaws app}.
Abbreviation inv := (inv app).
Abbreviation keeps := (keeps app).

(** *** The set of registered objects *)
Lemma inv_next_fresh s σ : inv s σ → next s ∉ m_MemBufferMap s ∧ buffers s !! next s = None.
Proof.
  intros Hi. destruct (i_next app s σ Hi) as [_ Hn]. assert (buffers s !! next s = None) as Hnone.
  { destruct (buffers s !! next s) eqn:E; [|done]. pose proof (Hn _ _ E). lia. }
  split; [|done]. intros Hin. destruct (i_known app s σ Hi _ Hin) as (b & [_ Hb] & _). congruence.
Qed.

(** A new object. *)
Definition created (b : MemBuffer) (s : state) : state :=
  set_registered ({[next s]} ∪ m_MemBufferMap s) (set_next (next s + 1) (set_buffers (<[next s := b]> (buffers s)) s)).
Lemma known_created s σ b h x : inv s σ → known (created b s) h x ↔ h = next s ∧ x = b ∨ h ≠ next s ∧ known s h x.
Proof.
  intros Hi. destruct (inv_next_fresh s σ Hi) as [Hn Hb]. unfold known, created. simpl.
  rewrite elem_of_union, elem_of_singleton. destruct (decide (h = next s)) as [->|Hne].
  - rewrite lookup_insert_eq. naive_solver.
  - rewrite lookup_insert_ne by done. naive_solver.
Qed.
Lemma inv_created s σ σ' b : inv s σ → Allocations b = ∅ → Mappings b = ∅ → LastSyncedDevice b = None →
  0 < Size b < 2 ^ 62 → (HostPtr b ≠ 0 → app_range app (HostPtr b) (Size b)) →
  (∀ sub, SubBuffer b = Some sub → 0 ≤ Origin sub ∧ HostPtr b = 0 ∧
     ∃ bp, known s (Parent sub) bp ∧ Origin sub + Size b ≤ Size bp ∧ Context bp = Context b) →
  (SubBuffer b = None → ∃ c, σ' !! next s = Some c ∧ ∀ i, c i = None) →
  (∀ h, h ≠ next s → σ' !! h = σ !! h) → inv (created b s) σ'.
Proof.
  intros Hi HA HM HL Hs Hh Hsub Hc Hσ. pose proof Hi as [? ? [Hn1 Hn] ? ? ?].
  assert (∀ h x, known (created b s) h x ↔ h = next s ∧ x = b ∨ h ≠ next s ∧ known s h x) as Hkn
    by (intros; by eapply known_created).
  assert (∀ h sl c p n, owns (created b s) h sl c p n → owns s h sl c p n) as Hown.
  { intros h sl c p n (x & Hx & -> & Hp). apply Hkn in Hx as [[-> ->]|[_ Hx]]; [exfalso|by exists x].
    destruct sl as [k|]; simpl in Hp; [rewrite HA, lookup_empty in Hp; by destruct Hp|].
    destruct Hp as (m & Hm & _). by rewrite HM, lookup_empty in Hm. }
  constructor; try done.
  - split; [simpl; lia|]. intros h x. unfold created. simpl. destruct (decide (h = next s)) as [->|Hne].
    + intros _. lia.
    + rewrite lookup_insert_ne by done. intros Hx. pose proof (Hn _ _ Hx). lia.
  - intros h Hh'. simpl in Hh'. apply elem_of_union in Hh' as [->%elem_of_singleton|Hin].
    + exists b. split; [apply Hkn; auto|]. constructor; try done.
      * intros sub Hsb. destruct (Hsub sub Hsb) as (? & ? & bp & Hbp & ? & ?). pose proof (Hn _ _ (proj2 Hbp)).
        split_and!; try done; [lia|]. exists bp. split_and!; try done. apply Hkn. right. split; [lia|done].
      * intros p m. by rewrite HM, lookup_empty.
      * intros last. by rewrite HL.
      * rewrite HL. done.
    + destruct (i_known0 h Hin) as (x & Hx & Hok). pose proof (Hn _ _ (proj2 Hx)).
      exists x. split; [apply Hkn; right; split; [lia|done]|]. destruct Hok. constructor; try done; [|rewrite Hσ by lia; done].
      intros sub Hsb. destruct (bo_sub0 sub Hsb) as (? & ? & ? & ? & ? & bp & Hbp & ?). split_and!; try done.
      exists bp. split; [|done]. pose proof (Hn _ _ (proj2 Hbp)). apply Hkn. right. split; [lia|done].
  - intros h sl c p n Ho. by eapply i_owns0, Hown.
  - intros h sl c h' sl' c' p n n' H1 H2. eapply i_unique0; by eapply Hown.
Qed.

(** Forgetting an object that is no parent. *)
Definition forgotten (h : Z) (s : state) : state := set_registered (m_MemBufferMap s ∖ {[h]}) s.
Lemma inv_forgotten s σ h : inv s σ →
  (∀ h' b sub, known s h' b → SubBuffer b = Some sub → Parent sub ≠ h) → inv (forgotten h s) σ.
Proof.
  intros Hi Hp. pose proof Hi as []. assert (∀ h' b, known (forgotten h s) h' b ↔ h' ≠ h ∧ known s h' b) as Hkn.
  { intros h' b. unfold known, forgotten. simpl. set_solver. }
  assert (∀ h' sl c p n, owns (forgotten h s) h' sl c p n → owns s h' sl c p n) as Hown.
  { intros h' sl c p n (x & [_ Hx]%Hkn & Hy). by exists x. }
  constructor; try done.
  - intros h' Hh'. simpl in Hh'. apply elem_of_difference in Hh' as [Hin Hne]. rewrite elem_of_singleton in Hne.
    destruct (i_known0 h' Hin) as (x & Hx & Hok). exists x. split; [by apply Hkn|]. destruct Hok. constructor; try done.
    intros sub Hsb. destruct (bo_sub0 sub Hsb) as (? & ? & ? & ? & ? & bp & Hbp & ?). split_and!; try done.
    exists bp. split; [|done]. apply Hkn. split; [exact (Hp _ _ _ Hx Hsb)|done].
  - intros h' sl c p n Ho. by eapply i_owns0, Hown.
  - intros h1 sl c h' sl' c' p n n' H1 H2. eapply i_unique0; by eapply Hown.
Qed.
Lemma inv_unknown s σ σ' h b : inv s σ → h ∉ m_MemBufferMap s → is_Some (buffers s !! h) →
  (∀ h', h' ≠ h → σ' !! h' = σ !! h') → inv (set_buffer h b s) σ'.
Proof.
  intros Hi Hh [b0 Hb0] Hσ. pose proof Hi as [? ? [Hn1 Hn] ? ? ?].
  assert (∀ h' x, known (set_buffer h b s) h' x ↔ known s h' x) as Hkn.
  { intros h' x. unfold known, set_buffer. simpl. split; intros [Hin Hx]; (split; [done|]);
      rewrite lookup_insert_ne in * by (by intros <-); done. }
  assert (∀ h' sl c p n, owns (set_buffer h b s) h' sl c p n → owns s h' sl c p n) as Hown.
  { intros h' sl c p n (x & Hx%Hkn & Hy). by exists x. }
  constructor; try done.
  - split; [done|]. intros h' x. unfold set_buffer. simpl. destruct (decide (h' = h)) as [->|].
    + intros _. by eapply Hn.
    + rewrite lookup_insert_ne by done. apply Hn.
  - intros h' Hin. destruct (i_known0 h' Hin) as (x & Hx & Hok). exists x. split; [by apply Hkn|]. destruct Hok. constructor; try done.
    + intros sub Hsb. destruct (bo_sub0 sub Hsb) as (? & ? & ? & ? & ? & bp & Hbp & ?). split_and!; try done.
      exists bp. split; [by apply Hkn|done].
    + rewrite Hσ; [done|]. by intros ->.
  - intros h' sl c p n Ho. by eapply i_owns0, Hown.
  - intros h1 sl c h' sl' c' p n n' H1 H2. eapply i_unique0; by eapply Hown.
Qed.

Lemma inv_equal s σ σ' : inv s σ → (∀ h, h ∈ m_MemBufferMap s → σ' !! h = σ !! h) → inv s σ'.
Proof.
  intros Hi Hσ. pose proof Hi as []. constructor; try done. intros h Hh. destruct (i_known0 h Hh) as (b & Hk & Hok).
  exists b. split; [done|]. destruct Hok. constructor; try done. by rewrite (Hσ h Hh).
Qed.

(** *** Retaining and partitioning *)
Lemma inv_count s σ h b n : inv s σ → known s h b → inv (set_buffer h (with_count n b) s) σ.
Proof.
  intros Hi Hk. apply (inv_update app s σ σ h b); [done..| | |done].
  - intros sl p n' Hp. by left.
  - by destruct (inv_known app s σ h b Hi Hk).
Qed.

Lemma san_retain_ok s σ h b : inv s σ → known s h b → ∃ s', urMemRetain h s = Ret (Ok (), s') ∧ inv s' σ.
Proof.
  intros Hi Hk. unfold urMemRetain, with_buffer. rewrite decide_True by apply Hk. rewrite (update_eq s h b _ Hk).
  eexists. split; [done|]. by apply inv_count.
Qed.

Lemma insert_new s (b : MemBuffer) s0 : m_MemBufferMap s0 = m_MemBufferMap s → next s ∉ m_MemBufferMap s →
  insertMemBuffer (next s) s0 = Ret (Ok (), set_registered ({[next s]} ∪ m_MemBufferMap s) s0).
Proof. intros E Hn. unfold insertMemBuffer. rewrite E. by rewrite decide_False. Qed.

Lemma partition_ok s σ h b r o origin size : inv s σ → known s h b → window (buffers s) h r o →
  0 ≤ origin → 0 < size → origin + size < 2 ^ 64 →
  if Size b <? origin + size then urMemBufferPartition h origin size s = Ret (Err UR_RESULT_ERROR_INVALID_BUFFER_SIZE, s)
  else ∃ s', urMemBufferPartition h origin size s = Ret (Ok (next s), s') ∧ inv s' σ ∧
    window (buffers s') (next s) r (o + origin) ∧ ∃ b', known s' (next s) b' ∧ Size b' = size.
Proof.
  intros Hi Hk Hw Ho Hs Hos. unfold urMemBufferPartition, with_buffer. rewrite decide_True by apply Hk.
  rewrite (bind_ok (get_ok s h b Hk)), u64_small by (unfold in_u64; lia).
  destruct (Z.ltb_spec (Size b) (origin + size)) as [|Hle]; [done|].
  set (b' := {| Allocations := ∅; Mappings := ∅; Context := Context b; LastSyncedDevice := None; Size := size; HostPtr := 0;
                SubBuffer := Some {| Parent := h; Origin := origin |}; RefCount := 1 |}).
  destruct (inv_next_fresh s σ Hi) as [Hn Hnone].
  assert (make_shared b' s = Ret (Ok (next s), set_next (next s + 1) (set_buffers (<[next s := b']> (buffers s)) s))) as E1 by done.
  rewrite (bind_ok E1), (bind_ok (insert_new s b' (set_next (next s + 1) (set_buffers (<[next s := b']> (buffers s)) s)) eq_refl Hn)). pose proof (bo_size _ _ _ _ _ (inv_known app s σ h b Hi Hk)) as Hsz.
  exists (created b' s). split_and!; [done| | |].
  - apply (inv_created s σ); try done; [simpl; lia|]. intros sub [= <-]. simpl. split_and!; try done. exists b. split_and!; [done|lia|done].
  - apply (window_sub _ (next s) b' {| Parent := h; Origin := origin |}); [simpl; by rewrite lookup_insert_eq|done|]. simpl.
    generalize b'. clear -Hw Hnone. intros x'. induction Hw as [h b0 Hb Hs'|h b0 sub r o Hb Hs' Hw IH];
      [eapply window_root; [|exact Hs']|eapply window_sub; [|exact Hs'|exact IH]]; rewrite lookup_insert_ne; done || congruence.
  - exists b'. split; [apply (known_created s σ); auto|done].
Qed.

(** *** Release *)
Lemma release_list_ok c l : ∀ s, MemoryFacts.inv (layer s) →
  ∃ r l', forM l (λ x : option nat * Z, releaseMemory c x.2) s = Ret (r, set_layer l' s) ∧ MemoryFacts.inv l' ∧
    ∀ c p n, live (layer s) c p n → (∀ x, x ∈ l → x.2 ≠ p) → live l' c p n.
Proof.
  induction l as [|x l IH]; intros s Hi.
  { exists (Ok ()), (layer s). split_and!; [by destruct s|done..]. }
  destruct (release_any c x.2 (layer s) Hi) as (out & l1 & E & Hi1 & Hk1 & _). cbn [forM].
  assert (∀ p c n, live (layer s) c p n → (∀ y, y ∈ x :: l → y.2 ≠ p) → live l1 c p n ∧ ∀ y, y ∈ l → y.2 ≠ p) as Hlive.
  { intros p c' n Hl Hne. split; [|intros y Hy; apply Hne; by right]. apply Hk1; [done|]. intros ->. by apply (Hne x); [left|]. }
  assert (∀ ra, releaseMemory c x.2 s = Ret (ra, set_layer l1 s) → ra ≠ Ok () → ∃ r l',
    (_ ← releaseMemory c x.2; forM l (λ x : option nat * Z, releaseMemory c x.2)) s = Ret (r, set_layer l' s) ∧ MemoryFacts.inv l' ∧
    ∀ c p n, live (layer s) c p n → (∀ y, y ∈ x :: l → y.2 ≠ p) → live l' c p n) as Hstop.
  { intros ra Er Hne. exists (match ra with Ok _ => Ok () | Err e => Err e | Exit => Exit end), l1.
    split_and!; [unfold mbind, M_bind; rewrite Er; by destruct ra as [[]| |]|done|]. intros c' p n Hl Hx. by eapply Hlive. }
  destruct out as [e|]; [destruct (decide (e = UR_RESULT_SUCCESS)) as [->|Hout]|].
  - assert (releaseMemory c x.2 s = Ret (Ok (), set_layer l1 s)) as Er by (unfold releaseMemory; by rewrite E).
    rewrite (bind_ok Er). destruct (IH (set_layer l1 s) Hi1) as (r & l2 & E2 & Hi2 & Hk2). exists r, l2.
    split_and!; [exact E2|done|]. intros c' p n Hl Hx. destruct (Hlive p c' n Hl Hx). by apply Hk2.
  - apply (Hstop (Err e)); [|done]. unfold releaseMemory. rewrite E. cbn. by rewrite decide_False.
  - apply (Hstop Exit); [|done]. unfold releaseMemory. by rewrite E.
Qed.

Definition last_reference (b : MemBuffer) : Prop := int32_t (RefCount b - 1) = 0.

(** Nothing is said of a buffer whose release fails half-way: its allocations are
    gone, and it is still known. *)
Lemma san_release_ok s σ h b : inv s σ → known s h b →
  (last_reference b → ∀ h' b' sub, known s h' b' → SubBuffer b' = Some sub → Parent sub ≠ h) →
  ∃ res s', urMemRelease h s = Ret (res, s') ∧ (res = Ok () → inv s' σ ∧ (last_reference b ↔ h ∉ m_MemBufferMap s')).
Proof.
  intros Hi Hk Hp. unfold urMemRelease, with_buffer. rewrite decide_True by apply Hk. rewrite (bind_ok (update_eq s h b _ Hk)).
  set (b1 := with_count (int32_t (RefCount b - 1)) b). set (s1 := set_buffer h b1 s). pose proof (inv_count s σ h b (int32_t (RefCount b - 1)) Hi Hk) as Hi1. fold b1 s1 in Hi1.
  assert (known s1 h b1) as Hk1 by (apply (known_set app s h b _ _ _ Hk); auto). rewrite (bind_ok (get_ok s1 h b1 Hk1)).
  change (RefCount b1) with (int32_t (RefCount b - 1)). destruct (Z.eqb_spec (int32_t (RefCount b - 1)) 0) as [E1|E1]; cbn [negb].
  2: { eexists _, s1. split; [done|]. intros _. split; [done|]. by split; [|intros []; apply Hk1]. }
  unfold free. rewrite bind_assoc, (bind_ok (get_ok s1 h b1 Hk1)), bind_assoc. change (Allocations b1) with (Allocations b).
  destruct (release_list_ok (Context b1) (map_to_list (Allocations b)) s1 (i_layer app s1 σ Hi1)) as (r & l & E & Hil & Hlive).
  destruct r as [[]|e|].
  2: { rewrite (bind_err E). by eexists _, _. }
  2: { unfold mbind, M_bind. rewrite E. by eexists _, _. }
  rewrite (bind_ok E). set (s2 := set_layer l s1) in *. assert (known s2 h b1) as Hk2 by done.
  rewrite (bind_ok (update_eq s2 h b1 _ Hk2)). set (b3 := with_allocations ∅ b1). set (s3 := set_buffer h b3 s2).
  assert (h ∈ m_MemBufferMap s3) as Hin by apply Hk1. unfold eraseMemBuffer. rewrite decide_True by done.
  eexists _, _. split; [done|]. intros _. split; [|split; [intros _; simpl; set_solver|done]].
  change (inv (set_buffer h b3 (set_layer l (forgotten h s1))) σ).
  assert (inv (forgotten h s1) σ) as Hif.
  { apply inv_forgotten; [done|]. intros h' b' sub Hk' Hsb. apply (known_set app s h b _ _ _ Hk) in Hk' as [[-> ->]|[_ Hk']].
    - eapply (Hp E1 h b); done.
    - eapply (Hp E1); done. }
  apply (inv_unknown _ σ); [|simpl; set_solver|by exists b1; apply Hk1|done]. apply inv_layer; [done..|].
  intros h' sl c p n Ho. apply Hlive; [by apply (i_owns app (forgotten h s1) σ Hif h' sl)|].
  intros [k q] Hx%elem_of_map_to_list. simpl. intros ->. destruct Ho as (x & [Hxi Hxb] & -> & Hxp).
  assert (owns s1 h' sl (Context x) p n) as O1 by (exists x; split_and!; [split; [by apply elem_of_difference in Hxi as [? _]|done]|done..]).
  assert (owns s1 h (Alloc k) (Context b1) p (Size b1)) as O2.
  { exists b1. split_and!; [done..|]. split_and!; [done| |done]. by destruct (owns_pos app s1 σ _ _ _ _ _ Hi1 O1); lia. }
  destruct (i_unique app s1 σ Hi1 _ _ _ _ _ _ _ _ _ O1 O2) as [-> _].
  apply elem_of_difference in Hxi as [_ Hxi]. by apply Hxi, elem_of_singleton.
Qed.

(** *** Creation

    While a buffer is created with a copy of host data, it is not registered.
    Obtaining handles does not look at what is registered. *)
Definition blind {A} (m : M A) : Prop := ∀ s x r s', m s = Ret (r, s') → m (set_registered x s) = Ret (r, set_registered x s').
Lemma blind_ret {A} (a : A) : blind (mret a).
Proof. by intros s x r s' [= <- <-]. Qed.
Lemma blind_bind {A B} (m : M A) (f : A → M B) : blind m → (∀ a, blind (f a)) → blind (m ≫= f).
Proof.
  intros Hm Hf s x r s'. unfold mbind, M_bind. destruct (m s) as [[ra s1]| |] eqn:E; [|done..].
  rewrite (Hm s x ra s1 E). destruct ra as [a|e|]; [apply Hf|by intros [= <- <-]..].
Qed.
Lemma blind_get h : blind (get h).
Proof. intros s x r s'. unfold get. simpl. case_match; [|done]. by intros [= <- <-]. Qed.
Lemma blind_update h f : blind (update h f).
Proof. by intros s x r s' [= <- <-]. Qed.
Lemma blind_memcpy p q n : blind (internal_memcpy p q n).
Proof. intros s x r s'. unfold internal_memcpy. simpl. case_decide; by intros [= <- <-]. Qed.
Lemma blind_when b m : blind m → blind (when b m).
Proof. intros. destruct b; [done|apply blind_ret]. Qed.
Lemma blind_ensure h key t after : (∀ p, blind (after p)) → blind (ensure_allocation h key t after).
Proof.
  intros Ha. apply blind_bind; [apply blind_get|]. intros b. case_match; [apply blind_ret|].
  apply blind_bind; [apply blind_update|]. intros _. apply blind_bind.
  { intros s x r s'. unfold lift. destruct (getAlignment b); [|done..]. by intros [= <- <-]. }
  intros a. apply blind_bind.
  { intros s x r s'. unfold allocateMemory. simpl. destruct (Memory.allocateMemory _ _ _ _ _ _ _) as [[[? ?] ?]| |]; [|done..].
    by intros [= <- <-]. }
  intros p. apply blind_bind; [apply blind_update|]. intros _. apply blind_bind; [done|]. intros _. apply blind_ret.
Qed.
Lemma blind_own_handle h D : blind (own_handle h D).
Proof.
  apply blind_bind; [apply blind_get|]. intros b. apply blind_bind.
  { unfold device_of. destruct D; [apply blind_ret|]. case_match; [by intros ? ? ? ?|apply blind_ret]. }
  intros d. apply blind_bind.
  { apply blind_bind; [apply blind_get|]. intros b'. apply blind_ensure. intros p. apply blind_when, blind_memcpy. }
  intros p. apply blind_bind; [|intros _; apply blind_bind; [apply blind_update|intros _; apply blind_ret]].
  case_match; [|apply blind_ret]. apply blind_when, blind_bind; [apply blind_get|]. intros b'.
  apply blind_bind; [apply blind_ensure; intros _; apply blind_ret|]. intros q. apply blind_bind; [apply blind_memcpy|].
  intros _. apply blind_memcpy.
Qed.
Lemma blind_getHandle_n n : ∀ h D, blind (getHandle_n n h D).
Proof.
  induction n as [|n IH]; intros h D; (apply blind_bind; [apply blind_get|]); intros b; (case_match; [|apply blind_own_handle]).
  - by intros ? ? ? ?.
  - apply blind_bind; [apply IH|]. intros p. apply blind_ret.
Qed.

(** The host data is copied to the buffer on every device. *)
Definition fill_devices (h Host size : Z) (ds : list nat) : M unit :=
  forM ds (λ d, Handle ← getHandle h (Some d); internal_memcpy Handle Host size).
Lemma blind_fill_devices h Host size ds : blind (fill_devices h Host size ds).
Proof.
  induction ds as [|d ds IH]; [apply blind_ret|]. apply blind_bind; [|by intros _].
  apply blind_bind; [apply blind_getHandle_n|]. intros p. apply blind_memcpy.
Qed.

Lemma internal_store_ok s σ h d p n src : inv s σ → current s h d p n → app_range app src n →
  ∃ r m, let s' := set_mem m (called s) in internal_memcpy p src n s = Ret (r, s') ∧ r ≠ Exit ∧ keeps h s s' ∧
    inv s' (written h 0 n (λ i, match r with Ok _ => Some (mem s (src + i)) | _ => None end) σ).
Proof.
  intros Hi Hc Happ. destruct (current_owns app s σ h d p n Hi Hc) as (c & Ho).
  assert (∀ m, (∀ a, in_range p n a = false → m a = mem s a) → keeps h s (set_mem m (called s))) as Hkeep.
  { intros m Hm. eapply san_keeps_trans; [apply keeps_called|]. apply keeps_memory.
    - intros a Ha. apply Hm. destruct (in_range p n a) eqn:E; [|done]. ranges. by destruct (app_not_current app s σ h d p n a Hi Hc Ha).
    - intros c' p' n' Hl Hno a Ha. apply Hm. destruct (in_range p n a) eqn:E; [|done]. ranges. exfalso.
      destruct (i_owns app s σ Hi _ _ _ _ _ Ho) as [Hl' _].
      destruct (live_disjoint _ _ _ _ _ _ _ (i_layer app s σ Hi) Hl' Hl) as [(<- & <- & <-)|]; [by apply (Hno (Some d) n)|lia]. }
  unfold internal_memcpy. case_decide; eexists _, _; (split; [done|]); (split; [done|]); split.
  - apply Hkeep, memcpy_outside.
  - apply (inv_write app (called s) σ h d p n); [by apply san_inv_called|done|lia|lia| |].
    + intros a. rewrite Z.add_0_r. apply memcpy_outside.
    + intros i v Hi' [= <-]. by rewrite Z.add_0_r, memcpy_inside.
  - apply Hkeep. intros a Ha. unfold lose. by rewrite Ha.
  - apply (inv_write app (called s) σ h d p n); [by apply san_inv_called|done|lia|lia| |done].
    intros a Ha. unfold lose. rewrite Z.add_0_r in Ha. by rewrite Ha.
Qed.

Lemma fill_devices_ok h Host ds : ∀ s σ b, inv s σ → known s h b → SubBuffer b = None → app_range app Host (Size b) →
  ∃ r s' σ', fill_devices h Host (Size b) ds s = Ret (r, s') ∧ r ≠ Exit ∧ keeps h s s' ∧ inv s' σ' ∧
    (∀ h', h' ≠ h → σ' !! h' = σ !! h') ∧
    (r = Ok () → if bool_decide (ds = []) then σ' = σ
                 else ∃ c, σ' !! h = Some c ∧ ∀ i, 0 ≤ i < Size b → c i = Some (mem s (Host + i))).
Proof.
  induction ds as [|d ds IH]; intros s σ b Hi Hk Hs Happ.
  { exists (Ok ()), s, σ. split_and!; try done. }
  assert (window (buffers s) h h 0) as Hw by (eapply window_root; [apply Hk|done]).
  cbn [fill_devices forM]. fold (fill_devices h Host (Size b) ds). rewrite bind_assoc.
  destruct (getHandle_ok app s σ h b h 0 (Some d) d Hi Hk Hw eq_refl) as (r & s1 & E1 & Hk1 & Hi1 & _ & Hr).
  assert (∀ h', h' ≠ h → used s s1 h d σ !! h' = σ !! h') as Hσ1.
  { intros h' Hne. unfold used, capture. repeat case_match; try done; by rewrite lookup_insert_ne. }
  destruct Hr as [(e & ->)|(p & n & -> & Hc & _ & _)].
  { rewrite (bind_err E1). eexists _, _, _. by split_and!. }
  rewrite (bind_ok E1). rewrite Z.add_0_r. destruct (keeps_known app _ _ _ _ _ Hk1 Hk) as (b1 & Hb1 & [= _ _ Es _ Esub _]).
  assert (n = Size b) as -> by (destruct Hc as (x & Hx & _ & _ & ->); by rewrite (known_fun _ _ _ _ Hx Hb1)).
  destruct (internal_store_ok s1 _ h d p (Size b) Host Hi1 Hc Happ) as (r & m & E2 & Hne & Hk2 & Hi2). set (s2 := set_mem m (called s1)) in *.
  destruct r as [[]|e|]; [| |done].
  2: { rewrite (bind_err E2). eexists _, s2, _. split_and!; [done|done|by eapply san_keeps_trans|exact Hi2| |done].
       intros h' Hh. unfold written. rewrite lookup_alter_ne by done. by apply Hσ1. }
  rewrite (bind_ok E2). assert (known s2 h b1) as Hb2 by done. rewrite <-Es.
  destruct (IH s2 _ b1 Hi2 Hb2) as (r & s3 & σ3 & E3 & Hne3 & Hk3 & Hi3 & Hσ3 & Hr3); [congruence|by rewrite Es|].
  assert (keeps h s s3) as Hk13 by (eapply san_keeps_trans; [exact Hk1|by eapply san_keeps_trans]).
  exists r, s3, σ3. split_and!; try done.
  - intros h' Hh. rewrite Hσ3 by done. unfold written. rewrite lookup_alter_ne by done. by apply Hσ1.
  - intros ->. specialize (Hr3 eq_refl). cbn [bool_decide]. rewrite bool_decide_eq_false_2 by done. case_bool_decide as Hds.
    + subst σ3. destruct (bo_content _ _ _ _ _ (inv_known app s1 _ h b1 Hi1 Hb1)) as (c & Hc' & _); [congruence|].
      unfold written. rewrite lookup_alter_eq, Hc'. eexists. split; [done|]. intros i Hi'.
      rewrite upd_inside by (ranges; lia). f_equal. rewrite Z.sub_0_r. apply Hk1, Happ. rewrite Es in Hi'. lia.
    + destruct Hr3 as (c & Hc' & Hv). exists c. split; [done|]. intros i Hi'. rewrite Hv by done. f_equal.
      transitivity (mem s1 (Host + i)); [apply Hk2|apply Hk1]; apply Happ; rewrite Es in Hi'; lia.
Qed.

(** The bytes of a new buffer: those of the host pointer if they are to be copied. *)
Definition copies_host (flags Host : Z) : bool := negb (Host =? 0) && flag flags UR_MEM_FLAG_ALLOC_COPY_HOST_POINTER.
Definition initial_content (m : memory) (c : nat) (flags size Host : Z) : content := λ i,
  if in_range 0 size i && copies_host flags Host && negb (bool_decide (Memory.DeviceList c = [])) then Some (m (Host + i)) else None.

Lemma set_registered_id s : set_registered (m_MemBufferMap s) s = s.
Proof. by destruct s. Qed.

Lemma san_create_ok s σ c flags size Host : inv s σ → 0 < size < 2 ^ 62 → (Host ≠ 0 → app_range app Host size) →
  ∃ r s', urMemBufferCreate c flags size Host s = Ret (r, s') ∧ r ≠ Exit ∧
    match r with
    | Ok h => h = next s ∧ inv s' (<[h := initial_content (mem s) c flags size Host]> σ) ∧ window (buffers s') h h 0 ∧
        ∃ b, known s' h b ∧ Size b = size ∧ Context b = c
    | _ => inv s' σ
    end.
Proof.
  intros Hi Hs Hh. unfold urMemBufferCreate. set (H' := if flag flags UR_MEM_FLAG_USE_HOST_POINTER then Host else 0).
  set (b := {| Allocations := ∅; Mappings := ∅; Context := c; LastSyncedDevice := None; Size := size; HostPtr := H';
               SubBuffer := None; RefCount := 1 |}).
  set (s0 := set_next (next s + 1) (set_buffers (<[next s := b]> (buffers s)) s)). set (h := next s).
  assert (make_shared b s = Ret (Ok h, s0)) as E0 by done. rewrite (bind_ok E0).
  destruct (inv_next_fresh s σ Hi) as [Hn _]. set (σ0 := <[h := (λ _, None) : content]> σ).
  assert (inv (created b s) σ0) as Hi0.
  { apply (inv_created s σ); try done.
    - simpl. unfold H'. destruct (flag _ _); [done|lia].
    - intros _. exists (λ _, None). unfold σ0. by rewrite lookup_insert_eq.
    - intros h' Hne. unfold σ0. by rewrite lookup_insert_ne. }
  assert (known (created b s) h b) as Hk by (apply (known_created s σ); auto).
  assert (∃ r s1 σ1, when (copies_host flags Host) (fill_devices h Host size (Memory.DeviceList c)) (created b s) = Ret (r, s1) ∧
    r ≠ Exit ∧ keeps h (created b s) s1 ∧ inv s1 σ1 ∧ (∀ h', h' ≠ h → σ1 !! h' = σ !! h') ∧
    (r = Ok () → ∃ c1, σ1 !! h = Some c1 ∧ ∀ i v, initial_content (mem s) c flags size Host i = Some v → c1 i = Some v))
    as (r & s1 & σ1 & E1 & Hne & Hk1 & Hi1 & Hσ1 & Hr).
  { unfold initial_content. destruct (copies_host flags Host) eqn:Ec; cbn [when].
    - unfold copies_host in Ec. bool_to_prop.
      destruct (fill_devices_ok h Host (Memory.DeviceList c) (created b s) σ0 b Hi0 Hk eq_refl (Hh ltac:(done)))
        as (r & s1 & σ1 & E1 & Hne & Hk1 & Hi1 & Hσ1 & Hr). exists r, s1, σ1. split_and!; try done.
      + intros h' Hh'. rewrite Hσ1 by done. unfold σ0. by rewrite lookup_insert_ne.
      + intros ->. specialize (Hr eq_refl). case_bool_decide; cbn [negb].
        * subst σ1. exists (λ _, None). unfold σ0. rewrite lookup_insert_eq. split; [done|]. intros i v. by rewrite andb_false_r.
        * destruct Hr as (c1 & Hc1 & Hv). exists c1. split; [done|]. intros i v. rewrite !andb_true_r.
          destruct (in_range 0 size i) eqn:Ei; [|done]. intros [= <-]. apply Hv. ranges. simpl. lia.
    - exists (Ok ()), (created b s), σ0. split_and!; try done.
      + intros h' Hh'. unfold σ0. by rewrite lookup_insert_ne.
      + intros _. exists (λ _, None). unfold σ0. rewrite lookup_insert_eq. split; [done|]. intros i v. by rewrite andb_false_r. }
  assert (m_MemBufferMap s1 = {[h]} ∪ m_MemBufferMap s) as Hreg by (by rewrite (k_map _ _ _ _ Hk1)).
  assert (when (copies_host flags Host) (fill_devices h Host size (Memory.DeviceList c)) s0 = Ret (r, set_registered (m_MemBufferMap s) s1)) as E1'.
  { apply (blind_when _ _ (blind_fill_devices _ _ _ _) _ (m_MemBufferMap s)) in E1.
    by replace (set_registered (m_MemBufferMap s) (created b s)) with s0 in E1 by (unfold s0; by destruct s). }
  change (negb (Host =? 0) && flag flags UR_MEM_FLAG_ALLOC_COPY_HOST_POINTER) with (copies_host flags Host).
  change (forM (Memory.DeviceList c) _) with (fill_devices h Host size (Memory.DeviceList c)).
  destruct r as [[]|e|]; [| |done].
  - rewrite (bind_ok E1'). assert (insertMemBuffer h (set_registered (m_MemBufferMap s) s1) = Ret (Ok (), s1)) as Ei.
    { unfold insertMemBuffer. simpl. rewrite decide_False by done. rewrite <-Hreg.
      do 2 f_equal. by destruct s1. }
    rewrite (bind_ok Ei). eexists (Ok h), s1. split_and!; [done|done|done| | |].
    + destruct (Hr eq_refl) as (c1 & Hc1 & Hv). eapply inv_less; [exact Hi1|]. intros h' c' Hc'.
      destruct (decide (h' = h)) as [->|Hne']; [|rewrite lookup_insert_ne, <-Hσ1 by done; by exists c'].
      rewrite lookup_insert_eq. simplify_eq. by eexists.
    + eapply (window_keeps app); [exact Hk1|]. eapply window_root; [apply Hk|done].
    + destruct (keeps_known app _ _ _ _ _ Hk1 Hk) as (b1 & Hb1 & [= _ Ec Es _ _ _]). by exists b1.
  - rewrite (bind_err E1'). eexists (Err e), _. split_and!; [done|done|].
    assert (set_registered (m_MemBufferMap s) s1 = forgotten h s1) as ->.
    { unfold forgotten. rewrite Hreg. f_equal. apply set_eq. intros x. fold h in Hn. set_solver. }
    assert (inv (forgotten h s1) σ1) as Hif.
    { apply inv_forgotten; [done|]. intros h' b' sub Hb' Hsub Hp.
      destruct (bo_sub _ _ _ _ _ (inv_known app s1 σ1 h' b' Hi1 Hb') sub Hsub) as (Hlt & _).
      destruct (i_next app s1 σ1 Hi1) as [_ Hnx]. pose proof (Hnx _ _ (proj2 Hb')) as Hx. rewrite (k_next _ _ _ _ Hk1) in Hx. simpl in Hx. lia. }
    eapply inv_equal; [exact Hif|]. intros h' Hh'. simpl in Hh'. symmetry. apply Hσ1. set_solver.
Qed.

End handles.
End BufferHandles.
