(* ===== verification/AsanBufferProps.v ===== *)
(** * Buffers of the address sanitizer layer: properties

    [BufferProps]: whatever is done to them, buffers behave like arrays of bytes;
    rectangular copies copy what they should.  The examples at the end evaluate the
    model where the code does not do what it means to. *)
From stdpp Require Import base numbers list gmap relations.
From S2P Require Import Prelude UrUtil NativeCpu SanitizerCommon AsanShadow AsanInterceptor FlatMemory AsanBuffer.
From S2P Require Import AsanBufferProofs AsanBufferCommands AsanBufferHandles.
Import Util Buffer LayerFacts BufferSpec BufferFacts BufferOps BufferHandles.
Local Open Scope Z_scope.
Local Open Scope ur_scope.

(** ** Rectangular copies *)
Module RectFacts.
Section driver.
Context `{!Driver} `{!Memory.Env}.

(** Copies of [w] bytes, one after the other. *)
Definition copies (w : Z) (l : list (Z * Z)) (m : memory) : memory := foldl (λ m x, memcpy x.1 x.2 w m) m l.

Lemma copies_outside w l m a : (∀ x, x ∈ l → in_range x.1 w a = false) → copies w l m a = m a.
Proof.
  unfold copies. revert m. induction l as [|x l IH]; intros m Hx; [done|]. simpl.
  rewrite IH by (intros y Hy; apply Hx; by right). apply memcpy_outside, Hx. by left.
Qed.
Lemma copies_inside w l m x i : 0 ≤ i < w → x ∈ l →
  (∀ y, y ∈ l → in_range y.1 w (x.1 + i) = true → y = x) → (∀ y, y ∈ l → in_range y.1 w (x.2 + i) = false) →
  copies w l m (x.1 + i) = m (x.2 + i).
Proof.
  intros Hi. unfold copies. revert m. induction l as [|y l IH]; intros m Hin Hu Hs; [by apply elem_of_nil in Hin|]. simpl.
  destruct (decide (x ∈ l)) as [Hl|Hl].
  - rewrite IH; [apply memcpy_outside, Hs; by left|done|intros; apply Hu; [by right|done]|intros; apply Hs; by right].
  - apply elem_of_cons in Hin as [->|]; [|done]. fold (copies w l (memcpy y.1 y.2 w m)).
    rewrite copies_outside; [by apply memcpy_inside|]. intros z Hz. destruct (in_range z.1 w (y.1 + i)) eqn:E; [|done].
    destruct Hl. by rewrite <-(Hu z ltac:(by right) E).
Qed.
Lemma copies_app w l k m : copies w (l ++ k) m = copies w k (copies w l m).
Proof. unfold copies. by rewrite foldl_app. Qed.

(** The rows of a slice, and of a region. *)
Definition rows (dst drow src srow h : Z) : list (Z * Z) := (λ y, (dst + y * drow, src + y * srow)) <$> seqZ 0 h.
Lemma memcpy2D_rows dst drow src srow w h m : memcpy2D dst drow src srow w h m = copies w (rows dst drow src srow h) m.
Proof.
  unfold memcpy2D, copies, rows. revert m. induction (seqZ 0 h) as [|y l IH]; intros m; [done|]. simpl. by rewrite IH.
Qed.

(** What is in memory once the queue has finished. *)
Definition eventually (s : state) : memory := mem (run_pending s).
Lemma command_eventually B p n f s s' : command B p n f s = Ret (Ok (), s') → eventually s' = f (eventually s).
Proof.
  unfold command, eventually. case_decide; [|done]. intros [= <-]. destruct B; simpl; [done|]. by rewrite foldl_app.
Qed.
Lemma command_returns B p n f s : ∃ r s', command B p n f s = Ret (r, s') ∧ (r = Ok () ∨ ∃ e, r = Err e).
Proof. unfold command. case_decide; eexists _, _; eauto. Qed.

Lemma slices_eventually B (l : list Z) (dst src : Z → Z) drow srow w h : ∀ s,
  ∃ r s', forM l (λ i, pfnUSMMemcpy2D B (dst i) drow (src i) srow w h) s = Ret (r, s') ∧ (r = Ok () ∨ ∃ e, r = Err e) ∧
    (r = Ok () → eventually s' = copies w (l ≫= λ i, rows (dst i) drow (src i) srow h) (eventually s)).
Proof.
  induction l as [|i l IH]; intros s; [by exists (Ok ()), s; auto|]. cbn [forM].
  destruct (command_returns B (dst i) ((h - 1) * drow + w) (memcpy2D (dst i) drow (src i) srow w h) s) as (r & s1 & E & [->|(e & ->)]).
  - change (command _ _ _ _) with (pfnUSMMemcpy2D B (dst i) drow (src i) srow w h) in E. rewrite (bind_ok E).
    apply command_eventually in E. destruct (IH s1) as (r & s2 & E2 & Hr & Hm). exists r, s2. split_and!; [done..|].
    intros Hok. rewrite Hm by done. by rewrite E, memcpy2D_rows, bind_cons, copies_app.
  - change (command _ _ _ _) with (pfnUSMMemcpy2D B (dst i) drow (src i) srow w h) in E. rewrite (bind_err E).
    eexists _, s1. split_and!; eauto. done.
Qed.
End driver.

(** One side of a copy: the rows do not overlap, nor do the slices, and no product
    wraps. *)
Record side_ok (o : rect) (row slice : Z) (r : region) : Prop := {
  so_offset : 0 ≤ x o ∧ 0 ≤ y o ∧ 0 ≤ z o;
  so_row : width r ≤ row; so_slice : row * height r ≤ slice;
  so_bound : row * y o < 2 ^ 64 ∧ slice * z o < 2 ^ 64 ∧ depth r * slice < 2 ^ 64 }.
Definition row_pitch (pitch : Z) (r : region) : Z := if pitch =? 0 then width r else pitch.
Definition slice_pitch (pitch row : Z) (r : region) : Z := if pitch =? 0 then row ⊗ height r else pitch.
(** The address of a byte of the region. *)
Definition address (p : Z) (o : rect) (row slice i j k : Z) : Z :=
  p + x o + row * y o + slice * z o + k * slice + j * row + i.
Definition in_region (r : region) (i j k : Z) : Prop := 0 ≤ i < width r ∧ 0 ≤ j < height r ∧ 0 ≤ k < depth r.

Lemma address_inj p o row slice r i j k i' j' k' : side_ok o row slice r → in_region r i j k → in_region r i' j' k' →
  address p o row slice i j k = address p o row slice i' j' k' → i = i' ∧ j = j' ∧ k = k'.
Proof.
  intros [_ Hrow Hsl _] (Hi & Hj & Hk) (Hi' & Hj' & Hk') E. unfold address in E.
  assert (∀ a b, 0 ≤ a < width r → 0 ≤ b < height r → 0 ≤ row * b + a < slice) as Hlt.
  { intros a b Ha Hb. assert (row * (b + 1) ≤ row * height r) by (apply Z.mul_le_mono_nonneg_l; lia).
    assert (0 ≤ row * b) by (apply Z.mul_nonneg_nonneg; lia). lia. }
  destruct (LaunchProps.split_unique slice k (row * j + i) k' (row * j' + i')) as [-> E2]; [by apply Hlt..|lia|].
  destruct (LaunchProps.split_unique row j i j' i') as [-> ->]; [lia..|]. done.
Qed.
Section copy.
Context `{!Driver} `{!Memory.Env}.
Context (pSrc pDst : Z) (SrcOffset DstOffset : rect) (Region : region).
Context (SrcRowPitch SrcSlicePitch DstRowPitch DstSlicePitch : Z) (Blocking : bool).
Let srow := row_pitch SrcRowPitch Region.
Let sslice := slice_pitch SrcSlicePitch srow Region.
Let drow := row_pitch DstRowPitch Region.
Let dslice := slice_pitch DstSlicePitch drow Region.
Definition from (i j k : Z) : Z := address pSrc SrcOffset srow sslice i j k.
Definition to (i j k : Z) : Z := address pDst DstOffset drow dslice i j k.
Definition copied_rows : list (Z * Z) := seqZ 0 (depth Region) ≫= λ k,
  rows (pDst + x DstOffset + drow ⊗ y DstOffset + dslice ⊗ z DstOffset + k ⊗ dslice) drow
       (pSrc + x SrcOffset + srow ⊗ y SrcOffset + sslice ⊗ z SrcOffset + k ⊗ sslice) srow (height Region).

Lemma rect_helper_eventually s : pending s = [] → ∃ r s',
  finished (EnqueueMemCopyRectHelper pSrc pDst SrcOffset DstOffset Region SrcRowPitch SrcSlicePitch DstRowPitch DstSlicePitch Blocking) s
    = Ret (r, s') ∧ r ≠ Exit ∧ (r = Ok () → mem s' = copies (width Region) copied_rows (mem s)).
Proof.
  intros Hp. unfold EnqueueMemCopyRectHelper. fold (row_pitch SrcRowPitch Region) (row_pitch DstRowPitch Region). fold srow drow.
  fold (slice_pitch SrcSlicePitch srow Region) (slice_pitch DstSlicePitch drow Region). fold sslice dslice.
  set (so := pSrc + x SrcOffset + _ + _). set (do := pDst + x DstOffset + _ + _).
  destruct (slices_eventually Blocking (seqZ 0 (depth Region)) (λ k, do + k ⊗ dslice) (λ k, so + k ⊗ sslice) drow srow
    (width Region) (height Region) s) as (r & s1 & E & [->|(e & ->)] & Hm); unfold finished.
  - rewrite (bind_ok E). destruct (command_returns false 0 0 id s1) as (r2 & s2 & E2 & Hr2). unfold pfnEventsWait. rewrite E2.
    exists r2, (run_pending s2). split_and!; [done|naive_solver|]. intros ->. apply command_eventually in E2.
    change (mem (run_pending s2)) with (eventually s2). rewrite E2. unfold id. rewrite Hm by done. unfold eventually. by rewrite run_pending_nil.
  - rewrite (bind_err E). by eexists _, _.
Qed.

Context (Hdst : side_ok DstOffset drow dslice Region) (Hsrc : side_ok SrcOffset srow sslice Region).

Lemma side_no_wrap o row slice k : side_ok o row slice Region → 0 ≤ width Region → 0 ≤ height Region → 0 ≤ k < depth Region →
  row ⊗ y o = row * y o ∧ slice ⊗ z o = slice * z o ∧ k ⊗ slice = k * slice.
Proof.
  intros [(? & ? & ?) ? ? (? & ? & ?)] ? ? ?. assert (0 ≤ row) by lia.
  assert (0 ≤ row * height Region) by (apply Z.mul_nonneg_nonneg; lia).
  assert (0 ≤ row * y o) by (apply Z.mul_nonneg_nonneg; lia). assert (0 ≤ slice * z o) by (apply Z.mul_nonneg_nonneg; lia).
  assert (0 ≤ k * slice) by (apply Z.mul_nonneg_nonneg; lia).
  assert (k * slice ≤ depth Region * slice) by (apply Z.mul_le_mono_nonneg_r; lia).
  rewrite !u64_small; unfold in_u64; lia.
Qed.

Lemma elem_of_copied_rows v : 0 < width Region → v ∈ copied_rows ↔
  ∃ j k, 0 ≤ j < height Region ∧ 0 ≤ k < depth Region ∧ v.1 = to 0 j k ∧ v.2 = from 0 j k.
Proof.
  intros Hw. unfold copied_rows. rewrite list_elem_of_bind. unfold rows. split.
  - intros (k & (j & -> & Hj%elem_of_seqZ)%list_elem_of_fmap & Hk%elem_of_seqZ). exists j, k.
    destruct (side_no_wrap DstOffset drow dslice k Hdst) as (-> & -> & ->); [lia..|].
    destruct (side_no_wrap SrcOffset srow sslice k Hsrc) as (-> & -> & ->); [lia..|].
    unfold to, from, address. simpl. split_and!; lia.
  - intros (j & k & Hj & Hk & E1 & E2). exists k. split; [|apply elem_of_seqZ; lia]. apply list_elem_of_fmap.
    exists j. split; [|apply elem_of_seqZ; lia].
    destruct (side_no_wrap DstOffset drow dslice k Hdst) as (-> & -> & ->); [lia..|].
    destruct (side_no_wrap SrcOffset srow sslice k Hsrc) as (-> & -> & ->); [lia..|].
    destruct v. unfold to, from, address in *. simpl in *. f_equal; lia.
Qed.

Lemma in_row i0 v a : in_range (to 0 i0 v) (width Region) a = true → ∃ i, 0 ≤ i < width Region ∧ a = to i i0 v.
Proof. intros Hr. ranges. exists (a - to 0 i0 v). unfold to, address in *. lia. Qed.

(** C20: A rectangular copy.  Region and pitches permitting (rows and slices do not
    overlap, products do not wrap, source and destination are apart), when the call
    succeeds and the queue has finished, every byte of the region is the
    corresponding byte of the source, blocking or not, and no other byte is
    changed. *)
Theorem san_rect_copy_exact s (Hp : pending s = [])
    (Happart : ∀ i j k i' j' k', in_region Region i j k → in_region Region i' j' k' → from i j k ≠ to i' j' k') :
  ∃ r s', finished (EnqueueMemCopyRectHelper pSrc pDst SrcOffset DstOffset Region
                      SrcRowPitch SrcSlicePitch DstRowPitch DstSlicePitch Blocking) s = Ret (r, s') ∧ r ≠ Exit ∧
    (r = Ok () →
       (∀ i j k, in_region Region i j k → mem s' (to i j k) = mem s (from i j k)) ∧
       (∀ a, (∀ i j k, in_region Region i j k → to i j k ≠ a) → mem s' a = mem s a)).
Proof.
  destruct (rect_helper_eventually s Hp) as (r & s' & E & Hne & Hm). exists r, s'. split_and!; [done..|].
  intros Hok. rewrite (Hm Hok). assert (∀ i j k, to i j k = to 0 j k + i) as Hto by (intros; unfold to, address; lia).
  assert (∀ i j k, from i j k = from 0 j k + i) as Hfrom by (intros; unfold from, address; lia). split.
  - intros i j k (Hi & Hj & Hk). rewrite Hto, Hfrom. apply (copies_inside _ _ _ (to 0 j k, from 0 j k)); [done| | |].
    + apply elem_of_copied_rows; [lia|]. by exists j, k.
    + intros [d e] (j' & k' & Hj' & Hk' & E1 & E2)%elem_of_copied_rows Hr; [|lia]. simpl in *. subst d e.
      apply in_row in Hr as (i' & Hi' & Er). rewrite <-Hto in Er.
      destruct (address_inj pDst DstOffset drow dslice Region i j k i' j' k' Hdst) as (_ & -> & ->); done.
    + intros [d e] (j' & k' & Hj' & Hk' & E1 & _)%elem_of_copied_rows; [|lia]. simpl in *. subst d.
      destruct (in_range _ _ _) eqn:Er; [|done]. apply in_row in Er as (i' & Hi' & Er). rewrite <-Hfrom in Er.
      by apply (Happart i j k i' j' k') in Er.
  - intros a Ha. destruct (decide (0 < width Region)) as [Hw|Hw].
    + apply copies_outside. intros [d e] (j & k & Hj & Hk & E1 & _)%elem_of_copied_rows; [|done]. simpl in *. subst d.
      destruct (in_range _ _ _) eqn:Er; [|done]. apply in_row in Er as (i & Hi & ->). by destruct (Ha i j k).
    + apply copies_outside. intros v _. destruct (in_range _ _ _) eqn:Er; [|done]. ranges. lia.
Qed.
End copy.
End RectFacts.

(** ** Buffers are arrays of bytes *)
Module BufferProps.

Definition initial (m : memory) : state :=
  {| layer := Memory.initial; mem := m; pending := []; buffers := ∅; m_MemBufferMap := ∅; next := 1; calls := 0 |}.

Section refinement.
Context (app : Z → Prop) `{!Driver} `{!Memory.Env} `{!DriverLaws app}.

(** A range of a buffer that is known. *)
Definition part_of (s : state) (h : Z) (b : MemBuffer) (off len : Z) : Prop :=
  known s h b ∧ 0 ≤ off ∧ 0 < len ∧ off + len ≤ Size b.

(** The application waits for its queues between the calls, so that copies of
    the layer never run beside its commands.  Nothing more is expected of a
    process whose release of a buffer fails. *)
Inductive step : state * spec → state * spec → Prop :=
| step_create s σ c flags size Host r s' :
    0 < size < 2 ^ 62 → (Host ≠ 0 → app_range app Host size) → urMemBufferCreate c flags size Host s = Ret (r, s') →
    step (s, σ) (s', match r with Ok h => <[h := initial_content (mem s) c flags size Host]> σ | _ => σ end)
| step_partition s σ h b origin size r s' :
    known s h b → 0 ≤ origin → 0 < size → origin + size < 2 ^ 64 → urMemBufferPartition h origin size s = Ret (r, s') →
    step (s, σ) (s', σ)
| step_retain s σ h b r s' : known s h b → urMemRetain h s = Ret (r, s') → step (s, σ) (s', σ)
| step_release s σ h b s' :
    known s h b → (last_reference b → ∀ h' b' sub, known s h' b' → SubBuffer b' = Some sub → Parent sub ≠ h) →
    urMemRelease h s = Ret (Ok (), s') → step (s, σ) (s', σ)
| step_native s σ h b ro o D d r s' :
    known s h b → window (buffers s) h ro o → device_of b D = mret d → urMemGetNativeHandle h D s = Ret (r, s') →
    step (s, σ) (s', used s s' ro d σ)
| step_write s σ q h b ro o B off len src r s' :
    part_of s h b off len → window (buffers s) h ro o → app_range app src len →
    finished (urEnqueueMemBufferWrite q h B off len src) s = Ret (r, s') →
    step (s, σ) (s', effect s s' ro (queue_device q) r (o + off) len (λ i, mem s (src + i)) σ)
| step_fill s σ q h b ro o off len pPattern r s' :
    part_of s h b off len → window (buffers s) h ro o →
    finished (urEnqueueMemBufferFill q h pPattern off len) s = Ret (r, s') →
    step (s, σ) (s', effect s s' ro (queue_device q) r (o + off) len (pattern_byte pPattern) σ)
| step_copy s σ q hs hd bs bd rs rd os od soff doff len r s' :
    part_of s hs bs soff len → window (buffers s) hs rs os → part_of s hd bd doff len → window (buffers s) hd rd od →
    finished (urEnqueueMemBufferCopy q hs hd soff doff len) s = Ret (r, s') →
    step (s, σ) (s', copy_effect s s' rs rd (queue_device q) r (os + soff) (od + doff) len σ)
| step_read s σ q h b ro o B off len dst r s' :
    part_of s h b off len → window (buffers s) h ro o → app_range app dst len →
    finished (urEnqueueMemBufferRead q h B off len dst) s = Ret (r, s') →
    step (s, σ) (s', used s s' ro (queue_device q) σ)
| step_map s σ q h b ro o B flags off len r s' :
    part_of s h b off len → window (buffers s) h ro o → queue_context q = Context b →
    finished (urEnqueueMemBufferMap q h B flags off len) s = Ret (r, s') →
    step (s, σ) (s', used s s' ro (queue_device q) σ)
| step_unmap s σ q h b ro o p m r s' :
    known s h b → window (buffers s) h ro o → queue_context q = Context b → Mappings b !! p = Some m →
    finished (urEnqueueMemUnmap q h p) s = Ret (r, s') →
    step (s, σ) (s', effect s s' ro (queue_device q) r (o + Offset m) (MapSize m) (λ i, mem s (p + i)) σ)
(* the host writes to its own memory, mapped or not, and kernels to the handle they were given *)
| step_host s σ m : (∀ h d p n a, current s h d p n → p ≤ a < p + n → m a = mem s a) → step (s, σ) (set_mem m s, σ)
| step_kernel s σ h d p n m : current s h d p n → (∀ a, in_range p n a = false → m a = mem s a) →
    step (s, σ) (set_mem m s, written h 0 n (λ i, Some (m (p + i))) σ).

Lemma san_buffer_initial m : inv app (initial m) ∅.
Proof.
  assert (∀ h b, ¬ known (initial m) h b) as Hk by (intros h b [Hin _]; set_solver).
  constructor; simpl; try done.
  - apply MemoryFacts.inv_initial, stats_config.
  - intros h sl c p n (b & Hb & _). by apply Hk in Hb.
  - intros h sl c h' sl' c' p n n' (b & Hb & _). by apply Hk in Hb.
Qed.

Lemma san_buffer_step x y : inv app x.1 x.2 → step x y → inv app y.1 y.2.
Proof.
  intros Hi Hst. destruct Hst as
    [s σ c flags size Host r s' Hs Hh E|s σ h b og size r s' Hk Ho Hs Hb E|s σ h b r s' Hk E|s σ h b s' Hk Hp E
    |s σ h b ro o D d r s' Hk Hw Hd E|s σ q h b ro o B off len src r s' (Hk & Ho & Hl & Hol) Hw Ha E
    |s σ q h b ro o off len pt r s' (Hk & Ho & Hl & Hol) Hw E
    |s σ q hs hd bs bd rs rd os od soff doff len r s' (Hks & Hos & Hl & Hsl) Hws (Hkd & Hod & _ & Hdl) Hwd E
    |s σ q h b ro o B off len dst r s' (Hk & Ho & Hl & Hol) Hw Ha E|s σ q h b ro o B fl off len r s' (Hk & Ho & Hl & Hol) Hw Hq E
    |s σ q h b ro o p m r s' Hk Hw Hq Hm E|s σ m Hm|s σ h d p n m Hc Hm]; simpl in Hi |- *.
  - destruct (san_create_ok app s σ c flags size Host Hi Hs Hh) as (r' & s1 & E' & _ & Hr). rewrite E in E'. simplify_eq.
    destruct r' as [h|e|]; [|done..]. by destruct Hr as (_ & ? & _).
  - destruct (window_exists app s σ h b Hi Hk) as (ro & o & Hw).
    pose proof (partition_ok app s σ h b ro o og size Hi Hk Hw Ho Hs Hb) as Hr. destruct (Size b <? og + size); [|destruct Hr as (s1 & Hr & Hi' & _)];
      rewrite E in Hr; by simplify_eq.
  - destruct (san_retain_ok app s σ h b Hi Hk) as (s1 & E' & Hi'). rewrite E in E'. by simplify_eq.
  - destruct (san_release_ok app s σ h b Hi Hk Hp) as (r' & s1 & E' & Hr). rewrite E in E'. simplify_eq. by apply Hr.
  - unfold urMemGetNativeHandle, with_buffer in E. rewrite decide_True in E by apply Hk.
    destruct (getHandle_ok app s σ h b ro o D d Hi Hk Hw Hd) as (r' & s1 & E' & _ & Hi' & _). rewrite E in E'. by simplify_eq.
  - destruct (san_write_ok app s σ h b ro o q B off len src Hi Hk Hw) as (r' & s1 & E' & _ & Hi'); [lia..|done|]. rewrite E in E'. by simplify_eq.
  - destruct (san_fill_ok app s σ h b ro o q off len pt Hi Hk Hw) as (r' & s1 & E' & _ & Hi'); [lia..|]. rewrite E in E'. by simplify_eq.
  - destruct (san_copy_ok app s σ hs hd bs bd rs rd os od q soff doff len Hi Hks Hws Hkd Hwd) as (r' & s1 & E' & _ & Hi'); [lia..|].
    rewrite E in E'. by simplify_eq.
  - destruct (san_read_ok app s σ h b ro o q B off len dst Hi Hk Hw) as (r' & s1 & E' & _ & Hi' & _); [lia..|done|]. rewrite E in E'. by simplify_eq.
  - destruct (san_map_ok app s σ h b ro o q B fl off len Hi Hk Hw Hq) as (r' & s1 & E' & _ & Hi' & _); [lia..|]. rewrite E in E'. by simplify_eq.
  - destruct (san_unmap_ok app s σ h b ro o q p m Hi Hk Hw Hq Hm) as (r' & s1 & E' & _ & Hi'). rewrite E in E'. by simplify_eq.
  - by apply inv_memory_same.
  - apply (inv_write app s σ h d p n); [done..|lia|lia|by rewrite Z.add_0_r|]. intros i v _ [= <-]. f_equal. lia.
Qed.

Lemma san_buffer_reachable m s σ : rtc step (initial m, ∅) (s, σ) → inv app s σ.
Proof. intros Hs. eapply (rtc_invariant step (λ x, inv app x.1 x.2)) in Hs; eauto using san_buffer_step, san_buffer_initial. Qed.

(** C5: Buffers are arrays of bytes, in an application that waits for its queue
    after every command ([migration_overtakes_pending] is what happens
    otherwise), that releases a buffer no sooner than its sub-buffers
    ([release_parent_dangles]) and stops when a release fails
    ([failed_allocation_reported]), with buffers smaller than 2^62 bytes and
    non-empty ranges within them, sane redzone options, counters that start at
    zero if statistics are printed, and a driver whose chunks lie apart
    ([DriverLaws]).  Whatever
    is then done to buffers and sub-buffers on whichever devices, and whichever
    driver calls fail: a part of a buffer that is known stands for a range of one
    array, and
    - no call on it fails an assertion, touches memory that is gone or ends the
      process; it returns success or an error;
    - after a read that succeeds, the destination has the bytes of the array;
    - the native handle for a device points to the bytes of the array;
    - so does the pointer a map returns.
    A command that fails leaves the array as it is except for its destination. *)
Theorem asan_buffers_refine m s σ q h b off len (Hs : rtc step (initial m, ∅) (s, σ)) (Hp : part_of s h b off len) :
  ∃ ro o, window (buffers s) h ro o ∧
    (∀ B dst, app_range app dst len → ∃ r s', finished (urEnqueueMemBufferRead q h B off len dst) s = Ret (r, s') ∧ r ≠ Exit ∧
       (r = Ok () → ∃ c, used s s' ro (queue_device q) σ !! ro = Some c ∧ agrees c (o + off) len (λ i, mem s' (dst + i)))) ∧
    (∀ B src, app_range app src len → ∃ r s', finished (urEnqueueMemBufferWrite q h B off len src) s = Ret (r, s') ∧ r ≠ Exit) ∧
    (∀ d, ∃ r s', urMemGetNativeHandle h (Some d) s = Ret (r, s') ∧ r ≠ Exit ∧
       ∀ p, r = Ok p → ∃ c, used s s' ro d σ !! ro = Some c ∧ agrees c (o + off) len (λ i, mem s' (p + off + i))) ∧
    (queue_context q = Context b → ∀ B flags, ∃ r s', finished (urEnqueueMemBufferMap q h B flags off len) s = Ret (r, s') ∧ r ≠ Exit ∧
       ∀ p, r = Ok p → ∃ c, used s s' ro (queue_device q) σ !! ro = Some c ∧ agrees c (o + off) len (λ i, mem s' (p + i))) ∧
    (queue_context q = Context b → ∀ p mp, Mappings b !! p = Some mp →
       ∃ r s', finished (urEnqueueMemUnmap q h p) s = Ret (r, s') ∧ r ≠ Exit).
Proof.
  apply san_buffer_reachable in Hs as Hi. destruct Hp as (Hk & Ho & Hl & Hol).
  destruct (window_exists app s σ h b Hi Hk) as (ro & o & Hw). exists ro, o. split_and!; [done|..].
  - intros B dst Ha. destruct (san_read_ok app s σ h b ro o q B off len dst Hi Hk Hw) as (r & s' & E & Hne & _ & _ & Hr); [lia..|done|]. by exists r, s'.
  - intros B src Ha. destruct (san_write_ok app s σ h b ro o q B off len src Hi Hk Hw) as (r & s' & E & Hne & _); [lia..|done|]. by exists r, s'.
  - intros d. unfold urMemGetNativeHandle, with_buffer. rewrite decide_True by apply Hk.
    destruct (getHandle_ok app s σ h b ro o (Some d) d Hi Hk Hw eq_refl) as (r & s' & E & _ & Hi' & _ & [(e & ->)|(p & n & -> & Hc & Ho' & Hn)]);
      eexists _, s'; split_and!; try done. intros p' [= <-].
    pose proof Hc as (br & Hbr & Hsub & Hlast & ->).
    destruct (bo_content _ _ _ _ _ (inv_known app s' _ ro br Hi' Hbr) Hsub) as (c & Hσ & Ha). rewrite Hlast in Ha.
    exists c. split; [done|]. intros i v Hi0 Hv. replace (p + o + off + i) with (p + (o + off + i)) by lia. apply Ha; [lia|done].
  - intros Hq B fl. destruct (san_map_ok app s σ h b ro o q B fl off len Hi Hk Hw Hq) as (r & s' & E & Hne & _ & Hr); [lia..|].
    exists r, s'. split_and!; [done..|]. intros p Hrp. by apply Hr.
  - intros Hq p mp Hm. destruct (san_unmap_ok app s σ h b ro o q p mp Hi Hk Hw Hq Hm) as (r & s' & E & Hne & _). by exists r, s'.
Qed.
End refinement.
End BufferProps.

(** ** Examples

    Two devices without shadow constraints, an application whose memory ends at
    64 KiB and a driver that allocates above everything allocated so far and fails
    the call numbered [bad]. *)
Module BufferSamples.
Import AsanInterceptor.MapFacts AsanInterceptor.LayoutFacts AsanInterceptor.MemoryFacts RectFacts BufferProps.

Definition two_devices : Memory.Env := {|
  Memory.MinRZSize := 16; Memory.MaxQuarantineSizeMB := 0; Memory.HaltOnError := true;
  Memory.DeviceList := λ _, [0%nat; 1%nat]; Memory.DeviceAlignment := λ _, 64; Memory.is_pvc := λ _, false;
  Memory.parent_device := λ _, None; Memory.IsSupportSharedSystemUSM := λ _, false;
  Memory.PrintStats := true;
  Memory.new_stats := λ _, {| Memory.UsmMalloced := 0; Memory.UsmMallocedRedzones := 0; Memory.UsmFreed := 0 |};
  Memory.pfnFree := λ _, UR_RESULT_SUCCESS |}.
#[local] Existing Instance two_devices.
Definition low (a : Z) : Prop := a < 65536.
(** The first address above the allocations. *)
Definition above (l : Memory.state) : Z :=
  foldr (λ e a, Z.max a (e.1 + size_of (Memory.objects l) e.2)) 65536 (Memory.m_AllocationMap l).
Definition next_chunk (l : Memory.state) (n : Z) : ur_result_t * Z :=
  let p := above l + (- above l) `mod` 16 in
  if p + n <? 2 ^ 64 then (UR_RESULT_SUCCESS, p) else (UR_RESULT_ERROR_OUT_OF_HOST_MEMORY, 0).
Definition failing_call (bad : nat) : Driver := {|
  result_of := λ n, if decide (n = bad) then UR_RESULT_ERROR_DEVICE_LOST else UR_RESULT_SUCCESS;
  garbage := λ _ _, 238;
  pfnAlloc := λ n l _ _ size,
    if decide (n = bad) then (UR_RESULT_ERROR_OUT_OF_DEVICE_MEMORY, 0) else next_chunk l size |}.
(** A driver no call of which fails in the examples. *)
Definition reliable : Driver := failing_call 1000.

Lemma above_spec l : 65536 ≤ above l ∧ Forall (λ e, e.1 + size_of (Memory.objects l) e.2 ≤ above l) (Memory.m_AllocationMap l).
Proof.
  unfold above. induction (Memory.m_AllocationMap l) as [|e m [IH1 IH2]]; [split; [done|by apply Forall_nil]|]. cbn [foldr].
  split; [lia|]. constructor; [lia|]. eapply Forall_impl; [exact IH2|]. simpl. intros. lia.
Qed.

#[local] Instance failing_call_laws bad : @DriverLaws two_devices (failing_call bad) low.
Proof.
  constructor.
  - exists 4. split; [lia|done].
  - done.
  - intros k l D t n p _ Hn E. simpl in E. case_decide; [done|]. unfold next_chunk in E.
    destruct (above_spec l) as [Ha Hall]. pose proof (Z.mod_pos_bound (- above l) 16 ltac:(lia)) as Hm.
    case_match eqn:Hb; [|done]. injection E as <-. split_and!; [lia| |lia| |by destruct D, t|unfold low; intros; lia].
    + apply Z.mod_divide; [done|]. exists (- (- above l / 16)). pose proof (Z.div_mod (- above l) 16). lia.
    + eapply Forall_impl; [exact Hall|]. intros e He. right. simpl in He. lia.
Defined.

(** Running a sequence of calls. *)
Definition outcome_of {A} (o : outcome (result A * state)) : option (result A) := match o with Ret (r, _) => Some r | _ => None end.
Definition after {A} (o : outcome (result A * state)) : state := match o with Ret (_, s) => s | _ => initial id end.
Lemma runs {A} (o : outcome (result A * state)) r : outcome_of o = Some r → o = Ret (r, after o).
Proof. destruct o as [[]| |]; [|done..]. by intros [= ->]. Defined.

(** A buffer of 8 bytes, written by a queue of the first device. *)
Definition first_queue := {| queue_context := 0; queue_device := 0 |}.
Definition second_queue := {| queue_context := 0; queue_device := 1 |}.
Section samples.
#[local] Existing Instance reliable.
Definition new_buffer : state := after (urMemBufferCreate 0 0 8 0 (initial id)).
Definition written_buffer : state := after (finished (urEnqueueMemBufferWrite first_queue 1 true 0 8 100) new_buffer).
Definition buffer_1 (s : state) : MemBuffer :=
  default {| Allocations := ∅; Mappings := ∅; Context := 0; LastSyncedDevice := None; Size := 0; HostPtr := 0;
             SubBuffer := None; RefCount := 0 |} (buffers s !! 1).
Lemma new_buffer_known : part_of new_buffer 1 (buffer_1 new_buffer) 0 8 ∧ window (buffers new_buffer) 1 1 0.
Proof. split; [split_and!; by vm_compute|]. eapply window_root; by vm_compute. Defined.
Lemma written_buffer_known : part_of written_buffer 1 (buffer_1 written_buffer) 0 8.
Proof. split_and!; by vm_compute. Defined.
Lemma written_buffer_reachable : ∃ σ, rtc (step low) (initial id, ∅) (written_buffer, σ).
Proof.
  eexists. eapply rtc_l.
  - eapply (step_create low _ _ 0 0 8 0); [lia|done|]. apply (runs _ (Ok 1)). by vm_compute.
  - apply rtc_once. destruct new_buffer_known as [Hp Hw].
    eapply (step_write low _ _ first_queue 1 _ 1 0 true 0 8 100); [exact Hp|exact Hw|unfold app_range, low; intros; lia|].
    apply (runs _ (Ok ())). by vm_compute.
Defined.

(** Reading on the second device what was written on the first. *)
Lemma asan_buffers_refine_witness :
  ∃ σ, rtc (step low) (initial id, ∅) (written_buffer, σ) ∧ part_of written_buffer 1 (buffer_1 written_buffer) 0 8 ∧
  ∃ ro o, window (buffers written_buffer) 1 ro o ∧ ∀ B, ∃ r s',
    finished (urEnqueueMemBufferRead second_queue 1 B 0 8 300) written_buffer = Ret (r, s') ∧ r ≠ Exit ∧
    (r = Ok () → ∃ c, used written_buffer s' ro 1 σ !! ro = Some c ∧ agrees c (o + 0) 8 (λ i, mem s' (300 + i))).
Proof.
  destruct written_buffer_reachable as [σ Hs]. pose proof written_buffer_known as Hp. exists σ. split; [exact Hs|]. split; [exact Hp|].
  destruct (asan_buffers_refine low id written_buffer σ second_queue 1 (buffer_1 written_buffer) 0 8 Hs Hp) as (ro & o & Hw & Hr & _).
  exists ro, o. split; [exact Hw|]. intros B. apply (Hr B 300). unfold app_range, low. intros. lia.
Defined.

(** A square of 2 by 2 bytes from rows of 4 bytes to rows of 8. *)
Definition square : region := {| width := 2; height := 2; depth := 1 |}.
Definition corner : rect := {| x := 1; y := 1; z := 0 |}.
Lemma square_from i j k : from 100 corner square 4 0 i j k = 105 + k * 8 + j * 4 + i.
Proof. reflexivity. Defined.
Lemma square_to i j k : to 200 corner square 8 0 i j k = 209 + k * 16 + j * 8 + i.
Proof. reflexivity. Defined.
Lemma square_region i j k : in_region square i j k ↔ 0 ≤ i < 2 ∧ 0 ≤ j < 2 ∧ 0 ≤ k < 1.
Proof. reflexivity. Defined.
Lemma san_rect_copy_exact_witness :
  ∃ r s', finished (EnqueueMemCopyRectHelper 100 200 corner corner square 4 0 8 0 false) (initial id) = Ret (r, s') ∧ r ≠ Exit ∧
    (r = Ok () → mem s' 209 = 105 ∧ mem s' 218 = 110 ∧ mem s' 211 = 211).
Proof.
  destruct (san_rect_copy_exact 100 200 corner corner square 4 0 8 0 false) with (s := initial id) as (r & s' & E & Hne & Hr).
  - by constructor; split_and?; vm_compute.
  - by constructor; split_and?; vm_compute.
  - reflexivity.
  - intros i j k i' j' k'. rewrite !square_region, square_from, square_to. lia.
  - exists r, s'. split; [exact E|]. split; [exact Hne|]. intros Hok. destruct (Hr Hok) as [Hin Hout].
    split; [apply (Hin 0 0 0), square_region; lia|]. split; [apply (Hin 1 1 0), square_region; lia|].
    apply (Hout 211). intros i j k. rewrite square_region, square_to. lia.
Defined.
End samples.

(** *** Where the code does not do what it means to *)
Definition result_and {A B} (f : state → B) (o : outcome (result A * state)) : option (result A * B) :=
  match o with Ret (r, s) => Some (r, f s) | _ => None end.
(** A call whose error the application notices and goes on. *)
Definition ignoring {A} (m : M A) : M unit := λ s,
  match m s with Ret (Err _, s') | Ret (Ok _, s') => Ret (Ok (), s') | Ret (Exit, s') => Ret (Exit, s') | Throw e => Throw e | Undefined => Undefined end.

(** A write that is enqueued and not waited for, and a read on the other device
    that is ordered after it: the layer brings the second device up to date with a
    queue of its own, at once.  The read gets what was there before the write. *)
Definition overtaking `{D : Driver} : M unit :=
  h ← urMemBufferCreate 0 0 8 0;
  _ ← urEnqueueMemBufferWrite first_queue h true 0 8 100;
  _ ← urEnqueueMemBufferWrite first_queue h false 0 8 200;
  urEnqueueMemBufferRead second_queue h true 0 8 300.
Example migration_overtakes_pending :
  result_and (λ s, (mem s 300, mem s 307)) (overtaking (D := reliable) (initial id)) = Some (Ok (), (100, 107)).
Proof. by vm_compute. Qed.

(** The device allocation of a buffer fails.  The write reports that; the release of
    the buffer frees the null pointer that has been recorded, which is reported as
    a bad free and ends the process. *)
Definition after_failed_allocation `{D : Driver} : M unit :=
  h ← urMemBufferCreate 0 0 8 0;
  _ ← ignoring (urEnqueueMemBufferWrite first_queue h true 0 8 100);
  urMemRelease h.
Example failed_allocation_reported :
  result_and (λ s, length (Memory.reports (layer s))) (after_failed_allocation (D := failing_call 0) (initial id)) = Some (Exit, 1%nat).
Proof. by vm_compute. Qed.

(** The copy from the host pointer fails.  The first read reports that; the second
    finds the allocation in place and reads what the allocation happens to hold. *)
Definition after_failed_copy `{D : Driver} : M unit :=
  h ← urMemBufferCreate 0 UR_MEM_FLAG_USE_HOST_POINTER 8 100;
  _ ← ignoring (urEnqueueMemBufferRead first_queue h true 0 8 300);
  urEnqueueMemBufferRead first_queue h true 0 8 300.
Example failed_host_copy_lost :
  result_and (λ s, (mem s 300, mem s 307)) (after_failed_copy (D := failing_call 1) (initial id)) = Some (Ok (), (238, 238)).
Proof. by vm_compute. Qed.

(** The parent of a sub-buffer is released.  Its allocations are freed (object 0);
    the read through the sub-buffer allocates copies for the second device and for
    the host (objects 1 and 2), which nothing will free, and fills them from the
    memory that is gone. *)
Definition after_parent `{D : Driver} : M unit :=
  h ← urMemBufferCreate 0 0 8 0;
  _ ← urEnqueueMemBufferWrite first_queue h true 0 8 100;
  sub ← urMemBufferPartition h 4 4;
  _ ← urMemRelease h;
  urEnqueueMemBufferRead second_queue sub true 0 4 300.
Example release_parent_dangles :
  result_and (λ s, (Alloc.IsReleased <$> Memory.objects (layer s), bool_decide (1 ∈ m_MemBufferMap s)))
    (after_parent (D := reliable) (initial id)) = Some (Ok (), ([true; false; false], false)).
Proof. by vm_compute. Qed.
End BufferSamples.
