(* ===== verification/CudaMemory.v ===== *)
(** * Memory objects of the CUDA adapter
    (adapters/cuda/memory.{hpp,cpp}, the buffer commands of
    adapters/cuda/enqueue.cpp)

    A buffer has one allocation per device of its context, made when it is first
    needed, or lives in host memory that every device sees.  [Last...] and
    [HaveMigrated...] say which copies are current; kernels copy the newest one
    to their device first.  [Mem] has the operations, [MemSpec] the abstract
    buffers they implement, [MemFacts] and [MemProps] the proofs.

    Commands take effect when they are enqueued: the ordering of commands is the
    caller's business (events) and is not modelled here.  Addresses are those of
    the unified virtual address space; the model does not reuse the address of
    freed memory. *)
From stdpp Require Import base numbers list gmap relations.
From S2P Require Import Prelude UrUtil FlatMemory.
Import Util.
Local Open Scope Z_scope.

(** ** The memory commands of the driver *)
(** [cuMemsetD8Async], [cuMemsetD16Async] and [cuMemsetD32Async]: [N] words. *)
Definition cuMemset (dst : Z) (word : list Z) (N : Z) (m : memory) : memory :=
  let w := Z.of_nat (length word) in
  λ a, if in_range dst (w * N) a then nth (Z.to_nat ((a - dst) `mod` w)) word 0 else m a.

(** [cuMemsetD2D8Async] and its kin, for rows that are one word wide. *)
Definition cuMemsetD2D (dst Pitch : Z) (word : list Z) (Height : Z) (m : memory) : memory :=
  let w := Z.of_nat (length word) in
  λ a, if in_range dst (Pitch * Height) a && ((a - dst) `mod` Pitch <? w)
       then nth (Z.to_nat ((a - dst) `mod` Pitch)) word 0 else m a.

(** ** Data *)
Inductive AllocMode := Classic | UseHostPtr | CopyIn | AllocHostPtr.

#[export] Instance AllocMode_eq_dec : EqDecision AllocMode.
Proof. solve_decision. Defined.

Record ur_queue := { queue_id : Z; getDevice : nat }.

(** [BufferMem::BufferMap]; [MapMem] is the address of the memory it owns. *)
Record BufferMap := { MapSize : Z; MapOffset : Z; MapFlags : Z; MapMem : option Z }.

(** [ur_mem_handle_t_] with its [BufferMem]; the null pointer is 0. *)
Record ur_mem := {
  Ptrs : list Z;
  Parent : option Z;
  HostPtr : Z;
  Size : Z;
  PtrToBufferMap : list (Z * BufferMap);
  MemAllocMode : AllocMode;
  HostPtrRegisteredByUR : bool;
  MemFlags : Z;
  RefCount : Z;
  HaveMigratedToDeviceSinceLastWrite : list bool;
  LastQueueWritingToMemObj : option ur_queue }.

(** [regions] are the allocations made so far, [freed] the pointers given back. *)
Record state := {
  mem : memory;
  regions : list (Z * Z);
  freed : list Z;
  mems : gmap Z ur_mem;
  queue_refs : gmap Z Z;
  next_handle : Z;
  calls : nat }.

(** ** The CUDA driver and UMF, by the number of the call *)
Inductive registration := Registered | AlreadyRegistered | NotRegistered (e : ur_result_t).

Class CudaDriver := {
  cu_error : nat → option ur_result_t;
  cuMemHostRegister : nat → registration;
  cu_malloc : list (Z * Z) → Z → Z;
  cuMemHostGetDevicePointer : Z → Z;
  cu_error_fails n : cu_error n ≠ Some UR_RESULT_SUCCESS;
  register_fails n : cuMemHostRegister n ≠ NotRegistered UR_RESULT_SUCCESS }.

(** ** Operations *)
Module Mem.

(** A returned error and an exception that leaves the function are the same. *)
Definition M (A : Type) : Type := state → (ur_result_t + A) * state.
#[export] Instance M_ret : MRet M := λ A a s, (inr a, s).
#[export] Instance M_bind : MBind M := λ A B f m s,
  match m s with (inr a, s') => f a s' | (inl e, s') => (inl e, s') end.
Definition throw {A} (e : ur_result_t) : M A := λ s, (inl e, s).
Definition UR_ASSERT (b : bool) (e : ur_result_t) : M unit := if b then mret () else throw e.
Definition when (b : bool) (m : M unit) : M unit := if b then m else mret ().
(** [try { m } catch (ur_result_t) { h }], going on with the error. *)
Definition on_error {A} (m : M A) (h : M unit) : M A := λ s,
  match m s with
  | (inl e, s') => (inl e, (h s').2)
  | r => r
  end.
(** The result of a call, as a value. *)
Definition result (m : M unit) : M ur_result_t := λ s,
  match m s with (inl e, s') => (inr e, s') | (inr _, s') => (inr UR_RESULT_SUCCESS, s') end.
Definition ignore {A} (m : M A) : M unit := λ s, (inr (), (m s).2).

Fixpoint forM {A} (l : list A) (f : A → M unit) : M unit :=
  match l with [] => mret () | x :: l' => _ ← f x; forM l' f end.

Definition set_mem (f : memory → memory) (s : state) : state :=
  {| mem := f (mem s); regions := regions s; freed := freed s; mems := mems s;
     queue_refs := queue_refs s; next_handle := next_handle s; calls := calls s |}.
Definition set_mems (f : gmap Z ur_mem → gmap Z ur_mem) (s : state) : state :=
  {| mem := mem s; regions := regions s; freed := freed s; mems := f (mems s);
     queue_refs := queue_refs s; next_handle := next_handle s; calls := calls s |}.
Definition add_queue_refs (d q : Z) (s : state) : state :=
  {| mem := mem s; regions := regions s; freed := freed s; mems := mems s;
     queue_refs := <[q := default 0 (queue_refs s !! q) + d]> (queue_refs s);
     next_handle := next_handle s; calls := calls s |}.
Definition add_region (p n : Z) (s : state) : state :=
  {| mem := mem s; regions := (p, n) :: regions s; freed := freed s; mems := mems s;
     queue_refs := queue_refs s; next_handle := next_handle s; calls := calls s |}.
Definition free_region (p : Z) (s : state) : state :=
  {| mem := mem s; regions := regions s; freed := p :: freed s; mems := mems s;
     queue_refs := queue_refs s; next_handle := next_handle s; calls := calls s |}.
Definition called (s : state) : state :=
  {| mem := mem s; regions := regions s; freed := freed s; mems := mems s;
     queue_refs := queue_refs s; next_handle := next_handle s; calls := S (calls s) |}.
Definition new_handle (m : ur_mem) (s : state) : state :=
  {| mem := mem s; regions := regions s; freed := freed s; mems := <[next_handle s := m]> (mems s);
     queue_refs := queue_refs s; next_handle := next_handle s + 1; calls := calls s |}.
Definition modify (f : state → state) : M unit := λ s, (inr (), f s).

(** A handle that is not in the table is dangling: the program has gone wrong. *)
Definition get (h : Z) : M ur_mem := λ s,
  match mems s !! h with Some m => (inr m, s) | None => (inl UR_RESULT_ERROR_INVALID_MEM_OBJECT, s) end.
Definition put (h : Z) (m : ur_mem) : M unit := modify (set_mems <[h := m]>).

Definition with_Ptrs (l : list Z) (m : ur_mem) : ur_mem :=
  {| Ptrs := l; Parent := Parent m; HostPtr := HostPtr m; Size := Size m; PtrToBufferMap := PtrToBufferMap m;
     MemAllocMode := MemAllocMode m; HostPtrRegisteredByUR := HostPtrRegisteredByUR m; MemFlags := MemFlags m;
     RefCount := RefCount m; HaveMigratedToDeviceSinceLastWrite := HaveMigratedToDeviceSinceLastWrite m;
     LastQueueWritingToMemObj := LastQueueWritingToMemObj m |}.
Definition with_registered (m : ur_mem) : ur_mem :=
  {| Ptrs := Ptrs m; Parent := Parent m; HostPtr := HostPtr m; Size := Size m; PtrToBufferMap := PtrToBufferMap m;
     MemAllocMode := MemAllocMode m; HostPtrRegisteredByUR := true; MemFlags := MemFlags m;
     RefCount := RefCount m; HaveMigratedToDeviceSinceLastWrite := HaveMigratedToDeviceSinceLastWrite m;
     LastQueueWritingToMemObj := LastQueueWritingToMemObj m |}.
Definition with_maps (l : list (Z * BufferMap)) (m : ur_mem) : ur_mem :=
  {| Ptrs := Ptrs m; Parent := Parent m; HostPtr := HostPtr m; Size := Size m; PtrToBufferMap := l;
     MemAllocMode := MemAllocMode m; HostPtrRegisteredByUR := HostPtrRegisteredByUR m; MemFlags := MemFlags m;
     RefCount := RefCount m; HaveMigratedToDeviceSinceLastWrite := HaveMigratedToDeviceSinceLastWrite m;
     LastQueueWritingToMemObj := LastQueueWritingToMemObj m |}.
Definition with_RefCount (n : Z) (m : ur_mem) : ur_mem :=
  {| Ptrs := Ptrs m; Parent := Parent m; HostPtr := HostPtr m; Size := Size m; PtrToBufferMap := PtrToBufferMap m;
     MemAllocMode := MemAllocMode m; HostPtrRegisteredByUR := HostPtrRegisteredByUR m; MemFlags := MemFlags m;
     RefCount := n; HaveMigratedToDeviceSinceLastWrite := HaveMigratedToDeviceSinceLastWrite m;
     LastQueueWritingToMemObj := LastQueueWritingToMemObj m |}.
Definition with_current (l : list bool) (q : option ur_queue) (m : ur_mem) : ur_mem :=
  {| Ptrs := Ptrs m; Parent := Parent m; HostPtr := HostPtr m; Size := Size m; PtrToBufferMap := PtrToBufferMap m;
     MemAllocMode := MemAllocMode m; HostPtrRegisteredByUR := HostPtrRegisteredByUR m; MemFlags := MemFlags m;
     RefCount := RefCount m; HaveMigratedToDeviceSinceLastWrite := l; LastQueueWritingToMemObj := q |}.

Definition ptr (m : ur_mem) (d : nat) : Z := nth d (Ptrs m) 0.
Definition isSubBuffer (m : ur_mem) : bool := bool_decide (is_Some (Parent m)).

Section driver.
(** The context has [ndev] devices; device [d] is its [d]-th. *)
Context `{CudaDriver} (ndev : nat).

(** [UR_CHECK_ERROR] of a driver call. *)
Definition cu : M unit := λ s,
  match cu_error (calls s) with Some e => (inl e, called s) | None => (inr (), called s) end.

(** An allocation; its failure is the call's. *)
Definition malloc (n : Z) : M Z := λ s,
  match cu s with
  | (inl e, s') => (inl e, s')
  | (inr _, s') => let p := cu_malloc (regions s') n in (inr p, add_region p n s')
  end.
Definition umfFree (p : Z) : M unit := _ ← cu; modify (free_region p).

Definition copy_async (dst src n : Z) : M unit := _ ← cu; modify (set_mem (memcpy dst src n)).

Definition allocateMemObjOnDeviceIfNeeded (h : Z) (d : nat) : M unit :=
  Buffer ← get h;
  if negb (ptr Buffer d =? 0) then mret () else
  match MemAllocMode Buffer with
  | AllocHostPtr =>
      _ ← cu; put h (with_Ptrs (<[d := cuMemHostGetDevicePointer (HostPtr Buffer)]> (Ptrs Buffer)) Buffer)
  | UseHostPtr =>
      n ← (λ s, (inr (calls s), called s) : _);
      Buffer ← match cuMemHostRegister n with
               | Registered => _ ← put h (with_registered Buffer); mret (with_registered Buffer)
               | AlreadyRegistered => mret Buffer
               | NotRegistered e => throw e
               end;
      _ ← cu; put h (with_Ptrs (<[d := cuMemHostGetDevicePointer (HostPtr Buffer)]> (Ptrs Buffer)) Buffer)
  | Classic | CopyIn =>
      p ← malloc (Size Buffer); put h (with_Ptrs (<[d := p]> (Ptrs Buffer)) Buffer)
  end.

Definition getPtrWithOffset (h : Z) (d : nat) (Offset : Z) : M Z :=
  _ ← allocateMemObjOnDeviceIfNeeded h d; m ← get h; mret (ptr m d + Offset).
Definition getPtr (h : Z) (d : nat) : M Z := getPtrWithOffset h d 0.

Definition enqueueMigrateBufferToDevice (h : Z) (d : nat) : M unit :=
  Mem ← get h;
  match LastQueueWritingToMemObj Mem with
  | None =>
      if negb (HostPtr Mem =? 0) then p ← getPtr h d; copy_async p (HostPtr Mem) (Size Mem) else mret ()
  | Some q =>
      if negb (getDevice q =? d)%nat
      then p ← getPtr h d; p' ← getPtr h (getDevice q); copy_async p p' (Size Mem)
      else mret ()
  end.

Definition enqueueMigrateMemoryToDeviceIfNeeded (h : Z) (d : nat) : M unit :=
  Mem ← get h;
  if nth d (HaveMigratedToDeviceSinceLastWrite Mem) false then mret () else
  _ ← enqueueMigrateBufferToDevice h d;
  Mem ← get h;
  put h (with_current (<[d := true]> (HaveMigratedToDeviceSinceLastWrite Mem)) (LastQueueWritingToMemObj Mem) Mem).

Definition setLastQueueWritingToMemObj (h : Z) (WritingQueue : ur_queue) : M unit :=
  Mem ← get h;
  _ ← modify (add_queue_refs 1 (queue_id WritingQueue));
  _ ← match LastQueueWritingToMemObj Mem with
      | Some q => modify (add_queue_refs (-1) (queue_id q))
      | None => mret ()
      end;
  put h (with_current (imap (λ d _, bool_decide (d = getDevice WritingQueue)) (HaveMigratedToDeviceSinceLastWrite Mem))
           (Some WritingQueue) Mem).

(** [BufferMem::clear]; the destructor ignores its result. *)
Definition clear (m : ur_mem) : M unit :=
  if isSubBuffer m then mret () else
  match MemAllocMode m with
  | CopyIn | Classic => forM (Ptrs m) (λ DevPtr, when (negb (DevPtr =? 0)) (umfFree DevPtr))
  | UseHostPtr => when (HostPtrRegisteredByUR m) cu
  | AllocHostPtr => umfFree (HostPtr m)
  end.

(** The destructor of a handle, with what it does to the parent of a
    sub-buffer.  A map's own memory goes with it. *)
Definition destroy (release_parent : Z → M unit) (h : Z) : M unit :=
  m ← get h;
  _ ← ignore (clear m);
  _ ← match Parent m with
      | Some p => ignore (release_parent p)
      | None => match LastQueueWritingToMemObj m with
                | Some q => modify (add_queue_refs (-1) (queue_id q))
                | None => mret ()
                end
      end;
  modify (set_mems (delete h)).

Definition release_with (release_parent : Z → M unit) (hMem : Z) : M unit :=
  m ← get hMem;
  let n := u32 (RefCount m - 1) in
  _ ← put hMem (with_RefCount n m);
  if n =? 0 then destroy release_parent hMem else mret ().

(** A sub-buffer is never the parent of another. *)
Definition urMemRelease : Z → M unit := release_with (release_with (λ _, mret ())).
Definition urMemRetain (hMem : Z) : M unit :=
  m ← get hMem;
  _ ← UR_ASSERT (RefCount m >? 0) UR_RESULT_ERROR_INVALID_MEM_OBJECT;
  put hMem (with_RefCount (u32 (RefCount m + 1)) m).

Definition alloc_mode (flags : Z) : AllocMode :=
  if flag flags UR_MEM_FLAG_USE_HOST_POINTER then UseHostPtr
  else if flag flags UR_MEM_FLAG_ALLOC_HOST_POINTER then AllocHostPtr
  else if flag flags UR_MEM_FLAG_ALLOC_COPY_HOST_POINTER then CopyIn
  else Classic.

Definition make_mem (flags : Z) (mode : AllocMode) (HostPtr size : Z) : ur_mem :=
  {| Ptrs := replicate ndev 0; Parent := None; HostPtr := HostPtr; Size := size; PtrToBufferMap := [];
     MemAllocMode := mode; HostPtrRegisteredByUR := false; MemFlags := flags; RefCount := 1;
     HaveMigratedToDeviceSinceLastWrite := replicate ndev false; LastQueueWritingToMemObj := None |}.

(** [pHost] is 0 without properties. *)
Definition urMemBufferCreate (flags size pHost : Z) : M Z :=
  let PerformInitialCopy := flag flags UR_MEM_FLAG_ALLOC_COPY_HOST_POINTER in
  HostPtr ← (if bool_decide (alloc_mode flags = AllocHostPtr) then malloc size else mret pHost);
  h ← (λ s, (inr (next_handle s), new_handle (make_mem flags (alloc_mode flags) HostPtr size) s) : _);
  _ ← on_error
        (when (PerformInitialCopy && negb (HostPtr =? 0))
           (forM (seq 0 ndev) (λ d, p ← getPtr h d; copy_async p HostPtr size)))
        (destroy (λ _, mret ()) h);
  mret h.

(** The sub-buffer constructor copies the parent's [BufferMem], its size included. *)
Definition make_sub (hParent SubBufferOffset : Z) (p : ur_mem) : ur_mem :=
  {| Ptrs := (λ DevPtr, if DevPtr =? 0 then 0 else DevPtr + SubBufferOffset) <$> Ptrs p; Parent := Some hParent;
     HostPtr := if HostPtr p =? 0 then 0 else HostPtr p + SubBufferOffset;
     Size := Size p; PtrToBufferMap := PtrToBufferMap p; MemAllocMode := MemAllocMode p;
     HostPtrRegisteredByUR := false; MemFlags := MemFlags p; RefCount := 1;
     HaveMigratedToDeviceSinceLastWrite := replicate ndev false; LastQueueWritingToMemObj := None |}.

Definition urMemBufferPartition (hBuffer flags origin size : Z) : M Z :=
  b ← get hBuffer;
  _ ← UR_ASSERT (negb (isSubBuffer b)) UR_RESULT_ERROR_INVALID_MEM_OBJECT;
  let flags := if flags =? 0 then UR_MEM_FLAG_READ_WRITE else flags in
  _ ← UR_ASSERT (subBufferFlagsAreLegal (MemFlags b) flags) UR_RESULT_ERROR_INVALID_VALUE;
  _ ← UR_ASSERT (u64 (origin + size) <=? Size b) UR_RESULT_ERROR_INVALID_BUFFER_SIZE;
  _ ← forM (seq 0 ndev) (λ d, _ ← getPtr hBuffer d; mret ());
  b ← get hBuffer;
  h ← (λ s, (inr (next_handle s), new_handle (make_sub hBuffer origin b) s) : _);
  _ ← urMemRetain hBuffer;
  mret h.

(** *** Commands

    [begin]: a stream, the wait list, and the start of the event; [finish]: the
    record of the event and a blocking call's synchronisation. *)
Definition begin (phEvent : bool) : M unit := _ ← cu; _ ← cu; when phEvent cu.
Definition finish (phEvent blocking : bool) : M unit := _ ← when phEvent cu; when blocking cu.

(** The queue a read is moved to when another device wrote last. *)
Definition reading_queue (hQueue : ur_queue) (b : ur_mem) : ur_queue :=
  match LastQueueWritingToMemObj b with
  | Some q => if negb (getDevice q =? getDevice hQueue)%nat then q else hQueue
  | None => hQueue
  end.

Definition urEnqueueMemBufferRead (hQueue : ur_queue) (hBuffer : Z) (blockingRead : bool) (offset size pDst : Z)
    (phEvent : bool) : M unit :=
  b ← get hBuffer;
  _ ← UR_ASSERT (u64 (offset + size) <=? Size b) UR_RESULT_ERROR_INVALID_SIZE;
  let hQueue := reading_queue hQueue b in
  _ ← begin phEvent;
  p ← getPtrWithOffset hBuffer (getDevice hQueue) offset;
  _ ← copy_async pDst p size;
  finish phEvent blockingRead.

Definition urEnqueueMemBufferWrite (hQueue : ur_queue) (hBuffer : Z) (blockingWrite : bool) (offset size pSrc : Z)
    (phEvent : bool) : M unit :=
  b ← get hBuffer;
  _ ← UR_ASSERT (u64 (offset + size) <=? Size b) UR_RESULT_ERROR_INVALID_SIZE;
  DevPtr ← getPtr hBuffer (getDevice hQueue);
  _ ← setLastQueueWritingToMemObj hBuffer hQueue;
  _ ← begin phEvent;
  _ ← copy_async (DevPtr + offset) pSrc size;
  finish phEvent blockingWrite.

(** [commonMemSetLargePattern]: [pPattern] as bytes; a word is the bytes of one step. *)
Definition commonMemSetLargePattern (PatternSize Size : Z) (pPattern : list Z) (Ptr : Z) : M unit :=
  let PatternSize := u32 PatternSize in
  let BackendWordSize := if PatternSize `mod` 4 =? 0 then 4 else if PatternSize `mod` 2 =? 0 then 2 else 1 in
  let NumberOfSteps := PatternSize `div` BackendWordSize in
  let Pitch := NumberOfSteps * BackendWordSize in
  let Height := Size `div` PatternSize in
  let word Step := take (Z.to_nat BackendWordSize) (drop (Z.to_nat (Step * BackendWordSize)) pPattern) in
  let UseOnlyFirstValue := forallb (λ Step, bool_decide (word Step = word 0)) (seqZ 1 (NumberOfSteps - 1)) in
  let OptimizedNumberOfSteps := if UseOnlyFirstValue then 1 else NumberOfSteps in
  forM (seqZ 0 OptimizedNumberOfSteps) (λ Step,
    _ ← cu;
    modify (set_mem
      (if Step =? 0 then cuMemset Ptr (word 0) (Size `div` BackendWordSize)
       else cuMemsetD2D (Ptr + Step * BackendWordSize) Pitch (word Step) Height))).

(** The bytes of the fill; a pattern of size 0 is a division by zero. *)
Definition fill_bytes (pPattern : list Z) (patternSize size p : Z) : M unit :=
  if (patternSize =? 1) || (patternSize =? 2) || (patternSize =? 4)
  then _ ← cu; modify (set_mem (cuMemset p pPattern (size `div` patternSize)))
  else commonMemSetLargePattern patternSize size pPattern p.

Definition urEnqueueMemBufferFill (hQueue : ur_queue) (hBuffer : Z) (pPattern : list Z)
    (patternSize offset size : Z) (phEvent : bool) : M unit :=
  b ← get hBuffer;
  _ ← UR_ASSERT (u64 (size + offset) <=? Size b) UR_RESULT_ERROR_INVALID_SIZE;
  _ ← setLastQueueWritingToMemObj hBuffer hQueue;
  _ ← begin phEvent;
  p ← getPtrWithOffset hBuffer (getDevice hQueue) offset;
  _ ← fill_bytes pPattern patternSize size p;
  finish phEvent false.

Definition urEnqueueMemBufferCopy (hQueue : ur_queue) (hBufferSrc hBufferDst srcOffset dstOffset size : Z)
    (phEvent : bool) : M unit :=
  dst ← get hBufferDst;
  src ← get hBufferSrc;
  _ ← UR_ASSERT (u64 (size + dstOffset) <=? Size dst) UR_RESULT_ERROR_INVALID_SIZE;
  _ ← UR_ASSERT (u64 (size + srcOffset) <=? Size src) UR_RESULT_ERROR_INVALID_SIZE;
  _ ← begin phEvent;
  Src ← getPtrWithOffset hBufferSrc (getDevice hQueue) srcOffset;
  Dst ← getPtrWithOffset hBufferDst (getDevice hQueue) dstOffset;
  _ ← copy_async Dst Src size;
  finish phEvent false.

(** [BufferMem::mapToPtr]; [insert] does not replace. *)
Definition insert_map (p : Z) (x : BufferMap) (l : list (Z * BufferMap)) : list (Z * BufferMap) :=
  if bool_decide (p ∈ l.*1) then l else (p, x) :: l.
Definition mapToPtr (h MapSize MapOffset MapFlags : Z) : M Z :=
  m ← get h;
  if HostPtr m =? 0 then
    MapPtr ← (λ s, let p := cu_malloc (regions s) MapSize in
                   (inr p, set_mem (λ mm a, if in_range p MapSize a then 0 else mm a) (add_region p MapSize s)) : _);
    _ ← put h (with_maps (insert_map MapPtr {| MapSize := MapSize; MapOffset := MapOffset; MapFlags := MapFlags;
                                               MapMem := Some MapPtr |} (PtrToBufferMap m)) m);
    mret MapPtr
  else
    let MapPtr := HostPtr m + MapOffset in
    _ ← put h (with_maps (insert_map MapPtr {| MapSize := MapSize; MapOffset := MapOffset; MapFlags := MapFlags;
                                               MapMem := None |} (PtrToBufferMap m)) m);
    mret MapPtr.
Definition getMapDetails (p : Z) (m : ur_mem) : option BufferMap :=
  match list_find (λ x, x.1 = p) (PtrToBufferMap m) with Some (_, (_, x)) => Some x | None => None end.
Definition unmap (h p : Z) : M unit :=
  m ← get h; put h (with_maps (filter (λ x, x.1 ≠ p) (PtrToBufferMap m)) m).

(** A map or unmap that copies nothing: the wait and the event are both tried. *)
Definition map_no_copy (IsPinned phEvent : bool) : M ur_result_t :=
  r ← result (when IsPinned cu);
  r' ← result (when phEvent (_ ← cu; _ ← cu; cu));
  mret (if decide (r' = UR_RESULT_SUCCESS) then r else r').

(** The result and [*ppRetMap], which is set once there is a pointer. *)
Definition urEnqueueMemBufferMap (hQueue : ur_queue) (hBuffer : Z) (blockingMap : bool) (mapFlags offset size : Z)
    (phEvent : bool) : M (ur_result_t * Z) :=
  b ← get hBuffer;
  _ ← UR_ASSERT (u64 (offset + size) <=? Size b) UR_RESULT_ERROR_INVALID_SIZE;
  MapPtr ← mapToPtr hBuffer size offset mapFlags;
  _ ← UR_ASSERT (negb (MapPtr =? 0)) UR_RESULT_ERROR_INVALID_MEM_OBJECT;
  let IsPinned := bool_decide (MemAllocMode b = AllocHostPtr) in
  Result ←
    (if negb IsPinned && (flag mapFlags UR_MAP_FLAG_READ || flag mapFlags UR_MAP_FLAG_WRITE)
     then result (urEnqueueMemBufferRead hQueue hBuffer blockingMap offset size MapPtr phEvent)
     else map_no_copy IsPinned phEvent);
  mret (Result, MapPtr).

Definition urEnqueueMemUnmap (hQueue : ur_queue) (hMem pMappedPtr : Z) (phEvent : bool) : M ur_result_t :=
  b ← get hMem;
  match getMapDetails pMappedPtr b with
  | None => throw UR_RESULT_ERROR_INVALID_MEM_OBJECT
  | Some Map =>
      let IsPinned := bool_decide (MemAllocMode b = AllocHostPtr) in
      Result ←
        (if negb IsPinned && flag (MapFlags Map) (Z.lor UR_MAP_FLAG_WRITE UR_MAP_FLAG_WRITE_INVALIDATE_REGION)
         then result (urEnqueueMemBufferWrite hQueue hMem true (MapOffset Map) (MapSize Map) pMappedPtr phEvent)
         else map_no_copy IsPinned phEvent);
      _ ← unmap hMem pMappedPtr;
      mret Result
  end.

(** *** Kernels

    The access flags of an argument say whether the kernel writes it. *)
Definition writes (AccessFlags : Z) : bool := flag AccessFlags (Z.lor UR_MEM_FLAG_READ_WRITE UR_MEM_FLAG_WRITE_ONLY).

(** [setKernelArgMemObj] of every argument, with the pointers it stores. *)
Fixpoint set_args (d : nat) (args : list (Z * Z)) : M (list (Z * Z)) :=
  match args with
  | [] => mret []
  | (h, _) :: l => p ← getPtr h d; m ← get h; ps ← set_args d l; mret ((p, Size m) :: ps)
  end.

(** [urEnqueueKernelLaunchWithArgsExp] and the launch: [args] are the handles
    and access flags of the memory objects; [params] is the result of
    [setKernelParams], [empty] says that the global size is zero.  The call of
    [cuLaunchKernel] ends [prepare_launch]. *)
Definition prepare_launch (hQueue : ur_queue) (args : list (Z * Z)) (params : option ur_result_t)
    (phEvent : bool) : M unit :=
  _ ← match params with Some e => throw e | None => mret () end;
  _ ← cu; _ ← cu;
  _ ← when (1 <? ndev)%nat (forM args (λ a,
        _ ← enqueueMigrateMemoryToDeviceIfNeeded a.1 (getDevice hQueue);
        when (writes a.2) (setLastQueueWritingToMemObj a.1 hQueue)));
  _ ← when phEvent cu;
  cu.
Definition urEnqueueKernelLaunchWithArgsExp (hQueue : ur_queue) (program_device : nat) (k : kernel)
    (args : list (Z * Z)) (workDim : Z) (empty : bool) (params : option ur_result_t) (phEvent : bool) : M unit :=
  ArgPointers ← set_args program_device args;
  _ ← UR_ASSERT (getDevice hQueue =? program_device)%nat UR_RESULT_ERROR_INVALID_KERNEL;
  _ ← UR_ASSERT ((workDim >? 0) && (workDim <? 4)) UR_RESULT_ERROR_INVALID_WORK_DIMENSION;
  if empty then cu else
  _ ← prepare_launch hQueue args params phEvent;
  _ ← modify (set_mem (run_kernel k ArgPointers));
  when phEvent cu.
End driver.
End Mem.

(** ** The abstract buffers

    A buffer is an array of bytes, undefined where it has not been written or a
    command has failed.  Labels carry what passes between the buffers and the
    host or a kernel. *)
Module MemSpec.
Import Mem.

Abbreviation spec := (gmap Z content).

Inductive label :=
  | LTau
  | LCreate (h : Z) (c : content)
  | LRead (h off n : Z) (data : Z → Z)
  | LWrite (h off n : Z) (data : Z → Z)
  | LLost (h off n : Z)
  | LCopy (h1 h2 off1 off2 n : Z)
  | LMap (h off n : Z) (reads writes : bool) (data : Z → Z)
  | LKernel (k : kernel) (args : list (Z * Z)) (views : list (Z → Z))
  | LKernelLost (hs : list Z)
  | LRelease (h : Z).

(** A kernel on arrays. *)
Definition kernel_arg (k : kernel) (views : list (Z → Z)) (i : nat) (size : Z) (c : content) : content :=
  λ o, if in_range 0 size o then match k views i o with Some v => Some v | None => c o end else c o.
Fixpoint kernel_args (k : kernel) (views : list (Z → Z)) (i : nat) (args : list (Z * Z)) (σ : spec) : spec :=
  match args with
  | [] => σ
  | (h, size) :: l => kernel_args k views (S i) l (alter (kernel_arg k views i size) h σ)
  end.

Inductive astep (σ : spec) : label → spec → Prop :=
  | a_tau : astep σ LTau σ
  | a_create h c : σ !! h = None → astep σ (LCreate h c) (<[h := c]> σ)
  | a_read h c off n data : σ !! h = Some c → agrees c off n data → astep σ (LRead h off n data) σ
  | a_write h c off n data : σ !! h = Some c →
      astep σ (LWrite h off n data) (<[h := upd c off n (λ i, Some (data i))]> σ)
  | a_lost h c off n : σ !! h = Some c → astep σ (LLost h off n) (<[h := upd c off n (λ _, None)]> σ)
  | a_copy h1 h2 c1 c2 off1 off2 n : σ !! h1 = Some c1 → σ !! h2 = Some c2 →
      astep σ (LCopy h1 h2 off1 off2 n) (<[h2 := upd c2 off2 n (λ i, c1 (off1 + i))]> σ)
  | a_map h c off n rd wr data : σ !! h = Some c → (rd = true → agrees c off n data) →
      astep σ (LMap h off n rd wr data) (if wr then <[h := upd c off n (λ _, None)]> σ else σ)
  | a_kernel_lost hs : astep σ (LKernelLost hs) (foldr (alter (λ _ _, None)) σ hs)
  | a_kernel k args views :
      (∀ j h n, args !! j = Some (h, n) → ∃ c, σ !! h = Some c ∧ ∃ v, views !! j = Some v ∧ agrees c 0 n v) →
      astep σ (LKernel k args views) (kernel_args k views 0 args σ)
  | a_release h : astep σ (LRelease h) (delete h σ).

(** ** Steps of the implementation *)
Definition alias (m : ur_mem) : bool :=
  match MemAllocMode m with UseHostPtr | AllocHostPtr => true | Classic | CopyIn => false end.
(** The copy of device [d] is current. *)
Definition current (m : ur_mem) (d : nat) : bool :=
  nth d (HaveMigratedToDeviceSinceLastWrite m) false ||
  match LastQueueWritingToMemObj m with Some q => (getDevice q =? d)%nat | None => true end.

(** The [k]-th place where a buffer's bytes are kept. *)
Definition cell (m : ur_mem) (k : nat) (a : Z) : Prop :=
  if alias m then k = 0%nat ∧ in_range (HostPtr m) (Size m) a = true
  else ptr m k ≠ 0 ∧ in_range (ptr m k) (Size m) a = true.

Section steps.
Context `{CudaDriver} (ndev : nat).
(** Memory of the application, which no allocation is made in. *)
Context (user : Z → Prop).

Definition in_regions (s : state) (a : Z) : Prop := ∃ p n, (p, n) ∈ regions s ∧ in_range p n a = true.

(** The host may write to memory of its own and to memory it has been given,
    where no defined byte of a buffer is kept. *)
Definition host_may_write (s : state) (σ : spec) (a : Z) : Prop :=
  (user a ∨ in_regions s a) ∧ ∀ h m c, mems s !! h = Some m → σ !! h = Some c →
    (alias m = false → ∀ k, ¬ cell m k a) ∧
    (HostPtr m ≠ 0 → in_range (HostPtr m) (Size m) a = true → c (a - HostPtr m) = None).
Definition host_buffer (s : state) (σ : spec) (p n : Z) : Prop :=
  ∀ a, in_range p n a = true → host_may_write s σ a.

(** Writing part of a buffer on a device whose copy is out of date is not
    covered: the rest is lost (see [partial_write_loses_rest]). *)
Definition may_write (m : ur_mem) (d : nat) (off n : Z) : Prop :=
  alias m = true ∨ current m d = true ∨ off = 0 ∧ n = Size m.
(** Nor is copying into a buffer that other devices have current copies of. *)
Definition sole (m : ur_mem) (d : nat) : Prop :=
  alias m = true ∨ current m d = true ∧ ∀ d', (d' < ndev)%nat → current m d' = true → d' = d.

Definition fits (off n : Z) : Prop := 0 ≤ off ∧ 0 ≤ n ∧ off + n < 2 ^ 64.
Definition ok {A} (r : ur_result_t + A) : bool := if r is inr _ then true else false.

Definition new_buffer (s : state) (flags size pHost : Z) : Prop :=
  0 < size ∧ (pHost = 0 ↔ flag flags (Z.lor UR_MEM_FLAG_USE_HOST_POINTER UR_MEM_FLAG_ALLOC_COPY_HOST_POINTER) = false) ∧
  (flag flags UR_MEM_FLAG_ALLOC_HOST_POINTER = false ∨ flag flags UR_MEM_FLAG_ALLOC_COPY_HOST_POINTER = false) ∧
  (pHost ≠ 0 → ∀ a, in_range pHost size a = true →
     user a ∧ ∀ h m, mems s !! h = Some m → HostPtr m ≠ 0 → in_range (HostPtr m) (Size m) a = false).

Definition write_label (b : bool) (h off n : Z) (data : Z → Z) : label :=
  if b then LWrite h off n data else LLost h off n.
Definition writes_map (x : BufferMap) : bool :=
  flag (MapFlags x) (Z.lor UR_MAP_FLAG_WRITE UR_MAP_FLAG_WRITE_INVALIDATE_REGION).

Inductive cstep (s : state) (σ : spec) : label → state → Prop :=
  | c_host a v : host_may_write s σ a →
      cstep s σ LTau (set_mem (λ m b, if b =? a then v else m b) s)
  | c_create flags size pHost r s' : new_buffer s flags size pHost →
      urMemBufferCreate ndev flags size pHost s = (r, s') →
      cstep s σ (match r with
                 | inr h => LCreate h (if pHost =? 0 then λ _, None else λ i, Some (mem s (pHost + i)))
                 | inl _ => LTau end) s'
  | c_retain h r s' : urMemRetain h s = (r, s') → cstep s σ LTau s'
  | c_release h m r s' : mems s !! h = Some m → 0 < RefCount m → urMemRelease h s = (r, s') →
      cstep s σ (if RefCount m =? 1 then LRelease h else LTau) s'
  | c_read q h blocking off n dst ev r s' :
      (getDevice q < ndev)%nat → fits off n → host_buffer s σ dst n →
      urEnqueueMemBufferRead q h blocking off n dst ev s = (r, s') →
      cstep s σ (if ok r then LRead h off n (λ i, mem s' (dst + i)) else LTau) s'
  | c_write q h m blocking off n src ev r s' :
      mems s !! h = Some m → (getDevice q < ndev)%nat → fits off n → off + n ≤ Size m →
      may_write m (getDevice q) off n →
      urEnqueueMemBufferWrite q h blocking off n src ev s = (r, s') →
      cstep s σ (write_label (ok r) h off n (λ i, mem s (src + i))) s'
  | c_fill q h m pat ps off n ev r s' :
      mems s !! h = Some m → (getDevice q < ndev)%nat → fits off n → off + n ≤ Size m →
      may_write m (getDevice q) off n → 0 < ps < 2 ^ 32 → Z.of_nat (length pat) = ps → n `mod` ps = 0 →
      urEnqueueMemBufferFill q h pat ps off n ev s = (r, s') →
      cstep s σ (write_label (ok r) h off n (λ i, nth (Z.to_nat (i `mod` ps)) pat 0)) s'
  | c_copy q h1 h2 m1 m2 off1 off2 n ev r s' :
      mems s !! h1 = Some m1 → mems s !! h2 = Some m2 → (getDevice q < ndev)%nat →
      fits off1 n → fits off2 n → off1 + n ≤ Size m1 → off2 + n ≤ Size m2 →
      alias m1 = true ∨ current m1 (getDevice q) = true → sole m2 (getDevice q) →
      urEnqueueMemBufferCopy q h1 h2 off1 off2 n ev s = (r, s') →
      cstep s σ (if ok r then LCopy h1 h2 off1 off2 n else LLost h2 off2 n) s'

  | c_map q h m blocking flags off n ev r p s' :
      mems s !! h = Some m → (getDevice q < ndev)%nat → fits off n →
      urEnqueueMemBufferMap q h blocking flags off n ev s = (inr (r, p), s') →
      cstep s σ (LMap h off n
        (bool_decide (r = UR_RESULT_SUCCESS) && (bool_decide (MemAllocMode m = AllocHostPtr)
           || flag flags UR_MAP_FLAG_READ || flag flags UR_MAP_FLAG_WRITE))
        (flag flags (Z.lor UR_MAP_FLAG_WRITE UR_MAP_FLAG_WRITE_INVALIDATE_REGION)) (λ i, mem s' (p + i))) s'
  | c_map_fails q h blocking flags off n ev e s' :
      (getDevice q < ndev)%nat → fits off n →
      urEnqueueMemBufferMap q h blocking flags off n ev s = (inl e, s') → cstep s σ LTau s'
  | c_unmap q h m x p ev r s' :
      mems s !! h = Some m → (getDevice q < ndev)%nat → getMapDetails p m = Some x →
      may_write m (getDevice q) (MapOffset x) (MapSize x) →
      urEnqueueMemUnmap q h p ev s = (inr r, s') →
      cstep s σ (if writes_map x
                 then write_label (bool_decide (r = UR_RESULT_SUCCESS)) h (MapOffset x) (MapSize x) (λ i, mem s (p + i))
                 else LTau) s'
  | c_kernel q d k args ms workDim params ev ps s1 s2 r s' :
      (getDevice q < ndev)%nat → (d < ndev)%nat →
      Forall2 (λ a m, mems s !! a.1 = Some m) args ms →
      (∀ j h f, args !! j = Some (h, f) → writes f = false → ∀ v o, k v j o = None) →
      set_args d args s = (inr ps, s1) → prepare_launch ndev q args params ev s1 = (inr (), s2) →
      urEnqueueKernelLaunchWithArgsExp ndev q d k args workDim false params ev s = (r, s') →
      cstep s σ (if ok r then LKernel k (zip args.*1 (Size <$> ms)) ((λ x o, mem s2 (x.1 + o)) <$> ps)
                 else LKernelLost (omap (λ a, if writes a.2 then Some a.1 else None) args)) s'
  | c_kernel_fails q d k args workDim empty params ev r s' :
      (getDevice q < ndev)%nat → (d < ndev)%nat → (∀ a, a ∈ args → is_Some (mems s !! a.1)) →
      empty = true ∨ ok r = false ∧ (∀ ps s1, set_args d args s = (inr ps, s1) →
        ok (prepare_launch ndev q args params ev s1).1 = false) →
      urEnqueueKernelLaunchWithArgsExp ndev q d k args workDim empty params ev s = (r, s') →
      cstep s σ LTau s'.
End steps.
End MemSpec.
