(* ===== verification/CudaMemoryProofs.v ===== *)
(** * Proofs about the memory objects of the CUDA adapter

    [MemFacts] has the invariant that relates the copies of a buffer to its
    array and the lemmas about each operation, [MemProps] the properties. *)
From stdpp Require Import base numbers list gmap relations.
From S2P Require Import Prelude UrUtil FlatMemory CudaMemory.
Import Util.
Local Open Scope Z_scope.

Module MemFacts.
Import Mem MemSpec.

Lemma bind_inv {A B} (m : M A) (f : A → M B) s r s' :
  (m ≫= f) s = (r, s') →
  (∃ a s1, m s = (inr a, s1) ∧ f a s1 = (r, s')) ∨ (∃ e, m s = (inl e, s') ∧ r = inl e).
Proof.
  unfold mbind, M_bind. destruct (m s) as [[e|a] s1] eqn:E; intros Heq.
  - injection Heq as <- <-. right. by exists e.
  - left. by exists a, s1.
Qed.

Lemma get_inv h s r s' : get h s = (r, s') →
  s' = s ∧ match r with inr m => mems s !! h = Some m
           | inl e => mems s !! h = None ∧ e ≠ UR_RESULT_SUCCESS end.
Proof. unfold get. destruct (mems s !! h); intros [= <- <-]; done. Qed.
Lemma assert_inv b e s r s' : UR_ASSERT b e s = (r, s') →
  s' = s ∧ if b then r = inr () else r = inl e.
Proof. unfold UR_ASSERT. destruct b; by intros [= <- <-]. Qed.

(** Splits a computation into the cases of its first step. *)
Ltac step H :=
  match type of H with
  | (_ ≫= _) _ = _ =>
      let a := fresh "a" in let s := fresh "s" in let E := fresh "E" in let e := fresh "e" in
      apply bind_inv in H as [(a & s & E & H)|(e & E & ->)]
  end.

(** ** The invariant *)
Section inv.
Context `{CudaDriver} (ndev : nat) (user : Z → Prop).

Record coherent (mm : memory) (m : ur_mem) (c : content) : Prop := {
  co_len : length (Ptrs m) = ndev ∧ length (HaveMigratedToDeviceSinceLastWrite m) = ndev;
  co_size : 0 < Size m ∧ Parent m = None ∧ in_u32 (RefCount m);
  co_queue q : LastQueueWritingToMemObj m = Some q → (getDevice q < ndev)%nat;
  co_maps p x : (p, x) ∈ PtrToBufferMap m →
    0 ≤ MapOffset x ∧ 0 ≤ MapSize x ∧ MapOffset x + MapSize x ≤ Size m ∧ MapOffset x + MapSize x < 2 ^ 64 ∧ (HostPtr m ≠ 0 → p = HostPtr m + MapOffset x);
  co_alias : alias m = true → HostPtr m ≠ 0 ∧ (∀ d, ptr m d = 0 ∨ ptr m d = HostPtr m) ∧
    ∀ i v, 0 ≤ i < Size m → c i = Some v → mm (HostPtr m + i) = v;
  co_device : alias m = false → ∀ d, (d < ndev)%nat → current m d = true →
    ∀ i v, 0 ≤ i < Size m → c i = Some v → ptr m d ≠ 0 ∧ mm (ptr m d + i) = v;
  co_host : alias m = false → (1 < ndev)%nat → LastQueueWritingToMemObj m = None →
    ∀ i v, 0 ≤ i < Size m → c i = Some v → HostPtr m ≠ 0 ∧ mm (HostPtr m + i) = v }.

Record inv (s : state) (σ : spec) : Prop := {
  inv_dom h : is_Some (mems s !! h) ↔ is_Some (σ !! h);
  inv_next h : is_Some (mems s !! h) → h < next_handle s;
  inv_co h m c : mems s !! h = Some m → σ !! h = Some c → coherent (mem s) m c;
  inv_cells h1 h2 m1 m2 k1 k2 a : mems s !! h1 = Some m1 → mems s !! h2 = Some m2 →
    cell m1 k1 a → cell m2 k2 a → h1 = h2 ∧ k1 = k2;
  inv_alloc h m k a : mems s !! h = Some m → cell m k a →
    if bool_decide (MemAllocMode m = UseHostPtr) then user a else in_regions s a;
  inv_watch h m a : mems s !! h = Some m → alias m = false → HostPtr m ≠ 0 →
    in_range (HostPtr m) (Size m) a = true → user a ∧ ∀ h' m' k, mems s !! h' = Some m' → ¬ cell m' k a;
  inv_hosts h1 h2 m1 m2 a : mems s !! h1 = Some m1 → mems s !! h2 = Some m2 → HostPtr m1 ≠ 0 → HostPtr m2 ≠ 0 →
    in_range (HostPtr m1) (Size m1) a = true → in_range (HostPtr m2) (Size m2) a = true → h1 = h2;
  inv_user a : in_regions s a → ¬ user a;
  inv_freed : NoDup (freed s) ∧
    ∀ p, p ∈ freed s → in_regions s p ∧ ∀ h m k, mems s !! h = Some m → ¬ cell m k p }.

Lemma inv_lookup s σ h m : inv s σ → mems s !! h = Some m → ∃ c, σ !! h = Some c ∧ coherent (mem s) m c.
Proof.
  intros Hi Hm. destruct (proj1 (inv_dom _ _ Hi h)) as [c Hc]; [by exists m|].
  exists c. split; [done|]. by apply (inv_co _ _ Hi h).
Qed.

(** Memory outside a buffer does not matter to it, less defined bytes neither. *)
Lemma coherent_frame mm mm' m c c' :
  coherent mm m c →
  (∀ i v, 0 ≤ i < Size m → c' i = Some v → c i = Some v) →
  (∀ k a, cell m k a → mm' a = mm a) →
  (alias m = false → HostPtr m ≠ 0 → ∀ i, 0 ≤ i < Size m → is_Some (c' i) →
     mm' (HostPtr m + i) = mm (HostPtr m + i)) →
  coherent mm' m c'.
Proof.
  intros Hc Hle Hcell Hhost. destruct Hc. split; try done.
  - intros Ha. destruct (co_alias0 Ha) as (? & ? & Hv). split_and!; [done..|]. intros i v Hi Hci.
    rewrite (Hcell 0%nat); [by apply Hv; auto|]. unfold cell. rewrite Ha. split; [done|]. ranges. lia.
  - intros Ha d Hd Hcur i v Hi Hci. destruct (co_device0 Ha d Hd Hcur i v Hi (Hle _ _ Hi Hci)) as [Hp Hv].
    split; [done|]. rewrite (Hcell d); [done|]. unfold cell. rewrite Ha. split; [done|]. ranges. lia.
  - intros Ha Hn HL i v Hi Hci. destruct (co_host0 Ha Hn HL i v Hi (Hle _ _ Hi Hci)) as [Hp Hv].
    split; [done|]. by rewrite Hhost.
Qed.

Lemma coherent_weaken mm m c c' :
  coherent mm m c → (∀ i v, 0 ≤ i < Size m → c' i = Some v → c i = Some v) → coherent mm m c'.
Proof. intros Hc Hle. by eapply coherent_frame. Qed.

Lemma inv_weaken s σ h m c c' :
  inv s σ → mems s !! h = Some m → σ !! h = Some c →
  (∀ i v, 0 ≤ i < Size m → c' i = Some v → c i = Some v) → inv s (<[h := c']> σ).
Proof.
  intros Hi Hm0 Hc Hle. destruct Hi. split; try done.
  - intros h'. rewrite inv_dom0, lookup_insert. case_decide as Hh; [subst h'|done]. by rewrite Hc.
  - intros h' m' c0 Hm. rewrite lookup_insert. case_decide as Hh; [subst h'|by apply inv_co0].
    simplify_eq. intros [= <-]. eapply coherent_weaken; [by apply (inv_co0 h)|done].
Qed.

(** Only the memory and what is known of it change. *)
Lemma inv_set_mem s σ σ' f :
  inv s σ → (∀ h, is_Some (σ !! h) ↔ is_Some (σ' !! h)) →
  (∀ h m c, mems s !! h = Some m → σ' !! h = Some c → coherent (f (mem s)) m c) → inv (set_mem f s) σ'.
Proof. intros Hi Hdom Hco. destruct Hi. split; simpl; try done. intros h. by rewrite inv_dom0. Qed.

Lemma inv_called s σ : inv s σ → inv (called s) σ.
Proof. intros []. by split. Qed.
Lemma inv_add_queue_refs s σ d q : inv s σ → inv (add_queue_refs d q s) σ.
Proof. intros []. by split. Qed.

(** The host writes where it may. *)
Lemma inv_host_write s σ f :
  inv s σ → (∀ a, f (mem s) a = mem s a ∨ host_may_write user s σ a) → inv (set_mem f s) σ.
Proof.
  intros Hi Hf. apply (inv_set_mem _ σ); [done|done|]. intros h m c Hm Hc.
  assert (∀ a, host_may_write user s σ a → (alias m = false → ∀ k, ¬ cell m k a) ∧
    (HostPtr m ≠ 0 → in_range (HostPtr m) (Size m) a = true → c (a - HostPtr m) = None)) as Hw.
  { intros a [_ Ha]. by apply (Ha h m c). }
  pose proof (inv_co _ _ Hi h m c Hm Hc) as Hco. destruct Hco. split; try done.
  - intros Ha. destruct (co_alias0 Ha) as (Hp & ? & Hv). split_and!; [done..|]. intros i v Hi' Hci.
    destruct (Hf (HostPtr m + i)) as [->|[_ Hn]%Hw]; [by apply Hv|]. ospecialize (Hn Hp _); [ranges; lia|].
    replace (HostPtr m + i - HostPtr m) with i in Hn by lia. congruence.
  - intros Ha d Hd Hcur i v Hi' Hci. destruct (co_device0 Ha d Hd Hcur i v Hi' Hci) as [Hp Hv]. split; [done|].
    destruct (Hf (ptr m d + i)) as [->|[Hn _]%Hw]; [done|]. destruct (Hn Ha d). unfold cell. rewrite Ha.
    split; [done|]. ranges. lia.
  - intros Ha Hn HL i v Hi' Hci. destruct (co_host0 Ha Hn HL i v Hi' Hci) as [Hp Hv]. split; [done|].
    destruct (Hf (HostPtr m + i)) as [->|[_ Hno]%Hw]; [done|]. ospecialize (Hno Hp _); [ranges; lia|].
    replace (HostPtr m + i - HostPtr m) with i in Hno by lia. congruence.
Qed.

(** A device or the host writes a cell that is the only current copy. *)
Lemma inv_write_cell s σ h m c k off n mm' :
  inv s σ → mems s !! h = Some m → σ !! h = Some c → 0 ≤ off → off + n ≤ Size m →
  (alias m = true ∨ (1 < ndev)%nat ∧ LastQueueWritingToMemObj m ≠ None ∨ ndev = 1%nat) → sole ndev m k →
  let p := if alias m then HostPtr m else ptr m k in
  p ≠ 0 → (∀ a, in_range (p + off) n a = false → mm' a = mem s a) →
  inv (set_mem (λ _, mm') s) (<[h := upd c off n (λ i, Some (mm' (p + off + i)))]> σ).
Proof.
  intros Hi Hm Hc Hoff Hn Hlast Hsole p Hp Hmm.
  assert (∀ i, in_range off n i = false → mm' (p + i) = mem s (p + i)) as Hg.
  { intros i Hi'. apply Hmm. ranges. lia. }
  assert (alias m = true → p = HostPtr m) as Hpa by (unfold p; by intros ->).
  assert (alias m = false → p = ptr m k) as Hpd by (unfold p; by intros ->).
  assert (∀ a, in_range (p + off) n a = true → cell m (if alias m then 0 else k)%nat a) as Hin.
  { intros a Ha. ranges. unfold cell, p in *. destruct (alias m); (split; [done|ranges; lia]). }
  apply (inv_set_mem _ σ); [done| |].
  { intros h'. rewrite lookup_insert. case_decide as Hh; [subst h'; by rewrite Hc|done]. }
  intros h' m' c'. intros Hm'. rewrite lookup_insert. case_decide as Hh.
  - subst h'. rewrite Hm in Hm'. injection Hm' as <-. intros [= <-].
    pose proof (inv_co _ _ Hi h m c Hm Hc) as Hco. destruct Hco. split; try done.
    + intros Ha. destruct (co_alias0 Ha) as (? & ? & Hv). split_and!; [done..|]. intros i v Hi' Hci.
      rewrite <-(Hpa Ha). unfold upd in Hci. destruct (in_range off n i) eqn:E; [injection Hci as <-; f_equal; lia|].
      rewrite Hg, (Hpa Ha) by done. by apply Hv.
    + intros Ha d Hd Hcur i v Hi' Hci. destruct Hsole as [?|[Hck Hs]]; [congruence|].
      pose proof (Hs d Hd Hcur) as ->. rewrite <-(Hpd Ha). split; [done|]. unfold upd in Hci.
      destruct (in_range off n i) eqn:E; [injection Hci as <-; f_equal; lia|].
      rewrite Hg, (Hpd Ha) by done. by apply (co_device0 Ha k Hd Hcur).
    + intros Ha Hnd HL. destruct Hlast as [?|[[_ ?]|?]]; [congruence|done|lia].
  - intros Hc'. eapply coherent_frame; [by apply (inv_co _ _ Hi h')|done| |].
    + intros k' a Hcell. destruct (in_range (p + off) n a) eqn:E; [|by apply Hmm]. apply Hin in E.
      by destruct (inv_cells _ _ Hi h h' m m' _ _ a Hm Hm' E Hcell) as [-> _].
    + intros Ha Hp' i Hi' _. destruct (in_range (p + off) n (HostPtr m' + i)) eqn:E; [|by apply Hmm]. apply Hin in E.
      destruct (inv_watch _ _ Hi h' m' (HostPtr m' + i) Hm' Ha Hp') as [_ Hno]; [ranges; lia|].
      by destruct (Hno h m _ Hm E).
Qed.

(** An allocation, and the change of a record. *)
Lemma inv_add_region s σ p n : inv s σ → (∀ a, in_range p n a = true → ¬ user a) → inv (add_region p n s) σ.
Proof.
  intros [] Hu. assert (∀ a, in_regions s a → in_regions (add_region p n s) a) as Hr.
  { intros a (p' & n' & Hin & Ha). exists p', n'. split; [by right|done]. }
  split; simpl; try done.
  - intros h m k a Hm Hcell. specialize (inv_alloc0 h m k a Hm Hcell). case_bool_decide; auto.
  - intros a (p' & n' & [[= -> ->]|Hin]%elem_of_cons & Ha); [by apply Hu|]. apply inv_user0. by exists p', n'.
  - destruct inv_freed0 as [? Hf]. split; [done|]. intros q Hq. destruct (Hf q Hq). auto.
Qed.

Definition fresh (s : state) (a : Z) : Prop :=
  ¬ user a ∧ in_regions s a ∧ a ∉ freed s ∧ ∀ h m k, mems s !! h = Some m → ¬ cell m k a.

Lemma inv_put s σ h m m' c' d :
  inv s σ → mems s !! h = Some m →
  HostPtr m' = HostPtr m → Size m' = Size m → MemAllocMode m' = MemAllocMode m →
  (∀ k a, cell m' k a → cell m k a ∨ k = d ∧ fresh s a) →
  (MemAllocMode m = UseHostPtr → ∀ k a, cell m' k a → cell m k a) →
  coherent (mem s) m' c' → inv (set_mems <[h := m']> s) (<[h := c']> σ).
Proof.
  intros Hi Hm Eh Es Em Hcell Huse Hco. destruct Hi.
  assert (alias m' = alias m) as Ea by (unfold alias; by rewrite Em).
  assert (∀ h' m0 k a, mems (set_mems <[h := m']> s) !! h' = Some m0 → cell m0 k a →
    (∃ m1, mems s !! h' = Some m1 ∧ cell m1 k a) ∨ h' = h ∧ k = d ∧ fresh s a) as Hold.
  { intros h' m0 k a. simpl. rewrite lookup_insert. case_decide as Hh; [|by eauto]. subst h'. intros [= <-] Hc.
    destruct (Hcell k a Hc) as [?|[-> ?]]; [left; eauto|by right]. }
  split.
  - intros h'. simpl. rewrite !lookup_insert. case_decide; [|by rewrite inv_dom0]. split; eauto.
  - intros h'. simpl. rewrite lookup_insert. case_decide as Hh; [|apply inv_next0]. subst h'. intros _. apply inv_next0. eauto.
  - intros h' m0 c. simpl. rewrite !lookup_insert. case_decide; [by intros [= <-] [= <-]|apply inv_co0].
  - intros h1 h2 m1 m2 k1 k2 a H1 H2 C1 C2.
    destruct (Hold _ _ _ _ H1 C1) as [(n1 & L1 & D1)|(-> & -> & F1)], (Hold _ _ _ _ H2 C2) as [(n2 & L2 & D2)|(-> & -> & F2)].
    + by eapply (inv_cells0 h1 h2).
    + destruct F2 as (_ & _ & _ & Hno). by destruct (Hno _ _ _ L1 D1).
    + destruct F1 as (_ & _ & _ & Hno). by destruct (Hno _ _ _ L2 D2).
    + done.
  - intros h' m0 k a. simpl. rewrite lookup_insert. case_decide as Hh; [|apply inv_alloc0]. subst h'.
    intros [= <-] Hc. rewrite Em. destruct (Hcell k a Hc) as [Hc'|[-> (_ & ? & _)]]; [by apply (inv_alloc0 h m k a)|].
    case_bool_decide as Hu; [|done]. specialize (inv_alloc0 h m d a Hm (Huse Hu _ _ Hc)). by rewrite bool_decide_true in inv_alloc0.
  - intros h' m0 a. simpl. intros Hm0 Ha Hp Hr.
    assert (∃ m1, mems s !! h' = Some m1 ∧ alias m1 = false ∧ HostPtr m1 ≠ 0 ∧ in_range (HostPtr m1) (Size m1) a = true)
      as (m1 & L1 & Ha1 & Hp1 & Hr1).
    { rewrite lookup_insert in Hm0. case_decide as Hh; [|by eauto]. subst h'. injection Hm0 as <-. exists m. by rewrite <-Ea, <-Eh, <-Es. }
    destruct (inv_watch0 h' m1 a L1 Ha1 Hp1 Hr1) as [Hu Hno]. split; [done|]. intros h2 m2 k H2 C2.
    destruct (Hold _ _ _ _ H2 C2) as [(n2 & L2 & D2)|(-> & -> & Hnu & _)]; [by apply (Hno _ _ _ L2 D2)|done].
  - intros h1 h2 m1 m2 a H1 H2.
    assert (∀ h' m0, mems (set_mems <[h := m']> s) !! h' = Some m0 →
      ∃ m1, mems s !! h' = Some m1 ∧ HostPtr m0 = HostPtr m1 ∧ Size m0 = Size m1) as Hh.
    { intros h' m0. simpl. rewrite lookup_insert. case_decide; [subst h'; intros [= <-]|]; eauto. }
    destruct (Hh _ _ H1) as (n1 & L1 & -> & ->), (Hh _ _ H2) as (n2 & L2 & -> & ->). by apply (inv_hosts0 _ _ n1 n2).
  - done.
  - simpl. destruct inv_freed0 as [? Hf]. split; [done|]. intros q Hq. destruct (Hf q Hq) as [? Hno]. split; [done|].
    intros h2 m2 k H2 C2. destruct (Hold _ _ _ _ H2 C2) as [(n2 & L2 & D2)|(-> & -> & _ & _ & ? & _)]; [by apply (Hno _ _ _ L2 D2)|done].
Qed.

(** A change of the record that leaves the cells alone. *)
Lemma inv_put_same s σ h m m' c' :
  inv s σ → mems s !! h = Some m → Ptrs m' = Ptrs m →
  HostPtr m' = HostPtr m → Size m' = Size m → MemAllocMode m' = MemAllocMode m →
  coherent (mem s) m' c' → inv (set_mems <[h := m']> s) (<[h := c']> σ).
Proof.
  intros Hi Hm Ep Eh Es Em Hco.
  assert (∀ k a, cell m' k a → cell m k a) as Hcell by (intros k a; unfold cell, alias, ptr; by rewrite Ep, Eh, Es, Em).
  eapply (inv_put s σ h m m' c' 0%nat); eauto.
Qed.
End inv.

(** ** Operations that do not touch the memory *)
Lemma ptr_insert l d p k : (d < length l)%nat → nth k (<[d := p]> l) 0 = if decide (k = d) then p else nth k l 0.
Proof.
  intros Hd. rewrite !nth_lookup. case_decide as E; [subst; by rewrite list_lookup_insert_eq|].
  by rewrite list_lookup_insert_ne.
Qed.

Section quiet.
Context `{CudaDriver} (ndev : nat) (user : Z → Prop).
Hypothesis (Hmalloc : ∀ l n, 0 < cu_malloc l n ∧
  ∀ a, in_range (cu_malloc l n) n a = true → ¬ user a ∧ ∀ p k, (p, k) ∈ l → in_range p k a = false).
Hypothesis (Huva : ∀ p, cuMemHostGetDevicePointer p = p).
Abbreviation inv := (inv ndev user).

(** A record after some of its allocations have been made. *)
Record ext (m m' : ur_mem) : Prop := {
  ext_host : HostPtr m' = HostPtr m; ext_size : Size m' = Size m; ext_mode : MemAllocMode m' = MemAllocMode m;
  ext_parent : Parent m' = Parent m; ext_maps : PtrToBufferMap m' = PtrToBufferMap m; ext_refs : RefCount m' = RefCount m;
  ext_migrated : HaveMigratedToDeviceSinceLastWrite m' = HaveMigratedToDeviceSinceLastWrite m;
  ext_last : LastQueueWritingToMemObj m' = LastQueueWritingToMemObj m;
  ext_ptr d : ptr m d ≠ 0 → ptr m' d = ptr m d }.

#[local] Instance ext_preorder : PreOrder ext.
Proof.
  split; [by intros m|]. intros m1 m2 m3 [] []. split; try congruence. intros d Hd.
  rewrite ext_ptr1; [by apply ext_ptr0|]. rewrite ext_ptr0; done.
Qed.

Lemma ext_alias m m' : ext m m' → alias m' = alias m.
Proof. intros []. unfold alias. by rewrite ext_mode0. Qed.
Lemma ext_current m m' d : ext m m' → current m' d = current m d.
Proof. intros []. unfold current. by rewrite ext_migrated0, ext_last0. Qed.

Record quiet (σ : spec) (s s' : state) : Prop := {
  q_inv : inv s' σ; q_mem : mem s' = mem s; q_next : next_handle s' = next_handle s;
  q_freed : freed s' = freed s;
  q_dom h : mems s !! h = None → mems s' !! h = None;
  q_ext h m : mems s !! h = Some m → ∃ m', mems s' !! h = Some m' ∧ ext m m' }.

Lemma quiet_refl σ s : inv s σ → quiet σ s s.
Proof. intros Hi. split; try done. intros h m Hm. by exists m. Qed.
Lemma quiet_trans σ s1 s2 s3 : quiet σ s1 s2 → quiet σ s2 s3 → quiet σ s1 s3.
Proof.
  intros [] []. split; [done|congruence|congruence|congruence|auto|].
  intros h m Hm. destruct (q_ext0 h m Hm) as (m2 & Hm2 & E1). destruct (q_ext1 h m2 Hm2) as (m3 & Hm3 & E2).
  exists m3. split; [done|]. by etrans.
Qed.

Lemma called_quiet σ s : inv s σ → quiet σ s (called s).
Proof. intros Hi. split; try done; [by apply inv_called|]. intros h m Hm. by exists m. Qed.
Lemma cu_inv s r s' : cu s = (r, s') → s' = called s ∧ r ≠ inl UR_RESULT_SUCCESS.
Proof.
  unfold cu. pose proof (cu_error_fails (calls s)) as Hne. destruct (cu_error _); intros [= <- <-]; split; congruence.
Qed.
Lemma cu_malloc_inv n s r s' : malloc n s = (r, s') →
  match r with
  | inl e => s' = called s ∧ e ≠ UR_RESULT_SUCCESS
  | inr p => p = cu_malloc (regions s) n ∧ s' = add_region p n (called s)
  end.
Proof.
  unfold malloc. destruct (cu s) as [r0 s1] eqn:E. apply cu_inv in E as [-> Hne].
  destruct r0; intros [= <- <-]; (split; [done|congruence]).
Qed.

(** One record gets a new pointer. *)
Lemma put_ptr_quiet σ s h m m' d p :
  inv s σ → mems s !! h = Some m → (d < ndev)%nat → ptr m d = 0 → m' = with_Ptrs (<[d := p]> (Ptrs m)) m →
  (alias m = true → p = HostPtr m) →
  (alias m = false → p ≠ 0 ∧ ∀ a, in_range p (Size m) a = true → fresh user s a) →
  quiet σ s (set_mems <[h := m']> s) ∧ mems (set_mems <[h := m']> s) !! h = Some m' ∧ ptr m' d = p.
Proof.
  intros Hi Hm Hd Hz -> Hal Hdev. destruct (inv_lookup _ _ _ _ _ _ Hi Hm) as (c & Hc & Hco).
  destruct (co_len _ _ _ _ Hco) as [Hl Hl2].
  assert (∀ k, ptr (with_Ptrs (<[d := p]> (Ptrs m)) m) k = if decide (k = d) then p else ptr m k) as Hptr.
  { intros k. unfold ptr. simpl. apply ptr_insert. lia. }
  assert (ext m (with_Ptrs (<[d := p]> (Ptrs m)) m)) as Hext.
  { split; try done. intros k Hk. rewrite Hptr. case_decide; [by subst|done]. }
  split_and!; [|by simpl; rewrite lookup_insert_eq|by rewrite Hptr, decide_True].
  split; try done.
  - rewrite <-(insert_id σ h c Hc). eapply (inv_put _ _ s σ h m _ c d); try done.
    + intros k a. unfold cell. change (alias (with_Ptrs _ m)) with (alias m). destruct (alias m) eqn:Ea; [by left|].
      rewrite Hptr. case_decide as Ek; [|by left]. intros [_ Hr]. right. split; [done|]. by apply Hdev.
    + intros Hu k a. unfold cell. change (alias (with_Ptrs _ m)) with (alias m). unfold alias. by rewrite Hu.
    + destruct Hco. split; try done.
      * simpl. by rewrite length_insert.
      * intros Ha. destruct (co_alias0 Ha) as (Hp & Hpt & Hv). split_and!; [done| |done].
        intros k. rewrite Hptr. case_decide; [right; by apply Hal|apply Hpt].
      * intros Ha k Hk Hcur i v Hi' Hci. rewrite Hptr. destruct (co_device0 Ha k Hk Hcur i v Hi' Hci) as [Hp Hv].
        case_decide; [by subst|done].
  - intros h'. simpl. rewrite lookup_insert. case_decide; [by subst; rewrite Hm|done].
  - intros h' m0. simpl. rewrite lookup_insert. case_decide; [subst|by exists m0].
    rewrite Hm. intros [= <-]. eauto.
Qed.

Lemma registered_quiet σ s h m :
  inv s σ → mems s !! h = Some m → quiet σ s (set_mems <[h := with_registered m]> s).
Proof.
  intros Hi Hm. destruct (inv_lookup _ _ _ _ _ _ Hi Hm) as (c & Hc & Hco). split; try done.
  - rewrite <-(insert_id σ h c Hc). eapply (inv_put_same _ _ s σ h m); [done..|]. destruct Hco. by split.
  - intros h'. simpl. rewrite lookup_insert. case_decide; [by subst; rewrite Hm|done].
  - intros h' m0. simpl. rewrite lookup_insert. case_decide; [subst|by exists m0].
    rewrite Hm. intros [= <-]. by eexists.
Qed.

Lemma fresh_alloc σ s n a :
  inv s σ → in_range (cu_malloc (regions s) n) n a = true →
  fresh user (add_region (cu_malloc (regions s) n) n s) a.
Proof.
  intros Hi Ha. destruct (Hmalloc (regions s) n) as [_ Hf]. destruct (Hf a Ha) as [Hu Hr].
  assert (¬ in_regions s a) as Hno by (intros (p & k & Hin & E); rewrite (Hr p k Hin) in E; done).
  split; [done|]. split; [eexists _, n; split; [by left|done]|]. split.
  - intros Hin. by destruct (proj2 (inv_freed _ _ _ _ Hi) a Hin).
  - intros h m k Hm Hc. pose proof (inv_alloc _ _ _ _ Hi h m k a Hm Hc) as Hal. by case_bool_decide.
Qed.

Lemma add_region_quiet σ s l n : inv s σ → quiet σ s (add_region (cu_malloc l n) n s).
Proof.
  intros Hi. split; try done; [|intros h m Hm; by exists m]. apply inv_add_region; [done|].
  intros a Ha. by apply (proj2 (Hmalloc l n)).
Qed.

(** A pointer to the current place of a buffer on a device. *)
Definition placed (s : state) (h : Z) (d : nat) : Prop :=
  ∃ m, mems s !! h = Some m ∧ ptr m d ≠ 0 ∧ (alias m = true → ptr m d = HostPtr m).

Lemma put_ptr_ok σ s s1 h m m' d p :
  quiet σ s s1 → mems s1 !! h = Some m → (d < ndev)%nat → ptr m d = 0 → m' = with_Ptrs (<[d := p]> (Ptrs m)) m →
  (alias m = true → p = HostPtr m) →
  (alias m = false → p ≠ 0 ∧ ∀ a, in_range p (Size m) a = true → fresh user s1 a) →
  quiet σ s (set_mems <[h := m']> s1) ∧ placed (set_mems <[h := m']> s1) h d.
Proof.
  intros Hq Hm Hd Hz -> Hal Hdev.
  destruct (put_ptr_quiet σ s1 h m _ d p (q_inv _ _ _ Hq) Hm Hd Hz eq_refl Hal Hdev) as (Hq' & Hm' & Hp).
  split; [by eapply quiet_trans|]. eexists. split; [done|]. rewrite Hp.
  destruct (inv_lookup _ _ _ _ _ _ (q_inv _ _ _ Hq) Hm) as (c & Hc & Hco). split; [|done].
  destruct (alias m) eqn:Ea; [rewrite (Hal eq_refl); by apply (co_alias _ _ _ _ Hco)|by apply Hdev].
Qed.

Lemma allocate_ok σ s h d r s' :
  inv s σ → (d < ndev)%nat → allocateMemObjOnDeviceIfNeeded h d s = (r, s') →
  quiet σ s s' ∧ (r = inr () → placed s' h d) ∧ r ≠ inl UR_RESULT_SUCCESS.
Proof.
  intros Hi Hd Hr. unfold allocateMemObjOnDeviceIfNeeded in Hr. step Hr; apply get_inv in E as [-> Hm].
  2: { split; [by apply quiet_refl|]. split; [done|]. by destruct Hm as [_ ?]; intros [= ->]. }
  rename a into m. destruct (inv_lookup _ _ _ _ _ _ Hi Hm) as (c & Hc & Hco).
  destruct (ptr m d =? 0) eqn:Ez; simpl in Hr; bool_to_prop.
  2: { injection Hr as <- <-. split; [by apply quiet_refl|]. split; [|done]. intros _. exists m. split_and!; [done..|].
       intros Ha. by destruct (proj1 (proj2 (co_alias _ _ _ _ Hco Ha)) d). }
  assert (∀ s0 m0 r0, quiet σ s s0 → mems s0 !! h = Some m0 → ptr m0 d = 0 → alias m0 = true →
    (_ ← cu; put h (with_Ptrs (<[d:=cuMemHostGetDevicePointer (HostPtr m0)]> (Ptrs m0)) m0)) s0 = (r0, s') →
    quiet σ s s' ∧ (r0 = inr () → placed s' h d) ∧ r0 ≠ inl UR_RESULT_SUCCESS) as Hhost.
  { intros s0 m0 r0 Hq Hm0 Hz Ha H0. pose proof (called_quiet σ s0 (q_inv _ _ _ Hq)) as Hq1.
    step H0; apply cu_inv in E as [-> Hne]; [|split; [by eapply quiet_trans|split; [done|congruence]]].
    injection H0 as <- <-. rewrite Huva.
    destruct (put_ptr_ok σ s (called s0) h m0 (with_Ptrs (<[d:=HostPtr m0]> (Ptrs m0)) m0) d (HostPtr m0)) as [? ?];
      [by eapply quiet_trans|done..|by rewrite Ha|done]. }
  destruct (MemAllocMode m) eqn:Em.
  1,3: step Hr; apply cu_malloc_inv in E as [Hp Hs];
    [|subst; split; [by apply called_quiet|split; [done|congruence]]]; subst a s0; injection Hr as <- <-;
    assert (quiet σ s (add_region (cu_malloc (regions s) (Size m)) (Size m) (called s))) as Hq
      by (eapply quiet_trans; [by apply called_quiet|by apply add_region_quiet, inv_called]);
    destruct (put_ptr_ok σ s _ h m (with_Ptrs (<[d:=cu_malloc (regions s) (Size m)]> (Ptrs m)) m) d
      (cu_malloc (regions s) (Size m)) Hq Hm Hd Ez eq_refl) as [? ?];
    [by unfold alias; rewrite Em| |done]; intros _; destruct (Hmalloc (regions s) (Size m)) as [? _];
    (split; [lia|]); intros a' Ha'; apply (fresh_alloc σ (called s)); [by apply inv_called|done].
  - assert (alias m = true) as Ha by (unfold alias; by rewrite Em).
    step Hr; [|done]. injection E as <- <-. step Hr.
    + pose proof (called_quiet σ s Hi) as Hq. destruct (cuMemHostRegister _); [|injection E as <- <-; by eapply Hhost|done].
      injection E as <- <-. apply (Hhost (set_mems <[h:=with_registered m]> (called s)) (with_registered m) r); try done.
      * eapply quiet_trans; [done|]. apply registered_quiet; [by apply (q_inv _ _ _ Hq)|done].
      * simpl. by rewrite lookup_insert_eq.
    + pose proof (register_fails (calls s)) as Hne. destruct (cuMemHostRegister _); [done|done|].
      injection E as <- <-. split; [by apply called_quiet|]. split; [done|congruence].
  - eapply Hhost; [by apply quiet_refl|done..|by unfold alias; rewrite Em|done].
Qed.

Lemma getPtr_ok σ s h d off r s' :
  inv s σ → (d < ndev)%nat → getPtrWithOffset h d off s = (r, s') →
  quiet σ s s' ∧ match r with
    | inr p => placed s' h d ∧ ∃ m, mems s' !! h = Some m ∧ p = ptr m d + off
    | inl e => e ≠ UR_RESULT_SUCCESS
    end.
Proof.
  intros Hi Hd Hr. unfold getPtrWithOffset in Hr. step Hr; apply (allocate_ok σ) in E as (Hq & Hp & Hne); try done.
  2: { split; [done|congruence]. }
  destruct a. specialize (Hp eq_refl). destruct Hp as (m & Hm & Hnz & Hal).
  step Hr; apply get_inv in E as [-> Hm']; [|by destruct Hm'; congruence].
  rewrite Hm in Hm'. injection Hm' as <-. injection Hr as <- <-. split; [done|]. split; [by exists m|]. by exists m.
Qed.

(** ** Which copy is current *)
Record keeps (σ : spec) (s s' : state) : Prop := {
  k_inv : inv s' σ; k_next : next_handle s' = next_handle s; k_freed : freed s' = freed s;
  k_dom h : mems s !! h = None → mems s' !! h = None;
  k_ext h m : mems s !! h = Some m → ∃ m', mems s' !! h = Some m' ∧ HostPtr m' = HostPtr m ∧ Size m' = Size m ∧
    alias m' = alias m ∧ PtrToBufferMap m' = PtrToBufferMap m ∧ ∀ d, ptr m d ≠ 0 → ptr m' d = ptr m d }.

Lemma keeps_then σ σ' s1 s2 s3 : keeps σ s1 s2 → keeps σ' s2 s3 → keeps σ' s1 s3.
Proof.
  intros [] []. split; [done|congruence|congruence|auto|]. intros h m Hm.
  destruct (k_ext0 h m Hm) as (m2 & Hm2 & ? & ? & ? & ? & P2), (k_ext1 h m2 Hm2) as (m3 & Hm3 & ? & ? & ? & ? & P3).
  exists m3. split_and!; [done|congruence..|]. intros d Hd. rewrite P3; [by apply P2|by rewrite P2].
Qed.
Lemma quiet_keeps σ s s' : quiet σ s s' → keeps σ s s'.
Proof.
  intros []. split; try done. intros h m Hm. destruct (q_ext0 h m Hm) as (m' & Hm' & Hx).
  exists m'. pose proof (ext_alias _ _ Hx). by destruct Hx.
Qed.
Lemma keeps_refl σ s : inv s σ → keeps σ s s.
Proof. intros Hi. by apply quiet_keeps, quiet_refl. Qed.
Lemma called_keeps σ s : inv s σ → keeps σ s (called s).
Proof. intros Hi. by apply quiet_keeps, called_quiet. Qed.

Definition now_current (q : ur_queue) (m : ur_mem) : ur_mem :=
  with_current (imap (λ d _, bool_decide (d = getDevice q)) (HaveMigratedToDeviceSinceLastWrite m)) (Some q) m.

Lemma now_current_spec q m d :
  length (HaveMigratedToDeviceSinceLastWrite m) = ndev → (d < ndev)%nat → current (now_current q m) d = (getDevice q =? d)%nat.
Proof.
  intros Hl Hd. unfold current, now_current. simpl. rewrite nth_lookup, list_lookup_imap.
  destruct (lookup_lt_is_Some_2 (HaveMigratedToDeviceSinceLastWrite m) d) as [x ->]; [lia|]. simpl.
  destruct (Nat.eqb_spec (getDevice q) d) as [->|Hne]; [by rewrite orb_true_r|].
  rewrite bool_decide_false by congruence. done.
Qed.

Lemma set_last_ok σ s h q m c r s' :
  inv s σ → mems s !! h = Some m → σ !! h = Some c → (getDevice q < ndev)%nat →
  setLastQueueWritingToMemObj h q s = (r, s') →
  r = inr () ∧ mem s' = mem s ∧ mems s' = <[h := now_current q m]> (mems s) ∧ sole ndev (now_current q m) (getDevice q) ∧
  keeps (<[h := if alias m || current m (getDevice q) then c else λ _, None]> σ) s s'.
Proof.
  intros Hi Hm Hc Hq Hr. unfold setLastQueueWritingToMemObj, mbind, M_bind, get in Hr. rewrite Hm in Hr. simpl in Hr.
  pose proof (inv_co _ _ _ _ Hi h m c Hm Hc) as Hco. destruct (co_len _ _ _ _ Hco) as [_ Hl].
  set (s1 := match LastQueueWritingToMemObj m with Some q' => _ | None => _ end) in Hr.
  assert (∃ s0, s1 (add_queue_refs 1 (queue_id q) s) = (inr (), s0) ∧ inv s0 σ ∧ mem s0 = mem s ∧ mems s0 = mems s ∧ next_handle s0 = next_handle s ∧
    freed s0 = freed s) as (s0 & E & Hi0 & E1 & E2 & E3 & E4).
  { unfold s1. destruct (LastQueueWritingToMemObj m); (eexists; split; [done|]); split_and!; try done;
      repeat apply inv_add_queue_refs; done. }
  rewrite E in Hr. injection Hr as <- <-. split; [done|]. split; [done|]. split; [by simpl; rewrite E2|]. split.
  { right. split; [rewrite now_current_spec; [by apply Nat.eqb_refl|done..]|]. intros d Hd. rewrite now_current_spec by done. by intros ->%Nat.eqb_eq. }
  split; simpl; try done.
  - change (inv (set_mems <[h:=now_current q m]> s0) (<[h:=if alias m || current m (getDevice q) then c else λ _, None]> σ)).
    eapply (inv_put_same _ _ s0 σ h m); [done|by rewrite E2|done..|]. rewrite E1. destruct Hco. split; try done.
    + simpl. by rewrite length_imap.
    + by intros q' [= <-].
    + intros Ha. change (alias (now_current q m)) with (alias m) in Ha. rewrite Ha. by apply co_alias0.
    + intros Ha d Hd. change (alias (now_current q m)) with (alias m) in Ha. rewrite now_current_spec by done.
      intros <-%Nat.eqb_eq. rewrite Ha. simpl. destruct (current m (getDevice q)) eqn:Ecur; [|done]. by apply co_device0.
  - intros h'. rewrite E2, lookup_insert. case_decide; [by subst; rewrite Hm|done].
  - intros h' m'. rewrite E2, lookup_insert. case_decide; [subst h'; rewrite Hm; intros [= <-]; by eexists|by exists m'].
Qed.

(** A cell gets the bytes it should have. *)
Lemma inv_refresh s σ h m c d g :
  inv s σ → mems s !! h = Some m → σ !! h = Some c →
  (∀ a, g (mem s) a = mem s a ∨ cell m d a) →
  (∀ i v, 0 ≤ i < Size m → c i = Some v → g (mem s) ((if alias m then HostPtr m else ptr m d) + i) = v) →
  inv (set_mem g s) σ.
Proof.
  intros Hi Hm Hc Hg Hv. apply (inv_set_mem _ _ _ σ); [done|done|]. intros h' m' c' Hm' Hc'.
  destruct (decide (h' = h)) as [->|Hne].
  - rewrite Hm in Hm'. rewrite Hc in Hc'. injection Hm' as <-. injection Hc' as <-.
    pose proof (inv_co _ _ _ _ Hi h m c Hm Hc) as Hco. destruct Hco. split; try done.
    + intros Ha. rewrite Ha in Hv. destruct (co_alias0 Ha) as (? & ? & ?). done.
    + intros Ha d' Hd' Hcur i v Hi' Hci. destruct (co_device0 Ha d' Hd' Hcur i v Hi' Hci) as [Hp Hv']. split; [done|].
      destruct (decide (d' = d)) as [->|Hdd]; [rewrite Ha in Hv; by apply Hv|].
      destruct (Hg (ptr m d' + i)) as [->|Hcell]; [done|].
      destruct (inv_cells _ _ _ _ Hi h h m m d d' (ptr m d' + i)) as [_ ?]; try done.
      unfold cell. rewrite Ha. split; [done|]. ranges. lia.
    + intros Ha Hn HL i v Hi' Hci. destruct (co_host0 Ha Hn HL i v Hi' Hci) as [Hp Hv']. split; [done|].
      destruct (Hg (HostPtr m + i)) as [->|Hcell]; [done|].
      destruct (inv_watch _ _ _ _ Hi h m (HostPtr m + i) Hm Ha Hp) as [_ Hno]; [ranges; lia|].
      by destruct (Hno h m _ Hm Hcell).
  - eapply coherent_frame; [by apply (inv_co _ _ _ _ Hi h')|done| |].
    + intros k a Hcell. destruct (Hg a) as [->|Hcell']; [done|].
      by destruct (inv_cells _ _ _ _ Hi h h' m m' _ _ a Hm Hm' Hcell' Hcell).
    + intros Ha Hp i Hi' _. destruct (Hg (HostPtr m' + i)) as [->|Hcell]; [done|].
      destruct (inv_watch _ _ _ _ Hi h' m' (HostPtr m' + i) Hm' Ha Hp) as [_ Hno]; [ranges; lia|].
      by destruct (Hno h m _ Hm Hcell).
Qed.

(** Bytes of a buffer are written to its host memory. *)
Lemma inv_host_refresh s σ h m c g :
  inv s σ → mems s !! h = Some m → σ !! h = Some c → HostPtr m ≠ 0 →
  (∀ a, g (mem s) a = mem s a ∨
     in_range (HostPtr m) (Size m) a = true ∧ ∀ v, c (a - HostPtr m) = Some v → g (mem s) a = v) →
  inv (set_mem g s) σ.
Proof.
  intros Hi Hm Hc Hp Hg. apply (inv_set_mem _ _ _ σ); [done|done|]. intros h' m' c' Hm' Hc'.
  assert (∀ a k, in_range (HostPtr m) (Size m) a = true → cell m' k a → alias m = true ∧ h' = h) as Hcell.
  { intros a k Ha Hk. destruct (alias m) eqn:Ea.
    - split; [done|]. by destruct (inv_cells _ _ _ _ Hi h' h m' m k 0%nat a Hm' Hm Hk) as [-> _]; [unfold cell; rewrite Ea|].
    - by destruct (proj2 (inv_watch _ _ _ _ Hi h m a Hm Ea Hp Ha) h' m' k Hm'). }
  destruct (decide (h' = h)) as [->|Hne].
  - rewrite Hm in Hm'. rewrite Hc in Hc'. injection Hm' as <-. injection Hc' as <-.
    assert (∀ i v, 0 ≤ i < Size m → c i = Some v → mem s (HostPtr m + i) = v → g (mem s) (HostPtr m + i) = v) as Hkeep.
    { intros i v Hi' Hci Hv. destruct (Hg (HostPtr m + i)) as [->|[_ Hg']]; [done|]. apply Hg'.
      by replace (HostPtr m + i - HostPtr m) with i by lia. }
    pose proof (inv_co _ _ _ _ Hi h m c Hm Hc) as []. split; try done.
    + intros Ha. destruct (co_alias0 Ha) as (? & ? & Hv). split_and!; [done..|]. intros i v Hi' Hci. apply Hkeep; auto.
    + intros Ha d Hd Hcur i v Hi' Hci. destruct (co_device0 Ha d Hd Hcur i v Hi' Hci) as [? Hv]. split; [done|].
      destruct (Hg (ptr m d + i)) as [->|[Hr _]]; [done|]. destruct (Hcell _ d Hr); [|congruence].
      unfold cell. rewrite Ha. split; [done|]. ranges. lia.
    + intros Ha Hn HL i v Hi' Hci. destruct (co_host0 Ha Hn HL i v Hi' Hci) as [? Hv]. split; [done|]. by apply Hkeep.
  - eapply coherent_frame; [by apply (inv_co _ _ _ _ Hi h')|done| |].
    + intros k a Hk. destruct (Hg a) as [->|[Hr _]]; [done|]. by destruct (Hcell a k Hr Hk).
    + intros Ha Hp' i Hi' _. destruct (Hg (HostPtr m' + i)) as [->|[Hr _]]; [done|].
      destruct Hne. apply (inv_hosts _ _ _ _ Hi h' h m' m (HostPtr m' + i)); try done. ranges. lia.
Qed.

Lemma copy_inv dst src n s r s' : copy_async dst src n s = (r, s') →
  r = inr () ∧ s' = set_mem (memcpy dst src n) (called s) ∨ s' = called s ∧ ok r = false ∧ r ≠ inl UR_RESULT_SUCCESS.
Proof.
  intros Hr. unfold copy_async in Hr. step Hr; apply cu_inv in E as [-> Hne].
  - left. by injection Hr as <- <-.
  - right. split_and!; [done..|congruence].
Qed.

(** Copying the current bytes of a buffer to its place on device [d]. *)
Lemma copy_current_keeps σ s h m c d src r s' :
  inv s σ → mems s !! h = Some m → σ !! h = Some c → ptr m d ≠ 0 → (alias m = true → ptr m d = HostPtr m) →
  (∀ i v, 0 ≤ i < Size m → c i = Some v → mem s (src + i) = v) →
  copy_async (ptr m d) src (Size m) s = (r, s') → keeps σ s s' ∧ (r = inr () → mems s' !! h = Some m ∧
    ∀ i v, 0 ≤ i < Size m → c i = Some v → mem s' (ptr m d + i) = v).
Proof.
  intros Hi Hm Hc Hp Ha Hsrc Hr. apply copy_inv in Hr as [[-> ->]|(-> & Hok & _)];
    [|split; [by apply called_keeps|by destruct r]].
  assert (∀ i v, 0 ≤ i < Size m → c i = Some v → memcpy (ptr m d) src (Size m) (mem s) (ptr m d + i) = v) as Hv.
  { intros i v Hi' Hci. unfold memcpy. replace (in_range _ _ _) with true by (symmetry; ranges; lia).
    replace (ptr m d + i - ptr m d) with i by lia. by apply Hsrc. }
  split; [|intros _; split; [done|exact Hv]].
  assert (inv (set_mem (memcpy (ptr m d) src (Size m)) (called s)) σ) as Hi'.
  { apply (inv_refresh (called s) σ h m c (if alias m then 0 else d)%nat); try done; [by apply inv_called| |].
    - intros a. unfold memcpy. simpl. destruct (in_range (ptr m d) (Size m) a) eqn:E; [right|by left].
      unfold cell. destruct (alias m); [by rewrite <-Ha|done].
    - intros i v Hi' Hci. simpl. destruct (alias m); [rewrite <-Ha by done|]; by apply Hv. }
  split; try done. intros h' m' Hm'. by exists m'.
Qed.

Lemma set_flag_keeps σ s h m c d :
  inv s σ → mems s !! h = Some m → σ !! h = Some c → (d < ndev)%nat →
  (alias m = false → ∀ i v, 0 ≤ i < Size m → c i = Some v → ptr m d ≠ 0 ∧ mem s (ptr m d + i) = v) →
  let m' := with_current (<[d := true]> (HaveMigratedToDeviceSinceLastWrite m)) (LastQueueWritingToMemObj m) m in
  keeps σ s (set_mems <[h := m']> s) ∧ current m' d = true.
Proof.
  intros Hi Hm Hc Hd Hv m'. pose proof (inv_co _ _ _ _ Hi h m c Hm Hc) as Hco.
  destruct (co_len _ _ _ _ Hco) as [_ Hl].
  assert (∀ k, nth k (HaveMigratedToDeviceSinceLastWrite m') false =
    if decide (k = d) then true else nth k (HaveMigratedToDeviceSinceLastWrite m) false) as Hn.
  { intros k. unfold m'. simpl. rewrite !nth_lookup. case_decide; [subst; by rewrite list_lookup_insert_eq by lia|].
    by rewrite list_lookup_insert_ne. }
  split; [|unfold current; by rewrite Hn, decide_True].
  split; try done.
  - rewrite <-(insert_id σ h c Hc). eapply (inv_put_same _ _ s σ h m); [done..|]. destruct Hco. split; try done.
    + simpl. by rewrite length_insert.
    + intros Ha k Hk Hcur i v Hi' Hci. destruct (decide (k = d)) as [->|Hne]; [by apply Hv|].
      apply (co_device0 Ha k Hk); [|done..]. unfold current in *. rewrite Hn, decide_False in Hcur by done. done.
  - intros h'. simpl. rewrite lookup_insert. case_decide; [by subst; rewrite Hm|done].
  - intros h' m0. simpl. rewrite lookup_insert. case_decide; [subst h'; rewrite Hm; intros [= <-]; by eexists|by exists m0].
Qed.

(** [placed] in terms of a record that has only grown. *)
Lemma placed_inv s h d m : placed s h d → mems s !! h = Some m →
  ptr m d ≠ 0 ∧ (alias m = true → ptr m d = HostPtr m).
Proof. intros (m' & Hm' & ?) Hm. by simplify_eq. Qed.
Lemma quiet_lookup σ s s' h m : quiet σ s s' → mems s !! h = Some m → ∃ m', mems s' !! h = Some m' ∧ ext m m'.
Proof. intros Hq Hm. by apply (q_ext _ _ _ Hq). Qed.

Definition all_ext (s s' : state) : Prop :=
  ∀ h m, mems s !! h = Some m → ∃ m', mems s' !! h = Some m' ∧ ext m m'.
Lemma copy_all_ext σ s s1 dst src n r s' : quiet σ s s1 → copy_async dst src n s1 = (r, s') → all_ext s s'.
Proof.
  intros Hq Hr. apply copy_inv in Hr as [[-> ->]|(-> & _ & _)]; intros h m Hm; by apply (q_ext _ _ _ Hq).
Qed.

Lemma migrate_buffer_ok σ s h m c d r s' :
  inv s σ → mems s !! h = Some m → σ !! h = Some c → (d < ndev)%nat → (1 < ndev)%nat →
  enqueueMigrateBufferToDevice h d s = (r, s') →
  keeps σ s s' ∧ all_ext s s' ∧ (r = inr () → ∃ m', mems s' !! h = Some m' ∧ ext m m' ∧
    (alias m' = false → ∀ i v, 0 ≤ i < Size m' → c i = Some v → ptr m' d ≠ 0 ∧ mem s' (ptr m' d + i) = v)).
Proof.
  intros Hi Hm Hc Hd Hn Hr. pose proof (inv_co _ _ _ _ Hi h m c Hm Hc) as Hco.
  unfold enqueueMigrateBufferToDevice, mbind at 1, M_bind at 1, get at 1 in Hr. rewrite Hm in Hr.
  destruct (LastQueueWritingToMemObj m) as [q|] eqn:EL.
  - destruct (getDevice q =? d)%nat eqn:Eq; simpl in Hr; bool_to_prop.
    { injection Hr as <- <-. split; [by apply keeps_refl|]. split; [intros h' m' Hm'; by exists m'|].
      intros _. exists m. split_and!; [done..|].
      intros Ha. apply (co_device _ _ _ _ Hco Ha d Hd). unfold current. by rewrite EL, Eq, Nat.eqb_refl, orb_true_r. }
    pose proof (co_queue _ _ _ _ Hco q EL) as Hdq.
    step Hr; apply (getPtr_ok σ) in E as [Hq1 HP]; try done; [|split; [by apply quiet_keeps|split; [exact (q_ext _ _ _ Hq1)|done]]].
    destruct HP as [HP1 (m1 & Hm1 & ->)]. step Hr; apply (getPtr_ok σ) in E as [Hq2 HP]; try done;
      [|by apply q_inv in Hq1| pose proof (quiet_trans _ _ _ _ Hq1 Hq2) as Hq; split; [by apply quiet_keeps|split; [exact (q_ext _ _ _ Hq)|done]]|by apply q_inv in Hq1].
    destruct HP as [HP2 (m2 & Hm2 & ->)]. destruct (quiet_lookup _ _ _ _ _ Hq1 Hm) as (? & Hm1' & X1). simplify_eq.
    destruct (quiet_lookup _ _ _ _ _ Hq2 Hm1) as (? & Hm2' & X2). simplify_eq.
    destruct (placed_inv _ _ _ _ HP1 Hm1) as [N1 A1], (placed_inv _ _ _ _ HP2 Hm2) as [N2 A2].
    pose proof (ext_preorder.(PreOrder_Transitive) _ _ _ X1 X2) as X.
    assert (ptr m1 d + 0 = ptr m2 d) as Ep by (rewrite (ext_ptr _ _ X2) by done; lia). rewrite Ep in Hr.
    rewrite <-(ext_size _ _ X) in Hr. pose proof (quiet_trans _ _ _ _ Hq1 Hq2) as Hq.
    assert (ptr m2 d ≠ 0) as N3 by (rewrite <-Ep; lia).
    assert (alias m2 = true → ptr m2 d = HostPtr m2) as A3.
    { intros Ha. rewrite <-Ep, Z.add_0_r, A1 by (by rewrite <-(ext_alias _ _ X2)). by rewrite (ext_host _ _ X2). }
    pose proof (inv_co _ _ _ _ (q_inv _ _ _ Hq) h m2 c Hm2 Hc) as Hco2.
    pose proof (copy_all_ext _ _ _ _ _ _ _ _ Hq Hr) as Hall.
    eapply copy_current_keeps in Hr as [Hk Hv]; [|by apply (q_inv _ _ _ Hq)|done..|].
    + split; [eapply keeps_then; [by apply quiet_keeps|done]|]. split; [done|]. intros Hrr. destruct (Hv Hrr) as [Hm' Hv'].
      exists m2. split_and!; [done..|]. intros _ i v Hi' Hci. split; [done|by apply Hv'].
    + intros i v Hi' Hci. rewrite Z.add_0_r. destruct (alias m2) eqn:Ea.
      * rewrite A2 by done. by apply (co_alias _ _ _ _ Hco2 Ea).
      * apply (co_device _ _ _ _ Hco2 Ea (getDevice q) Hdq); [|done..]. rewrite (ext_current _ _ _ X).
        unfold current. by rewrite EL, Nat.eqb_refl, orb_true_r.
  - destruct (HostPtr m =? 0) eqn:Eh; simpl in Hr; bool_to_prop.
    { injection Hr as <- <-. split; [by apply keeps_refl|]. split; [intros h' m' Hm'; by exists m'|].
      intros _. exists m. split_and!; [done..|].
      intros Ha i v Hi' Hci. by destruct (co_host _ _ _ _ Hco Ha Hn EL i v Hi' Hci). }
    step Hr; apply (getPtr_ok σ) in E as [Hq1 HP]; try done; [|split; [by apply quiet_keeps|split; [exact (q_ext _ _ _ Hq1)|done]]].
    destruct HP as [HP1 (m1 & Hm1 & ->)]. destruct (quiet_lookup _ _ _ _ _ Hq1 Hm) as (? & Hm1' & X1). simplify_eq.
    destruct (placed_inv _ _ _ _ HP1 Hm1) as [N1 A1]. rewrite Z.add_0_r, <-(ext_size _ _ X1), <-(ext_host _ _ X1) in Hr.
    pose proof (inv_co _ _ _ _ (q_inv _ _ _ Hq1) h m1 c Hm1 Hc) as Hco1.
    pose proof (copy_all_ext _ _ _ _ _ _ _ _ Hq1 Hr) as Hall.
    eapply copy_current_keeps in Hr as [Hk Hv]; [|by apply (q_inv _ _ _ Hq1)|done..|].
    + split; [eapply keeps_then; [by apply quiet_keeps|done]|]. split; [done|]. intros Hrr. destruct (Hv Hrr) as [Hm' Hv'].
      exists m1. split_and!; [done..|]. intros _ i v Hi' Hci. split; [done|by apply Hv'].
    + intros i v Hi' Hci. destruct (alias m1) eqn:Ea.
      * by apply (co_alias _ _ _ _ Hco1 Ea).
      * apply (co_host _ _ _ _ Hco1 Ea Hn); [by rewrite (ext_last _ _ X1)|done..].
Qed.

Lemma migrate_ok σ s h m c d r s' :
  inv s σ → mems s !! h = Some m → σ !! h = Some c → (d < ndev)%nat → (1 < ndev)%nat →
  enqueueMigrateMemoryToDeviceIfNeeded h d s = (r, s') →
  keeps σ s s' ∧ (∀ h' m', h' ≠ h → mems s !! h' = Some m' → ∃ m2, mems s' !! h' = Some m2 ∧ ext m' m2) ∧
  (r = inr () → ∃ m', mems s' !! h = Some m' ∧ current m' d = true ∧
     nth d (HaveMigratedToDeviceSinceLastWrite m') false = true).
Proof.
  intros Hi Hm Hc Hd Hn Hr. unfold enqueueMigrateMemoryToDeviceIfNeeded, mbind at 1, M_bind at 1, get at 1 in Hr.
  rewrite Hm in Hr. destruct (nth d _ false) eqn:Ef.
  { injection Hr as <- <-. split; [by apply keeps_refl|]. split; [intros h' m' _ Hm'; by exists m'|].
    intros _. exists m. split; [done|]. unfold current. by rewrite Ef. }
  step Hr; eapply migrate_buffer_ok in E as (Hk & Hall & Hv); try done.
  2: { split; [done|]. split; [intros h' m' _ Hm'; by apply Hall|done]. }
  destruct a. destruct (Hv eq_refl) as (m1 & Hm1 & _ & Hv1).
  unfold mbind at 1, M_bind at 1, get at 1 in Hr. rewrite Hm1 in Hr. injection Hr as <- <-.
  destruct (set_flag_keeps σ s0 h m1 c d (k_inv _ _ _ Hk) Hm1 Hc Hd Hv1) as [Hk2 Hcur].
  split; [by eapply keeps_then|]. split.
  - intros h' m' Hne Hm'. simpl. rewrite lookup_insert_ne by done. by apply Hall.
  - intros _. eexists. split; [simpl; by rewrite lookup_insert_eq|]. split; [done|]. simpl.
    pose proof (inv_co _ _ _ _ (k_inv _ _ _ Hk) h m1 c Hm1 Hc) as Hco1. destruct (co_len _ _ _ _ Hco1).
    rewrite nth_lookup, list_lookup_insert_eq; [done|lia].
Qed.

(** ** Where allocations are made *)
Record grown (s s' : state) : Prop := {
  g_regions a : in_regions s a → in_regions s' a;
  g_cells h m' k a : mems s' !! h = Some m' → cell m' k a →
    (∃ m, mems s !! h = Some m ∧ cell m k a) ∨ ¬ user a ∧ ¬ in_regions s a }.

Lemma grown_refl s : grown s s.
Proof. split; [done|]. intros h m k a Hm Hc. left. by exists m. Qed.
Lemma grown_trans s1 s2 s3 : grown s1 s2 → grown s2 s3 → grown s1 s3.
Proof.
  intros [R1 C1] [R2 C2]. split; [auto|]. intros h m k a Hm Hc.
  destruct (C2 h m k a Hm Hc) as [(m2 & Hm2 & Hc2)|[? ?]]; [by eapply C1|right; auto].
Qed.
Lemma grown_called s : grown s (called s).
Proof. split; [done|]. intros h m k a Hm Hc. left. by exists m. Qed.

Lemma grown_put s s0 h m m' : grown s s0 → mems s0 !! h = Some m →
  (∀ k a, cell m' k a → cell m k a ∨ ¬ user a ∧ ¬ in_regions s a) → grown s (set_mems <[h := m']> s0).
Proof.
  intros [R C] Hm Hc. split; [done|]. intros h' m0 k a. simpl. rewrite lookup_insert. case_decide; [|by eapply C].
  subst h'. intros [= <-] Hcell. destruct (Hc k a Hcell) as [Hc'|?]; [by apply (C h m)|by right].
Qed.

Lemma allocate_grown s h d r s' : allocateMemObjOnDeviceIfNeeded h d s = (r, s') → grown s s'.
Proof.
  intros Hr. unfold allocateMemObjOnDeviceIfNeeded in Hr. step Hr; apply get_inv in E as [-> Hm]; [|apply grown_refl].
  rename a into m. destruct (negb _); [injection Hr as <- <-; apply grown_refl|].
  assert (∀ s0 m0 p, grown s s0 → mems s0 !! h = Some m0 → alias m0 = true →
    grown s (set_mems <[h := with_Ptrs (<[d := p]> (Ptrs m0)) m0]> s0)) as Hal.
  { intros s0 m0 p Hg Hm0 Ha. eapply grown_put; [done..|]. intros k a. unfold cell.
    change (alias (with_Ptrs _ m0)) with (alias m0). rewrite Ha. by left. }
  assert (∀ s0 m0 r0, grown s s0 → mems s0 !! h = Some m0 → alias m0 = true →
    (_ ← cu; put h (with_Ptrs (<[d:=cuMemHostGetDevicePointer (HostPtr m0)]> (Ptrs m0)) m0)) s0 = (r0, s') → grown s s') as Hhost.
  { intros s0 m0 r0 Hg Hm0 Ha H0. step H0; apply cu_inv in E as [-> _];
      [injection H0 as <- <-; apply Hal; try done|]; (eapply grown_trans; [done|apply grown_called]). }
  destruct (MemAllocMode m) eqn:Em.
  2: { assert (alias m = true) as Ha by (unfold alias; by rewrite Em). step Hr; [|done]. injection E as <- <-.
       step Hr; destruct (cuMemHostRegister _); try (injection E as <- <-); try done; try apply grown_called.
       - eapply (Hhost (set_mems <[h:=with_registered m]> (called s)) (with_registered m)); [|by simpl; rewrite lookup_insert_eq|done..].
         eapply grown_put; [apply grown_called|done|]. intros k a Hc. by left.
       - eapply (Hhost (called s) m); [apply grown_called|done..]. }
  3: { eapply (Hhost s m); [apply grown_refl|done|by unfold alias; rewrite Em|done]. }
  all: step Hr; apply cu_malloc_inv in E; [destruct E as [-> ->]|destruct E as [-> _]; apply grown_called];
    injection Hr as <- <-; (eapply grown_put; [|done|]);
    [split; [intros a (p & n & ? & ?); exists p, n; split; [by right|done]|intros h0 m0 k a Hm0 Hc; left; by exists m0]|];
    intros k a; unfold cell; change (alias (with_Ptrs _ m)) with (alias m);
    assert (alias m = false) as -> by (unfold alias; by rewrite Em);
    unfold ptr; simpl; rewrite !nth_lookup; destruct (decide (k = d)) as [->|Hk]; [|rewrite list_lookup_insert_ne by done; by left];
    destruct (decide (d < length (Ptrs m))%nat) as [Hd|Hd]; [|rewrite list_insert_ge by lia; by left];
    rewrite list_lookup_insert_eq by done; simpl; intros [_ Ha]; right;
    destruct (Hmalloc (regions s) (Size m)) as [_ Hf]; destruct (Hf a Ha) as [? Hno]; (split; [done|]);
    intros (p & n & Hin & E); rewrite (Hno p n Hin) in E; done.
Qed.

Lemma getPtr_grown s h d off r s' : getPtrWithOffset h d off s = (r, s') → grown s s'.
Proof.
  unfold getPtrWithOffset. intros Hr. step Hr; apply allocate_grown in E; [|done].
  step Hr; apply get_inv in E0 as [-> _]; [by injection Hr as <- <-|done].
Qed.

Lemma quiet_host σ s s' a : quiet σ s s' → grown s s' → host_may_write user s σ a → host_may_write user s' σ a.
Proof.
  intros Hq Hg [Hu Hw]. split; [destruct Hu; [by left|right; by eapply g_regions]|]. intros h m' c Hm' Hc.
  destruct (mems s !! h) as [m|] eqn:Hm; [|by rewrite (q_dom _ _ _ Hq h Hm) in Hm'].
  destruct (q_ext _ _ _ Hq h m Hm) as (? & ? & Hx). simplify_eq. destruct (Hw h m c Hm Hc) as [W1 W2]. split.
  - intros Ha k Hcell. rewrite (ext_alias _ _ Hx) in Ha. destruct (g_cells _ _ Hg h m' k a Hm' Hcell) as [(m0 & Hm0 & Hc0)|[? ?]].
    + simplify_eq. by apply (W1 Ha k).
    + by destruct Hu.
  - rewrite (ext_host _ _ Hx), (ext_size _ _ Hx). apply W2.
Qed.

(** Computations that only make calls which move no data. *)
Definition ticks (m : M unit) : Prop :=
  ∀ s r s', m s = (r, s') → (∃ n, s' = Nat.iter n called s) ∧ r ≠ inl UR_RESULT_SUCCESS.
Lemma ticks_cu : ticks cu.
Proof. intros s r s' [-> Hne]%cu_inv. split; [by exists 1%nat|done]. Qed.
Lemma ticks_bind (m : M unit) (k : unit → M unit) : ticks m → (∀ u, ticks (k u)) → ticks (m ≫= k).
Proof.
  intros Hm Hk s r s' Hr. step Hr; apply Hm in E as [[n ->] Hne]; [|split; [by exists n|congruence]].
  apply Hk in Hr as [[n' ->] ?]. split; [|done]. exists (n' + n)%nat. by rewrite Nat.iter_add.
Qed.
Lemma ticks_when b m : ticks m → ticks (when b m).
Proof. intros Hm. destruct b; [done|]. intros s r s' [= <- <-]. split; [by exists 0%nat|done]. Qed.
Lemma ticks_begin ev : ticks (begin ev).
Proof. apply ticks_bind; [apply ticks_cu|intros _]. apply ticks_bind; [apply ticks_cu|intros _]. apply ticks_when, ticks_cu. Qed.
Lemma ticks_finish ev b : ticks (finish ev b).
Proof. apply ticks_bind; [apply ticks_when, ticks_cu|intros _]. apply ticks_when, ticks_cu. Qed.

Lemma iter_called n s : mem (Nat.iter n called s) = mem s ∧ mems (Nat.iter n called s) = mems s ∧
  regions (Nat.iter n called s) = regions s.
Proof. induction n as [|n IH]; [done|]. simpl. done. Qed.
Lemma iter_quiet σ n s : inv s σ → quiet σ s (Nat.iter n called s) ∧ grown s (Nat.iter n called s).
Proof.
  intros Hi. induction n as [|n [Hq Hg]]; [split; [by apply quiet_refl|apply grown_refl]|]. split.
  - eapply quiet_trans; [done|]. apply called_quiet, (q_inv _ _ _ Hq).
  - eapply grown_trans; [done|apply grown_called].
Qed.

(** ** Commands *)
(** The bytes of a buffer at the pointer a device has to it. *)
Lemma placed_bytes s σ h m c d i v :
  inv s σ → mems s !! h = Some m → σ !! h = Some c → placed s h d → (d < ndev)%nat →
  (alias m = true ∨ current m d = true) → 0 ≤ i < Size m → c i = Some v → mem s (ptr m d + i) = v.
Proof.
  intros Hi Hm Hc Hp Hd Hcur Hr Hci. destruct (placed_inv _ _ _ _ Hp Hm) as [_ Ha].
  pose proof (inv_co _ _ _ _ Hi h m c Hm Hc) as Hco. destruct (alias m) eqn:Ea.
  - rewrite Ha by done. by apply (co_alias _ _ _ _ Hco Ea).
  - destruct Hcur as [?|Hcur]; [done|]. by apply (co_device _ _ _ _ Hco Ea d Hd Hcur).
Qed.

Lemma u64_fits off n : fits off n → u64 (off + n) = off + n.
Proof. intros (? & ? & ?). apply u64_small. unfold in_u64. lia. Qed.

Lemma host_copy_keeps s σ dst src n r s' :
  inv s σ → host_buffer user s σ dst n → copy_async dst src n s = (r, s') →
  keeps σ s s' ∧ (r = inr () → mem s' = memcpy dst src n (mem s)) ∧ r ≠ inl UR_RESULT_SUCCESS.
Proof.
  intros Hi Hh Hr. apply copy_inv in Hr as [[-> ->]|(-> & Hok & ?)];
    [|split; [by apply called_keeps|split; [by destruct r|done]]].
  split; [|done]. assert (inv (set_mem (memcpy dst src n) (called s)) σ) as Hi'.
  { apply (inv_host_write _ user (called s)); [by apply inv_called|]. intros a. simpl.
    destruct (in_range dst n a) eqn:E; [right; by apply Hh|left; by apply memcpy_outside]. }
  split; try done. intros h' m' Hm'. by exists m'.
Qed.

Lemma own_copy_keeps σ s h m c src off n r s' :
  inv s σ → mems s !! h = Some m → σ !! h = Some c → HostPtr m ≠ 0 → 0 ≤ off → off + n ≤ Size m →
  (∀ i v, 0 ≤ i < n → c (off + i) = Some v → mem s (src + i) = v) →
  copy_async (HostPtr m + off) src n s = (r, s') →
  keeps σ s s' ∧ (r = inr () → mem s' = memcpy (HostPtr m + off) src n (mem s)) ∧ r ≠ inl UR_RESULT_SUCCESS.
Proof.
  intros Hi Hm Hc Hp Ho Hn Hsrc Hr. apply copy_inv in Hr as [[-> ->]|(-> & Hok & ?)];
    [|split; [by apply called_keeps|split; [by destruct r|done]]].
  split; [|done]. assert (inv (set_mem (memcpy (HostPtr m + off) src n) (called s)) σ) as Hi'.
  { apply (inv_host_refresh (called s) σ h m c); try done; [by apply inv_called|]. intros a.
    destruct (in_range (HostPtr m + off) n a) eqn:E; [right|left; by apply memcpy_outside]. ranges. split; [ranges; lia|].
    intros v Hv. replace a with (HostPtr m + off + (a - HostPtr m - off)) at 1 by lia. rewrite memcpy_inside by lia.
    apply Hsrc; [lia|]. by replace (off + (a - HostPtr m - off)) with (a - HostPtr m) by lia. }
  split; try done. intros h' m' Hm'. by exists m'.
Qed.

Lemma ticks_keeps m σ s r s' : ticks m → inv s σ → m s = (r, s') →
  quiet σ s s' ∧ grown s s' ∧ mem s' = mem s ∧ mems s' = mems s ∧ r ≠ inl UR_RESULT_SUCCESS.
Proof.
  intros Ht Hi Hr. apply Ht in Hr as [[n ->] ?]. destruct (iter_quiet σ n s Hi), (iter_called n s) as (? & ? & _). done.
Qed.

Lemma read_ok σ s q h b off n dst ev r s' :
  inv s σ → (getDevice q < ndev)%nat → fits off n →
  host_buffer user s σ dst n ∨ (∃ m, mems s !! h = Some m ∧ HostPtr m ≠ 0 ∧ dst = HostPtr m + off) →
  urEnqueueMemBufferRead q h b off n dst ev s = (r, s') →
  keeps σ s s' ∧ r ≠ inl UR_RESULT_SUCCESS ∧
  (r = inr () → ∃ c, σ !! h = Some c ∧ agrees c off n (λ i, mem s' (dst + i))).
Proof.
  intros Hi Hdq Hf Hh Hr. unfold urEnqueueMemBufferRead in Hr. step Hr; apply get_inv in E as [-> Hm].
  2: { destruct Hm as [_ ?]. split; [by apply keeps_refl|]. split; [congruence|done]. }
  rename a into m. destruct (inv_lookup _ _ _ _ _ _ Hi Hm) as (c & Hc & Hco).
  step Hr; apply assert_inv in E as [-> Ha];
    [|split; [by apply keeps_refl|split; [destruct (_ <=? _); congruence|done]]].
  rewrite (u64_fits _ _ Hf) in Ha. destruct (off + n <=? Size m) eqn:En; [|done]. bool_to_prop.
  set (d := getDevice (reading_queue q m)) in *.
  assert ((d < ndev)%nat ∧ (alias m = true ∨ current m d = true)) as [Hd Hcur].
  { unfold d, reading_queue, current. destruct (LastQueueWritingToMemObj m) as [q'|] eqn:EL; [|split; [done|right; by rewrite orb_true_r]].
    pose proof (co_queue _ _ _ _ Hco q' EL). destruct (Nat.eqb_spec (getDevice q') (getDevice q)); simpl;
      (split; [done|right]); [by rewrite e, Nat.eqb_refl, orb_true_r|by rewrite Nat.eqb_refl, orb_true_r]. }
  step Hr; eapply (ticks_keeps _ σ) in E as (Q1 & G1 & M1 & T1 & N1);
    [|apply ticks_begin|done|split; [by apply quiet_keeps|split; [congruence|done]]|apply ticks_begin|done].
  step Hr; pose proof (getPtr_grown _ _ _ _ _ _ E) as G2; apply (getPtr_ok σ) in E as [Q2 HP];
    [|by apply (q_inv _ _ _ Q1)|done|split; [apply quiet_keeps; by eapply quiet_trans|split; [congruence|done]]
     |by apply (q_inv _ _ _ Q1)|done].
  destruct HP as [HP (m2 & Hm2 & ->)]. pose proof (quiet_trans _ _ _ _ Q1 Q2) as Q.
  destruct (quiet_lookup _ _ _ _ _ Q Hm) as (? & ? & X). simplify_eq.
  assert (∀ i v, 0 ≤ i < n → c (off + i) = Some v → mem s1 (ptr m2 d + off + i) = v) as Hsrc.
  { intros i v Hir Hci. replace (ptr m2 d + off + i) with (ptr m2 d + (off + i)) by lia. destruct Hf as (? & ? & ?).
    eapply placed_bytes; [by apply (q_inv _ _ _ Q)|done..| |rewrite (ext_size _ _ X); lia|done].
    by rewrite (ext_alias _ _ X), (ext_current _ _ _ X). }
  assert (∀ r0 t0, copy_async dst (ptr m2 d + off) n s1 = (r0, t0) → keeps σ s1 t0 ∧
    (r0 = inr () → mem t0 = memcpy dst (ptr m2 d + off) n (mem s1)) ∧ r0 ≠ inl UR_RESULT_SUCCESS) as Hcopy.
  { intros r0 t0 E. destruct Hh as [Hh|(m0 & Hm0 & Hp0 & ->)].
    - eapply (host_copy_keeps _ σ); [by apply (q_inv _ _ _ Q)| |done].
      intros a' Ha'; apply (quiet_host _ s); [done|by eapply grown_trans|by apply Hh].
    - simplify_eq. rewrite <-(ext_host _ _ X) in E |- *. destruct Hf as (? & ? & ?).
      eapply (own_copy_keeps σ s1 h m2 c); try done; [by apply (q_inv _ _ _ Q)|by rewrite (ext_host _ _ X)|by rewrite (ext_size _ _ X)]. }
  step Hr; apply Hcopy in E as (K3 & M3 & N3);
    [|split; [eapply keeps_then; [by apply quiet_keeps|done]|split; [congruence|done]]].
  destruct a. specialize (M3 eq_refl). eapply (ticks_keeps _ σ) in Hr as (Q4 & _ & M4 & _ & N4);
    [|apply ticks_finish|by apply (k_inv _ _ _ K3)].
  split; [eapply keeps_then; [eapply keeps_then; [by apply quiet_keeps|done]|by apply quiet_keeps]|].
  split; [done|]. intros _. exists c. split; [done|]. intros i v Hr Hci. rewrite M4, M3, memcpy_inside by done.
  by apply Hsrc.
Qed.

Lemma keeps_weaken σ s s' h m c c' :
  keeps σ s s' → mems s !! h = Some m → σ !! h = Some c →
  (∀ i v, 0 ≤ i < Size m → c' i = Some v → c i = Some v) → keeps (<[h := c']> σ) s s'.
Proof.
  intros [] Hm Hc Hle. split; try done. destruct (k_ext0 h m Hm) as (m' & Hm' & _ & Es & _).
  eapply (inv_weaken _ _ s'); [done|done|done|]. by rewrite Es.
Qed.

Lemma device_write σ s h m c d off n mm' :
  inv s σ → mems s !! h = Some m → σ !! h = Some c → placed s h d → (d < ndev)%nat →
  0 ≤ off → off + n ≤ Size m → sole ndev m d →
  alias m = true ∨ LastQueueWritingToMemObj m ≠ None ∨ ndev = 1%nat →
  (∀ a, in_range (ptr m d + off) n a = false → mm' a = mem s a) →
  keeps (<[h := upd c off n (λ i, Some (mm' (ptr m d + off + i)))]> σ) s (set_mem (λ _, mm') s).
Proof.
  intros Hi Hm Hc Hp Hd Hoff Hn Hs HL Hmm. destruct (placed_inv _ _ _ _ Hp Hm) as [Hnz Ha].
  assert ((if alias m then HostPtr m else ptr m d) = ptr m d) as Ep by (destruct (alias m); [by rewrite Ha|done]).
  split; try done.
  - rewrite <-Ep. apply (inv_write_cell _ _ s σ h m c d off n mm'); try done; [|by rewrite Ep|by rewrite Ep].
    destruct HL as [HL|[HL|HL]]; [by left| |by right; right]. destruct (decide (1 < ndev)%nat) as [?|?]; [by right; left|right; right; lia].
  - intros h' m' Hm'. by exists m'.
Qed.

Definition after_last (m : ur_mem) (d : nat) (c : content) : content :=
  if alias m || current m d then c else λ _, None.
Lemma after_last_spec m d c off n i v :
  may_write m d off n → 0 ≤ i < Size m → in_range off n i = false → c i = Some v → after_last m d c i = Some v.
Proof.
  intros Hw Hi Hr Hc. unfold after_last. destruct Hw as [->|[->|[-> ->]]]; [done|by rewrite orb_true_r|]. ranges. lia.
Qed.
(** Losing a range is always covered, before and after the writer is noted. *)
Lemma keeps_lost σ s s' h m c off n :
  keeps σ s s' → mems s !! h = Some m → σ !! h = Some c →
  keeps (<[h := upd c off n (λ _, None)]> σ) s s'.
Proof. intros Hk Hm Hc. apply (keeps_weaken σ s s' h m c); try done. intros i v _ Hu. by apply upd_lost in Hu as [_ ?]. Qed.
Lemma keeps_after σ s s' h m d c c' off n :
  keeps (<[h := after_last m d c]> σ) s s' → mems s !! h = Some m → may_write m d off n →
  (∀ i v, 0 ≤ i < Size m → c' i = Some v → in_range off n i = false ∧ c i = Some v) → keeps (<[h := c']> σ) s s'.
Proof.
  intros Hk Hm Hw Hc. rewrite <-(insert_insert_eq σ h c' (after_last m d c)).
  eapply keeps_weaken; [exact Hk|exact Hm|by rewrite lookup_insert_eq|]. intros i v Hi Hci. destruct (Hc i v Hi Hci).
  by eapply after_last_spec.
Qed.

(** A range is overwritten on the device that has been noted. *)
Lemma noted_write σ s0 s h m m' c d off n mm' :
  keeps (<[h := after_last m d c]> σ) s0 s → mems s0 !! h = Some m → mems s !! h = Some m' → placed s h d → (d < ndev)%nat →
  0 ≤ off → off + n ≤ Size m → may_write m d off n → sole ndev m' d → LastQueueWritingToMemObj m' ≠ None →
  (∀ a, in_range (ptr m' d + off) n a = false → mm' a = mem s a) →
  keeps (<[h := upd c off n (λ i, Some (mm' (ptr m' d + off + i)))]> σ) s0 (set_mem (λ _, mm') s).
Proof.
  intros Hk Hm Hm' Hp Hd Hoff Hn Hw Hs HL Hmm. destruct (k_ext _ _ _ Hk h m Hm) as (? & ? & _ & Es & _). simplify_eq.
  pose proof (device_write _ s h m' (after_last m d c) d off n mm' (k_inv _ _ _ Hk) Hm' (lookup_insert_eq _ _ _)
    Hp Hd Hoff ltac:(by rewrite Es) Hs (or_intror (or_introl HL)) Hmm) as Hk'.
  rewrite insert_insert_eq in Hk'. pose proof (keeps_then _ _ _ _ _ Hk Hk') as Hk2.
  rewrite <-(insert_insert_eq σ h _ (upd (after_last m d c) off n (λ i, Some (mm' (ptr m' d + off + i))))).
  eapply keeps_weaken; [exact Hk2|exact Hm|by rewrite lookup_insert_eq|]. intros i v Hi. unfold upd.
  destruct (in_range off n i) eqn:E; [done|]. by apply after_last_spec with (off := off) (n := n).
Qed.

Lemma keeps_upd σ s s' h m c off n f g :
  keeps (<[h := upd c off n g]> σ) s s' → mems s !! h = Some m → (∀ i, 0 ≤ i < n → f i = g i) →
  keeps (<[h := upd c off n f]> σ) s s'.
Proof.
  intros Hk Hm Hfg. rewrite <-(insert_insert_eq σ h _ (upd c off n g)).
  eapply keeps_weaken; [exact Hk|exact Hm|by rewrite lookup_insert_eq|]. intros i v _. unfold upd.
  destruct (in_range off n i) eqn:E; [|done]. ranges. rewrite Hfg by lia. done.
Qed.

Lemma after_last_ext m m' d c : ext m m' → after_last m' d c = after_last m d c.
Proof. intros X. unfold after_last. by rewrite (ext_alias _ _ X), (ext_current _ _ _ X). Qed.

(** The writing device has been noted: what the rest of the command finds. *)
Record noted (σ : spec) (s0 s : state) (h : Z) (m : ur_mem) (c : content) (q : ur_queue) (m' : ur_mem) : Prop := {
  nt_keeps : keeps (<[h := after_last m (getDevice q) c]> σ) s0 s;
  nt_mem : mem s = mem s0;
  nt_lookup : mems s !! h = Some m';
  nt_sole : sole ndev m' (getDevice q);
  nt_last : LastQueueWritingToMemObj m' ≠ None }.

Lemma note_ok σ s0 s h m m1 c q r s' :
  quiet σ s0 s → mems s0 !! h = Some m → mems s !! h = Some m1 → σ !! h = Some c → (getDevice q < ndev)%nat →
  setLastQueueWritingToMemObj h q s = (r, s') →
  r = inr () ∧ noted σ s0 s' h m c q (now_current q m1) ∧ grown s s'.
Proof.
  intros Hq Hm Hm1 Hc Hd Hr. destruct (quiet_lookup _ _ _ _ _ Hq Hm) as (? & ? & X). simplify_eq.
  destruct (set_last_ok σ s h q m1 c r s' (q_inv _ _ _ Hq) Hm1 Hc Hd Hr) as (-> & Em & Ems & Hs & Hk).
  split; [done|]. split.
  - split; [|by rewrite Em, (q_mem _ _ _ Hq)|by rewrite Ems, lookup_insert_eq|done|done].
    eapply keeps_then; [by apply quiet_keeps|]. by rewrite <-(after_last_ext _ _ _ _ X).
  - assert (regions s' = regions s) as Er.
    { unfold setLastQueueWritingToMemObj, mbind, M_bind, get in Hr. rewrite Hm1 in Hr. simpl in Hr.
      destruct (LastQueueWritingToMemObj m1); by injection Hr as <-. }
    split; [intros a (p & n & Hin & ?); exists p, n; by rewrite Er|]. intros h' m' k a. rewrite Ems, lookup_insert. case_decide.
    + subst h'. intros [= <-] Hcell. left. by exists m1.
    + intros Hm' Hcell. left. by exists m'.
Qed.

Lemma noted_quiet σ s0 s s' h m c q m' :
  noted σ s0 s h m c q m' → quiet (<[h := after_last m (getDevice q) c]> σ) s s' →
  ∃ m2, ext m' m2 ∧ noted σ s0 s' h m c q m2.
Proof.
  intros [] Hq. destruct (quiet_lookup _ _ _ _ _ Hq nt_lookup0) as (m2 & Hm2 & X). exists m2. split; [done|]. split.
  - eapply keeps_then; [done|by apply quiet_keeps].
  - by rewrite (q_mem _ _ _ Hq).
  - done.
  - destruct nt_sole0 as [?|[Hc Hs]]; [left; by rewrite (ext_alias _ _ X)|right]. rewrite (ext_current _ _ _ X).
    split; [done|]. intros d' Hd'. rewrite (ext_current _ _ _ X). by apply Hs.
  - by rewrite (ext_last _ _ X).
Qed.

Lemma noted_lost σ s0 s h m c q m' off n :
  noted σ s0 s h m c q m' → mems s0 !! h = Some m → may_write m (getDevice q) off n →
  keeps (<[h := upd c off n (λ _, None)]> σ) s0 s.
Proof. intros [] Hm Hw. eapply keeps_after; [done..|]. intros i v _ Hu. by apply upd_lost in Hu. Qed.

Lemma noted_called σ s0 s h m c q m' : noted σ s0 s h m c q m' → noted σ s0 (called s) h m c q m'.
Proof.
  intros []. split; try done. eapply keeps_then; [done|]. apply called_keeps, (k_inv _ _ _ nt_keeps0).
Qed.

(** The command has overwritten the range and only has its event left to do. *)
Lemma noted_done σ s0 s h m c q m' off n mm' t r s' :
  noted σ s0 s h m c q m' → mems s0 !! h = Some m → placed s h (getDevice q) → (getDevice q < ndev)%nat →
  0 ≤ off → off + n ≤ Size m → may_write m (getDevice q) off n →
  (∀ a, in_range (ptr m' (getDevice q) + off) n a = false → mm' a = mem s a) →
  ticks t → t (set_mem (λ _, mm') s) = (r, s') →
  keeps (<[h := upd c off n (λ i, if ok r then Some (mm' (ptr m' (getDevice q) + off + i)) else None)]> σ) s0 s' ∧
  r ≠ inl UR_RESULT_SUCCESS.
Proof.
  intros [] Hm Hp Hd Hoff Hn Hw Hmm Ht Hr.
  pose proof (noted_write σ s0 s h m m' c _ off n mm' nt_keeps0 Hm nt_lookup0 Hp Hd Hoff Hn Hw nt_sole0 nt_last0 Hmm) as Hk.
  eapply (ticks_keeps _ _) in Hr as (Q & _ & _ & _ & NE); [|done|by apply (k_inv _ _ _ Hk)]. split; [|done].
  pose proof (keeps_then _ _ _ _ _ Hk (quiet_keeps _ _ _ Q)) as Hk2.
  destruct (ok r); [done|]. rewrite <-(insert_insert_eq σ h _ (upd c off n (λ i, Some (mm' (ptr m' (getDevice q) + off + i))))).
  eapply keeps_weaken; [exact Hk2|exact Hm|by rewrite lookup_insert_eq|]. intros i v _ Hu. apply upd_lost in Hu as [E Hci].
  unfold upd. by rewrite E.
Qed.

Lemma placed_now s h d m q : placed s h d → mems s !! h = Some m →
  ptr (now_current q m) d ≠ 0 ∧ (alias m = true → ptr (now_current q m) d = HostPtr m).
Proof. intros Hp Hm. by apply (placed_inv _ _ _ _ Hp Hm). Qed.

Lemma write_ok σ s q h m c b off n src ev r s' :
  inv s σ → mems s !! h = Some m → σ !! h = Some c → (getDevice q < ndev)%nat → fits off n → off + n ≤ Size m →
  may_write m (getDevice q) off n →
  urEnqueueMemBufferWrite q h b off n src ev s = (r, s') →
  keeps (<[h := upd c off n (λ i, if ok r then Some (mem s (src + i)) else None)]> σ) s s' ∧ r ≠ inl UR_RESULT_SUCCESS.
Proof.
  intros Hi Hm Hc Hd Hf Hn Hw Hr. unfold urEnqueueMemBufferWrite, mbind at 1, M_bind at 1, get at 1 in Hr. rewrite Hm in Hr.
  step Hr; apply assert_inv in E as [-> Ha]; rewrite (u64_fits _ _ Hf) in Ha;
    (replace (off + n <=? Size m) with true in Ha by (symmetry; apply Z.leb_le; lia)); [|done].
  step Hr; apply (getPtr_ok σ) in E as [Q1 HP]; try done;
    [|split; [eapply keeps_lost; [by apply quiet_keeps|done..]|congruence]].
  destruct HP as [HP (m1 & Hm1 & ->)]. rewrite Z.add_0_r in Hr.
  step Hr; eapply note_ok in E as (Hr0 & N & _); try done. 
  step Hr; eapply (ticks_keeps _ _) in E as (Q2 & _ & M2 & T2 & NE); try apply ticks_begin; try apply (nt_keeps _ _ _ _ _ _ _ _ N).
  2: { destruct (noted_quiet _ _ _ _ _ _ _ _ _ N Q2) as (m2 & _ & N2). split; [by eapply noted_lost|congruence]. }
  destruct (noted_quiet _ _ _ _ _ _ _ _ _ N Q2) as (m2 & X2 & N2).
  assert (m2 = now_current q m1) as -> by (pose proof (nt_lookup _ _ _ _ _ _ _ _ N2); rewrite T2, (nt_lookup _ _ _ _ _ _ _ _ N) in *; congruence).
  step Hr; apply copy_inv in E as [[E ->]|(-> & Hok & NE2)]; try done.
  2: { destruct (noted_quiet _ _ _ _ _ _ _ _ _ N2 (called_quiet _ _ (k_inv _ _ _ (nt_keeps _ _ _ _ _ _ _ _ N2)))) as (m2 & _ & N3).
       split; [by eapply noted_lost|congruence]. }
  apply noted_called in N2. eapply (noted_done σ s (called s2) h m c q (now_current q m1) off n) in Hr as [Hk ?]; try done.
  - split; [|done]. eapply keeps_upd; [exact Hk|done|]. intros i Hin. cbv beta. destruct (ok r); [|done]. f_equal.
    change (ptr (now_current q m1) (getDevice q)) with (ptr m1 (getDevice q)). rewrite memcpy_inside by done.
    simpl. by rewrite M2, (nt_mem _ _ _ _ _ _ _ _ N).
  - eexists. split; [apply (nt_lookup _ _ _ _ _ _ _ _ N2)|]. exact (placed_now s0 h _ m1 q HP Hm1).
  - by destruct Hf.
  - intros x Hx. by apply memcpy_outside.
  - apply ticks_finish.
Qed.
End quiet.

#[export] Existing Instance ext_preorder.
#[global] Arguments q_inv {_ _ _ _ _} _.
#[global] Arguments q_ext {_ _ _ _ _} _.
#[global] Arguments q_mem {_ _ _ _ _} _.
#[global] Arguments k_inv {_ _ _ _ _} _.
#[global] Arguments k_ext {_ _ _ _ _} _.
#[global] Arguments nt_keeps {_ _ _ _ _ _ _ _ _ _} _.
#[global] Arguments nt_mem {_ _ _ _ _ _ _ _ _ _} _.
#[global] Arguments nt_lookup {_ _ _ _ _ _ _ _ _ _} _.
End MemFacts.
