(* ===== verification/CudaFill.v ===== *)
(** * What the fills of the CUDA adapter write

    Fills with patterns of 1, 2 and 4 bytes are one call; longer patterns are
    written a word at a time, every word strided over the buffer. *)
From stdpp Require Import base numbers list gmap relations.
From S2P Require Import Prelude UrUtil FlatMemory CudaMemory CudaMemoryProofs.
Import Util.
Local Open Scope Z_scope.

Module FillFacts.
Import Mem MemSpec MemFacts.

Lemma nth_word w t k pat : 0 ≤ w → 0 ≤ t → 0 ≤ k < w → 
  nth (Z.to_nat k) (take (Z.to_nat w) (drop (Z.to_nat (t * w)) pat)) 0 = nth (Z.to_nat (t * w + k)) pat 0.
Proof.
  intros Hw Ht Hk. rewrite !nth_lookup, lookup_take_lt, lookup_drop by lia.
  by replace (Z.to_nat (t * w) + Z.to_nat k)%nat with (Z.to_nat (t * w + k)) by nia.
Qed.

(** Byte [i] lies in row position [t] of the pattern. *)
Lemma row_position N w i : 0 < w → 0 < N → ∃ q t k, i = q * (N * w) + t * w + k ∧ 0 ≤ t < N ∧ 0 ≤ k < w ∧
  i `mod` (N * w) = t * w + k ∧ i `mod` w = k.
Proof.
  intros Hw HN. pose proof (Z.div_mod i (N * w) ltac:(nia)) as E1. pose proof (Z.mod_pos_bound i (N * w) ltac:(nia)) as B1.
  set (r := i `mod` (N * w)) in *. pose proof (Z.div_mod r w ltac:(lia)) as E2. pose proof (Z.mod_pos_bound r w Hw) as B2.
  exists (i `div` (N * w)), (r `div` w), (r `mod` w). split; [nia|].
  split; [split; [apply Z.div_pos; lia|apply Z.div_lt_upper_bound; lia]|]. split; [done|]. split; [lia|].
  rewrite E1. replace (N * w * (i `div` (N * w)) + r) with (r + (N * (i `div` (N * w))) * w) by lia. apply Z_mod_plus_full.
Qed.

Lemma strided_position N w i t : 0 < w → 0 ≤ t < N → 
  ((i - t * w) `mod` (N * w) <? w) = ((i `mod` (N * w)) `div` w =? t).
Proof.
  intros Hw Ht. destruct (row_position N w i Hw ltac:(lia)) as (q & t' & k & Ei & Ht' & Hk & Em & _).
  assert ((i `mod` (N * w)) `div` w = t') as -> by (rewrite Em; symmetry; apply Z.div_unique with k; lia).
  destruct (decide (t ≤ t')).
  - assert ((i - t * w) `mod` (N * w) = (t' - t) * w + k) as -> by (symmetry; apply Z.mod_unique with q; nia).
    destruct (Z.eqb_spec t' t) as [->|]; [apply Z.ltb_lt; lia|apply Z.ltb_ge; nia].
  - assert ((i - t * w) `mod` (N * w) = (t' - t + N) * w + k) as -> by (symmetry; apply Z.mod_unique with (q - 1); nia).
    destruct (Z.eqb_spec t' t) as [->|]; [lia|apply Z.ltb_ge; nia].
Qed.

Section large.
Context (w N H p : Z) (pat : list Z) (m : memory).
Hypothesis (Hw : 0 < w) (HN : 0 < N) (HH : 0 ≤ H) (Hlen : Z.of_nat (length pat) = N * w).
Let word (t : Z) : list Z := take (Z.to_nat w) (drop (Z.to_nat (t * w)) pat).
Let eff (t : Z) : memory → memory :=
  if t =? 0 then cuMemset p (word 0) (H * N) else cuMemsetD2D (p + t * w) (N * w) (word t) H.

Lemma length_word t : 0 ≤ t < N → Z.of_nat (length (word t)) = w.
Proof. intros Ht. unfold word. rewrite length_take, length_drop. nia. Qed.

Lemma strided_effect t mm i : 0 < t < N →
  eff t mm (p + i) = if in_range 0 (H * (N * w)) i && ((i `mod` (N * w)) `div` w =? t)
                     then nth (Z.to_nat (i `mod` (N * w))) pat 0 else mm (p + i).
Proof.
  intros Ht. unfold eff. destruct (Z.eqb_spec t 0) as [->|_]; [lia|]. unfold cuMemsetD2D. rewrite length_word by lia.
  replace (p + i - (p + t * w)) with (i - t * w) by lia. rewrite strided_position by lia.
  destruct (row_position N w i Hw HN) as (q & t' & k & Ei & Ht' & Hk & Em & _).
  assert ((i `mod` (N * w)) `div` w = t') as Et by (rewrite Em; symmetry; apply Z.div_unique with k; lia). rewrite Et.
  destruct (Z.eqb_spec t' t) as [->|]; [|by rewrite !andb_false_r]. rewrite !andb_true_r.
  assert (in_range (p + t * w) (N * w * H) (p + i) = in_range 0 (H * (N * w)) i) as ->.
  { unfold in_range. assert (p + t * w ≤ p + i ↔ 0 ≤ i) as H1 by (split; [nia|intros; assert (0 ≤ q) by nia; nia]).
    assert (p + i < p + t * w + N * w * H ↔ i < 0 + H * (N * w)) as H2.
    { split; [intros; assert (q < H) by nia; nia|intros; assert (q < H) by nia; nia]. }
    f_equal; apply Is_true_true_2 || idtac; apply eq_true_iff_eq; rewrite ?Z.leb_le, ?Z.ltb_lt; done. }
  destruct (in_range 0 _ i); [|done].
  assert ((i - t * w) `mod` (N * w) = k) as -> by (symmetry; apply Z.mod_unique with q; nia).
  unfold word. rewrite nth_word by lia. by rewrite Em.
Qed.

Lemma first_effect mm i :
  eff 0 mm (p + i) = if in_range 0 (H * (N * w)) i then nth (Z.to_nat (i `mod` w)) (word 0) 0 else mm (p + i).
Proof.
  unfold eff. simpl. unfold cuMemset. rewrite length_word by lia. replace (p + i - p) with i by lia.
  replace (in_range p (w * (H * N)) (p + i)) with (in_range 0 (H * (N * w)) i); [done|].
  unfold in_range. f_equal; apply eq_true_iff_eq; rewrite ?Z.leb_le, ?Z.ltb_lt; lia.
Qed.

(** After the first [j] steps. *)
Lemma steps_effect j i : (0 < j)%nat → Z.of_nat j ≤ N →
  foldl (λ mm t, eff t mm) m (seqZ 0 (Z.of_nat j)) (p + i) =
    if in_range 0 (H * (N * w)) i
    then if (i `mod` (N * w)) `div` w <? Z.of_nat j then nth (Z.to_nat (i `mod` (N * w))) pat 0
         else nth (Z.to_nat (i `mod` w)) (word 0) 0
    else m (p + i).
Proof.
  intros Hj Hle. destruct (row_position N w i Hw HN) as (q & t & k & Ei & Ht & Hk & Em & Ek).
  assert ((i `mod` (N * w)) `div` w = t) as Et by (rewrite Em; symmetry; apply Z.div_unique with k; lia).
  induction j as [|j IH]; [lia|]. destruct (decide (j = 0)%nat) as [->|Hj0].
  - change (seqZ 0 (Z.of_nat 1)) with [0]. cbn [foldl]. rewrite first_effect. destruct (in_range _ _ i); [|done]. rewrite Et.
    destruct (Z.ltb_spec t (Z.of_nat 1)); [|done]. assert (t = 0) as -> by lia. rewrite Em, Ek.
    replace (0 * w + k) with k by lia. unfold word. by rewrite nth_word by lia.
  - replace (Z.of_nat (S j)) with (Z.of_nat j + 1) by lia. rewrite seqZ_app by lia. rewrite foldl_app.
    replace (0 + Z.of_nat j) with (Z.of_nat j) by lia. assert (seqZ (Z.of_nat j) 1 = [Z.of_nat j]) as -> by (unfold seqZ; simpl; by rewrite Z.add_0_r || f_equal; lia).
    cbn [foldl]. rewrite strided_effect by lia. rewrite IH by lia. rewrite Et. destruct (in_range _ _ i); [|done]. simpl.
    destruct (Z.eqb_spec t (Z.of_nat j)) as [->|]; [by replace (Z.of_nat j <? Z.of_nat j + 1) with true by (symmetry; apply Z.ltb_lt; lia)|].
    by replace (t <? Z.of_nat j + 1) with (t <? Z.of_nat j) by (apply eq_true_iff_eq; rewrite !Z.ltb_lt; lia).
Qed.
End large.

Section fill.
Context `{CudaDriver}.

(** A loop of calls that each change the memory. *)
Lemma forM_effect {A} (l : list A) (eff : A → memory → memory) s r s' :
  forM l (λ x, _ ← cu; modify (set_mem (eff x))) s = (r, s') →
  ∃ j k, (j ≤ length l)%nat ∧ s' = set_mem (λ _, foldl (λ mm x, eff x mm) (mem s) (take j l)) (Nat.iter k called s) ∧
    (r = inr () → j = length l) ∧ r ≠ inl UR_RESULT_SUCCESS.
Proof.
  revert s. induction l as [|x l IH]; intros s Hr.
  - injection Hr as <- <-. exists 0%nat, 0%nat. split; [done|]. split; [by destruct s|]. done.
  - cbn [forM] in Hr. step Hr.
    + apply bind_inv in E as [(u & s1 & E0 & E)|(e & _ & [=])]. apply cu_inv in E0 as [-> _]. injection E as <- <-.
      destruct (IH _ Hr) as (j & k & Hj & -> & Hr' & Hne). exists (S j), (S k). simpl. split; [lia|]. split; [|split; [|done]].
      * clear. simpl. generalize (foldl (λ mm x, eff x mm) (eff x (mem s)) (take j l)). intros mm.
        assert (∀ g s0, set_mem (λ _, mm) (Nat.iter k called (set_mem g s0)) = set_mem (λ _, mm) (Nat.iter k called s0)) as Hg.
        { intros g s0. assert (∃ f, Nat.iter k called (set_mem g s0) = set_mem f (Nat.iter k called s0)) as [f ->]; [|done].
          induction k as [|k [f E]]; [by exists g|]. exists f. simpl. rewrite E. done. }
        rewrite Hg. clear Hg. f_equal. induction k as [|k IHk]; [done|]. simpl. by rewrite IHk.
      * intros Hr0. by rewrite (Hr' Hr0).
    + apply bind_inv in E as [(u & s1 & E0 & [=])|(e' & E0 & [= ->])]. apply cu_inv in E0 as [-> Hne].
      exists 0%nat, 1%nat. split; [lia|]. split; [by destruct s|]. split; [done|congruence].
Qed.

Lemma take_seqZ j K : (j ≤ length (seqZ 0 K))%nat → take j (seqZ 0 K) = seqZ 0 (Z.of_nat j).
Proof.
  intros Hj. rewrite length_seqZ in Hj. destruct (decide (0 ≤ K)) as [?|?]; [|assert (j = 0)%nat as -> by lia; done].
  replace K with (Z.of_nat j + (K - Z.of_nat j)) at 1 by lia. rewrite seqZ_app by lia.
  rewrite take_app_le by (rewrite length_seqZ; lia). rewrite take_ge by (rewrite length_seqZ; lia). done.
Qed.

(** The words of a pattern. *)
Lemma word_size ps : 0 < ps → let w := if ps `mod` 4 =? 0 then 4 else if ps `mod` 2 =? 0 then 2 else 1 in
  0 < w ∧ ps = ps `div` w * w ∧ 0 < ps `div` w.
Proof.
  intros Hps w. assert (0 < w ∧ ps `mod` w = 0) as [Hw Hm].
  { unfold w. destruct (Z.eqb_spec (ps `mod` 4) 0), (Z.eqb_spec (ps `mod` 2) 0); split; try lia; apply Z.mod_1_r. }
  split; [done|]. pose proof (Z.div_mod ps w ltac:(lia)). assert (ps = ps `div` w * w) as E by lia. split; [done|]. nia.
Qed.

Lemma large_pattern ps n pat p s r s' :
  0 < ps < 2 ^ 32 → Z.of_nat (length pat) = ps → 0 ≤ n → n `mod` ps = 0 →
  commonMemSetLargePattern ps n pat p s = (r, s') →
  ∃ mm k, s' = set_mem (λ _, mm) (Nat.iter k called s) ∧ r ≠ inl UR_RESULT_SUCCESS ∧
    (∀ i, in_range 0 n i = false → mm (p + i) = mem s (p + i)) ∧
    (r = inr () → ∀ i, 0 ≤ i < n → mm (p + i) = nth (Z.to_nat (i `mod` ps)) pat 0).
Proof.
  intros Hps Hlen Hn Hmod. unfold commonMemSetLargePattern. rewrite u32_small by (unfold in_u32; lia).
  destruct (word_size ps ltac:(lia)) as (Hw & Eps & HN). set (w := if ps `mod` 4 =? 0 then 4 else _) in *.
  set (N := ps `div` w) in *. set (rows := n `div` ps).
  assert (n = rows * (N * w)) as En by (pose proof (Z.div_mod n ps ltac:(lia)); unfold rows; lia).
  assert (0 ≤ rows) as HH by (apply Z.div_pos; lia).
  assert (n `div` w = rows * N) as -> by (rewrite En; replace (rows * (N * w)) with (rows * N * w) by lia; apply Z.div_mul; lia).
  set (all := forallb _ _). intros Hr. apply forM_effect in Hr as (j & k & Hj & -> & Hr & Hne).
  rewrite take_seqZ by done. rewrite length_seqZ in Hj, Hr. eexists _, k. split; [done|]. split; [done|].
  assert (Z.to_nat (if all then 1 else N) = 1%nat ∧ all = true ∨ Z.to_nat (if all then 1 else N) = Z.to_nat N ∧ all = false)
    as HK by (destruct all; [by left|by right]).
  split.
  - intros i Hi. destruct (decide (j = 0)%nat) as [->|?]; [done|].
    rewrite (steps_effect w N rows p pat (mem s)) by (done || lia). rewrite <-En. by rewrite Hi.
  - intros Hr0 i Hi. specialize (Hr Hr0). subst j.
    rewrite (steps_effect w N rows p pat (mem s)) by (done || lia). rewrite <-En, (proj2 (in_range_true 0 n i)) by lia.
    destruct (row_position N w i Hw HN) as (q & t & k' & Ei & Ht & Hk & Em & Ek).
    assert ((i `mod` (N * w)) `div` w = t) as -> by (rewrite Em; symmetry; apply Z.div_unique with k'; lia).
    replace (i `mod` ps) with (i `mod` (N * w)) by (by rewrite <-Eps). destruct (Z.ltb_spec t (Z.of_nat (Z.to_nat (if all then 1 else N)))) as [?|Hge]; [done|].
    destruct HK as [[HK Hall]|[HK _]]; [|lia]. unfold all in Hall. rewrite forallb_forall in Hall.
    specialize (Hall t). rewrite bool_decide_eq_true in Hall. rewrite <-Hall by (apply list_elem_of_In, elem_of_seqZ; lia).
    rewrite Ek, Em. rewrite nth_word by lia. done.
Qed.

Lemma fill_bytes_ok ps n pat p s r s' :
  0 < ps < 2 ^ 32 → Z.of_nat (length pat) = ps → 0 ≤ n → n `mod` ps = 0 →
  fill_bytes pat ps n p s = (r, s') →
  ∃ mm k, s' = set_mem (λ _, mm) (Nat.iter k called s) ∧ r ≠ inl UR_RESULT_SUCCESS ∧
    (∀ i, in_range 0 n i = false → mm (p + i) = mem s (p + i)) ∧
    (r = inr () → ∀ i, 0 ≤ i < n → mm (p + i) = nth (Z.to_nat (i `mod` ps)) pat 0).
Proof.
  intros Hps Hlen Hn Hmod. unfold fill_bytes. destruct (_ || _); [|by apply large_pattern]. intros Hr.
  step Hr; apply cu_inv in E as [-> Hne].
  2: { exists (mem s), 1%nat. split; [by destruct s|]. split; [congruence|]. done. }
  injection Hr as <- <-. exists (cuMemset p pat (n `div` ps) (mem s)), 1%nat. split; [done|]. split; [done|].
  assert (∀ i, cuMemset p pat (n `div` ps) (mem s) (p + i) = if in_range 0 n i then nth (Z.to_nat (i `mod` ps)) pat 0 else mem s (p + i)) as Hset.
  { intros i. unfold cuMemset. rewrite Hlen. replace (p + i - p) with i by lia.
    assert (ps * (n `div` ps) = n) as -> by (pose proof (Z.div_mod n ps ltac:(lia)); lia).
    replace (in_range p n (p + i)) with (in_range 0 n i); [done|].
    unfold in_range. f_equal; apply eq_true_iff_eq; rewrite ?Z.leb_le, ?Z.ltb_lt; lia. }
  split; [intros i Hi; by rewrite Hset, Hi|]. intros _ i Hi. by rewrite Hset, (proj2 (in_range_true 0 n i)) by lia.
Qed.
End fill.
End FillFacts.
