(* ===== verification/CudaCommands.v ===== *)
(** * What each command of the CUDA adapter does to the array of a buffer

    One lemma per function: the invariant of [MemFacts] holds afterwards for the
    arrays the command leaves. *)
From stdpp Require Import base numbers list gmap relations.
From S2P Require Import Prelude UrUtil FlatMemory CudaMemory CudaMemoryProofs CudaFill.
Import Util.
Local Open Scope Z_scope.

(** ** Commands *)
Module CommandFacts.
Import Mem MemSpec MemFacts FillFacts.

Section facts.
Context `{CudaDriver} (ndev : nat) (user : Z → Prop).
Hypothesis (Hmalloc : ∀ l n, 0 < cu_malloc l n ∧
  ∀ a, in_range (cu_malloc l n) n a = true → ¬ user a ∧ ∀ p k, (p, k) ∈ l → in_range p k a = false).
Hypothesis (Huva : ∀ p, cuMemHostGetDevicePointer p = p).
Abbreviation inv := (inv ndev user).
Abbreviation keeps := (keeps ndev user).
Abbreviation noted := (noted ndev user).

Lemma ticks_throw e : e ≠ UR_RESULT_SUCCESS → ticks (throw e).
Proof. intros He s r s' [= <- <-]. split; [by exists 0%nat|congruence]. Qed.

Lemma noted_iter k σ s0 s h m c q m' : noted σ s0 s h m c q m' → noted σ s0 (Nat.iter k called s) h m c q m'.
Proof. intros Hn. induction k as [|k IH]; [done|]. simpl. by apply noted_called. Qed.

Lemma fill_ok σ s q h m c pat ps off n ev r s' :
  inv s σ → mems s !! h = Some m → σ !! h = Some c → (getDevice q < ndev)%nat → fits off n → off + n ≤ Size m →
  may_write m (getDevice q) off n → 0 < ps < 2 ^ 32 → Z.of_nat (length pat) = ps → n `mod` ps = 0 →
  urEnqueueMemBufferFill q h pat ps off n ev s = (r, s') →
  keeps (<[h := upd c off n (λ i, if ok r then Some (nth (Z.to_nat (i `mod` ps)) pat 0) else None)]> σ) s s'.
Proof.
  intros Hi Hm Hc Hd Hf Hn Hw Hps Hlen Hmod Hr.
  unfold urEnqueueMemBufferFill, mbind at 1, M_bind at 1, get at 1 in Hr. rewrite Hm in Hr.
  step Hr; apply assert_inv in E as [-> Ha]; rewrite (Z.add_comm n off), (u64_fits _ _ Hf) in Ha;
    (replace (off + n <=? Size m) with true in Ha by (symmetry; apply Z.leb_le; lia)); [|done].
  step Hr; eapply (note_ok ndev user) in E as (Hr0 & N & _); try done; try by apply quiet_refl.
  step Hr; eapply (ticks_keeps ndev user _ _) in E as (Q2 & _ & _ & _ & NE);
    try apply ticks_begin; try exact (k_inv (nt_keeps N)).
  2: { destruct (noted_quiet _ _ _ _ _ _ _ _ _ _ _ N Q2) as (m2 & _ & N2). by eapply noted_lost. }
  destruct (noted_quiet _ _ _ _ _ _ _ _ _ _ _ N Q2) as (m2 & _ & N2).
  step Hr; eapply (getPtr_ok ndev user Hmalloc Huva _) in E as [Q3 HP]; try done; try exact (k_inv (nt_keeps N2)).
  2: { destruct (noted_quiet _ _ _ _ _ _ _ _ _ _ _ N2 Q3) as (m3 & _ & N3). by eapply noted_lost. }
  destruct (noted_quiet _ _ _ _ _ _ _ _ _ _ _ N2 Q3) as (m3 & _ & N3).
  destruct HP as [HP (m4 & Hm4 & ->)]. rewrite (nt_lookup N3) in Hm4. injection Hm4 as <-.
  assert (∀ mm k t r0, (∀ i, in_range 0 n i = false → mm (ptr m3 (getDevice q) + off + i) = mem s2 (ptr m3 (getDevice q) + off + i)) →
    ticks t → t (set_mem (λ _, mm) (Nat.iter k called s2)) = (r0, s') →
    keeps (<[h := upd c off n (λ i, if ok r0 then Some (mm (ptr m3 (getDevice q) + off + i)) else None)]> σ) s s') as Hdone.
  { intros mm k t r0 Hout Ht Hr'. destruct (iter_called k s2) as (Em & Ems & _).
    apply (noted_done ndev user σ s (Nat.iter k called s2) h m c q m3 off n mm) in Hr' as [Hk _]; try done.
    - by apply noted_iter.
    - destruct HP as (m5 & ? & ?). exists m5. by rewrite Ems.
    - by destruct Hf.
    - intros x Hx. rewrite Em. replace x with (ptr m3 (getDevice q) + off + (x - (ptr m3 (getDevice q) + off))) by lia.
      apply Hout. ranges. lia. }
  step Hr; eapply fill_bytes_ok in E as (mm & k & -> & NE2 & Hout & Hin); try done; try by destruct Hf as (_ & ? & _).
  - eapply keeps_upd; [by eapply Hdone, Hr; [|apply ticks_finish]|done|]. intros i Hi'. cbv beta. destruct (ok r); [|done].
    f_equal. symmetry. apply Hin; [by destruct a2|done].
  - eapply keeps_upd; [by apply (Hdone mm k (throw e) (inl e)); [|apply ticks_throw; congruence|]|done|done].
Qed.
(** ** Copies *)
Lemma keeps_le σ s s' h m c off n f g :
  keeps (<[h := upd c off n g]> σ) s s' → mems s !! h = Some m →
  (∀ i v, 0 ≤ i < n → f i = Some v → g i = Some v) → keeps (<[h := upd c off n f]> σ) s s'.
Proof.
  intros Hk Hm Hfg. rewrite <-(insert_insert_eq σ h _ (upd c off n g)).
  eapply keeps_weaken; [exact Hk|exact Hm|by rewrite lookup_insert_eq|]. intros i v _. unfold upd.
  destruct (in_range off n i) eqn:E; [|done]. apply in_range_true in E. apply Hfg. lia.
Qed.

Lemma placed_keeps σ s s' h d : keeps σ s s' → placed s h d → placed s' h d.
Proof.
  intros Hk (m & Hm & Hp & Ha). destruct (k_ext Hk h m Hm) as (m' & Hm' & Eh & _ & Ea & _ & Ep).
  exists m'. rewrite Ep, Eh, Ea by done. done.
Qed.

(** With a single device the only copy is current. *)
Lemma single_current s σ h m c : inv s σ → mems s !! h = Some m → σ !! h = Some c → ndev = 1%nat →
  current m 0 = true ∧ sole ndev m 0.
Proof.
  intros Hi Hm Hc Hn. pose proof (inv_co _ _ _ _ Hi h m c Hm Hc) as Hco.
  assert (current m 0 = true) as Hcur.
  { unfold current. destruct (LastQueueWritingToMemObj m) as [q|] eqn:EL; [|by rewrite orb_true_r].
    pose proof (co_queue _ _ _ _ Hco q EL). replace (getDevice q) with 0%nat by lia. by rewrite orb_true_r. }
  split; [done|]. right. split; [done|]. intros d Hd _. lia.
Qed.

(** A sole copy that no queue has written is that of the only device. *)
Lemma sole_last m d : (d < ndev)%nat → sole ndev m d → alias m = true ∨ LastQueueWritingToMemObj m ≠ None ∨ ndev = 1%nat.
Proof.
  intros Hd [?|[_ Hs]]; [by left|]. right. destruct (LastQueueWritingToMemObj m) as [q|] eqn:EL; [by left|right].
  assert (∀ k, current m k = true) as Hcur by (intros k; unfold current; by rewrite EL, orb_true_r).
  destruct (decide (ndev = 1%nat)) as [?|Hn]; [done|]. destruct d as [|d].
  - assert (1%nat = 0%nat) by (apply Hs; [lia|done]). lia.
  - assert (0%nat = S d) by (apply Hs; [lia|done]). lia.
Qed.

Lemma ext_sole m m' d : ext m m' → sole ndev m d → sole ndev m' d.
Proof.
  intros X [?|[Hc Hs]]; [left; by rewrite (ext_alias _ _ X)|right]. rewrite (ext_current _ _ _ X). split; [done|].
  intros d' Hd'. rewrite (ext_current _ _ _ X). by apply Hs.
Qed.

Lemma copy_ok σ s q h1 h2 m1 m2 c1 c2 off1 off2 n ev r s' :
  inv s σ → mems s !! h1 = Some m1 → mems s !! h2 = Some m2 → σ !! h1 = Some c1 → σ !! h2 = Some c2 →
  (getDevice q < ndev)%nat → fits off1 n → fits off2 n → off1 + n ≤ Size m1 → off2 + n ≤ Size m2 →
  alias m1 = true ∨ current m1 (getDevice q) = true → sole ndev m2 (getDevice q) →
  urEnqueueMemBufferCopy q h1 h2 off1 off2 n ev s = (r, s') →
  keeps (<[h2 := upd c2 off2 n (λ i, if ok r then c1 (off1 + i) else None)]> σ) s s'.
Proof.
  intros Hi Hm1 Hm2 Hc1 Hc2 Hd Hf1 Hf2 Hn1 Hn2 Hcur Hsole Hr.
  unfold urEnqueueMemBufferCopy, mbind at 1, M_bind at 1, get at 1 in Hr. rewrite Hm2 in Hr.
  unfold mbind at 1, M_bind at 1, get at 1 in Hr. rewrite Hm1 in Hr.
  rewrite (Z.add_comm n off2), (u64_fits _ _ Hf2), (Z.add_comm n off1), (u64_fits _ _ Hf1) in Hr.
  rewrite !(proj2 (Z.leb_le _ _)) in Hr by lia. unfold mbind at 1 2, M_bind at 1 2, UR_ASSERT at 1 2 in Hr. simpl in Hr.
  assert (∀ s0 e, keeps σ s s0 → keeps (<[h2 := upd c2 off2 n (λ i, if ok (inl e : ur_result_t + unit) then c1 (off1 + i) else None)]> σ) s s0)
    as Hlost by (intros s0 e Hk; by eapply (keeps_lost ndev user)).
  step Hr; eapply (ticks_keeps ndev user _ _) in E as (Q1 & _ & _ & _ & _); try apply ticks_begin; try done;
    [|by apply Hlost, quiet_keeps].
  step Hr; apply (getPtr_ok ndev user Hmalloc Huva σ) in E as [Q2 HP1]; try done; try exact (q_inv Q1);
    pose proof (quiet_trans _ _ _ _ _ _ Q1 Q2) as Q12; [|by apply Hlost, quiet_keeps].
  destruct HP1 as [HP1 (n1 & L1 & ->)].
  step Hr; apply (getPtr_ok ndev user Hmalloc Huva σ) in E as [Q3 HP2]; try done; try exact (q_inv Q12);
    pose proof (quiet_trans _ _ _ _ _ _ Q12 Q3) as Q; [|by apply Hlost, quiet_keeps].
  destruct HP2 as [HP2 (n2 & L2 & ->)].
  destruct (quiet_lookup _ _ _ _ _ _ _ Q3 L1) as (k1 & K1 & Xk), (quiet_lookup _ _ _ _ _ _ _ Q Hm1) as (? & ? & X1),
    (quiet_lookup _ _ _ _ _ _ _ Q Hm2) as (? & ? & X2). simplify_eq.
  destruct (placed_inv _ _ _ _ HP1 L1) as [N1 _]. rewrite <-(ext_ptr _ _ Xk _ N1) in Hr.
  apply (placed_keeps _ _ _ _ _ (quiet_keeps _ _ _ _ _ Q3)) in HP1.
  assert (∀ i v, 0 ≤ i < n → c1 (off1 + i) = Some v → mem s2 (ptr k1 (getDevice q) + off1 + i) = v) as Hsrc.
  { intros i v Hir Hci. replace (ptr k1 (getDevice q) + off1 + i) with (ptr k1 (getDevice q) + (off1 + i)) by lia.
    destruct Hf1. eapply (placed_bytes ndev user s2 σ h1); try done; [exact (q_inv Q)| |rewrite (ext_size _ _ X1); lia].
    by rewrite (ext_alias _ _ X1), (ext_current _ _ _ X1). }
  step Hr; apply copy_inv in E as [[Ea ->]|(-> & Hok & NE)]; try done.
  2: { apply Hlost. eapply keeps_then; [by apply quiet_keeps|]. apply called_keeps, (q_inv Q). }
  set (mm := memcpy (ptr n2 (getDevice q) + off2) (ptr k1 (getDevice q) + off1) n (mem s2)).
  destruct Hf2 as (Ho2 & ? & ?).
  assert (keeps (<[h2 := upd c2 off2 n (λ i, Some (mm (ptr n2 (getDevice q) + off2 + i)))]> σ) (called s2)
            (set_mem (λ _, mm) (called s2))) as Hk.
  { apply (device_write ndev user σ (called s2) h2 n2 c2 (getDevice q) off2 n mm); try done.
    - apply inv_called, (q_inv Q).
    - by rewrite (ext_size _ _ X2).
    - by eapply ext_sole.
    - rewrite (ext_alias _ _ X2), (ext_last _ _ X2). by apply (sole_last _ (getDevice q)).
    - intros x Hx. by apply memcpy_outside. }
  pose proof (keeps_then _ _ _ _ _ _ _ (quiet_keeps _ _ _ _ _ Q) (keeps_then _ _ _ _ _ _ _ (called_keeps _ _ _ _ (q_inv Q)) Hk)) as Hk2.
  eapply (ticks_keeps ndev user _ _) in Hr as (Q4 & _); [|apply ticks_finish|exact (k_inv Hk)].
  eapply keeps_le; [eapply keeps_then; [exact Hk2|by apply quiet_keeps]|done|].
  intros i v Hir. destruct (ok r); [|done]. intros Hci. unfold mm. rewrite memcpy_inside by done. by rewrite (Hsrc i v).
Qed.
(** ** Kernels *)

(** What a launch finds of an argument. *)
Definition arg_at (s : state) (d : nat) (a p : Z * Z) : Prop :=
  ∃ m, mems s !! a.1 = Some m ∧ p = (ptr m d, Size m) ∧ placed s a.1 d.

Lemma arg_at_quiet σ s s' d a p : quiet ndev user σ s s' → arg_at s d a p → arg_at s' d a p.
Proof.
  intros Hq (m & Hm & -> & Hp). destruct (quiet_lookup _ _ _ _ _ _ _ Hq Hm) as (m' & Hm' & X).
  exists m'. split; [done|]. split; [|by eapply placed_keeps; [apply quiet_keeps|]].
  destruct (placed_inv _ _ _ _ Hp Hm) as [Hn _]. by rewrite (ext_size _ _ X), (ext_ptr _ _ X).
Qed.
Lemma arg_at_keeps σ s s' d a p : keeps σ s s' → arg_at s d a p → arg_at s' d a p.
Proof.
  intros Hk (m & Hm & -> & Hp). destruct (k_ext Hk _ m Hm) as (m' & Hm' & _ & Es & _ & _ & Ep).
  exists m'. split; [done|]. split; [|by eapply placed_keeps].
  destruct (placed_inv _ _ _ _ Hp Hm) as [Hn _]. by rewrite Es, Ep.
Qed.

Lemma set_args_ok σ s d args r s' :
  inv s σ → (d < ndev)%nat → set_args d args s = (r, s') →
  quiet ndev user σ s s' ∧ ∀ ps, r = inr ps → Forall2 (arg_at s' d) args ps.
Proof.
  revert s r s'. induction args as [|[h f] args IH]; intros s r s' Hi Hd Hr.
  { injection Hr as <- <-. split; [by apply quiet_refl|]. intros ps [= <-]. constructor. }
  cbn [set_args] in Hr. step Hr; apply (getPtr_ok ndev user Hmalloc Huva σ) in E as [Q1 HP]; try done.
  destruct HP as [HP (m & Hm & ->)]. unfold mbind at 1, M_bind at 1, get at 1 in Hr. rewrite Hm in Hr.
  step Hr; apply IH in E as [Q2 HA]; try done; try exact (q_inv Q1); pose proof (quiet_trans _ _ _ _ _ _ Q1 Q2) as Q; [|done].
  injection Hr as <- <-. split; [done|]. intros ps [= <-]. constructor; [|by apply HA].
  rewrite Z.add_0_r. apply (arg_at_quiet σ s0 _ d (h, f) _ Q2). by exists m.
Qed.

(** A copy that is marked as current, and as the only one after a write. *)
Definition ready (d : nat) (w : bool) (m : ur_mem) : Prop :=
  nth d (HaveMigratedToDeviceSinceLastWrite m) false = true ∧
  (w = true → sole ndev m d ∧ LastQueueWritingToMemObj m ≠ None).
Definition ready_in (s : state) (d : nat) (a : Z * Z) : Prop :=
  ∃ m, mems s !! a.1 = Some m ∧ ready d (writes a.2) m.

Lemma ext_ready m m' d w : ext m m' → ready d w m → ready d w m'.
Proof.
  intros X [Hn Hw]. split; [by rewrite (ext_migrated _ _ X)|]. intros Hwt. destruct (Hw Hwt) as [? ?].
  split; [by eapply ext_sole|by rewrite (ext_last _ _ X)].
Qed.
Lemma now_ready q m w : length (HaveMigratedToDeviceSinceLastWrite m) = ndev → (getDevice q < ndev)%nat →
  ready (getDevice q) w (now_current q m).
Proof.
  intros Hl Hd. split.
  - simpl. rewrite nth_lookup, list_lookup_imap.
    destruct (lookup_lt_is_Some_2 (HaveMigratedToDeviceSinceLastWrite m) (getDevice q)) as [x ->]; [lia|]. simpl.
    by apply bool_decide_eq_true.
  - intros _. split; [|done]. right. rewrite (now_current_spec ndev) by done. split; [apply Nat.eqb_refl|].
    intros d' Hd'. rewrite (now_current_spec ndev) by done. by intros ->%Nat.eqb_eq.
Qed.

(** One argument is brought to the device and noted when the kernel writes it. *)
Definition prepare_arg (q : ur_queue) (a : Z * Z) : M unit :=
  _ ← enqueueMigrateMemoryToDeviceIfNeeded a.1 (getDevice q);
  when (writes a.2) (setLastQueueWritingToMemObj a.1 q).

Lemma migrate_ready σ s h m d r s' :
  inv s σ → mems s !! h = Some m → (d < ndev)%nat → (1 < ndev)%nat →
  enqueueMigrateMemoryToDeviceIfNeeded h d s = (r, s') →
  keeps σ s s' ∧ (r = inr () → ∃ m', mems s' !! h = Some m' ∧ nth d (HaveMigratedToDeviceSinceLastWrite m') false = true) ∧
  (∀ a, ready_in s d a → ready_in s' d a).
Proof.
  intros Hi Hm Hd Hn Hr. destruct (inv_lookup _ _ _ _ _ _ Hi Hm) as (c & Hc & Hco).
  pose proof (migrate_ok ndev user Hmalloc Huva σ s h m c d r s' Hi Hm Hc Hd Hn Hr) as (Hk & Hext & Hcur).
  destruct (nth d (HaveMigratedToDeviceSinceLastWrite m) false) eqn:Ef.
  - unfold enqueueMigrateMemoryToDeviceIfNeeded, mbind at 1, M_bind at 1, get at 1 in Hr. rewrite Hm, Ef in Hr.
    injection Hr as <- <-. split; [done|]. split; [by exists m|done].
  - split; [done|]. split.
    + intros Hr0. destruct (Hcur Hr0) as (m' & Hm' & _ & Hf). by exists m'.
    + intros a (m0 & Hm0 & Hrd). destruct (decide (a.1 = h)) as [Eh|Hne].
      * rewrite Eh in Hm0. simplify_eq. destruct Hrd. congruence.
      * destruct (Hext _ _ Hne Hm0) as (m1 & ? & X). exists m1. split; [done|]. by eapply ext_ready.
Qed.
Lemma prepare_arg_ok σ s q a r s' :
  inv s σ → is_Some (mems s !! a.1) → (getDevice q < ndev)%nat → (1 < ndev)%nat → prepare_arg q a s = (r, s') →
  keeps σ s s' ∧ (r = inr () → ready_in s' (getDevice q) a) ∧
  (∀ b, ready_in s (getDevice q) b → ready_in s' (getDevice q) b).
Proof.
  intros Hi [m Hm] Hd Hn Hr. unfold prepare_arg in Hr.
  step Hr; eapply migrate_ready in E as (Hk & Hcur & Hold); try done.
  destruct a0. destruct (Hcur eq_refl) as (m1 & Hm1 & Hf). destruct (writes a.2) eqn:Ew; simpl in Hr.
  2: { injection Hr as <- <-. split; [done|]. split; [|done]. intros _. exists m1. rewrite Ew. done. }
  destruct (inv_lookup _ _ _ _ _ _ (k_inv Hk) Hm1) as (c & Hc & Hco). destruct (co_len _ _ _ _ Hco) as [_ Hl].
  destruct (set_last_ok ndev user σ s0 a.1 q m1 c r s' (k_inv Hk) Hm1 Hc Hd Hr) as (-> & _ & Ems & _ & Hk2).
  assert (current m1 (getDevice q) = true) as Hc1 by (unfold current; by rewrite Hf).
  rewrite Hc1, orb_true_r, (insert_id σ _ _ Hc) in Hk2. split; [by eapply keeps_then|]. split.
  - intros _. eexists. rewrite Ems, lookup_insert_eq. split; [done|]. by apply now_ready.
  - intros b Hb. destruct (Hold b Hb) as (m2 & Hm2 & Hr2). destruct (decide (b.1 = a.1)) as [Eb|Hne].
    + eexists. rewrite Ems, Eb, lookup_insert_eq. split; [done|]. by apply now_ready.
    + exists m2. by rewrite Ems, lookup_insert_ne by done.
Qed.

Lemma keeps_lookup σ s s' h : keeps σ s s' → is_Some (mems s !! h) → is_Some (mems s' !! h).
Proof. intros Hk [m Hm]. destruct (k_ext Hk h m Hm) as (m' & ? & _). by exists m'. Qed.

Lemma prepare_args_ok σ s q args r s' :
  inv s σ → Forall (λ a, is_Some (mems s !! a.1)) args → (getDevice q < ndev)%nat → (1 < ndev)%nat →
  forM args (prepare_arg q) s = (r, s') →
  keeps σ s s' ∧ (r = inr () → Forall (ready_in s' (getDevice q)) args) ∧
  (∀ b, ready_in s (getDevice q) b → ready_in s' (getDevice q) b).
Proof.
  intros Hi Ha Hd Hn. revert s r s' Hi Ha. induction args as [|a args IH]; intros s r s' Hi Ha Hr.
  { injection Hr as <- <-. split; [by apply keeps_refl|done]. }
  apply Forall_cons in Ha as [Ha Hl]. cbn [forM] in Hr.
  step Hr; apply (prepare_arg_ok σ) in E as (Hk & Hr0 & Hold); try done.
  apply IH in Hr as (Hk2 & Hr2 & Hold2); [|exact (k_inv Hk)|eapply Forall_impl; [done|]; intros b; by apply keeps_lookup with σ].
  split; [by eapply keeps_then|]. split; [|auto]. intros ->. constructor; [|by apply Hr2]. apply Hold2, Hr0. by destruct a0.
Qed.

(** Ready for a launch, whatever the number of devices. *)
Definition usable (s : state) (d : nat) (a : Z * Z) : Prop :=
  ∃ m, mems s !! a.1 = Some m ∧ current m d = true ∧
    (writes a.2 = true → sole ndev m d ∧ (LastQueueWritingToMemObj m ≠ None ∨ ndev = 1%nat)).

Lemma ready_usable s d a : ready_in s d a → usable s d a.
Proof.
  intros (m & Hm & Hn & Hw). exists m. split; [done|]. split; [unfold current; by rewrite Hn|].
  intros Hwt. destruct (Hw Hwt). auto.
Qed.

Lemma prepare_launch_ok σ s q args params ev r s' :
  inv s σ → Forall (λ a, is_Some (mems s !! a.1)) args → (getDevice q < ndev)%nat →
  prepare_launch ndev q args params ev s = (r, s') →
  keeps σ s s' ∧ (r = inr () → Forall (usable s' (getDevice q)) args).
Proof.
  intros Hi Ha Hd Hr. unfold prepare_launch in Hr.
  step Hr; [|destruct params; [|done]; injection E as _ <-; split; [by apply keeps_refl|done]].
  destruct params; [done|]. injection E as _ <-.
  step Hr; apply cu_inv in E as [-> _]; [|split; [by apply called_keeps|done]].
  pose proof (called_keeps _ _ _ _ Hi) as K1.
  step Hr; apply cu_inv in E as [-> _]; pose proof (keeps_then _ _ _ _ _ _ _ K1 (called_keeps _ _ _ _ (k_inv K1))) as K2; [|done].
  assert (Forall (λ a, is_Some (mems (called (called s)) !! a.1)) args) as Ha2 by done.
  assert (∀ r0 s0, (when (1 <? ndev)%nat (forM args (prepare_arg q))) (called (called s)) = (r0, s0) →
    keeps σ (called (called s)) s0 ∧ (r0 = inr () → Forall (usable s0 (getDevice q)) args)) as Hloop.
  { intros r0 s0 H0. destruct (1 <? ndev)%nat eqn:En; simpl in H0; bool_to_prop.
    - apply (prepare_args_ok σ) in H0 as (Hk & Hrd & _); try done; [|exact (k_inv K2)]. split; [done|]. intros Hr0.
      eapply Forall_impl; [by apply Hrd|]. intros b. apply ready_usable.
    - injection H0 as <- <-. split; [apply keeps_refl, (k_inv K2)|]. intros _. eapply Forall_impl; [exact Ha|].
      intros b [m Hm]. destruct (inv_lookup _ _ _ _ _ _ Hi Hm) as (c & Hc & _).
      assert (ndev = 1%nat) as E1 by lia. destruct (single_current s σ _ m c Hi Hm Hc E1) as [Hcur Hsole].
      assert (getDevice q = 0%nat) as -> by lia. exists m. split; [done|]. split; [done|]. auto. }
  step Hr; apply Hloop in E as [K3 Hu]; pose proof (keeps_then _ _ _ _ _ _ _ K2 K3) as K; [|done].
  eapply (ticks_keeps ndev user _ _) in Hr as (Q & _ & _ & Ems & _);
    [|apply ticks_bind; [apply ticks_when, ticks_cu|intros _; apply ticks_cu]|exact (k_inv K3)].
  split; [eapply keeps_then; [exact K|by apply quiet_keeps]|]. intros _. destruct a2.
  eapply Forall_impl; [by apply Hu|]. intros b (m & Hm & ?). exists m. by rewrite Ems.
Qed.
(** An argument that the kernel does not write is left alone, in memory and array. *)
Lemma store_arg_ok k views d s σ i mm a p :
  inv (set_mem (λ _, mm) s) σ → (d < ndev)%nat → arg_at s d a p → usable s d a →
  (writes a.2 = false → ∀ o, k views i o = None) →
  inv (set_mem (λ _, store_arg k views i p.1 p.2 mm) s) (alter (kernel_arg k views i p.2) a.1 σ).
Proof.
  intros Hi Hd (m & Hm & -> & Hp) (m' & Hm' & Hcur & Hw) Hro. simplify_eq. simpl.
  set (s1 := set_mem (λ _, mm) s) in *. set (mm' := store_arg _ _ _ _ _ _).
  change (set_mem (λ _, mm') s) with (set_mem (λ _, mm') s1).
  destruct (inv_lookup _ _ _ _ _ m Hi Hm) as (c & Hc & Hco). rewrite (alter_some _ _ c) by done.
  destruct (writes a.2) eqn:Ew.
  - destruct (Hw eq_refl) as [Hsole HL].
    assert (keeps (<[a.1 := upd c 0 (Size m) (λ i, Some (mm' (ptr m d + 0 + i)))]> σ) s1 (set_mem (λ _, mm') s1)) as Hk.
    { apply (device_write ndev user σ s1 a.1 m c d 0 (Size m) mm'); try done; try lia; [tauto|].
      intros x Hx. unfold mm', store_arg. rewrite Z.add_0_r in Hx. by rewrite Hx. }
    rewrite <-(insert_insert_eq σ a.1 _ (upd c 0 (Size m) (λ i, Some (mm' (ptr m d + 0 + i))))).
    eapply (inv_weaken _ _ _ _ a.1 m); [exact (k_inv Hk)|done|by rewrite lookup_insert_eq|].
    intros o v Ho. unfold kernel_arg, upd. assert (in_range 0 (Size m) o = true) as -> by (apply in_range_true; lia).
    rewrite Z.sub_0_r. unfold mm', store_arg. rewrite (proj2 (in_range_true _ _ _)) by lia.
    replace (ptr m d + 0 + o - ptr m d) with o by lia. destruct (k views i o) as [v'|]; [done|]. simpl. intros Hci.
    rewrite Z.add_0_r. f_equal. apply (placed_bytes ndev user s1 σ a.1 m c d o v); try done. by right.
  - specialize (Hro eq_refl).
    assert (inv (set_mem (λ _, mm') s1) σ) as Hi2.
    { apply (inv_host_write ndev user s1 σ (λ _, mm')); [done|]. intros x. left. unfold mm', store_arg. rewrite Hro.
      by destruct (in_range _ _ _). }
    eapply (inv_weaken _ _ _ _ a.1 m); [exact Hi2|done|done|]. intros o v Ho. unfold kernel_arg. rewrite Hro.
    by destruct (in_range _ _ _).
Qed.

Lemma run_args_ok k views d s args : (d < ndev)%nat → ∀ ps i mm σ,
  inv (set_mem (λ _, mm) s) σ → Forall2 (arg_at s d) args ps → Forall (usable s d) args →
  (∀ j a, args !! j = Some a → writes a.2 = false → ∀ o, k views (i + j)%nat o = None) →
  inv (set_mem (λ _, run_args k views i ps mm) s) (kernel_args k views i (zip args.*1 ps.*2) σ).
Proof.
  intros Hd. induction args as [|a args IH]; intros ps i mm σ Hi Hat Hu Hro.
  { by apply Forall2_nil_inv_l in Hat as ->. }
  apply Forall2_cons_inv_l in Hat as ([p n] & ps' & Hp & Hat & ->). apply Forall_cons in Hu as [Ha Hu].
  cbn [run_args kernel_args fmap list_fmap zip zip_with fst snd]. apply IH; [|done..|].
  - apply (store_arg_ok k views d s σ i mm a (p, n)); try done. intros Hw. specialize (Hro 0%nat a eq_refl Hw).
    by rewrite Nat.add_0_r in Hro.
  - intros j b Hb Hwb o. replace (S i + j)%nat with (i + S j)%nat by lia. by apply (Hro (S j) b).
Qed.
Lemma inv_weaken_all s σ σ' :
  inv s σ → (∀ h, is_Some (σ !! h) ↔ is_Some (σ' !! h)) →
  (∀ h m c', mems s !! h = Some m → σ' !! h = Some c' →
     ∃ c, σ !! h = Some c ∧ ∀ i v, 0 ≤ i < Size m → c' i = Some v → c i = Some v) → inv s σ'.
Proof.
  intros [] Hdom Hle. split; try done.
  - intros h. by rewrite <-Hdom.
  - intros h m c' Hm Hc'. destruct (Hle h m c' Hm Hc') as (c & Hc & Hcc). eapply coherent_weaken; [by apply (inv_co0 h)|done].
Qed.

(** Arrays that a kernel does not write are not changed by it. *)
Lemma kernel_args_lookup k views args i σ h :
  match σ !! h, kernel_args k views i args σ !! h with
  | Some c, Some c' => (∀ j n, args !! j = Some (h, n) → ∀ o, k views (i + j)%nat o = None) → ∀ o, c' o = c o
  | None, None => True
  | _, _ => False
  end.
Proof.
  revert i σ. induction args as [|[h0 n] args IH]; intros i σ; simpl; [by destruct (σ !! h)|].
  specialize (IH (S i) (alter (kernel_arg k views i n) h0 σ)). rewrite lookup_alter in IH. case_decide as Eh.
  - subst h0. destruct (σ !! h) as [c|]; simpl in IH; [|done].
    destruct (kernel_args k views (S i) args _ !! h) as [c'|]; [|done]. intros Hno o. rewrite IH.
    + unfold kernel_arg. pose proof (Hno 0%nat n eq_refl) as H0. rewrite Nat.add_0_r in H0. rewrite H0. by destruct (in_range _ _ _).
    + intros j n' Hj. pose proof (Hno (S j) n' Hj) as H1. by rewrite Nat.add_succ_r in H1.
  - destruct (σ !! h) as [c|]; [|done]. destruct (kernel_args k views (S i) args _ !! h) as [c'|]; [|done].
    intros Hno o. apply IH. intros j n' Hj. pose proof (Hno (S j) n' Hj) as H1. by rewrite Nat.add_succ_r in H1.
Qed.

Lemma lost_lookup (hs : list Z) (σ : spec) h :
  match σ !! h, foldr (alter (λ (_ : content) _, None)) σ hs !! h with
  | Some c, Some c' => ∀ o v, c' o = Some v → h ∉ hs ∧ c o = Some v
  | None, None => True
  | _, _ => False
  end.
Proof.
  induction hs as [|h0 hs IH]; simpl; [destruct (σ !! h) as [c|]; [|done]; intros o v Hc; split; [apply not_elem_of_nil|done]|].
  rewrite lookup_alter. case_decide as Eh.
  - subst h0. destruct (σ !! h) as [c|], (foldr _ σ hs !! h) as [c'|]; done.
  - destruct (σ !! h) as [c|], (foldr _ σ hs !! h) as [c'|]; try done. intros o v Hc. destruct (IH o v Hc). split; [|done].
    rewrite not_elem_of_cons. done.
Qed.

Definition writers (args : list (Z * Z)) : list Z := omap (λ a, if writes a.2 then Some a.1 else None) args.

Lemma inv_lost s σ args : inv s σ → inv s (foldr (alter (λ (_ : content) _, None)) σ (writers args)).
Proof.
  intros Hi. eapply inv_weaken_all; [done|..].
  - intros h. pose proof (lost_lookup (writers args) σ h) as HL. destruct (σ !! h), (foldr _ _ _ !! h); done.
  - intros h m c' Hm Hc'. pose proof (lost_lookup (writers args) σ h) as HL. rewrite Hc' in HL.
    destruct (σ !! h) as [c|]; [|done]. exists c. split; [done|]. intros o v _ Hv. by destruct (HL o v Hv).
Qed.

Lemma inv_kernel_lost s σ k views args sizes :
  inv s (kernel_args k views 0 (zip args.*1 sizes) σ) →
  (∀ j a, args !! j = Some a → writes a.2 = false → ∀ o, k views j o = None) →
  inv s (foldr (alter (λ (_ : content) _, None)) σ (writers args)).
Proof.
  intros Hi Hro. eapply inv_weaken_all; [done|..].
  - intros h. pose proof (lost_lookup (writers args) σ h) as HL. pose proof (kernel_args_lookup k views (zip args.*1 sizes) 0 σ h) as HK.
    destruct (σ !! h), (foldr _ _ _ !! h), (kernel_args _ _ _ _ _ !! h); done.
  - intros h m c' Hm Hc'. pose proof (lost_lookup (writers args) σ h) as HL. pose proof (kernel_args_lookup k views (zip args.*1 sizes) 0 σ h) as HK.
    rewrite Hc' in HL. destruct (σ !! h) as [c|]; [|done]. destruct (kernel_args _ _ _ _ _ !! h) as [c1|]; [|done].
    exists c1. split; [done|]. intros o v _ Hv. destruct (HL o v Hv) as [Hno Hcv]. rewrite HK; [done|].
    intros j n [Hj _]%lookup_zip_Some. simpl in Hj. apply list_lookup_fmap_Some in Hj as (a & -> & Hj).
    apply (Hro j a); [done|]. destruct (writes a.2) eqn:Ew; [|done]. destruct Hno. apply list_elem_of_omap.
    exists a. rewrite Ew. split; [|done]. by apply list_elem_of_lookup_2 in Hj.
Qed.
Lemma arg_sizes s s1 d args ms ps : 
  Forall2 (λ a m, mems s !! a.1 = Some m) args ms → Forall2 (arg_at s1 d) args ps →
  (∀ h m, mems s !! h = Some m → ∃ m', mems s1 !! h = Some m' ∧ ext m m') → ps.*2 = Size <$> ms.
Proof.
  intros Hms Hat Hext. revert ps Hat. induction Hms as [|a m args ms Hm Hms IH]; intros ps Hat.
  - by apply Forall2_nil_inv_l in Hat as ->.
  - apply Forall2_cons_inv_l in Hat as (p & ps' & (m1 & Hm1 & -> & _) & Hat & ->). csimpl. f_equal; [|by apply IH].
    destruct (Hext _ _ Hm) as (m2 & ? & X). simplify_eq. by rewrite (ext_size _ _ X).
Qed.

Lemma inv_same_mem s σ : inv s σ → inv (set_mem (λ _, mem s) s) σ.
Proof. by destruct s. Qed.

Lemma arg_views σ s d args ps : inv s σ → (d < ndev)%nat → Forall2 (arg_at s d) args ps → Forall (usable s d) args →
  ∀ j h n, zip args.*1 ps.*2 !! j = Some (h, n) →
  ∃ c, σ !! h = Some c ∧ ∃ v, ((λ x o, mem s (x.1 + o)) <$> ps) !! j = Some v ∧ agrees c 0 n v.
Proof.
  intros Hi Hd Hat Hu j h n [Hh Hn]%lookup_zip_Some. apply list_lookup_fmap_Some in Hh as (a & -> & Ha), Hn as (p & -> & Hp).
  destruct (Forall2_lookup_lr _ _ _ _ _ _ Hat Ha Hp) as (m & Hm & -> & Hpl).
  destruct (proj1 (Forall_lookup _ _) Hu j a Ha) as (m' & Hm' & Hcur & _). simplify_eq.
  destruct (inv_lookup _ _ _ _ _ _ Hi Hm) as (c & Hc & _). exists c. split; [done|]. eexists.
  split; [by rewrite list_lookup_fmap, Hp|]. intros i v Hr Hci. simpl in *.
  apply (placed_bytes ndev user s σ a.1 m c d i v); auto.
Qed.

Lemma kernel_ok σ s q d k args ms workDim params ev ps s1 s2 r s' :
  inv s σ → (getDevice q < ndev)%nat → (d < ndev)%nat → Forall2 (λ a m, mems s !! a.1 = Some m) args ms →
  (∀ j h f, args !! j = Some (h, f) → writes f = false → ∀ v o, k v j o = None) →
  set_args d args s = (inr ps, s1) → prepare_launch ndev q args params ev s1 = (inr (), s2) →
  urEnqueueKernelLaunchWithArgsExp ndev q d k args workDim false params ev s = (r, s') →
  let views := (λ x o, mem s2 (x.1 + o)) <$> ps in
  if ok r
  then inv s' (kernel_args k views 0 (zip args.*1 (Size <$> ms)) σ) ∧
       ∀ j h n, zip args.*1 (Size <$> ms) !! j = Some (h, n) →
         ∃ c, σ !! h = Some c ∧ ∃ v, views !! j = Some v ∧ agrees c 0 n v
  else inv s' (foldr (alter (λ (_ : content) _, None)) σ (writers args)).
Proof.
  intros Hi Hdq Hd Hms Hro Hsa Hpl Hr views.
  destruct (set_args_ok σ s d args _ _ Hi Hd Hsa) as [Q1 Hat]. specialize (Hat ps eq_refl).
  assert (ps.*2 = Size <$> ms) as <- by (eapply arg_sizes; [done|done|]; intros h m; apply (q_ext Q1)).
  assert (Forall (λ a, is_Some (mems s1 !! a.1)) args) as Hex.
  { apply Forall_forall. intros a Ha. apply list_elem_of_lookup in Ha as [j Hj].
    destruct (Forall2_lookup_l _ _ _ _ _ Hat Hj) as (p & _ & m & ? & _). by exists m. }
  destruct (prepare_launch_ok σ s1 q args params ev _ _ (q_inv Q1) Hex Hdq Hpl) as [K2 Hu]. specialize (Hu eq_refl).
  assert (Forall2 (arg_at s2 d) args ps) as Hat2 by (eapply Forall2_impl; [done|]; intros a p; by apply arg_at_keeps with σ).
  unfold urEnqueueKernelLaunchWithArgsExp, mbind at 1, M_bind at 1 in Hr. rewrite Hsa in Hr.
  assert (∀ b e (f : unit → M unit) r0, (UR_ASSERT b e ≫= f) s1 = (r0, s') →
    (b = true ∧ f () s1 = (r0, s')) ∨ (ok r0 = false ∧ s' = s1)) as Has.
  { intros b e f r0. unfold UR_ASSERT, mbind, M_bind. destruct b; [by left|]. intros [= <- <-]. by right. }
  apply Has in Hr as [[Eq Hr]|[-> ->]]; [|apply inv_lost, (q_inv Q1)].
  apply Has in Hr as [[_ Hr]|[-> ->]]; [|apply inv_lost, (q_inv Q1)].
  unfold mbind at 1, M_bind at 1 in Hr. rewrite Hpl in Hr. bool_to_prop. rewrite Eq in *.
  unfold mbind at 1, M_bind at 1, modify at 1 in Hr.
  assert (∀ j a, args !! j = Some a → writes a.2 = false → ∀ o, k views j o = None) as Hro'.
  { intros j [h f] Hj Hf o. by apply (Hro j h f). }
  pose proof (run_args_ok k views d s2 args Hd ps 0%nat (mem s2) σ (inv_same_mem _ _ (k_inv K2)) Hat2 Hu Hro') as Hrun.
  eapply (ticks_keeps ndev user _ _) in Hr as (Q3 & _); [|apply ticks_when, ticks_cu|exact Hrun].
  destruct (ok r).
  - split; [exact (q_inv Q3)|]. by apply (arg_views σ s2 d args ps (k_inv K2)).
  - eapply inv_kernel_lost; [exact (q_inv Q3)|done].
Qed.

(** A launch that never reaches the driver, or has nothing to run. *)
Lemma kernel_fails_ok σ s q d k args workDim empty params ev r s' :
  inv s σ → (getDevice q < ndev)%nat → (d < ndev)%nat → Forall (λ a, is_Some (mems s !! a.1)) args →
  empty = true ∨ ok r = false ∧
    (∀ ps s1, set_args d args s = (inr ps, s1) → ok (prepare_launch ndev q args params ev s1).1 = false) →
  urEnqueueKernelLaunchWithArgsExp ndev q d k args workDim empty params ev s = (r, s') → keeps σ s s'.
Proof.
  intros Hi Hdq Hd Hex Hc Hr. unfold urEnqueueKernelLaunchWithArgsExp in Hr.
  step Hr; pose proof E as Hsa; apply (set_args_ok σ) in E as [Q1 _]; try done; pose proof (quiet_keeps _ _ _ _ _ Q1) as K1; [|done].
  step Hr; apply assert_inv in E as [-> Ea]; [|done]. step Hr; apply assert_inv in E as [-> Eb]; [|done].
  destruct empty.
  { apply cu_inv in Hr as [-> _]. eapply keeps_then; [exact K1|]. apply called_keeps, (q_inv Q1). }
  destruct Hc as [?|[Hok Hpl]]; [done|].
  assert (Forall (λ b, is_Some (mems s0 !! b.1)) args) as Hex0
    by (eapply Forall_impl; [exact Hex|]; intros b; by apply keeps_lookup with σ).
  step Hr; [specialize (Hpl _ _ Hsa); by rewrite E in Hpl|].
  eapply prepare_launch_ok in E as [K2 _]; [by eapply keeps_then|exact (q_inv Q1)|done..].
Qed.

(** ** Handles *)
Record same (s s' : state) : Prop := {
  sa_mem : mem s' = mem s; sa_mems : mems s' = mems s; sa_regions : regions s' = regions s;
  sa_next : next_handle s' = next_handle s }.

Lemma umfFree_inv p s r s' : umfFree p s = (r, s') →
  r = inr () ∧ s' = free_region p (called s) ∨ s' = called s ∧ ok r = false.
Proof.
  intros Hr. unfold umfFree in Hr. step Hr; apply cu_inv in E as [-> _]; [|by right]. left. by injection Hr as <- <-.
Qed.

Lemma frees_ok (L : list Z) s r s' :
  forM L (λ p, when (negb (p =? 0)) (umfFree p)) s = (r, s') →
  same s s' ∧ ∃ l, freed s' = l ++ freed s ∧ l ⊆+ filter (λ p, p ≠ 0) L.
Proof.
  revert s. induction L as [|p L IH]; intros s Hr.
  { injection Hr as <- <-. split; [done|]. by exists []. }
  cbn [forM] in Hr. rewrite filter_cons. destruct (p =? 0) eqn:Ep; bool_to_prop.
  - rewrite decide_False by auto. by apply IH.
  - rewrite decide_True by done. step Hr; apply umfFree_inv in E as [[? ->]|[-> ?]]; try done.
    + destruct (IH _ Hr) as ([] & l & El & Hl). split; [done|].
      exists (l ++ [p]). simpl in El. rewrite <-app_assoc. split; [done|].
      rewrite (Permutation_app_comm l [p]). simpl. by apply submseteq_skip.
    + split; [done|]. exists []. split; [done|]. apply submseteq_nil_l.
Qed.

Lemma NoDup_nonzero (L : list Z) :
  (∀ i j x, L !! i = Some x → L !! j = Some x → x ≠ 0 → i = j) → NoDup (filter (λ p, p ≠ 0) L).
Proof.
  induction L as [|p L IH]; intros HL; [constructor|]. rewrite filter_cons.
  assert (NoDup (filter (λ p, p ≠ 0) L)) as HN
    by (apply IH; intros i j x Hi Hj Hx; assert (S i = S j) by (by eapply HL); lia).
  case_decide as Hp; [|done]. constructor; [|done]. intros [_ Hin]%list_elem_of_filter.
  apply list_elem_of_lookup in Hin as [j Hj]. assert (0%nat = S j) by (by eapply HL). lia.
Qed.

Lemma clear_ok s σ h m r s' :
  inv s σ → mems s !! h = Some m → clear m s = (r, s') →
  same s s' ∧ ∃ l, freed s' = l ++ freed s ∧ NoDup l ∧
    ∀ p, p ∈ l → MemAllocMode m ≠ UseHostPtr ∧ ∃ k, cell m k p.
Proof.
  intros Hi Hm Hr. destruct (inv_lookup _ _ _ _ _ _ Hi Hm) as (c & Hc & Hco).
  destruct (co_size _ _ _ _ Hco) as (Hs & Hpar & _). unfold clear, isSubBuffer in Hr. rewrite Hpar in Hr. simpl in Hr.
  assert (∀ l0 s0, same s s0 → freed s0 = freed s → l0 = @nil Z → same s s0 ∧ ∃ l, freed s0 = l ++ freed s ∧ NoDup l ∧
    ∀ p, p ∈ l → MemAllocMode m ≠ UseHostPtr ∧ ∃ k, cell m k p) as Hnil.
  { intros l0 s0 Hsm Hf ->. split; [done|]. exists []. split; [done|]. split; [constructor|]. intros p Hp. by apply elem_of_nil in Hp. }
  assert (alias m = false → ∀ k, ptr m k ≠ 0 → cell m k (ptr m k)) as Hcell.
  { intros Ha k Hk. unfold cell. rewrite Ha. split; [done|]. apply in_range_true. lia. }
  assert (forM (Ptrs m) (λ DevPtr, when (negb (DevPtr =? 0)) (umfFree DevPtr)) s = (r, s') → alias m = false →
    MemAllocMode m ≠ UseHostPtr → same s s' ∧ ∃ l, freed s' = l ++ freed s ∧ NoDup l ∧
    ∀ p, p ∈ l → MemAllocMode m ≠ UseHostPtr ∧ ∃ k, cell m k p) as Hfree.
  { intros H0 Ha Hmo. apply frees_ok in H0 as (Hsm & l & El & Hl). split; [done|]. exists l. split; [done|].
    assert (∀ i x, Ptrs m !! i = Some x → x ≠ 0 → cell m i x) as Hpc.
    { intros i x Hx Hnz. assert (x = ptr m i) as -> by (unfold ptr; by rewrite nth_lookup, Hx). by apply Hcell. }
    split.
    - apply submseteq_Permutation in Hl as [l' Hl]. apply (NoDup_app l l'). rewrite <-Hl. apply NoDup_nonzero. intros i j x Hix Hjx Hx.
      by apply (inv_cells _ _ _ _ Hi h h m m i j x); try done; apply Hpc.
    - intros p Hp. split; [done|]. pose proof (elem_of_submseteq _ _ p Hp Hl) as [Hnz Hin]%list_elem_of_filter.
      apply list_elem_of_lookup in Hin as [j Hj]. exists j. by apply Hpc. }
  destruct (MemAllocMode m) eqn:Em.
  - apply Hfree; [done| |done]. unfold alias. by rewrite Em.
  - unfold when in Hr. destruct (HostPtrRegisteredByUR m).
    + apply cu_inv in Hr as [-> _]. by apply (Hnil []).
    + injection Hr as <- <-. by apply (Hnil []).
  - apply Hfree; [done| |done]. unfold alias. by rewrite Em.
  - assert (alias m = true) as Ha by (unfold alias; by rewrite Em). apply umfFree_inv in Hr as [[_ ->]|[-> _]]; [|by apply (Hnil [])]. split; [done|].
    exists [HostPtr m]. split; [done|]. split; [apply NoDup_singleton|]. intros p ->%list_elem_of_singleton. split; [done|].
    exists 0%nat. unfold cell. rewrite Ha. split; [done|]. apply in_range_true. lia.
Qed.

Lemma inv_delete s s' σ h m l :
  inv s σ → mems s !! h = Some m → mem s' = mem s → regions s' = regions s → next_handle s' = next_handle s →
  mems s' = delete h (mems s) → freed s' = l ++ freed s → NoDup l →
  (∀ p, p ∈ l → MemAllocMode m ≠ UseHostPtr ∧ ∃ k, cell m k p) → inv s' (delete h σ).
Proof.
  intros Hi Hm Em Er En Ems Ef Hl Hcell.
  assert (∀ h' m', mems s' !! h' = Some m' → h' ≠ h ∧ mems s !! h' = Some m') as Hold.
  { intros h' m'. rewrite Ems. by intros [? ?]%lookup_delete_Some. }
  assert (∀ a, in_regions s' a ↔ in_regions s a) as Hreg by (intros a; unfold in_regions; by rewrite Er).
  split.
  - intros h'. rewrite Ems, !lookup_delete. case_decide; [done|]. apply (inv_dom _ _ _ _ Hi).
  - intros h' [m' [_ Hm']%Hold]. rewrite En. apply (inv_next _ _ _ _ Hi). eauto.
  - intros h' m' c [Hne Hm']%Hold. rewrite lookup_delete_ne by done. rewrite Em. by apply (inv_co _ _ _ _ Hi).
  - intros h1 h2 m1 m2 k1 k2 a [_ H1]%Hold [_ H2]%Hold. by apply (inv_cells _ _ _ _ Hi).
  - intros h' m' k a [_ Hm']%Hold Hc. pose proof (inv_alloc _ _ _ _ Hi h' m' k a Hm' Hc). case_bool_decide; [done|]. by apply Hreg.
  - intros h' m' a [_ Hm']%Hold Ha Hp Hr. destruct (inv_watch _ _ _ _ Hi h' m' a Hm' Ha Hp Hr) as [? Hno]. split; [done|].
    intros h2 m2 k [_ H2]%Hold. by apply (Hno h2).
  - intros h1 h2 m1 m2 a [_ H1]%Hold [_ H2]%Hold. by apply (inv_hosts _ _ _ _ Hi).
  - intros a. rewrite Hreg. apply (inv_user _ _ _ _ Hi).
  - destruct (inv_freed _ _ _ _ Hi) as [Hnd Hf]. rewrite Ef. split.
    + apply NoDup_app. split; [done|]. split; [|done]. intros p Hp Hp'. destruct (Hcell p Hp) as [_ [k Hk]].
      by apply (proj2 (Hf p Hp') h m k).
    + intros p [Hp|Hp]%elem_of_app.
      * destruct (Hcell p Hp) as [Hu [k Hk]]. split.
        { apply Hreg. pose proof (inv_alloc _ _ _ _ Hi h m k p Hm Hk). by case_bool_decide. }
        intros h' m' k' [Hne Hm']%Hold Hk'. by destruct (inv_cells _ _ _ _ Hi h' h m' m k' k p).
      * destruct (Hf p Hp) as [? Hno]. split; [by apply Hreg|]. intros h' m' k' [_ Hm']%Hold. by apply (Hno h').
Qed.

Lemma destroy_ok rp s σ h m r s' :
  inv s σ → mems s !! h = Some m → destroy rp h s = (r, s') → inv s' (delete h σ).
Proof.
  intros Hi Hm Hr. destruct (inv_lookup _ _ _ _ _ _ Hi Hm) as (c & Hc & Hco).
  destruct (co_size _ _ _ _ Hco) as (_ & Hpar & _).
  unfold destroy, mbind at 1, M_bind at 1, get at 1 in Hr. rewrite Hm, Hpar in Hr.
  unfold mbind at 1, M_bind at 1, ignore at 1 in Hr.
  destruct (clear m s) as [r0 s0] eqn:E. apply (clear_ok s σ h) in E as ([] & l & El & Hl & Hcell); [|done..]. simpl in Hr.
  unfold mbind, M_bind in Hr. destruct (LastQueueWritingToMemObj m); simpl in Hr; injection Hr as <- <-;
    (eapply (inv_delete s _ σ h m l); try done; simpl; congruence).
Qed.

Lemma retain_ok s σ h r s' : inv s σ → urMemRetain h s = (r, s') → inv s' σ.
Proof.
  intros Hi Hr. unfold urMemRetain in Hr. step Hr; apply get_inv in E as [-> Hm]; [|done].
  step Hr; apply assert_inv in E as [-> _]; [|done]. injection Hr as _ <-.
  destruct (inv_lookup _ _ _ _ _ _ Hi Hm) as (c & Hc & Hco). rewrite <-(insert_id σ h c Hc).
  eapply (inv_put_same _ _ s σ h a); [done..|]. destruct Hco as [? (? & ? & ?)]. split; try done.
  split_and!; [done..|]. apply u32_range.
Qed.

Lemma release_ok s σ h m r s' :
  inv s σ → mems s !! h = Some m → 0 < RefCount m → urMemRelease h s = (r, s') →
  inv s' (if RefCount m =? 1 then delete h σ else σ).
Proof.
  intros Hi Hm Hpos Hr. destruct (inv_lookup _ _ _ _ _ _ Hi Hm) as (c & Hc & Hco).
  assert (in_u32 (RefCount m)) as Hu by apply (co_size _ _ _ _ Hco).
  unfold urMemRelease, release_with at 1, mbind at 1, M_bind at 1, get at 1 in Hr. rewrite Hm in Hr.
  rewrite u32_small in Hr by (unfold in_u32 in *; lia). unfold mbind at 1, M_bind at 1, put at 1, modify at 1 in Hr.
  assert (inv (set_mems <[h := with_RefCount (RefCount m - 1) m]> s) σ) as Hi'.
  { rewrite <-(insert_id σ h c Hc). eapply (inv_put_same _ _ s σ h m); [done..|].
    destruct Hco as [? (? & ? & ?)]. split; try done. split_and!; [done..|]. simpl. unfold in_u32 in *. lia. }
  destruct (RefCount m =? 1) eqn:E1; bool_to_prop.
  - rewrite (proj2 (Z.eqb_eq _ _)) in Hr by lia. eapply destroy_ok; [exact Hi'|by simpl; rewrite lookup_insert_eq|done].
  - rewrite (proj2 (Z.eqb_neq _ _)) in Hr by lia. by injection Hr as _ <-.
Qed.

(** ** Creation *)
Definition free_host (s : state) (m : ur_mem) : Prop :=
  HostPtr m ≠ 0 → ∀ a, in_range (HostPtr m) (Size m) a = true →
    (if bool_decide (MemAllocMode m = AllocHostPtr) then in_regions s a ∧ a ∉ freed s else user a) ∧
    ∀ h' m', mems s !! h' = Some m' → (∀ k, ¬ cell m' k a) ∧ (HostPtr m' ≠ 0 → in_range (HostPtr m') (Size m') a = false).

Lemma inv_new s σ m :
  inv s σ → coherent ndev (mem s) m (λ _, None) → (∀ d, ptr m d = 0) → free_host s m →
  inv (new_handle m s) (<[next_handle s := λ _, None]> σ).
Proof.
  intros Hi Hco Hptr Hhost. set (h := next_handle s).
  assert (mems s !! h = None) as Hnone.
  { destruct (mems s !! h) as [m'|] eqn:E; [|done]. assert (h < h) by (apply (inv_next _ _ _ _ Hi); by exists m'). lia. }
  assert (∀ k a, cell m k a → k = 0%nat ∧ alias m = true ∧ HostPtr m ≠ 0 ∧ in_range (HostPtr m) (Size m) a = true) as Hcell.
  { intros k a. unfold cell. destruct (alias m) eqn:Ea; [|rewrite Hptr; by intros [? _]]. intros [-> ?].
    split_and!; [done..| |done]. by apply (co_alias _ _ _ _ Hco Ea). }
  assert (∀ h' m', mems (new_handle m s) !! h' = Some m' → h' = h ∧ m' = m ∨ h' ≠ h ∧ mems s !! h' = Some m') as Hnew.
  { intros h' m'. simpl. rewrite lookup_insert. fold h. case_decide; [left; by simplify_eq|by right]. }
  destruct Hi. split.
  - intros h'. simpl. fold h. rewrite !lookup_insert. case_decide; [by split; eexists|done].
  - intros h' [m' [[-> _]|[_ Hm']]%Hnew]; simpl; fold h; [lia|]. assert (h' < h) by (apply inv_next0; by exists m'). lia.
  - intros h' m' c [[-> ->]|[Hne Hm']]%Hnew; [by rewrite lookup_insert_eq; intros [= <-]|]. rewrite lookup_insert_ne by done.
    by apply inv_co0.
  - intros h1 h2 m1 m2 k1 k2 a [[-> ->]|[_ H1]]%Hnew [[-> ->]|[_ H2]]%Hnew C1 C2.
    + destruct (Hcell _ _ C1) as [-> _], (Hcell _ _ C2) as [-> _]. done.
    + destruct (Hcell _ _ C1) as (_ & _ & Hp & Hr). by destruct (proj1 (proj2 (Hhost Hp a Hr) _ _ H2) k2).
    + destruct (Hcell _ _ C2) as (_ & _ & Hp & Hr). by destruct (proj1 (proj2 (Hhost Hp a Hr) _ _ H1) k1).
    + by apply (inv_cells0 h1 h2 m1 m2 k1 k2 a).
  - intros h' m' k a [[-> ->]|[_ Hm']]%Hnew C; [|by apply (inv_alloc0 h' m' k)]. 
    destruct (Hcell _ _ C) as (_ & Ha & Hp & Hr). destruct (Hhost Hp a Hr) as [Hu _].
    unfold alias in Ha. destruct (MemAllocMode m) eqn:Em; try done. by destruct Hu.
  - intros h' m' a Hm' Ha Hp Hr.
    assert (user a ∧ ∀ h2 m2 k, mems s !! h2 = Some m2 → ¬ cell m2 k a) as [Hu Hno].
    { destruct (Hnew _ _ Hm') as [[-> ->]|[_ H']]; [|by apply (inv_watch0 h' m' a)]. destruct (Hhost Hp a Hr) as [Hu Hno].
      split; [|intros h2 m2 k H2; by apply (Hno h2)]. unfold alias in Ha. by destruct (MemAllocMode m). }
    split; [done|]. intros h2 m2 k [[-> ->]|[_ H2]]%Hnew; [|by apply (Hno h2)]. intros C.
    destruct (Hcell _ _ C) as (_ & Ha' & Hp' & Hr'). destruct (Hnew _ _ Hm') as [[-> ->]|[_ H']]; [congruence|].
    destruct (Hhost Hp' a Hr') as [_ Hno']. rewrite (proj2 (Hno' h' m' H')) in Hr; done.
  - intros h1 h2 m1 m2 a [[-> ->]|[_ H1]]%Hnew [[-> ->]|[_ H2]]%Hnew P1 P2 R1 R2; [done|..|by apply (inv_hosts0 h1 h2 m1 m2 a)].
    + destruct (Hhost P1 a R1) as [_ Hno]. by rewrite (proj2 (Hno h2 m2 H2) P2) in R2.
    + destruct (Hhost P2 a R2) as [_ Hno]. by rewrite (proj2 (Hno h1 m1 H1) P1) in R1.
  - done.
  - destruct inv_freed0 as [Hnd Hf]. split; [done|]. intros p Hp. destruct (Hf p Hp) as [Hreg Hno]. split; [done|].
    intros h' m' k [[-> ->]|[_ Hm']]%Hnew; [|by apply (Hno h')]. intros C.
    destruct (Hcell _ _ C) as (_ & _ & Hp' & Hr). destruct (Hhost Hp' p Hr) as [Hu _]. case_bool_decide; [by destruct Hu|].
    by apply (inv_user0 p).
Qed.

(** A new buffer whose devices [ds] have been given the bytes [B]. *)
Record copied (σ : spec) (s : state) (h : Z) (m : ur_mem) (B : Z → Z) (ds : list nat) (m' : ur_mem) : Prop := {
  cp_inv : inv s σ;
  cp_lookup : mems s !! h = Some m';
  cp_ext : ext m m';
  cp_host i : 0 ≤ i < Size m → mem s (HostPtr m + i) = B i;
  cp_device d i : d ∈ ds → alias m = false → 0 ≤ i < Size m → ptr m' d ≠ 0 ∧ mem s (ptr m' d + i) = B i }.

Lemma copy_to_device_ok σ s h m B ds m0 d r s' :
  copied σ s h m B ds m0 → σ !! h = Some (λ _, None) → HostPtr m ≠ 0 → (d < ndev)%nat →
  (p ← getPtr h d; copy_async p (HostPtr m) (Size m)) s = (r, s') →
  inv s' σ ∧ is_Some (mems s' !! h) ∧ (r = inr () → ∃ m', copied σ s' h m B (ds ++ [d]) m').
Proof.
  intros [] Hc Hp0 Hd Hr.
  step Hr; apply (getPtr_ok ndev user Hmalloc Huva σ) in E as [Q HP]; try done;
    destruct (quiet_lookup _ _ _ _ _ _ _ Q cp_lookup0) as (m1 & Hm1 & X1);
    [|split; [exact (q_inv Q)|split; [by exists m1|done]]].
  destruct HP as [HP (mx & Hx & ->)]. rewrite Hm1 in Hx. injection Hx as <-. rewrite Z.add_0_r in Hr.
  destruct (placed_inv _ _ _ _ HP Hm1) as [Hnz Hal]. pose proof (ext_preorder.(PreOrder_Transitive) _ _ _ cp_ext0 X1) as X.
  assert (∀ i, 0 ≤ i < Size m → mem s0 (HostPtr m + i) = B i) as Hhost by (intros i Hi; by rewrite (q_mem Q), cp_host0).
  pose proof Hr as Hr0. rewrite <-(ext_size _ _ X) in Hr.
  apply (copy_current_keeps ndev user σ s0 h m1 (λ _, None)) in Hr as [Hk _]; try done; [|exact (q_inv Q)].
  split; [exact (k_inv Hk)|]. split; [destruct (k_ext Hk h m1 Hm1) as (? & ? & _); eauto|]. intros ->.
  apply copy_inv in Hr0 as [[_ ->]|(_ & Hok & _)]; [|done]. exists m1.
  assert (∀ k, ptr m1 k ≠ 0 → alias m = false → ∀ i, 0 ≤ i < Size m → cell m1 k (ptr m1 k + i)) as Hcell.
  { intros k Hk0 Ha i Hi. unfold cell. rewrite (ext_alias _ _ X), Ha. split; [done|]. apply in_range_true.
    rewrite (ext_size _ _ X). lia. }
  assert (∀ a, in_range (ptr m1 d) (Size m) a = true → alias m = false → cell m1 d a) as Hcd.
  { intros a Ha Haf. apply in_range_true in Ha. replace a with (ptr m1 d + (a - ptr m1 d)) by lia. apply Hcell; [done..|lia]. }
  split; [exact (k_inv Hk)|done|done|..]; cbn [mem set_mem called].
  - intros i Hi. destruct (alias m) eqn:Ea.
    + rewrite Hal, (ext_host _ _ X), memcpy_inside by (rewrite ?(ext_alias _ _ X); done). by apply Hhost.
    + rewrite memcpy_outside; [by apply Hhost|]. destruct (in_range _ _ _) eqn:E; [|done]. apply Hcd in E; [|done].
      rewrite <-(ext_host _ _ X) in E. destruct (inv_watch _ _ _ _ (q_inv Q) h m1 (HostPtr m1 + i) Hm1) as [_ Hno];
        [by rewrite (ext_alias _ _ X)|by rewrite (ext_host _ _ X)|apply in_range_true; rewrite (ext_size _ _ X); lia|].
      by destruct (Hno h m1 d Hm1).
  - intros d' i Hd' Ha Hi. destruct (decide (d' = d)) as [->|Hne]; [by rewrite memcpy_inside, Hhost|].
    apply elem_of_app in Hd' as [Hd'|?%list_elem_of_singleton]; [|done]. destruct (cp_device0 d' i Hd' Ha Hi) as [Hn0 Hb].
    rewrite (ext_ptr _ _ X1 _ Hn0). split; [done|]. rewrite memcpy_outside; [by rewrite (q_mem Q)|].
    destruct (in_range _ _ _) eqn:E; [|done]. apply Hcd in E; [|done].
    rewrite <-(ext_ptr _ _ X1 _ Hn0) in E. destruct Hne.
    apply (inv_cells _ _ _ _ (q_inv Q) h h m1 m1 d' d (ptr m1 d' + i)); try done. apply Hcell; try done. by rewrite (ext_ptr _ _ X1 _ Hn0).
Qed.

Lemma initial_copy_ok σ h m B todo : σ !! h = Some (λ _, None) → HostPtr m ≠ 0 → Forall (λ d, (d < ndev)%nat) todo →
  ∀ s ds m0 r s', copied σ s h m B ds m0 →
  forM todo (λ d, p ← getPtr h d; copy_async p (HostPtr m) (Size m)) s = (r, s') →
  inv s' σ ∧ is_Some (mems s' !! h) ∧ (r = inr () → ∃ m', copied σ s' h m B (ds ++ todo) m').
Proof.
  intros Hc Hp0. induction todo as [|d todo IH]; intros Ht s ds m0 r s' Hcp Hr.
  { injection Hr as <- <-. rewrite app_nil_r. split; [by apply (cp_inv _ _ _ _ _ _ _ Hcp)|].
    split; [eexists; by apply (cp_lookup _ _ _ _ _ _ _ Hcp)|]. intros _. by exists m0. }
  apply Forall_cons in Ht as [Hd Ht]. cbn [forM] in Hr.
  step Hr; eapply copy_to_device_ok in E as (Hi & Hs & Hok); try done.
  destruct a. destruct (Hok eq_refl) as [m1 Hcp1]. rewrite (cons_middle d ds todo), app_assoc. by eapply IH.
Qed.

Lemma flag_lor x a b : flag x (Z.lor a b) = flag x a || flag x b.
Proof.
  unfold flag. rewrite Z.land_lor_distr_r. apply eq_true_iff_eq.
  rewrite orb_true_iff, !negb_true_iff, !Z.eqb_neq, Z.lor_eq_0_iff. destruct (decide (Z.land x a = 0)); tauto.
Qed.

Lemma inv_content s σ h m c0 c :
  inv s (<[h := c0]> σ) → mems s !! h = Some m → coherent ndev (mem s) m c → inv s (<[h := c]> σ).
Proof.
  intros [] Hm Hco. split; try done.
  - intros h'. rewrite inv_dom0, !lookup_insert. by case_decide.
  - intros h' m' c' Hm'. rewrite lookup_insert. case_decide; [subst h'; simplify_eq; by intros [= <-]|].
    intros Hc'. apply (inv_co0 h'); [done|]. by rewrite lookup_insert_ne.
Qed.

(** The array of a new buffer is what its creator gave it. *)
Lemma copied_content σ s h m B ds m' c0 :
  copied (<[h := c0]> σ) s h m B ds m' → HostPtr m ≠ 0 → (alias m = true ∨ ∀ d, (d < ndev)%nat → d ∈ ds) →
  inv s (<[h := λ i, Some (B i)]> σ).
Proof.
  intros [] Hp Hall. eapply inv_content; [done..|].
  pose proof (inv_co _ _ _ _ cp_inv0 h m' c0 cp_lookup0 (lookup_insert_eq _ _ _)) as []. split; try done.
  - intros Ha. destruct (co_alias0 Ha) as (? & ? & _). split_and!; [done..|]. rewrite (ext_size _ _ cp_ext0), (ext_host _ _ cp_ext0).
    intros i v Hi [= <-]. by apply cp_host0.
  - rewrite (ext_alias _ _ cp_ext0), (ext_size _ _ cp_ext0). intros Ha d Hd _ i v Hi [= <-].
    apply cp_device0; [|done..]. destruct Hall as [?|Hall]; [congruence|by apply Hall].
  - rewrite (ext_size _ _ cp_ext0), (ext_host _ _ cp_ext0). intros Ha _ _ i v Hi [= <-]. split; [done|]. by apply cp_host0.
Qed.

Lemma make_mem_coherent mm flags mode P size : 0 < size → (mode = UseHostPtr ∨ mode = AllocHostPtr → P ≠ 0) →
  coherent ndev mm (make_mem ndev flags mode P size) (λ _, None).
Proof.
  intros Hs Hp. split; simpl; try done.
  - by rewrite !length_replicate.
  - by intros p x ?%elem_of_nil.
  - unfold alias. simpl. intros Ha. split; [apply Hp; destruct mode; auto; done|]. split; [|done].
    intros d. left. unfold ptr. simpl. rewrite nth_lookup. destruct (replicate ndev 0 !! d) as [x|] eqn:E; [|done].
    by apply lookup_replicate in E as [-> _].
Qed.

Lemma make_mem_ptr flags mode P size d : ptr (make_mem ndev flags mode P size) d = 0.
Proof.
  unfold ptr. simpl. rewrite nth_lookup. destruct (replicate ndev 0 !! d) as [x|] eqn:E; [|done].
  by apply lookup_replicate in E as [-> _].
Qed.

(** Memory that no buffer has, of the application or from the driver. *)
Lemma user_host s σ flags size pHost m : inv s σ → new_buffer user s flags size pHost →
  HostPtr m = pHost → Size m = size → MemAllocMode m ≠ AllocHostPtr → free_host s m.
Proof.
  intros Hi (_ & _ & _ & Hu) Eh Es Em Hp a Ha. rewrite Eh, Es in *. destruct (Hu Hp a Ha) as [Hua Hno].
  rewrite bool_decide_false by done. split; [done|]. intros h' m' Hm'. split; [|by apply (Hno h')].
  intros k C. pose proof (inv_alloc _ _ _ _ Hi h' m' k a Hm' C) as Hal. case_bool_decide as Eu; [|by apply (inv_user _ _ _ _ Hi a)].
  unfold cell, alias in C. rewrite Eu in C. destruct C as [_ C]. 
  destruct (inv_lookup _ _ _ _ h' m' Hi Hm') as (c' & _ & Hco). destruct (co_alias _ _ _ _ Hco) as [Hnz _]; [unfold alias; by rewrite Eu|].
  by rewrite (Hno h' m' Hm' Hnz) in C.
Qed.

Lemma malloc_host s σ m size : inv s σ → HostPtr m = cu_malloc (regions s) size → Size m = size →
  MemAllocMode m = AllocHostPtr → free_host (add_region (cu_malloc (regions s) size) size s) m.
Proof.
  intros Hi Eh Es Em Hp a Ha. rewrite Eh, Es in Ha. rewrite bool_decide_true by done.
  destruct (fresh_alloc ndev user Hmalloc _ s size a Hi Ha) as (Hu & Hr & Hf & Hno). split; [done|]. intros h' m' Hm'.
  split; [intros k; by apply (Hno h')|]. intros Hp'. destruct (in_range (HostPtr m') _ _) eqn:E; [|done].
  destruct (alias m') eqn:Ea.
  - destruct (Hno h' m' 0%nat Hm'). unfold cell. by rewrite Ea.
  - by destruct (inv_watch _ _ _ _ Hi h' m' a Hm' Ea Hp' E).
Qed.

(** The handle is made with an undefined array, then filled. *)
Lemma create_fill_ok s σ m size pHost (cond : bool) r s' :
  inv s σ → coherent ndev (mem s) m (λ _, None) → (∀ d, ptr m d = 0) → free_host s m →
  Size m = size → (cond = true → HostPtr m ≠ 0) → (pHost ≠ 0 → HostPtr m = pHost ∧ (alias m = true ∨ cond = true)) →
  let h := next_handle s in
  on_error (when cond (forM (seq 0 ndev) (λ d, p ← getPtr h d; copy_async p (HostPtr m) size)))
    (destroy (λ _, mret ()) h) (new_handle m s) = (r, s') →
  σ !! h = None ∧ match r with
    | inr _ => inv s' (<[h := if pHost =? 0 then λ _, None else λ i, Some (mem s (pHost + i))]> σ)
    | inl _ => inv s' σ
    end.
Proof.
  intros Hi Hco Hptr Hfree <- Hcond Hpost h Hr.
  assert (σ !! h = None) as Hnone.
  { destruct (σ !! h) as [c|] eqn:E; [|done]. destruct (proj2 (inv_dom _ _ _ _ Hi h)) as [m' Hm']; [by exists c|].
    assert (h < h) by (apply (inv_next _ _ _ _ Hi); by exists m'). lia. }
  split; [done|]. pose proof (inv_new s σ m Hi Hco Hptr Hfree) as Hi1. fold h in Hi1.
  assert (copied (<[h := λ _, None]> σ) (new_handle m s) h m (λ i, mem s (HostPtr m + i)) [] m) as Hcp.
  { split; [done|by simpl; rewrite lookup_insert_eq|reflexivity|done|]. intros d i ?%elem_of_nil. done. }
  set (loop := forM _ _) in Hr. unfold on_error in Hr. destruct cond.
  - specialize (Hcond eq_refl). simpl in Hr. destruct (loop (new_handle m s)) as [r1 s1] eqn:E.
    eapply (initial_copy_ok _ h m _ _ (lookup_insert_eq _ _ _) Hcond) in E as (Hi2 & [m2 Hm2] & Hok); [| |exact Hcp].
    2: { apply Forall_forall. intros d Hd%elem_of_seq. lia. }
    destruct r1 as [e|u].
    + injection Hr as <- <-. destruct (destroy _ h s1) as [r3 s3] eqn:E3.
      pose proof (destroy_ok _ _ _ _ _ _ _ Hi2 Hm2 E3) as Hd. simpl. by rewrite delete_insert_id in Hd.
    + injection Hr as <- <-. destruct (pHost =? 0) eqn:Ep; bool_to_prop; [done|]. destruct u.
      destruct (Hok eq_refl) as [m' Hcp']. destruct (Hpost Ep) as [<- _].
      eapply (copied_content σ s1 h m _ _ m'); [exact Hcp'|done|]. right. intros d Hd. simpl. apply elem_of_seq. lia.
  - simpl in Hr. injection Hr as <- <-. destruct (pHost =? 0) eqn:Ep; bool_to_prop; [done|].
    destruct (Hpost Ep) as [<- [Ha|?]]; [|done]. eapply (copied_content σ _ h m _ _ m); [exact Hcp|done|]. by left.
Qed.

Lemma create_ok s σ flags size pHost r s' :
  inv s σ → new_buffer user s flags size pHost → urMemBufferCreate ndev flags size pHost s = (r, s') →
  match r with
  | inr h => σ !! h = None ∧ inv s' (<[h := if pHost =? 0 then λ _, None else λ i, Some (mem s (pHost + i))]> σ)
  | inl _ => inv s' σ
  end.
Proof.
  intros Hi Hnew Hr. destruct Hnew as (Hs & Hpost & Hex & Hu). pose proof (conj Hs (conj Hpost (conj Hex Hu))) as Hnew.
  rewrite flag_lor in Hpost. unfold urMemBufferCreate in Hr.
  assert (∀ P s1, HostPtr (make_mem ndev flags (alloc_mode flags) P size) = P → inv s1 σ → mem s1 = mem s → next_handle s1 = next_handle s →
    free_host s1 (make_mem ndev flags (alloc_mode flags) P size) → (alloc_mode flags = AllocHostPtr → P ≠ 0 ∧ pHost = 0) →
    (alloc_mode flags ≠ AllocHostPtr → P = pHost) → ∀ r1 s2,
    (h ← (λ s, (inr (next_handle s), new_handle (make_mem ndev flags (alloc_mode flags) P size) s) : _);
     _ ← on_error (when (flag flags UR_MEM_FLAG_ALLOC_COPY_HOST_POINTER && negb (P =? 0))
          (forM (seq 0 ndev) (λ d, p ← getPtr h d; copy_async p P size))) (destroy (λ _, mret ()) h); mret h) s1 = (r1, s2) →
    match r1 with
    | inr h => σ !! h = None ∧ inv s2 (<[h := if pHost =? 0 then λ _, None else λ i, Some (mem s (pHost + i))]> σ)
    | inl _ => inv s2 σ
    end) as Hmain.
  { intros P s1 _ Hi1 Em En Hfree HA HB r1 s2 H1. unfold mbind at 1, M_bind at 1 in H1.
    set (m := make_mem ndev flags (alloc_mode flags) P size) in *.
    assert (alias m = true ↔ alloc_mode flags = UseHostPtr ∨ alloc_mode flags = AllocHostPtr) as Hal.
    { unfold m, alias. simpl. destruct (alloc_mode flags); split; try done; [by intros [?|?]|by left|by intros [?|?]|by right]. }
    assert (alloc_mode flags = UseHostPtr → pHost ≠ 0) as Huse.
    { unfold alloc_mode. destruct (flag flags UR_MEM_FLAG_USE_HOST_POINTER); [|by repeat case_match].
      intros _ E0. by apply Hpost in E0. }
    assert (coherent ndev (mem s1) m (λ _, None)) as Hco.
    { apply make_mem_coherent; [done|]. intros [Eu|Ea]; [|by apply HA]. rewrite HB by congruence. by apply Huse. }
    assert (flag flags UR_MEM_FLAG_ALLOC_COPY_HOST_POINTER && negb (P =? 0) = true → HostPtr m ≠ 0) as Hcond.
    { intros [_ ?]%andb_true_iff. by bool_to_prop. }
    assert (pHost ≠ 0 → HostPtr m = pHost ∧
      (alias m = true ∨ flag flags UR_MEM_FLAG_ALLOC_COPY_HOST_POINTER && negb (P =? 0) = true)) as Hfill.
    { intros Hp. destruct (decide (alloc_mode flags = AllocHostPtr)) as [Ea|Ea]; [by destruct (HA Ea)|].
      pose proof (HB Ea) as EP. split; [exact EP|]. rewrite EP. destruct (flag flags UR_MEM_FLAG_USE_HOST_POINTER) eqn:EU.
      - left. apply Hal. left. unfold alloc_mode. by rewrite EU.
      - right. destruct (flag flags UR_MEM_FLAG_ALLOC_COPY_HOST_POINTER); [by apply negb_true_iff, Z.eqb_neq|by destruct Hp; apply Hpost]. }
    step H1; apply (create_fill_ok s1 σ m size pHost _ _ _ Hi1 Hco (make_mem_ptr _ _ _ _) Hfree eq_refl Hcond Hfill) in E as [Hn Hres];
      [|done]. injection H1 as <- <-. by rewrite En, Em in *. }
  destruct (bool_decide (alloc_mode flags = AllocHostPtr)) eqn:Ea.
  - apply bool_decide_eq_true in Ea. step Hr; apply cu_malloc_inv in E; [destruct E as [-> ->]|destruct E as [-> _]; by apply inv_called].
    pose proof (inv_called _ _ _ _ Hi) as Hi1. apply Hmain in Hr; try done.
    + apply inv_add_region; [done|]. intros a. by apply Hmalloc.
    + rewrite Ea. by apply (malloc_host (called s) σ).
    + intros _. split; [by apply Z.neq_sym, Z.lt_neq, Hmalloc|]. apply Hpost. unfold alloc_mode in Ea.
      destruct (flag flags UR_MEM_FLAG_USE_HOST_POINTER), (flag flags UR_MEM_FLAG_ALLOC_HOST_POINTER), (flag flags UR_MEM_FLAG_ALLOC_COPY_HOST_POINTER);
        try done; by destruct Hex.
  - apply bool_decide_eq_false in Ea. step Hr; [|done]. injection E as <- <-. apply Hmain in Hr; try done.
    by apply (user_host s σ flags size pHost).
Qed.

(** ** Maps *)
Lemma put_maps_ok s σ h m l : inv s σ → mems s !! h = Some m →
  (∀ p x, (p, x) ∈ l → (p, x) ∈ PtrToBufferMap m ∨ 0 ≤ MapOffset x ∧ 0 ≤ MapSize x ∧ MapOffset x + MapSize x ≤ Size m ∧
     MapOffset x + MapSize x < 2 ^ 64 ∧ (HostPtr m ≠ 0 → p = HostPtr m + MapOffset x)) →
  inv (set_mems <[h := with_maps l m]> s) σ.
Proof.
  intros Hi Hm Hl. destruct (inv_lookup _ _ _ _ _ _ Hi Hm) as (c & Hc & []). rewrite <-(insert_id σ h c Hc).
  eapply (inv_put_same _ _ s σ h m); [done..|]. split; try done. intros p x Hx. simpl in *.
  destruct (Hl p x Hx) as [Hin|?]; [by apply co_maps0|done].
Qed.

Lemma insert_map_elem p x l p' x' : (p', x') ∈ insert_map p x l → (p', x') ∈ l ∨ p' = p ∧ x' = x.
Proof. unfold insert_map. case_bool_decide; [by left|]. intros [[= -> ->]|?]%elem_of_cons; auto. Qed.

Lemma malloc_map_host s σ n a : inv s σ → in_range (cu_malloc (regions s) n) n a = true →
  host_may_write user (add_region (cu_malloc (regions s) n) n s) σ a.
Proof.
  intros Hi Ha. destruct (fresh_alloc ndev user Hmalloc _ s n a Hi Ha) as (Hu & Hr & Hf & Hno). split; [by right|].
  intros h m c Hm Hc. split; [intros _ k; by apply (Hno h)|]. intros Hp E. destruct (alias m) eqn:Ea.
  - destruct (Hno h m 0%nat Hm). unfold cell. by rewrite Ea.
  - by destruct (inv_watch _ _ _ _ Hi h m a Hm Ea Hp E).
Qed.

Lemma mapToPtr_ok s σ h m off n fl r s' :
  inv s σ → mems s !! h = Some m → fits off n → off + n ≤ Size m → mapToPtr h n off fl s = (r, s') →
  inv s' σ ∧ ∃ p l, r = inr p ∧ mems s' !! h = Some (with_maps l m) ∧
    (HostPtr m ≠ 0 → p = HostPtr m + off ∧ mem s' = mem s) ∧ (HostPtr m = 0 → host_buffer user s' σ p n).
Proof.
  intros Hi Hm (Ho & Hn & Hlt) Hsz Hr. unfold mapToPtr, mbind at 1, M_bind at 1, get at 1 in Hr. rewrite Hm in Hr.
  destruct (HostPtr m =? 0) eqn:Eh; bool_to_prop.
  - unfold mbind, M_bind in Hr. simpl in Hr. injection Hr as <- <-. set (p := cu_malloc (regions s) n). fold p.
    set (s1 := set_mem _ (add_region p n s)).
    assert (inv s1 σ) as Hi1.
    { apply inv_host_write.
      - apply inv_add_region; [done|]. intros a. by apply Hmalloc.
      - intros a. simpl. destruct (in_range p n a) eqn:E; [right; by apply malloc_map_host|by left]. }
    split.
    + apply (put_maps_ok s1 σ h m); [done|done|]. intros p' x [Hin|[-> ->]]%insert_map_elem; [by left|right]. simpl.
      split_and!; try done; lia.
    + eexists p, _. split; [done|]. split; [simpl; by rewrite lookup_insert_eq|]. split; [done|]. intros _ a Ha.
      destruct (malloc_map_host s σ n a Hi Ha) as [Hu Hw]. split; [done|]. intros h' m' c. simpl.
      rewrite lookup_insert. case_decide; [subst h'; intros [= <-]; by apply (Hw h m)|by apply Hw].
  - unfold mbind, M_bind in Hr. injection Hr as <- <-. split.
    + apply (put_maps_ok s σ h m); [done|done|]. intros p' x [Hin|[-> ->]]%insert_map_elem; [by left|right]. simpl.
      split_and!; try done; lia.
    + eexists _, _. split; [done|]. split; [simpl; by rewrite lookup_insert_eq|]. done.
Qed.

Lemma map_no_copy_inv b ev s r s' : map_no_copy b ev s = (r, s') → (∃ k, s' = Nat.iter k called s) ∧ ∃ x, r = inr x.
Proof.
  assert (∀ (m : M unit) s1 r1 s2, ticks m → result m s1 = (r1, s2) → (∃ k, s2 = Nat.iter k called s1) ∧ ∃ x, r1 = inr x) as Hres.
  { intros m s1 r1 s2 Hm. unfold result. destruct (m s1) as [[e|u] s3] eqn:E; intros [= <- <-];
      (split; [by destruct (Hm _ _ _ E)|by eexists]). }
  intros Hr. unfold map_no_copy in Hr.
  step Hr; apply Hres in E as [[k ->] [x Hx]]; try (apply ticks_when, ticks_cu); try done.
  step Hr; apply Hres in E as [[k' ->] [x' Hx']]; try done;
    try (apply ticks_when; repeat (apply ticks_bind; [apply ticks_cu|intros _]); apply ticks_cu).
  injection Hr as <- <-. split; [exists (k' + k)%nat; by rewrite Nat.iter_add|by eexists].
Qed.

Lemma iter_inv s σ k : inv s σ → inv (Nat.iter k called s) σ.
Proof. intros Hi. apply (q_inv (proj1 (iter_quiet ndev user σ k s Hi))). Qed.

Definition map_reads (m : ur_mem) (fl : Z) (r : ur_result_t) : bool :=
  bool_decide (r = UR_RESULT_SUCCESS) &&
  (bool_decide (MemAllocMode m = AllocHostPtr) || flag fl UR_MAP_FLAG_READ || flag fl UR_MAP_FLAG_WRITE).

Lemma map_ok s σ q h m c b fl off n ev r s' :
  inv s σ → mems s !! h = Some m → σ !! h = Some c → (getDevice q < ndev)%nat → fits off n →
  urEnqueueMemBufferMap q h b fl off n ev s = (r, s') →
  inv s' σ ∧ match r with
    | inr (res, p) => map_reads m fl res = true → agrees c off n (λ i, mem s' (p + i))
    | inl _ => True
    end.
Proof.
  intros Hi Hm Hc Hd Hf Hr. unfold urEnqueueMemBufferMap, mbind at 1, M_bind at 1, get at 1 in Hr. rewrite Hm in Hr.
  step Hr; apply assert_inv in E as [-> Ha]; rewrite (u64_fits _ _ Hf) in Ha; [|done].
  destruct (off + n <=? Size m) eqn:En; [|done]. bool_to_prop.
  step Hr; apply (mapToPtr_ok s σ h m) in E as (Hi1 & p & l & Hp & Hm1 & Hhost & Hnew); try done. injection Hp as ->.
  step Hr; apply assert_inv in E as [-> _]; [|done].
  unfold map_reads. destruct (bool_decide (MemAllocMode m = AllocHostPtr)) eqn:Epin; simpl in Hr.
  - apply bool_decide_eq_true in Epin. assert (alias m = true) as Ea by (unfold alias; by rewrite Epin).
    destruct (inv_lookup _ _ _ _ _ _ Hi Hm) as (c' & ? & Hco). simplify_eq. destruct (co_alias _ _ _ _ Hco Ea) as (Hnz & _ & Hv).
    step Hr; apply map_no_copy_inv in E as [[k ->] [x Hx]]; try done. injection Hr as <- <-. split; [by apply iter_inv|]. intros _ i v Hir Hci.
    destruct (Hhost Hnz) as [-> Em]. rewrite (proj1 (iter_called _ _)), Em. destruct Hf.
    replace (HostPtr m + off + i) with (HostPtr m + (off + i)) by lia. apply Hv; [lia|done].
  - destruct (flag fl UR_MAP_FLAG_READ || flag fl UR_MAP_FLAG_WRITE) eqn:Erd; simpl in Hr.
    + unfold mbind, M_bind, result in Hr. destruct (urEnqueueMemBufferRead _ _ _ _ _ _ _ _) as [r2 s2] eqn:E2.
      apply (read_ok ndev user Hmalloc Huva σ) in E2 as (Hk & Hne & Hrd); try done.
      2: { destruct (decide (HostPtr m = 0)) as [E0|E0]; [left; by apply Hnew|right]. eexists. split; [exact Hm1|].
           split; [done|]. by destruct (Hhost E0). }
      destruct r2 as [e|u]; injection Hr as <- <-; (split; [exact (k_inv Hk)|]).
      * rewrite bool_decide_false by congruence. done.
      * intros _. destruct u. destruct (Hrd eq_refl) as (c' & ? & Hag). by simplify_eq.
    + step Hr; apply map_no_copy_inv in E as [[k ->] [x Hx]]; try done. injection Hr as <- <-.
      split; [by apply iter_inv|]. simpl. rewrite Erd, andb_false_r. done.
Qed.

Lemma unmap_ok s σ q h m c x p ev r s' :
  inv s σ → mems s !! h = Some m → σ !! h = Some c → (getDevice q < ndev)%nat → getMapDetails p m = Some x →
  may_write m (getDevice q) (MapOffset x) (MapSize x) → urEnqueueMemUnmap q h p ev s = (inr r, s') →
  inv s' (if writes_map x
          then <[h := upd c (MapOffset x) (MapSize x)
                   (λ i, if bool_decide (r = UR_RESULT_SUCCESS) then Some (mem s (p + i)) else None)]> σ
          else σ).
Proof.
  intros Hi Hm Hc Hd Hx Hw Hr. unfold urEnqueueMemUnmap, mbind at 1, M_bind at 1, get at 1 in Hr. rewrite Hm, Hx in Hr.
  destruct (inv_lookup _ _ _ _ _ _ Hi Hm) as (c' & ? & Hco). simplify_eq.
  assert ((p, x) ∈ PtrToBufferMap m) as Hin.
  { unfold getMapDetails in Hx. destruct (list_find _ _) as [[i [p' x']]|] eqn:E; [|done]. injection Hx as <-.
    apply list_find_Some in E as (E & <- & _). by apply list_elem_of_lookup_2 in E. }
  destruct (co_maps _ _ _ _ Hco p x Hin) as (Ho & Hn & Hsz & Hlt & Hhost).
  assert (∀ s1 σ1 m1 u s2, inv s1 σ1 → mems s1 !! h = Some m1 → unmap h p s1 = (u, s2) → inv s2 σ1) as Hunmap.
  { intros s1 σ1 m1 u s2 Hi1 Hm1. unfold unmap, mbind, M_bind, get. rewrite Hm1. intros [= _ <-].
    apply (put_maps_ok s1 σ1 h m1); [done|done|]. intros p' x' [_ ?]%list_elem_of_filter. by left. }
  assert (∀ m1 u s1 σ1, inv s1 σ1 → mems s1 !! h = Some m1 → (unmap h p ≫= λ _, mret u) s1 = (inr r, s') → r = u ∧ inv s' σ1) as Hend.
  { intros m1 u s1 σ1 Hi1 Hm1 H1. apply bind_inv in H1 as [(v & s2 & E & H1)|(e & _ & [=])]. injection H1 as <- <-. split; [done|]. by eapply Hunmap. }
  unfold writes_map. set (wr := flag (MapFlags x) _) in *. apply bind_inv in Hr as [(a & s0 & E & Hr)|(e & _ & [=])].
  destruct (negb (bool_decide (MemAllocMode m = AllocHostPtr)) && wr) eqn:Ecp.
  - apply andb_true_iff in Ecp as [_ ->]. unfold result in E.
    destruct (urEnqueueMemBufferWrite _ _ _ _ _ _ _ _) as [r2 s2] eqn:E2.
    apply (write_ok ndev user Hmalloc Huva σ s q h m c) in E2 as [Hk Hne]; try done.
    destruct (k_ext Hk h m Hm) as (m2 & Hm2 & _).
    assert (s0 = s2 ∧ bool_decide (a = UR_RESULT_SUCCESS) = ok r2) as [-> Eok].
    { destruct r2 as [e|u]; injection E as <- <-; (split; [done|]); [|done]. apply bool_decide_eq_false. congruence. }
    destruct (Hend m2 a s2 _ (k_inv Hk) Hm2 Hr) as [-> Hi']. by rewrite Eok.
  - apply map_no_copy_inv in E as [[k ->] _]. destruct (iter_called k s) as (Em & Ems & _).
    destruct (Hend m a (Nat.iter k called s) (if wr then <[h := upd c (MapOffset x) (MapSize x)
        (λ i, if bool_decide (a = UR_RESULT_SUCCESS) then Some (mem s (p + i)) else None)]> σ else σ)) as [-> ?]; [|by rewrite Ems|done|done].
    destruct wr; [|by apply iter_inv]. rewrite andb_true_r in Ecp. apply negb_false_iff, bool_decide_eq_true in Ecp.
    pose proof (iter_inv s σ k Hi) as Hi1. rewrite <-(insert_id σ h c Hc) in Hi1.
    eapply (inv_content _ σ h m c); [exact Hi1|by rewrite Ems|]. rewrite Em. destruct Hco.
    assert (alias m = true) as Ea by (unfold alias; by rewrite Ecp). split; try done; try congruence.
    intros _. destruct (co_alias0 Ea) as (Hnz & ? & Hv). split_and!; [done..|]. intros i v Hir. unfold upd.
    destruct (in_range _ _ i); [|by apply Hv]. case_bool_decide; [|done]. intros [= <-]. rewrite Hhost by done. f_equal. lia.
Qed.

Lemma inv_lost_range s σ h c off n : inv s σ → σ !! h = Some c → inv s (<[h := upd c off n (λ _, None)]> σ).
Proof.
  intros Hi Hc. eapply inv_weaken_all; [done|..].
  - intros h'. rewrite lookup_insert. case_decide; [subst h'; rewrite Hc; by split; eexists|done].
  - intros h' m c' Hm. rewrite lookup_insert. case_decide; [subst h'; intros [= <-]|by eauto].
    exists c. split; [done|]. intros i v _ Hu. by apply upd_lost in Hu as [_ ?].
Qed.
End facts.
End CommandFacts.
