(* ===== verification/CudaMemoryProps.v ===== *)
(** * The properties of the memory objects of the CUDA adapter *)
From stdpp Require Import base numbers list gmap relations.
From S2P Require Import Prelude UrUtil FlatMemory CudaMemory CudaMemoryProofs CudaFill CudaCommands.
Import Util.
Local Open Scope Z_scope.

(** ** Properties *)
Module MemProps.
Import Mem MemSpec MemFacts FillFacts CommandFacts.

Section props.
Context `{CudaDriver} (ndev : nat) (user : Z → Prop).

(** What is relied on of the driver: new memory overlaps neither the
    application's nor memory given out before, and host memory is seen by the
    devices at its own address. *)
Definition driver_ok : Prop :=
  (∀ l n, 0 < cu_malloc l n ∧
    ∀ a, in_range (cu_malloc l n) n a = true → ¬ user a ∧ ∀ p k, (p, k) ∈ l → in_range p k a = false) ∧
  ∀ p, cuMemHostGetDevicePointer p = p.

(** A step of the implementation with the step of the arrays it stands for. *)
Definition step (x y : state * spec) : Prop := ∃ l, cstep ndev user x.1 x.2 l y.1 ∧ astep x.2 l y.2.

Definition initial (mm : memory) : state * spec :=
  ({| mem := mm; regions := []; freed := []; mems := ∅; queue_refs := ∅; next_handle := 1; calls := 0 |}, ∅).

Lemma no_buffers_inv mm : inv ndev user (initial mm).1 (initial mm).2.
Proof.
  split; cbn [initial fst snd mems next_handle freed]; try (by intros; simplify_map_eq).
  - intros a (p & n & Hp & _). by apply elem_of_nil in Hp.
  - split; [constructor|]. intros p Hp. by apply elem_of_nil in Hp.
Qed.

Lemma write_label_step (b : bool) h off n data (σ : spec) c : σ !! h = Some c →
  astep σ (write_label b h off n data) (<[h := upd c off n (λ i, if b then Some (data i) else None)]> σ).
Proof. intros Hc. destruct b; [by apply a_write|by apply a_lost]. Qed.

Lemma cstep_refines s σ l s' : driver_ok → inv ndev user s σ → cstep ndev user s σ l s' →
  ∃ σ', astep σ l σ' ∧ inv ndev user s' σ'.
Proof.
  intros [Hmal Huva] Hi Hst.
  assert (∀ h m, mems s !! h = Some m → ∃ c, σ !! h = Some c) as Hlook
    by (intros h m Hm; destruct (inv_lookup _ _ _ _ _ _ Hi Hm) as (c & ? & _); by exists c).
  destruct Hst as [a v Hw|flags size pHost r s' Hnew Hr|h r s' Hr|h m r s' Hm Hpos Hr|q h b off n dst ev r s' Hd Hf Hh Hr
    |q h m b off n src ev r s' Hm Hd Hf Hn Hw Hr|q h m pat ps off n ev r s' Hm Hd Hf Hn Hw Hps Hlen Hmod Hr
    |q h1 h2 m1 m2 off1 off2 n ev r s' Hm1 Hm2 Hd Hf1 Hf2 Hn1 Hn2 Hcur Hsole Hr|q h m b fl off n ev r p s' Hm Hd Hf Hr
    |q h b fl off n ev e s' Hd Hf Hr|q h m x p ev r s' Hm Hd Hx Hw Hr
    |q d k args ms workDim params ev ps s1 s2 r s' Hdq Hd Hms Hro Hsa Hpl Hr|q d k args workDim empty params ev r s' Hdq Hd Hex Hc Hr].
  - exists σ. split; [constructor|]. apply inv_host_write; [done|]. intros b. destruct (Z.eqb_spec b a) as [->|]; [by right|by left].
  - apply (create_ok ndev user Hmal Huva s σ) in Hr; [|done..]. destruct r as [e|h].
    + exists σ. split; [constructor|done].
    + destruct Hr as [Hn Hi']. eexists. split; [by constructor|]. done.
  - exists σ. split; [constructor|]. by apply (retain_ok ndev user s σ h r).
  - eexists. split; [|by apply (release_ok ndev user s σ h m r)]. destruct (RefCount m =? 1); constructor.
  - apply (read_ok ndev user Hmal Huva σ) in Hr as (Hk & _ & Hrd); [|done|done|done|by left].
    exists σ. split; [|exact (k_inv Hk)]. destruct r as [e|u]; simpl; [constructor|]. destruct u.
    destruct (Hrd eq_refl) as (c & Hc & Hag). by apply a_read with c.
  - destruct (Hlook _ _ Hm) as [c Hc]. eexists. split; [by apply write_label_step|].
    apply (write_ok ndev user Hmal Huva σ s q h m c) in Hr as [Hk _]; try done. exact (k_inv Hk).
  - destruct (Hlook _ _ Hm) as [c Hc]. eexists. split; [by apply write_label_step|].
    apply (fill_ok ndev user Hmal Huva σ s q h m c) in Hr as Hk; try done. exact (k_inv Hk).
  - destruct (Hlook _ _ Hm1) as [c1 Hc1], (Hlook _ _ Hm2) as [c2 Hc2].
    apply (copy_ok ndev user Hmal Huva σ s q h1 h2 m1 m2 c1 c2) in Hr as Hk; try done.
    eexists. split; [|exact (k_inv Hk)]. destruct (ok r); [by apply a_copy|by apply a_lost].
  - destruct (Hlook _ _ Hm) as [c Hc]. apply (map_ok ndev user Hmal Huva s σ q h m c) in Hr as [Hi' Hag]; try done.
    eexists. split; [by apply (a_map _ h c)|]. case_match; [|done]. by apply (inv_lost_range ndev user s' σ h c).
  - exists σ. split; [constructor|]. destruct (mems s !! h) as [m|] eqn:Hm.
    + destruct (Hlook _ _ Hm) as [c Hc]. by apply (map_ok ndev user Hmal Huva s σ q h m c) in Hr as [Hi' _].
    + unfold urEnqueueMemBufferMap, mbind at 1, M_bind at 1, get at 1 in Hr. rewrite Hm in Hr. by injection Hr as _ <-.
  - destruct (Hlook _ _ Hm) as [c Hc]. pose proof (unmap_ok ndev user Hmal Huva s σ q h m c x p ev r s' Hi Hm Hc Hd Hx Hw Hr) as Hi'.
    eexists. split; [|exact Hi']. destruct (writes_map x); [by apply write_label_step|constructor].
  - pose proof (kernel_ok ndev user Hmal Huva σ s q d k args ms workDim params ev ps s1 s2 r s' Hi Hdq Hd Hms Hro Hsa Hpl Hr) as Hk.
    simpl in Hk. destruct (ok r); [destruct Hk as [Hi' Hv]|]; (eexists; split; [by constructor|done]).
  - exists σ. split; [constructor|]. apply (kernel_fails_ok ndev user Hmal Huva σ) in Hr as Hk; try done; [exact (k_inv Hk)|].
    by apply Forall_forall.
Qed.

Lemma astep_det σ l σ1 σ2 : astep σ l σ1 → astep σ l σ2 → σ1 = σ2.
Proof. intros H1 H2. destruct H1; inversion H2; by simplify_eq. Qed.

Lemma buffers_step_inv x y : driver_ok → inv ndev user x.1 x.2 → step x y → inv ndev user y.1 y.2.
Proof.
  intros Hok Hi (l & Hc & Ha). destruct (cstep_refines _ _ _ _ Hok Hi Hc) as (σ' & Ha' & Hi').
  by rewrite (astep_det _ _ _ _ Ha Ha').
Qed.


(** A fill writes its pattern over and over, and nothing else, for patterns of
    every size: by bytes, halves or words, in one strided pass per word, or in a
    single pass when all words of the pattern are the same. *)
Theorem fill_pattern pat ps n p s r s' :
  0 < ps < 2 ^ 32 → Z.of_nat (length pat) = ps → 0 ≤ n → n `mod` ps = 0 → fill_bytes pat ps n p s = (r, s') →
  (∀ a, in_range p n a = false → mem s' a = mem s a) ∧
  (r = inr () → ∀ i, 0 ≤ i < n → mem s' (p + i) = nth (Z.to_nat (i `mod` ps)) pat 0) ∧ mems s' = mems s.
Proof.
  intros Hps Hlen Hn Hmod Hr. apply fill_bytes_ok in Hr as (mm & k & -> & _ & Hout & Hin); [|done..].
  destruct (iter_called k s) as (_ & Ems & _). split; [|split; [exact Hin|exact Ems]].
  intros a Ha. simpl. replace a with (p + (a - p)) by lia. apply Hout. apply in_range_false in Ha. apply in_range_false. lia.
Qed.

Lemma getPtrs_ok s σ h ds r s' : driver_ok → inv ndev user s σ → Forall (λ d, (d < ndev)%nat) ds →
  forM ds (λ d, _ ← getPtr h d; mret ()) s = (r, s') →
  quiet ndev user σ s s' ∧ (r = inr () → Forall (placed s' h) ds).
Proof.
  intros [Hmal Huva]. revert s r s'. induction ds as [|d ds IH]; intros s r s' Hi Hds Hr.
  { injection Hr as <- <-. split; [by apply quiet_refl|done]. }
  apply Forall_cons in Hds as [Hd Hds]. cbn [forM] in Hr. apply bind_inv in Hr as [(u & s1 & E & Hr)|(e & E & ->)];
    apply bind_inv in E as [(p & s2 & E & E2)|(e' & E & ?)]; simplify_eq/=; try injection E2 as <- <-;
    apply (getPtr_ok ndev user Hmal Huva σ) in E as [Q1 HP]; try done.
  destruct HP as [HP _]. apply IH in Hr as [Q2 Hall]; [|exact (q_inv Q1)|done].
  split; [by eapply quiet_trans|]. intros ->. constructor; [|by apply Hall].
  exact (placed_keeps _ _ _ _ _ _ _ (quiet_keeps _ _ _ _ _ Q2) HP).
Qed.

(** A sub-buffer is a window of its parent's memory on every device of the
    context, within the parent, and holds a reference to it; sub-buffers of
    sub-buffers are refused. *)
Theorem partition_window s σ h flags origin size m hs s' :
  driver_ok → inv ndev user s σ → mems s !! h = Some m → urMemBufferPartition ndev h flags origin size s = (inr hs, s') →
  u64 (origin + size) ≤ Size m ∧ hs ≠ h ∧ ∃ p sub, mems s' !! h = Some p ∧ mems s' !! hs = Some sub ∧
    Parent sub = Some h ∧ RefCount p = u32 (RefCount m + 1) ∧ RefCount sub = 1 ∧ mem s' = mem s ∧
    ∀ d, (d < ndev)%nat → ptr p d ≠ 0 ∧ ptr sub d = ptr p d + origin ∧ (ptr m d ≠ 0 → ptr p d = ptr m d).
Proof.
  intros Hok Hi Hm Hr. unfold urMemBufferPartition, mbind at 1, M_bind at 1, get at 1 in Hr. rewrite Hm in Hr.
  apply bind_inv in Hr as [(u & s0 & E & Hr)|(e & _ & [=])]; apply assert_inv in E as [-> _].
  apply bind_inv in Hr as [(u1 & s0 & E & Hr)|(e & _ & [=])]; apply assert_inv in E as [-> _].
  apply bind_inv in Hr as [(u2 & s0 & E & Hr)|(e & _ & [=])]; apply assert_inv in E as [-> Hb].
  destruct (u64 (origin + size) <=? Size m) eqn:Eb; [|done]. bool_to_prop. split; [done|].
  apply bind_inv in Hr as [(u3 & s1 & E & Hr)|(e & _ & [=])]. destruct u3.
  apply (getPtrs_ok s σ) in E as [Q Hall]; [|done|done|by apply Forall_forall; intros d ?%elem_of_seq; lia].
  specialize (Hall eq_refl). destruct (quiet_lookup _ _ _ _ _ _ _ Q Hm) as (p & Hp & X).
  unfold mbind at 1, M_bind at 1, get at 1 in Hr. rewrite Hp in Hr. unfold mbind at 1, M_bind at 1 in Hr.
  assert (h ≠ next_handle s1) as Hne.
  { intros E. assert (h < next_handle s1) by (apply (inv_next _ _ _ _ (q_inv Q)); by exists p). lia. }
  apply bind_inv in Hr as [(u4 & s2 & E & Hr)|(e & _ & [=])]. injection Hr as <- <-. split; [done|].
  unfold urMemRetain, mbind at 1, M_bind at 1, get at 1 in E. cbn [mems new_handle] in E.
  rewrite lookup_insert_ne, Hp in E by done.
  apply bind_inv in E as [(u5 & s3 & E & E5)|(e & _ & [=])]; apply assert_inv in E as [-> _]. injection E5 as _ <-.
  exists (with_RefCount (u32 (RefCount p + 1)) p), (make_sub ndev h origin p). cbn [mems set_mems new_handle].
  rewrite lookup_insert_eq, lookup_insert_ne, lookup_insert_eq by done. split_and!; try done.
  - simpl. by rewrite (ext_refs _ _ X).
  - simpl. by rewrite (q_mem Q).
  - intros d Hd. rewrite Forall_forall in Hall. destruct (placed_inv _ _ _ _ (Hall d ltac:(apply elem_of_seq; lia)) Hp) as [Hn _].
    change (ptr (with_RefCount _ p) d) with (ptr p d). split; [done|]. split; [|apply (ext_ptr _ _ X)].
    unfold ptr, make_sub in *. simpl in *. rewrite nth_lookup in Hn |- *. rewrite list_lookup_fmap, nth_lookup.
    destruct (Ptrs p !! d) as [x|]; simpl in *; [|done]. by rewrite (proj2 (Z.eqb_neq x 0)).
Qed.
End props.

(** A driver whose calls succeed and which gives out memory above the application's. *)
Definition bump (l : list (Z * Z)) : Z := foldr (λ x a, (x.1 + x.2) `max` a) 4096 l.
Definition low (a : Z) : Prop := a < 4096.

Lemma bump_above l p k : (p, k) ∈ l → p + k ≤ bump l.
Proof. induction l as [|[p' k'] l IH]; [by intros ?%elem_of_nil|]. intros [[= -> ->]|Hin]%elem_of_cons; simpl; [lia|]. specialize (IH Hin). lia. Qed.
Lemma bump_high l : 4096 ≤ bump l.
Proof. induction l as [|x l IH]; simpl; lia. Qed.

Definition sample_driver : CudaDriver := {|
  cu_error _ := None; cuMemHostRegister _ := Registered; cu_malloc l _ := bump l; cuMemHostGetDevicePointer p := p;
  cu_error_fails n := ltac:(done); register_fails n := ltac:(done) |}.
#[local] Existing Instance sample_driver.

Lemma sample_driver_ok : driver_ok low.
Proof.
  split; [|done]. intros l n. pose proof (bump_high l). split; [simpl; lia|]. simpl. intros a Ha%in_range_true.
  split; [unfold low; lia|]. intros p k Hin. apply in_range_false. pose proof (bump_above l p k Hin). lia.
Qed.

(** Every byte of the application's memory is its address. *)
Definition own_address : memory := λ a, a.
Definition q0 : ur_queue := {| queue_id := 10; getDevice := 0 |}.
Definition q1 : ur_queue := {| queue_id := 11; getDevice := 1 |}.
Definition increment : kernel := λ views i o,
  match i with O => Some (nth 0 views (λ _, 0) o + 1) | S _ => None end.

(** A buffer is created, written on one device and incremented on the other. *)
Definition t1 : state := (urMemBufferCreate 2 UR_MEM_FLAG_READ_WRITE 8 0 (initial own_address).1).2.
Definition t2 : state := (urEnqueueMemBufferWrite q0 1 true 0 8 16 false t1).2.
Definition inc_args : list (Z * Z) := [(1, UR_MEM_FLAG_READ_WRITE)].
Definition t3 : state := (urEnqueueKernelLaunchWithArgsExp 2 q1 1 increment inc_args 1 false None false t2).2.
Definition the (s : state) (h : Z) : ur_mem := default (make_mem 0 0 Classic 0 0) (mems s !! h).
Definition σ1 : spec := <[1 := λ _, None]> ∅.
Definition σ2 : spec := <[1 := upd (λ _, None) 0 8 (λ i, Some (own_address (16 + i)))]> σ1.
Definition arg_ptrs : list (Z * Z) := match (set_args 1 inc_args t2).1 with inr l => l | inl _ => [] end.
Definition launch_views : list (Z → Z) :=
  (λ x o, mem (prepare_launch 2 q1 inc_args None false (set_args 1 inc_args t2).2).2 (x.1 + o)) <$> arg_ptrs.
Definition launch_args : list (Z * Z) := zip inc_args.*1 (Size <$> [the t2 1]).
Definition σ3 : spec := kernel_args increment launch_views 0 launch_args σ2.

Lemma outcome {A} (p : (ur_result_t + A) * state) r : p.1 = r → p = (r, p.2).
Proof. destruct p. by intros <-. Qed.

Lemma created : step 2 low (initial own_address) (t1, σ1).
Proof.
  exists (LCreate 1 (λ _, None)). split; [|by constructor].
  apply (c_create 2 low _ _ UR_MEM_FLAG_READ_WRITE 8 0 (inr 1) t1); [|reflexivity]. split; [lia|]. by repeat split; auto.
Qed.
Lemma written : step 2 low (t1, σ1) (t2, σ2).
Proof.
  exists (LWrite 1 0 8 (λ i, own_address (16 + i))). split; [|by apply a_write].
  apply (c_write 2 low t1 σ1 q0 1 (the t1 1) true 0 8 16 false (inr ()) t2); try reflexivity; try done.
  - simpl. lia.
  - right. right. done.
Qed.
Lemma written_inv : inv 2 low t2 σ2.
Proof.
  apply (buffers_step_inv 2 low (t1, σ1) (t2, σ2)); [apply sample_driver_ok| |apply written].
  apply (buffers_step_inv 2 low (initial own_address) (t1, σ1)); [apply sample_driver_ok|apply no_buffers_inv|apply created].
Qed.
Lemma launched : step 2 low (t2, σ2) (t3, σ3).
Proof.
  assert (cstep 2 low t2 σ2 (LKernel increment launch_args launch_views) t3) as Hc.
  { apply (c_kernel 2 low t2 σ2 q1 1 increment inc_args [the t2 1] 1 None false arg_ptrs (set_args 1 inc_args t2).2
      (prepare_launch 2 q1 inc_args None false (set_args 1 inc_args t2).2).2 (inr ()) t3);
      [simpl; lia|simpl; lia|..|apply outcome; vm_compute; reflexivity|apply outcome; vm_compute; reflexivity
      |unfold t3; apply outcome; vm_compute; reflexivity].
    - constructor; [vm_compute; reflexivity|constructor].
    - intros [|[|j]] h f; simpl; [intros [= <- <-]|done..]; by intros ?. }
  destruct (cstep_refines 2 low _ _ _ _ sample_driver_ok written_inv Hc) as (σ' & Ha & _).
  eexists. split; [exact Hc|]. inversion Ha; subst. done.
Qed.

(** The device that wrote last is asked, and gives the incremented bytes. *)
Definition read_back : ur_result_t + unit := (urEnqueueMemBufferRead q0 1 true 0 8 100 false t3).1.
Definition t4 : state := (urEnqueueMemBufferRead q0 1 true 0 8 100 false t3).2.

Lemma host_range s σ n p : (∀ a, p ≤ a < p + n → low a) →
  (∀ h m, mems s !! h = Some m → alias m = false ∧ HostPtr m = 0 ∧ ∀ k, ptr m k ≠ 0 → 4096 ≤ ptr m k) →
  host_buffer low s σ p n.
Proof.
  intros Hl Hs a Ha%in_range_true. split; [left; by apply Hl|]. intros h m c Hm _. destruct (Hs h m Hm) as (Ea & Eh & Hp).
  split; [|by rewrite Eh]. intros _ k. unfold cell. rewrite Ea. intros [Hk Hr%in_range_true]. specialize (Hp k Hk).
  specialize (Hl a Ha). unfold low in Hl. lia.
Qed.


Definition pattern6 : list Z := [1; 2; 3; 4; 5; 6].
Lemma fill_pattern_witness : ∃ s', fill_bytes pattern6 6 12 64 (initial own_address).1 = (inr (), s') ∧
  (∀ a, in_range 64 12 a = false → mem s' a = a) ∧ mem s' 70 = 1 ∧ mem s' 75 = 6.
Proof.
  assert (fill_bytes pattern6 6 12 64 (initial own_address).1 = (inr (), (fill_bytes pattern6 6 12 64 (initial own_address).1).2)) as Hr
    by (apply outcome; vm_compute; reflexivity).
  eexists. split; [exact Hr|]. apply fill_pattern in Hr as (Hout & Hin & _); [|lia|done|lia|done].
  split; [exact Hout|]. split; [exact (Hin eq_refl 6 ltac:(lia))|exact (Hin eq_refl 11 ltac:(lia))].
Defined.

Lemma created_inv : inv 2 low t1 σ1.
Proof. apply (buffers_step_inv 2 low (initial own_address) (t1, σ1)); [apply sample_driver_ok|apply no_buffers_inv|apply created]. Qed.

Lemma partition_window_witness : ∃ s' p sub, urMemBufferPartition 2 1 UR_MEM_FLAG_READ_WRITE 2 4 t1 = (inr 2, s') ∧
  mems s' !! 1 = Some p ∧ mems s' !! 2 = Some sub ∧ ptr p 1 ≠ 0 ∧ ptr sub 1 = ptr p 1 + 2.
Proof.
  assert (urMemBufferPartition 2 1 UR_MEM_FLAG_READ_WRITE 2 4 t1 =
    (inr 2, (urMemBufferPartition 2 1 UR_MEM_FLAG_READ_WRITE 2 4 t1).2)) as Hr by (apply outcome; vm_compute; reflexivity).
  assert (mems t1 !! 1 = Some (the t1 1)) as Hm by (vm_compute; reflexivity).
  destruct (partition_window 2 low t1 σ1 1 _ 2 4 _ 2 _ sample_driver_ok created_inv Hm Hr)
    as (_ & _ & p & sub & Hp & Hs & _ & _ & _ & _ & Hd).
  destruct (Hd 1%nat ltac:(lia)) as (Hn & He & _). eexists _, p, sub. split; [exact Hr|]. done.
Defined.

(** *** What the code does not do

    The bytes a buffer holds afterwards, read back to [100]. *)
Definition read_bytes (q : ur_queue) (h n : Z) (s : state) : ur_result_t + list Z :=
  match urEnqueueMemBufferRead q h true 0 n 100 false s with
  | (inr _, s') => inr (mem s' <$> seqZ 100 n)
  | (inl e, _) => inl e
  end.

Definition partial_write : state := (urEnqueueMemBufferWrite q1 1 true 0 1 40 false t2).2.
(** Four bytes are written on one device, then one byte on another: the one
    that wrote last is taken to be current, and the other three bytes are lost. *)
Theorem partial_write_loses_rest :
  read_bytes q0 1 4 t2 = inr [16; 17; 18; 19] ∧
  (urEnqueueMemBufferWrite q1 1 true 0 1 40 false t2).1 = inr () ∧
  read_bytes q0 1 4 partial_write = inr [40; 4105; 4106; 4107].
Proof. vm_compute. done. Qed.

Definition two_buffers : state :=
  (urEnqueueMemBufferWrite q1 2 true 0 8 64 false (urMemBufferCreate 2 UR_MEM_FLAG_READ_WRITE 8 0 t2).2).2.
Definition copied_on_q0 : state := (urEnqueueMemBufferCopy q0 1 2 0 0 8 false two_buffers).2.
(** A copy does not note that its device has written the destination: a buffer
    that another device has written reads as if nothing had been copied. *)
Theorem copy_not_noted :
  (urEnqueueMemBufferCopy q0 1 2 0 0 8 false two_buffers).1 = inr () ∧
  read_bytes q0 1 4 copied_on_q0 = inr [16; 17; 18; 19] ∧ read_bytes q0 2 4 copied_on_q0 = inr [64; 65; 66; 67].
Proof. vm_compute. done. Qed.

Definition with_sub : state := (urMemBufferPartition 2 1 UR_MEM_FLAG_READ_WRITE 4 4 t1).2.
Definition beyond : state := (urEnqueueMemBufferWrite q0 2 true 4 4 16 false with_sub).2.
(** A sub-buffer takes the size of its parent: a write at its end is accepted
    and lands behind the parent's allocation. *)
Theorem sub_buffer_out_of_bounds :
  (urMemBufferPartition 2 1 UR_MEM_FLAG_READ_WRITE 4 4 t1).1 = inr 2 ∧
  (urEnqueueMemBufferWrite q0 2 true 4 4 16 false with_sub).1 = inr () ∧
  ptr (the beyond 1) 0 = 4096 ∧ Size (the beyond 1) = 8 ∧ mem beyond <$> seqZ 4104 4 = [16; 17; 18; 19].
Proof. vm_compute. done. Qed.
End MemProps.
