(* ===== verification/L0Memory.v ===== *)
(** * Memory objects of the Level Zero v2 adapter
    (level_zero/v2/memory.{hpp,cpp}, the buffer commands of
    level_zero/v2/command_list_manager.cpp)

    A buffer is one of four things behind the interface [ur_mem_buffer_t]: host
    memory that an integrated device sees, memory of one of several discrete
    devices, shared memory, or a window of another buffer.  Commands are appended
    to an in-order command list and run later; the bytes of a buffer are those its
    memory will have once the list has run.

    [L0Mem] has the operations, [L0Spec] the abstract buffers and the steps; the
    proofs are in [L0MemoryProofs] and [L0MemoryProps]. *)
From stdpp Require Import base numbers list gmap relations.
From S2P Require Import Prelude UrUtil FlatMemory.
Import Util.
Local Open Scope Z_scope.

(** ** Data *)
Inductive device_access_mode_t := read_write | read_only | write_only.
#[export] Instance device_access_mode_eq_dec : EqDecision device_access_mode_t.
Proof. solve_decision. Defined.

(** [usm_unique_ptr_t]: a pointer, null when it is 0, and what its deleter does. *)
Inductive deleter := Nothing | PoolFree | ZeMemFree | USMRelease.
#[export] Instance deleter_eq_dec : EqDecision deleter.
Proof. solve_decision. Defined.
Record usm_unique_ptr_t := { ptr_get : Z; ptr_deleter : deleter }.
Definition null_ptr : usm_unique_ptr_t := {| ptr_get := 0; ptr_deleter := Nothing |}.

Record host_allocation_desc_t := { desc_ptr : usm_unique_ptr_t; desc_size : Z; desc_offset : Z; desc_flags : Z }.

Record ur_integrated_buffer := {
  integrated_ptr : usm_unique_ptr_t;
  integrated_writeBackPtr : Z;
  mappedRegions : list host_allocation_desc_t }.

Record ur_discrete_buffer := {
  deviceAllocations : list usm_unique_ptr_t;
  activeAllocationDevice : option nat;
  discrete_writeBackPtr : Z;
  mapToPtr : usm_unique_ptr_t;
  hostAllocations : list host_allocation_desc_t }.

(** What a handle of the table can hold. *)
Inductive ur_mem_buffer :=
  | Integrated (b : ur_integrated_buffer)
  | Discrete (b : ur_discrete_buffer)
  | Shared (ptr : usm_unique_ptr_t)
  | SubBuffer (hParent offset : Z).

Record ur_mem_handle := {
  buffer : ur_mem_buffer; getSize : Z; getDeviceAccessMode : device_access_mode_t; RefCount : Z }.

(** A [ur_mem_buffer_t*]: the buffer of a handle, or a [ur_usm_handle_t] on the stack. *)
Inductive buffer_ref := getBuffer (h : Z) | ur_usm_handle (ptr : Z).

(** ** Command lists *)
Inductive operation :=
  | MemoryCopy (dst src n : Z)
  | MemoryFill (dst : Z) (pattern : list Z) (n : Z)
  | WaitOnEvents
  | SignalEvent
  | LaunchKernel (k : kernel) (args : list (Z * Z)).
Record command := { cmd_op : operation; cmd_waits : list Z; cmd_signal : option Z }.

(** The bytes of an argument; a kernel does not see others. *)
Definition view (m : memory) (x : Z * Z) : Z → Z :=
  let bytes := (λ o, m (x.1 + o)) <$> seqZ 0 x.2 in λ o, nth (Z.to_nat o) bytes 0.
Definition perform (o : operation) (m : memory) : memory :=
  match o with
  | MemoryCopy dst src n => memcpy dst src n m
  | MemoryFill dst pattern n =>
      λ a, if in_range dst n a then nth (Z.to_nat ((a - dst) `mod` Z.of_nat (length pattern))) pattern 0 else m a
  | WaitOnEvents | SignalEvent => m
  | LaunchKernel k args => run_args k (view m <$> args) 0 args m
  end.

(** [allocations] are the live ones of the pool; [invalid_frees] counts frees of
    what is not one, [ignored] the failed calls whose result is not looked at.
    [waitListView] is the one of the call that is running. *)
Record state := {
  mem : memory;
  allocations : list (Z * Z);
  invalid_frees : nat;
  mems : gmap Z ur_mem_handle;
  next_handle : Z;
  commands : list command;
  waitListView : list Z;
  calls : nat;
  ignored : nat }.

(** ** The driver, UMF and the context, by the number of the call *)
Inductive ze_memory_type_t := ZE_MEMORY_TYPE_UNKNOWN | ZE_MEMORY_TYPE_HOST | ZE_MEMORY_TYPE_DEVICE | ZE_MEMORY_TYPE_SHARED.
#[export] Instance ze_memory_type_eq_dec : EqDecision ze_memory_type_t.
Proof. solve_decision. Defined.

Class LevelZero := {
  ze_error : nat → option ur_result_t;
  umf_malloc : list (Z * Z) → Z → Z;
  ze_memory_type : nat → Z → ze_memory_type_t;
  ze_memory_device : Z → option nat;
  zeMemGetAddressRange : Z → Z * Z;
  ZeUSMImport_Enabled : bool;
  ze_error_fails n : ze_error n ≠ Some UR_RESULT_SUCCESS }.

Inductive PeerStatus := ENABLED | DISABLED | NO_CONNECTION.
#[export] Instance PeerStatus_eq_dec : EqDecision PeerStatus.
Proof. solve_decision. Defined.

(** Devices are their ids; [integrated] is the property flag of the first one. *)
Class L0Context := {
  getDevices : list nat;
  getNumDevices : nat;
  integrated : bool;
  peers : nat → nat → PeerStatus;
  RootDevice : nat → option nat;
  SingleThreadMode : bool }.

(** ** Operations *)
Module L0Mem.

(** An error code; or a call that does not return, for a deadlock or a failed
    assertion. *)
Inductive fault := Code (e : ur_result_t) | NoReturn.

Definition M (A : Type) : Type := state → (fault + A) * state.
#[export] Instance M_ret : MRet M := λ A a s, (inr a, s).
#[export] Instance M_bind : MBind M := λ A B f m s,
  match m s with (inr a, s') => f a s' | (inl e, s') => (inl e, s') end.
Definition throw {A} (e : ur_result_t) : M A := λ s, (inl (Code e), s).
Definition no_return {A} : M A := λ s, (inl NoReturn, s).
Definition UR_ASSERT (b : bool) (e : ur_result_t) : M unit := if b then mret () else throw e.
Definition when (b : bool) (m : M unit) : M unit := if b then m else mret ().
Definition gets {A} (f : state → A) : M A := λ s, (inr (f s), s).
Definition modify (f : state → state) : M unit := λ s, (inr (), f s).
(** [m], and [h] if an exception leaves it. *)
Definition on_error {A} (m : M A) (h : M unit) : M A := λ s,
  match m s with
  | (inl (Code e), s') => (inl (Code e), (h s').2)
  | r => r
  end.
(** An error is logged at most. *)
Definition ignore (m : M unit) : M unit := λ s,
  match m s with (inl (Code _), s') => (inr (), s') | r => r end.
Fixpoint forM {A} (l : list A) (f : A → M unit) : M unit :=
  match l with [] => mret () | x :: l' => _ ← f x; forM l' f end.

Definition set_mem (f : memory → memory) (s : state) : state :=
  {| mem := f (mem s); allocations := allocations s; invalid_frees := invalid_frees s; mems := mems s;
     next_handle := next_handle s; commands := commands s; waitListView := waitListView s; calls := calls s;
     ignored := ignored s |}.
Definition set_mems (f : gmap Z ur_mem_handle → gmap Z ur_mem_handle) (s : state) : state :=
  {| mem := mem s; allocations := allocations s; invalid_frees := invalid_frees s; mems := f (mems s);
     next_handle := next_handle s; commands := commands s; waitListView := waitListView s; calls := calls s;
     ignored := ignored s |}.
Definition set_commands (l : list command) (s : state) : state :=
  {| mem := mem s; allocations := allocations s; invalid_frees := invalid_frees s; mems := mems s;
     next_handle := next_handle s; commands := l; waitListView := waitListView s; calls := calls s;
     ignored := ignored s |}.
Definition set_waits (l : list Z) (s : state) : state :=
  {| mem := mem s; allocations := allocations s; invalid_frees := invalid_frees s; mems := mems s;
     next_handle := next_handle s; commands := commands s; waitListView := l; calls := calls s;
     ignored := ignored s |}.
Definition add_allocation (p n : Z) (s : state) : state :=
  {| mem := mem s; allocations := (p, n) :: allocations s; invalid_frees := invalid_frees s; mems := mems s;
     next_handle := next_handle s; commands := commands s; waitListView := waitListView s; calls := calls s;
     ignored := ignored s |}.
Definition free_allocation (p : Z) (s : state) : state :=
  {| mem := mem s; allocations := filter (λ x, x.1 ≠ p) (allocations s);
     invalid_frees := if bool_decide (p ∈ (allocations s).*1) then invalid_frees s else S (invalid_frees s);
     mems := mems s; next_handle := next_handle s; commands := commands s; waitListView := waitListView s;
     calls := calls s; ignored := ignored s |}.
Definition new_handle (m : ur_mem_handle) (s : state) : state :=
  {| mem := mem s; allocations := allocations s; invalid_frees := invalid_frees s;
     mems := <[next_handle s := m]> (mems s); next_handle := next_handle s + 1; commands := commands s;
     waitListView := waitListView s; calls := calls s; ignored := ignored s |}.
Definition called (s : state) : state :=
  {| mem := mem s; allocations := allocations s; invalid_frees := invalid_frees s; mems := mems s;
     next_handle := next_handle s; commands := commands s; waitListView := waitListView s; calls := S (calls s);
     ignored := ignored s |}.
Definition call_ignored (s : state) : state :=
  {| mem := mem s; allocations := allocations s; invalid_frees := invalid_frees s; mems := mems s;
     next_handle := next_handle s; commands := commands s; waitListView := waitListView s; calls := S (calls s);
     ignored := S (ignored s) |}.

(** Runs the whole command list. *)
Definition eventual (s : state) : memory := foldl (λ m c, perform (cmd_op c) m) (mem s) (commands s).
Definition run_all (s : state) : state := set_commands [] (set_mem (λ _, eventual s) s).
(** Runs its first command. *)
Definition run_first (s : state) : state :=
  match commands s with [] => s | c :: l => set_commands l (set_mem (perform (cmd_op c)) s) end.

(** A handle that is not in the table is an image or dangling. *)
Definition get (h : Z) : M ur_mem_handle := λ s,
  match mems s !! h with Some m => (inr m, s) | None => (inl (Code UR_RESULT_ERROR_INVALID_MEM_OBJECT), s) end.
Definition put (h : Z) (m : ur_mem_handle) : M unit := modify (set_mems <[h := m]>).
Definition with_buffer (b : ur_mem_buffer) (m : ur_mem_handle) : ur_mem_handle :=
  {| buffer := b; getSize := getSize m; getDeviceAccessMode := getDeviceAccessMode m; RefCount := RefCount m |}.
Definition with_RefCount (n : Z) (m : ur_mem_handle) : ur_mem_handle :=
  {| buffer := buffer m; getSize := getSize m; getDeviceAccessMode := getDeviceAccessMode m; RefCount := n |}.
Definition set_buffer (h : Z) (b : ur_mem_buffer) : M unit := m ← get h; put h (with_buffer b m).

Section adapter.
Context `{LevelZero, L0Context}.

(** [ZE2UR_CALL]; [ZE_CALL_NOCHECK] of a call that has an effect. *)
Definition ze : M unit := λ s,
  match ze_error (calls s) with Some e => (inl (Code e), called s) | None => (inr (), called s) end.
Definition ze_nocheck (f : state → state) : M unit := λ s,
  match ze_error (calls s) with Some _ => (inr (), call_ignored s) | None => (inr (), f (called s)) end.

Definition push (o : operation) (waits : list Z) (signal : option Z) (s : state) : state :=
  set_commands (commands s ++ [{| cmd_op := o; cmd_waits := waits; cmd_signal := signal |}]) s.
Definition append (o : operation) (waits : list Z) (signal : option Z) : M unit :=
  _ ← ze; modify (push o waits signal).
Definition zeCommandListHostSynchronize : M unit := _ ← ze; modify run_all.

Definition allocate (n : Z) : M Z := λ s,
  match ze s with
  | (inl e, s') => (inl e, s')
  | (inr _, s') => let p := umf_malloc (allocations s') n in (inr p, add_allocation p n s')
  end.
Definition run_deleter (p : usm_unique_ptr_t) : M unit :=
  if ptr_get p =? 0 then mret () else
  match ptr_deleter p with
  | Nothing => mret ()
  | PoolFree => modify (free_allocation (ptr_get p))
  | ZeMemFree | USMRelease => ignore ze
  end.

(** The synchronous command list is the first call; the copy has run when it returns. *)
Definition synchronousZeCopy (dst src n : Z) : M unit := _ ← ze; _ ← ze; modify (set_mem (memcpy dst src n)).

Definition maybeImportUSM (ptr : Z) : M bool := λ s,
  if negb ZeUSMImport_Enabled || (ptr =? 0) then (inr false, s) else
  if bool_decide (ze_error (calls s) = None) && bool_decide (ze_memory_type (calls s) ptr = ZE_MEMORY_TYPE_UNKNOWN)
  then (inr true, called (called s)) else (inr false, called s).

Definition getDeviceAccessMode_of (memFlag : Z) : device_access_mode_t :=
  if flag memFlag UR_MEM_FLAG_READ_WRITE then read_write
  else if flag memFlag UR_MEM_FLAG_READ_ONLY then read_only
  else if flag memFlag UR_MEM_FLAG_WRITE_ONLY then write_only
  else read_write.
Definition isAccessCompatible (requested actual : device_access_mode_t) : bool :=
  bool_decide (requested = actual) || bool_decide (actual = read_write).
Definition first_device : nat := default 0%nat (head getDevices).
Definition useHostBuffer : bool := (length getDevices =? 1)%nat && integrated.
Definition getDevicesWhoseAllocationsCanBeAccessedFrom (hDevice : nat) : list nat :=
  filter (λ d, peers hDevice d ≠ NO_CONNECTION) getDevices.
(** A root device is reached within as many steps as there are devices. *)
Fixpoint isValidDevice_fuel (fuel : nat) (hDevice : nat) : bool :=
  bool_decide (hDevice ∈ getDevices) ||
  match fuel, RootDevice hDevice with
  | S f, Some r => isValidDevice_fuel f r
  | _, _ => false
  end.
Definition isValidDevice : nat → bool := isValidDevice_fuel getNumDevices.

(** *** [ur_discrete_buffer_handle_t] *)
Definition get_discrete (h : Z) : M ur_discrete_buffer :=
  m ← get h; match buffer m with Discrete b => mret b | _ => throw UR_RESULT_ERROR_INVALID_MEM_OBJECT end.
Definition with_device (d : nat) (p : usm_unique_ptr_t) (b : ur_discrete_buffer) : ur_discrete_buffer :=
  {| deviceAllocations := <[d := p]> (deviceAllocations b); activeAllocationDevice := Some d;
     discrete_writeBackPtr := discrete_writeBackPtr b; mapToPtr := mapToPtr b; hostAllocations := hostAllocations b |}.
Definition with_mapToPtr (p : usm_unique_ptr_t) (b : ur_discrete_buffer) : ur_discrete_buffer :=
  {| deviceAllocations := deviceAllocations b; activeAllocationDevice := activeAllocationDevice b;
     discrete_writeBackPtr := discrete_writeBackPtr b; mapToPtr := p; hostAllocations := hostAllocations b |}.
Definition with_hostAllocations (l : list host_allocation_desc_t) (b : ur_discrete_buffer) : ur_discrete_buffer :=
  {| deviceAllocations := deviceAllocations b; activeAllocationDevice := activeAllocationDevice b;
     discrete_writeBackPtr := discrete_writeBackPtr b; mapToPtr := mapToPtr b; hostAllocations := l |}.

Definition device_ptr (b : ur_discrete_buffer) (d : nat) : usm_unique_ptr_t := nth d (deviceAllocations b) null_ptr.
(** [getActiveDeviceAlloc] *)
Definition active_alloc (b : ur_discrete_buffer) : option Z :=
  (λ d, ptr_get (device_ptr b d)) <$> activeAllocationDevice b.

(** The vector element's old pointer is deleted. *)
Definition allocateOnDevice (h : Z) (hDevice : nat) (size : Z) : M Z :=
  ptr ← allocate size;
  b ← get_discrete h;
  _ ← set_buffer h (Discrete (with_device hDevice {| ptr_get := ptr; ptr_deleter := PoolFree |} b));
  _ ← run_deleter (device_ptr b hDevice);
  mret ptr.

Definition migrateBufferTo (h : Z) (hDevice : nat) (src size : Z) : M unit :=
  b ← get_discrete h;
  dst ← (if negb (ptr_get (device_ptr b hDevice) =? 0) then mret (ptr_get (device_ptr b hDevice))
         else allocateOnDevice h hDevice size);
  synchronousZeCopy dst src size.

Definition discrete_getDevicePtr (h size : Z) (hDevice : option nat) (offset : Z) : M Z :=
  b ← get_discrete h;
  _ ← (if bool_decide (activeAllocationDevice b = None)
       then _ ← allocateOnDevice h (default first_device hDevice) size; mret () else mret ());
  let hDevice := match activeAllocationDevice b, hDevice with
                 | None, None => Some first_device | _, d => d end in
  b ← get_discrete h;
  match activeAllocationDevice b, active_alloc b with
  | Some active, Some ptr =>
      let hDevice := default active hDevice in
      if (active =? hDevice)%nat then mret (ptr + offset) else
      if bool_decide (active ∈ getDevicesWhoseAllocationsCanBeAccessedFrom hDevice) then mret (ptr + offset)
      else throw UR_RESULT_ERROR_UNSUPPORTED_FEATURE
  | _, _ => no_return
  end.

(** The wait list is consumed by the first command that waits on it. *)
Definition migrateMemory (src dst size : Z) : M unit :=
  w ← gets waitListView; _ ← append (MemoryCopy dst src size) w None; modify (set_waits []).

Definition discrete_mapHostPtr (h flags offset size : Z) : M Z :=
  b ← get_discrete h;
  ptr ← (if ptr_get (mapToPtr b) =? 0 then allocate size else mret (ptr_get (mapToPtr b)));
  let mappedPtr := {| ptr_get := ptr; ptr_deleter := if ptr_get (mapToPtr b) =? 0 then PoolFree else Nothing |} in
  _ ← set_buffer h (Discrete (with_hostAllocations (hostAllocations b ++
        [{| desc_ptr := mappedPtr; desc_size := size; desc_offset := offset; desc_flags := flags |}]) b));
  _ ← match active_alloc b with
      | Some p => when (flag flags UR_MAP_FLAG_READ) (migrateMemory (p + offset) ptr size)
      | None => mret ()
      end;
  mret ptr.

Definition find_desc (p : Z) (l : list host_allocation_desc_t) : option (nat * host_allocation_desc_t) :=
  list_find (λ x, ptr_get (desc_ptr x) = p) l.

Definition discrete_unmapHostPtr (h size pMappedPtr : Z) : M unit :=
  b ← get_discrete h;
  match find_desc pMappedPtr (hostAllocations b) with
  | None => throw UR_RESULT_ERROR_INVALID_ARGUMENT
  | Some (i, hostAlloc) =>
      let shouldMigrateToDevice := negb (flag (desc_flags hostAlloc) UR_MAP_FLAG_WRITE_INVALIDATE_REGION) in
      _ ← (if bool_decide (activeAllocationDevice b = None) && shouldMigrateToDevice
           then _ ← allocateOnDevice h first_device size; mret () else mret ());
      b ← get_discrete h;
      _ ← match active_alloc b with
          | Some p => migrateMemory (ptr_get (desc_ptr hostAlloc)) (p + desc_offset hostAlloc) (desc_size hostAlloc)
          | None => mret ()
          end;
      _ ← set_buffer h (Discrete (with_hostAllocations (delete i (hostAllocations b)) b));
      run_deleter (desc_ptr hostAlloc)
  end.

(** *** [ur_integrated_buffer_handle_t] *)
Definition integrated_mapHostPtr (h : Z) (b : ur_integrated_buffer) (flags offset mapSize : Z) : M Z :=
  if negb (integrated_writeBackPtr b =? 0) then
    let mappedPtr := integrated_writeBackPtr b + offset in
    _ ← when (flag flags UR_MAP_FLAG_READ)
          (ze_nocheck (push (MemoryCopy mappedPtr (ptr_get (integrated_ptr b) + offset) mapSize) [] None));
    _ ← set_buffer h (Integrated {| integrated_ptr := integrated_ptr b; integrated_writeBackPtr := integrated_writeBackPtr b;
          mappedRegions := mappedRegions b ++ [{| desc_ptr := {| ptr_get := mappedPtr; ptr_deleter := Nothing |};
                                                  desc_size := mapSize; desc_offset := offset; desc_flags := flags |}] |});
    mret mappedPtr
  else mret (ptr_get (integrated_ptr b) + offset).

Definition integrated_unmapHostPtr (h : Z) (b : ur_integrated_buffer) (pMappedPtr : Z) : M unit :=
  if negb (integrated_writeBackPtr b =? 0) then
    match find_desc pMappedPtr (mappedRegions b) with
    | None => throw UR_RESULT_ERROR_INVALID_ARGUMENT
    | Some (i, mappedRegion) =>
        _ ← when (flag (desc_flags mappedRegion) (Z.lor UR_MAP_FLAG_WRITE UR_MAP_FLAG_WRITE_INVALIDATE_REGION))
              (ze_nocheck (push (MemoryCopy (ptr_get (integrated_ptr b) + desc_offset mappedRegion)
                                   (ptr_get (desc_ptr mappedRegion)) (desc_size mappedRegion)) [] None));
        set_buffer h (Integrated {| integrated_ptr := integrated_ptr b; integrated_writeBackPtr := integrated_writeBackPtr b;
          mappedRegions := delete i (mappedRegions b) |})
    end
  else mret ().

Definition copyBackToHostIfNeeded (b : ur_integrated_buffer) (size : Z) : M unit := λ s,
  if integrated_writeBackPtr b =? 0 then (inr (), s) else
  if negb (bool_decide (ze_error (calls s) = None))
     || bool_decide (ze_memory_type (calls s) (integrated_writeBackPtr b) = ZE_MEMORY_TYPE_UNKNOWN)
  then (inr (), called s)
  else ignore (synchronousZeCopy (integrated_writeBackPtr b) (ptr_get (integrated_ptr b)) size) (called s).

(** *** The interface [ur_mem_buffer_t]

    A sub-buffer forwards to its parent, which has a smaller handle. *)
Fixpoint forward {A} (fuel : nat) (f : Z → ur_mem_handle → Z → M A) (h offset : Z) : M A :=
  m ← get h;
  match buffer m, fuel with
  | SubBuffer hParent offset', S fuel => forward fuel f hParent (u64 (offset + offset'))
  | SubBuffer _ _, O => no_return
  | _, _ => f h m offset
  end.
Definition forwarding {A} (f : Z → ur_mem_handle → Z → M A) (h offset : Z) : M A := forward (Z.to_nat h) f h offset.

Definition getDevicePtr (r : buffer_ref) (hDevice : option nat) (offset : Z) : M Z :=
  match r with
  | ur_usm_handle ptr => mret (ptr + offset)
  | getBuffer h =>
      forwarding (λ h m offset,
        match buffer m with
        | Integrated b => mret (ptr_get (integrated_ptr b) + offset)
        | Shared p => mret (ptr_get p + offset)
        | Discrete _ => discrete_getDevicePtr h (getSize m) hDevice offset
        | SubBuffer _ _ => no_return
        end) h offset
  end.
Definition mapHostPtr (h flags offset size : Z) : M Z :=
  forwarding (λ h m offset,
    match buffer m with
    | Integrated b => integrated_mapHostPtr h b flags offset size
    | Shared p => mret (ptr_get p + offset)
    | Discrete _ => discrete_mapHostPtr h flags offset size
    | SubBuffer _ _ => no_return
    end) h offset.
Definition unmapHostPtr (h pMappedPtr : Z) : M unit :=
  forwarding (λ h m _,
    match buffer m with
    | Integrated b => integrated_unmapHostPtr h b pMappedPtr
    | Shared _ => mret ()
    | Discrete _ => discrete_unmapHostPtr h (getSize m) pMappedPtr
    | SubBuffer _ _ => no_return
    end) h 0.
(** The buffer whose mutex is taken. *)
Definition getMutex (h : Z) : M Z := forwarding (λ h _ _, mret h) h 0.

(** *** Handles *)
(** The members of a buffer, the last one first. *)
Definition members (b : ur_mem_buffer) : list usm_unique_ptr_t :=
  match b with
  | Integrated b => (desc_ptr <$> mappedRegions b) ++ [integrated_ptr b]
  | Discrete b => (desc_ptr <$> hostAllocations b) ++ [mapToPtr b] ++ deviceAllocations b
  | Shared p => [p]
  | SubBuffer _ _ => []
  end.
Definition destroy_members (b : ur_mem_buffer) : M unit := forM (members b) run_deleter.

(** [ur_mem_handle_t_::create]: the members of an object whose constructor throws
    are destroyed, its destructor is not run. *)
Definition create (b : ur_mem_buffer) (size : Z) (mode : device_access_mode_t) (body : Z → M unit) : M Z :=
  h ← (λ s, (inr (next_handle s),
             new_handle {| buffer := b; getSize := size; getDeviceAccessMode := mode; RefCount := 1 |} s) : _);
  _ ← on_error (body h) (m ← get h; _ ← modify (set_mems (delete h)); destroy_members (buffer m));
  mret h.

Definition make_integrated (p : usm_unique_ptr_t) (writeBackPtr : Z) : ur_mem_buffer :=
  Integrated {| integrated_ptr := p; integrated_writeBackPtr := writeBackPtr; mappedRegions := [] |}.
Definition make_discrete (active : option nat) (writeBackPtr : Z) : ur_discrete_buffer :=
  {| deviceAllocations := replicate getNumDevices null_ptr; activeAllocationDevice := active;
     discrete_writeBackPtr := writeBackPtr; mapToPtr := null_ptr; hostAllocations := [] |}.

Definition construct_integrated (hostPtr size : Z) (h : Z) : M unit :=
  hostPtrImported ← maybeImportUSM hostPtr;
  if hostPtrImported : bool
  then set_buffer h (make_integrated {| ptr_get := hostPtr; ptr_deleter := USMRelease |} 0)
  else
    rawPtr ← allocate size;
    _ ← set_buffer h (make_integrated {| ptr_get := rawPtr; ptr_deleter := PoolFree |} 0);
    when (negb (hostPtr =? 0))
      (_ ← synchronousZeCopy rawPtr hostPtr size;
       set_buffer h (make_integrated {| ptr_get := rawPtr; ptr_deleter := PoolFree |} hostPtr)).

Definition construct_discrete (hostPtr size : Z) (h : Z) : M unit :=
  when (negb (hostPtr =? 0))
    (hostPtrImported ← maybeImportUSM hostPtr;
     b ← get_discrete h;
     _ ← set_buffer h (Discrete (with_mapToPtr
           {| ptr_get := hostPtr; ptr_deleter := if hostPtrImported : bool then USMRelease else Nothing |} b));
     migrateBufferTo h first_device hostPtr size).

(** The constructor on top of existing memory; an unowned pointer is left alone. *)
Definition construct_discrete_native (hDevice : option nat) (devicePtr size hostPtr : Z) (ownZePtr : bool) (h : Z) : M unit :=
  if devicePtr =? 0 then
    let hDevice := default first_device hDevice in
    _ ← allocateOnDevice h hDevice size;
    when (negb (hostPtr =? 0)) (migrateBufferTo h hDevice hostPtr size)
  else
    b ← get_discrete h;
    match hDevice with
    | Some d => set_buffer h (Discrete (with_device d
                  {| ptr_get := devicePtr; ptr_deleter := if ownZePtr then ZeMemFree else Nothing |} b))
    | None => no_return
    end.

(** [pHost] is 0 without properties. *)
Definition urMemBufferCreate (flags size pHost : Z) : M Z :=
  let accessMode := getDeviceAccessMode_of flags in
  if useHostBuffer
  then create (make_integrated null_ptr 0) size accessMode (construct_integrated pHost size)
  else create (Discrete (make_discrete None 0)) size accessMode (construct_discrete pHost size).

Definition urMemRetain (hMem : Z) : M unit :=
  m ← get hMem; put hMem (with_RefCount (u32 (RefCount m + 1)) m).

Definition urMemBufferPartition (hMem flags : Z) (is_region : bool) (origin size : Z) : M Z :=
  m ← get hMem;
  _ ← UR_ASSERT is_region UR_RESULT_ERROR_INVALID_ENUMERATION;
  _ ← UR_ASSERT ((origin <? getSize m) && (size <=? getSize m)) UR_RESULT_ERROR_INVALID_BUFFER_SIZE;
  let accessMode := getDeviceAccessMode_of flags in
  _ ← UR_ASSERT (isAccessCompatible accessMode (getDeviceAccessMode m)) UR_RESULT_ERROR_INVALID_VALUE;
  create (SubBuffer hMem origin) size accessMode (λ _, urMemRetain hMem).

Definition urMemBufferCreateWithNativeHandle (ptr : Z) (ownNativeHandle : bool) : M Z :=
  _ ← ze;
  let '(base, size) := zeMemGetAddressRange ptr in
  _ ← UR_ASSERT (ptr =? base) UR_RESULT_ERROR_INVALID_VALUE;
  n ← gets calls;
  _ ← ze;
  let type := ze_memory_type n ptr in
  _ ← UR_ASSERT (negb (bool_decide (type = ZE_MEMORY_TYPE_UNKNOWN))) UR_RESULT_ERROR_INVALID_VALUE;
  let hDevice := ze_memory_device ptr in
  _ ← UR_ASSERT (match hDevice with Some d => isValidDevice d | None => true end) UR_RESULT_ERROR_INVALID_CONTEXT;
  let owned := {| ptr_get := ptr; ptr_deleter := if ownNativeHandle then ZeMemFree else Nothing |} in
  if useHostBuffer && bool_decide (type = ZE_MEMORY_TYPE_HOST)
  then create (make_integrated owned 0) size read_write (λ _, mret ())
  else if bool_decide (type = ZE_MEMORY_TYPE_SHARED)
  then create (Shared owned) size read_write (λ _, mret ())
  else if bool_decide (type = ZE_MEMORY_TYPE_HOST)
  then create (Discrete (make_discrete hDevice ptr)) size read_write
         (construct_discrete_native hDevice 0 size ptr ownNativeHandle)
  else create (Discrete (make_discrete hDevice 0)) size read_write
         (construct_discrete_native hDevice ptr size 0 ownNativeHandle).

(** The destructor of the buffer's class. *)
Definition destructor (m : ur_mem_handle) (release_parent : Z → M unit) : M unit :=
  match buffer m with
  | Integrated b => copyBackToHostIfNeeded b (getSize m)
  | Discrete b =>
      match active_alloc b with
      | Some srcPtr =>
          when (negb (discrete_writeBackPtr b =? 0))
            (ignore (synchronousZeCopy (discrete_writeBackPtr b) srcPtr (getSize m)))
      | None => mret ()
      end
  | Shared _ => mret ()
  | SubBuffer hParent _ => ignore (release_parent hParent)
  end.
(** A handle is dead once its deletion starts. *)
Fixpoint release (fuel : nat) (hMem : Z) : M unit :=
  m ← get hMem;
  let n := u32 (RefCount m - 1) in
  _ ← put hMem (with_RefCount n m);
  if negb (n =? 0) then mret () else
  _ ← modify (set_mems (delete hMem));
  _ ← destructor m (match fuel with S f => release f | O => λ _, no_return end);
  destroy_members (buffer m).
Definition urMemRelease (hMem : Z) : M unit := release (Z.to_nat hMem) hMem.

Definition urMemGetNativeHandle (hMem : Z) (hDevice : option nat) : M Z :=
  _ ← modify (set_waits []); getDevicePtr (getBuffer hMem) hDevice 0.

(** *** Commands of a queue of the device [hDevice]

    [phEvent] is the event to signal; a blocking call waits for the command list. *)
Definition with_waits {A} (waits : list Z) (m : M A) : M A := _ ← modify (set_waits waits); m.

Definition appendGenericCopyUnlocked (hDevice : nat) (src dst : buffer_ref) (blocking : bool)
    (srcOffset dstOffset size : Z) (phEvent : option Z) : M unit :=
  pSrc ← getDevicePtr src (Some hDevice) srcOffset;
  pDst ← getDevicePtr dst (Some hDevice) dstOffset;
  w ← gets waitListView;
  _ ← append (MemoryCopy pDst pSrc size) w phEvent;
  when blocking zeCommandListHostSynchronize.

Definition isPowerOf2 (Value : Z) : bool := negb (Value =? 0) && (Z.land Value (Value - 1) =? 0).

(** [pPattern] is in host memory: the driver reads it when a fill is appended, a
    copy reads it when it runs. *)
Definition copy_steps (numOfCopySteps patternSize pDst pPattern : Z) (phEvent : option Z) : M unit :=
  forM (seqZ 0 numOfCopySteps) (λ step,
    w ← gets waitListView;
    _ ← append (MemoryCopy (pDst + step * patternSize) pPattern patternSize) w
          (if step =? numOfCopySteps - 1 then phEvent else None);
    modify (set_waits [])).
Definition appendGenericFillUnlocked (hDevice : nat) (dst : buffer_ref) (offset patternSize pPattern size : Z)
    (phEvent : option Z) : M unit :=
  pDst ← getDevicePtr dst (Some hDevice) offset;
  if isPowerOf2 patternSize then
    w ← gets waitListView;
    mm ← gets mem;
    append (MemoryFill pDst ((λ i, mm (pPattern + i)) <$> seqZ 0 patternSize) size) w phEvent
  else copy_steps (u32 (size `div` patternSize)) patternSize pDst pPattern phEvent.

Definition appendMemBufferRead (hDevice : nat) (hMem : Z) (blockingRead : bool) (offset size pDst : Z)
    (waits : list Z) (phEvent : option Z) : M unit := with_waits waits (
  m ← get hMem;
  _ ← UR_ASSERT (u64 (offset + size) <=? getSize m) UR_RESULT_ERROR_INVALID_SIZE;
  appendGenericCopyUnlocked hDevice (getBuffer hMem) (ur_usm_handle pDst) blockingRead offset 0 size phEvent).

Definition appendMemBufferWrite (hDevice : nat) (hMem : Z) (blockingWrite : bool) (offset size pSrc : Z)
    (waits : list Z) (phEvent : option Z) : M unit := with_waits waits (
  m ← get hMem;
  _ ← UR_ASSERT (u64 (offset + size) <=? getSize m) UR_RESULT_ERROR_INVALID_SIZE;
  appendGenericCopyUnlocked hDevice (ur_usm_handle pSrc) (getBuffer hMem) blockingWrite 0 offset size phEvent).

Definition appendMemBufferFill (hDevice : nat) (hMem pPattern patternSize offset size : Z)
    (waits : list Z) (phEvent : option Z) : M unit := with_waits waits (
  m ← get hMem;
  _ ← UR_ASSERT (u64 (offset + size) <=? getSize m) UR_RESULT_ERROR_INVALID_SIZE;
  appendGenericFillUnlocked hDevice (getBuffer hMem) offset patternSize pPattern size phEvent).

(** [std::scoped_lock] of two mutexes, which never gets hold of the same one twice. *)
Definition scoped_lock2 (mutex1 mutex2 : Z) : M unit :=
  if (mutex1 =? mutex2) && negb SingleThreadMode then no_return else mret ().

Definition appendMemBufferCopy (hDevice : nat) (hSrc hDst srcOffset dstOffset size : Z)
    (waits : list Z) (phEvent : option Z) : M unit := with_waits waits (
  src ← get hSrc;
  dst ← get hDst;
  _ ← UR_ASSERT (u64 (srcOffset + size) <=? getSize src) UR_RESULT_ERROR_INVALID_SIZE;
  _ ← UR_ASSERT (u64 (dstOffset + size) <=? getSize dst) UR_RESULT_ERROR_INVALID_SIZE;
  m1 ← getMutex hSrc;
  m2 ← getMutex hDst;
  _ ← scoped_lock2 m1 m2;
  appendGenericCopyUnlocked hDevice (getBuffer hSrc) (getBuffer hDst) false srcOffset dstOffset size phEvent).

(** The wait of a map or unmap, and its event. *)
Definition wait_first : M unit :=
  w ← gets waitListView; if bool_decide (w = []) then mret () else _ ← append WaitOnEvents w None; modify (set_waits []).
Definition signal_last (phEvent : option Z) : M unit :=
  match phEvent with Some e => append SignalEvent [] (Some e) | None => mret () end.

(** The result is [*ppRetMap]. *)
Definition appendMemBufferMap (hMem : Z) (blockingMap : bool) (mapFlags offset size : Z)
    (waits : list Z) (phEvent : option Z) : M Z := with_waits waits (
  _ ← get hMem;
  _ ← wait_first;
  pDst ← mapHostPtr hMem mapFlags offset size;
  _ ← signal_last phEvent;
  _ ← when blockingMap zeCommandListHostSynchronize;
  mret pDst).

Definition appendMemUnmap (hMem pMappedPtr : Z) (waits : list Z) (phEvent : option Z) : M unit := with_waits waits (
  _ ← get hMem;
  _ ← wait_first;
  _ ← unmapHostPtr hMem pMappedPtr;
  signal_last phEvent).

(** [urEnqueueKernelLaunch]: [pending_allocations] are the memory objects of the
    arguments; [dims] is the result of [calculateKernelWorkDimensions] and
    of setting the global offset. *)
Fixpoint prepareForSubmission (hDevice : nat) (pending_allocations : list Z) : M (list (Z * Z)) :=
  match pending_allocations with
  | [] => mret []
  | h :: l =>
      m ← get h;
      zePtr ← getDevicePtr (getBuffer h) (Some hDevice) 0;
      _ ← ze;
      args ← prepareForSubmission hDevice l;
      mret ((zePtr, getSize m) :: args)
  end.
Definition appendKernelLaunch (hDevice : nat) (k : kernel) (pending_allocations : list Z) (workDim : Z)
    (dims : option ur_result_t) (waits : list Z) (phEvent : option Z) : M unit := with_waits waits (
  _ ← UR_ASSERT ((workDim >? 0) && (workDim <? 4)) UR_RESULT_ERROR_INVALID_WORK_DIMENSION;
  _ ← match dims with Some e => throw e | None => mret () end;
  _ ← ze;
  args ← prepareForSubmission hDevice pending_allocations;
  w ← gets waitListView;
  append (LaunchKernel k args) w phEvent).

Definition queueFinish : M unit := zeCommandListHostSynchronize.
End adapter.
End L0Mem.

(** ** The abstract buffers

    A buffer is an array of bytes with the ranges that are mapped, by the pointer
    each map returned.  Labels carry what passes between the buffers and the host
    or a kernel. *)
Module L0Spec.
Import L0Mem.

Record spec := { arrays : gmap Z content; maps : gmap (Z * Z) (Z * Z * Z) }.
Definition write (r off n : Z) (f : Z → option Z) (σ : spec) : spec :=
  {| arrays := alter (λ c, upd c off n f) r (arrays σ); maps := maps σ |}.
Definition add_map (r p off n flags : Z) (σ : spec) : spec :=
  {| arrays := arrays σ; maps := <[(r, p) := (off, n, flags)]> (maps σ) |}.
Definition del_map (r p : Z) (σ : spec) : spec := {| arrays := arrays σ; maps := delete (r, p) (maps σ) |}.

(** What an unmap does to the range. *)
Inductive unmapped := Wrote (data : Z → Z) | Lost | Kept.

Inductive label :=
  | LTau
  | LCreate (r : Z) (c : content)
  | LRead (r off n : Z) (data : Z → Z)
  | LWrite (r off n : Z) (data : Z → Z)
  | LLost (r off n : Z)
  | LCopy (r1 r2 off1 off2 n : Z)
  | LMap (r p off n flags : Z) (reads : bool) (data : Z → Z)
  | LUnmap (r p : Z) (u : unmapped)
  | LKernel (k : kernel) (args : list (Z * Z * Z)) (views : list (Z → Z))
  | LRelease (r : Z).

(** A kernel on windows of arrays. *)
Definition kernel_window (k : kernel) (views : list (Z → Z)) (i : nat) (off n : Z) (c : content) : content :=
  λ o, if in_range off n o then match k views i (o - off) with Some v => Some v | None => c o end else c o.
Fixpoint kernel_windows (k : kernel) (views : list (Z → Z)) (i : nat) (args : list (Z * Z * Z)) (σ : gmap Z content)
    : gmap Z content :=
  match args with
  | [] => σ
  | (r, off, n) :: l => kernel_windows k views (S i) l (alter (kernel_window k views i off n) r σ)
  end.

Definition flag_writes (flags : Z) : bool := flag flags (Z.lor UR_MAP_FLAG_WRITE UR_MAP_FLAG_WRITE_INVALIDATE_REGION).

Inductive astep (σ : spec) : label → spec → Prop :=
  | a_tau : astep σ LTau σ
  | a_create r c : arrays σ !! r = None →
      astep σ (LCreate r c) {| arrays := <[r := c]> (arrays σ); maps := maps σ |}
  | a_read r c off n data : arrays σ !! r = Some c → agrees c off n data → astep σ (LRead r off n data) σ
  | a_write r c off n data : arrays σ !! r = Some c →
      astep σ (LWrite r off n data) (write r off n (λ i, Some (data i)) σ)
  | a_lost r c off n : arrays σ !! r = Some c → astep σ (LLost r off n) (write r off n (λ _, None) σ)
  | a_copy r1 r2 c1 c2 off1 off2 n : arrays σ !! r1 = Some c1 → arrays σ !! r2 = Some c2 →
      astep σ (LCopy r1 r2 off1 off2 n) (write r2 off2 n (λ i, c1 (off1 + i)) σ)
  | a_map r p c off n flags reads data : arrays σ !! r = Some c → maps σ !! (r, p) = None →
      (reads = true → agrees c off n data) →
      astep σ (LMap r p off n flags reads data)
        (add_map r p off n flags (if flag_writes flags then write r off n (λ _, None) σ else σ))
  | a_unmap r p c off n flags u : arrays σ !! r = Some c → maps σ !! (r, p) = Some (off, n, flags) →
      (u = Kept → flag_writes flags = false) →
      astep σ (LUnmap r p u)
        (del_map r p (match u with
                      | Wrote data => write r off n (λ i, Some (data i)) σ
                      | Lost => write r off n (λ _, None) σ
                      | Kept => σ end))
  | a_kernel k args views :
      Forall2 (λ x v, ∃ c, arrays σ !! x.1.1 = Some c ∧ agrees c x.1.2 x.2 v) args views →
      astep σ (LKernel k args views) {| arrays := kernel_windows k views 0 args (arrays σ); maps := maps σ |}
  | a_release r : astep σ (LRelease r)
      {| arrays := delete r (arrays σ); maps := filter (λ x, x.1.1 ≠ r) (maps σ) |}.

(** ** Steps of the implementation *)

(** The buffer behind a handle, and the offset of the handle in it. *)
Fixpoint resolve (ms : gmap Z ur_mem_handle) (fuel : nat) (h off : Z) : option (Z * Z) :=
  m ← ms !! h;
  match buffer m, fuel with
  | SubBuffer hParent offset, S fuel => resolve ms fuel hParent (off + offset)
  | SubBuffer _ _, O => None
  | _, _ => Some (h, off)
  end.
Definition window (s : state) (h : Z) : option (Z * Z) := resolve (mems s) (Z.to_nat h) h 0.

(** Where the bytes of a buffer are. *)
Definition base (b : ur_mem_buffer) : option Z :=
  match b with
  | Integrated b => Some (ptr_get (integrated_ptr b))
  | Discrete b => active_alloc b
  | Shared p => Some (ptr_get p)
  | SubBuffer _ _ => None
  end.
Definition descs (b : ur_mem_buffer) : list host_allocation_desc_t :=
  match b with Integrated b => mappedRegions b | Discrete b => hostAllocations b | _ => [] end.

(** The memory a buffer relies on: pointer, size, and whether it is the pool's. *)
Definition ptr_claim (p : usm_unique_ptr_t) (n : Z) : list (Z * Z * bool) :=
  if ptr_get p =? 0 then [] else [(ptr_get p, n, bool_decide (ptr_deleter p = PoolFree))].
Definition desc_claim (x : host_allocation_desc_t) : list (Z * Z * bool) :=
  if bool_decide (ptr_deleter (desc_ptr x) = PoolFree) then ptr_claim (desc_ptr x) (desc_size x) else [].
Definition host_claim (p n : Z) : list (Z * Z * bool) := if p =? 0 then [] else [(p, n, false)].
Definition active_ptr (b : ur_discrete_buffer) : usm_unique_ptr_t :=
  match activeAllocationDevice b with Some d => device_ptr b d | None => null_ptr end.
Definition claims (m : ur_mem_handle) : list (Z * Z * bool) :=
  match buffer m with
  | Integrated b => ptr_claim (integrated_ptr b) (getSize m) ++ host_claim (integrated_writeBackPtr b) (getSize m)
  | Discrete b =>
      ptr_claim (active_ptr b) (getSize m) ++ (hostAllocations b ≫= desc_claim) ++
      ptr_claim (mapToPtr b) (getSize m) ++ host_claim (discrete_writeBackPtr b) (getSize m)
  | Shared p => ptr_claim p (getSize m)
  | SubBuffer _ _ => []
  end.

(** The memory a command reads or writes. *)
Definition touches (o : operation) (a : Z) : Prop :=
  match o with
  | MemoryCopy dst src n => in_range dst n a = true ∨ in_range src n a = true
  | MemoryFill dst _ n => in_range dst n a = true
  | WaitOnEvents | SignalEvent => False
  | LaunchKernel _ args => ∃ x, x ∈ args ∧ in_range x.1 x.2 a = true
  end.
Definition busy (s : state) (a : Z) : Prop := ∃ c, c ∈ commands s ∧ touches (cmd_op c) a.

Definition parent (m : ur_mem_handle) : option Z :=
  match buffer m with SubBuffer p _ => Some p | _ => None end.
(** The sub-buffers made of a buffer, which hold references to it. *)
Definition children (ms : gmap Z ur_mem_handle) (h : Z) : nat := size (filter (λ x, parent x.2 = Some h) ms).

Section steps.
Context `{LevelZero, L0Context}.
(** Memory of the application, which the pool does not allocate in. *)
Context (user : Z → Prop).

Definition in_allocations (s : state) (a : Z) : Prop := ∃ p n, (p, n) ∈ allocations s ∧ in_range p n a = true.
Definition accessible (s : state) (p n : Z) : Prop :=
  ∀ a, in_range p n a = true → user a ∨ in_allocations s a.
(** No defined byte of a buffer is kept there. *)
Definition holds_nothing (s : state) (σ : spec) (a : Z) : Prop :=
  ∀ h m c p, mems s !! h = Some m → arrays σ !! h = Some c → base (buffer m) = Some p →
    in_range p (getSize m) a = true → c (a - p) = None.
Definition host_buffer (s : state) (σ : spec) (p n : Z) : Prop :=
  accessible s p n ∧ ∀ a, in_range p n a = true → holds_nothing s σ a.
(** Memory that can be handed to a new buffer. *)
Definition unclaimed (s : state) (p n : Z) : Prop :=
  0 < p ∧ ∀ a, in_range p n a = true → user a ∧ ¬ busy s a ∧
    ∀ h m x, mems s !! h = Some m → x ∈ claims m → in_range x.1.1 x.1.2 a = false.

Definition fits (off n : Z) : Prop := 0 ≤ off ∧ 0 ≤ n ∧ off + n < 2 ^ 64.
Definition ok {A} (r : fault + A) : bool := if r is inr _ then true else false.
Definition write_label (b : bool) (r off n : Z) (data : Z → Z) : label :=
  if b then LWrite r off n data else LLost r off n.

(** The pattern of a fill stays as it is until the copies have run. *)
Definition pattern_at (s : state) (p n : Z) : Prop :=
  accessible s p n ∧ ∀ a, in_range p n a = true → eventual s a = mem s a ∧
    ∀ h m b, mems s !! h = Some m → base (buffer m) = Some b → in_range b (getSize m) a = false.

Definition unmapped_as (s s' : state) (b : ur_mem_buffer) (flags p : Z) : unmapped :=
  let data i := eventual s (p + i) in
  match b with
  | Discrete d =>
      if bool_decide (activeAllocationDevice d = None) && flag flags UR_MAP_FLAG_WRITE_INVALIDATE_REGION
      then Lost else Wrote data
  | Integrated d =>
      if integrated_writeBackPtr d =? 0 then Wrote data else
      if flag_writes flags then (if bool_decide (ignored s' = ignored s) then Wrote data else Lost) else Kept
  | _ => Wrote data
  end.
(** The unmap gives the mapped memory back to the pool at once. *)
Definition frees_map (b : ur_mem_buffer) (p : Z) : bool :=
  match find_desc p (descs b) with
  | Some (_, x) => bool_decide (ptr_deleter (desc_ptr x) = PoolFree)
  | None => false
  end.

Inductive cstep (s : state) (σ : spec) : label → state → Prop :=
  | c_host a v : (user a ∨ in_allocations s a) → ¬ busy s a → holds_nothing s σ a →
      cstep s σ LTau (set_mem (λ m b, if b =? a then v else m b) s)
  | c_run : cstep s σ LTau (run_first s)
  | c_finish r s' : queueFinish s = (r, s') → cstep s σ LTau s'
  | c_create flags size pHost r s' : 0 < size < 2 ^ 64 → (pHost ≠ 0 → unclaimed s pHost size) →
      urMemBufferCreate flags size pHost s = (r, s') →
      cstep s σ (match r with
                 | inr h => LCreate h (if pHost =? 0 then λ _, None else λ i, Some (mem s (pHost + i)))
                 | inl _ => LTau end) s'
  | c_native ptr own size r s' : zeMemGetAddressRange ptr = (ptr, size) → 0 < size < 2 ^ 64 → unclaimed s ptr size →
      urMemBufferCreateWithNativeHandle ptr own s = (r, s') →
      cstep s σ (match r with inr h => LCreate h (λ i, Some (mem s (ptr + i))) | inl _ => LTau end) s'
  | c_partition h m flags reg origin size r s' : mems s !! h = Some m → RefCount m + 1 < 2 ^ 32 →
      0 ≤ origin → 0 < size → origin + size ≤ getSize m →
      urMemBufferPartition h flags reg origin size s = (r, s') → cstep s σ LTau s'
  | c_retain h m r s' : mems s !! h = Some m → RefCount m + 1 < 2 ^ 32 → urMemRetain h s = (r, s') → cstep s σ LTau s'
  (* The application holds a reference; the commands have run. *)
  | c_release h m root off r s' : mems s !! h = Some m → Z.of_nat (children (mems s) h) < RefCount m →
      commands s = [] → window s h = Some (root, off) → urMemRelease h s = (r, s') →
      cstep s σ (if bool_decide (mems s' !! root = None) then LRelease root else LTau) s'
  | c_native_handle h d r s' : (∀ d', d = Some d' → (d' < getNumDevices)%nat) →
      urMemGetNativeHandle h d s = (r, s') → cstep s σ LTau s'
  | c_read q h root o blocking off n dst waits ev r s' : (q < getNumDevices)%nat → window s h = Some (root, o) →
      fits off n → host_buffer s σ dst n →
      appendMemBufferRead q h blocking off n dst waits ev s = (r, s') →
      cstep s σ (if ok r then LRead root (o + off) n (λ i, eventual s' (dst + i)) else LTau) s'
  | c_write q h m root o blocking off n src waits ev r s' : (q < getNumDevices)%nat → mems s !! h = Some m →
      window s h = Some (root, o) → fits off n → off + n ≤ getSize m → accessible s src n →
      appendMemBufferWrite q h blocking off n src waits ev s = (r, s') →
      cstep s σ (write_label (ok r) root (o + off) n (λ i, eventual s (src + i))) s'
  | c_fill q h m root o pattern ps off n waits ev r s' : (q < getNumDevices)%nat → mems s !! h = Some m →
      window s h = Some (root, o) → fits off n → off + n ≤ getSize m →
      0 < ps → n `mod` ps = 0 → n `div` ps < 2 ^ 32 → pattern_at s pattern ps →
      appendMemBufferFill q h pattern ps off n waits ev s = (r, s') →
      cstep s σ (write_label (ok r) root (o + off) n (λ i, mem s (pattern + i `mod` ps))) s'
  | c_copy q h1 h2 root1 root2 o1 o2 off1 off2 n waits ev r s' : (q < getNumDevices)%nat →
      window s h1 = Some (root1, o1) → window s h2 = Some (root2, o2) → fits off1 n → fits off2 n →
      root1 ≠ root2 ∨ o1 + off1 + n ≤ o2 + off2 ∨ o2 + off2 + n ≤ o1 + off1 →
      appendMemBufferCopy q h1 h2 off1 off2 n waits ev s = (r, s') →
      cstep s σ (if ok r then LCopy root1 root2 (o1 + off1) (o2 + off2) n else LTau) s'
  | c_map h m root o blocking flags off n waits ev p s' : mems s !! h = Some m → window s h = Some (root, o) →
      fits off n → 0 < n → off + n ≤ getSize m →
      (∀ m0 x, mems s !! root = Some m0 → x ∈ descs (buffer m0) → ptr_get (desc_ptr x) ≠ p) →
      (∀ fl, maps σ !! (root, p) ≠ Some fl) →
      appendMemBufferMap h blocking flags off n waits ev s = (inr p, s') →
      cstep s σ (LMap root p (o + off) n flags
        (flag flags UR_MAP_FLAG_READ && bool_decide (ignored s' = ignored s)) (λ i, eventual s' (p + i))) s'
  | c_map_fails h m root o blocking flags off n waits ev e s' : mems s !! h = Some m → window s h = Some (root, o) →
      fits off n → 0 < n → off + n ≤ getSize m →
      appendMemBufferMap h blocking flags off n waits ev s = (inl e, s') → cstep s σ LTau s'
  (* When the mapped memory goes back to the pool the commands are run first. *)
  | c_unmap h m root o p off n flags waits ev r s1 s' : window s h = Some (root, o) → mems s !! root = Some m →
      maps σ !! (root, p) = Some (off, n, flags) → appendMemUnmap h p waits ev s = (r, s1) →
      (if frees_map (buffer m) p then queueFinish s1 = (inr (), s') else s' = s1) →
      cstep s σ (LUnmap root p (if ok r then unmapped_as s s1 (buffer m) flags p else Lost)) s'
  | c_kernel q k hs args ms waits ev c ps s' : (q < getNumDevices)%nat →
      Forall2 (λ h x, window s h = Some x) hs args → Forall2 (λ h m, mems s !! h = Some m) hs ms →
      (∃ workDim, appendKernelLaunch q k hs workDim None waits ev s = (inr (), s')) →
      commands s' = commands s ++ [c] → cmd_op c = LaunchKernel k ps →
      cstep s σ (LKernel k (zip args (getSize <$> ms)) (view (eventual s) <$> ps)) s'
  | c_kernel_fails q k hs args workDim dims waits ev e s' : (q < getNumDevices)%nat →
      Forall2 (λ h x, window s h = Some x) hs args →
      appendKernelLaunch q k hs workDim dims waits ev s = (inl e, s') → cstep s σ LTau s'.
End steps.
End L0Spec.
