(* ===== verification/L0MemoryProofs.v ===== *)
(** * Proofs about the memory objects of the Level Zero v2 adapter *)
From stdpp Require Import base numbers list gmap relations.
From S2P Require Import Prelude UrUtil FlatMemory L0Memory.
Import Util.
Local Open Scope Z_scope.

Module L0Facts.
Import L0Mem L0Spec.

(** ** Monad *)
Lemma l0_bind_inv {A B} (m : M A) (f : A → M B) s r s' :
  (m ≫= f) s = (r, s') →
  (∃ a s1, m s = (inr a, s1) ∧ f a s1 = (r, s')) ∨ (∃ e, m s = (inl e, s') ∧ r = inl e).
Proof.
  unfold mbind, M_bind. destruct (m s) as [[e|a] s1] eqn:E; intros Heq.
  - injection Heq as <- <-. right. by exists e.
  - left. by exists a, s1.
Qed.
Lemma l0_get_inv h s r s' : get h s = (r, s') →
  s' = s ∧ match r with inr m => mems s !! h = Some m | inl _ => mems s !! h = None end.
Proof. unfold get. destruct (mems s !! h); by intros [= <- <-]. Qed.
Lemma l0_assert_inv b e s r s' : UR_ASSERT b e s = (r, s') →
  s' = s ∧ if b then r = inr () else r = inl (Code e).
Proof. unfold UR_ASSERT. destruct b; by intros [= <- <-]. Qed.

(** Splits a computation into the cases of its first step. *)
Ltac step H :=
  match type of H with
  | (_ ≫= _) _ = _ =>
      let a := fresh "a" in let s := fresh "s" in let E := fresh "E" in let e := fresh "e" in
      apply l0_bind_inv in H as [(a & s & E & H)|(e & E & ->)]
  end.

(** The steps of a part whose result is known. *)
Ltac substep H :=
  match type of H with
  | (_ ≫= _) _ = _ =>
      let a := fresh "a" in let s := fresh "s" in let E := fresh "E" in let e := fresh "e" in let Heq := fresh in
      apply l0_bind_inv in H as [(a & s & E & H)|(e & E & Heq)]; [|try discriminate Heq]
  end.

(** ** Commands and the memory they do not touch *)
Lemma view_ext m m' x : (∀ a, in_range x.1 x.2 a = true → m a = m' a) → view m x = view m' x.
Proof.
  intros Hm. unfold view.
  assert ((λ o, m (x.1 + o)) <$> seqZ 0 x.2 = (λ o, m' (x.1 + o)) <$> seqZ 0 x.2) as ->; [|done].
  apply list_fmap_ext. intros i o Hi. apply lookup_seqZ in Hi as [-> Hi]. apply Hm. ranges. lia.
Qed.

Definition same_but (X : Z → Prop) (m m' : memory) : Prop := ∀ a, ¬ X a → m a = m' a.

Lemma run_args_frame k views X args : (∀ x a, x ∈ args → in_range x.1 x.2 a = true → ¬ X a) →
  ∀ i m m', same_but X m m' →
  same_but X (run_args k views i args m) (run_args k views i args m') ∧ ∀ a, X a → run_args k views i args m a = m a.
Proof.
  induction args as [|[p n] args IH]; intros Hx i m m' Hs; [done|]. simpl.
  destruct (IH (λ x a Hin, Hx x a (list_elem_of_further _ _ _ Hin)) (S i)
    (store_arg k views i p n m) (store_arg k views i p n m')) as [H1 H2].
  { intros a Ha. unfold store_arg. rewrite (Hs a Ha). done. }
  split; [done|]. intros a Ha. rewrite H2 by done. unfold store_arg. destruct (in_range p n a) eqn:E; [|done].
  by destruct (Hx (p, n) a (list_elem_of_here _ _) E).
Qed.

Lemma perform_frame o X m m' : (∀ a, touches o a → ¬ X a) → same_but X m m' →
  same_but X (perform o m) (perform o m') ∧ ∀ a, X a → perform o m a = m a.
Proof.
  intros Ht Hs. destruct o as [dst src n|dst pat n| | |k args]; cbn [perform touches] in *; try done.
  - split; intros a Ha; unfold memcpy.
    + destruct (in_range dst n a) eqn:E; [|by apply Hs]. apply Hs, Ht. right. ranges. lia.
    + destruct (in_range dst n a) eqn:E; [|done]. destruct (Ht a); [by left|done].
  - split; intros a Ha; destruct (in_range dst n a) eqn:E; try done; [by apply Hs|]. by destruct (Ht a).
  - assert (view m <$> args = view m' <$> args) as ->.
    { apply list_fmap_ext. intros i x Hi. apply view_ext. intros a Ha. apply Hs, Ht. exists x. split; [|done].
      by apply list_elem_of_lookup_2 in Hi. }
    apply run_args_frame; [|done]. intros x a Hx Ha. apply Ht. by exists x.
Qed.

Definition run_commands (l : list command) (m : memory) : memory := foldl (λ m c, perform (cmd_op c) m) m l.

Lemma run_commands_frame X l : (∀ c a, c ∈ l → touches (cmd_op c) a → ¬ X a) → ∀ m m', same_but X m m' →
  same_but X (run_commands l m) (run_commands l m') ∧ ∀ a, X a → run_commands l m a = m a.
Proof.
  induction l as [|c l IH]; intros Hx m m' Hs; [done|]. simpl.
  destruct (perform_frame (cmd_op c) X m m') as [H1 H2]; [intros a; apply Hx, list_elem_of_here|done|].
  destruct (IH (λ c a Hin, Hx c a (list_elem_of_further _ _ _ Hin)) _ _ H1) as [H3 H4]. split; [done|].
  intros a Ha. rewrite H4 by done. by apply H2.
Qed.

(** The host, or a synchronous copy, writes memory that no command touches. *)
Lemma eventual_set_mem s f X : (∀ a, X a → ¬ busy s a) → same_but X (mem s) (f (mem s)) →
  same_but X (eventual s) (eventual (set_mem f s)) ∧ ∀ a, X a → eventual (set_mem f s) a = f (mem s) a.
Proof.
  intros Hb Hs. assert (∀ c a, c ∈ commands s → touches (cmd_op c) a → ¬ X a) as Hx.
  { intros c a Hc Ht Ha. apply (Hb a Ha). by exists c. }
  destruct (run_commands_frame X (commands s) Hx _ _ Hs) as [H1 _].
  assert (same_but X (f (mem s)) (mem s)) as Hs' by (intros a Ha; by rewrite Hs).
  destruct (run_commands_frame X (commands s) Hx _ _ Hs') as [_ H2]. by split.
Qed.
Lemma eventual_idle s a : ¬ busy s a → eventual s a = mem s a.
Proof.
  intros Hb. assert (∀ c b, c ∈ commands s → touches (cmd_op c) b → b ≠ a) as Hx.
  { intros c b Hc Ht ->. apply Hb. by exists c. }
  by apply (run_commands_frame (λ b, b = a) (commands s) Hx (mem s) (mem s)).
Qed.

Lemma eventual_push o w ev s : eventual (push o w ev s) = perform o (eventual s).
Proof. unfold eventual, push. simpl. by rewrite foldl_app. Qed.
Lemma eventual_run_all s : eventual (run_all s) = eventual s.
Proof. done. Qed.
Lemma eventual_run_first s : eventual (run_first s) = eventual s.
Proof. unfold run_first. destruct (commands s) as [|c l] eqn:E; [done|]. unfold eventual. by rewrite E. Qed.
Lemma busy_push o w ev s a : busy (push o w ev s) a ↔ busy s a ∨ touches o a.
Proof.
  unfold busy, push. simpl. split.
  - intros (c & [Hc| ->%list_elem_of_singleton]%elem_of_app & Ht); [left; by exists c|by right].
  - intros [(c & Hc & Ht)|Ht]; [exists c; split; [set_solver|done]|]. eexists. split; [apply elem_of_app; right; by apply list_elem_of_singleton|done].
Qed.
Lemma busy_run_first s a : busy (run_first s) a → busy s a.
Proof.
  unfold busy, run_first. destruct (commands s) as [|c l] eqn:E; simpl.
  - rewrite E. intros (c & ?%not_elem_of_nil & _). done.
  - intros (c' & Hc & Ht). exists c'. split; [by right|done].
Qed.
Lemma not_busy_run_all s a : ¬ busy (run_all s) a.
Proof. intros (c & ?%not_elem_of_nil & _). done. Qed.

(** ** Claims *)
Lemma elem_of_ptr_claim p n x : x ∈ ptr_claim p n ↔ ptr_get p ≠ 0 ∧ x = (ptr_get p, n, bool_decide (ptr_deleter p = PoolFree)).
Proof.
  unfold ptr_claim. destruct (Z.eqb_spec (ptr_get p) 0) as [E|E].
  - split; [by intros ?%not_elem_of_nil|by intros [? _]].
  - rewrite list_elem_of_singleton. tauto.
Qed.
Lemma elem_of_host_claim p n x : x ∈ host_claim p n ↔ p ≠ 0 ∧ x = (p, n, false).
Proof.
  unfold host_claim. destruct (Z.eqb_spec p 0) as [E|E].
  - split; [by intros ?%not_elem_of_nil|by intros [? _]].
  - rewrite list_elem_of_singleton. tauto.
Qed.
Lemma elem_of_desc_claim d x : x ∈ desc_claim d ↔
  ptr_deleter (desc_ptr d) = PoolFree ∧ ptr_get (desc_ptr d) ≠ 0 ∧ x = (ptr_get (desc_ptr d), desc_size d, true).
Proof.
  unfold desc_claim. case_bool_decide as E.
  - rewrite elem_of_ptr_claim, bool_decide_true by done. tauto.
  - split; [by intros ?%not_elem_of_nil|by intros [? _]].
Qed.

(** ** The invariant *)
Section inv.
Context `{LevelZero, L0Context} (user : Z → Prop).

(** A discrete buffer has memory on one device at most, the active one. *)
Definition shape (b : ur_discrete_buffer) : Prop :=
  length (deviceAllocations b) = getNumDevices ∧
  match activeAllocationDevice b with
  | Some d => (d < getNumDevices)%nat ∧ 0 < ptr_get (device_ptr b d) ∧ ∀ d', d' ≠ d → ptr_get (device_ptr b d') = 0
  | None => ∀ d, ptr_get (device_ptr b d) = 0
  end.
Definition desc_ok (size : Z) (x : host_allocation_desc_t) : Prop :=
  0 ≤ desc_offset x ∧ 0 < desc_size x ∧ desc_offset x + desc_size x ≤ size ∧ 0 < ptr_get (desc_ptr x) ∧
  (ptr_deleter (desc_ptr x) = PoolFree ∨
   ptr_deleter (desc_ptr x) = Nothing ∧ ∀ a, in_range (ptr_get (desc_ptr x)) (desc_size x) a = true → user a).
Definition buffer_ok (ms : gmap Z ur_mem_handle) (h : Z) (m : ur_mem_handle) : Prop :=
  match buffer m with
  | Integrated b => 0 < ptr_get (integrated_ptr b) ∧ Forall (desc_ok (getSize m)) (mappedRegions b) ∧
      Forall (λ x, ptr_deleter (desc_ptr x) = Nothing) (mappedRegions b)
  | Discrete b => shape b ∧ Forall (desc_ok (getSize m)) (hostAllocations b) ∧ ptr_deleter (mapToPtr b) ≠ PoolFree
  | Shared p => 0 < ptr_get p
  | SubBuffer p o => p < h ∧ ∃ mp, ms !! p = Some mp ∧ 0 ≤ o ∧ o + getSize m ≤ getSize mp
  end.

(** A map the application holds is one the buffer knows. *)
Definition map_ok (b : ur_mem_buffer) (p off n fl : Z) : Prop :=
  let found l := ∃ x, snd <$> find_desc p l = Some x ∧ desc_offset x = off ∧ desc_size x = n ∧ desc_flags x = fl in
  match b with
  | Integrated b => if integrated_writeBackPtr b =? 0 then p = ptr_get (integrated_ptr b) + off else found (mappedRegions b)
  | Discrete b => found (hostAllocations b)
  | Shared q => p = ptr_get q + off
  | SubBuffer _ _ => False
  end.

Definition claim_ok (al : list (Z * Z)) (x : Z * Z * bool) : Prop :=
  0 < x.1.1 ∧ 0 < x.1.2 ∧ if x.2 then x.1 ∈ al else ∀ a, in_range x.1.1 x.1.2 a = true → user a.
Definition overlap (x y : Z * Z) : Prop := ∃ a, in_range x.1 x.2 a = true ∧ in_range y.1 y.2 a = true.

Definition content_ok (ms : gmap Z ur_mem_handle) (mm : memory) (σ : gmap Z content) : Prop :=
  ∀ h m c i v, ms !! h = Some m → σ !! h = Some c → 0 ≤ i < getSize m → c i = Some v →
    ∃ b, base (buffer m) = Some b ∧ mm (b + i) = v.

Record inv (s : state) (σ : spec) : Prop := {
  inv_handle h m : mems s !! h = Some m →
    0 < h < next_handle s ∧ 0 < getSize m < 2 ^ 64 ∧ 1 ≤ RefCount m < 2 ^ 32 ∧
    Z.of_nat (children (mems s) h) ≤ RefCount m ∧ buffer_ok (mems s) h m;
  inv_claim h m x : mems s !! h = Some m → x ∈ claims m → claim_ok (allocations s) x;
  inv_nodup h m : mems s !! h = Some m → NoDup (claims m);
  inv_disjoint h1 h2 m1 m2 x1 x2 : mems s !! h1 = Some m1 → mems s !! h2 = Some m2 →
    x1 ∈ claims m1 → x2 ∈ claims m2 → overlap x1.1 x2.1 → h1 = h2 ∧ x1 = x2;
  inv_alloc x : x ∈ allocations s → 0 < x.1 ∧ 0 < x.2 ∧ ∀ a, in_range x.1 x.2 a = true → ¬ user a;
  inv_allocs x y : x ∈ allocations s → y ∈ allocations s → overlap x y → x = y;
  inv_pending a : busy s a → user a ∨ in_allocations s a;
  inv_dom h : is_Some (arrays σ !! h) ↔ ∃ m, mems s !! h = Some m ∧ parent m = None;
  inv_content : content_ok (mems s) (eventual s) (arrays σ);
  inv_maps r p off n fl : maps σ !! (r, p) = Some (off, n, fl) →
    ∃ m, mems s !! r = Some m ∧ parent m = None ∧ 0 ≤ off ∧ 0 < n ∧ off + n ≤ getSize m ∧ map_ok (buffer m) p off n fl;
  inv_frees : invalid_frees s = 0%nat;
  inv_pos : 0 < next_handle s }.

Lemma l0_inv_lookup s σ h m : inv s σ → mems s !! h = Some m → parent m = None → ∃ c, arrays σ !! h = Some c.
Proof. intros Hi Hm Hp. apply (inv_dom _ _ Hi h). by exists m. Qed.

(** What is not memory, a handle or an allocation does not matter; of these, the
    memory and what is known of it may change. *)
Lemma inv_change s s' σ σ' :
  inv s σ → allocations s' = allocations s → invalid_frees s' = invalid_frees s → mems s' = mems s →
  next_handle s' = next_handle s → (∀ a, busy s' a → user a ∨ in_allocations s a) →
  (∀ h, is_Some (arrays σ' !! h) ↔ is_Some (arrays σ !! h)) → maps σ' ⊆ maps σ →
  content_ok (mems s) (eventual s') (arrays σ') → inv s' σ'.
Proof.
  intros Hi Ha Hf Hm Hn Hb Hd Hmaps Hc. destruct Hi. split; rewrite ?Ha, ?Hf, ?Hm, ?Hn; try done.
  - intros a Hbu. destruct (Hb a Hbu) as [|(p & n & Hin & ?)]; [by left|]. right. exists p, n. by rewrite Ha.
  - intros h. by rewrite Hd.
  - intros r p off n fl Hl. apply inv_maps0. by eapply lookup_weaken.
Qed.

Definition same (s s' : state) : Prop :=
  mem s' = mem s ∧ allocations s' = allocations s ∧ invalid_frees s' = invalid_frees s ∧ mems s' = mems s ∧
  next_handle s' = next_handle s ∧ commands s' = commands s.
Lemma inv_same s s' σ : inv s σ → same s s' → inv s' σ.
Proof.
  intros Hi (Em & Ea & Ef & Eh & En & Ec). apply (inv_change s s' σ σ); try done.
  - intros a Hb. apply (inv_pending _ _ Hi). unfold busy in *. by rewrite <-Ec.
  - unfold eventual. rewrite Em, Ec. apply (inv_content _ _ Hi).
Qed.

(** *** Claims *)
Lemma base_claim ms h m b : buffer_ok ms h m → base (buffer m) = Some b → ∃ o, (b, getSize m, o) ∈ claims m.
Proof.
  unfold buffer_ok, claims, base. destruct (buffer m) as [d|d|p|p o]; [..|done].
  - intros (Hp & _) [= <-]. eexists. apply elem_of_app. left. apply elem_of_ptr_claim. split; [lia|done].
  - intros ([_ Hs] & _ & _). unfold active_alloc, active_ptr. destruct (activeAllocationDevice d) as [k|]; [|done].
    intros [= <-]. eexists. apply elem_of_app. left. apply elem_of_ptr_claim. split; [lia|done].
  - intros Hp [= <-]. eexists. apply elem_of_ptr_claim. split; [lia|done].
Qed.

(** The bytes of different buffers are in different places. *)
Lemma base_disjoint s σ h1 h2 m1 m2 b1 b2 a : inv s σ → mems s !! h1 = Some m1 → mems s !! h2 = Some m2 →
  base (buffer m1) = Some b1 → base (buffer m2) = Some b2 →
  in_range b1 (getSize m1) a = true → in_range b2 (getSize m2) a = true → h1 = h2.
Proof.
  intros Hi Hm1 Hm2 Hb1 Hb2 Ha1 Ha2.
  destruct (inv_handle _ _ Hi _ _ Hm1) as (_ & _ & _ & _ & Hok1), (inv_handle _ _ Hi _ _ Hm2) as (_ & _ & _ & _ & Hok2).
  destruct (base_claim _ _ _ _ Hok1 Hb1) as [o1 Hc1], (base_claim _ _ _ _ Hok2 Hb2) as [o2 Hc2].
  destruct (inv_disjoint _ _ Hi h1 h2 m1 m2 _ _ Hm1 Hm2 Hc1 Hc2) as [-> _]; [by exists a|done].
Qed.

(** *** Contents *)
Lemma content_weaken ms mm σ σ' : content_ok ms mm σ →
  (∀ h m c', ms !! h = Some m → σ' !! h = Some c' →
     ∃ c, σ !! h = Some c ∧ ∀ i v, 0 ≤ i < getSize m → c' i = Some v → c i = Some v) → content_ok ms mm σ'.
Proof. intros Hc Hle h m c' i v Hm Hc' Hi Hv. destruct (Hle h m c' Hm Hc') as (c & Hc0 & Hcv). by apply (Hc h m c i v); auto. Qed.

(** Writing memory where nothing is kept. *)
Lemma content_frame s σ mm : content_ok (mems s) (eventual s) (arrays σ) →
  (∀ a, mm a = eventual s a ∨ holds_nothing s σ a) → content_ok (mems s) mm (arrays σ).
Proof.
  intros Hc Hmm h m c i v Hm Hca Hi Hv. destruct (Hc h m c i v Hm Hca Hi Hv) as (b & Hb & Hev). exists b. split; [done|].
  destruct (Hmm (b + i)) as [->|Hn]; [done|]. specialize (Hn h m c b Hm Hca Hb).
  replace (b + i - b) with i in Hn by lia. rewrite Hn in Hv; [done|]. ranges. lia.
Qed.

(** Writing a range of one buffer. *)
Lemma content_write s σ r m c b off n mm : inv s σ → mems s !! r = Some m → arrays σ !! r = Some c →
  base (buffer m) = Some b → 0 ≤ off → off + n ≤ getSize m →
  (∀ a, in_range (b + off) n a = false → mm a = eventual s a) →
  content_ok (mems s) mm (arrays (write r off n (λ i, Some (mm (b + off + i))) σ)).
Proof.
  intros Hi Hm Hc Hb Hoff Hn Hmm h m' c' i v Hm' Hc' Hi' Hv. simpl in Hc'. rewrite lookup_alter in Hc'. case_decide as Hh.
  - subst h. rewrite Hc in Hc'. injection Hc' as <-. simplify_eq. unfold upd in Hv. destruct (in_range off n i) eqn:E.
    + exists b. split; [done|]. injection Hv as <-. f_equal. lia.
    + destruct (inv_content _ _ Hi r m c i v) as (b' & Hb' & Hev); try done. simplify_eq. exists b. split; [done|].
      rewrite Hmm; [done|]. ranges. lia.
  - destruct (inv_content _ _ Hi h m' c' i v) as (b' & Hb' & Hev); try done. exists b'. split; [done|].
    rewrite Hmm; [done|]. apply not_true_iff_false. intros Hin. apply Hh.
    apply (base_disjoint s σ r h m m' b b' (b' + i)); try done; ranges; lia.
Qed.
Lemma content_lost ms mm σ r off n : content_ok ms mm (arrays σ) →
  content_ok ms mm (arrays (write r off n (λ _, None) σ)).
Proof.
  intros Hc. apply (content_weaken _ _ _ _ Hc). intros h m c' Hm. simpl. rewrite lookup_alter. case_decide as Hh.
  - subst h. destruct (arrays σ !! r) as [c|]; [|done]. intros [= <-]. exists c. split; [done|]. intros i v _ Hv.
    by apply upd_lost in Hv as [_ ?].
  - intros Hc'. by exists c'.
Qed.

(** *** Changes of the table *)
Definition link (m : ur_mem_handle) : option (Z * Z) := match buffer m with SubBuffer p o => Some (p, o) | _ => None end.
Lemma parent_link m : parent m = fst <$> link m.
Proof. unfold parent, link. by destruct (buffer m). Qed.

Lemma children_insert_same ms h m m' p : ms !! h = Some m → parent m' = parent m →
  children (<[h := m']> ms) p = children ms p.
Proof.
  intros Hm Hp. unfold children. rewrite map_filter_insert. case_decide as Hd; simpl in Hd.
  - rewrite map_size_insert_Some; [done|]. exists m. apply map_lookup_filter_Some. split; [done|]. simpl. congruence.
  - rewrite map_filter_delete, delete_id; [done|]. apply map_lookup_filter_None. right. intros x Hx. simplify_eq. simpl. congruence.
Qed.
Lemma children_insert_new ms h m p : ms !! h = None →
  children (<[h := m]> ms) p = (children ms p + (if decide (parent m = Some p) then 1 else 0))%nat.
Proof.
  intros Hm. unfold children. rewrite map_filter_insert. case_decide as Hd; simpl in Hd.
  - rewrite decide_True, map_size_insert_None by (done || (apply map_lookup_filter_None; by left)). lia.
  - rewrite decide_False, map_filter_delete, delete_id by (done || (apply map_lookup_filter_None; by left)). lia.
Qed.
Lemma children_delete ms h m p : ms !! h = Some m →
  children ms p = (children (delete h ms) p + (if decide (parent m = Some p) then 1 else 0))%nat.
Proof.
  intros Hm. rewrite <-(insert_delete_id ms h m Hm) at 1. rewrite children_insert_new by apply lookup_delete_eq. done.
Qed.

Lemma resolve_ext ms ms' : (∀ h, link <$> ms' !! h = link <$> ms !! h) →
  ∀ f h off, resolve ms' f h off = resolve ms f h off.
Proof.
  intros Hl f. induction f as [|f IH]; intros h off; simpl; specialize (Hl h);
    destruct (ms !! h) as [m|], (ms' !! h) as [m'|]; try done; simpl in *;
    unfold link in Hl; destruct (buffer m), (buffer m'); simplify_eq; done.
Qed.
Lemma window_ext s s' h : (∀ h, link <$> mems s' !! h = link <$> mems s !! h) → window s' h = window s h.
Proof. intros Hl. by apply resolve_ext. Qed.

Lemma buffer_ok_mono ms ms' h m : (∀ p mp, ms !! p = Some mp → ∃ mp', ms' !! p = Some mp' ∧ getSize mp' = getSize mp) →
  buffer_ok ms h m → buffer_ok ms' h m.
Proof.
  intros Hms. unfold buffer_ok. destruct (buffer m) as [d|d|p|p o]; try done. intros (Hp & mp & Hmp & Ho & Hs).
  split; [done|]. destruct (Hms _ _ Hmp) as (mp' & ? & Hsz). exists mp'. by rewrite Hsz.
Qed.

(** A buffer changes, and relies on one more piece of memory at most. *)
Lemma inv_set_handle s σ h m m' (new : Z * Z * bool → Prop) :
  inv s σ → mems s !! h = Some m → link m' = link m → getSize m' = getSize m → RefCount m' = RefCount m →
  buffer_ok (mems s) h m' → NoDup (claims m') →
  (∀ x, x ∈ claims m' → x ∈ claims m ∨ new x) → (∀ x y, new x → new y → x = y) →
  (∀ x, new x → claim_ok (allocations s) x ∧
     ∀ h2 m2 x2, mems s !! h2 = Some m2 → x2 ∈ claims m2 → ¬ overlap x.1 x2.1) →
  (∀ b, base (buffer m) = Some b → base (buffer m') = Some b) →
  (∀ p off n fl, maps σ !! (h, p) = Some (off, n, fl) → map_ok (buffer m) p off n fl → map_ok (buffer m') p off n fl) →
  inv (set_mems <[h := m']> s) σ.
Proof.
  intros Hi Hm Hl Hsz Hrc Hok Hnd Hcl Hone Hnew Hbase Hmap.
  assert (parent m' = parent m) as Hp by by rewrite !parent_link, Hl.
  assert (∀ x h2 m2 x2, new x → mems s !! h2 = Some m2 → x2 ∈ claims m2 → ¬ overlap x2.1 x.1) as Hnew'.
  { intros x h2 m2 x2 Hx Hm2 Hx2 (a & ? & ?). destruct (Hnew x Hx) as [_ Hno]. apply (Hno h2 m2 x2 Hm2 Hx2). by exists a. }
  split; simpl; try apply Hi.
  - intros h' m0. rewrite (children_insert_same _ _ m) by done. rewrite lookup_insert.
    assert (∀ p mp, mems s !! p = Some mp → ∃ mp', <[h:=m']> (mems s) !! p = Some mp' ∧ getSize mp' = getSize mp) as Hmono.
    { intros p mp Hmp. rewrite lookup_insert. case_decide; [subst; simplify_eq; by exists m'|by exists mp]. }
    case_decide as Hh; [subst h'; intros [= <-]|intros Hm0].
    + destruct (inv_handle _ _ Hi h m Hm) as (? & ? & ? & ? & _). rewrite Hsz, Hrc. split_and!; try done; try lia.
      by eapply buffer_ok_mono.
    + destruct (inv_handle _ _ Hi h' m0 Hm0) as (? & ? & ? & ? & ?). split_and!; try done; try lia. by eapply buffer_ok_mono.
  - intros h' m0 x. rewrite lookup_insert. case_decide as Hh; [intros [= <-] Hx|by apply Hi].
    destruct (Hcl x Hx) as [Hx'|Hx']; [by apply (inv_claim _ _ Hi h m)|by apply Hnew].
  - intros h' m0. rewrite lookup_insert. case_decide as Hh; [by intros [= <-]|by apply Hi].
  - intros h1 h2 m1 m2 x1 x2. rewrite !lookup_insert. case_decide as E1; case_decide as E2.
    + intros [= <-] [= <-] Hx1 Hx2 Ho. subst. split; [done|].
      destruct (Hcl x1 Hx1) as [Hc1|Hc1], (Hcl x2 Hx2) as [Hc2|Hc2].
      * by apply (inv_disjoint _ _ Hi h2 h2 m m x1 x2).
      * by destruct (Hnew' x2 h2 m x1).
      * by destruct (proj2 (Hnew x1 Hc1) h2 m x2).
      * by apply Hone.
    + intros [= <-] Hm2 Hx1 Hx2 Ho. subst. destruct (Hcl x1 Hx1) as [Hc1|Hc1].
      * by apply (inv_disjoint _ _ Hi h1 h2 m m2 x1 x2).
      * by destruct (proj2 (Hnew x1 Hc1) h2 m2 x2).
    + intros Hm1 [= <-] Hx1 Hx2 Ho. subst. destruct (Hcl x2 Hx2) as [Hc2|Hc2].
      * by apply (inv_disjoint _ _ Hi h1 h2 m1 m x1 x2).
      * by destruct (Hnew' x2 h1 m1 x1).
    + by apply Hi.
  - intros h'. rewrite (inv_dom _ _ Hi h'), lookup_insert. case_decide as Hh; [subst h'|done].
    split; intros (m0 & Hm0 & Hp0); simplify_eq; eexists; (split; [done|congruence]).
  - intros h' m0 c i v. rewrite lookup_insert. case_decide as Hh; [subst h'; intros [= <-]|by apply (inv_content _ _ Hi)].
    rewrite Hsz. intros Hc Hi' Hv. destruct (inv_content _ _ Hi h m c i v Hm Hc Hi' Hv) as (b & Hb & Hev). exists b. auto.
  - intros r p off n fl Hmp. destruct (inv_maps _ _ Hi r p off n fl Hmp) as (m0 & Hm0 & Hp0 & ? & ? & ? & Hok0).
    rewrite lookup_insert. case_decide as Hh; [subst r; simplify_eq; exists m'|by exists m0].
    rewrite Hp, Hsz. split_and!; eauto.
Qed.

(** *** Allocations *)
Definition fresh (s : state) (p n : Z) : Prop :=
  0 < p ∧ 0 < n ∧ ∀ a, in_range p n a = true → ¬ user a ∧ ∀ y, y ∈ allocations s → in_range y.1 y.2 a = false.

Lemma inv_add_allocation s σ p n : inv s σ → fresh s p n → inv (add_allocation p n s) σ.
Proof.
  intros Hi (Hp & Hn & Hf). split; simpl; try apply Hi.
  - intros h m x Hm Hx. destruct (inv_claim _ _ Hi h m x Hm Hx) as (? & ? & Ho). split_and!; try done.
    destruct x.2; [by right|done].
  - intros x [->|Hx]%elem_of_cons; [|by apply (inv_alloc _ _ Hi)]. split_and!; try done. intros a Ha. by apply Hf.
  - intros x y [->|Hx]%elem_of_cons [->|Hy]%elem_of_cons (a & Ha1 & Ha2); try done.
    + destruct (Hf a Ha1) as [_ Hno]. by rewrite (Hno y Hy) in Ha2.
    + destruct (Hf a Ha2) as [_ Hno]. by rewrite (Hno x Hx) in Ha1.
    + apply (inv_allocs _ _ Hi x y Hx Hy). by exists a.
  - intros a Hb. destruct (inv_pending _ _ Hi a Hb) as [|(q & k & Hin & Ha)]; [by left|right]. exists q, k. split; [by right|done].
Qed.

Lemma fresh_no_overlap s σ p n h m x : inv s σ → fresh s p n → mems s !! h = Some m → x ∈ claims m → ¬ overlap (p, n) x.1.
Proof.
  intros Hi (_ & _ & Hf) Hm Hx (a & Ha & Hax). destruct (Hf a Ha) as [Hu Hno].
  destruct (inv_claim _ _ Hi h m x Hm Hx) as (_ & _ & Ho). destruct x.2; [by rewrite (Hno _ Ho) in Hax|by apply Hu, Ho].
Qed.

Lemma inv_free_allocation s σ p n : inv s σ → (p, n) ∈ allocations s →
  (∀ h m x, mems s !! h = Some m → x ∈ claims m → x.2 = true → x.1.1 ≠ p) →
  (∀ a, in_range p n a = true → ¬ busy s a) → inv (free_allocation p s) σ.
Proof.
  intros Hi Hin Hcl Hb. assert (∀ k, (p, k) ∈ allocations s → k = n) as Huniq.
  { intros k Hk. destruct (inv_alloc _ _ Hi _ Hin) as (? & ? & _), (inv_alloc _ _ Hi _ Hk) as (? & ? & _). simpl in *.
    cut ((p, k) = (p, n)); [by intros [=]|]. apply (inv_allocs _ _ Hi); try done. exists p. split; ranges; simpl; lia. }
  assert (∀ x, x ∈ filter (λ x, x.1 ≠ p) (allocations s) → x ∈ allocations s) as Hsub by (intros x [_ ?]%list_elem_of_filter; done).
  split; simpl; try apply Hi.
  - intros h m x Hm Hx. destruct (inv_claim _ _ Hi h m x Hm Hx) as (? & ? & Ho). split_and!; try done.
    specialize (Hcl h m x Hm Hx). destruct x.2; [|done]. apply list_elem_of_filter. auto.
  - intros x Hx. by apply (inv_alloc _ _ Hi), Hsub.
  - intros x y Hx Hy. by apply (inv_allocs _ _ Hi); apply Hsub.
  - intros a Hba. destruct (inv_pending _ _ Hi a Hba) as [|(q & k & Hqk & Ha)]; [by left|right]. exists q, k. split; [|done].
    apply list_elem_of_filter. split; [|done]. simpl. intros ->. apply Huniq in Hqk. subst k. by apply (Hb a).
  - rewrite bool_decide_true; [by apply Hi|]. apply list_elem_of_fmap. by exists (p, n).
Qed.

(** ** Operations that keep every buffer as it is *)
Record quiet (σ : spec) (s s' : state) : Prop := {
  q_inv : inv s' σ;
  q_mem : mem s' = mem s;
  q_commands : commands s' = commands s;
  q_waits : waitListView s' = waitListView s;
  q_ignored : ignored s' = ignored s;
  q_link h : link <$> mems s' !! h = link <$> mems s !! h;
  q_alloc a : in_allocations s a → in_allocations s' a;
  q_handle h m : mems s !! h = Some m → ∃ m', mems s' !! h = Some m' ∧ getSize m' = getSize m ∧
    RefCount m' = RefCount m ∧ descs (buffer m') = descs (buffer m) ∧
    ∀ b, base (buffer m) = Some b → base (buffer m') = Some b;
  q_fresh h m m' b a : mems s !! h = Some m → mems s' !! h = Some m' → base (buffer m) = None →
    base (buffer m') = Some b → in_range b (getSize m') a = true → ¬ user a ∧ ¬ in_allocations s a }.

Lemma l0_quiet_refl σ s : inv s σ → quiet σ s s.
Proof. intros Hi. split; try done; [intros h m Hm; by exists m|]. intros h m m' b a ????. congruence. Qed.
Lemma l0_quiet_trans σ s1 s2 s3 : quiet σ s1 s2 → quiet σ s2 s3 → quiet σ s1 s3.
Proof.
  intros [] []. split; try congruence; try done.
  - auto.
  - intros h m Hm. destruct (q_handle0 h m Hm) as (m1 & Hm1 & ? & ? & ? & ?).
    destruct (q_handle1 h m1 Hm1) as (m2 & ? & ? & ? & ? & ?). exists m2. split_and!; try congruence; auto.
  - intros h m m3 b a Hm Hm3 Hb Hb3 Ha. destruct (q_handle0 h m Hm) as (m2 & Hm2 & Hs2 & _).
    destruct (base (buffer m2)) as [b2|] eqn:Hb2.
    + destruct (q_handle1 h m2 Hm2) as (m3' & ? & Hs3 & _ & _ & Hb'). simplify_eq. rewrite (Hb' b2 Hb2) in Hb3. simplify_eq.
      apply (q_fresh0 h m m2 b); try done. by rewrite <-Hs3.
    + destruct (q_fresh1 h m2 m3 b a) as [? Hn]; try done. auto.
Qed.
Lemma quiet_eventual σ s s' : quiet σ s s' → eventual s' = eventual s.
Proof. intros Hq. unfold eventual. by rewrite (q_mem _ _ _ Hq), (q_commands _ _ _ Hq). Qed.
Lemma quiet_window σ s s' h : quiet σ s s' → window s' h = window s h.
Proof. intros Hq. apply window_ext, Hq. Qed.
Lemma quiet_busy σ s s' a : quiet σ s s' → busy s' a ↔ busy s a.
Proof. intros Hq. unfold busy. by rewrite (q_commands _ _ _ Hq). Qed.
Lemma quiet_accessible σ s s' p n : quiet σ s s' → accessible user s p n → accessible user s' p n.
Proof. intros Hq Ha a Hin. destruct (Ha a Hin) as [|]; [by left|right]. by apply (q_alloc _ _ _ Hq). Qed.

(** Memory that a buffer gets first keeps nothing. *)
Lemma quiet_holds_nothing σ s s' a : inv s σ → quiet σ s s' → holds_nothing s σ a → holds_nothing s' σ a.
Proof.
  intros Hi Hq Hn h m' c p Hm' Hc Hb Hin. pose proof (q_link _ _ _ Hq h) as Hl. rewrite Hm' in Hl.
  destruct (mems s !! h) as [m|] eqn:Hm; [|done].
  destruct (q_handle _ _ _ Hq h m Hm) as (m0 & Hm0 & Hsz & _ & _ & Hbase). simplify_eq. rewrite Hsz in Hin.
  destruct (c (a - p)) as [v|] eqn:Hv; [|done]. destruct (inv_content _ _ Hi h m c (a - p) v Hm Hc) as (b & Hb' & _); [ranges; lia|done|].
  pose proof (Hbase b Hb') as Hb2. simplify_eq. rewrite <-Hv. by apply (Hn h m c p).
Qed.
Lemma quiet_host_buffer σ s s' p n : inv s σ → quiet σ s s' → host_buffer user s σ p n → host_buffer user s' σ p n.
Proof.
  intros Hi Hq [Ha Hh]. split; [by eapply quiet_accessible|]. intros a Hin. eapply quiet_holds_nothing; try done. by apply Hh.
Qed.

(** Memory without a buffer stays without one, if the pool does not own it. *)
Lemma quiet_outside σ s s' h m' b a : quiet σ s s' → mems s' !! h = Some m' → base (buffer m') = Some b →
  in_range b (getSize m') a = true → user a ∨ in_allocations s a →
  (∀ h m b, mems s !! h = Some m → base (buffer m) = Some b → in_range b (getSize m) a = false) → False.
Proof.
  intros Hq Hm' Hb Ha Hacc Hno. pose proof (q_link _ _ _ Hq h) as Hl. rewrite Hm' in Hl.
  destruct (mems s !! h) as [m|] eqn:Hm; [|done]. destruct (base (buffer m)) as [b0|] eqn:Hb0.
  - destruct (q_handle _ _ _ Hq h m Hm) as (m0 & Hm0 & Hsz & _ & _ & Hbase). apply Hbase in Hb0 as Hb1. simplify_eq.
    specialize (Hno h m b Hm Hb0). congruence.
  - destruct (q_fresh _ _ _ Hq h m m' b a Hm Hm' Hb0 Hb Ha) as [? ?]. by destruct Hacc.
Qed.
Lemma quiet_parent σ s s' h m m' : quiet σ s s' → mems s !! h = Some m → mems s' !! h = Some m' → parent m' = parent m.
Proof.
  intros Hq Hm Hm'. pose proof (q_link _ _ _ Hq h) as Hl. rewrite Hm, Hm' in Hl. injection Hl as Hl.
  by rewrite !parent_link, Hl.
Qed.

Lemma l0_called_quiet s σ : inv s σ → quiet σ s (called s).
Proof.
  intros Hi. split; try done; [|intros h m Hm; by exists m|intros h m m' b a ????; cbn in *; congruence]. by apply (inv_same s).
Qed.

(** A call that returns a result or an error code. *)
Definition returns {A} (r : fault + A) : Prop := r ≠ inl NoReturn.
Lemma ze_cases s r s' : ze s = (r, s') → s' = called s ∧ (r = inr () ∨ ∃ e, r = inl (Code e)).
Proof. unfold ze. destruct (ze_error (calls s)) as [e|]; intros [= <- <-]; (split; [done|]); [right; by exists e|by left]. Qed.
Lemma ze_returns s r s' : ze s = (r, s') → returns r.
Proof. intros [_ [->|[e ->]]]%ze_cases; done. Qed.
Lemma ze_quiet s σ r s' : inv s σ → ze s = (r, s') → quiet σ s s'.
Proof. intros Hi [-> _]%ze_cases. by apply l0_called_quiet. Qed.

Lemma set_buffer_inv h b s m r s' : mems s !! h = Some m → set_buffer h b s = (r, s') →
  r = inr () ∧ s' = set_mems <[h := with_buffer b m]> s.
Proof. intros Hm Hr. unfold set_buffer, mbind, M_bind, get in Hr. rewrite Hm in Hr. by injection Hr as <- <-. Qed.
Lemma get_discrete_inv h s m b r s' : mems s !! h = Some m → buffer m = Discrete b → get_discrete h s = (r, s') →
  r = inr b ∧ s' = s.
Proof. intros Hm Hb Hr. unfold get_discrete, mbind, M_bind, get in Hr. rewrite Hm, Hb in Hr. by injection Hr as <- <-. Qed.
Lemma run_deleter_null p s r s' : ptr_get p = 0 → run_deleter p s = (r, s') → r = inr () ∧ s' = s.
Proof. intros Hp. unfold run_deleter. rewrite Hp. by intros [= <- <-]. Qed.

(** What is relied on of the pool and of the context. *)
Definition driver_ok : Prop :=
  (∀ l n, 0 < umf_malloc l n ∧
    ∀ a, in_range (umf_malloc l n) n a = true → ¬ user a ∧ ∀ y, y ∈ l → in_range y.1 y.2 a = false) ∧
  (first_device < getNumDevices)%nat ∧
  ∀ p, (∀ d, ze_memory_device p = Some d → (d < getNumDevices)%nat) ∧
       ∀ n, ze_memory_type n p = ZE_MEMORY_TYPE_DEVICE → is_Some (ze_memory_device p).
Context (Hdriver : driver_ok).

Lemma l0_allocate_ok s σ n r s' : inv s σ → 0 < n → allocate n s = (r, s') →
  quiet σ s s' ∧ returns r ∧ ∀ p, r = inr p → fresh s p n ∧ s' = add_allocation p n (called s).
Proof.
  intros Hi Hn Hr. unfold allocate in Hr. destruct (ze s) as [[e|[]] s1] eqn:E.
  - injection Hr as <- <-. split_and!; [by apply (ze_quiet _ _ _ _ Hi E)| |done].
    apply ze_returns in E. by intros [= ->].
  - apply ze_cases in E as [-> _]. injection Hr as <- <-. destruct Hdriver as [Hm _].
    destruct (Hm (allocations s) n) as [Hp Hf].
    assert (fresh s (umf_malloc (allocations s) n) n) as Hfr by done.
    split_and!; [|done|by intros p [= <-]]. pose proof (l0_called_quiet s σ Hi) as Hq.
    eapply l0_quiet_trans; [exact Hq|]. split; try done.
    + apply inv_add_allocation; [apply Hq|done].
    + intros a (q & k & Hin & Ha). exists q, k. split; [by right|done].
    + intros h m Hm'. by exists m.
    + intros h m m' b a ????. cbn in *. congruence.
Qed.

Definition discrete_at (s : state) (h : Z) (m : ur_mem_handle) (b : ur_discrete_buffer) : Prop :=
  mems s !! h = Some m ∧ buffer m = Discrete b.

Lemma nth_insert {A} (l : list A) d d' x def : (d < length l)%nat → nth d' (<[d := x]> l) def = if decide (d' = d) then x else nth d' l def.
Proof.
  intros Hd. rewrite !nth_lookup. case_decide as E; [subst; by rewrite list_lookup_insert_eq|by rewrite list_lookup_insert_ne].
Qed.
Lemma device_ptr_with_device b d p d' : (d < length (deviceAllocations b))%nat →
  device_ptr (with_device d p b) d' = if decide (d' = d) then p else device_ptr b d'.
Proof. apply nth_insert. Qed.

(** A discrete buffer without memory gets some. *)
Lemma inv_with_device s σ h m b d p n o : inv s σ → discrete_at s h m b → activeAllocationDevice b = None →
  (d < getNumDevices)%nat → n = getSize m → 0 < ptr_get p → bool_decide (ptr_deleter p = PoolFree) = o →
  claim_ok (allocations s) (ptr_get p, n, o) →
  (∀ h2 m2 x2, mems s !! h2 = Some m2 → x2 ∈ claims m2 → ¬ overlap (ptr_get p, n) x2.1) →
  inv (set_mems <[h := with_buffer (Discrete (with_device d p b)) m]> s) σ.
Proof.
  intros Hi [Hm Hb] Hact Hd -> Hp Ho Hcl Hno.
  destruct (inv_handle _ _ Hi h m Hm) as (_ & Hsz & _ & _ & Hok). pose proof Hok as Hok0. unfold buffer_ok in Hok0. rewrite Hb in Hok0.
  destruct Hok0 as ([Hlen Hs] & Hds & Hmt). rewrite Hact in Hs.
  assert (claims (with_buffer (Discrete (with_device d p b)) m) = (ptr_get p, getSize m, o) :: claims m) as Ecl.
  { unfold claims, active_ptr. simpl. rewrite Hb, Hact, device_ptr_with_device, decide_True by (done || lia).
    unfold ptr_claim at 1. rewrite (proj2 (Z.eqb_neq _ _)) by lia. by rewrite Ho. }
  assert ((ptr_get p, getSize m, o) ∉ claims m) as Hnin.
  { intros Hin. apply (Hno h m _ Hm Hin). destruct Hcl as (? & ? & _). exists (ptr_get p). simpl in *. split; ranges; lia. }
  apply (inv_set_handle s σ h m _ (λ x, x = (ptr_get p, getSize m, o))); try done.
  - unfold link. simpl. by rewrite Hb.
  - unfold buffer_ok. simpl. split; [|done]. split; simpl; [by rewrite length_insert|].
    split_and!; [done| |intros d' Hd']; rewrite device_ptr_with_device by lia.
    + by rewrite decide_True.
    + by rewrite decide_False.
  - rewrite Ecl. apply NoDup_cons. split; [done|by apply (inv_nodup _ _ Hi h)].
  - rewrite Ecl. intros x [->|Hx]%elem_of_cons; auto.
  - by intros x y -> ->.
  - by intros x ->.
  - rewrite Hb. simpl. unfold active_alloc. by rewrite Hact.
  - by rewrite Hb.
Qed.

Lemma allocateOnDevice_ok s σ h m b d r s' : inv s σ → discrete_at s h m b → activeAllocationDevice b = None →
  (d < getNumDevices)%nat → allocateOnDevice h d (getSize m) s = (r, s') →
  quiet σ s s' ∧ returns r ∧ ∀ p, r = inr p → fresh s p (getSize m) ∧
    discrete_at s' h (with_buffer (Discrete (with_device d {| ptr_get := p; ptr_deleter := PoolFree |} b)) m)
      (with_device d {| ptr_get := p; ptr_deleter := PoolFree |} b).
Proof.
  intros Hi [Hm Hb] Hact Hd Hr. destruct (inv_handle _ _ Hi h m Hm) as (_ & Hsz & _ & _ & Hok).
  unfold buffer_ok in Hok. rewrite Hb in Hok. destruct Hok as ([Hlen Hs] & _ & _). rewrite Hact in Hs.
  unfold allocateOnDevice in Hr. step Hr; apply (l0_allocate_ok s σ) in E as (Hq & Hret & Hp); try done; try lia.
  destruct (Hp a eq_refl) as [Hf ->]. clear Hp.
  step Hr; [|by apply (get_discrete_inv _ _ m b) in E as [? _]]. apply (get_discrete_inv _ _ m b) in E as [[= ->] ->]; [|done..].
  step Hr; [|by apply (set_buffer_inv _ _ _ m) in E as [? _]]. apply (set_buffer_inv _ _ _ m) in E as [_ ->]; [|done].
  step Hr; [|by apply run_deleter_null in E as [? _]]. apply run_deleter_null in E as [_ ->]; [|done].
  injection Hr as <- <-. set (p := {| ptr_get := a; ptr_deleter := PoolFree |}).
  split_and!; [|done|].
  - split; try done.
    + apply (inv_with_device _ _ h m b d p (getSize m) true); try done; try apply Hq.
      * apply Hf.
      * split_and!; [apply Hf|simpl; lia|]. by left.
      * intros h2 m2 x2 Hm2 Hx2. by apply (fresh_no_overlap s σ _ _ h2 m2).
    + intros h'. simpl. rewrite lookup_insert. case_decide; [subst; rewrite Hm; unfold link; simpl; by rewrite Hb|done].
    + apply Hq.
    + intros h' m'. simpl. rewrite lookup_insert. case_decide; [subst; intros ?; simplify_eq|intros ?; by exists m'].
      eexists. split_and!; try done; rewrite Hb; [done|]. simpl. unfold active_alloc. by rewrite Hact.
    + intros h' m1 m2 b2 x. simpl. rewrite lookup_insert. case_decide; [subst h'; intros Hm1 [= <-]|by intros; simplify_eq].
      simpl. unfold active_alloc. simpl. rewrite device_ptr_with_device, decide_True by (done || lia).
      intros _ [= <-] Hx. destruct Hf as (_ & _ & Hf). destruct (Hf x Hx) as [Hu Hno]. split; [done|].
      intros (q & k & Hin & Hqx). apply Hno in Hin. simpl in Hin. congruence.
  - intros q [= <-]. split; [done|]. split; [|done]. simpl. by rewrite lookup_insert_eq.
Qed.

(** ** Pointers to the bytes of a buffer *)
(** The allocation that is made when there is none yet. *)
Lemma ensure_ok s σ h m b d c r s' : inv s σ → discrete_at s h m b → (d < getNumDevices)%nat →
  (if bool_decide (activeAllocationDevice b = None) && c
   then _ ← allocateOnDevice h d (getSize m); mret () else mret ()) s = (r, s') →
  quiet σ s s' ∧ returns r ∧ (r = inr () → ∃ m' b', discrete_at s' h m' b' ∧ getSize m' = getSize m ∧
    hostAllocations b' = hostAllocations b ∧ mapToPtr b' = mapToPtr b ∧
    match activeAllocationDevice b, c with
    | None, true => activeAllocationDevice b' = Some d
    | _, _ => b' = b ∧ m' = m
    end).
Proof.
  intros Hi Hat Hd Hr. destruct (activeAllocationDevice b) as [k|] eqn:Hact, c; simpl in Hr.
  1,2,4: injection Hr as <- <-; (split_and!; [by apply l0_quiet_refl|done|]); intros _; by exists m, b.
  apply l0_bind_inv in Hr as [(p & s1 & E & Hr)|(e & E & ->)];
    apply (allocateOnDevice_ok s σ h m b) in E as (Hq & Hret & Hp); try done.
  - injection Hr as <- <-. split_and!; [done|done|]. intros _. destruct (Hp p eq_refl) as [_ Hat'].
    by eexists _, _.
  - split_and!; [done| |done]. intros [= ->]. by apply Hret.
Qed.

Lemma discrete_getDevicePtr_ok s σ h m b d offset r s' : inv s σ → discrete_at s h m b →
  (∀ d', d = Some d' → (d' < getNumDevices)%nat) → discrete_getDevicePtr h (getSize m) d offset s = (r, s') →
  quiet σ s s' ∧ returns r ∧
  ∀ p, r = inr p → ∃ m' bp, mems s' !! h = Some m' ∧ base (buffer m') = Some bp ∧ p = bp + offset.
Proof.
  intros Hi Hat Hd Hr. unfold discrete_getDevicePtr in Hr. pose proof Hat as [Hm Hb].
  step Hr; [|by apply (get_discrete_inv _ _ m b) in E as [? _]]. apply (get_discrete_inv _ _ m b) in E as [[= ->] ->]; [|done..].
  assert ((default first_device d < getNumDevices)%nat) as Hd0 by (destruct d; [by apply Hd|apply Hdriver]).
  rewrite <-(andb_true_r (bool_decide _)) in Hr.
  step Hr; apply (ensure_ok s σ h m b) in E as (Hq & Hret & Hb'); try done.
  2: { split_and!; [done| |done]. intros [= ->]. by apply Hret. }
  destruct a. destruct (Hb' eq_refl) as (m' & b' & [Hm' Hbm] & _ & _ & _ & Ha'). clear Hb'.
  step Hr; [|by apply (get_discrete_inv _ _ _ _ _ _ Hm' Hbm) in E as [? _]].
  apply (get_discrete_inv _ _ _ _ _ _ Hm' Hbm) in E as [[= ->] ->].
  assert (∃ k bp, activeAllocationDevice b' = Some k ∧ active_alloc b' = Some bp) as (k & bp & Hk & Hbp).
  { unfold active_alloc. destruct (activeAllocationDevice b) as [k|] eqn:Hact.
    - destruct Ha' as [-> _]. rewrite Hact. by eexists _, _.
    - rewrite Ha'. by eexists _, _. }
  rewrite Hk, Hbp in Hr.
  assert (s' = s0 ∧ returns r ∧ ∀ p, r = inr p → p = bp + offset) as (-> & Hret' & Hp).
  { repeat case_match; injection Hr as <- <-; (split_and!; [done|done|]); intros p; try done; by intros [= <-]. }
  split_and!; [done|done|]. intros p Hrp. exists m', bp. rewrite Hbm. auto.
Qed.

(** *** Sub-buffers *)
Lemma resolve_shift ms f h off : resolve ms f h off = (λ x, (x.1, off + x.2)) <$> resolve ms f h 0.
Proof.
  revert h off. induction f as [|f IH]; intros h off; simpl; (destruct (ms !! h) as [m|]; [simpl|done]).
  - destruct (buffer m); simpl; rewrite ?Z.add_0_r; done.
  - destruct (buffer m); simpl; rewrite ?Z.add_0_r; try done. rewrite IH, (IH _ (0 + offset)).
    destruct (resolve ms f hParent 0); simpl; [|done]. do 2 f_equal. lia.
Qed.

Lemma forward_ok {A} s σ (f : Z → ur_mem_handle → Z → M A) fuel h m offset : inv s σ → mems s !! h = Some m →
  h ≤ Z.of_nat fuel → 0 ≤ offset ≤ getSize m → ∃ root mr o, resolve (mems s) fuel h 0 = Some (root, o) ∧
    mems s !! root = Some mr ∧ parent mr = None ∧ 0 ≤ o ∧ o + getSize m ≤ getSize mr ∧
    forward fuel f h offset s = f root mr (o + offset) s.
Proof.
  intros Hi. revert h m offset. induction fuel as [|fuel IH]; intros h m offset Hm Hf Ho;
    destruct (inv_handle _ _ Hi h m Hm) as (Hpos & Hsz & _ & _ & Hok); [lia|].
  simpl. unfold mbind at 1 2, M_bind, get. rewrite Hm. simpl.
  destruct (buffer m) as [d|d|p|p o'] eqn:Hb.
  1-3: exists h, m, 0; unfold parent; rewrite Hb; split_and!; try done; lia.
  unfold buffer_ok in Hok. rewrite Hb in Hok. destruct Hok as (Hp & mp & Hmp & Ho' & Hs').
  destruct (inv_handle _ _ Hi p mp Hmp) as (_ & Hszp & _).
  rewrite u64_small by (unfold in_u64; lia).
  destruct (IH p mp (offset + o') Hmp) as (root & mr & o & Hres & Hmr & Hpr & ? & ? & ->); [lia|lia|].
  exists root, mr, (o' + o). rewrite resolve_shift, Hres. simpl. split_and!; try done; try lia. f_equal. lia.
Qed.

Lemma forwarding_ok {A} s σ (f : Z → ur_mem_handle → Z → M A) h m root o offset : inv s σ → mems s !! h = Some m →
  window s h = Some (root, o) → 0 ≤ offset ≤ getSize m → ∃ mr, mems s !! root = Some mr ∧ parent mr = None ∧
    0 ≤ o ∧ o + getSize m ≤ getSize mr ∧ forwarding f h offset s = f root mr (o + offset) s.
Proof.
  intros Hi Hm Hw Ho. destruct (inv_handle _ _ Hi h m Hm) as (Hpos & _).
  destruct (forward_ok s σ f (Z.to_nat h) h m offset Hi Hm) as (root' & mr & o' & Hres & ? & ? & ? & ? & ?); [lia|done|].
  unfold window in Hw. simplify_eq. by exists mr.
Qed.
Lemma window_ok s σ h m root o : inv s σ → mems s !! h = Some m → window s h = Some (root, o) →
  ∃ mr, mems s !! root = Some mr ∧ parent mr = None ∧ 0 ≤ o ∧ o + getSize m ≤ getSize mr.
Proof.
  intros Hi Hm Hw. destruct (inv_handle _ _ Hi h m Hm) as (_ & Hsz & _).
  destruct (forwarding_ok s σ (λ _ _ _, mret ()) h m root o 0 Hi Hm Hw) as (mr & ? & ? & ? & ? & _); [lia|]. by exists mr.
Qed.
Lemma window_some s σ h m : inv s σ → mems s !! h = Some m → ∃ root o, window s h = Some (root, o).
Proof.
  intros Hi Hm. destruct (inv_handle _ _ Hi h m Hm) as (Hpos & Hsz & _).
  destruct (forward_ok s σ (λ _ _ _, mret ()) (Z.to_nat h) h m 0 Hi Hm) as (root & _ & o & ? & _); [lia|lia|]. by exists root, o.
Qed.
Lemma window_mem s h root o : window s h = Some (root, o) → ∃ m, mems s !! h = Some m.
Proof.
  unfold window. destruct (Z.to_nat h); simpl; destruct (mems s !! h) as [m|]; try done; intros _; by exists m.
Qed.

(** Where a pointer from [getDevicePtr] points. *)
Definition points_to (s : state) (root o p : Z) : Prop :=
  ∃ m b, mems s !! root = Some m ∧ base (buffer m) = Some b ∧ p = b + o.
Lemma points_to_quiet σ s s' root o p : quiet σ s s' → points_to s root o p → points_to s' root o p.
Proof.
  intros Hq (m & b & Hm & Hb & ->). destruct (q_handle _ _ _ Hq root m Hm) as (m' & ? & _ & _ & _ & Hbase).
  exists m', b. auto.
Qed.

Lemma getDevicePtr_ok s σ h m root o d offset r s' : inv s σ → mems s !! h = Some m → window s h = Some (root, o) →
  (∀ d', d = Some d' → (d' < getNumDevices)%nat) → 0 ≤ offset ≤ getSize m →
  getDevicePtr (getBuffer h) d offset s = (r, s') →
  quiet σ s s' ∧ returns r ∧ ∀ p, r = inr p → points_to s' root (o + offset) p.
Proof.
  intros Hi Hm Hw Hd Ho Hr. unfold getDevicePtr in Hr.
  match type of Hr with forwarding ?f _ _ _ = _ =>
    destruct (forwarding_ok s σ f h m root o offset Hi Hm Hw Ho) as (mr & Hmr & Hpr & Ho1 & Ho2 & Hf) end.
  rewrite Hf in Hr. clear Hf. unfold parent in Hpr. destruct (buffer mr) as [b|b|p|p o'] eqn:Hb; [| | |done].
  - injection Hr as <- <-. split_and!; [by apply l0_quiet_refl|done|]. intros p [= <-]. eexists _, _. rewrite Hb. by split_and!.
  - apply (discrete_getDevicePtr_ok s σ root mr b) in Hr as (Hq & Hret & Hp); [|done..]. split_and!; try done.
  - injection Hr as <- <-. split_and!; [by apply l0_quiet_refl|done|]. intros q [= <-]. eexists _, _. rewrite Hb. by split_and!.
Qed.

(** ** Commands *)

(** [s'] is [s] with commands appended, or all run, that touch [T] and after which
    the memory will be [mm]. *)
Record pushed (T : Z → Prop) (mm : memory) (s s' : state) : Prop := {
  p_allocations : allocations s' = allocations s;
  p_frees : invalid_frees s' = invalid_frees s;
  p_mems : mems s' = mems s;
  p_next : next_handle s' = next_handle s;
  p_eventual : eventual s' = mm;
  p_busy a : busy s' a → busy s a ∨ T a }.

Lemma pushed_refl T s s' : same s s' → pushed T (eventual s) s s'.
Proof.
  intros (Em & Ea & Ef & Eh & En & Ec). split; try done.
  - unfold eventual. by rewrite Em, Ec.
  - intros a. unfold busy. rewrite Ec. by left.
Qed.
Lemma pushed_push o w ev s : pushed (touches o) (perform o (eventual s)) s (push o w ev s).
Proof. split; try done; [apply eventual_push|]. intros a. apply busy_push. Qed.
Lemma pushed_same_l T mm s s1 s2 : same s s1 → pushed T mm s1 s2 → pushed T mm s s2.
Proof.
  intros (Em & Ea & Ef & Eh & En & Ec) []. split; try congruence. intros a Hb. destruct (p_busy0 a Hb) as [Hb'|]; [left|by right].
  unfold busy in *. by rewrite <-Ec.
Qed.
Lemma pushed_same_r T mm s s1 s2 : same s1 s2 → pushed T mm s s1 → pushed T mm s s2.
Proof.
  intros (Em & Ea & Ef & Eh & En & Ec) []. split; try congruence.
  - unfold eventual in *. by rewrite Em, Ec.
  - intros a Hb. apply p_busy0. unfold busy in *. by rewrite <-Ec.
Qed.
Lemma pushed_trans T mm mm' s s1 s2 : pushed T mm s s1 → pushed T mm' s1 s2 → pushed T mm' s s2.
Proof.
  intros [] []. split; try congruence. intros a Hb. destruct (p_busy1 a Hb) as [Hb'|]; [|by right]. by apply p_busy0.
Qed.
Lemma pushed_run_all T mm s s' : pushed T mm s s' → pushed T mm s (run_all s').
Proof. intros []. split; try done. intros a Hb. by apply not_busy_run_all in Hb. Qed.
Lemma pushed_weaken (T T' : Z → Prop) mm s s' : (∀ a, T a → T' a) → pushed T mm s s' → pushed T' mm s s'.
Proof. intros HT []. split; try done. intros a Hb. destruct (p_busy0 a Hb); auto. Qed.

Lemma same_called s : same s (called s). Proof. done. Qed.
Lemma same_waits l s : same s (set_waits l s). Proof. done. Qed.

Lemma append_cases o w ev s r s' : append o w ev s = (r, s') →
  (r = inr () ∧ s' = push o w ev (called s)) ∨ ∃ e, r = inl (Code e) ∧ s' = called s.
Proof.
  unfold append, mbind, M_bind. destruct (ze s) as [[e|[]] s1] eqn:E; apply ze_cases in E as [-> HE]; intros [= <- <-].
  - right. destruct HE as [|[e' [= ->]]]; [done|]. by exists e'.
  - by left.
Qed.
Lemma synchronize_cases s r s' : zeCommandListHostSynchronize s = (r, s') →
  (r = inr () ∧ s' = run_all (called s)) ∨ ∃ e, r = inl (Code e) ∧ s' = called s.
Proof.
  unfold zeCommandListHostSynchronize, mbind, M_bind. destruct (ze s) as [[e|[]] s1] eqn:E; apply ze_cases in E as [-> HE]; intros [= <- <-].
  - right. destruct HE as [|[e' [= ->]]]; [done|]. by exists e'.
  - by left.
Qed.
Lemma pushed_synchronize T mm s s1 r s' b : pushed T mm s s1 → when b zeCommandListHostSynchronize s1 = (r, s') →
  pushed T mm s s' ∧ returns r.
Proof.
  intros Hp Hr. destruct b; [|by injection Hr as <- <-].
  apply synchronize_cases in Hr as [[-> ->]|(e & -> & ->)]; (split; [|done]).
  - apply pushed_run_all. by apply (pushed_same_r _ _ _ s1).
  - by apply (pushed_same_r _ _ _ s1).
Qed.

Lemma inv_pushed T mm s s' σ σ' : inv s σ → pushed T mm s s' → (∀ a, T a → user a ∨ in_allocations s a) →
  (∀ h, is_Some (arrays σ' !! h) ↔ is_Some (arrays σ !! h)) → maps σ' ⊆ maps σ →
  content_ok (mems s) mm (arrays σ') → inv s' σ'.
Proof.
  intros Hi Hp HT Hd Hm Hc. apply (inv_change s s' σ σ'); try done; try apply Hp.
  - intros a Hb. destruct (p_busy _ _ _ _ Hp a Hb) as [Hb'|]; [by apply (inv_pending _ _ Hi)|by apply HT].
  - by rewrite (p_eventual _ _ _ _ Hp).
Qed.

Lemma base_accessible s σ h m b a : inv s σ → mems s !! h = Some m → base (buffer m) = Some b →
  in_range b (getSize m) a = true → user a ∨ in_allocations s a.
Proof.
  intros Hi Hm Hb Ha. destruct (inv_handle _ _ Hi h m Hm) as (_ & _ & _ & _ & Hok).
  destruct (base_claim _ _ _ _ Hok Hb) as [o Hc]. destruct (inv_claim _ _ Hi h m _ Hm Hc) as (_ & _ & Ho).
  destruct o; [right; by exists b, (getSize m)|left; by apply Ho].
Qed.

Lemma is_Some_write r off n f σ h : is_Some (arrays (write r off n f σ) !! h) ↔ is_Some (arrays σ !! h).
Proof. simpl. rewrite lookup_alter. case_decide; [subst|done]. by rewrite fmap_is_Some. Qed.
Lemma write_ext ms mm r off n f g σ : content_ok ms mm (arrays (write r off n f σ)) →
  (∀ i v, 0 ≤ i < n → g i = Some v → f i = Some v) → content_ok ms mm (arrays (write r off n g σ)).
Proof.
  intros Hc Hfg. apply (content_weaken _ _ _ _ Hc). intros h m c'. simpl. rewrite !lookup_alter. case_decide as Hh.
  - subst h. destruct (arrays σ !! r) as [c|]; [|done]. intros _ [= <-]. eexists. split; [done|]. intros i v _. unfold upd.
    destruct (in_range off n i) eqn:E; [|done]. apply Hfg. ranges. lia.
  - intros _ Hc'. by exists c'.
Qed.

(** Commands that write a range of a buffer, which is then [g] where that is defined. *)
Lemma store_ok T mm s s' σ r m b c off n g : inv s σ → pushed T mm s s' → (∀ a, T a → user a ∨ in_allocations s a) →
  mems s !! r = Some m → base (buffer m) = Some b → arrays σ !! r = Some c → 0 ≤ off → off + n ≤ getSize m →
  (∀ a, in_range (b + off) n a = false → mm a = eventual s a) →
  (∀ i v, 0 ≤ i < n → g i = Some v → mm (b + off + i) = v) → inv s' (write r off n g σ).
Proof.
  intros Hi Hp HT Hm Hb Hc Hoff Hn Hout Hin. apply (inv_pushed T mm s s' σ); try done.
  - intros h. apply is_Some_write.
  - apply (write_ext _ _ _ _ _ (λ i, Some (mm (b + off + i)))).
    + by apply (content_write s σ r m c b).
    + intros i v Hi' Hg. by rewrite (Hin i v).
Qed.
(** Commands that write where nothing is kept. *)
Lemma nothing_ok T mm s s' σ : inv s σ → pushed T mm s s' → (∀ a, T a → user a ∨ in_allocations s a) →
  (∀ a, mm a = eventual s a ∨ holds_nothing s σ a) → inv s' σ.
Proof. intros Hi Hp HT Hmm. apply (inv_pushed T mm s s' σ); try done. apply (content_frame s); [apply Hi|done]. Qed.

(** *** Copies *)
Inductive place := InBuffer (root off : Z) | InHost (p : Z).
Definition points (s : state) (pl : place) (p : Z) : Prop :=
  match pl with InBuffer root off => points_to s root off p | InHost p' => p = p' end.
Definition ref_at (s : state) (r : buffer_ref) (off n : Z) (pl : place) : Prop :=
  match r, pl with
  | getBuffer h, InBuffer root x => ∃ m o, mems s !! h = Some m ∧ window s h = Some (root, o) ∧ x = o + off ∧
      0 ≤ off ∧ 0 ≤ n ∧ off + n ≤ getSize m
  | ur_usm_handle p, InHost p' => p' = p + off ∧ accessible user s p' n
  | _, _ => False
  end.
Lemma ref_at_quiet σ s s' r off n pl : quiet σ s s' → ref_at s r off n pl → ref_at s' r off n pl.
Proof.
  intros Hq. destruct r as [h|p], pl as [root x|p']; simpl; try done.
  - intros (m & o & Hm & Hw & Hrest). destruct (q_handle _ _ _ Hq h m Hm) as (m' & Hm' & Hsz & _).
    exists m', o. by rewrite (quiet_window _ _ _ h Hq), Hsz.
  - intros [-> Ha]. split; [done|]. by eapply quiet_accessible.
Qed.
Lemma ref_ptr_ok s σ r pl d off n res s' : inv s σ → ref_at s r off n pl → (d < getNumDevices)%nat →
  getDevicePtr r (Some d) off s = (res, s') →
  quiet σ s s' ∧ returns res ∧ ∀ p, res = inr p → points s' pl p.
Proof.
  intros Hi Hat Hd Hr. destruct r as [h|p], pl as [root x|p']; try done.
  - destruct Hat as (m & o & Hm & Hw & -> & Ho). apply (getDevicePtr_ok s σ h m root o) in Hr; try done; [by intros ? [= <-]|lia].
  - destruct Hat as [-> _]. injection Hr as <- <-. split_and!; [by apply l0_quiet_refl|done|]. by intros q [= <-].
Qed.
Lemma place_accessible s σ r off n pl p a : inv s σ → ref_at s r off n pl → points s pl p → in_range p n a = true →
  user a ∨ in_allocations s a.
Proof.
  intros Hi Hat Hpt Ha. destruct r as [h|q], pl as [root x|p']; try done.
  - destruct Hat as (m & o & Hm & Hw & -> & ? & ? & ?), Hpt as (mr & b & Hmr & Hb & ->).
    destruct (window_ok _ _ _ _ _ _ Hi Hm Hw) as (mr' & ? & _ & ? & ?). simplify_eq.
    apply (base_accessible s σ root mr b); try done. ranges. lia.
  - simpl in Hpt. subst p'. by apply Hat.
Qed.

Lemma generic_copy_ok s σ q src dst blocking so d n ev pls pld r s' : inv s σ → (q < getNumDevices)%nat →
  ref_at s src so n pls → ref_at s dst d n pld →
  appendGenericCopyUnlocked q src dst blocking so d n ev s = (r, s') → returns r ∧ ∃ s1, quiet σ s s1 ∧
    ((ok r = false ∧ s' = s1) ∨ ∃ ps pd, points s1 pls ps ∧ points s1 pld pd ∧
      ref_at s1 src so n pls ∧ ref_at s1 dst d n pld ∧
      pushed (touches (MemoryCopy pd ps n)) (memcpy pd ps n (eventual s)) s1 s' ∧ (blocking = false → ok r = true)).
Proof.
  intros Hi Hq Hsrc Hdst Hr. unfold appendGenericCopyUnlocked in Hr.
  step Hr; apply (ref_ptr_ok s σ src pls q so n) in E as (Hq1 & Hret1 & Hps); try done.
  2: { split; [intros [= ->]; by apply Hret1|]. exists s'. split; [done|by left]. }
  specialize (Hps a eq_refl). pose proof (ref_at_quiet _ _ _ _ _ _ _ Hq1 Hdst) as Hdst1.
  step Hr; apply (ref_ptr_ok s0 σ dst pld q d n) in E as (Hq2 & Hret2 & Hpd); try done; try apply Hq1.
  2: { split; [intros [= ->]; by apply Hret2|]. exists s'. split; [by eapply l0_quiet_trans|by left]. }
  specialize (Hpd a0 eq_refl). pose proof (l0_quiet_trans _ _ _ _ Hq1 Hq2) as Hq12.
  step Hr; [|done]. injection E as <- <-.
  step Hr; apply append_cases in E as [[? ->]|(e' & ? & ->)]; simplify_eq.
  - assert (pushed (touches (MemoryCopy a0 a n)) (memcpy a0 a n (eventual s)) s1 (push (MemoryCopy a0 a n) (waitListView s1) ev (called s1))) as Hp.
    { apply (pushed_same_l _ _ _ (called s1)); [done|]. rewrite <-(quiet_eventual _ _ _ Hq12).
      exact (pushed_push (MemoryCopy a0 a n) _ ev (called s1)). }
    destruct (pushed_synchronize _ _ _ _ _ _ _ Hp Hr) as [Hp' Hret]. split; [done|]. exists s1. split; [done|]. right.
    exists a, a0. split_and!; try done.
    + destruct pls; [|done]. by apply (points_to_quiet σ s0).
    + by apply (ref_at_quiet σ s s1).
    + by apply (ref_at_quiet σ s s1).
    + intros ->. by injection Hr as <- <-.
  - split; [done|]. exists (called s1). split; [|by left]. eapply l0_quiet_trans; [done|]. apply l0_called_quiet, Hq2.
Qed.
End inv.
End L0Facts.
