(* ===== verification/L0MemoryCommands.v ===== *)
(** * The buffer commands of the Level Zero v2 adapter: reads, writes, copies,
    fills, maps, unmaps and kernels *)
From stdpp Require Import base numbers list gmap relations.
From S2P Require Import Prelude UrUtil FlatMemory L0Memory L0MemoryProofs.
Import Util.
Local Open Scope Z_scope.

Module L0Commands.
Import L0Mem L0Spec L0Facts.

Section commands.
Context `{LevelZero, L0Context} (user : Z → Prop) (Hdriver : driver_ok user).
Local Abbreviation inv := (inv user).
Local Abbreviation quiet := (quiet user).

Lemma with_waits_eq {A} w (m : M A) s : with_waits w m s = m (set_waits w s).
Proof. done. Qed.
Lemma get_some h s m r s' : get h s = (r, s') → mems s !! h = Some m → r = inr m ∧ s' = s.
Proof. unfold get. by intros Hg Hm; rewrite Hm in Hg; injection Hg as <- <-. Qed.
Lemma inv_set_waits w s σ : inv s σ → inv (set_waits w s) σ.
Proof. intros Hi. by apply (inv_same user s). Qed.

(** What is at a pointer into a buffer. *)
Lemma place_content s σ h off n root x p c i v : inv s σ → ref_at user s (getBuffer h) off n (InBuffer root x) →
  points s (InBuffer root x) p → arrays σ !! root = Some c → 0 ≤ i < n → c (x + i) = Some v → eventual s (p + i) = v.
Proof.
  intros Hi (m & o & Hm & Hw & -> & ? & ? & ?) (mr & b & Hmr & Hb & ->) Hc Hi' Hv.
  destruct (window_ok user _ _ _ _ _ _ Hi Hm Hw) as (mr' & ? & _ & ? & ?). simplify_eq.
  destruct (inv_content _ _ _ Hi root mr c (o + off + i) v Hmr Hc) as (b' & ? & Hev); [lia|done|].
  simplify_eq. f_equal. lia.
Qed.
Lemma l0_inv_lost s σ root x n g : inv s σ → (∀ i, g i = None) → inv s (write root x n g σ).
Proof.
  intros Hi Hg. apply (inv_change user s s σ); try done; try apply Hi.
  - intros h. apply is_Some_write.
  - apply (write_ext _ _ _ _ _ (λ _, None)); [apply content_lost, Hi|]. intros i v _ Hv. by rewrite Hg in Hv.
Qed.

(** The root of a handle and its array. *)
Lemma root_array s σ h m root o : inv s σ → mems s !! h = Some m → window s h = Some (root, o) →
  ∃ c, arrays σ !! root = Some c.
Proof.
  intros Hi Hm Hw. destruct (window_ok user s σ h m root o Hi Hm Hw) as (mr & Hmr & Hp & _).
  by apply (l0_inv_lookup user s σ root mr).
Qed.

Lemma assert_size s m off n r s' : fits off n → in_u64 (getSize m) →
  UR_ASSERT (u64 (off + n) <=? getSize m) UR_RESULT_ERROR_INVALID_SIZE s = (r, s') →
  s' = s ∧ returns r ∧ (r = inr () → 0 ≤ off ∧ 0 ≤ n ∧ off + n ≤ getSize m).
Proof.
  intros (? & ? & ?) Hs Hr. apply l0_assert_inv in Hr as [-> Hr]. rewrite u64_small in Hr by (unfold in_u64; lia).
  destruct (Z.leb_spec (off + n) (getSize m)); subst; split_and!; try done; by intros [=].
Qed.

Lemma size_u64 s σ h m : inv s σ → mems s !! h = Some m → in_u64 (getSize m).
Proof. intros Hi Hm. destruct (inv_handle _ _ _ Hi h m Hm) as (_ & ? & _). unfold in_u64. lia. Qed.

(** *** Reads *)
Lemma l0_read_ok s σ q h root o blocking off n dst waits ev r s' : inv s σ → (q < getNumDevices)%nat →
  window s h = Some (root, o) → fits off n → host_buffer user s σ dst n →
  appendMemBufferRead q h blocking off n dst waits ev s = (r, s') →
  returns r ∧ inv s' σ ∧
  (ok r = true → ∃ c, arrays σ !! root = Some c ∧ agrees c (o + off) n (λ i, eventual s' (dst + i))).
Proof.
  intros Hi Hq Hw Hf Hh Hr. destruct (window_mem _ _ _ _ Hw) as [m Hm].
  destruct (root_array _ _ _ _ _ _ Hi Hm Hw) as [c Hc].
  unfold appendMemBufferRead in Hr. rewrite with_waits_eq in Hr. set (s0 := set_waits waits s) in *.
  assert (inv s0 σ) as Hi0 by by apply inv_set_waits.
  step Hr; destruct (get_some h s0 m _ _ E Hm) as [[=] ->]; subst; clear E.
  step Hr; apply assert_size in E as (-> & Hret & Hb); try done; try by eapply size_u64.
  destruct a. destruct (Hb eq_refl) as (? & ? & ?).
  assert (host_buffer user s0 σ dst n) as [Hacc Hno] by done.
  apply (generic_copy_ok user Hdriver s0 σ q _ _ _ _ _ _ _ (InBuffer root (o + off)) (InHost dst)) in Hr as (Hret' & s1 & Hq1 & Hcase);
    [|done|done|by exists m, o; split_and!|split; [lia|done]].
  split; [done|]. destruct Hcase as [[Hok ->]|(ps & pd & Hps & Hpd & Hsat & Hdat & Hp & _)].
  { split; [apply Hq1|]. by rewrite Hok. }
  cbn in Hpd. subst pd. pose proof (q_inv _ _ _ _ Hq1) as Hi1.
  pose proof (quiet_eventual _ _ _ _ Hq1) as Ev1. split.
  - apply (nothing_ok user _ _ s1 s' σ Hi1 Hp).
    + intros a [Ha|Ha]; [by apply (quiet_accessible user _ _ _ _ _ Hq1 Hacc)|].
      by apply (place_accessible user s1 σ (getBuffer h) off n (InBuffer root (o + off)) ps).
    + intros a. destruct (in_range dst n a) eqn:Ea.
      * right. apply (quiet_holds_nothing user σ s0); try done. by apply Hno.
      * left. rewrite Ev1. by apply memcpy_outside.
  - intros _. exists c. split; [done|]. intros i v Hi' Hv. rewrite (p_eventual _ _ _ _ Hp), memcpy_inside, <-Ev1 by lia.
    by apply (place_content s1 σ h off n root (o + off) ps c).
Qed.

(** *** Writes and copies *)
Lemma copy_in_ok s1 s' σ dst off n root x g ps pd : inv s1 σ → ref_at user s1 dst off n (InBuffer root x) →
  points s1 (InBuffer root x) pd →
  pushed (touches (MemoryCopy pd ps n)) (memcpy pd ps n (eventual s1)) s1 s' → accessible user s1 ps n →
  (∀ i v, 0 ≤ i < n → g i = Some v → eventual s1 (ps + i) = v) → inv s' (write root x n g σ).
Proof.
  intros Hi Hat Hpt Hp Hacc Hg. pose proof Hpt as (mr & b & Hmr & Hb & ->). destruct dst as [h|]; [|done].
  destruct Hat as (m & o & Hm & Hw & -> & ? & ? & ?).
  destruct (window_ok user _ _ _ _ _ _ Hi Hm Hw) as (mr' & ? & Hpr & ? & ?). simplify_eq.
  destruct (l0_inv_lookup user _ _ _ _ Hi Hmr Hpr) as [c Hc].
  apply (store_ok user _ _ s1 s' σ root mr b c (o + off) n g Hi Hp); try done; try lia.
  - intros a [Ha|Ha]; [|by apply Hacc]. apply (base_accessible user s1 σ root mr b a Hi Hmr Hb). ranges. lia.
  - intros a Ha. by apply memcpy_outside.
  - intros i v Hi' Hgi. rewrite memcpy_inside by lia. by apply Hg.
Qed.

Lemma l0_write_ok s σ q h m root o blocking off n src waits ev r s' : inv s σ → (q < getNumDevices)%nat →
  mems s !! h = Some m → window s h = Some (root, o) → fits off n → off + n ≤ getSize m → accessible user s src n →
  appendMemBufferWrite q h blocking off n src waits ev s = (r, s') →
  returns r ∧ ∀ g, (∀ i v, ok r = true → 0 ≤ i < n → g i = Some v → eventual s (src + i) = v) →
    (∀ i, ok r = false → g i = None) → inv s' (write root (o + off) n g σ).
Proof.
  intros Hi Hq Hm Hw Hf Hn Hacc Hr. unfold appendMemBufferWrite in Hr. rewrite with_waits_eq in Hr.
  set (s0 := set_waits waits s) in *. assert (inv s0 σ) as Hi0 by by apply inv_set_waits.
  step Hr; destruct (get_some h s0 m _ _ E Hm) as [[=] ->]; subst; clear E.
  step Hr; apply assert_size in E as (-> & Hret & Hb); try done; try by eapply size_u64.
  2: { split; [done|]. intros g _ Hg. apply l0_inv_lost; [done|]. intros i. by apply Hg. }
  destruct a. destruct (Hb eq_refl) as (? & ? & ?).
  apply (generic_copy_ok user Hdriver s0 σ q _ _ _ _ _ _ _ (InHost src) (InBuffer root (o + off))) in Hr as (Hret' & s1 & Hq1 & Hcase);
    [|done|done|split; [lia|done]|by exists m, o; split_and!].
  split; [done|]. intros g Hg Hg'. pose proof (q_inv _ _ _ _ Hq1) as Hi1. destruct Hcase as [[Hok ->]|(ps & pd & Hps & Hpd & _ & Hdat & Hp & _)].
  { apply l0_inv_lost; [done|]. intros i. by apply Hg'. }
  cbn in Hps. subst ps. apply (copy_in_ok s1 s' σ (getBuffer h) off n root (o + off) g src pd); try done.
  - by rewrite (quiet_eventual _ _ _ _ Hq1).
  - by apply (quiet_accessible user _ _ _ _ _ Hq1).
  - intros i v Hi' Hgi. rewrite (quiet_eventual _ _ _ _ Hq1). destruct (ok r) eqn:E; [by apply Hg|]. by rewrite Hg' in Hgi.
Qed.
Lemma getMutex_ok s σ h m root o r s' : inv s σ → mems s !! h = Some m → window s h = Some (root, o) →
  getMutex h s = (r, s') → r = inr root ∧ s' = s.
Proof.
  intros Hi Hm Hw Hr. destruct (inv_handle _ _ _ Hi h m Hm) as (_ & Hsz & _). unfold getMutex in Hr.
  destruct (forwarding_ok user s σ (λ h _ _, mret h) h m root o 0 Hi Hm Hw) as (mr & _ & _ & _ & _ & Hf); [lia|].
  rewrite Hf in Hr. by injection Hr as <- <-.
Qed.

(** A copy within one buffer waits for itself; any other returns. *)
Lemma l0_copy_ok s σ q h1 h2 root1 root2 o1 o2 off1 off2 n waits ev r s' : inv s σ → (q < getNumDevices)%nat →
  window s h1 = Some (root1, o1) → window s h2 = Some (root2, o2) → fits off1 n → fits off2 n →
  appendMemBufferCopy q h1 h2 off1 off2 n waits ev s = (r, s') →
  (root1 ≠ root2 ∨ SingleThreadMode = true → returns r) ∧ ∃ c1 c2, arrays σ !! root1 = Some c1 ∧ arrays σ !! root2 = Some c2 ∧
    inv s' (if ok r then write root2 (o2 + off2) n (λ i, c1 (o1 + off1 + i)) σ else σ).
Proof.
  intros Hi Hq Hw1 Hw2 Hf1 Hf2 Hr. destruct (window_mem _ _ _ _ Hw1) as [m1 Hm1], (window_mem _ _ _ _ Hw2) as [m2 Hm2].
  destruct (root_array _ _ _ _ _ _ Hi Hm1 Hw1) as [c1 Hc1], (root_array _ _ _ _ _ _ Hi Hm2 Hw2) as [c2 Hc2].
  unfold appendMemBufferCopy in Hr. rewrite with_waits_eq in Hr.
  set (s0 := set_waits waits s) in *. assert (inv s0 σ) as Hi0 by by apply inv_set_waits.
  cut ((root1 ≠ root2 ∨ SingleThreadMode = true → returns r) ∧
    inv s' (if ok r then write root2 (o2 + off2) n (λ i, c1 (o1 + off1 + i)) σ else σ)).
  { intros [? ?]. split; [done|]. by exists c1, c2. }
  step Hr; destruct (get_some h1 s0 m1 _ _ E Hm1) as [[=] ->]; subst; clear E.
  step Hr; destruct (get_some h2 s0 m2 _ _ E Hm2) as [[=] ->]; subst; clear E.
  step Hr; apply assert_size in E as (-> & Hret1 & Hb1); try done; try by eapply (size_u64 s σ h1).
  step Hr; apply assert_size in E as (-> & Hret2 & Hb2); try done; try by eapply (size_u64 s σ h2).
  destruct a, a0. destruct (Hb1 eq_refl) as (? & ? & ?), (Hb2 eq_refl) as (? & ? & ?).
  step Hr; destruct (getMutex_ok s0 σ h1 m1 root1 o1 _ _ Hi0 Hm1 Hw1 E) as [[=] ->]; subst; clear E.
  step Hr; destruct (getMutex_ok s0 σ h2 m2 root2 o2 _ _ Hi0 Hm2 Hw2 E) as [[=] ->]; subst; clear E.
  unfold scoped_lock2 in Hr. destruct (Z.eqb_spec root1 root2) as [Er|Er], SingleThreadMode; simpl in Hr.
  2: { injection Hr as <- <-. split; [by intros []|done]. }
  all: apply (generic_copy_ok user Hdriver s0 σ q _ _ _ _ _ _ _ (InBuffer root1 (o1 + off1)) (InBuffer root2 (o2 + off2)))
      in Hr as (Hret' & s1 & Hq1 & Hcase); [|done|done|by exists m1, o1; split_and!|by exists m2, o2; split_and!].
  all: split; [done|]; pose proof (q_inv _ _ _ _ Hq1) as Hi1.
  all: destruct Hcase as [[-> ->]|(ps & pd & Hps & Hpd & Hsat & Hdat & Hp & ->)]; [apply Hq1| |done].
  all: apply (copy_in_ok s1 s' σ (getBuffer h2) off2 n root2 (o2 + off2) _ ps pd); try done;
    [by rewrite (quiet_eventual _ _ _ _ Hq1)| |intros i v ??; by apply (place_content s1 σ h1 off1 n root1 (o1 + off1) ps c1)].
  all: intros a Ha; by apply (place_accessible user s1 σ (getBuffer h1) off1 n (InBuffer root1 (o1 + off1)) ps).
Qed.

(** *** Fills *)
Lemma same_sym s s' : same s s' → same s' s.
Proof. intros (? & ? & ? & ? & ? & ?). by split_and!. Qed.

Lemma copy_steps_ok N ps dst pat ev c k s r s' : 0 < ps → 0 ≤ k → 0 ≤ c → k + c = N →
  (∀ a, in_range dst (N * ps) a = true → in_range pat ps a = false) →
  forM (seqZ k c) (λ step,
    w ← gets waitListView;
    _ ← append (MemoryCopy (dst + step * ps) pat ps) w (if step =? N - 1 then ev else None);
    modify (set_waits [])) s = (r, s') →
  returns r ∧ ∃ mm, pushed (λ a, in_range dst (N * ps) a = true ∨ in_range pat ps a = true) mm s s' ∧
    (∀ a, in_range (dst + k * ps) (c * ps) a = false → mm a = eventual s a) ∧
    (r = inr () → ∀ i, 0 ≤ i < c * ps → mm (dst + k * ps + i) = eventual s (pat + i `mod` ps)).
Proof.
  intros Hps Hk Hc HN Hdis. revert k s Hk HN. pattern c. apply natlike_ind; [| |done]; clear c Hc.
  { intros k s _ _ [= <- <-]. split; [done|]. exists (eventual s). split_and!; [by apply pushed_refl|done|lia]. }
  intros c Hc IH k s Hk HN. rewrite seqZ_cons by lia. replace (Z.pred (Z.succ c)) with c by lia.
  cbn [forM]. intros Hr. step Hr.
  - substep E. injection E0 as <- <-. substep E. apply append_cases in E0 as [[_ ->]|(e & ? & _)]; [|done].
    injection E as <- <-. set (o := MemoryCopy (dst + k * ps) pat ps) in *.
    set (s1 := set_waits [] (push o _ _ _)) in *.
    assert (pushed (touches o) (perform o (eventual s)) s s1) as Hp.
    { apply (pushed_same_l _ _ s (called s)); [done|]. apply (pushed_same_r _ _ _ (push o (waitListView s) (if k =? N - 1 then ev else None) (called s))); [done|].
      apply (pushed_push o _ _ (called s)). }
    apply IH in Hr as (Hret & mm & Hp' & Hout & Hin); [|lia..]. split; [done|]. exists mm.
    rewrite (p_eventual _ _ _ _ Hp) in Hout, Hin. split_and!.
    + eapply pushed_trans; [|exact Hp']. eapply pushed_weaken; [|exact Hp]. intros a [Ha|Ha]; [left|by right]. ranges. nia.
    + intros a Ha. rewrite Hout by (ranges; nia). apply memcpy_outside. ranges. nia.
    + intros -> i Hi. destruct (decide (i < ps)) as [Hlt|Hge].
      * rewrite Hout by (ranges; nia). cbn [perform o]. rewrite memcpy_inside, Z.mod_small by lia. done.
      * replace (dst + k * ps + i) with (dst + (k + 1) * ps + (i - ps)) by lia.
        rewrite Hin by (done || lia). rewrite <-(Z_mod_plus_full (i - ps) 1 ps). replace (i - ps + 1 * ps) with i by lia.
        apply memcpy_outside. assert (0 ≤ i `mod` ps < ps) by (apply Z.mod_pos_bound; lia).
        apply not_true_iff_false. intros Hin'.
        assert (in_range pat ps (pat + i `mod` ps) = false) as Hf by (apply Hdis; ranges; nia). ranges. lia.
  - step E; [|done]. injection E0 as <- <-. step E; [done|]. apply append_cases in E0 as [[? _]|(e' & ? & ->)]; simplify_eq.
    split; [done|]. exists (eventual s). split_and!; [by apply pushed_refl|done|done].
Qed.

Lemma pattern_byte (mm : memory) p ps i : 0 ≤ i < ps → nth (Z.to_nat i) ((λ j, mm (p + j)) <$> seqZ 0 ps) 0 = mm (p + i).
Proof.
  intros Hi. apply nth_lookup_Some. rewrite list_lookup_fmap, lookup_seqZ_lt by lia. simpl. do 2 f_equal. lia.
Qed.

(** The commands of a fill, by either way. *)
Lemma fill_commands_ok dst pat ps n ev s r s' : 0 < ps → 0 ≤ n → n `mod` ps = 0 → n `div` ps < 2 ^ 32 →
  (∀ a, in_range dst n a = true → in_range pat ps a = false) →
  (∀ i, 0 ≤ i < ps → eventual s (pat + i) = mem s (pat + i)) →
  (if isPowerOf2 ps then
     w ← gets waitListView;
     mm ← gets mem;
     append (MemoryFill dst ((λ i, mm (pat + i)) <$> seqZ 0 ps) n) w ev
   else copy_steps (u32 (n `div` ps)) ps dst pat ev) s = (r, s') →
  returns r ∧ ∃ mm, pushed (λ a, in_range dst n a = true ∨ in_range pat ps a = true) mm s s' ∧
    (∀ a, in_range dst n a = false → mm a = eventual s a) ∧
    (r = inr () → ∀ i, 0 ≤ i < n → mm (dst + i) = mem s (pat + i `mod` ps)).
Proof.
  intros Hps Hn Hmod Hdiv Hdis Hpat Hr. assert (n = (n `div` ps) * ps) as En by (rewrite (Z_div_mod_eq_full n ps) at 1; lia).
  assert (0 ≤ n `div` ps) as Hd by (by apply Z.div_pos).
  assert (∀ i, 0 ≤ i `mod` ps < ps) as Hmp by (intros i; apply Z.mod_pos_bound; lia).
  destruct (isPowerOf2 ps).
  - step Hr; [|done]. injection E as <- <-. step Hr; [|done]. injection E as <- <-.
    apply append_cases in Hr as [[-> ->]|(e & -> & ->)]; (split; [done|]).
    + set (o := MemoryFill _ _ _). exists (perform o (eventual s)). split_and!.
      * apply (pushed_same_l _ _ s (called s)); [done|].
        apply (pushed_weaken (touches o)); [intros a Ha; by left|]. apply (pushed_push o _ _ (called s)).
      * intros a Ha. cbn [perform o]. by rewrite Ha.
      * intros _ i Hi. cbn [perform o]. rewrite (proj2 (in_range_true _ _ _)) by lia.
        rewrite length_fmap, length_seqZ, Z2Nat.id by lia. replace (dst + i - dst) with i by lia. by apply pattern_byte.
    + exists (eventual s). split_and!; [by apply pushed_refl|done|done].
  - unfold copy_steps in Hr. rewrite u32_small in Hr by (unfold in_u32; lia).
    apply copy_steps_ok in Hr as (Hret & mm & Hp & Hout & Hin); [|lia..|by rewrite <-En]. rewrite <-En in *.
    split; [done|]. exists mm. split_and!; [done| |].
    + intros a Ha. apply Hout. ranges. lia.
    + intros Hok i Hi. rewrite <-Hpat by done. rewrite <-(Hin Hok i Hi). f_equal. lia.
Qed.

Lemma l0_fill_ok s σ q h m root o pat ps off n waits ev r s' : inv s σ → (q < getNumDevices)%nat → mems s !! h = Some m →
  window s h = Some (root, o) → fits off n → off + n ≤ getSize m → 0 < ps → n `mod` ps = 0 → n `div` ps < 2 ^ 32 →
  pattern_at user s pat ps → appendMemBufferFill q h pat ps off n waits ev s = (r, s') →
  returns r ∧ ∀ g, (∀ i v, ok r = true → 0 ≤ i < n → g i = Some v → mem s (pat + i `mod` ps) = v) →
    (∀ i, ok r = false → g i = None) → inv s' (write root (o + off) n g σ).
Proof.
  intros Hi Hq Hm Hw Hf Hn Hps Hmod Hdiv [Hacc Hpat] Hr. unfold appendMemBufferFill in Hr. rewrite with_waits_eq in Hr.
  set (s0 := set_waits waits s) in *. assert (inv s0 σ) as Hi0 by by apply inv_set_waits.
  step Hr; destruct (get_some h s0 m _ _ E Hm) as [[=] ->]; subst; clear E.
  step Hr; apply assert_size in E as (-> & Hret & Hb); try done; try by eapply size_u64.
  2: { split; [done|]. intros g _ Hg. apply l0_inv_lost; [done|]. intros i. by apply Hg. }
  destruct a. destruct (Hb eq_refl) as (? & ? & ?). unfold appendGenericFillUnlocked in Hr.
  step Hr; apply (getDevicePtr_ok user Hdriver s0 σ h m root o) in E as (Hq1 & Hret1 & Hpt); try done; try lia; try (by intros ? [= <-]).
  2: { split; [intros [= ->]; by apply Hret1|]. intros g _ Hg. apply l0_inv_lost; [apply Hq1|]. intros i. by apply Hg. }
  destruct (Hpt a eq_refl) as (mr & b & Hmr & Hbm & ->). pose proof (q_inv _ _ _ _ Hq1) as Hi1. clear Hpt.
  destruct (window_ok user _ _ _ _ _ _ Hi Hm Hw) as (mr0 & Hmr0 & Hpr & ? & ?).
  destruct (q_handle _ _ _ _ Hq1 root mr0 Hmr0) as (mr1 & Hmr1 & Hsz & _ & _ & _). simplify_eq.
  assert (parent mr = None) as Hpr1 by by rewrite (quiet_parent user σ s0 s1 root mr0 mr Hq1 Hmr0 Hmr).
  destruct (l0_inv_lookup user s1 σ root mr Hi1 Hmr Hpr1) as [c Hc].
  assert (b + (o + off) = b + o + off) as Eb by lia.
  apply fill_commands_ok in Hr as (Hret2 & mm & Hp & Hout & Hin); try done.
  - split; [done|]. intros g Hg Hg'. apply (store_ok user _ mm s1 s' σ root mr b c (o + off) n g Hi1 Hp); try done; try lia.
    + intros a [Ha|Ha]; [apply (base_accessible user s1 σ root mr b a Hi1 Hmr Hbm); ranges; lia|].
      by apply (quiet_accessible user _ _ _ _ _ Hq1 Hacc).
    + intros i v Hi' Hgi. destruct (ok r) eqn:Eo; [|by rewrite Hg' in Hgi]. destruct r as [|[]]; [done|].
      rewrite (Hin eq_refl i Hi'), (q_mem _ _ _ _ Hq1). by apply (Hg i v).
  - intros a Ha. apply not_true_iff_false. intros Ha'. destruct (Hpat a Ha') as [_ Hno].
    apply (quiet_outside user σ s0 s1 root mr b a); try done; [ranges; lia|by apply Hacc].
  - intros i Hi'. rewrite (quiet_eventual _ _ _ _ Hq1), (q_mem _ _ _ _ Hq1). apply Hpat. ranges. lia.
Qed.

(** *** Maps *)
Lemma app_middle {A} (l1 l2 d l3 : list A) : l1 ++ (l2 ++ d) ++ l3 ≡ₚ d ++ l1 ++ l2 ++ l3.
Proof.
  rewrite <-app_assoc, (Permutation_app_swap_app l2 d l3), (Permutation_app_swap_app l1 d (l2 ++ l3)). done.
Qed.

Definition with_descs (l : list host_allocation_desc_t) (b : ur_mem_buffer) : ur_mem_buffer :=
  match b with
  | Integrated b => Integrated {| integrated_ptr := integrated_ptr b; integrated_writeBackPtr := integrated_writeBackPtr b;
                                  mappedRegions := l |}
  | Discrete b => Discrete (with_hostAllocations l b)
  | b => b
  end.
Lemma claims_with_descs m : ∃ l1 l3, (∀ l, claims (with_buffer (with_descs l (buffer m)) m) =
  match buffer m with Discrete _ => l1 ++ (l ≫= desc_claim) ++ l3 | _ => claims m end) ∧
  claims m = match buffer m with Discrete b => l1 ++ (hostAllocations b ≫= desc_claim) ++ l3 | _ => claims m end.
Proof.
  unfold claims. simpl. destruct (buffer m) as [b|b|p|p o]; simpl.
  1,3,4: by exists [], [].
  by exists (ptr_claim (active_ptr b) (getSize m)), (ptr_claim (mapToPtr b) (getSize m) ++ host_claim (discrete_writeBackPtr b) (getSize m)).
Qed.

(** A range is noted as mapped, in memory that is the host's or new from the pool. *)
Lemma inv_add_desc s σ h m x : inv s σ → mems s !! h = Some m → desc_ok user (getSize m) x →
  match buffer m with
  | Discrete _ => ptr_deleter (desc_ptr x) = PoolFree → (ptr_get (desc_ptr x), desc_size x) ∈ allocations s ∧
      ∀ h2 m2 x2, mems s !! h2 = Some m2 → x2 ∈ claims m2 → ¬ overlap (ptr_get (desc_ptr x), desc_size x) x2.1
  | Integrated _ => ptr_deleter (desc_ptr x) = Nothing
  | _ => False
  end →
  inv (set_mems <[h := with_buffer (with_descs (descs (buffer m) ++ [x]) (buffer m)) m]> s) σ.
Proof.
  intros Hi Hm Hx Hcase. destruct (inv_handle _ _ _ Hi h m Hm) as (_ & Hsz & _ & _ & Hok).
  pose proof Hx as (_ & Hn & _ & Hp & _).
  assert (∀ y, y ∈ desc_claim x → y = (ptr_get (desc_ptr x), desc_size x, true) ∧ ptr_deleter (desc_ptr x) = PoolFree) as Hdc
    by (intros y (? & _ & ->)%elem_of_desc_claim; done).
  destruct (claims_with_descs m) as (l1 & l3 & Ecl & Ecl0).
  assert (claims (with_buffer (with_descs (descs (buffer m) ++ [x]) (buffer m)) m) ≡ₚ
    match buffer m with Discrete _ => desc_claim x | _ => [] end ++ claims m) as Hperm.
  { rewrite Ecl. destruct (buffer m) as [b|b|p|p o]; try done. rewrite Ecl0. simpl descs.
    rewrite bind_app. simpl. rewrite app_nil_r. apply app_middle. }
  apply (inv_set_handle user s σ h m _ (λ y, y ∈ match buffer m with Discrete _ => desc_claim x | _ => [] end)); try done.
  - unfold link. simpl. by destruct (buffer m).
  - unfold buffer_ok in *. simpl. destruct (buffer m) as [b|b|p|p o]; simpl in *; try done.
    + destruct Hok as (? & ? & ?). split_and!; [done| |]; (apply Forall_app_2; [done|by apply Forall_singleton]).
    + destruct Hok as (? & ? & ?). split_and!; [done| |done]; (apply Forall_app_2; [done|by apply Forall_singleton]).
  - rewrite Hperm. apply NoDup_app. split_and!; [| |by apply (inv_nodup _ _ _ Hi h)].
    + destruct (buffer m); try apply NoDup_nil_2. unfold desc_claim. case_bool_decide; [|apply NoDup_nil_2].
      unfold ptr_claim. case_match; [apply NoDup_nil_2|apply NoDup_singleton].
    + intros y Hy Hy'. destruct (buffer m) as [b|b|p|p o] eqn:Hb; try by apply not_elem_of_nil in Hy.
      destruct (Hdc y Hy) as [-> Hpf]. destruct (Hcase Hpf) as [_ Hno]. apply (Hno h m _ Hm Hy').
      exists (ptr_get (desc_ptr x)). simpl. split; ranges; lia.
  - intros y. rewrite Hperm. intros [|]%elem_of_app; auto.
  - intros y z Hy Hz. destruct (buffer m) as [b|b|p|p o]; try by apply not_elem_of_nil in Hy.
    destruct (Hdc y Hy) as [-> _]. by destruct (Hdc z Hz) as [-> _].
  - intros y Hy. destruct (buffer m) as [b|b|p|p o]; try by apply not_elem_of_nil in Hy.
    destruct (Hdc y Hy) as [-> Hpf]. destruct (Hcase Hpf) as [Hin Hno]. split; [by split_and!|done].
  - intros b. simpl. by destruct (buffer m).
  - intros p off n fl _. simpl. destruct (buffer m) as [b|b|q|q o]; simpl; try done.
    + case_match; [done|]. intros (y & Hf & Hy). exists y. split; [|done].
      destruct (find_desc p (mappedRegions b)) as [[i z]|] eqn:E; [|done]. unfold find_desc. by rewrite (list_find_app_l _ _ _ i z).
    + intros (y & Hf & Hy). exists y. split; [|done].
      destruct (find_desc p (hostAllocations b)) as [[i z]|] eqn:E; [|done]. unfold find_desc. by rewrite (list_find_app_l _ _ _ i z).
Qed.

Lemma find_new_desc p l x : ptr_get (desc_ptr x) = p → (∀ y, y ∈ l → ptr_get (desc_ptr y) ≠ p) →
  snd <$> find_desc p (l ++ [x]) = Some x.
Proof.
  intros Hx Hl. unfold find_desc. rewrite list_find_app_r.
  - simpl. by rewrite decide_True.
  - apply list_find_None. apply Forall_forall. auto.
Qed.

Lemma inv_add_map s σ r m p off n fl : inv s σ → mems s !! r = Some m → parent m = None → 0 ≤ off → 0 < n →
  off + n ≤ getSize m → map_ok (buffer m) p off n fl → inv s (add_map r p off n fl σ).
Proof.
  intros Hi Hm Hp Hoff Hn Hs Hmo. destruct Hi. split; try done. intros r' p' off' n' fl'. simpl. rewrite lookup_insert.
  case_decide as E; [injection E as <- <-; intros [= <- <- <-]; by exists m|by apply inv_maps0].
Qed.

(** What a buffer relies on besides its bytes. *)
Definition rest_claims (m : ur_mem_handle) : list (Z * Z * bool) :=
  match buffer m with
  | Integrated b => host_claim (integrated_writeBackPtr b) (getSize m)
  | Discrete b => (hostAllocations b ≫= desc_claim) ++ ptr_claim (mapToPtr b) (getSize m) ++
                  host_claim (discrete_writeBackPtr b) (getSize m)
  | _ => []
  end.
Lemma base_head ms h m b : buffer_ok user ms h m → base (buffer m) = Some b →
  ∃ o, claims m = (b, getSize m, o) :: rest_claims m.
Proof.
  unfold buffer_ok, claims, rest_claims, base. destruct (buffer m) as [d|d|p|p o]; simpl; [..|done].
  - intros (Hp & _) [= <-]. unfold ptr_claim. rewrite (proj2 (Z.eqb_neq _ _)) by lia. by eexists.
  - intros ([_ Hs] & _ & _). unfold active_alloc, active_ptr. destruct (activeAllocationDevice d) as [k|]; [|done]. intros [= <-].
    unfold ptr_claim at 1. rewrite (proj2 (Z.eqb_neq _ _)) by lia. by eexists.
  - intros Hp [= <-]. unfold ptr_claim. rewrite (proj2 (Z.eqb_neq _ _)) by lia. by eexists.
Qed.
Lemma rest_in_claims m x : x ∈ rest_claims m → x ∈ claims m.
Proof.
  unfold rest_claims, claims. destruct (buffer m); intros Hx; try (apply elem_of_app; by right); by apply not_elem_of_nil in Hx.
Qed.

(** No bytes of a buffer are there. *)
Lemma rest_unheld s σ h m x h2 m2 b2 a : inv s σ → mems s !! h = Some m → x ∈ rest_claims m →
  in_range x.1.1 x.1.2 a = true → mems s !! h2 = Some m2 → base (buffer m2) = Some b2 →
  in_range b2 (getSize m2) a = false.
Proof.
  intros Hi Hm Hx Ha Hm2 Hb2. apply not_true_iff_false. intros Ha2.
  destruct (inv_handle _ _ _ Hi h2 m2 Hm2) as (_ & _ & _ & _ & Hok2).
  destruct (base_head _ _ _ _ Hok2 Hb2) as [o Ecl].
  destruct (inv_disjoint _ _ _ Hi h h2 m m2 x (b2, getSize m2, o) Hm Hm2) as [-> ->]; [by apply rest_in_claims| |by exists a|].
  { rewrite Ecl. by left. }
  simplify_eq. pose proof (inv_nodup _ _ _ Hi h2 m Hm) as Hnd. rewrite Ecl in Hnd. by apply NoDup_cons in Hnd as [? _].
Qed.
Lemma rest_holds_nothing s σ h m x a : inv s σ → mems s !! h = Some m → x ∈ rest_claims m →
  in_range x.1.1 x.1.2 a = true → holds_nothing s σ a.
Proof.
  intros Hi Hm Hx Ha h2 m2 c b2 Hm2 _ Hb2 Ha2.
  by rewrite (rest_unheld s σ h m x h2 m2 b2 a Hi Hm Hx Ha Hm2 Hb2) in Ha2.
Qed.

(** What a map gives. *)
Definition mapped (s s' : state) (σ : spec) (h : Z) (m : ur_mem_handle) (fl off n : Z) (r : fault + Z) : Prop :=
  ∀ p, r = inr p → (∀ x, x ∈ descs (buffer m) → ptr_get (desc_ptr x) ≠ p) →
  (∃ m', mems s' !! h = Some m' ∧ parent m' = None ∧ getSize m' = getSize m ∧ map_ok (buffer m') p off n fl) ∧
  (flag fl UR_MAP_FLAG_READ = true → ignored s' = ignored s →
     ∀ c, arrays σ !! h = Some c → agrees c off n (λ i, eventual s' (p + i))).

Lemma migrateMemory_cases src dst n s r s' : migrateMemory src dst n s = (r, s') →
  (r = inr () ∧ ignored s' = ignored s ∧ pushed (touches (MemoryCopy dst src n)) (memcpy dst src n (eventual s)) s s') ∨
  ∃ e, r = inl (Code e) ∧ s' = called s.
Proof.
  unfold migrateMemory. intros Hr. step Hr; [|done]. injection E as <- <-.
  step Hr; apply append_cases in E as [[? ->]|(e' & ? & ->)]; simplify_eq; [left|right; by exists e'].
  injection Hr as <- <-. split_and!; [done..|]. set (o := MemoryCopy dst src n).
  apply (pushed_same_r _ _ _ (push o (waitListView s) None (called s))); [done|].
  apply (pushed_same_l _ _ s (called s)); [done|]. apply (pushed_push o _ _ (called s)).
Qed.

(** The description is noted, and the range read. *)
Lemma map_desc_ok s σ h m b x r s' : inv s σ → discrete_at s h m b → desc_ok user (getSize m) x →
  (ptr_deleter (desc_ptr x) = PoolFree → (ptr_get (desc_ptr x), desc_size x) ∈ allocations s ∧
     ∀ h2 m2 x2, mems s !! h2 = Some m2 → x2 ∈ claims m2 → ¬ overlap (ptr_get (desc_ptr x), desc_size x) x2.1) →
  (∀ a, in_range (ptr_get (desc_ptr x)) (desc_size x) a = true → (user a ∨ in_allocations s a) ∧
     ∀ h2 m2 b2, mems s !! h2 = Some m2 → base (buffer m2) = Some b2 → in_range b2 (getSize m2) a = false) →
  (_ ← set_buffer h (Discrete (with_hostAllocations (hostAllocations b ++ [x]) b));
   _ ← match active_alloc b with
       | Some p => when (flag (desc_flags x) UR_MAP_FLAG_READ) (migrateMemory (p + desc_offset x) (ptr_get (desc_ptr x)) (desc_size x))
       | None => mret ()
       end;
   mret (ptr_get (desc_ptr x))) s = (r, s') →
  returns r ∧ inv s' σ ∧ mapped s s' σ h m (desc_flags x) (desc_offset x) (desc_size x) r.
Proof.
  intros Hi [Hm Hb] Hx Hpf Hun Hr. pose proof Hx as (Hx1 & Hx2 & Hx3 & _).
  step Hr; destruct (set_buffer_inv h _ s m _ _ Hm E) as [[=] ->]; subst; clear E.
  set (m' := with_buffer (Discrete (with_hostAllocations (hostAllocations b ++ [x]) b)) m) in *.
  set (s1 := set_mems <[h:=m']> s) in *.
  assert (inv s1 σ) as Hi1.
  { pose proof (inv_add_desc s σ h m x Hi Hm Hx) as Hd. rewrite Hb in Hd. by apply Hd. }
  assert (mems s1 !! h = Some m') as Hm' by apply lookup_insert_eq.
  assert (∀ p, (∀ y, y ∈ descs (buffer m) → ptr_get (desc_ptr y) ≠ p) → p = ptr_get (desc_ptr x) →
    parent m' = None ∧ map_ok (buffer m') p (desc_offset x) (desc_size x) (desc_flags x)) as Hmo.
  { intros p Hno ->. split; [done|]. exists x. split; [|done]. rewrite Hb in Hno. by apply find_new_desc. }
  assert (∀ p c, active_alloc b = Some p → arrays σ !! h = Some c → ∀ i v, 0 ≤ i < getSize m → c i = Some v → eventual s1 (p + i) = v) as Hcont.
  { intros p c Hp Hc i v Hi' Hv. destruct (inv_content _ _ _ Hi1 h m' c i v Hm' Hc Hi' Hv) as (b' & Hb' & Hev).
    simpl in Hb'. change (active_alloc _) with (active_alloc b) in Hb'. by simplify_eq. }
  assert (s' = s1 ∨ s' = called s1 → inv s' σ) as Hsame by (intros [-> | ->]; [done|by apply (inv_same user s1)]).
  destruct (active_alloc b) as [p|] eqn:Hact; [destruct (flag (desc_flags x) UR_MAP_FLAG_READ) eqn:Efl|]; simpl in Hr.
  - step Hr; apply migrateMemory_cases in E as [(? & Hig & Hp)|(e' & ? & ->)]; simplify_eq.
    2: { split_and!; [done|auto|done]. }
    injection Hr as <- <-. split_and!; [done| |].
    + apply (nothing_ok user _ _ s1 s0 σ Hi1 Hp).
      * intros a [Ha|Ha]; [by apply Hun|]. apply (base_accessible user s1 σ h m' p a Hi1 Hm'); [done|]. simpl. ranges. lia.
      * intros a. destruct (in_range (ptr_get (desc_ptr x)) (desc_size x) a) eqn:Ea; [right|left; by apply memcpy_outside].
        intros h2 m2 c b2 Hm2 _ Hb2 Ha2. destruct (Hun a Ea) as [_ Hno]. simpl in Hm2. rewrite lookup_insert in Hm2.
        case_decide; [subst h2; injection Hm2 as <-|by rewrite (Hno h2 m2 b2) in Ha2].
        change (getSize m') with (getSize m) in Ha2. rewrite (Hno h m b2) in Ha2; try done. rewrite Hb. exact Hb2.
    + intros q [= <-] Hno. destruct (Hmo _ Hno eq_refl) as [? ?]. split; [exists m'; rewrite (p_mems _ _ _ _ Hp); by split_and!|].
      intros _ _ c Hc i v Hi' Hv. rewrite (p_eventual _ _ _ _ Hp), memcpy_inside by lia. rewrite <-Z.add_assoc.
      apply (Hcont p c); try done. lia.
  - injection Hr as <- <-. split_and!; [done|auto|]. intros q [= <-] Hno. destruct (Hmo _ Hno eq_refl) as [? ?].
    split; [exists m'; by split_and!|]. congruence.
  - injection Hr as <- <-. split_and!; [done|auto|]. intros q [= <-] Hno. destruct (Hmo _ Hno eq_refl) as [? ?].
    split; [exists m'; by split_and!|]. intros _ _ c Hc i v Hi' Hv.
    destruct (inv_content _ _ _ Hi h m c (desc_offset x + i) v Hm Hc) as (b' & Hb' & _); [lia|done|].
    rewrite Hb in Hb'. simpl in Hb'. congruence.
Qed.

Lemma mapped_ignored s s0 s' σ h m fl off n r : ignored s0 = ignored s →
  mapped s0 s' σ h m fl off n r → mapped s s' σ h m fl off n r.
Proof. intros Hig Hm p Hp Hno. destruct (Hm p Hp Hno) as [? Hr]. split; [done|]. by rewrite <-Hig. Qed.

Lemma discrete_map_ok s σ h m b fl off n r s' : inv s σ → discrete_at s h m b → 0 ≤ off → 0 < n → off + n ≤ getSize m →
  discrete_mapHostPtr h fl off n s = (r, s') → returns r ∧ inv s' σ ∧ mapped s s' σ h m fl off n r.
Proof.
  intros Hi [Hm Hb] Hoff Hn Hs Hr. unfold discrete_mapHostPtr in Hr.
  destruct (inv_handle _ _ _ Hi h m Hm) as (_ & _ & _ & _ & Hok). unfold buffer_ok in Hok. rewrite Hb in Hok.
  destruct Hok as (_ & _ & Hmt).
  step Hr; destruct (get_discrete_inv h s m b _ _ Hm Hb E) as [[=] ->]; subst; clear E.
  destruct (Z.eqb_spec (ptr_get (mapToPtr b)) 0) as [E0|E0].
  - step Hr; apply (l0_allocate_ok user Hdriver s σ) in E as (Hq & Hret & Hp); try done.
    2: { split_and!; [intros [= ->]; by apply Hret|apply Hq|done]. }
    destruct (Hp a eq_refl) as [Hf ->]. clear Hp.
    set (x := {| desc_ptr := {| ptr_get := a; ptr_deleter := PoolFree |}; desc_size := n; desc_offset := off; desc_flags := fl |}).
    set (s0 := add_allocation a n (called s)) in *. pose proof Hf as (? & _ & Hfr).
    apply (map_desc_ok s0 σ h m b x) in Hr as (? & ? & Hmp); [|apply Hq|done| | |].
    + split_and!; [done..|]. by apply (mapped_ignored s s0).
    + split_and!; try done; by left.
    + intros _. split; [by left|]. intros h2 m2 x2 Hm2 Hx2. by apply (fresh_no_overlap user s σ a n h2 m2).
    + intros z Hz. destruct (Hfr z Hz) as [Hu Hno]. split; [right; exists a, n; split; [by left|done]|].
      intros h2 m2 b2 Hm2 Hb2. apply not_true_iff_false. intros Hz2.
      destruct (base_accessible user s σ h2 m2 b2 z Hi Hm2 Hb2 Hz2) as [|(p & k & Hin & Hzp)]; [done|].
      apply Hno in Hin. simpl in Hin. congruence.
  - step Hr; [|done]. injection E as <- <-.
    set (x := {| desc_ptr := {| ptr_get := ptr_get (mapToPtr b); ptr_deleter := Nothing |}; desc_size := n;
                 desc_offset := off; desc_flags := fl |}).
    assert ((ptr_get (mapToPtr b), getSize m, false) ∈ rest_claims m) as Hin.
    { unfold rest_claims. rewrite Hb. apply elem_of_app. right. apply elem_of_app. left. apply elem_of_ptr_claim.
      split; [done|]. by rewrite bool_decide_false. }
    destruct (inv_claim _ _ _ Hi h m _ Hm (rest_in_claims _ _ Hin)) as (? & _ & Hu). simpl in Hu.
    apply (map_desc_ok s σ h m b x) in Hr; try done.
    + split_and!; try done. right. split; [done|]. intros z Hz. apply Hu. simpl in Hz. ranges. lia.
    + intros z Hz. simpl in Hz. assert (in_range (ptr_get (mapToPtr b)) (getSize m) z = true) as Hz' by (ranges; lia).
      split; [left; by apply Hu|]. intros h2 m2 b2 Hm2 Hb2. by apply (rest_unheld s σ h m _ h2 m2 b2 z Hi Hm Hin).
Qed.

Lemma nocheck_cases f s r s' : ze_nocheck f s = (r, s') → r = inr () ∧ (s' = f (called s) ∨ s' = call_ignored s).
Proof. unfold ze_nocheck. destruct (ze_error (calls s)); intros [= <- <-]; auto. Qed.

Lemma integrated_map_ok s σ h m b fl off n r s' : inv s σ → mems s !! h = Some m → buffer m = Integrated b →
  0 ≤ off → 0 < n → off + n ≤ getSize m → integrated_mapHostPtr h b fl off n s = (r, s') →
  returns r ∧ inv s' σ ∧ mapped s s' σ h m fl off n r.
Proof.
  intros Hi Hm Hb Hoff Hn Hs Hr. unfold integrated_mapHostPtr in Hr. simpl in Hr.
  assert (parent m = None) as Hpar by (unfold parent; by rewrite Hb).
  destruct (Z.eqb_spec (integrated_writeBackPtr b) 0) as [Hwb|Hwb]; simpl in Hr.
  { injection Hr as <- <-. split_and!; [done..|]. intros p [= <-] _. split.
    - exists m. rewrite Hb. simpl. rewrite Hwb. by split_and!.
    - intros _ _ c Hc i v Hi' Hv. destruct (inv_content _ _ _ Hi h m c (off + i) v Hm Hc) as (b' & Hb' & <-); [lia|done|].
      rewrite Hb in Hb'. injection Hb' as <-. f_equal. lia. }
  destruct (inv_handle _ _ _ Hi h m Hm) as (_ & _ & _ & _ & Hok). unfold buffer_ok in Hok. rewrite Hb in Hok.
  destruct Hok as (Hpp & _ & _).
  assert ((integrated_writeBackPtr b, getSize m, false) ∈ rest_claims m) as Hin.
  { unfold rest_claims. rewrite Hb. by apply elem_of_host_claim. }
  destruct (inv_claim _ _ _ Hi h m _ Hm (rest_in_claims _ _ Hin)) as (Hwp & _ & Hu). simpl in Hu, Hwp.
  set (p := integrated_writeBackPtr b + off) in *. set (q := ptr_get (integrated_ptr b) + off) in *.
  step Hr; [|by destruct (flag fl UR_MAP_FLAG_READ); [apply nocheck_cases in E as [? _]|]].
  assert (inv s0 σ ∧ mems s0 = mems s ∧ (flag fl UR_MAP_FLAG_READ = true → ignored s0 = ignored s →
    eventual s0 = memcpy p q n (eventual s))) as (Hi0 & Hm0 & Hev).
  { destruct (flag fl UR_MAP_FLAG_READ); [|by injection E as <- <-].
    apply nocheck_cases in E as [_ [->| ->]].
    - set (o := MemoryCopy p q n). assert (pushed (touches o) (perform o (eventual s)) s (push o [] None (called s))) as Hp.
      { apply (pushed_same_l _ _ s (called s)); [done|]. apply (pushed_push o _ _ (called s)). }
      split_and!; [|done|intros _ _; apply Hp]. apply (nothing_ok user _ _ s _ σ Hi Hp).
      + intros z [Hz|Hz]; [left; apply Hu; ranges; lia|].
        apply (base_accessible user s σ h m (ptr_get (integrated_ptr b)) z Hi Hm); [by rewrite Hb|]. ranges. lia.
      + intros z. cbn [perform o]. destruct (in_range p n z) eqn:Ez; [right|left; by apply memcpy_outside].
        apply (rest_holds_nothing s σ h m _ z Hi Hm Hin). simpl. ranges. lia.
    - split_and!; [by apply (inv_same user s)|done|]. simpl. lia. }
  set (x := {| desc_ptr := {| ptr_get := p; ptr_deleter := Nothing |}; desc_size := n; desc_offset := off; desc_flags := fl |}) in *.
  step Hr; destruct (set_buffer_inv h _ s0 m _ _ (eq_trans (f_equal (.!! h) Hm0) Hm) E0) as [[=] ->]; subst; clear E0.
  injection Hr as <- <-. split_and!; [done| |].
  - pose proof (inv_add_desc s0 σ h m x Hi0) as Hd. rewrite Hm0, Hb in Hd. apply Hd; try done.
    split_and!; try done; [simpl; unfold p; lia|]. right. split; [done|]. intros z Hz. apply Hu. simpl in Hz. ranges. lia.
  - intros p' [= <-] Hno. split.
    + eexists. split_and!; [apply lookup_insert_eq|done|done|]. simpl. rewrite (proj2 (Z.eqb_neq _ _)) by done.
      exists x. split; [|done]. rewrite Hb in Hno. by apply find_new_desc.
    + intros Hf Hig c Hc i v Hi' Hv. change (eventual (set_mems _ s0)) with (eventual s0). rewrite (Hev Hf Hig), memcpy_inside by lia.
      destruct (inv_content _ _ _ Hi h m c (off + i) v Hm Hc) as (b' & Hb' & <-); [lia|done|].
      rewrite Hb in Hb'. injection Hb' as <-. f_equal. lia.
Qed.

Lemma mapHostPtr_ok s σ h m root o fl off n r s' : inv s σ → mems s !! h = Some m → window s h = Some (root, o) →
  0 ≤ off → 0 < n → off + n ≤ getSize m → mapHostPtr h fl off n s = (r, s') →
  ∃ mr, mems s !! root = Some mr ∧ o + off + n ≤ getSize mr ∧ 0 ≤ o + off ∧
    returns r ∧ inv s' σ ∧ mapped s s' σ root mr fl (o + off) n r.
Proof.
  intros Hi Hm Hw Hoff Hn Hs Hr. unfold mapHostPtr in Hr.
  match type of Hr with forwarding ?f _ _ _ = _ =>
    destruct (forwarding_ok user s σ f h m root o off Hi Hm Hw) as (mr & Hmr & Hpr & Ho1 & Ho2 & Hf) end; [lia|].
  rewrite Hf in Hr. clear Hf. exists mr. split_and!; [done|lia|lia|..].
  all: pose proof Hpr as Hpr'; unfold parent in Hpr'; destruct (buffer mr) as [b|b|p|p o'] eqn:Hb; [| | |done].
  all: try (apply (integrated_map_ok s σ root mr b) in Hr; [|done|done|done|lia..]; apply Hr).
  all: try (apply (discrete_map_ok s σ root mr b) in Hr; [|done|done|lia..]; apply Hr).
  all: injection Hr as <- <-; try done.
  intros q [= <-] _. split.
  - exists mr. rewrite Hb. by split_and!.
  - intros _ _ c Hc i v Hi' Hv. destruct (inv_content _ _ _ Hi root mr c (o + off + i) v Hmr Hc) as (b' & Hb' & <-); [lia|done|].
    rewrite Hb in Hb'. injection Hb' as <-. f_equal. lia.
Qed.

(** Commands that change nothing. *)
Record idle (s s' : state) : Prop := {
  id_pushed : pushed (λ _, False) (eventual s) s s';
  id_ignored : ignored s' = ignored s }.
Lemma idle_trans s1 s2 s3 : idle s1 s2 → idle s2 s3 → idle s1 s3.
Proof.
  intros [Hp1 Hi1] [Hp2 Hi2]. split; [|congruence]. eapply pushed_trans; [done|].
  by rewrite <-(p_eventual _ _ _ _ Hp1).
Qed.
Lemma idle_same s s' : same s s' → ignored s' = ignored s → idle s s'.
Proof. intros Hs ?. split; [|done]. by apply pushed_refl. Qed.
Lemma idle_inv s s' σ : inv s σ → idle s s' → inv s' σ.
Proof. intros Hi [Hp _]. apply (nothing_ok user _ _ s s' σ Hi Hp); [done|]. intros a. by left. Qed.
Lemma idle_append o w ev s r s' : o = WaitOnEvents ∨ o = SignalEvent → append o w ev s = (r, s') → returns r ∧ idle s s'.
Proof.
  intros Ho [[-> ->]|(e & -> & ->)]%append_cases; (split; [done|]); [|by apply idle_same].
  split; [|done]. apply (pushed_same_l _ _ s (called s)); [done|].
  pose proof (pushed_push o w ev (called s)) as Hp. by destruct Ho as [-> | ->].
Qed.
Lemma wait_first_ok s r s' : wait_first s = (r, s') → returns r ∧ idle s s'.
Proof.
  unfold wait_first. intros Hr. step Hr; [|done]. injection E as <- <-. case_bool_decide.
  - injection Hr as <- <-. split; [done|]. by apply idle_same.
  - step Hr; apply idle_append in E as [Hret Hid]; try (by left); [|split; [|done]; intros [= ->]; by apply Hret].
    injection Hr as <- <-. split; [done|]. eapply idle_trans; [exact Hid|]. by apply idle_same.
Qed.
Lemma signal_last_ok ev s r s' : signal_last ev s = (r, s') → returns r ∧ idle s s'.
Proof.
  destruct ev; [apply idle_append; by right|]. intros [= <- <-]. split; [done|]. by apply idle_same.
Qed.
Lemma synchronize_ok b s r s' : when b zeCommandListHostSynchronize s = (r, s') → returns r ∧ idle s s'.
Proof.
  intros Hr. apply (pushed_synchronize (λ _, False) (eventual s) s s) in Hr as Hp; [|by apply pushed_refl].
  destruct Hp as [Hp Hret]. split; [done|]. split; [done|]. destruct b; [|by injection Hr as <- <-].
  by apply synchronize_cases in Hr as [[_ ->]|(e & _ & ->)].
Qed.

Lemma returns_code {A} (e : fault) : returns (@inl fault A e) → e ≠ NoReturn.
Proof. by intros Hr ->. Qed.

Lemma map_ok_cmd s σ h m root o blocking fl off n waits ev r s' : inv s σ → mems s !! h = Some m →
  window s h = Some (root, o) → fits off n → 0 < n → off + n ≤ getSize m →
  appendMemBufferMap h blocking fl off n waits ev s = (r, s') →
  returns r ∧ inv s' σ ∧ ∃ mr, mems s !! root = Some mr ∧ o + off + n ≤ getSize mr ∧ 0 ≤ o + off ∧
    mapped s s' σ root mr fl (o + off) n r.
Proof.
  intros Hi Hm Hw (Hoff & _ & _) Hn Hs Hr. unfold appendMemBufferMap in Hr. rewrite with_waits_eq in Hr.
  set (s0 := set_waits waits s) in *. assert (inv s0 σ) as Hi0 by by apply inv_set_waits.
  destruct (window_ok user _ _ _ _ _ _ Hi Hm Hw) as (mr & Hmr & _ & ? & ?).
  assert (∀ e, e ≠ NoReturn → inv s' σ → returns (@inl fault Z e) ∧ inv s' σ ∧ ∃ mr, mems s !! root = Some mr ∧
    o + off + n ≤ getSize mr ∧ 0 ≤ o + off ∧ mapped s s' σ root mr fl (o + off) n (inl e)) as Herr.
  { intros e He ?. split_and!; [by intros [= ->]|done|]. exists mr. split_and!; try done; lia. }
  step Hr; destruct (get_some h s0 m _ _ E Hm) as [[=] ->]; subst; clear E.
  step Hr; apply wait_first_ok in E as [Hret1 Hid1]; pose proof (idle_inv _ _ _ Hi0 Hid1) as Hi1; [|by apply Herr; [eapply returns_code|]].
  assert (mems s1 = mems s) as Hm1 by apply (p_mems _ _ _ _ (id_pushed _ _ Hid1)).
  step Hr; apply (mapHostPtr_ok s1 σ h m root o) in E as (mr' & Hmr' & _ & _ & Hret2 & Hi2 & Hmp); try done;
    try (by rewrite Hm1); try (by rewrite <-Hw; apply window_ext; intros ?; rewrite Hm1); [|by apply Herr; [eapply returns_code|]].
  assert (mr' = mr) as -> by (rewrite Hm1 in Hmr'; congruence).
  step Hr; apply signal_last_ok in E as [Hret3 Hid3]; pose proof (idle_inv _ _ _ Hi2 Hid3) as Hi3; [|by apply Herr; [eapply returns_code|]].
  step Hr; apply synchronize_ok in E as [Hret4 Hid4]; pose proof (idle_inv _ _ _ Hi3 Hid4) as Hi4; [|by apply Herr; [eapply returns_code|]].
  injection Hr as <- <-. split_and!; [done..|]. exists mr. split_and!; [done|lia|lia|].
  pose proof (idle_trans _ _ _ Hid3 Hid4) as [Hp Hig]. intros p [= <-] Hno. destruct (Hmp _ eq_refl Hno) as [(m' & Hm' & Hrest) Hrd].
  split; [exists m'; by rewrite (p_mems _ _ _ _ Hp)|]. intros Hf Hi' c Hc i v Hiv Hv. rewrite (p_eventual _ _ _ _ Hp).
  apply (Hrd Hf) with (c := c); try done. rewrite <-Hig, Hi'. symmetry. apply (id_ignored _ _ Hid1).
Qed.

(** *** Unmaps *)
Lemma find_desc_delete p p' l i x : find_desc p l = Some (i, x) → p' ≠ p →
  snd <$> find_desc p' (delete i l) = snd <$> find_desc p' l.
Proof.
  intros Hf Hp. unfold find_desc in *. apply list_find_Some in Hf as (Hl & Hx & _).
  rewrite <-(take_drop_middle l i x Hl) at 2. rewrite delete_take_drop.
  destruct (list_find (λ x, ptr_get (desc_ptr x) = p') (take i l)) as [[j y]|] eqn:E.
  - by rewrite !(list_find_app_l _ _ _ j y).
  - rewrite !list_find_app_r by done. cbn [list_find]. rewrite (decide_False (P := ptr_get (desc_ptr x) = p')) by congruence.
    destruct (list_find _ (drop (S i) l)) as [[j y]|]; done.
Qed.
Lemma perm_delete (l : list host_allocation_desc_t) i x : l !! i = Some x → l ≡ₚ x :: delete i l.
Proof. intros Hl. by apply delete_Permutation. Qed.

Lemma claims_delete m i x : descs (buffer m) !! i = Some x → claims m ≡ₚ
  match buffer m with Discrete _ => desc_claim x | _ => [] end ++
  claims (with_buffer (with_descs (delete i (descs (buffer m))) (buffer m)) m).
Proof.
  intros Hl. destruct (claims_with_descs m) as (l1 & l3 & Ecl & Ecl0). rewrite Ecl.
  destruct (buffer m) as [b|b|p|p o] eqn:Hb; try done. rewrite Ecl0. simpl in Hl |- *.
  rewrite <-(take_drop_middle _ i x Hl) at 1. rewrite delete_take_drop, !bind_app. simpl.
  rewrite (Permutation_app_swap_app (take i (hostAllocations b) ≫= desc_claim)), <-!app_assoc.
  by rewrite (Permutation_app_swap_app l1).
Qed.

Lemma inv_del_map s σ r p : inv s σ → inv s (del_map r p σ).
Proof.
  intros Hi. apply (inv_change user s s σ); try done; try apply Hi. simpl. apply delete_subseteq.
Qed.

Lemma inv_remove_desc s σ h m p i x : inv s σ → mems s !! h = Some m → find_desc p (descs (buffer m)) = Some (i, x) →
  inv (set_mems <[h := with_buffer (with_descs (delete i (descs (buffer m))) (buffer m)) m]> s) (del_map h p σ).
Proof.
  intros Hi Hm Hf. destruct (inv_handle _ _ _ Hi h m Hm) as (_ & Hsz & _ & _ & Hok).
  pose proof Hf as (Hl & Hx & _)%list_find_Some.
  pose proof (claims_delete m i x Hl) as Hperm. pose proof (inv_nodup _ _ _ Hi h m Hm) as Hnd.
  apply (inv_set_handle user s _ h m _ (λ _, False)); try done.
  - by apply inv_del_map.
  - unfold link. simpl. by destruct (buffer m).
  - unfold buffer_ok in *. simpl. destruct (buffer m) as [b|b|q|q o]; simpl in *; try done.
    + destruct Hok as (? & ? & ?). split_and!; [done| |]; by apply Forall_delete.
    + destruct Hok as (? & ? & ?). split_and!; [done| |done]. by apply Forall_delete.
  - rewrite Hperm in Hnd. by apply NoDup_app in Hnd as (_ & _ & ?).
  - intros y Hy. left. rewrite Hperm. apply elem_of_app. by right.
  - intros b. simpl. by destruct (buffer m).
  - intros p' off n fl. simpl. rewrite lookup_delete. case_decide as Hpp; [done|]. intros _.
    assert (p' ≠ p) as Hne by (intros ->; by apply Hpp).
    destruct (buffer m) as [b|b|q|q o]; simpl in *; try done.
    + case_match; [done|]. by rewrite (find_desc_delete p p' _ i x).
    + by rewrite (find_desc_delete p p' _ i x).
Qed.

(** Mapped memory that goes back to the pool does no harm once the commands have run. *)
Lemma inv_freed_run s s' σ p n : inv s σ → (p, n) ∈ allocations s →
  (∀ h m x, mems s !! h = Some m → x ∈ claims m → x.2 = true → x.1.1 ≠ p) →
  idle (free_allocation p s) s' → inv (run_all s') σ.
Proof.
  intros Hi Hin Hcl [[Ea Ef Em En Eev _] _].
  assert (inv (run_all s) σ) as Hrun.
  { apply (inv_change user s (run_all s) σ σ); try done; [intros a Hb; by apply not_busy_run_all in Hb|apply Hi]. }
  assert (inv (free_allocation p (run_all s)) σ) as Hfree.
  { apply (inv_free_allocation user _ σ p n Hrun Hin Hcl). intros a _. apply not_busy_run_all. }
  apply (inv_change user _ (run_all s') σ σ Hfree); simpl; try done.
  - intros a Hb. by apply not_busy_run_all in Hb.
  - change (eventual (run_all s')) with (eventual s'). rewrite Eev. apply Hfree.
Qed.

Definition unmap_spec (r p off n : Z) (u : unmapped) (σ : spec) : spec :=
  del_map r p (match u with
               | Wrote data => write r off n (λ i, Some (data i)) σ
               | Lost => write r off n (λ _, None) σ
               | Kept => σ end).

(** After an unmap: the buffers are right at once, or when what the unmap has left
    to do with the mapped memory is done. *)
Definition unmapped_inv (s' : state) (frees : bool) (σ : spec) : Prop :=
  ∀ s2, idle s' s2 → (frees = false → inv s2 σ) ∧ inv (run_all s2) σ.
Lemma inv_run_all s σ : inv s σ → inv (run_all s) σ.
Proof.
  intros Hi. apply (inv_change user s (run_all s) σ σ); try done; [intros a Hb; by apply not_busy_run_all in Hb|apply Hi].
Qed.
Lemma unmapped_inv_inv s' b σ : inv s' σ → unmapped_inv s' b σ.
Proof. intros Hi s2 Hid. split; [intros _|apply inv_run_all]; by apply (idle_inv s'). Qed.
Lemma unmapped_inv_idle s s' b σ : idle s s' → unmapped_inv s b σ → unmapped_inv s' b σ.
Proof. intros Hid Hu s2 Hid2. apply Hu. by eapply idle_trans. Qed.
Lemma unmapped_lost s' b r p off n : ∀ σ, inv s' σ → unmapped_inv s' b (unmap_spec r p off n Lost σ).
Proof. intros σ Hi. apply unmapped_inv_inv, inv_del_map, l0_inv_lost; [done|]. done. Qed.

Lemma integrated_unmap_ok s σ h m b p off n fl r s' : inv s σ → mems s !! h = Some m → buffer m = Integrated b →
  map_ok (buffer m) p off n fl → 0 ≤ off → 0 < n → off + n ≤ getSize m →
  integrated_unmapHostPtr h b p s = (r, s') → returns r ∧
  ∀ u, u = Lost ∨ ok r = true ∧ u = unmapped_as s s' (buffer m) fl p →
    unmapped_inv s' (frees_map (buffer m) p) (unmap_spec h p off n u σ).
Proof.
  intros Hi Hm Hb Hmo Hoff Hn Hs Hr. rewrite Hb in *. simpl in Hmo. unfold integrated_unmapHostPtr in Hr.
  destruct (Z.eqb_spec (integrated_writeBackPtr b) 0) as [Hwb|Hwb]; simpl in Hr.
  - injection Hr as <- <-. split; [done|]. intros u [-> |[_ ->]]; [by apply unmapped_lost|].
    apply unmapped_inv_inv, inv_del_map. simpl. rewrite Hwb. simpl.
    destruct (l0_inv_lookup user s σ h m Hi Hm) as [c Hc]; [unfold parent; by rewrite Hb|].
    apply (store_ok user (λ _, False) (eventual s) s s σ h m (ptr_get (integrated_ptr b)) c off n); try done.
    + by apply pushed_refl.
    + by rewrite Hb.
    + intros i v _ [= <-]. subst p. done.
  - destruct Hmo as (x & Hf & Hxo & Hxn & Hxf). destruct (find_desc p (mappedRegions b)) as [[i x']|] eqn:Ef; [|done].
    injection Hf as ->. pose proof Ef as (Hl & Hx & _)%list_find_Some.
    destruct (inv_handle _ _ _ Hi h m Hm) as (_ & _ & _ & _ & Hok). unfold buffer_ok in Hok. rewrite Hb in Hok.
    destruct Hok as (_ & Hds & Hnothing). pose proof (Forall_lookup_1 _ _ _ _ Hds Hl) as (_ & _ & _ & _ & Hux).
    pose proof (Forall_lookup_1 _ _ _ _ Hnothing Hl) as Hdel. simpl in Hdel.
    destruct Hux as [?|[_ Hu]]; [congruence|]. rewrite Hxo, Hxn, Hxf, Hx in Hr. rewrite Hx, Hxn in Hu.
    destruct (l0_inv_lookup user s σ h m Hi Hm) as [c Hc]; [unfold parent; by rewrite Hb|].
    step Hr; [|by destruct (flag fl _); [apply nocheck_cases in E as [? _]|]]. change (flag fl _) with (flag_writes fl) in E.
    assert (mems s0 = mems s ∧ ∀ u, u = Lost ∨ u = unmapped_as s s0 (Integrated b) fl p → inv s0
      (match u with Wrote data => write h off n (λ i, Some (data i)) σ | Lost => write h off n (λ _, None) σ | Kept => σ end))
      as [Hm0 Hu0].
    { simpl. rewrite (proj2 (Z.eqb_neq _ _)) by done. destruct (flag_writes fl) eqn:Efl; simpl in E.
      - apply nocheck_cases in E as [_ [->| ->]].
        + set (o := MemoryCopy (ptr_get (integrated_ptr b) + off) p n).
          assert (pushed (touches o) (perform o (eventual s)) s (push o [] None (called s))) as Hp.
          { apply (pushed_same_l _ _ s (called s)); [done|]. apply (pushed_push o _ _ (called s)). }
          split; [done|]. rewrite bool_decide_true by done.
          assert (∀ g, (∀ i v, 0 ≤ i < n → g i = Some v → eventual s (p + i) = v) →
            inv (push o [] None (called s)) (write h off n g σ)) as Hst.
          { intros g Hg. apply (store_ok user _ _ s _ σ h m (ptr_get (integrated_ptr b)) c off n g Hi Hp); try done.
            - intros z [Hz|Hz]; [|by left; apply Hu].
              apply (base_accessible user s σ h m (ptr_get (integrated_ptr b)) z Hi Hm); [by rewrite Hb|]. ranges. lia.
            - by rewrite Hb.
            - intros z Hz. by apply memcpy_outside.
            - intros j v Hj Hgj. cbn [perform o]. rewrite memcpy_inside by lia. by apply Hg. }
          intros u [-> | ->]; apply Hst; [done|]. by intros j v _ [= <-].
        + split; [done|]. rewrite bool_decide_false by (simpl; lia).
          intros u [-> | ->]; apply l0_inv_lost; try done; by apply (inv_same user s).
      - injection E as <- <-. split; [done|]. intros u [-> | ->]; [by apply l0_inv_lost|done]. }
    destruct (set_buffer_inv h _ s0 m _ _ (eq_trans (f_equal (.!! h) Hm0) Hm) Hr) as [-> ->]. split; [done|].
    intros u Hcase. apply unmapped_inv_inv.
    pose proof (inv_remove_desc s0 (match u with Wrote data => write h off n (λ i, Some (data i)) σ | Lost => write h off n (λ _, None) σ | Kept => σ end)
      h m p i x) as Hrm. rewrite Hm0, Hb in Hrm. apply Hrm; try done. apply Hu0.
    destruct Hcase as [->|[_ ->]]; [by left|by right].
Qed.

(** The memory of a map is given back. *)
Lemma delete_desc_ok s σ h m b p i x σ' r s' : inv s σ → discrete_at s h m b → find_desc p (hostAllocations b) = Some (i, x) →
  σ' = del_map h p σ → (_ ← set_buffer h (Discrete (with_hostAllocations (delete i (hostAllocations b)) b));
    run_deleter (desc_ptr x)) s = (r, s') → returns r ∧ unmapped_inv s' (frees_map (Discrete b) p) σ'.
Proof.
  intros Hi [Hm Hb] Hf -> Hr. pose proof Hf as (Hl & Hx & _)%list_find_Some.
  destruct (inv_handle _ _ _ Hi h m Hm) as (_ & _ & _ & _ & Hok). unfold buffer_ok in Hok. rewrite Hb in Hok.
  destruct Hok as (_ & Hds & _). pose proof (Forall_lookup_1 _ _ _ _ Hds Hl) as (_ & Hn & _ & Hp & Hu).
  step Hr; destruct (set_buffer_inv h _ s m _ _ Hm E) as [[=] ->]; subst; clear E.
  assert (inv (set_mems <[h := with_buffer (Discrete (with_hostAllocations (delete i (hostAllocations b)) b)) m]> s)
    (del_map h (ptr_get (desc_ptr x)) σ)) as Hi'.
  { pose proof (inv_remove_desc s σ h m (ptr_get (desc_ptr x)) i x Hi Hm) as Hrm. rewrite Hb in Hrm. by apply Hrm. }
  set (s1 := set_mems _ s) in *. unfold frees_map. simpl. rewrite Hf.
  unfold run_deleter in Hr. rewrite (proj2 (Z.eqb_neq _ _)) in Hr by lia.
  destruct Hu as [Hpf|[Hno _]]; [rewrite Hpf in Hr|rewrite Hno in Hr]; injection Hr as <- <-; (split; [done|]).
  2: by apply unmapped_inv_inv.
  rewrite bool_decide_true by done. intros s2 Hid. split; [done|].
  assert ((ptr_get (desc_ptr x), desc_size x, true) ∈ desc_claim x) as Hdc by (apply elem_of_desc_claim; split_and!; [done|lia|done]).
  pose proof (claims_delete m i x) as Hperm. rewrite Hb in Hperm. specialize (Hperm Hl).
  pose proof (inv_nodup _ _ _ Hi h m Hm) as Hnd. rewrite Hperm in Hnd. apply NoDup_app in Hnd as (_ & Hnd & _).
  assert ((ptr_get (desc_ptr x), desc_size x, true) ∈ claims m) as Hcm by (rewrite Hperm; apply elem_of_app; by left).
  apply (inv_freed_run s1 s2 _ (ptr_get (desc_ptr x)) (desc_size x) Hi'); [|clear s2 Hid|done].
  - by destruct (inv_claim _ _ _ Hi h m _ Hm Hcm) as (_ & _ & ?).
  - intros h2 m2 y Hm2 Hy Hown Hyp. destruct (inv_claim _ _ _ Hi' h2 m2 y Hm2 Hy) as (_ & Hyn & _).
    assert (overlap (ptr_get (desc_ptr x), desc_size x) y.1) as Hov by (exists (ptr_get (desc_ptr x)); simpl; split; ranges; lia).
    simpl in Hm2. rewrite lookup_insert in Hm2. case_decide as Hh.
    + subst h2. injection Hm2 as <-. apply (Hnd _ Hdc). simpl.
      destruct (inv_disjoint _ _ _ Hi h h m m (ptr_get (desc_ptr x), desc_size x, true) y Hm Hm) as [_ <-]; try done.
      rewrite Hperm. apply elem_of_app. by right.
    + by destruct (inv_disjoint _ _ _ Hi h h2 m m2 (ptr_get (desc_ptr x), desc_size x, true) y Hm Hm2) as [? _].
Qed.

Lemma discrete_unmap_ok s σ h m b p off n fl r s' : inv s σ → discrete_at s h m b →
  map_ok (buffer m) p off n fl → 0 ≤ off → 0 < n → off + n ≤ getSize m →
  discrete_unmapHostPtr h (getSize m) p s = (r, s') → returns r ∧
  ∀ u, u = Lost ∨ ok r = true ∧ u = unmapped_as s s' (buffer m) fl p →
    unmapped_inv s' (frees_map (buffer m) p) (unmap_spec h p off n u σ).
Proof.
  intros Hi [Hm Hb] Hmo Hoff Hn Hs Hr. rewrite Hb in *. simpl in Hmo. unfold discrete_unmapHostPtr in Hr.
  destruct Hmo as (x & Hf & Hxo & Hxn & Hxf). destruct (find_desc p (hostAllocations b)) as [[i x']|] eqn:Ef; [|done].
  injection Hf as ->. pose proof Ef as (Hl & Hx & _)%list_find_Some.
  destruct (inv_handle _ _ _ Hi h m Hm) as (_ & _ & _ & _ & Hok). unfold buffer_ok in Hok. rewrite Hb in Hok.
  destruct Hok as (_ & Hds & _). pose proof (Forall_lookup_1 _ _ _ _ Hds Hl) as (_ & _ & _ & _ & Hux). rewrite Hx, Hxn in Hux.
  assert (∀ s0 (e : fault), inv s0 σ → e ≠ NoReturn → returns (@inl fault () e) ∧
    ∀ u, u = Lost ∨ ok (@inl fault () e) = true ∧ u = unmapped_as s s0 (Discrete b) fl p →
      unmapped_inv s0 (frees_map (Discrete b) p) (unmap_spec h p off n u σ)) as Herr.
  { intros s0 e Hi0 He. split; [by intros [= ->]|]. intros u [-> |[? _]]; [by apply unmapped_lost|done]. }
  step Hr; destruct (get_discrete_inv h s m b _ _ Hm Hb E) as [[=] ->]; subst a; clear E. rewrite Ef in Hr.
  rewrite Hxf, Hxo, Hxn, Hx in Hr.
  step Hr; apply (ensure_ok user Hdriver s σ h m b) in E as (Hq & Hret & Hb'); try done; try apply Hdriver.
  2: { apply Herr; [apply Hq|by eapply returns_code]. }
  destruct a. destruct (Hb' eq_refl) as (m' & b' & [Hm' Hbm] & Hsz & Hha & _ & Hact). clear Hb'.
  pose proof (q_inv _ _ _ _ Hq) as Hi1.
  step Hr; destruct (get_discrete_inv h s0 m' b' _ _ Hm' Hbm E) as [[=] ->]; subst a; clear E.
  assert (parent m' = None) as Hpar by (unfold parent; by rewrite Hbm).
  destruct (l0_inv_lookup user s0 σ h m' Hi1 Hm' Hpar) as [c Hc].
  assert (accessible user s0 p n) as Hacc.
  { intros z Hz. destruct Hux as [Hpf|[_ Hu]]; [right|left; by apply Hu].
    assert ((p, n, true) ∈ claims m) as Hin.
    { unfold claims. rewrite Hb. apply elem_of_app. right. apply elem_of_app. left. apply list_elem_of_bind. exists x.
      split; [|by apply list_elem_of_lookup_2 in Hl]. apply elem_of_desc_claim. rewrite Hx, Hxn. split_and!; try done.
      destruct (Forall_lookup_1 _ _ _ _ Hds Hl) as (_ & _ & _ & ? & _). lia. }
    destruct (inv_claim _ _ _ Hi h m _ Hm Hin) as (_ & _ & ?). apply (q_alloc _ _ _ _ Hq). by exists p, n. }
  set (u0 := unmapped_as s s' (Discrete b) fl p) in *.
  assert (∀ s2 pa, active_alloc b' = Some pa → migrateMemory p (pa + off) n s0 = (inr (), s2) → mems s2 = mems s0 ∧
    ∀ u, u = Lost ∨ u = Wrote (λ i, eventual s (p + i)) → inv s2
      (match u with Wrote data => write h off n (λ i, Some (data i)) σ | Lost => write h off n (λ _, None) σ | Kept => σ end)) as Hmig.
  { intros s2 pa Hpa [(_ & _ & Hp)|(? & [=] & _)]%migrateMemory_cases. split; [apply Hp|].
    assert (∀ g, (∀ i v, 0 ≤ i < n → g i = Some v → eventual s (p + i) = v) → inv s2 (write h off n g σ)) as Hst.
    { intros g Hg. apply (store_ok user _ _ s0 s2 σ h m' pa c off n g Hi1 Hp); try done; try lia; try (by rewrite Hbm).
      - intros z [Hz|Hz]; [|by apply Hacc]. apply (base_accessible user s0 σ h m' pa z Hi1 Hm'); [by rewrite Hbm|]. ranges. lia.
      - intros z Hz. by apply memcpy_outside.
      - intros j v Hj Hgj. rewrite memcpy_inside, (quiet_eventual _ _ _ _ Hq) by lia. by apply Hg. }
    intros u [-> | ->]; apply Hst; [done|]. by intros j v _ [= <-]. }
  assert (∀ s2, mems s2 = mems s0 → (∀ u, u = Lost ∨ u = u0 → inv s2
      (match u with Wrote data => write h off n (λ i, Some (data i)) σ | Lost => write h off n (λ _, None) σ | Kept => σ end)) →
    (_ ← set_buffer h (Discrete (with_hostAllocations (delete i (hostAllocations b')) b')); run_deleter (desc_ptr x)) s2 = (r, s') →
    returns r ∧ ∀ u, u = Lost ∨ ok r = true ∧ u = u0 → unmapped_inv s' (frees_map (Discrete b) p) (unmap_spec h p off n u σ)) as Hdel.
  { intros s2 Hm2 Hu2 Hr2. rewrite <-Hha in Ef.
    assert (discrete_at s2 h m' b') as Hat2 by (split; [by rewrite Hm2|done]).
    assert (frees_map (Discrete b) p = frees_map (Discrete b') p) as -> by (unfold frees_map; simpl; by rewrite Hha).
    split.
    - by apply (delete_desc_ok s2 _ h m' b' p i x _ r s' (Hu2 Lost (or_introl eq_refl)) Hat2 Ef eq_refl Hr2).
    - intros u Hu. assert (u = Lost ∨ u = u0) as Hu' by (destruct Hu as [|[_ ?]]; auto).
      by apply (delete_desc_ok s2 _ h m' b' p i x _ r s' (Hu2 u Hu') Hat2 Ef eq_refl Hr2). }
  destruct (active_alloc b') as [pa|] eqn:Hpa.
  - step Hr; [destruct a|apply migrateMemory_cases in E as [(? & _)|(e' & [= ->] & ->)]; [done|]].
    + destruct (Hmig s1 pa eq_refl E) as [Hm1 Hu1]. apply (Hdel s1 Hm1); [|done].
      intros u [Hu|Hu]; apply Hu1; [by left|]. unfold u0, unmapped_as in Hu. case_match; [by left|by right].
    + apply Herr; [by apply (inv_same user s0)|done].
  - step Hr; [|done]. injection E as <- <-. apply (Hdel s0 eq_refl); [|done].
    assert (u0 = Lost) as ->.
    { unfold u0, unmapped_as. destruct (activeAllocationDevice b) as [k|] eqn:Ha.
      - destruct Hact as [-> _]. unfold active_alloc in Hpa. by rewrite Ha in Hpa.
      - rewrite bool_decide_true by done. destruct (flag fl UR_MAP_FLAG_WRITE_INVALIDATE_REGION); [done|].
        simpl in Hact. unfold active_alloc in Hpa. by rewrite Hact in Hpa. }
    intros u Hu. assert (u = Lost) as -> by tauto. by apply l0_inv_lost.
Qed.

Lemma unmapHostPtr_ok s σ h root o m p off n fl r s' : inv s σ → window s h = Some (root, o) → mems s !! root = Some m →
  maps σ !! (root, p) = Some (off, n, fl) → unmapHostPtr h p s = (r, s') → returns r ∧
  ∀ u, u = Lost ∨ ok r = true ∧ u = unmapped_as s s' (buffer m) fl p →
    unmapped_inv s' (frees_map (buffer m) p) (unmap_spec root p off n u σ).
Proof.
  intros Hi Hw Hm Hmp Hr. destruct (window_mem _ _ _ _ Hw) as [mh Hmh].
  destruct (inv_maps _ _ _ Hi root p off n fl Hmp) as (m' & Hm' & Hpar & Hoff & Hn & Hs & Hmo). simplify_eq.
  destruct (inv_handle _ _ _ Hi h mh Hmh) as (_ & Hsz & _). unfold unmapHostPtr in Hr.
  match type of Hr with forwarding ?f _ _ _ = _ =>
    destruct (forwarding_ok user s σ f h mh root o 0 Hi Hmh Hw) as (mr & Hmr & Hpr & _ & _ & Hf) end; [lia|].
  rewrite Hf in Hr. clear Hf. simplify_eq. pose proof Hpr as Hpr'. unfold parent in Hpr'.
  destruct (buffer m) as [b|b|q|q o'] eqn:Hb; [..|done].
  - rewrite <-Hb in *. by apply (integrated_unmap_ok s σ root m b p off n fl).
  - rewrite <-Hb in *. by apply (discrete_unmap_ok s σ root m b p off n fl).
  - injection Hr as <- <-. split; [done|]. intros u [-> |[_ ->]]; [by apply unmapped_lost|].
    apply unmapped_inv_inv, inv_del_map. simpl in *. subst p.
    destruct (l0_inv_lookup user s σ root m Hi Hm Hpar) as [c Hc].
    apply (store_ok user (λ _, False) (eventual s) s s σ root m (ptr_get q) c off n); try done.
    + by apply pushed_refl.
    + by rewrite Hb.
    + by intros i v _ [= <-].
Qed.

Lemma unmapped_as_idle s0 s s1 s2 b fl p : idle s0 s → idle s1 s2 → unmapped_as s s1 b fl p = unmapped_as s0 s2 b fl p.
Proof.
  intros [Hp0 Hi0] [Hp2 Hi2]. unfold unmapped_as. rewrite (p_eventual _ _ _ _ Hp0), Hi0, Hi2. done.
Qed.

(** An unmap, followed by a finish of the queue if it gives memory back. *)
Lemma l0_unmap_ok s σ h root o m p off n fl waits ev r s1 s' : inv s σ → window s h = Some (root, o) → mems s !! root = Some m →
  maps σ !! (root, p) = Some (off, n, fl) → appendMemUnmap h p waits ev s = (r, s1) →
  (if frees_map (buffer m) p then queueFinish s1 = (inr (), s') else s' = s1) →
  returns r ∧ inv s' (unmap_spec root p off n (if ok r then unmapped_as s s1 (buffer m) fl p else Lost) σ).
Proof.
  intros Hi Hw Hm Hmp Hr Hfin.
  assert (∀ u, unmapped_inv s1 (frees_map (buffer m) p) (unmap_spec root p off n u σ) → inv s' (unmap_spec root p off n u σ)) as Hend.
  { intros u Hu. destruct (frees_map (buffer m) p).
    - apply synchronize_cases in Hfin as [[_ ->]|(e & ? & _)]; [|done]. apply Hu. by apply idle_same.
    - subst s'. apply Hu; [by apply idle_same|done]. }
  unfold appendMemUnmap in Hr. rewrite with_waits_eq in Hr. set (s0 := set_waits waits s) in *.
  assert (inv s0 σ) as Hi0 by by apply inv_set_waits. destruct (window_mem _ _ _ _ Hw) as [mh Hmh].
  step Hr; destruct (get_some h s0 mh _ _ E Hmh) as [[=] ->]; subst a; clear E.
  step Hr; apply wait_first_ok in E as [Hret1 Hid1]; pose proof (idle_inv _ _ _ Hi0 Hid1) as Hi1;
    [|split; [done|by apply Hend, unmapped_lost]].
  assert (mems s2 = mems s) as Hm2 by apply (p_mems _ _ _ _ (id_pushed _ _ Hid1)).
  assert (window s2 h = Some (root, o)) as Hw2 by (rewrite <-Hw; apply window_ext; intros ?; by rewrite Hm2).
  rewrite <-Hm2 in Hm.
  step Hr; apply (unmapHostPtr_ok s2 σ h root o m p off n fl _ _ Hi1 Hw2 Hm Hmp) in E as [Hret2 Hu];
    [|split; [done|]; apply Hend, Hu; by left].
  apply signal_last_ok in Hr as [Hret3 Hid3]. split; [done|]. apply Hend, (unmapped_inv_idle s3); [done|]. apply Hu.
  destruct (ok r); [right|by left]. split; [done|].
  rewrite (unmapped_as_idle s0 s2 s3 s1 _ _ _ Hid1 Hid3). done.
Qed.

(** *** Kernels *)
Definition arg_at (s : state) (x : Z * Z * Z) (p : Z * Z) : Prop :=
  points_to s x.1.1 x.1.2 p.1 ∧ p.2 = x.2 ∧ ∃ m, mems s !! x.1.1 = Some m ∧ parent m = None ∧
    0 ≤ x.1.2 ∧ x.1.2 + x.2 ≤ getSize m.
Lemma l0_arg_at_quiet σ s s' x p : quiet σ s s' → arg_at s x p → arg_at s' x p.
Proof.
  intros Hq (Hpt & Hn & m & Hm & Hp & ? & ?). split; [by apply (points_to_quiet user σ s)|]. split; [done|].
  destruct (q_handle _ _ _ _ Hq _ m Hm) as (m' & Hm' & Hsz & _). exists m'. rewrite Hsz. split_and!; try done.
  by rewrite (quiet_parent user σ s s' _ m m' Hq Hm Hm').
Qed.

Definition size_at (s : state) (h n : Z) : Prop := ∃ m, mems s !! h = Some m ∧ getSize m = n.
Lemma size_at_quiet σ s s' h n : quiet σ s s' → size_at s h n → size_at s' h n.
Proof.
  intros Hq (m & Hm & Hn). destruct (q_handle _ _ _ _ Hq h m Hm) as (m' & ? & ? & _). exists m'. split; [done|congruence].
Qed.

Lemma prepare_ok σ q hs : (q < getNumDevices)%nat → ∀ s args ns r s', inv s σ →
  Forall2 (λ h x, window s h = Some x) hs args → Forall2 (size_at s) hs ns →
  prepareForSubmission q hs s = (r, s') → quiet σ s s' ∧ returns r ∧
  ∀ ps, r = inr ps → Forall2 (arg_at s') (zip args ns) ps.
Proof.
  intros Hq. induction hs as [|h hs IH]; intros s args ns r s' Hi Hw Hns Hr.
  { injection Hr as <- <-. split_and!; [by apply l0_quiet_refl|done|]. intros ps [= <-].
    apply Forall2_nil_inv_l in Hw as ->. constructor. }
  apply Forall2_cons_inv_l in Hw as ([root o] & args' & Hw & Hws & ->).
  apply Forall2_cons_inv_l in Hns as (n & ns' & (m & Hm & Hsn) & Hns & ->).
  destruct (inv_handle _ _ _ Hi h m Hm) as (_ & Hsz & _).
  cbn [prepareForSubmission] in Hr. step Hr; destruct (get_some h s m _ _ E Hm) as [[=] ->]; subst a; clear E.
  step Hr; apply (getDevicePtr_ok user Hdriver s σ h m root o) in E as (Hq1 & Hret1 & Hpt); try done; try lia; try (by intros ? [= <-]).
  2: { split_and!; [done|by intros [= ->]; apply Hret1|done]. }
  step Hr; pose proof E as Hze; apply ze_cases in E as [-> _].
  2: { split_and!; [|by intros [= ->]; apply ze_returns in Hze|done]. eapply l0_quiet_trans; [done|]. apply l0_called_quiet, Hq1. }
  assert (quiet σ s (called s0)) as Hq2 by (eapply l0_quiet_trans; [done|]; apply l0_called_quiet, Hq1).
  step Hr; apply (IH _ args' ns') in E as (Hq3 & Hret3 & Hps); try apply Hq2.
  - injection Hr as <- <-. split_and!; [by eapply l0_quiet_trans|done|]. intros ps [= <-]. cbn [zip zip_with]. constructor; [|by apply Hps].
    apply (l0_arg_at_quiet σ (called s0)); [done|]. destruct (window_ok user _ _ _ _ _ _ Hi Hm Hw) as (mr & Hmr & Hpr & ? & ?).
    apply (l0_arg_at_quiet σ s0); [by apply l0_called_quiet, Hq1|].
    split_and!; [destruct (Hpt a eq_refl) as (mb & b & ? & ? & ->); exists mb, b; split_and!; [done..|]; simpl; lia|done|].
    destruct (q_handle _ _ _ _ Hq1 root mr Hmr) as (mr' & Hmr' & Hsr & _). exists mr'. simpl. split_and!; [done| |lia|lia].
    by rewrite (quiet_parent user σ s s0 root mr mr' Hq1 Hmr Hmr').
  - eapply Forall2_impl; [exact Hws|]. intros x y Hxy. simpl. by rewrite (quiet_window _ _ _ _ x Hq2).
  - eapply Forall2_impl; [exact Hns|]. intros x y. by apply (size_at_quiet σ s (called s0)).
  - split_and!; [by eapply l0_quiet_trans|by intros [= ->]; apply Hret3|done].
  - eapply Forall2_impl; [exact Hws|]. intros x y Hxy. simpl. by rewrite (quiet_window _ _ _ _ x Hq2).
  - eapply Forall2_impl; [exact Hns|]. intros x y. by apply (size_at_quiet σ s (called s0)).
Qed.

Lemma sizes_exist s hs args : Forall2 (λ h x, window s h = Some x) hs args →
  ∃ ns, Forall2 (size_at s) hs ns.
Proof.
  induction 1 as [|h [root o] hs args Hw _ [ns Hns]]; [by exists []|]. destruct (window_mem _ _ _ _ Hw) as [m Hm].
  exists (getSize m :: ns). constructor; [by exists m|done].
Qed.

(** A kernel does the same to the memory of its arguments and to the arrays. *)
Lemma store_arg_content s σ mm A k views i x p : inv s σ → arg_at s x p → content_ok (mems s) mm A →
  content_ok (mems s) (store_arg k views i p.1 p.2 mm) (alter (kernel_window k views i x.1.2 x.2) x.1.1 A).
Proof.
  intros Hi ((m & b & Hm & Hb & Hp) & Hn & m0 & Hm0 & _ & Ho & Hs) Hc h m' c' j v Hm' Hc' Hj Hv. simplify_eq.
  rewrite lookup_alter in Hc'. case_decide as Hh.
  - subst h. destruct (A !! x.1.1) as [c|] eqn:HA; [|done]. injection Hc' as <-. simplify_eq. exists b. split; [done|].
    unfold kernel_window in Hv. unfold store_arg. rewrite Hp, Hn.
    destruct (in_range x.1.2 x.2 j) eqn:Ej.
    + rewrite (proj2 (in_range_true _ _ _)) by (ranges; lia). replace (b + j - (b + x.1.2)) with (j - x.1.2) by lia.
      destruct (k views i (j - x.1.2)) as [w|]; [by injection Hv|]. simpl.
      destruct (Hc _ _ _ _ _ Hm HA Hj Hv) as (b' & ? & ?). by simplify_eq.
    + rewrite (proj2 (in_range_false _ _ _)) by (ranges; lia). destruct (Hc _ _ _ _ _ Hm HA Hj Hv) as (b' & ? & ?). by simplify_eq.
  - destruct (Hc _ _ _ _ _ Hm' Hc' Hj Hv) as (b' & Hb' & Hbv). exists b'. split; [done|]. unfold store_arg.
    destruct (in_range p.1 p.2 (b' + j)) eqn:E; [|done]. exfalso. apply Hh.
    apply (base_disjoint user s σ x.1.1 h m m' b b' (b' + j)); try done; ranges; lia.
Qed.
Lemma run_args_content s σ k views wins ps : inv s σ → Forall2 (arg_at s) wins ps → ∀ i mm A,
  content_ok (mems s) mm A → content_ok (mems s) (run_args k views i ps mm) (kernel_windows k views i wins A).
Proof.
  intros Hi. induction 1 as [|[[r o] n] [p n'] wins ps Hat _ IH]; intros i mm A Hc; [done|]. cbn [run_args kernel_windows].
  apply IH. by apply (store_arg_content s σ mm A k views i (r, o, n) (p, n')).
Qed.
Lemma is_Some_windows k views wins A i h : is_Some (kernel_windows k views i wins A !! h) ↔ is_Some (A !! h).
Proof.
  revert i A. induction wins as [|[[r o] n] wins IH]; intros i A; [done|]. cbn [kernel_windows]. rewrite IH, lookup_alter.
  case_decide; [subst; by rewrite fmap_is_Some|done].
Qed.

Lemma view_at (mm : memory) x i : 0 ≤ i < x.2 → view mm x i = mm (x.1 + i).
Proof.
  intros Hi. unfold view. apply nth_lookup_Some. rewrite list_lookup_fmap, lookup_seqZ_lt by lia. simpl. do 2 f_equal. lia.
Qed.

Lemma l0_kernel_ok s σ q k hs args ns workDim dims waits ev r s' : inv s σ → (q < getNumDevices)%nat →
  Forall2 (λ h x, window s h = Some x) hs args → Forall2 (size_at s) hs ns →
  appendKernelLaunch q k hs workDim dims waits ev s = (r, s') → returns r ∧
  match r with
  | inl _ => inv s' σ
  | inr _ => ∃ ps w, commands s' = commands s ++ [{| cmd_op := LaunchKernel k ps; cmd_waits := w; cmd_signal := ev |}] ∧
      Forall2 (λ x v, ∃ c, arrays σ !! x.1.1 = Some c ∧ agrees c x.1.2 x.2 v) (zip args ns) (view (eventual s) <$> ps) ∧
      inv s' {| arrays := kernel_windows k (view (eventual s) <$> ps) 0 (zip args ns) (arrays σ); maps := maps σ |}
  end.
Proof.
  intros Hi Hq Hw Hns Hr. unfold appendKernelLaunch in Hr. rewrite with_waits_eq in Hr.
  set (s0 := set_waits waits s) in *. assert (inv s0 σ) as Hi0 by by apply inv_set_waits.
  step Hr; apply l0_assert_inv in E as [-> Ha]; [|destruct (_ && _); simplify_eq; by split]. clear Ha.
  step Hr; [|destruct dims; injection E as <- <-; by split].
  assert (s1 = s0) as -> by (destruct dims; by injection E). clear E.
  step Hr; pose proof E as Hze; apply ze_cases in E as [-> _]; pose proof (l0_called_quiet user s0 σ Hi0) as Hq0.
  2: { split; [by intros [= ->]; apply ze_returns in Hze|apply Hq0]. }
  step Hr; apply (prepare_ok σ q hs Hq (called s0) args ns) in E as (Hq1 & Hret1 & Hps); try done; try apply Hq0.
  2: { split; [by intros [= ->]; apply Hret1|apply Hq1]. }
  pose proof (l0_quiet_trans _ _ _ _ _ Hq0 Hq1) as Hq2. pose proof (q_inv _ _ _ _ Hq1) as Hi1. specialize (Hps a2 eq_refl).
  assert (eventual s1 = eventual s) as Hev by exact (quiet_eventual _ _ _ _ Hq2).
  step Hr; [|done]. injection E as <- <-.
  apply append_cases in Hr as [[-> ->]|(e & -> & ->)]; (split; [done|]); [|by apply (inv_same user s1)].
  exists a2, (waitListView s1). split_and!.
  - simpl. by rewrite (q_commands _ _ _ _ Hq2).
  - rewrite Forall2_fmap_r. eapply Forall2_impl; [exact Hps|].
    intros x p ((mb & b & Hmb & Hb & Hp) & Hn & mr & Hmr & Hpar & Ho & Hs). simplify_eq.
    destruct (l0_inv_lookup user s1 σ _ _ Hi1 Hmb Hpar) as [c Hc]. exists c. split; [done|]. intros i v Hi' Hv.
    rewrite view_at by lia. rewrite <-Hev.
    destruct (inv_content _ _ _ Hi1 _ _ _ (x.1.2 + i) v Hmb Hc) as (b' & ? & Hbv); [lia|done|].
    simplify_eq. rewrite Hp. f_equal. lia.
  - assert (pushed (touches (LaunchKernel k a2)) (perform (LaunchKernel k a2) (eventual s1)) s1 (push (LaunchKernel k a2) (waitListView s1) ev (called s1))) as Hp.
    { apply (pushed_same_l _ _ s1 (called s1)); [done|]. apply (pushed_push (LaunchKernel k a2) _ _ (called s1)). }
    apply (inv_pushed user _ _ s1 _ σ _ Hi1 Hp); simpl; try done.
    + intros z (p & Hin & Hz). apply list_elem_of_lookup in Hin as [j Hj].
      destruct (Forall2_lookup_r _ _ _ _ _ Hps Hj) as (x & _ & (mb & b & Hmb & Hb & Hp') & Hn & mr & Hmr & Hpar & Ho & Hs). simplify_eq.
      apply (base_accessible user s1 σ _ _ b z Hi1 Hmb Hb). ranges. lia.
    + intros h. apply is_Some_windows.
    + rewrite Hev. apply (run_args_content s1 σ); [done|done|].
      rewrite <-Hev. apply Hi1.
Qed.
End commands.
End L0Commands.
