(* ===== verification/L0MemoryHandles.v ===== *)
(** * Creating and releasing the memory objects of the Level Zero v2 adapter

    The invariant of [L0MemoryProofs] is kept by the constructors, with the
    failures that leave them, by sub-buffers and by the last release, which copies
    back and frees each allocation once. *)
From stdpp Require Import base numbers list gmap relations.
From S2P Require Import Prelude UrUtil FlatMemory L0Memory L0MemoryProofs L0MemoryCommands.
Import Util.
Local Open Scope Z_scope.

Module L0Handles.
Import L0Mem L0Spec L0Facts L0Commands.

Section handles.
Context `{LevelZero, L0Context} (user : Z → Prop) (Hdriver : driver_ok user).
Local Abbreviation inv := (inv user).
Local Abbreviation quiet := (quiet user).
Local Abbreviation fresh := (fresh user).
Local Abbreviation unclaimed := (unclaimed user).

(** ** New handles *)
Definition add_array (h : Z) (c : content) (σ : spec) : spec := {| arrays := <[h := c]> (arrays σ); maps := maps σ |}.

Lemma inv_next s σ : inv s σ → mems s !! next_handle s = None.
Proof.
  intros Hi. destruct (mems s !! next_handle s) as [m|] eqn:E; [|done].
  destruct (inv_handle _ _ _ Hi _ _ E) as [? _]. lia.
Qed.
Lemma childless s σ h : inv s σ → mems s !! h = None → children (mems s) h = 0%nat.
Proof.
  intros Hi Hh. unfold children. apply map_size_empty_iff, map_empty. intros h'. apply map_lookup_filter_None. right. intros m Hm Hp. simpl in Hp.
  destruct (inv_handle _ _ _ Hi _ _ Hm) as (_ & _ & _ & _ & Hok). unfold buffer_ok in Hok. unfold parent in Hp.
  destruct (buffer m); simplify_eq. destruct Hok as (_ & mp & ? & _). congruence.
Qed.

(** What a new handle relies on. *)
Definition apart (s : state) (x : Z * Z * bool) : Prop :=
  claim_ok user (allocations s) x ∧ ∀ h m y, mems s !! h = Some m → y ∈ claims m → ¬ overlap x.1 y.1.

Lemma overlap_sym x y : overlap x y → overlap y x.
Proof. intros (a & ? & ?). by exists a. Qed.
(** Memory of the pool and memory of the application are apart. *)
Lemma apart_kinds s σ x y : inv s σ → claim_ok user (allocations s) x → claim_ok user (allocations s) y →
  x.2 ≠ y.2 → ¬ overlap x.1 y.1.
Proof.
  intros Hi (_ & _ & Hx) (_ & _ & Hy) Hne (a & Ha & Hb).
  destruct x as [x []], y as [y []]; simpl in *; try done.
  - destruct (inv_alloc _ _ _ Hi x Hx) as (_ & _ & Hu). by apply (Hu a), Hy.
  - destruct (inv_alloc _ _ _ Hi y Hy) as (_ & _ & Hu). by apply (Hu a), Hx.
Qed.

Lemma inv_new_handle s σ m A : inv s σ → RefCount m = 1 → 0 < getSize m < 2 ^ 64 →
  buffer_ok user (mems s) (next_handle s) m → NoDup (claims m) → (∀ x, x ∈ claims m → apart s x) →
  (∀ x y, x ∈ claims m → y ∈ claims m → x.2 = y.2 → x = y) →
  (∀ p, parent m = Some p → ∃ mp, mems s !! p = Some mp ∧ Z.of_nat (children (mems s) p) < RefCount mp) →
  (∀ h, is_Some (A !! h) ↔ is_Some (arrays σ !! h) ∨ h = next_handle s ∧ parent m = None) →
  content_ok (mems (new_handle m s)) (eventual s) A →
  inv (new_handle m s) {| arrays := A; maps := maps σ |}.
Proof.
  intros Hi Hrc Hsz Hok Hnd Hap Hone Hpar Hdom Hc. pose proof (inv_next _ _ Hi) as Hnext.
  assert (∀ h m0, mems s !! h = Some m0 → next_handle s ≠ h) as Hne by (intros h m0 Hm0 <-; congruence).
  assert (∀ p mp, mems s !! p = Some mp → ∃ mp', <[next_handle s := m]> (mems s) !! p = Some mp' ∧ getSize mp' = getSize mp) as Hmono.
  { intros p mp Hmp. exists mp. rewrite lookup_insert_ne; [done|by eapply Hne]. }
  split; simpl; try apply Hi.
  - intros h m0. rewrite children_insert_new by done. rewrite lookup_insert. case_decide as Hh; [intros [= <-]|intros Hm0].
    + subst h. rewrite (childless s σ) by done. rewrite decide_False by (intros (mp & Hmp & _)%Hpar; congruence).
      pose proof (inv_pos _ _ _ Hi). rewrite Hrc. split_and!; try lia. by eapply buffer_ok_mono.
    + destruct (inv_handle _ _ _ Hi h m0 Hm0) as (? & ? & ? & ? & ?). split_and!; try lia; [|by eapply buffer_ok_mono].
      case_decide as Hp; [|lia]. destruct (Hpar h Hp) as (mp & ? & ?). simplify_eq. lia.
  - intros h m0 x. rewrite lookup_insert. case_decide; [intros [= <-]; by apply Hap|by apply Hi].
  - intros h m0. rewrite lookup_insert. case_decide; [by intros [= <-]|by apply Hi].
  - intros h1 h2 m1 m2 x1 x2. rewrite !lookup_insert. case_decide as E1; case_decide as E2.
    + intros [= <-] [= <-] Hx1 Hx2 Ho. split; [congruence|]. destruct (decide (x1.2 = x2.2)); [by apply Hone|].
      by destruct (apart_kinds s σ x1 x2 Hi (proj1 (Hap _ Hx1)) (proj1 (Hap _ Hx2))).
    + intros [= <-] Hm2 Hx1 Hx2 Ho. by destruct (proj2 (Hap _ Hx1) h2 m2 x2).
    + intros Hm1 [= <-] Hx1 Hx2 Ho%overlap_sym. by destruct (proj2 (Hap _ Hx2) h1 m1 x1).
    + by apply Hi.
  - intros h. rewrite Hdom, (inv_dom _ _ _ Hi h), lookup_insert. case_decide as Hh.
    + subst h. split; [|intros (m0 & [= <-] & ?); by right]. intros [(m0 & ? & _)|[_ ?]]; [congruence|by exists m].
    + split; [intros [|[-> _]]; done|by left].
  - exact Hc.
  - intros r p off n fl Hmp. destruct (inv_maps _ _ _ Hi r p off n fl Hmp) as (m0 & Hm0 & Hrest). exists m0.
    rewrite lookup_insert_ne by (by eapply Hne). done.
  - pose proof (inv_pos _ _ _ Hi). lia.
Qed.

(** A new root: its bytes are the ones of its memory. *)
Lemma inv_new_root s σ m c : inv s σ → parent m = None → RefCount m = 1 → 0 < getSize m < 2 ^ 64 →
  buffer_ok user (mems s) (next_handle s) m → NoDup (claims m) → (∀ x, x ∈ claims m → apart s x) →
  (∀ x y, x ∈ claims m → y ∈ claims m → x.2 = y.2 → x = y) →
  (∀ i v, 0 ≤ i < getSize m → c i = Some v → ∃ b, base (buffer m) = Some b ∧ eventual s (b + i) = v) →
  inv (new_handle m s) (add_array (next_handle s) c σ).
Proof.
  intros Hi Hp Hrc Hsz Hok Hnd Hap Hone Hc. apply (inv_new_handle s σ m); try done.
  - intros p. by rewrite Hp.
  - intros h. rewrite lookup_insert. case_decide as Hh; [|naive_solver]. subst. split; [by right|by eexists].
  - intros h m0 c0 i v. simpl. rewrite !lookup_insert. case_decide as Hh.
    + intros [= <-] [= <-]. apply Hc.
    + apply (inv_content _ _ _ Hi).
Qed.

(** The reference count changes. *)
Lemma inv_RefCount s σ h m n : inv s σ → mems s !! h = Some m → 1 ≤ n < 2 ^ 32 →
  Z.of_nat (children (mems s) h) ≤ n → inv (set_mems <[h := with_RefCount n m]> s) σ.
Proof.
  intros Hi Hm Hn Hch. destruct (inv_handle _ _ _ Hi h m Hm) as (? & ? & ? & ? & Hok).
  set (m1 := with_RefCount n m). split; simpl; try apply Hi.
  - intros h' m'. rewrite (children_insert_same _ _ m) by done. rewrite lookup_insert.
    assert (∀ p mp, mems s !! p = Some mp → ∃ mp', <[h:=m1]> (mems s) !! p = Some mp' ∧ getSize mp' = getSize mp) as Hmono.
    { intros p mp Hmp. rewrite lookup_insert. case_decide; [subst; simplify_eq; by exists m1|by exists mp]. }
    case_decide as Hh; [subst h'; intros [= <-]|intros Hm'].
    + change (getSize m1) with (getSize m). change (RefCount m1) with n. split_and!; try lia. exact (buffer_ok_mono user _ _ h m Hmono Hok).
    + destruct (inv_handle _ _ _ Hi h' m' Hm') as (? & ? & ? & ? & ?). split_and!; try done; try lia. by eapply buffer_ok_mono.
  - intros h' m' x. rewrite lookup_insert. case_decide; [intros [= <-]; subst h'; exact (inv_claim _ _ _ Hi h m x Hm)|by apply Hi].
  - intros h' m'. rewrite lookup_insert. case_decide; [intros [= <-]; exact (inv_nodup _ _ _ Hi h m Hm)|by apply Hi].
  - assert (∀ h' m', <[h:=m1]> (mems s) !! h' = Some m' → ∃ m0, mems s !! h' = Some m0 ∧ claims m0 = claims m') as Hcl.
    { intros h' m'. rewrite lookup_insert. case_decide; [subst h'; intros [= <-]; by exists m|by exists m']. }
    intros h1 h2 m2 m3 x1 x2 (m2' & ? & <-)%Hcl (m3' & ? & <-)%Hcl. by apply (inv_disjoint _ _ _ Hi).
  - intros h'. rewrite (inv_dom _ _ _ Hi h'), lookup_insert. case_decide; [subst h'|done].
    split; intros (m0 & Hm0 & Hp0); simplify_eq; by eexists.
  - intros h' m' c i v. rewrite lookup_insert. case_decide; [subst h'; intros [= <-]; exact (inv_content _ _ _ Hi h m c i v Hm)|by apply (inv_content _ _ _ Hi)].
  - intros r p off k fl Hmp. destruct (inv_maps _ _ _ Hi r p off k fl Hmp) as (m0 & Hm0 & Hrest).
    rewrite lookup_insert. case_decide; [subst r; simplify_eq; by exists m1|by exists m0].
Qed.

(** ** Destroying the members of a buffer *)
(** The pointers that go back to the pool. *)
Definition owned (l : list usm_unique_ptr_t) : list Z :=
  ptr_get <$> filter (λ p, ptr_get p ≠ 0 ∧ ptr_deleter p = PoolFree) l.
Definition droppable (s : state) (p : Z) : Prop :=
  ∃ n, (p, n) ∈ allocations s ∧ (∀ a, in_range p n a = true → ¬ busy s a) ∧
    ∀ h m x, mems s !! h = Some m → x ∈ claims m → x.2 = true → x.1.1 ≠ p.

Lemma owned_cons p l : owned (p :: l) =
  if decide (ptr_get p ≠ 0 ∧ ptr_deleter p = PoolFree) then ptr_get p :: owned l else owned l.
Proof. unfold owned. rewrite filter_cons. by case_decide. Qed.
Lemma owned_app l1 l2 : owned (l1 ++ l2) = owned l1 ++ owned l2.
Proof. unfold owned. by rewrite filter_app, fmap_app. Qed.

(** What destroying members leaves alone. *)
Definition keeps (s s' : state) : Prop :=
  mem s' = mem s ∧ mems s' = mems s ∧ commands s' = commands s ∧ next_handle s' = next_handle s.

Lemma run_deleter_ok s σ p r s' : inv s σ → (p.(ptr_get) ≠ 0 → ptr_deleter p = PoolFree → droppable s (ptr_get p)) →
  run_deleter p s = (r, s') → r = inr () ∧ inv s' σ ∧ keeps s s' ∧
  ∀ q, (ptr_get p ≠ 0 → ptr_deleter p = PoolFree → q ≠ ptr_get p) → droppable s q → droppable s' q.
Proof.
  intros Hi Hd Hr. unfold run_deleter in Hr. destruct (Z.eqb_spec (ptr_get p) 0) as [E|E]; [by injection Hr as <- <-|].
  assert (∀ r s', ignore ze s = (r, s') → r = inr () ∧ s' = called s) as Hig.
  { intros r0 s0. unfold ignore, ze. by destruct (ze_error (calls s)); intros [= <- <-]. }
  assert (inv (called s) σ) as Hc by by apply l0_called_quiet.
  destruct (ptr_deleter p) eqn:Ed.
  - by injection Hr as <- <-.
  - injection Hr as <- <-. destruct (Hd E eq_refl) as (n & Hin & Hb & Hcl). split_and!; try done.
    + by apply (inv_free_allocation user s σ _ n).
    + intros q Hq (k & Hk & Hkb & Hkc). exists k. split_and!; try done. apply list_elem_of_filter.
      split; [simpl; by apply Hq|done].
  - by apply Hig in Hr as [-> ->].
  - by apply Hig in Hr as [-> ->].
Qed.

Lemma l0_destroy_ok l : ∀ s σ, inv s σ → NoDup (owned l) → (∀ p, p ∈ owned l → droppable s p) →
  ∃ s', forM l run_deleter s = (inr (), s') ∧ inv s' σ ∧ keeps s s'.
Proof.
  induction l as [|p l IH]; intros s σ Hi Hnd Hd; [by exists s|]. rewrite owned_cons in Hnd, Hd.
  cbn [forM]. unfold mbind, M_bind. destruct (run_deleter p s) as [r s1] eqn:Er.
  apply (run_deleter_ok s σ) in Er as (-> & Hi1 & (Km & Kh & Kc & Kn) & Hd1); [|done|].
  2: { intros E Ed. apply Hd. rewrite decide_True by done. by left. }
  destruct (IH s1 σ) as (s2 & -> & Hi2 & (Km2 & Kh2 & Kc2 & Kn2)); [done|by case_decide; [apply NoDup_cons in Hnd as [_ ?]|]| |].
  - intros q Hq. apply Hd1.
    + intros E Ed ->. rewrite decide_True in Hnd by done. by apply NoDup_cons in Hnd as [? _].
    + apply Hd. case_decide; [by right|done].
  - exists s2. split_and!; try done. unfold keeps. split_and!; congruence.
Qed.

(** ** Constructors *)
(** [s1] is [s] after calls to the driver that may have allocated [al], where they
    may have written. *)
Record after (σ : spec) (s s1 : state) (al : list (Z * Z)) : Prop := {
  af_inv : inv s1 σ;
  af_mems : mems s1 = mems s;
  af_next : next_handle s1 = next_handle s;
  af_commands : commands s1 = commands s;
  af_allocations : allocations s1 = al ++ allocations s;
  af_mem a : user a → mem s1 a = mem s a }.

Lemma after_refl σ s : inv s σ → after σ s s [].
Proof. by split. Qed.
Lemma after_called σ s s1 al : after σ s s1 al → after σ s (called s1) al.
Proof. intros []. split; try done. by apply l0_called_quiet. Qed.
Lemma after_ze σ s s1 al r s2 : after σ s s1 al → ze s1 = (r, s2) → after σ s s2 al ∧ (r = inr () ∨ ∃ e, r = inl (Code e)).
Proof. intros Ha [-> Hr]%ze_cases. split; [by apply after_called|done]. Qed.

Lemma fresh_not_busy s σ p n a : inv s σ → fresh s p n → in_range p n a = true → ¬ busy s a.
Proof.
  intros Hi (_ & _ & Hf) Ha Hb. destruct (Hf a Ha) as [Hu Hno].
  destruct (inv_pending _ _ _ Hi a Hb) as [|(q & k & Hin & Hq)]; [done|]. apply Hno in Hin. simpl in Hin. congruence.
Qed.
Lemma after_not_busy σ s s1 al p n a : inv s σ → after σ s s1 al → fresh s p n → in_range p n a = true → ¬ busy s1 a.
Proof. intros Hi Ha Hf Hin. unfold busy. rewrite (af_commands _ _ _ _ Ha). by apply (fresh_not_busy s σ p n). Qed.

Lemma after_allocate σ s s1 n r s2 : 0 < n → after σ s s1 [] → allocate n s1 = (r, s2) →
  (∃ e, r = inl (Code e) ∧ after σ s s2 []) ∨ ∃ p, r = inr p ∧ fresh s p n ∧ after σ s s2 [(p, n)].
Proof.
  intros Hn Ha Hr. pose proof (af_inv _ _ _ _ Ha) as Hi1.
  destruct (l0_allocate_ok user Hdriver s1 σ n r s2 Hi1 Hn Hr) as (Hq & Hret & Hp). destruct r as [[e|]|p]; [left|done|right].
  - exists e. split; [done|]. unfold allocate in Hr. destruct (ze s1) as [[e'|[]] s3] eqn:E; [|done].
    injection Hr as -> <-. by apply (after_ze _ _ _ _ _ _ Ha) in E as [? _].
  - exists p. destruct (Hp p eq_refl) as [Hf ->]. pose proof (q_inv _ _ _ _ Hq) as Hi2. destruct Ha as [? Em En Ec Ea Eu].
    split; [done|]. split; [unfold L0Facts.fresh in *; by rewrite Ea in Hf|]. split; try done. simpl. by rewrite Ea.
Qed.

(** Bytes of a fresh allocation belong to no buffer. *)
Lemma after_unheld σ s s1 al p n a : inv s σ → after σ s s1 al → fresh s p n → in_range p n a = true → holds_nothing s1 σ a.
Proof.
  intros Hi Ha Hf Hin h m c b Hm _ Hb Hr. exfalso. rewrite (af_mems _ _ _ _ Ha) in Hm.
  destruct (inv_handle _ _ _ Hi h m Hm) as (_ & _ & _ & _ & Hok). destruct (base_claim user _ _ _ _ Hok Hb) as [o Hc].
  apply (fresh_no_overlap user s σ p n h m _ Hi Hf Hm Hc). by exists a.
Qed.

Lemma after_copy σ s s1 p src n r s2 : inv s σ → fresh s p n → after σ s s1 [(p, n)] →
  (∀ a, in_range src n a = true → user a) → synchronousZeCopy p src n s1 = (r, s2) →
  after σ s s2 [(p, n)] ∧ ((∃ e, r = inl (Code e)) ∨
    r = inr () ∧ ∀ i, 0 ≤ i < n → eventual s2 (p + i) = mem s (src + i)).
Proof.
  intros Hi Hf Ha Hsrc Hr. unfold synchronousZeCopy in Hr.
  step Hr; apply (after_ze _ _ _ _ _ _ Ha) in E as [Ha1 Hcode]; [|destruct Hcode as [|[e' [= ->]]]; [done|split; [done|left; by eexists]]].
  step Hr; apply (after_ze _ _ _ _ _ _ Ha1) in E as [Ha2 Hcode2]; [|destruct Hcode2 as [|[e' [= ->]]]; [done|split; [done|left; by eexists]]].
  injection Hr as <- <-. set (X a := in_range p n a = true).
  assert (∀ a, X a → ¬ busy s3 a) as Hbusy by (intros x; by apply (after_not_busy σ s s3 _ p n x Hi Ha2 Hf)).
  assert (same_but X (mem s3) (memcpy p src n (mem s3))) as Hsame.
  { intros x Hx. symmetry. apply memcpy_outside. by apply not_true_iff_false. }
  destruct (eventual_set_mem s3 _ X Hbusy Hsame) as [Hout Hin]. pose proof (af_inv _ _ _ _ Ha2) as Hi3.
  split; [|right; split; [done|]].
  - destruct Ha2. split; try done.
    + apply (inv_change user s3 _ σ); try done; [apply Hi3|]. apply content_frame; [apply Hi3|]. intros x.
      destruct (in_range p n x) eqn:E; [right; by apply (after_unheld σ s s3 [(p, n)] p n)|left; symmetry; apply Hout; unfold X; congruence].
    + intros x Hx. simpl. rewrite memcpy_outside; [by apply af_mem0|]. apply not_true_iff_false. intros Hr. destruct Hf as (_ & _ & Hf). by apply (Hf x Hr).
  - intros i Hir. rewrite (Hin (p + i)) by (unfold X; ranges; lia). rewrite memcpy_inside by done. apply (af_mem _ _ _ _ Ha2), Hsrc. ranges. lia.
Qed.

Lemma after_apart_fresh σ s s1 p n : inv s σ → fresh s p n → after σ s s1 [(p, n)] → apart s1 (p, n, true).
Proof.
  intros Hi Hf Ha. pose proof Hf as (Hp & Hn & _). split; [split_and!; try done|].
  - rewrite (af_allocations _ _ _ _ Ha). by left.
  - intros h m y. rewrite (af_mems _ _ _ _ Ha). simpl. by apply (fresh_no_overlap user s σ).
Qed.
Lemma after_apart_host σ s s1 al q n : 0 < n → unclaimed s q n → after σ s s1 al → apart s1 (q, n, false).
Proof.
  intros Hn [Hq Hu] Ha. split; [split_and!; [done..|]; intros a Hin; by apply Hu|].
  intros h m y. rewrite (af_mems _ _ _ _ Ha). intros Hm Hy (a & Hin & Hiny). simpl in Hin.
  destruct (Hu a Hin) as (_ & _ & Hno). rewrite (Hno h m y Hm Hy) in Hiny. done.
Qed.
Lemma after_droppable σ s s1 p n : inv s σ → fresh s p n → after σ s s1 [(p, n)] → droppable s1 p.
Proof.
  intros Hi Hf Ha. exists n. split_and!.
  - rewrite (af_allocations _ _ _ _ Ha). by left.
  - intros a. by apply (after_not_busy σ s s1 _ p n a Hi Ha Hf).
  - intros h m x Hm Hx Ho Hp. destruct (after_apart_fresh _ _ _ _ _ Hi Hf Ha) as [_ Hno]. apply (Hno h m x Hm Hx).
    destruct (inv_claim _ _ _ (af_inv _ _ _ _ Ha) h m x Hm Hx) as (? & ? & _), Hf as (? & ? & _).
    exists p. simpl. split; ranges; lia.
Qed.

(** One piece of the pool and one of the application at most. *)
Definition two_claims (l : list (Z * Z * bool)) : Prop := ∃ l1 l2, l = l1 ++ l2 ∧
  (l1 = [] ∨ ∃ x, l1 = [(x, true)]) ∧ (l2 = [] ∨ ∃ y, l2 = [(y, false)]).
Lemma two_claims_unique l : two_claims l → NoDup l ∧ ∀ x y, x ∈ l → y ∈ l → x.2 = y.2 → x = y.
Proof.
  intros (l1 & l2 & -> & [->|[x ->]] & [->|[y ->]]); simpl;
    (split; [|intros a b; rewrite ?elem_of_cons, ?elem_of_nil; naive_solver]).
  - constructor.
  - apply NoDup_singleton.
  - apply NoDup_singleton.
  - apply NoDup_cons. split; [by intros [=]%list_elem_of_singleton|apply NoDup_singleton].
Qed.

(** What a constructor leaves behind: the handle [m1], or members to destroy. *)
Definition constructs (σ : spec) (s : state) (rb : fault + ()) (m1 : ur_mem_handle) (s1 : state) (c : content) : Prop :=
  (∃ al, after σ s s1 al) ∧
  match rb with
  | inr _ => parent m1 = None ∧ RefCount m1 = 1 ∧ 0 < getSize m1 < 2 ^ 64 ∧
      buffer_ok user (mems s1) (next_handle s1) m1 ∧ two_claims (claims m1) ∧ (∀ x, x ∈ claims m1 → apart s1 x) ∧
      ∀ i v, 0 ≤ i < getSize m1 → c i = Some v → ∃ b, base (buffer m1) = Some b ∧ eventual s1 (b + i) = v
  | inl (Code _) => NoDup (owned (members (buffer m1))) ∧ ∀ p, p ∈ owned (members (buffer m1)) → droppable s1 p
  | inl NoReturn => False
  end.

Definition skip (s : state) : state := set_mems (delete (next_handle s)) (new_handle {| buffer := SubBuffer 0 0; getSize := 0; getDeviceAccessMode := read_write; RefCount := 0 |} s).
Lemma inv_skip s σ : inv s σ → inv (skip s) σ ∧ mems (skip s) = mems s.
Proof.
  intros Hi. assert (mems (skip s) = mems s) as E by (simpl; rewrite delete_insert_id; [done|by eapply inv_next]).
  split; [|done]. destruct Hi. split; rewrite ?E; try done.
  - intros h m Hm. destruct (inv_handle0 h m Hm) as (? & ? & ? & ? & ?). split_and!; try done; simpl; lia.
  - simpl. lia.
Qed.

Lemma l0_create_ok b size mode body σ s rb m1 s1 c r s' : inv s σ →
  body (next_handle s) (new_handle {| buffer := b; getSize := size; getDeviceAccessMode := mode; RefCount := 1 |} s) =
    (rb, new_handle m1 s1) → constructs σ s rb m1 s1 c → create b size mode body s = (r, s') →
  returns r ∧ match r with
              | inr h => h = next_handle s ∧ inv s' (add_array h c σ)
              | inl _ => inv s' σ
              end.
Proof.
  intros Hi Hb [[al Ha] Hc] Hr. pose proof (af_inv _ _ _ _ Ha) as Hi1. pose proof (af_next _ _ _ _ Ha) as Hn.
  unfold create, mbind, M_bind, on_error in Hr. rewrite Hb in Hr. destruct rb as [[e|]|[]]; [|done|].
  - destruct Hc as [Hnd Hd]. unfold get in Hr. simpl in Hr. rewrite Hn, lookup_insert_eq in Hr.
    injection Hr as <- <-. split; [done|].
    destruct (inv_skip s1 σ Hi1) as [Hi2 Em].
    assert (set_mems (delete (next_handle s)) (new_handle m1 s1) = skip s1) as ->.
    { unfold skip, set_mems, new_handle. simpl. by rewrite Hn, !delete_insert_eq. }
    destruct (l0_destroy_ok (members (buffer m1)) (skip s1) σ Hi2 Hnd) as (s2 & Hs2 & Hi3 & _).
    { intros p Hp. destruct (Hd p Hp) as (n & ? & ? & Hcl). exists n. rewrite Em. done. }
    unfold destroy_members. by rewrite Hs2.
  - injection Hr as <- <-. split; [done|]. split; [done|].
    destruct Hc as (Hp & Hrc & Hsz & Hok & Htwo & Hap & Hcont). apply two_claims_unique in Htwo as [Hnd Hone].
    rewrite <-Hn. by apply inv_new_root.
Qed.

(** *** The operations of a constructor do not look at the new handle *)
Definition lifts {A} (f : M A) : Prop := ∀ m s, f (new_handle m s) = ((f s).1, new_handle m (f s).2).
Lemma lifts_ze : lifts ze.
Proof. intros m s. unfold ze. simpl. by destruct (ze_error (calls s)). Qed.
Lemma lifts_bind {A B} (f : M A) (g : A → M B) : lifts f → (∀ a, lifts (g a)) → lifts (f ≫= g).
Proof. intros Hf Hg m s. unfold mbind, M_bind. rewrite Hf. destruct (f s) as [[e|a] s1]; [done|]. simpl. apply Hg. Qed.
Lemma lifts_copy dst src n : lifts (synchronousZeCopy dst src n).
Proof. apply lifts_bind; [apply lifts_ze|intros _]. apply lifts_bind; [apply lifts_ze|]. by intros _ m s. Qed.
Lemma lifts_allocate n : lifts (allocate n).
Proof. intros m s. unfold allocate. rewrite lifts_ze. by destruct (ze s) as [[e|[]] s1]. Qed.
Lemma lifts_import p : lifts (maybeImportUSM p).
Proof. intros m s. unfold maybeImportUSM. simpl. destruct (_ || _); [done|]. by destruct (_ && _). Qed.

Lemma set_buffer_new h b m s : h = next_handle s → set_buffer h b (new_handle m s) = (inr (), new_handle (with_buffer b m) s).
Proof.
  intros ->. unfold set_buffer, mbind, M_bind, get. simpl. rewrite lookup_insert_eq. unfold put, modify, set_mems, new_handle.
  simpl. by rewrite insert_insert_eq.
Qed.
Lemma get_discrete_new h m b s : h = next_handle s → buffer m = Discrete b →
  get_discrete h (new_handle m s) = (inr b, new_handle m s).
Proof. intros -> Hb. unfold get_discrete, mbind, M_bind, get. simpl. by rewrite lookup_insert_eq, Hb. Qed.

Lemma import_cases σ s p r s1 : inv s σ → maybeImportUSM p s = (r, s1) →
  ∃ b : bool, r = inr b ∧ (b = true → p ≠ 0) ∧ after σ s s1 [].
Proof.
  intros Hi. unfold maybeImportUSM. destruct (_ || _) eqn:E.
  - intros [= <- <-]. exists false. by split_and!.
  - apply orb_false_iff in E as [_ E]. destruct (_ && _); intros [= <- <-]; eexists; (split; [done|]); (split; [intros _; lia|]);
      repeat apply after_called; by apply after_refl.
Qed.

Definition allocated (p : Z) : usm_unique_ptr_t := {| ptr_get := p; ptr_deleter := PoolFree |}.

(** The first allocation of a discrete buffer. *)
Lemma allocateOnDevice_new σ s s1 m b d n r s2 : 0 < n → after σ s s1 [] → buffer m = Discrete b →
  ptr_get (device_ptr b d) = 0 → allocateOnDevice (next_handle s) d n (new_handle m s1) = (r, s2) →
  (∃ e s3, r = inl (Code e) ∧ s2 = new_handle m s3 ∧ after σ s s3 []) ∨
  ∃ p s3, r = inr p ∧ s2 = new_handle (with_buffer (Discrete (with_device d (allocated p) b)) m) s3 ∧
    fresh s p n ∧ after σ s s3 [(p, n)].
Proof.
  intros Hn Ha Hb Hnull. unfold allocateOnDevice, mbind, M_bind at 1. rewrite lifts_allocate.
  destruct (allocate n s1) as [ra s3] eqn:E. apply (after_allocate σ s) in E as [(e & -> & Ha3)|(p & -> & Hf & Ha3)]; try done; simpl.
  - intros [= <- <-]. left. by exists e, s3.
  - unfold mbind, M_bind. rewrite (get_discrete_new _ _ b), set_buffer_new by (done || by rewrite (af_next _ _ _ _ Ha3)).
    unfold run_deleter. rewrite Hnull. simpl. intros [= <- <-]. right. by exists p, s3.
Qed.

(** *** [urMemBufferCreate] *)
Definition host_content (s : state) (p : Z) : content := if p =? 0 then λ _, None else λ i, Some (mem s (p + i)).

Lemma after_host_bytes σ s s1 al q n i : unclaimed s q n → after σ s s1 al → 0 ≤ i < n → eventual s1 (q + i) = mem s (q + i).
Proof.
  intros [_ Hu] Ha Hi. destruct (Hu (q + i)) as (Hus & Hb & _); [ranges; lia|].
  rewrite eventual_idle; [by apply (af_mem _ _ _ _ Ha)|]. unfold busy. by rewrite (af_commands _ _ _ _ Ha).
Qed.
Lemma constructs_failed σ s s1 al m e c : after σ s s1 al → owned (members (buffer m)) = [] →
  constructs σ s (inl (Code e)) m s1 c.
Proof. intros Ha Ho. split; [by exists al|]. rewrite Ho. split; [constructor|]. by intros p ?%not_elem_of_nil. Qed.
Lemma constructs_failed_fresh σ s s1 p n m e c : inv s σ → fresh s p n → after σ s s1 [(p, n)] →
  owned (members (buffer m)) = [p] → constructs σ s (inl (Code e)) m s1 c.
Proof.
  intros Hi Hf Ha Ho. split; [by eexists|]. rewrite Ho. split; [apply NoDup_singleton|].
  intros q ->%list_elem_of_singleton. by apply (after_droppable σ s s1 p n).
Qed.

Lemma owned_allocated p : p ≠ 0 → owned [allocated p] = [p].
Proof. intros Hp. rewrite owned_cons. by rewrite decide_True. Qed.
Lemma integrated_claims p q size mode : p ≠ 0 →
  claims {| buffer := make_integrated (allocated p) q; getSize := size; getDeviceAccessMode := mode; RefCount := 1 |} =
  [(p, size, true)] ++ host_claim q size.
Proof. intros Hp. unfold claims, ptr_claim. simpl. by rewrite (proj2 (Z.eqb_neq p 0)). Qed.

(** An integrated buffer of the pool, with the application's memory to copy back to or none. *)
Lemma constructs_pool σ s s1 p q n mode c : inv s σ → fresh s p n → 0 < n < 2 ^ 64 → after σ s s1 [(p, n)] →
  (q ≠ 0 → unclaimed s q n) → (∀ i v, 0 ≤ i < n → c i = Some v → eventual s1 (p + i) = v) →
  constructs σ s (inr ()) {| buffer := make_integrated (allocated p) q; getSize := n; getDeviceAccessMode := mode; RefCount := 1 |} s1 c.
Proof.
  intros Hi Hf Hn Ha Hq Hc. pose proof Hf as (Hp & _). split; [by eexists|]. split_and!; try done; try (simpl; lia).
  - rewrite integrated_claims by lia. eexists [_], _. split; [done|]. split; [by right; eexists|].
    unfold host_claim. destruct (q =? 0); [by left|by right; eexists].
  - rewrite integrated_claims by lia. intros x [->%list_elem_of_singleton|[Hq0 ->]%elem_of_host_claim]%elem_of_app.
    + by apply (after_apart_fresh σ s).
    + eapply (after_apart_host σ s s1); [lia| |done]. by apply Hq.
  - intros i v Hi' Hv. exists p. split; [done|]. by apply Hc.
Qed.
Lemma constructs_imported σ s s1 q n mode d : inv s σ → unclaimed s q n → 0 < n < 2 ^ 64 → after σ s s1 [] → d ≠ PoolFree →
  constructs σ s (inr ()) {| buffer := make_integrated {| ptr_get := q; ptr_deleter := d |} 0; getSize := n;
    getDeviceAccessMode := mode; RefCount := 1 |} s1 (λ i, Some (mem s (q + i))).
Proof.
  intros Hi Hu Hn Ha Hd. pose proof Hu as [Hq _]. split; [by eexists|].
  assert (claims {| buffer := make_integrated {| ptr_get := q; ptr_deleter := d |} 0; getSize := n;
    getDeviceAccessMode := mode; RefCount := 1 |} = [(q, n, false)]) as Hcl.
  { unfold claims, ptr_claim. simpl. by rewrite (proj2 (Z.eqb_neq q 0)), bool_decide_false by (done || lia). }
  split_and!; try done; try (simpl; lia).
  - rewrite Hcl. exists [], [(q, n, false)]. split; [done|]. split; [by left|right; by eexists].
  - rewrite Hcl. intros x ->%list_elem_of_singleton. eapply (after_apart_host σ s s1); [lia|done..].
  - simpl. intros i v Hi' [= <-]. exists q. split; [done|]. by eapply after_host_bytes.
Qed.

Lemma construct_integrated_ok σ s q n mode rb s2 : inv s σ → 0 < n < 2 ^ 64 → (q ≠ 0 → unclaimed s q n) →
  construct_integrated q n (next_handle s) (new_handle {| buffer := make_integrated null_ptr 0; getSize := n;
    getDeviceAccessMode := mode; RefCount := 1 |} s) = (rb, s2) →
  ∃ m1 s1, s2 = new_handle m1 s1 ∧ constructs σ s rb m1 s1 (host_content s q).
Proof.
  intros Hi Hn Hq. unfold construct_integrated, mbind, M_bind. rewrite lifts_import.
  destruct (maybeImportUSM q s) as [ri s3] eqn:E. apply (import_cases σ) in E as (b & -> & Hb & Ha); [|done]. simpl.
  destruct b.
  - rewrite set_buffer_new by (by rewrite (af_next _ _ _ _ Ha)). intros [= <- <-]. eexists _, _. split; [done|].
    unfold host_content. rewrite (proj2 (Z.eqb_neq q 0)) by auto. apply constructs_imported; auto.
  - rewrite lifts_allocate. destruct (allocate n s3) as [ra s4] eqn:E.
    apply (after_allocate σ s) in E as [(e & -> & Ha4)|(p & -> & Hf & Ha4)]; [..|lia|done]; simpl.
    { intros [= <- <-]. eexists _, _. split; [done|]. by eapply constructs_failed. }
    rewrite set_buffer_new by (by rewrite (af_next _ _ _ _ Ha4)). pose proof Hf as (Hp & _). unfold host_content.
    destruct (Z.eqb_spec q 0) as [->|Hq0]; simpl.
    { intros [= <- <-]. eexists _, _. split; [done|]. by apply constructs_pool. }
    rewrite lifts_copy. destruct (synchronousZeCopy p q n s4) as [rc s5] eqn:E. simpl.
    apply (after_copy σ s) in E as [Ha5 [[e ->]|[-> Hbytes]]]; try done; [..|by intros a; apply (Hq Hq0)].
    + intros [= <- <-]. eexists _, _. split; [done|]. eapply constructs_failed_fresh; [done..|].
      change (owned [allocated p] = [p]). apply owned_allocated. lia.
    + rewrite set_buffer_new by (by rewrite (af_next _ _ _ _ Ha5)). intros [= <- <-]. eexists _, _. split; [done|].
      apply constructs_pool; try done. intros i v Hi' [= <-]. by apply Hbytes.
Qed.

(** Discrete buffers: a pointer [x] for the device [d], the pointer [t] that maps
    return and the memory [w] that is written at the end. *)
Definition device_buffer (d : nat) (x t : usm_unique_ptr_t) (a : option nat) (w : Z) : ur_mem_buffer :=
  Discrete (with_device d x (with_mapToPtr t (make_discrete a w))).
Lemma device_ptr_make a w t d : device_ptr (with_mapToPtr t (make_discrete a w)) d = null_ptr.
Proof.
  unfold device_ptr, make_discrete. simpl. rewrite nth_lookup.
  destruct (replicate getNumDevices null_ptr !! d) as [x|] eqn:E; [|done]. by apply lookup_replicate in E as [-> _].
Qed.
Lemma device_ptr_device d x t a w d' : (d < getNumDevices)%nat →
  device_ptr (with_device d x (with_mapToPtr t (make_discrete a w))) d' = if decide (d' = d) then x else null_ptr.
Proof. intros Hd. rewrite device_ptr_with_device by (simpl; by rewrite length_replicate). by rewrite device_ptr_make. Qed.

Lemma device_buffer_claims d x t a w n mode : (d < getNumDevices)%nat →
  claims {| buffer := device_buffer d x t a w; getSize := n; getDeviceAccessMode := mode; RefCount := 1 |} =
  ptr_claim x n ++ ptr_claim t n ++ host_claim w n.
Proof.
  intros Hd. unfold claims. cbn [buffer getSize device_buffer mapToPtr discrete_writeBackPtr hostAllocations].
  unfold active_ptr. simpl. by rewrite device_ptr_device, decide_True.
Qed.
Lemma device_buffer_base d x t a w : (d < getNumDevices)%nat → base (device_buffer d x t a w) = Some (ptr_get x).
Proof. intros Hd. simpl. unfold active_alloc. simpl. by rewrite device_ptr_device, decide_True. Qed.
Lemma device_buffer_ok ms h d x t a w n mode : (d < getNumDevices)%nat → 0 < ptr_get x → ptr_deleter t ≠ PoolFree →
  buffer_ok user ms h {| buffer := device_buffer d x t a w; getSize := n; getDeviceAccessMode := mode; RefCount := 1 |}.
Proof.
  intros Hd Hx Ht. unfold buffer_ok, device_buffer. cbn [buffer]. split; [|by split]. split; [simpl; by rewrite length_insert, length_replicate|].
  cbn [activeAllocationDevice with_device]. split_and!; [done| |intros d' Hd']; rewrite device_ptr_device by done.
  - by rewrite decide_True.
  - by rewrite decide_False.
Qed.

(** Where all but one pointer are null. *)
Lemma owned_nth l d : (∀ d', d' ≠ d → ptr_get (nth d' l null_ptr) = 0) → owned l = owned [nth d l null_ptr].
Proof.
  revert d. induction l as [|x l IH]; intros d Hd; [by destruct d|]. rewrite owned_cons. destruct d as [|d]; simpl.
  - assert (owned l = []) as ->; [|rewrite owned_cons; by case_decide]. clear IH.
    assert (∀ k, ptr_get (nth k l null_ptr) = 0) as Hk by (intros k; by apply (Hd (S k))). clear Hd.
    induction l as [|y l IH]; [done|]. rewrite owned_cons, decide_False by (intros [Hy _]; by apply Hy, (Hk 0%nat)).
    apply IH. intros k. apply (Hk (S k)).
  - rewrite decide_False by (intros [Hy _]; by apply Hy, (Hd 0%nat)). apply IH. intros d' Hne. apply (Hd (S d')). lia.
Qed.
Lemma unallocated_owned t a w : ptr_deleter t ≠ PoolFree → owned (members (Discrete (with_mapToPtr t (make_discrete a w)))) = [].
Proof.
  intros Ht. unfold members. cbn [hostAllocations with_mapToPtr make_discrete fmap list_fmap mapToPtr].
  rewrite app_nil_l, owned_app, owned_cons, decide_False by (by intros [_ ?]). rewrite (owned_nth (deviceAllocations _) 0%nat).
  - pose proof (device_ptr_make a w t 0%nat) as E0. unfold device_ptr in E0. by rewrite E0.
  - intros d' _. pose proof (device_ptr_make a w t d') as E0. unfold device_ptr in E0. by rewrite E0.
Qed.
Lemma device_buffer_owned d x t a w : (d < getNumDevices)%nat → ptr_deleter t ≠ PoolFree →
  owned (members (device_buffer d x t a w)) = owned [x].
Proof.
  intros Hd Ht. unfold members, device_buffer. cbn [hostAllocations with_device with_mapToPtr make_discrete fmap list_fmap].
  rewrite app_nil_l, owned_app. cbn [mapToPtr with_device with_mapToPtr].
  assert (owned [t] = []) as -> by (rewrite owned_cons; by rewrite decide_False by (by intros [_ ?])). rewrite app_nil_l.
  rewrite (owned_nth _ d).
  - f_equal. f_equal. pose proof (device_ptr_device d x t a w d Hd) as E. by rewrite decide_True in E.
  - intros d' Hne. pose proof (device_ptr_device d x t a w d' Hd) as E. rewrite decide_False in E by done.
    unfold device_ptr in E. by rewrite E.
Qed.

Local Abbreviation handle_of b n mode := {| buffer := b; getSize := n; getDeviceAccessMode := mode; RefCount := 1 |}.

Lemma constructs_device σ s s1 p n d q t a w mode c : inv s σ → fresh s p n → 0 < n < 2 ^ 64 → after σ s s1 [(p, n)] →
  (d < getNumDevices)%nat → ptr_deleter t ≠ PoolFree → ptr_claim t n ++ host_claim w n = host_claim q n →
  (q ≠ 0 → unclaimed s q n) → (∀ i v, 0 ≤ i < n → c i = Some v → eventual s1 (p + i) = v) →
  constructs σ s (inr ()) (handle_of (device_buffer d (allocated p) t a w) n mode) s1 c.
Proof.
  intros Hi Hf Hn Ha Hd Ht Hcl Hq Hc. pose proof Hf as (Hp & _). split; [by eexists|].
  assert (claims (handle_of (device_buffer d (allocated p) t a w) n mode) = [(p, n, true)] ++ host_claim q n) as Ecl.
  { rewrite device_buffer_claims, Hcl by done. f_equal. unfold ptr_claim. simpl. by rewrite (proj2 (Z.eqb_neq p 0)) by lia. }
  split; [done|]. split; [done|]. split; [done|]. split; [by apply device_buffer_ok|]. rewrite Ecl. split_and!.
  - exists [(p, n, true)], (host_claim q n). split; [done|]. split; [right; by eexists|].
    unfold host_claim. destruct (q =? 0); [by left|by right; eexists].
  - intros x [->%list_elem_of_singleton|[Hq0 ->]%elem_of_host_claim]%elem_of_app.
    + by apply (after_apart_fresh σ s).
    + eapply (after_apart_host σ s s1); [lia| |done]. by apply Hq.
  - intros i v Hi' Hv. exists p. cbn [buffer]. rewrite device_buffer_base by done. split; [done|]. by apply Hc.
Qed.
Lemma constructs_native σ s s1 q n d t a dl mode : inv s σ → unclaimed s q n → 0 < n < 2 ^ 64 → after σ s s1 [] →
  (d < getNumDevices)%nat → dl ≠ PoolFree → ptr_get t = 0 → ptr_deleter t ≠ PoolFree →
  constructs σ s (inr ()) (handle_of (device_buffer d {| ptr_get := q; ptr_deleter := dl |} t a 0) n mode) s1
    (λ i, Some (mem s (q + i))).
Proof.
  intros Hi Hu Hn Ha Hd Hdl Ht0 Ht. pose proof Hu as [Hq _]. split; [by eexists|].
  assert (claims (handle_of (device_buffer d {| ptr_get := q; ptr_deleter := dl |} t a 0) n mode) = [(q, n, false)]) as Ecl.
  { rewrite device_buffer_claims by done. unfold ptr_claim. simpl. rewrite Ht0, (proj2 (Z.eqb_neq q 0)), bool_decide_false by (done || lia). done. }
  split; [done|]. split; [done|]. split; [done|]. split; [by apply device_buffer_ok|]. rewrite Ecl. split_and!.
  - exists [], [(q, n, false)]. split; [done|]. split; [by left|right; by eexists].
  - intros x ->%list_elem_of_singleton. eapply (after_apart_host σ s s1); [lia|done..].
  - intros i v Hi' [= <-]. exists q. cbn [buffer]. rewrite device_buffer_base by done. split; [done|]. by eapply after_host_bytes.
Qed.

(** Allocating for a device and copying from the application's memory. *)
Lemma migrateBufferTo_new σ s s1 d t a w n mode q rb s2 : inv s σ → 0 < n < 2 ^ 64 → after σ s s1 [] → (d < getNumDevices)%nat →
  q ≠ 0 → unclaimed s q n → ptr_deleter t ≠ PoolFree → ptr_claim t n ++ host_claim w n = host_claim q n →
  migrateBufferTo (next_handle s) d q n (new_handle (handle_of (Discrete (with_mapToPtr t (make_discrete a w))) n mode) s1) = (rb, s2) →
  ∃ m1 s3, s2 = new_handle m1 s3 ∧ constructs σ s rb m1 s3 (host_content s q).
Proof.
  intros Hi Hn Ha Hd Hq Hu Ht Hcl. unfold migrateBufferTo, mbind, M_bind.
  rewrite (get_discrete_new _ _ (with_mapToPtr t (make_discrete a w))) by (done || by rewrite (af_next _ _ _ _ Ha)).
  rewrite device_ptr_make. cbn [ptr_get null_ptr Z.eqb negb].
  destruct (allocateOnDevice _ d n _) as [ra s3] eqn:E.
  apply (allocateOnDevice_new σ s s1 _ (with_mapToPtr t (make_discrete a w))) in E as [(e & s4 & -> & -> & Ha4)|(p & s4 & -> & -> & Hf & Ha4)];
    try done; try lia; [..|by rewrite device_ptr_make].
  - intros [= <- <-]. eexists _, _. split; [done|]. eapply constructs_failed; [done|]. by apply unallocated_owned.
  - rewrite lifts_copy. destruct (synchronousZeCopy p q n s4) as [rc s5] eqn:E. cbn [fst snd]. intros [= <- <-].
    pose proof Hf as (Hp & _).
    eexists _, _. split; [done|]. apply (after_copy σ s) in E as [Ha5 [[e ->]|[-> Hbytes]]]; try done; [..|by intros x; apply Hu].
    + eapply constructs_failed_fresh; [done..|]. cbn [buffer with_buffer].
      change (owned (members (device_buffer d (allocated p) t a w)) = [p]).
      rewrite device_buffer_owned by done. apply owned_allocated. lia.
    + apply (constructs_device σ s s5 p n d q t a w mode); try done. unfold host_content.
      rewrite (proj2 (Z.eqb_neq q 0)) by done. intros i v Hi' [= <-]. by apply Hbytes.
Qed.

Lemma constructs_empty σ s n mode : inv s σ → 0 < n < 2 ^ 64 →
  constructs σ s (inr ()) (handle_of (Discrete (make_discrete None 0)) n mode) s (λ _, None).
Proof.
  intros Hi Hn. split; [exists []; by apply after_refl|]. split_and!; try done; try (simpl; lia).
  - unfold buffer_ok. cbn [buffer]. split; [|by split]. split; [apply length_replicate|].
    intros d. exact (f_equal ptr_get (device_ptr_make None 0 null_ptr d)).
  - exists [], []. split; [done|]. split; by left.
  - intros x ?%not_elem_of_nil. done.
Qed.
Lemma construct_discrete_ok σ s q n mode rb s2 : inv s σ → 0 < n < 2 ^ 64 → (q ≠ 0 → unclaimed s q n) →
  construct_discrete q n (next_handle s) (new_handle (handle_of (Discrete (make_discrete None 0)) n mode) s) = (rb, s2) →
  ∃ m1 s1, s2 = new_handle m1 s1 ∧ constructs σ s rb m1 s1 (host_content s q).
Proof.
  intros Hi Hn Hq. unfold construct_discrete. destruct (Z.eqb_spec q 0) as [->|Hq0]; simpl.
  { intros [= <- <-]. eexists _, _. split; [done|]. by apply constructs_empty. }
  unfold mbind at 1, M_bind at 1. rewrite lifts_import. destruct (maybeImportUSM q s) as [ri s3] eqn:E.
  apply (import_cases σ) in E as (b & -> & _ & Ha); [|done]. cbn [fst snd]. unfold mbind at 1 2, M_bind at 1 2.
  rewrite (get_discrete_new _ _ (make_discrete None 0)), set_buffer_new by (done || by rewrite (af_next _ _ _ _ Ha)).
  apply (migrateBufferTo_new σ s s3); try done; [apply Hdriver|by apply Hq|by destruct b|].
  unfold ptr_claim, host_claim. simpl. rewrite (proj2 (Z.eqb_neq q 0)) by done. by destruct b.
Qed.

(** A new buffer has the bytes of the application's memory. *)
Lemma urMemBufferCreate_ok s σ flags n q r s' : inv s σ → 0 < n < 2 ^ 64 → (q ≠ 0 → unclaimed s q n) →
  urMemBufferCreate flags n q s = (r, s') →
  returns r ∧ match r with
              | inr h => h = next_handle s ∧ inv s' (add_array h (host_content s q) σ)
              | inl _ => inv s' σ
              end.
Proof.
  intros Hi Hn Hq Hr. unfold urMemBufferCreate in Hr. destruct useHostBuffer.
  - destruct (construct_integrated q n (next_handle s) (new_handle (handle_of (make_integrated null_ptr 0) n
      (getDeviceAccessMode_of flags)) s)) as [rb s2] eqn:E.
    pose proof E as E'. apply (construct_integrated_ok σ) in E' as (m1 & s1 & -> & Hc); try done. by eapply l0_create_ok.
  - destruct (construct_discrete q n (next_handle s) (new_handle (handle_of (Discrete (make_discrete None 0)) n
      (getDeviceAccessMode_of flags)) s)) as [rb s2] eqn:E.
    pose proof E as E'. apply (construct_discrete_ok σ) in E' as (m1 & s1 & -> & Hc); try done. by eapply l0_create_ok.
Qed.

(** *** Native handles *)
Lemma construct_native_host_ok σ s a q n own mode rb s2 : inv s σ → 0 < n < 2 ^ 64 → unclaimed s q n →
  (∀ d, a = Some d → (d < getNumDevices)%nat) →
  construct_discrete_native a 0 n q own (next_handle s) (new_handle (handle_of (Discrete (make_discrete a q)) n mode) s) = (rb, s2) →
  ∃ m1 s1, s2 = new_handle m1 s1 ∧ constructs σ s rb m1 s1 (host_content s q).
Proof.
  intros Hi Hn Hu Hd. pose proof Hu as [Hq _]. unfold construct_discrete_native. cbn [Z.eqb].
  assert ((default first_device a < getNumDevices)%nat) as Hd0 by (destruct a; [by apply Hd|apply Hdriver]).
  rewrite (proj2 (Z.eqb_neq q 0)) by lia. cbn [negb when]. unfold mbind at 1, M_bind at 1.
  pose proof (after_refl σ s Hi) as Ha. destruct (allocateOnDevice _ _ n _) as [ra s3] eqn:E.
  apply (allocateOnDevice_new σ s s _ (make_discrete a q)) in E as [(e & s4 & -> & -> & Ha4)|(p & s4 & -> & -> & Hf & Ha4)];
    try done; try lia; [..|exact (f_equal ptr_get (device_ptr_make a q null_ptr _))].
  - intros [= <- <-]. eexists _, _. split; [done|]. eapply constructs_failed; [done|].
    by apply (unallocated_owned null_ptr).
  - pose proof Hf as (Hp & _). unfold migrateBufferTo, mbind, M_bind.
    rewrite (get_discrete_new _ _ (with_device (default first_device a) (allocated p) (make_discrete a q)))
      by (done || by rewrite (af_next _ _ _ _ Ha4)).
    pose proof (device_ptr_device (default first_device a) (allocated p) null_ptr a q (default first_device a) Hd0) as Ep.
    rewrite decide_True in Ep by done.
    change (with_mapToPtr null_ptr (make_discrete a q)) with (make_discrete a q) in Ep. rewrite Ep. cbn [ptr_get allocated].
    rewrite (proj2 (Z.eqb_neq p 0)) by lia. cbn [negb mret M_ret]. rewrite lifts_copy.
    destruct (synchronousZeCopy p q n s4) as [rc s5] eqn:E. cbn [fst snd]. intros [= <- <-].
    eexists _, _. split; [done|]. apply (after_copy σ s) in E as [Ha5 [[e ->]|[-> Hbytes]]]; try done; [..|by intros x; apply Hu].
    + eapply constructs_failed_fresh; [done..|].
      change (owned (members (device_buffer (default first_device a) (allocated p) null_ptr a q)) = [p]).
      rewrite device_buffer_owned by done. apply owned_allocated. lia.
    + apply (constructs_device σ s s5 p n (default first_device a) q null_ptr a q mode); try done. unfold host_content.
      rewrite (proj2 (Z.eqb_neq q 0)) by lia. intros i v Hi' [= <-]. by apply Hbytes.
Qed.

Lemma host_content_pos s p : 0 < p → host_content s p = λ i, Some (mem s (p + i)).
Proof. intros Hp. unfold host_content. by rewrite (proj2 (Z.eqb_neq p 0)) by lia. Qed.
Lemma new_handle_same h b m s : h = next_handle s → set_mems <[h := with_buffer b m]> (new_handle m s) = new_handle (with_buffer b m) s.
Proof. intros ->. unfold set_mems, new_handle. simpl. by rewrite insert_insert_eq. Qed.

(** A buffer whose memory is used as it is. *)
Lemma constructs_shared σ s q n dl mode : inv s σ → unclaimed s q n → 0 < n < 2 ^ 64 → dl ≠ PoolFree →
  constructs σ s (inr ()) (handle_of (Shared {| ptr_get := q; ptr_deleter := dl |}) n mode) s (λ i, Some (mem s (q + i))).
Proof.
  intros Hi Hu Hn Hd. pose proof Hu as [Hq _]. pose proof (after_refl σ s Hi) as Ha. split; [by eexists|].
  assert (claims (handle_of (Shared {| ptr_get := q; ptr_deleter := dl |}) n mode) = [(q, n, false)]) as Hcl.
  { unfold claims, ptr_claim. simpl. by rewrite (proj2 (Z.eqb_neq q 0)), bool_decide_false by (done || lia). }
  split_and!; try done; try (simpl; lia).
  - rewrite Hcl. exists [], [(q, n, false)]. split; [done|]. split; [by left|right; by eexists].
  - rewrite Hcl. intros x ->%list_elem_of_singleton. eapply (after_apart_host σ s s); [lia|done..].
  - simpl. intros i v Hi' [= <-]. exists q. split; [done|]. by eapply after_host_bytes.
Qed.

Lemma urMemBufferCreateWithNativeHandle_ok s σ q own n r s' : inv s σ → zeMemGetAddressRange q = (q, n) → 0 < n < 2 ^ 64 →
  unclaimed s q n → urMemBufferCreateWithNativeHandle q own s = (r, s') →
  returns r ∧ match r with
              | inr h => h = next_handle s ∧ inv s' (add_array h (host_content s q) σ)
              | inl _ => inv s' σ
              end.
Proof.
  intros Hi Hrange Hn Hu Hr. pose proof Hu as [Hq _]. unfold urMemBufferCreateWithNativeHandle in Hr.
  step Hr; apply ze_cases in E as [-> Hc]; [|destruct Hc as [|[e' [= ->]]]; [done|split; [done|by apply l0_called_quiet]]].
  rewrite Hrange, Z.eqb_refl in Hr. step Hr; apply l0_assert_inv in E as [-> E]; [|done]. clear E.
  step Hr; [|done]. injection E as <- <-.
  step Hr; apply ze_cases in E as [-> Hc']; [|destruct Hc' as [|[e' [= ->]]]; [done|split; [done|by do 2 apply l0_called_quiet]]].
  set (s2 := called (called s)) in *. assert (inv s2 σ) as Hi2 by (by apply l0_called_quiet, l0_called_quiet).
  assert (unclaimed s2 q n) as Hu2 by exact Hu. destruct (Hdriver) as (_ & _ & Hdev).
  destruct (Hdev q) as [Hnum Hdevice]. specialize (Hdevice (calls (called s))).
  step Hr; apply l0_assert_inv in E as [-> E]; [|split; [by destruct (negb _); simplify_eq|done]]. rename E into Hunk.
  step Hr; apply l0_assert_inv in E as [-> E]; [|split; [by destruct (match ze_memory_device q with Some _ => _ | None => _ end); simplify_eq|done]]. clear E.
  change (host_content s q) with (host_content s2 q). change (next_handle s) with (next_handle s2).
  assert ((if own then ZeMemFree else Nothing) ≠ PoolFree) as Hown by by destruct own.
  destruct (_ && _); [|case_bool_decide as Hsh; [|case_bool_decide as Hho]].
  - eapply l0_create_ok; [exact Hi2| | |exact Hr]; [done|]. rewrite (host_content_pos _ _ Hq).
    apply (constructs_imported σ s2 s2); try done.
  - eapply l0_create_ok; [exact Hi2| | |exact Hr]; [done|]. rewrite (host_content_pos _ _ Hq). by apply constructs_shared.
  - destruct (construct_discrete_native (ze_memory_device q) 0 n q own (next_handle s2) (new_handle (handle_of (Discrete
      (make_discrete (ze_memory_device q) q)) n read_write) s2)) as [rb s3] eqn:E.
    pose proof E as E'. apply (construct_native_host_ok σ) in E' as (m1 & s1 & -> & Hcs); try done. by eapply l0_create_ok.
  - assert (is_Some (ze_memory_device q)) as [d Hd].
    { apply Hdevice. change (calls (called s)) with (S (calls s)) in *. clear Hr. destruct (ze_memory_type (S (calls s)) q); congruence. }
    rewrite Hd in Hr. eapply l0_create_ok; [exact Hi2| | |exact Hr].
    + unfold construct_discrete_native, mbind, M_bind. rewrite (proj2 (Z.eqb_neq q 0)) by lia.
      rewrite (get_discrete_new _ _ (make_discrete (Some d) 0)), set_buffer_new by done. done.
    + rewrite (host_content_pos _ _ Hq). apply (constructs_native σ s2 s2 q n d null_ptr (Some d)); try done.
      by apply Hnum.
Qed.

(** *** References and sub-buffers *)
Lemma inv_retain s σ h m : inv s σ → mems s !! h = Some m → RefCount m + 1 < 2 ^ 32 →
  inv (set_mems <[h := with_RefCount (u32 (RefCount m + 1)) m]> s) σ.
Proof.
  intros Hi Hm Hrc. destruct (inv_handle _ _ _ Hi h m Hm) as (_ & _ & Hr & Hch & _).
  rewrite u32_small by (unfold in_u32; lia). apply inv_RefCount; try done; lia.
Qed.
Lemma urMemRetain_ok s σ h m r s' : inv s σ → mems s !! h = Some m → RefCount m + 1 < 2 ^ 32 →
  urMemRetain h s = (r, s') → r = inr () ∧ inv s' σ.
Proof.
  intros Hi Hm Hrc. unfold urMemRetain, mbind, M_bind, get. rewrite Hm. intros [= <- <-]. split; [done|]. by apply inv_retain.
Qed.

Lemma inv_new_sub s σ h m o n mode : inv s σ → mems s !! h = Some m → 0 ≤ o → 0 < n → o + n ≤ getSize m →
  Z.of_nat (children (mems s) h) < RefCount m → inv (new_handle (handle_of (SubBuffer h o) n mode) s) σ.
Proof.
  intros Hi Hm Ho Hn Hsz Hch. destruct σ as [A B]. destruct (inv_handle _ _ _ Hi h m Hm) as (Hpos & Hs & _).
  apply (inv_new_handle s {| arrays := A; maps := B |} (handle_of (SubBuffer h o) n mode) A); try done; try (simpl; lia).
  - unfold buffer_ok. simpl. split; [lia|]. by exists m.
  - constructor.
  - by intros x ?%not_elem_of_nil.
  - by intros x y ?%not_elem_of_nil.
  - intros p [= <-]. by exists m.
  - intros h'. split; [by left|]. by intros [|[_ [=]]].
  - intros h' m' c i v. simpl. rewrite lookup_insert. case_decide as E; [|by apply (inv_content _ _ _ Hi)].
    intros _ Hc. assert (is_Some (A !! h')) as Hd by by eexists. apply (inv_dom _ _ _ Hi) in Hd as (m0 & Hm0 & _).
    subst h'. by rewrite (inv_next _ _ Hi) in Hm0.
Qed.

(** A sub-buffer holds a reference to its parent. *)
Lemma urMemBufferPartition_ok s σ h m flags reg o n r s' : inv s σ → mems s !! h = Some m → RefCount m + 1 < 2 ^ 32 →
  0 ≤ o → 0 < n → o + n ≤ getSize m → urMemBufferPartition h flags reg o n s = (r, s') → returns r ∧ inv s' σ.
Proof.
  intros Hi Hm Hrc Ho Hn Hsz Hr. unfold urMemBufferPartition in Hr. destruct (inv_handle _ _ _ Hi h m Hm) as (Hpos & _ & Hr1 & Hch & _).
  step Hr; destruct (get_some h s m _ _ E Hm) as [[=] ->]; subst a; clear E.
  do 3 (step Hr; apply l0_assert_inv in E as [-> E]; [clear E|by split; [match type of E with if ?b then _ else _ => destruct b end; simplify_eq|]]).
  unfold create, mbind, M_bind, on_error in Hr. unfold urMemRetain, mbind, M_bind, get in Hr. simpl in Hr.
  rewrite lookup_insert_ne, Hm in Hr by (intros <-; by rewrite (inv_next _ _ Hi) in Hm). simpl in Hr.
  injection Hr as <- <-. split; [done|].
  set (m1 := with_RefCount (u32 (RefCount m + 1)) m). set (sub := handle_of (SubBuffer h o) n (getDeviceAccessMode_of flags)).
  assert (set_mems <[h := m1]> (new_handle sub s) = new_handle sub (set_mems <[h := m1]> s)) as ->.
  { unfold set_mems, new_handle. simpl. rewrite insert_insert_ne; [done|]. intros ->. by rewrite (inv_next _ _ Hi) in Hm. }
  apply (inv_new_sub _ σ h m1); try done.
  - by apply inv_retain.
  - simpl. by rewrite lookup_insert_eq.
  - simpl. rewrite (children_insert_same _ _ m) by done. rewrite u32_small by (unfold in_u32; lia). lia.
Qed.

Lemma urMemGetNativeHandle_ok s σ h d r s' : inv s σ → (∀ d', d = Some d' → (d' < getNumDevices)%nat) →
  urMemGetNativeHandle h d s = (r, s') → returns r ∧ inv s' σ.
Proof.
  intros Hi Hd Hr. unfold urMemGetNativeHandle in Hr. step Hr; [|done]. injection E as <- <-.
  assert (inv (set_waits [] s) σ) as Hi0 by by apply inv_set_waits. destruct (mems s !! h) as [m|] eqn:Hm.
  - destruct (window_some user _ _ h m Hi Hm) as (root & o & Hw). destruct (inv_handle _ _ _ Hi h m Hm) as (_ & Hs & _).
    apply (getDevicePtr_ok user Hdriver (set_waits [] s) σ h m root o) in Hr as (Hq & Hret & _); try done; [|lia].
    split; [done|apply Hq].
  - unfold getDevicePtr, forwarding in Hr. destruct (Z.to_nat h); simpl in Hr; unfold mbind, M_bind, get in Hr; simpl in Hr;
      rewrite Hm in Hr; by injection Hr as <- <-.
Qed.

(** *** Running commands, and writes of the host *)
Lemma run_first_ok s σ : inv s σ → inv (run_first s) σ.
Proof.
  intros Hi. apply (inv_change user s _ σ); try done; try (unfold run_first; by destruct (commands s)).
  - intros a Hb. by apply (inv_pending _ _ _ Hi), busy_run_first.
  - rewrite eventual_run_first. apply Hi.
Qed.
Lemma queueFinish_ok s σ r s' : inv s σ → queueFinish s = (r, s') → returns r ∧ inv s' σ.
Proof.
  intros Hi Hr. apply (synchronize_cases s) in Hr as [[-> ->]|(e & -> & ->)]; split; try done.
  - by apply inv_run_all, l0_called_quiet.
  - by apply l0_called_quiet.
Qed.
Lemma host_write_ok s σ a v : inv s σ → ¬ busy s a → holds_nothing s σ a →
  inv (set_mem (λ m b, if b =? a then v else m b) s) σ.
Proof.
  intros Hi Hb Hn. set (f := λ (m : memory) b, if b =? a then v else m b).
  destruct (eventual_set_mem s f (λ b, b = a)) as [Hout _].
  - by intros b ->.
  - intros b Hne. unfold f. by rewrite (proj2 (Z.eqb_neq b a)).
  - apply (inv_change user s _ σ); try done; [apply Hi|]. apply content_frame; [apply Hi|]. intros b.
    destruct (decide (b = a)) as [->|Hne]; [by right|left]. symmetry. by apply Hout.
Qed.

(** ** Release *)
Definition rel_spec (r : Z) (σ : spec) : spec :=
  {| arrays := delete r (arrays σ); maps := filter (λ x, x.1.1 ≠ r) (maps σ) |}.

Lemma child_counted ms h h' m : ms !! h' = Some m → parent m = Some h → (1 ≤ children ms h)%nat.
Proof. intros Hm Hp. rewrite (children_delete _ _ _ _ Hm), decide_True by done. lia. Qed.
Lemma children_delete_le ms h p : (children (delete h ms) p ≤ children ms p)%nat.
Proof.
  destruct (ms !! h) as [m|] eqn:E; [rewrite (children_delete ms h m p E); lia|]. by rewrite delete_id.
Qed.

(** A handle without sub-buffers goes. *)
Lemma l0_inv_delete s σ h m : inv s σ → mems s !! h = Some m → children (mems s) h = 0%nat →
  inv (set_mems (delete h) s) (match parent m with None => rel_spec h σ | Some _ => σ end).
Proof.
  intros Hi Hm Hch. set (σ' := match parent m with None => _ | Some _ => _ end).
  assert (∀ h' m', delete h (mems s) !! h' = Some m' → h' ≠ h ∧ mems s !! h' = Some m') as Hdel.
  { intros h' m' [? ?]%lookup_delete_Some. done. }
  assert (∀ h', arrays σ' !! h' = if decide (h' = h ∧ parent m = None) then None else arrays σ !! h') as Harr.
  { intros h'. unfold σ'. destruct (parent m) as [p|] eqn:Hp; [by rewrite decide_False by (by intros [_ ?])|]. simpl.
    rewrite lookup_delete. case_decide as E1; case_decide as E2; naive_solver. }
  split; simpl; try apply Hi.
  - intros h' m' [Hne Hm']%Hdel. destruct (inv_handle _ _ _ Hi h' m' Hm') as (? & ? & ? & Hc & Hok).
    pose proof (children_delete_le (mems s) h h'). split_and!; try lia. unfold buffer_ok in *.
    destruct (buffer m') as [b|b|p|p o] eqn:Hb; try done. destruct Hok as (? & mp & ? & ?). split; [done|]. exists mp.
    split; [|done]. rewrite lookup_delete_ne; [done|]. intros <-.
    assert (parent m' = Some h) as Hp by (unfold parent; by rewrite Hb). apply (child_counted _ _ _ _ Hm') in Hp. lia.
  - intros h' m' x [_ Hm']%Hdel. by apply (inv_claim _ _ _ Hi h').
  - intros h' m' [_ Hm']%Hdel. by apply (inv_nodup _ _ _ Hi h').
  - intros h1 h2 m1 m2 x1 x2 [_ H1]%Hdel [_ H2]%Hdel. by apply Hi.
  - intros h'. rewrite Harr. case_decide as E.
    + destruct E as [-> Hp]. split; [by intros [? ?]|]. intros (m0 & [? _]%Hdel & _). done.
    + rewrite (inv_dom _ _ _ Hi h'). split; intros (m0 & Hm0 & Hp0).
      * exists m0. split; [|done]. rewrite lookup_delete_ne; [done|]. intros <-. simplify_eq. naive_solver.
      * apply Hdel in Hm0 as [_ ?]. by exists m0.
  - intros h' m' c i v [Hne Hm']%Hdel. rewrite Harr, decide_False by naive_solver. by apply (inv_content _ _ _ Hi).
  - intros r p off n fl Hmp.
    assert (maps σ !! (r, p) = Some (off, n, fl) ∧ (parent m = None → r ≠ h)) as [Hmp' Hr].
    { unfold σ' in Hmp. destruct (parent m); [done|]. by apply map_lookup_filter_Some in Hmp as [? ?]. }
    destruct (inv_maps _ _ _ Hi r p off n fl Hmp') as (m0 & Hm0 & Hp0 & Hrest). exists m0.
    rewrite lookup_delete_ne; [done|]. intros <-. simplify_eq. by apply Hr.
Qed.

(** *** Copying back *)
Lemma copy_back_ok s σ dst src n r s' : inv s σ → commands s = [] →
  (∀ a, in_range dst n a = true → holds_nothing s σ a) → ignore (synchronousZeCopy dst src n) s = (r, s') →
  r = inr () ∧ inv s' σ ∧ mems s' = mems s ∧ allocations s' = allocations s ∧ commands s' = [].
Proof.
  intros Hi Hc Hn. unfold ignore, synchronousZeCopy, mbind, M_bind.
  assert (inv (called s) σ) as H1 by by apply l0_called_quiet. assert (inv (called (called s)) σ) as H2 by by apply l0_called_quiet.
  destruct (ze s) as [r1 s1] eqn:E1. apply ze_cases in E1 as [-> [->|[e ->]]]; [|by intros [= <- <-]].
  destruct (ze (called s)) as [r2 s2] eqn:E2. apply ze_cases in E2 as [-> [->|[e ->]]]; [|by intros [= <- <-]].
  intros [= <- <-]. split_and!; try done. apply (inv_change user s _ σ); try done.
  - intros a (c & Hin & _). simpl in Hin. rewrite Hc in Hin. by apply not_elem_of_nil in Hin.
  - apply content_frame; [apply Hi|]. intros a. destruct (in_range dst n a) eqn:E; [right; by apply Hn|left].
    unfold eventual. simpl. rewrite Hc. simpl. by apply memcpy_outside.
Qed.

(** *** Each allocation is freed once *)
Definition claim_ptr (x : Z * Z * bool) : Z := x.1.1.
Lemma claim_ptr_inj s σ h m x y : inv s σ → mems s !! h = Some m → x ∈ claims m → y ∈ claims m →
  claim_ptr x = claim_ptr y → x = y.
Proof.
  intros Hi Hm Hx Hy E. apply (inv_disjoint _ _ _ Hi h h m m x y Hm Hm Hx Hy). unfold claim_ptr in E.
  destruct (inv_claim _ _ _ Hi h m x Hm Hx) as (? & ? & _), (inv_claim _ _ _ Hi h m y Hm Hy) as (? & ? & _).
  exists (x.1.1). split; ranges; lia.
Qed.

Lemma owned_descs l : owned (desc_ptr <$> l) = claim_ptr <$> (l ≫= desc_claim).
Proof.
  induction l as [|x l IH]; [done|]. rewrite fmap_cons, owned_cons, IH. rewrite bind_cons, fmap_app. unfold desc_claim.
  case_decide as E.
  - destruct E as [Hp Hd]. rewrite bool_decide_true by done. unfold ptr_claim. by rewrite (proj2 (Z.eqb_neq _ _) Hp).
  - case_bool_decide as Hd; [|done]. unfold ptr_claim. destruct (Z.eqb_spec (ptr_get (desc_ptr x)) 0); [done|by destruct E].
Qed.
Lemma owned_none l : Forall (λ x, ptr_deleter (desc_ptr x) = Nothing) l → owned (desc_ptr <$> l) = [].
Proof.
  induction 1 as [|x l Hx _ IH]; [done|]. by rewrite fmap_cons, owned_cons, decide_False by (intros [_ ?]; congruence).
Qed.
Lemma owned_one p n : owned [p] = [] ∨ owned [p] = claim_ptr <$> ptr_claim p n ∧ ptr_claim p n = [(ptr_get p, n, true)].
Proof.
  rewrite owned_cons. case_decide as E; [right|by left]. destruct E as [Hp Hd]. unfold ptr_claim.
  by rewrite (proj2 (Z.eqb_neq _ _) Hp), bool_decide_true.
Qed.

(** The pointers to free are distinct and the buffer relied on them. *)
Lemma owned_members s σ h m : inv s σ → mems s !! h = Some m →
  NoDup (owned (members (buffer m))) ∧ ∀ p, p ∈ owned (members (buffer m)) → ∃ n, (p, n, true) ∈ claims m.
Proof.
  intros Hi Hm. assert (∃ cl, owned (members (buffer m)) = claim_ptr <$> cl ∧ NoDup cl ∧
    ∀ x, x ∈ cl → x ∈ claims m ∧ x.2 = true) as (cl & -> & Hnd & Hcl).
  { destruct (inv_handle _ _ _ Hi h m Hm) as (_ & _ & _ & _ & Hok). pose proof (inv_nodup _ _ _ Hi h m Hm) as Hnd.
    unfold buffer_ok in Hok. unfold claims in *. destruct (buffer m) as [b|b|p|p o]; unfold members.
    - destruct Hok as (_ & _ & Hnone). rewrite owned_app, owned_none by done. rewrite app_nil_l.
      destruct (owned_one (integrated_ptr b) (getSize m)) as [->|[-> E]]; [by exists []; split_and!; [|constructor|intros x ?%not_elem_of_nil]|].
      rewrite E. eexists. split; [done|]. split; [apply NoDup_singleton|]. intros x ->%list_elem_of_singleton.
      split; [|done]. apply elem_of_app. by left; left.
    - destruct Hok as ([_ Hs] & _ & Hmt). rewrite !owned_app, owned_descs.
      assert (owned [mapToPtr b] = []) as -> by (rewrite owned_cons; by rewrite decide_False by (by intros [_ ?])). rewrite app_nil_l.
      assert (owned (deviceAllocations b) = owned [active_ptr b]) as ->.
      { unfold active_ptr. destruct (activeAllocationDevice b) as [d|].
        - apply owned_nth. intros d' Hd. by apply Hs.
        - rewrite (owned_nth _ 0%nat) by (intros d' _; apply Hs). rewrite !owned_cons.
          rewrite decide_False by (intros [Hx _]; by apply Hx, Hs). by rewrite decide_False by (by intros [? _]). }
      apply NoDup_app in Hnd as (Hnd1 & Hdisj & Hnd2). apply NoDup_app in Hnd2 as (Hnd2 & _ & _).
      assert (∀ x, x ∈ (hostAllocations b ≫= desc_claim) → x.2 = true) as Htrue.
      { intros x (d & Hx & _)%list_elem_of_bind. by apply elem_of_desc_claim in Hx as (_ & _ & ->). }
      destruct (owned_one (active_ptr b) (getSize m)) as [->|[-> E]].
      + rewrite app_nil_r. eexists. split; [done|]. split; [done|]. intros x Hx. rewrite !elem_of_app. auto.
      + rewrite <-fmap_app. eexists. split; [done|]. split.
        * apply NoDup_app. split_and!; try done. intros x Hx Hx'. apply (Hdisj x Hx'). apply elem_of_app. by left.
        * intros x Hx. rewrite E in *. rewrite !elem_of_app. apply elem_of_app in Hx as [Hx|Hx]; [auto|].
          split; [by left|]. by apply list_elem_of_singleton in Hx as ->.
    - destruct (owned_one p (getSize m)) as [->|[-> E]]; [by exists []; split_and!; [|constructor|intros x ?%not_elem_of_nil]|].
      rewrite E. eexists. split; [done|]. split; [apply NoDup_singleton|]. intros x ->%list_elem_of_singleton.
      split; [by left|done].
    - exists []. split_and!; [done|constructor|intros x ?%not_elem_of_nil; done]. }
  split.
  - apply NoDup_fmap_2_strong; [|done]. intros x y [Hx _]%Hcl [Hy _]%Hcl. by apply (claim_ptr_inj s σ h m).
  - intros p ([[q n] o] & -> & [Hx Ho]%Hcl)%list_elem_of_fmap. simpl in *. subst o. by exists n.
Qed.

(** The end of a buffer that is not a window: its bytes go back to the
    application's memory, then its memory is freed. *)
Lemma destroy_root s σ h m rel r s' : inv s σ → mems s !! h = Some m → parent m = None → children (mems s) h = 0%nat →
  commands s = [] → (_ ← destructor m rel; destroy_members (buffer m)) (set_mems (delete h) s) = (r, s') →
  r = inr () ∧ inv s' (rel_spec h σ) ∧ mems s' = delete h (mems s).
Proof.
  intros Hi Hm Hp Hch Hc Hr. pose proof (l0_inv_delete s σ h m Hi Hm Hch) as Hi1. rewrite Hp in Hi1.
  set (s1 := set_mems (delete h) s) in *. destruct (inv_handle _ _ _ Hi h m Hm) as (_ & _ & _ & _ & Hok).
  assert (∀ wb n, (wb, n, false) ∈ rest_claims m → ∀ a, in_range wb n a = true → holds_nothing s1 (rel_spec h σ) a) as Hwb.
  { intros wb n Hin a Ha h2 m2 c b Hm2 _ Hb Hba. change (delete h (mems s) !! h2 = Some m2) in Hm2. apply lookup_delete_Some in Hm2 as [_ Hm2]. exfalso.
    pose proof (rest_unheld user s σ h m _ h2 m2 b a Hi Hm Hin Ha Hm2 Hb). congruence. }
  assert (∀ r1 s2, destructor m rel s1 = (r1, s2) → r1 = inr () ∧ inv s2 (rel_spec h σ) ∧ mems s2 = mems s1 ∧
    allocations s2 = allocations s1 ∧ commands s2 = []) as Hd.
  { assert (inv (called s1) (rel_spec h σ)) as Hcalled by by apply l0_called_quiet.
    intros r1 s2. unfold destructor. unfold parent in Hp. unfold rest_claims in Hwb. destruct (buffer m) as [b|b|p|p o] eqn:Hb; [..|done].
    - unfold copyBackToHostIfNeeded. destruct (Z.eqb_spec (integrated_writeBackPtr b) 0) as [E|E]; [by intros [= <- <-]|].
      destruct (_ || _); [by intros [= <- <-]|]. intros Hcopy. apply (copy_back_ok _ (rel_spec h σ)) in Hcopy; try done.
      apply Hwb, elem_of_host_claim. done.
    - destruct (active_alloc b) as [src|]; [|by intros [= <- <-]].
      destruct (Z.eqb_spec (discrete_writeBackPtr b) 0) as [E|E]; [by intros [= <- <-]|].
      intros Hcopy. apply (copy_back_ok _ (rel_spec h σ)) in Hcopy; try done.
      apply Hwb. rewrite !elem_of_app, elem_of_host_claim. auto.
    - by intros [= <- <-]. }
  step Hr; apply Hd in E as (Hr1 & Hi2 & Em & Ea & Ec); [|done].
  destruct (owned_members s σ h m Hi Hm) as [Hnd Hin]. 
  destruct (l0_destroy_ok (members (buffer m)) s0 (rel_spec h σ) Hi2 Hnd) as (s2 & Hs2 & Hi3 & _ & Em3 & _).
  { intros p [n Hx]%Hin. exists n. rewrite Ea, Em. split_and!.
    - destruct (inv_claim _ _ _ Hi h m _ Hm Hx) as (_ & _ & ?). done.
    - intros z _ (c & Hcin & _). rewrite Ec in Hcin. by apply not_elem_of_nil in Hcin.
    - intros h2 m2 x Hm2 Hx2 _ Ep. change (delete h (mems s) !! h2 = Some m2) in Hm2. apply lookup_delete_Some in Hm2 as [Hne Hm2].
      destruct (inv_claim _ _ _ Hi h m _ Hm Hx) as (? & ? & _), (inv_claim _ _ _ Hi h2 m2 _ Hm2 Hx2) as (? & ? & _). simpl in *.
      destruct (inv_disjoint _ _ _ Hi h h2 m m2 _ _ Hm Hm2 Hx Hx2) as [? _]; [|done].
      exists p. simpl. split; ranges; lia. }
  unfold destroy_members in Hr. rewrite Hs2 in Hr. injection Hr as <- <-. split_and!; try done. by rewrite Em3, Em.
Qed.

(** *** Chains of sub-buffers *)
Lemma resolve_fuel ms f f' h off x : resolve ms f h off = Some x → (f ≤ f')%nat → resolve ms f' h off = Some x.
Proof.
  revert f' h off. induction f as [|f IH]; intros f' h off; destruct f' as [|f']; simpl; try done; try lia;
    destruct (ms !! h) as [m|]; simpl; try done; destruct (buffer m); try done; intros Hr Hf. apply IH; [done|lia].
Qed.
Lemma resolve_delete s σ h f : inv s σ → ∀ p off, p < h → resolve (delete h (mems s)) f p off = resolve (mems s) f p off.
Proof.
  intros Hi. induction f as [|f IH]; intros p off Hp; simpl; rewrite lookup_delete_ne by lia; [done|].
  destruct (mems s !! p) as [m|] eqn:Hm; [simpl|done]. destruct (buffer m) as [b|b|q|q o] eqn:Hb; try done.
  destruct (inv_handle _ _ _ Hi p m Hm) as (_ & _ & _ & _ & Hok). unfold buffer_ok in Hok. rewrite Hb in Hok. apply IH. lia.
Qed.
Lemma window_parent s σ h m p o root off : inv s σ → mems s !! h = Some m → buffer m = SubBuffer p o →
  window s h = Some (root, off) → ∃ off', window (set_mems (delete h) s) p = Some (root, off').
Proof.
  intros Hi Hm Hb Hw. destruct (inv_handle _ _ _ Hi h m Hm) as (Hpos & _ & _ & _ & Hok). unfold buffer_ok in Hok. rewrite Hb in Hok.
  destruct Hok as (Hlt & mp & Hmp & _). destruct (inv_handle _ _ _ Hi p mp Hmp) as (Hppos & _).
  destruct (window_some user s σ p mp Hi Hmp) as (root' & off' & Hw'). unfold window in *. simpl.
  rewrite (resolve_delete s σ) by done. exists off'. rewrite Hw'. do 2 f_equal.
  destruct (Z.to_nat h) as [|f] eqn:Ef; [lia|]. simpl in Hw. rewrite Hm in Hw. simpl in Hw. rewrite Hb in Hw.
  apply (resolve_fuel _ _ f) in Hw'; [|lia]. rewrite resolve_shift, Hw' in Hw. by injection Hw.
Qed.
Lemma window_root s h m root off : 0 < h → mems s !! h = Some m → parent m = None → window s h = Some (root, off) → root = h.
Proof.
  intros Hh Hm Hp. unfold window, parent in *. destruct (Z.to_nat h); simpl; rewrite Hm; simpl; destruct (buffer m); try done; by intros [= <- _].
Qed.

(** *** [urMemRelease] *)
Lemma l0_release_ok fuel : ∀ s σ h m root off r s', inv s σ → mems s !! h = Some m → h ≤ Z.of_nat fuel →
  Z.of_nat (children (mems s) h) < RefCount m → commands s = [] → window s h = Some (root, off) →
  release fuel h s = (r, s') →
  r = inr () ∧ inv s' (if bool_decide (mems s' !! root = None) then rel_spec root σ else σ).
Proof.
  induction fuel as [|fuel IH]; intros s σ h m root off r s' Hi Hm Hf Hch Hc Hw Hr;
    destruct (inv_handle _ _ _ Hi h m Hm) as (Hpos & _ & Hrc & _ & Hok); [lia|].
  cbn [release] in Hr. step Hr; destruct (get_some h s m _ _ E Hm) as [[=] ->]; subst a; clear E.
  rewrite u32_small in Hr by (unfold in_u32; lia). step Hr; [|done]. injection E as <- <-.
  destruct (Z.eqb_spec (RefCount m - 1) 0) as [E|E]; cbn [negb] in Hr.
  - step Hr; [|done]. injection E0 as <- <-.
    assert (set_mems (delete h) (set_mems <[h := with_RefCount (RefCount m - 1) m]> s) = set_mems (delete h) s) as Es.
    { unfold set_mems. simpl. by rewrite delete_insert_eq. }
    rewrite Es in Hr. clear Es. assert (children (mems s) h = 0%nat) as Hch0 by lia.
    destruct (parent m) as [p|] eqn:Hp.
    + assert (∃ o, buffer m = SubBuffer p o) as [o Hb] by (unfold parent in Hp; destruct (buffer m); simplify_eq; by eexists).
      unfold buffer_ok in Hok. rewrite Hb in Hok. destruct Hok as (Hlt & mp & Hmp & _).
      pose proof (l0_inv_delete s σ h m Hi Hm Hch0) as Hi1. rewrite Hp in Hi1.
      destruct (window_parent s σ h m p o root off Hi Hm Hb Hw) as [off' Hw'].
      destruct (inv_handle _ _ _ Hi p mp Hmp) as (_ & _ & _ & Hcp & _).
      pose proof (children_delete _ _ _ p Hm) as Hcd. rewrite decide_True in Hcd by done.
      unfold destructor in Hr. rewrite Hb in Hr. unfold mbind, M_bind, ignore in Hr.
      destruct (release fuel p _) as [rr s2] eqn:Er.
      apply (IH _ σ p mp root off') in Er as [-> Hres]; try done; try lia; [by injection Hr as <- <-| |].
      * simpl. by rewrite lookup_delete_ne by lia.
      * simpl. lia.
    + rewrite (window_root s h m root off) by (done || lia).
      apply (destroy_root s σ h m _ _ _ Hi Hm Hp Hch0 Hc) in Hr as (-> & Hi' & Em). split; [done|].
      rewrite bool_decide_true; [done|]. rewrite Em. apply lookup_delete_eq.
  - injection Hr as <- <-. split; [done|]. destruct (window_ok user _ _ _ _ _ _ Hi Hm Hw) as (mr & Hmr & _).
    rewrite bool_decide_false; [apply inv_RefCount; try done; lia|]. simpl. rewrite lookup_insert. by case_decide; [|rewrite Hmr].
Qed.
End handles.
End L0Handles.
