(* ===== verification/L0MemoryOrder.v ===== *)
(** * The order of buffer commands (level_zero/v2/command_list_manager.cpp)

    The command list runs in order, so a command that appends several operations
    is ordered by its first and last: the first waits for the events, the last
    signals the event of the command. *)
From stdpp Require Import base numbers list gmap relations.
From S2P Require Import Prelude UrUtil FlatMemory L0Memory L0MemoryProofs.
Import Util.
Local Open Scope Z_scope.

Module L0Order.
Import L0Mem L0Facts.

(** The operations that a command appends. *)
Definition ordered (waits : list Z) (ev : option Z) (l : list command) : Prop :=
  (waits ≠ [] → cmd_waits <$> head l = Some waits) ∧ ∀ e, ev = Some e → cmd_signal <$> last l = Some (Some e).

(** Operations that append nothing, and operations that only append. *)
Definition kept {A} (m : M A) : Prop := ∀ s r s', m s = (r, s') → commands s' = commands s ∧ waitListView s' = waitListView s.
Definition extends {A} (m : M A) : Prop := ∀ s r s', m s = (r, s') → ∃ l, commands s' = commands s ++ l.

Create HintDb l0.
Lemma kept_ret {A} (a : A) : kept (mret a).
Proof. by intros s r s' [= _ <-]. Qed.
Lemma kept_throw {A} e : kept (@throw A e).
Proof. by intros s r s' [= _ <-]. Qed.
Lemma kept_no_return {A} : kept (@no_return A).
Proof. by intros s r s' [= _ <-]. Qed.
Lemma kept_bind {A B} (m : M A) (f : A → M B) : kept m → (∀ a, kept (f a)) → kept (m ≫= f).
Proof.
  intros Hm Hf s r s' [(a & s1 & E & Hr)|(e & E & ->)]%l0_bind_inv; [|by apply (Hm _ _ _ E)].
  destruct (Hm _ _ _ E) as [<- <-]. by apply (Hf a _ _ _ Hr).
Qed.
Lemma kept_get h : kept (get h).
Proof. by intros s r s' [-> _]%l0_get_inv. Qed.
Lemma kept_put h m : kept (put h m).
Proof. by intros s r s' [= _ <-]. Qed.
Lemma kept_assert b e : kept (UR_ASSERT b e).
Proof. by intros s r s' [-> _]%l0_assert_inv. Qed.
#[export] Hint Resolve kept_ret kept_throw kept_no_return kept_bind kept_get kept_put kept_assert : l0.

Lemma extends_kept {A} (m : M A) : kept m → extends m.
Proof. intros Hm s r s' Hr. destruct (Hm _ _ _ Hr) as [-> _]. exists []. by rewrite app_nil_r. Qed.
Lemma extends_bind {A B} (m : M A) (f : A → M B) : extends m → (∀ a, extends (f a)) → extends (m ≫= f).
Proof.
  intros Hm Hf s r s' [(a & s1 & E & Hr)|(e & E & ->)]%l0_bind_inv; [|by apply (Hm _ _ _ E)].
  destruct (Hm _ _ _ E) as [l1 E1], (Hf a _ _ _ Hr) as [l2 ->]. exists (l1 ++ l2). by rewrite E1, app_assoc.
Qed.
Lemma extends_when b m : extends m → extends (when b m).
Proof. destruct b; [done|]. intros _. apply extends_kept, kept_ret. Qed.
Lemma extends_gets {A} (f : state → A) : extends (gets f).
Proof. intros s r s' [= _ <-]. exists []. by rewrite app_nil_r. Qed.
Lemma extends_set_waits l : extends (modify (set_waits l)).
Proof. intros s r s' [= _ <-]. exists []. by rewrite app_nil_r. Qed.
#[export] Hint Resolve extends_bind extends_when extends_gets extends_set_waits : l0.
#[export] Hint Resolve extends_kept | 20 : l0.

Section order.
Context `{LevelZero, L0Context}.

Lemma kept_ze : kept ze.
Proof. intros s r s' [-> _]%ze_cases. done. Qed.
Hint Resolve kept_ze : l0.
Lemma kept_allocate n : kept (allocate n).
Proof.
  intros s r s'. unfold allocate. destruct (ze s) as [[e|[]] s1] eqn:E; apply kept_ze in E as [Ec Ew]; by intros [= _ <-].
Qed.
Lemma kept_run_deleter p : kept (run_deleter p).
Proof.
  unfold run_deleter. destruct (_ =? _); [apply kept_ret|].
  assert (kept (ignore ze)) as Hig. { intros s r s'. unfold ignore, ze. by destruct (ze_error (calls s)); intros [= _ <-]. }
  destruct (ptr_deleter p); [apply kept_ret| |exact Hig..]. by intros s r s' [= _ <-].
Qed.
Lemma kept_set_buffer h b : kept (set_buffer h b).
Proof. unfold set_buffer. eauto with l0. Qed.
Lemma kept_get_discrete h : kept (get_discrete h).
Proof. unfold get_discrete. apply kept_bind; [apply kept_get|]. intros m. destruct (buffer m); eauto with l0. Qed.
Hint Resolve kept_allocate kept_run_deleter kept_set_buffer kept_get_discrete : l0.
Lemma kept_allocateOnDevice h d n : kept (allocateOnDevice h d n).
Proof. unfold allocateOnDevice. eauto 10 with l0. Qed.
Hint Resolve kept_allocateOnDevice : l0.
Lemma kept_discrete_getDevicePtr h n d o : kept (discrete_getDevicePtr h n d o).
Proof.
  unfold discrete_getDevicePtr. apply kept_bind; [auto with l0|]. intros b. apply kept_bind; [case_bool_decide; eauto with l0|].
  intros _. apply kept_bind; [auto with l0|]. intros b'. repeat case_match; eauto with l0.
Qed.
Hint Resolve kept_discrete_getDevicePtr : l0.

Lemma kept_forward {A} (f : Z → ur_mem_handle → Z → M A) fuel : (∀ h m o, kept (f h m o)) → ∀ h o, kept (forward fuel f h o).
Proof.
  intros Hf. induction fuel as [|fuel IH]; intros h o; simpl; (apply kept_bind; [auto with l0|]); intros m;
    destruct (buffer m); auto with l0.
Qed.
Lemma extends_forward {A} (f : Z → ur_mem_handle → Z → M A) fuel : (∀ h m o, extends (f h m o)) → ∀ h o, extends (forward fuel f h o).
Proof.
  intros Hf. induction fuel as [|fuel IH]; intros h o; simpl; (apply extends_bind; [auto with l0|]); intros m;
    destruct (buffer m); auto with l0.
Qed.
Lemma kept_getDevicePtr r d o : kept (getDevicePtr r d o).
Proof.
  destruct r; simpl; [|auto with l0]. apply kept_forward. intros h' m o'. destruct (buffer m); auto with l0.
Qed.
Lemma kept_getMutex h : kept (getMutex h).
Proof. apply kept_forward. auto with l0. Qed.
Lemma kept_scoped_lock2 a b : kept (scoped_lock2 a b).
Proof. unfold scoped_lock2. case_match; auto with l0. Qed.
Hint Resolve kept_getDevicePtr kept_getMutex kept_scoped_lock2 : l0.

Lemma extends_append o w ev : extends (append o w ev).
Proof. intros s r s' [[_ ->]|(e & _ & ->)]%append_cases; [by eexists|]. exists []. by rewrite app_nil_r. Qed.
Lemma extends_nocheck o : extends (ze_nocheck (push o [] None)).
Proof.
  intros s r s'. unfold ze_nocheck. destruct (ze_error (calls s)); intros [= _ <-]; [exists []; by rewrite app_nil_r|by eexists].
Qed.
Hint Resolve extends_append extends_nocheck : l0.
Lemma extends_migrateMemory a b n : extends (migrateMemory a b n).
Proof. unfold migrateMemory. eauto with l0. Qed.
Hint Resolve extends_migrateMemory : l0.
Lemma extends_mapHostPtr h fl o n : extends (mapHostPtr h fl o n).
Proof.
  apply extends_forward. intros h' m o'. destruct (buffer m) as [b|b|p|p x]; [..|auto with l0|auto with l0].
  - unfold integrated_mapHostPtr. case_match; [|auto with l0]. eauto 10 with l0.
  - unfold discrete_mapHostPtr. apply extends_bind; [auto with l0|]. intros b'. apply extends_bind; [case_match; auto with l0|].
    intros p. apply extends_bind; [auto with l0|]. intros _. apply extends_bind; [destruct (active_alloc b'); auto with l0|auto with l0].
Qed.
Lemma extends_unmapHostPtr h p : extends (unmapHostPtr h p).
Proof.
  apply extends_forward. intros h' m o'. destruct (buffer m) as [b|b|q|q x]; [..|auto with l0|auto with l0].
  - unfold integrated_unmapHostPtr. case_match; [|auto with l0]. destruct (find_desc _ _) as [[i x]|]; eauto 10 with l0.
  - unfold discrete_unmapHostPtr. apply extends_bind; [auto with l0|]. intros b'.
    destruct (find_desc _ _) as [[i x]|]; [|auto with l0]. apply extends_bind; [case_match; eauto with l0|]. intros _.
    apply extends_bind; [auto with l0|]. intros b2. apply extends_bind; [destruct (active_alloc b2); auto with l0|eauto with l0].
Qed.

(** *** One operation *)
Lemma ordered_one o w ev : ordered w ev [{| cmd_op := o; cmd_waits := w; cmd_signal := ev |}].
Proof. split; [done|]. by intros e ->. Qed.
(** [m] appends one operation, which waits for what the view has. *)
Definition one {A} (ev : option Z) (m : M A) : Prop := ∀ s a s', m s = (inr a, s') →
  ∃ o, commands s' = commands s ++ [{| cmd_op := o; cmd_waits := waitListView s; cmd_signal := ev |}].
Lemma one_bind {A B} ev (m : M A) (f : A → M B) : kept m → (∀ a, one ev (f a)) → one ev (m ≫= f).
Proof.
  intros Hm Hf s b s' [(a & s1 & E & Hr)|(e & _ & [=])]%l0_bind_inv. destruct (Hm _ _ _ E) as [<- <-]. by apply (Hf a _ _ _ Hr).
Qed.
Lemma one_append o ev : one ev (w ← gets waitListView; append o w ev).
Proof.
  intros s a s' [(w & s1 & [= <- <-] & Hr)|(e & [=] & _)]%l0_bind_inv. apply append_cases in Hr as [[_ ->]|(e & [=] & _)]. by exists o.
Qed.
Lemma one_ordered {A} waits ev (m : M A) s a s' : one ev m → with_waits waits m s = (inr a, s') →
  ∃ l, commands s' = commands s ++ l ∧ ordered waits ev l.
Proof.
  intros Hm Hr. apply (Hm (set_waits waits s)) in Hr as [o Hc]. eexists. split; [exact Hc|]. apply ordered_one.
Qed.
Hint Resolve one_bind one_append : l0.
Lemma one_generic_copy q src dst so d n ev : one ev (appendGenericCopyUnlocked q src dst false so d n ev).
Proof.
  unfold appendGenericCopyUnlocked. apply one_bind; [auto with l0|]. intros ps. apply one_bind; [auto with l0|]. intros pd.
  intros s a s' [(w & s1 & [= <- <-] & Hr)|(e & [=] & _)]%l0_bind_inv.
  apply l0_bind_inv in Hr as [(u & s1 & E & Hr)|(e & _ & [=])]. injection Hr as _ <-.
  apply append_cases in E as [[_ ->]|(e & [=] & _)]. by eexists.
Qed.
Lemma kept_prepare q hs : kept (prepareForSubmission q hs).
Proof. induction hs as [|h hs IH]; cbn [prepareForSubmission]; eauto 10 with l0. Qed.

(** *** Fills *)
Lemma copy_steps_ordered N ps dst pat ev c k s a s' : 0 < c → 0 ≤ k → k + c = N →
  forM (seqZ k c) (λ step,
    w ← gets waitListView;
    _ ← append (MemoryCopy (dst + step * ps) pat ps) w (if step =? N - 1 then ev else None);
    modify (set_waits [])) s = (inr a, s') →
  ∃ l, commands s' = commands s ++ l ∧ ordered (waitListView s) ev l.
Proof.
  intros Hc. revert k s a. remember (Z.to_nat (c - 1)) as n eqn:En. revert c Hc En.
  induction n as [|n IH]; intros c Hc En k s a Hk HN Hr;
    (rewrite (seqZ_cons k c) in Hr by lia); cbn [forM] in Hr;
    (apply l0_bind_inv in Hr as [(u & s1 & E & Hr)|(e & _ & [=])]);
    (apply l0_bind_inv in E as [(w & s2 & [= <- <-] & E)|(e & [=] & _)]);
    (apply l0_bind_inv in E as [(u' & s2 & E & E2)|(e & _ & [=])]);
    (apply append_cases in E as [[_ ->]|(e & [=] & _)]); injection E2 as _ <-.
  - assert (c = 1) as -> by lia. rewrite seqZ_nil in Hr by lia. injection Hr as _ <-.
    rewrite (proj2 (Z.eqb_eq k (N - 1))) by lia. eexists. split; [done|]. apply ordered_one.
  - apply (IH (Z.pred c)) in Hr as (l & Hl & _ & Hs); [|lia..]. rewrite Hl. cbn [commands set_waits push set_commands called].
    rewrite <-app_assoc. eexists. split; [done|]. split; [done|]. intros e He. specialize (Hs e He).
    destruct l as [|x l]; [done|]. exact Hs.
Qed.

(** *** Maps *)
Lemma wait_first_ordered s a s' : wait_first s = (inr a, s') → ∃ l, commands s' = commands s ++ l ∧
  (waitListView s ≠ [] → cmd_waits <$> head l = Some (waitListView s)).
Proof.
  intros [(w & s1 & [= <- <-] & Hr)|(e & [=] & _)]%l0_bind_inv. case_bool_decide as Ew.
  - injection Hr as _ <-. exists []. rewrite app_nil_r. split; [done|by intros ?].
  - apply l0_bind_inv in Hr as [(u & s1 & E & Hr)|(e & _ & [=])]. injection Hr as _ <-.
    apply append_cases in E as [[_ ->]|(e & [=] & _)]. by eexists.
Qed.
Lemma signal_last_ordered ev s a s' : signal_last ev s = (inr a, s') → ∃ l, commands s' = commands s ++ l ∧
  ∀ e, ev = Some e → cmd_signal <$> last l = Some (Some e).
Proof.
  unfold signal_last. destruct ev as [e|]; intros Hr.
  - apply append_cases in Hr as [[_ ->]|(e' & [=] & _)]. eexists. split; [done|]. by intros e' [= <-].
  - injection Hr as _ <-. exists []. rewrite app_nil_r. by split.
Qed.
Lemma between_ordered {A} waits ev (m : M A) s a s' : extends m →
  (_ ← wait_first; x ← m; _ ← signal_last ev; mret x) (set_waits waits s) = (inr a, s') →
  ∃ l, commands s' = commands s ++ l ∧ ordered waits ev l.
Proof.
  intros Hm [(u & s1 & E & Hr)|(e & _ & [=])]%l0_bind_inv. apply wait_first_ordered in E as (l1 & E1 & Hw).
  apply l0_bind_inv in Hr as [(x & s2 & E & Hr)|(e & _ & [=])]. apply Hm in E as [l2 E2].
  apply l0_bind_inv in Hr as [(u' & s3 & E & Hr)|(e & _ & [=])]. injection Hr as _ <-.
  apply signal_last_ordered in E as (l3 & E3 & Hs). cbn [commands set_waits waitListView] in E1, Hw.
  exists (l1 ++ l2 ++ l3). rewrite E3, E2, E1, !app_assoc. split; [done|]. split.
  - intros Hne. specialize (Hw Hne). by destruct l1.
  - intros e He. specialize (Hs e He). rewrite last_app. by destruct (last l3).
Qed.

(** *** The commands *)
Inductive buffer_command (q : nat) (waits : list Z) (ev : option Z) : bool → M unit → Prop :=
  | bc_read b h off n dst : buffer_command q waits ev b (appendMemBufferRead q h b off n dst waits ev)
  | bc_write b h off n src : buffer_command q waits ev b (appendMemBufferWrite q h b off n src waits ev)
  | bc_fill h pattern ps off n : 0 < ps ≤ n → n `div` ps < 2 ^ 32 →
      buffer_command q waits ev false (appendMemBufferFill q h pattern ps off n waits ev)
  | bc_copy h1 h2 off1 off2 n : buffer_command q waits ev false (appendMemBufferCopy q h1 h2 off1 off2 n waits ev)
  | bc_kernel k hs dim dims : buffer_command q waits ev false (appendKernelLaunch q k hs dim dims waits ev)
  | bc_map b h fl off n : buffer_command q waits ev b (_ ← appendMemBufferMap h b fl off n waits ev; mret ())
  | bc_unmap h p : buffer_command q waits ev false (appendMemUnmap h p waits ev).

Lemma fill_ordered q h pat ps off n waits ev s a s' : 0 < ps ≤ n → n `div` ps < 2 ^ 32 →
  appendMemBufferFill q h pat ps off n waits ev s = (inr a, s') → ∃ l, commands s' = commands s ++ l ∧ ordered waits ev l.
Proof.
  intros Hps Hdiv [(u & s1 & [= <- <-] & Hr)|(e & [=] & _)]%l0_bind_inv.
  apply l0_bind_inv in Hr as [(m & s1 & E & Hr)|(e & _ & [=])]. apply l0_get_inv in E as [-> _].
  apply l0_bind_inv in Hr as [(u' & s1 & E & Hr)|(e & _ & [=])]. apply l0_assert_inv in E as [-> _].
  apply l0_bind_inv in Hr as [(p & s1 & E & Hr)|(e & _ & [=])]. apply kept_getDevicePtr in E as [Ec Ew].
  change (commands s) with (commands (set_waits waits s)). rewrite <-Ec.
  assert (waitListView s1 = waits) as <- by done. destruct (isPowerOf2 ps).
  - apply l0_bind_inv in Hr as [(w & s2 & [= <- <-] & Hr)|(e & [=] & _)].
    apply l0_bind_inv in Hr as [(mm & s2 & [= <- <-] & Hr)|(e & [=] & _)].
    apply append_cases in Hr as [[_ ->]|(e & [=] & _)]. eexists. split; [done|]. apply ordered_one.
  - pose proof (Z.div_le_lower_bound n ps 1). rewrite u32_small in Hr by (unfold in_u32; lia).
    by eapply copy_steps_ordered in Hr; [|lia..].
Qed.

Lemma command_ordered q waits ev m s a s' : buffer_command q waits ev false m → m s = (inr a, s') →
  ∃ l, commands s' = commands s ++ l ∧ ordered waits ev l.
Proof.
  intros Hm Hr. remember false as b eqn:Eb. destruct Hm; try subst b; clear Eb || idtac.
  - eapply one_ordered; [|exact Hr]. pose proof one_generic_copy. eauto with l0.
  - eapply one_ordered; [|exact Hr]. pose proof one_generic_copy. eauto with l0.
  - by eapply fill_ordered in Hr.
  - eapply one_ordered; [|exact Hr]. pose proof one_generic_copy. eauto 20 with l0.
  - eapply one_ordered; [|exact Hr]. pose proof (kept_prepare q hs). apply one_bind; [auto with l0|]. intros _.
    apply one_bind; [destruct dims; auto with l0|]. intros _. apply one_bind; [auto with l0|]. intros _.
    apply one_bind; [done|]. intros args. apply one_append.
  - apply l0_bind_inv in Hr as [(x & s1 & E & Hr)|(e & _ & [=])]. injection Hr as _ <-.
    apply l0_bind_inv in E as [(u & s2 & [= <- <-] & E)|(e & [=] & _)].
    apply l0_bind_inv in E as [(m & s2 & E1 & E)|(e & _ & [=])]. apply l0_get_inv in E1 as [-> _].
    by apply (between_ordered _ _ _ _ _ _ (extends_mapHostPtr h fl off n)) in E.
  - apply l0_bind_inv in Hr as [(u & s2 & [= <- <-] & E)|(e & [=] & _)].
    apply l0_bind_inv in E as [(m & s2 & E1 & E)|(e & _ & [=])]. apply l0_get_inv in E1 as [-> _].
    apply (between_ordered _ _ (unmapHostPtr h p) _ a s'); [apply extends_unmapHostPtr|].
    rewrite <-E. unfold mbind, M_bind. destruct (wait_first _) as [[e|v] s3]; [done|].
    destruct (unmapHostPtr h p s3) as [[e|x] s4]; [done|]. destruct (signal_last ev s4) as [[e|[]] s5]; [done|]. by destruct x.
Qed.
(** *** Commands that block: the others, followed by a wait for the list *)
Definition blocks {A} (m k : M A) : Prop := ∀ s a s', m s = (inr a, s') →
  ∃ s1, k s = (inr a, s1) ∧ commands s' = [] ∧ mem s' = eventual s1.
Lemma blocks_bind {A B} (m : M A) (f g : A → M B) : (∀ a, blocks (f a) (g a)) → blocks (m ≫= f) (m ≫= g).
Proof.
  intros Hf s b s' [(a & s1 & E & Hr)|(e & _ & [=])]%l0_bind_inv. apply Hf in Hr as (s2 & Hr & Hc & Hm).
  exists s2. split_and!; [|done..]. unfold mbind, M_bind. by rewrite E.
Qed.
Lemma blocks_synchronize : blocks (when true zeCommandListHostSynchronize) (when false zeCommandListHostSynchronize).
Proof.
  intros s [] s' [(u & s1 & E & Hr)|(e & _ & [=])]%l0_bind_inv. injection Hr as <-.
  apply ze_cases in E as [-> _]. exists s. by split_and!.
Qed.
Lemma blocks_then {A B} (m k : M A) (f : A → B) : blocks m k → blocks (x ← m; mret (f x)) (x ← k; mret (f x)).
Proof.
  intros Hm s b s' [(a & s1 & E & Hr)|(e & _ & [=])]%l0_bind_inv. injection Hr as <- <-.
  apply Hm in E as (s2 & E & ? & ?). exists s2. split_and!; [|done..]. unfold mbind, M_bind. by rewrite E.
Qed.
Lemma blocks_copy q src dst so d n ev :
  blocks (appendGenericCopyUnlocked q src dst true so d n ev) (appendGenericCopyUnlocked q src dst false so d n ev).
Proof. unfold appendGenericCopyUnlocked. repeat (apply blocks_bind; intros ?). apply blocks_synchronize. Qed.

Lemma command_blocks q waits ev m : buffer_command q waits ev true m →
  ∃ k, buffer_command q waits ev false k ∧ blocks m k.
Proof.
  remember true as b eqn:Eb. intros Hm. destruct Hm; try done; subst b.
  - eexists. split; [apply (bc_read _ _ _ false)|]. do 3 (apply blocks_bind; intros ?). apply blocks_copy.
  - eexists. split; [apply (bc_write _ _ _ false)|]. do 3 (apply blocks_bind; intros ?). apply blocks_copy.
  - eexists. split; [apply (bc_map _ _ _ false)|]. apply blocks_then. do 5 (apply blocks_bind; intros ?).
    apply (blocks_then _ _ (λ _, _)), blocks_synchronize.
Qed.

Lemma any_command_ordered q waits ev b m s s' : buffer_command q waits ev b m → m s = (inr (), s') →
  ∃ s1 l, commands s1 = commands s ++ l ∧ ordered waits ev l ∧
    if b then commands s' = [] ∧ mem s' = eventual s1 else s' = s1.
Proof.
  intros Hm Hr. destruct b.
  - destruct (command_blocks _ _ _ _ Hm) as (k0 & Hk & Hb). destruct (Hb _ _ _ Hr) as (s1 & Hr1 & Hc & He).
    destruct (command_ordered _ _ _ _ _ _ _ Hk Hr1) as (l & ? & ?). by exists s1, l.
  - destruct (command_ordered _ _ _ _ _ _ _ Hm Hr) as (l & ? & ?). by exists s', l.
Qed.
End order.
End L0Order.
