(* ===== verification/L0MemoryProps.v ===== *)
(** * The properties of the memory objects of the Level Zero v2 adapter *)
From stdpp Require Import base numbers list gmap relations.
From S2P Require Import Prelude UrUtil FlatMemory L0Memory L0MemoryProofs L0MemoryCommands L0MemoryHandles L0MemoryOrder.
Import Util.
Local Open Scope Z_scope.

Module L0Props.
Import L0Mem L0Spec L0Facts L0Commands L0Handles L0Order.

Section props.
Context `{LevelZero, L0Context} (user : Z → Prop).

(** A step of the implementation with the step of the arrays it stands for. *)
Definition step (x y : state * spec) : Prop := ∃ l, cstep user x.1 x.2 l y.1 ∧ astep x.2 l y.2.

Definition initial (mm : memory) : state * spec :=
  ({| mem := mm; allocations := []; invalid_frees := 0; mems := ∅; next_handle := 1; commands := []; waitListView := [];
      calls := 0; ignored := 0 |}, {| arrays := ∅; maps := ∅ |}).

Lemma l0_no_buffers_inv mm : inv user (initial mm).1 (initial mm).2.
Proof.
  split; cbn [initial fst snd mems allocations commands arrays maps next_handle invalid_frees]; try (by intros; simplify_map_eq).
  - by intros x ?%not_elem_of_nil.
  - by intros x y ?%not_elem_of_nil.
  - intros a (c & ?%not_elem_of_nil & _). done.
  - intros h. rewrite lookup_empty. split; [by intros [? ?]|]. intros (m & Hm & _). by rewrite lookup_empty in Hm.
Qed.

Lemma l0_write_label_step (b : bool) r off n data σ c : arrays σ !! r = Some c →
  astep σ (write_label b r off n data) (write r off n (λ i, if b then Some (data i) else None) σ).
Proof. intros Hc. destruct b; [by apply (a_write _ r c)|by apply (a_lost _ r c)]. Qed.
Lemma astep_create σ r c : arrays σ !! r = None → astep σ (LCreate r c) (add_array r c σ).
Proof. apply a_create. Qed.
Lemma no_array s σ : inv user s σ → arrays σ !! next_handle s = None.
Proof.
  intros Hi. destruct (arrays σ !! next_handle s) as [c|] eqn:E; [|done].
  assert (is_Some (arrays σ !! next_handle s)) as (m & Hm & _)%(inv_dom _ _ _ Hi) by by eexists.
  by rewrite (inv_next user _ _ Hi) in Hm.
Qed.
Lemma unmapped_kept s s' b fl p : unmapped_as s s' b fl p = Kept → flag_writes fl = false.
Proof. unfold unmapped_as. destruct b; repeat case_match; try done; by destruct (_ && _). Qed.

Lemma l0_cstep_refines s σ l s' : driver_ok user → inv user s σ → cstep user s σ l s' →
  ∃ σ', astep σ l σ' ∧ inv user s' σ'.
Proof.
  intros Hok Hi Hst. destruct Hst as
    [a v _ Hb Hn| |r s' Hr|flags n q r s' Hn Hq Hr|q own n r s' Hrange Hn Hq Hr|h m flags reg o n r s' Hm Hrc Ho Hn Hsz Hr
    |h m r s' Hm Hrc Hr|h m root off r s' Hm Hch Hc Hw Hr|h d r s' Hd Hr
    |q h root o b off n dst w ev r s' Hq Hw Hf Hh Hr|q h m root o b off n src w ev r s' Hq Hm Hw Hf Hn Ha Hr
    |q h m root o pat ps off n w ev r s' Hq Hm Hw Hf Hn Hps Hmod Hdiv Hpat Hr
    |q h1 h2 r1 r2 o1 o2 off1 off2 n w ev r s' Hq Hw1 Hw2 Hf1 Hf2 _ Hr
    |h m root o b fl off n w ev p s' Hm Hw Hf Hn Hsz Hd Hmaps Hr|h m root o b fl off n w ev e s' Hm Hw Hf Hn Hsz Hr
    |h m root o p off n fl w ev r s1 s' Hw Hm Hmap Hr Hfin
    |q k hs args ms w ev c ps s' Hq Hw Hms [dim Hr] Hcmd Hop|q k hs args dim dims w ev e s' Hq Hw Hr].
  - exists σ. split; [constructor|]. by apply host_write_ok.
  - exists σ. split; [constructor|]. by apply run_first_ok.
  - exists σ. split; [constructor|]. by apply (queueFinish_ok user s σ r).
  - apply (urMemBufferCreate_ok user Hok s σ) in Hr as [_ Hr]; try done. destruct r as [e|h].
    + exists σ. split; [constructor|done].
    + destruct Hr as [-> Hi']. eexists. split; [|exact Hi']. by apply astep_create, (no_array s).
  - apply (urMemBufferCreateWithNativeHandle_ok user Hok s σ q own n) in Hr as [_ Hr]; try done. destruct r as [e|h].
    + exists σ. split; [constructor|done].
    + destruct Hr as [-> Hi']. rewrite host_content_pos in Hi' by apply Hq. eexists. split; [|exact Hi'].
      by apply astep_create, (no_array s).
  - exists σ. split; [constructor|]. by apply (urMemBufferPartition_ok user s σ h m) in Hr as [_ ?].
  - exists σ. split; [constructor|]. by apply (urMemRetain_ok user s σ h m) in Hr as [_ ?].
  - destruct (inv_handle _ _ _ Hi h m Hm) as (Hpos & _).
    apply (l0_release_ok user _ s σ h m root off) in Hr as [_ Hi']; try done; [|lia].
    eexists. split; [|exact Hi']. case_bool_decide; [apply a_release|constructor].
  - exists σ. split; [constructor|]. by apply (urMemGetNativeHandle_ok user Hok s σ h d) in Hr as [_ ?].
  - apply (l0_read_ok user Hok s σ q h root o) in Hr as (_ & Hi' & Hrd); try done. exists σ. split; [|done].
    destruct (ok r); [|constructor]. destruct (Hrd eq_refl) as (c & Hc & Hag). by apply (a_read _ root c).
  - destruct (root_array user s σ h m root o Hi Hm Hw) as [c Hc].
    apply (l0_write_ok user Hok s σ q h m root o) in Hr as [_ Hi']; try done.
    eexists. split; [by eapply l0_write_label_step|]. apply Hi'.
    + intros i v -> _. by intros [= <-].
    + by intros i ->.
  - destruct (root_array user s σ h m root o Hi Hm Hw) as [c Hc].
    apply (l0_fill_ok user Hok s σ q h m root o) in Hr as [_ Hi']; try done.
    eexists. split; [by eapply l0_write_label_step|]. apply Hi'.
    + intros i v -> _. by intros [= <-].
    + by intros i ->.
  - apply (l0_copy_ok user Hok s σ q h1 h2 r1 r2 o1 o2) in Hr as (_ & c1 & c2 & Hc1 & Hc2 & Hi'); try done.
    eexists. split; [|exact Hi']. destruct (ok r); [by apply (a_copy _ r1 r2 c1 c2)|constructor].
  - destruct (root_array user s σ h m root o Hi Hm Hw) as [c Hc].
    apply (map_ok_cmd user Hok s σ h m root o) in Hr as (_ & Hi' & mr & Hmr & Hsz' & Ho & Hmapped); try done.
    destruct (Hmapped p eq_refl) as [(m' & Hm' & Hp' & Hs' & Hmok) Hag]; [by intros x; apply Hd|].
    eexists. split.
    + apply (a_map _ root p c); [done| |].
      * destruct (maps σ !! (root, p)) as [fl'|] eqn:E; [by destruct (Hmaps fl')|done].
      * intros [Hfl Hig%bool_decide_eq_true]%andb_prop. by apply Hag.
    + apply (inv_add_map user s' _ root m'); try done; [|lia]. destruct (flag_writes fl); [by apply l0_inv_lost|done].
  - exists σ. split; [constructor|]. by apply (map_ok_cmd user Hok s σ h m root o) in Hr as (_ & ? & _).
  - apply (l0_unmap_ok user Hok s σ h root o m p off n fl w ev r s1 s') in Hr as [_ Hi']; try done.
    destruct (inv_maps _ _ _ Hi root p off n fl Hmap) as (m0 & Hm0 & Hp0 & _). assert (m0 = m) as -> by congruence.
    destruct (l0_inv_lookup user s σ root m Hi Hm Hp0) as [c Hc].
    eexists. split; [|exact Hi']. apply (a_unmap _ root p c off n fl); try done.
    destruct (ok r); [apply unmapped_kept|done].
  - apply (l0_kernel_ok user Hok s σ q k hs args (getSize <$> ms)) in Hr as [_ (ps' & w' & Hcmd' & Hv & Hi')]; try done.
    + rewrite Hcmd in Hcmd'. apply app_inj_tail in Hcmd' as [_ ->]. injection Hop as <-.
      eexists. split; [by apply a_kernel|done].
    + rewrite Forall2_fmap_r. eapply Forall2_impl; [exact Hms|]. intros h m Hm. by exists m.
  - exists σ. split; [constructor|]. destruct (sizes_exist s hs args Hw) as [ns Hns].
    by apply (l0_kernel_ok user Hok s σ q k hs args ns) in Hr as [_ ?].
Qed.

Lemma l0_astep_det σ l σ1 σ2 : astep σ l σ1 → astep σ l σ2 → σ1 = σ2.
Proof. intros H1 H2. destruct H1; inversion H2; by simplify_eq. Qed.
Lemma l0_step_inv x y : driver_ok user → inv user x.1 x.2 → step x y → inv user y.1 y.2.
Proof.
  intros Hok Hi (l & Hc & Ha). destruct (l0_cstep_refines _ _ _ _ Hok Hi Hc) as (σ' & Ha' & Hi').
  by rewrite (l0_astep_det _ _ _ _ Ha Ha').
Qed.
Lemma l0_reachable_inv mm x : driver_ok user → rtc step (initial mm) x → inv user x.1 x.2.
Proof.
  intros Hok Hr. remember (initial mm) as x0 eqn:E. assert (inv user x0.1 x0.2) as H1 by (subst; apply l0_no_buffers_inv). clear E.
  induction Hr as [|x0 x1 x2 Hst _ IH]; [done|]. by apply IH, (l0_step_inv x0).
Qed.

(** C4: The buffers of the adapter behave as arrays of bytes, for the uses of them
    that [cstep] admits: whatever is created, imported, partitioned, retained,
    released, read, written, filled, copied, mapped, unmapped and run by queues
    of any device, while the command list runs whenever it likes and whichever
    driver calls fail, each such step is a step of the arrays.  So a read or map
    gives, and a kernel finds, the bytes last written; sub-buffers are windows of
    their parent; and nothing is freed but live allocations, once.  What [cstep]
    asks for:
    - an unmap that gives the mapped memory back to the pool is followed by a
      [queueFinish] that succeeds ([unmap_frees_pending_source] is what happens
      otherwise), and handles are released only when the command list has run
      and the application holds a reference to them;
    - sub-buffers within their parents ([partition_beyond_parent]);
    - a map that does not return the pointer of one the buffer has already
      ([maps_collide]), ranges to map that are not empty;
    - ranges within the buffer and the 64-bit range on writes, fills, copies and
      maps, copies that do not overlap, pattern sizes that divide the fill, whose
      number is below 2^32, and a pattern that stays as it is till the fill runs
      ([odd_pattern_read_late]);
    - host memory that is the application's or the pool's, is not given to two
      buffers, and is not written while a command in the list uses it or where a
      buffer keeps defined bytes; fewer than 2^32 references. *)
Theorem l0_buffers_refine mm x l s' : driver_ok user → rtc step (initial mm) x → cstep user x.1 x.2 l s' →
  invalid_frees s' = 0%nat ∧ ∃ σ', astep x.2 l σ' ∧ step x (s', σ').
Proof.
  intros Hok Hr Hc. destruct (l0_cstep_refines _ _ _ _ Hok (l0_reachable_inv _ _ Hok Hr) Hc) as (σ' & Ha & Hi').
  split; [by apply (inv_frees _ _ _ Hi')|]. exists σ'. split; [done|]. by exists l.
Qed.

(** C18: A copy within the bounds of its buffers returns, with or without an error,
    unless both are, or are parts of, one buffer and there are locks: then it
    waits for a lock that it holds. *)
Theorem copy_returns s σ q h1 h2 m1 m2 r1 r2 o1 o2 off1 off2 n waits ev r s' :
  driver_ok user → inv user s σ → (q < getNumDevices)%nat → mems s !! h1 = Some m1 → mems s !! h2 = Some m2 →
  window s h1 = Some (r1, o1) → window s h2 = Some (r2, o2) → fits off1 n → fits off2 n →
  off1 + n ≤ getSize m1 → off2 + n ≤ getSize m2 → appendMemBufferCopy q h1 h2 off1 off2 n waits ev s = (r, s') →
  r = inl NoReturn ↔ r1 = r2 ∧ SingleThreadMode = false.
Proof.
  intros Hok Hi Hq Hm1 Hm2 Hw1 Hw2 Hf1 Hf2 Hn1 Hn2 Hr. split.
  - intros ->. destruct (l0_copy_ok user Hok s σ q h1 h2 r1 r2 o1 o2 off1 off2 n waits ev (inl NoReturn) s' Hi Hq Hw1 Hw2 Hf1 Hf2 Hr) as [Hret _].
    destruct (decide (r1 = r2)) as [->|Hne]; [|by destruct (Hret (or_introl Hne))].
    split; [done|]. destruct SingleThreadMode; [by destruct (Hret (or_intror eq_refl))|done].
  - intros [-> Hst]. unfold appendMemBufferCopy in Hr. rewrite with_waits_eq in Hr. set (s0 := set_waits waits s) in *.
    assert (inv user s0 σ) as Hi0 by by apply inv_set_waits.
    step Hr; destruct (get_some h1 s0 m1 _ _ E Hm1) as [[=] ->]; subst a; clear E.
    step Hr; destruct (get_some h2 s0 m2 _ _ E Hm2) as [[=] ->]; subst a; clear E.
    assert (∀ off m, fits off n → off + n ≤ getSize m → (u64 (off + n) <=? getSize m) = true) as Hle.
    { intros off m (? & ? & ?) ?. rewrite u64_small by (unfold in_u64; lia). lia. }
    rewrite (Hle off1 m1 Hf1 Hn1), (Hle off2 m2 Hf2 Hn2) in Hr.
    do 2 (step Hr; [injection E as _ <-|done]).
    step Hr; [|by apply (getMutex_ok user s0 σ h1 m1 r2 o1 _ _ Hi0 Hm1 Hw1) in E as [? _]].
    apply (getMutex_ok user s0 σ h1 m1 r2 o1 _ _ Hi0 Hm1 Hw1) in E as [[= ->] ->].
    step Hr; [|by apply (getMutex_ok user s0 σ h2 m2 r2 o2 _ _ Hi0 Hm2 Hw2) in E as [? _]].
    apply (getMutex_ok user s0 σ h2 m2 r2 o2 _ _ Hi0 Hm2 Hw2) in E as [[= ->] ->].
    unfold scoped_lock2 in Hr. rewrite Z.eqb_refl, Hst in Hr. by injection Hr as <- _.
Qed.

End props.

(** ** A context of two discrete devices that can access each other's memory *)
Definition bump (l : list (Z * Z)) : Z := foldr (λ x a, (x.1 + x.2) `max` a) 4096 l.
Definition low (a : Z) : Prop := a < 4096.
Lemma l0_bump_above l p k : (p, k) ∈ l → p + k ≤ bump l.
Proof. induction l as [|[p' k'] l IH]; [by intros ?%not_elem_of_nil|]. intros [[= -> ->]|Hin]%elem_of_cons; simpl; [lia|]. specialize (IH Hin). lia. Qed.
Lemma l0_bump_high l : 4096 ≤ bump l.
Proof. induction l as [|x l IH]; simpl; lia. Qed.

Definition sample_driver : LevelZero := {|
  ze_error _ := None; umf_malloc l _ := bump l; ze_memory_type _ _ := ZE_MEMORY_TYPE_UNKNOWN; ze_memory_device _ := None;
  zeMemGetAddressRange p := (p, 8); ZeUSMImport_Enabled := false; ze_error_fails n := ltac:(done) |}.
Definition sample_context : L0Context := {|
  getDevices := [0%nat; 1%nat]; getNumDevices := 2; integrated := false; peers _ _ := ENABLED; RootDevice _ := None;
  SingleThreadMode := false |}.
#[local] Existing Instance sample_driver.
#[local] Existing Instance sample_context.

Lemma l0_sample_driver_ok : driver_ok low.
Proof.
  split_and!; [|unfold first_device; simpl; lia|by split]. intros l n. pose proof (l0_bump_high l). split; [simpl; lia|]. simpl. intros a Ha%in_range_true.
  split; [unfold low; lia|]. intros [p k] Hin. apply in_range_false. pose proof (l0_bump_above l p k Hin). simpl. lia.
Qed.

(** Every byte of the application's memory is its address. *)
Definition own_address : memory := λ a, a.
Definition increment : kernel := λ views i o, match i with O => Some (nth 0 views (λ _, 0) o + 1) | S _ => None end.

(** A buffer is created, written through a queue of the first device and
    incremented on the other; nothing has run yet. *)
Definition t1 : state := (urMemBufferCreate UR_MEM_FLAG_READ_WRITE 8 0 (initial own_address).1).2.
Definition σ1 : spec := {| arrays := {[1 := λ _, None]}; maps := ∅ |}.
Definition t2 : state := (appendMemBufferWrite 0 1 false 0 8 16 [7] (Some 9) t1).2.
Definition σ2 : spec := write 1 0 8 (λ i, Some (own_address (16 + i))) σ1.
Definition t3 : state := (appendKernelLaunch 1 increment [1] 1 None [] None t2).2.
Definition inc_views : list (Z → Z) := view (eventual t2) <$> [(4096, 8)].
Definition σ3 : spec := {| arrays := kernel_windows increment inc_views 0 [(1, 0, 8)] (arrays σ2); maps := ∅ |}.
Definition t4 : state := (appendMemBufferRead 0 1 true 0 8 100 [] None t3).2.
Definition the (s : state) (h : Z) : ur_mem_handle :=
  default {| buffer := SubBuffer 0 0; getSize := 0; getDeviceAccessMode := read_write; RefCount := 0 |} (mems s !! h).

Lemma l0_outcome {A} (p : (fault + A) * state) r : p.1 = r → p = (r, p.2).
Proof. destruct p. by intros <-. Qed.
Lemma low_accessible s p n : p + n ≤ 4096 → accessible low s p n.
Proof. intros Hp a Ha%in_range_true. left. unfold low. lia. Qed.

Lemma l0_created : step low (initial own_address) (t1, σ1).
Proof.
  exists (LCreate 1 (λ _, None)). split; [|by constructor].
  apply (c_create low _ _ UR_MEM_FLAG_READ_WRITE 8 0 (inr 1) t1); [lia|done|]. unfold t1. apply l0_outcome. vm_compute. reflexivity.
Qed.
Lemma l0_written : step low (t1, σ1) (t2, σ2).
Proof.
  exists (LWrite 1 0 8 (λ i, own_address (16 + i))). split; [|by eapply a_write].
  apply (c_write low t1 σ1 0 1 (the t1 1) 1 0 false 0 8 16 [7] (Some 9) (inr ()) t2); try reflexivity; try (simpl; lia).
  - unfold fits. lia.
  - by apply low_accessible.
Qed.
Lemma l0_launched : step low (t2, σ2) (t3, σ3).
Proof.
  exists (LKernel increment [(1, 0, 8)] inc_views). split.
  - refine (c_kernel low t2 σ2 1 increment [1] [(1, 0)] [the t2 1] [] None _ [(4096, 8)] t3 _ _ _ _ _ _); try (simpl; lia).
    + constructor; [vm_compute; reflexivity|constructor].
    + constructor; [vm_compute; reflexivity|constructor].
    + exists 1. unfold t3. apply l0_outcome. vm_compute. reflexivity.
    + vm_compute. reflexivity.
    + reflexivity.
  - apply (a_kernel σ2 increment [(1, 0, 8)] inc_views). constructor; [|constructor].
    eexists. split; [reflexivity|]. intros i v Hi. simpl in Hi.
    assert (forallb (λ i, nth 0 inc_views (λ _, 0) i =? 16 + i) (seqZ 0 8) = true) as Hv by (vm_compute; reflexivity).
    rewrite forallb_forall in Hv. specialize (Hv i). rewrite <-list_elem_of_In, elem_of_seqZ in Hv. specialize (Hv ltac:(lia)).
    unfold upd. cbn [fst snd]. rewrite (proj2 (in_range_true 0 8 (0 + i))) by lia. intros [= <-]. unfold own_address.
    apply Z.eqb_eq in Hv. change (nth 0 inc_views (λ _, 0) i) with (view (eventual t2) (4096, 8) i) in Hv. rewrite Hv. lia.
Qed.

Lemma l0_buffers_refine_witness :
  ∃ s' data, cstep low t3 σ3 (LRead 1 0 8 data) s' ∧ invalid_frees s' = 0%nat ∧ ∀ i, 0 ≤ i < 8 → data i = own_address (16 + i) + 1.
Proof.
  assert (cstep low t3 σ3 (LRead 1 0 8 (λ i, eventual t4 (100 + i))) t4) as Hc.
  { apply (c_read low t3 σ3 0 1 1 0 true 0 8 100 [] None (inr ()) t4); [simpl; lia|vm_compute; reflexivity|unfold fits; lia| |unfold t4; apply l0_outcome; vm_compute; reflexivity].
    split; [by apply low_accessible|]. intros a Ha%in_range_true h m c p Hm _ Hb Hr%in_range_true. exfalso.
    assert (mems t3 = {[1 := the t3 1]}) as E by (vm_compute; reflexivity). rewrite E in Hm.
    apply lookup_singleton_Some in Hm as [<- <-].
    assert (base (buffer (the t3 1)) = Some 4096) as Eb by (vm_compute; reflexivity). simplify_eq. lia. }
  assert (rtc (step low) (initial own_address) (t3, σ3)) as Hr
    by (eapply rtc_l; [apply l0_created|]; eapply rtc_l; [apply l0_written|]; by eapply rtc_once, l0_launched).
  destruct (l0_buffers_refine low own_address (t3, σ3) _ t4 l0_sample_driver_ok Hr Hc) as (Hnf & σ' & Ha & _).
  exists t4, (λ i, eventual t4 (100 + i)). split; [exact Hc|]. split; [exact Hnf|]. intros i Hi.
  inversion Ha as [| |? c ? ? ? Hlook Hag Eh| | | | | | |]; subst. apply Hag; [lia|].
  cbn [snd σ3 arrays kernel_windows] in Hlook. rewrite lookup_alter_eq in Hlook. unfold σ2, write, σ1 in Hlook.
  cbn [arrays] in Hlook. rewrite lookup_alter_eq, lookup_singleton_eq in Hlook. injection Hlook as <-.
  unfold kernel_window. rewrite (proj2 (in_range_true 0 8 (0 + i))) by lia. cbn [increment]. f_equal. f_equal.
  assert (forallb (λ j, nth 0 inc_views (λ _, 0) j =? 16 + j) (seqZ 0 8) = true) as Hv by (vm_compute; reflexivity).
  rewrite forallb_forall in Hv. replace (0 + i - 0) with i by lia. apply Z.eqb_eq, Hv, list_elem_of_In, elem_of_seqZ. lia.
Defined.

Lemma t2_inv : inv low t2 σ2.
Proof.
  apply (l0_reachable_inv low own_address (t2, σ2) l0_sample_driver_ok). eapply rtc_l; [apply l0_created|]. by eapply rtc_once, l0_written.
Qed.
(** Copying the first half of the buffer to the second half. *)
Lemma copy_returns_witness : ∃ s', appendMemBufferCopy 0 1 1 0 4 4 [] None t2 = (inl NoReturn, s').
Proof.
  destruct (appendMemBufferCopy 0 1 1 0 4 4 [] None t2) as [r s'] eqn:Hr.
  assert (r = inl NoReturn) as ->.
  { apply (copy_returns low t2 σ2 0 1 1 (the t2 1) (the t2 1) 1 1 0 0 0 4 4 [] None r s'
      l0_sample_driver_ok t2_inv); try (by vm_compute); try (unfold fits; lia); try (simpl; lia); exact Hr. }
  by exists s'.
Defined.


(** *** What the code does not do

    Each function gives the state after a call that succeeds; bytes are read back
    to [100] once all commands have run. *)
Definition read_bytes `{LevelZero, L0Context} (h n : Z) (s : state) : fault + list Z :=
  match appendMemBufferRead 0 h true 0 n 100 [] None s with
  | (inr _, s') => inr (mem s' <$> seqZ 100 n)
  | (inl e, _) => inl e
  end.
Definition host_fill (p n v : Z) (s : state) : state := set_mem (λ m a, if in_range p n a then v else m a) s.

(** A pool that gives out a piece of memory again once it is free. *)
Definition reuse (l : list (Z * Z)) (n : Z) : Z :=
  if forallb (λ x, (x.1 + x.2 <=? 8192) || (8192 + n <=? x.1)) l then 8192 else bump l `max` (8192 + n).
Definition reusing_driver : LevelZero := {|
  ze_error _ := None; umf_malloc := reuse; ze_memory_type _ _ := ZE_MEMORY_TYPE_UNKNOWN; ze_memory_device _ := None;
  zeMemGetAddressRange p := (p, 8); ZeUSMImport_Enabled := false; ze_error_fails n := ltac:(done) |}.
Lemma reusing_driver_ok : @driver_ok reusing_driver sample_context low.
Proof.
  split_and!; [|unfold first_device; simpl; lia|by split]. intros l n. simpl. unfold reuse.
  destruct (forallb _ l) eqn:E.
  - split; [lia|]. intros a Ha%in_range_true. split; [unfold low; lia|]. intros y Hy. rewrite forallb_forall in E.
    rewrite list_elem_of_In in Hy. specialize (E y Hy). apply in_range_false. lia.
  - pose proof (l0_bump_high l). split; [lia|]. intros a Ha%in_range_true. split; [unfold low; lia|].
    intros [p k] Hin. apply in_range_false. pose proof (l0_bump_above l p k Hin). simpl. lia.
Qed.

Section reusing.
#[local] Existing Instance reusing_driver.
Definition mapped_at (r : (fault + Z) * state) : Z := match r.1 with inr p => p | inl _ => 0 end.
Definition two_buffers : state :=
  (urMemBufferCreate UR_MEM_FLAG_READ_WRITE 8 0 (urMemBufferCreate UR_MEM_FLAG_READ_WRITE 8 0 (initial own_address).1).2).2.
Definition first_map : (fault + Z) * state := appendMemBufferMap 1 true UR_MAP_FLAG_WRITE 0 8 [] None two_buffers.
Definition first_unmapped : state := (appendMemUnmap 1 (mapped_at first_map) [] None (host_fill (mapped_at first_map) 8 5 first_map.2)).2.
Definition second_map : (fault + Z) * state := appendMemBufferMap 2 false UR_MAP_FLAG_WRITE 0 8 [] None first_unmapped.
(** An unmap gives the mapped memory back to the pool before the copy it has
    appended has run: the next map gets the same memory, and what the host writes
    there ends up in the buffer that was unmapped. *)
Theorem unmap_frees_pending_source :
  first_map.1 = inr 8192 ∧ second_map.1 = inr 8192 ∧
  read_bytes 1 2 first_unmapped = inr [5; 5] ∧ read_bytes 1 2 (host_fill 8192 8 6 second_map.2) = inr [6; 6].
Proof. vm_compute. done. Qed.
End reusing.

Definition with_host : state := (urMemBufferCreate UR_MEM_FLAG_READ_WRITE 8 64 (initial own_address).1).2.
Definition mapped_low : (fault + Z) * state := appendMemBufferMap 1 true UR_MAP_FLAG_READ 0 4 [] None with_host.
Definition mapped_high : (fault + Z) * state := appendMemBufferMap 1 true UR_MAP_FLAG_READ 4 4 [] None mapped_low.2.
(** A buffer made from a host pointer maps every range to that pointer: the bytes
    of the second map replace those of the first. *)
Theorem maps_collide : mapped_low.1 = inr 64 ∧ mapped_high.1 = inr 64 ∧
  mem mapped_low.2 <$> [64; 65] = [64; 65] ∧ mem mapped_high.2 <$> [64; 65] = [68; 69].
Proof. vm_compute. done. Qed.

(** What the host writes to memory that is mapped for reading gets into the
    buffer when it is unmapped. *)
Theorem read_only_map_writes_back : read_bytes 1 2 with_host = inr [64; 65] ∧
  read_bytes 1 2 (appendMemUnmap 1 64 [] None (host_fill 64 4 7 mapped_low.2)).2 = inr [7; 7].
Proof. vm_compute. done. Qed.

(** A sub-buffer may extend beyond its parent; writes to it land behind the
    parent's allocation. *)
Definition beyond : state := (urMemBufferPartition 1 UR_MEM_FLAG_READ_WRITE true 4 8 t1).2.
Definition written_beyond : state := run_all (appendMemBufferWrite 0 2 false 4 4 16 [] None beyond).2.
Theorem partition_beyond_parent :
  (urMemBufferPartition 1 UR_MEM_FLAG_READ_WRITE true 4 8 t1).1 = inr 2 ∧
  allocations written_beyond = [(4096, 8)] ∧ mem beyond 4104 = 4104 ∧ mem written_beyond 4104 = 16.
Proof. vm_compute. done. Qed.

(** A map whose contents are invalidated and that is unmapped before the buffer
    has memory on a device is lost: another buffer has got memory in between, and
    what is read is not what the host has written. *)
Definition discard_map : (fault + Z) * state := appendMemBufferMap 1 true UR_MAP_FLAG_WRITE_INVALIDATE_REGION 0 8 [] None t1.
Definition other_written : state :=
  (appendMemBufferWrite 0 2 true 0 8 16 [] None
     (urMemBufferCreate UR_MEM_FLAG_READ_WRITE 8 0 (host_fill 4096 8 5 discard_map.2)).2).2.
Theorem invalidated_map_lost : discard_map.1 = inr 4096 ∧ (appendMemUnmap 1 4096 [] None other_written).1 = inr () ∧
  read_bytes 1 2 (appendMemUnmap 1 4096 [] None other_written).2 = inr [4112; 4113].
Proof. vm_compute. done. Qed.

(** A fill with a pattern whose size is no power of two reads the pattern when its
    copies run, not when it is called. *)
Definition filled3 : state := (appendMemBufferFill 0 1 20 3 0 6 [] None t1).2.
Definition filled2 : state := (appendMemBufferFill 0 1 20 2 0 6 [] None t1).2.
Theorem odd_pattern_read_late :
  read_bytes 1 3 (host_fill 20 3 9 filled3) = inr [9; 9; 9] ∧ read_bytes 1 2 (host_fill 20 2 9 filled2) = inr [20; 21].
Proof. vm_compute. done. Qed.

(** *** One integrated device *)
Section integrated.
Definition integrated_context : L0Context := {|
  getDevices := [0%nat]; getNumDevices := 1; integrated := true; peers _ _ := ENABLED; RootDevice _ := None;
  SingleThreadMode := false |}.
#[local] Existing Instance integrated_context.
Definition host_copy : state := (urMemBufferCreate UR_MEM_FLAG_USE_HOST_POINTER 8 64 (initial own_address).1).2.
Definition overwritten : state := (appendMemBufferWrite 0 1 true 0 8 16 [] None host_copy).2.
(** The last release of a buffer that was made of plain host memory, which the
    driver does not know, does not copy its bytes back. *)
Theorem plain_memory_not_copied_back :
  read_bytes 1 2 overwritten = inr [16; 17] ∧ (urMemRelease 1 overwritten).1 = inr () ∧
  mems (urMemRelease 1 overwritten).2 !! 1 = None ∧ mem (urMemRelease 1 overwritten).2 64 = 64.
Proof. vm_compute. done. Qed.
End integrated.
End L0Props.
